(* ===== verification/_CoqProject ===== *)
-Q . S2P
Prelude.v
PyVal.v
StageCache.v
SpeakerCache.v
AdmissionShm.v
Replicas.v
Coordinator.v
CoordinatorProps.v
Proto.v
UpdateJournal.v
RouterWorker.v
VoiceRouting.v
CounterLedger.v
WorkerSnapshot.v
WeightUpdate.v
FailureReports.v
Supervisor.v
SupervisorProps.v
TranscriptionChunking.v
TranscriptionRun.v
Subtitles.v
StageInput.v
StageRuntime.v
SimpleScheduler.v
ThreadedScheduler.v
KVPages.v
KVTransfer.v
StreamingScheduler.v
AudioBuffer.v
RealtimeAudio.v
RealtimeSession.v
RealtimeTasks.v
RealtimeProps.v
