(* ===== verification/Prelude.v ===== *)
(** * SGLang-Omni: a verification development

    SGLang-Omni serves omni-modal models.  A model is a pipeline of stages run by
    processes; the coordinator admits a request, sends it to the entry stage, fans
    completions in from the terminal stages and streams chunks back.  Stages cache
    outputs and speaker artifacts.  In front, a router (one control plane and
    several data-plane processes) balances requests over workers and takes them out
    of service while their weights change.  The HTTP layer cuts long audio into
    chunk requests.  The development models this control logic, file by file, as
    executable functions and step relations, and proves what makes it correct.
    Tensor code and the models themselves are not modelled.

    ** Parts

    The library files:
    - [Prelude]: Python results ([res], [exn]: a value or a raised exception),
      ordered dicts ([od_get], [od_set], [od_del], [od_move_to_end] on association
      lists, oldest first), sorting of strings, sums, sizes of sets.
    - [PyVal]: dynamic Python values.

    Pipeline ([src/sglang_omni]):
    - [StageCache], [SpeakerCache]: [scheduling/stage_cache.py], [speaker_cache.py].
      One function per method; [cache_put] is [put], [_evict_over_budget] its
      eviction loops.  [StageCache.stage_cache_refines_map] is the refinement of a
      map with forgetting.
    - [Replicas]: [pipeline/replicas.py]: expansion of logical Processes, the names
      of instances, the binding of a request ([BindingPolicy] is the interface the
      coordinator is proved against; round-robin implements it).
    - [Coordinator], [CoordinatorProps]: [pipeline/coordinator.py].  A [Coordinator]
      is the object's attributes; a method with an [await] is split there ([submit_begin]
      and [submit_finish], [handle_completion] and [handle_completion_fail], ...).
      [Coordinator.step] is the event loop: clients submitting, streaming and
      aborting, the receive loop, abort tasks, in any interleaving.
    - [StageInput]: [pipeline/stage/input.py] and [stream_queue.py].
    - [StageRuntime]: [pipeline/stage/runtime.py]: the stage behind each instance.  Its
      input is the interface [InputHandler] with its laws, which direct and aggregated
      input implement.  A handler runs up to the await of a send; what it leaves is a
      list of [work]; [StageRuntime.step] interleaves jobs, receive tasks, aborts and
      the outbox drain.
    - [SimpleScheduler], [StreamingScheduler]: [scheduling/simple_scheduler.py] and
      [streaming_simple_scheduler.py], the loops inside the stages that compute.  [tick] is
      the loop up to the next place where another thread can come in; a client is a
      compute function or the hooks of a subclass, both parameters.
    - [ThreadedScheduler]: [scheduling/threaded_simple_scheduler.py], the same loop in front
      of a thread pool: the futures with their callbacks, the counting inbox and the
      tombstones of aborts, with every lock section a step of [ThreadedScheduler.step].
    - [KVPages], [KVTransfer]: the paged KV transfers of [comm/kv_transfer.py],
      [comm/engine.py] and [relay/cuda_ipc.py]: the checks of both sides and the copy, and
      the protocol as [KVTransfer.kstep], both engines over a network that delays, reorders
      and loses messages.
    - [Proto]: [proto/*.py]: every control-plane message with its encoder and
      decoder; the codec is a parameter with its documented law.

    Router ([src/sglang_omni_router/python]):
    - [AdmissionShm]: [admission_shm.py]: slots in shared memory behind sequence
      locks, a word store being the unit of interleaving.
    - [RouterWorker]: [worker.py], [health.py], [selector.py].
    - [VoiceRouting]: [voice_routing.py] and the selection of [proxy.py]: which speech
      requests need the worker that owns the uploaded voices; [VoiceRouting.vstep]
      interleaves mutations, requests and the reconciliation task.
    - [UpdateJournal]: [update_journal.py] over a disk with faults and crashes.
    - [WorkerSnapshot]: [snapshot.py], the worker view of [data_plane.py].
    - [WeightUpdate]: [internal_channel.py] and the weight-update transaction of
      [app.py] and [control_plane.py]; [WeightUpdate.rstep] is the running router.
    - [FailureReports]: the worker-failure endpoint of [control_plane.py].
    - [CounterLedger]: [observability.py].
    - [Supervisor]: [supervisor.py] as [Supervisor.step]: start, polling loop, restarts and
      shutdown, one operation on the system at a time, while children die, signals arrive
      and files appear between them.  [SupervisorProps] has its invariants and theorems.

    Long audio ([src/sglang_omni/serve]):
    - [TranscriptionChunking]: [transcription_chunking.py]; [Subtitles]:
      [subtitles.py]; [TranscriptionRun]: [_transcribe_audio_chunks] of
      [transcriptions.py] as a step relation.

    Realtime sessions ([src/sglang_omni/serve/realtime]):
    - [AudioBuffer]: [audio_buffer.py], on bytes, with base64 and the [wave] header.
    - [RealtimeAudio]: the VAD of [vad.py], its speech model a parameter, and the audio path
      of [session.py], from an append to the queue of committed utterances.
    - [RealtimeSession]: the rest of [session.py] as [RealtimeSession.step]: the receive loop,
      the drainer, the turn, the response with its terminal task, aborts and teardown,
      against an engine and a socket that may fail at any await.  [RealtimeTasks] has the
      invariant of the tasks ([RealtimeTasks.inv]), [RealtimeProps] the theorems.

    ** What the theorems show

    - Coordinator: an invariant of every interleaving (what is tracked is what is in
      flight, registrations belong to their calls, futures settle once), fan-in waits
      for every terminal and merges all of them, failures and fatal errors reach
      whoever waits, no stream reader is stranded; lemmas show two reachable states the code
      does not mean to reach ([failed_send_leaks_admission], [stream_can_outwait_its_request]).
    - Stages: messages of a lane are handled in order of arrival and the lanes do not
      deadlock, an aborted request leaves nothing behind, chunks are numbered without
      gaps, fan-in fires once with every source; and one reachable failure: an abort
      between two sends of a route stops the stage ([abort_mid_route_stops_stage]).
    - Schedulers: in the serial mode a request is answered once and in order, unless it is
      lost with one whose cost function raised ([cost_failure_loses_requests]), batches keep
      their limits and the loop drains; a streaming stage handles the messages of a stream in order and closes
      every stream that is opened and done, whichever came first, with one reachable failure
      ([abort_at_opening_is_lost]).
      The threaded scheduler: a request ends once, an abort takes effect wherever it finds its
      request, the work drains, and nothing is left of requests that are over.
    - KV transfers: source pages are leased until no read can touch them, a reservation is
      committed or aborted once, a cleaned-up transfer never commits, no lease is lost, and
      an accepted copy stays inside both buffers.
    - Caches: budgets and accounting after any history, eviction of the least
      recently used and no more, and (lemmas) exact deletion by voice.
    - Replicas: expansion equals a reference; names resolve both ways and a binding
      covers exactly the replicated Processes (lemmas of the file).
    - Messages: decoding what was encoded gives the message back, for all thirteen kinds,
      if [msgspec] does on the two transfer messages what its documentation says.
    - Admission: the bound that concurrent data planes can exceed only by their
      number; a slot read is never torn.
    - Router: health hysteresis, the operator's dead mark, fair and least-loaded
      selection; a request for an uploaded voice goes to its owner or nowhere, but for
      names committed after the router gave up on the answer ([late_commit_is_missed]); the
      journal is durable and a worker stays journaled until released, from a [begin] on a
      usable directory on ([UpdateJournal.ready]; [retried_begin_can_vanish] shows why);
      a data plane's view mirrors the snapshot and loses no count; a weight update
      never meets routed requests ([update_never_routes_to_targets]) and, under the same
      condition, survives crashes ([update_survives_crash]); counters and failure events count once.
    - Supervisor: an admission slot has one owner at a time and is reclaimed before the next
      generation starts, reaping a process loses none of its counts, a data plane that
      keeps dying stops the router, and a shutdown drains in order, ends, and leaves
      behind only what it could not remove: a file whose unlink failed, a directory whose
      rmdir failed, and the temporary file of a control plane that was killed
      ([killed_publisher_leaves_workdir], a lemma).
    - Realtime sessions: in every interleaving the responses follow the protocol of their
      events, a response is reported cancelled exactly when a cancellation was accepted, the
      history never holds what was truncated, cancelled or failed, and turns are never
      stuck; the utterances the VAD hears are committed once whatever the chunking, and
      sixty seconds of silence end the session ([silence_overflows]).
    - Long audio: the spans partition the waveform within their limits, chunk
      requests are answered or aborted under the concurrency bound, a transcription
      always ends, transcripts join seam by seam, timestamps read back.

    ** Conventions

    Logging, metrics text and tracing are left out.  An exception keeps its class and
    a constant message.  Integers are [Z], unbounded as in Python; machine words are
    written out where the source packs them ([AdmissionShm]).  Clock readings are
    arguments.  Floats are binary64 ([SpecFloat]) where their value matters, and
    opaque otherwise.  Code outside [src/] (numpy, torch, msgpack, the file system's
    durability contract, asyncio's queues and semaphores) is a parameter or is
    written as the step relation's rules; a fresh identity drawn from [uuid4] is an
    argument.  asyncio code is atomic between awaits.  Fuel appears twice: in
    [TranscriptionChunking.split_loop], one more than the number of samples
    ([split_partitions_the_waveform] shows it is never used up), and in
    [RealtimeAudio.process_loop], the number of bytes left ([vad_ignores_chunking] shows
    that less than a frame remains).

    ** Not modelled

    The models and their stages ([models/], [model_runner/]), the transports of [relay/] and GPU setup are numeric
    or device code; of [comm/] the payload and stream sends are left out.  Of the stage runtime,
    start, stop, admin and profiler messages and the failures of the transports (a send, a
    discarded read, an acknowledgement, what a stage called in the same process raises) are
    left out.  The concurrent mode of the simple scheduler is left out.  The scheduler around SGLang ([scheduling/omni_scheduler.py]), the process
    launcher and the OpenAI-compatible endpoints are control logic
    still to come; the router's HTTP handlers are modelled where they change state.  The Rust router, the
    benchmarks, the playground and the scripts are outside the Python package the
    development follows. *)
From stdpp Require Export functions.
From stdpp Require Export prelude strings pretty gmap list fin_maps sorting.
From Stdlib Require Export ZArith.

(** ** Python results *)

(** The exception classes the modelled code raises.  A payload keeps the data
    the program itself inspects later (a message compared by [QueueFullError],
    a limit reported by the audio buffer); interpolated diagnostics are kept as
    their constant text. *)
Inductive exn : Type :=
| ValueError (msg : string)
| TypeError (msg : string)
| KeyError (key : string)
| IndexError
| RuntimeError (msg : string)
| AssertionError (msg : string)
| OverflowError
| ZeroDivisionError
| CancelledError
| QueueFullError
| NoEligibleWorkerError
| SeqlockUnstableError
| JournalUnreadableError
| JournalUnwritableError
| OSError
| FileNotFoundError
| StaleGenerationError
| UnknownDataPlaneError
| ClientError (msg : string)
| BufferOverflow (max_bytes : Z)
| HTTPStatusError (status : Z)
| HTTPError (cls : string)
| VoiceRegistryResponseTooLargeError.

#[export] Instance exn_eq_dec : EqDecision exn.
Proof. solve_decision. Defined.

(** The outcome of a Python call: a value or a raised exception. *)
Inductive res (A : Type) : Type :=
| Ok (a : A)
| Raise (e : exn).
Arguments Ok {A} a.
Arguments Raise {A} e.

#[export] Instance res_eq_dec {A} `{EqDecision A} : EqDecision (res A).
Proof. solve_decision. Defined.

#[export] Instance res_ret : MRet res := @Ok.
#[export] Instance res_bind : MBind res := λ A B f m,
  match m with Ok a => f a | Raise e => Raise e end.
#[export] Instance res_fmap : FMap res := λ A B f m,
  match m with Ok a => Ok (f a) | Raise e => Raise e end.

(** [raise_if b e] is the statement [if b: raise e]. *)
Definition raise_if (b : bool) (e : exn) : res unit :=
  if b then Raise e else Ok tt.

Definition is_ok {A} (r : res A) : bool :=
  match r with Ok _ => true | Raise _ => false end.

(** A [for] loop whose body may raise. *)
Fixpoint foldM {A B} (f : B → A → res B) (l : list A) (b : B) : res B :=
  match l with
  | [] => Ok b
  | a :: l => b ← f b a; foldM f l b
  end.

Lemma foldM_app {A B} (f : B → A → res B) l k b :
  foldM f (l ++ k) b = (foldM f l b ≫= foldM f k).
Proof.
  revert b. induction l as [|a l IH]; intros b; simpl; [done|].
  destruct (f b a); simpl; [apply IH|done].
Qed.

Lemma bind_ok {A B} (f : A → res B) m b :
  m ≫= f = Ok b ↔ ∃ a, m = Ok a ∧ f a = Ok b.
Proof. destruct m; split; naive_solver. Qed.

Lemma raise_if_ok b e u : raise_if b e = Ok u ↔ b = false.
Proof. destruct b, u; naive_solver. Qed.

(** Case analysis on the scrutinee of every [match] or [if] of the goal and of
    the hypotheses, closing the contradictory branches. *)
Ltac break_match :=
  repeat (case_match; simplify_eq/=).

(** Equality of tuples, componentwise. *)
Ltac pair_eq :=
  repeat match goal with |- (_, _) = (_, _) => apply f_equal2 end.

Ltac bool_simpl :=
  repeat match goal with
  | H : bool_decide _ = true |- _ => apply bool_decide_eq_true in H
  | H : bool_decide _ = false |- _ => apply bool_decide_eq_false in H
  | H : (_ && _) = true |- _ => apply andb_true_iff in H as [? ?]
  | H : (_ || _) = false |- _ => apply orb_false_iff in H as [? ?]
  | H : negb _ = true |- _ => apply negb_true_iff in H
  | H : negb _ = false |- _ => apply negb_false_iff in H
  | H : Is_true _ |- _ => apply Is_true_true in H
  end.

Lemma filter_none {A} (P : A → Prop) `{∀ x, Decision (P x)} l :
  Forall (λ x, ¬ P x) l → filter P l = [].
Proof. induction 1; [done|]. by rewrite filter_cons, decide_False. Qed.

(** ** Python integer helpers *)

(** [sum(...)] over integers. *)
Definition zsum (l : list Z) : Z := foldr Z.add 0%Z l.

Lemma zsum_app l k : zsum (l ++ k) = (zsum l + zsum k)%Z.
Proof. induction l as [|x l IH]; simpl; [done|]. rewrite IH. lia. Qed.

Lemma zsum_nonneg l : Forall (λ x, 0 ≤ x)%Z l → (0 ≤ zsum l)%Z.
Proof. induction 1; simpl; lia. Qed.

Lemma zsum_perm l k : l ≡ₚ k → zsum l = zsum k.
Proof. induction 1; simpl; lia. Qed.

(** ** Ordered dictionaries

    A Python [dict] (or [OrderedDict]) with string keys whose insertion order
    matters: an association list, oldest entry first. *)
Section odict.
Context {V : Type}.
Implicit Types (d : list (string * V)) (k : string) (v : V).

Definition od_keys d : list string := d.*1.

Fixpoint od_get k d : option V :=
  match d with
  | [] => None
  | (k', v) :: d => if decide (k = k') then Some v else od_get k d
  end.

(** [d.pop(k, None)]: the remaining entries keep their order. *)
Definition od_del k d : list (string * V) := filter (λ e, e.1 ≠ k) d.

(** [d[k] = v]: in place for a present key, appended for a new one. *)
Fixpoint od_set k v d : list (string * V) :=
  match d with
  | [] => [(k, v)]
  | (k', v') :: d => if decide (k = k') then (k', v) :: d else (k', v') :: od_set k v d
  end.

(** [d.move_to_end(k)] for a present key. *)
Definition od_move_to_end k d : list (string * V) :=
  match od_get k d with
  | Some v => od_del k d ++ [(k, v)]
  | None => d
  end.

Lemma od_get_Some_elem k v d : od_get k d = Some v → (k, v) ∈ d.
Proof. induction d as [|[k' v'] d IH]; simpl; [done|]. case_decide; set_solver. Qed.

Lemma od_get_None k d : od_get k d = None ↔ k ∉ od_keys d.
Proof. induction d as [|[k' v'] d IH]; simpl; [set_solver|]. case_decide; set_solver. Qed.

Lemma od_get_elem k v d : NoDup (od_keys d) → (k, v) ∈ d → od_get k d = Some v.
Proof.
  induction d as [|[k' v'] d IH]; simpl; [set_solver|].
  intros [Hk Hd]%NoDup_cons [?|Hin]%elem_of_cons; simplify_eq; [by rewrite decide_True|].
  rewrite decide_False; [by apply IH|].
  intros ->. apply Hk. apply list_elem_of_fmap. by exists (k', v).
Qed.

Lemma od_keys_del k d : od_keys (od_del k d) = filter (.≠ k) (od_keys d).
Proof.
  induction d as [|[k' v'] d IH]; [done|]. unfold od_del, od_keys in *.
  rewrite fmap_cons, !filter_cons; simpl. case_decide; simpl; [by f_equal|done].
Qed.

Lemma od_del_NoDup k d : NoDup (od_keys d) → NoDup (od_keys (od_del k d)).
Proof. intros ?. rewrite od_keys_del. by apply NoDup_filter. Qed.

Lemma od_del_notin k d : k ∉ od_keys (od_del k d).
Proof. rewrite od_keys_del, list_elem_of_filter. naive_solver. Qed.

Lemma od_del_id k d : k ∉ od_keys d → od_del k d = d.
Proof.
  intros Hk. unfold od_del. induction d as [|[k' v'] d IH]; [done|].
  rewrite filter_cons; simpl in *. rewrite decide_True by set_solver.
  f_equal. apply IH. set_solver.
Qed.

Lemma od_del_cons_ne k k' v d : k ≠ k' → od_del k ((k', v) :: d) = (k', v) :: od_del k d.
Proof. intros. unfold od_del. rewrite filter_cons, decide_True; [done|simpl; congruence]. Qed.

Lemma od_del_cons_eq k v d : od_del k ((k, v) :: d) = od_del k d.
Proof. unfold od_del. rewrite filter_cons, decide_False; [done|simpl; naive_solver]. Qed.

Lemma od_get_del k k' d :
  od_get k (od_del k' d) = if decide (k = k') then None else od_get k d.
Proof.
  induction d as [|[k'' v] d IH]; [by case_decide|].
  destruct (decide (k' = k'')) as [->|].
  - rewrite od_del_cons_eq, IH. simpl. repeat case_decide; congruence.
  - rewrite od_del_cons_ne by done. simpl. rewrite IH. repeat case_decide; congruence.
Qed.

Lemma od_get_app k d d' :
  od_get k (d ++ d') = match od_get k d with Some v => Some v | None => od_get k d' end.
Proof. induction d as [|[k' v] d IH]; simpl; [done|]. by case_decide. Qed.

Lemma od_get_set k k' v d :
  od_get k (od_set k' v d) = if decide (k = k') then Some v else od_get k d.
Proof.
  induction d as [|[k'' v''] d IH]; simpl; [done|].
  repeat (case_decide; simplify_eq/=); congruence.
Qed.

Lemma od_set_fresh k v d : k ∉ od_keys d → od_set k v d = d ++ [(k, v)].
Proof.
  induction d as [|[k' v'] d IH]; simpl; [done|]. intros Hk.
  rewrite decide_False by set_solver. f_equal. apply IH. set_solver.
Qed.

Lemma od_keys_set k v d :
  od_keys (od_set k v d) = if decide (k ∈ od_keys d) then od_keys d else od_keys d ++ [k].
Proof.
  induction d as [|[k' v'] d IH]; simpl; [done|].
  destruct (decide (k = k')) as [->|Hne]; [by rewrite decide_True by set_solver|].
  simpl. rewrite IH. repeat case_decide; set_solver.
Qed.

Lemma od_set_NoDup k v d : NoDup (od_keys d) → NoDup (od_keys (od_set k v d)).
Proof.
  intros Hd. rewrite od_keys_set. case_decide; [done|].
  apply NoDup_app. split_and!; [done|set_solver|apply NoDup_singleton].
Qed.

Lemma od_set_not_nil k v d : od_set k v d ≠ [].
Proof. destruct d as [|[k' v'] d]; simpl; [done|]. by case_decide. Qed.

Lemma od_set_keys k v d : (list_to_set (od_keys (od_set k v d)) : gset string) = {[k]} ∪ list_to_set (od_keys d).
Proof. rewrite od_keys_set. case_decide; set_solver. Qed.

Lemma od_get_perm k v d : NoDup (od_keys d) → od_get k d = Some v → d ≡ₚ (k, v) :: od_del k d.
Proof.
  induction d as [|[k' v'] d IH]; simpl; [done|]. intros [Hk' Hd]%NoDup_cons. case_decide as E.
  - intros [= ->]. subst k'. by rewrite od_del_cons_eq, od_del_id.
  - intros Hg. rewrite od_del_cons_ne by done. rewrite (IH Hd Hg) at 1. constructor.
Qed.

Lemma od_set_perm k v d : NoDup (od_keys d) → od_set k v d ≡ₚ (k, v) :: od_del k d.
Proof.
  induction d as [|[k' v'] d IH]; simpl; [done|]. intros [Hk' Hd]%NoDup_cons. case_decide as E.
  - subst k'. by rewrite od_del_cons_eq, od_del_id.
  - rewrite od_del_cons_ne by done. rewrite (IH Hd). constructor.
Qed.

Lemma od_move_to_end_perm k d :
  NoDup (od_keys d) → od_move_to_end k d ≡ₚ d.
Proof.
  unfold od_move_to_end. destruct (od_get k d) as [v|] eqn:Hk; [|done].
  induction d as [|[k' v'] d IH]; simpl in *; [done|].
  intros [Hk' Hd]%NoDup_cons. case_decide as E.
  - simplify_eq. rewrite od_del_cons_eq, od_del_id by done.
    by rewrite Permutation_app_comm.
  - rewrite od_del_cons_ne by done. simpl. constructor. by apply IH.
Qed.

(** [d.pop(k, None); d[k] = v; d.move_to_end(k)]. *)
Lemma od_reinsert k v d :
  od_move_to_end k (od_set k v (od_del k d)) = od_del k d ++ [(k, v)].
Proof.
  unfold od_move_to_end. rewrite od_get_set, decide_True by done.
  rewrite od_set_fresh by apply od_del_notin. f_equal.
  unfold od_del. rewrite filter_app, list_filter_filter.
  rewrite (filter_cons_False _ (k, v)), filter_nil, app_nil_r by (simpl; naive_solver).
  apply list_filter_iff. naive_solver.
Qed.

Lemma od_reinsert_NoDup k v d :
  NoDup (od_keys d) → NoDup (od_keys (od_del k d ++ [(k, v)])).
Proof.
  intros Hd. unfold od_keys. rewrite fmap_app. apply NoDup_app. split_and!.
  - by apply od_del_NoDup.
  - intros k' Hk'. simpl. intros ->%list_elem_of_singleton. by eapply od_del_notin.
  - apply NoDup_singleton.
Qed.

Lemma od_keys_drop i d : od_keys (drop i d) = drop i (od_keys d).
Proof. unfold od_keys. by rewrite fmap_drop. Qed.

Lemma od_get_drop k v i d :
  NoDup (od_keys d) → od_get k (drop i d) = Some v → od_get k d = Some v.
Proof.
  intros Hd Hk%od_get_Some_elem. apply od_get_elem; [done|].
  rewrite <-(take_drop i d). set_solver.
Qed.

Lemma od_get_move_to_end k k' d : od_get k (od_move_to_end k' d) = od_get k d.
Proof.
  unfold od_move_to_end. destruct (od_get k' d) as [v|] eqn:Hk'; [|done].
  rewrite od_get_app, od_get_del. simpl.
  repeat case_decide; simplify_eq; try done; by destruct (od_get k d).
Qed.
End odict.

(** ** Strings

    A Python [str] is a byte string here; text whose code points matter is
    modelled as a list of integers where it occurs. *)
(** [sep.join(parts)] *)
Fixpoint join_with (sep : Ascii.ascii) (parts : list string) : string :=
  match parts with
  | [] => ""
  | [p] => p
  | p :: ps => p +:+ String sep (join_with sep ps)
  end.

(** [s.split(sep, maxsplit)]; [cur] accumulates the current piece. *)
Fixpoint split_max (sep : Ascii.ascii) (maxsplit : nat) (s : string) (cur : string) : list string :=
  match s with
  | EmptyString => [cur]
  | String c s' =>
      match maxsplit with
      | S n => if Ascii.eqb c sep then cur :: split_max sep n s' ""
               else split_max sep maxsplit s' (cur +:+ String c "")
      | O => [cur +:+ s]
      end
  end.

Fixpoint all_chars (P : Ascii.ascii → bool) (s : string) : bool :=
  match s with
  | EmptyString => true
  | String c s' => P c && all_chars P s'
  end.

(** A string without the character [sep]. *)
Definition free_of (sep : Ascii.ascii) : string → bool := all_chars (λ c, negb (Ascii.eqb c sep)).

Definition is_digit (c : Ascii.ascii) : bool :=
  bool_decide (48 ≤ Ascii.nat_of_ascii c ≤ 57).

Lemma string_app_assoc (a b c : string) : (a +:+ b) +:+ c = a +:+ (b +:+ c).
Proof.
  induction a as [|x a IH]; [done|].
  change (String x ((a +:+ b) +:+ c) = String x (a +:+ (b +:+ c))). by rewrite IH.
Qed.

Lemma string_app_nil_r (a : string) : a +:+ "" = a.
Proof. induction a as [|x a IH]; [done|]. change (String x (a +:+ "") = String x a). by rewrite IH. Qed.

Lemma all_chars_app P a b : all_chars P (a +:+ b) = all_chars P a && all_chars P b.
Proof.
  induction a as [|x a IH]; [done|].
  change (P x && all_chars P (a +:+ b) = P x && all_chars P a && all_chars P b).
  by rewrite IH, andb_assoc.
Qed.

Lemma all_chars_impl (P Q : Ascii.ascii → bool) s :
  (∀ c, P c = true → Q c = true) → all_chars P s = true → all_chars Q s = true.
Proof. intros HPQ. induction s as [|c s IH]; simpl; [done|]. rewrite !andb_true_iff. naive_solver. Qed.

Lemma pretty_N_char_digit x : is_digit (pretty_N_char x) = true.
Proof. unfold pretty_N_char. by repeat case_match. Qed.

Lemma pretty_N_go_digits x s :
  all_chars is_digit s = true → all_chars is_digit (pretty_N_go x s) = true.
Proof.
  revert s. induction (N.lt_wf_0 x) as [x _ IH]; intros s Hs.
  assert (x = 0 ∨ 0 < x)%N as [->|?] by lia; [by rewrite pretty_N_go_0|].
  rewrite pretty_N_go_step by done. apply IH; [by apply N.div_lt|].
  simpl. by rewrite pretty_N_char_digit, Hs.
Qed.

Lemma pretty_N_digits (x : N) : all_chars is_digit (pretty x) = true.
Proof. unfold pretty, pretty_N. case_decide; [done|]. by apply pretty_N_go_digits. Qed.

(** A decimal integer is digits, after a minus sign if it is negative. *)
Lemma pretty_Z_chars (z : Z) (P : Ascii.ascii → bool) :
  P (Ascii.ascii_of_nat 45) = true → (∀ c, is_digit c = true → P c = true) → all_chars P (pretty z) = true.
Proof.
  intros Hm Hd. destruct z as [|p|p].
  - change (P (Ascii.ascii_of_nat 48) && true = true). by rewrite Hd.
  - eapply all_chars_impl; [apply Hd|]. apply (pretty_N_digits (Npos p)).
  - change (P (Ascii.ascii_of_nat 45) && all_chars P (pretty (Npos p)) = true). rewrite Hm. simpl.
    eapply all_chars_impl; [apply Hd|]. apply pretty_N_digits.
Qed.

Lemma split_max_piece sep n p rest cur :
  free_of sep p = true →
  split_max sep (S n) (p +:+ String sep rest) cur = (cur +:+ p) :: split_max sep n rest "".
Proof.
  revert cur. induction p as [|c p IH]; intros cur Hp.
  - simpl. by rewrite Ascii.eqb_refl, string_app_nil_r.
  - change (String c p +:+ String sep rest) with (String c (p +:+ String sep rest)).
    unfold free_of in Hp. simpl in Hp. apply andb_true_iff in Hp as [Hc Hp].
    apply negb_true_iff in Hc. simpl. rewrite Hc, IH by done. by rewrite string_app_assoc.
Qed.

Lemma split_max_0 sep s cur : split_max sep 0 s cur = [cur +:+ s].
Proof. destruct s; simpl; [by rewrite string_app_nil_r|done]. Qed.

(** [sorted] of strings: code-point order, which is byte order in UTF-8. *)
Definition string_le (a b : string) : Prop := String.leb a b = true.
#[export] Instance string_le_dec a b : Decision (string_le a b).
Proof. unfold string_le. apply _. Defined.
Definition sort_strings : list string → list string := merge_sort string_le.

Lemma sort_strings_perm l : sort_strings l ≡ₚ l.
Proof. apply merge_sort_Permutation. Qed.

Lemma elem_of_sort_strings x l : x ∈ sort_strings l ↔ x ∈ l.
Proof. by rewrite sort_strings_perm. Qed.

Create HintDb omni.
#[export] Hint Resolve od_del_NoDup od_del_notin zsum_nonneg : omni.

(** ** Sizes of sets *)
Lemma size_list_to_set_le `{Countable A} (l : list A) : size (list_to_set l : gset A) ≤ length l.
Proof.
  induction l as [|x l IH]; simpl; [done|]. rewrite size_union_alt, size_singleton.
  assert (size (list_to_set l ∖ {[x]} : gset A) ≤ size (list_to_set l : gset A)); [|lia].
  apply subseteq_size, subseteq_difference_l. done.
Qed.
