(* ===== verification/PyVal.v ===== *)
(** * Python values

    The dynamic values that control-plane messages carry ([Any] in the source):
    what [msgpack] and the HTTP layer produce.  A [dict] keeps its insertion
    order; a [float] is opaque (its binary64 image). *)
From S2P Require Import Prelude.

Inductive pyval : Type :=
| PNone
| PBool (b : bool)
| PInt (z : Z)
| PFloat (bits : Z)
| PStr (s : string)
| PBytes (s : string)
| PList (l : list pyval)
| PDict (d : list (string * pyval)).

#[export] Instance pyval_inhabited : Inhabited pyval := populate PNone.

#[export] Instance pyval_eq_dec : EqDecision pyval.
Proof.
  unfold EqDecision, Decision. fix go 1. intros x y.
  destruct x as [|b|z|f|s|s|l|d], y as [|b'|z'|f'|s'|s'|l'|d']; try (right; discriminate).
  - left; reflexivity.
  - destruct (decide (b = b')) as [->|N]; [left; reflexivity|right; congruence].
  - destruct (decide (z = z')) as [->|N]; [left; reflexivity|right; congruence].
  - destruct (decide (f = f')) as [->|N]; [left; reflexivity|right; congruence].
  - destruct (decide (s = s')) as [->|N]; [left; reflexivity|right; congruence].
  - destruct (decide (s = s')) as [->|N]; [left; reflexivity|right; congruence].
  - destruct (@list_eq_dec _ go l l') as [->|N]; [left; reflexivity|right; congruence].
  - destruct (@list_eq_dec _ (@prod_eq_dec _ _ _ go) d d') as [->|N];
      [left; reflexivity|right; congruence].
Defined.

(** [bool(v)]; the two zeros are the only false floats. *)
Definition truthy (v : pyval) : bool :=
  match v with
  | PNone => false
  | PBool b => b
  | PInt z => bool_decide (z ≠ 0%Z)
  | PFloat bits => bool_decide (bits ≠ 0%Z ∧ bits ≠ (2 ^ 63)%Z)
  | PStr s | PBytes s => bool_decide (s ≠ "")
  | PList l => match l with [] => false | _ => true end
  | PDict d => match d with [] => false | _ => true end
  end.

(** [d.get(k)], [d.get(k, default)] and [d[k]]. *)
Definition dget (k : string) (d : list (string * pyval)) : pyval := default PNone (od_get k d).
Definition dget_or (k : string) (v : pyval) (d : list (string * pyval)) : pyval :=
  default v (od_get k d).
Definition dindex (k : string) (d : list (string * pyval)) : res pyval :=
  match od_get k d with Some v => Ok v | None => Raise (KeyError k) end.

Definition opt_str (o : option string) : pyval :=
  match o with Some s => PStr s | None => PNone end.
