(* ===== verification/StageCache.v ===== *)
(** * Stage output cache

    Models [sglang_omni/scheduling/stage_cache.py], an LRU cache bounded by entry
    count and by bytes.
    An [OrderedDict] is an association list, oldest entry first.  Torch and
    [sys.getsizeof] are parameters. *)
From S2P Require Import Prelude.

(** ** Cached values *)
Section values.
Context {T O dev : Type}.

(** The shapes the cache distinguishes by [isinstance].  [VSized] is a
    non-torch object exposing [numel] and [element_size], whose calls may
    raise ([None]). *)
Inductive cval : Type :=
| VNone
| VTensor (t : T)
| VBytes (len : nat)
| VStr (utf8_len : nat)
| VArray (nbytes : nat)
| VSized (bytes : option nat) (o : O)
| VDict (items : list (cval * cval))
| VList (items : list cval)
| VTuple (items : list cval)
| VSet (items : list cval)
| VOther (o : O).

(** The torch operations the cache calls. *)
Record torch_ops := {
  t_numel : T → Z;
  t_element_size : T → Z;
  t_detach : T → T;
  t_to : dev → T → T;
  t_is_pinned_cpu : T → bool;
  t_pinned_copy : T → option T;    (** [None]: pinning raised RuntimeError *)
  dev_is_cpu : dev → bool;
}.
Context (tp : torch_ops).

Definition _to_pinned_host (t : T) : option T :=
  if t_is_pinned_cpu tp t then Some t else t_pinned_copy tp t.

Definition detach_tensor (device : option dev) (pin_memory : bool) (t : T) : T :=
  let t := t_detach tp t in
  match device with
  | None => t
  | Some d =>
      if pin_memory && dev_is_cpu tp d then
        match _to_pinned_host t with Some h => h | None => t_to tp d t end
      else t_to tp d t
  end.

Fixpoint _detach_value (device : option dev) (pin_memory : bool) (v : cval) : cval :=
  match v with
  | VTensor t => VTensor (detach_tensor device pin_memory t)
  | VDict items =>
      VDict (map (λ '(k, x), (k, _detach_value device pin_memory x)) items)
  | VList items => VList (map (_detach_value device pin_memory) items)
  | VTuple items => VTuple (map (_detach_value device pin_memory) items)
  | _ => v
  end.

Fixpoint _value_size_bytes (v : cval) : Z :=
  match v with
  | VTensor t => t_numel tp t * t_element_size tp t
  | VBytes n => Z.of_nat n
  | VDict items => zsum (map (λ '(_, x), _value_size_bytes x) items)
  | VList items | VTuple items => zsum (map _value_size_bytes items)
  | _ => 0
  end%Z.

Fixpoint estimate_cache_bytes (getsizeof : cval → Z) (v : cval) : Z :=
  match v with
  | VNone => 0
  | VBytes n | VStr n | VArray n => Z.of_nat n
  | VTensor t => t_numel tp t * t_element_size tp t
  | VSized (Some n) _ => Z.of_nat n
  | VSized None _ => getsizeof v
  | VDict items =>
      getsizeof v +
      zsum (map (λ '(k, x), estimate_cache_bytes getsizeof k
                            + estimate_cache_bytes getsizeof x) items)
  | VList items | VTuple items | VSet items =>
      getsizeof v + zsum (map (estimate_cache_bytes getsizeof) items)
  | VOther _ => getsizeof v
  end%Z.
End values.
Arguments cval : clear implicits.
Arguments torch_ops : clear implicits.

(** A Python object: its identity and its value. *)
Record pyobj (T O : Type) := PyObj { obj_id : positive; obj_val : cval T O }.
Arguments PyObj {T O} obj_id obj_val.
Arguments obj_id {T O} p.
Arguments obj_val {T O} p.

(** Whether [_detach_value] builds a new object (tensors and rebuilt containers)
    or returns the very object it was given. *)
Definition rebuilds {T O} (v : cval T O) : bool :=
  match v with VTensor _ | VDict _ | VList _ | VTuple _ => true | _ => false end.

(** ** The cache *)
Record _CacheEntry (T O : Type) := CacheEntry { data : pyobj T O; size_bytes : Z }.
Arguments CacheEntry {T O} data size_bytes.
Arguments data {T O} _.
Arguments size_bytes {T O} _.

Record StageOutputCache (T O dev : Type) := mkCache {
  _cache : list (string * _CacheEntry T O);
  max_size : option Z;
  max_bytes : option Z;
  cache_device : option dev;
  pin_memory : bool;
  current_bytes : Z;
  eviction_count : Z;
  _size_fn : cval T O → Z;
}.
Arguments mkCache {T O dev} _ _ _ _ _ _ _ _.
Arguments _cache {T O dev} _.
Arguments max_size {T O dev} _.
Arguments max_bytes {T O dev} _.
Arguments cache_device {T O dev} _.
Arguments pin_memory {T O dev} _.
Arguments current_bytes {T O dev} _.
Arguments eviction_count {T O dev} _.
Arguments _size_fn {T O dev} _.

Section cache.
Context {T O dev : Type} (tp : torch_ops T dev).
Abbreviation cache := (StageOutputCache T O dev).
Abbreviation entries := (list (string * _CacheEntry T O)).
Implicit Types (c : cache) (l : entries).

Definition is_neg (o : option Z) : bool :=
  match o with Some n => bool_decide (n < 0)%Z | None => false end.

Definition cache_init (max_size max_bytes : option Z) (cache_device : option dev)
    (size_fn : option (cval T O → Z)) (pin_memory cuda_available : bool) : res cache :=
  _ ← raise_if (is_neg max_size) (ValueError "max_size must be non-negative");
  _ ← raise_if (is_neg max_bytes) (ValueError "max_bytes must be non-negative");
  _ ← raise_if (pin_memory && negb (match cache_device with
                                    | Some d => dev_is_cpu tp d | None => false end))
        (ValueError "pin_memory requires cache_device='cpu'");
  mret (mkCache [] max_size max_bytes cache_device (pin_memory && cuda_available) 0 0
          (match size_fn with Some f => f | None => _value_size_bytes tp end)).

Definition with_entries c l (bytes evictions : Z) : cache :=
  mkCache l (max_size c) (max_bytes c) (cache_device c) (pin_memory c)
    bytes evictions (_size_fn c).

Definition cache_get (key : option string) c : option (pyobj T O) * cache :=
  match key with
  | None => (None, c)
  | Some k =>
      match od_get k (_cache c) with
      | None => (None, c)
      | Some e => (Some (data e),
                   with_entries c (od_move_to_end k (_cache c))
                     (current_bytes c) (eviction_count c))
      end
  end.

(** [while max_size is not None and len(cache) > max_size: popitem(last=False)] *)
Fixpoint evict_count (max_size : option Z) l (bytes evictions : Z) : entries * Z * Z :=
  match max_size, l with
  | Some n, (k, e) :: l' =>
      if bool_decide (n < Z.of_nat (length l))%Z
      then evict_count max_size l' (bytes - size_bytes e) (evictions + 1)
      else (l, bytes, evictions)
  | _, _ => (l, bytes, evictions)
  end.

(** [while max_bytes is not None and current_bytes > max_bytes: ...] *)
Fixpoint evict_bytes (max_bytes : option Z) l (bytes evictions : Z) : entries * Z * Z :=
  match max_bytes with
  | Some n =>
      if bool_decide (n < bytes)%Z then
        match l with
        | [] => ([], 0, evictions)
        | (k, e) :: l' => evict_bytes max_bytes l' (bytes - size_bytes e) (evictions + 1)
        end
      else (l, bytes, evictions)
  | None => (l, bytes, evictions)
  end%Z.

Definition _evict_over_budget c : cache :=
  let '(l, b, n) := evict_count (max_size c) (_cache c) (current_bytes c) (eviction_count c) in
  let '(l, b, n) := evict_bytes (max_bytes c) l b n in
  with_entries c l b n.

(** [_CacheEntry(data=_detach_value(...))]; [new_id] is the identity Python
    gives a newly built object. *)
Definition stored_object c (new_id : positive) (d : pyobj T O) : pyobj T O :=
  PyObj (if rebuilds (obj_val d) then new_id else obj_id d)
    (_detach_value tp (cache_device c) (pin_memory c) (obj_val d)).

Definition cache_put (key : option string) (d : pyobj T O) (new_id : positive) c : cache :=
  match key with
  | None => c
  | Some k =>
      let size := _size_fn c (obj_val d) in
      let bytes := match od_get k (_cache c) with
                   | Some old => (current_bytes c - size_bytes old)%Z
                   | None => current_bytes c end in
      let l := od_del k (_cache c) in
      if match max_bytes c with Some n => bool_decide (n < size)%Z | None => false end
      then with_entries c l bytes (eviction_count c)
      else
        let e := CacheEntry (stored_object c new_id d) size in
        _evict_over_budget
          (with_entries c (od_move_to_end k (od_set k e l)) (bytes + size) (eviction_count c))
  end.

Definition cache_clear c : cache := with_entries c [] 0 (eviction_count c).

Definition remove_if_same (key : option string) (expected : pyobj T O) c : bool * cache :=
  match key with
  | None => (false, c)
  | Some k =>
      match od_get k (_cache c) with
      | None => (false, c)
      | Some e =>
          if decide (obj_id (data e) = obj_id expected)
          then (true, with_entries c (od_del k (_cache c))
                        (current_bytes c - size_bytes e) (eviction_count c))
          else (false, c)
      end
  end.

(** The two lock-protected phases of [remove_if]; other callers may run
    between them. *)
Definition remove_if_keys c : list string := od_keys (_cache c).

Fixpoint remove_if_commit (to_remove : list string) (removed : Z) c : Z * cache :=
  match to_remove with
  | [] => (removed, c)
  | k :: ks =>
      match od_get k (_cache c) with
      | None => remove_if_commit ks removed c
      | Some e =>
          remove_if_commit ks (removed + 1)
            (with_entries c (od_del k (_cache c))
               (current_bytes c - size_bytes e) (eviction_count c))
      end
  end%Z.

Definition remove_if (predicate : string → bool) c : Z * cache :=
  remove_if_commit (filter (λ k, predicate k) (remove_if_keys c)) 0 c.

Definition cache_len c : nat := length (_cache c).
End cache.

(** ** The cache invariant *)
Section cache_facts.
Context {T O dev : Type} (tp : torch_ops T dev).
Abbreviation cache := (StageOutputCache T O dev).
Abbreviation entries := (list (string * _CacheEntry T O)).
Implicit Types (c : cache) (l : entries).

Definition total_bytes l : Z := zsum (map (λ e, size_bytes e.2) l).

(** An entry list within both budgets. *)
Definition fits (max_size max_bytes : option Z) l : Prop :=
  (∀ n, max_size = Some n → (Z.of_nat (length l) ≤ n)%Z) ∧
  (∀ n, max_bytes = Some n → (total_bytes l ≤ n)%Z).

Record cache_wf c : Prop := {
  wf_keys : NoDup (od_keys (_cache c));
  wf_bytes : current_bytes c = total_bytes (_cache c);
  wf_sizes : Forall (λ e, 0 ≤ size_bytes e.2)%Z (_cache c);
  wf_fits : fits (max_size c) (max_bytes c) (_cache c);
  wf_max_size : ∀ n, max_size c = Some n → (0 ≤ n)%Z;
  wf_max_bytes : ∀ n, max_bytes c = Some n → (0 ≤ n)%Z;
}.

Lemma total_bytes_app l l' : total_bytes (l ++ l') = (total_bytes l + total_bytes l')%Z.
Proof. unfold total_bytes. by rewrite map_app, zsum_app. Qed.

Lemma total_bytes_cons k e l :
  total_bytes ((k, e) :: l) = (size_bytes e + total_bytes l)%Z.
Proof. done. Qed.

Lemma total_bytes_perm l l' : l ≡ₚ l' → total_bytes l = total_bytes l'.
Proof. intros Hp. apply zsum_perm. by rewrite Hp. Qed.

Lemma total_bytes_nonneg l :
  Forall (λ e, 0 ≤ size_bytes e.2)%Z l → (0 ≤ total_bytes l)%Z.
Proof. intros Hl. apply zsum_nonneg. by apply Forall_fmap. Qed.

Lemma total_bytes_del k l e :
  NoDup (od_keys l) → od_get k l = Some e →
  total_bytes (od_del k l) = (total_bytes l - size_bytes e)%Z.
Proof.
  intros Hnd Hk. pose proof (od_move_to_end_perm k l Hnd) as Hp.
  unfold od_move_to_end in Hp. rewrite Hk in Hp.
  rewrite <-(total_bytes_perm _ _ Hp), total_bytes_app. unfold total_bytes at 3. simpl. lia.
Qed.

Lemma Forall_od_del (P : string * _CacheEntry T O → Prop) k l :
  Forall P l → Forall P (od_del k l).
Proof. rewrite !Forall_forall. intros Hl e [_ He]%list_elem_of_filter. by apply Hl. Qed.

Lemma length_od_del k l : length (od_del k l) ≤ length l.
Proof. apply length_filter. Qed.

Lemma fits_del ms mb k l :
  NoDup (od_keys l) → Forall (λ e, 0 ≤ size_bytes e.2)%Z l →
  fits ms mb l → fits ms mb (od_del k l).
Proof.
  intros Hnd Hs [Hc Hb]. split; intros n Hn.
  - pose proof (length_od_del k l). specialize (Hc n Hn). lia.
  - specialize (Hb n Hn). destruct (od_get k l) as [e|] eqn:Hk.
    + rewrite (total_bytes_del _ _ e) by done.
      apply od_get_Some_elem in Hk. rewrite Forall_forall in Hs.
      specialize (Hs _ Hk). simpl in Hs. lia.
    + rewrite od_del_id; [done|]. by apply od_get_None.
Qed.

(** Removing entries one at a time keeps the invariant. *)
Lemma cache_wf_del c k e :
  cache_wf c → od_get k (_cache c) = Some e →
  cache_wf (with_entries c (od_del k (_cache c)) (current_bytes c - size_bytes e)
              (eviction_count c)).
Proof.
  intros [Hk Hb Hs Hf Hm Hm'] He. split; simpl; auto using fits_del, Forall_od_del with omni.
  by rewrite Hb, (total_bytes_del _ _ e).
Qed.

(** The first loop drops the least number of oldest entries that satisfies
    the count bound. *)
Lemma evict_count_spec ms l b n :
  (∀ m, ms = Some m → 0 ≤ m)%Z →
  ∃ i, evict_count ms l b n =
         (drop i l, b - total_bytes (take i l), n + Z.of_nat i)%Z ∧
       i ≤ length l ∧
       fits ms None (drop i l) ∧ ∀ j, j < i → ¬ fits ms None (drop j l).
Proof.
  intros Hms. destruct ms as [m|]; cycle 1.
  { exists 0. split_and!; [|lia|split; naive_solver|lia].
    destruct l; simpl; pair_eq; unfold total_bytes; simpl; try done; lia. }
  revert b n. induction l as [|[k e] l IH]; intros b n.
  { exists 0. split_and!; [simpl; pair_eq; unfold total_bytes; simpl; try done; lia|simpl; lia| |lia].
    split; [|done]. intros ? [= <-]. simpl. specialize (Hms m eq_refl). lia. }
  simpl. case_bool_decide as Hm.
  - destruct (IH (b - size_bytes e) (n + 1))%Z as (i & -> & Hi & Hfit & Hmin).
    exists (S i). split_and!; [simpl; rewrite ?total_bytes_cons; pair_eq; try done; lia|simpl; lia|done|].
    intros [|j] Hj; [|apply Hmin; lia]. intros [Hc _]. specialize (Hc m eq_refl). simpl in Hc. lia.
  - exists 0. split_and!; [simpl; pair_eq; unfold total_bytes; simpl; try done; lia|simpl; lia| |lia].
    split; [|done]. intros ? [= <-]. simpl. lia.
Qed.

(** The second loop does the same for the byte bound, when the running total
    it is given is the true one. *)
Lemma evict_bytes_spec mb l n :
  (∀ m, mb = Some m → 0 ≤ m)%Z →
  ∃ i, evict_bytes mb l (total_bytes l) n =
         (drop i l, total_bytes (drop i l), n + Z.of_nat i)%Z ∧
       i ≤ length l ∧
       fits None mb (drop i l) ∧ ∀ j, j < i → ¬ fits None mb (drop j l).
Proof.
  intros Hmb. destruct mb as [m|]; cycle 1.
  { exists 0. split_and!; [|lia|split; naive_solver|lia].
    destruct l; simpl; pair_eq; try done; lia. }
  specialize (Hmb m eq_refl).
  revert n. induction l as [|[k e] l IH]; intros n; simpl; case_bool_decide as Hm.
  - unfold total_bytes in Hm; simpl in Hm; lia.
  - exists 0. split_and!; [pair_eq; try done; lia|lia| |lia]. split; [done|].
    intros ? [= <-]. simpl. lia.
  - replace (total_bytes ((k, e) :: l) - size_bytes e)%Z with (total_bytes l)
      by (unfold total_bytes; simpl; lia).
    destruct (IH (n + 1)%Z) as (i & -> & Hi & Hfit & Hmin).
    exists (S i). split_and!; [simpl; pair_eq; try done; lia|lia|done|].
    intros [|j] Hj; [|apply Hmin; lia]. intros [_ Hb]. specialize (Hb m eq_refl). simpl in Hb. lia.
  - exists 0. split_and!; [simpl; pair_eq; try done; lia|lia| |lia]. split; [done|].
    intros ? [= <-]. simpl. lia.
Qed.

(** Together: the least number of oldest entries whose removal satisfies both
    budgets. *)
Lemma evict_over_budget_spec c :
  current_bytes c = total_bytes (_cache c) →
  (∀ m, max_size c = Some m → 0 ≤ m)%Z → (∀ m, max_bytes c = Some m → 0 ≤ m)%Z →
  ∃ i, _evict_over_budget c =
         with_entries c (drop i (_cache c)) (total_bytes (drop i (_cache c)))
           (eviction_count c + Z.of_nat i) ∧
       i ≤ length (_cache c) ∧
       fits (max_size c) (max_bytes c) (drop i (_cache c)) ∧
       ∀ j, j < i → ¬ fits (max_size c) (max_bytes c) (drop j (_cache c)).
Proof.
  intros Hb Hms Hmb. unfold _evict_over_budget.
  destruct (evict_count_spec (max_size c) (_cache c) (current_bytes c) (eviction_count c) Hms)
    as (i & -> & Hi & Hfit & Hmin).
  replace (current_bytes c - total_bytes (take i (_cache c)))%Z
    with (total_bytes (drop i (_cache c))); cycle 1.
  { rewrite Hb. rewrite <-(take_drop i (_cache c)) at 2. rewrite total_bytes_app. lia. }
  destruct (evict_bytes_spec (max_bytes c) (drop i (_cache c))
              (eviction_count c + Z.of_nat i) Hmb) as (i' & -> & Hi' & Hfit' & Hmin').
  rewrite length_drop in Hi'. rewrite drop_drop in *.
  exists (i + i'). split_and!; [f_equal; lia|lia| |].
  - split; [|apply Hfit']. intros n Hn. destruct Hfit as [Hfit _]. specialize (Hfit n Hn).
    rewrite length_drop in *. lia.
  - intros j Hj [Hc Hy]. destruct (decide (j < i)) as [Hlt|Hge].
    + apply (Hmin j Hlt). split; [done|naive_solver].
    + apply (Hmin' (j - i)); [lia|]. rewrite drop_drop. replace (i + (j - i)) with j by lia.
      split; [naive_solver|done].
Qed.

Lemma cache_wf_drop c i n l :
  NoDup (od_keys l) → Forall (λ e, 0 ≤ size_bytes e.2)%Z l →
  (∀ m, max_size c = Some m → 0 ≤ m)%Z → (∀ m, max_bytes c = Some m → 0 ≤ m)%Z →
  fits (max_size c) (max_bytes c) (drop i l) →
  cache_wf (with_entries c (drop i l) (total_bytes (drop i l)) n).
Proof.
  intros. split; simpl; auto using Forall_drop.
  rewrite od_keys_drop. by eapply sublist_NoDup, sublist_drop.
Qed.

(** The list [put] leaves before evicting. *)
Definition put_list c k d new_id : entries :=
  od_del k (_cache c) ++ [(k, CacheEntry (stored_object tp c new_id d) (_size_fn c (obj_val d)))].

Definition oversized c (d : pyobj T O) : bool :=
  match max_bytes c with
  | Some n => bool_decide (n < _size_fn c (obj_val d))%Z
  | None => false
  end.

(** A list of size one within budget is never evicted down to nothing. *)
Lemma minimal_drop_keeps_last ms mb l k e i :
  (∀ m, ms = Some m → 1 ≤ m)%Z → (∀ m, mb = Some m → size_bytes e ≤ m)%Z →
  i ≤ length (l ++ [(k, e)]) →
  (∀ j, j < i → ¬ fits ms mb (drop j (l ++ [(k, e)]))) →
  drop i (l ++ [(k, e)]) = drop i l ++ [(k, e)].
Proof.
  intros Hms Hmb Hi Hmin. rewrite length_app in Hi. simpl in Hi.
  destruct (decide (i ≤ length l)) as [Hle|Hgt]; [by rewrite drop_app_le|].
  exfalso. apply (Hmin (length l)); [lia|]. rewrite drop_app_length.
  split; intros m Hm; [specialize (Hms m Hm)|specialize (Hmb m Hm)];
    rewrite ?total_bytes_cons; unfold total_bytes; simpl; lia.
Qed.

(** What [put] does on a well-formed cache. *)
Lemma cache_put_spec c k d new_id :
  cache_wf c →
  if oversized c d
  then cache_put tp (Some k) d new_id c =
         with_entries c (od_del k (_cache c)) (total_bytes (od_del k (_cache c)))
           (eviction_count c)
  else ∃ i, cache_put tp (Some k) d new_id c =
              with_entries c (drop i (put_list c k d new_id))
                (total_bytes (drop i (put_list c k d new_id)))
                (eviction_count c + Z.of_nat i) ∧
            i ≤ length (put_list c k d new_id) ∧
            fits (max_size c) (max_bytes c) (drop i (put_list c k d new_id)) ∧
            ∀ j, j < i → ¬ fits (max_size c) (max_bytes c) (drop j (put_list c k d new_id)).
Proof.
  intros Hwf. unfold cache_put, oversized.
  set (b := match od_get k (_cache c) with Some _ => _ | None => _ end).
  assert (b = total_bytes (od_del k (_cache c))) as ->.
  { subst b. rewrite (wf_bytes _ Hwf). destruct (od_get k (_cache c)) as [e|] eqn:Hk.
    - by rewrite (total_bytes_del _ _ e) by eauto using wf_keys.
    - rewrite od_del_id; [done|]. by apply od_get_None. }
  destruct (match max_bytes c with Some _ => _ | None => _ end) eqn:Hbig; [done|].
  rewrite od_reinsert. fold (put_list c k d new_id).
  edestruct (evict_over_budget_spec
    (with_entries c (put_list c k d new_id)
       (total_bytes (od_del k (_cache c)) + _size_fn c (obj_val d)) (eviction_count c)))
    as (i & Heq & Hi & Hfit & Hmin); simpl in *.
  - unfold put_list. rewrite total_bytes_app, total_bytes_cons. unfold total_bytes at 3. simpl. lia.
  - apply Hwf.
  - apply Hwf.
  - exists i. by rewrite Heq.
Qed.

Lemma put_list_ok c k d new_id :
  cache_wf c → (0 ≤ _size_fn c (obj_val d))%Z →
  NoDup (od_keys (put_list c k d new_id)) ∧
  Forall (λ e, 0 ≤ size_bytes e.2)%Z (put_list c k d new_id).
Proof.
  intros Hwf Hd. split; [apply od_reinsert_NoDup, Hwf|].
  apply Forall_app. split; [apply Forall_od_del, Hwf|]. by repeat constructor.
Qed.

Lemma cache_wf_put c k d new_id :
  cache_wf c → (0 ≤ _size_fn c (obj_val d))%Z → cache_wf (cache_put tp k d new_id c).
Proof.
  destruct k as [k|]; [|done]. intros Hwf Hd.
  pose proof (cache_put_spec c k d new_id Hwf) as Hput.
  destruct (oversized c d).
  - rewrite Hput. destruct Hwf.
    split; simpl; auto using fits_del, Forall_od_del with omni.
  - destruct Hput as (i & -> & _ & Hfit & _).
    destruct (put_list_ok c k d new_id Hwf Hd). destruct Hwf. by apply cache_wf_drop.
Qed.

Lemma cache_wf_get c k : cache_wf c → cache_wf (cache_get k c).2.
Proof.
  destruct k as [k|]; [|done]. simpl. intros Hwf.
  destruct (od_get k (_cache c)) as [e|] eqn:Hk; [|done].
  pose proof (od_move_to_end_perm k (_cache c) (wf_keys _ Hwf)) as Hp.
  destruct Hwf as [Hk' Hb Hs [Hc Hy] Hm Hm']. split; simpl; try done.
  - unfold od_keys in *. by rewrite Hp.
  - by rewrite (total_bytes_perm _ _ Hp).
  - by rewrite Hp.
  - split; intros n Hn; [rewrite Hp|rewrite (total_bytes_perm _ _ Hp)]; auto.
Qed.

Lemma cache_wf_remove_commit c ks n : cache_wf c → cache_wf (remove_if_commit ks n c).2.
Proof.
  revert c n. induction ks as [|k ks IH]; intros c n Hwf; simpl; [done|].
  destruct (od_get k (_cache c)) as [e|] eqn:Hk; [|by apply IH].
  apply IH. by apply cache_wf_del.
Qed.

Lemma cache_wf_remove_same c k o : cache_wf c → cache_wf (remove_if_same k o c).2.
Proof.
  destruct k as [k|]; [|done]. simpl. intros Hwf.
  destruct (od_get k (_cache c)) as [e|] eqn:Hk; [|done].
  case_decide; [|done]. by apply cache_wf_del.
Qed.

Lemma cache_wf_clear c : cache_wf c → cache_wf (cache_clear c).
Proof.
  intros [_ _ _ _ Hm Hm']. split; simpl; try done. constructor.
Qed.

Lemma cache_wf_init ms mb dv sf pin cuda c :
  cache_init tp ms mb dv sf pin cuda = Ok c → cache_wf c.
Proof.
  unfold cache_init. intros (? & Hms%raise_if_ok & Hc)%bind_ok.
  apply bind_ok in Hc as (? & Hmb%raise_if_ok & Hc).
  apply bind_ok in Hc as (? & _ & [= <-]).
  assert (∀ o, is_neg o = false → ∀ n, o = Some n → (0 ≤ n)%Z) as Hneg.
  { intros ? Hn n ->. simpl in Hn. bool_simpl. lia. }
  split; simpl; eauto; try constructor; intros n Hn; simpl;
    [by eapply (Hneg ms)|by eapply (Hneg mb)].
Qed.
End cache_facts.

(** ** Histories

    The cache operations as data.  [OpRemoveKeys] is the second phase of
    [remove_if], run on a key list computed earlier: other operations may have
    run since. *)
Inductive cache_op (T O : Type) : Type :=
| OpGet (key : option string)
| OpPut (key : option string) (d : pyobj T O) (new_id : positive)
| OpClear
| OpRemoveSame (key : option string) (expected : pyobj T O)
| OpRemoveKeys (to_remove : list string).
Arguments OpGet {T O} key.
Arguments OpPut {T O} key d new_id.
Arguments OpClear {T O}.
Arguments OpRemoveSame {T O} key expected.
Arguments OpRemoveKeys {T O} to_remove.

Section history.
Context {T O dev : Type} (tp : torch_ops T dev).
Implicit Types c : StageOutputCache T O dev.

Definition cache_apply (op : cache_op T O) c : StageOutputCache T O dev :=
  match op with
  | OpGet k => (cache_get k c).2
  | OpPut k d i => cache_put tp k d i c
  | OpClear => cache_clear c
  | OpRemoveSame k o => (remove_if_same k o c).2
  | OpRemoveKeys ks => (remove_if_commit ks 0 c).2
  end.

Definition cache_run (ops : list (cache_op T O)) c : StageOutputCache T O dev :=
  fold_left (λ c op, cache_apply op c) ops c.

Lemma cache_apply_wf op c :
  (∀ v, 0 ≤ _size_fn c v)%Z → cache_wf c → cache_wf (cache_apply op c).
Proof.
  intros Hsz Hwf. destruct op; simpl.
  - by apply cache_wf_get.
  - by apply cache_wf_put.
  - by apply cache_wf_clear.
  - by apply cache_wf_remove_same.
  - by apply cache_wf_remove_commit.
Qed.

Lemma remove_commit_config ks n c :
  let c' := (remove_if_commit ks n c).2 in
  _size_fn c' = _size_fn c ∧ max_size c' = max_size c ∧ max_bytes c' = max_bytes c ∧
  cache_device c' = cache_device c ∧ pin_memory c' = pin_memory c.
Proof.
  revert n c. induction ks as [|k ks IH]; intros n c; simpl; [done|].
  destruct (od_get k (_cache c)) as [e|]; [|apply IH].
  destruct (IH (n + 1)%Z (with_entries c (od_del k (_cache c))
              (current_bytes c - size_bytes e) (eviction_count c))) as (-> & -> & -> & -> & ->).
  done.
Qed.

(** No operation changes the cache's configuration. *)
Lemma cache_apply_config op c :
  let c' := cache_apply op c in
  _size_fn c' = _size_fn c ∧ max_size c' = max_size c ∧ max_bytes c' = max_bytes c ∧
  cache_device c' = cache_device c ∧ pin_memory c' = pin_memory c.
Proof.
  destruct op as [[k|]|[k|] d i| |[k|] o|ks]; simpl; try done.
  - by destruct (od_get k (_cache c)).
  - destruct (match max_bytes c with Some _ => _ | None => _ end); [done|].
    unfold _evict_over_budget. by repeat case_match.
  - destruct (od_get k (_cache c)); [|done]. by case_decide.
  - apply remove_commit_config.
Qed.

Lemma cache_run_wf ops c :
  (∀ v, 0 ≤ _size_fn c v)%Z → cache_wf c → cache_wf (cache_run ops c).
Proof.
  revert c. induction ops as [|op ops IH]; intros c Hsz Hwf; simpl; [done|].
  apply IH; [|by apply cache_apply_wf].
  destruct (cache_apply_config op c) as (-> & _). done.
Qed.

Lemma cache_run_config ops c :
  let c' := cache_run ops c in
  _size_fn c' = _size_fn c ∧ max_size c' = max_size c ∧ max_bytes c' = max_bytes c ∧
  cache_device c' = cache_device c ∧ pin_memory c' = pin_memory c.
Proof.
  revert c. induction ops as [|op ops IH]; intros c; simpl; [done|].
  destruct (IH (cache_apply op c)) as (-> & -> & -> & -> & ->). apply cache_apply_config.
Qed.

Lemma cache_init_config ms mb dv sf pin cuda c :
  cache_init tp ms mb dv sf pin cuda = Ok c →
  max_size c = ms ∧ max_bytes c = mb ∧ cache_device c = dv ∧ _cache c = [] ∧
  _size_fn c = match sf with Some f => f | None => _value_size_bytes tp end.
Proof.
  unfold cache_init. intros (? & _ & (? & _ & (? & _ & [= <-])%bind_ok)%bind_ok)%bind_ok.
  done.
Qed.
End history.

(** ** Refinement to a finite map

    The abstract cache: a map that never evicts. *)
Section refinement.
Context {T O dev : Type} (tp : torch_ops T dev).
Implicit Types c : StageOutputCache T O dev.
Implicit Types m : gmap string (pyobj T O).

Definition map_apply (cfg : StageOutputCache T O dev) (op : cache_op T O) m
    : gmap string (pyobj T O) :=
  match op with
  | OpGet _ => m
  | OpPut (Some k) d i =>
      if oversized cfg d then delete k m else <[k := stored_object tp cfg i d]> m
  | OpPut None _ _ => m
  | OpClear => ∅
  | OpRemoveSame (Some k) o =>
      match m !! k with
      | Some d => if decide (obj_id d = obj_id o) then delete k m else m
      | None => m
      end
  | OpRemoveSame None _ => m
  | OpRemoveKeys ks => foldr delete m ks
  end.

Definition map_run cfg (ops : list (cache_op T O)) m := fold_left (λ m op, map_apply cfg op m) ops m.

(** Every cached object is the one the map holds. *)
Definition included c m : Prop :=
  ∀ k e, od_get k (_cache c) = Some e → m !! k = Some (data e).

(** The two agree on every key. *)
Definition agrees c m : Prop := ∀ k, m !! k = data <$> od_get k (_cache c).

Lemma lookup_delete_list m ks k :
  foldr delete m ks !! k = if decide (k ∈ ks) then None else m !! k.
Proof.
  induction ks as [|k' ks IH]; simpl; [done|]. rewrite lookup_delete, IH.
  repeat case_decide; set_solver.
Qed.

Lemma get_remove_commit ks n c k :
  od_get k (_cache (remove_if_commit ks n c).2) =
  if decide (k ∈ ks) then None else od_get k (_cache c).
Proof.
  revert n c. induction ks as [|k' ks IH]; intros n c; simpl; [done|].
  destruct (od_get k' (_cache c)) as [e|] eqn:Hk'; rewrite IH; simpl.
  - rewrite od_get_del. repeat case_decide; set_solver.
  - repeat case_decide; set_solver.
Qed.

Lemma get_after_cache_get c k k' : od_get k (_cache (cache_get k' c).2) = od_get k (_cache c).
Proof.
  destruct k' as [k'|]; [|done]. simpl. destruct (od_get k' (_cache c)); [|done].
  apply od_get_move_to_end.
Qed.

Lemma get_put_list c k d i k' :
  od_get k' (put_list tp c k d i) =
  if decide (k' = k) then Some (CacheEntry (stored_object tp c i d) (_size_fn c (obj_val d)))
  else od_get k' (_cache c).
Proof.
  unfold put_list. rewrite od_get_app, od_get_del. simpl.
  repeat case_decide; try done. by destruct (od_get k' (_cache c)).
Qed.

Lemma put_included c m k d i :
  cache_wf c → (0 ≤ _size_fn c (obj_val d))%Z → included c m →
  included (cache_put tp (Some k) d i c) (map_apply c (OpPut (Some k) d i) m).
Proof.
  intros Hwf Hd Hin. pose proof (cache_put_spec tp c k d i Hwf) as Hput. simpl map_apply.
  destruct (oversized c d).
  - rewrite Hput. intros k' e. simpl. rewrite od_get_del, lookup_delete.
    case_decide; [done|]. intros He. rewrite decide_False by done. by apply Hin.
  - destruct Hput as (j & -> & _). intros k' e. simpl. intros He%od_get_drop;
      [|by apply put_list_ok].
    rewrite get_put_list in He. rewrite lookup_insert.
    repeat case_decide; simplify_eq; try done. by apply Hin.
Qed.

Lemma put_agrees c m k d i :
  max_size c = None → max_bytes c = None → cache_wf c → agrees c m →
  agrees (cache_put tp (Some k) d i c) (map_apply c (OpPut (Some k) d i) m).
Proof.
  intros Hms Hmb Hwf Hag. pose proof (cache_put_spec tp c k d i Hwf) as Hput.
  simpl map_apply. unfold oversized in *. rewrite Hmb in *.
  destruct Hput as (j & -> & _ & _ & Hmin). destruct j as [|j]; cycle 1.
  { destruct (Hmin 0); [lia|]. rewrite Hms. by split. }
  intros k'. unfold with_entries; cbn [_cache]. rewrite drop_0, get_put_list, lookup_insert.
  repeat case_decide; simplify_eq; done.
Qed.

Lemma apply_included c m op :
  (∀ v, 0 ≤ _size_fn c v)%Z → cache_wf c → included c m →
  included (cache_apply tp op c) (map_apply c op m).
Proof.
  intros Hsz Hwf Hin. destruct op as [k|[k|] d i| |[k|] o|ks]; simpl; try done.
  - intros k' e. rewrite get_after_cache_get. apply Hin.
  - by apply put_included.
  - destruct (od_get k (_cache c)) as [e|] eqn:Hk.
    + rewrite (Hin _ _ Hk). case_decide; [|done]. intros k' e'. simpl.
      rewrite od_get_del, lookup_delete. case_decide; [done|].
      rewrite decide_False by done. apply Hin.
    + intros k' e' He'. simpl in He'. assert (k ≠ k') by congruence.
      destruct (m !! k); [|by apply Hin].
      case_decide; [rewrite lookup_delete_ne by done|]; by apply Hin.
  - intros k e. rewrite get_remove_commit, lookup_delete_list.
    case_decide; [done|]. apply Hin.
Qed.

Lemma apply_agrees c m op :
  max_size c = None → max_bytes c = None → cache_wf c → agrees c m →
  agrees (cache_apply tp op c) (map_apply c op m).
Proof.
  intros Hms Hmb Hwf Hag. destruct op as [k|[k|] d i| |[k|] o|ks]; simpl; try done.
  - intros k'. rewrite get_after_cache_get. apply Hag.
  - by apply put_agrees.
  - rewrite (Hag k). destruct (od_get k (_cache c)) as [e|] eqn:Hk; simpl; [|done].
    case_decide; [|done]. intros k'. simpl. rewrite od_get_del, lookup_delete.
    repeat case_decide; simplify_eq; done.
  - intros k. rewrite get_remove_commit, lookup_delete_list.
    case_decide; [done|]. apply Hag.
Qed.

Lemma map_apply_config c c' op m :
  _size_fn c' = _size_fn c → max_bytes c' = max_bytes c →
  cache_device c' = cache_device c → pin_memory c' = pin_memory c →
  map_apply c' op m = map_apply c op m.
Proof.
  intros Hs Hb Hd Hp. destruct op as [k|[k|] d i| |[k|] o|ks]; simpl; try done.
  unfold oversized, stored_object. by rewrite Hs, Hb, Hd, Hp.
Qed.

Lemma run_refines cfg c m ops :
  (∀ v, 0 ≤ _size_fn c v)%Z → cache_wf c →
  _size_fn c = _size_fn cfg → max_size c = max_size cfg → max_bytes c = max_bytes cfg →
  cache_device c = cache_device cfg → pin_memory c = pin_memory cfg →
  included c m →
  (max_size cfg = None → max_bytes cfg = None → agrees c m) →
  included (cache_run tp ops c) (map_run cfg ops m) ∧
  (max_size cfg = None → max_bytes cfg = None →
   agrees (cache_run tp ops c) (map_run cfg ops m)).
Proof.
  revert c m. induction ops as [|op ops IH]; intros c m Hsz Hwf Es Em Eb Ed Ep Hin Hag; simpl.
  { done. }
  destruct (cache_apply_config tp op c) as (Es' & Em' & Eb' & Ed' & Ep').
  apply IH; try congruence.
  - by apply cache_apply_wf.
  - rewrite <-(map_apply_config cfg c) by done. by apply apply_included.
  - intros H1 H2. rewrite <-(map_apply_config cfg c) by done.
    apply apply_agrees; [congruence|congruence|done|auto].
Qed.
End refinement.

(** ** Byte accounting

    [current_bytes] counts the objects handed to [put]; detaching and moving a
    tensor does not change its size, so it also counts the objects stored. *)
Class TorchSizes {T dev} (tp : torch_ops T dev) : Prop := {
  numel_nonneg t : (0 ≤ t_numel tp t)%Z;
  element_size_nonneg t : (0 ≤ t_element_size tp t)%Z;
  detach_numel t : t_numel tp (t_detach tp t) = t_numel tp t;
  detach_element_size t : t_element_size tp (t_detach tp t) = t_element_size tp t;
  to_numel d t : t_numel tp (t_to tp d t) = t_numel tp t;
  to_element_size d t : t_element_size tp (t_to tp d t) = t_element_size tp t;
  pinned_numel t t' : t_pinned_copy tp t = Some t' → t_numel tp t' = t_numel tp t;
  pinned_element_size t t' :
    t_pinned_copy tp t = Some t' → t_element_size tp t' = t_element_size tp t;
}.

Section accounting.
Context {T O dev : Type} (tp : torch_ops T dev) `{!TorchSizes tp}.
Implicit Types c : StageOutputCache T O dev.

Lemma detach_tensor_size dv pin t :
  (t_numel tp (detach_tensor tp dv pin t) * t_element_size tp (detach_tensor tp dv pin t)
   = t_numel tp t * t_element_size tp t)%Z.
Proof.
  unfold detach_tensor, _to_pinned_host. destruct dv as [d|]; repeat case_match;
    simplify_eq; rewrite ?to_numel, ?to_element_size, ?detach_numel, ?detach_element_size;
    try done.
  match goal with H : t_pinned_copy _ _ = Some _ |- _ =>
    rewrite (pinned_numel _ _ H), (pinned_element_size _ _ H) end.
  by rewrite detach_numel, detach_element_size.
Qed.

Lemma detach_value_size dv pin (v : cval T O) :
  _value_size_bytes tp (_detach_value tp dv pin v) = _value_size_bytes tp v.
Proof.
  revert v. fix IH 1. intros [|t|n|n|n|n o|items|items|items|items|o]; simpl; try done.
  - apply detach_tensor_size.
  - f_equal. induction items as [|[k x] items IHi]; simpl; [done|]. by rewrite IH, IHi.
  - f_equal. induction items as [|x items IHi]; simpl; [done|]. by rewrite IH, IHi.
  - f_equal. induction items as [|x items IHi]; simpl; [done|]. by rewrite IH, IHi.
Qed.

Lemma value_size_nonneg (v : cval T O) : (0 ≤ _value_size_bytes tp v)%Z.
Proof.
  revert v. fix IH 1. intros [|t|n|n|n|n o|items|items|items|items|o]; simpl; try lia.
  - pose proof (numel_nonneg t). pose proof (element_size_nonneg t). nia.
  - induction items as [|[k x] items IHi]; simpl; [lia|]. specialize (IH x). lia.
  - induction items as [|x items IHi]; simpl; [lia|]. specialize (IH x). lia.
  - induction items as [|x items IHi]; simpl; [lia|]. specialize (IH x). lia.
Qed.

(** An entry whose recorded size is the size of the data it stores. *)
Definition sized (e : string * _CacheEntry T O) : Prop :=
  size_bytes e.2 = _value_size_bytes tp (obj_val (data e.2)).

Lemma remove_commit_sized ks n c :
  Forall sized (_cache c) → Forall sized (_cache (remove_if_commit ks n c).2).
Proof.
  revert n c. induction ks as [|k ks IH]; intros n c Hc; simpl; [done|].
  destruct (od_get k (_cache c)); apply IH; [by apply Forall_od_del|done].
Qed.

Lemma apply_sized op c :
  _size_fn c = _value_size_bytes tp → cache_wf c →
  Forall sized (_cache c) → Forall sized (_cache (cache_apply tp op c)).
Proof.
  intros Hs Hwf Hc. destruct op as [[k|]|[k|] d i| |[k|] o|ks];
    cbn [cache_apply cache_clear]; try done.
  - simpl. destruct (od_get k (_cache c)) as [e|] eqn:Hk; [|done]. simpl.
    by rewrite (od_move_to_end_perm _ _ (wf_keys _ Hwf)).
  - pose proof (cache_put_spec tp c k d i Hwf) as Hput. destruct (oversized c d).
    + rewrite Hput. by apply Forall_od_del.
    + destruct Hput as (j & -> & _). apply Forall_drop, Forall_app. split.
      * by apply Forall_od_del.
      * repeat constructor. unfold sized; simpl. by rewrite Hs, detach_value_size.
  - simpl. destruct (od_get k (_cache c)); [|done]. case_decide; [|done]. by apply Forall_od_del.
  - by apply remove_commit_sized.
Qed.

Lemma run_sized ops c :
  _size_fn c = _value_size_bytes tp → (∀ v, 0 ≤ _size_fn c v)%Z → cache_wf c →
  Forall sized (_cache c) → Forall sized (_cache (cache_run tp ops c)).
Proof.
  revert c. induction ops as [|op ops IH]; intros c Hs Hz Hwf Hc; simpl; [done|].
  destruct (cache_apply_config tp op c) as (Hs' & _).
  apply IH; [congruence|intros v; by rewrite Hs'|by apply cache_apply_wf|by apply apply_sized].
Qed.
End accounting.

(** ** Properties *)
Section properties.
Context {T O dev : Type} (tp : torch_ops T dev).
Implicit Types c : StageOutputCache T O dev.

(** From a freshly constructed cache, after any sequence of gets, puts,
    clears, conditional removals and second phases of [remove_if], the keys
    are unique, the byte counter is the sum over the stored entries, and both
    budgets hold. *)
Theorem stage_cache_invariant ms mb dv sf pin cuda c ops :
  cache_init tp ms mb dv sf pin cuda = Ok c →
  (∀ v, 0 ≤ _size_fn c v)%Z →
  let c' := cache_run tp ops c in
  NoDup (od_keys (_cache c')) ∧
  current_bytes c' = zsum (map (λ e, size_bytes e.2) (_cache c')) ∧
  (∀ n, ms = Some n → Z.of_nat (cache_len c') ≤ n)%Z ∧
  (∀ n, mb = Some n → 0 ≤ current_bytes c' ≤ n)%Z.
Proof.
  intros Hi Hs c'. pose proof (cache_wf_init _ _ _ _ _ _ _ _ Hi) as Hwf.
  apply (cache_run_wf tp ops) in Hwf; [|done]. fold c' in Hwf.
  assert (max_size c' = ms ∧ max_bytes c' = mb) as [<- <-].
  { unfold c'. destruct (cache_run_config tp ops c) as (_ & -> & -> & _).
    apply cache_init_config in Hi as (-> & -> & _). done. }
  destruct Hwf as [Hk Hb Hz [Hc Hy] _ _]. split_and!; try done.
  intros n Hn. rewrite Hb. split; [by apply total_bytes_nonneg|by apply Hy].
Qed.

(** [put] first forgets the key's old entry; a value larger than the byte
    budget is not stored; otherwise the new entry is the most recent, the
    least number [n] of oldest entries is dropped so that both budgets hold,
    [n] is added to the eviction counter, and unless no entry at all is allowed
    the new value is what [get] then returns. *)
Theorem cache_put_evicts_least_recent c k d new_id :
  cache_wf c →
  let c' := cache_put tp (Some k) d new_id c in
  let l := od_del k (_cache c) in
  let e := CacheEntry (stored_object tp c new_id d) (_size_fn c (obj_val d)) in
  if oversized c d
  then _cache c' = l ∧ (cache_get (Some k) c').1 = None
  else ∃ n, _cache c' = drop n (l ++ [(k, e)]) ∧
            eviction_count c' = (eviction_count c + Z.of_nat n)%Z ∧
            fits (max_size c) (max_bytes c) (drop n (l ++ [(k, e)])) ∧
            (∀ j, j < n → ¬ fits (max_size c) (max_bytes c) (drop j (l ++ [(k, e)]))) ∧
            (max_size c ≠ Some 0%Z → (cache_get (Some k) c').1 = Some (data e)).
Proof.
  intros Hwf c' l e. pose proof (cache_put_spec tp c k d new_id Hwf) as Hput.
  subst c'. unfold oversized in *.
  destruct (match max_bytes c with Some _ => _ | None => _ end) eqn:Hbig.
  - rewrite Hput. split; [done|]. simpl. by rewrite od_get_del, decide_True.
  - destruct Hput as (n & -> & Hn & Hfit & Hmin). exists n. split_and!; try done.
    intros Hne. unfold put_list in *. fold l e in Hmin, Hn |- *. simpl.
    rewrite (minimal_drop_keeps_last (max_size c) (max_bytes c)); try done.
    + assert (od_get k (drop n l) = None) as Hnone.
      { apply od_get_None. rewrite od_keys_drop. intros Hin.
        apply (od_del_notin k (_cache c)). rewrite <-(take_drop n (od_keys _)). set_solver. }
      rewrite od_get_app, Hnone. simpl. by rewrite decide_True.
    + intros m Hm. pose proof (wf_max_size _ Hwf _ Hm).
      assert (m ≠ 0%Z) by congruence. lia.
    + intros m Hm. rewrite Hm in Hbig. bool_simpl. simpl. lia.
Qed.

(** C16. The cache refines a finite map that never evicts: whatever operations
    ran since construction, [get] returns an object only if it is the one the
    map holds (the latest stored, not removed since), and with no budget it
    returns exactly what the map holds. *)
Theorem stage_cache_refines_map ms mb dv sf pin cuda c ops k :
  cache_init tp ms mb dv sf pin cuda = Ok c →
  (∀ v, 0 ≤ _size_fn c v)%Z →
  let found := (cache_get (Some k) (cache_run tp ops c)).1 in
  (∀ o, found = Some o → map_run tp c ops ∅ !! k = Some o) ∧
  (ms = None → mb = None → found = map_run tp c ops ∅ !! k).
Proof.
  intros Hi Hs found. pose proof (cache_wf_init _ _ _ _ _ _ _ _ Hi) as Hwf.
  apply cache_init_config in Hi as (Em & Eb & _ & Hnil & _).
  destruct (run_refines tp c c ∅ ops) as [Hin Hag]; try done.
  { intros k' e. by rewrite Hnil. }
  { intros _ _ k'. by rewrite Hnil. }
  rewrite Em, Eb in Hag. subst found. simpl. split.
  - intros o Ho. destruct (od_get k _) as [e|] eqn:He; [|done].
    simplify_eq/=. by apply Hin.
  - intros H1 H2. rewrite (Hag H1 H2 k). by destruct (od_get k _).
Qed.

(** With the default size function the byte counter is the size of what is
    actually resident, although it is computed from the values passed in: each
    entry is sized before its tensors are detached, moved or pinned. *)
Theorem stage_cache_bytes_resident `{!TorchSizes tp} ms mb dv pin cuda c ops :
  cache_init tp ms mb dv None pin cuda = Ok c →
  let c' := cache_run tp ops c in
  current_bytes c' =
    zsum (map (λ e, _value_size_bytes tp (obj_val (data e.2))) (_cache c')).
Proof.
  intros Hi c'. pose proof (cache_wf_init _ _ _ _ _ _ _ _ Hi) as Hwf.
  apply cache_init_config in Hi as (_ & _ & _ & Hnil & Hf).
  assert (∀ v, 0 ≤ _size_fn c v)%Z as Hz by (intros v; rewrite Hf; apply value_size_nonneg, _).
  assert (Forall (sized tp) (_cache c')) as Hsz.
  { apply run_sized; try done. by rewrite Hnil. }
  pose proof (wf_bytes _ (cache_run_wf tp ops c Hz Hwf)) as Hb. fold c' in Hb.
  rewrite Hb. unfold total_bytes. clear -Hsz. f_equal. induction Hsz as [|x l Hx _ IH]; simpl; [done|]. rewrite IH. f_equal. apply Hx.
Qed.
End properties.

(** A concrete torch: a tensor is its element count and element size. *)
Definition plain_torch : torch_ops (nat * nat) bool := {|
  t_numel t := Z.of_nat t.1; t_element_size t := Z.of_nat t.2;
  t_detach t := t; t_to _ t := t; t_is_pinned_cpu _ := false;
  t_pinned_copy t := Some t; dev_is_cpu d := d;
|}.

#[export] Instance plain_torch_sizes : TorchSizes plain_torch.
Proof. split; simpl; intros; simplify_eq; lia || done. Qed.

Definition bytes_obj (id : positive) (n : nat) : pyobj (nat * nat) unit := PyObj id (VBytes n).
Definition small_cache : StageOutputCache (nat * nat) unit bool :=
  mkCache [] (Some 2%Z) (Some 10%Z) None false 0 0 (_value_size_bytes plain_torch).
Definition small_ops : list (cache_op (nat * nat) unit) :=
  [OpPut (Some "a") (bytes_obj 1 4) 1; OpPut (Some "b") (bytes_obj 2 4) 2;
   OpGet (Some "a"); OpPut (Some "c") (bytes_obj 3 4) 3].

Lemma small_cache_sizes v : (0 ≤ _size_fn small_cache v)%Z.
Proof. apply value_size_nonneg, _. Qed.

Lemma stage_cache_invariant_witness :
  od_keys (_cache (cache_run plain_torch small_ops small_cache)) = ["a"; "c"] ∧
  current_bytes (cache_run plain_torch small_ops small_cache) = 8%Z ∧
  NoDup (od_keys (_cache (cache_run plain_torch small_ops small_cache))).
Proof.
  split_and!; [vm_compute; reflexivity..|].
  apply (stage_cache_invariant plain_torch (Some 2%Z) (Some 10%Z) None None false false
           small_cache small_ops); [reflexivity|exact small_cache_sizes].
Defined.

Lemma cache_put_evicts_least_recent_witness :
  ∃ n, _cache (cache_put plain_torch (Some "c") (bytes_obj 3 4) 3
                 (cache_run plain_torch (take 2 small_ops) small_cache)) =
       drop n [("a", CacheEntry (bytes_obj 1 4) 4); ("b", CacheEntry (bytes_obj 2 4) 4);
               ("c", CacheEntry (bytes_obj 3 4) 4)].
Proof.
  destruct (cache_put_evicts_least_recent plain_torch
    (cache_run plain_torch (take 2 small_ops) small_cache) "c" (bytes_obj 3 4) 3)
    as (n & Hn & _).
  - apply cache_run_wf; [exact small_cache_sizes|].
    by eapply (cache_wf_init plain_torch (Some 2%Z) (Some 10%Z) None None false false).
  - exists n. exact Hn.
Defined.

Lemma stage_cache_refines_map_witness :
  (cache_get (Some "a") (cache_run plain_torch small_ops small_cache)).1
    = Some (bytes_obj 1 4) ∧
  map_run plain_torch small_cache small_ops ∅ !! "a" = Some (bytes_obj 1 4).
Proof.
  split; [vm_compute; reflexivity|].
  apply (proj1 (stage_cache_refines_map plain_torch (Some 2%Z) (Some 10%Z) None None false
                  false small_cache small_ops "a" eq_refl small_cache_sizes)).
  vm_compute. reflexivity.
Defined.

Lemma stage_cache_bytes_resident_witness :
  current_bytes (cache_run plain_torch small_ops small_cache) =
  zsum (map (λ e, _value_size_bytes plain_torch (obj_val (data e.2)))
          (_cache (cache_run plain_torch small_ops small_cache))).
Proof.
  apply (stage_cache_bytes_resident plain_torch (Some 2%Z) (Some 10%Z) None false false
           small_cache small_ops). reflexivity.
Defined.
