(* ===== verification/SpeakerCache.v ===== *)
(** * Uploaded-speaker artifact cache

    Models [sglang_omni/scheduling/speaker_cache.py]: a process-wide bounded LRU
    over [StageOutputCache], whose string keys encode a structured
    [SpeakerCacheKey].  [str.lower] is the parameter [lower]; the theorems hold
    for any such function. *)
From S2P Require Import Prelude StageCache.

Definition _KEY_SEPARATOR : Ascii.ascii := Ascii.ascii_of_nat 31.

Record SpeakerCacheKey := mkSpeakerKey {
  model_type : string;
  voice_name : string;
  voice_version : Z;
  artifact_kind : string;
}.

Definition _encode_key (k : SpeakerCacheKey) : string :=
  join_with _KEY_SEPARATOR
    [model_type k; voice_name k; pretty (voice_version k); artifact_kind k].

Definition _encoded_key_voice_name (key : string) : string :=
  match split_max _KEY_SEPARATOR 3 key "" with
  | [_; v; _; _] => v
  | _ => ""
  end.

Record SpeakerArtifactCache (T O dev : Type) := mkSpeakerCache {
  sp_max_bytes : Z;
  sp_cache : StageOutputCache T O dev;
  hit_count : Z;
  miss_count : Z;
  delete_invalidation_counter : Z;
}.
Arguments mkSpeakerCache {T O dev} _ _ _ _ _.
Arguments sp_max_bytes {T O dev} _.
Arguments sp_cache {T O dev} _.
Arguments hit_count {T O dev} _.
Arguments miss_count {T O dev} _.
Arguments delete_invalidation_counter {T O dev} _.

Section speaker.
Context {T O dev : Type} (tp : torch_ops T dev).
Context (getsizeof : cval T O → Z) (lower : string → string).
Abbreviation speaker := (SpeakerArtifactCache T O dev).
Implicit Types s : speaker.

Definition speaker_init (max_bytes : Z) : res speaker :=
  _ ← raise_if (bool_decide (max_bytes ≤ 0)%Z)
        (ValueError "speaker cache max_bytes must be positive");
  c ← cache_init tp None (Some max_bytes) None
        (Some (estimate_cache_bytes tp getsizeof)) false false;
  mret (mkSpeakerCache max_bytes c 0 0 0).

Definition speaker_get (k : SpeakerCacheKey) s : option (pyobj T O) * speaker :=
  let '(v, c) := cache_get (Some (_encode_key k)) (sp_cache s) in
  match v with
  | Some o =>
      match obj_val o with
      | VNone => (None, mkSpeakerCache (sp_max_bytes s) c (hit_count s) (miss_count s + 1)
                          (delete_invalidation_counter s))
      | _ => (Some o, mkSpeakerCache (sp_max_bytes s) c (hit_count s + 1) (miss_count s)
                        (delete_invalidation_counter s))
      end
  | None => (None, mkSpeakerCache (sp_max_bytes s) c (hit_count s) (miss_count s + 1)
                     (delete_invalidation_counter s))
  end%Z.

Definition speaker_put (k : SpeakerCacheKey) (v : pyobj T O) (new_id : positive) s : speaker :=
  mkSpeakerCache (sp_max_bytes s) (cache_put tp (Some (_encode_key k)) v new_id (sp_cache s))
    (hit_count s) (miss_count s) (delete_invalidation_counter s).

Definition voice_matches (voice : string) (key : string) : bool :=
  bool_decide (lower (_encoded_key_voice_name key) = lower voice).

Definition clear_voice (voice : string) s : speaker :=
  let '(removed, c) := remove_if (voice_matches voice) (sp_cache s) in
  mkSpeakerCache (sp_max_bytes s) c (hit_count s) (miss_count s)
    (delete_invalidation_counter s + removed)%Z.

Definition speaker_clear s : speaker :=
  mkSpeakerCache (sp_max_bytes s) (cache_clear (sp_cache s))
    (hit_count s) (miss_count s) (delete_invalidation_counter s).

Definition speaker_stats s : list (string * Z) :=
  [("entries", Z.of_nat (cache_len (sp_cache s)));
   ("memory_bytes", current_bytes (sp_cache s));
   ("max_bytes", sp_max_bytes s);
   ("hit_count", hit_count s);
   ("miss_count", miss_count s);
   ("eviction_count", eviction_count (sp_cache s));
   ("delete_invalidation_counter", delete_invalidation_counter s)].
End speaker.

(** ** The key encoding *)
Definition key_ok (k : SpeakerCacheKey) : bool :=
  free_of _KEY_SEPARATOR (model_type k) && free_of _KEY_SEPARATOR (voice_name k).

Lemma version_free (z : Z) : free_of _KEY_SEPARATOR (pretty z) = true.
Proof.
  apply pretty_Z_chars; [done|]. intros c Hc. unfold is_digit in Hc. bool_simpl.
  apply negb_true_iff, Ascii.eqb_neq. intros ->. vm_compute in Hc. lia.
Qed.

Lemma encode_key_split k :
  key_ok k = true →
  split_max _KEY_SEPARATOR 3 (_encode_key k) "" =
    [model_type k; voice_name k; pretty (voice_version k); artifact_kind k].
Proof.
  intros [Hm Hv]%andb_true_iff. unfold _encode_key. simpl join_with.
  rewrite !split_max_piece by (done || apply version_free).
  by rewrite split_max_0.
Qed.

Lemma encode_key_voice k : key_ok k = true → _encoded_key_voice_name (_encode_key k) = voice_name k.
Proof. intros Hk. unfold _encoded_key_voice_name. by rewrite encode_key_split. Qed.

Lemma encode_key_inj k k' :
  key_ok k = true → key_ok k' = true → _encode_key k = _encode_key k' → k = k'.
Proof.
  intros Hk Hk' Heq. apply (f_equal (λ s, split_max _KEY_SEPARATOR 3 s "")) in Heq.
  rewrite !encode_key_split in Heq by done. destruct k, k'. by simplify_eq/=.
Qed.

(** ** Histories *)
Inductive speaker_op (T O : Type) : Type :=
| SGet (k : SpeakerCacheKey)
| SPut (k : SpeakerCacheKey) (v : pyobj T O) (new_id : positive)
| SClearVoice (voice : string)
| SClear.
Arguments SGet {T O} k.
Arguments SPut {T O} k v new_id.
Arguments SClearVoice {T O} voice.
Arguments SClear {T O}.

Section facts.
Context {T O dev : Type} (tp : torch_ops T dev).
Context (getsizeof : cval T O → Z) (lower : string → string).
Implicit Types s : SpeakerArtifactCache T O dev.

Definition speaker_apply (op : speaker_op T O) s : SpeakerArtifactCache T O dev :=
  match op with
  | SGet k => (speaker_get k s).2
  | SPut k v i => speaker_put tp k v i s
  | SClearVoice v => clear_voice lower v s
  | SClear => speaker_clear s
  end.
Definition speaker_run (ops : list (speaker_op T O)) s :=
  fold_left (λ s op, speaker_apply op s) ops s.

(** The cache operation behind each speaker operation. *)
Definition lower_op (op : speaker_op T O) s : cache_op T O :=
  match op with
  | SGet k => OpGet (Some (_encode_key k))
  | SPut k v i => OpPut (Some (_encode_key k)) v i
  | SClearVoice v =>
      OpRemoveKeys (filter (λ k, voice_matches lower v k) (remove_if_keys (sp_cache s)))
  | SClear => OpClear
  end.

(** A lookup depends only on the key's entry; a stored [None] is a miss. *)
Definition found (e : option (_CacheEntry T O)) : option (pyobj T O) :=
  o ← data <$> e; match obj_val o with VNone => None | _ => Some o end.

Lemma speaker_get_found k s :
  (speaker_get k s).1 = found (od_get (_encode_key k) (_cache (sp_cache s))).
Proof.
  unfold speaker_get, found. simpl. destruct (od_get _ _) as [e|]; simpl; [|done].
  by destruct (obj_val (data e)).
Qed.

Definition is_get (op : speaker_op T O) : Z := match op with SGet _ => 1 | _ => 0 end.

Lemma remove_commit_count ks n (c : StageOutputCache T O dev) :
  remove_if_commit ks n c =
    ((n + (remove_if_commit ks 0 c).1)%Z, (remove_if_commit ks 0 c).2).
Proof.
  revert n c. induction ks as [|k ks IH]; intros n c; simpl; [pair_eq; [lia|done]|].
  destruct (od_get k (_cache c)) as [e|]; [|apply IH].
  rewrite IH. rewrite (IH 1%Z). simpl. pair_eq; [lia|done].
Qed.

Lemma apply_lower op s : sp_cache (speaker_apply op s) = cache_apply tp (lower_op op s) (sp_cache s).
Proof.
  destruct op; simpl; try done.
  - unfold speaker_get. simpl. destruct (od_get _ _) as [e|]; simpl; [|done].
    by destruct (obj_val (data e)).
  - unfold clear_voice, remove_if. by destruct (remove_if_commit _ 0 _).
Qed.

Lemma apply_counters op s :
  (hit_count (speaker_apply op s) + miss_count (speaker_apply op s)
   = hit_count s + miss_count s + is_get op)%Z ∧
  sp_max_bytes (speaker_apply op s) = sp_max_bytes s.
Proof.
  destruct op; simpl; try (split; [lia|done]).
  - unfold speaker_get. simpl. destruct (od_get _ _) as [e|]; simpl; [|split; [lia|done]].
    destruct (obj_val (data e)); simpl; split; done || lia.
  - unfold clear_voice. destruct (remove_if _ _). simpl. split; [lia|done].
Qed.

Record speaker_wf s : Prop := {
  swf_cache : cache_wf (sp_cache s);
  swf_size : ∀ v, (0 ≤ _size_fn (sp_cache s) v)%Z;
  swf_max : max_bytes (sp_cache s) = Some (sp_max_bytes s);
}.

Lemma speaker_apply_wf op s : speaker_wf s → speaker_wf (speaker_apply op s).
Proof.
  intros [Hw Hs Hm].
  destruct (cache_apply_config tp (lower_op op s) (sp_cache s)) as (Es & _ & Eb & _).
  destruct (apply_counters op s) as [_ Em].
  split; rewrite ?apply_lower.
  - by apply cache_apply_wf.
  - intros v. by rewrite Es.
  - by rewrite Eb, Em.
Qed.

Lemma estimate_nonneg `{!TorchSizes tp} v :
  (∀ v, 0 ≤ getsizeof v)%Z → (0 ≤ estimate_cache_bytes tp getsizeof v)%Z.
Proof.
  intros Hg. revert v. fix IH 1.
  intros [|t|n|n|n|[n|] o|items|items|items|items|o]; simpl; try lia; try apply Hg.
  - pose proof (numel_nonneg t). pose proof (element_size_nonneg t). nia.
  - enough (0 ≤ zsum (map (λ '(k, x), estimate_cache_bytes tp getsizeof k
                            + estimate_cache_bytes tp getsizeof x) items))%Z
      by (specialize (Hg (VDict items)); lia).
    induction items as [|[k x] items IHi]; simpl; [lia|].
    pose proof (IH k). pose proof (IH x). lia.
  - specialize (Hg (VList items)).
    enough (0 ≤ zsum (map (estimate_cache_bytes tp getsizeof) items))%Z by lia. clear Hg.
    induction items as [|x items IHi]; simpl; [lia|]. specialize (IH x). lia.
  - specialize (Hg (VTuple items)).
    enough (0 ≤ zsum (map (estimate_cache_bytes tp getsizeof) items))%Z by lia. clear Hg.
    induction items as [|x items IHi]; simpl; [lia|]. specialize (IH x). lia.
  - specialize (Hg (VSet items)).
    enough (0 ≤ zsum (map (estimate_cache_bytes tp getsizeof) items))%Z by lia. clear Hg.
    induction items as [|x items IHi]; simpl; [lia|]. specialize (IH x). lia.
Qed.

Lemma speaker_init_wf `{!TorchSizes tp} mb s :
  (∀ v, 0 ≤ getsizeof v)%Z → speaker_init tp getsizeof mb = Ok s →
  speaker_wf s ∧ sp_max_bytes s = mb ∧ hit_count s = 0%Z ∧ miss_count s = 0%Z.
Proof.
  intros Hg. unfold speaker_init. intros (? & _ & (c & Hc & [= <-])%bind_ok)%bind_ok.
  split_and!; try done.
  pose proof (cache_init_config _ _ _ _ _ _ _ _ Hc) as (_ & Hmb & _ & _ & Hf).
  split; simpl; [by eapply cache_wf_init| |done].
  intros v. rewrite Hf. by apply estimate_nonneg.
Qed.

Lemma remove_commit_removed ks (c : StageOutputCache T O dev) :
  cache_wf c →
  (remove_if_commit ks 0 c).1 =
  (Z.of_nat (cache_len c) - Z.of_nat (cache_len (remove_if_commit ks 0 c).2))%Z.
Proof.
  revert c. induction ks as [|k ks IH]; intros c Hwf; simpl; [lia|].
  destruct (od_get k (_cache c)) as [e|] eqn:Hk; [|by apply IH].
  rewrite (remove_commit_count ks 1). simpl.
  rewrite IH by (by eapply cache_wf_del). unfold cache_len. simpl.
  pose proof (od_move_to_end_perm _ _ (wf_keys _ Hwf) : od_move_to_end k _ ≡ₚ _) as Hp.
  unfold od_move_to_end in Hp. rewrite Hk in Hp. apply Permutation_length in Hp.
  rewrite length_app in Hp. simpl in Hp. lia.
Qed.
End facts.

(** ** Properties *)
Section properties.
Context {T O dev : Type} (tp : torch_ops T dev).
Context (getsizeof : cval T O → Z) (lower : string → string).
Implicit Types s : SpeakerArtifactCache T O dev.

(** Deleting a voice removes exactly the artifacts of the keys naming that
    voice (compared through [lower]), keeps every other artifact and its
    identity, and adds the number of entries removed to the invalidation
    counter.  The voice is recovered from the encoded key, so the model type
    and voice name must not contain the separator. *)
Theorem clear_voice_exact s voice k :
  cache_wf (sp_cache s) → key_ok k = true →
  let s' := clear_voice lower voice s in
  (speaker_get k s').1 =
    (if bool_decide (lower (voice_name k) = lower voice) then None else (speaker_get k s).1) ∧
  delete_invalidation_counter s' =
    (delete_invalidation_counter s
     + (Z.of_nat (cache_len (sp_cache s)) - Z.of_nat (cache_len (sp_cache s'))))%Z.
Proof.
  intros Hwf Hk s'. rewrite !speaker_get_found. subst s'. unfold clear_voice, remove_if.
  set (ks := filter _ _). pose proof (remove_commit_removed ks (sp_cache s) Hwf) as Hn.
  pose proof (get_remove_commit ks 0 (sp_cache s) (_encode_key k)) as Hg.
  destruct (remove_if_commit ks 0 (sp_cache s)) as [n c'] eqn:Hc. simpl in *.
  split; [|lia]. simpl. rewrite Hg.
  assert (_encode_key k ∈ ks ↔
    lower (voice_name k) = lower voice ∧ od_get (_encode_key k) (_cache (sp_cache s)) ≠ None) as Hin.
  { subst ks. rewrite list_elem_of_filter. unfold voice_matches, remove_if_keys.
    rewrite encode_key_voice by done. rewrite Is_true_true, bool_decide_eq_true, od_get_None.
    split; [naive_solver|]. intros [? Hnn]. split; [done|].
    destruct (decide (_encode_key k ∈ od_keys (_cache (sp_cache s)))); naive_solver. }
  case_decide as Hd; case_bool_decide as Hv; try tauto.
  by destruct (od_get (_encode_key k) (_cache (sp_cache s))); [destruct Hd; apply Hin|].
Qed.

(** Along any history of a cache constructed with a positive byte budget,
    the reported hits and misses add up to the number of lookups, and the
    reported resident bytes are the entries' total and never exceed the
    budget. *)
Theorem speaker_stats_sound `{!TorchSizes tp} mb s ops :
  (∀ v, 0 ≤ getsizeof v)%Z → speaker_init tp getsizeof mb = Ok s →
  let s' := speaker_run tp lower ops s in
  (hit_count s' + miss_count s')%Z = zsum (map is_get ops) ∧
  (0 ≤ current_bytes (sp_cache s') ≤ mb)%Z ∧
  current_bytes (sp_cache s') = zsum (map (λ e, size_bytes e.2) (_cache (sp_cache s'))) ∧
  od_get "memory_bytes" (speaker_stats s') = Some (current_bytes (sp_cache s')).
Proof.
  intros Hg Hi s'. destruct (speaker_init_wf _ _ _ _ Hg Hi) as (Hwf & Hmb & Hh & Hm).
  assert (speaker_wf s' ∧ sp_max_bytes s' = mb ∧
          (hit_count s' + miss_count s' = hit_count s + miss_count s + zsum (map is_get ops))%Z)
    as (Hwf' & Hmb' & Hc).
  { subst s'. clear Hi Hh Hm. revert s Hwf Hmb.
    induction ops as [|op ops IH]; intros s Hwf Hmb; simpl; [split_and!; done || lia|].
    destruct (apply_counters tp lower op s) as [Hc Em].
    destruct (IH (speaker_apply tp lower op s)) as (? & ? & Hc');
      [by apply speaker_apply_wf|congruence|]. split_and!; [done|done|lia]. }
  split_and!; try lia; try done.
  - destruct Hwf' as [Hw _ Hx]. rewrite (wf_bytes _ Hw). by apply total_bytes_nonneg, Hw.
  - destruct Hwf' as [Hw _ Hx]. rewrite (wf_bytes _ Hw).
    destruct (wf_fits _ Hw) as [_ Hf]. rewrite <-Hmb'. by apply Hf.
  - by apply wf_bytes, Hwf'.
Qed.
End properties.

Definition sp_key (v : string) (n : Z) : SpeakerCacheKey := mkSpeakerKey "tts" v n "embed".
Definition sp_ops : list (speaker_op (nat * nat) unit) :=
  [SPut (sp_key "ann" 1) (bytes_obj 1 4) 1; SGet (sp_key "ann" 1);
   SPut (sp_key "bob" 7) (bytes_obj 2 4) 2; SGet (sp_key "bob" 8)].
Definition sp_start : SpeakerArtifactCache (nat * nat) unit bool :=
  mkSpeakerCache 100
    (mkCache [] None (Some 100%Z) None false 0 0 (estimate_cache_bytes plain_torch (λ _, 0%Z)))
    0 0 0.

Lemma clear_voice_exact_witness :
  (speaker_get (sp_key "ann" 1)
     (clear_voice id "ann" (speaker_run plain_torch id sp_ops sp_start))).1 = None ∧
  (speaker_get (sp_key "bob" 7)
     (clear_voice id "ann" (speaker_run plain_torch id sp_ops sp_start))).1 = Some (bytes_obj 2 4).
Proof.
  assert (cache_wf (sp_cache (speaker_run plain_torch id sp_ops sp_start))) as Hwf.
  { change (sp_cache (speaker_run plain_torch id sp_ops sp_start)) with
      (cache_run plain_torch
         [OpPut (Some (_encode_key (sp_key "ann" 1))) (bytes_obj 1 4) 1;
          OpPut (Some (_encode_key (sp_key "bob" 7))) (bytes_obj 2 4) 2] (sp_cache sp_start)).
    apply cache_run_wf.
    - intros v. by apply (estimate_nonneg plain_torch (λ _, 0%Z)).
    - by apply (cache_wf_init plain_torch None (Some 100%Z) None
                  (Some (estimate_cache_bytes plain_torch (λ _, 0%Z))) false false). }
  split.
  - rewrite (proj1 (clear_voice_exact id _ "ann" (sp_key "ann" 1) Hwf eq_refl)). reflexivity.
  - rewrite (proj1 (clear_voice_exact id _ "ann" (sp_key "bob" 7) Hwf eq_refl)). reflexivity.
Defined.

Lemma speaker_stats_sound_witness :
  (hit_count (speaker_run plain_torch id sp_ops sp_start)
   + miss_count (speaker_run plain_torch id sp_ops sp_start))%Z = 2%Z ∧
  (0 ≤ current_bytes (sp_cache (speaker_run plain_torch id sp_ops sp_start)) ≤ 100)%Z.
Proof.
  destruct (speaker_stats_sound plain_torch (λ _, 0%Z) id 100 sp_start sp_ops) as (H & H' & _);
    [done|reflexivity|]. split; [exact H|exact H'].
Defined.
