(* ===== verification/AdmissionShm.v ===== *)
(** * Shared-memory admission

    Models [sglang_omni_router/python/admission_shm.py]: one 64-byte slot per
    data-plane process in a shared file, read through a per-slot sequence lock.

    The file is a list of bytes; [struct] packs little-endian 64-bit words into
    it.  A store or load of one word is the unit of interleaving (the platform
    the code targets keeps stores in program order), so a slot read is a function
    of the successive memory contents its loads meet.  A [double] is its 64-bit
    pattern; clock readings are integers in nanoseconds. *)
From S2P Require Import Prelude.
Local Open Scope Z_scope.

(** ** [struct]: little-endian 64-bit words *)
Fixpoint le_bytes (n : nat) (x : Z) : list Z :=
  match n with
  | O => []
  | S n => x mod 256 :: le_bytes n (x / 256)
  end.

Fixpoint le_val (bs : list Z) : Z :=
  match bs with
  | [] => 0
  | b :: bs => b + 256 * le_val bs
  end.

(** [struct.pack_into] of one word, given as its 64-bit pattern. *)
Definition put_word (buf : list Z) (off : nat) (x : Z) : list Z :=
  take off buf ++ le_bytes 8 x ++ drop (off + 8) buf.

Definition get_word (buf : list Z) (off : nat) : Z := le_val (take 8 (drop off buf)).

(** Format ["q"]: two's complement. *)
Definition to_signed (w : Z) : Z := if bool_decide (w < 2 ^ 63) then w else w - 2 ^ 64.
Definition q_range (x : Z) : bool := bool_decide (- 2 ^ 63 ≤ x < 2 ^ 63).
Definition unpack_q (buf : list Z) (off : nat) : Z := to_signed (get_word buf off).

(** ** Slots *)
Definition SLOT_SIZE : nat := 64.
Definition _READ_SPIN_LIMIT : nat := 1000.
Definition _READ_BACKOFF_LIMIT : nat := 20000.
Definition _UNSTABLE_REPROBE_NANOS : Z := 50000000.

Record SlotView := mkSlotView {
  seq : Z;
  inflight : Z;
  peak_sum : Z;
  rejected_total : Z;
  generation : Z;
  pid : Z;
  heartbeat_ts : Z;
}.

#[export] Instance slot_view_eq_dec : EqDecision SlotView.
Proof. solve_decision. Defined.

Definition admission_file_size (slots : nat) : nat := (slots + 1) * SLOT_SIZE.
Definition retired_slot_index (slots : nat) : nat := slots.
Definition create_admission_file (slots : nat) : list Z := replicate (admission_file_size slots) 0.

(** The byte offset of word [k] of slot [index]. *)
Definition word_off (index k : nat) : nat := index * SLOT_SIZE + 8 * k.

(** [SlotCodec.read]: [sched t] is the memory met by the [t]-th load.  An
    attempt loads the sequence word, the eight words of the slot, then the
    sequence word again. *)
Definition load_view (index : nat) (sched : nat → list Z) (t : nat) : SlotView :=
  let w k := get_word (sched (t + k)%nat) (word_off index k) in
  mkSlotView (to_signed (w 0%nat)) (to_signed (w 1%nat)) (to_signed (w 2%nat))
    (to_signed (w 3%nat)) (to_signed (w 4%nat)) (to_signed (w 5%nat)) (w 6%nat).

Fixpoint read_attempts (index : nat) (sched : nat → list Z) (budget t : nat) : res SlotView :=
  match budget with
  | O => Raise SeqlockUnstableError
  | S budget =>
      let seq_before := unpack_q (sched t) (word_off index 0) in
      if Z.odd seq_before then read_attempts index sched budget (t + 1)
      else
        let view := load_view index sched (t + 1) in
        let seq_after := unpack_q (sched (t + 9)%nat) (word_off index 0) in
        if bool_decide (seq_before = seq_after) then Ok view
        else read_attempts index sched budget (t + 10)
  end.

Definition slot_read (fail_fast : bool) (index : nat) (sched : nat → list Z) : res SlotView :=
  read_attempts index sched
    (if fail_fast then _READ_SPIN_LIMIT else _READ_SPIN_LIMIT + _READ_BACKOFF_LIMIT)%nat 0.

(** A [struct.pack_into] of the [q] fields raises [struct.error] out of range. *)
Definition pack_fields (v : SlotView) : res (list Z) :=
  _ ← raise_if (negb (q_range (inflight v) && q_range (peak_sum v) && q_range (rejected_total v)
                      && q_range (generation v) && q_range (pid v)))
        (ValueError "struct.error");
  mret [inflight v; peak_sum v; rejected_total v; generation v; pid v; heartbeat_ts v; 0].

Definition pack_seq (x : Z) : res Z :=
  _ ← raise_if (negb (q_range x)) (ValueError "struct.error"); mret x.

Definition begin_write (index : nat) (buf : list Z) : res (Z * list Z) :=
  let marker := Z.lor (unpack_q buf (word_off index 0)) 1 in
  m ← pack_seq marker;
  mret (marker, put_word buf (word_off index 0) m).

(** The seven field words, stored in order from word [k]. *)
Fixpoint put_fields (index k : nat) (ws : list Z) (buf : list Z) : list Z :=
  match ws with
  | [] => buf
  | w :: ws => put_fields index (S k) ws (put_word buf (word_off index k) w)
  end.

Definition write_fields (index : nat) (v : SlotView) (buf : list Z) : res (list Z) :=
  ws ← pack_fields v; mret (put_fields index 1 ws buf).

Definition end_write (index : nat) (marker : Z) (buf : list Z) : res (list Z) :=
  m ← pack_seq (marker + 1); mret (put_word buf (word_off index 0) m).

(** [SlotCodec.write]; the [seq] field of [v] is not used. *)
Definition slot_write (index : nat) (v : SlotView) (buf : list Z) : res (list Z) :=
  '(marker, buf) ← begin_write index buf;
  buf ← write_fields index v buf;
  end_write index marker buf.

Definition reclaim (index : nat) (now : Z) (buf : list Z) : res (list Z) :=
  slot_write index (mkSlotView 0 0 0 0 0 0 now) buf.

(** ** Word access lemmas *)
Lemma length_le_bytes n x : length (le_bytes n x) = n.
Proof. revert x. induction n as [|n IH]; intros x; simpl; [done|]. by rewrite IH. Qed.

Lemma le_val_bytes n x : le_val (le_bytes n x) = x mod 256 ^ Z.of_nat n.
Proof.
  revert x. induction n as [|n IH]; intros x.
  - simpl. by rewrite Z.mod_1_r.
  - simpl le_bytes. simpl le_val. rewrite IH, Nat2Z.inj_succ, Z.pow_succ_r by lia.
    rewrite Z.rem_mul_r by lia. lia.
Qed.

Lemma length_put_word buf off x :
  (off + 8 ≤ length buf)%nat → length (put_word buf off x) = length buf.
Proof.
  intros. unfold put_word. rewrite !length_app, length_take, length_le_bytes, length_drop. lia.
Qed.

Lemma get_put_same buf off x :
  (off + 8 ≤ length buf)%nat → get_word (put_word buf off x) off = x mod 2 ^ 64.
Proof.
  intros. unfold get_word, put_word.
  rewrite drop_app_length' by (rewrite length_take; lia).
  rewrite take_app_length' by (by rewrite length_le_bytes).
  apply (le_val_bytes 8).
Qed.

Lemma get_put_other buf off off' x :
  (off + 8 ≤ length buf)%nat → (off' + 8 ≤ off ∨ off + 8 ≤ off')%nat →
  get_word (put_word buf off x) off' = get_word buf off'.
Proof.
  intros Hlen Hd. unfold get_word, put_word. f_equal. apply list_eq. intros i.
  destruct (decide (i < 8)%nat); [|by rewrite !lookup_take_ge by lia].
  rewrite !lookup_take_lt, !lookup_drop by lia.
  destruct Hd.
  - rewrite lookup_app_l by (rewrite length_take; lia). by rewrite lookup_take_lt by lia.
  - rewrite lookup_app_r by (rewrite length_take; lia).
    rewrite lookup_app_r by (rewrite length_take, length_le_bytes; lia).
    rewrite lookup_drop, length_take, length_le_bytes. f_equal. lia.
Qed.

Lemma to_signed_mod x : q_range x = true → to_signed (x mod 2 ^ 64) = x.
Proof.
  unfold q_range, to_signed. intros H. bool_simpl. case_bool_decide as Hc.
  - destruct (decide (0 ≤ x)); [by apply Z.mod_small; lia|].
    rewrite <-(Z.mod_add x 1 (2 ^ 64)), Z.mod_small in Hc by lia. lia.
  - destruct (decide (0 ≤ x)); [rewrite Z.mod_small in Hc by lia; lia|].
    rewrite <-(Z.mod_add x 1 (2 ^ 64)), Z.mod_small by lia. lia.
Qed.

(** Reading back the words of a slot after storing one of them. *)
Definition slot_in (index : nat) (buf : list Z) : Prop :=
  (index * SLOT_SIZE + SLOT_SIZE ≤ length buf)%nat.

Lemma word_off_disjoint i k i' k' :
  (k < 8)%nat → (k' < 8)%nat → (i, k) ≠ (i', k') →
  (word_off i' k' + 8 ≤ word_off i k ∨ word_off i k + 8 ≤ word_off i' k')%nat.
Proof.
  intros Hk Hk' Hne. unfold word_off, SLOT_SIZE.
  destruct (decide (i = i')) as [->|Hi].
  - assert (k ≠ k') by congruence. lia.
  - destruct (decide (i < i')%nat); nia.
Qed.

Lemma slot_in_put i i' k x buf :
  slot_in i buf → (k < 8)%nat → slot_in i' buf → slot_in i' (put_word buf (word_off i k) x).
Proof.
  unfold slot_in. intros Hi Hk Hi'. rewrite length_put_word; [done|].
  unfold word_off, SLOT_SIZE in *. lia.
Qed.

Lemma get_word_put i k i' k' x buf :
  slot_in i buf → (k < 8)%nat → (k' < 8)%nat →
  get_word (put_word buf (word_off i k) x) (word_off i' k') =
    if decide ((i, k) = (i', k')) then x mod 2 ^ 64 else get_word buf (word_off i' k').
Proof.
  intros Hi Hk Hk'.
  assert (word_off i k + 8 ≤ length buf)%nat by (unfold slot_in, word_off, SLOT_SIZE in *; lia).
  case_decide as Heq.
  - simplify_eq. by apply get_put_same.
  - apply get_put_other; [done|]. by apply word_off_disjoint.
Qed.

Lemma lor_1 x : Z.lor x 1 = if Z.odd x then x else x + 1.
Proof.
  destruct (Z.odd x) eqn:Ho.
  - apply Z.bits_inj'. intros n Hn. rewrite Z.lor_spec.
    destruct (decide (n = 0)) as [->|]; [rewrite Z.bit0_odd, Ho; done|].
    rewrite (Z.bits_above_log2 1 n) by (simpl; lia). by rewrite orb_false_r.
  - rewrite <-Z.add_lor_land. replace (Z.land x 1) with 0; [lia|].
    change 1 with (Z.ones 1). rewrite Z.land_ones by lia. change (2 ^ 1) with 2.
    by rewrite Zmod_odd, Ho.
Qed.

Lemma lor_1_odd x : Z.odd (Z.lor x 1) = true.
Proof. rewrite lor_1. destruct (Z.odd x) eqn:Ho; [done|]. by rewrite Z.odd_add, Ho. Qed.

Lemma unpack_put_seq i x buf :
  slot_in i buf → q_range x = true →
  unpack_q (put_word buf (word_off i 0) x) (word_off i 0) = x.
Proof.
  intros Hi Hx. unfold unpack_q. rewrite get_word_put by (done || lia).
  rewrite decide_True by done. by apply to_signed_mod.
Qed.

Lemma length_put_fields i k ws buf :
  slot_in i buf → (k + length ws ≤ 8)%nat → length (put_fields i k ws buf) = length buf.
Proof.
  revert k buf. induction ws as [|w ws IH]; intros k buf Hi Hk; simpl in *; [done|].
  rewrite IH; [|by apply slot_in_put; [|lia|]|lia].
  apply length_put_word. unfold slot_in, word_off, SLOT_SIZE in *. lia.
Qed.

Lemma get_put_fields i k ws buf i' k' :
  slot_in i buf → (k + length ws ≤ 8)%nat → (k' < 8)%nat →
  get_word (put_fields i k ws buf) (word_off i' k') =
    match decide (i = i'), ws !! (k' - k)%nat with
    | left _, Some w => if decide (k ≤ k')%nat then w mod 2 ^ 64
                        else get_word buf (word_off i' k')
    | _, _ => get_word buf (word_off i' k')
    end.
Proof.
  revert k buf. induction ws as [|w ws IH]; intros k buf Hi Hk Hk'; simpl in *.
  { by case_match. }
  rewrite IH by (done || lia || (apply slot_in_put; done || lia)).
  rewrite !get_word_put by (done || lia).
  destruct (decide (i = i')) as [->|Hne]; [|by rewrite decide_False by congruence].
  destruct (decide (k' = k)) as [->|Hkk].
  - rewrite Nat.sub_diag. simpl. rewrite decide_True by done.
    rewrite !(decide_True (P := (k ≤ k)%nat)) by lia.
    replace (k - S k)%nat with 0%nat by lia. by destruct ws; simpl; rewrite ?decide_False by lia.
  - rewrite !(decide_False (P := (i', k) = (i', k'))) by congruence.
    destruct (decide (k ≤ k')%nat).
    + replace (k' - k)%nat with (S (k' - S k)) by lia. simpl.
      destruct (ws !! _); [|done]. by rewrite decide_True by lia.
    + replace (k' - k)%nat with 0%nat by lia. simpl.
      destruct (ws !! _); [|done]. by rewrite decide_False by lia.
Qed.

(** The words of the whole file after a complete [write]. *)
Lemma slot_write_words i v buf buf' :
  slot_in i buf → slot_write i v buf = Ok buf' →
  let marker := Z.lor (unpack_q buf (word_off i 0)) 1 in
  length buf' = length buf ∧ q_range (marker + 1) = true ∧
  ∃ ws, pack_fields v = Ok ws ∧
  ∀ i' k, (k < 8)%nat →
    get_word buf' (word_off i' k) =
      if decide (i = i') then
        match k with O => (marker + 1) mod 2 ^ 64
                   | S k => default 0 (ws !! k) mod 2 ^ 64 end
      else get_word buf (word_off i' k).
Proof.
  intros Hi. unfold slot_write, begin_write, write_fields, end_write, pack_seq.
  set (m := Z.lor _ 1). intros (? & (? & (? & Hm%raise_if_ok & [= <-])%bind_ok & [= <-])%bind_ok &
    (? & (ws & Hws & [= <-])%bind_ok & (? & (? & Hm1%raise_if_ok & [= <-])%bind_ok
    & [= <-])%bind_ok)%bind_ok)%bind_ok.
  apply negb_false_iff in Hm, Hm1.
  assert (length ws = 7)%nat as Hlw.
  { unfold pack_fields in Hws. apply bind_ok in Hws as (? & _ & [= <-]). done. }
  set (b1 := put_word buf _ _) in *.
  assert (slot_in i b1) as Hi1 by (by apply slot_in_put; [|lia|]).
  assert (length (put_fields i 1 ws b1) = length buf) as Hl.
  { rewrite length_put_fields by (done || lia). subst b1. apply length_put_word.
    unfold slot_in, word_off, SLOT_SIZE in *. lia. }
  assert (slot_in i (put_fields i 1 ws b1)) as Hi2 by (unfold slot_in in *; lia).
  split_and!; [|done|].
  { rewrite length_put_word; [done|]. unfold slot_in, word_off, SLOT_SIZE in *. lia. }
  exists ws. split; [done|]. intros i' k Hk.
  rewrite get_word_put by (done || lia).
  rewrite get_put_fields by (done || lia).
  destruct (decide (i = i')) as [->|Hne].
  - destruct k as [|k].
    + by rewrite decide_True by done.
    + rewrite decide_False by congruence. replace (S k - 1)%nat with k by lia.
      destruct (lookup_lt_is_Some_2 ws k) as [w ->]; [lia|]. by rewrite decide_True by lia.
  - rewrite decide_False by congruence. subst b1. rewrite get_word_put by (done || lia).
    by rewrite decide_False by congruence.
Qed.

(** What an undisturbed load of slot [i] sees. *)
Definition view_of (i : nat) (buf : list Z) : SlotView := load_view i (λ _, buf) 0.

Definition with_seq (s : Z) (v : SlotView) : SlotView :=
  mkSlotView s (inflight v) (peak_sum v) (rejected_total v) (generation v) (pid v) (heartbeat_ts v).

Lemma slot_write_view i v buf buf' :
  slot_in i buf → 0 ≤ heartbeat_ts v < 2 ^ 64 → slot_write i v buf = Ok buf' →
  view_of i buf' = with_seq (Z.lor (unpack_q buf (word_off i 0)) 1 + 1) v ∧
  Z.even (seq (view_of i buf')) = true ∧
  (∀ i', i' ≠ i → view_of i' buf' = view_of i' buf) ∧ length buf' = length buf.
Proof.
  intros Hi Hh Hw. apply slot_write_words in Hw as (Hl & Hm & ws & Hws & Hg); [|done].
  unfold pack_fields in Hws. apply bind_ok in Hws as (? & Hr%raise_if_ok & [= <-]).
  apply negb_false_iff in Hr. repeat (apply andb_true_iff in Hr as [Hr ?]).
  assert (view_of i buf' = with_seq (Z.lor (unpack_q buf (word_off i 0)) 1 + 1) v) as Hv.
  { unfold view_of, load_view, with_seq. simpl Nat.add.
    rewrite !Hg, !decide_True by (done || lia). simpl default.
    rewrite !to_signed_mod by done. by rewrite Z.mod_small by lia. }
  split_and!; [done| | |done].
  - rewrite Hv. simpl. by rewrite Z.even_add, <-Z.negb_odd, lor_1_odd.
  - intros i' Hne. unfold view_of, load_view.
    by rewrite !Hg, !decide_False by (done || lia).
Qed.

Lemma read_constant ff i buf :
  Z.even (seq (view_of i buf)) = true → slot_read ff i (λ _, buf) = Ok (view_of i buf).
Proof.
  intros He. unfold slot_read.
  assert (∃ n, (if ff then _READ_SPIN_LIMIT else _READ_SPIN_LIMIT + _READ_BACKOFF_LIMIT)%nat = S n)
    as [n ->] by (destruct ff; by eexists).
  simpl. rewrite <-Z.negb_even. unfold view_of, load_view in He. simpl in He.
  unfold unpack_q. simpl in *. rewrite He. simpl. by rewrite bool_decide_eq_true_2.
Qed.

(** ** The sequence lock under interleaving

    The stores a writer of slot [i] makes, one at a time: a write marks the
    sequence word odd, stores fields in any order and number, and ends with the
    next even number; the writer may die in between ([ws_crash]), and other
    slots are written by other processes meanwhile ([ws_other]).
    [SlotCodec.write] and [begin_write]; [write_fields]; [end_write] are
    sequences of these steps ([slot_write_steps]). *)
Inductive wpc := WIdle | WWriting (marker : Z).

Inductive wstep (i : nat) : list Z * wpc → list Z * wpc → Prop :=
| ws_begin buf :
    q_range (Z.lor (unpack_q buf (word_off i 0)) 1) = true →
    wstep i (buf, WIdle)
      (put_word buf (word_off i 0) (Z.lor (unpack_q buf (word_off i 0)) 1),
       WWriting (Z.lor (unpack_q buf (word_off i 0)) 1))
| ws_field buf m k w :
    (1 ≤ k < 8)%nat →
    wstep i (buf, WWriting m) (put_word buf (word_off i k) w, WWriting m)
| ws_end buf m :
    q_range (m + 1) = true →
    wstep i (buf, WWriting m) (put_word buf (word_off i 0) (m + 1), WIdle)
| ws_crash buf m : wstep i (buf, WWriting m) (buf, WIdle)
| ws_other buf pc i' k w :
    i' ≠ i → (k < 8)%nat → slot_in i' buf →
    wstep i (buf, pc) (put_word buf (word_off i' k) w, pc).

Lemma put_fields_steps i k ws buf m :
  (1 ≤ k)%nat → (k + length ws ≤ 8)%nat →
  rtc (wstep i) (buf, WWriting m) (put_fields i k ws buf, WWriting m).
Proof.
  revert k buf. induction ws as [|w ws IH]; intros k buf Hk Hl; simpl in *; [done|].
  eapply rtc_l; [apply (ws_field i buf m k w); lia|]. apply IH; lia.
Qed.

Lemma slot_write_steps i v buf buf' :
  slot_write i v buf = Ok buf' → rtc (wstep i) (buf, WIdle) (buf', WIdle).
Proof.
  unfold slot_write, begin_write, write_fields, end_write, pack_seq.
  intros (? & (? & (? & Hm%raise_if_ok & [= <-])%bind_ok & [= <-])%bind_ok &
    (? & (ws & Hws & [= <-])%bind_ok & (? & (? & Hm1%raise_if_ok & [= <-])%bind_ok
    & [= <-])%bind_ok)%bind_ok)%bind_ok.
  apply negb_false_iff in Hm, Hm1.
  unfold pack_fields in Hws. apply bind_ok in Hws as (? & _ & [= <-]).
  eapply rtc_l; [by apply ws_begin|]. eapply rtc_r; [|by apply ws_end].
  apply put_fields_steps; simpl; lia.
Qed.

Definition seq_of (i : nat) (buf : list Z) : Z := unpack_q buf (word_off i 0).

(** While a write is in progress the sequence word holds its odd marker. *)
Definition winv (i : nat) (s : list Z * wpc) : Prop :=
  slot_in i s.1 ∧
  match s.2 with WIdle => True | WWriting m => seq_of i s.1 = m ∧ Z.odd m = true end.

Lemma wstep_spec i s s' :
  wstep i s s' → winv i s →
  winv i s' ∧ seq_of i s.1 ≤ seq_of i s'.1 ∧
  (Z.even (seq_of i s.1) = true → seq_of i s'.1 = seq_of i s.1 →
   ∀ k, (k < 8)%nat → get_word s'.1 (word_off i k) = get_word s.1 (word_off i k)).
Proof.
  unfold winv, seq_of. intros Hs [Hi Hpc]. destruct Hs as [buf Hq|buf m k w Hk|buf m Hq|buf m|buf pc i' k w Hne Hk Hi'];
    simpl in *.
  - rewrite !unpack_put_seq by done. split_and!; [by apply slot_in_put; [|lia|]|done|apply lor_1_odd| |].
    + rewrite lor_1. case_match; lia.
    + rewrite lor_1, <-Z.negb_odd. destruct (Z.odd _); [done|lia].
  - destruct Hpc as [Hm Ho]. assert (k ≠ 0%nat) by lia. unfold unpack_q in *.
    rewrite !get_word_put, !decide_False by (done || lia || congruence).
    split_and!; [by apply slot_in_put; [|lia|]|done|done|lia|].
    rewrite <-Z.negb_odd, Hm, Ho. done.
  - destruct Hpc as [Hm Ho]. rewrite !unpack_put_seq by done.
    split_and!; [by apply slot_in_put; [|lia|]|done|lia|lia].
  - split_and!; done || lia.
  - unfold unpack_q in *. rewrite !get_word_put, !decide_False by (done || lia || congruence).
    split_and!; [by apply slot_in_put|done|lia|].
    intros _ _ k' Hk'. by rewrite get_word_put, decide_False by (done || lia || congruence).
Qed.

(** A history of the memory as writers run; a step may change nothing. *)
Definition whistory (i : nat) (tr : nat → list Z * wpc) : Prop :=
  winv i (tr 0%nat) ∧ ∀ n, wstep i (tr n) (tr (S n)) ∨ tr (S n) = tr n.

Lemma whistory_inv i tr n : whistory i tr → winv i (tr n).
Proof.
  intros [H0 Hs]. induction n as [|n IH]; [done|].
  destruct (Hs n) as [H| ->]; [|done]. by apply wstep_spec in H as [? _].
Qed.

Lemma whistory_mono i tr n m :
  whistory i tr → (n ≤ m)%nat → seq_of i (tr n).1 ≤ seq_of i (tr m).1.
Proof.
  intros Hw. induction 1 as [|m _ IH]; [done|].
  pose proof (whistory_inv i tr m Hw). destruct Hw as [_ Hs].
  destruct (Hs m) as [H'| ->]; [|done]. apply wstep_spec in H' as (_ & ? & _); [lia|done].
Qed.

(** Two equal even sequence numbers enclose a period without writes. *)
Lemma whistory_frozen i tr n m k :
  whistory i tr → (n ≤ m)%nat → Z.even (seq_of i (tr n).1) = true →
  seq_of i (tr m).1 = seq_of i (tr n).1 → (k < 8)%nat →
  get_word (tr m).1 (word_off i k) = get_word (tr n).1 (word_off i k).
Proof.
  intros Hw Hnm He Heq Hk. induction Hnm as [|m Hnm IH]; [done|].
  pose proof (whistory_mono i tr n m Hw Hnm). pose proof (whistory_mono i tr m (S m) Hw ltac:(lia)).
  assert (seq_of i (tr m).1 = seq_of i (tr n).1) as Hm by lia.
  rewrite <-IH by done. pose proof (whistory_inv i tr m Hw) as Hinv. destruct Hw as [_ Hs].
  destruct (Hs m) as [H'| ->]; [|done]. apply wstep_spec in H' as (_ & _ & Hf); [|done].
  apply Hf; [by rewrite Hm|lia|done].
Qed.

Lemma read_attempts_untorn i tr τ budget t v :
  whistory i tr → (∀ t, τ t ≤ τ (S t))%nat →
  read_attempts i (λ t, (tr (τ t)).1) budget t = Ok v →
  ∃ n, (τ t ≤ n)%nat ∧ Z.even (seq v) = true ∧ v = view_of i (tr n).1.
Proof.
  intros Hw Hτ.
  assert (∀ a b, (a ≤ b)%nat → (τ a ≤ τ b)%nat) as Hmono.
  { intros a b. induction 1 as [|b _ IH]; [done|]. specialize (Hτ b). lia. }
  revert t. induction budget as [|budget IH]; intros t; simpl; [done|].
  destruct (Z.odd (unpack_q (tr (τ t)).1 (word_off i 0))) eqn:Ho.
  { intros (n & ? & ?)%IH. exists n. split; [|done].
    specialize (Hmono t (t + 1)%nat ltac:(lia)). lia. }
  case_bool_decide as Heq; cycle 1.
  { intros (n & ? & ?)%IH. exists n. split; [|done].
    specialize (Hmono t (t + 10)%nat ltac:(lia)). lia. }
  intros [= <-]. exists (τ t). split; [lia|].
  assert (Z.even (seq_of i (tr (τ t)).1) = true) as He.
  { unfold seq_of. by rewrite <-Z.negb_odd, Ho. }
  assert (∀ a k, (a ≤ 9)%nat → (k < 8)%nat →
    get_word (tr (τ (t + a)%nat)).1 (word_off i k) = get_word (tr (τ t)).1 (word_off i k)) as Hf.
  { intros a k Ha Hk. apply whistory_frozen; [done|apply Hmono; lia|done| |done].
    pose proof (whistory_mono i tr _ _ Hw (Hmono t (t + a)%nat ltac:(lia))).
    pose proof (whistory_mono i tr _ _ Hw (Hmono (t + a)%nat (t + 9)%nat ltac:(lia))).
    unfold seq_of in *. lia. }
  assert (load_view i (λ t0, (tr (τ t0)).1) (t + 1) = view_of i (tr (τ t)).1) as ->; [|done].
  unfold view_of, load_view. rewrite <-!Nat.add_assoc. by rewrite !Hf by lia.
Qed.

(** C39. A slot read that returns is never torn: whatever the interleaving of
    its loads with the stores of the slot's writer, of writers that die half
    way and of the other slots' writers, the view it returns is the whole
    content of the slot at one instant at which no write is in progress (an
    even sequence number), at or after the read began. *)
Theorem seqlock_read_untorn i tr τ fail_fast v :
  whistory i tr → (∀ t, τ t ≤ τ (S t))%nat →
  slot_read fail_fast i (λ t, (tr (τ t)).1) = Ok v →
  ∃ n, (τ 0 ≤ n)%nat ∧ Z.even (seq v) = true ∧ v = view_of i (tr n).1.
Proof. apply read_attempts_untorn. Qed.

(** The slot codec round trips: after [write] of in-range counters the slot
    reads back as exactly those values under a fresh even sequence number, the
    other slots and the file size are untouched, and [reclaim] is such a write
    of zeros. *)
Theorem slot_write_read_roundtrip fail_fast i v buf buf' :
  slot_in i buf → 0 ≤ heartbeat_ts v < 2 ^ 64 → slot_write i v buf = Ok buf' →
  slot_read fail_fast i (λ _, buf') = Ok (with_seq (Z.lor (seq_of i buf) 1 + 1) v) ∧
  seq_of i buf < seq_of i buf' ∧
  (∀ j, j ≠ i → view_of j buf' = view_of j buf) ∧ length buf' = length buf.
Proof.
  intros Hi Hh Hw. destruct (slot_write_view i v buf buf' Hi Hh Hw) as (Hv & He & Ho & Hl).
  split_and!; [|  |done|done].
  - rewrite read_constant by done. by rewrite Hv.
  - assert (seq_of i buf' = seq (view_of i buf')) as -> by done. rewrite Hv. simpl.
    rewrite lor_1. unfold seq_of. case_match; lia.
Qed.

(** ** One process: [SharedAdmission]

    The outcome of each [codec.read(fail_fast=True)] is given: [own] for the
    ownership check, [rd] for the sibling scan.  [t_shed], [t_mark], [t_write]
    are the clock readings of the three places that read it, and [heartbeat]
    the bit pattern stored for a reading. *)
Record SharedAdmission := mkShared {
  sa_slots : nat;
  sa_own : nat;
  sa_max_inflight : Z;
  sa_generation : Z;
  sa_pid : Z;
  sa_inflight : Z;
  sa_peak_sum : Z;
  sa_rejected_total : Z;
  sa_sibling_unstable : bool;
  sa_sibling_probed_at : Z;
}.

Section admission.
Context (heartbeat : Z → Z).
Implicit Types a : SharedAdmission.

Definition with_counts a (inflight peak rejected : Z) : SharedAdmission :=
  mkShared (sa_slots a) (sa_own a) (sa_max_inflight a) (sa_generation a) (sa_pid a)
    inflight peak rejected (sa_sibling_unstable a) (sa_sibling_probed_at a).

Definition with_sibling a (unstable : bool) (probed_at : Z) : SharedAdmission :=
  mkShared (sa_slots a) (sa_own a) (sa_max_inflight a) (sa_generation a) (sa_pid a)
    (sa_inflight a) (sa_peak_sum a) (sa_rejected_total a) unstable probed_at.

Definition own_view a (t_write : Z) : SlotView :=
  mkSlotView 0 (sa_inflight a) (sa_peak_sum a) (sa_rejected_total a)
    (sa_generation a) (sa_pid a) (heartbeat t_write).

Definition _write_own a (t_write : Z) (buf : list Z) : res (list Z) :=
  slot_write (sa_own a) (own_view a t_write) buf.

Definition admission_init (slots : nat) (own_index max_inflight generation pid t_write : Z)
    (buf : list Z) : res (SharedAdmission * list Z) :=
  _ ← raise_if (negb (bool_decide (0 ≤ own_index < Z.of_nat slots)))
        (ValueError "own_index outside slots");
  let a := mkShared slots (Z.to_nat own_index) max_inflight generation pid 0 0 0 false 0 in
  buf ← _write_own a t_write buf;
  mret (a, buf).

Definition _still_owner a (own : res SlotView) : res bool :=
  view ← own;
  mret (bool_decide (generation view = sa_generation a ∧ pid view = sa_pid a)).

Fixpoint sum_inflight (rd : nat → res SlotView) (slots : list nat) : res Z :=
  match slots with
  | [] => Ok 0
  | i :: slots => v ← rd i; rest ← sum_inflight rd slots; mret (inflight v + rest)
  end.

Definition _total_inflight a (rd : nat → res SlotView) : res Z :=
  sum_inflight rd (List.seq 0 (sa_slots a)).

Definition _shed_from_cached_unstable a (t_shed : Z) : bool :=
  sa_sibling_unstable a &&
  bool_decide (t_shed - sa_sibling_probed_at a < _UNSTABLE_REPROBE_NANOS).

(** [self._rejected_total += 1; self._write_own(); return False] *)
Definition count_rejection a (t_write : Z) (buf : list Z) : res (bool * SharedAdmission * list Z) :=
  let a := with_counts a (sa_inflight a) (sa_peak_sum a) (sa_rejected_total a + 1) in
  buf ← _write_own a t_write buf;
  mret (false, a, buf).

(** Returns the verdict, whether [on_fenced] was called, the process state and
    the file. *)
Definition try_acquire (own : res SlotView) (rd : nat → res SlotView)
    (t_shed t_mark t_write : Z) a (buf : list Z) : res (bool * bool * SharedAdmission * list Z) :=
  match _still_owner a own with
  | Raise SeqlockUnstableError => mret (false, false, a, buf)
  | Raise e => Raise e
  | Ok false => mret (false, true, a, buf)
  | Ok true =>
      if _shed_from_cached_unstable a t_shed then
        '(v, a, buf) ← count_rejection a t_write buf; mret (v, false, a, buf)
      else
        match _total_inflight a rd with
        | Raise SeqlockUnstableError =>
            '(v, a, buf) ← count_rejection (with_sibling a true t_mark) t_write buf;
            mret (v, false, a, buf)
        | Raise e => Raise e
        | Ok total =>
            let a := with_sibling a false (sa_sibling_probed_at a) in
            if bool_decide (sa_max_inflight a ≤ total) then
              '(v, a, buf) ← count_rejection a t_write buf; mret (v, false, a, buf)
            else
              let observed := total + 1 in
              let a := with_counts a (sa_inflight a + 1)
                         (Z.max (sa_peak_sum a) observed) (sa_rejected_total a) in
              buf ← _write_own a t_write buf;
              mret (true, false, a, buf)
        end
  end.

(** Returns whether [on_fenced] was called. *)
Definition release (own : res SlotView) (t_write : Z) a (buf : list Z)
    : res (bool * SharedAdmission * list Z) :=
  match _still_owner a own with
  | Raise SeqlockUnstableError => mret (false, a, buf)
  | Raise e => Raise e
  | Ok false => mret (true, a, buf)
  | Ok true =>
      if bool_decide (sa_inflight a ≤ 0) then mret (false, a, buf)
      else
        let a := with_counts a (sa_inflight a - 1) (sa_peak_sum a) (sa_rejected_total a) in
        buf ← _write_own a t_write buf;
        mret (false, a, buf)
  end.

Definition touch (own : res SlotView) (t_write : Z) a (buf : list Z) : res (list Z) :=
  b ← _still_owner a own;
  if (b : bool) then _write_own a t_write buf else mret buf.

End admission.

(** The four fields of [_aggregate_to_dict]; [rd n] gives the reads of the
    [n]-th attempt, [before] and [after] those of the retired slot. *)
Record Aggregate := mkAggregate {
  ag_inflight : Z; ag_max_inflight : Z; ag_peak_inflight : Z; ag_rejected_total : Z }.

Fixpoint read_views (rd : nat → res SlotView) (slots : list nat) : res (list SlotView) :=
  match slots with
  | [] => Ok []
  | i :: slots => v ← rd i; vs ← read_views rd slots; mret (v :: vs)
  end.

Definition zmax_list (d : Z) (l : list Z) : Z :=
  match l with [] => d | x :: l => fold_left Z.max l x end.

Fixpoint aggregate_attempts (slots : nat) (max_inflight : Z) (before after : nat → res SlotView)
    (rd : nat → nat → res SlotView) (tries n : nat) : res Aggregate :=
  match tries with
  | O => Raise SeqlockUnstableError
  | S tries =>
      version_before ← seq <$> before n;
      views ← read_views (rd n) (List.seq 0 slots);
      retired ← after n;
      if bool_decide (seq retired = version_before) then
        mret (mkAggregate (zsum (map inflight views)) max_inflight
                (zmax_list 0 (map peak_sum (views ++ [retired])))
                (zsum (map rejected_total views) + rejected_total retired))
      else aggregate_attempts slots max_inflight before after rd tries (S n)
  end.

Definition _aggregate_to_dict (slots : nat) (max_inflight : Z) (before after : nat → res SlotView)
    (rd : nat → nat → res SlotView) : res Aggregate :=
  aggregate_attempts slots max_inflight before after rd 4 0.

Lemma fold_max_ge l x y : y ∈ x :: l → y ≤ fold_left Z.max l x.
Proof.
  revert x y. induction l as [|z l IH]; intros x y; simpl.
  - intros ->%list_elem_of_singleton. done.
  - intros [->|[->|Hin]%elem_of_cons]%elem_of_cons.
    + etrans; [|apply (IH (Z.max x z)), elem_of_cons; by left]. lia.
    + etrans; [|apply (IH (Z.max x z)), elem_of_cons; by left]. lia.
    + apply IH, elem_of_cons. by right.
Qed.

Lemma fold_max_in l x : fold_left Z.max l x ∈ x :: l.
Proof.
  revert x. induction l as [|z l IH]; intros x; simpl; [set_solver|].
  specialize (IH (Z.max x z)). apply elem_of_cons in IH as [->|IH]; [|set_solver].
  destruct (Z.max_spec x z) as [[_ ->]|[_ ->]]; set_solver.
Qed.

Lemma zmax_list_ge d l y : y ∈ l → y ≤ zmax_list d l.
Proof. destruct l as [|x l]; [set_solver|]. apply fold_max_ge. Qed.

Lemma zmax_list_in d l : l ≠ [] → zmax_list d l ∈ l.
Proof. destruct l as [|x l]; [done|]. intros _. apply fold_max_in. Qed.

(** ** One process over a quiescent file *)
Section quiescent.
Context (heartbeat : Z → Z).
Implicit Types a : SharedAdmission.

Definition total (buf : list Z) (slots : nat) : Z :=
  zsum (map (λ i, inflight (view_of i buf)) (List.seq 0 slots)).

(** The process owns its slot, the slot mirrors its counters, and every slot is
    readable. *)
Record sa_ok a (buf : list Z) : Prop := {
  ok_own : (sa_own a < sa_slots a)%nat;
  ok_len : (admission_file_size (sa_slots a) ≤ length buf)%nat;
  ok_even : ∀ i, (i < sa_slots a)%nat → Z.even (seq (view_of i buf)) = true;
  ok_mirror : with_seq 0 (view_of (sa_own a) buf) =
              with_seq 0 (mkSlotView 0 (sa_inflight a) (sa_peak_sum a) (sa_rejected_total a)
                (sa_generation a) (sa_pid a) (heartbeat_ts (view_of (sa_own a) buf)));
  ok_nonneg : 0 ≤ sa_inflight a;
}.

Lemma ok_slot_in a buf i : sa_ok a buf → (i < sa_slots a)%nat → slot_in i buf.
Proof. intros [_ Hl _ _ _] Hi. unfold slot_in, admission_file_size, SLOT_SIZE in *. lia. Qed.

Lemma zsum_map_update (f g : nat → Z) (i n d : nat) :
  (d ≤ i < d + n)%nat → (∀ j, j ≠ i → f j = g j) →
  zsum (map f (List.seq d n)) = zsum (map g (List.seq d n)) + (f i - g i).
Proof.
  revert d. induction n as [|n IH]; intros d Hi Hne; simpl; [lia|].
  destruct (decide (d = i)) as [->|Hdi].
  - assert (map f (List.seq (S i) n) = map g (List.seq (S i) n)) as ->; [|lia].
    apply map_ext_in. intros j Hj%in_seq. apply Hne. lia.
  - rewrite (Hne d) by done. rewrite (IH (S d)) by (done || lia). lia.
Qed.

(** Writing the process's own slot re-establishes the invariant and moves the
    file's total by the change of its own count. *)
Lemma write_own_ok a a' buf buf' t :
  (∀ z, 0 ≤ heartbeat z < 2 ^ 64) → sa_ok a buf →
  sa_slots a' = sa_slots a → sa_own a' = sa_own a → sa_generation a' = sa_generation a →
  sa_pid a' = sa_pid a → 0 ≤ sa_inflight a' →
  _write_own heartbeat a' t buf = Ok buf' →
  sa_ok a' buf' ∧ total buf' (sa_slots a) = total buf (sa_slots a) + (sa_inflight a' - sa_inflight a).
Proof.
  intros Hh Hok Es Eo Eg Ep Hn Hw. pose proof (ok_slot_in a buf (sa_own a) Hok (ok_own _ _ Hok)) as Hi.
  unfold _write_own in Hw. rewrite Eo in Hw.
  destruct (slot_write_view (sa_own a) (own_view heartbeat a' t) buf buf' Hi (Hh t) Hw) as (Hv & He & Hother & Hl).
  destruct Hok as [Ho Hlen Heven Hm _]. split.
  - split; rewrite ?Eo, ?Es; [done|by rewrite Hl| | |done].
    + intros i Hi'. destruct (decide (i = sa_own a)) as [->|]; [done|]. rewrite Hother by done. auto.
    + by rewrite Hv.
  - unfold total. rewrite (zsum_map_update _ (λ i, inflight (view_of i buf)) (sa_own a)) by
      (lia || (intros; by rewrite Hother)).
    assert (inflight (view_of (sa_own a) buf) = sa_inflight a) as Hin
      by exact (f_equal inflight Hm).
    cbv beta. rewrite Hv, Hin. cbn [with_seq own_view inflight]. lia.
Qed.

Lemma sum_inflight_quiet buf slots :
  (∀ i, i ∈ slots → Z.even (seq (view_of i buf)) = true) →
  sum_inflight (λ i, slot_read true i (λ _, buf)) slots =
    Ok (zsum (map (λ i, inflight (view_of i buf)) slots)).
Proof.
  induction slots as [|i slots IH]; intros He; simpl; [done|].
  rewrite read_constant by (apply He; set_solver). simpl.
  rewrite IH by (intros; apply He; set_solver). done.
Qed.

Lemma still_owner_ok a buf :
  sa_ok a buf → _still_owner a (slot_read true (sa_own a) (λ _, buf)) = Ok true.
Proof.
  intros [Ho _ He Hm _]. unfold _still_owner. rewrite read_constant by auto. simpl.
  rewrite bool_decide_eq_true_2; [done|].
  split; [apply (f_equal generation) in Hm|apply (f_equal pid) in Hm]; done.
Qed.

Lemma total_quiet a buf :
  sa_ok a buf → _total_inflight a (λ i, slot_read true i (λ _, buf)) = Ok (total buf (sa_slots a)).
Proof.
  intros Hok. apply sum_inflight_quiet. intros i Hi. apply list_elem_of_In, in_seq in Hi.
  apply (ok_even _ _ Hok). lia.
Qed.

(** On a quiescent file a process admits exactly when the sum over all slots
    is below the bound: an admission raises the file's total by one, a shed
    leaves it unchanged and counts one rejection; the slot keeps mirroring the
    process, [on_fenced] is not called, and a release after an admission
    restores the total. *)
Theorem try_acquire_quiescent a buf t1 t2 t3 t4 verdict fenced a' buf' :
  (∀ z, 0 ≤ heartbeat z < 2 ^ 64) → sa_ok a buf → sa_sibling_unstable a = false →
  try_acquire heartbeat (slot_read true (sa_own a) (λ _, buf)) (λ i, slot_read true i (λ _, buf))
    t1 t2 t3 a buf = Ok (verdict, fenced, a', buf') →
  verdict = bool_decide (total buf (sa_slots a) < sa_max_inflight a) ∧ fenced = false ∧
  sa_ok a' buf' ∧
  total buf' (sa_slots a) = total buf (sa_slots a) + (if verdict then 1 else 0) ∧
  sa_rejected_total a' = sa_rejected_total a + (if verdict then 0 else 1) ∧
  (∀ fenced' a'' buf'',
    verdict = true →
    release heartbeat (slot_read true (sa_own a') (λ _, buf')) t4 a' buf' = Ok (fenced', a'', buf'') →
    fenced' = false ∧ sa_ok a'' buf'' ∧ total buf'' (sa_slots a) = total buf (sa_slots a)).
Proof.
  intros Hh Hok Hu. unfold try_acquire.
  rewrite (still_owner_ok a buf Hok). unfold _shed_from_cached_unstable. rewrite Hu. simpl.
  rewrite (total_quiet a buf Hok). simpl.
  pose proof (ok_nonneg _ _ Hok) as Hnn. case_bool_decide as Hfull.
  - unfold count_rejection.
    intros (? & (b & Hw & [= <-])%bind_ok & [= <- <- <- <-])%bind_ok.
    eapply write_own_ok in Hw as [Hok' Ht]; [|done..].
    rewrite bool_decide_eq_false_2 by lia. split_and!; try done. simpl in Ht. lia.
  - intros (b & Hw & [= <- <- <- <-])%bind_ok.
    eapply write_own_ok in Hw as [Hok' Ht]; [|done..|simpl; lia].
    rewrite bool_decide_eq_true_2 by lia. simpl in Ht.
    split_and!; try done; [lia|simpl; lia|].
    intros fenced' a'' buf'' _. unfold release. rewrite still_owner_ok by done. simpl.
    rewrite bool_decide_eq_false_2 by lia.
    intros (b' & Hw' & [= <- <- <-])%bind_ok.
    eapply write_own_ok in Hw' as [Hok'' Ht']; [|done..|simpl; lia].
    split_and!; try done. simpl in Ht'. lia.
Qed.
End quiescent.

(** The sums of one attempt whose fold version did not move. *)
Definition aggregate_of (max_inflight : Z) (views : list SlotView) (retired : SlotView) : Aggregate :=
  mkAggregate (zsum (map inflight views)) max_inflight
    (zmax_list 0 (map peak_sum (views ++ [retired])))
    (zsum (map rejected_total views) + rejected_total retired).

Lemma aggregate_attempts_ok slots mx before after rd tries n r :
  aggregate_attempts slots mx before after rd tries n = Ok r →
  ∃ k b views retired, (n ≤ k < n + tries)%nat ∧ before k = Ok b ∧
    read_views (rd k) (List.seq 0 slots) = Ok views ∧ after k = Ok retired ∧
    seq retired = seq b ∧ r = aggregate_of mx views retired.
Proof.
  revert n. induction tries as [|tries IH]; intros n; simpl; [done|].
  destruct (before n) as [b|] eqn:Hb; simpl; [|done].
  intros (views & Hv & (retired & Hr & Hres)%bind_ok)%bind_ok.
  case_bool_decide as Heq.
  - exists n, b, views, retired. injection Hres as <-. split_and!; done || lia.
  - apply IH in Hres as (k & b' & vs & rt & Hk & ?). exists k, b', vs, rt. split; [lia|done].
Qed.

(** An aggregate never mixes the two sides of a retired-slot fold: a result
    comes from one of four attempts whose two reads of the retired slot carry
    the same sequence number, and then its counters are the sums (and the
    maximum of the peaks) over exactly the views of that attempt plus the
    retired slot. *)
Theorem aggregate_single_version slots mx before after rd r :
  _aggregate_to_dict slots mx before after rd = Ok r →
  ∃ k b views retired, (k < 4)%nat ∧ before k = Ok b ∧ after k = Ok retired ∧
    seq retired = seq b ∧ read_views (rd k) (List.seq 0 slots) = Ok views ∧
    ag_inflight r = zsum (map inflight views) ∧
    ag_rejected_total r = zsum (map rejected_total views) + rejected_total retired ∧
    (∀ v, v ∈ views ++ [retired] → peak_sum v ≤ ag_peak_inflight r) ∧
    (∃ v, v ∈ views ++ [retired] ∧ ag_peak_inflight r = peak_sum v).
Proof.
  intros (k & b & views & retired & Hk & Hb & Hv & Hr & Heq & ->)%aggregate_attempts_ok.
  exists k, b, views, retired. split_and!; try done; [lia|..].
  - intros v Hin. apply zmax_list_ge, list_elem_of_fmap. by exists v.
  - assert (ag_peak_inflight (aggregate_of mx views retired) ∈ peak_sum <$> (views ++ [retired]))
      as (v & ? & ?)%list_elem_of_fmap; [|by exists v].
    apply zmax_list_in. by destruct views.
Qed.

(** ** All processes: the soft bound

    [N] processes run [try_acquire] and [release] concurrently.  A scan reads
    the slots one after the other (each read untorn, by the sequence lock), the
    verdict is taken when the scan ends, and the own slot is written later; any
    step of any other process may come in between.  The supervisor may reap a
    process at any point and zero its slot ([d_reclaim]). *)
Inductive phase :=
| Idle
| Scanning (vals : list Z)   (* slots 0 .. length vals - 1 read so far *)
| Admitting (vals : list Z).  (* verdict reached, own slot not yet written *)

Record dp := mkDp { dp_inflight : Z; dp_phase : phase }.

Section soft_bound.
Context (N : nat) (M : Z).
Abbreviation world := (nat → dp).

Inductive dstep : world → world → Prop :=
| d_start s i n : (i < N)%nat → s i = mkDp n Idle → dstep s (<[i := mkDp n (Scanning [])]> s)
| d_read s i n vals :
    s i = mkDp n (Scanning vals) → (length vals < N)%nat →
    dstep s (<[i := mkDp n (Scanning (vals ++ [dp_inflight (s (length vals))]))]> s)
| d_shed s i n vals :
    s i = mkDp n (Scanning vals) → length vals = N → M ≤ zsum vals →
    dstep s (<[i := mkDp n Idle]> s)
| d_unstable s i n vals :   (* a slot stayed odd, or the cached verdict shed *)
    s i = mkDp n (Scanning vals) → dstep s (<[i := mkDp n Idle]> s)
| d_admit s i n vals :
    s i = mkDp n (Scanning vals) → length vals = N → zsum vals < M →
    dstep s (<[i := mkDp n (Admitting vals)]> s)
| d_commit s i n vals :
    s i = mkDp n (Admitting vals) → dstep s (<[i := mkDp (n + 1) Idle]> s)
| d_release s i n :
    (i < N)%nat → s i = mkDp n Idle → 0 < n → dstep s (<[i := mkDp (n - 1) Idle]> s)
| d_reclaim s i : (i < N)%nat → dstep s (<[i := mkDp 0 Idle]> s).

Definition quiet : world := λ _, mkDp 0 Idle.
Definition in_flight (s : world) : Z := zsum (map (λ i, dp_inflight (s i)) (List.seq 0 N)).

(** Ghost history: a clock, the start time of each process's current scan, and
    the start time and values of the scan behind its last admission (time 0 if
    there was none). *)
Record ghost := mkGhost {
  g_clock : nat; g_cur : nat → nat; g_last : nat → nat; g_vals : nat → list Z }.

Definition busy (p : phase) : bool := match p with Idle => false | _ => true end.

(** What a scan begun at time [c] still knows about slot [j] after reading [v]
    from it: an admission of [j] whose scan began no later than [c] is at most
    one ahead of [v], and if [j] is still in such a scan its slot has not moved. *)
Definition knows (s : world) (g : ghost) (c : nat) (j : nat) (v : Z) : Prop :=
  0 ≤ v ∧
  ((g_last g j ≤ c)%nat → dp_inflight (s j) ≤ v + 1) ∧
  (busy (dp_phase (s j)) = true → (g_cur g j ≤ c)%nat → dp_inflight (s j) ≤ v).

Definition knows_all (s : world) (g : ghost) (c : nat) (vals : list Z) : Prop :=
  ∀ j v, vals !! j = Some v → knows s g c j v.

Record dinv (s : world) (g : ghost) : Prop := {
  i_nonneg : ∀ i, 0 ≤ dp_inflight (s i);
  i_cur : ∀ i, (g_cur g i ≤ g_clock g)%nat;
  i_last : ∀ i, (g_last g i ≤ g_clock g)%nat;
  i_pos : ∀ i, busy (dp_phase (s i)) = true → (0 < g_cur g i)%nat;
  i_bound : ∀ i, (N ≤ i)%nat → s i = mkDp 0 Idle;
  i_scan : ∀ i vals, dp_phase (s i) = Scanning vals →
    (length vals ≤ N)%nat ∧ knows_all s g (g_cur g i) vals;
  i_admit : ∀ i vals, dp_phase (s i) = Admitting vals →
    length vals = N ∧ zsum vals < M ∧ knows_all s g (g_cur g i) vals;
  i_done : ∀ i, (0 < g_last g i)%nat →
    length (g_vals g i) = N ∧ zsum (g_vals g i) < M ∧ knows_all s g (g_last g i) (g_vals g i);
  i_none : ∀ i, g_last g i = 0%nat → dp_inflight (s i) = 0;
}.

(** Changing process [i] in a way that neither raises its slot nor moves its
    timestamps keeps what every scan knows. *)
Lemma knows_weaken s g c j v i p :
  dp_inflight p ≤ dp_inflight (s i) → (busy (dp_phase p) = true → busy (dp_phase (s i)) = true) →
  knows s g c j v → knows (<[i := p]> s) g c j v.
Proof.
  intros Hp Hb (Hv & H1 & H2). split_and!; [done| |].
  all: destruct (decide (i = j)) as [->|]; [rewrite fn_lookup_insert|by rewrite fn_lookup_insert_ne].
  - intros Hl. specialize (H1 Hl). lia.
  - intros Hbz Hc. specialize (H2 (Hb Hbz) Hc). lia.
Qed.

(** A step of process [i] that keeps the ghost and its scan's values: every
    conjunct about the other processes follows from [knows_weaken]. *)
Lemma dinv_local s g i p :
  dinv s g → (i < N)%nat →
  0 ≤ dp_inflight p ≤ dp_inflight (s i) →
  (busy (dp_phase p) = true → busy (dp_phase (s i)) = true) →
  (∀ vals, dp_phase p = Scanning vals →
    (length vals ≤ N)%nat ∧ knows_all (<[i := p]> s) g (g_cur g i) vals) →
  (∀ vals, dp_phase p = Admitting vals →
    length vals = N ∧ zsum vals < M ∧ knows_all (<[i := p]> s) g (g_cur g i) vals) →
  dinv (<[i := p]> s) g.
Proof.
  intros [Hn Hc Hl Hp Hbd Hs Ha Hd Hz] Hi Hle Hb HS HA.
  split; try done; intros i'.
  1,2,3: destruct (decide (i = i')) as [->|]; [rewrite fn_lookup_insert|by rewrite fn_lookup_insert_ne; auto].
  - lia.
  - intros ?. apply Hp, Hb; done.
  - lia.
  - destruct (decide (i = i')) as [->|]; [rewrite fn_lookup_insert; apply HS|].
    rewrite fn_lookup_insert_ne by done. intros vals Hvals. destruct (Hs _ _ Hvals) as [? Hk].
    split; [done|]. intros j v Hj. apply knows_weaken; [lia|done|by apply Hk].
  - destruct (decide (i = i')) as [->|]; [rewrite fn_lookup_insert; apply HA|].
    rewrite fn_lookup_insert_ne by done. intros vals Hvals. destruct (Ha _ _ Hvals) as (? & ? & Hk).
    split_and!; [done|done|]. intros j v Hj. apply knows_weaken; [lia|done|by apply Hk].
  - intros Hpos. destruct (Hd _ Hpos) as (? & ? & Hk). split_and!; [done|done|].
    intros j v Hj. apply knows_weaken; [lia|done|by apply Hk].
  - intros H0. specialize (Hz _ H0). destruct (decide (i = i')) as [->|];
      [rewrite fn_lookup_insert; lia|by rewrite fn_lookup_insert_ne].
Qed.

Lemma knows_start s g i j c v n :
  s i = mkDp n Idle → (c ≤ g_clock g)%nat → knows s g c j v →
  knows (<[i := mkDp n (Scanning [])]> s)
    (mkGhost (S (g_clock g)) (<[i := S (g_clock g)]> (g_cur g)) (g_last g) (g_vals g)) c j v.
Proof.
  intros Hs Hc (Hv & H1 & H2). unfold knows. simpl.
  destruct (decide (i = j)) as [->|Hne].
  - rewrite !fn_lookup_insert. simpl. rewrite Hs in H1. split_and!; [done|done|]. intros _ Hle. lia.
  - by rewrite !fn_lookup_insert_ne.
Qed.

Lemma dinv_start s g i n :
  dinv s g → (i < N)%nat → s i = mkDp n Idle →
  dinv (<[i := mkDp n (Scanning [])]> s)
    (mkGhost (S (g_clock g)) (<[i := S (g_clock g)]> (g_cur g)) (g_last g) (g_vals g)).
Proof.
  intros [Hn Hc Hl Hp Hbd Hs Ha Hd Hz] Hi Hsi.
  assert (∀ c vals, (c ≤ g_clock g)%nat → knows_all s g c vals →
    knows_all (<[i := mkDp n (Scanning [])]> s)
      (mkGhost (S (g_clock g)) (<[i := S (g_clock g)]> (g_cur g)) (g_last g) (g_vals g)) c vals)
    as Hk by (intros c vals ? Hk j v Hj; apply knows_start; auto).
  split; simpl; try done; intros i'.
  1-7: destruct (decide (i = i')) as [->|]; rewrite ?fn_lookup_insert, ?fn_lookup_insert_ne by done; simpl.
  - specialize (Hn i'). by rewrite Hsi in Hn.
  - auto.
  - lia.
  - specialize (Hc i'). lia.
  - specialize (Hl i'). lia.
  - specialize (Hl i'). lia.
  - lia.
  - auto.
  - lia.
  - auto.
  - intros vals [= <-]. split; simpl; [lia|]. intros j v Hj. by rewrite lookup_nil in Hj.
  - intros vals Hv. destruct (Hs _ _ Hv). auto.
  - done.
  - intros vals Hv. destruct (Ha _ _ Hv) as (? & ? & ?). auto.
  - intros Hpos. destruct (Hd _ Hpos) as (? & ? & ?). auto.
  - intros H0. specialize (Hz _ H0). destruct (decide (i = i')) as [->|];
      rewrite ?fn_lookup_insert, ?fn_lookup_insert_ne by done; [|done]. by rewrite Hsi in Hz.
Qed.

Lemma knows_commit s g i j c v n vals :
  s i = mkDp n (Admitting vals) → knows s g c j v →
  knows (<[i := mkDp (n + 1) Idle]> s)
    (mkGhost (g_clock g) (g_cur g) (<[i := g_cur g i]> (g_last g)) (<[i := vals]> (g_vals g))) c j v.
Proof.
  intros Hs (Hv & H1 & H2). unfold knows. simpl.
  destruct (decide (i = j)) as [->|Hne].
  - rewrite !fn_lookup_insert. simpl. rewrite Hs in H2. split_and!; [done| |done].
    intros Hle. specialize (H2 eq_refl Hle). simpl in H2. lia.
  - by rewrite !fn_lookup_insert_ne.
Qed.

Lemma dinv_commit s g i n vals :
  dinv s g → s i = mkDp n (Admitting vals) →
  dinv (<[i := mkDp (n + 1) Idle]> s)
    (mkGhost (g_clock g) (g_cur g) (<[i := g_cur g i]> (g_last g)) (<[i := vals]> (g_vals g))).
Proof.
  intros [Hn Hc Hl Hp Hbd Hs Ha Hd Hz] Hsi.
  assert (i < N)%nat as Hi.
  { destruct (decide (i < N)%nat); [done|]. rewrite Hbd in Hsi by lia. done. }
  assert (0 < g_cur g i)%nat as Hpos by (apply Hp; by rewrite Hsi).
  destruct (Ha i vals) as (Hlen & Hsum & Hown); [by rewrite Hsi|].
  assert (∀ c vals', knows_all s g c vals' →
    knows_all (<[i := mkDp (n + 1) Idle]> s)
      (mkGhost (g_clock g) (g_cur g) (<[i := g_cur g i]> (g_last g)) (<[i := vals]> (g_vals g)))
      c vals') as Hk by (intros c vals' Hk j v Hj; eapply knows_commit; eauto).
  split; simpl; try done; intros i'.
  1-7: destruct (decide (i = i')) as [->|]; rewrite ?fn_lookup_insert, ?fn_lookup_insert_ne by done; simpl.
  - specialize (Hn i'). rewrite Hsi in Hn. simpl in Hn. lia.
  - auto.
  - auto.
  - auto.
  - done.
  - auto.
  - lia.
  - auto.
  - done.
  - intros vals' Hv. destruct (Hs _ _ Hv). auto.
  - done.
  - intros vals' Hv. destruct (Ha _ _ Hv) as (? & ? & ?). auto.
  - auto.
  - intros Hpos'. destruct (Hd _ Hpos') as (? & ? & ?). auto.
  - destruct (decide (i = i')) as [->|]; rewrite ?fn_lookup_insert, ?fn_lookup_insert_ne by done;
      [lia|auto].
Qed.

Lemma dinv_step s s' g : dstep s s' → dinv s g → ∃ g', dinv s' g'.
Proof.
  intros Hstep Hinv. pose proof Hinv as [Hn Hc Hl Hp Hbd Hs Ha Hd Hz].
  assert (∀ i, busy (dp_phase (s i)) = true → (i < N)%nat) as Hlt.
  { intros i Hb. destruct (decide (i < N)%nat); [done|]. by rewrite Hbd in Hb by lia. }
  destruct Hstep as [s i n Hi Hsi|s i n vals Hsi Hlen|s i n vals Hsi Hlen Hsum
                    |s i n vals Hsi|s i n vals Hsi Hlen Hsum|s i n vals Hsi|s i n Hi Hsi Hpos|s i Hi].
  - eexists. by apply dinv_start.
  - exists g. apply dinv_local; rewrite ?Hsi; simpl; try done.
    + apply Hlt. by rewrite Hsi.
    + specialize (Hn i). rewrite Hsi in Hn. simpl in *. lia.
    + intros ? [= <-]. rewrite length_app. simpl. split; [lia|].
      destruct (Hs i vals) as [_ Hk]; [by rewrite Hsi|].
      intros j v [Hj|[Hj Hv]]%lookup_app_Some.
      * apply knows_weaken; [by rewrite Hsi|by rewrite Hsi|by apply Hk].
      * destruct (j - length vals)%nat as [|?] eqn:Hd'; [|done]. simplify_eq/=.
        assert (j = length vals) as -> by lia.
        apply knows_weaken; [by rewrite Hsi|by rewrite Hsi|].
        split_and!; [apply Hn|lia|lia].
  - exists g. apply dinv_local; rewrite ?Hsi; simpl; try done.
    + apply Hlt. by rewrite Hsi.
    + specialize (Hn i). rewrite Hsi in Hn. simpl in *. lia.
  - exists g. apply dinv_local; rewrite ?Hsi; simpl; try done.
    + apply Hlt. by rewrite Hsi.
    + specialize (Hn i). rewrite Hsi in Hn. simpl in *. lia.
  - exists g. apply dinv_local; rewrite ?Hsi; simpl; try done.
    + apply Hlt. by rewrite Hsi.
    + specialize (Hn i). rewrite Hsi in Hn. simpl in *. lia.
    + intros ? [= <-]. split_and!; [done|done|].
      destruct (Hs i vals) as [_ Hk]; [by rewrite Hsi|].
      intros j v Hj. apply knows_weaken; [by rewrite Hsi|by rewrite Hsi|by apply Hk].
  - eexists. by apply dinv_commit.
  - exists g. apply dinv_local; rewrite ?Hsi; simpl; try done. lia.
  - exists g. by apply dinv_local.
Qed.

Lemma dinv_reachable s : rtc dstep quiet s → ∃ g, dinv s g.
Proof.
  intros Hr. assert (∃ g, dinv quiet g) as [g0 H0].
  { exists (mkGhost 0 (λ _, 0%nat) (λ _, 0%nat) (λ _, [])). split; simpl; try done; lia. }
  revert g0 H0. induction Hr as [s|s s' s'' Hs Hr IH]; intros g0 H0; [by exists g0|].
  destruct (dinv_step _ _ _ Hs H0) as [g1 H1]. by eapply IH.
Qed.

Lemma zsum_close (f : nat → Z) vals d :
  (∀ j v, vals !! j = Some v → f (d + j)%nat ≤ v + 1) →
  zsum (map f (List.seq d (length vals))) ≤ zsum vals + Z.of_nat (length vals).
Proof.
  revert d. induction vals as [|v vals IH]; intros d Hf; simpl; [lia|].
  pose proof (Hf 0%nat v eq_refl) as H0. rewrite Nat.add_0_r in H0.
  enough (zsum (map f (List.seq (S d) (length vals))) ≤ zsum vals + Z.of_nat (length vals)) by lia.
  apply IH. intros j v' Hj. specialize (Hf (S j) v' Hj). by rewrite Nat.add_succ_r in Hf.
Qed.

(** The index below [n] of a greatest value. *)
Lemma argmax_exists (f : nat → nat) n :
  (0 < n)%nat → ∃ i, (i < n)%nat ∧ ∀ j, (j < n)%nat → (f j ≤ f i)%nat.
Proof.
  induction n as [|n IH]; intros Hn; [lia|].
  destruct (decide (n = 0)%nat) as [->|]; [exists 0%nat; split; [lia|]; intros j Hj; by replace j with 0%nat by lia|].
  destruct IH as (i & Hi & Hmax); [lia|].
  destruct (decide (f n ≤ f i)%nat).
  - exists i. split; [lia|]. intros j Hj. destruct (decide (j = n)) as [->|]; [done|]. apply Hmax. lia.
  - exists n. split; [lia|]. intros j Hj. destruct (decide (j = n)) as [->|]; [lia|].
    specialize (Hmax j). lia.
Qed.

(** C38. The global bound is soft by at most N - 1 requests: in every
    interleaving of scans, verdicts, slot writes, releases and supervisor
    reclaims of N processes, the requests in flight over all slots never exceed
    the configured bound by N or more (and are never negative), although no scan
    is atomic and a verdict may rest on values that changed since. *)
Theorem admission_soft_bound s :
  (0 < N)%nat → 0 ≤ M → rtc dstep quiet s → 0 ≤ in_flight s ≤ M + Z.of_nat N - 1.
Proof.
  intros HN HM [g [Hn Hc Hl Hp Hbd Hs Ha Hd Hz]]%dinv_reachable. unfold in_flight. split.
  { apply zsum_nonneg. apply Forall_fmap, Forall_forall. intros i _. apply Hn. }
  destruct (argmax_exists (g_last g) N HN) as (i & Hi & Hmax).
  destruct (decide (g_last g i = 0)%nat) as [H0|Hpos].
  - assert (zsum (map (λ j, dp_inflight (s j)) (List.seq 0 N)) = 0) as ->; [|lia].
    rewrite (map_ext_in _ (λ _, 0)).
    + generalize 0%nat at 1. clear. induction N as [|n IH]; intros d; simpl; [done|]. by rewrite IH.
    + intros j Hj%in_seq. apply Hz. specialize (Hmax j). lia.
  - destruct (Hd i) as (Hlen & Hsum & Hk); [lia|]. rewrite <-Hlen at 1.
    enough (zsum (map (λ j, dp_inflight (s j)) (List.seq 0 (length (g_vals g i))))
            ≤ zsum (g_vals g i) + Z.of_nat (length (g_vals g i))) by lia.
    apply zsum_close. intros j v Hj. simpl. destruct (Hk j v Hj) as (_ & H1 & _). apply H1, Hmax.
    apply lookup_lt_Some in Hj. lia.
Qed.
End soft_bound.

(** ** Witnesses *)
Definition demo_view : SlotView := mkSlotView 0 3 5 (-2) 9 4242 0.
Definition demo_file : list Z :=
  match slot_write 0 demo_view (create_admission_file 2) with Ok b => b | Raise _ => [] end.
Definition demo_process : SharedAdmission := mkShared 2 0 5 9 4242 3 5 (-2) false 0.

(** A write in progress when the read starts: the first attempt meets the odd
    marker, the writer then finishes, and a later attempt returns. *)
Definition demo_busy : list Z := put_word demo_file (word_off 0 0) 3.
Definition demo_done : list Z := put_word demo_busy (word_off 0 0) 4.
Definition demo_history (n : nat) : list Z * wpc :=
  match n with O => (demo_file, WIdle) | S O => (demo_busy, WWriting 3) | _ => (demo_done, WIdle) end.

Lemma demo_history_ok : whistory 0 demo_history.
Proof.
  split.
  - split; [apply Nat.leb_le; vm_compute; reflexivity|done].
  - intros [|[|n]]; [left|left|by right].
    + apply (ws_begin 0 demo_file). vm_compute. reflexivity.
    + apply (ws_end 0 demo_busy 3). vm_compute. reflexivity.
Qed.

Lemma seqlock_read_untorn_witness :
  ∃ n, slot_read true 0 (λ t, (demo_history (S t)).1) = Ok (with_seq 4 demo_view) ∧
       with_seq 4 demo_view = view_of 0 (demo_history n).1.
Proof.
  assert (slot_read true 0 (λ t, (demo_history (S t)).1) = Ok (with_seq 4 demo_view)) as H
    by (vm_compute; reflexivity).
  destruct (seqlock_read_untorn 0 demo_history S true _ demo_history_ok ltac:(intros; lia) H)
    as (n & _ & _ & Hv).
  exists n. split; [exact H|exact Hv].
Defined.

Lemma slot_write_read_roundtrip_witness :
  slot_read true 0 (λ _, demo_file) = Ok (with_seq 2 demo_view).
Proof.
  apply (slot_write_read_roundtrip true 0 demo_view (create_admission_file 2) demo_file).
  - apply Nat.leb_le. vm_compute. reflexivity.
  - vm_compute. split; [discriminate|reflexivity].
  - vm_compute. reflexivity.
Defined.

Definition demo_acquired : bool * bool * SharedAdmission * list Z :=
  match try_acquire (λ _, 0) (slot_read true 0 (λ _, demo_file))
          (λ i, slot_read true i (λ _, demo_file)) 0 0 0 demo_process demo_file with
  | Ok r => r | Raise _ => (false, false, demo_process, []) end.

Lemma try_acquire_quiescent_witness :
  demo_acquired.1.1.1 = true ∧ total demo_acquired.2 2 = 4.
Proof.
  destruct (try_acquire_quiescent (λ _, 0) demo_process demo_file 0 0 0 0
    demo_acquired.1.1.1 demo_acquired.1.1.2 demo_acquired.1.2 demo_acquired.2)
    as (Hv & _ & _ & Ht & _).
  - done.
  - split; [|apply Nat.leb_le; vm_compute; reflexivity| | |];
      [apply Nat.leb_le; reflexivity| |vm_compute; reflexivity|vm_compute; discriminate].
    intros i Hi. simpl in Hi. destruct i as [|[|i]]; [vm_compute; reflexivity..|lia].
  - reflexivity.
  - vm_compute. reflexivity.
  - split; [rewrite Hv|]; vm_compute; reflexivity.
Defined.

Lemma aggregate_single_version_witness :
  ∃ k, (k < 4)%nat ∧
  _aggregate_to_dict 2 5 (λ _, slot_read true 2 (λ _, demo_file)) (λ _, slot_read true 2 (λ _, demo_file))
    (λ _ i, slot_read true i (λ _, demo_file)) = Ok (mkAggregate 3 5 5 (-2)).
Proof.
  assert (_aggregate_to_dict 2 5 (λ _, slot_read true 2 (λ _, demo_file))
    (λ _, slot_read true 2 (λ _, demo_file)) (λ _ i, slot_read true i (λ _, demo_file))
    = Ok (mkAggregate 3 5 5 (-2))) as H by (vm_compute; reflexivity).
  destruct (aggregate_single_version _ _ _ _ _ _ H) as (k & _ & _ & _ & Hk & _).
  exists k. split; [exact Hk|exact H].
Defined.

(** Two processes scan an empty file under a bound of one, and both admit. *)
Definition overshoot : nat → dp :=
  <[1%nat := mkDp 1 Idle]> (<[0%nat := mkDp 1 Idle]>
   (<[1%nat := mkDp 0 (Admitting [0; 0])]> (<[0%nat := mkDp 0 (Admitting [0; 0])]>
   (<[1%nat := mkDp 0 (Scanning [0; 0])]> (<[1%nat := mkDp 0 (Scanning [0])]>
   (<[1%nat := mkDp 0 (Scanning [])]>
   (<[0%nat := mkDp 0 (Scanning [0; 0])]> (<[0%nat := mkDp 0 (Scanning [0])]>
   (<[0%nat := mkDp 0 (Scanning [])]> quiet))))))))).

Lemma overshoot_reachable : rtc (dstep 2 1) quiet overshoot.
Proof.
  eapply rtc_l; [by apply (d_start 2 1 _ 0 0); [lia|]|].
  eapply rtc_l; [apply (d_read 2 1 _ 0 0 []); [reflexivity|simpl; lia]|].
  eapply rtc_l; [apply (d_read 2 1 _ 0 0 [0]); [reflexivity|simpl; lia]|].
  eapply rtc_l; [by apply (d_start 2 1 _ 1 0); [lia|]|].
  eapply rtc_l; [apply (d_read 2 1 _ 1 0 []); [reflexivity|simpl; lia]|].
  eapply rtc_l; [apply (d_read 2 1 _ 1 0 [0]); [reflexivity|simpl; lia]|].
  eapply rtc_l; [apply (d_admit 2 1 _ 0 0 [0; 0]); [reflexivity|reflexivity|simpl; lia]|].
  eapply rtc_l; [apply (d_admit 2 1 _ 1 0 [0; 0]); [reflexivity|reflexivity|simpl; lia]|].
  eapply rtc_l; [apply (d_commit 2 1 _ 0 0 [0; 0]); reflexivity|].
  eapply rtc_l; [apply (d_commit 2 1 _ 1 0 [0; 0]); reflexivity|].
  apply rtc_refl.
Qed.

(** The overshoot of N - 1 is attained. *)
Lemma admission_soft_bound_witness :
  in_flight 2 overshoot = 2 ∧ 0 ≤ in_flight 2 overshoot ≤ 1 + Z.of_nat 2 - 1.
Proof.
  split; [vm_compute; reflexivity|].
  apply (admission_soft_bound 2 1); [lia|lia|exact overshoot_reachable].
Defined.
