(* ===== verification/Replicas.v ===== *)
(** * Process replicas

    Models [sglang_omni/pipeline/replicas.py], with the instance naming of
    [sglang_omni/config/schema.py] and the plan records of
    [sglang_omni/config/topology.py]: a logical Process with N replicas is copied
    whole, a request is bound once per replicated Process, and the runtime
    resolves (logical stage, binding) to an instance.  Stage names are byte
    strings; [str.isdigit] is the ASCII test. *)
From S2P Require Import Prelude.

(** ** Instance names *)
Definition REPLICA_SEPARATOR : string := "@r".

Definition replica_instance_name (logical_name : string) (replica_id : nat) : string :=
  logical_name +:+ REPLICA_SEPARATOR +:+ pretty replica_id.

(** [s.rpartition("@r")]: the pieces around the last occurrence. *)
Fixpoint rpartition_at (s : string) : option (string * string) :=
  match s with
  | EmptyString => None
  | String c s' =>
      match rpartition_at s' with
      | Some (l, r) => Some (String c l, r)
      | None =>
          match s' with
          | String c' r =>
              if Ascii.eqb c (Ascii.ascii_of_nat 64) && Ascii.eqb c' (Ascii.ascii_of_nat 114)
              then Some ("", r) else None
          | EmptyString => None
          end
      end
  end.

Definition isdigit (s : string) : bool :=
  match s with EmptyString => false | _ => all_chars is_digit s end.

Definition digit_val (c : Ascii.ascii) : N := N.of_nat (Ascii.nat_of_ascii c) - 48.

(** [int(s)] of a digit string, given the value of the digits before [s]. *)
Fixpoint int_of_digits (s : string) (acc : N) : N :=
  match s with
  | EmptyString => acc
  | String c s => int_of_digits s (10 * acc + digit_val c)
  end.

Definition parse_replica_instance_name (name : string) : string * option nat :=
  match rpartition_at name with
  | None => (name, None)
  | Some (logical, suffix) =>
      if isdigit suffix then (logical, Some (N.to_nat (int_of_digits suffix 0))) else (name, None)
  end.

(** ** Topology *)
Record ReplicaTopology := mkTopology { replicas : gmap string (list string) }.

Definition is_replicated (t : ReplicaTopology) (name : string) : bool :=
  match replicas t !! name with Some _ => true | None => false end.

Definition topo_num_replicas (t : ReplicaTopology) (name : string) : nat :=
  match replicas t !! name with Some l => length l | None => 1 end.

Definition instances (t : ReplicaTopology) (name : string) : list string :=
  match replicas t !! name with Some l => l | None => [name] end.

Definition resolve (t : ReplicaTopology) (name : string) (replica_id : Z) : res string :=
  match replicas t !! name with
  | None =>
      if bool_decide (replica_id ≠ 0)%Z then Raise (ValueError "stage is not replicated")
      else Ok name
  | Some l =>
      if bool_decide (0 ≤ replica_id < Z.of_nat (length l))%Z then
        match l !! Z.to_nat replica_id with
        | Some i => Ok i
        | None => Raise (ValueError "unreachable")
        end
      else Raise (ValueError "replica_id out of range")
  end.

Definition logical_name (t : ReplicaTopology) (name : string) : string :=
  match parse_replica_instance_name name with
  | (_, None) => name
  | (logical, Some _) =>
      match replicas t !! logical with
      | None => name
      | Some l => if bool_decide (name ∈ l) then logical else name
      end
  end.

(** ** Plans *)
Record LogicalProcess := mkProcess {
  p_name : string;
  p_stage_names : list string;
  p_tp_size : nat;
  p_num_replicas : nat;
  p_replica_devices : option (list (list Z));
}.

Definition proc_is_replicated (p : LogicalProcess) : bool := bool_decide (1 < p_num_replicas p).

Record LogicalProcessPlan := mkPlan {
  processes : list LogicalProcess;
  stage_to_process : gmap string string;
}.

Definition has_replicas (plan : LogicalProcessPlan) : bool :=
  existsb proc_is_replicated (processes plan).

(** The placement of a stage: on the host, on one device, or on a TP group. *)
Inductive gpu_place := GpuNone | GpuOne (id : Z) | GpuMany (ids : list Z).

(** The fields of [StageConfig] the expansion reads or rewrites; [s_rest] is
    everything [model_copy] carries over. *)
Record StageConfig (R : Type) := mkStage {
  s_name : string;
  s_process : option string;
  s_gpu : gpu_place;
  s_tp_size : nat;
  s_rest : R;
}.
Arguments mkStage {R} _ _ _ _ _.
Arguments s_name {R} _.
Arguments s_process {R} _.
Arguments s_gpu {R} _.
Arguments s_tp_size {R} _.
Arguments s_rest {R} _.

Section expand.
Context {R : Type}.
Abbreviation stage := (StageConfig R).

Definition _replica_stage_gpu (cfg : stage) (devices : option (list Z)) : res gpu_place :=
  match devices, s_gpu cfg with
  | None, g => Ok g
  | _, GpuNone => Ok GpuNone
  | Some ds, _ =>
      if bool_decide (s_tp_size cfg = 1)
      then match ds with d :: _ => Ok (GpuOne d) | [] => Raise IndexError end
      else Ok (GpuMany ds)
  end.

(** [d[k]] on a dict and [l[i]] on a sequence. *)
Definition dict_get {A} (k : string) (d : gmap string A) : res A :=
  match d !! k with Some a => Ok a | None => Raise (KeyError k) end.
Definition seq_get {A} (l : list A) (i : nat) : res A :=
  match l !! i with Some a => Ok a | None => Raise IndexError end.

Definition replicas_of (plan : LogicalProcessPlan) : gmap string (list string) :=
  fold_left (λ acc p,
    if proc_is_replicated p then
      fold_left (λ acc s,
        <[s := map (replica_instance_name s) (seq 0 (p_num_replicas p))]> acc)
        (p_stage_names p) acc
    else acc) (processes plan) ∅.

(** One copy of one member stage. *)
Definition replica_copy (reps : gmap string (list string)) (p : LogicalProcess)
    (devices : option (list Z)) (replica_id : nat) (stage_name : string) (cfg : stage) : res stage :=
  names ← dict_get stage_name reps;
  name ← seq_get names replica_id;
  gpu ← _replica_stage_gpu cfg devices;
  mret (mkStage name (Some (replica_instance_name (p_name p) replica_id)) gpu
          (s_tp_size cfg) (s_rest cfg)).

Definition append_copy (k : string) (c : stage) (acc : gmap string (list stage)) :=
  <[k := default [] (acc !! k) ++ [c]]> acc.

(** The body of the second loop over [plan.processes]. *)
Definition expand_process (by_name : gmap string stage) (reps : gmap string (list string))
    (p : LogicalProcess) (acc : gmap string (list stage)) : res (gmap string (list stage)) :=
  if proc_is_replicated p then
    foldM (λ acc replica_id,
      devices ← match p_replica_devices p with
                | None => mret None
                | Some dss => Some <$> seq_get dss replica_id
                end;
      foldM (λ acc s,
        cfg ← dict_get s by_name;
        copy ← replica_copy reps p devices replica_id s cfg;
        mret (append_copy s copy acc)) (p_stage_names p) acc)
      (seq 0 (p_num_replicas p)) acc
  else
    match p_replica_devices p with
    | None => mret acc
    | Some dss =>
        foldM (λ acc s,
          cfg ← dict_get s by_name;
          devices ← seq_get dss 0;
          gpu ← _replica_stage_gpu cfg (Some devices);
          mret (<[s := [mkStage (s_name cfg) (s_process cfg) gpu (s_tp_size cfg) (s_rest cfg)]]> acc))
          (p_stage_names p) acc
    end.

Definition stage_by_name (cfgs : list stage) : gmap string stage :=
  fold_left (λ acc c, <[s_name c := c]> acc) cfgs ∅.

Definition expand_replica_stages (cfgs : list stage) (plan : LogicalProcessPlan)
    : res (list stage * ReplicaTopology) :=
  let reps := replicas_of plan in
  by_stage ← foldM (λ acc p, expand_process (stage_by_name cfgs) reps p acc) (processes plan) ∅;
  mret (concat (map (λ c, default [c] (by_stage !! s_name c)) cfgs), mkTopology reps).

Definition validate_device_assignment (cfgs : list stage) (device_count : option Z) : res unit :=
  match device_count with
  | None => Ok tt
  | Some n =>
      foldM (λ _ c,
        match s_gpu c with
        | GpuNone => Ok tt
        | GpuOne id => raise_if (bool_decide (n ≤ id)%Z) (ValueError "GPU id out of range")
        | GpuMany ids =>
            foldM (λ _ id, raise_if (bool_decide (n ≤ id)%Z) (ValueError "GPU id out of range")) ids tt
        end) cfgs tt
  end.
End expand.

(** ** Bindings *)

(** [BindingPolicy]: selects a replica for one (process, request); it may keep
    state. *)
Class BindingPolicy (S : Type) : Type :=
  bind_replica : string → nat → string → S → Z * S.

(** What admission relies on. *)
Class BindingInRange (S : Type) `{BindingPolicy S} : Prop :=
  bind_in_range process n request s :
    0 < n → (0 ≤ (bind_replica process n request s).1 < Z.of_nat n)%Z.

(** [RoundRobinBindingPolicy]: a counter per process. *)
Abbreviation RoundRobin := (gmap string Z).
#[export] Instance round_robin_bind : BindingPolicy RoundRobin := λ process n _ counters,
  let index := default 0%Z (counters !! process) in
  ((index mod Z.of_nat n)%Z, <[process := (index + 1)%Z]> counters).

#[export] Instance round_robin_in_range : BindingInRange RoundRobin.
Proof. intros process n request s Hn. simpl. apply Z.mod_pos_bound. lia. Qed.

Section bindings.
Context {S : Type} `{BindingPolicy S}.

Fixpoint bind_processes (ps : list LogicalProcess) (request_id : string)
    (bindings : gmap string Z) (s : S) : res (gmap string Z * S) :=
  match ps with
  | [] => Ok (bindings, s)
  | p :: ps =>
      if proc_is_replicated p then
        let '(index, s) := bind_replica (p_name p) (p_num_replicas p) request_id s in
        if bool_decide (0 ≤ index < Z.of_nat (p_num_replicas p))%Z then
          bind_processes ps request_id
            (fold_left (λ b st, <[st := index]> b) (p_stage_names p) bindings) s
        else Raise (ValueError "binding policy selected a replica out of range")
      else bind_processes ps request_id bindings s
  end.

Definition assign_replica_bindings (plan : LogicalProcessPlan) (request_id : string) (s : S)
    : res (option (gmap string Z) * S) :=
  if has_replicas plan then
    '(b, s) ← bind_processes (processes plan) request_id ∅ s; mret (Some b, s)
  else mret (None, s).
End bindings.

(** ** Naming facts *)
Lemma int_of_digits_go x s acc :
  acc = 0%N → int_of_digits (pretty_N_go x s) acc = int_of_digits s x.
Proof.
  revert s. induction (N.lt_wf_0 x) as [x _ IH]; intros s ->.
  assert (x = 0 ∨ 0 < x)%N as [->|Hx] by lia; [by rewrite pretty_N_go_0|].
  rewrite pretty_N_go_step by done. rewrite IH by (done || by apply N.div_lt). simpl.
  f_equal. assert (digit_val (pretty_N_char (x `mod` 10)) = x `mod` 10)%N as ->.
  { assert (x `mod` 10 < 10)%N as Hd by (by apply N.mod_lt).
    generalize dependent (x `mod` 10)%N. intros d Hd.
    assert (d = 0 ∨ d = 1 ∨ d = 2 ∨ d = 3 ∨ d = 4 ∨ d = 5 ∨ d = 6 ∨ d = 7 ∨ d = 8 ∨ d = 9)%N by lia.
    by naive_solver. }
  pose proof (N.div_mod x 10 ltac:(done)). lia.
Qed.

Lemma int_of_pretty (n : nat) : N.to_nat (int_of_digits (pretty n) 0) = n.
Proof.
  change (pretty n) with (pretty (N.of_nat n)). unfold pretty, pretty_N.
  case_decide as Hz; [by destruct n|]. rewrite int_of_digits_go by done. simpl. lia.
Qed.

Lemma pretty_nat_digits (n : nat) : all_chars is_digit (pretty n) = true.
Proof. apply pretty_N_digits. Qed.

Lemma pretty_nat_isdigit (n : nat) : isdigit (pretty n) = true.
Proof.
  unfold isdigit. destruct (pretty n) eqn:Hp; [|rewrite <-Hp; apply pretty_nat_digits].
  exfalso. assert (pretty n = pretty n) as H by done. rewrite Hp in H at 1.
  pose proof (int_of_pretty n) as Hn. rewrite Hp in Hn. simpl in Hn. subst n. done.
Qed.

(** Digits hold no separator, so the last separator is the one inserted. *)
Lemma rpartition_digits s : all_chars is_digit s = true → rpartition_at s = None.
Proof.
  induction s as [|c s IH]; simpl; [done|]. intros [Hc Hs]%andb_true_iff.
  rewrite IH by done. destruct s as [|c' s]; [done|].
  destruct (Ascii.eqb c _) eqn:He; [|done]. apply Ascii.eqb_eq in He as ->. done.
Qed.

Lemma rpartition_sep name s :
  all_chars is_digit s = true →
  rpartition_at (name +:+ REPLICA_SEPARATOR +:+ s) = Some (name, s).
Proof.
  intros Hs. induction name as [|c name IH].
  - change ("" +:+ REPLICA_SEPARATOR +:+ s) with
      (String (Ascii.ascii_of_nat 64) (String (Ascii.ascii_of_nat 114) s)).
    simpl. rewrite rpartition_digits by done. destruct s as [|c' s]; [done|].
    done.
  - change (String c name +:+ REPLICA_SEPARATOR +:+ s) with
      (String c (name +:+ REPLICA_SEPARATOR +:+ s)). simpl. by rewrite IH.
Qed.

Lemma parse_instance name k :
  parse_replica_instance_name (replica_instance_name name k) = (name, Some k).
Proof.
  unfold parse_replica_instance_name, replica_instance_name.
  rewrite rpartition_sep by apply pretty_nat_digits.
  by rewrite pretty_nat_isdigit, int_of_pretty.
Qed.

Lemma instance_inj name name' k k' :
  replica_instance_name name k = replica_instance_name name' k' → name = name' ∧ k = k'.
Proof.
  intros H%(f_equal parse_replica_instance_name). rewrite !parse_instance in H. by simplify_eq.
Qed.

Definition instance_names (s : string) (n : nat) : list string :=
  map (replica_instance_name s) (seq 0 n).

(** ** The topology an expansion builds *)
Lemma fold_insert_lookup {A} (f : string → A) names (m : gmap string A) s :
  fold_left (λ acc s, <[s := f s]> acc) names m !! s =
    if decide (s ∈ names) then Some (f s) else m !! s.
Proof.
  revert m. induction names as [|s' names IH]; intros m; simpl; [done|].
  rewrite IH, lookup_insert. repeat case_decide; set_solver.
Qed.

(** Stage names declared by at most one process, once. *)
Definition disjoint_processes (ps : list LogicalProcess) : Prop :=
  NoDup (concat (map p_stage_names ps)).

Definition owner (ps : list LogicalProcess) (s : string) : option LogicalProcess :=
  List.find (λ p, bool_decide (s ∈ p_stage_names p)) ps.

Lemma owner_Some ps s p : owner ps s = Some p → p ∈ ps ∧ s ∈ p_stage_names p.
Proof. intros [Hin Hs]%List.find_some. bool_simpl. by rewrite list_elem_of_In. Qed.

Lemma owner_None ps s : owner ps s = None ↔ s ∉ concat (map p_stage_names ps).
Proof.
  unfold owner. induction ps as [|p ps IH]; simpl; [set_solver|].
  case_bool_decide; set_solver.
Qed.

Lemma owner_of ps p s :
  disjoint_processes ps → p ∈ ps → s ∈ p_stage_names p → owner ps s = Some p.
Proof.
  unfold disjoint_processes, owner. induction ps as [|p' ps IH]; simpl; [set_solver|].
  intros (H1 & Hd & H2)%NoDup_app [->|Hp]%elem_of_cons Hs; [by rewrite bool_decide_eq_true_2|].
  rewrite bool_decide_eq_false_2; [by apply IH|].
  intros Hs'. apply (Hd s Hs'). apply list_elem_of_In, in_concat.
  exists (p_stage_names p). split; [|by apply list_elem_of_In].
  apply in_map. by apply list_elem_of_In.
Qed.

Lemma owner_app ps ps' s :
  owner (ps ++ ps') s = match owner ps s with Some p => Some p | None => owner ps' s end.
Proof.
  unfold owner. induction ps as [|p ps IH]; simpl; [done|]. by case_bool_decide.
Qed.

(** The topology entry of a stage: one instance name per replica of the process
    that owns it. *)
Definition replicas_entry (ps : list LogicalProcess) (s : string) : option (list string) :=
  match owner ps s with
  | Some p => if proc_is_replicated p then Some (instance_names s (p_num_replicas p)) else None
  | None => None
  end.

Lemma disjoint_snoc ps p :
  disjoint_processes (ps ++ [p]) →
  disjoint_processes ps ∧ NoDup (p_stage_names p) ∧
  ∀ s, s ∈ p_stage_names p → owner ps s = None.
Proof.
  unfold disjoint_processes. rewrite map_app, concat_app. simpl. rewrite app_nil_r.
  intros (H1 & H2 & H3)%NoDup_app. split_and!; [done..|].
  intros s Hs. apply owner_None. intros Hs'. by apply (H2 s).
Qed.

Lemma owner_snoc ps p s :
  disjoint_processes (ps ++ [p]) →
  owner (ps ++ [p]) s = if decide (s ∈ p_stage_names p) then Some p else owner ps s.
Proof.
  intros (_ & _ & Hp)%disjoint_snoc. rewrite owner_app. unfold owner at 2. simpl.
  case_bool_decide as Hs.
  - by rewrite Hp, decide_True.
  - rewrite decide_False by done. by destruct (owner ps s).
Qed.

Lemma replicas_of_lookup plan s :
  disjoint_processes (processes plan) →
  replicas_of plan !! s = replicas_entry (processes plan) s.
Proof.
  unfold replicas_of. generalize (processes plan). intros ps.
  induction ps as [|p ps IH] using rev_ind; intros Hd; [done|].
  rewrite fold_left_app. unfold replicas_entry. rewrite owner_snoc by done. simpl.
  apply disjoint_snoc in Hd as (Hd & _ & Hp). specialize (IH Hd). unfold replicas_entry in IH.
  destruct (proc_is_replicated p) eqn:Hr.
  - rewrite (fold_insert_lookup (λ s, map (replica_instance_name s) _)).
    case_decide; [by rewrite Hr|done].
  - case_decide as Hs; [|done]. rewrite Hr, IH. by rewrite Hp.
Qed.

(** ** The expansion, declaratively

    What every configured stage becomes: one copy per replica of the process that
    owns it, itself with its replica devices, or itself. *)
Section reference.
Context {R : Type}.
Abbreviation stage := (StageConfig R).

Definition placed (c : stage) (ds : option (list Z)) : gpu_place :=
  match ds, s_gpu c with
  | None, g => g
  | _, GpuNone => GpuNone
  | Some ds, _ => if bool_decide (s_tp_size c = 1) then GpuOne (default 0%Z (ds !! 0)) else GpuMany ds
  end.

Definition devices_at (p : LogicalProcess) (k : nat) : option (list Z) :=
  match p_replica_devices p with Some dss => Some (default [] (dss !! k)) | None => None end.

Definition copy_of (p : LogicalProcess) (c : stage) (s : string) (k : nat) : stage :=
  mkStage (replica_instance_name s k) (Some (replica_instance_name (p_name p) k))
    (placed c (devices_at p k)) (s_tp_size c) (s_rest c).

Definition stage_copies (p : LogicalProcess) (c : stage) (s : string) : option (list stage) :=
  if proc_is_replicated p then Some (map (copy_of p c s) (seq 0 (p_num_replicas p)))
  else match p_replica_devices p with
       | None => None
       | Some _ => Some [mkStage (s_name c) (s_process c) (placed c (devices_at p 0)) (s_tp_size c) (s_rest c)]
       end.

Definition expansion_of (ps : list LogicalProcess) (c : stage) : list stage :=
  default [c] (owner ps (s_name c) ≫= λ p, stage_copies p c (s_name c)).

(** What the plan compiler guarantees of a process: devices for every replica,
    none of them empty, and at least one replica. *)
Definition wf_process (p : LogicalProcess) : Prop :=
  0 < p_num_replicas p ∧
  ∀ dss, p_replica_devices p = Some dss → length dss = p_num_replicas p ∧ Forall (.≠ []) dss.

Lemma replica_stage_gpu_placed (c : stage) p k :
  wf_process p → k < p_num_replicas p →
  _replica_stage_gpu c (devices_at p k) = Ok (placed c (devices_at p k)).
Proof.
  intros [_ Hw] Hk. unfold devices_at. destruct (p_replica_devices p) as [dss|] eqn:Hd; [|done].
  destruct (Hw dss eq_refl) as [Hl Hf].
  destruct (lookup_lt_is_Some_2 dss k) as [ds Hds]; [lia|]. rewrite Hds. simpl.
  assert (ds ≠ []) as Hne by (by apply (Forall_lookup_1 _ _ _ _ Hf Hds)).
  unfold _replica_stage_gpu, placed. destruct (s_gpu c); [done| |]; case_bool_decide; try done;
    by destruct ds.
Qed.

(** A [for] over distinct keys that writes one entry per key. *)
Lemma foldM_entries {A} (f : gmap string A → string → res (gmap string A))
    (g : string → option A → A) names acc :
  NoDup names →
  (∀ s acc, s ∈ names → f acc s = Ok (<[s := g s (acc !! s)]> acc)) →
  ∃ acc', foldM f names acc = Ok acc' ∧
    ∀ s, acc' !! s = if decide (s ∈ names) then Some (g s (acc !! s)) else acc !! s.
Proof.
  intros Hnd Hf. revert acc. induction names as [|s0 names IH]; intros acc; [by exists acc|].
  apply NoDup_cons in Hnd as [Hs0 Hnd]. simpl. rewrite Hf by set_solver. simpl.
  destruct (IH Hnd (λ s acc Hs, Hf s acc ltac:(set_solver)) (<[s0:=g s0 (acc !! s0)]> acc))
    as (acc' & -> & Hacc').
  exists acc'. split; [done|]. intros s. rewrite Hacc', lookup_insert.
  destruct (decide (s0 = s)) as [->|]; repeat case_decide; set_solver.
Qed.

Lemma foldM_collect {A} (step : gmap string (list A) → nat → res (gmap string (list A)))
    (names : list string) (cp : nat → string → list A) n acc :
  (∀ k acc, k < n → ∃ acc', step acc k = Ok acc' ∧
     ∀ s, acc' !! s = if decide (s ∈ names) then Some (default [] (acc !! s) ++ cp k s) else acc !! s) →
  0 < n →
  ∃ acc', foldM step (seq 0 n) acc = Ok acc' ∧
    ∀ s, acc' !! s = if decide (s ∈ names)
                     then Some (default [] (acc !! s) ++ concat (map (λ k, cp k s) (seq 0 n)))
                     else acc !! s.
Proof.
  intros Hstep. induction n as [|n IH]; [lia|]. intros _.
  destruct (decide (n = 0)) as [->|Hn].
  - destruct (Hstep 0 acc ltac:(lia)) as (acc' & Hr & Hacc'). exists acc'. simpl. rewrite Hr.
    split; [done|]. intros s. by rewrite Hacc', app_nil_r.
  - destruct IH as (acc1 & Hrun & Hacc1); [intros k a Hk; apply Hstep; lia|lia|].
    destruct (Hstep n acc1 ltac:(lia)) as (acc' & Hr & Hacc'). exists acc'.
    rewrite seq_S, foldM_app, Hrun. simpl. rewrite Hr. split; [done|].
    intros s. rewrite Hacc', Hacc1. case_decide; [|done]. simpl.
    by rewrite map_app, concat_app, app_assoc; simpl; rewrite app_nil_r.
Qed.

Lemma concat_singletons {A B} (f : A → B) l : concat (map (λ k, [f k]) l) = map f l.
Proof. induction l as [|a l IH]; simpl; [done|]. by rewrite IH. Qed.

Lemma instance_names_lookup s n k :
  k < n → seq_get (instance_names s n) k = Ok (replica_instance_name s k).
Proof.
  intros Hk. unfold seq_get, instance_names. rewrite list_lookup_fmap, lookup_seq_lt by done. done.
Qed.

(** One process: each member stage gets its copies, the rest is untouched. *)
Lemma expand_process_lookup by_name reps p (acc : gmap string (list stage)) :
  wf_process p → NoDup (p_stage_names p) →
  (∀ s, s ∈ p_stage_names p → ∃ c, by_name !! s = Some c ∧ s_name c = s) →
  (∀ s, s ∈ p_stage_names p → acc !! s = None) →
  (proc_is_replicated p = true →
     ∀ s, s ∈ p_stage_names p → reps !! s = Some (instance_names s (p_num_replicas p))) →
  ∃ acc', expand_process by_name reps p acc = Ok acc' ∧
    ∀ s, acc' !! s = if decide (s ∈ p_stage_names p)
                     then by_name !! s ≫= λ c, stage_copies p c s else acc !! s.
Proof.
  intros Hw Hnd Hby Hacc Hreps. unfold expand_process, stage_copies.
  destruct (proc_is_replicated p) eqn:Hr.
  - edestruct (foldM_collect
      (λ acc replica_id,
        devices ← match p_replica_devices p with
                | None => mret None
                | Some dss => Some <$> seq_get dss replica_id
                end;
        foldM (λ acc s,
          cfg ← dict_get s by_name;
          copy ← replica_copy reps p devices replica_id s cfg;
          mret (append_copy s copy acc)) (p_stage_names p) acc)
      (p_stage_names p)
      (λ k s, match by_name !! s with Some c => [copy_of p c s k] | None => [] end)
      (p_num_replicas p) acc) as (acc' & Hrun & Hacc'); [|by destruct Hw|].
    + intros k acc0 Hk.
      assert ((match p_replica_devices p with
               | None => mret None | Some dss => Some <$> seq_get dss k end) = Ok (devices_at p k)) as ->.
      { unfold devices_at. destruct (p_replica_devices p) as [dss|] eqn:Hd; [|done].
        destruct Hw as [_ Hw]. destruct (Hw dss Hd) as [Hl _]. unfold seq_get.
        destruct (lookup_lt_is_Some_2 dss k) as [ds Hds]; [lia|]. by rewrite Hds. }
      simpl. apply (foldM_entries _ (λ s o, default [] o ++
        match by_name !! s with Some c => [copy_of p c s k] | None => [] end)); [done|].
      intros s acc1 Hs. destruct (Hby s Hs) as (c & Hc & Hn). unfold dict_get. rewrite Hc. simpl.
      unfold replica_copy, dict_get. rewrite (Hreps eq_refl s Hs). simpl.
      rewrite instance_names_lookup by done. simpl.
      by rewrite replica_stage_gpu_placed.
    + exists acc'. split; [done|]. intros s. rewrite Hacc'. case_decide as Hs; [|done].
      destruct (Hby s Hs) as (c & -> & _). simpl. rewrite (Hacc s Hs). simpl.
      by rewrite concat_singletons.
  - destruct (p_replica_devices p) as [dss|] eqn:Hd.
    + edestruct (foldM_entries (A := list stage) (λ acc s,
          cfg ← dict_get s by_name;
          devices ← seq_get dss 0;
          gpu ← _replica_stage_gpu cfg (Some devices);
          mret (<[s := [mkStage (s_name cfg) (s_process cfg) gpu (s_tp_size cfg) (s_rest cfg)]]> acc))
        (λ s _, match by_name !! s with
          | Some c => [mkStage (s_name c) (s_process c) (placed c (devices_at p 0)) (s_tp_size c) (s_rest c)]
          | None => [] end) (p_stage_names p) acc) as (acc' & Hrun & Hacc'); [done| |].
      * intros s acc1 Hs. destruct (Hby s Hs) as (c & Hc & Hn). unfold dict_get. rewrite Hc. simpl.
        pose proof (replica_stage_gpu_placed c p 0 Hw (proj1 Hw)) as Hg.
        unfold devices_at in *. rewrite Hd in *. destruct Hw as [Hn0 Hw].
        destruct (Hw dss Hd) as [Hl _]. unfold seq_get.
        destruct (lookup_lt_is_Some_2 dss 0) as [ds Hds]; [lia|]. rewrite Hds in *. simpl in *.
        by rewrite Hg.
      * exists acc'. split; [done|]. intros s. rewrite Hacc'. case_decide as Hs; [|done].
        by destruct (Hby s Hs) as (c & -> & _).
    + exists acc. split; [done|]. intros s. case_decide as Hs; [|done].
      destruct (Hby s Hs) as (c & -> & _). simpl. by apply Hacc.
Qed.

(** A prefix of the processes: every stage they own has its copies. *)
Lemma expand_processes_lookup by_name reps ps :
  disjoint_processes ps → Forall wf_process ps →
  (∀ s p, owner ps s = Some p → ∃ c, by_name !! s = Some c ∧ s_name c = s) →
  (∀ s, owner ps s ≠ None → reps !! s = replicas_entry ps s) →
  ∃ acc', foldM (λ acc p, expand_process by_name reps p acc) ps ∅ = Ok acc' ∧
    ∀ s, acc' !! s = owner ps s ≫= λ p, by_name !! s ≫= λ c, stage_copies p c s.
Proof.
  induction ps as [|p ps IH] using rev_ind; intros Hd Hw Hby Hreps; [by exists ∅|].
  pose proof (disjoint_snoc _ _ Hd) as (Hd' & Hnd & Hnone).
  apply Forall_app in Hw as [Hw Hwp]. rewrite Forall_singleton in Hwp.
  assert (∀ s q, owner ps s = Some q → owner (ps ++ [p]) s = Some q) as Hmono.
  { intros s q Hq. by rewrite owner_app, Hq. }
  destruct IH as (acc1 & Hrun & Hacc1); [done|done| | |].
  { intros s q Hq. eauto. }
  { intros s Hs. destruct (owner ps s) as [q|] eqn:Hq; [|done].
    rewrite Hreps by (rewrite (Hmono _ _ Hq); done). unfold replicas_entry.
    by rewrite Hq, (Hmono _ _ Hq). }
  rewrite foldM_app, Hrun. simpl.
  destruct (expand_process_lookup by_name reps p acc1) as (acc' & E & Hacc'); [done|done| | | |rewrite E].
  - intros s Hs. apply (Hby s p). by rewrite owner_snoc, decide_True.
  - intros s Hs. by rewrite Hacc1, Hnone.
  - intros Hr s Hs. rewrite Hreps; unfold replicas_entry; rewrite owner_snoc, decide_True by done;
      [by rewrite Hr|done].
  - exists acc'. split; [done|]. intros s. rewrite Hacc', Hacc1, owner_snoc by done.
    by case_decide.
Qed.

Lemma stage_by_name_lookup (cfgs : list stage) c :
  NoDup (map s_name cfgs) → c ∈ cfgs → stage_by_name cfgs !! s_name c = Some c.
Proof.
  unfold stage_by_name. induction cfgs as [|c' cfgs IH] using rev_ind; [set_solver|].
  rewrite map_app, fold_left_app. simpl. intros (Hnd & Hdis & _)%NoDup_app [Hc| ->%list_elem_of_singleton]%elem_of_app.
  - rewrite lookup_insert_ne; [by apply IH|]. intros He.
    apply (Hdis (s_name c)); [|set_solver]. apply list_elem_of_fmap. by exists c.
  - by rewrite lookup_insert_eq.
Qed.

Lemma expand_spec cfgs plan :
  NoDup (map s_name cfgs) →
  disjoint_processes (processes plan) →
  Forall wf_process (processes plan) →
  (∀ p s, p ∈ processes plan → s ∈ p_stage_names p → s ∈ map s_name cfgs) →
  expand_replica_stages cfgs plan =
    Ok (concat (map (expansion_of (processes plan)) cfgs), mkTopology (replicas_of plan)).
Proof.
  intros Hnd Hd Hw Hin. unfold expand_replica_stages.
  destruct (expand_processes_lookup (stage_by_name cfgs) (replicas_of plan) (processes plan))
    as (acc' & -> & Hacc'); [done|done| | |].
  - intros s p [Hp Hs]%owner_Some. pose proof (Hin p s Hp Hs) as (c & -> & Hc)%list_elem_of_fmap.
    exists c. by rewrite stage_by_name_lookup.
  - intros s _. by apply replicas_of_lookup.
  - simpl. do 3 f_equal. apply map_ext_in. intros c Hc%list_elem_of_In.
    rewrite Hacc', stage_by_name_lookup by done. done.
Qed.
End reference.

(** ** Names and resolution *)

Lemma resolve_replicated t s l r :
  replicas t !! s = Some l → (0 ≤ r < Z.of_nat (length l))%Z →
  ∃ i, l !! Z.to_nat r = Some i ∧ resolve t s r = Ok i.
Proof.
  intros Hl Hr. unfold resolve. rewrite Hl, bool_decide_true by done.
  destruct (lookup_lt_is_Some_2 l (Z.to_nat r)) as [i Hi]; [lia|]. exists i. by rewrite Hi.
Qed.

Lemma instance_names_at s n k i :
  instance_names s n !! k = Some i ↔ k < n ∧ i = replica_instance_name s k.
Proof.
  unfold instance_names. rewrite list_lookup_fmap, fmap_Some. split.
  - intros (j & [-> Hj]%lookup_seq & ->). naive_solver.
  - intros [Hk ->]. exists k. by rewrite lookup_seq_lt.
Qed.

Lemma elem_of_instance_names s n i :
  i ∈ instance_names s n ↔ ∃ k, k < n ∧ i = replica_instance_name s k.
Proof. rewrite list_elem_of_lookup. by setoid_rewrite instance_names_at. Qed.

Lemma logical_name_instance t s n k :
  replicas t !! s = Some (instance_names s n) → k < n →
  logical_name t (replica_instance_name s k) = s.
Proof.
  intros Ht Hk. unfold logical_name. rewrite parse_instance, Ht, bool_decide_true; [done|].
  apply elem_of_instance_names. eauto.
Qed.

Lemma logical_name_plain t s :
  (parse_replica_instance_name s).2 = None → logical_name t s = s.
Proof. unfold logical_name. by destruct (parse_replica_instance_name s) as [? [|]]. Qed.

Lemma expansion_names {R} ps (c : StageConfig R) :
  map s_name (expansion_of ps c) =
    default [s_name c] (replicas_entry ps (s_name c)).
Proof.
  unfold expansion_of, replicas_entry, stage_copies.
  destruct (owner ps (s_name c)) as [p|]; [|done]. simpl.
  destruct (proc_is_replicated p); [|by destruct (p_replica_devices p)].
  simpl. rewrite map_map. done.
Qed.

Lemma resolve_ok_iff t s r i :
  resolve t s r = Ok i ↔ (0 ≤ r)%Z ∧ default [s] (replicas t !! s) !! Z.to_nat r = Some i.
Proof.
  unfold resolve. destruct (replicas t !! s) as [l|] eqn:Hl; simpl.
  - case_bool_decide as Hr.
    + destruct (lookup_lt_is_Some_2 l (Z.to_nat r)) as [j Hj]; [lia|]. rewrite Hj. naive_solver.
    + split; [done|]. intros [H0 Hi%lookup_lt_Some]. lia.
  - case_bool_decide as Hr; [|].
    + split; [done|]. intros [H0 Hi%lookup_lt_Some]. simpl in Hi. lia.
    + assert (r = 0%Z) as -> by (destruct (decide (r = 0%Z)); tauto). simpl. naive_solver lia.
Qed.

(** ** Bindings of one request *)
#[export] Instance logical_process_eq_dec : EqDecision LogicalProcess.
Proof. solve_decision. Defined.

(** The binding a choice of index per process projects onto a stage. *)
Definition projected (ps : list LogicalProcess) (f : LogicalProcess → Z) (s : string) : option Z :=
  p ← owner ps s; if proc_is_replicated p then Some (f p) else None.

Section binding_facts.
Context {S : Type} `{BindingInRange S}.

Lemma bind_processes_spec ps rid b0 (s0 : S) :
  disjoint_processes ps →
  ∃ b s1 f, bind_processes ps rid b0 s0 = Ok (b, s1) ∧
    (∀ p, proc_is_replicated p = true → p ∈ ps → (0 ≤ f p < Z.of_nat (p_num_replicas p))%Z) ∧
    ∀ s, b !! s = match projected ps f s with Some i => Some i | None => b0 !! s end.
Proof.
  revert b0 s0. induction ps as [|p ps IH]; intros b0 s0 Hd.
  { exists b0, s0, (λ _, 0%Z). by split_and!; [|set_solver|]. }
  unfold disjoint_processes in Hd. simpl in Hd. apply NoDup_app in Hd as (_ & Hdis & Hd). simpl.
  assert (∀ s, owner (p :: ps) s = if decide (s ∈ p_stage_names p) then Some p else owner ps s) as Hown.
  { intros s. unfold owner. simpl. case_bool_decide; by case_decide. }
  destruct (proc_is_replicated p) eqn:Hr.
  - assert (0 < p_num_replicas p) as Hn by (unfold proc_is_replicated in Hr; bool_simpl; lia).
    pose proof (bind_in_range (p_name p) (p_num_replicas p) rid s0 Hn) as Hi.
    destruct (bind_replica _ _ _ _) as [i s1]. simpl in Hi. rewrite bool_decide_true by done.
    destruct (IH (fold_left (λ b st, <[st:=i]> b) (p_stage_names p) b0) s1 Hd)
      as (b & s2 & f & Hrun & Hf & Hb).
    exists b, s2, (λ q, if decide (q = p) then i else f q). split_and!; [done| |].
    + intros q Hq [->|Hin]%elem_of_cons; case_decide; subst; auto; congruence.
    + intros s. rewrite Hb, (fold_insert_lookup (λ _, i)). unfold projected. rewrite Hown.
      destruct (decide (s ∈ p_stage_names p)) as [Hs|Hs]; simpl.
      * assert (owner ps s = None) as -> by (apply owner_None; by apply Hdis).
        by rewrite Hr, decide_True.
      * destruct (owner ps s) as [q|] eqn:Hq; [|done]. simpl.
        destruct (decide (q = p)) as [->|]; [|done].
        by apply owner_Some in Hq as [_ ?].
  - destruct (IH b0 s0 Hd) as (b & s2 & f & Hrun & Hf & Hb).
    exists b, s2, f. split_and!; [done| |].
    + intros q Hq [->|Hin]%elem_of_cons; [congruence|auto].
    + intros s. rewrite Hb. unfold projected. rewrite Hown.
      case_decide as Hs; [|done].
      assert (owner ps s = None) as -> by (apply owner_None; by apply Hdis). simpl. by rewrite Hr.
Qed.
End binding_facts.

(** Round robin: the index is the process's counter, which advances by one. *)
Lemma bind_round_robin ps rid b0 (s0 : RoundRobin) :
  disjoint_processes ps → NoDup (map p_name ps) →
  ∃ b s1, bind_processes ps rid b0 s0 = Ok (b, s1) ∧
    (∀ s, b !! s =
       match projected ps (λ p, default 0 (s0 !! p_name p) mod Z.of_nat (p_num_replicas p))%Z s with
       | Some i => Some i | None => b0 !! s end) ∧
    (∀ p, p ∈ ps → proc_is_replicated p = true → s1 !! p_name p = Some (default 0 (s0 !! p_name p) + 1)%Z) ∧
    (∀ name, name ∉ map p_name ps → s1 !! name = s0 !! name).
Proof.
  revert b0 s0. induction ps as [|p ps IH]; intros b0 s0 Hd Hnd.
  { exists b0, s0. by split_and!; [| |set_solver|]. }
  unfold disjoint_processes in Hd. simpl in Hd, Hnd.
  apply NoDup_app in Hd as (_ & Hdis & Hd). apply NoDup_cons in Hnd as [Hp Hnd]. simpl.
  assert (∀ s, owner (p :: ps) s = if decide (s ∈ p_stage_names p) then Some p else owner ps s) as Hown.
  { intros s. unfold owner. simpl. case_bool_decide; by case_decide. }
  assert (∀ q, q ∈ ps → p_name q ≠ p_name p) as Hne.
  { intros q Hq He. apply Hp. rewrite <-He. apply list_elem_of_fmap. by exists q. }
  destruct (proc_is_replicated p) eqn:Hr.
  - assert (1 < p_num_replicas p) as Hn by (unfold proc_is_replicated in Hr; by bool_simpl).
    unfold bind_replica, round_robin_bind.
    rewrite bool_decide_true by (apply Z.mod_pos_bound; lia).
    set (i := (default 0 (s0 !! p_name p) mod Z.of_nat (p_num_replicas p))%Z).
    destruct (IH (fold_left (λ b st, <[st:=i]> b) (p_stage_names p) b0)
       (<[p_name p := (default 0 (s0 !! p_name p) + 1)%Z]> s0) Hd Hnd)
      as (b & s2 & Hrun & Hb & Hs2 & Hout).
    exists b, s2. split_and!; [done| | |].
    + intros s. rewrite Hb, (fold_insert_lookup (λ _, i)). unfold projected. rewrite Hown.
      destruct (decide (s ∈ p_stage_names p)) as [Hs|Hs]; simpl.
      * assert (owner ps s = None) as -> by (apply owner_None; by apply Hdis).
        simpl. by rewrite Hr.
      * destruct (owner ps s) as [q|] eqn:Hq; [|done]. simpl.
        apply owner_Some in Hq as [Hq _]. rewrite lookup_insert_ne; [done|].
        intros He. by apply (Hne q).
    + intros q [->|Hq]%elem_of_cons Hqr.
      * rewrite Hout by done. by rewrite lookup_insert_eq.
      * rewrite Hs2 by done. rewrite lookup_insert_ne; [done|]. intros He. by apply (Hne q).
    + intros name Hname. rewrite Hout by set_solver. rewrite lookup_insert_ne; set_solver.
  - destruct (IH b0 s0 Hd Hnd) as (b & s2 & Hrun & Hb & Hs2 & Hout).
    exists b, s2. split_and!; [done| | |].
    + intros s. rewrite Hb. unfold projected. rewrite Hown. case_decide as Hs; [|done].
      assert (owner ps s = None) as -> by (apply owner_None; by apply Hdis). simpl. by rewrite Hr.
    + intros q [->|Hq]%elem_of_cons Hqr; [congruence|auto].
    + intros name Hname. apply Hout. set_solver.
Qed.

(** Admission of a sequence of requests with the shared policy. *)
Fixpoint admit_all (plan : LogicalProcessPlan) (rids : list string) (s : RoundRobin)
    : res (list (option (gmap string Z)) * RoundRobin) :=
  match rids with
  | [] => mret ([], s)
  | rid :: rids =>
      '(b, s) ← assign_replica_bindings plan rid s;
      '(bs, s) ← admit_all plan rids s;
      mret (b :: bs, s)
  end.

Lemma has_replicas_true plan p :
  p ∈ processes plan → proc_is_replicated p = true → has_replicas plan = true.
Proof. intros Hp Hr. apply existsb_exists. exists p. by rewrite <-list_elem_of_In. Qed.

Lemma admit_all_spec plan rids s0 :
  disjoint_processes (processes plan) → NoDup (map p_name (processes plan)) →
  ∃ bs s1, admit_all plan rids s0 = Ok (bs, s1) ∧ length bs = length rids ∧
    ∀ i p s, i < length rids → p ∈ processes plan → proc_is_replicated p = true →
      s ∈ p_stage_names p →
      ∃ b, bs !! i = Some (Some b) ∧
        b !! s = Some ((default 0 (s0 !! p_name p) + Z.of_nat i) mod Z.of_nat (p_num_replicas p))%Z.
Proof.
  intros Hd Hnd. revert s0. induction rids as [|rid rids IH]; intros s0.
  { exists [], s0. split_and!; [done..|]. simpl. lia. }
  simpl. unfold assign_replica_bindings at 1.
  destruct (has_replicas plan) eqn:Hhas; simpl.
  - destruct (bind_round_robin (processes plan) rid ∅ s0 Hd Hnd) as (b & s1 & -> & Hb & Hs1 & _).
    simpl. destruct (IH s1) as (bs & s2 & -> & Hl & Hbs). simpl.
    exists (Some b :: bs), s2. split_and!; [done|simpl; lia|].
    intros [|i] p s Hi Hp Hr Hs; simpl.
    + exists b. split; [done|]. rewrite Hb. unfold projected. rewrite (owner_of _ p s) by done.
      simpl. rewrite Hr. by rewrite Z.add_0_r.
    + destruct (Hbs i p s) as (b' & Hb' & Hbi); [simpl in Hi; lia|done..|].
      exists b'. split; [done|]. rewrite Hbi, (Hs1 p Hp Hr). simpl. do 2 f_equal. lia.
  - destruct (IH s0) as (bs & s2 & -> & Hl & Hbs). simpl.
    exists (None :: bs), s2. split_and!; [done|simpl; lia|].
    intros i p s Hi Hp Hr Hs. by rewrite (has_replicas_true plan p) in Hhas.
Qed.

Lemma assign_spec {S} `{BindingInRange S} plan rid (s0 : S) :
  disjoint_processes (processes plan) →
  ∃ ob s1 f, assign_replica_bindings plan rid s0 = Ok (ob, s1) ∧
    (ob = None ↔ has_replicas plan = false) ∧
    (∀ p, proc_is_replicated p = true → p ∈ processes plan →
       (0 ≤ f p < Z.of_nat (p_num_replicas p))%Z) ∧
    ∀ s, default ∅ ob !! s = projected (processes plan) f s.
Proof.
  intros Hd. unfold assign_replica_bindings. destruct (has_replicas plan) eqn:Hhas; simpl.
  - destruct (bind_processes_spec (processes plan) rid ∅ s0 Hd) as (b & s1 & f & -> & Hf & Hb).
    exists (Some b), s1, f. split_and!; [done|done|done|]. intros s. simpl. rewrite Hb.
    by destruct (projected _ _ _).
  - exists None, s0, (λ _, 0%Z). split_and!; [done|done| |].
    + intros p Hr Hp. by rewrite (has_replicas_true plan p) in Hhas.
    + intros s. simpl. unfold projected. destruct (owner _ _) as [p|] eqn:Ho; [|done]. simpl.
      destruct (proc_is_replicated p) eqn:Hr; [|done].
      apply owner_Some in Ho as [Hp _]. by rewrite (has_replicas_true plan p) in Hhas.
Qed.

(** ** Properties *)

(** The configured pipeline an expansion starts from: distinct stage names that
    are not instance names, and processes that own disjoint sets of them. *)
Record wf_pipeline {R} (cfgs : list (StageConfig R)) (plan : LogicalProcessPlan) : Prop := {
  wf_names : NoDup (map s_name cfgs);
  wf_plain : Forall (λ s, (parse_replica_instance_name s).2 = None) (map s_name cfgs);
  wf_disjoint : disjoint_processes (processes plan);
  wf_processes : Forall wf_process (processes plan);
  wf_members : ∀ p s, p ∈ processes plan → s ∈ p_stage_names p → s ∈ map s_name cfgs;
}.

(** The two-pass expansion computes its declarative reference: the configured
    stages in order, each replaced by one copy per replica of the process that
    owns it (named [s@rK], in process [P@rK], on the K-th replica's devices), by
    itself on its process's devices, or left alone; no lookup of the passes
    fails, and the topology lists exactly the instances of the stages of
    replicated processes. *)
Theorem expansion_matches_reference {R} (cfgs : list (StageConfig R)) plan :
  wf_pipeline cfgs plan →
  ∃ reps,
    expand_replica_stages cfgs plan =
      Ok (concat (map (expansion_of (processes plan)) cfgs), mkTopology reps) ∧
    ∀ s, reps !! s = replicas_entry (processes plan) s.
Proof.
  intros [H1 H2 H3 H4 H5]. exists (replicas_of plan). split; [by apply expand_spec|].
  intros s. by apply replicas_of_lookup.
Qed.

(** Every instance is addressable and nothing else is: the stages an
    expansion starts have distinct names, the [r]-th of a logical stage's
    instances is what [resolve] returns for binding [r], [resolve] raises
    [ValueError] outside the range, and [logical_name] takes every instance back
    to its configured stage. *)
Theorem instances_resolve_both_ways {R} (cfgs : list (StageConfig R)) plan stages topo :
  wf_pipeline cfgs plan →
  expand_replica_stages cfgs plan = Ok (stages, topo) →
  NoDup (map s_name stages) ∧
  ∀ c, c ∈ cfgs →
    (∀ r i, resolve topo (s_name c) r = Ok i ↔
       (0 ≤ r)%Z ∧ map s_name (expansion_of (processes plan) c) !! Z.to_nat r = Some i) ∧
    (∀ x, x ∈ expansion_of (processes plan) c →
       x ∈ stages ∧ logical_name topo (s_name x) = s_name c).
Proof.
  intros [H1 H2 H3 H4 H5]. rewrite expand_spec by done. intros [= <- <-].
  assert (∀ c x, c ∈ cfgs → x ∈ expansion_of (processes plan) c →
    logical_name (mkTopology (replicas_of plan)) (s_name x) = s_name c) as Hlog.
  { intros c x Hc Hx.
    assert (s_name x ∈ default [s_name c] (replicas_entry (processes plan) (s_name c))) as Hn.
    { rewrite <-expansion_names. apply list_elem_of_fmap. by exists x. }
    pose proof (replicas_of_lookup plan (s_name c) H3) as Ht.
    unfold replicas_entry in Hn, Ht. destruct (owner _ _) as [p|]; [destruct (proc_is_replicated p)|].
    1: { apply elem_of_instance_names in Hn as (k & Hk & ->).
         by eapply (logical_name_instance (mkTopology _)). }
    all: apply list_elem_of_singleton in Hn as ->; apply logical_name_plain;
      apply (proj1 (Forall_forall _ _) H2); apply list_elem_of_fmap; by exists c. }
  split.
  - clear H4 H5 H2. induction cfgs as [|c cfgs IH]; [constructor|].
    simpl in *. apply NoDup_cons in H1 as [Hc H1]. rewrite map_app. apply NoDup_app. split_and!.
    + rewrite expansion_names. unfold replicas_entry. destruct (owner _ _) as [p|]; simpl; [|apply NoDup_singleton].
      destruct (proc_is_replicated p); simpl; [|apply NoDup_singleton].
      apply NoDup_fmap_2; [|apply NoDup_seq]. intros i j [_ ?]%instance_inj. done.
    + intros n Hn Hn'. apply list_elem_of_fmap in Hn as (x & -> & Hx).
      apply list_elem_of_fmap in Hn' as (y & Hxy & Hy).
      apply list_elem_of_In, in_concat in Hy as (l & Hl & Hy).
      apply in_map_iff in Hl as (c' & <- & Hc').
      apply list_elem_of_In in Hc', Hy.
      pose proof (Hlog c x ltac:(set_solver) Hx) as E1.
      pose proof (Hlog c' y ltac:(set_solver) Hy) as E2.
      rewrite Hxy in E1. apply Hc. apply list_elem_of_fmap. exists c'. split; [congruence|done].
    + apply IH; [done|]. intros c' x Hc' Hx. apply Hlog; set_solver.
  - intros c Hc. split.
    + intros r i. rewrite resolve_ok_iff, expansion_names. simpl.
      by rewrite replicas_of_lookup.
    + intros x Hx. split; [|by apply Hlog].
      apply list_elem_of_In, in_concat. exists (expansion_of (processes plan) c).
      split; [|by apply list_elem_of_In]. apply in_map. by apply list_elem_of_In.
Qed.

(** Admission binds whole processes: with any policy that keeps its index in
    range, [assign_replica_bindings] never raises; it returns nothing exactly
    when no process is replicated; otherwise every stage of a replicated process
    carries one index, the same for all of them, and every send site's
    [resolve] of a stage with its binding succeeds. *)
Theorem admission_binds_processes {S} `{BindingInRange S} {R} (cfgs : list (StageConfig R)) plan
    stages topo rid (s0 : S) :
  wf_pipeline cfgs plan →
  expand_replica_stages cfgs plan = Ok (stages, topo) →
  ∃ ob s1, assign_replica_bindings plan rid s0 = Ok (ob, s1) ∧
    (ob = None ↔ has_replicas plan = false) ∧
    ∀ c, c ∈ cfgs →
      (∃ i, resolve topo (s_name c) (default 0%Z (default ∅ ob !! s_name c)) = Ok i ∧
            i ∈ map s_name stages) ∧
      ∀ p, owner (processes plan) (s_name c) = Some p → proc_is_replicated p = true →
        ∃ k, (0 ≤ k < Z.of_nat (p_num_replicas p))%Z ∧
          ∀ s, s ∈ p_stage_names p → default ∅ ob !! s = Some k.
Proof.
  intros [H1 H2 H3 H4 H5]. rewrite expand_spec by done. intros [= <- <-].
  destruct (assign_spec plan rid s0 H3) as (ob & s1 & f & Hrun & Hnone & Hf & Hb).
  exists ob, s1. split_and!; [done|done|]. intros c Hc.
  assert (∀ p, owner (processes plan) (s_name c) = Some p → proc_is_replicated p = true →
    (0 ≤ f p < Z.of_nat (p_num_replicas p))%Z) as Hrange.
  { intros p [Hp _]%owner_Some Hr. by apply Hf. }
  split.
  - pose proof (replicas_of_lookup plan (s_name c) H3) as Ht.
    rewrite Hb. unfold projected.
    assert (∃ i, resolve (mkTopology (replicas_of plan)) (s_name c)
        (default 0%Z (projected (processes plan) f (s_name c))) = Ok i ∧
        i ∈ map s_name (expansion_of (processes plan) c)) as (i & Hi & Hin).
    { unfold projected. setoid_rewrite expansion_names. setoid_rewrite resolve_ok_iff. simpl.
      rewrite Ht. unfold replicas_entry in *. destruct (owner _ _) as [p|] eqn:Ho; simpl.
      - destruct (proc_is_replicated p) eqn:Hr; simpl; [|exists (s_name c); set_solver].
        pose proof (Hrange p eq_refl Hr). exists (replica_instance_name (s_name c) (Z.to_nat (f p))).
        rewrite instance_names_at, elem_of_instance_names. split_and!; [lia|lia|done|].
        exists (Z.to_nat (f p)). split; [lia|done].
      - exists (s_name c). set_solver. }
    exists i. split; [done|]. rewrite concat_map, map_map.
    apply list_elem_of_In, in_concat. exists (map s_name (expansion_of (processes plan) c)).
    split; [|by apply list_elem_of_In]. apply in_map_iff. exists c. by rewrite <-list_elem_of_In.
  - intros p Hp Hr. exists (f p). split; [by apply Hrange|].
    intros s Hs. rewrite Hb. unfold projected.
    rewrite (owner_of _ p s); [|done|by apply owner_Some in Hp as [? _]|done]. simpl. by rewrite Hr.
Qed.

(** Round robin is fair per process: whatever the policy counted before, the
    [i]-th of any sequence of admitted requests is bound, on every stage of a
    replicated process, to the replica [i] positions further round. *)
Theorem round_robin_rotation plan rids (s0 : RoundRobin) :
  disjoint_processes (processes plan) → NoDup (map p_name (processes plan)) →
  ∃ bs s1, admit_all plan rids s0 = Ok (bs, s1) ∧ length bs = length rids ∧
    ∀ i p s, i < length rids → p ∈ processes plan → proc_is_replicated p = true →
      s ∈ p_stage_names p →
      ∃ b, bs !! i = Some (Some b) ∧
        b !! s = Some ((default 0 (s0 !! p_name p) + Z.of_nat i) mod Z.of_nat (p_num_replicas p))%Z.
Proof. intros. by apply admit_all_spec. Qed.

(** ** Witnesses: a replicated two-stage process with devices, a pinned
    single-replica process and a plain stage. *)
Definition ex_cfgs : list (StageConfig nat) :=
  [ mkStage "talker" (Some "P") (GpuOne 0) 1 7; mkStage "solo" None (GpuOne 0) 1 8;
    mkStage "cpu" None GpuNone 1 9; mkStage "vocoder" (Some "P") (GpuOne 1) 1 10 ].
Definition ex_plan : LogicalProcessPlan := mkPlan
  [ mkProcess "P" ["talker"; "vocoder"] 1 2 (Some [[2]; [3]]%Z);
    mkProcess "Q" ["solo"] 1 1 (Some [[5]]%Z) ]
  {[ "talker" := "P"; "vocoder" := "P"; "solo" := "Q" ]}.

Lemma ex_wf : wf_pipeline ex_cfgs ex_plan.
Proof.
  split.
  - by apply (bool_decide_unpack _); vm_compute.
  - repeat constructor.
  - by apply (bool_decide_unpack _); vm_compute.
  - apply Forall_forall. intros p Hp.
    repeat (apply elem_of_cons in Hp as [->|Hp];
            [split; [simpl; lia|by intros ? [= <-]; repeat constructor]|]). set_solver.
  - intros p s Hp Hs. repeat (apply elem_of_cons in Hp as [->|Hp]; [simpl in *; set_solver|]). set_solver.
Qed.

Example ex_expansion :
  (map s_name ∘ fst) <$> expand_replica_stages ex_cfgs ex_plan
    = Ok ["talker@r0"; "talker@r1"; "solo"; "cpu"; "vocoder@r0"; "vocoder@r1"].
Proof. vm_compute. reflexivity. Qed.

Lemma expansion_matches_reference_witness :
  ∃ reps, expand_replica_stages ex_cfgs ex_plan =
      Ok (concat (map (expansion_of (processes ex_plan)) ex_cfgs), mkTopology reps).
Proof. destruct (expansion_matches_reference ex_cfgs ex_plan ex_wf) as (reps & H & _). by exists reps. Defined.

Lemma instances_resolve_both_ways_witness :
  ∃ stages topo, expand_replica_stages ex_cfgs ex_plan = Ok (stages, topo) ∧ NoDup (map s_name stages).
Proof.
  eexists _, _. split; [vm_compute; reflexivity|].
  eapply (instances_resolve_both_ways ex_cfgs ex_plan); [apply ex_wf|vm_compute; reflexivity].
Defined.

Lemma admission_binds_processes_witness :
  ∃ ob s1, assign_replica_bindings ex_plan "req" (∅ : RoundRobin) = Ok (ob, s1) ∧ ob ≠ None.
Proof.
  edestruct (admission_binds_processes ex_cfgs ex_plan) as (ob & s1 & H & Hn & _);
    [apply ex_wf|vm_compute; reflexivity|].
  exists ob, s1. split; [exact H|]. intros Ho. by apply Hn in Ho.
Defined.

Lemma round_robin_rotation_witness :
  ∃ bs s1, admit_all ex_plan ["a"; "b"; "c"] ∅ = Ok (bs, s1) ∧ length bs = 3.
Proof.
  destruct (round_robin_rotation ex_plan ["a"; "b"; "c"] ∅) as (bs & s1 & H & Hl & _).
  - by apply (bool_decide_unpack _); vm_compute.
  - by apply (bool_decide_unpack _); vm_compute.
  - exists bs, s1. by split.
Defined.
