(* ===== verification/Coordinator.v ===== *)
(** * The coordinator

    Models [sglang_omni/pipeline/coordinator.py] with the request and admin
    records of [sglang_omni/proto] and [sglang_omni/admission.py].  The class is a
    record of its attributes; every method is a function on it, split at its
    [await]s of the control plane into the parts that run atomically on the event
    loop ([await queue.put] on an unbounded queue does not suspend).  Futures,
    queues and request records are heap objects with an identity, since several
    tasks hold them.  The last part composes the handlers, the client calls and
    the abort tasks into a step relation. *)
From S2P Require Import Prelude PyVal Replicas.

(** ** Requests and messages *)
Inductive RequestState := PENDING | RUNNING | COMPLETED | FAILED | ABORTED.

#[export] Instance request_state_eq_dec : EqDecision RequestState.
Proof. solve_decision. Defined.

(** [ri_id] is the identity of the record object. *)
Record RequestInfo := mkInfo {
  ri_id : nat;
  ri_state : RequestState;
  ri_current_stage : string;
  ri_terminal_stages : gset string;
  ri_result : pyval;
  ri_error : option string;
}.

Record OmniRequest := mkOmniRequest { inputs : pyval; params : pyval; metadata : pyval }.

(** The [request] argument of [submit] and [stream]. *)
Inductive request_arg := ReqObj (r : OmniRequest) | ReqRaw (v : pyval).

Definition to_omni_request (r : request_arg) : OmniRequest :=
  match r with ReqObj r => r | ReqRaw v => mkOmniRequest v (PDict []) (PDict []) end.

Record StagePayload := mkPayload { sp_request_id : string; sp_request : OmniRequest; sp_data : pyval }.

Record SubmitMessage := mkSubmit {
  sub_request_id : string; sub_data : StagePayload; sub_bindings : option (gmap string Z) }.

Record CompleteMessage := mkComplete {
  cm_request_id : string; cm_from_stage : string; cm_success : bool;
  cm_result : pyval; cm_error : option string }.

Record StreamMessage := mkStream {
  sm_request_id : string; sm_from_stage : string; sm_chunk : pyval; sm_stage_id : pyval;
  sm_stage_name : option string; sm_modality : pyval; sm_chunk_id : pyval }.

(** What a client's stream queue carries. *)
Inductive event := EvComplete (m : CompleteMessage) | EvStream (m : StreamMessage).

(** ** Admin records *)
Record AdminResult := mkAdminResult {
  ar_op_id : string; ar_stage : string; ar_action : string; ar_success : bool;
  ar_message : string; ar_data : list (string * pyval); ar_error : option string;
  ar_rank : pyval; ar_role : pyval }.

Definition is_update_action (action : string) : bool :=
  bool_decide (action ∈ ["init_weights_update_group"; "destroy_weights_update_group";
    "update_weights_from_disk"; "update_weights_from_tensor"; "update_weights_from_distributed"]).

(** ** asyncio futures *)
Inductive fut (A : Type) := FutPending | FutResult (v : A) | FutExc (e : exn) | FutCancelled.
Arguments FutPending {A}.
Arguments FutResult {A} v.
Arguments FutExc {A} e.
Arguments FutCancelled {A}.

Definition fut_done {A} (f : fut A) : bool := match f with FutPending => false | _ => true end.

Record AdminPending := mkPending {
  ap_expected : gset string;
  ap_action : string;
  ap_results : list (string * AdminResult);
  ap_future : fut (list (string * AdminResult));
}.

(** ** [QueueFullError] *)
Definition QUEUE_FULL_MESSAGE : string := "The request queue is full.".

Fixpoint is_prefix (p s : string) : bool :=
  match p, s with
  | EmptyString, _ => true
  | String a p, String b s => Ascii.eqb a b && is_prefix p s
  | _, _ => false
  end.

(** [p in s] *)
Fixpoint substring_of (p s : string) : bool :=
  is_prefix p s || match s with EmptyString => false | String _ s => substring_of p s end.

(** [QueueFullError.from_message] of a transported error string. *)
Definition from_message (message : option string) : exn :=
  match message with
  | None => RuntimeError "Unknown error"
  | Some m =>
      if substring_of QUEUE_FULL_MESSAGE m then QueueFullError
      else RuntimeError (if bool_decide (m = "") then "Unknown error" else m)
  end.

(** ** Configuration: what [__init__] fixes *)

(** A resolver's answer: [None], a sequence, or anything else. *)
Inductive resolved := ResNone | ResSeq (l : list pyval) | ResOther.

Record CoordinatorConfig := mkConfig {
  entry_stage : string;
  static_terminals : gset string;
  terminal_stages_resolver : option (OmniRequest → res resolved);
  replica_topology : ReplicaTopology;
  logical_process_plan : LogicalProcessPlan;
  max_in_flight : option Z;
}.

Definition make_config (entry : string) (terminals : option (list string))
    (resolver : option (OmniRequest → res resolved)) (topology : option ReplicaTopology)
    (plan : option LogicalProcessPlan) (cap : option Z) : res CoordinatorConfig :=
  _ ← match cap with
      | Some n => raise_if (bool_decide (n < 0)%Z) (ValueError "max_in_flight must be >= 0")
      | None => mret tt
      end;
  mret (mkConfig entry (list_to_set (default [] terminals)) resolver
    (default (mkTopology ∅) topology) (default (mkPlan [] ∅) plan) cap).

Definition PStr_val (v : pyval) : option string := match v with PStr s => Some s | _ => None end.

Definition _resolve_terminal_stages (cfg : CoordinatorConfig) (request : OmniRequest) : res (gset string) :=
  match terminal_stages_resolver cfg with
  | None => Ok (static_terminals cfg)
  | Some resolver =>
      r ← resolver request;
      match r with
      | ResNone => Ok (static_terminals cfg)
      | ResOther => Raise (ValueError "resolver must return a sequence or None")
      | ResSeq l =>
          match mapM PStr_val l with
          | None => Raise (ValueError "resolver must return terminal stage names")
          | Some names =>
              let resolved : gset string := list_to_set names in
              _ ← raise_if (bool_decide (resolved = ∅)) (ValueError "resolver returned no terminal stages");
              _ ← raise_if (negb (bool_decide (resolved ⊆ static_terminals cfg)))
                    (ValueError "resolver returned stages outside the static terminal stages");
              Ok resolved
          end
      end
  end.

Section coordinator.
Context {S : Type} `{BindingPolicy S}.
Variable cfg : CoordinatorConfig.

(** The mutable attributes, the binding policy's state, and the heap of futures
    and queues; [heap_next] is the next object identity. *)
Record Coordinator := mkCoordinator {
  c_stages : list (string * string);
  c_requests : gmap string RequestInfo;
  c_futures : gmap string nat;
  c_queues : gmap string nat;
  c_partials : gmap string (list (string * pyval));
  c_abort_tasks : gmap string nat;
  c_admin_ops : gmap string AdminPending;
  c_running : bool;
  c_fatal_error : option string;
  c_policy : S;
  heap_futures : gmap nat (fut pyval);
  heap_queues : gmap nat (list event);
  heap_next : nat;
}.

Definition coordinator_init (s : S) : Coordinator :=
  mkCoordinator [] ∅ ∅ ∅ ∅ ∅ ∅ false None s ∅ ∅ 0.

Definition set_stages f c := mkCoordinator (f (c_stages c)) (c_requests c) (c_futures c) (c_queues c)
  (c_partials c) (c_abort_tasks c) (c_admin_ops c) (c_running c) (c_fatal_error c) (c_policy c)
  (heap_futures c) (heap_queues c) (heap_next c).
Definition set_requests f c := mkCoordinator (c_stages c) (f (c_requests c)) (c_futures c) (c_queues c)
  (c_partials c) (c_abort_tasks c) (c_admin_ops c) (c_running c) (c_fatal_error c) (c_policy c)
  (heap_futures c) (heap_queues c) (heap_next c).
Definition set_futures f c := mkCoordinator (c_stages c) (c_requests c) (f (c_futures c)) (c_queues c)
  (c_partials c) (c_abort_tasks c) (c_admin_ops c) (c_running c) (c_fatal_error c) (c_policy c)
  (heap_futures c) (heap_queues c) (heap_next c).
Definition set_queues f c := mkCoordinator (c_stages c) (c_requests c) (c_futures c) (f (c_queues c))
  (c_partials c) (c_abort_tasks c) (c_admin_ops c) (c_running c) (c_fatal_error c) (c_policy c)
  (heap_futures c) (heap_queues c) (heap_next c).
Definition set_partials f c := mkCoordinator (c_stages c) (c_requests c) (c_futures c) (c_queues c)
  (f (c_partials c)) (c_abort_tasks c) (c_admin_ops c) (c_running c) (c_fatal_error c) (c_policy c)
  (heap_futures c) (heap_queues c) (heap_next c).
Definition set_abort_tasks f c := mkCoordinator (c_stages c) (c_requests c) (c_futures c) (c_queues c)
  (c_partials c) (f (c_abort_tasks c)) (c_admin_ops c) (c_running c) (c_fatal_error c) (c_policy c)
  (heap_futures c) (heap_queues c) (heap_next c).
Definition set_admin_ops f c := mkCoordinator (c_stages c) (c_requests c) (c_futures c) (c_queues c)
  (c_partials c) (c_abort_tasks c) (f (c_admin_ops c)) (c_running c) (c_fatal_error c) (c_policy c)
  (heap_futures c) (heap_queues c) (heap_next c).
Definition set_running b e c := mkCoordinator (c_stages c) (c_requests c) (c_futures c) (c_queues c)
  (c_partials c) (c_abort_tasks c) (c_admin_ops c) b e (c_policy c)
  (heap_futures c) (heap_queues c) (heap_next c).
Definition set_policy s c := mkCoordinator (c_stages c) (c_requests c) (c_futures c) (c_queues c)
  (c_partials c) (c_abort_tasks c) (c_admin_ops c) (c_running c) (c_fatal_error c) s
  (heap_futures c) (heap_queues c) (heap_next c).
Definition set_heap ff fq c := mkCoordinator (c_stages c) (c_requests c) (c_futures c) (c_queues c)
  (c_partials c) (c_abort_tasks c) (c_admin_ops c) (c_running c) (c_fatal_error c) (c_policy c)
  (ff (heap_futures c)) (fq (heap_queues c)) (heap_next c).
Definition bump n c := mkCoordinator (c_stages c) (c_requests c) (c_futures c) (c_queues c)
  (c_partials c) (c_abort_tasks c) (c_admin_ops c) (c_running c) (c_fatal_error c) (c_policy c)
  (heap_futures c) (heap_queues c) (n + heap_next c).

(** [future.set_result], [.set_exception], [.cancel]: a settled future keeps its
    outcome (every call site tests [done()] first, and cancelling a settled future
    does nothing). *)
Definition settle (r : nat) (f : fut pyval) (futures : gmap nat (fut pyval)) : gmap nat (fut pyval) :=
  match futures !! r with Some FutPending => <[r := f]> futures | _ => futures end.

Definition settle_completion (rid : string) (f : fut pyval) (c : Coordinator) : Coordinator :=
  set_heap (match c_futures c !! rid with Some r => settle r f | None => λ m, m end) (λ m, m) c.

(** [queue.put(ev)] on an unbounded queue. *)
Definition queue_put (ev : event) (l : list event) : list event := l ++ [ev].

Definition put_to_stream (rid : string) (ev : event) (c : Coordinator) : Coordinator :=
  set_heap (λ m, m)
    (match c_queues c !! rid with Some q => alter (queue_put ev) q | None => λ m, m end) c.

Definition register_stage (name endpoint : string) : Coordinator → Coordinator :=
  set_stages (od_set name endpoint).

Definition coordinator_start (c : Coordinator) : Coordinator := set_running true (c_fatal_error c) c.
Definition coordinator_stop (c : Coordinator) : Coordinator := set_running false (c_fatal_error c) c.

Definition _request_id_is_reserved (rid : string) (c : Coordinator) : bool :=
  bool_decide (is_Some (c_requests c !! rid)) || bool_decide (is_Some (c_futures c !! rid)) ||
  bool_decide (is_Some (c_queues c !! rid)) || bool_decide (is_Some (c_abort_tasks c !! rid)).

(** A streaming caller reads its queue and never awaits the future, which is
    cancelled; any other caller gets the exception. *)
Definition _reject_completion_future (rid : string) (exc : exn) (c : Coordinator) : Coordinator :=
  settle_completion rid (if bool_decide (is_Some (c_queues c !! rid)) then FutCancelled else FutExc exc) c.

Definition _expected_terminal_stages (rid : string) (c : Coordinator) : gset string :=
  match c_requests c !! rid with
  | Some info => ri_terminal_stages info
  | None => static_terminals cfg
  end.

(** *** Admission *)

(** [_submit_request] up to [await submit_to_stage]: what it sends, and where.
    An exception leaves only the binding policy's state behind. *)
Definition submit_begin (rid : string) (arg : request_arg) (stream_queue : option nat) (c : Coordinator)
    : Coordinator * res (string * string * SubmitMessage) :=
  match c_fatal_error c with
  | Some m => (c, Raise (RuntimeError m))
  | None =>
  if _request_id_is_reserved rid c then (c, Raise (ValueError "request already exists")) else
  if match max_in_flight cfg with
     | Some n => bool_decide (n ≤ Z.of_nat (size (c_requests c)))%Z
     | None => false
     end then (c, Raise QueueFullError) else
  let request := to_omni_request arg in
  match assign_replica_bindings (logical_process_plan cfg) rid (c_policy c) with
  | Raise e => (c, Raise e)
  | Ok (replica_bindings, s) =>
      let c := set_policy s c in
      let bindings := default ∅ replica_bindings in
      match
        (if is_replicated (replica_topology cfg) (entry_stage cfg)
         then i ← dict_get (entry_stage cfg) bindings; resolve (replica_topology cfg) (entry_stage cfg) i
         else Ok (entry_stage cfg))
      with
      | Raise e => (c, Raise e)
      | Ok entry_instance =>
          match od_get entry_instance (c_stages c) with
          | None => (c, Raise (ValueError "entry stage not registered"))
          | Some endpoint =>
              match _resolve_terminal_stages cfg request with
              | Raise e => (c, Raise e)
              | Ok terminals =>
                  let info_ref := heap_next c in
                  let future := 1 + heap_next c in
                  let c := bump 2 c in
                  let c := set_requests
                    (insert rid (mkInfo info_ref PENDING (entry_stage cfg) terminals PNone None)) c in
                  let c := set_heap (insert future FutPending) (λ m, m) c in
                  let c := set_futures (insert rid future) c in
                  let c := match stream_queue with
                           | Some q => set_queues (insert rid q) c
                           | None => c
                           end in
                  let payload := mkPayload rid request (PDict [("raw_inputs", inputs request)]) in
                  (c, Ok (entry_instance, endpoint, mkSubmit rid payload replica_bindings))
              end
          end
      end
  end
  end.

Definition set_state (st : RequestState) (i : RequestInfo) : RequestInfo :=
  mkInfo (ri_id i) st (ri_current_stage i) (ri_terminal_stages i) (ri_result i) (ri_error i).
Definition set_failed (err : option string) (i : RequestInfo) : RequestInfo :=
  mkInfo (ri_id i) FAILED (ri_current_stage i) (ri_terminal_stages i) (ri_result i) err.
Definition set_completed (v : pyval) (i : RequestInfo) : RequestInfo :=
  mkInfo (ri_id i) COMPLETED (ri_current_stage i) (ri_terminal_stages i) v (ri_error i).

(** [_submit_request] after the send. *)
Definition submit_finish (rid : string) (c : Coordinator) : Coordinator :=
  set_requests (alter (set_state RUNNING) rid) c.

(** *** Abort *)
Inductive abort_reply := AbortReturn (b : bool) | AbortAwait (task : nat).

(** [abort] up to [await shield(task)]; a new task is [_run_abort]. *)
Definition abort_begin (rid : string) (c : Coordinator) : Coordinator * abort_reply :=
  match c_abort_tasks c !! rid with
  | Some t => (c, AbortAwait t)
  | None =>
      match c_requests c !! rid with
      | None => (c, AbortReturn false)
      | Some info =>
          if bool_decide (ri_state info ∈ [COMPLETED; FAILED; ABORTED]) then (c, AbortReturn false)
          else
            let t := heap_next c in
            (set_abort_tasks (insert rid t) (bump 1 c), AbortAwait t)
      end
  end.

Definition failed_event (rid : string) (error : string) : event :=
  EvComplete (mkComplete rid "coordinator" false PNone (Some error)).

(** [_run_abort] after [await broadcast_abort]. *)
Definition run_abort_finish (rid : string) (c : Coordinator) : Coordinator * bool :=
  match c_requests c !! rid with
  | None => (c, false)
  | Some _ =>
      let c := set_requests (alter (set_state ABORTED) rid) c in
      let c := _reject_completion_future rid CancelledError c in
      let c := put_to_stream rid (failed_event rid "aborted") c in
      let c := set_requests (delete rid) c in
      let c := set_partials (delete rid) c in
      (c, true)
  end.

Definition _on_abort_task_done (rid : string) (task : nat) (c : Coordinator) : Coordinator :=
  if bool_decide (c_abort_tasks c !! rid = Some task) then set_abort_tasks (delete rid) c else c.

(** *** Completions *)
Definition with_from_stage (from : string) (m : CompleteMessage) : CompleteMessage :=
  mkComplete (cm_request_id m) from (cm_success m) (cm_result m) (cm_error m).

(** [if request_id in self._completion_futures: ... if not future.done(): set_result]. *)
Definition resolve_future (rid : string) (v : pyval) (c : Coordinator) : Coordinator :=
  settle_completion rid (FutResult v) c.

(** [_handle_completion] up to its end, or up to [await broadcast_abort] for a
    failure: then the message (with its logical stage) the rest needs. *)
Definition handle_completion (m : CompleteMessage) (c : Coordinator)
    : Coordinator * option CompleteMessage :=
  let rid := cm_request_id m in
  match c_requests c !! rid with
  | None => (c, None)
  | Some info =>
      let from_stage := logical_name (replica_topology cfg) (cm_from_stage m) in
      let m := if bool_decide (from_stage ≠ cm_from_stage m) then with_from_stage from_stage m else m in
      if negb (cm_success m) then
        (set_requests (alter (set_failed (cm_error m)) rid) c, Some m)
      else
      let expected := _expected_terminal_stages rid c in
      if negb (bool_decide (expected = ∅)) && negb (bool_decide (from_stage ∈ expected)) then (c, None) else
      if bool_decide (size expected ≤ 1) then
        let c := set_requests (alter (set_completed (cm_result m)) rid) c in
        let c := resolve_future rid (cm_result m) c in
        let c := put_to_stream rid (EvComplete m) c in
        (set_requests (delete rid) c, None)
      else
        let partials := od_set from_stage (cm_result m) (default [] (c_partials c !! rid)) in
        let c := set_partials (insert rid partials) c in
        let c := put_to_stream rid (EvComplete m) c in
        if bool_decide ((list_to_set (od_keys partials) : gset string) ⊂ expected) then (c, None)
        else
          let merged := PDict partials in
          let c := set_partials (delete rid) c in
          let c := set_requests (alter (set_completed merged) rid) c in
          let c := resolve_future rid merged c in
          (set_requests (delete rid) c, None)
  end.

(** The rest of a failure, after the broadcast. *)
Definition handle_completion_fail (m : CompleteMessage) (c : Coordinator) : Coordinator :=
  let rid := cm_request_id m in
  let c := set_partials (delete rid) c in
  let c := _reject_completion_future rid (from_message (cm_error m)) c in
  let c := put_to_stream rid (EvComplete m) c in
  set_requests (delete rid) c.

Definition _handle_stream (m : StreamMessage) (c : Coordinator) : Coordinator :=
  match c_queues c !! sm_request_id m with
  | None => c
  | Some _ =>
      let logical := logical_name (replica_topology cfg) (sm_from_stage m) in
      let stage_name := logical_name (replica_topology cfg) <$> sm_stage_name m in
      let m := if bool_decide (logical ≠ sm_from_stage m ∨ stage_name ≠ sm_stage_name m)
               then mkStream (sm_request_id m) logical (sm_chunk m) (sm_stage_id m) stage_name
                      (sm_modality m) (sm_chunk_id m)
               else m in
      put_to_stream (sm_request_id m) (EvStream m) c
  end.

(** *** Failing everything *)
Definition fail_one (message : string) (c : Coordinator) (e : string * RequestInfo) : Coordinator :=
  let rid := e.1 in
  let c := set_requests (alter (set_failed (Some message)) rid) c in
  let c := _reject_completion_future rid (RuntimeError message) c in
  put_to_stream rid (failed_event rid message) c.

Definition fail_pending_requests (message : string) (c : Coordinator) : Coordinator :=
  let c := set_running false (Some message) c in
  let c := fold_left (fail_one message) (map_to_list (c_requests c)) c in
  set_partials (const ∅) (set_requests (const ∅) c).

(** *** Admin operations *)
(** The two nested loops that deduplicate in order. *)
Definition add_instance (resolved : list string) (i : string) : list string :=
  if bool_decide (i ∈ resolved) then resolved else resolved ++ [i].
Definition dedup_instances (names : list string) : list string :=
  fold_left (λ resolved name, fold_left add_instance (instances (replica_topology cfg) name) resolved)
    names [].

Definition _resolve_admin_stages (stages : option (list string)) (c : Coordinator) : res (list string) :=
  match stages with
  | None => Ok (sort_strings (od_keys (c_stages c)))
  | Some names =>
      let resolved := dedup_instances names in
      if bool_decide (Forall (.∈ od_keys (c_stages c)) resolved) then Ok resolved
      else Raise (ValueError "unknown admin target stages")
  end.

(** [admin] up to the lock: the stages addressed. *)
Definition admin_targets (stages : option (list string)) (c : Coordinator) : res (list string) :=
  _ ← raise_if (negb (c_running c)) (RuntimeError "Coordinator is not running");
  targets ← _resolve_admin_stages stages c;
  _ ← raise_if (bool_decide (targets = [])) (ValueError "No stages registered for admin operation");
  mret targets.

Definition admin_register (op_id action : string) (targets : list string) : Coordinator → Coordinator :=
  set_admin_ops (insert op_id (mkPending (list_to_set targets) action [] FutPending)).

Definition _handle_admin_result (r : AdminResult) (c : Coordinator) : Coordinator :=
  match c_admin_ops c !! ar_op_id r with
  | None => c
  | Some pending =>
      let results := od_set (ar_stage r) r (ap_results pending) in
      let future :=
        if bool_decide (ap_expected pending ⊆ (list_to_set (od_keys results) : gset string))
        then match ap_future pending with FutPending => FutResult results | f => f end
        else ap_future pending in
      set_admin_ops (insert (ar_op_id r) (mkPending (ap_expected pending) (ap_action pending) results future)) c
  end.

(** The [finally] of [admin]. *)
Definition admin_pop (op_id : string) : Coordinator → Coordinator := set_admin_ops (delete op_id).

Record admin_report := mkReport {
  rep_op_id : string; rep_action : string; rep_success : bool; rep_message : string;
  rep_results : list AdminResult }.

Definition applied (r : AdminResult) : bool :=
  negb (truthy (dget "skipped" (ar_data r))) && negb (truthy (dget "unsupported" (ar_data r))).

Definition error_text (r : AdminResult) : option string :=
  match ar_error r with Some e => if bool_decide (e = "") then None else Some e | None => None end.

Fixpoint join_str (sep : string) (l : list string) : string :=
  match l with [] => "" | [s] => s | s :: l => s +:+ sep +:+ join_str sep l end.

Definition _aggregate_admin_results (op_id action : string) (results : list AdminResult) : admin_report :=
  let updated := List.filter applied results in
  let success :=
    if is_update_action action
    then negb (bool_decide (length updated = 0)) && forallb ar_success updated
    else forallb ar_success results in
  let errors := omap error_text results in
  let message :=
    if success then "ok"
    else match errors with
         | [] => "admin operation did not complete successfully"
         | _ => join_str "; " errors
         end in
  mkReport op_id action success message results.

(** *** Reading a stream *)

(** One event taken by the [while] loop of [stream], with the stages completed so
    far: it raises, returns, or goes on. *)
Inductive stream_next := StreamRaise (e : exn) | StreamReturn | StreamContinue (completed : gset string).

Definition stream_event (expected completed : gset string) (ev : event) : stream_next :=
  match ev with
  | EvStream _ => StreamContinue completed
  | EvComplete m =>
      if negb (cm_success m) then StreamRaise (from_message (cm_error m))
      else
        let completed := {[ logical_name (replica_topology cfg) (cm_from_stage m) ]} ∪ completed in
        if bool_decide (expected = ∅) || bool_decide (expected ⊆ completed) then StreamReturn
        else StreamContinue completed
  end.

(** The outer [finally] of [stream]: nothing if the queue is not this call's,
    else an abort of a request still tracked. *)
Inductive final_next := FinalDone | FinalPop | FinalAwait (task : nat).

Definition stream_final_begin (rid : string) (q : nat) (c : Coordinator) : Coordinator * final_next :=
  if bool_decide (c_queues c !! rid = Some q) then
    match c_requests c !! rid with
    | Some _ =>
        match abort_begin rid c with
        | (c, AbortReturn _) => (c, FinalPop)
        | (c, AbortAwait t) => (c, FinalAwait t)
        end
    | None => (c, FinalPop)
    end
  else (c, FinalDone).

(** The inner [finally]. *)
Definition stream_final_end (rid : string) (q : nat) (c : Coordinator) : Coordinator :=
  if bool_decide (c_queues c !! rid = Some q)
  then set_futures (delete rid) (set_queues (delete rid) c) else c.

(** The [finally] of [submit]. *)
Definition submit_final (rid : string) (c : Coordinator) : Coordinator := set_futures (delete rid) c.

Definition get_request_info (rid : string) (c : Coordinator) : option RequestInfo := c_requests c !! rid.

(** *** Health *)
Record health_report := mkHealth {
  h_running : bool; h_stages : list string; h_entry : string; h_total : nat; h_pending : nat;
  h_states : RequestState → nat }.

Definition health (c : Coordinator) : health_report :=
  mkHealth (c_running c) (od_keys (c_stages c)) (entry_stage cfg)
    (size (c_requests c)) (size (c_futures c))
    (λ st, length (List.filter (λ e : string * RequestInfo, bool_decide (ri_state e.2 = st))
             (map_to_list (c_requests c)))).

(** ** The event loop

    The tasks of one coordinator: client calls of [submit] and [stream], suspended
    where their [await]s suspend; the completion loop; the abort tasks, and their
    done-callbacks once the task has finished. *)
Inductive client :=
| SubmitSending (rid : string) (future : nat)
| SubmitWaiting (rid : string) (future : nat)
| StreamSending (rid : string) (q : nat)
| StreamReading (rid : string) (q : nat) (expected completed : gset string)
| StreamAborting (rid : string) (q : nat) (task : nat).

Inductive loop_state := LoopIdle | LoopBroadcast (m : CompleteMessage) | LoopDead.

(** [as_target] is the identity of the request record an abort task was created for. *)
Record abort_task := mkAbort { as_rid : string; as_target : nat }.

Record sys := mkSys {
  s_co : Coordinator;
  s_clients : gmap nat client;
  s_loop : loop_state;
  s_aborts : gmap nat abort_task;
  s_callbacks : gmap nat string;
}.

Definition sys_init (s : S) : sys := mkSys (coordinator_init s) ∅ LoopIdle ∅ ∅.

(** [create_task] for an abort that [abort_begin] started. *)
Definition spawn_abort (rid : string) (c0 c1 : Coordinator) (aborts : gmap nat abort_task) : gmap nat abort_task :=
  match c_abort_tasks c0 !! rid, c_abort_tasks c1 !! rid, c_requests c0 !! rid with
  | None, Some t, Some info => <[t := mkAbort rid (ri_id info)]> aborts
  | _, _, _ => aborts
  end.

(** A client leaving [stream] for whatever reason. *)
Definition leave_stream (i : nat) (rid : string) (q : nat) (s : sys) : sys :=
  match stream_final_begin rid q (s_co s) with
  | (c, FinalDone) => mkSys c (delete i (s_clients s)) (s_loop s) (s_aborts s) (s_callbacks s)
  | (c, FinalPop) =>
      mkSys (stream_final_end rid q c) (delete i (s_clients s)) (s_loop s)
        (spawn_abort rid (s_co s) c (s_aborts s)) (s_callbacks s)
  | (c, FinalAwait t) =>
      mkSys c (<[i := StreamAborting rid q t]> (s_clients s)) (s_loop s)
        (spawn_abort rid (s_co s) c (s_aborts s)) (s_callbacks s)
  end.

Definition with_co (c : Coordinator) (s : sys) : sys :=
  mkSys c (s_clients s) (s_loop s) (s_aborts s) (s_callbacks s).
Definition with_client (i : nat) (cl : client) (c : Coordinator) (s : sys) : sys :=
  mkSys c (<[i := cl]> (s_clients s)) (s_loop s) (s_aborts s) (s_callbacks s).
Definition drop_client (i : nat) (c : Coordinator) (s : sys) : sys :=
  mkSys c (delete i (s_clients s)) (s_loop s) (s_aborts s) (s_callbacks s).

Inductive step : sys → sys → Prop :=
| S_register s name endpoint : step s (with_co (register_stage name endpoint (s_co s)) s)
| S_start s : step s (with_co (coordinator_start (s_co s)) s)
| S_stop s : step s (with_co (coordinator_stop (s_co s)) s)
(* submit *)
| S_submit s i rid arg c r :
    s_clients s !! i = None →
    submit_begin rid arg None (s_co s) = (c, Ok r) →
    step s (with_client i (SubmitSending rid (1 + heap_next (s_co s))) c s)
| S_submit_rejected s rid arg c e :
    submit_begin rid arg None (s_co s) = (c, Raise e) →
    step s (with_co c s)
| S_submit_sent s i rid f :
    s_clients s !! i = Some (SubmitSending rid f) →
    step s (match c_futures (submit_finish rid (s_co s)) !! rid with
            | Some f' => with_client i (SubmitWaiting rid f') (submit_finish rid (s_co s)) s
            | None => drop_client i (submit_finish rid (s_co s)) s
            end)
| S_submit_send_failed s i rid f :
    s_clients s !! i = Some (SubmitSending rid f) →
    step s (drop_client i (s_co s) s)
| S_submit_done s i rid f o :
    s_clients s !! i = Some (SubmitWaiting rid f) →
    heap_futures (s_co s) !! f = Some o → fut_done o = true →
    step s (drop_client i (submit_final rid (s_co s)) s)
| S_submit_cancelled s i rid f :
    s_clients s !! i = Some (SubmitWaiting rid f) →
    step s (drop_client i (submit_final rid (set_heap (settle f FutCancelled) (λ m, m) (s_co s))) s)
(* stream *)
| S_stream s i rid arg c r :
    s_clients s !! i = None →
    let q := heap_next (s_co s) in
    submit_begin rid arg (Some q) (bump 1 (set_heap (λ m, m) (insert q []) (s_co s))) = (c, Ok r) →
    step s (with_client i (StreamSending rid q) c s)
| S_stream_rejected s i rid arg c e :
    s_clients s !! i = None →
    let q := heap_next (s_co s) in
    submit_begin rid arg (Some q) (bump 1 (set_heap (λ m, m) (insert q []) (s_co s))) = (c, Raise e) →
    step s (leave_stream i rid q (with_co c s))
| S_stream_sent s i rid q :
    s_clients s !! i = Some (StreamSending rid q) →
    let c := submit_finish rid (s_co s) in
    step s (with_client i (StreamReading rid q (_expected_terminal_stages rid c) ∅) c s)
| S_stream_send_failed s i rid q :
    s_clients s !! i = Some (StreamSending rid q) →
    step s (leave_stream i rid q s)
| S_stream_read s i rid q expected completed ev rest completed' :
    s_clients s !! i = Some (StreamReading rid q expected completed) →
    heap_queues (s_co s) !! q = Some (ev :: rest) →
    stream_event expected completed ev = StreamContinue completed' →
    step s (with_client i (StreamReading rid q expected completed')
              (set_heap (λ m, m) (insert q rest) (s_co s)) s)
| S_stream_end s i rid q expected completed ev rest :
    s_clients s !! i = Some (StreamReading rid q expected completed) →
    heap_queues (s_co s) !! q = Some (ev :: rest) →
    (∀ completed', stream_event expected completed ev ≠ StreamContinue completed') →
    step s (leave_stream i rid q (with_co (set_heap (λ m, m) (insert q rest) (s_co s)) s))
| S_stream_closed s i rid q expected completed :
    s_clients s !! i = Some (StreamReading rid q expected completed) →
    step s (leave_stream i rid q s)
| S_stream_abort_over s i rid q t :
    s_clients s !! i = Some (StreamAborting rid q t) →
    step s (drop_client i (stream_final_end rid q (s_co s)) s)
(* abort *)
| S_abort s rid c reply :
    abort_begin rid (s_co s) = (c, reply) →
    step s (mkSys c (s_clients s) (s_loop s) (spawn_abort rid (s_co s) c (s_aborts s)) (s_callbacks s))
| S_abort_broadcast s t a c b :
    s_aborts s !! t = Some a →
    run_abort_finish (as_rid a) (s_co s) = (c, b) →
    step s (mkSys c (s_clients s) (s_loop s) (delete t (s_aborts s)) (<[t := as_rid a]> (s_callbacks s)))
| S_abort_failed s t a :
    s_aborts s !! t = Some a →
    step s (mkSys (s_co s) (s_clients s) (s_loop s) (delete t (s_aborts s)) (<[t := as_rid a]> (s_callbacks s)))
| S_abort_callback s t rid :
    s_callbacks s !! t = Some rid →
    step s (mkSys (_on_abort_task_done rid t (s_co s)) (s_clients s) (s_loop s) (s_aborts s)
              (delete t (s_callbacks s)))
(* the completion loop *)
| S_stream_message s m :
    s_loop s = LoopIdle →
    step s (with_co (_handle_stream m (s_co s)) s)
| S_admin_message s r :
    s_loop s = LoopIdle →
    step s (with_co (_handle_admin_result r (s_co s)) s)
| S_complete_message s m c o :
    s_loop s = LoopIdle →
    handle_completion m (s_co s) = (c, o) →
    step s (mkSys c (s_clients s) (match o with Some m => LoopBroadcast m | None => LoopIdle end)
              (s_aborts s) (s_callbacks s))
| S_broadcast_done s m :
    s_loop s = LoopBroadcast m →
    step s (mkSys (handle_completion_fail m (s_co s)) (s_clients s) LoopIdle (s_aborts s) (s_callbacks s))
| S_broadcast_failed s m :
    s_loop s = LoopBroadcast m →
    step s (mkSys (s_co s) (s_clients s) LoopDead (s_aborts s) (s_callbacks s))
| S_fail_pending s message :
    step s (with_co (fail_pending_requests message (s_co s)) s)
(* admin *)
| S_admin_register s op_id action stages targets :
    admin_targets stages (s_co s) = Ok targets →
    step s (with_co (admin_register op_id action targets (s_co s)) s)
| S_admin_pop s op_id : step s (with_co (admin_pop op_id (s_co s)) s).

Definition reachable (s0 : S) : sys → Prop := rtc step (sys_init s0).
End coordinator.

(** ** The invariant of the attributes *)
Section invariant.
Context {S : Type} `{BindingPolicy S}.
Variable cfg : CoordinatorConfig.
Abbreviation coord := (Coordinator (S:=S)).
Implicit Types (c : coord) (rid : string) (r q : nat).

(** The partial results of a request: some, but not all, of its terminals. *)
Definition partial_ok (expected : gset string) (p : list (string * pyval)) : Prop :=
  NoDup (od_keys p) ∧ p ≠ [] ∧ (list_to_set (od_keys p) : gset string) ⊂ expected.

(** Futures and queues are allocated; a future belongs to one request id and a
    pending one to a tracked request; tracked requests wait for static terminals
    and are neither completed nor aborted; partial results belong to tracked
    requests; the in-flight cap holds. *)
Record coord_inv c : Prop := {
  ci_heap_futures : ∀ r, is_Some (heap_futures c !! r) → r < heap_next c;
  ci_heap_queues : ∀ q, is_Some (heap_queues c !! q) → q < heap_next c;
  ci_futures : ∀ rid r, c_futures c !! rid = Some r → is_Some (heap_futures c !! r);
  ci_queues : ∀ rid q, c_queues c !! rid = Some q → is_Some (heap_queues c !! q);
  ci_future_inj : ∀ rid rid' r,
    c_futures c !! rid = Some r → c_futures c !! rid' = Some r → rid = rid';
  ci_pending : ∀ rid r, c_futures c !! rid = Some r → heap_futures c !! r = Some FutPending →
    is_Some (c_requests c !! rid);
  ci_infos : ∀ rid info, c_requests c !! rid = Some info →
    ri_id info < heap_next c ∧ ri_terminal_stages info ⊆ static_terminals cfg ∧
    ri_state info ∉ [COMPLETED; ABORTED];
  ci_partials : ∀ rid p, c_partials c !! rid = Some p →
    ∃ info, c_requests c !! rid = Some info ∧ partial_ok (ri_terminal_stages info) p;
  ci_cap : ∀ n, max_in_flight cfg = Some n → (0 ≤ n)%Z → (Z.of_nat (size (c_requests c)) ≤ n)%Z;
}.

Lemma settle_lookup r f m r' :
  settle r f m !! r' = m !! r' ∨ (r' = r ∧ m !! r = Some FutPending ∧ settle r f m !! r' = Some f).
Proof.
  unfold settle. destruct (m !! r) as [[]|] eqn:Hr; auto.
  destruct (decide (r' = r)) as [->|]; [right; by rewrite lookup_insert_eq|].
  left. by rewrite lookup_insert_ne.
Qed.

Lemma settle_some r f m r' : is_Some (settle r f m !! r') ↔ is_Some (m !! r').
Proof.
  destruct (settle_lookup r f m r') as [->|(-> & Hm & ->)]; [done|]. rewrite Hm.
  split; intros _; eauto.
Qed.

(** What a handler other than an admission or a [finally] does to the shared
    tables: requests may go but keep their identity, futures may settle, queues
    may grow. *)
Record shrinks c c' : Prop := {
  sh_futures : c_futures c' = c_futures c;
  sh_queues : c_queues c' = c_queues c;
  sh_abort_tasks : c_abort_tasks c' = c_abort_tasks c;
  sh_next : heap_next c' = heap_next c;
  sh_heap : ∀ r, heap_futures c' !! r = heap_futures c !! r ∨
    (heap_futures c !! r = Some FutPending ∧
     ∃ o, heap_futures c' !! r = Some o ∧ fut_done o = true);
  sh_heap_queues : ∀ q, is_Some (heap_queues c' !! q) ↔ is_Some (heap_queues c !! q);
  sh_requests : ∀ rid info', c_requests c' !! rid = Some info' →
    ∃ info, c_requests c !! rid = Some info ∧ ri_id info' = ri_id info ∧
      ri_terminal_stages info' = ri_terminal_stages info ∧
      (ri_state info' ∉ [COMPLETED; ABORTED] ∨ ri_state info' = ri_state info);
  sh_gone : ∀ rid r, c_requests c' !! rid = None → is_Some (c_requests c !! rid) →
    c_futures c !! rid = Some r → is_Some (heap_futures c !! r) →
    heap_futures c' !! r ≠ Some FutPending;
  sh_partials : ∀ rid p, c_partials c' !! rid = Some p →
    ∃ info', c_requests c' !! rid = Some info' ∧
      (c_partials c !! rid = Some p ∨ partial_ok (ri_terminal_stages info') p);
}.

Lemma shrinks_inv c c' : coord_inv c → shrinks c c' → coord_inv c'.
Proof.
  intros [I1 I2 I3 I4 I5 I6 I7 I8 I9] [E1 E2 E3 E4 Hh Hq Hreq Hgone Hpart]. split.
  - intros r Hr. rewrite E4. apply I1. destruct (Hh r) as [<-|[-> _]]; [done|eauto].
  - intros q. rewrite E4, Hq. apply I2.
  - intros rid r. rewrite E1. intros Hr%I3. destruct (Hh r) as [->|(? & o & -> & _)]; eauto.
  - intros rid q. rewrite E2, Hq. apply I4.
  - rewrite E1. apply I5.
  - intros rid r. rewrite E1. intros Hr Hp.
    destruct (c_requests c' !! rid) eqn:Hreq'; [eauto|exfalso].
    assert (heap_futures c !! r = Some FutPending) as Hp0.
    { destruct (Hh r) as [<-|[? _]]; done. }
    pose proof (I6 _ _ Hr Hp0). by eapply Hgone; eauto.
  - intros rid info' (info & Hi & E & Et & Hst)%Hreq. rewrite E4, E, Et.
    destruct (I7 _ _ Hi) as (? & ? & Hs). split_and!; [done..|].
    destruct Hst as [?| ->]; done.
  - intros rid p (info' & Hi' & [Hp|Hok])%Hpart; [|eauto].
    exists info'. split; [done|]. destruct (I8 _ _ Hp) as (info & Hi & Hok).
    destruct (Hreq _ _ Hi') as (info0 & Hi0 & _ & -> & _). by simplify_eq.
  - intros n Hn Hn0. etrans; [|by apply I9]. apply inj_le. rewrite <-!size_dom.
    apply subseteq_size. intros rid. rewrite !elem_of_dom.
    intros [info' (info & ? & _)%Hreq]. eauto.
Qed.

Lemma shrinks_refl c : coord_inv c → shrinks c c.
Proof.
  intros I. split; try done; auto.
  - intros rid info' Hi. exists info'. auto.
  - intros rid r Hn [? Hs]. congruence.
  - intros rid p Hp. destruct (ci_partials c I _ _ Hp) as (info & Hi & _). eauto.
Qed.

Lemma settle_opt_heap (o : option nat) f m r :
  fut_done f = true →
  (match o with Some r0 => settle r0 f | None => λ m, m end) m !! r = m !! r ∨
  (m !! r = Some FutPending ∧
   ∃ v, (match o with Some r0 => settle r0 f | None => λ m, m end) m !! r = Some v ∧ fut_done v = true).
Proof.
  intros Hf. destruct o as [r0|]; [|auto].
  destruct (settle_lookup r0 f m r) as [?|(-> & ? & ?)]; eauto.
Qed.

Lemma settle_not_pending r f m : fut_done f = true → settle r f m !! r ≠ Some FutPending.
Proof.
  intros Hf. unfold settle. destruct (m !! r) as [[]|] eqn:Hr; rewrite ?lookup_insert_eq, ?Hr;
    try done. by intros [= ->].
Qed.

Lemma put_opt_some (o : option nat) ev (m : gmap nat (list event)) q :
  is_Some ((match o with Some q0 => alter (queue_put ev) q0 | None => λ m, m end) m !! q) ↔
  is_Some (m !! q).
Proof.
  destruct o as [q0|]; [|done]. rewrite lookup_alter. case_decide; [subst|done].
  apply fmap_is_Some.
Qed.

(** A handler that settles the future of [rid] and forgets [rid]. *)
Lemma finish_shrinks c rid f ev :
  coord_inv c → fut_done f = true →
  shrinks c (set_partials (delete rid) (set_requests (delete rid)
    (put_to_stream rid ev (settle_completion rid f c)))).
Proof.
  intros I Hf. split; simpl; try done.
  - intros r. by apply settle_opt_heap.
  - intros q. by apply put_opt_some.
  - intros rid' info' [Hne Hi]%lookup_delete_Some. exists info'. auto.
  - intros rid' r Hn [info Hi] Hr _.
    destruct (decide (rid' = rid)) as [->|Hne].
    + rewrite Hr. by apply settle_not_pending.
    + rewrite lookup_delete_ne in Hn by done. congruence.
  - intros rid' p [Hne Hp]%lookup_delete_Some.
    destruct (ci_partials c I _ _ Hp) as (info & Hi & _).
    exists info. rewrite lookup_delete_ne by done. auto.
Qed.

(** Changes to the attributes outside the tables above. *)
Lemma same_tables_shrinks c c' :
  coord_inv c →
  c_futures c' = c_futures c → c_queues c' = c_queues c → c_abort_tasks c' = c_abort_tasks c →
  heap_next c' = heap_next c → heap_futures c' = heap_futures c →
  (∀ q, is_Some (heap_queues c' !! q) ↔ is_Some (heap_queues c !! q)) →
  c_requests c' = c_requests c → c_partials c' = c_partials c → shrinks c c'.
Proof.
  intros I E1 E2 E3 E4 E5 E6 E7 E8. split; try done.
  - intros r. rewrite E5. auto.
  - intros rid info'. rewrite E7. intros Hi. exists info'. auto.
  - intros rid r. rewrite E7. intros Hn [? Hs]. congruence.
  - intros rid p. rewrite E7, E8. intros Hp.
    destruct (ci_partials c I _ _ Hp) as (info & Hi & _). eauto.
Qed.

Lemma forget_altered {A} (f : A → A) rid (m : gmap string A) : delete rid (alter f rid m) = delete rid m.
Proof. by rewrite delete_alter, decide_True. Qed.

(** Replacing the record of a tracked request, keeping what it waits for. *)
Lemma alter_shrinks c rid g :
  coord_inv c →
  (∀ i, ri_id (g i) = ri_id i ∧ ri_terminal_stages (g i) = ri_terminal_stages i ∧
        ri_state (g i) ∉ [COMPLETED; ABORTED]) →
  shrinks c (set_requests (alter g rid) c).
Proof.
  intros I Hg. split; simpl; try done; auto.
  - intros rid' info'. rewrite lookup_alter. case_decide as E; [subst rid'|intros Hi; exists info'; auto].
    intros (i & Hi & ->)%fmap_Some_1. exists i. split; [done|].
    destruct (Hg i) as (-> & -> & ?). auto.
  - intros rid' r. rewrite lookup_alter. case_decide; [|intros Hn [? ?]; congruence].
    intros Hn%fmap_None [? ?]. congruence.
  - intros rid' p Hp. destruct (ci_partials c I _ _ Hp) as (info & Hi & Hok).
    rewrite lookup_alter. case_decide; [|eauto]. subst. rewrite Hi. simpl. eauto.
Qed.

Lemma submit_finish_shrinks c rid : coord_inv c → shrinks c (submit_finish rid c).
Proof. intros I. apply alter_shrinks; [done|]. intros i. split_and!; [done..|]. simpl. set_solver. Qed.

Lemma handle_completion_fail_shrinks c m : coord_inv c → shrinks c (handle_completion_fail m c).
Proof.
  intros I. unfold handle_completion_fail, _reject_completion_future.
  apply (finish_shrinks c (cm_request_id m)); [done|]. by case_bool_decide.
Qed.

Lemma run_abort_finish_shrinks c rid : coord_inv c → shrinks c (run_abort_finish rid c).1.
Proof.
  intros I. unfold run_abort_finish. destruct (c_requests c !! rid) eqn:Hr; [|by apply shrinks_refl].
  assert (∀ f ev, fut_done f = true → shrinks c (set_partials (delete rid) (set_requests (delete rid)
    (put_to_stream rid ev (settle_completion rid f (set_requests (alter (set_state ABORTED) rid) c))))))
    as Hfin.
  { intros f ev Hf. pose proof (finish_shrinks c rid f ev I Hf) as [A1 A2 A3 A4 A5 A6 A7 A8 A9].
    split; simpl in *; try done; rewrite ?forget_altered; done. }
  apply Hfin. simpl. by case_bool_decide.
Qed.

(** Partial results need at least two terminals. *)
Lemma no_partials c rid info :
  coord_inv c → c_requests c !! rid = Some info → size (ri_terminal_stages info) ≤ 1 →
  c_partials c !! rid = None.
Proof.
  intros I Hi Hs. destruct (c_partials c !! rid) as [p|] eqn:Hp; [exfalso|done].
  destruct (ci_partials c I _ _ Hp) as (info' & Hi' & Hnd & Hne & Hsub). simplify_eq.
  apply subset_size in Hsub. destruct p as [|[k v] p]; [done|].
  assert (size (list_to_set (C:=gset string) (od_keys ((k, v) :: p))) ≠ 0); [|lia].
  simpl. rewrite size_non_empty_iff. set_solver.
Qed.

Lemma handle_completion_shrinks c m : coord_inv c → shrinks c (handle_completion cfg m c).1.
Proof.
  intros I. unfold handle_completion. set (rid := cm_request_id m).
  destruct (c_requests c !! rid) as [info|] eqn:Hr; [|by apply shrinks_refl].
  set (from := logical_name (replica_topology cfg) (cm_from_stage m)).
  set (m' := if bool_decide (from ≠ cm_from_stage m) then with_from_stage from m else m).
  clearbody m' from. destruct (cm_success m') eqn:Hs; simpl.
  2: { apply alter_shrinks; [done|]. intros i. split_and!; [done..|]. simpl. set_solver. }
  unfold _expected_terminal_stages. rewrite Hr. set (E := ri_terminal_stages info).
  destruct (negb _ && negb _) eqn:Hin; [by apply shrinks_refl|].
  destruct (bool_decide (size E ≤ 1)) eqn:Hsize; bool_simpl; simpl.
  { pose proof (finish_shrinks c rid (FutResult (cm_result m')) (EvComplete m') I eq_refl)
      as [A1 A2 A3 A4 A5 A6 A7 A8 A9].
    assert (delete rid (c_partials c) = c_partials c) as Ep by (by apply delete_id; eapply no_partials).
    simpl in A9. rewrite Ep in A9. split; simpl in *; try done; rewrite ?forget_altered; done. }
  set (partials := od_set from (cm_result m') (default [] (c_partials c !! rid))).
  destruct (bool_decide (_ ⊂ E)) eqn:Hlt; bool_simpl; simpl.
  - split; simpl; try done; auto.
    + intros q. by apply put_opt_some.
    + intros rid' info' Hi. exists info'. auto.
    + intros rid' r Hn [? Hs']. congruence.
    + intros rid' p. rewrite lookup_insert. destruct (decide (rid = rid')) as [<-|].
      * intros [= <-]. exists info. split; [done|]. right.
        split_and!; [| |done].
        -- apply od_set_NoDup. destruct (c_partials c !! rid) as [p|] eqn:Hp; [|constructor].
           by destruct (ci_partials c I _ _ Hp) as (? & _ & ? & _).
        -- apply od_set_not_nil.
      * intros Hp. destruct (ci_partials c I _ _ Hp) as (info' & Hi' & _). eauto.
  - pose proof (finish_shrinks c rid (FutResult (PDict partials)) (EvComplete m') I eq_refl)
      as [A1 A2 A3 A4 A5 A6 A7 A8 A9].
    split; simpl in *; try done; rewrite ?forget_altered, ?delete_insert_eq; done.
Qed.

(** Failing the listed requests settles their futures and touches no other table. *)
Lemma fail_all_effect message l c :
  let c' := fold_left (fail_one message) l c in
  c_futures c' = c_futures c ∧ c_queues c' = c_queues c ∧ c_abort_tasks c' = c_abort_tasks c ∧
  heap_next c' = heap_next c ∧
  (∀ r, heap_futures c' !! r = heap_futures c !! r ∨
    (heap_futures c !! r = Some FutPending ∧
     ∃ o, heap_futures c' !! r = Some o ∧ fut_done o = true)) ∧
  (∀ q, is_Some (heap_queues c' !! q) ↔ is_Some (heap_queues c !! q)) ∧
  (∀ rid r, rid ∈ l.*1 → c_futures c !! rid = Some r → heap_futures c' !! r ≠ Some FutPending).
Proof.
  revert c. induction l as [|[rid info] l IH]; intros c; simpl.
  { split_and!; auto. set_solver. }
  destruct (IH (fail_one message c (rid, info))) as (E1 & E2 & E3 & E4 & Hh & Hq & Hp).
  rewrite E1, E2, E3, E4. clear E1 E2 E3 E4 IH. simpl in *.
  set (o := if bool_decide _ then FutCancelled else FutExc _) in *.
  assert (fut_done o = true) as Ho by (subst o; by case_bool_decide).
  split_and!; try done.
  - intros r. destruct (settle_opt_heap (c_futures c !! rid) o (heap_futures c) r Ho) as [E|(E & v & E' & Hv)].
    + destruct (Hh r) as [-> |[E1 ?]]; [auto|]. right. by rewrite <-E.
    + right. split; [done|]. destruct (Hh r) as [-> |[E1 _]]; [eauto|]. rewrite E' in E1. by simplify_eq.
  - intros q. rewrite Hq. apply put_opt_some.
  - intros rid' r [->|Hin]%elem_of_cons Hr; [|by eapply Hp].
    simpl in Hr. destruct (Hh r) as [-> |(E & v & -> & Hv)]; [|by intros [= ->]].
    rewrite Hr. by apply settle_not_pending.
Qed.

Lemma fail_pending_shrinks c message : coord_inv c → shrinks c (fail_pending_requests message c).
Proof.
  intros I. unfold fail_pending_requests.
  pose proof (fail_all_effect message (map_to_list (c_requests c)) (set_running false (Some message) c))
    as (E1 & E2 & E3 & E4 & Hh & Hq & Hp).
  split; simpl; try done.
  intros rid r _ [info Hi] Hr _. apply (Hp rid); [|done].
  apply list_elem_of_fmap. exists (rid, info). split; [done|]. by apply elem_of_map_to_list.
Qed.

Lemma handle_stream_shrinks c m : coord_inv c → shrinks c (_handle_stream cfg m c).
Proof.
  intros I. unfold _handle_stream. destruct (c_queues c !! sm_request_id m); [|by apply shrinks_refl].
  apply same_tables_shrinks; try done. intros q. simpl. apply put_opt_some.
Qed.

Lemma handle_admin_shrinks c (ar : AdminResult) : coord_inv c → shrinks c (_handle_admin_result ar c).
Proof.
  intros I. unfold _handle_admin_result. destruct (c_admin_ops c !! _); [|by apply shrinks_refl].
  by apply same_tables_shrinks.
Qed.

(** *** Admission *)
Lemma submit_begin_ok c rid arg sq c' (sent : string * string * SubmitMessage) :
  submit_begin cfg rid arg sq c = (c', Ok sent) →
  c_fatal_error c = None ∧ _request_id_is_reserved rid c = false ∧
  (∀ n, max_in_flight cfg = Some n → (Z.of_nat (size (c_requests c)) < n)%Z) ∧
  ∃ pol terminals, _resolve_terminal_stages cfg (to_omni_request arg) = Ok terminals ∧
    c' = mkCoordinator (c_stages c)
      (<[rid := mkInfo (heap_next c) PENDING (entry_stage cfg) terminals PNone None]> (c_requests c))
      (<[rid := 1 + heap_next c]> (c_futures c))
      (match sq with Some q => <[rid := q]> (c_queues c) | None => c_queues c end)
      (c_partials c) (c_abort_tasks c) (c_admin_ops c) (c_running c) (c_fatal_error c) pol
      (<[1 + heap_next c := FutPending]> (heap_futures c)) (heap_queues c) (2 + heap_next c).
Proof.
  unfold submit_begin. intros Hs.
  destruct (c_fatal_error c) eqn:Hfe; [done|].
  destruct (_request_id_is_reserved rid c) eqn:Hres; [done|].
  destruct (match max_in_flight cfg with Some n => _ | None => false end) eqn:Hcap; [done|].
  destruct (assign_replica_bindings _ _ _) as [[b s]|]; [|done]. simpl in Hs.
  destruct (if is_replicated _ _ then _ else _) as [entry|]; [|done].
  destruct (od_get entry _); [|done].
  destruct (_resolve_terminal_stages _ _) as [terminals|] eqn:Ht; [|done].
  injection Hs as <- <-. split_and!; [done..| |].
  - intros n Hn. rewrite Hn in Hcap. bool_simpl. lia.
  - exists s, terminals. split; [done|]. rewrite <-Hfe. by destruct sq.
Qed.

Lemma submit_begin_raise c rid arg sq c' e :
  submit_begin cfg rid arg sq c = (c', Raise e) → ∃ s, c' = set_policy s c.
Proof.
  unfold submit_begin. intros Hs. assert (c = set_policy (c_policy c) c) as Hc by (by destruct c).
  repeat (case_match; simplify_eq/=); eauto.
Qed.

Lemma reserved_false c rid :
  _request_id_is_reserved rid c = false ↔
  c_requests c !! rid = None ∧ c_futures c !! rid = None ∧ c_queues c !! rid = None ∧
  c_abort_tasks c !! rid = None.
Proof.
  unfold _request_id_is_reserved. rewrite !orb_false_iff, !bool_decide_eq_false, <-!eq_None_not_Some.
  tauto.
Qed.

Lemma resolve_terminals_static req terminals :
  _resolve_terminal_stages cfg req = Ok terminals → terminals ⊆ static_terminals cfg.
Proof.
  unfold _resolve_terminal_stages. destruct (terminal_stages_resolver cfg) as [f|]; [|by intros [= ->]].
  destruct (f req) as [[|l|]|]; simpl; try done; [by intros [= ->]|].
  destruct (mapM _ _) as [names|]; [|done]. unfold raise_if.
  destruct (bool_decide (list_to_set names = ∅)); [done|]. simpl.
  destruct (bool_decide (list_to_set names ⊆ static_terminals cfg)) eqn:E; [|done]. simpl.
  intros [= <-]. by bool_simpl.
Qed.

Lemma submit_begin_inv c rid arg sq c' (sent : string * string * SubmitMessage) :
  coord_inv c → (∀ q, sq = Some q → is_Some (heap_queues c !! q)) →
  submit_begin cfg rid arg sq c = (c', Ok sent) → coord_inv c'.
Proof.
  intros [I1 I2 I3 I4 I5 I6 I7 I8 I9] Hq (_ & (Hr & Hf & Hqn & _)%reserved_false & Hcap & pol & ts & Hts & ->)%submit_begin_ok.
  split; simpl.
  - intros r0. rewrite lookup_insert. case_decide; [lia|]. intros ?%I1. lia.
  - intros q ?%I2. lia.
  - intros rid' r0. rewrite lookup_insert. case_decide.
    + intros [= <-]. rewrite lookup_insert_eq. eauto.
    + intros Hr0. pose proof (I3 _ _ Hr0) as Hs. pose proof (I1 _ Hs). rewrite lookup_insert_ne by lia. done.
  - intros rid' q. destruct sq as [q0|]; [|apply I4]. rewrite lookup_insert. case_decide; [|apply I4].
    intros [= <-]. by apply Hq.
  - intros rid1 rid2 r0. rewrite !lookup_insert. repeat case_decide; simplify_eq; try done.
    + intros [= <-] ?%I3%I1. lia.
    + intros ?%I3%I1 [= <-]. lia.
    + apply I5.
  - intros rid' r0. rewrite !lookup_insert. repeat case_decide; simplify_eq; try by eauto.
    intros ?%I3%I1. lia.
  - intros rid' info. rewrite lookup_insert. case_decide.
    + intros [= <-]. simpl. split_and!; [lia|by eapply resolve_terminals_static|set_solver].
    + intros Hi. destruct (I7 _ _ Hi) as (? & ? & ?). split_and!; [lia|done..].
  - intros rid' p Hp. destruct (I8 _ _ Hp) as (info & Hi & ?). exists info.
    rewrite lookup_insert_ne; [done|]. congruence.
  - intros n Hn H0. rewrite map_size_insert_None by done. specialize (Hcap n Hn). lia.
Qed.
End invariant.

(** ** The invariant of the event loop *)
Section system.
Context {S : Type} `{BindingPolicy S}.
Variable cfg : CoordinatorConfig.
Abbreviation coord := (Coordinator (S:=S)).
Abbreviation system := (sys (S:=S)).
Implicit Types (c : coord) (s : system) (rid : string) (i q t f : nat).

Definition client_rid (cl : client) : string :=
  match cl with
  | SubmitSending rid _ | SubmitWaiting rid _ | StreamSending rid _
  | StreamReading rid _ _ _ | StreamAborting rid _ _ => rid
  end.

(** A [submit] call owns the future registered under its id, a [stream] call the
    queue. *)
Definition client_ok c (cl : client) : Prop :=
  match cl with
  | SubmitSending rid f | SubmitWaiting rid f => c_futures c !! rid = Some f ∧ c_queues c !! rid = None
  | StreamSending rid q | StreamReading rid q _ _ | StreamAborting rid q _ =>
      c_queues c !! rid = Some q ∧ is_Some (c_futures c !! rid)
  end.

Definition reads_queue (cl : client) (rid : string) (q : nat) : Prop :=
  match cl with
  | StreamSending rid' q' | StreamReading rid' q' _ _ | StreamAborting rid' q' _ => rid' = rid ∧ q' = q
  | _ => False
  end.

Record sys_inv s : Prop := {
  si_co : coord_inv cfg (s_co s);
  si_rid_inj : ∀ i j a b, s_clients s !! i = Some a → s_clients s !! j = Some b →
    client_rid a = client_rid b → i = j;
  si_clients : ∀ i cl, s_clients s !! i = Some cl → client_ok (s_co s) cl;
  si_queue_owner : ∀ rid q, c_queues (s_co s) !! rid = Some q →
    ∃ i cl, s_clients s !! i = Some cl ∧ reads_queue cl rid q;
  si_task_of : ∀ rid t, c_abort_tasks (s_co s) !! rid = Some t →
    t < heap_next (s_co s) ∧
    ((∃ a, s_aborts s !! t = Some a ∧ as_rid a = rid) ∨ s_callbacks s !! t = Some rid);
  si_abort_registered : ∀ t a, s_aborts s !! t = Some a → c_abort_tasks (s_co s) !! as_rid a = Some t;
  si_callback_registered : ∀ t rid, s_callbacks s !! t = Some rid → c_abort_tasks (s_co s) !! rid = Some t;
  si_abort_running : ∀ t a, s_aborts s !! t = Some a → s_callbacks s !! t = None;
  si_abort_target : ∀ t a info, s_aborts s !! t = Some a →
    c_requests (s_co s) !! as_rid a = Some info → ri_id info = as_target a;
}.

(** A change that may drop registrations but leaves requests and futures alone. *)
Lemma tables_inv c c' :
  coord_inv cfg c →
  heap_next c ≤ heap_next c' → heap_futures c' = heap_futures c →
  (∀ q, is_Some (heap_queues c !! q) → is_Some (heap_queues c' !! q)) →
  (∀ q, is_Some (heap_queues c' !! q) → q < heap_next c') →
  c_futures c' ⊆ c_futures c → c_queues c' ⊆ c_queues c →
  c_requests c' = c_requests c → c_partials c' = c_partials c → coord_inv cfg c'.
Proof.
  intros [I1 I2 I3 I4 I5 I6 I7 I8 I9] Hn Ef Hq Hb Hf Hqs Er Ep. split; rewrite ?Ef, ?Er, ?Ep; try done.
  - intros r Hr%I1. lia.
  - intros rid r Hr. apply (I3 rid). by eapply lookup_weaken.
  - intros rid q Hr. apply Hq, (I4 rid). by eapply lookup_weaken.
  - intros rid rid' r H1 H2. eapply I5; by eapply lookup_weaken.
  - intros rid r Hr. apply (I6 rid). by eapply lookup_weaken.
  - intros rid info Hi. destruct (I7 _ _ Hi) as (? & ? & ?). split_and!; [lia|done..].
Qed.

Lemma with_co_inv s c' lp :
  sys_inv s → shrinks (s_co s) c' → sys_inv (mkSys c' (s_clients s) lp (s_aborts s) (s_callbacks s)).
Proof.
  intros [I J1 J2 J3 J4 J5 J6 J7 J8] Hsh. pose proof Hsh as [E1 E2 E3 E4 _ _ Hr _ _].
  split; simpl; rewrite ?E1, ?E2, ?E3, ?E4; try done.
  - by eapply shrinks_inv.
  - intros i cl Hcl%J2. destruct cl; simpl in *; by rewrite E1, E2.
  - intros t a info' Ha (info & Hi & -> & _)%Hr. eauto.
Qed.

Lemma client_update_inv s i cl cl' :
  sys_inv s → s_clients s !! i = Some cl → client_rid cl' = client_rid cl →
  client_ok (s_co s) cl' → (∀ rid q, reads_queue cl rid q → reads_queue cl' rid q) →
  sys_inv (with_client i cl' (s_co s) s).
Proof.
  intros [I J1 J2 J3 J4 J5 J6 J7 J8] Hcl Hrid Hok Hrq. split; simpl; try done.
  - intros j k a b. rewrite !lookup_insert. repeat case_decide; simplify_eq; try done.
    + intros [= <-] Hb He. rewrite Hrid in He. by eapply J1.
    + intros Ha [= <-] He. rewrite Hrid in He. by eapply J1.
    + apply J1.
  - intros j a. rewrite lookup_insert. case_decide; [by intros [= <-]|apply J2].
  - intros rid q (j & a & Hj & Ha)%J3. destruct (decide (i = j)) as [<-|Hne].
    + exists i, cl'. rewrite lookup_insert_eq. split; [done|]. simplify_eq. auto.
    + exists j, a. by rewrite lookup_insert_ne.
Qed.

(** A call leaves, dropping exactly its own registrations. *)
Lemma drop_client_inv s i cl ff c' :
  sys_inv s → s_clients s !! i = Some cl →
  c' = set_heap ff (λ m, m) (s_co s) →
  coord_inv cfg c' →
  ∀ c'', (c'' = submit_final (client_rid cl) c' ∧ c_queues c' !! client_rid cl = None) ∨
         (c'' = set_futures (delete (client_rid cl)) (set_queues (delete (client_rid cl)) c')) ∨
         (c'' = c' ∧ c_queues c' !! client_rid cl = None) →
  sys_inv (drop_client i c'' s).
Proof.
  intros [I J1 J2 J3 J4 J5 J6 J7 J8] Hcl -> Hinv c'' Hc''. set (rid := client_rid cl) in *.
  assert (∀ j b, delete i (s_clients s) !! j = Some b → s_clients s !! j = Some b ∧ client_rid b ≠ rid) as Hother.
  { intros j b [Hne Hb]%lookup_delete_Some. split; [done|]. intros He. apply Hne. by eapply J1. }
  assert (coord_inv cfg c'' ∧ c_requests c'' = c_requests (s_co s) ∧
    c_abort_tasks c'' = c_abort_tasks (s_co s) ∧ heap_next c'' = heap_next (s_co s) ∧
    (∀ rid', rid' ≠ rid → c_futures c'' !! rid' = c_futures (s_co s) !! rid' ∧
                          c_queues c'' !! rid' = c_queues (s_co s) !! rid') ∧
    c_queues c'' !! rid = None) as (Hinv' & Er & Ea & En & Ho & Hnone).
  { destruct Hc'' as [[-> Hq]|[-> |[-> Hq]]]; simpl in *.
    - split_and!; try done; [|by intros; rewrite lookup_delete_ne].
      eapply tables_inv; simpl; try done; [apply Hinv|apply delete_subseteq].
    - split_and!; try done; [|by intros; rewrite !lookup_delete_ne|by rewrite lookup_delete_eq].
      eapply tables_inv; simpl; try done; [apply Hinv|apply delete_subseteq|apply delete_subseteq].
    - by split_and!. }
  split; simpl; rewrite ?Er, ?Ea, ?En; try done.
  - intros j k a b [Ha _]%Hother [Hb _]%Hother. by apply J1.
  - intros j a [Ha Hne]%Hother. specialize (J2 _ _ Ha). destruct a; simpl in *;
      destruct (Ho _ Hne) as [-> ->]; done.
  - intros rid' q Hq. destruct (decide (rid' = rid)) as [->|Hne]; [congruence|].
    destruct (Ho _ Hne) as [_ E]. rewrite E in Hq. destruct (J3 _ _ Hq) as (j & a & Hj & Ha).
    exists j, a. split; [|done]. rewrite lookup_delete_ne; [done|]. intros <-. simplify_eq.
    apply Hne. subst rid. destruct cl; simpl in *; naive_solver.
Qed.

Lemma abort_begin_cases rid c c' reply :
  abort_begin rid c = (c', reply) →
  (c' = c ∧ (∀ t, reply = AbortAwait t → c_abort_tasks c !! rid = Some t)) ∨
  (∃ info, c_abort_tasks c !! rid = None ∧ c_requests c !! rid = Some info ∧
    (ri_state info ∉ [COMPLETED; FAILED; ABORTED]) ∧
    c' = set_abort_tasks (insert rid (heap_next c)) (bump 1 c) ∧ reply = AbortAwait (heap_next c)).
Proof.
  unfold abort_begin. destruct (c_abort_tasks c !! rid) eqn:Ht; [naive_solver|].
  destruct (c_requests c !! rid) as [info|] eqn:Hr; [|naive_solver].
  case_bool_decide; [naive_solver|]. intros [= <- <-]. right. eauto 10.
Qed.

Lemma abort_begin_inv s rid c' reply :
  sys_inv s → abort_begin rid (s_co s) = (c', reply) →
  sys_inv (mkSys c' (s_clients s) (s_loop s) (spawn_abort rid (s_co s) c' (s_aborts s)) (s_callbacks s)).
Proof.
  intros [I J1 J2 J3 J4 J5 J6 J7 J8] [[-> _]|(info & Hn & Hi & _ & -> & ->)]%abort_begin_cases.
  { assert (spawn_abort rid (s_co s) (s_co s) (s_aborts s) = s_aborts s) as ->.
    { unfold spawn_abort. by destruct (c_abort_tasks _ !! _). }
    by split. }
  unfold spawn_abort. simpl. rewrite Hn, lookup_insert_eq, Hi. set (t0 := heap_next (s_co s)).
  assert (∀ t rid, c_abort_tasks (s_co s) !! rid = Some t → t ≠ t0) as Hfresh.
  { intros t rid' [Hlt _]%J4. subst t0. lia. }
  split; simpl; try done.
  - eapply tables_inv; simpl; try done; [lia|]. intros q Hq%(ci_heap_queues _ _ I). lia.
  - intros rid' t. rewrite lookup_insert. case_decide as E.
    + intros [= <-]. split; [subst t0; lia|]. left. exists (mkAbort rid (ri_id info)).
      by rewrite lookup_insert_eq.
    + intros Ht. destruct (J4 _ _ Ht) as [Hlt Hor]. split; [subst t0; lia|].
      destruct Hor as [(a & Ha & <-)|Hc]; [left|by right]. exists a.
      rewrite lookup_insert_ne; [done|]. apply not_eq_sym. by eapply Hfresh.
  - intros t a. rewrite lookup_insert. case_decide as E.
    + intros [= <-]. simpl. subst. by rewrite lookup_insert_eq.
    + intros Ha%J5. rewrite lookup_insert_ne; [done|]. congruence.
  - intros t rid' Hc%J6. rewrite lookup_insert_ne; [done|]. congruence.
  - intros t a. rewrite lookup_insert. case_decide as E; [|apply J7]. intros _. subst.
    destruct (s_callbacks s !! t0) eqn:Hc; [|done]. by apply J6, Hfresh in Hc.
  - intros t a info'. rewrite lookup_insert. case_decide; [|apply J8].
    intros [= <-]. simpl. by intros; simplify_eq.
Qed.

(** Changes outside the tables of the invariant. *)
Lemma retable_inv s c' :
  sys_inv s → heap_next (s_co s) ≤ heap_next c' → heap_futures c' = heap_futures (s_co s) →
  (∀ q, is_Some (heap_queues (s_co s) !! q) → is_Some (heap_queues c' !! q)) →
  (∀ q, is_Some (heap_queues c' !! q) → q < heap_next c') →
  c_futures c' = c_futures (s_co s) → c_queues c' = c_queues (s_co s) →
  c_abort_tasks c' = c_abort_tasks (s_co s) →
  c_requests c' = c_requests (s_co s) → c_partials c' = c_partials (s_co s) →
  sys_inv (with_co c' s).
Proof.
  intros [I J1 J2 J3 J4 J5 J6 J7 J8] Hn E1 Hq Hb E2 E3 E4 E5 E6.
  split; simpl; rewrite ?E3, ?E4, ?E5; try done.
  - eapply (tables_inv (s_co s)); rewrite ?E2, ?E3; done.
  - intros i cl Hcl%J2. destruct cl; simpl in *; by rewrite E2, E3.
  - intros rid t Ht. destruct (J4 _ _ Ht). split; [lia|done].
Qed.

Lemma set_heap_same c : set_heap (λ m, m) (λ m, m) c = c.
Proof. by destruct c. Qed.

Lemma stream_pop_inv s i cl rid q :
  sys_inv s → s_clients s !! i = Some cl → reads_queue cl rid q →
  sys_inv (drop_client i (stream_final_end rid q (s_co s)) s).
Proof.
  intros I Hcl Hrq. pose proof (si_clients s I _ _ Hcl) as Hok.
  assert (client_rid cl = rid ∧ c_queues (s_co s) !! rid = Some q) as (Hrid & Hq)
    by (destruct cl; simpl in *; naive_solver).
  eapply (drop_client_inv s i cl (λ m, m)); [done|done|reflexivity| |].
  - rewrite set_heap_same. apply I.
  - right. left. unfold stream_final_end. by rewrite set_heap_same, bool_decide_true, Hrid.
Qed.

Lemma leave_stream_inv s i cl rid q :
  sys_inv s → s_clients s !! i = Some cl → reads_queue cl rid q → sys_inv (leave_stream i rid q s).
Proof.
  intros I Hcl Hrq. pose proof (si_clients s I _ _ Hcl) as Hok.
  assert (client_rid cl = rid ∧ c_queues (s_co s) !! rid = Some q ∧ is_Some (c_futures (s_co s) !! rid))
    as (Hrid & Hq & Hf) by (destruct cl; simpl in *; naive_solver).
  pose proof (stream_pop_inv s i cl rid q I Hcl Hrq) as Hpop.
  unfold leave_stream, stream_final_begin. rewrite bool_decide_true by done.
  destruct (c_requests (s_co s) !! rid) as [info|] eqn:Hr.
  2: { replace (spawn_abort rid (s_co s) (s_co s) (s_aborts s)) with (s_aborts s); [done|].
       unfold spawn_abort. by destruct (c_abort_tasks _ !! _). }
  destruct (abort_begin rid (s_co s)) as [c' reply] eqn:Hab.
  pose proof (abort_begin_inv s rid c' reply I Hab) as Hab'.
  destruct reply as [b|t].
  - apply abort_begin_cases in Hab as [[-> _]|(? & _ & _ & _ & _ & [=])].
    replace (spawn_abort rid (s_co s) (s_co s) (s_aborts s)) with (s_aborts s); [done|].
    unfold spawn_abort. by destruct (c_abort_tasks _ !! _).
  - eapply (client_update_inv _ i cl (StreamAborting rid q t)) in Hab'; [done|done|done| |].
    + simpl. pose proof (si_clients _ Hab' _ _ Hcl) as Hok'. simpl in Hok'.
      destruct cl; simpl in *; naive_solver.
    + intros rid' q' Hrq'. destruct cl; simpl in *; naive_solver.
Qed.

(** An admitted call registers its own future, and its queue if it streams. *)
Lemma admit_inv s i rid arg sq c' sent cl :
  sys_inv s → s_clients s !! i = None → (∀ q, sq = Some q → is_Some (heap_queues (s_co s) !! q)) →
  submit_begin cfg rid arg sq (s_co s) = (c', Ok sent) →
  client_rid cl = rid →
  match sq with
  | None => cl = SubmitSending rid (1 + heap_next (s_co s))
  | Some q => cl = StreamSending rid q
  end →
  sys_inv (with_client i cl c' s).
Proof.
  intros Hinv Hi Hsq Hsub Hrid Hcl. pose proof Hinv as [I J1 J2 J3 J4 J5 J6 J7 J8].
  pose proof (submit_begin_inv cfg _ _ _ _ _ _ I Hsq Hsub) as I'.
  apply submit_begin_ok in Hsub as (_ & (Hr & Hf & Hq & Ht)%reserved_false & _ & pol & ts & _ & ->).
  assert (∀ j a, s_clients s !! j = Some a → client_rid a ≠ rid) as Hlive.
  { intros j a Ha He. specialize (J2 _ _ Ha). destruct a; simpl in *; subst; naive_solver. }
  split; simpl; try done.
  - intros j k a b. rewrite !lookup_insert. repeat case_decide; simplify_eq; try done.
    + intros [= <-] Hb He. by apply Hlive in Hb.
    + intros Ha [= <-] He. by apply Hlive in Ha.
    + apply J1.
  - intros j a. rewrite lookup_insert. case_decide as E.
    + intros [= <-]. destruct sq as [q|]; rewrite Hcl; simpl; rewrite !lookup_insert_eq; eauto.
    + intros Ha. pose proof (Hlive _ _ Ha) as Hne. specialize (J2 _ _ Ha).
      destruct a, sq; simpl in *; rewrite !lookup_insert_ne by done; done.
  - intros rid' q Hq'. assert (rid' = rid ∧ sq = Some q ∨ c_queues (s_co s) !! rid' = Some q) as [[-> ->]|Ho].
    { destruct sq; [|by right]. rewrite lookup_insert in Hq'. case_decide; naive_solver. }
    + exists i, cl. rewrite lookup_insert_eq, Hcl. done.
    + destruct (J3 _ _ Ho) as (j & a & Hj & Ha). exists j, a. rewrite lookup_insert_ne; [done|].
      congruence.
  - intros rid' t Ht'%J4. destruct Ht'. split; [lia|done].
  - intros t a info Ha. rewrite lookup_insert. case_decide; [|by eapply J8].
    apply J5 in Ha. congruence.
Qed.

Lemma run_abort_inv s t a c :
  sys_inv s → s_aborts s !! t = Some a → shrinks (s_co s) c →
  sys_inv (mkSys c (s_clients s) (s_loop s) (delete t (s_aborts s)) (<[t := as_rid a]> (s_callbacks s))).
Proof.
  intros Hinv Ha Hsh. pose proof (with_co_inv s c (s_loop s) Hinv Hsh) as [I J1 J2 J3 J4 J5 J6 J7 J8].
  simpl in *. split; simpl; try done.
  - intros rid t' Ht. destruct (J4 _ _ Ht) as [Hlt Hor]. split; [done|].
    rewrite lookup_insert. case_decide as E.
    + subst t'. right. f_equal. destruct Hor as [(a' & Ha' & <-)|Hc]; [by simplify_eq|].
      by rewrite (J7 _ _ Ha) in Hc.
    + destruct Hor as [(a' & Ha' & <-)|Hc]; [left; exists a'|by right]. by rewrite lookup_delete_ne.
  - intros t' a' [_ Ha']%lookup_delete_Some. eauto.
  - intros t' rid. rewrite lookup_insert. case_decide; [|apply J6]. intros [= <-]. subst. eauto.
  - intros t' a' [Hne Ha']%lookup_delete_Some. rewrite lookup_insert_ne by done. eauto.
  - intros t' a' info [_ Ha']%lookup_delete_Some. eauto.
Qed.

Lemma abort_callback_inv s t rid :
  sys_inv s → s_callbacks s !! t = Some rid →
  sys_inv (mkSys (_on_abort_task_done rid t (s_co s)) (s_clients s) (s_loop s) (s_aborts s)
             (delete t (s_callbacks s))).
Proof.
  intros [I J1 J2 J3 J4 J5 J6 J7 J8] Hc. unfold _on_abort_task_done.
  rewrite bool_decide_true by auto. split; simpl; try done.
  - by eapply (tables_inv (s_co s)); try apply I.
  - intros rid' t' [Hne Ht']%lookup_delete_Some. destruct (J4 _ _ Ht') as [Hlt Hor]. split; [done|].
    rewrite lookup_delete_ne; [done|]. intros <-. apply Hne. destruct Hor as [(a & Ha & <-)|Hc'].
    + by rewrite (J7 _ _ Ha) in Hc.
    + congruence.
  - intros t' a Ha. rewrite lookup_delete_ne; [by apply J5|]. intros ->.
    pose proof (J5 _ _ Ha) as E1. pose proof (J6 _ _ Hc) as E2. rewrite E1 in E2. simplify_eq.
    by rewrite (J7 _ _ Ha) in Hc.
  - intros t' rid' [Hne Hc']%lookup_delete_Some. rewrite lookup_delete_ne; [by apply J6|].
    intros ->. apply J6 in Hc, Hc'. congruence.
  - intros t' a Ha. rewrite lookup_delete_None. right. by eapply J7.
Qed.

Lemma alloc_queue_inv s :
  sys_inv s →
  sys_inv (with_co (bump 1 (set_heap (λ m, m) (insert (heap_next (s_co s)) []) (s_co s))) s).
Proof.
  intros I. pose proof (si_co s I) as Ic. apply (retable_inv s); try done; simpl.
  - lia.
  - intros q Hq. rewrite lookup_insert. case_decide; eauto.
  - intros q. rewrite lookup_insert. case_decide; [lia|]. intros ?%(ci_heap_queues _ _ Ic). lia.
Qed.

Lemma read_queue_inv s q rest :
  sys_inv s → is_Some (heap_queues (s_co s) !! q) →
  sys_inv (with_co (set_heap (λ m, m) (insert q rest) (s_co s)) s).
Proof.
  intros I Hq. pose proof (si_co s I) as Ic.
  assert (∀ q', is_Some (<[q:=rest]> (heap_queues (s_co s)) !! q') ↔ is_Some (heap_queues (s_co s) !! q')) as E.
  { intros q'. rewrite lookup_insert. case_decide; naive_solver. }
  apply (retable_inv s); try done; simpl; intros q' Hq'; [by apply E|].
  apply (ci_heap_queues _ _ Ic). by apply E.
Qed.

Lemma settle_shrinks c f o :
  coord_inv cfg c → fut_done o = true → shrinks c (set_heap (settle f o) (λ m, m) c).
Proof.
  intros I Ho. split; simpl; try done; auto.
  - intros r. by apply (settle_opt_heap (Some f)).
  - intros rid info' Hi. exists info'. auto.
  - intros rid r Hn [? Hs]. congruence.
  - intros rid p Hp. destruct (ci_partials _ _ I _ _ Hp) as (info & Hi & _). eauto.
Qed.

(** A call rejected before it registered leaves nothing behind. *)
Lemma leave_rejected s i rid q :
  s_clients s !! i = None → c_queues (s_co s) !! rid ≠ Some q → leave_stream i rid q s = s.
Proof.
  intros Hi Hq. unfold leave_stream, stream_final_begin. rewrite bool_decide_false by done.
  rewrite delete_id by done. by destruct s.
Qed.

Lemma step_inv s s' : sys_inv s → step cfg s s' → sys_inv s'.
Proof.
  intros Hinv Hstep. pose proof (si_co s Hinv) as Ic. destruct Hstep.
  - by eapply with_co_inv, same_tables_shrinks.
  - by eapply with_co_inv, same_tables_shrinks.
  - by eapply with_co_inv, same_tables_shrinks.
  - by eapply (admit_inv s i rid arg None).
  - match goal with Hs : submit_begin _ _ _ _ _ = _ |- _ => apply submit_begin_raise in Hs as [pol ->] end.
    by eapply with_co_inv, same_tables_shrinks.
  - (* submit sent *)
    pose proof (with_co_inv s _ (s_loop s) Hinv (submit_finish_shrinks cfg _ rid Ic)) as I'.
    match goal with Hcl : s_clients s !! i = _ |- _ => pose proof (si_clients _ I' _ _ Hcl) as [Hf Hq] end.
    simpl in Hf, Hq. simpl. rewrite Hf. by eapply (client_update_inv _ i) in I'.
  - (* submit not sent *)
    eapply (drop_client_inv s i _ (λ m, m)); [done|done|reflexivity| |].
    + by rewrite set_heap_same.
    + right. right. rewrite set_heap_same. split; [done|].
      match goal with Hcl : s_clients s !! i = _ |- _ => by apply (si_clients _ Hinv) in Hcl as [_ ?] end.
  - (* submit done *)
    eapply (drop_client_inv s i _ (λ m, m)); [done|done|reflexivity| |].
    + by rewrite set_heap_same.
    + left. rewrite set_heap_same. split; [done|].
      match goal with Hcl : s_clients s !! i = _ |- _ => by apply (si_clients _ Hinv) in Hcl as [_ ?] end.
  - (* submit cancelled *)
    eapply (drop_client_inv s i _ (settle f FutCancelled)); [done|done|reflexivity| |].
    + by eapply shrinks_inv, settle_shrinks.
    + left. split; [done|].
      match goal with Hcl : s_clients s !! i = _ |- _ => by apply (si_clients _ Hinv) in Hcl as [_ ?] end.
  - (* stream *)
    pose proof (alloc_queue_inv s Hinv) as I'.
    eapply (admit_inv _ i rid arg (Some q) _ _ _ I'); simpl; try done; intros ? [= <-]; rewrite lookup_insert_eq; eauto.
  - (* stream rejected *)
    pose proof (alloc_queue_inv s Hinv) as I'.
    match goal with Hs : submit_begin _ _ _ _ _ = _ |- _ => apply submit_begin_raise in Hs as [pol ->] end.
    rewrite leave_rejected; [|done|].
    + by eapply (with_co_inv (with_co _ s)), same_tables_shrinks; try apply I'.
    + simpl. intros Hq%(ci_queues _ _ Ic)%(ci_heap_queues _ _ Ic). subst q. lia.
  - (* stream sent *)
    pose proof (with_co_inv s _ (s_loop s) Hinv (submit_finish_shrinks cfg _ rid Ic)) as I'.
    eapply (client_update_inv _ i) in I'; [done|done|done| |done].
    match goal with Hcl : s_clients s !! i = _ |- _ => by apply (si_clients _ I') in Hcl end.
  - by eapply leave_stream_inv.
  - (* stream read *)
    eapply (read_queue_inv _ q rest) in Hinv as I'; [|eauto].
    eapply (client_update_inv _ i) in I'; [done|done|done| |done].
    match goal with Hcl : s_clients s !! i = _ |- _ => by apply (si_clients _ I') in Hcl end.
  - (* stream end *)
    eapply (read_queue_inv _ q rest) in Hinv as I'; [|eauto].
    by eapply leave_stream_inv.
  - by eapply leave_stream_inv.
  - by eapply stream_pop_inv.
  - by eapply abort_begin_inv.
  - (* abort *)
    match goal with Hc : run_abort_finish _ _ = _ |- _ =>
      pose proof (run_abort_finish_shrinks cfg _ (as_rid a) Ic) as Hsh; rewrite Hc in Hsh end.
    by eapply run_abort_inv.
  - by eapply run_abort_inv, shrinks_refl.
  - by apply abort_callback_inv.
  - by eapply with_co_inv, handle_stream_shrinks.
  - by eapply with_co_inv, handle_admin_shrinks.
  - match goal with Hc : handle_completion _ _ _ = _ |- _ =>
      pose proof (handle_completion_shrinks cfg _ m Ic) as Hsh; rewrite Hc in Hsh end.
    by eapply with_co_inv.
  - by eapply with_co_inv, handle_completion_fail_shrinks.
  - by eapply with_co_inv, shrinks_refl.
  - by eapply with_co_inv, fail_pending_shrinks.
  - by eapply with_co_inv, same_tables_shrinks.
  - by eapply with_co_inv, same_tables_shrinks.
Qed.

Lemma init_inv pol : sys_inv (sys_init pol).
Proof. split; simpl; try done. split; simpl; try done; try lia; by intros ? [? ?]. Qed.

Lemma reachable_inv pol s : reachable cfg pol s → sys_inv s.
Proof.
  unfold reachable. intros Hr. remember (sys_init pol) as s0 eqn:E.
  assert (sys_inv s0) as H0 by (subst; apply init_inv). clear E.
  induction Hr; eauto using step_inv.
Qed.
End system.

(** ** Streams end *)
Section streams.
Context {S : Type} `{BindingPolicy S}.
Variable cfg : CoordinatorConfig.
Abbreviation coord := (Coordinator (S:=S)).
Abbreviation system := (sys (S:=S)).
Implicit Types (c : coord) (s : system) (rid : string) (i q : nat) (comp : gset string).
Abbreviation T := (static_terminals cfg).

(** Every completed stage of a queue's contents, as [stream] sees it. *)
Definition event_stage (ev : event) : gset string :=
  match ev with
  | EvComplete m => {[ logical_name (replica_topology cfg) (cm_from_stage m) ]}
  | EvStream _ => ∅
  end.
Definition event_stages (l : list event) : gset string := ⋃ (map event_stage l).

(** Reading [l] takes the loop out: an event raises or returns. *)
Fixpoint ends (E comp : gset string) (l : list event) : bool :=
  match l with
  | [] => false
  | ev :: l =>
      match stream_event cfg E comp ev with
      | StreamContinue comp => ends E comp l
      | _ => true
      end
  end.

Lemma ends_app E comp l l' : ends E comp l = true → ends E comp (l ++ l') = true.
Proof.
  revert comp. induction l as [|ev l IH]; intros comp; simpl; [done|].
  destruct (stream_event _ _ _ _); auto.
Qed.

Lemma stream_event_continue E comp ev comp' :
  stream_event cfg E comp ev = StreamContinue comp' →
  comp' = event_stage ev ∪ comp ∧ (event_stage ev = ∅ ∨ (E ≠ ∅ ∧ ¬ E ⊆ comp')).
Proof.
  destruct ev as [m|m]; simpl; [|intros [= <-]; set_solver].
  destruct (cm_success m); [|done]. simpl.
  destruct (bool_decide (E = ∅)) eqn:H1; [done|]. simpl. destruct (bool_decide (E ⊆ _)) eqn:H2; [done|].
  intros [= <-]. bool_simpl. auto.
Qed.

(** Stages read so far, then the whole queue: if they cover what the stream waits
    for, the loop has left. *)
Lemma ends_cover E comp l :
  ¬ E ⊆ comp → E ⊆ comp ∪ event_stages l → ends E comp l = true.
Proof.
  revert comp. induction l as [|ev l IH]; intros comp Hn Hc; simpl.
  { exfalso. apply Hn. unfold event_stages in Hc. simpl in Hc. set_solver. }
  destruct (stream_event cfg E comp ev) as [| |comp'] eqn:He; [done..|].
  apply stream_event_continue in He as [-> Hor].
  unfold event_stages in *. simpl in Hc. apply IH.
  - destruct Hor as [->|[_ ?]]; [|done]. by rewrite union_empty_l_L.
  - set_solver.
Qed.

Lemma event_stages_app l l' : event_stages (l ++ l') = event_stages l ∪ event_stages l'.
Proof. unfold event_stages. by rewrite map_app, union_list_app_L. Qed.

(** An event that always takes the loop out. *)
Lemma ends_snoc E comp l ev :
  (∀ comp, match stream_event cfg E comp ev with StreamContinue _ => False | _ => True end) →
  ends E comp (l ++ [ev]) = true.
Proof.
  intros Hev. revert comp. induction l as [|ev' l IH]; intros comp; simpl.
  - specialize (Hev comp). by destruct (stream_event cfg E comp ev).
  - destruct (stream_event cfg E comp ev'); auto.
Qed.

(** The queue will end the stream, or its request is still tracked and every
    partial result was forwarded. *)
Definition stream_ok c rid q comp : Prop :=
  ∃ l, heap_queues c !! q = Some l ∧
    (ends T comp l = true ∨
     (is_Some (c_requests c !! rid) ∧
      ∀ p, c_partials c !! rid = Some p →
        (list_to_set (od_keys p) : gset string) ⊆ comp ∪ event_stages l)).

Lemma stream_ok_mono c c' rid q comp :
  stream_ok c rid q comp →
  (∀ l, heap_queues c !! q = Some l → ∃ evs, heap_queues c' !! q = Some (l ++ evs)) →
  (is_Some (c_requests c !! rid) → is_Some (c_requests c' !! rid)) →
  (∀ p, c_partials c' !! rid = Some p → c_partials c !! rid = Some p) →
  stream_ok c' rid q comp.
Proof.
  intros (l & Hl & Hor) Hq Hr Hp. destruct (Hq l Hl) as (evs & Hl'). exists (l ++ evs). split; [done|].
  destruct Hor as [Hend|[Ht Hc]]; [left; by apply ends_app|right]. split; [by apply Hr|].
  intros p Hp'. rewrite event_stages_app. specialize (Hc p (Hp p Hp')). set_solver.
Qed.

(** An exit event lands in the queue. *)
Lemma stream_ok_end c c' rid q comp ev :
  is_Some (heap_queues c !! q) →
  (∀ l, heap_queues c !! q = Some l → heap_queues c' !! q = Some (l ++ [ev])) →
  (∀ comp, match stream_event cfg T comp ev with StreamContinue _ => False | _ => True end) →
  stream_ok c' rid q comp.
Proof.
  intros [l Hl] Hq Hev. exists (l ++ [ev]). split; [by apply Hq|]. left. by apply ends_snoc.
Qed.

Lemma put_some c rid0 rid q ev l :
  c_queues c !! rid = Some q → heap_queues c !! q = Some l →
  ∃ evs, (match c_queues c !! rid0 with Some q0 => alter (queue_put ev) q0 | None => λ m, m end)
           (heap_queues c) !! q = Some (l ++ evs) ∧ (rid0 = rid → evs = [ev]).
Proof.
  intros Hq Hl. destruct (decide (rid0 = rid)) as [->|Hne].
  - exists [ev]. rewrite Hq, lookup_alter, decide_True, Hl by done. done.
  - assert (∃ evs, (match c_queues c !! rid0 with Some q0 => alter (queue_put ev) q0 | None => λ m, m end)
           (heap_queues c) !! q = Some (l ++ evs)) as [evs He]; [|by exists evs].
    destruct (c_queues c !! rid0) as [q0|]; [|exists []; by rewrite app_nil_r].
    rewrite lookup_alter. case_decide; subst; rewrite Hl; simpl; [by exists [ev]|exists []; by rewrite app_nil_r].
Qed.

(** A handler that forgets [rid0] after forwarding an event that ends its stream. *)
Lemma finish_stream_ok c rid0 f ev rid q comp :
  c_queues c !! rid = Some q →
  stream_ok c rid q comp →
  (rid0 = rid → is_Some (c_requests c !! rid) → ∀ l, heap_queues c !! q = Some l →
     ends T comp (l ++ [ev]) = true) →
  stream_ok (set_partials (delete rid0) (set_requests (delete rid0)
    (put_to_stream rid0 ev (settle_completion rid0 f c)))) rid q comp.
Proof.
  intros Hq Hok Hend. destruct (decide (rid0 = rid)) as [->|Hne].
  - destruct Hok as (l & Hl & Hor). destruct (put_some c rid rid q ev l Hq Hl) as (evs & Hl' & Hevs).
    rewrite Hevs in Hl' by done. exists (l ++ [ev]). split; [done|]. left.
    destruct Hor as [?|[Ht _]]; [by apply ends_app|by apply Hend].
  - eapply stream_ok_mono; [done| | |]; simpl.
    + intros l Hl. destruct (put_some c rid0 rid q ev l Hq Hl) as (evs & ? & _). by exists evs.
    + by rewrite lookup_delete_ne.
    + intros p. by rewrite lookup_delete_ne.
Qed.

Lemma stream_event_failed E comp (m : CompleteMessage) :
  cm_success m = false →
  match stream_event cfg E comp (EvComplete m) with StreamContinue _ => False | _ => True end.
Proof. simpl. by intros ->. Qed.

Lemma fail_stream_ok c m rid q comp :
  cm_success m = false → c_queues c !! rid = Some q → stream_ok c rid q comp →
  stream_ok (handle_completion_fail m c) rid q comp.
Proof.
  intros Hm Hq Hok. apply (finish_stream_ok c (cm_request_id m)); [done|done|].
  intros _ _ l _. apply ends_snoc. intros. by apply stream_event_failed.
Qed.

Lemma abort_stream_ok c rid0 rid q comp :
  c_queues c !! rid = Some q → stream_ok c rid q comp →
  stream_ok (run_abort_finish rid0 c).1 rid q comp.
Proof.
  intros Hq Hok. unfold run_abort_finish. destruct (c_requests c !! rid0) eqn:Hr; [|done].
  unfold _reject_completion_future.
  set (o := if bool_decide (is_Some _) then (FutCancelled : fut pyval) else _). clearbody o. simpl.
  pose proof (finish_stream_ok c rid0 o (failed_event rid0 "aborted") rid q comp Hq Hok) as Hf.
  unfold stream_ok in *. simpl in *. rewrite forget_altered. apply Hf.
  intros _ _ l _. apply ends_snoc. intros. by apply stream_event_failed.
Qed.

Lemma alter_stream_ok c rid0 g rid q comp :
  stream_ok c rid q comp → stream_ok (set_requests (alter g rid0) c) rid q comp.
Proof.
  intros Hok. eapply stream_ok_mono; [done| | |]; simpl; [|by rewrite lookup_alter_is_Some|done].
  intros l Hl. exists []. by rewrite app_nil_r.
Qed.

Lemma put_stream_ok c rid0 ev rid q comp :
  c_queues c !! rid = Some q → stream_ok c rid q comp → stream_ok (put_to_stream rid0 ev c) rid q comp.
Proof.
  intros Hq Hok. eapply stream_ok_mono; [done| |done|done]. intros l Hl. simpl.
  destruct (put_some c rid0 rid q ev l Hq Hl) as (evs & Hevs & _). by exists evs.
Qed.

Lemma handle_stream_stream_ok c m rid q comp :
  c_queues c !! rid = Some q → stream_ok c rid q comp → stream_ok (_handle_stream cfg m c) rid q comp.
Proof.
  intros Hq Hok. unfold _handle_stream. destruct (c_queues c !! sm_request_id m); [|done].
  by apply put_stream_ok.
Qed.

Lemma fail_all_queue_grows message l0 c q l :
  heap_queues c !! q = Some l →
  ∃ evs, heap_queues (fold_left (fail_one message) l0 c) !! q = Some (l ++ evs).
Proof.
  revert c l. induction l0 as [|[rid0 info] l0 IH]; intros c l Hl; simpl; [exists []; by rewrite app_nil_r|].
  assert (∃ evs, heap_queues (fail_one message c (rid0, info)) !! q = Some (l ++ evs)) as [evs Hevs].
  { simpl. destruct (c_queues c !! rid0) as [q0|]; [|exists []; by rewrite app_nil_r].
    rewrite lookup_alter. case_decide; subst; rewrite Hl; [by eexists|exists []; by rewrite app_nil_r]. }
  destruct (IH _ _ Hevs) as [evs' ->]. exists (evs ++ evs'). by rewrite app_assoc.
Qed.

Lemma fail_all_streams message l0 c rid q comp :
  c_queues c !! rid = Some q → stream_ok c rid q comp →
  ∃ l, heap_queues (fold_left (fail_one message) l0 c) !! q = Some l ∧
    (ends T comp l = true ∨ ((rid ∉ l0.*1) ∧ is_Some (c_requests c !! rid))).
Proof.
  revert c. induction l0 as [|[rid0 info] l0 IH]; intros c Hq Hok; simpl.
  { destruct Hok as (l & Hl & [?|[? _]]); exists l; split; [done|auto|done|]. right. split; [set_solver|done]. }
  destruct (decide (rid0 = rid)) as [->|Hne].
  - assert (∃ l, heap_queues (fail_one message c (rid, info)) !! q = Some l ∧ ends T comp l = true) as (l & Hl & He).
    { destruct Hok as (l & Hl & _). exists (l ++ [failed_event rid message]). split.
      - simpl. rewrite Hq, lookup_alter, decide_True, Hl by done. done.
      - apply ends_snoc. intros. by apply stream_event_failed. }
    assert (stream_ok (fail_one message c (rid, info)) rid q comp) as Hok' by (exists l; auto).
    destruct (fail_all_queue_grows message l0 (fail_one message c (rid, info)) q l Hl) as [evs Hl'].
    exists (l ++ evs). split; [done|]. left. by apply ends_app.
  - destruct (IH (fail_one message c (rid0, info))) as (l & Hl & Hor); [done| |].
    + apply (put_stream_ok (settle_completion _ _ _)); [done|]. exact (alter_stream_ok c rid0 (set_failed (Some message)) _ _ _ Hok).
    + exists l. split; [done|]. destruct Hor as [?|[Hnot Ht]]; [auto|right]. split; [set_solver|].
      simpl in Ht. by rewrite lookup_alter_is_Some in Ht.
Qed.

Lemma fail_pending_stream_ok message c rid q comp :
  c_queues c !! rid = Some q → stream_ok c rid q comp →
  stream_ok (fail_pending_requests message c) rid q comp.
Proof.
  intros Hq Hok.
  destruct (fail_all_streams message (map_to_list (c_requests c)) (set_running false (Some message) c)
    rid q comp) as (l & Hl & Hor); [done|done|].
  exists l. split; [done|]. destruct Hor as [?|[Hn [info Hi]]]; [by left|]. exfalso. apply Hn.
  apply list_elem_of_fmap. exists (rid, info). split; [done|]. by apply elem_of_map_to_list.
Qed.

Hypothesis logical_idem : ∀ x,
  logical_name (replica_topology cfg) (logical_name (replica_topology cfg) x) =
  logical_name (replica_topology cfg) x.

(** Every tracked request waits for the static terminals: there is no resolver. *)
Definition static_infos c : Prop :=
  ∀ rid info, c_requests c !! rid = Some info → ri_terminal_stages info = T.

Lemma handle_completion_stream_ok c m rid q comp :
  coord_inv cfg c → static_infos c → (T = ∅ ∨ ¬ T ⊆ comp) →
  c_queues c !! rid = Some q → stream_ok c rid q comp →
  stream_ok (handle_completion cfg m c).1 rid q comp.
Proof.
  intros I Hst Hcomp Hq Hok. unfold handle_completion. set (rid0 := cm_request_id m).
  destruct (c_requests c !! rid0) as [info|] eqn:Hr; [|done].
  set (from := logical_name (replica_topology cfg) (cm_from_stage m)).
  set (m' := if bool_decide (from ≠ cm_from_stage m) then with_from_stage from m else m).
  assert (logical_name (replica_topology cfg) (cm_from_stage m') = from) as Hfrom.
  { subst m'. case_bool_decide; simpl; [apply logical_idem|done]. }
  clearbody m' from. destruct (cm_success m') eqn:Hs; simpl; [|by apply alter_stream_ok].
  unfold _expected_terminal_stages. rewrite Hr, (Hst _ _ Hr).
  destruct (negb _ && negb _) eqn:Hin; [done|].
  assert (T = ∅ ∨ from ∈ T) as HT.
  { apply andb_false_iff in Hin. rewrite !negb_false_iff, !bool_decide_eq_true in Hin. done. }
  destruct (bool_decide (size T ≤ 1)) eqn:Hsize; bool_simpl; simpl.
  - assert (∀ comp, stream_event cfg T comp (EvComplete m') = StreamReturn) as Hret.
    { intros comp'. simpl. rewrite Hs, Hfrom. simpl. destruct HT as [->|HT]; [done|].
      rewrite (bool_decide_true (T ⊆ _)); [by rewrite orb_true_r|].
      assert (size T ≠ 0) by (apply size_non_empty_iff; set_solver).
      intros x Hx. apply elem_of_union_l, elem_of_singleton. apply (size_singleton_inv T); [lia|done..]. }
    pose proof (finish_stream_ok c rid0 (FutResult (cm_result m')) (EvComplete m') rid q comp Hq Hok) as Hf.
    unfold stream_ok in Hf |- *. simpl in Hf |- *. rewrite forget_altered.
    destruct Hf as (l & Hl & Hor).
    { intros _ _ l _. apply ends_snoc. intros comp'. by rewrite Hret. }
    exists l. split; [done|]. destruct Hor as [?|[Ht Hp]]; [by left|right]. split; [done|].
    intros p Hpp. apply Hp. rewrite delete_id; [done|]. eapply no_partials; [done..|]. by rewrite (Hst _ _ Hr).
  - destruct (decide (rid0 = rid)) as [->|Hne].
    2: { assert (∃ l, stream_ok (put_to_stream rid0 (EvComplete m') c) rid q comp ∧
           heap_queues (put_to_stream rid0 (EvComplete m') c) !! q = Some l) as (l & Hput & Hl).
         { pose proof (put_stream_ok c rid0 (EvComplete m') rid q comp Hq Hok) as Hp.
           pose proof Hp as (l & Hl & _). eauto. }
         case_match; simpl; (eapply stream_ok_mono; [exact Hput| | |]); simpl.
         - intros l1 Hl1. exists []. by rewrite app_nil_r.
         - done.
         - intros p. by rewrite lookup_insert_ne.
         - intros l1 Hl1. exists []. by rewrite app_nil_r.
         - by rewrite lookup_delete_ne, lookup_alter_ne.
         - intros p. by rewrite lookup_delete_ne, lookup_insert_ne. }
    destruct Hok as (l & Hl & Hor).
    assert ((match c_queues c !! rid with Some q0 => alter (queue_put (EvComplete m')) q0 | None => λ m, m end)
      (heap_queues c) !! q = Some (l ++ [EvComplete m'])) as Hput.
    { rewrite Hq, lookup_alter, decide_True, Hl by done. done. }
    assert (event_stages (l ++ [EvComplete m']) = event_stages l ∪ {[from]}) as Hst'.
    { rewrite event_stages_app. unfold event_stages at 2. simpl. rewrite Hfrom. set_solver. }
    set (p0 := default [] (c_partials c !! rid)).
    assert (is_Some (c_requests c !! rid) → ends T comp l = true ∨
      (list_to_set (od_keys (od_set from (cm_result m') p0)) : gset string) ⊆ comp ∪ event_stages (l ++ [EvComplete m'])) as Hkeys.
    { intros _. destruct Hor as [?|[_ Hp]]; [by left|right]. rewrite od_set_keys, Hst'.
      subst p0. destruct (c_partials c !! rid) as [p|] eqn:Ep; simpl; [|set_solver].
      specialize (Hp p eq_refl). set_solver. }
    specialize (Hkeys ltac:(eauto)).
    destruct (bool_decide (list_to_set (od_keys (od_set from _ p0)) ⊂ T)) eqn:Hlt; bool_simpl;
      exists (l ++ [EvComplete m']); (split; [exact Hput|]); simpl.
    + destruct Hkeys as [?|Hkeys]; [left; by apply ends_app|right].
      split; [eauto|]. intros p. rewrite lookup_insert_eq. by intros [= <-].
    + left. destruct Hkeys as [?|Hkeys]; [by apply ends_app|]. apply ends_cover.
      * destruct Hcomp as [HT0|?]; [|done]. rewrite HT0, size_empty in Hsize. lia.
      * etrans; [|exact Hkeys]. destruct (decide (T ⊆ list_to_set (od_keys (od_set from (cm_result m') p0)))) as [?|Hn]; [done|].
        exfalso. apply Hlt. split; [|done]. rewrite od_set_keys.
        assert (list_to_set (od_keys p0) ⊆ T).
        { subst p0. destruct (c_partials c !! rid) as [p|] eqn:Ep; simpl; [|set_solver].
          destruct (ci_partials _ _ I _ _ Ep) as (info' & Hi' & _ & _ & Hsub).
          rewrite (Hst _ _ Hi') in Hsub. apply Hsub. }
        destruct HT as [HT0|HT]; [|set_solver]. rewrite HT0, size_empty in Hsize. lia.
Qed.

(** *** Across the event loop *)
Definition stream_view (cl : client) : option (string * nat * gset string) :=
  match cl with
  | StreamSending rid q => Some (rid, q, ∅)
  | StreamReading rid q _ comp => Some (rid, q, comp)
  | _ => None
  end.

Definition waits_right (cl : client) : Prop :=
  match cl with
  | StreamReading _ _ E comp => E = T ∧ (T = ∅ ∨ ¬ T ⊆ comp)
  | _ => True
  end.

Record stream_sys s : Prop := {
  ss_static : static_infos (s_co s);
  ss_queue_inj : ∀ rid rid' q,
    c_queues (s_co s) !! rid = Some q → c_queues (s_co s) !! rid' = Some q → rid = rid';
  ss_waits : ∀ i cl, s_clients s !! i = Some cl → waits_right cl;
  ss_streams : ∀ i cl rid q comp, s_clients s !! i = Some cl → stream_view cl = Some (rid, q, comp) →
    stream_ok (s_co s) rid q comp;
  ss_loop : ∀ m, s_loop s = LoopBroadcast m → cm_success m = false;
}.

Lemma view_waits cl rid q comp :
  waits_right cl → stream_view cl = Some (rid, q, comp) → T = ∅ ∨ ¬ T ⊆ comp.
Proof.
  destruct cl; simpl; intros Hw [= <- <- <-]; [|tauto].
  destruct (decide (T = ∅)); [auto|right]. set_solver.
Qed.

Lemma view_queue s i cl rid q comp :
  sys_inv cfg s → s_clients s !! i = Some cl → stream_view cl = Some (rid, q, comp) →
  client_rid cl = rid ∧ c_queues (s_co s) !! rid = Some q.
Proof.
  intros I Hcl Hv. pose proof (si_clients _ _ I _ _ Hcl) as Hok.
  destruct cl; simpl in *; simplify_eq; naive_solver.
Qed.

(** A change of the coordinator that keeps every live stream going; [P] selects
    the clients it is not responsible for. *)
Lemma stream_frame s c' clients' lp aborts' callbacks' :
  sys_inv cfg s → stream_sys s →
  static_infos c' → (∀ m, lp = LoopBroadcast m → cm_success m = false) →
  (∀ rid rid' q, c_queues c' !! rid = Some q → c_queues c' !! rid' = Some q → rid = rid') →
  (∀ j cl, clients' !! j = Some cl →
     (s_clients s !! j = Some cl ∧
      ∀ rid q comp, stream_view cl = Some (rid, q, comp) → (T = ∅ ∨ ¬ T ⊆ comp) →
        c_queues (s_co s) !! rid = Some q → stream_ok (s_co s) rid q comp → stream_ok c' rid q comp) ∨
     (waits_right cl ∧ ∀ rid q comp, stream_view cl = Some (rid, q, comp) → stream_ok c' rid q comp)) →
  stream_sys (mkSys c' clients' lp aborts' callbacks').
Proof.
  intros I [A1 A2 A3 A4 A5] Hst Hlp Hinj Hcl. split; simpl; try done.
  - intros j cl Hj. destruct (Hcl j cl Hj) as [[Hj' _]|[? _]]; [by eapply A3|done].
  - intros j cl rid q comp Hj Hv. destruct (Hcl j cl Hj) as [[Hj' Hpres]|[_ ?]]; [|by auto].
    apply Hpres; [done| | |by eapply A4].
    + by eapply view_waits, Hv; eauto.
    + by eapply view_queue.
Qed.

Lemma static_shrinks c c' : static_infos c → shrinks c c' → static_infos c'.
Proof. intros Hst Hsh rid info' (info & Hi & _ & -> & _)%(sh_requests _ _ Hsh). by eapply Hst. Qed.

Lemma handler_streams s c' lp aborts' callbacks' :
  sys_inv cfg s → stream_sys s → shrinks (s_co s) c' →
  (∀ m, lp = LoopBroadcast m → cm_success m = false) →
  (∀ rid q comp, (T = ∅ ∨ ¬ T ⊆ comp) → c_queues (s_co s) !! rid = Some q →
     stream_ok (s_co s) rid q comp → stream_ok c' rid q comp) →
  stream_sys (mkSys c' (s_clients s) lp aborts' callbacks').
Proof.
  intros I Hs Hsh Hlp Hpres. apply (stream_frame s); try done.
  - eapply static_shrinks; [apply Hs|done].
  - rewrite (sh_queues _ _ Hsh). apply Hs.
  - intros j cl Hj. left. eauto.
Qed.

(** Nothing a stream depends on changes. *)
Lemma stream_ok_same c c' rid q comp :
  heap_queues c' !! q = heap_queues c !! q → c_requests c' = c_requests c → c_partials c' = c_partials c →
  stream_ok c rid q comp → stream_ok c' rid q comp.
Proof. unfold stream_ok. by intros -> -> ->. Qed.

Lemma drop_streams s i c' clients' aborts' callbacks' :
  sys_inv cfg s → stream_sys s →
  c_requests c' = c_requests (s_co s) → c_partials c' = c_partials (s_co s) →
  (∀ q, heap_queues c' !! q = heap_queues (s_co s) !! q ∨
        ∃ cl rid comp, s_clients s !! i = Some cl ∧ stream_view cl = Some (rid, q, comp)) →
  c_queues c' ⊆ c_queues (s_co s) →
  (∀ j, j ≠ i → clients' !! j = s_clients s !! j) →
  (∀ cl, clients' !! i = Some cl → stream_view cl = None ∧ waits_right cl) →
  stream_sys (mkSys c' clients' (s_loop s) aborts' callbacks').
Proof.
  intros I Hs Er Ep Hq Hqs Hcl Hi. apply (stream_frame s); try done.
  - intros rid info. rewrite Er. apply Hs.
  - apply Hs.
  - intros rid rid' q H1 H2. eapply (ss_queue_inj _ Hs); by eapply lookup_weaken.
  - intros j cl Hj. destruct (decide (j = i)) as [->|Hne].
    + right. destruct (Hi _ Hj) as [Hv ?]. split; [done|]. intros; congruence.
    + left. rewrite Hcl in Hj by done. split; [done|]. intros rid q comp Hv _ Hcq Hok.
      destruct (Hq q) as [E|(cl' & rid' & comp' & Hcl' & Hv')]; [by eapply stream_ok_same|].
      exfalso. destruct (view_queue _ _ _ _ _ _ I Hcl' Hv') as [Hrid' Hcq'].
      destruct (view_queue _ _ _ _ _ _ I Hj Hv) as [Hrid _].
      assert (rid = rid') as -> by by eapply (ss_queue_inj _ Hs).
      apply Hne. eapply (si_rid_inj _ _ I); [done|done|congruence].
Qed.

Lemma quiet_streams s c' aborts' callbacks' :
  sys_inv cfg s → stream_sys s →
  c_requests c' = c_requests (s_co s) → c_partials c' = c_partials (s_co s) →
  heap_queues c' = heap_queues (s_co s) → c_queues c' = c_queues (s_co s) →
  stream_sys (mkSys c' (s_clients s) (s_loop s) aborts' callbacks').
Proof.
  intros I Hs Er Ep Eh Eq. apply (stream_frame s); try done.
  - intros rid info. rewrite Er. apply Hs.
  - apply Hs.
  - rewrite Eq. apply Hs.
  - intros j cl Hj. left. split; [done|]. intros rid q comp _ _ _. apply stream_ok_same; [by rewrite Eh|done..].
Qed.

Lemma leave_streams s c0 i cl rid q comp :
  sys_inv cfg s → stream_sys s → s_clients s !! i = Some cl → stream_view cl = Some (rid, q, comp) →
  c_requests c0 = c_requests (s_co s) → c_partials c0 = c_partials (s_co s) →
  c_queues c0 = c_queues (s_co s) →
  (∀ q', q' ≠ q → heap_queues c0 !! q' = heap_queues (s_co s) !! q') →
  stream_sys (leave_stream i rid q (with_co c0 s)).
Proof.
  intros I Hs Hcl Hv Er Ep Eq Eh.
  assert (∀ q', heap_queues c0 !! q' = heap_queues (s_co s) !! q' ∨
        ∃ cl rid comp, s_clients s !! i = Some cl ∧ stream_view cl = Some (rid, q', comp)) as Hq.
  { intros q'. destruct (decide (q' = q)) as [->|]; [right; eauto|left; auto]. }
  assert (∀ c' aborts', c_requests c' = c_requests c0 → c_partials c' = c_partials c0 →
    heap_queues c' = heap_queues c0 → c_queues c' ⊆ c_queues c0 →
    ∀ clients', (∀ j, j ≠ i → clients' !! j = s_clients s !! j) →
      (∀ cl, clients' !! i = Some cl → stream_view cl = None ∧ waits_right cl) →
    stream_sys (mkSys c' clients' (s_loop s) aborts' (s_callbacks s))) as Hdrop.
  { intros c' aborts' E1 E2 E3 E4 clients' H1 H2. eapply (drop_streams s i); try done.
    - by rewrite E1.
    - by rewrite E2.
    - intros q'. by rewrite E3.
    - by rewrite <-Eq. }
  assert (∀ j, j ≠ i → delete i (s_clients s) !! j = s_clients s !! j) as Hdel
    by (intros; by rewrite lookup_delete_ne).
  assert (∀ cl, delete i (s_clients s) !! i = Some cl → stream_view cl = None ∧ waits_right cl) as Hdel'
    by (intros ?; by rewrite lookup_delete_eq).
  assert (∀ c' aborts', c_requests c' = c_requests c0 → c_partials c' = c_partials c0 →
    heap_queues c' = heap_queues c0 → c_queues c' = c_queues c0 →
    stream_sys (mkSys (stream_final_end rid q c') (delete i (s_clients s)) (s_loop s) aborts' (s_callbacks s))) as Hend.
  { intros c' aborts' E1 E2 E3 E4. unfold stream_final_end.
    case_bool_decide; apply Hdrop; simpl; rewrite ?E4; try done. apply delete_subseteq. }
  unfold leave_stream, stream_final_begin. simpl. case_bool_decide; simpl; [|by apply Hdrop].
  destruct (c_requests c0 !! rid) eqn:Hr; simpl; [|by apply Hend].
  destruct (abort_begin rid c0) as [c' reply] eqn:Hab.
  destruct (abort_begin_cases _ _ _ _ Hab) as [[-> _]|(info & _ & _ & _ & -> & ->)].
  - destruct reply as [b|t]; simpl; [by apply Hend|].
    apply Hdrop; try done; [by intros; rewrite lookup_insert_ne|].
    intros cl'. rewrite lookup_insert_eq. by intros [= <-].
  - simpl. apply Hdrop; try done; [by intros; rewrite lookup_insert_ne|].
    intros cl'. rewrite lookup_insert_eq. by intros [= <-].
Qed.

Hypothesis no_resolver : terminal_stages_resolver cfg = None.

Lemma admit_streams s c0 i rid arg sq c' sent cl :
  sys_inv cfg s → stream_sys s → s_clients s !! i = None →
  c0 = s_co s ∨ c0 = bump 1 (set_heap (λ m, m) (insert (heap_next (s_co s)) []) (s_co s)) →
  (∀ q, sq = Some q → q = heap_next (s_co s) ∧ c_queues c0 = c_queues (s_co s) ∧ heap_queues c0 !! q = Some []) →
  submit_begin cfg rid arg sq c0 = (c', Ok sent) →
  match sq with
  | None => cl = SubmitSending rid (1 + heap_next (s_co s))
  | Some q => cl = StreamSending rid q
  end →
  stream_sys (with_client i cl c' s).
Proof.
  intros I Hs Hi Hc0 Hsq Hsub Hcl.
  assert (c_queues c0 = c_queues (s_co s) ∧ c_requests c0 = c_requests (s_co s) ∧
    c_partials c0 = c_partials (s_co s) ∧
    (∀ q, is_Some (heap_queues (s_co s) !! q) → heap_queues c0 !! q = heap_queues (s_co s) !! q))
    as (Eq & Er & Ep & Eh).
  { destruct Hc0 as [-> | ->]; [done|]. split_and!; try done. simpl. intros q Hq.
    rewrite lookup_insert_ne; [done|]. apply (ci_heap_queues _ _ (si_co _ _ I)) in Hq. lia. }
  apply submit_begin_ok in Hsub as (_ & (Hr & _ & _ & _)%reserved_false & _ & pol & ts & Hts & ->).
  rewrite Er in Hr. unfold _resolve_terminal_stages in Hts. rewrite no_resolver in Hts. injection Hts as <-.
  apply (stream_frame s); try done; simpl.
  - intros rid' info. simpl. rewrite lookup_insert, Er. case_decide; [by intros [= <-]|apply Hs].
  - apply Hs.
  - rewrite Eq. destruct sq as [q0|]; [|apply Hs].
    destruct (Hsq q0 eq_refl) as (-> & _ & _).
    assert (∀ rid q, c_queues (s_co s) !! rid = Some q → q ≠ heap_next (s_co s)) as Hlt.
    { intros rid' q ?%(ci_queues _ _ (si_co _ _ I))%(ci_heap_queues _ _ (si_co _ _ I)). lia. }
    intros r1 r2 q. rewrite !lookup_insert. repeat case_decide; simplify_eq; try done.
    + by intros [= <-] ?%Hlt.
    + by intros ?%Hlt [= <-].
    + apply Hs.
  - intros j cl' . rewrite lookup_insert. case_decide as E.
    + intros [= <-]. right. destruct sq as [q|]; subst cl; [|done]. split; [done|].
      intros ? ? ? [= <- <- <-]. destruct (Hsq q eq_refl) as (_ & _ & Hl). exists []. split; [done|]. right.
      simpl. rewrite lookup_insert_eq, Ep. split; [done|]. intros p Hp.
      destruct (ci_partials _ _ (si_co _ _ I) _ _ Hp) as (? & ? & _). congruence.
    + intros Hj. left. split; [done|]. intros rid' q comp _ _ Hq Hok.
      eapply stream_ok_mono; [exact Hok| | |]; simpl; rewrite ?Er, ?Ep; [| |done].
      * intros l Hl. exists []. rewrite app_nil_r, Eh by eauto. done.
      * intros Ht. rewrite lookup_insert. case_decide; [eauto|done].
Qed.

(** A client that stops reading, or was no stream, moves on. *)
Lemma plain_client_streams s i cl c' :
  sys_inv cfg s → stream_sys s → stream_view cl = None → waits_right cl →
  shrinks (s_co s) c' →
  (∀ rid q comp, c_queues (s_co s) !! rid = Some q →
     stream_ok (s_co s) rid q comp → stream_ok c' rid q comp) →
  stream_sys (with_client i cl c' s).
Proof.
  intros I Hs Hv Hw Hsh Hpres. apply (stream_frame s); try done.
  - eapply static_shrinks; [apply Hs|done].
  - apply Hs.
  - rewrite (sh_queues _ _ Hsh). apply Hs.
  - intros j cl'. rewrite lookup_insert. case_decide; [|by intros Hj; left; eauto].
    intros [= <-]. right. split; [done|]. by rewrite Hv.
Qed.

Lemma drop_plain_streams s i c' :
  sys_inv cfg s → stream_sys s →
  c_requests c' = c_requests (s_co s) → c_partials c' = c_partials (s_co s) →
  heap_queues c' = heap_queues (s_co s) → c_queues c' ⊆ c_queues (s_co s) →
  stream_sys (drop_client i c' s).
Proof.
  intros I Hs Er Ep Eh Eq. apply (drop_streams s i); try done.
  - intros q. rewrite Eh. auto.
  - intros j Hj. by rewrite lookup_delete_ne.
  - intros cl. by rewrite lookup_delete_eq.
Qed.

Lemma stream_sent_streams s i rid q :
  sys_inv cfg s → stream_sys s → s_clients s !! i = Some (StreamSending rid q) →
  let c := submit_finish rid (s_co s) in
  stream_sys (with_client i (StreamReading rid q (_expected_terminal_stages cfg rid c) ∅) c s).
Proof.
  intros I Hs Hcl c. pose proof (submit_finish_shrinks cfg _ rid (si_co _ _ I)) as Hsh.
  assert (static_infos c) as Hst by (eapply static_shrinks; [apply Hs|done]).
  apply (stream_frame s); try done; [apply Hs|apply Hs|].
  intros j cl. rewrite lookup_insert. case_decide as E; [|].
  - intros [= <-]. right. simpl. split.
    + split.
      * unfold _expected_terminal_stages. destruct (c_requests c !! rid) eqn:Hr; [by eapply Hst|done].
      * destruct (decide (T = ∅)); [auto|right; set_solver].
    + intros ? ? ? [= <- <- <-]. subst c. apply alter_stream_ok.
      by eapply (ss_streams _ Hs).
  - intros Hj. left. split; [done|]. intros rid' q' comp _ _ _. apply alter_stream_ok.
Qed.

Lemma stream_read_streams s i rid q E comp ev rest comp' :
  sys_inv cfg s → stream_sys s → s_clients s !! i = Some (StreamReading rid q E comp) →
  heap_queues (s_co s) !! q = Some (ev :: rest) →
  stream_event cfg E comp ev = StreamContinue comp' →
  stream_sys (with_client i (StreamReading rid q E comp') (set_heap (λ m, m) (insert q rest) (s_co s)) s).
Proof.
  intros I Hs Hcl Hq Hev. destruct (ss_waits _ Hs _ _ Hcl) as [-> Hw].
  destruct (stream_event_continue _ _ _ _ Hev) as [Hc' Hor].
  apply (stream_frame s); try done; [apply Hs|apply Hs|apply Hs|].
  intros j cl. rewrite lookup_insert. case_decide as Ej.
  - intros [= <-]. right. simpl. split.
    + split; [done|]. destruct Hor as [He|[_ ?]]; [|by right].
      rewrite He, union_empty_l_L in Hc'. by subst.
    + intros ? ? ? [= <- <- <-]. destruct (ss_streams _ Hs _ _ _ _ _ Hcl eq_refl) as (l & Hl & Hok).
      rewrite Hq in Hl. injection Hl as <-. exists rest. simpl. rewrite lookup_insert_eq. split; [done|].
      simpl in Hok. rewrite Hev in Hok. destruct Hok as [?|[Ht Hp]]; [by left|right].
      split; [done|]. intros p Hpp. specialize (Hp p Hpp). unfold event_stages in *. simpl in Hp. set_solver.
  - intros Hj. left. split; [done|]. intros rid' q' comp'' Hv _ Hq'. apply stream_ok_same; try done.
    simpl. rewrite lookup_insert_ne; [done|]. intros <-.
    destruct (view_queue _ _ _ _ _ _ I Hj Hv) as [Hrid Hcq].
    destruct (view_queue _ _ _ _ _ _ I Hcl eq_refl) as [_ Hcq0].
    assert (rid' = rid) as -> by by eapply (ss_queue_inj _ Hs).
    apply Ej. eapply (si_rid_inj _ _ I); [done|done|]. by rewrite Hrid.
Qed.

Lemma handle_completion_failed m c c' m' :
  handle_completion cfg m c = (c', Some m') → cm_success m' = false.
Proof.
  unfold handle_completion. destruct (c_requests c !! _); [|done].
  set (m0 := if bool_decide (_ ≠ _) then _ else m). destruct (cm_success m0) eqn:Hs; simpl.
  - intros Hh. repeat (case_match; simplify_eq/=).
  - by intros [= <- <-].
Qed.

Lemma step_streams s s' : sys_inv cfg s → stream_sys s → step cfg s s' → stream_sys s'.
Proof.
  intros I Hs Hstep. pose proof (si_co _ _ I) as Ic. pose proof (ss_loop _ Hs) as Hlp. destruct Hstep.
  - by apply quiet_streams.
  - by apply quiet_streams.
  - by apply quiet_streams.
  - by eapply (admit_streams s (s_co s) i rid arg None); eauto.
  - match goal with Hx : submit_begin _ _ _ _ _ = _ |- _ => apply submit_begin_raise in Hx as [pol ->] end.
    by apply quiet_streams.
  - destruct (c_futures _ !! rid) as [f'|].
    + apply plain_client_streams; try done; [by eapply submit_finish_shrinks|].
      intros *. intros _. apply alter_stream_ok.
    + eapply (drop_plain_streams (with_co (submit_finish rid (s_co s)) s)); try done.
      * by eapply with_co_inv, submit_finish_shrinks.
      * apply handler_streams; try done; [by eapply submit_finish_shrinks|].
        intros *. intros _ _. apply alter_stream_ok.
  - by apply drop_plain_streams.
  - by apply drop_plain_streams.
  - by apply drop_plain_streams.
  - eapply (admit_streams s _ i rid arg (Some q)); eauto.
    intros ? [= <-]. simpl. by rewrite lookup_insert_eq.
  - match goal with Hx : submit_begin _ _ _ _ _ = _ |- _ => apply submit_begin_raise in Hx as [pol ->] end.
    rewrite leave_rejected; [|done|].
    + apply (stream_frame s); try done; [apply Hs|apply Hs|]. intros j cl Hj. left. split; [done|].
      intros rid' q' comp _ _ Hq'. apply stream_ok_same; try done. simpl.
      rewrite lookup_insert_ne; [done|].
      apply (ci_queues _ _ Ic), (ci_heap_queues _ _ Ic) in Hq'. subst q. lia.
    + simpl. intros Hq%(ci_queues _ _ Ic)%(ci_heap_queues _ _ Ic). subst q. lia.
  - by apply stream_sent_streams.
  - replace s with (with_co (s_co s) s) at 2 by by destruct s. by eapply leave_streams.
  - by eapply stream_read_streams.
  - eapply leave_streams; try done. intros q' Hne. simpl. by rewrite lookup_insert_ne.
  - replace s with (with_co (s_co s) s) at 2 by by destruct s. by eapply leave_streams.
  - unfold stream_final_end. case_bool_decide; apply drop_plain_streams; try done. simpl. apply delete_subseteq.
  - match goal with Hx : abort_begin _ _ = _ |- _ =>
      apply abort_begin_cases in Hx as [[-> _]|(info & _ & _ & _ & -> & _)] end; by apply quiet_streams.
  - match goal with Hx : run_abort_finish _ _ = _ |- _ =>
      pose proof (run_abort_finish_shrinks cfg _ (as_rid a) Ic) as Hsh;
      pose proof (abort_stream_ok (s_co s) (as_rid a)) as Hok; rewrite Hx in Hsh, Hok end.
    apply handler_streams; try done. intros; by apply Hok.
  - by apply quiet_streams.
  - unfold _on_abort_task_done. case_bool_decide; by apply quiet_streams.
  - apply handler_streams; try done; [by apply handle_stream_shrinks|].
    intros; by apply handle_stream_stream_ok.
  - apply handler_streams; try done; [by eapply handle_admin_shrinks|]. intros rid q comp _ _.
    unfold _handle_admin_result. by destruct (c_admin_ops _ !! _).
  - match goal with Hc : handle_completion _ _ _ = _ |- _ =>
      pose proof (handle_completion_shrinks cfg _ m Ic) as Hsh;
      pose proof (handle_completion_stream_ok (s_co s) m) as Hok;
      rewrite Hc in Hsh, Hok end.
    apply handler_streams; try done.
    + destruct o as [m'|]; [|done]. intros ? [= <-]. by eapply handle_completion_failed.
    + intros; apply Hok; try done. apply Hs.
  - apply handler_streams; try done; [by eapply handle_completion_fail_shrinks|].
    intros; apply fail_stream_ok; try done. by apply Hlp.
  - apply handler_streams; try done. by eapply shrinks_refl.
  - apply handler_streams; try done; [by eapply fail_pending_shrinks|].
    intros; by apply fail_pending_stream_ok.
  - by apply quiet_streams.
  - by apply quiet_streams.
Qed.
End streams.
