(* ===== verification/CoordinatorProps.v ===== *)
(** * The coordinator's guarantees

    The properties of [Coordinator.v] over every interleaving of its event loop,
    the multi-terminal merge, admission, the admin operations, and two reachable
    states that the code does not mean to reach. *)
From S2P Require Import Prelude PyVal Replicas Coordinator.

(** ** Settled futures *)
Section settled.
Context {S : Type} `{BindingPolicy S}.
Variable cfg : CoordinatorConfig.
Abbreviation coord := (Coordinator (S:=S)).
Abbreviation system := (sys (S:=S)).

Lemma shrinks_keeps (c c' : coord) f o :
  shrinks c c' → heap_futures c !! f = Some o → fut_done o = true → heap_futures c' !! f = Some o.
Proof.
  intros Hsh Hf Ho. destruct (sh_heap _ _ Hsh f) as [->|[E _]]; [done|].
  rewrite Hf in E. by simplify_eq.
Qed.

Lemma admit_keeps (c c' : coord) rid arg sq sent f o :
  coord_inv cfg c → submit_begin cfg rid arg sq c = (c', Ok sent) →
  heap_futures c !! f = Some o → heap_futures c' !! f = Some o.
Proof.
  intros I (_ & _ & _ & pol & ts & _ & ->)%submit_begin_ok Hf. simpl.
  rewrite lookup_insert_ne; [done|]. pose proof (ci_heap_futures _ _ I f (mk_is_Some _ _ Hf)). lia.
Qed.

Lemma leave_keeps i rid q (s : system) : heap_futures (s_co (leave_stream i rid q s)) = heap_futures (s_co s).
Proof.
  unfold leave_stream, stream_final_begin, stream_final_end.
  destruct (abort_begin rid (s_co s)) as [c' reply] eqn:Hab.
  apply abort_begin_cases in Hab as [[-> _]|(? & _ & _ & _ & -> & ->)];
    repeat (case_match; simplify_eq/=; try done).
Qed.

Lemma step_keeps (s s' : system) f o :
  sys_inv cfg s → step cfg s s' →
  heap_futures (s_co s) !! f = Some o → fut_done o = true → heap_futures (s_co s') !! f = Some o.
Proof.
  intros I Hstep Hf Ho. pose proof (si_co _ _ I) as Ic. pose proof (alloc_queue_inv _ _ I) as Iq.
  destruct Hstep; rewrite ?leave_keeps; simpl; try done.
  - by eapply admit_keeps.
  - match goal with Hx : submit_begin _ _ _ _ _ = _ |- _ => by apply submit_begin_raise in Hx as [pol ->] end.
  - by destruct (c_futures _ !! rid).
  - destruct (settle_lookup f0 FutCancelled (heap_futures (s_co s)) f) as [->|(-> & E & _)]; [done|].
    rewrite Hf in E. by simplify_eq.
  - eapply (admit_keeps _ _ _ _ _ _ _ _ (si_co _ _ Iq)); [done|done].
  - match goal with Hx : submit_begin _ _ _ _ _ = _ |- _ => by apply submit_begin_raise in Hx as [pol ->] end.
  - unfold stream_final_end. by case_bool_decide.
  - match goal with Hx : abort_begin _ _ = _ |- _ => by apply abort_begin_cases in Hx as [[-> _]|(? & _ & _ & _ & -> & _)] end.
  - match goal with Hx : run_abort_finish _ _ = _ |- _ =>
      pose proof (run_abort_finish_shrinks cfg _ (as_rid a) Ic) as Hsh; rewrite Hx in Hsh end.
    by eapply shrinks_keeps.
  - unfold _on_abort_task_done. by case_bool_decide.
  - by eapply shrinks_keeps; [eapply handle_stream_shrinks|..].
  - by eapply shrinks_keeps; [eapply handle_admin_shrinks|..].
  - match goal with Hc : handle_completion _ _ _ = _ |- _ =>
      pose proof (handle_completion_shrinks cfg _ m Ic) as Hsh; rewrite Hc in Hsh end.
    by eapply shrinks_keeps.
  - by eapply (shrinks_keeps _ (handle_completion_fail m (s_co s))); [eapply handle_completion_fail_shrinks|..].
  - by eapply (shrinks_keeps _ (fail_pending_requests message (s_co s))); [eapply fail_pending_shrinks|..].
Qed.

Lemma init_streams pol : stream_sys cfg (sys_init (S:=S) pol).
Proof. by split. Qed.

Lemma logical_idem_plain t :
  (∀ s l, replicas t !! s = Some l → (parse_replica_instance_name s).2 = None) →
  ∀ x, logical_name t (logical_name t x) = logical_name t x.
Proof.
  intros Hp x. unfold logical_name at 2 3. destruct (parse_replica_instance_name x) as [logical [k|]] eqn:Hx.
  - destruct (replicas t !! logical) as [l|] eqn:Hl.
    + case_bool_decide as Hin; [by apply logical_name_plain, (Hp _ l)|].
      unfold logical_name. by rewrite Hx, Hl, bool_decide_false.
    + unfold logical_name. by rewrite Hx, Hl.
  - unfold logical_name. by rewrite Hx.
Qed.

Lemma reachable_streams pol (s : system) :
  (∀ x l, replicas (replica_topology cfg) !! x = Some l → (parse_replica_instance_name x).2 = None) →
  terminal_stages_resolver cfg = None →
  reachable cfg pol s → sys_inv cfg s ∧ stream_sys cfg s.
Proof.
  intros Hp Hno. unfold reachable. intros Hr. remember (sys_init pol) as s0 eqn:E.
  assert (sys_inv cfg s0 ∧ stream_sys cfg s0) as H0 by (subst; split; [apply init_inv|apply init_streams]).
  clear E. induction Hr as [|x y z Hxy Hyz IH]; [done|]. destruct H0 as [I Hs]. apply IH. split.
  - by eapply step_inv.
  - eapply step_streams; try done. by apply logical_idem_plain.
Qed.

(** ** Collecting results *)
Definition stage_of (m : CompleteMessage) : string := logical_name (replica_topology cfg) (cm_from_stage m).

Definition collect (ms : list CompleteMessage) : list (string * pyval) :=
  fold_left (λ p m, od_set (stage_of m) (cm_result m) p) ms [].

Definition stages_of (ms : list CompleteMessage) : gset string := list_to_set (map stage_of ms).

Definition run_completions (ms : list CompleteMessage) (c : coord) : coord :=
  fold_left (λ c m, (handle_completion cfg m c).1) ms c.

Lemma collect_snoc ms m : collect (ms ++ [m]) = od_set (stage_of m) (cm_result m) (collect ms).
Proof. unfold collect. by rewrite fold_left_app. Qed.

Lemma collect_keys ms : (list_to_set (od_keys (collect ms)) : gset string) = stages_of ms.
Proof.
  induction ms as [|m ms IH] using rev_ind; [done|].
  rewrite collect_snoc, od_set_keys, IH. unfold stages_of. rewrite map_app, list_to_set_app_L. simpl. set_solver.
Qed.

(** The latest result of each stage. *)
Lemma collect_get ms s :
  od_get s (collect ms) = cm_result <$> last (filter (λ m, stage_of m = s) ms).
Proof.
  induction ms as [|m ms IH] using rev_ind; [done|].
  rewrite collect_snoc, od_get_set, filter_app, filter_cons, filter_nil. case_decide; simplify_eq.
  - rewrite decide_True by done. by rewrite last_snoc.
  - rewrite decide_False by done. by rewrite app_nil_r.
Qed.

(** A success of a terminal that request [rid], waiting for [E], counts. *)
Definition counts (rid : string) (E : gset string) (m : CompleteMessage) : Prop :=
  cm_request_id m = rid ∧ cm_success m = true ∧ stage_of m ∈ E.

Lemma one_completion (c : coord) m rid E info :
  c_requests c !! rid = Some info → ri_terminal_stages info = E → 2 ≤ size E → counts rid E m →
  let p := od_set (stage_of m) (cm_result m) (default [] (c_partials c !! rid)) in
  let c' := (handle_completion cfg m c).1 in
  c_futures c' = c_futures c ∧
  if bool_decide ((list_to_set (od_keys p) : gset string) ⊂ E)
  then c_requests c' = c_requests c ∧ c_partials c' = <[rid := p]> (c_partials c) ∧
       heap_futures c' = heap_futures c
  else c_requests c' = delete rid (c_requests c) ∧ c_partials c' = delete rid (c_partials c) ∧
       heap_futures c' = (match c_futures c !! rid with Some r => settle r (FutResult (PDict p)) | None => λ m, m end)
                           (heap_futures c).
Proof.
  intros Hi HE Hsize (Hm & Hs & Hin). unfold handle_completion. rewrite Hm, Hi. fold (stage_of m).
  set (m' := if bool_decide (_ ≠ _) then _ else m).
  assert (cm_success m' = true ∧ cm_result m' = cm_result m) as [-> ->] by (subst m'; by case_bool_decide).
  clearbody m'. unfold _expected_terminal_stages. rewrite Hi, HE. simpl.
  rewrite (bool_decide_true (stage_of m ∈ E)), andb_false_r by done.
  rewrite (bool_decide_false (size E ≤ 1)) by lia.
  split; [by case_bool_decide|]. case_bool_decide; simpl; [done|].
  by rewrite forget_altered, delete_insert_eq.
Qed.
End settled.

Section merge.
Context {S : Type} `{BindingPolicy S}.
Variable cfg : CoordinatorConfig.
Abbreviation coord := (Coordinator (S:=S)).

Lemma stages_snoc ms m : stages_of cfg (ms ++ [m]) = stages_of cfg ms ∪ {[stage_of cfg m]}.
Proof. unfold stages_of. rewrite map_app, list_to_set_app_L. simpl. set_solver. Qed.

(** While some terminal is missing the request stays tracked and its future
    pending, with the results collected so far. *)
Lemma run_waiting (c : coord) rid info E ms :
  c_requests c !! rid = Some info → ri_terminal_stages info = E → 2 ≤ size E →
  c_partials c !! rid = None → Forall (counts cfg rid E) ms → stages_of cfg ms ⊂ E →
  let c' := run_completions cfg ms c in
  c_requests c' = c_requests c ∧ c_futures c' = c_futures c ∧ heap_futures c' = heap_futures c ∧
  default [] (c_partials c' !! rid) = collect cfg ms.
Proof.
  intros Hi HE Hsize Hp. induction ms as [|m ms IH] using rev_ind; intros Hms Hsub;
    [unfold run_completions; simpl; by rewrite Hp|].
  apply Forall_app in Hms as [Hms Hm]. rewrite Forall_singleton in Hm.
  rewrite stages_snoc in Hsub.
  destruct IH as (E1 & E2 & E3 & E4); [done|set_solver|].
  unfold run_completions in *. rewrite fold_left_app. simpl.
  set (c1 := fold_left (λ c m, (handle_completion cfg m c).1) ms c) in *.
  pose proof (one_completion cfg c1 m rid E info) as [F1 F2]; rewrite ?E1; [done..|].
  rewrite E4, <-collect_snoc, collect_keys, stages_snoc, bool_decide_true in F2 by done.
  destruct F2 as (F2 & F3 & F4).
  split_and!; [congruence..|]. by rewrite F3, lookup_insert_eq.
Qed.

(** The message that completes the set settles the future with all of them. *)
Lemma run_completed (c : coord) rid info E f ms m :
  c_requests c !! rid = Some info → ri_terminal_stages info = E → 2 ≤ size E →
  c_partials c !! rid = None → c_futures c !! rid = Some f → heap_futures c !! f = Some FutPending →
  Forall (counts cfg rid E) (ms ++ [m]) → stages_of cfg ms ⊂ E → stages_of cfg (ms ++ [m]) = E →
  let c' := run_completions cfg (ms ++ [m]) c in
  c_requests c' = delete rid (c_requests c) ∧ c_partials c' !! rid = None ∧
  heap_futures c' !! f = Some (FutResult (PDict (collect cfg (ms ++ [m])))).
Proof.
  intros Hi HE Hsize Hp Hf Hpend Hms Hsub Hall.
  apply Forall_app in Hms as [Hms Hm]. rewrite Forall_singleton in Hm.
  destruct (run_waiting c rid info E ms) as (E1 & E2 & E3 & E4); [done..|].
  unfold run_completions in *. rewrite fold_left_app. simpl.
  set (c1 := fold_left (λ c m, (handle_completion cfg m c).1) ms c) in *.
  pose proof (one_completion cfg c1 m rid E info) as [F1 F2]; rewrite ?E1; [done..|].
  rewrite E4, <-collect_snoc, collect_keys, Hall, bool_decide_false in F2 by (intros [_ Hn]; by apply Hn).
  destruct F2 as (F2 & F3 & F4). rewrite F2, F3, F4, E1, E2, E3, Hf.
  split_and!; [done|by rewrite lookup_delete_eq|].
  unfold settle. by rewrite Hpend, lookup_insert_eq.
Qed.

(** A covering list has a first message that covers. *)
Lemma first_cover E ms :
  E ≠ ∅ → stages_of cfg ms = E →
  ∃ pre m post, ms = pre ++ m :: post ∧ stages_of cfg pre ⊂ E ∧ stages_of cfg (pre ++ [m]) = E.
Proof.
  intros HE. induction ms as [|m ms IH] using rev_ind; intros Hms; [by subst|].
  destruct (decide (stages_of cfg ms = E)) as [He|Hne].
  - destruct IH as (pre & m' & post & -> & ? & ?); [done|].
    exists pre, m', (post ++ [m]). by rewrite <-app_assoc.
  - exists ms, m, []. split_and!; [done| |done]. rewrite stages_snoc in Hms. split; [set_solver|].
    intros Hsub. apply Hne. apply set_eq. set_solver.
Qed.

Lemma NoDup_last_filter ms m :
  NoDup (map (stage_of cfg) ms) → m ∈ ms → last (filter (λ x, stage_of cfg x = stage_of cfg m) ms) = Some m.
Proof.
  induction ms as [|m' ms IH]; [set_solver|]. simpl. intros [Hn Hd]%NoDup_cons Hm.
  rewrite filter_cons. apply elem_of_cons in Hm as [->|Hm].
  - rewrite decide_True by done.
    replace (filter (λ x, stage_of cfg x = stage_of cfg m') ms) with (@nil CompleteMessage); [done|].
    symmetry. apply filter_none. apply Forall_forall. intros x Hx Hs. apply Hn.
    apply list_elem_of_fmap. by exists x.
  - rewrite decide_False; [by apply IH|]. intros Hs. apply Hn. apply list_elem_of_fmap. by exists m.
Qed.

Lemma collect_perm ms ms' s :
  ms ≡ₚ ms' → NoDup (map (stage_of cfg) ms) → od_get s (collect cfg ms) = od_get s (collect cfg ms').
Proof.
  intros Hp Hd. assert (NoDup (map (stage_of cfg) ms')) as Hd' by (by rewrite <-Hp).
  assert (∀ ms, NoDup (map (stage_of cfg) ms) → ∀ v, od_get s (collect cfg ms) = Some v ↔
    ∃ m, m ∈ ms ∧ stage_of cfg m = s ∧ cm_result m = v) as Hchar.
  { clear. intros ms Hd v. rewrite collect_get, fmap_Some. split.
    - intros (m & Hl & ->). apply last_Some_elem_of, list_elem_of_filter in Hl as [? ?]. eauto.
    - intros (m & Hm & <- & <-). exists m. by rewrite NoDup_last_filter. }
  apply option_eq. intros v. rewrite !Hchar by done. by setoid_rewrite Hp.
Qed.
End merge.

(** ** Properties *)
Section properties.
Context {S : Type} `{BindingPolicy S}.
Variable cfg : CoordinatorConfig.
Abbreviation coord := (Coordinator (S:=S)).
Abbreviation system := (sys (S:=S)).

(** C11. In every state any interleaving of the event loop reaches: no more
    requests are tracked than [max_in_flight]; a tracked request waits for static
    terminals and is not completed or aborted; partial results are held only for
    tracked requests, name each terminal once, and are a strict part of the
    terminals the request waits for. *)
Theorem coordinator_invariant pol (s : system) :
  reachable cfg pol s →
  (∀ n, max_in_flight cfg = Some n → (0 ≤ n)%Z → (Z.of_nat (size (c_requests (s_co s))) ≤ n)%Z) ∧
  (∀ rid info, c_requests (s_co s) !! rid = Some info →
     ri_terminal_stages info ⊆ static_terminals cfg ∧ ri_state info ∉ [COMPLETED; ABORTED]) ∧
  (∀ rid p, c_partials (s_co s) !! rid = Some p →
     ∃ info, c_requests (s_co s) !! rid = Some info ∧ NoDup (od_keys p) ∧
       (list_to_set (od_keys p) : gset string) ⊂ ri_terminal_stages info).
Proof.
  intros Ic%reachable_inv%si_co. split_and!; [apply Ic| |].
  - intros rid info Hi. apply (ci_infos _ _ Ic _ _ Hi).
  - intros rid p Hp. destruct (ci_partials _ _ Ic _ _ Hp) as (info & ? & ? & _ & ?). eauto.
Qed.

(** Live calls own what they registered: two live [submit]/[stream] calls
    never share a request id; the future a [submit] call awaits is the one
    registered under its id, and if it is still pending the request is still
    tracked; a [stream] call's queue is the one registered under its id; and a
    registered queue always belongs to a live [stream] call. *)
Theorem calls_own_their_registrations pol (s : system) :
  reachable cfg pol s →
  (∀ i j a b, s_clients s !! i = Some a → s_clients s !! j = Some b →
     client_rid a = client_rid b → i = j) ∧
  (∀ i rid f, s_clients s !! i = Some (SubmitWaiting rid f) →
     c_futures (s_co s) !! rid = Some f ∧
     (heap_futures (s_co s) !! f = Some FutPending → is_Some (c_requests (s_co s) !! rid))) ∧
  (∀ i rid q E comp, s_clients s !! i = Some (StreamReading rid q E comp) →
     c_queues (s_co s) !! rid = Some q) ∧
  (∀ rid q, c_queues (s_co s) !! rid = Some q →
     ∃ i cl, s_clients s !! i = Some cl ∧ reads_queue cl rid q).
Proof.
  intros I%reachable_inv. split_and!.
  - apply (si_rid_inj _ _ I).
  - intros i rid f Hcl. destruct (si_clients _ _ I _ _ Hcl) as [Hf _]. split; [done|].
    by apply (ci_pending _ _ (si_co _ _ I)).
  - intros i rid q E comp Hcl. apply (si_clients _ _ I _ _ Hcl).
  - apply (si_queue_owner _ _ I).
Qed.

(** An abort hits the request it was issued for: while an abort task is in
    flight its id stays reserved, so no later request can take it, and whatever
    request is tracked under the id when the broadcast returns is the very record
    the abort was created for. *)
Theorem abort_hits_its_request pol (s : system) t a :
  reachable cfg pol s → s_aborts s !! t = Some a →
  c_abort_tasks (s_co s) !! as_rid a = Some t ∧
  (∀ arg sq c sent, submit_begin cfg (as_rid a) arg sq (s_co s) ≠ (c, Ok sent)) ∧
  ∀ info, c_requests (s_co s) !! as_rid a = Some info → ri_id info = as_target a.
Proof.
  intros I%reachable_inv Ha. pose proof (si_abort_registered _ _ I _ _ Ha) as Ht. split_and!; [done| |].
  - intros arg sq c sent (_ & (_ & _ & _ & Hn)%reserved_false & _)%submit_begin_ok. congruence.
  - intros info. by eapply (si_abort_target _ _ I).
Qed.

(** A settled future never changes: whatever the coordinator and its callers
    do afterwards, the outcome a caller will see is the first one. *)
Theorem future_settles_once pol (s s' : system) f o :
  reachable cfg pol s → rtc (step cfg) s s' →
  heap_futures (s_co s) !! f = Some o → fut_done o = true →
  heap_futures (s_co s') !! f = Some o.
Proof.
  intros I%reachable_inv Hr. induction Hr; [done|]. intros Hf Ho.
  apply IHHr; [by eapply step_inv|by eapply step_keeps|done].
Qed.

(** C12. No stream reader is stranded: without a terminal resolver, when a
    request is no longer tracked (completed, failed, aborted or dropped by a
    fatal error), the events already in the queue of the [stream] call that is
    reading for it take its loop out, however deliveries, aborts and reads
    interleaved. *)
Theorem stream_reader_never_stranded pol (s : system) i rid q E comp :
  (∀ x l, replicas (replica_topology cfg) !! x = Some l → (parse_replica_instance_name x).2 = None) →
  terminal_stages_resolver cfg = None →
  reachable cfg pol s →
  s_clients s !! i = Some (StreamReading rid q E comp) →
  c_requests (s_co s) !! rid = None →
  ∃ l, heap_queues (s_co s) !! q = Some l ∧ ends cfg E comp l = true.
Proof.
  intros Hp Hno Hr Hcl Hn. destruct (reachable_streams cfg pol s Hp Hno Hr) as [I Hs].
  destruct (ss_waits _ _ Hs _ _ Hcl) as [-> _].
  destruct (ss_streams _ _ Hs _ _ _ _ _ Hcl eq_refl) as (l & Hl & [He|[[? Ht] _]]); [eauto|congruence].
Qed.

(** The multi-terminal merge: for a request waiting for two or more
    terminals, any run of successes from them leaves it tracked and its future
    pending exactly until every terminal has reported; the completing message
    stops the tracking and settles the future with one entry per terminal, each
    the latest result that terminal reported. *)
Theorem merge_waits_for_every_terminal (c : coord) rid info E f ms :
  c_requests c !! rid = Some info → ri_terminal_stages info = E → 2 ≤ size E →
  c_partials c !! rid = None → c_futures c !! rid = Some f → heap_futures c !! f = Some FutPending →
  Forall (counts cfg rid E) ms →
  (stages_of cfg ms ⊂ E →
     c_requests (run_completions cfg ms c) !! rid = Some info ∧
     heap_futures (run_completions cfg ms c) !! f = Some FutPending) ∧
  (stages_of cfg ms = E →
     ∃ pre post merged, ms = pre ++ post ∧
       c_requests (run_completions cfg pre c) !! rid = None ∧
       c_partials (run_completions cfg pre c) !! rid = None ∧
       heap_futures (run_completions cfg pre c) !! f = Some (FutResult (PDict merged)) ∧
       NoDup (od_keys merged) ∧ (list_to_set (od_keys merged) : gset string) = E ∧
       ∀ s, od_get s merged = cm_result <$> last (filter (λ m, stage_of cfg m = s) pre)).
Proof.
  intros Hi HE Hsize Hp Hf Hpend Hms. split.
  - intros Hsub. destruct (run_waiting cfg c rid info E ms) as (-> & _ & -> & _); done.
  - intros Hall. assert (E ≠ ∅) as Hne by (intros ->; rewrite size_empty in Hsize; lia).
    destruct (first_cover cfg E ms Hne Hall) as (pre & m & post & -> & Hsub & Hcov).
    exists (pre ++ [m]), post, (collect cfg (pre ++ [m])).
    assert (Forall (counts cfg rid E) (pre ++ [m])) as Hpre.
    { rewrite (cons_middle m pre post), app_assoc in Hms. by apply Forall_app in Hms as [? _]. }
    destruct (run_completed cfg c rid info E f pre m) as (E1 & E2 & E3); [done..|].
    rewrite E1, E2, E3. split_and!; try done.
    + by rewrite <-app_assoc.
    + by rewrite lookup_delete_eq.
    + generalize (pre ++ [m]). intros l. induction l using rev_ind; [constructor|].
      rewrite collect_snoc. by apply od_set_NoDup.
    + by rewrite collect_keys.
    + intros s. apply collect_get.
Qed.

(** The merge does not depend on the order in which the terminals report:
    two interleavings of one success per terminal settle the future with
    dictionaries that agree on every key. *)
Theorem merge_order_irrelevant (c : coord) rid info E f ms ms' :
  c_requests c !! rid = Some info → ri_terminal_stages info = E → 2 ≤ size E →
  c_partials c !! rid = None → c_futures c !! rid = Some f → heap_futures c !! f = Some FutPending →
  Forall (counts cfg rid E) ms → NoDup (map (stage_of cfg) ms) → stages_of cfg ms = E → ms ≡ₚ ms' →
  ∃ merged merged',
    heap_futures (run_completions cfg ms c) !! f = Some (FutResult (PDict merged)) ∧
    heap_futures (run_completions cfg ms' c) !! f = Some (FutResult (PDict merged')) ∧
    ∀ s, od_get s merged = od_get s merged'.
Proof.
  intros Hi HE Hsize Hp Hf Hpend Hms Hnd Hall Hperm.
  assert (∀ l, ms ≡ₚ l →
    heap_futures (run_completions cfg l c) !! f = Some (FutResult (PDict (collect cfg l)))) as Hrun.
  { intros l Hl. destruct l as [|m l _] using rev_ind.
    - apply Permutation_nil_r in Hl as ->. unfold stages_of in Hall. simpl in Hall.
      subst E. rewrite <-Hall, size_empty in Hsize. lia.
    - assert (stages_of cfg (l ++ [m]) = E) as Hall'.
      { rewrite <-Hall. unfold stages_of. apply set_eq. intros x. by rewrite Hl. }
      apply (run_completed cfg c rid info E f l m); try done; [by rewrite <-Hl|].
      rewrite stages_snoc in Hall'. split; [set_solver|]. intros Hsub.
      assert (NoDup (map (stage_of cfg) (l ++ [m]))) as Hnd' by (by rewrite <-Hl).
      rewrite map_app in Hnd'. apply NoDup_app in Hnd' as (_ & Hd & _).
      assert (stage_of cfg m ∈ stages_of cfg l) as Hin by set_solver.
      unfold stages_of in Hin. apply elem_of_list_to_set in Hin. apply (Hd _ Hin). simpl. set_solver. }
  exists (collect cfg ms), (collect cfg ms'). split_and!; [by apply Hrun|by apply Hrun|].
  intros s. by apply collect_perm.
Qed.
End properties.

(** ** Failures, admission and admin operations *)
Lemma is_prefix_app p s : is_prefix p (p +:+ s) = true.
Proof.
  induction p as [|a p IH]; [by destruct s|].
  change (Ascii.eqb a a && is_prefix p (p +:+ s) = true). by rewrite Ascii.eqb_refl, IH.
Qed.

Lemma substring_app a p b : substring_of p (a +:+ p +:+ b) = true.
Proof.
  induction a as [|x a IH].
  - change ("" +:+ p +:+ b) with (p +:+ b). pose proof (is_prefix_app p b) as Hp.
    unfold substring_of. destruct (p +:+ b); by rewrite Hp.
  - change (is_prefix p (String x (a +:+ p +:+ b)) || substring_of p (a +:+ p +:+ b) = true).
    by rewrite IH, orb_true_r.
Qed.

Section failures.
Context {S : Type} `{BindingPolicy S}.
Variable cfg : CoordinatorConfig.
Abbreviation coord := (Coordinator (S:=S)).

(** Fail fast: the first failed completion of a tracked request suspends for
    the abort broadcast and then drops the request and its partial results; a
    waiting caller gets the transported error ([QueueFullError] whenever the text
    carries its message), a stream gets the failed completion in its queue and
    its future is cancelled; no other request changes; and any completion that
    arrives later for the request is ignored. *)
Theorem failure_fails_the_request (c : coord) m info :
  coord_inv cfg c →
  c_requests c !! cm_request_id m = Some info → cm_success m = false →
  let rid := cm_request_id m in
  ∃ c1 m', handle_completion cfg m c = (c1, Some m') ∧
    let c2 := handle_completion_fail m' c1 in
    c_requests c2 = delete rid (c_requests c) ∧ c_partials c2 = delete rid (c_partials c) ∧
    (∀ f, c_futures c !! rid = Some f → heap_futures c !! f = Some FutPending →
       heap_futures c2 !! f = Some (if bool_decide (is_Some (c_queues c !! rid)) then FutCancelled
                                    else FutExc (from_message (cm_error m)))) ∧
    (∀ f rid', c_futures c !! rid' = Some f → rid' ≠ rid → heap_futures c2 !! f = heap_futures c !! f) ∧
    (∀ q l, c_queues c !! rid = Some q → heap_queues c !! q = Some l →
       heap_queues c2 !! q = Some (l ++ [EvComplete m']) ∧ cm_success m' = false) ∧
    (∀ a b, cm_error m = Some (a +:+ QUEUE_FULL_MESSAGE +:+ b) → from_message (cm_error m) = QueueFullError) ∧
    ∀ m2, cm_request_id m2 = rid → handle_completion cfg m2 c2 = (c2, None).
Proof.
  intros I Hi Hm rid. unfold handle_completion at 1. fold rid. fold rid in Hi. rewrite Hi.
  set (m' := if bool_decide (_ ≠ _) then _ else m).
  assert (cm_success m' = false ∧ cm_error m' = cm_error m ∧ cm_request_id m' = rid) as (Hs & He & Hr)
    by (subst m'; by case_bool_decide).
  clearbody m'. rewrite Hs. simpl. eexists _, m'. split; [done|].
  unfold handle_completion_fail. rewrite Hr, He. simpl. split_and!.
  - apply forget_altered.
  - done.
  - intros f -> Hf. unfold settle. by rewrite Hf, lookup_insert_eq.
  - intros f rid' Hf Hne. destruct (c_futures c !! rid) as [f0|] eqn:Hf0; [|done].
    unfold settle. assert (f0 ≠ f) as Hne' by (intros ->; apply Hne; by eapply (ci_future_inj _ _ I)).
    destruct (heap_futures c !! f0) as [[]|]; by rewrite ?lookup_insert_ne.
  - intros q l -> Hl. by rewrite lookup_alter, decide_True, Hl.
  - intros a b ->. unfold from_message. by rewrite substring_app.
  - intros m2 Hm2. unfold handle_completion. simpl. rewrite Hm2.
    unfold rid. rewrite lookup_delete_eq. done.
Qed.

Lemma fail_all_outcome message l c rid r :
  (∀ rid', c_futures c !! rid' = Some r → rid' = rid) →
  rid ∈ l.*1 → c_futures c !! rid = Some r → heap_futures c !! r = Some FutPending →
  heap_futures (fold_left (fail_one message) l c) !! r =
    Some (if bool_decide (is_Some (c_queues (S:=S) c !! rid)) then FutCancelled
          else FutExc (RuntimeError message)).
Proof.
  revert c. induction l as [|[rid0 info] l IH]; intros c Hinj Hin Hf Hp; simpl; [set_solver|].
  destruct (decide (rid0 = rid)) as [->|Hne].
  - assert (heap_futures (fail_one message c (rid, info)) !! r =
      Some (if bool_decide (is_Some (c_queues (S:=S) c !! rid)) then FutCancelled
            else FutExc (RuntimeError message))) as Hr.
    { simpl. rewrite Hf. unfold settle. by rewrite Hp, lookup_insert_eq. }
    destruct (fail_all_effect message l (fail_one message c (rid, info))) as (_ & _ & _ & _ & Hh & _).
    destruct (Hh r) as [->|[E _]]; [done|]. rewrite Hr in E. by case_bool_decide.
  - rewrite (IH (fail_one message c (rid0, info))); [done|done|set_solver|done|].
    simpl. destruct (c_futures c !! rid0) as [r0|] eqn:Hr0; [|done].
    assert (r0 ≠ r) by (intros ->; by apply Hne, Hinj). unfold settle.
    destruct (heap_futures c !! r0) as [[]|]; by rewrite ?lookup_insert_ne.
Qed.

Lemma fail_all_event message l c rid q l0 :
  rid ∈ l.*1 → c_queues (S:=S) c !! rid = Some q → heap_queues c !! q = Some l0 →
  ∃ evs, heap_queues (fold_left (fail_one message) l c) !! q = Some (l0 ++ evs) ∧
    failed_event rid message ∈ evs.
Proof.
  revert c l0. induction l as [|[rid0 info] l IH]; intros c l0 Hin Hq Hl; simpl; [set_solver|].
  destruct (decide (rid0 = rid)) as [->|Hne].
  - assert (heap_queues (fail_one message c (rid, info)) !! q = Some (l0 ++ [failed_event rid message])) as Hl'.
    { simpl. by rewrite Hq, lookup_alter, decide_True, Hl. }
    destruct (fail_all_queue_grows message l _ _ _ Hl') as [evs ->].
    exists (failed_event rid message :: evs). rewrite <-app_assoc. split; [done|set_solver].
  - destruct (put_some (set_requests (alter (set_failed (Some message)) rid0) c) rid0 rid q
      (failed_event rid0 message) l0 Hq Hl) as (evs & Hl' & _).
    destruct (IH (fail_one message c (rid0, info)) (l0 ++ evs)) as (evs' & -> & Hin'); [set_solver|done| |].
    + exact Hl'.
    + exists (evs ++ evs'). rewrite app_assoc. split; [done|set_solver].
Qed.

(** A fatal error leaves nobody waiting: [fail_pending_requests] untracks
    every request; each caller still waiting gets [RuntimeError] with the message,
    each stream a failed completion; the loop stops and every later submission is
    refused with the same error. *)
Theorem fatal_error_reaches_everyone (c : coord) message :
  coord_inv cfg c →
  let c' := fail_pending_requests message c in
  c_requests c' = ∅ ∧ c_partials c' = ∅ ∧ c_running c' = false ∧
  (∀ rid r, c_futures c !! rid = Some r → heap_futures c !! r = Some FutPending →
     heap_futures c' !! r = Some (if bool_decide (is_Some (c_queues c !! rid)) then FutCancelled
                                  else FutExc (RuntimeError message))) ∧
  (∀ rid q l, is_Some (c_requests c !! rid) → c_queues c !! rid = Some q → heap_queues c !! q = Some l →
     ∃ evs, heap_queues c' !! q = Some (l ++ evs) ∧ failed_event rid message ∈ evs) ∧
  ∀ rid arg sq, submit_begin cfg rid arg sq c' = (c', Raise (RuntimeError message)).
Proof.
  intros I c'. assert (∀ rid, is_Some (c_requests c !! rid) → rid ∈ (map_to_list (c_requests c)).*1) as Hin.
  { intros rid [info Hi]. apply list_elem_of_fmap. exists (rid, info). split; [done|].
    by apply elem_of_map_to_list. }
  assert (c_running c' = false ∧ c_fatal_error c' = Some message) as [Hrun Hfatal].
  { subst c'. unfold fail_pending_requests. simpl. generalize (map_to_list (c_requests c)). intros l.
    assert (∀ c0 : coord, c_running c0 = false ∧ c_fatal_error c0 = Some message →
      c_running (fold_left (fail_one message) l c0) = false ∧
      c_fatal_error (fold_left (fail_one message) l c0) = Some message) as Hf.
    { induction l as [|e l IH]; intros c0 Hc0; simpl; [done|]. by apply IH. }
    by apply Hf. }
  split_and!; [done|done|done| | |].
  - intros rid r Hf Hp. subst c'. unfold fail_pending_requests. simpl.
    rewrite (fail_all_outcome message _ (set_running false (Some message) c) rid r); try done.
    + intros rid' Hf'. by eapply (ci_future_inj _ _ I).
    + apply Hin. by eapply (ci_pending _ _ I).
  - intros rid q l Ht Hq Hl. apply (fail_all_event message _ (set_running false (Some message) c)); auto.
  - intros rid arg sq. unfold submit_begin. by rewrite Hfatal.
Qed.
End failures.

Section admission.
Context {S : Type} `{BindingInRange S}.
Variable cfg : CoordinatorConfig.
Abbreviation coord := (Coordinator (S:=S)).

(** What an admission needs of the coordinator's state. *)
Definition can_admit (rid : string) (c : coord) : Prop :=
  c_fatal_error c = None ∧ _request_id_is_reserved rid c = false ∧
  ∀ n, max_in_flight cfg = Some n → (Z.of_nat (size (c_requests c)) < n)%Z.

(** Admission, on every branch, for a deployment whose topology is the
    expansion of its configuration and whose instances are all registered, with
    any binding policy that stays in range: a fatal error, then a reserved id,
    then a full coordinator are refused with their own exceptions and nothing but
    the policy's state changes; otherwise the request is accepted, tracked as
    pending with a fresh pending future, and sent to the registered instance of
    the entry stage its bindings select. *)
Theorem admission_decision {R} (cfgs : list (StageConfig R)) stages rid arg sq (c : coord) :
  wf_pipeline cfgs (logical_process_plan cfg) →
  expand_replica_stages cfgs (logical_process_plan cfg) = Ok (stages, replica_topology cfg) →
  entry_stage cfg ∈ map s_name cfgs →
  (∀ i, i ∈ map s_name stages → is_Some (od_get i (c_stages c))) →
  terminal_stages_resolver cfg = None →
  (∀ m, c_fatal_error c = Some m → submit_begin cfg rid arg sq c = (c, Raise (RuntimeError m))) ∧
  (c_fatal_error c = None → _request_id_is_reserved rid c = true →
     submit_begin cfg rid arg sq c = (c, Raise (ValueError "request already exists"))) ∧
  (c_fatal_error c = None → _request_id_is_reserved rid c = false → ¬ can_admit rid c →
     submit_begin cfg rid arg sq c = (c, Raise QueueFullError)) ∧
  (can_admit rid c →
     ∃ pol c' ob entry endpoint,
       assign_replica_bindings (logical_process_plan cfg) rid (c_policy c) = Ok (ob, pol) ∧
       resolve (replica_topology cfg) (entry_stage cfg) (default 0%Z (default ∅ ob !! entry_stage cfg)) = Ok entry ∧
       od_get entry (c_stages c) = Some endpoint ∧
       submit_begin cfg rid arg sq c = (c', Ok (entry, endpoint,
         mkSubmit rid (mkPayload rid (to_omni_request arg)
           (PDict [("raw_inputs", inputs (to_omni_request arg))])) ob)) ∧
       c_requests c' = <[rid := mkInfo (heap_next c) PENDING (entry_stage cfg)
                                  (static_terminals cfg) PNone None]> (c_requests c) ∧
       ∃ f, c_futures c' = <[rid := f]> (c_futures c) ∧ heap_futures c' = <[f := FutPending]> (heap_futures c) ∧
            heap_next c ≤ f).
Proof.
  intros Hwf Hexp Hentry Hreg Hno. unfold submit_begin, can_admit. split_and!.
  - by intros m ->.
  - by intros -> ->.
  - intros -> -> Hn. destruct (max_in_flight cfg) as [n|]; [|by exfalso; apply Hn].
    rewrite bool_decide_true; [done|]. apply Z.nlt_ge. intros Hlt. apply Hn.
    split_and!; [done..|]. by intros ? [= <-].
  - intros (-> & -> & Hcap).
    assert (match max_in_flight cfg with
            | Some n => bool_decide (n ≤ Z.of_nat (size (c_requests c)))%Z | None => false end = false) as ->.
    { destruct (max_in_flight cfg) as [n|]; [|done]. apply bool_decide_eq_false. specialize (Hcap n eq_refl). lia. }
    destruct Hwf as [W1 W2 W3 W4 W5].
    rewrite expand_spec in Hexp by done. injection Hexp as <- Htopo.
    destruct (assign_spec (logical_process_plan cfg) rid (c_policy c) W3) as (ob & pol & f & Ha & _ & Hf & Hb).
    rewrite Ha. simpl.
    pose proof (replicas_of_lookup (logical_process_plan cfg) (entry_stage cfg) W3) as Ht.
    apply list_elem_of_fmap in Hentry as (ce & He & Hce).
    assert (∃ entry,
      (if is_replicated (replica_topology cfg) (entry_stage cfg)
       then i ← dict_get (entry_stage cfg) (default ∅ ob); resolve (replica_topology cfg) (entry_stage cfg) i
       else Ok (entry_stage cfg)) = Ok entry ∧
      resolve (replica_topology cfg) (entry_stage cfg) (default 0%Z (default ∅ ob !! entry_stage cfg)) = Ok entry ∧
      entry ∈ map s_name (expansion_of (processes (logical_process_plan cfg)) ce)) as (entry & -> & Hres & Hin).
    { rewrite expansion_names, <-He. unfold is_replicated, dict_get. rewrite Hb. rewrite <-Htopo. simpl.
      rewrite Ht. unfold projected, replicas_entry in *.
      destruct (owner _ _) as [p|] eqn:Ho; simpl.
      - destruct (proc_is_replicated p) eqn:Hr; simpl.
        + apply owner_Some in Ho as [Hp Hs]. pose proof (Hf p Hr Hp) as Hrange.
          destruct (resolve_replicated (mkTopology (replicas_of (logical_process_plan cfg))) (entry_stage cfg)
            (instance_names (entry_stage cfg) (p_num_replicas p)) (f p)) as (i & Hi & Hri); [done| |].
          { unfold instance_names. by rewrite length_map, length_seq. }
          exists i. split_and!; [done|done|]. by eapply list_elem_of_lookup_2.
        + exists (entry_stage cfg). split_and!; [done| |set_solver]. unfold resolve. simpl. by rewrite Ht.
      - exists (entry_stage cfg). split_and!; [done| |set_solver]. unfold resolve. simpl. by rewrite Ht. }
    destruct (Hreg entry) as [endpoint Hep].
    { rewrite concat_map, map_map. apply list_elem_of_In, in_concat.
      exists (map s_name (expansion_of (processes (logical_process_plan cfg)) ce)).
      split; [|by apply list_elem_of_In]. apply in_map_iff. exists ce. by rewrite <-list_elem_of_In. }
    rewrite Hep. unfold _resolve_terminal_stages. rewrite Hno.
    exists pol. eexists _, ob, entry, endpoint. split_and!; [done|done|done|done| |].
    + by destruct sq.
    + exists (1 + heap_next c). split_and!; [by destruct sq|by destruct sq|lia].
Qed.
End admission.

Section admin.
Context {S : Type}.
Variable cfg : CoordinatorConfig.
Abbreviation coord := (Coordinator (S:=S)).

Definition admin_collect (rs : list AdminResult) : list (string * AdminResult) :=
  fold_left (λ d r, od_set (ar_stage r) r d) rs [].

Definition answered (rs : list AdminResult) : gset string := list_to_set (map ar_stage rs).

Lemma admin_collect_snoc rs r : admin_collect (rs ++ [r]) = od_set (ar_stage r) r (admin_collect rs).
Proof. unfold admin_collect. by rewrite fold_left_app. Qed.

Lemma admin_collect_keys rs : (list_to_set (od_keys (admin_collect rs)) : gset string) = answered rs.
Proof.
  induction rs as [|r rs IH] using rev_ind; [done|].
  rewrite admin_collect_snoc, od_set_keys, IH. unfold answered.
  rewrite map_app, list_to_set_app_L. simpl. set_solver.
Qed.

(** An admin operation resolves exactly when every addressed stage has
    answered, however its results interleave with those of other operations: the
    results kept for it are its own, the latest per stage; its future stays
    pending while an addressed stage is silent; and once settled it holds the
    results of the first prefix in which all had answered. *)
Theorem admin_waits_for_all_targets (c : coord) op action targets rs :
  targets ≠ [] →
  let own := List.filter (λ r, bool_decide (ar_op_id r = op)) in
  ∃ p, c_admin_ops (fold_left (λ c r, _handle_admin_result r c) rs (admin_register op action targets c)) !! op = Some p ∧
    ap_results p = admin_collect (own rs) ∧
    (ap_future p = FutPending ↔ ¬ (list_to_set targets : gset string) ⊆ answered (own rs)) ∧
    ∀ v, ap_future p = FutResult v →
      ∃ pre r post, rs = pre ++ r :: post ∧ v = admin_collect (own (pre ++ [r])) ∧
        ¬ (list_to_set targets : gset string) ⊆ answered (own pre) ∧
        (list_to_set targets : gset string) ⊆ answered (own (pre ++ [r])).
Proof.
  intros Hne own.
  assert (∃ p, c_admin_ops (fold_left (λ c r, _handle_admin_result r c) rs (admin_register op action targets c)) !! op = Some p ∧
    ap_expected p = list_to_set targets ∧ ap_results p = admin_collect (own rs) ∧
    ((ap_future p = FutPending ∧ ¬ (list_to_set targets : gset string) ⊆ answered (own rs)) ∨
     (∃ v pre r post, ap_future p = FutResult v ∧ rs = pre ++ r :: post ∧ v = admin_collect (own (pre ++ [r])) ∧
        ¬ (list_to_set targets : gset string) ⊆ answered (own pre) ∧
        (list_to_set targets : gset string) ⊆ answered (own (pre ++ [r])) ∧
        (list_to_set targets : gset string) ⊆ answered (own rs)))) as (p & Hp & _ & Hr & Hor).
  { induction rs as [|r rs IH] using rev_ind.
    - simpl. rewrite lookup_insert_eq. eexists. split_and!; [done..|]. left. split; [done|].
      destruct targets as [|t ts]; [done|]. unfold answered. simpl. set_solver.
    - destruct IH as (p & Hp & He & Hres & Hor). rewrite fold_left_app. simpl.
      set (c1 := fold_left _ rs _) in *. unfold _handle_admin_result.
      unfold own in *. rewrite List.filter_app. simpl.
      destruct (bool_decide (ar_op_id r = op)) eqn:Hop; bool_simpl.
      + rewrite Hop, Hp. simpl. rewrite lookup_insert_eq. eexists. split; [done|]. simpl.
        split_and!; [done|by rewrite admin_collect_snoc, Hres|].
        rewrite Hres, He, <-admin_collect_snoc, admin_collect_keys.
        destruct Hor as [[Hfut Hnot]|(v & pre & r' & post & Hfut & -> & Hv & Hn & Hy & Hall)].
        * rewrite Hfut. case_bool_decide as Hc; [right|by left].
          eexists _, rs, r, []. rewrite List.filter_app. simpl. rewrite bool_decide_true by done.
          split_and!; done.
        * right. exists v, pre, r', (post ++ [r]). rewrite Hfut. split_and!; try done.
          -- by case_bool_decide.
          -- by rewrite <-app_assoc.
          -- etrans; [exact Hall|]. unfold answered. rewrite map_app, list_to_set_app_L. set_solver.
      + rewrite app_nil_r.
        assert (∀ c2 : coord, c_admin_ops c2 !! op = Some p → ∃ p', c_admin_ops c2 !! op = Some p' ∧ p' = p) as Hsame by eauto.
        exists p. split_and!; try done.
        * destruct (c_admin_ops c1 !! ar_op_id r); [|done]. simpl. by rewrite lookup_insert_ne.
        * destruct Hor as [?|(v & pre & r' & post & Hfut & -> & Hv & Hn & Hy & Hall)]; [by left|right].
          exists v, pre, r', (post ++ [r]). rewrite <-app_assoc. split_and!; done. }
  exists p. split_and!; [done|done| |].
  - destruct Hor as [[? ?]|(v & pre & r & post & Hf & _ & _ & _ & _ & Hall)]; [tauto|].
    rewrite Hf. split; [done|tauto].
  - intros v Hv. destruct Hor as [[Hf _]|(v' & pre & r & post & Hf & Hrs & Hv' & Hn & Hy & _)]; [congruence|].
    rewrite Hf in Hv. injection Hv as ->. exists pre, r, post. split_and!; done.
Qed.

Lemma add_instance_spec resolved i :
  NoDup resolved → NoDup (add_instance resolved i) ∧ ∀ x, x ∈ add_instance resolved i ↔ x ∈ resolved ∨ x = i.
Proof.
  intros Hd. unfold add_instance. case_bool_decide; [split; [done|]; naive_solver|]. split.
  - apply NoDup_app. split_and!; [done|set_solver|apply NoDup_singleton].
  - set_solver.
Qed.

Lemma add_instances_spec l resolved :
  NoDup resolved →
  NoDup (fold_left add_instance l resolved) ∧
  ∀ x, x ∈ fold_left add_instance l resolved ↔ x ∈ resolved ∨ x ∈ l.
Proof.
  revert resolved. induction l as [|i l IH]; intros resolved Hd; simpl; [split; [done|set_solver]|].
  destruct (add_instance_spec resolved i Hd) as [Hd' Hx].
  destruct (IH _ Hd') as [? Hy]. split; [done|]. intros x. rewrite Hy, Hx. set_solver.
Qed.

Lemma dedup_spec names :
  NoDup (dedup_instances cfg names) ∧
  ∀ x, x ∈ dedup_instances cfg names ↔ ∃ n, n ∈ names ∧ x ∈ instances (replica_topology cfg) n.
Proof.
  unfold dedup_instances.
  assert (∀ resolved, NoDup resolved →
    NoDup (fold_left (λ resolved name, fold_left add_instance (instances (replica_topology cfg) name) resolved) names resolved) ∧
    ∀ x, x ∈ fold_left (λ resolved name, fold_left add_instance (instances (replica_topology cfg) name) resolved) names resolved ↔
      x ∈ resolved ∨ ∃ n, n ∈ names ∧ x ∈ instances (replica_topology cfg) n) as Hg.
  { induction names as [|n names IH]; intros resolved Hd; simpl; [split; [done|set_solver]|].
    destruct (add_instances_spec (instances (replica_topology cfg) n) resolved Hd) as [Hd' Hx].
    destruct (IH _ Hd') as [? Hy]. split; [done|]. intros x. rewrite Hy, Hx. set_solver. }
  destruct (Hg [] (NoDup_nil_2)) as [? Hx]. split; [done|]. intros x. rewrite Hx. set_solver.
Qed.

(** The stages an admin operation addresses: every registered stage, once,
    when none is named; otherwise each instance of each named stage exactly once,
    even when a logical name and one of its instances are both given; a name with
    an unregistered instance is refused, as is a stopped coordinator and an empty
    target list. *)
Theorem admin_addresses_each_instance_once (c : coord) stages :
  NoDup (od_keys (c_stages c)) →
  match admin_targets cfg stages c with
  | Ok l =>
      c_running c = true ∧ l ≠ [] ∧ NoDup l ∧
      (∀ x, x ∈ l → x ∈ od_keys (c_stages c)) ∧
      match stages with
      | None => ∀ x, x ∈ l ↔ x ∈ od_keys (c_stages c)
      | Some names => ∀ x, x ∈ l ↔ ∃ n, n ∈ names ∧ x ∈ instances (replica_topology cfg) n
      end
  | Raise _ =>
      c_running c = false ∨
      match stages with
      | None => c_stages c = []
      | Some names => (∃ n x, n ∈ names ∧ x ∈ instances (replica_topology cfg) n ∧ x ∉ od_keys (c_stages c))
          ∨ (∀ n, n ∈ names → instances (replica_topology cfg) n = [])
      end
  end.
Proof.
  intros Hnd. unfold admin_targets, raise_if. destruct (c_running c) eqn:Hrun; simpl; [|by left].
  destruct stages as [names|]; simpl.
  - destruct (dedup_spec names) as [Hd Hx].
    case_bool_decide as Hall; simpl.
    + case_bool_decide as Hnil; simpl.
      * right. right. intros n Hn. destruct (instances _ n) as [|x l] eqn:Hi; [done|].
        assert (x ∈ dedup_instances cfg names) as Hin by (apply Hx; exists n; rewrite Hi; set_solver).
        rewrite Hnil in Hin. set_solver.
      * split_and!; try done. by apply Forall_forall.
    + right. left. apply not_Forall_Exists, Exists_exists in Hall as (x & Hin & Hn); [|apply _].
      apply Hx in Hin as (n & Hn' & Hi). eauto.
  - assert (sort_strings (od_keys (c_stages c)) ≡ₚ od_keys (c_stages c)) as Hperm by apply sort_strings_perm.
    case_bool_decide as Hnil; simpl.
    + right. rewrite Hnil in Hperm. apply Permutation_nil_l in Hperm. by destruct (c_stages c).
    + split_and!; try done.
      * by rewrite Hperm.
      * intros x. by rewrite Hperm.
      * intros x. by rewrite Hperm.
Qed.
End admin.

(** ** Two states the code does not mean to reach *)

(** One entry stage, two static terminals, a resolver that activates only
    ["text"], and room for one request. *)
Definition ex_config : CoordinatorConfig :=
  mkConfig "llm" {[ "text"; "talker" ]} (Some (λ _, Ok (ResSeq [PStr "text"]))) (mkTopology ∅) (mkPlan [] ∅) (Some 1%Z).
Definition ex_static : CoordinatorConfig :=
  mkConfig "llm" {[ "text"; "talker" ]} None (mkTopology ∅) (mkPlan [] ∅) (Some 1%Z).

Definition ex_start : Coordinator (S:=RoundRobin) :=
  coordinator_start (register_stage "llm" "ipc://llm" (coordinator_init ∅)).
Definition ex_sys (c : Coordinator (S:=RoundRobin)) : sys := with_co c (sys_init ∅).

Lemma ex_started cfg : reachable cfg (∅ : RoundRobin) (ex_sys ex_start).
Proof.
  eapply rtc_l; [apply (S_register _ (sys_init ∅) "llm" "ipc://llm")|].
  eapply rtc_l; [apply S_start|]. apply rtc_refl.
Qed.

(** A [submit] whose send to the entry stage fails. *)
Definition ex_submitted : Coordinator (S:=RoundRobin) := (submit_begin ex_static "r" (ReqRaw PNone) None ex_start).1.
Definition ex_leaked : sys := drop_client 0 ex_submitted (with_client 0 (SubmitSending "r" 1) ex_submitted (ex_sys ex_start)).

(** A failed send leaks the admission: a [submit] whose [submit_to_stage]
    raises leaves no task behind that would ever untrack the request, yet the
    request, its id and its in-flight slot stay taken, so with a cap of one every
    later submission is refused. *)
Theorem failed_send_leaks_admission :
  ∃ s, reachable ex_static (∅ : RoundRobin) s ∧
    s_clients s = ∅ ∧ s_aborts s = ∅ ∧ s_callbacks s = ∅ ∧ s_loop s = LoopIdle ∧
    size (c_requests (s_co s)) = 1 ∧
    ∀ rid arg sq, ∃ e, submit_begin ex_static rid arg sq (s_co s) = (s_co s, Raise e).
Proof.
  exists ex_leaked.
  assert (s_clients ex_leaked = ∅ ∧ size (c_requests (s_co ex_leaked)) = 1) as [-> ->]
    by (split; vm_compute; reflexivity).
  split_and!; [|done..|].
  - unfold reachable. etrans; [apply ex_started|].
    eapply rtc_l.
    { eapply (S_submit _ (ex_sys ex_start) 0 "r" (ReqRaw PNone) ex_submitted); [by vm_compute|].
      vm_compute. reflexivity. }
    eapply rtc_l; [|apply rtc_refl]. eapply S_submit_send_failed. by vm_compute.
  - intros rid arg sq. unfold submit_begin.
    assert (c_fatal_error (s_co ex_leaked) = None) as -> by by vm_compute.
    destruct (_request_id_is_reserved rid (s_co ex_leaked)); [eauto|].
    assert (size (c_requests (s_co ex_leaked)) = 1) as -> by by vm_compute. simpl. eauto.
Qed.

(** The same with a resolver and a [stream] whose request completes while the
    submission is still being sent. *)
Definition ex_q : nat := heap_next ex_start.
Definition ex_streamed : Coordinator (S:=RoundRobin) :=
  (submit_begin ex_config "r" (ReqRaw PNone) (Some ex_q)
     (bump 1 (set_heap (λ m, m) (insert ex_q []) ex_start))).1.
Definition ex_done_msg : CompleteMessage := mkComplete "r" "text" true (PStr "hi") None.
Definition ex_completed : Coordinator (S:=RoundRobin) := (handle_completion ex_config ex_done_msg ex_streamed).1.
Definition ex_s1 : sys (S:=RoundRobin) := with_client 0 (StreamSending "r" ex_q) ex_streamed (ex_sys ex_start).
Definition ex_s2 : sys (S:=RoundRobin) := mkSys ex_completed (s_clients ex_s1) LoopIdle (s_aborts ex_s1) (s_callbacks ex_s1).
Definition ex_s3 : sys (S:=RoundRobin) :=
  let c := submit_finish "r" (s_co ex_s2) in
  with_client 0 (StreamReading "r" ex_q (_expected_terminal_stages ex_config "r" c) ∅) c ex_s2.
Definition ex_s4 : sys (S:=RoundRobin) :=
  with_client 0 (StreamReading "r" ex_q (_expected_terminal_stages ex_config "r" (s_co ex_s3)) {[ "text" ]})
    (set_heap (λ m, m) (insert ex_q []) (s_co ex_s3)) ex_s3.

Lemma ex_outwait_reachable : reachable ex_config (∅ : RoundRobin) ex_s4.
Proof.
  unfold reachable. etrans; [apply ex_started|].
  eapply (rtc_l _ _ ex_s1).
  { refine (S_stream _ (ex_sys ex_start) 0 "r" (ReqRaw PNone) ex_streamed _ _ _); vm_compute; reflexivity. }
  eapply (rtc_l _ _ ex_s2).
  { refine (S_complete_message _ ex_s1 ex_done_msg ex_completed None _ _); vm_compute; reflexivity. }
  eapply (rtc_l _ _ ex_s3).
  { refine (S_stream_sent _ ex_s2 0 "r" ex_q _). vm_compute. reflexivity. }
  eapply (rtc_l _ _ ex_s4); [|apply rtc_refl].
  refine (S_stream_read _ ex_s3 0 "r" ex_q _ ∅ (EvComplete ex_done_msg) [] {[ "text" ]} _ _ _); vm_compute; reflexivity.
Qed.

(** A stream can outwait its request: with a resolver that activates one of
    two static terminals, if the request completes before [submit_to_stage]
    returns, [stream] looks the expected terminals up after the request was
    untracked, falls back to all static terminals, and reads on with an empty
    queue for a terminal that will never report: no later completion of the
    request reaches the queue. *)
Theorem stream_can_outwait_its_request :
  ∃ s i q, reachable ex_config (∅ : RoundRobin) s ∧
    s_clients s !! i = Some (StreamReading "r" q {[ "text"; "talker" ]} {[ "text" ]}) ∧
    c_requests (s_co s) !! "r" = None ∧ heap_queues (s_co s) !! q = Some [] ∧
    ∀ m, cm_request_id m = "r" → handle_completion ex_config m (s_co s) = (s_co s, None).
Proof.
  exists ex_s4, 0, ex_q.
  assert (c_requests (s_co ex_s4) !! "r" = None) as Hn by (vm_compute; reflexivity).
  split_and!; [apply ex_outwait_reachable|vm_compute; reflexivity|exact Hn|vm_compute; reflexivity|].
  intros m Hm. unfold handle_completion. rewrite Hm. by rewrite Hn.
Qed.

(** ** Witnesses *)
Lemma coordinator_invariant_witness :
  ∃ s, reachable ex_static (∅ : RoundRobin) s ∧ (Z.of_nat (size (c_requests (s_co s))) ≤ 1)%Z.
Proof.
  exists (ex_sys ex_start). split; [apply ex_started|].
  apply (coordinator_invariant ex_static ∅ _ (ex_started ex_static)); done.
Defined.

(** A submission in flight, and the states it leads to. *)
Lemma ex_sending_reachable :
  reachable ex_static (∅ : RoundRobin) (with_client 0 (SubmitSending "r" 1) ex_submitted (ex_sys ex_start)).
Proof.
  unfold reachable. etrans; [apply ex_started|]. eapply rtc_l; [|apply rtc_refl].
  eapply (S_submit _ (ex_sys ex_start) 0 "r" (ReqRaw PNone) ex_submitted); [by vm_compute|].
  vm_compute. reflexivity.
Qed.

Definition ex_waiting : sys (S:=RoundRobin) :=
  mkSys (submit_finish "r" ex_submitted) {[ 0 := SubmitWaiting "r" 1 ]} LoopIdle ∅ ∅.

Lemma ex_waiting_reachable : reachable ex_static (∅ : RoundRobin) ex_waiting.
Proof.
  unfold reachable. etrans; [apply ex_sending_reachable|]. eapply rtc_l; [|apply rtc_refl].
  refine (S_submit_sent _ _ 0 "r" 1 _). by vm_compute.
Qed.

Lemma calls_own_their_registrations_witness :
  c_futures (s_co ex_waiting) !! "r" = Some 1 ∧ is_Some (c_requests (s_co ex_waiting) !! "r").
Proof.
  destruct (calls_own_their_registrations ex_static ∅ ex_waiting ex_waiting_reachable) as (_ & H & _).
  destruct (H 0 "r" 1) as [Hf Hp]; [reflexivity|]. split; [exact Hf|]. apply Hp. vm_compute. reflexivity.
Defined.

(** An abort of the waiting request. *)
Definition ex_aborting : sys (S:=RoundRobin) :=
  let c := (abort_begin "r" (s_co ex_waiting)).1 in
  mkSys c (s_clients ex_waiting) LoopIdle (spawn_abort "r" (s_co ex_waiting) c ∅) ∅.

Lemma ex_aborting_reachable : reachable ex_static (∅ : RoundRobin) ex_aborting.
Proof.
  unfold reachable. etrans; [apply ex_waiting_reachable|]. eapply rtc_l; [|apply rtc_refl].
  refine (S_abort _ ex_waiting "r" _ (AbortAwait 2) _). vm_compute. reflexivity.
Qed.

Lemma abort_hits_its_request_witness :
  s_aborts ex_aborting !! 2 = Some (mkAbort "r" 0) ∧ c_abort_tasks (s_co ex_aborting) !! "r" = Some 2.
Proof.
  assert (s_aborts ex_aborting !! 2 = Some (mkAbort "r" 0)) as Ha by (vm_compute; reflexivity).
  split; [exact Ha|].
  exact (proj1 (abort_hits_its_request ex_static ∅ ex_aborting 2 _ ex_aborting_reachable Ha)).
Defined.

(** The abort's broadcast returns. *)
Definition ex_aborted : sys (S:=RoundRobin) :=
  mkSys (run_abort_finish "r" (s_co ex_aborting)).1 (s_clients ex_aborting) LoopIdle
    (delete 2 (s_aborts ex_aborting)) (<[2 := "r"]> ∅).

Lemma ex_aborted_reachable : reachable ex_static (∅ : RoundRobin) ex_aborted.
Proof.
  unfold reachable. etrans; [apply ex_aborting_reachable|]. eapply rtc_l; [|apply rtc_refl].
  refine (S_abort_broadcast _ ex_aborting 2 (mkAbort "r" 0) _ true _ _); vm_compute; reflexivity.
Qed.

Lemma future_settles_once_witness :
  ∃ s', step ex_static ex_aborted s' ∧ heap_futures (s_co s') !! 1 = Some (FutExc CancelledError).
Proof.
  exists (with_co (coordinator_stop (s_co ex_aborted)) ex_aborted).
  assert (step ex_static ex_aborted (with_co (coordinator_stop (s_co ex_aborted)) ex_aborted)) as Hs
    by apply S_stop.
  split; [exact Hs|].
  apply (future_settles_once ex_static ∅ ex_aborted _ 1 (FutExc CancelledError) ex_aborted_reachable);
    [eapply rtc_l; [exact Hs|apply rtc_refl]|vm_compute; reflexivity|reflexivity].
Defined.

(** A stream whose pipeline dies while it reads. *)
Definition ex_t1 : sys (S:=RoundRobin) :=
  with_client 0 (StreamSending "r" ex_q)
    (submit_begin ex_static "r" (ReqRaw PNone) (Some ex_q) (bump 1 (set_heap (λ m, m) (insert ex_q []) ex_start))).1
    (ex_sys ex_start).
Definition ex_t2 : sys (S:=RoundRobin) :=
  let c := submit_finish "r" (s_co ex_t1) in
  with_client 0 (StreamReading "r" ex_q (_expected_terminal_stages ex_static "r" c) ∅) c ex_t1.
Definition ex_t3 : sys (S:=RoundRobin) := with_co (fail_pending_requests "died" (s_co ex_t2)) ex_t2.

Lemma ex_t3_reachable : reachable ex_static (∅ : RoundRobin) ex_t3.
Proof.
  unfold reachable. etrans; [apply ex_started|].
  eapply (rtc_l _ _ ex_t1).
  { refine (S_stream _ (ex_sys ex_start) 0 "r" (ReqRaw PNone) _ _ _ _); vm_compute; reflexivity. }
  eapply (rtc_l _ _ ex_t2).
  { refine (S_stream_sent _ ex_t1 0 "r" ex_q _). vm_compute. reflexivity. }
  eapply (rtc_l _ _ ex_t3); [|apply rtc_refl]. apply S_fail_pending.
Qed.

Lemma stream_reader_never_stranded_witness :
  ∃ l, heap_queues (s_co ex_t3) !! ex_q = Some l ∧ ends ex_static {[ "text"; "talker" ]} ∅ l = true.
Proof.
  apply (stream_reader_never_stranded ex_static ∅ ex_t3 0 "r" ex_q {[ "text"; "talker" ]} ∅).
  - intros x l Hx. simpl in Hx. by rewrite lookup_empty in Hx.
  - reflexivity.
  - exact ex_t3_reachable.
  - vm_compute. reflexivity.
  - vm_compute. reflexivity.
Defined.

Definition ex_msg (stage : string) (v : Z) : CompleteMessage := mkComplete "r" stage true (PInt v) None.

Lemma ex_counts stage v : stage ∈ ["text"; "talker"] → counts ex_static "r" {[ "text"; "talker" ]} (ex_msg stage v).
Proof.
  intros Hs. repeat (apply elem_of_cons in Hs as [->|Hs]; [split_and!; [done|done|by apply (bool_decide_unpack _); vm_compute]|]).
  set_solver.
Qed.

Definition ex_info : RequestInfo := mkInfo 0 RUNNING "llm" {[ "text"; "talker" ]} PNone None.

Lemma ex_waiting_entry :
  c_requests (s_co ex_waiting) !! "r" = Some ex_info ∧ c_partials (s_co ex_waiting) !! "r" = None ∧
  c_futures (s_co ex_waiting) !! "r" = Some 1 ∧ heap_futures (s_co ex_waiting) !! 1 = Some FutPending.
Proof. split_and!; vm_compute; reflexivity. Qed.

Lemma merge_waits_for_every_terminal_witness :
  ∃ pre post merged,
    [ex_msg "text" 1; ex_msg "text" 2; ex_msg "talker" 3] = pre ++ post ∧
    heap_futures (run_completions ex_static pre (s_co ex_waiting)) !! 1 = Some (FutResult (PDict merged)).
Proof.
  destruct ex_waiting_entry as (H1 & H2 & H3 & H4).
  destruct (merge_waits_for_every_terminal ex_static (s_co ex_waiting) "r" ex_info {[ "text"; "talker" ]} 1
    [ex_msg "text" 1; ex_msg "text" 2; ex_msg "talker" 3]) as [_ H].
  - exact H1.
  - reflexivity.
  - apply (bool_decide_unpack _). vm_compute. reflexivity.
  - exact H2.
  - exact H3.
  - exact H4.
  - repeat (constructor; [apply ex_counts; set_solver|]). constructor.
  - destruct H as (pre & post & merged & E & _ & _ & F & _); [vm_compute; reflexivity|].
    exists pre, post, merged. split; [exact E|exact F].
Defined.

Lemma merge_order_irrelevant_witness :
  ∃ merged merged',
    heap_futures (run_completions ex_static [ex_msg "text" 1; ex_msg "talker" 3] (s_co ex_waiting)) !! 1
      = Some (FutResult (PDict merged)) ∧
    heap_futures (run_completions ex_static [ex_msg "talker" 3; ex_msg "text" 1] (s_co ex_waiting)) !! 1
      = Some (FutResult (PDict merged')) ∧
    ∀ s, od_get s merged = od_get s merged'.
Proof.
  destruct ex_waiting_entry as (H1 & H2 & H3 & H4).
  apply (merge_order_irrelevant ex_static (s_co ex_waiting) "r" ex_info {[ "text"; "talker" ]} 1).
  - exact H1.
  - reflexivity.
  - apply (bool_decide_unpack _). vm_compute. reflexivity.
  - exact H2.
  - exact H3.
  - exact H4.
  - repeat (constructor; [apply ex_counts; set_solver|]). constructor.
  - apply (bool_decide_unpack _). vm_compute. reflexivity.
  - vm_compute. reflexivity.
  - apply perm_swap.
Defined.

Lemma failure_fails_the_request_witness :
  ∃ c1 m', handle_completion ex_static (mkComplete "r" "text" false PNone (Some "boom")) (s_co ex_waiting) = (c1, Some m') ∧
    heap_futures (handle_completion_fail m' c1) !! 1 = Some (FutExc (RuntimeError "boom")).
Proof.
  destruct ex_waiting_entry as (H1 & H2 & H3 & H4).
  destruct (failure_fails_the_request ex_static (s_co ex_waiting)
    (mkComplete "r" "text" false PNone (Some "boom")) ex_info) as (c1 & m' & E & _ & _ & F & _).
  - exact (si_co _ _ (reachable_inv _ _ _ ex_waiting_reachable)).
  - exact H1.
  - reflexivity.
  - exists c1, m'. split; [exact E|]. rewrite (F 1 H3 H4). vm_compute. reflexivity.
Defined.

Lemma fatal_error_reaches_everyone_witness :
  heap_futures (fail_pending_requests "died" (s_co ex_waiting)) !! 1 = Some (FutExc (RuntimeError "died")).
Proof.
  destruct ex_waiting_entry as (H1 & H2 & H3 & H4).
  destruct (fatal_error_reaches_everyone ex_static (s_co ex_waiting) "died") as (_ & _ & _ & F & _).
  - exact (si_co _ _ (reachable_inv _ _ _ ex_waiting_reachable)).
  - rewrite (F "r" 1 H3 H4). vm_compute. reflexivity.
Defined.

(** The replicated deployment of [Replicas.ex_cfgs]. *)
Definition ex_deployed : CoordinatorConfig :=
  mkConfig "talker" {[ "vocoder" ]} None (mkTopology (replicas_of ex_plan)) ex_plan None.
Definition ex_registered : Coordinator (S:=RoundRobin) :=
  set_stages (const (map (λ n, (n, "ipc://" +:+ n))
    ["talker@r0"; "talker@r1"; "solo"; "cpu"; "vocoder@r0"; "vocoder@r1"])) (coordinator_init ∅).

Definition ex_stages : list (StageConfig nat) :=
  match expand_replica_stages ex_cfgs ex_plan with Ok (l, _) => l | Raise _ => [] end.

Lemma admission_decision_witness :
  ∃ c' sent, submit_begin ex_deployed "r" (ReqRaw PNone) None ex_registered = (c', Ok sent).
Proof.
  destruct (admission_decision ex_deployed ex_cfgs ex_stages "r" (ReqRaw PNone) None ex_registered) as (_ & _ & _ & H).
  - exact ex_wf.
  - vm_compute. reflexivity.
  - apply (bool_decide_unpack _). vm_compute. reflexivity.
  - intros i Hi. assert (map s_name ex_stages = ["talker@r0"; "talker@r1"; "solo"; "cpu"; "vocoder@r0"; "vocoder@r1"])
      as E by (vm_compute; reflexivity). rewrite E in Hi.
    repeat (apply elem_of_cons in Hi as [->|Hi]; [vm_compute; by eexists|]). by apply elem_of_nil in Hi.
  - reflexivity.
  - destruct H as (pol & c' & ob & entry & endpoint & _ & _ & _ & E & _).
    + split_and!; [reflexivity|reflexivity|done].
    + eauto.
Defined.

Definition ex_result (op stage : string) : AdminResult := mkAdminResult op stage "model_info" true "" [] None PNone PNone.

Lemma admin_waits_for_all_targets_witness :
  ∃ p, c_admin_ops (fold_left (λ c r, _handle_admin_result r c)
      [ex_result "op" "a"; ex_result "other" "b"; ex_result "op" "b"]
      (admin_register "op" "model_info" ["a"; "b"] ex_registered)) !! "op" = Some p ∧
    ap_future p ≠ FutPending.
Proof.
  destruct (admin_waits_for_all_targets ex_registered "op" "model_info" ["a"; "b"]
    [ex_result "op" "a"; ex_result "other" "b"; ex_result "op" "b"]) as (p & H & _ & Hp & _); [done|].
  exists p. split; [exact H|]. intros Hf. apply Hp in Hf. apply Hf.
  apply (bool_decide_unpack _). vm_compute. reflexivity.
Defined.

Lemma admin_addresses_each_instance_once_witness :
  match admin_targets ex_deployed (Some ["talker"; "talker@r1"]) (coordinator_start ex_registered) with
  | Ok l => NoDup l
  | Raise _ => False
  end.
Proof.
  pose proof (admin_addresses_each_instance_once ex_deployed (coordinator_start ex_registered)
    (Some ["talker"; "talker@r1"])) as H.
  assert (NoDup (od_keys (c_stages (coordinator_start ex_registered)))) as Hn
    by (apply (bool_decide_unpack _); vm_compute; reflexivity).
  specialize (H Hn). vm_compute in H. vm_compute. apply H.
Defined.
