(* ===== verification/Proto.v ===== *)
(** * Control-plane messages

    Models [sglang_omni/proto/messages.py], [admin.py], [request.py] and
    [kv_transfer.py] with the two codec functions of [pipeline/control_plane.py].
    A dataclass field holds any Python value, as in the source, where annotations
    are not enforced; what a well-typed sender provides is a predicate.  [msgpack]
    and [msgspec] are parameters. *)
From S2P Require Import Prelude PyVal.

Abbreviation pdict := (list (string * pyval)).

(** ** [msgspec]

    What the two transfer messages use of it, and what its documentation says of that:
    [to_builtins] writes the fields of a dataclass, in order; [convert] gives back what was
    written, as long as no field of open type holds [bytes], which [to_builtins] turns
    into text; and keys that are no field are ignored. *)
Record msgspec (A : Type) := mkMsgspec { to_builtins : A → pdict; convert : pyval → res A }.
Arguments mkMsgspec {A}.
Arguments to_builtins {A}.
Arguments convert {A}.
Record msgspec_ok {A} (fields : list string) (plain : A → bool) (c : msgspec A) : Prop := {
  ms_fields : ∀ m, od_keys (to_builtins c m) = fields;
  ms_inverse : ∀ m, plain m = true → convert c (PDict (to_builtins c m)) = Ok m;
  ms_unknown : ∀ k v d, k ∉ fields → convert c (PDict ((k, v) :: d)) = convert c (PDict d);
}.
Fixpoint no_bytes (v : pyval) : bool :=
  match v with
  | PBytes _ => false
  | PList l => forallb no_bytes l
  | PDict d => forallb (λ e, no_bytes e.2) d
  | _ => true
  end.

Section proto.
(** [str(v)] of the values whose text the code never depends on. *)
Variable str_of_other : pyval → string.

Definition py_str (v : pyval) : string :=
  match v with
  | PStr s => s
  | PInt z => pretty z
  | PBool true => "True"
  | PBool false => "False"
  | PNone => "None"
  | v => str_of_other v
  end.

(** [d[k]], [d.get(k)] on a value that has to be a mapping. *)
Definition vindex (k : string) (v : pyval) : res pyval :=
  match v with PDict d => dindex k d | _ => Raise (TypeError "not subscriptable by str") end.
Definition vget (k : string) (v : pyval) : res pyval :=
  match v with PDict d => Ok (dget k d) | _ => Raise (TypeError "no attribute get") end.
Definition vget_or (k : string) (w : pyval) (v : pyval) : res pyval :=
  match v with PDict d => Ok (dget_or k w d) | _ => Raise (TypeError "no attribute get") end.

Definition is_dict (v : pyval) : bool := match v with PDict _ => true | _ => false end.
Definition is_none (v : pyval) : bool := match v with PNone => true | _ => false end.

(** [dict(v)] of a mapping or of a list of pairs. *)
Definition pair_of (v : pyval) : option (string * pyval) :=
  match v with PList [PStr k; w] => Some (k, w) | _ => None end.
Definition py_dict (v : pyval) : res pyval :=
  match v with
  | PDict d => Ok (PDict d)
  | PList l =>
      match mapM pair_of l with
      | Some kvs => Ok (PDict (fold_left (λ d e, od_set e.1 e.2 d) kvs []))
      | None => Raise (TypeError "not a sequence of pairs")
      end
  | _ => Raise (TypeError "not a mapping")
  end.

(** [list(v)]. *)
Fixpoint chars (s : string) : list pyval :=
  match s with EmptyString => [] | String c s => PStr (String c EmptyString) :: chars s end.
Definition py_list (v : pyval) : res pyval :=
  match v with
  | PList l => Ok (PList l)
  | PStr s => Ok (PList (chars s))
  | PDict d => Ok (PList (map PStr (od_keys d)))
  | _ => Raise (TypeError "not iterable")
  end.

(** [v or {}], [v or ""]. *)
Definition py_or (v w : pyval) : pyval := if truthy v then v else w.
#[local] Arguments py_or : simpl never.

Definition _require_str (v : pyval) (name : string) : res pyval :=
  match v with
  | PStr s => if bool_decide (s = "") then Raise (TypeError name) else Ok v
  | _ => Raise (TypeError name)
  end.
Definition _require_bool (v : pyval) (name : string) : res bool :=
  match v with PBool b => Ok b | _ => Raise (TypeError name) end.
Definition _require_non_negative_int (v : pyval) (name : string) : res pyval :=
  match v with
  | PInt z => if bool_decide (z < 0)%Z then Raise (TypeError name) else Ok v
  | _ => Raise (TypeError name)
  end.

(** The optional entries [to_dict] appends. *)
Definition opt_entry (b : bool) (k : string) (v : pyval) : pdict := if b then [(k, v)] else [].
Definition bindings_entry (v : pyval) : res pdict :=
  if truthy v then d ← py_dict v; mret [("replica_bindings", d)] else mret [].

(** ** Data-plane notifications *)
Record DataReadyMessage := mkDataReady {
  dr_request_id : pyval; dr_from_stage : pyval; dr_to_stage : pyval; dr_data_ref : pyval;
  dr_chunk_id : pyval; dr_is_done : pyval; dr_error : pyval; dr_replica_bindings : pyval }.

Definition DataReadyMessage_to_dict (m : DataReadyMessage) : res pdict :=
  _ ← _require_str (dr_request_id m) "request_id";
  _ ← _require_str (dr_from_stage m) "from_stage";
  _ ← _require_str (dr_to_stage m) "to_stage";
  is_done ← _require_bool (dr_is_done m) "is_done";
  let has_error := negb (is_none (dr_error m)) in
  _ ← raise_if (is_done && has_error) (ValueError "stream signal cannot be both done and error");
  _ ← (if is_done || has_error then
         _ ← raise_if (negb (is_none (dr_data_ref m))) (ValueError "stream signal must not carry data_ref");
         raise_if (negb (is_none (dr_chunk_id m))) (ValueError "stream signal must not carry chunk_id")
       else raise_if (negb (is_dict (dr_data_ref m))) (TypeError "data_ref must be dict for data messages"));
  let d := [("type", PStr "data_ready"); ("request_id", dr_request_id m);
            ("from_stage", dr_from_stage m); ("to_stage", dr_to_stage m)] in
  let d := d ++ opt_entry (negb (is_none (dr_data_ref m))) "data_ref" (dr_data_ref m) in
  d ← (if negb (is_none (dr_chunk_id m)) then
         _ ← _require_non_negative_int (dr_chunk_id m) "chunk_id"; mret (d ++ [("chunk_id", dr_chunk_id m)])
       else mret d);
  let d := d ++ opt_entry is_done "is_done" (PBool true) in
  d ← (if has_error then _ ← _require_str (dr_error m) "error"; mret (d ++ [("error", dr_error m)]) else mret d);
  b ← bindings_entry (dr_replica_bindings m);
  mret (d ++ b).

Definition DataReadyMessage_from_dict (d : pdict) : res DataReadyMessage :=
  request_id ← _require_str (dget "request_id" d) "request_id";
  from_stage ← _require_str (dget "from_stage" d) "from_stage";
  to_stage ← _require_str (dget "to_stage" d) "to_stage";
  let data_ref := dget "data_ref" d in
  let raw_is_done := dget_or "is_done" (PBool false) d in
  is_done ← _require_bool raw_is_done "is_done";
  let error := dget "error" d in
  error ← (if negb (is_none error) then _require_str error "error" else mret error);
  let has_error := negb (is_none error) in
  _ ← raise_if (is_done && has_error) (ValueError "stream signal cannot be both done and error");
  _ ← (if is_done || has_error then
         _ ← raise_if (negb (is_none data_ref)) (ValueError "stream signal must not carry data_ref");
         raise_if (bool_decide (is_Some (od_get "chunk_id" d))) (ValueError "stream signal must not carry chunk_id")
       else raise_if (negb (is_dict data_ref)) (TypeError "data_ready data_ref must be dict for data messages"));
  let chunk_id := dget "chunk_id" d in
  _ ← (if negb (is_none chunk_id) then _ ← _require_non_negative_int chunk_id "chunk_id"; mret tt else mret tt);
  mret (mkDataReady request_id from_stage to_stage data_ref chunk_id (PBool is_done) error (dget "replica_bindings" d)).

Record DataAckMessage := mkDataAck {
  da_request_id : pyval; da_from_stage : pyval; da_to_stage : pyval; da_object_id : pyval;
  da_success : pyval; da_error : pyval }.

Definition DataAckMessage_to_dict (m : DataAckMessage) : res pdict :=
  _ ← _require_str (da_request_id m) "request_id";
  _ ← _require_str (da_from_stage m) "from_stage";
  _ ← _require_str (da_to_stage m) "to_stage";
  _ ← _require_str (da_object_id m) "object_id";
  success ← (match da_success m with PBool b => Ok b | _ => Raise (TypeError "success must be bool") end : res bool);
  _ ← (if (success : bool) then raise_if (negb (is_none (da_error m))) (ValueError "successful data ack must not carry error")
       else _ ← _require_str (da_error m) "error"; mret tt);
  mret ([("type", PStr "data_ack"); ("request_id", da_request_id m); ("from_stage", da_from_stage m);
         ("to_stage", da_to_stage m); ("object_id", da_object_id m); ("success", da_success m)]
        ++ opt_entry (negb (is_none (da_error m))) "error" (da_error m)).

Definition DataAckMessage_from_dict (d : pdict) : res DataAckMessage :=
  let success := dget "success" d in
  b ← (match success with PBool b => Ok b | _ => Raise (TypeError "data_ack success must be bool") end : res bool);
  let error := dget "error" d in
  error ← (if (b : bool) then _ ← raise_if (negb (is_none error)) (ValueError "successful data_ack must not carry error"); mret error
           else _require_str error "error");
  request_id ← _require_str (dget "request_id" d) "request_id";
  from_stage ← _require_str (dget "from_stage" d) "from_stage";
  to_stage ← _require_str (dget "to_stage" d) "to_stage";
  object_id ← _require_str (dget "object_id" d) "object_id";
  mret (mkDataAck request_id from_stage to_stage object_id success error).

(** ** Coordinator messages *)
Record AbortMessage := mkAbortMessage { ab_request_id : pyval }.
Definition AbortMessage_to_dict (m : AbortMessage) : pdict :=
  [("type", PStr "abort"); ("request_id", ab_request_id m)].
Definition AbortMessage_from_dict (d : pdict) : res AbortMessage :=
  r ← dindex "request_id" d; mret (mkAbortMessage r).

Record CompleteMessage := mkComplete {
  cm_request_id : pyval; cm_from_stage : pyval; cm_success : pyval; cm_result : pyval; cm_error : pyval }.
Definition CompleteMessage_to_dict (m : CompleteMessage) : pdict :=
  [("type", PStr "complete"); ("request_id", cm_request_id m); ("from_stage", cm_from_stage m);
   ("success", cm_success m); ("result", cm_result m); ("error", cm_error m)].
Definition CompleteMessage_from_dict (d : pdict) : res CompleteMessage :=
  r ← dindex "request_id" d; f ← dindex "from_stage" d; s ← dindex "success" d;
  mret (mkComplete r f s (dget "result" d) (dget "error" d)).

Record StreamMessage := mkStream {
  sm_request_id : pyval; sm_from_stage : pyval; sm_chunk : pyval; sm_stage_id : pyval;
  sm_stage_name : pyval; sm_modality : pyval; sm_chunk_id : pyval }.
Definition StreamMessage_to_dict (m : StreamMessage) : pdict :=
  [("type", PStr "stream"); ("request_id", sm_request_id m); ("from_stage", sm_from_stage m);
   ("chunk", sm_chunk m); ("stage_id", sm_stage_id m); ("stage_name", sm_stage_name m);
   ("modality", sm_modality m)] ++ opt_entry (negb (is_none (sm_chunk_id m))) "chunk_id" (sm_chunk_id m).
Definition StreamMessage_from_dict (d : pdict) : res StreamMessage :=
  r ← dindex "request_id" d; f ← dindex "from_stage" d;
  mret (mkStream r f (dget "chunk" d) (dget "stage_id" d) (dget "stage_name" d) (dget "modality" d) (dget "chunk_id" d)).

Record OmniRequest := mkOmniRequest { or_inputs : pyval; or_params : pyval; or_metadata : pyval }.
Definition OmniRequest_to_dict (r : OmniRequest) : pdict :=
  [("_type", PStr "OmniRequest"); ("inputs", or_inputs r); ("params", or_params r); ("metadata", or_metadata r)].
Definition OmniRequest_from_dict (v : pyval) : res OmniRequest :=
  i ← vget "inputs" v; p ← vget_or "params" (PDict []) v; m ← vget_or "metadata" (PDict []) v;
  mret (mkOmniRequest i p m).

(** [prefetched_chunks] and [prefetched_stream_done] stay out of the wire form. *)
Record StagePayload := mkPayload { sp_request_id : pyval; sp_request : OmniRequest; sp_data : pyval }.
Definition StagePayload_to_dict (p : StagePayload) : pdict :=
  [("_type", PStr "StagePayload"); ("request_id", sp_request_id p);
   ("request", PDict (OmniRequest_to_dict (sp_request p))); ("data", sp_data p)].
(** Both branches of the source build the request the same way. *)
Definition StagePayload_from_dict (d : pdict) : res StagePayload :=
  r ← OmniRequest_from_dict (dget_or "request" (PDict []) d);
  mret (mkPayload (dget_or "request_id" (PStr "") d) r (dget "data" d)).

(** [data: Any], which may be a payload object. *)
Inductive submit_data := DataPayload (p : StagePayload) | DataValue (v : pyval).

Record SubmitMessage := mkSubmit { sb_request_id : pyval; sb_data : submit_data; sb_replica_bindings : pyval }.
Definition SubmitMessage_to_dict (m : SubmitMessage) : res pdict :=
  let data := match sb_data m with DataPayload p => PDict (StagePayload_to_dict p) | DataValue v => v end in
  let d := [("type", PStr "submit"); ("request_id", sb_request_id m); ("data", data)] in
  b ← bindings_entry (sb_replica_bindings m); mret (d ++ b).
Definition SubmitMessage_from_dict (d : pdict) : res SubmitMessage :=
  data ← dindex "data" d;
  data ← (match data with
          | PDict dd => if bool_decide (dget "_type" dd = PStr "StagePayload")
                        then p ← StagePayload_from_dict dd; mret (DataPayload p) else mret (DataValue data)
          | _ => mret (DataValue data)
          end : res submit_data);
  r ← dindex "request_id" d;
  mret (mkSubmit r data (dget "replica_bindings" d)).

(** ** Profiler and shutdown *)
Definition ShutdownMessage_to_dict : pdict := [("type", PStr "shutdown")].

Record ProfilerStartMessage := mkProfilerStart {
  ps_run_id : pyval; ps_trace_path_template : pyval; ps_event_dir : pyval; ps_enable_torch : pyval }.
Definition ProfilerStartMessage_to_dict (m : ProfilerStartMessage) : pdict :=
  [("type", PStr "profiler_start"); ("run_id", ps_run_id m); ("trace_path_template", ps_trace_path_template m);
   ("event_dir", ps_event_dir m); ("enable_torch", ps_enable_torch m)].
Definition ProfilerStartMessage_from_dict (d : pdict) : res ProfilerStartMessage :=
  r ← dindex "run_id" d; t ← dindex "trace_path_template" d;
  mret (mkProfilerStart r t (dget "event_dir" d) (PBool (truthy (dget_or "enable_torch" (PBool true) d)))).

Record ProfilerStopMessage := mkProfilerStop { pst_run_id : pyval }.
Definition ProfilerStopMessage_to_dict (m : ProfilerStopMessage) : pdict :=
  [("type", PStr "profiler_stop"); ("run_id", pst_run_id m)].
Definition ProfilerStopMessage_from_dict (d : pdict) : ProfilerStopMessage := mkProfilerStop (dget "run_id" d).

(** ** Administration *)
Record AdminOperation := mkAdminOp {
  ao_op_id : pyval; ao_action : pyval; ao_payload : pyval; ao_target_stages : pyval; ao_timeout_s : pyval }.
Definition AdminOperation_to_dict (o : AdminOperation) : pdict :=
  [("op_id", ao_op_id o); ("action", ao_action o); ("payload", ao_payload o);
   ("target_stages", ao_target_stages o); ("timeout_s", ao_timeout_s o)].
Definition AdminOperation_from_dict (v : pyval) : res AdminOperation :=
  target ← vget "target_stages" v;
  op ← vindex "op_id" v; action ← vindex "action" v;
  payload ← vget "payload" v; payload ← py_dict (py_or payload (PDict []));
  target ← (if negb (is_none target) then py_list target else mret PNone);
  timeout ← vget "timeout_s" v;
  mret (mkAdminOp (PStr (py_str op)) (PStr (py_str action)) payload target timeout).

Record AdminResult := mkAdminResult {
  ar_op_id : pyval; ar_stage : pyval; ar_action : pyval; ar_success : pyval; ar_message : pyval;
  ar_data : pyval; ar_error : pyval; ar_rank : pyval; ar_role : pyval }.
Definition AdminResult_to_dict (r : AdminResult) : pdict :=
  [("op_id", ar_op_id r); ("stage", ar_stage r); ("action", ar_action r); ("success", ar_success r);
   ("message", ar_message r); ("data", ar_data r); ("error", ar_error r); ("rank", ar_rank r); ("role", ar_role r)].
Definition AdminResult_from_dict (v : pyval) : res AdminResult :=
  op ← vindex "op_id" v; stage ← vindex "stage" v; action ← vindex "action" v; success ← vindex "success" v;
  message ← vget "message" v;
  data ← vget "data" v; data ← py_dict (py_or data (PDict []));
  error ← vget "error" v; rank ← vget "rank" v; role ← vget "role" v;
  mret (mkAdminResult (PStr (py_str op)) (PStr (py_str stage)) (PStr (py_str action)) (PBool (truthy success))
    (PStr (py_str (py_or message (PStr "")))) data error rank role).

Record AdminMessage := mkAdmin { am_operation : AdminOperation }.
Definition AdminMessage_to_dict (m : AdminMessage) : pdict :=
  [("type", PStr "admin"); ("operation", PDict (AdminOperation_to_dict (am_operation m)))].
Definition AdminMessage_from_dict (d : pdict) : res AdminMessage :=
  v ← dindex "operation" d; o ← AdminOperation_from_dict v; mret (mkAdmin o).

Record AdminResultMessage := mkAdminRes { arm_result : AdminResult }.
Definition AdminResultMessage_to_dict (m : AdminResultMessage) : pdict :=
  [("type", PStr "admin_result"); ("result", PDict (AdminResult_to_dict (arm_result m)))].
Definition AdminResultMessage_from_dict (d : pdict) : res AdminResultMessage :=
  v ← dindex "result" d; r ← AdminResult_from_dict v; mret (mkAdminRes r).

(** ** KV transfers *)
Record KVBufferSpec := mkBuffer { kb_name : string; kb_bytes_per_page : Z }.
Record KVPoolLayout := mkLayout { kl_layout_id : string; kl_page_size : Z; kl_buffers : list KVBufferSpec }.

Fixpoint buffers_match (a b : list KVBufferSpec) : bool :=
  match a, b with
  | s :: a, t :: b =>
      bool_decide (kb_name s = kb_name t) && bool_decide (kb_bytes_per_page s = kb_bytes_per_page t) &&
      buffers_match a b
  | _, _ => true
  end.
Definition compatible_with (self other : KVPoolLayout) : bool :=
  if bool_decide (kl_layout_id self ≠ kl_layout_id other) || bool_decide (kl_page_size self ≠ kl_page_size other)
  then false
  else if bool_decide (length (kl_buffers self) ≠ length (kl_buffers other)) then false
  else buffers_match (kl_buffers self) (kl_buffers other).

Record KVTransferPrepareMessage := mkKvPrepare {
  kp_request_id : string; kp_transfer_id : string; kp_from_stage : string; kp_to_stage : string;
  kp_source_pool_id : string; kp_target_pool_id : string; kp_source_page_indices : list Z;
  kp_source_layout : KVPoolLayout; kp_metadata : pdict }.
Record KVTransferReadyMessage := mkKvReady {
  kr_request_id : string; kr_transfer_id : string; kr_from_stage : string; kr_to_stage : string;
  kr_success : bool; kr_destination_pool_id : option string; kr_destination_page_indices : list Z;
  kr_destination_ref : option pdict; kr_error : option string }.

(** [msgspec.to_builtins] and [msgspec.convert] for a dataclass. *)
Context (kp : msgspec KVTransferPrepareMessage) (kr : msgspec KVTransferReadyMessage).

(** [{"type": tag, **to_builtins(self)}] *)
Definition tagged (tag : string) (d : pdict) : pdict := fold_left (λ d e, od_set e.1 e.2 d) d [("type", PStr tag)].
Definition KVTransferPrepareMessage_to_dict (m : KVTransferPrepareMessage) : pdict := tagged "kv_transfer_prepare" (to_builtins kp m).
Definition KVTransferPrepareMessage_from_dict : pyval → res KVTransferPrepareMessage := convert kp.
Definition KVTransferReadyMessage_to_dict (m : KVTransferReadyMessage) : pdict := tagged "kv_transfer_ready" (to_builtins kr m).
Definition KVTransferReadyMessage_from_dict : pyval → res KVTransferReadyMessage := convert kr.

(** ** Dispatch *)
Inductive message :=
| MDataReady (m : DataReadyMessage) | MDataAck (m : DataAckMessage)
| MKvPrepare (m : KVTransferPrepareMessage) | MKvReady (m : KVTransferReadyMessage)
| MAbort (m : AbortMessage) | MComplete (m : CompleteMessage) | MStream (m : StreamMessage)
| MSubmit (m : SubmitMessage) | MShutdown | MProfilerStart (m : ProfilerStartMessage)
| MProfilerStop (m : ProfilerStopMessage) | MAdmin (m : AdminMessage) | MAdminResult (m : AdminResultMessage).

Definition to_dict (m : message) : res pdict :=
  match m with
  | MDataReady m => DataReadyMessage_to_dict m
  | MDataAck m => DataAckMessage_to_dict m
  | MKvPrepare m => Ok (KVTransferPrepareMessage_to_dict m)
  | MKvReady m => Ok (KVTransferReadyMessage_to_dict m)
  | MAbort m => Ok (AbortMessage_to_dict m)
  | MComplete m => Ok (CompleteMessage_to_dict m)
  | MStream m => Ok (StreamMessage_to_dict m)
  | MSubmit m => SubmitMessage_to_dict m
  | MShutdown => Ok ShutdownMessage_to_dict
  | MProfilerStart m => Ok (ProfilerStartMessage_to_dict m)
  | MProfilerStop m => Ok (ProfilerStopMessage_to_dict m)
  | MAdmin m => Ok (AdminMessage_to_dict m)
  | MAdminResult m => Ok (AdminResultMessage_to_dict m)
  end.

Definition parse_message (v : pyval) : res message :=
  t ← vget "type" v;
  match v with
  | PDict d =>
      let tag s := bool_decide (t = PStr s) in
      if tag "data_ready" then MDataReady <$> DataReadyMessage_from_dict d
      else if tag "data_ack" then MDataAck <$> DataAckMessage_from_dict d
      else if tag "kv_transfer_prepare" then MKvPrepare <$> KVTransferPrepareMessage_from_dict v
      else if tag "kv_transfer_ready" then MKvReady <$> KVTransferReadyMessage_from_dict v
      else if tag "abort" then MAbort <$> AbortMessage_from_dict d
      else if tag "complete" then MComplete <$> CompleteMessage_from_dict d
      else if tag "stream" then MStream <$> StreamMessage_from_dict d
      else if tag "submit" then MSubmit <$> SubmitMessage_from_dict d
      else if tag "shutdown" then Ok MShutdown
      else if tag "profiler_start" then MProfilerStart <$> ProfilerStartMessage_from_dict d
      else if tag "profiler_stop" then Ok (MProfilerStop (ProfilerStopMessage_from_dict d))
      else if tag "admin" then MAdmin <$> AdminMessage_from_dict d
      else if tag "admin_result" then MAdminResult <$> AdminResultMessage_from_dict d
      else Raise (ValueError "Unknown message type")
  | _ => Raise (TypeError "not a mapping")
  end.

(** ** Round trips *)

(** What a sender that respects the annotations provides. *)
Definition wt_str (v : pyval) : Prop := ∃ s, v = PStr s.
Definition wt_bool (v : pyval) : Prop := ∃ b, v = PBool b.
Definition wt_dict (v : pyval) : Prop := ∃ d, v = PDict d.
Definition wt_bindings (v : pyval) : Prop := v = PNone ∨ wt_dict v.

(** A payload is sent as a tagged dictionary, so a plain value must not look
    like one. *)
Definition wt_data (s : submit_data) : Prop :=
  match s with DataPayload _ => True | DataValue v => ∀ d, v = PDict d → dget "_type" d ≠ PStr "StagePayload" end.

(** The fields of open type of the two transfer messages hold no [bytes]. *)
Definition prepare_plain (m : KVTransferPrepareMessage) : bool := no_bytes (PDict (kp_metadata m)).
Definition ready_plain (m : KVTransferReadyMessage) : bool := match kr_destination_ref m with Some d => no_bytes (PDict d) | None => true end.
Definition prepare_fields : list string :=
  ["request_id"; "transfer_id"; "from_stage"; "to_stage"; "source_pool_id"; "target_pool_id"; "source_page_indices"; "source_layout"; "metadata"].
Definition ready_fields : list string :=
  ["request_id"; "transfer_id"; "from_stage"; "to_stage"; "success"; "destination_pool_id"; "destination_page_indices"; "destination_ref"; "error"].

Definition well_typed (m : message) : Prop :=
  match m with
  | MDataReady m => wt_bindings (dr_replica_bindings m)
  | MSubmit m => wt_data (sb_data m) ∧ wt_bindings (sb_replica_bindings m)
  | MProfilerStart m => wt_bool (ps_enable_torch m)
  | MAdmin (mkAdmin o) =>
      wt_str (ao_op_id o) ∧ wt_str (ao_action o) ∧ wt_dict (ao_payload o) ∧
      (ao_target_stages o = PNone ∨ ∃ l, ao_target_stages o = PList l)
  | MAdminResult (mkAdminRes r) =>
      wt_str (ar_op_id r) ∧ wt_str (ar_stage r) ∧ wt_str (ar_action r) ∧ wt_bool (ar_success r) ∧
      wt_str (ar_message r) ∧ wt_dict (ar_data r)
  | MKvPrepare m => prepare_plain m = true
  | MKvReady m => ready_plain m = true
  | _ => True
  end.

(** Empty bindings are not sent and come back as [None]; nothing else is lost. *)
Definition normal_bindings (v : pyval) : pyval := if truthy v then v else PNone.
Definition received (m : message) : message :=
  match m with
  | MDataReady (mkDataReady a b c d e f g h) => MDataReady (mkDataReady a b c d e f g (normal_bindings h))
  | MSubmit (mkSubmit a b h) => MSubmit (mkSubmit a b (normal_bindings h))
  | m => m
  end.

Lemma require_str_ok v n w : _require_str v n = Ok w ↔ w = v ∧ ∃ s, v = PStr s ∧ s ≠ "".
Proof.
  destruct v; simpl; try (split; [done|naive_solver]). case_bool_decide; naive_solver.
Qed.

Lemma bindings_entry_ok v b : wt_bindings v → bindings_entry v = Ok b →
  b = opt_entry (truthy v) "replica_bindings" v.
Proof.
  unfold bindings_entry. intros [->|[d ->]]; [by intros [= <-]|].
  destruct (truthy (PDict d)); by intros [= <-].
Qed.

Lemma py_or_dict d : py_or (PDict d) (PDict []) = PDict d.
Proof. by destruct d. Qed.

Lemma py_or_str s : py_or (PStr s) (PStr "") = PStr s.
Proof. unfold py_or. simpl. case_bool_decide as E; [done|]. by destruct (decide (s = "")) as [->|]. Qed.

Lemma data_ready_roundtrip m d :
  wt_bindings (dr_replica_bindings m) → DataReadyMessage_to_dict m = Ok d →
  parse_message (PDict d) = Ok (received (MDataReady m)).
Proof.
  destruct m as [a b c dref ch dn er bi]. intros Hb Hd. unfold DataReadyMessage_to_dict in Hd. simpl in *.
  apply bind_ok in Hd as (? & (-> & sa & -> & Ha)%require_str_ok & Hd).
  apply bind_ok in Hd as (? & (-> & sb & -> & Hb')%require_str_ok & Hd).
  apply bind_ok in Hd as (? & (-> & sc & -> & Hc)%require_str_ok & Hd).
  apply bind_ok in Hd as (is_done & Hdone & Hd). destruct dn as [|dn| | | | | |]; try done. injection Hdone as <-.
  assert (∃ tail, bindings_entry bi = Ok tail ∧ tail = opt_entry (truthy bi) "replica_bindings" bi) as (tail & Et & Htail).
  { destruct Hb as [->|[d' ->]]; unfold bindings_entry; [by eexists|].
    destruct (truthy (PDict d')); by eexists. }
  rewrite Et in Hd. assert (dget "replica_bindings" tail = normal_bindings bi) as Hget.
  { subst tail. unfold normal_bindings. by destruct (truthy bi). }
  assert (∀ k, k ≠ "replica_bindings" → od_get k tail = None) as Hother.
  { intros k Hk. subst tail. unfold opt_entry. destruct (truthy bi); simpl; by rewrite ?decide_False. }
  clear Et Htail.
  destruct dn, er; try done; destruct dref; try done; destruct ch; try done; simpl in Hd; repeat case_bool_decide; try done; injection Hd as <-;
    unfold parse_message, DataReadyMessage_from_dict, dget, dget_or in *; simpl;
    repeat first [rewrite Hget|rewrite (Hother "error") by done|rewrite (Hother "data_ref") by done
                 |rewrite (Hother "chunk_id") by done|rewrite (Hother "is_done") by done
                 |rewrite bool_decide_false by (done || lia)|progress simpl]; reflexivity.
Qed.

Lemma data_ack_roundtrip m d :
  DataAckMessage_to_dict m = Ok d → parse_message (PDict d) = Ok (MDataAck m).
Proof.
  destruct m as [a b c o su er]. intros Hd. unfold DataAckMessage_to_dict in Hd. simpl in *.
  apply bind_ok in Hd as (? & (-> & sa & -> & Ha)%require_str_ok & Hd).
  apply bind_ok in Hd as (? & (-> & sb & -> & Hb)%require_str_ok & Hd).
  apply bind_ok in Hd as (? & (-> & sc & -> & Hc)%require_str_ok & Hd).
  apply bind_ok in Hd as (? & (-> & so & -> & Ho)%require_str_ok & Hd).
  destruct su as [|su| | | | | |]; try done. simpl in Hd.
  destruct su, er; try done; simpl in Hd; repeat case_bool_decide; try done; injection Hd as <-;
    unfold parse_message, DataAckMessage_from_dict, dget; simpl;
    repeat (rewrite bool_decide_false by done; simpl); reflexivity.
Qed.

Lemma submit_roundtrip m d :
  wt_data (sb_data m) → wt_bindings (sb_replica_bindings m) → SubmitMessage_to_dict m = Ok d →
  parse_message (PDict d) = Ok (received (MSubmit m)).
Proof.
  destruct m as [r data bi]. simpl. intros Hdata Hb Hd. unfold SubmitMessage_to_dict in Hd. simpl in Hd.
  apply bind_ok in Hd as (tail & Ht & [= <-]). apply bindings_entry_ok in Ht as ->; [|done].
  assert (default PNone (od_get "replica_bindings" (opt_entry (truthy bi) "replica_bindings" bi)) = normal_bindings bi) as Hget.
  { unfold normal_bindings. by destruct (truthy bi). }
  unfold parse_message, SubmitMessage_from_dict, dget. simpl. rewrite Hget.
  destruct data as [p|v]; simpl; [by destruct p as [? [? ? ?] ?]|].
  destruct v as [| | | | | | |dd]; try done. simpl in Hdata. specialize (Hdata dd eq_refl).
  by rewrite bool_decide_false.
Qed.

Lemma admin_operation_roundtrip o :
  wt_str (ao_op_id o) → wt_str (ao_action o) → wt_dict (ao_payload o) →
  (ao_target_stages o = PNone ∨ ∃ l, ao_target_stages o = PList l) →
  AdminOperation_from_dict (PDict (AdminOperation_to_dict o)) = Ok o.
Proof.
  destruct o as [a b c t ti]. simpl. intros [sa ->] [sb ->] [dc ->] Ht.
  unfold AdminOperation_from_dict, AdminOperation_to_dict. simpl. unfold dget. simpl. rewrite py_or_dict. simpl.
  by destruct Ht as [->|[l ->]].
Qed.

Lemma admin_result_roundtrip r :
  wt_str (ar_op_id r) → wt_str (ar_stage r) → wt_str (ar_action r) → wt_bool (ar_success r) →
  wt_str (ar_message r) → wt_dict (ar_data r) →
  AdminResult_from_dict (PDict (AdminResult_to_dict r)) = Ok r.
Proof.
  destruct r as [a b c s m d e ra ro]. simpl. intros [sa ->] [sb ->] [sc ->] [bs ->] [sm ->] [dd ->].
  unfold AdminResult_from_dict, AdminResult_to_dict. simpl. unfold dget. simpl. rewrite py_or_dict, py_or_str. by destruct bs.
Qed.

(** A dataclass without a field "type" is tagged and, tag ignored, converted back. *)
Lemma tagged_eq tag d : NoDup (od_keys d) → "type" ∉ od_keys d → tagged tag d = ("type", PStr tag) :: d.
Proof.
  intros Hd Ht. unfold tagged. assert (H : ∀ l acc : pdict, NoDup (od_keys (acc ++ l)) → fold_left (λ (d : pdict) e, od_set e.1 e.2 d) l acc = acc ++ l).
  { induction l as [|[k v] l IH]; intros acc H; simpl; [by rewrite app_nil_r|]. rewrite od_set_fresh.
    - rewrite IH, <- app_assoc; [done|]. by rewrite <- app_assoc.
    - unfold od_keys in *. rewrite fmap_app in H. apply NoDup_app in H as (_ & H & _). intros Hk. apply (H k Hk). simpl. by left. }
  apply (H d [_]). simpl. by apply NoDup_cons.
Qed.
Lemma msgspec_roundtrip {A} fields plain (c : msgspec A) tag m : msgspec_ok fields plain c → NoDup fields → "type" ∉ fields → plain m = true →
  tagged tag (to_builtins c m) = ("type", PStr tag) :: to_builtins c m ∧ convert c (PDict (tagged tag (to_builtins c m))) = Ok m.
Proof.
  intros [H1 H2 H3] Hnd Ht Hm. rewrite (tagged_eq tag) by (by rewrite H1). split; [done|]. by rewrite H3, H2.
Qed.

(** C40. The wire form is faithful: for every message of the thirteen kinds, if a sender that respects
    the annotations can serialise it, parsing the result gives the same message back, of the
    same class, with every field; the one normalisation is that empty replica bindings come
    back as [None].  Respecting the annotations includes that plain data of a submit message
    does not pose as a payload, and that the open fields of a transfer message hold no
    [bytes]; [msgspec], which writes and reads the transfer messages, does what its
    documentation says ([msgspec_ok]). *)
Theorem message_roundtrip m d : msgspec_ok prepare_fields prepare_plain kp → msgspec_ok ready_fields ready_plain kr →
  well_typed m → to_dict m = Ok d → parse_message (PDict d) = Ok (received m).
Proof.
  intros Hkp Hkr. destruct m as [m|m|m|m|m|m|m|m| |m|m|m|m]; simpl; intros Hwt Hd.
  - pose proof (data_ready_roundtrip m d Hwt Hd) as E. by destruct m.
  - by apply data_ack_roundtrip.
  - injection Hd as <-. destruct (msgspec_roundtrip _ _ kp "kv_transfer_prepare" m Hkp) as [Et Ec]; [apply (bool_decide_eq_true_1 _); vm_compute; reflexivity..|done|].
    unfold parse_message, KVTransferPrepareMessage_to_dict. rewrite Et. simpl. unfold KVTransferPrepareMessage_from_dict. rewrite <- Et, Ec. done.
  - injection Hd as <-. destruct (msgspec_roundtrip _ _ kr "kv_transfer_ready" m Hkr) as [Et Ec]; [apply (bool_decide_eq_true_1 _); vm_compute; reflexivity..|done|].
    unfold parse_message, KVTransferReadyMessage_to_dict. rewrite Et. simpl. unfold KVTransferReadyMessage_from_dict. rewrite <- Et, Ec. done.
  - injection Hd as <-. by destruct m.
  - injection Hd as <-. by destruct m.
  - injection Hd as <-. destruct m as [? ? ? ? ? ? ch]. by destruct ch.
  - destruct Hwt as [Hdata Hb]. pose proof (submit_roundtrip m d Hdata Hb Hd) as E. by destruct m.
  - by injection Hd as <-.
  - injection Hd as <-. destruct m as [? ? ? e]. destruct Hwt as [b E]. simpl in E. subst e.
    unfold parse_message. simpl. by destruct b.
  - injection Hd as <-. by destruct m.
  - injection Hd as <-. destruct m as [o], Hwt as (? & ? & ? & ?). unfold parse_message. simpl.
    unfold AdminMessage_from_dict. simpl. by rewrite admin_operation_roundtrip.
  - injection Hd as <-. destruct m as [r], Hwt as (? & ? & ? & ? & ? & ?). unfold parse_message. simpl.
    unfold AdminResultMessage_from_dict. simpl. by rewrite admin_result_roundtrip.
Qed.

(** Which parser produced a message. *)
Ltac parsed Hp :=
  repeat (case_bool_decide;
    [match type of Hp with (_ <$> ?r) = _ => destruct r as [?|?] eqn:?; simplify_eq/= | _ => simplify_eq end|]).

Lemma parse_data_ready v m :
  parse_message v = Ok (MDataReady m) → ∃ d, v = PDict d ∧ DataReadyMessage_from_dict d = Ok m.
Proof.
  unfold parse_message. intros (t & _ & Hp)%bind_ok. destruct v as [| | | | | | |d]; try done.
  exists d. split; [done|]. parsed Hp; done.
Qed.

Lemma parse_data_ack v m :
  parse_message v = Ok (MDataAck m) → ∃ d, v = PDict d ∧ DataAckMessage_from_dict d = Ok m.
Proof.
  unfold parse_message. intros (t & _ & Hp)%bind_ok. destruct v as [| | | | | | |d]; try done.
  exists d. split; [done|]. parsed Hp; done.
Qed.

(** Sender and receiver agree on what a data-plane message may be: whatever
    dictionary [from_dict] accepts as a data notification or an acknowledgement,
    with bindings that are absent or a mapping, the resulting message passes the
    checks of [to_dict]; so a payload notification carries a [data_ref] mapping, a
    stream signal carries neither a [data_ref] nor a [chunk_id] and is not both
    done and an error, and an acknowledgement carries an error exactly when it
    failed. *)
Theorem validators_agree v :
  (∀ m, parse_message v = Ok (MDataReady m) → wt_bindings (dr_replica_bindings m) →
     is_ok (to_dict (MDataReady m)) = true ∧
     (dr_is_done m = PBool true ∨ dr_error m ≠ PNone →
        dr_data_ref m = PNone ∧ dr_chunk_id m = PNone ∧ (dr_is_done m = PBool true → dr_error m = PNone)) ∧
     (dr_is_done m = PBool false → dr_error m = PNone → wt_dict (dr_data_ref m))) ∧
  (∀ m, parse_message v = Ok (MDataAck m) →
     is_ok (to_dict (MDataAck m)) = true ∧ (da_success m = PBool true ↔ da_error m = PNone)).
Proof.
  split; intros m Hp.
  - intros Hb. apply parse_data_ready in Hp as (d & -> & Hp). unfold DataReadyMessage_from_dict in Hp.
    apply bind_ok in Hp as (ra & [Era (sa & Esa & Ha)]%require_str_ok & Hp).
    apply bind_ok in Hp as (rb & [Erb (sb & Esb & Hb')]%require_str_ok & Hp).
    apply bind_ok in Hp as (rc & [Erc (sc & Esc & Hc)]%require_str_ok & Hp).
    apply bind_ok in Hp as (done & Hdone & Hp).
    apply bind_ok in Hp as (er & Her & Hp).
    apply bind_ok in Hp as (u1 & H1%raise_if_ok & Hp).
    apply bind_ok in Hp as (u2 & H2 & Hp). apply bind_ok in Hp as (u3 & H3 & Hp).
    injection Hp as <-. simpl in *.
    assert (er = PNone ∨ ∃ s, er = PStr s ∧ s ≠ "") as Her'.
    { destruct (is_none (dget "error" d)) eqn:Hn; simpl in Her.
      - injection Her as <-. left. by destruct (dget "error" d).
      - apply require_str_ok in Her as (-> & s & ? & ?). eauto. }
    assert (if done || negb (is_none er)
            then dget "data_ref" d = PNone ∧ dget "chunk_id" d = PNone
            else wt_dict (dget "data_ref" d)) as Href.
    { destruct (done || _).
      - apply bind_ok in H2 as (? & E1%raise_if_ok & E2%raise_if_ok). bool_simpl. split.
        + by destruct (dget "data_ref" d).
        + unfold dget. by destruct (od_get "chunk_id" d); [destruct E2|].
      - apply raise_if_ok in H2. destruct (dget "data_ref" d); try done. by eexists. }
    assert (dget "chunk_id" d = PNone ∨ ∃ z, dget "chunk_id" d = PInt z ∧ (0 ≤ z)%Z) as Hch.
    { destruct (dget "chunk_id" d); simpl in H3; try done; [by left|].
      case_bool_decide; [done|]. right. eexists. split; [done|lia]. }
    assert (is_ok (bindings_entry (dget "replica_bindings" d)) = true) as Hbi.
    { unfold bindings_entry. destruct Hb as [->|[d' ->]]; [done|]. by destruct (truthy _). }
    subst ra rb rc. rewrite Esa, Esb, Esc. clear H2 H3 Her Hdone Hb Esa Esb Esc.
    revert Href Hch Hbi. generalize (dget "data_ref" d) (dget "chunk_id" d) (dget "replica_bindings" d).
    intros dref ch bi Href Hch Hbi.
    assert (∃ tail, bindings_entry bi = Ok tail) as [tail Ht] by (destruct (bindings_entry bi); [eauto|done]).
    split.
    + unfold DataReadyMessage_to_dict. simpl. rewrite Ht.
      destruct Her' as [->|(s & -> & Hs)], done; simpl in *; try done;
        repeat (rewrite bool_decide_false by done; simpl); try (by destruct Href as [-> ->]).
      destruct Href as [dd ->]. simpl. destruct Hch as [->|(z & -> & Hz)]; simpl; [done|].
      by rewrite bool_decide_false by lia.
    + split.
      * intros Hor. destruct Her' as [->|(s & -> & Hs)], done; simpl in *; naive_solver.
      * intros [= ->] ->. done.
  - apply parse_data_ack in Hp as (d & -> & Hp). unfold DataAckMessage_from_dict in Hp.
    apply bind_ok in Hp as (b & Hsu & Hp). apply bind_ok in Hp as (er & Her & Hp).
    apply bind_ok in Hp as (ra & [Era (sa & Esa & Ha)]%require_str_ok & Hp).
    apply bind_ok in Hp as (rb & [Erb (sb & Esb & Hb)]%require_str_ok & Hp).
    apply bind_ok in Hp as (rc & [Erc (sc & Esc & Hc)]%require_str_ok & Hp).
    apply bind_ok in Hp as (ro & [Ero (so & Eso & Ho)]%require_str_ok & Hp).
    injection Hp as <-. simpl. subst ra rb rc ro. rewrite Esa, Esb, Esc, Eso.
    destruct (dget "success" d); try done. injection Hsu as ->.
    unfold DataAckMessage_to_dict. simpl. repeat (rewrite bool_decide_false by done; simpl).
    destruct b; simpl in Her |- *.
    + apply bind_ok in Her as (? & E%raise_if_ok & [= <-]). destruct (dget "error" d); try done.
    + apply require_str_ok in Her as (-> & s & -> & Hs). simpl. by rewrite bool_decide_false.
Qed.

(** [compatible_with] is equality of layouts. *)
Lemma compatible_with_eq a b : compatible_with a b = true ↔ a = b.
Proof.
  unfold compatible_with. destruct a as [i p l], b as [i' p' l']. simpl.
  assert (length l = length l' → buffers_match l l' = true ↔ l = l') as Hl.
  { revert l'. induction l as [|[n z] l IH]; intros [|[n' z'] l']; simpl; try done. intros [= Hlen].
    rewrite !andb_true_iff, !bool_decide_eq_true, IH by done. naive_solver. }
  destruct (bool_decide (i ≠ i') || bool_decide (p ≠ p')) eqn:E1.
  { split; [done|]. intros [= -> -> ->]. by rewrite !bool_decide_false in E1 by naive_solver. }
  bool_simpl. case_bool_decide as E2.
  { split; [done|]. intros [= -> -> ->]. done. }
  rewrite Hl by (destruct (decide (length l = length l')); tauto).
  apply dec_stable in H, H0. naive_solver.
Qed.

(** ** The wire *)
Section codec.
(** [msgpack.packb] and [msgpack.unpackb]. *)
Variable packb : pyval → list Byte.byte.
Variable unpackb : list Byte.byte → res pyval.

Definition serialize_message (m : message) : res (list Byte.byte) := d ← to_dict m; mret (packb (PDict d)).
Definition deserialize_message (data : list Byte.byte) : res message := d ← unpackb data; parse_message d.
End codec.
End proto.

(** ** Witnesses *)
(** A [msgspec] for the two classes, field by field. *)
Definition as_str (v : pyval) : res string := match v with PStr s => Ok s | _ => Raise (TypeError "str") end.
Definition as_int (v : pyval) : res Z := match v with PInt z => Ok z | _ => Raise (TypeError "int") end.
Definition as_bool (v : pyval) : res bool := match v with PBool b => Ok b | _ => Raise (TypeError "bool") end.
Definition as_dict (v : pyval) : res pdict := match v with PDict d => Ok d | _ => Raise (TypeError "dict") end.
Definition as_opt {A} (f : pyval → res A) (v : pyval) : res (option A) := match v with PNone => Ok None | _ => Some <$> f v end.
Definition as_list {A} (f : pyval → res A) (v : pyval) : res (list A) :=
  match v with PList l => foldM (λ acc v, x ← f v; mret (acc ++ [x])) l [] | _ => Raise (TypeError "list") end.
Definition buffer_of (v : pyval) : res KVBufferSpec := d ← as_dict v; n ← as_str (dget "name" d); b ← as_int (dget "bytes_per_page" d); mret (mkBuffer n b).
Definition layout_of (v : pyval) : res KVPoolLayout :=
  d ← as_dict v; i ← as_str (dget "layout_id" d); p ← as_int (dget "page_size" d); l ← as_list buffer_of (dget "buffers" d); mret (mkLayout i p l).
Definition of_buffer (b : KVBufferSpec) : pyval := PDict [("name", PStr (kb_name b)); ("bytes_per_page", PInt (kb_bytes_per_page b))].
Definition of_layout (l : KVPoolLayout) : pyval :=
  PDict [("layout_id", PStr (kl_layout_id l)); ("page_size", PInt (kl_page_size l)); ("buffers", PList (map of_buffer (kl_buffers l)))].
Definition ex_prepare : msgspec KVTransferPrepareMessage := mkMsgspec
  (λ m, [("request_id", PStr (kp_request_id m)); ("transfer_id", PStr (kp_transfer_id m)); ("from_stage", PStr (kp_from_stage m)); ("to_stage", PStr (kp_to_stage m));
         ("source_pool_id", PStr (kp_source_pool_id m)); ("target_pool_id", PStr (kp_target_pool_id m)); ("source_page_indices", PList (map PInt (kp_source_page_indices m)));
         ("source_layout", of_layout (kp_source_layout m)); ("metadata", PDict (kp_metadata m))])
  (λ v, d ← as_dict v; a ← as_str (dget "request_id" d); b ← as_str (dget "transfer_id" d); c ← as_str (dget "from_stage" d); e ← as_str (dget "to_stage" d);
        f ← as_str (dget "source_pool_id" d); g ← as_str (dget "target_pool_id" d); h ← as_list as_int (dget "source_page_indices" d);
        i ← layout_of (dget "source_layout" d); j ← as_dict (dget "metadata" d); mret (mkKvPrepare a b c e f g h i j)).
Definition of_opt {A} (f : A → pyval) (o : option A) : pyval := match o with Some a => f a | None => PNone end.
Definition ex_ready_spec : msgspec KVTransferReadyMessage := mkMsgspec
  (λ m, [("request_id", PStr (kr_request_id m)); ("transfer_id", PStr (kr_transfer_id m)); ("from_stage", PStr (kr_from_stage m)); ("to_stage", PStr (kr_to_stage m));
         ("success", PBool (kr_success m)); ("destination_pool_id", of_opt PStr (kr_destination_pool_id m)); ("destination_page_indices", PList (map PInt (kr_destination_page_indices m)));
         ("destination_ref", of_opt PDict (kr_destination_ref m)); ("error", of_opt PStr (kr_error m))])
  (λ v, d ← as_dict v; a ← as_str (dget "request_id" d); b ← as_str (dget "transfer_id" d); c ← as_str (dget "from_stage" d); e ← as_str (dget "to_stage" d);
        f ← as_bool (dget "success" d); g ← as_opt as_str (dget "destination_pool_id" d); h ← as_list as_int (dget "destination_page_indices" d);
        i ← as_opt as_dict (dget "destination_ref" d); j ← as_opt as_str (dget "error" d); mret (mkKvReady a b c e f g h i j)).
Lemma as_list_map {A} (f : pyval → res A) (g : A → pyval) l : (∀ a, f (g a) = Ok a) → as_list f (PList (map g l)) = Ok l.
Proof.
  intros H. simpl. enough (E : ∀ acc, foldM (λ acc v, x ← f v; mret (acc ++ [x])) (map g l) acc = Ok (acc ++ l)) by apply (E []).
  induction l as [|a l IH]; intros acc; simpl; [by rewrite app_nil_r|]. rewrite H. simpl. rewrite IH, <- app_assoc. done.
Qed.
#[local] Arguments as_list : simpl never.
#[local] Arguments layout_of : simpl never.
#[local] Arguments of_layout : simpl never.
Lemma dget_other k k' v d : k ≠ k' → dget k ((k', v) :: d) = dget k d.
Proof. intros. unfold dget. simpl. by rewrite decide_False. Qed.
Lemma layout_of_layout l : layout_of (of_layout l) = Ok l.
Proof. destruct l as [i p l]. unfold layout_of, of_layout, dget. simpl. by rewrite as_list_map by (by intros []). Qed.
Lemma ex_prepare_ok : msgspec_ok prepare_fields prepare_plain ex_prepare.
Proof.
  split; [done| |].
  - intros [a b c d e f g h i] _. unfold ex_prepare, dget. simpl. by rewrite as_list_map, layout_of_layout by done.
  - intros k v d Hk. unfold ex_prepare. simpl. rewrite !dget_other by (intros <-; apply Hk; apply (bool_decide_eq_true_1 _); vm_compute; reflexivity). done.
Qed.
Lemma ex_ready_ok : msgspec_ok ready_fields ready_plain ex_ready_spec.
Proof.
  split; [done| |].
  - intros [a b c d e f g h i] _. unfold ex_ready_spec, dget. simpl. rewrite as_list_map by done. by destruct f, h, i.
  - intros k v d Hk. unfold ex_ready_spec. simpl. rewrite !dget_other by (intros <-; apply Hk; apply (bool_decide_eq_true_1 _); vm_compute; reflexivity). done.
Qed.

Definition ex_to_dict : message → res pdict := to_dict ex_prepare ex_ready_spec.
Definition ex_parse : pyval → res message := parse_message (λ _, "") ex_prepare ex_ready_spec.

Definition ex_ready : message := MDataReady
  (mkDataReady (PStr "req") (PStr "a") (PStr "b") (PDict [("k", PInt 1)]) (PInt 3) (PBool false) PNone
     (PDict [("b", PInt 1)])).
Definition ex_kv : message := MKvPrepare
  (mkKvPrepare "req" "t" "a" "b" "src" "dst" [0; 3] (mkLayout "mha" 16 [mkBuffer "k" 4096; mkBuffer "v" 4096]) [("rank", PInt 1)])%Z.

(** A notification and a page reservation. *)
Lemma message_roundtrip_witness :
  (∃ d, ex_to_dict ex_ready = Ok d ∧ ex_parse (PDict d) = Ok ex_ready) ∧ ∃ d, ex_to_dict ex_kv = Ok d ∧ ex_parse (PDict d) = Ok ex_kv.
Proof.
  split; (eexists; split; [vm_compute; reflexivity|]).
  - apply (message_roundtrip (λ _, "") ex_prepare ex_ready_spec ex_ready _ ex_prepare_ok ex_ready_ok); [right; eexists; reflexivity|vm_compute; reflexivity].
  - apply (message_roundtrip (λ _, "") ex_prepare ex_ready_spec ex_kv _ ex_prepare_ok ex_ready_ok); vm_compute; reflexivity.
Defined.

Lemma validators_agree_witness :
  ∃ m, ex_parse (PDict [("type", PStr "data_ready"); ("request_id", PStr "r"); ("from_stage", PStr "a");
                        ("to_stage", PStr "b"); ("is_done", PBool true)]) = Ok (MDataReady m) ∧
    is_ok (ex_to_dict (MDataReady m)) = true.
Proof.
  eexists. split; [vm_compute; reflexivity|].
  apply (validators_agree (λ _, "") ex_prepare ex_ready_spec
           (PDict [("type", PStr "data_ready"); ("request_id", PStr "r"); ("from_stage", PStr "a");
                   ("to_stage", PStr "b"); ("is_done", PBool true)])).
  - vm_compute. reflexivity.
  - left. reflexivity.
Defined.
