(* ===== verification/UpdateJournal.v ===== *)
(** * The weight-update journal

    Models [sglang_omni_router/python/update_journal.py] over a file system with
    faults and crashes: every OS call may fail, directory entries are durable only
    once their directory was synced, and a crash leaves any state between the last
    sync and the moment it hits.  A file is its parsed JSON document, or text that
    does not parse. *)
From S2P Require Import Prelude PyVal.

(** ** Disk *)

(** The endpoint directory and its ancestors, the root first: does the directory
    exist, and is its entry in its parent durable. *)
Record dirent := mkDir { d_exists : bool; d_synced : bool }.

#[export] Instance dirent_eq_dec : EqDecision dirent.
Proof. solve_decision. Defined.

Inductive file := FDoc (v : pyval) | FGarbage.

(** [journal] and [tmp] are the endpoint directory's entries; [images] are the
    journal entries a crash may leave: those since the last directory sync. *)
Record disk := mkDisk {
  dirs : list dirent;
  journal : option file;
  tmp : option file;
  images : list (option file);
}.

Definition endpoint (d : disk) : nat := pred (length (dirs d)).
Definition isdir (k : nat) (d : disk) : bool :=
  match dirs d !! k with Some e => d_exists e | None => false end.

(** A run: the disk, every disk it went through (a crash may hit any of them),
    and the outcomes of the coming OS calls ([true]: the call fails). *)
Record world := mkWorld { w_disk : disk; w_log : list disk; w_faults : list bool }.

Definition M (A : Type) : Type := world → world * res A.
#[export] Instance M_ret : MRet M := λ A a w, (w, Ok a).
#[export] Instance M_bind : MBind M := λ A B f m w,
  match m w with (w, Ok a) => f a w | (w, Raise e) => (w, Raise e) end.

Definition throw {A} (e : exn) : M A := λ w, (w, Raise e).
Definition get_disk : M disk := λ w, (w, Ok (w_disk w)).
Definition set_disk (d : disk) : M unit := λ w, (mkWorld d (d :: w_log w) (w_faults w), Ok tt).

(** An OS call that fails when the next outcome says so. *)
Definition os_call {A} (m : M A) : M A := λ w,
  match w_faults w with
  | true :: fs => (mkWorld (w_disk w) (w_log w) fs, Raise OSError)
  | _ :: fs => m (mkWorld (w_disk w) (w_log w) fs)
  | [] => m w
  end.

(** [try: m; except ...: h]. *)
Definition catch {A} (m : M A) (h : exn → option (M A)) : M A := λ w,
  match m w with
  | (w, Raise e) => match h e with Some m' => m' w | None => (w, Raise e) end
  | r => r
  end.

Definition as_unwritable {A} (m : M A) : M A :=
  catch m (λ e, match e with OSError | FileNotFoundError => Some (throw JournalUnwritableError) | _ => None end).

(** ** OS primitives *)
Definition mkdir (k : nat) : M unit := os_call (
  d ← get_disk;
  set_disk (mkDisk (<[k := mkDir true false]> (dirs d)) (journal d) (tmp d) (images d))).

(** [fsync] of directory [k]: the entries in it become durable. *)
Definition sync_dir (k : nat) (d : disk) : disk :=
  mkDisk (alter (λ e, mkDir (d_exists e) true) (S k) (dirs d)) (journal d) (tmp d)
    (if bool_decide (k = endpoint d) then [journal d] else images d).

(** Opening the temporary file with [O_CREAT|O_TRUNC]. *)
Definition open_tmp : M unit := os_call (
  d ← get_disk;
  if isdir (endpoint d) d then set_disk (mkDisk (dirs d) (journal d) (Some FGarbage) (images d))
  else throw FileNotFoundError).

(** [write], [flush] and [os.fsync] of the temporary file. *)
Definition write_tmp (v : pyval) : M unit := os_call (
  d ← get_disk; set_disk (mkDisk (dirs d) (journal d) (Some (FDoc v)) (images d))).

Definition replace_tmp : M unit := os_call (
  d ← get_disk; set_disk (mkDisk (dirs d) (tmp d) None (images d ++ [tmp d]))).

Definition unlink_journal : M unit := os_call (
  d ← get_disk;
  match journal d with
  | None => throw FileNotFoundError
  | Some _ => set_disk (mkDisk (dirs d) None (tmp d) (images d ++ [None]))
  end).

(** [open] and [json.load]. *)
Definition read_json : M pyval := os_call (
  d ← get_disk;
  match journal d with
  | None => throw FileNotFoundError
  | Some (FDoc v) => mret v
  | Some FGarbage => throw (ValueError "invalid JSON")
  end).

Section journal.
(** [os.name == "posix"]. *)
Variable posix : bool.

Definition _fsync_directory (k : nat) : M unit :=
  if negb posix then mret tt
  else
    _ ← as_unwritable (os_call (
      d ← get_disk; if isdir k d then mret tt else throw FileNotFoundError));
    as_unwritable (os_call (d ← get_disk; set_disk (sync_dir k d))).

(** The [while] loop of [_make_private_dir] from directory [k] up: the missing
    directories, innermost first. *)
Fixpoint missing (d : disk) (k : nat) : list nat :=
  if isdir k d then [] else k :: match k with O => [] | S k => missing d k end.

Fixpoint mkdirs (ks : list nat) : M unit :=
  match ks with
  | [] => mret tt
  | k :: ks => _ ← mkdir k; mkdirs ks
  end.

(** [os.makedirs] makes the outermost first; [os.chmod] failures are ignored. *)
Definition _make_private_dir : M (list nat) :=
  d ← get_disk;
  if isdir (endpoint d) d then mret []
  else
    let created := missing d (endpoint d) in
    _ ← mkdirs (rev created);
    mret created.

(** The loop that makes created directories durable, outermost first. *)
Fixpoint sync_created (ks : list nat) : M unit :=
  match ks with
  | [] => mret tt
  | k :: ks => _ ← _fsync_directory (pred k); sync_created ks
  end.

Definition _fsync_dir : M unit := d ← get_disk; _fsync_directory (endpoint d).

Definition _write (data : pyval) : M unit :=
  _ ← as_unwritable (
    created ← _make_private_dir;
    _ ← sync_created (rev created);
    _ ← open_tmp;
    _ ← write_tmp data;
    replace_tmp);
  _fsync_dir.

Definition _read_document : M (option (list (string * pyval))) :=
  v ← catch (v ← read_json; mret (Some v))
    (λ e, match e with
          | FileNotFoundError => Some (mret None)
          | OSError | ValueError _ => Some (throw JournalUnreadableError)
          | _ => None
          end);
  match v with
  | None => mret None
  | Some (PDict d) => mret (Some d)
  | Some _ => throw JournalUnreadableError
  end.

Definition as_str (v : pyval) : option string := match v with PStr s => Some s | _ => None end.

(** What [pending] makes of a document. *)
Definition worker_ids_of (data : list (string * pyval)) : res (list string) :=
  match dget "worker_ids" data with
  | PList l => match mapM as_str l with Some ids => Ok ids | None => Raise JournalUnreadableError end
  | _ => Raise JournalUnreadableError
  end.

Definition lift {A} (r : res A) : M A := λ w, (w, r).

Definition pending : M (list string) :=
  data ← _read_document;
  match data with
  | None => mret []
  | Some data => lift (worker_ids_of data)
  end.

Definition has_pending : M bool :=
  catch (ids ← pending; mret (negb (bool_decide (ids = []))))
    (λ e, match e with JournalUnreadableError => Some (mret true) | _ => None end).

Definition id_list (ids : list string) : pyval := PList (map PStr (sort_strings ids)).
Definition begin_doc (path : string) (ids : list string) : pyval :=
  PDict [("path", PStr path); ("worker_ids", id_list ids)].

Definition begin (path : string) (worker_ids : list string) : M unit := _write (begin_doc path worker_ids).

Definition clear : M unit :=
  r ← catch (catch (_ ← unlink_journal; mret true)
    (λ e, match e with
          | FileNotFoundError =>
              Some (d ← get_disk; _ ← (if isdir (endpoint d) d then _fsync_dir else mret tt); mret false)
          | _ => None
          end))
    (λ e, match e with OSError => Some (throw JournalUnwritableError) | _ => None end);
  if (r : bool) then _fsync_dir else mret tt.

Definition keep_doc (existing : option (list (string * pyval))) (ids : list string) : pyval :=
  PDict ([("worker_ids", id_list ids)] ++
    match existing with
    | Some data => match dget "path" data with PStr p => [("path", PStr p)] | _ => [] end
    | None => []
    end).

Definition keep (worker_ids : list string) : M unit :=
  if bool_decide (worker_ids = []) then clear
  else
    existing ← catch _read_document
      (λ e, match e with JournalUnreadableError => Some (mret None) | _ => None end);
    _write (keep_doc existing worker_ids).

Definition discard (worker_id : string) : M bool :=
  remaining ← catch (ids ← pending; mret (Some (filter (.≠ worker_id) ids)))
    (λ e, match e with JournalUnreadableError => Some (mret None) | _ => None end);
  match remaining with
  | None => mret false
  | Some ids =>
      catch (_ ← keep ids; mret true)
        (λ e, match e with JournalUnwritableError => Some (mret false) | _ => None end)
  end.
End journal.

(** [UnavailableJournal]: reads report nothing, writes refuse. *)
Module Unavailable.
Definition pending : res (list string) := Ok [].
Definition has_pending : bool := false.
Definition begin (path : string) (worker_ids : list string) : res unit := Raise JournalUnwritableError.
Definition keep (worker_ids : list string) : res unit := Raise JournalUnwritableError.
Definition discard (worker_id : string) : bool := true.
Definition clear : res unit := Ok tt.
End Unavailable.

(** ** Crashes *)

(** A crash keeps the directories up to the first whose entry was lost; the
    journal is one of its possible entries, or gone with its directory. *)
Inductive crash (d : disk) : disk → Prop :=
| crash_kept j :
    Forall (λ e, d_exists e = true) (dirs d) → j ∈ images d →
    crash d (mkDisk (map (λ e, mkDir (d_exists e) true) (dirs d)) j None [j])
| crash_lost k e :
    dirs d !! k = Some e → d_exists e = false ∨ d_synced e = false →
    crash d (mkDisk (map (λ e, mkDir (d_exists e) true) (take k (dirs d)) ++
                     replicate (length (dirs d) - k) (mkDir false false)) None None [None]).

(** What a restarted router reads, without further faults. *)
Definition recovered (d : disk) : res (list string) := (pending (mkWorld d [] [])).2.

(** ** Triples

    [triple I P m Q X]: from a disk satisfying [P], every disk [m] goes through
    satisfies [I], and it ends in [Q] with its value or in [X] with its exception. *)
Definition triple {A} (I P : disk → Prop) (m : M A) (Q : A → disk → Prop) (X : exn → disk → Prop) : Prop :=
  ∀ w w' r, m w = (w', r) → P (w_disk w) → Forall I (w_log w) →
    Forall I (w_log w') ∧ match r with Ok a => Q a (w_disk w') | Raise e => X e (w_disk w') end.

Section triples.
Context {A B : Type} (I : disk → Prop).
Implicit Types (P : disk → Prop).

Lemma triple_ret (a : A) P X : triple I P (mret a) (λ b d, b = a ∧ P d) X.
Proof. intros w w' r [= <- <-] HP HI. auto. Qed.

Lemma triple_throw e P (Q : A → disk → Prop) : triple I P (throw e) Q (λ e' d, e' = e ∧ P d).
Proof. intros w w' r [= <- <-] HP HI. auto. Qed.

Lemma triple_bind P Q (R : B → disk → Prop) X (m : M A) (f : A → M B) :
  triple I P m Q X → (∀ a, triple I (Q a) (f a) R X) → triple I P (m ≫= f) R X.
Proof.
  intros Hm Hf w w' r Hr HP HI. unfold mbind, M_bind in Hr.
  destruct (m w) as [w1 [a|e]] eqn:E; destruct (Hm _ _ _ E HP HI) as [HI1 H1].
  - by eapply Hf.
  - injection Hr as <- <-. auto.
Qed.

Lemma triple_weaken P P' (Q Q' : A → disk → Prop) (X X' : exn → disk → Prop) m :
  triple I P m Q X → (∀ d, P' d → P d) → (∀ a d, Q a d → Q' a d) → (∀ e d, X e d → X' e d) →
  triple I P' m Q' X'.
Proof.
  intros Hm HP HQ HX w w' r Hr HP' HI. destruct (Hm _ _ _ Hr (HP _ HP') HI) as [? H].
  split; [done|]. destruct r; auto.
Qed.

Lemma triple_pre (P : Prop) P' (Q : A → disk → Prop) X m :
  (P → triple I P' m Q X) → triple I (λ d, P ∧ P' d) m Q X.
Proof. intros Hm w w' r Hr [HP HP'] HI. by eapply Hm. Qed.

Lemma triple_os P (Q : A → disk → Prop) X m :
  (∀ d, P d → X OSError d) → triple I P m Q X → triple I P (os_call m) Q X.
Proof.
  intros HX Hm w w' r Hr HP HI. unfold os_call in Hr. destruct w as [d lg fs]. simpl in *.
  destruct fs as [|[|] fs]; simpl in *; [by eapply Hm| |by eapply Hm].
  injection Hr as <- <-. simpl. auto.
Qed.

Lemma triple_get_bind P (R : B → disk → Prop) X (f : disk → M B) :
  (∀ d, P d → triple I (.= d) (f d) R X) → triple I P (get_disk ≫= f) R X.
Proof. intros Hf w w' r Hr HP HI. by eapply (Hf (w_disk w) HP w w' r). Qed.

(** Reasoning from the exact disk. *)
Lemma triple_exact P (Q : A → disk → Prop) X m :
  (∀ d, P d → triple I (.= d) m Q X) → triple I P m Q X.
Proof. intros Hm w w' r Hr HP HI. by eapply (Hm (w_disk w) HP). Qed.

Lemma triple_mret (a : A) P (Q : A → disk → Prop) X : (∀ d, P d → Q a d) → triple I P (mret a) Q X.
Proof. intros HQ w w' r [= <- <-] HP HI. auto. Qed.

Lemma triple_raise e P (Q : A → disk → Prop) X : (∀ d, P d → X e d) → triple I P (throw e) Q X.
Proof. intros HX w w' r [= <- <-] HP HI. auto. Qed.

Lemma triple_set d0 P (Q : unit → disk → Prop) X :
  (∀ d, P d → I d0 ∧ Q tt d0) → triple I P (set_disk d0) Q X.
Proof. intros Hd w w' r [= <- <-] HP HI. destruct (Hd _ HP). simpl. split; [by constructor|done]. Qed.

(** A call that reads the disk and writes [g] of it. *)
Lemma triple_update P (Q : unit → disk → Prop) X (g : disk → disk) :
  (∀ d, P d → I (g d) ∧ Q tt (g d)) →
  triple I P (d ← get_disk; set_disk (g d)) Q X.
Proof.
  intros Hg w w' r [= <- <-] HP HI. simpl. destruct (Hg _ HP). split; [by constructor|done].
Qed.

Lemma triple_catch P (Q : A → disk → Prop) X Y m h :
  triple I P m Q X →
  (∀ e, match h e with
        | Some m' => triple I (X e) m' Q Y
        | None => ∀ d, X e d → Y e d
        end) →
  triple I P (catch m h) Q Y.
Proof.
  intros Hm Hh w w' r Hr HP HI. unfold catch in Hr.
  destruct (m w) as [w1 [a|e]] eqn:E; destruct (Hm _ _ _ E HP HI) as [HI1 H1].
  - injection Hr as <- <-. auto.
  - specialize (Hh e). destruct (h e) as [m'|]; [by eapply Hh|].
    injection Hr as <- <-. auto.
Qed.

Lemma triple_unwritable P (Q : A → disk → Prop) (R : disk → Prop) m :
  triple I P m Q (λ _, R) → triple I P (as_unwritable m) Q (λ _, R).
Proof.
  intros Hm. unfold as_unwritable. eapply triple_catch; [exact Hm|].
  intros []; try done; (eapply triple_weaken; [apply triple_throw| | |]); naive_solver.
Qed.
End triples.

(** ** The write path *)
Abbreviation DS := (mkDir true true).
Abbreviation DU := (mkDir true false).
Abbreviation DN := (mkDir false false).

Definition steady (d : disk) : Prop := ∃ n, dirs d = replicate (S n) DS.

(** A usable endpoint directory: durable, or partly missing and never used. *)
Definition ready (d : disk) : Prop :=
  ∃ k m, dirs d = replicate (S k) DS ++ replicate m DN ∧ journal d ∈ images d ∧
    (m ≠ 0 → journal d = None ∧ images d = [None]).

(** What may be seen while the journal is one of the entries [js]. *)
Definition between (js : list (option file)) (d : disk) : Prop :=
  images d ⊆ js ∧ journal d ∈ images d ∧ (None ∈ js ∨ steady d).

Lemma steady_crash d d' : steady d → crash d d' → journal d' ∈ images d.
Proof.
  intros [n Hn] [j _ Hj|k e Hk He]; [done|]. exfalso.
  rewrite Hn in Hk. apply lookup_replicate in Hk as [-> _]. simpl in He. naive_solver.
Qed.

Lemma between_crash js d d' : between js d → crash d d' → journal d' ∈ js.
Proof.
  intros (Hi & _ & Hor) Hc. destruct Hor as [Hn|Hs].
  - destruct Hc as [j _ Hj|k e Hk He]; simpl; [by apply Hi|done].
  - apply Hi. by apply steady_crash.
Qed.

Lemma steady_isdir d : steady d → isdir (endpoint d) d = true.
Proof.
  intros [n Hn]. unfold isdir, endpoint. rewrite Hn, length_replicate. simpl pred.
  rewrite lookup_replicate_2 by lia. done.
Qed.

Lemma alter_beyond {A} (f : A → A) i l : length l ≤ i → alter f i l = l.
Proof.
  revert i. induction l as [|x l IH]; intros i Hi; [done|]. destruct i as [|i]; simpl in *; [lia|].
  f_equal. apply IH. lia.
Qed.

Section write.
Variable posix : bool.
Hypothesis Hposix : posix = true.
Variable js : list (option file).
Abbreviation I := (between js).

(** Syncing an existing directory [k]. *)
Lemma fsync_triple k d :
  I d → isdir k d = true → I (sync_dir k d) →
  triple I (.= d) (_fsync_directory posix k) (λ _ d', d' = sync_dir k d) (λ _, I).
Proof.
  intros HI Hk HI'. unfold _fsync_directory. rewrite Hposix. simpl.
  eapply (triple_bind _ _ (λ _, (.= d))).
  - apply triple_unwritable, triple_os; [by intros ? ->|]. apply triple_get_bind. intros ? ->.
    rewrite Hk. by apply triple_mret.
  - intros _. apply triple_unwritable, triple_os; [by intros ? ->|].
    apply triple_update. by intros ? ->.
Qed.

Lemma sync_endpoint d : I d → steady d → I (sync_dir (endpoint d) d).
Proof.
  intros (Hi & Hj & _) [n Hn]. unfold sync_dir, between. simpl. rewrite bool_decide_true by done.
  split_and!; [set_solver|set_solver|right]. exists n.
  rewrite alter_beyond; [done|]. unfold endpoint. rewrite Hn, length_replicate. simpl. lia.
Qed.

(** Making the missing directories, then making them durable. *)
Lemma mkdirs_triple k u m d :
  None ∈ js → dirs d = replicate (S k) DS ++ replicate u DU ++ replicate m DN → I d →
  triple I (.= d) (mkdirs (seq (S k + u) m))
    (λ _ d', d' = mkDisk (replicate (S k) DS ++ replicate (u + m) DU) (journal d) (tmp d) (images d))
    (λ _, I).
Proof.
  intros Hn. revert u d. induction m as [|m IH]; intros u d Hd HI; simpl.
  - apply triple_mret. intros ? ->. rewrite Nat.add_0_r. destruct d; simpl in *. by rewrite Hd, app_nil_r.
  - set (d1 := mkDisk (replicate (S k) DS ++ replicate (S u) DU ++ replicate m DN) (journal d) (tmp d) (images d)).
    assert (I d1) as HI1. { destruct HI as (? & ? & _). split_and!; [done|done|by left]. }
    eapply (triple_bind _ _ (λ _, (.= d1))).
    + unfold mkdir. apply triple_os; [by intros ? ->|]. apply triple_update. intros ? ->.
      assert (<[S (k + u) := DU]> (dirs d) = dirs d1) as E.
      { rewrite Hd. simpl. f_equal.
        rewrite insert_app_r_alt by (rewrite length_replicate; lia).
        rewrite length_replicate, insert_app_r_alt by (rewrite length_replicate; lia).
        rewrite length_replicate. replace (k + u - k - u) with 0 by lia. simpl.
        f_equal. change (DU :: replicate m DN) with ([DU] ++ replicate m DN).
        by rewrite app_assoc, <-replicate_S_end. }
      simpl. rewrite E. done.
    + intros _. replace (S (S (k + u))) with (S k + S u) by lia.
      eapply triple_weaken; [apply (IH (S u) d1)| | |]; try done.
      simpl. intros [] d' ->. by replace (u + S m) with (S (u + m)) by lia.
Qed.

Lemma sync_created_triple k u d :
  None ∈ js → dirs d = replicate (S k) DS ++ replicate u DU → I d →
  triple I (.= d) (sync_created posix (seq (S k) u))
    (λ _ d', d' = mkDisk (replicate (S k + u) DS) (journal d) (tmp d) (images d)) (λ _, I).
Proof.
  intros Hn. revert k d. induction u as [|u IH]; intros k d Hd HI; simpl.
  - apply triple_mret. intros ? ->. rewrite Nat.add_0_r. destruct d; simpl in *. by rewrite Hd, app_nil_r.
  - set (d1 := mkDisk (replicate (S (S k)) DS ++ replicate u DU) (journal d) (tmp d) (images d)).
    assert (I d1) as HI1. { destruct HI as (? & ? & _). split_and!; [done|done|by left]. }
    assert (sync_dir k d = d1) as E.
    { unfold sync_dir. rewrite bool_decide_false.
      - subst d1. f_equal. rewrite Hd.
        rewrite alter_app_r_alt by (rewrite length_replicate; lia).
        rewrite length_replicate, Nat.sub_diag, (replicate_S_end (S k)), <-app_assoc. done.
      - unfold endpoint. rewrite Hd, length_app, !length_replicate. simpl. lia. }
    eapply (triple_bind _ _ (λ _, (.= d1))).
    + eapply triple_weaken; [apply (fsync_triple k d)| | |]; try done.
      * unfold isdir. rewrite Hd. rewrite lookup_app_l by (rewrite length_replicate; lia).
        by rewrite lookup_replicate_2 by lia.
      * by rewrite E.
      * by intros [] d' ->.
    + intros _. eapply triple_weaken; [apply (IH (S k) d1)| | |]; try done.
      intros [] d' ->. simpl. by replace (k + S u) with (S (k + u)) by lia.
Qed.

Lemma missing_seq d k m :
  dirs d = replicate (S k) DS ++ replicate m DN → rev (missing d (k + m)) = seq (S k) m.
Proof.
  intros Hd. assert (∀ j, j ≤ m → rev (missing d (k + j)) = seq (S k) j) as Hj; [|by apply Hj].
  induction j as [|j IH]; intros Hj.
  - rewrite Nat.add_0_r. assert (isdir k d = true) as Hk.
    { unfold isdir. rewrite Hd, lookup_app_l by (rewrite length_replicate; lia).
      by rewrite lookup_replicate_2 by lia. }
    destruct k; simpl; by rewrite Hk.
  - rewrite seq_S. replace (k + S j) with (S (k + j)) by lia. simpl.
    assert (isdir (S (k + j)) d = false) as ->.
    { unfold isdir. rewrite Hd, lookup_app_r by (rewrite length_replicate; lia).
      rewrite length_replicate, lookup_replicate_2 by lia. done. }
    simpl. by rewrite IH by lia.
Qed.

Lemma ready_between d : ready d → images d ⊆ js → I d.
Proof.
  intros (k & m & Hd & Hj & Hm) Hjs. split_and!; [done|done|].
  destruct m as [|m]; [right; exists k; by rewrite Hd, app_nil_r|].
  left. apply Hjs. destruct Hm as [_ ->]; [done|]. set_solver.
Qed.

(** The endpoint directory, created if missing, with what is left to sync. *)
Definition made (d : disk) (created : list nat) (d' : disk) : Prop :=
  ∃ k u, rev created = seq (S k) u ∧ dirs d' = replicate (S k) DS ++ replicate u DU ∧ I d' ∧
    journal d' = journal d ∧ images d' = images d ∧ (u ≠ 0 → None ∈ js).

Lemma make_triple d :
  ready d → images d ⊆ js → triple I (.= d) _make_private_dir (made d) (λ _, I).
Proof.
  intros Hr Hjs. pose proof (ready_between d Hr Hjs) as HI. destruct Hr as (k & m & Hd & Hj & Hm).
  assert (length (dirs d) = S (k + m)) as Hlen by (rewrite Hd, length_app, !length_replicate; lia).
  unfold _make_private_dir. destruct (decide (m = 0)) as [->|Hm0].
  - assert (steady d) as Hs by (exists k; by rewrite Hd, app_nil_r).
    apply triple_get_bind. intros ? ->. rewrite steady_isdir by done. apply triple_mret. intros ? ->.
    exists k, 0. rewrite Hd. by split_and!.
  - destruct (Hm Hm0) as [Hnone Himg].
    assert (None ∈ js) as Hn by (apply Hjs; rewrite Himg; set_solver).
    set (d1 := mkDisk (replicate (S k) DS ++ replicate m DU) (journal d) (tmp d) (images d)).
    assert (I d1) as HI1. { destruct HI as (? & ? & _). split_and!; [done|done|by left]. }
    apply triple_get_bind. intros ? ->.
    assert (endpoint d = k + m) as He by (unfold endpoint; rewrite Hlen; done).
    assert (isdir (endpoint d) d = false) as ->.
    { unfold isdir. rewrite He, Hd, lookup_app_r by (rewrite length_replicate; lia).
      rewrite length_replicate, lookup_replicate_2 by lia. done. }
    eapply (triple_bind _ _ (λ _, (.= d1))).
    + rewrite He, (missing_seq d k m) by done.
      replace (seq (S k) m) with (seq (S k + 0) m) by (f_equal; lia).
      eapply triple_weaken; [by apply (mkdirs_triple k 0 m d)| | |]; done.
    + intros []. rewrite He. apply triple_mret. intros ? ->. exists k, m.
      rewrite (missing_seq d k m) by done. by split_and!.
Qed.

Lemma sync_made_triple d created :
  triple I (made d created) (sync_created posix (rev created))
    (λ _ d', steady d' ∧ I d' ∧ journal d' = journal d ∧ images d' = images d) (λ _, I).
Proof.
  apply triple_exact. intros d1 (k & u & -> & Hd & HI & Hj & Hi & Hn).
  destruct (decide (u = 0)) as [->|Hu].
  - apply triple_mret. intros ? ->. split_and!; [|done..]. exists k. by rewrite Hd, app_nil_r.
  - eapply triple_weaken; [apply (sync_created_triple k u d1); auto| | |]; try done.
    intros [] d' ->. split_and!; [by exists (k + u)| |done|done].
    destruct HI as (? & ? & _). split_and!; [done|done|left; auto].
Qed.

(** A syncing of the endpoint directory settles the journal's entry. *)
Lemma fsync_dir_triple (j : option file) :
  triple I (λ d, steady d ∧ I d ∧ journal d = j) (_fsync_dir posix)
    (λ _ d', steady d' ∧ journal d' = j ∧ images d' = [j]) (λ _, I).
Proof.
  unfold _fsync_dir. apply triple_get_bind. intros d (Hs & HI & Hj).
  eapply triple_weaken; [apply (fsync_triple (endpoint d) d)| | |]; try done.
  - by apply steady_isdir.
  - by apply sync_endpoint.
  - intros [] d' ->. destruct Hs as [n Hn]. unfold sync_dir, steady. simpl. rewrite bool_decide_true by done.
    rewrite Hj. split_and!; [|done|done]. exists n. rewrite alter_beyond; [done|].
    unfold endpoint. rewrite Hn, length_replicate. simpl. lia.
Qed.

Lemma write_triple v d :
  let t := Some (FDoc v) in
  ready d → images d ⊆ js → t ∈ js →
  triple I (.= d) (_write posix v) (λ _ d', steady d' ∧ journal d' = t ∧ images d' = [t]) (λ _, I).
Proof.
  intros t Hr Hjs Ht. unfold _write.
  eapply (triple_bind _ _ (λ _ d', steady d' ∧ I d' ∧ journal d' = t)); [|intros; apply fsync_dir_triple].
  apply triple_unwritable. eapply triple_bind; [by apply make_triple|]. intros created. simpl.
  eapply triple_bind; [apply sync_made_triple|]. intros [].
  assert (∀ d1 x, steady d1 → I d1 → I (mkDisk (dirs d1) (journal d1) x (images d1))) as Htmp.
  { intros d1 x Hs (H1 & H2 & _). split_and!; [done|done|right; exact Hs]. }
  eapply (triple_bind _ _ (λ _ d', steady d' ∧ I d')).
  { unfold open_tmp. apply triple_os; [naive_solver|]. apply triple_get_bind. intros d1 (Hs & HI & _).
    rewrite steady_isdir by done. apply triple_set. intros ? _. split; [by apply Htmp|]. split; [done|by apply Htmp]. }
  intros []. eapply (triple_bind _ _ (λ _ d', steady d' ∧ I d' ∧ tmp d' = t)).
  { unfold write_tmp. apply triple_os; [naive_solver|]. apply triple_update. intros d1 [Hs HI].
    split; [by apply Htmp|]. split_and!; [done|by apply Htmp|done]. }
  intros []. unfold replace_tmp. apply triple_os; [naive_solver|]. apply triple_update. intros d1 (Hs & HI & Htm).
  assert (I (mkDisk (dirs d1) (tmp d1) None (images d1 ++ [tmp d1]))) as HI'.
  { destruct HI as (H1 & H2 & _). rewrite Htm. split_and!; simpl; [set_solver|set_solver|right; exact Hs]. }
  split; [done|]. by split_and!.
Qed.

Lemma clear_triple d :
  steady d → I d → None ∈ js →
  triple I (.= d) (clear posix) (λ _ d', steady d' ∧ journal d' = None ∧ images d' = [None]) (λ _, I).
Proof.
  intros Hs HI Ht. unfold clear.
  eapply (triple_bind _ _ (λ (r : bool) d', steady d' ∧ I d' ∧ journal d' = None ∧ (r = false → images d' = [None]))).
  2: { intros [|]; simpl.
       - eapply triple_weaken; [apply (fsync_dir_triple None)| | |]; try done. naive_solver.
       - apply triple_mret. naive_solver. }
  apply (triple_catch _ _ _ (λ _, I)).
  2: { intros []; try done; apply triple_raise; done. }
  apply (triple_catch _ _ _ (λ e d', I d' ∧ (e = FileNotFoundError → steady d' ∧ journal d' = None))).
  - eapply (triple_bind _ _ (λ _ d', steady d' ∧ I d' ∧ journal d' = None)).
    + unfold unlink_journal. apply triple_os; [by intros ? ->|]. apply triple_get_bind. intros ? ->.
      destruct (journal d) eqn:Hj; [|apply triple_raise; naive_solver].
      apply triple_set. intros ? _.
      assert (I (mkDisk (dirs d) None (tmp d) (images d ++ [None]))) as HI'.
      { destruct HI as (H1 & H2 & _). split_and!; simpl; [set_solver|set_solver|right; exact Hs]. }
      split; [done|]. by split_and!.
    + intros []. apply triple_mret. naive_solver.
  - intros []; try (intros ? [? _]; done).
    apply triple_get_bind. intros d1 [HI1 [Hs1 Hj1]]; [done|]. rewrite steady_isdir by done.
    eapply (triple_bind _ _ (λ _ d', steady d' ∧ journal d' = None ∧ images d' = [None])).
    + eapply triple_weaken; [apply (fsync_dir_triple None)| | |]; try done. by intros ? ->.
    + intros []. apply triple_mret. intros d2 (? & Hj2 & Hi2). split_and!; try done.
      split_and!; [rewrite Hi2; set_solver|rewrite Hj2, Hi2; set_solver|by right].
Qed.
End write.

(** ** The stored target set *)

(** What a reader makes of a journal entry. *)
Definition file_pending (j : option file) : res (list string) :=
  match j with
  | None => Ok []
  | Some (FDoc (PDict data)) => worker_ids_of data
  | Some _ => Raise JournalUnreadableError
  end.

Lemma recovered_file_pending d : recovered d = file_pending (journal d).
Proof.
  unfold recovered, pending, _read_document, read_json. destruct d as [ds j tm im]. simpl.
  destruct j as [[[]|]|]; done.
Qed.

Lemma worker_ids_of_list ids rest :
  dget "worker_ids" rest = id_list ids → worker_ids_of rest = Ok (sort_strings ids).
Proof.
  intros H. unfold worker_ids_of. rewrite H. unfold id_list.
  assert (mapM as_str (map PStr (sort_strings ids)) = Some (sort_strings ids)) as ->; [|done].
  generalize (sort_strings ids). induction l as [|i l IH]; [done|]. simpl. by rewrite IH.
Qed.

Lemma begin_doc_pending path ids : file_pending (Some (FDoc (begin_doc path ids))) = Ok (sort_strings ids).
Proof. by apply worker_ids_of_list. Qed.

Lemma keep_doc_pending existing ids : file_pending (Some (FDoc (keep_doc existing ids))) = Ok (sort_strings ids).
Proof. by apply worker_ids_of_list. Qed.

(** The entry keeps [wid] disabled: it lists the worker, or cannot be read. *)
Definition blocks (wid : string) (j : option file) : Prop :=
  match file_pending j with Ok ids => wid ∈ ids | Raise _ => True end.

(** The document of an entry, as [keep] reads it. *)
Definition document_of (j : option file) : option (list (string * pyval)) :=
  match j with Some (FDoc (PDict data)) => Some data | _ => None end.

Section operations.
Variable posix : bool.
Hypothesis Hposix : posix = true.
Variable js : list (option file).
Abbreviation I := (between js).

Lemma read_document_triple d :
  triple I (.= d) _read_document
    (λ data d', d' = d ∧ data = document_of (journal d) ∧ (data = None → journal d = None)) (λ e d', d' = d).
Proof.
  unfold _read_document.
  eapply (triple_bind _ _ (λ v d', d' = d ∧
    match v with None => journal d = None | Some v => journal d = Some (FDoc v) end)).
  - eapply (triple_catch _ _ _ (λ e d', d' = d ∧ (e = FileNotFoundError → journal d = None))).
    + eapply (triple_bind _ _ (λ v d', d' = d ∧ journal d = Some (FDoc v))).
      * unfold read_json. apply triple_os; [done|]. apply triple_get_bind. intros ? ->.
        destruct (journal d) as [[v|]|] eqn:E; [apply triple_mret|apply triple_raise..]; naive_solver.
      * intros v. apply triple_mret. naive_solver.
    + intros []; try (intros ? [? ?]; done); [apply triple_raise; naive_solver..|apply triple_mret; naive_solver].
  - intros [v|]; [|apply triple_mret; intros ? [-> E]; by rewrite E].
    destruct v; try (apply triple_raise; naive_solver).
    apply triple_mret. intros ? [-> E]. by rewrite E.
Qed.

Lemma pending_triple d :
  triple I (.= d) pending (λ ids d', d' = d ∧ file_pending (journal d) = Ok ids) (λ e d', d' = d).
Proof.
  unfold pending. eapply triple_bind; [apply read_document_triple|]. intros data. simpl.
  apply triple_exact. intros ? (-> & Hdata & Hnone). destruct data as [data|].
  - unfold document_of in Hdata. break_match. unfold lift.
    intros w w' r [= <- <-] Hw HI. split; [done|]. rewrite <-Hw. break_match; done.
  - apply triple_mret. intros ? ->. by rewrite Hnone.
Qed.

(** [keep] of a non-empty set writes one of two documents: with the stored
    admin path, or without if the old journal cannot be read. *)
Lemma keep_triple ids d :
  steady d → I d → ids ≠ [] →
  Some (FDoc (keep_doc None ids)) ∈ js → Some (FDoc (keep_doc (document_of (journal d)) ids)) ∈ js →
  triple I (.= d) (keep posix ids)
    (λ _ d', steady d' ∧ ∃ ex, (ex = None ∨ ex = document_of (journal d)) ∧
       journal d' = Some (FDoc (keep_doc ex ids)) ∧ images d' = [journal d']) (λ _, I).
Proof.
  intros Hs HI Hids H1 H2. unfold keep. rewrite bool_decide_false by done.
  eapply (triple_bind _ _ (λ ex d', (ex = None ∨ ex = document_of (journal d)) ∧ d' = d)).
  - eapply (triple_catch _ _ _ (λ _, (.= d))).
    + eapply triple_weaken; [apply read_document_triple| | |]; naive_solver.
    + intros []; try (by intros ? ->); apply triple_mret; naive_solver.
  - intros ex. apply triple_pre. intros Hex.
    assert (ready d) as Hr.
    { destruct Hs as [n Hn]. exists n, 0. rewrite Hn, app_nil_r. split_and!; [done|apply HI|done]. }
    eapply triple_weaken; [apply (write_triple posix Hposix js (keep_doc ex ids) d)| | |]; try done.
    + apply HI.
    + by destruct Hex as [->| ->].
    + intros [] d' (? & Hj & Hi). split; [done|]. exists ex. by rewrite Hi, Hj.
Qed.
End operations.

(** The outcome of a triple from a fresh log. *)
Lemma triple_run {A} I P (Q : A → disk → Prop) X m d fs w' r :
  triple I P m Q X → P d → m (mkWorld d [] fs) = (w', r) →
  Forall I (w_log w') ∧ match r with Ok a => Q a (w_disk w') | Raise e => X e (w_disk w') end.
Proof. intros Ht HP Hr. by eapply (Ht (mkWorld d [] fs)). Qed.

Lemma settled_recovers d j ids d' :
  steady d → journal d = j → images d = [j] → file_pending j = Ok ids → crash d d' → recovered d' = Ok ids.
Proof.
  intros Hs Hj Hi Hp Hc. rewrite recovered_file_pending.
  apply steady_crash in Hc; [|done]. rewrite Hi, list_elem_of_singleton in Hc. by rewrite Hc.
Qed.

Lemma steady_between d js : steady d → journal d ∈ images d → images d ⊆ js → between js d.
Proof. intros. split_and!; [done|done|by right]. Qed.

Lemma steady_ready d : steady d → journal d ∈ images d → ready d.
Proof. intros [n Hn] Hj. exists n, 0. by rewrite Hn, app_nil_r. Qed.

Section durability.
Context (d : disk) (fs : list bool) (w' : world) (d' : disk).

Lemma begin_durable path ids :
  ready d → begin true path ids (mkWorld d [] fs) = (w', Ok tt) → crash (w_disk w') d' →
  recovered d' = Ok (sort_strings ids).
Proof.
  intros Hr Hb Hc.
  destruct (triple_run _ _ _ _ _ _ _ _ _
    (write_triple true eq_refl (Some (FDoc (begin_doc path ids)) :: images d) (begin_doc path ids) d
       Hr ltac:(set_solver) ltac:(set_solver)) eq_refl Hb) as [_ (Hs & Hj & Hi)].
  eapply settled_recovers; [done|done|done| |done]. apply begin_doc_pending.
Qed.

Lemma clear_durable :
  steady d → journal d ∈ images d → clear true (mkWorld d [] fs) = (w', Ok tt) → crash (w_disk w') d' →
  recovered d' = Ok [].
Proof.
  intros Hs0 Hj0 Hb Hc.
  destruct (triple_run _ _ _ _ _ _ _ _ _
    (clear_triple true eq_refl (None :: images d) d Hs0
       ltac:(apply steady_between; [done|done|set_solver]) ltac:(set_solver)) eq_refl Hb) as [_ (Hs & Hj & Hi)].
  by eapply settled_recovers.
Qed.

Lemma keep_durable ids :
  steady d → journal d ∈ images d → keep true ids (mkWorld d [] fs) = (w', Ok tt) → crash (w_disk w') d' →
  recovered d' = Ok (sort_strings ids).
Proof.
  intros Hs0 Hj0 Hb Hc. destruct (decide (ids = [])) as [->|Hids]; [by apply clear_durable|].
  destruct (triple_run _ _ _ _ _ _ _ _ _
    (keep_triple true eq_refl (Some (FDoc (keep_doc None ids)) ::
       Some (FDoc (keep_doc (document_of (journal d)) ids)) :: images d) ids d Hs0
       ltac:(apply steady_between; [done|done|set_solver]) Hids ltac:(set_solver) ltac:(set_solver)) eq_refl Hb)
    as [_ (Hs & ex & _ & Hj & Hi)].
  apply (settled_recovers (w_disk w') (journal (w_disk w'))); [done|done|done| |done]. rewrite Hj. apply keep_doc_pending.
Qed.
End durability.

(** The journal's write operations, and those that must not release [wid]. *)
Inductive write_op := OBegin (path : string) (ids : list string) | OKeep (ids : list string)
  | ODiscard (other : string) | OClear.

Definition run_op (o : write_op) : M unit :=
  match o with
  | OBegin path ids => begin true path ids
  | OKeep ids => keep true ids
  | ODiscard other => _ ← discard true other; mret tt
  | OClear => clear true
  end.

Definition retains (wid : string) (o : write_op) : Prop :=
  match o with
  | OBegin _ ids | OKeep ids => wid ∈ ids
  | ODiscard other => other ≠ wid
  | OClear => False
  end.

Definition covers (wid : string) (js : list (option file)) : Prop := ∀ j, j ∈ js → blocks wid j.

Lemma blocks_doc wid v ids :
  file_pending (Some (FDoc v)) = Ok (sort_strings ids) → wid ∈ ids → blocks wid (Some (FDoc v)).
Proof. intros H Hin. unfold blocks. by rewrite H, elem_of_sort_strings. Qed.

(** Every disk of the run, and the one it ends with, carries only entries of [js]. *)
Definition stays {A} (js : list (option file)) (d : disk) (m : M A) : Prop :=
  triple (between js) (.= d) m (λ _, between js) (λ _, between js).

Lemma keep_stays ids d :
  let js := Some (FDoc (keep_doc None ids)) :: Some (FDoc (keep_doc (document_of (journal d)) ids)) :: images d in
  steady d → journal d ∈ images d → ids ≠ [] → stays js d (keep true ids).
Proof.
  intros js Hs Hj Hids. unfold stays.
  eapply triple_weaken; [apply (keep_triple true eq_refl js ids d); try done| | |]; try done.
  - apply steady_between; [done|done|set_solver].
  - set_solver.
  - set_solver.
  - intros [] d' (Hs' & ex & Hex & Hj' & Hi'). apply steady_between; [done|rewrite Hi'; by left|].
    rewrite Hi', Hj'. destruct Hex as [->| ->]; set_solver.
Qed.

Lemma keep_covers wid ids d :
  covers wid (images d) → wid ∈ ids →
  covers wid (Some (FDoc (keep_doc None ids)) :: Some (FDoc (keep_doc (document_of (journal d)) ids)) :: images d).
Proof.
  intros Hc Hin j [->|[->|Hj]%elem_of_cons]%elem_of_cons; [..|by apply Hc];
    (eapply blocks_doc; [apply keep_doc_pending|done]).
Qed.

Lemma discard_stays wid other d :
  steady d → journal d ∈ images d → covers wid (images d) → other ≠ wid →
  ∃ js, covers wid js ∧ stays js d (discard true other).
Proof.
  intros Hs Hj Hc Hne.
  pose (rem := match file_pending (journal d) with Ok ids => filter (.≠ other) ids | Raise _ => [wid] end).
  assert (wid ∈ rem) as Hin.
  { specialize (Hc _ Hj). unfold blocks in Hc. subst rem. destruct (file_pending (journal d)); [|set_solver].
    apply list_elem_of_filter. done. }
  eexists; split; [by apply (keep_covers wid rem d)|].
  set (js := _ :: _ :: _).
  assert (between js d) as HI by (apply steady_between; [done|done|set_solver]).
  unfold stays, discard.
  eapply (triple_bind _ _ (λ o d', d' = d ∧ match o with Some ids => ids = rem | None => True end)).
  - eapply triple_catch.
    + eapply triple_bind; [apply pending_triple|]. intros ids. apply triple_mret.
      intros ? [-> Hp]. split; [done|]. unfold rem. by rewrite Hp.
    + intros []; simpl; try (by intros ? ->); apply triple_mret; naive_solver.
  - intros [ids|]; [|by apply triple_mret; intros ? [-> _]].
    apply triple_exact. intros ? [-> ->].
    eapply triple_catch.
    + eapply (triple_bind _ _ (λ _, between js)); [apply keep_stays; [done|done|]; by intros E; rewrite E in Hin; apply not_elem_of_nil in Hin|].
      intros _. by apply triple_mret.
    + intros []; try done. by apply triple_mret.
Qed.

Lemma begin_stays path ids d :
  let js := Some (FDoc (begin_doc path ids)) :: images d in
  ready d → stays js d (begin true path ids).
Proof.
  intros js Hr. unfold stays, begin.
  eapply triple_weaken; [apply (write_triple true eq_refl js (begin_doc path ids) d); [done|subst js; set_solver|subst js; set_solver]| | |]; try done.
  intros [] d' (Hs & Hj & Hi). subst js. apply steady_between; [done|rewrite Hj, Hi; by left|rewrite Hi; set_solver].
Qed.

Lemma op_stays wid o d :
  steady d → journal d ∈ images d → covers wid (images d) → retains wid o →
  ∃ js, covers wid js ∧ stays js d (run_op o).
Proof.
  intros Hs Hj Hc Hr. destruct o as [path ids|ids|other|]; simpl in *; [..|done].
  - eexists; split; [|by apply begin_stays, steady_ready].
    intros j [->|Hin]%elem_of_cons; [|by apply Hc]. eapply blocks_doc; [apply begin_doc_pending|done].
  - eexists; split; [by apply (keep_covers wid ids d)|]. apply keep_stays; [done|done|]. intros ->. by apply not_elem_of_nil in Hr.
  - destruct (discard_stays wid other d) as (js & Hjs & Hst); try done. exists js. split; [done|].
    apply (triple_bind _ _ (λ _, between js)); [exact Hst|]. intros _. by apply triple_mret.
Qed.

(** A journal write that returns is durable: whatever crash comes next, a
    restarted router reads exactly the new target set ([clear]: none); a write
    that was not made durable raises instead. *)
Theorem journal_write_is_durable d fs w' d' :
  (∀ path ids, ready d → begin true path ids (mkWorld d [] fs) = (w', Ok tt) → crash (w_disk w') d' →
     recovered d' = Ok (sort_strings ids)) ∧
  (∀ ids, steady d → journal d ∈ images d →
     keep true ids (mkWorld d [] fs) = (w', Ok tt) → crash (w_disk w') d' →
     recovered d' = Ok (sort_strings ids)) ∧
  (steady d → journal d ∈ images d →
     clear true (mkWorld d [] fs) = (w', Ok tt) → crash (w_disk w') d' → recovered d' = Ok []).
Proof.
  split_and!; intros; [by eapply begin_durable|by eapply keep_durable|by eapply clear_durable].
Qed.

(** A first update: one missing directory is made, and the crash comes after. *)
Definition fresh : disk := mkDisk [DS; DN] None None [None].

Lemma journal_write_is_durable_witness :
  ∃ w', begin true "/reload" ["w2"; "w1"] (mkWorld fresh [] []) = (w', Ok tt) ∧
    ∀ d', crash (w_disk w') d' → recovered d' = Ok ["w1"; "w2"].
Proof.
  eexists. split; [vm_compute; reflexivity|]. intros d' Hc.
  assert (ready fresh) as Hr by (exists 0, 1; split_and!; [done|set_solver|done]).
  assert (["w1"; "w2"] = sort_strings ["w2"; "w1"]) as -> by (vm_compute; reflexivity).
  eapply (proj1 (journal_write_is_durable fresh [] _ d') "/reload" ["w2"; "w1"] Hr); [|exact Hc].
  vm_compute; reflexivity.
Defined.

(** A steady disk whose every entry keeps [wid] disabled. *)
Definition guarding (wid : string) (d : disk) : Prop :=
  steady d ∧ journal d ∈ images d ∧ covers wid (images d).

Lemma guarding_between wid js d : covers wid js → between js d → guarding wid d.
Proof.
  intros Hc (Hi & Hj & Hor). split_and!; [|done|].
  - destruct Hor as [Hn|Hs]; [|done]. apply Hc in Hn. unfold blocks in Hn. simpl in Hn. by apply not_elem_of_nil in Hn.
  - intros j Hin. by apply Hc, Hi.
Qed.

Lemma begin_guarding path ids d fs w wid :
  ready d → wid ∈ ids → begin true path ids (mkWorld d [] fs) = (w, Ok tt) → guarding wid (w_disk w).
Proof.
  intros Hr Hin Hb. set (t := Some (FDoc (begin_doc path ids))).
  destruct (triple_run _ _ _ _ _ _ _ _ _
    (write_triple true eq_refl (t :: images d) (begin_doc path ids) d Hr ltac:(set_solver) ltac:(subst t; by left)) eq_refl Hb)
    as [_ (Hs & Hj & Hi)]. fold t in Hj, Hi.
  split_and!; [done|rewrite Hj, Hi; by left|].
  rewrite Hi. intros j ->%list_elem_of_singleton. eapply blocks_doc; [apply begin_doc_pending|done].
Qed.

(** The disk after a crash is guarded as well: a restarted router goes on from there. *)
Lemma guarding_crashed wid d d' : guarding wid d → crash d d' → guarding wid d'.
Proof.
  intros ([n Hn] & Hj & Hc) Hcr. pose proof (steady_crash d d' (ex_intro _ n Hn) Hcr) as Hin. destruct Hcr as [j _ Hjd|k e Hk He].
  - split_and!; [exists n; simpl; rewrite Hn; clear; induction n; by f_equal/=|by left|]. intros ? ->%list_elem_of_singleton. by apply Hc.
  - exfalso. rewrite Hn in Hk. apply lookup_replicate in Hk as [-> _]. simpl in He. naive_solver.
Qed.
Lemma guarding_op wid o d fs w r d1 : guarding wid d → retains wid o → run_op o (mkWorld d [] fs) = (w, r) → d1 ∈ w_disk w :: w_log w → guarding wid d1.
Proof.
  intros (Hs & Hj & Hc) Hr Ho Hd1. destruct (op_stays wid o d Hs Hj Hc Hr) as (js & Hjs & Hst). apply (guarding_between _ js); [done|].
  destruct (triple_run _ _ _ _ _ _ _ _ _ Hst eq_refl Ho) as [Hlog Hend].
  apply elem_of_cons in Hd1 as [->|Hin]; [by destruct r|]. by eapply Forall_forall in Hlog.
Qed.
(** What a router reads on a guarded disk. *)
Lemma guarding_reads wid d : guarding wid d →
  match recovered d with Ok ids => wid ∈ ids | Raise _ => True end ∧ (has_pending (mkWorld d [] [])).2 = Ok true.
Proof.
  intros (_ & Hj & Hc). specialize (Hc _ Hj). rewrite recovered_file_pending. split; [exact Hc|].
  pose proof (recovered_file_pending d) as E. unfold recovered in E. unfold has_pending, catch, mbind, M_bind.
  destruct (pending (mkWorld d [] [])) as [w2 [ids|e]] eqn:Ep; simpl in E; unfold blocks in Hc; rewrite <-E in Hc.
  - simpl. rewrite bool_decide_false; [done|]. intros ->. by apply not_elem_of_nil in Hc.
  - destruct (journal d) as [[[]|]|]; simpl in E; try (by simplify_eq).
    unfold worker_ids_of in E. repeat case_match; by simplify_eq.
Qed.

(** C15. A worker stays journaled: call a disk guarded when the journal's directories are
    durable and every entry a crash may leave keeps the worker disabled.  A [begin] for the worker
    that returns on a usable directory ([ready]) leaves a guarded disk.  From a guarded disk,
    whichever OS calls fail, every disk an operation that does not release the worker goes
    through is guarded, and so is the disk after a crash; and on a guarded disk
    what a router reads lists the worker or fails closed. *)
Theorem worker_stays_journaled wid :
  (∀ path ids d fs w, ready d → wid ∈ ids → begin true path ids (mkWorld d [] fs) = (w, Ok tt) → guarding wid (w_disk w)) ∧
  (∀ o d fs w r d1, guarding wid d → retains wid o → run_op o (mkWorld d [] fs) = (w, r) → d1 ∈ w_disk w :: w_log w → guarding wid d1) ∧
  (∀ d d', guarding wid d → crash d d' → guarding wid d') ∧
  (∀ d, guarding wid d →
     match recovered d with Ok ids => wid ∈ ids | Raise _ => True end ∧ (has_pending (mkWorld d [] [])).2 = Ok true).
Proof. split_and!; intros; by eauto using begin_guarding, guarding_op, guarding_crashed, guarding_reads. Qed.

Definition journaled (ids : list string) : disk :=
  let j := Some (FDoc (begin_doc "/reload" ids)) in mkDisk [DS; DS] j None [j].

(** Narrowing the set when the directory sync fails: both sets still list [w1]; then a crash. *)
Lemma worker_stays_journaled_witness :
  let d := journaled ["w1"; "w2"] in
  ∃ w', run_op (ODiscard "w2") (mkWorld d [] (replicate 6 false ++ [true])) = (w', Ok tt) ∧
    length (images (w_disk w')) = 2 ∧ guarding "w1" (w_disk w') ∧ ∀ d', crash (w_disk w') d' → (has_pending (mkWorld d' [] [])).2 = Ok true.
Proof.
  intros d. destruct (worker_stays_journaled "w1") as (_ & Hop & Hcr & Hread). eexists. split; [vm_compute; reflexivity|]. split; [vm_compute; reflexivity|].
  match goal with |- ?G ∧ _ => assert G as Hg end.
  { eapply (Hop (ODiscard "w2") d (replicate 6 false ++ [true])); [|done|vm_compute; reflexivity|by left].
    split_and!; [by exists 1|by left|]. intros j [->|?%not_elem_of_nil]%elem_of_cons; [|done]. unfold blocks. vm_compute. left. }
  split; [exact Hg|]. intros d' Hc. apply Hread. exact (Hcr _ _ Hg Hc).
Defined.

(** The durability above needs the endpoint directory's own entry to be
    synced, and a retried [begin] does not ensure it: when the first attempt made
    the directory but failed to sync its parent, the retry finds the directory,
    skips the sync and returns, and a crash still takes the journal with the
    directory. *)
Theorem retried_begin_can_vanish :
  let w1 := mkWorld fresh [] [false; false; true] in
  let retry := λ w, begin true "/reload" ["w1"] (mkWorld (w_disk w) [] []) in
  (begin true "/reload" ["w1"] w1).2 = Raise JournalUnwritableError ∧
  (retry (begin true "/reload" ["w1"] w1).1).2 = Ok tt ∧
  ∃ d', crash (w_disk (retry (begin true "/reload" ["w1"] w1).1).1) d' ∧ recovered d' = Ok [].
Proof.
  intros w1 retry. split_and!; [vm_compute; reflexivity..|].
  eexists. split; [eapply (crash_lost _ 1 DU); [vm_compute; reflexivity|by right]|]. vm_compute; reflexivity.
Qed.
