(* ===== verification/RouterWorker.v ===== *)
(** * Router workers: health, load balancing, request accounting

    Models [sglang_omni_router/python/worker.py], [health.py] and [selector.py], with
    the two callers that report request failures ([proxy.py], [websocket_proxy.py]).
    Logging and the display id, which only it uses, are left out. *)
From S2P Require Import Prelude.

(** ** Percent encoding: [urllib.parse.quote(url, safe="")] and [unquote] *)
Definition unreserved (c : Ascii.ascii) : bool :=
  let n := Ascii.nat_of_ascii c in
  bool_decide (48 ≤ n ≤ 57 ∨ 65 ≤ n ≤ 90 ∨ 97 ≤ n ≤ 122) ||
  bool_decide (n ∈ [45; 46; 95; 126]).

Definition hex_digit (n : nat) : Ascii.ascii :=
  Ascii.ascii_of_nat (if bool_decide (n < 10) then 48 + n else 55 + n).
Definition hex_value (c : Ascii.ascii) : option nat :=
  let n := Ascii.nat_of_ascii c in
  if bool_decide (48 ≤ n ≤ 57) then Some (n - 48)
  else if bool_decide (65 ≤ n ≤ 70) then Some (n - 55)
  else if bool_decide (97 ≤ n ≤ 102) then Some (n - 87) else None.

Definition percent : Ascii.ascii := Ascii.ascii_of_nat 37.

Fixpoint quote (s : string) : string :=
  match s with
  | EmptyString => EmptyString
  | String c s =>
      if unreserved c then String c (quote s)
      else let n := Ascii.nat_of_ascii c in
           String percent (String (hex_digit (n / 16)) (String (hex_digit (n mod 16)) (quote s)))
  end.

Fixpoint unquote (s : string) : string :=
  match s with
  | String c (String a (String b s'' as s') as s1) =>
      match bool_decide (c = percent), hex_value a, hex_value b with
      | true, Some x, Some y => String (Ascii.ascii_of_nat (16 * x + y)) (unquote s'')
      | _, _, _ => String c (unquote s1)
      end
  | String c s' => String c (unquote s')
  | EmptyString => EmptyString
  end.

Lemma unquote_plain c s : c ≠ percent → unquote (String c s) = String c (unquote s).
Proof. intros Hc. destruct s as [|a [|b s]]; [done..|]. simpl. by rewrite bool_decide_false. Qed.

Lemma unquote_escape a b x y s :
  hex_value a = Some x → hex_value b = Some y →
  unquote (String percent (String a (String b s))) = String (Ascii.ascii_of_nat (16 * x + y)) (unquote s).
Proof. intros Ha Hb. simpl. by rewrite Ha, Hb. Qed.

Lemma unquote_quote s : unquote (quote s) = s.
Proof.
  induction s as [|c s IH]; [done|]. cbn [quote]. destruct (unreserved c) eqn:E.
  - rewrite unquote_plain, IH; [done|]. by intros ->.
  - assert (∃ x y, hex_value (hex_digit (Ascii.nat_of_ascii c / 16)) = Some x ∧
      hex_value (hex_digit (Ascii.nat_of_ascii c mod 16)) = Some y ∧
      Ascii.ascii_of_nat (16 * x + y) = c) as (x & y & Hx & Hy & Hc).
    { destruct c as [[] [] [] [] [] [] [] []]; do 2 eexists; split_and!; vm_compute; reflexivity. }
    cbv zeta. by rewrite (unquote_escape _ _ x y), Hc, IH.
Qed.

#[export] Instance quote_inj : Inj (=) (=) quote.
Proof. intros s t H. by rewrite <-(unquote_quote s), H, unquote_quote. Qed.

(** ** The worker record *)
Inductive WorkerState := DEAD | HEALTHY | UNKNOWN | UNHEALTHY.
#[export] Instance WorkerState_eq_dec : EqDecision WorkerState.
Proof. solve_decision. Defined.

Record WorkerConfig := mkWorkerConfig {
  wc_url : string; wc_model : option string; wc_capabilities : gset string }.
#[export] Instance WorkerConfig_eq_dec : EqDecision WorkerConfig.
Proof. solve_decision. Defined.

Abbreviation counters := (list (string * Z)).

Record Worker := mkWorker {
  w_config : WorkerConfig;
  w_worker_id : string;
  w_incarnation : string;
  w_health_epoch : Z;
  w_active_requests : Z;
  w_state : WorkerState;
  w_disabled : bool;
  w_consecutive_failures : Z;
  w_consecutive_successes : Z;
  w_routed_requests : Z;
  w_successful_requests : Z;
  w_failed_requests : Z;
  w_routed_by_class : counters;
  w_successful_by_class : counters;
  w_failed_by_class : counters;
  w_last_status_code : option Z;
  w_last_error : option string;
  w_last_checked_at : option Z;
}.

Definition w_url (w : Worker) : string := wc_url (w_config w).
Definition w_model (w : Worker) : option string := wc_model (w_config w).
Definition w_capabilities (w : Worker) : gset string := wc_capabilities (w_config w).

Definition worker_id_from_url (url : string) : string := quote url.

(** [Worker(config=config)]; the fresh [uuid4] is an argument. *)
Definition new_worker (config : WorkerConfig) (uuid : string) : Worker :=
  mkWorker config (worker_id_from_url (wc_url config)) uuid 0 0 UNKNOWN false 0 0 0 0 0 [] [] [] None None None.

Definition set_config c w := mkWorker c (w_worker_id w) (w_incarnation w) (w_health_epoch w) (w_active_requests w)
  (w_state w) (w_disabled w) (w_consecutive_failures w) (w_consecutive_successes w) (w_routed_requests w)
  (w_successful_requests w) (w_failed_requests w) (w_routed_by_class w) (w_successful_by_class w)
  (w_failed_by_class w) (w_last_status_code w) (w_last_error w) (w_last_checked_at w).
Definition set_incarnation i w := mkWorker (w_config w) (w_worker_id w) i (w_health_epoch w) (w_active_requests w)
  (w_state w) (w_disabled w) (w_consecutive_failures w) (w_consecutive_successes w) (w_routed_requests w)
  (w_successful_requests w) (w_failed_requests w) (w_routed_by_class w) (w_successful_by_class w)
  (w_failed_by_class w) (w_last_status_code w) (w_last_error w) (w_last_checked_at w).
Definition set_health st epoch failures successes w := mkWorker (w_config w) (w_worker_id w) (w_incarnation w) epoch
  (w_active_requests w) st (w_disabled w) failures successes (w_routed_requests w)
  (w_successful_requests w) (w_failed_requests w) (w_routed_by_class w) (w_successful_by_class w)
  (w_failed_by_class w) (w_last_status_code w) (w_last_error w) (w_last_checked_at w).
Definition set_observed code err t w := mkWorker (w_config w) (w_worker_id w) (w_incarnation w) (w_health_epoch w)
  (w_active_requests w) (w_state w) (w_disabled w) (w_consecutive_failures w) (w_consecutive_successes w)
  (w_routed_requests w) (w_successful_requests w) (w_failed_requests w) (w_routed_by_class w)
  (w_successful_by_class w) (w_failed_by_class w) code err t.
Definition set_active n w := mkWorker (w_config w) (w_worker_id w) (w_incarnation w) (w_health_epoch w)
  n (w_state w) (w_disabled w) (w_consecutive_failures w) (w_consecutive_successes w)
  (w_routed_requests w) (w_successful_requests w) (w_failed_requests w) (w_routed_by_class w)
  (w_successful_by_class w) (w_failed_by_class w) (w_last_status_code w) (w_last_error w) (w_last_checked_at w).
Definition set_counts n s f nc sc fc w := mkWorker (w_config w) (w_worker_id w) (w_incarnation w) (w_health_epoch w)
  (w_active_requests w) (w_state w) (w_disabled w) (w_consecutive_failures w) (w_consecutive_successes w)
  n s f nc sc fc (w_last_status_code w) (w_last_error w) (w_last_checked_at w).
(** [worker.state = ...; worker.disabled = ...]. *)
Definition set_status st b w := mkWorker (w_config w) (w_worker_id w) (w_incarnation w) (w_health_epoch w)
  (w_active_requests w) st b (w_consecutive_failures w) (w_consecutive_successes w)
  (w_routed_requests w) (w_successful_requests w) (w_failed_requests w) (w_routed_by_class w)
  (w_successful_by_class w) (w_failed_by_class w) (w_last_status_code w) (w_last_error w) (w_last_checked_at w).

Definition is_healthy (w : Worker) : bool := bool_decide (w_state w = HEALTHY).
Definition is_dead (w : Worker) : bool := bool_decide (w_state w = DEAD).
Definition is_routable (w : Worker) : bool := is_healthy w && negb (w_disabled w).
Definition supports (w : Worker) (capability : string) : bool := bool_decide (capability ∈ w_capabilities w).

Definition replace_config (c : WorkerConfig) (w : Worker) : res Worker :=
  if bool_decide (wc_url c ≠ w_url w) then Raise (ValueError "worker URL cannot be changed") else Ok (set_config c w).

Definition mark_dead (error : option string) (w : Worker) : Worker :=
  let w := set_health DEAD (w_health_epoch w + 1) (w_consecutive_failures w) (w_consecutive_successes w) w in
  match error with
  | Some _ => set_observed (w_last_status_code w) error (w_last_checked_at w) w
  | None => w
  end.

Definition clear_dead (w : Worker) : Worker :=
  set_health (if is_dead w then UNKNOWN else w_state w) (w_health_epoch w + 1) 0 0 w.

Definition set_disabled (b : bool) (w : Worker) : Worker := set_status (w_state w) b w.

(** ** Request accounting *)
Definition increment_active (w : Worker) : Worker := set_active (w_active_requests w + 1) w.
Definition decrement_active (w : Worker) : res Worker :=
  if bool_decide (0 < w_active_requests w)%Z then Ok (set_active (w_active_requests w - 1) w)
  else Raise (AssertionError "active request count cannot be negative").

Definition _increment_counter (key : string) (cs : counters) : counters :=
  od_set key (default 0%Z (od_get key cs) + 1)%Z cs.

Definition success_status (code : option Z) : bool :=
  match code with Some c => bool_decide (200 ≤ c < 400)%Z | None => false end.

Definition record_routed_request (code : option Z) (service_class : string) (w : Worker) : Worker :=
  let n := (w_routed_requests w + 1)%Z in
  let nc := _increment_counter service_class (w_routed_by_class w) in
  if success_status code then
    set_counts n (w_successful_requests w + 1) (w_failed_requests w) nc
      (_increment_counter service_class (w_successful_by_class w)) (w_failed_by_class w) w
  else
    set_counts n (w_successful_requests w) (w_failed_requests w + 1) nc
      (w_successful_by_class w) (_increment_counter service_class (w_failed_by_class w)) w.

(** ** Health results *)
Section health.
Context (failure_threshold success_threshold : Z).

Definition _record_failure (w : Worker) : Worker :=
  let failures := (w_consecutive_failures w + 1)%Z in
  let st := if bool_decide (failure_threshold ≤ failures)%Z then UNHEALTHY else w_state w in
  set_health st (w_health_epoch w) failures 0 w.

Definition record_health_result (ok : bool) (code : option Z) (error : option string) (t : Z) (w : Worker) : Worker :=
  let w := set_observed code error (Some t) w in
  if ok then
    let successes := (w_consecutive_successes w + 1)%Z in
    let st := if bool_decide (success_threshold ≤ successes)%Z then HEALTHY else w_state w in
    set_health st (w_health_epoch w) 0 successes w
  else _record_failure w.

Definition record_request_failure (code : option Z) (error : option string) (t : Z) (w : Worker) : Worker :=
  _record_failure (set_observed code error (Some t) w).

(** [ProxyHandler._record_worker_request_failure] without a control plane to report to. *)
Definition proxy_request_failure (code : option Z) (error : option string) (t : Z) (w : Worker) : Worker :=
  if is_dead w then w else record_request_failure code error t w.

(** [TTSWebSocketProxy._complete_session] of a session its worker failed. *)
Definition websocket_session_failure (code routed : option Z) (error : option string) (t : Z) (w : Worker) : Worker :=
  record_routed_request routed "tts_websocket" (record_request_failure code error t w).

(** ** [HealthChecker._check_worker_health], split at its await *)
Inductive probe_result := HttpError (msg : string) | Response (status : Z) (text : string).

Definition check_begin (w : Worker) : option Z := if is_dead w then None else Some (w_health_epoch w).

Definition error_of_response (status : Z) (text : string) : string :=
  let body := String.substring 0 512 text in
  if bool_decide (body = "") then "status=" +:+ pretty status else body.

Definition check_end (epoch : Z) (r : probe_result) (t : Z) (w : Worker) : Worker :=
  if bool_decide (w_health_epoch w ≠ epoch) then w
  else match r with
       | HttpError msg => record_health_result false None (Some msg) t w
       | Response status text =>
           let ok := bool_decide (200 ≤ status < 300)%Z in
           record_health_result ok (Some status) (if ok then None else Some (error_of_response status text)) t w
       end.

(** One worker with the probes in flight, by the epoch each was started at. *)
Record monitored := mkMonitored { m_worker : Worker; m_probes : list Z }.

Inductive event :=
| EProbe
| EResult (i : nat) (r : probe_result) (t : Z)
| EMarkDead (error : option string)
| EClearDead
| ESetDisabled (b : bool)
| ERequestFailure (code : option Z) (error : option string) (t : Z)
| EWebsocketFailure (code routed : option Z) (error : option string) (t : Z)
| ERouted (code : option Z) (service_class : string).

Definition on_worker (f : Worker → Worker) (m : monitored) : monitored := mkMonitored (f (m_worker m)) (m_probes m).

Definition health_step (m : monitored) (e : event) : monitored :=
  match e with
  | EProbe => mkMonitored (m_worker m) (m_probes m ++ option_list (check_begin (m_worker m)))
  | EResult i r t =>
      match m_probes m !! i with
      | Some epoch => mkMonitored (check_end epoch r t (m_worker m)) (delete i (m_probes m))
      | None => m
      end
  | EMarkDead error => on_worker (mark_dead error) m
  | EClearDead => on_worker clear_dead m
  | ESetDisabled b => on_worker (set_disabled b) m
  | ERequestFailure code error t => on_worker (proxy_request_failure code error t) m
  | EWebsocketFailure code routed error t => on_worker (websocket_session_failure code routed error t) m
  | ERouted code service_class => on_worker (record_routed_request code service_class) m
  end.

Definition health_run : monitored → list event → monitored := foldl health_step.
End health.

(** ** Selection *)
Definition truthy_model (m : option string) : bool :=
  match m with Some s => negb (bool_decide (s = "")) | None => false end.

Definition eligible_workers (workers : list Worker) (required : list string) (requested : option string) : list Worker :=
  let candidates := filter (λ w, is_routable w && forallb (supports w) required) workers in
  match requested with
  | Some m =>
      if existsb (λ w, truthy_model (w_model w)) candidates
      then filter (λ w, bool_decide (w_model w = Some m)) candidates else candidates
  | None => candidates
  end.

Definition require_eligible_worker (w : option Worker) (required : list string) (requested : option string) : res Worker :=
  match eligible_workers (option_list w) required requested with
  | [] => Raise NoEligibleWorkerError
  | w :: _ => Ok w
  end.

(** [random.Random]: its state and [choice]'s index below the length. *)
Class Random (R : Type) := randbelow : nat → R → nat * R.
Class RandomLaws R `{Random R} := randbelow_lt n r : 0 < n → (randbelow n r).1 < n.

Section selector.
Context {R : Type} `{Random R}.

Record WorkerSelector := mkSelector { policy : string; rr_index : Z; random : R }.

Definition _select_round_robin (candidates : list Worker) (s : WorkerSelector) : res (Worker * WorkerSelector) :=
  match candidates !! Z.to_nat (rr_index s `mod` Z.of_nat (length candidates)) with
  | Some w => Ok (w, mkSelector (policy s) (rr_index s + 1) (random s))
  | None => Raise ZeroDivisionError
  end.

(** [min(...)] of a non-empty sequence. *)
Definition min_active (candidates : list Worker) : Z :=
  match candidates with
  | [] => 0
  | w :: ws => foldr (λ w, Z.min (w_active_requests w)) (w_active_requests w) ws
  end.

Definition select (workers : list Worker) (required : list string) (requested : option string)
    (s : WorkerSelector) : res (Worker * WorkerSelector) :=
  let candidates := eligible_workers workers required requested in
  match candidates with
  | [] => Raise NoEligibleWorkerError
  | _ =>
      if bool_decide (policy s = "round_robin") then _select_round_robin candidates s
      else if bool_decide (policy s = "least_request") then
        _select_round_robin
          (filter (λ w, w_active_requests w = min_active candidates) candidates) s
      else if bool_decide (policy s = "random") then
        let '(i, r) := randbelow (length candidates) (random s) in
        match candidates !! i with
        | Some w => Ok (w, mkSelector (policy s) (rr_index s) r)
        | None => Raise IndexError
        end
      else Raise (ValueError "unsupported routing policy")
  end.
End selector.
Arguments WorkerSelector R : clear implicits.
Arguments mkSelector {R} policy rr_index random.
Arguments policy {R} _.
Arguments rr_index {R} _.
Arguments random {R} _.

(** ** The health verdict *)

(** What the router learns of a worker: a probe's result or a request's failure. *)
Inductive outcome :=
| OProbe (ok : bool) (code : option Z) (error : option string) (t : Z)
| ORequestFailure (code : option Z) (error : option string) (t : Z).

Definition good (o : outcome) : bool := match o with OProbe ok _ _ _ => ok | ORequestFailure _ _ _ => false end.

Definition observe (f s : Z) (w : Worker) (o : outcome) : Worker :=
  match o with
  | OProbe ok code error t => record_health_result f s ok code error t w
  | ORequestFailure code error t => record_request_failure f code error t w
  end.

Definition ends_with (b : bool) (n : nat) (l : list bool) : Prop := ∃ l', l = l' ++ replicate n b.

(** The last [n] results of [l] were [b] at some point, and at no later point
    were the last [n'] results [negb b]. *)
Definition last_settled (b : bool) (n n' : nat) (l : list bool) : Prop :=
  ∃ p q, l = p ++ q ∧ ends_with b n p ∧
    ∀ q1 q2, q = q1 ++ q2 → q1 ≠ [] → ¬ ends_with (negb b) n' (p ++ q1).

Definition verdict (f s : nat) (initial : WorkerState) (l : list bool) (st : WorkerState) : Prop :=
  match st with
  | HEALTHY => last_settled true s f l
  | UNHEALTHY => last_settled false f s l
  | _ => False
  end ∨
  st = initial ∧ ∀ p q, l = p ++ q → ¬ ends_with true s p ∧ ¬ ends_with false f p.

(** The length of the run of [b] at the end. *)
Fixpoint run_length (b : bool) (l : list bool) : nat :=
  match l with x :: l => if Bool.eqb x b then S (run_length b l) else 0 | [] => 0 end.
Definition trail (b : bool) (l : list bool) : nat := run_length b (rev l).

Lemma trail_snoc b l x : trail b (l ++ [x]) = if Bool.eqb x b then S (trail b l) else 0.
Proof. unfold trail. by rewrite rev_app_distr. Qed.

Lemma ends_with_snoc b n l x : ends_with b (S n) (l ++ [x]) ↔ x = b ∧ ends_with b n l.
Proof.
  unfold ends_with. split.
  - intros [l' H]. rewrite replicate_S_end, app_assoc in H. apply app_inj_2 in H as [-> [= ->]]; naive_solver.
  - intros [-> [l' ->]]. exists l'. by rewrite replicate_S_end, app_assoc.
Qed.

Lemma ends_with_trail b n l : ends_with b n l ↔ n ≤ trail b l.
Proof.
  revert n. induction l as [|x l IH] using rev_ind; intros n.
  - change (trail b []) with 0. split; [|intros Hn; assert (n = 0) as -> by lia; by exists []].
    intros [l' H]. apply (f_equal length) in H. rewrite length_app, length_replicate in H. simpl in H. lia.
  - destruct n as [|n]; [split; [lia|]; intros _; exists (l ++ [x]); by rewrite app_nil_r|].
    rewrite ends_with_snoc, trail_snoc, IH. destruct x, b; simpl; intuition (try congruence; lia).
Qed.

Lemma last_settled_snoc b n n' l x :
  0 < n → 0 < n' →
  last_settled b n n' (l ++ [x]) ↔
    if Bool.eqb x b then n ≤ trail b (l ++ [x]) ∨ last_settled b n n' l
    else ¬ n' ≤ trail (negb b) (l ++ [x]) ∧ last_settled b n n' l.
Proof.
  intros Hn Hn'. assert (∀ p, ¬ ends_with b n (p ++ [negb b])) as Hbad.
  { intros p. rewrite ends_with_trail, trail_snoc. destruct b; simpl; lia. }
  assert (∀ p, ¬ ends_with (negb b) n' (p ++ [b])) as Hbad'.
  { intros p. rewrite ends_with_trail, trail_snoc. destruct b; simpl; lia. }
  assert (last_settled b n n' l → ¬ ends_with (negb b) n' (l ++ [x]) → last_settled b n n' (l ++ [x])) as Hext.
  { intros (p & q & -> & Hp & Hq) He. exists p, (q ++ [x]). split_and!; [by rewrite app_assoc|done|].
    intros q1 q2 Hqq Hq1. destruct q2 as [|y q2 _] using rev_ind.
    - rewrite app_nil_r in Hqq. by rewrite <-Hqq, app_assoc.
    - rewrite app_assoc in Hqq. apply app_inj_2 in Hqq as [-> _]; [|done]. by eapply Hq. }
  assert (last_settled b n n' (l ++ [x]) → ends_with b n (l ++ [x]) ∨ last_settled b n n' l ∧ ¬ ends_with (negb b) n' (l ++ [x])) as Hinv.
  { intros (p & q & Hl & Hp & Hq). destruct q as [|y q _] using rev_ind.
    - rewrite app_nil_r in Hl. left. by rewrite Hl.
    - rewrite app_assoc in Hl. apply app_inj_2 in Hl as [-> [= ->]]; [|done]. right. split.
      + exists p, q. split_and!; [done..|]. intros q1 q2 -> Hq1. eapply (Hq q1 (q2 ++ [y])); [by rewrite app_assoc|done].
      + rewrite <-app_assoc. apply (Hq (q ++ [y]) []); [by rewrite app_nil_r|by destruct q]. }
  destruct (Bool.eqb x b) eqn:Hx.
  - apply eqb_prop in Hx as ->. rewrite <-ends_with_trail. split.
    + intros [?|[? _]]%Hinv; auto.
    + intros [He|Hs]; [|by auto]. exists (l ++ [b]), []. split_and!; [by rewrite app_nil_r|done|].
      by intros [|] ? ? ?.
  - assert (x = negb b) as -> by (by destruct x, b). rewrite <-ends_with_trail. split.
    + intros [?|[? ?]]%Hinv; [by destruct (Hbad l)|done].
    + intros [? ?]. auto.
Qed.

Lemma never_settled_snoc f s l x :
  (∀ p q, l ++ [x] = p ++ q → ¬ ends_with true s p ∧ ¬ ends_with false f p) ↔
  (∀ p q, l = p ++ q → ¬ ends_with true s p ∧ ¬ ends_with false f p) ∧
  ¬ s ≤ trail true (l ++ [x]) ∧ ¬ f ≤ trail false (l ++ [x]).
Proof.
  rewrite <-!ends_with_trail. split.
  - intros H. split.
    + intros p q ->. apply (H p (q ++ [x])). by rewrite app_assoc.
    + apply (H (l ++ [x]) []). by rewrite app_nil_r.
  - intros [H Hx] p q Hl. destruct q as [|y q _] using rev_ind.
    + rewrite app_nil_r in Hl. by rewrite <-Hl.
    + rewrite app_assoc in Hl. apply app_inj_2 in Hl as [-> _]; [|done]. by eapply H.
Qed.

Section verdict.
Context (f s : Z).
Hypothesis Hf : (0 < f)%Z.
Hypothesis Hs : (0 < s)%Z.

Definition tracks (initial : WorkerState) (l : list bool) (w : Worker) : Prop :=
  w_consecutive_failures w = Z.of_nat (trail false l) ∧ w_consecutive_successes w = Z.of_nat (trail true l) ∧
  verdict (Z.to_nat f) (Z.to_nat s) initial l (w_state w).

Lemma observe_tracks initial l w o :
  tracks initial l w → tracks initial (l ++ [good o]) (observe f s w o).
Proof.
  intros (Hcf & Hcs & Hv).
  assert (∀ n, (f ≤ Z.of_nat n)%Z ↔ Z.to_nat f ≤ n) as Hfn by lia.
  assert (∀ n, (s ≤ Z.of_nat n)%Z ↔ Z.to_nat s ≤ n) as Hsn by lia.
  assert (good o = true ∧ w_consecutive_failures (observe f s w o) = 0%Z ∧
      w_consecutive_successes (observe f s w o) = Z.of_nat (S (trail true l)) ∧
      w_state (observe f s w o) = (if bool_decide (Z.to_nat s ≤ S (trail true l)) then HEALTHY else w_state w) ∨
    good o = false ∧ w_consecutive_failures (observe f s w o) = Z.of_nat (S (trail false l)) ∧
      w_consecutive_successes (observe f s w o) = 0%Z ∧
      w_state (observe f s w o) = (if bool_decide (Z.to_nat f ≤ S (trail false l)) then UNHEALTHY else w_state w)) as Ho.
  { assert (w_consecutive_successes w + 1 = Z.of_nat (S (trail true l)))%Z as E1 by lia.
    assert (w_consecutive_failures w + 1 = Z.of_nat (S (trail false l)))%Z as E2 by lia.
    destruct o as [[]|]; simpl; [left|right|right]; split_and!; try done;
      [rewrite E1|rewrite E2|rewrite E2]; erewrite bool_decide_ext; [reflexivity|done|reflexivity|done|reflexivity|done]. }
  unfold tracks, verdict in *. rewrite !trail_snoc.
  destruct Ho as [(-> & -> & -> & ->)|(-> & -> & -> & ->)]; simpl; (split; [done|split; [done|]]).
  all: rewrite never_settled_snoc, !trail_snoc; simpl.
  all: case_bool_decide as Hd; [left; apply last_settled_snoc; [lia..|]; simpl; rewrite trail_snoc; by left|].
  all: destruct Hv as [Hv|[<- Hv]]; [left|right; split_and!; (done || lia)].
  all: destruct (w_state w); try done; rewrite last_settled_snoc by lia; simpl; rewrite trail_snoc; simpl.
  all: first [by right|split; [lia|done]].
Qed.

Lemma observe_all_tracks initial outs l w :
  tracks initial l w → tracks initial (l ++ map good outs) (foldl (observe f s) w outs).
Proof.
  revert l w. induction outs as [|o outs IH]; intros l w Hw; simpl; [by rewrite app_nil_r|].
  rewrite (cons_middle (good o)), app_assoc. by apply IH, observe_tracks.
Qed.
End verdict.

(** C34. Health is decided with hysteresis: from zeroed counters a worker is HEALTHY
    after its results exactly if at some point the last [success_threshold] results
    were good and at no later point the last [failure_threshold] were bad, UNHEALTHY
    exactly the other way round, and otherwise still what it was. *)
Theorem health_verdict f s w outs :
  (0 < f)%Z → (0 < s)%Z → w_consecutive_failures w = 0%Z → w_consecutive_successes w = 0%Z →
  let w' := foldl (observe f s) w outs in
  verdict (Z.to_nat f) (Z.to_nat s) (w_state w) (map good outs) (w_state w') ∧
  w_disabled w' = w_disabled w ∧ w_health_epoch w' = w_health_epoch w.
Proof.
  intros Hf Hs Hcf Hcs w'. split.
  - destruct (observe_all_tracks f s Hf Hs (w_state w) outs [] w) as (_ & _ & H); [|exact H].
    split_and!; [done..|]. right. split; [done|]. intros p q [-> ->]%eq_sym%app_nil.
    rewrite !ends_with_trail. unfold trail. simpl. split; lia.
  - subst w'. clear. revert w. induction outs as [|o outs IH]; intros w; simpl; [done|].
    destruct (IH (observe f s w o)) as [-> ->]. by destruct o as [[]|].
Qed.

Definition ex_config : WorkerConfig := mkWorkerConfig "http://w1:8000" None {["chat"]}.
Definition ex_worker : Worker := new_worker ex_config "i1".

Lemma health_verdict_witness :
  let outs := [OProbe true None None 1; OProbe true None None 2; ORequestFailure None None 3] in
  w_state (foldl (observe 3 2) ex_worker outs) = HEALTHY ∧
  verdict 3 2 UNKNOWN (map good outs) HEALTHY.
Proof.
  intros outs. split; [vm_compute; reflexivity|].
  apply (health_verdict 3 2 ex_worker outs); [lia..|reflexivity|reflexivity].
Defined.

(** ** Dead workers *)
Section dead.
Context (f s : Z).
Abbreviation step := (health_step f s).
Abbreviation run := (health_run f s).

Definition not_revived (e : event) : bool :=
  match e with EClearDead | EWebsocketFailure _ _ _ _ => false | _ => true end.

(** Probes in flight were started at the current epoch or before, and before a
    dead worker's. *)
Definition probes_sound (m : monitored) : Prop :=
  Forall (λ e, e ≤ w_health_epoch (m_worker m))%Z (m_probes m).
Definition dead_sound (m : monitored) : Prop :=
  w_state (m_worker m) = DEAD ∧ Forall (λ e, e < w_health_epoch (m_worker m))%Z (m_probes m).

Lemma Forall_delete_at {A} (P : A → Prop) i (l : list A) : Forall P l → Forall P (delete i l).
Proof. intros H. revert i. induction H; intros [|i]; simpl; auto. Qed.

Lemma observed_epoch ok code error t w : w_health_epoch (record_health_result f s ok code error t w) = w_health_epoch w.
Proof. by destruct ok. Qed.

Lemma check_end_epoch e r t w : w_health_epoch (check_end f s e r t w) = w_health_epoch w.
Proof. unfold check_end. repeat case_match; auto using observed_epoch. Qed.

Lemma routed_health code c w :
  w_health_epoch (record_routed_request code c w) = w_health_epoch w ∧
  w_state (record_routed_request code c w) = w_state w.
Proof. unfold record_routed_request. by case_match. Qed.

Lemma step_probes_sound m e : probes_sound m → probes_sound (step m e).
Proof.
  unfold probes_sound. intros Hm. destruct e; simpl; try done.
  - apply Forall_app. split; [done|]. unfold check_begin. case_match; simpl; [done|]. repeat constructor. lia.
  - destruct (m_probes m !! i); [|done]. simpl. rewrite check_end_epoch. by apply Forall_delete_at.
  - unfold mark_dead. destruct error; simpl; (eapply Forall_impl; [exact Hm|]); simpl; lia.
  - eapply Forall_impl; [exact Hm|]. simpl. lia.
  - unfold proxy_request_failure. by case_match.
  - unfold websocket_session_failure. rewrite (proj1 (routed_health _ _ _)). done.
  - by rewrite (proj1 (routed_health _ _ _)).
Qed.

Lemma step_dead_sound m e : not_revived e = true → dead_sound m → dead_sound (step m e).
Proof.
  intros He [Hd Hp]. unfold dead_sound. destruct e; simpl; try done.
  - unfold check_begin, is_dead. by rewrite Hd, app_nil_r.
  - destruct (m_probes m !! i) as [e|] eqn:Hi; [|done]. simpl. rewrite check_end_epoch.
    split; [|by apply Forall_delete_at]. unfold check_end. rewrite bool_decide_true; [done|].
    eapply Forall_lookup_1 in Hp; [|done]. lia.
  - unfold mark_dead. destruct error; simpl; (split; [done|eapply Forall_impl; [exact Hp|]; simpl; lia]).
  - unfold proxy_request_failure, is_dead. by rewrite bool_decide_true.
  - destruct (routed_health code service_class (m_worker m)) as [-> ->]. done.
Qed.

Lemma run_probes_sound evs m : probes_sound m → probes_sound (run m evs).
Proof. revert m. induction evs as [|e evs IH]; intros m Hm; simpl; [done|]. by apply IH, step_probes_sound. Qed.

Lemma run_dead_sound evs m : Forall not_revived evs → dead_sound m → dead_sound (run m evs).
Proof.
  intros He. revert m. induction He as [|e evs He _ IH]; intros m Hm; simpl; [done|].
  apply IH, step_dead_sound; [by apply Is_true_true|done].
Qed.
End dead.

(** An operator's dead mark holds: whatever probes were in flight and whatever
    results and HTTP request failures arrive, the worker stays DEAD and unroutable
    until it is cleared, and then no probe started before the clearing counts. *)
Theorem operator_dead_mark_holds f s w before error after i r t :
  Forall not_revived after →
  let m := health_run f s (mkMonitored w []) (before ++ EMarkDead error :: after) in
  let cleared := health_step f s m EClearDead in
  w_state (m_worker m) = DEAD ∧ is_routable (m_worker m) = false ∧
  w_state (m_worker cleared) = UNKNOWN ∧ w_consecutive_successes (m_worker cleared) = 0%Z ∧
  m_worker (health_step f s cleared (EResult i r t)) = m_worker cleared.
Proof.
  intros Ha m cleared. assert (dead_sound m) as [Hd Hp].
  { unfold m, health_run. rewrite foldl_app. simpl. apply run_dead_sound; [done|].
    pose proof (run_probes_sound f s before (mkMonitored w []) ltac:(constructor)) as Hb.
    unfold probes_sound, health_run in Hb. unfold dead_sound, mark_dead.
    destruct error; simpl; (split; [done|eapply Forall_impl; [exact Hb|]; simpl; lia]). }
  split_and!; [done| | |done|].
  - unfold is_routable, is_healthy. by rewrite Hd.
  - simpl. unfold is_dead. by rewrite bool_decide_true.
  - simpl. destruct (m_probes m !! i) as [e|] eqn:Hi; [|done]. simpl. unfold check_end. simpl.
    eapply Forall_lookup_1 in Hp; [|done]. rewrite bool_decide_true; [done|]. lia.
Qed.

(** A probe is in flight when the mark is set and its success arrives after. *)
Lemma operator_dead_mark_holds_witness :
  let m := health_run 3 1 (mkMonitored ex_worker [])
             ([EProbe] ++ EMarkDead None :: [EResult 0 (Response 200 "ok") 5; ERequestFailure None None 6]) in
  w_state (m_worker m) = DEAD ∧ m_probes m = [].
Proof.
  intros m. split; [|vm_compute; reflexivity].
  apply (operator_dead_mark_holds 3 1 ex_worker [EProbe] None
    [EResult 0 (Response 200 "ok") 5; ERequestFailure None None 6] 0 (HttpError "x") 7).
  repeat constructor.
Defined.

(** WebSocket sessions break that mark: [_complete_session] records a failed
    session on a dead worker, so with the default thresholds three sessions failing
    after the mark demote it to UNHEALTHY and two good probes route to it again. *)
Theorem websocket_failures_revive_dead_worker :
  let failed := EWebsocketFailure None None (Some "closed") 10 in
  let probe := [EProbe; EResult 0 (Response 200 "ok") 11] in
  let m := health_run 3 2 (mkMonitored ex_worker []) (EMarkDead None :: replicate 3 failed) in
  w_state (m_worker m) = UNHEALTHY ∧ is_routable (m_worker (health_run 3 2 m (probe ++ probe))) = true.
Proof. vm_compute. done. Qed.

(** ** Selection *)
Lemma eligible_routable ws required requested w :
  w ∈ eligible_workers ws required requested →
  w ∈ ws ∧ is_routable w = true ∧ Forall (λ c, supports w c = true) required.
Proof.
  assert (w ∈ filter (λ w, is_routable w && forallb (supports w) required) ws →
    w ∈ ws ∧ is_routable w = true ∧ Forall (λ c, supports w c = true) required) as Hbase.
  { intros [Hw Hin]%list_elem_of_filter. bool_simpl. split_and!; try done.
    apply Forall_forall. intros c Hc. eapply forallb_forall in H0; [done|]. by apply list_elem_of_In. }
  unfold eligible_workers. intros Hin. destruct requested as [m|]; [|by apply Hbase].
  case_match; [|by apply Hbase]. apply list_elem_of_filter in Hin as [_ Hin]. by apply Hbase.
Qed.

(** Once some routable, capable worker declares a model, only that model's count. *)
Lemma eligible_model ws required m w w' :
  w ∈ eligible_workers ws required (Some m) → w' ∈ ws → is_routable w' = true →
  Forall (λ c, supports w' c = true) required → truthy_model (w_model w') = true → w_model w = Some m.
Proof.
  unfold eligible_workers. set (cs := filter _ ws). case_match eqn:E.
  - intros [Hw%Is_true_true%bool_decide_eq_true _]%list_elem_of_filter _ _. done.
  - intros _ Hw' Hr Hc Ht. exfalso. apply not_true_iff_false in E. apply E, existsb_exists.
    exists w'. split; [|done]. apply list_elem_of_In, list_elem_of_filter. split; [|done].
    rewrite Hr. apply Is_true_true, forallb_forall. intros c Hin. eapply Forall_forall in Hc; [done|]. by apply list_elem_of_In.
Qed.

Lemma min_active_le ws w : w ∈ ws → (min_active ws ≤ w_active_requests w)%Z.
Proof.
  assert (∀ l b, foldr (λ w, Z.min (w_active_requests w)) b l ≤ b ∧
    ∀ w, w ∈ l → foldr (λ w, Z.min (w_active_requests w)) b l ≤ w_active_requests w)%Z as Hf.
  { induction l as [|x l IH]; intros b; simpl; [split; [lia|set_solver]|].
    destruct (IH b) as [IH1 IH2]. split; [lia|]. intros y [->|Hy]%elem_of_cons; [lia|].
    specialize (IH2 _ Hy). lia. }
  destruct ws as [|w0 ws]; [set_solver|]. destruct (Hf ws (w_active_requests w0)) as [H1 H2].
  intros [->|Hin]%elem_of_cons; simpl; auto.
Qed.

Lemma min_active_attained ws : ws ≠ [] → ∃ w, w ∈ ws ∧ w_active_requests w = min_active ws.
Proof.
  destruct ws as [|w0 ws]; [done|]. intros _. simpl.
  assert (∀ l, (∃ w, w ∈ w0 :: l ∧ w_active_requests w = foldr (λ w, Z.min (w_active_requests w)) (w_active_requests w0) l)) as H.
  { induction l as [|x l (w & Hw & Hm)]; [exists w0; set_solver|]. simpl.
    destruct (Z.min_spec (w_active_requests x) (foldr (λ w, Z.min (w_active_requests w)) (w_active_requests w0) l)) as [[_ ->]|[_ ->]];
      [exists x|exists w]; set_solver. }
  apply H.
Qed.

(** [m] rounds of a rotating cursor over [n] positions visit each [m] times. *)
Lemma rotation_perm {A} (l : list A) (c : nat) :
  (λ j, l !! ((c + j) mod length l)) <$> seq 0 (length l) ≡ₚ Some <$> l.
Proof.
  destruct (decide (l = [])) as [->|Hl]; [done|].
  assert (0 < length l) as Hn by (destruct l; simpl in *; [done|lia]).
  set (k := c mod length l). assert (k < length l) as Hk by (apply Nat.mod_upper_bound; lia).
  assert ((λ j, l !! ((c + j) mod length l)) <$> seq 0 (length l) = Some <$> (drop k l ++ take k l)) as ->.
  { apply list_eq. intros i. rewrite !list_lookup_fmap.
    destruct (decide (i < length l)) as [Hi|Hi].
    - rewrite lookup_seq_lt by done. simpl.
      assert ((c + i) mod length l = if decide (i < length l - k) then k + i else i - (length l - k)) as ->.
      { rewrite <-Nat.Div0.add_mod_idemp_l. fold k. case_decide.
        - apply Nat.mod_small. lia.
        - symmetry. apply (Nat.mod_unique _ _ 1); lia. }
      rewrite lookup_app, length_drop, lookup_drop. case_decide.
      + destruct (lookup_lt_is_Some_2 l (k + i)) as [x Hx]; [lia|]. by rewrite Hx.
      + rewrite (lookup_ge_None_2 l (k + i)) by lia. rewrite lookup_take_lt by lia.
        destruct (lookup_lt_is_Some_2 l (i - (length l - k))) as [x Hx]; [lia|]. by rewrite Hx.
    - rewrite lookup_seq_ge by lia. simpl. rewrite lookup_ge_None_2; [done|].
      rewrite length_app, length_drop, length_take. lia. }
  by rewrite Permutation_app_comm, take_drop.
Qed.

Lemma Some_permutation {A} (l k : list A) : Some <$> l ≡ₚ Some <$> k → l ≡ₚ k.
Proof.
  intros H. assert (∀ l : list A, omap id (Some <$> l) = l) as E.
  { clear. induction l as [|x l IH]; simpl; [done|]. by f_equal. }
  rewrite <-(E l), <-(E k). by rewrite H.
Qed.

Section selection.
Context {R : Type} `{HR : RandomLaws R}.
Implicit Types (s : WorkerSelector R).

(** Selecting [n] times from the same pool. *)
Fixpoint select_times (n : nat) (ws : list Worker) (required : list string) (requested : option string) s
    : res (list Worker * WorkerSelector R) :=
  match n with
  | O => Ok ([], s)
  | S n =>
      r ← select ws required requested s;
      rest ← select_times n ws required requested r.2;
      mret (r.1 :: rest.1, rest.2)
  end.

Lemma round_robin_picks cs s :
  cs ≠ [] → (0 ≤ rr_index s)%Z →
  ∃ w, cs !! (Z.to_nat (rr_index s) mod length cs) = Some w ∧
    _select_round_robin cs s = Ok (w, mkSelector (policy s) (rr_index s + 1) (random s)).
Proof.
  intros Hcs Hi. assert (0 < length cs) as Hn by (destruct cs; simpl in *; [done|lia]).
  assert (Z.to_nat (rr_index s `mod` Z.of_nat (length cs)) = Z.to_nat (rr_index s) mod length cs) as E.
  { rewrite <-(Z2Nat.id (rr_index s)) at 1 by done. by rewrite <-Nat2Z.inj_mod, Nat2Z.id. }
  destruct (lookup_lt_is_Some_2 cs (Z.to_nat (rr_index s) mod length cs)) as [w Hw].
  { apply Nat.mod_upper_bound. lia. }
  exists w. split; [done|]. unfold _select_round_robin. by rewrite E, Hw.
Qed.

Lemma select_round_robin ws required requested s :
  policy s = "round_robin" → eligible_workers ws required requested ≠ [] →
  select ws required requested s = _select_round_robin (eligible_workers ws required requested) s.
Proof. intros Hp He. unfold select. case_match eqn:E; [done|]. by rewrite Hp. Qed.

Lemma select_least ws required requested s :
  policy s = "least_request" → eligible_workers ws required requested ≠ [] →
  let cs := eligible_workers ws required requested in
  select ws required requested s = _select_round_robin (filter (λ w, w_active_requests w = min_active cs) cs) s.
Proof. intros Hp He cs. unfold select. fold cs. case_match eqn:E; [done|]. by rewrite Hp. Qed.

Lemma select_random ws required requested s :
  policy s = "random" → eligible_workers ws required requested ≠ [] →
  ∃ w r, w ∈ eligible_workers ws required requested ∧
    select ws required requested s = Ok (w, mkSelector (policy s) (rr_index s) r).
Proof.
  intros Hp He. unfold select. destruct (eligible_workers _ _ _) as [|w0 l] eqn:E; [done|].
  rewrite !(bool_decide_false (policy s = _)) by (by rewrite Hp). rewrite bool_decide_true by done.
  pose proof (randbelow_lt (length (w0 :: l)) (random s) ltac:(simpl; lia)) as Hlt.
  destruct (randbelow (length (w0 :: l)) (random s)) as [i r]. simpl in Hlt.
  destruct (lookup_lt_is_Some_2 (w0 :: l) i Hlt) as [w Hw]. exists w, r.
  split; [by eapply list_elem_of_lookup_2|]. by rewrite Hw.
Qed.

Lemma select_times_app a b ws required requested s :
  select_times (a + b) ws required requested s =
    (r ← select_times a ws required requested s;
     rest ← select_times b ws required requested r.2;
     mret (r.1 ++ rest.1, rest.2)).
Proof.
  revert s. induction a as [|a IH]; intros s; simpl.
  - by destruct (select_times b _ _ _ _) as [[]|].
  - destruct (select ws required requested s) as [[w s1]|]; simpl; [|done]. rewrite IH.
    destruct (select_times a _ _ _ _) as [[l s2]|]; simpl; [|done].
    by destruct (select_times b _ _ _ _) as [[]|].
Qed.

Lemma round_robin_times n ws required requested s :
  let cs := eligible_workers ws required requested in
  policy s = "round_robin" → cs ≠ [] → (0 ≤ rr_index s)%Z →
  ∃ picks, select_times n ws required requested s =
      Ok (picks, mkSelector (policy s) (rr_index s + Z.of_nat n) (random s)) ∧
    Some <$> picks = (λ j, cs !! ((Z.to_nat (rr_index s) + j) mod length cs)) <$> seq 0 n.
Proof.
  intros cs. revert s. induction n as [|n IH]; intros s Hp Hcs Hi.
  - exists []. split; [|done]. simpl. rewrite Z.add_0_r. by destruct s.
  - destruct (round_robin_picks cs s Hcs Hi) as (w & Hw & Hsel).
    destruct (IH (mkSelector (policy s) (rr_index s + 1) (random s))) as (picks & Ht & Hpk); simpl; [done|done|lia|].
    exists (w :: picks). split.
    + simpl. rewrite select_round_robin by done. fold cs. rewrite Hsel. simpl. rewrite Ht. simpl.
      by replace (rr_index s + 1 + Z.of_nat n)%Z with (rr_index s + Z.of_nat (S n))%Z by lia.
    + change (seq 0 (S n)) with (0 :: seq 1 n). rewrite !fmap_cons, Nat.add_0_r, Hw, Hpk. f_equal.
      rewrite <-fmap_S_seq, <-list_fmap_compose.
      apply list_fmap_ext. intros ? j _. simpl. do 2 f_equal. lia.
Qed.

Lemma round_robin_rounds k ws required requested s :
  let cs := eligible_workers ws required requested in
  policy s = "round_robin" → cs ≠ [] → (0 ≤ rr_index s)%Z →
  ∃ picks s', select_times (k * length cs) ws required requested s = Ok (picks, s') ∧
    picks ≡ₚ concat (replicate k cs).
Proof.
  intros cs. revert s. induction k as [|k IH]; intros s Hp Hcs Hi; [by exists [], s|].
  destruct (round_robin_times (length cs) ws required requested s Hp Hcs Hi) as (p1 & H1 & Hp1).
  set (s1 := mkSelector _ _ _) in H1.
  destruct (IH s1) as (p2 & s2 & H2 & Hp2); [done|done|simpl; lia|].
  exists (p1 ++ p2), s2. simpl. rewrite select_times_app, H1. simpl. rewrite H2. simpl. split; [done|].
  rewrite Hp2. apply Permutation_app_tail, Some_permutation. rewrite Hp1. apply rotation_perm.
Qed.

(** Every policy selects a routable worker with all required capabilities and,
    once an eligible worker declares a model, with the requested one;
    [least_request] picks one with the fewest active requests, and over [k] rounds
    of an unchanged pool [round_robin] picks each candidate exactly [k] times.
    Without a candidate the selection raises. *)
Theorem selection_eligible_least_fair ws required requested s k :
  (0 ≤ rr_index s)%Z →
  let cs := eligible_workers ws required requested in
  (cs = [] → select ws required requested s = Raise NoEligibleWorkerError) ∧
  (cs ≠ [] → policy s ∈ ["round_robin"; "least_request"; "random"] →
     ∃ w s', select ws required requested s = Ok (w, s') ∧ (0 ≤ rr_index s')%Z ∧
       w ∈ ws ∧ is_routable w = true ∧ Forall (λ c, supports w c = true) required ∧
       (∀ m w', requested = Some m → w' ∈ ws → is_routable w' = true →
          Forall (λ c, supports w' c = true) required → truthy_model (w_model w') = true → w_model w = Some m) ∧
       (policy s = "least_request" → ∀ w', w' ∈ cs → (w_active_requests w ≤ w_active_requests w')%Z)) ∧
  (cs ≠ [] → policy s = "round_robin" →
     ∃ picks s', select_times (k * length cs) ws required requested s = Ok (picks, s') ∧
       picks ≡ₚ concat (replicate k cs)).
Proof.
  intros Hi cs. split_and!.
  - intros Hcs. unfold select. fold cs. by rewrite Hcs.
  - intros Hcs Hp. assert (∃ w s', select ws required requested s = Ok (w, s') ∧ (0 ≤ rr_index s')%Z ∧ w ∈ cs ∧
      (policy s = "least_request" → ∀ w', w' ∈ cs → (w_active_requests w ≤ w_active_requests w')%Z))
      as (w & s' & Hs & Hi' & Hw & Hl).
    { rewrite !elem_of_cons in Hp. destruct Hp as [Hp|[Hp|[Hp|[]%not_elem_of_nil]]].
      - destruct (round_robin_picks cs s Hcs Hi) as (w & Hw & Hsel). exists w. eexists.
        rewrite select_round_robin by done. fold cs. rewrite Hsel. split_and!; [done|simpl; lia|by eapply list_elem_of_lookup_2|].
        intros Hp'. congruence.
      - destruct (min_active_attained cs Hcs) as (w0 & Hw0 & Hm0).
        destruct (round_robin_picks (filter (λ w, w_active_requests w = min_active cs) cs) s) as (w & Hw & Hsel); [|done|].
        { intros E. assert (w0 ∈ filter (λ w, w_active_requests w = min_active cs) cs) as Hin
            by (by apply list_elem_of_filter). rewrite E in Hin. by apply not_elem_of_nil in Hin. }
        apply list_elem_of_lookup_2, list_elem_of_filter in Hw as [Hm Hw].
        exists w. eexists. rewrite select_least by done. fold cs. rewrite Hsel. split_and!; [done|simpl; lia|done|].
        intros _ w' Hw'. rewrite Hm. by apply min_active_le.
      - destruct (select_random ws required requested s Hp Hcs) as (w & r & Hw & Hsel).
        exists w. eexists. rewrite Hsel. split_and!; [done|done|done|]. intros Hp'. congruence. }
    exists w, s'. destruct (eligible_routable _ _ _ _ Hw) as (? & ? & ?). split_and!; try done.
    intros m w' -> ????. by eapply eligible_model.
  - intros Hcs Hp. by apply round_robin_rounds.
Qed.
End selection.

(** A [Random] that always draws the first index. *)
#[export] Instance first_random : Random unit := λ _ r, (0, r).
#[export] Instance first_random_laws : RandomLaws unit.
Proof. intros n r Hn. exact Hn. Qed.

Definition ex_pool : list Worker :=
  map (λ u, set_status HEALTHY false (new_worker (mkWorkerConfig u None {["chat"]}) "i")) ["http://a"; "http://b"; "http://c"].

Lemma selection_eligible_least_fair_witness :
  let s := mkSelector "round_robin" 7 tt in
  eligible_workers ex_pool ["chat"] None = ex_pool ∧
  ∃ picks s', select_times 6 ex_pool ["chat"] None s = Ok (picks, s') ∧ picks ≡ₚ ex_pool ++ ex_pool ++ [].
Proof.
  intros s. assert (eligible_workers ex_pool ["chat"] None = ex_pool) as E by (vm_compute; reflexivity).
  split; [exact E|].
  destruct (selection_eligible_least_fair ex_pool ["chat"] None s 2 ltac:(simpl; lia)) as (_ & _ & H).
  destruct (H ltac:(vm_compute; discriminate) eq_refl) as (picks & s' & Hs & Hp).
  exists picks, s'. split; [exact Hs|]. rewrite E in Hp. exact Hp.
Defined.
