(* ===== verification/VoiceRouting.v ===== *)
(** * Voice routing: which requests need the owner of the uploaded voices

    Models [sglang_omni_router/python/voice_routing.py] with its use by [proxy.py]: the
    names the router believes uploaded, mutations in flight, the reconciliation loop
    and the choice of a worker for a speech request.  Names are ASCII strings; a
    response's JSON text is already parsed. *)
From S2P Require Import Prelude PyVal RouterWorker.

(** ** Names *)

(** [str.isspace] and [str.lower] on ASCII. *)
Definition is_space (c : Ascii.ascii) : bool :=
  let n := Ascii.nat_of_ascii c in bool_decide (9 ≤ n ≤ 13 ∨ 28 ≤ n ≤ 32).
Definition lower_char (c : Ascii.ascii) : Ascii.ascii :=
  let n := Ascii.nat_of_ascii c in if bool_decide (65 ≤ n ≤ 90) then Ascii.ascii_of_nat (n + 32) else c.

Fixpoint lower (s : string) : string :=
  match s with EmptyString => EmptyString | String c s => String (lower_char c) (lower s) end.

Fixpoint lstrip (s : string) : string :=
  match s with
  | String c s' => if is_space c then lstrip s' else s
  | EmptyString => EmptyString
  end.
Fixpoint rstrip (s : string) : string :=
  match s with
  | String c s' => match rstrip s' with
                   | EmptyString => if is_space c then EmptyString else String c EmptyString
                   | t => String c t
                   end
  | EmptyString => EmptyString
  end.

Definition _normalize_voice_name (value : pyval) : option string :=
  match value with
  | PStr s => let normalized := lower (rstrip (lstrip s)) in if bool_decide (normalized = "") then None else Some normalized
  | _ => None
  end.

Definition DEFAULT_VOICE_NAME : string := "default".
Definition MAX_VOICE_REGISTRY_RESPONSE_BYTES : Z := 1048576.

Inductive voice_op := VoiceUpload | VoiceDelete.
Record VoiceMutation := mkMutation { vm_operation : voice_op; vm_name : string }.

Definition create_mutation (operation : voice_op) (name : pyval) : option VoiceMutation :=
  mkMutation operation <$> _normalize_voice_name name.

(** ** The owner's list of names *)
Definition names_of (msg : string) (items : list pyval) : res (gset string) :=
  foldl (λ acc item, names ← acc;
    match _normalize_voice_name item with None => Raise (ValueError msg) | Some n => Ok ({[n]} ∪ names) end) (Ok ∅) items.

Definition voice_name_of (item : pyval) : res pyval :=
  match item with PDict d => Ok (dget "name" d) | _ => Raise (ValueError "uploaded voice metadata must be an object") end.

Definition _uploaded_voice_names (payload : pyval) : res (gset string) :=
  match payload with
  | PDict d =>
      match dget "uploaded_voice_names" d with
      | PNone =>
          match dget "uploaded_voices" d with
          | PList l =>
              foldl (λ acc item, names ← acc; value ← voice_name_of item;
                match _normalize_voice_name value with
                | None => Raise (ValueError "uploaded voice metadata must include a name")
                | Some n => Ok ({[n]} ∪ names)
                end) (Ok ∅) l
          | _ => Raise (ValueError "voice list response must include uploaded_voices")
          end
      | PList l => names_of "uploaded_voice_names must contain names" l
      | _ => Raise (ValueError "uploaded_voice_names must be a list")
      end
  | _ => Raise (ValueError "voice list response must be an object")
  end.

(** The body, chunk by chunk, refused when it grows past the limit. *)
Fixpoint read_body (body : string) (chunks : list string) : res string :=
  match chunks with
  | [] => Ok body
  | chunk :: chunks =>
      if bool_decide (MAX_VOICE_REGISTRY_RESPONSE_BYTES < Z.of_nat (String.length body) + Z.of_nat (String.length chunk))%Z
      then Raise VoiceRegistryResponseTooLargeError else read_body (body +:+ chunk) chunks
  end.

(** [_fetch_uploaded_voice_names] after the response; [loads] is [json.loads]. *)
Definition _fetch_uploaded_voice_names (loads : string → option pyval) (status : Z) (chunks : list string) : res (gset string) :=
  if bool_decide (400 ≤ status)%Z then Raise (HTTPStatusError status)
  else
    body ← read_body "" chunks;
    match loads body with
    | None => Raise (ValueError "voice registry response must be valid JSON")
    | Some payload => _uploaded_voice_names payload
    end.

Definition _registry_refresh_error (e : exn) : string :=
  match e with
  | HTTPStatusError status => "HTTPStatusError:status=" +:+ pretty status
  | VoiceRegistryResponseTooLargeError => "VoiceRegistryResponseTooLargeError"
  | HTTPError cls => cls
  | _ => "ValueError"
  end.

(** ** Routing state *)
Record VoiceRoutingState := mkVoice {
  _owner_url : option string;
  _uploaded_names : gset string;
  _is_active : bool;
  _is_hydrated : bool;
  _is_registry_dirty : bool;
  _is_reconciling : bool;
  _mutations_inflight : Z;
  _last_refresh_error : option string;
  _registry_generation : Z;
  _refresh_requested : bool;
}.

Definition voice_init (owner_url : option string) : VoiceRoutingState :=
  mkVoice owner_url ∅ false false false false 0 None 0 false.

Definition set_owner o v := mkVoice o (_uploaded_names v) (_is_active v) (_is_hydrated v) (_is_registry_dirty v) (_is_reconciling v)
  (_mutations_inflight v) (_last_refresh_error v) (_registry_generation v) (_refresh_requested v).
Definition set_names n v := mkVoice (_owner_url v) n (_is_active v) (_is_hydrated v) (_is_registry_dirty v) (_is_reconciling v)
  (_mutations_inflight v) (_last_refresh_error v) (_registry_generation v) (_refresh_requested v).
Definition set_active v := mkVoice (_owner_url v) (_uploaded_names v) true (_is_hydrated v) (_is_registry_dirty v) (_is_reconciling v)
  (_mutations_inflight v) (_last_refresh_error v) (_registry_generation v) (_refresh_requested v).
Definition set_dirty v := mkVoice (_owner_url v) (_uploaded_names v) (_is_active v) (_is_hydrated v) true (_is_reconciling v)
  (_mutations_inflight v) (_last_refresh_error v) (_registry_generation v) (_refresh_requested v).
Definition set_reconciling b v := mkVoice (_owner_url v) (_uploaded_names v) (_is_active v) (_is_hydrated v) (_is_registry_dirty v) b
  (_mutations_inflight v) (_last_refresh_error v) (_registry_generation v) (_refresh_requested v).
Definition set_inflight n v := mkVoice (_owner_url v) (_uploaded_names v) (_is_active v) (_is_hydrated v) (_is_registry_dirty v) (_is_reconciling v)
  n (_last_refresh_error v) (_registry_generation v) (_refresh_requested v).
Definition set_error e v := mkVoice (_owner_url v) (_uploaded_names v) (_is_active v) (_is_hydrated v) (_is_registry_dirty v) (_is_reconciling v)
  (_mutations_inflight v) e (_registry_generation v) (_refresh_requested v).
Definition set_generation n v := mkVoice (_owner_url v) (_uploaded_names v) (_is_active v) (_is_hydrated v) (_is_registry_dirty v) (_is_reconciling v)
  (_mutations_inflight v) (_last_refresh_error v) n (_refresh_requested v).
Definition set_refresh b v := mkVoice (_owner_url v) (_uploaded_names v) (_is_active v) (_is_hydrated v) (_is_registry_dirty v) (_is_reconciling v)
  (_mutations_inflight v) (_last_refresh_error v) (_registry_generation v) b.

Definition owner (workers : list Worker) (v : VoiceRoutingState) : option Worker :=
  match _owner_url v with
  | None => None
  | Some url => head (filter (λ w, bool_decide (w_url w = url)) workers)
  end.

Definition VOICE_OWNER_CAPABILITIES : gset string := {["speech"; "audio_input"]}.
Definition can_own_uploaded_voices (capabilities : gset string) : bool := bool_decide (VOICE_OWNER_CAPABILITIES ⊆ capabilities).

Definition ensure_owner (workers : list Worker) (v : VoiceRoutingState) : VoiceRoutingState * option Worker :=
  match owner workers v, _owner_url v with
  | Some w, _ => (v, Some w)
  | None, Some _ => (v, None)
  | None, None =>
      match head (filter (λ w, is_routable w && can_own_uploaded_voices (w_capabilities w)) workers) with
      | Some w => (set_owner (Some (w_url w)) v, Some w)
      | None => (v, None)
      end
  end.

Definition request_refresh (v : VoiceRoutingState) : VoiceRoutingState :=
  if _is_active v && negb (_is_reconciling v) then set_refresh true v else v.

Definition activate (v : VoiceRoutingState) : VoiceRoutingState :=
  if _is_active v then v else request_refresh (set_active v).

Definition mark_uncertain (v : VoiceRoutingState) : VoiceRoutingState :=
  set_refresh true (set_error (Some "mutation outcome is uncertain") (set_dirty (set_active v))).

Definition begin_mutation (v : VoiceRoutingState) : VoiceRoutingState :=
  let v := set_active v in
  set_generation (_registry_generation v + 1) (set_inflight (_mutations_inflight v + 1) v).

Definition in_flight (v : VoiceRoutingState) : bool := bool_decide (0 < _mutations_inflight v)%Z.

Definition mark_mutation_dispatched (v : VoiceRoutingState) : res VoiceRoutingState :=
  if in_flight v then Ok (set_dirty v) else Raise (AssertionError "no mutation in flight").

Definition end_mutation (v : VoiceRoutingState) : res VoiceRoutingState :=
  if in_flight v then
    let n := (_mutations_inflight v - 1)%Z in
    Ok (if bool_decide (n = 0)%Z then set_refresh true (set_inflight n v) else set_inflight n v)
  else Raise (AssertionError "no mutation in flight").

Definition apply (mutation : VoiceMutation) (v : VoiceRoutingState) : res VoiceRoutingState :=
  if in_flight v then
    Ok (set_names (match vm_operation mutation with
                   | VoiceUpload => {[vm_name mutation]} ∪ _uploaded_names v
                   | VoiceDelete => _uploaded_names v ∖ {[vm_name mutation]}
                   end) v)
  else Raise (AssertionError "no mutation in flight").

(** [to_dict()["registry_state"]]. *)
Definition registry_state (workers : list Worker) (v : VoiceRoutingState) : string :=
  match owner workers v with
  | None => "unassigned"
  | Some _ =>
      if negb (_is_active v) then "inactive"
      else if bool_decide (_mutations_inflight v ≠ 0%Z) then "mutating"
      else if _is_reconciling v then (if _is_hydrated v then "refreshing" else "hydrating")
      else if negb (_is_hydrated v) then (match _last_refresh_error v with Some _ => "degraded" | None => "pending" end)
      else if _is_registry_dirty v then "degraded"
      else match _last_refresh_error v with Some _ => "stale" | None => "ready" end
  end.

Definition normalized_names (voice_names : list string) : gset string :=
  list_to_set (omap (λ n, _normalize_voice_name (PStr n)) voice_names).

Definition requires_owner (workers : list Worker) (voice_names : list string) (is_body_over_metadata_limit : bool)
    (v : VoiceRoutingState) : VoiceRoutingState * bool :=
  let '(v, o) := ensure_owner workers v in
  match o with
  | None => (v, false)
  | Some _ =>
      if is_body_over_metadata_limit then (v, true)
      else
        let names := normalized_names voice_names ∖ {[DEFAULT_VOICE_NAME]} in
        if bool_decide (names = ∅) then (v, false)
        else
          let v := activate v in
          if negb (_is_hydrated v) || _is_registry_dirty v || in_flight v then (request_refresh v, true)
          else (v, bool_decide (names ∩ _uploaded_names v ≠ ∅))
  end.

(** ** Reconciliation, cut at its fetch *)
Definition _reconcile_begin (workers : list Worker) (v : VoiceRoutingState) : VoiceRoutingState * (bool + Z) :=
  if in_flight v then (v, inl false)
  else match owner workers v with
       | Some w => if is_routable w then (set_reconciling true v, inr (_registry_generation v))
                   else (v, inl (negb (_is_hydrated v) || _is_registry_dirty v))
       | None => (v, inl (negb (_is_hydrated v) || _is_registry_dirty v))
       end.

Definition _reconcile_end (registry_generation : Z) (fetched : res (gset string)) (v : VoiceRoutingState) : VoiceRoutingState * bool :=
  match fetched with
  | Raise e => (set_reconciling false (set_error (Some (_registry_refresh_error e)) v), true)
  | Ok uploaded_names =>
      if bool_decide (_registry_generation v ≠ registry_generation) || in_flight v then (set_reconciling false v, true)
      else (mkVoice (_owner_url v) uploaded_names (_is_active v) true false false (_mutations_inflight v) None
              (_registry_generation v) (_refresh_requested v), false)
  end.

(** ** The worker of a request: [ProxyHandler._select_worker] *)
Inductive RouteKind := SPEECH | SPEECH_BATCH | VOICE_CONTROL | OTHER_ROUTE.
#[export] Instance RouteKind_eq_dec : EqDecision RouteKind.
Proof. solve_decision. Defined.

Record RouteMetadata := mkMetadata {
  rm_route_kind : RouteKind;
  rm_model : option string;
  rm_required_capabilities : list string;
  rm_voice_names : list string;
  rm_is_body_over_metadata_limit : bool;
}.

Definition is_speech (k : RouteKind) : bool := bool_decide (k = SPEECH ∨ k = SPEECH_BATCH).

Definition add_capability (c : string) (l : list string) : list string := if bool_decide (c ∈ l) then l else c :: l.

Definition _select_worker {R} `{Random R} (workers : list Worker) (md : RouteMetadata) (v : VoiceRoutingState) (sel : WorkerSelector R) :
    VoiceRoutingState * res (Worker * WorkerSelector R) :=
  let is_voice_control := bool_decide (rm_route_kind md = VOICE_CONTROL) in
  let v := if is_voice_control then activate v else v in
  let '(v, requires_voice_owner) :=
    if is_speech (rm_route_kind md) then requires_owner workers (rm_voice_names md) (rm_is_body_over_metadata_limit md) v else (v, false) in
  let required := if (requires_voice_owner : bool) then add_capability "audio_input" (rm_required_capabilities md)
                  else rm_required_capabilities md in
  if is_voice_control || requires_voice_owner then
    let '(v, o) := ensure_owner workers v in
    (v, w ← require_eligible_worker o required (rm_model md); mret (w, sel))
  else (v, select workers required (rm_model md) sel).

(** ** The router at work

    Mutations sent through the router, speech requests, changes of the worker pool
    and the reconciliation task, interleaved.  The owner's registry changes while a
    mutation is with the owner; with [late], a mutation whose outcome the router
    never learnt may also commit after the router ended it; [y_late] are the names the
    owner got that way. *)
Inductive mphase := MBegun | MSending | MDispatched | MSettled.
#[export] Instance mphase_eq_dec : EqDecision mphase.
Proof. solve_decision. Defined.

Definition at_owner (p : mphase) : Prop := p = MSending ∨ p = MDispatched.

Inductive vloop := LWait | LFetching (registry_generation : Z) (fetched : option (res (gset string))) | LRetry.

Record vsys := mkVsys {
  y_voice : VoiceRoutingState;
  y_workers : list Worker;
  y_registry : gset string;
  y_mutations : gmap nat mphase;
  y_loop : vloop;
  y_unknown : bool;
  y_late : gset string;
}.

Definition with_voice v y := mkVsys v (y_workers y) (y_registry y) (y_mutations y) (y_loop y) (y_unknown y) (y_late y).
Definition with_phase i p y := mkVsys (y_voice y) (y_workers y) (y_registry y) (<[i := p]> (y_mutations y)) (y_loop y) (y_unknown y) (y_late y).
Definition with_registry r y := mkVsys (y_voice y) (y_workers y) r (y_mutations y) (y_loop y) (y_unknown y) (y_late y).
Definition with_loop l y := mkVsys (y_voice y) (y_workers y) (y_registry y) (y_mutations y) l (y_unknown y) (y_late y).
Definition with_workers ws y := mkVsys (y_voice y) ws (y_registry y) (y_mutations y) (y_loop y) (y_unknown y) (y_late y).
Definition with_unknown y := mkVsys (y_voice y) (y_workers y) (y_registry y) (y_mutations y) (y_loop y) true (y_late y).
Definition without i y := mkVsys (y_voice y) (y_workers y) (y_registry y) (delete i (y_mutations y)) (y_loop y) (y_unknown y) (y_late y).
(** A commit the router no longer waits for. *)
Definition commit_late r y := mkVsys (y_voice y) (y_workers y) r (y_mutations y) (y_loop y) (y_unknown y) (y_late y ∪ r ∖ y_registry y).

Definition wake (y : vsys) : vsys :=
  let '(v, r) := _reconcile_begin (y_workers y) (set_refresh false (y_voice y)) in
  with_loop (match r with inl true => LRetry | inl false => LWait | inr generation => LFetching generation None end) (with_voice v y).

Definition reconciled (generation : Z) (r : res (gset string)) (y : vsys) : vsys :=
  let '(v, retry) := _reconcile_end generation r (y_voice y) in with_loop (if (retry : bool) then LRetry else LWait) (with_voice v y).

(** The pool keeps the owner: deleting it is refused. *)
Definition keeps_owner (v : VoiceRoutingState) (ws ws' : list Worker) : Prop :=
  is_Some (owner ws v) → is_Some (owner ws' v).

Section system.
Context (late : bool) (loads : string → option pyval).

Inductive vstep : vsys → vsys → Prop :=
| vs_begin i y : y_mutations y !! i = None → vstep y (with_phase i MBegun (with_voice (begin_mutation (y_voice y)) y))
| vs_forward i v w required model y : y_mutations y !! i = Some MBegun →
    ensure_owner (y_workers y) (activate (y_voice y)) = (v, Some w) → require_eligible_worker (Some w) required model = Ok w →
    vstep y (with_phase i MSending (with_voice v y))
| vs_refused i y : y_mutations y !! i = Some MBegun →
    vstep y (with_phase i MSettled (with_voice (ensure_owner (y_workers y) (activate (y_voice y))).1 y))
| vs_commit i p registry y : y_mutations y !! i = Some p → at_owner p → vstep y (with_registry registry y)
| vs_dispatched i v y : y_mutations y !! i = Some MSending → mark_mutation_dispatched (y_voice y) = Ok v →
    vstep y (with_phase i MDispatched (with_voice v y))
| vs_uncertain i p y : y_mutations y !! i = Some p → at_owner p →
    vstep y (with_unknown (with_phase i MSettled (with_voice (mark_uncertain (y_voice y)) y)))
| vs_committed i m v y : y_mutations y !! i = Some MDispatched → apply m (y_voice y) = Ok v →
    vstep y (with_phase i MSettled (with_voice v y))
| vs_rejected i y : y_mutations y !! i = Some MDispatched → vstep y (with_phase i MSettled y)
| vs_end i v y : y_mutations y !! i = Some MSettled → end_mutation (y_voice y) = Ok v → vstep y (without i (with_voice v y))
| vs_late registry y : late = true → y_unknown y = true → vstep y (commit_late registry y)
| vs_request names over y : vstep y (with_voice (requires_owner (y_workers y) names over (y_voice y)).1 y)
| vs_pool ws y : keeps_owner (y_voice y) (y_workers y) ws → vstep y (with_workers ws (with_voice (request_refresh (y_voice y)) y))
| vs_health ws y : keeps_owner (y_voice y) (y_workers y) ws → vstep y (with_workers ws y)
| vs_wake y : y_loop y = LWait → _refresh_requested (y_voice y) = true → vstep y (wake y)
| vs_listed generation status chunks names y : y_loop y = LFetching generation None →
    _fetch_uploaded_voice_names loads status chunks = Ok names → names = y_registry y →
    vstep y (with_loop (LFetching generation (Some (Ok names))) y)
| vs_fetch_failed generation e y : y_loop y = LFetching generation None → vstep y (with_loop (LFetching generation (Some (Raise e))) y)
| vs_reconciled generation r y : y_loop y = LFetching generation (Some r) → vstep y (reconciled generation r y)
| vs_timer y : y_loop y = LRetry → vstep y (with_voice (set_refresh true (y_voice y)) y)
| vs_retry y : y_loop y = LRetry → _refresh_requested (y_voice y) = true → vstep y (with_loop LWait y).

Definition vsys_init (owner_url : option string) (ws : list Worker) (registry : gset string) : vsys :=
  mkVsys (voice_init owner_url) ws registry ∅ LWait false ∅.

(** ** What the router believes *)
(** All names of the owner but those of late commits, and nothing else when there are none. *)
Definition knows (names : gset string) (y : vsys) : Prop := y_registry y ∖ y_late y ⊆ names ∧ (late = false → names = y_registry y).
Record voice_inv (y : vsys) : Prop := {
  vi_count : _mutations_inflight (y_voice y) = Z.of_nat (size (y_mutations y));
  vi_names : _is_hydrated (y_voice y) = true → _is_registry_dirty (y_voice y) = false →
    knows (_uploaded_names (y_voice y)) y ∨ ∃ i, y_mutations y !! i = Some MSending;
  vi_dirty : ∀ i, y_mutations y !! i = Some MDispatched → _is_registry_dirty (y_voice y) = true;
  vi_fetch : ∀ generation r, y_loop y = LFetching generation r →
    generation = _registry_generation (y_voice y) → y_mutations y = ∅ ∧ ∀ names, r = Some (Ok names) → knows names y;
  vi_generation : ∀ generation r, y_loop y = LFetching generation r → (generation ≤ _registry_generation (y_voice y))%Z;
  vi_reconciling : _is_reconciling (y_voice y) = true ↔ ∃ generation r, y_loop y = LFetching generation r;
  vi_active : _is_active (y_voice y) = false → y_mutations y = ∅ ∧ y_loop y = LWait ∧ _is_hydrated (y_voice y) = false ∧
    _refresh_requested (y_voice y) = false;
  vi_awake : y_loop y = LWait → _is_active (y_voice y) = true → y_mutations y = ∅ → _refresh_requested (y_voice y) = false →
    _is_hydrated (y_voice y) = true ∧ _is_registry_dirty (y_voice y) = false;
}.

(** A change of the routing state that leaves the registry's bookkeeping alone: the
    state may become active, and then asks for a refresh. *)
Record steady (v v' : VoiceRoutingState) : Prop := {
  st_names : _uploaded_names v' = _uploaded_names v;
  st_hydrated : _is_hydrated v' = _is_hydrated v;
  st_dirty : _is_registry_dirty v' = _is_registry_dirty v;
  st_reconciling : _is_reconciling v' = _is_reconciling v;
  st_inflight : _mutations_inflight v' = _mutations_inflight v;
  st_generation : _registry_generation v' = _registry_generation v;
  st_active : _is_active v = true → _is_active v' = true;
  st_refresh : _refresh_requested v = true → _refresh_requested v' = true;
  st_wakes : _is_active v = false → _is_active v' = true → _is_reconciling v = false → _refresh_requested v' = true;
  st_asks : _is_active v' = false → _refresh_requested v' = _refresh_requested v;
}.

Lemma steady_refl v : steady v v.
Proof. split; congruence. Qed.

Lemma steady_trans v1 v2 v3 : steady v1 v2 → steady v2 v3 → steady v1 v3.
Proof.
  intros [A1 A2 A3 A4 A5 A6 A7 A8 A9 A10] [B1 B2 B3 B4 B5 B6 B7 B8 B9 B10]. split; try congruence; auto.
  - intros H1 H2 H3. destruct (_is_active v2) eqn:E; [by apply B8, A9|by apply B9; congruence].
  - intros H1. rewrite B10 by done. apply A10. destruct (_is_active v2); [by rewrite B7 in H1|done].
Qed.

Lemma steady_request v : steady v (request_refresh v).
Proof. unfold request_refresh. destruct (_is_active v) eqn:E; simpl; [|apply steady_refl].
  destruct (negb _); [|apply steady_refl]. split; simpl; congruence. Qed.

Lemma steady_activate v : steady v (activate v).
Proof.
  unfold activate. destruct (_is_active v) eqn:E; [apply steady_refl|]. unfold request_refresh. simpl.
  destruct (_is_reconciling v) eqn:Er; split; simpl; congruence.
Qed.

Lemma steady_owner ws v : steady v (ensure_owner ws v).1.
Proof.
  unfold ensure_owner. destruct (owner ws v), (_owner_url v); try apply steady_refl.
  destruct (head _); [|apply steady_refl]. split; simpl; congruence.
Qed.

Lemma steady_requires ws names over v : steady v (requires_owner ws names over v).1.
Proof.
  unfold requires_owner. pose proof (steady_owner ws v) as Ho. destruct (ensure_owner ws v) as [v1 o]. simpl in Ho.
  destruct o; [|done]. destruct over; [done|]. case_bool_decide; [done|].
  assert (steady v (activate v1)) as Ha by (eapply steady_trans; [exact Ho|apply steady_activate]).
  destruct (_ || _); [|done]. eapply steady_trans; [exact Ha|apply steady_request].
Qed.

Lemma steady_select {R} `{Random R} ws md v (sel : WorkerSelector R) : steady v (_select_worker ws md v sel).1.
Proof.
  unfold _select_worker. set (v0 := if bool_decide _ then activate v else v).
  assert (steady v v0) as H0 by (unfold v0; case_bool_decide; [apply steady_activate|apply steady_refl]).
  pose proof (steady_requires ws (rm_voice_names md) (rm_is_body_over_metadata_limit md) v0) as H1.
  destruct (is_speech (rm_route_kind md)).
  - destruct (requires_owner ws _ _ v0) as [v1 b]. simpl in H1. pose proof (steady_owner ws v1) as H2.
    destruct (_ || b); [destruct (ensure_owner ws v1)|]; simpl in *; eauto using steady_trans.
  - pose proof (steady_owner ws v0) as H2. destruct (_ || false); [destruct (ensure_owner ws v0)|]; simpl in *; eauto using steady_trans.
Qed.

Lemma inv_steady y v : voice_inv y → steady (y_voice y) v → voice_inv (with_voice v y).
Proof.
  intros [I1 I2 I3 I4 I5 I6 I7 I8] [S1 S2 S3 S4 S5 S6 S7 S8 S9 S10]. split; simpl; try (rewrite ?S1, ?S2, ?S3, ?S4, ?S5, ?S6; done).
  - intros Ha. rewrite S2, S10 by done. apply I7. destruct (_is_active (y_voice y)); [by rewrite S7 in Ha|done].
  - rewrite S2, S3. intros Hl Ha Hm Hr. destruct (_is_active (y_voice y)) eqn:E.
    + apply I8; try done. destruct (_refresh_requested (y_voice y)); [by rewrite S8 in Hr|done].
    + exfalso. rewrite S9 in Hr; [done..|]. destruct (_is_reconciling (y_voice y)); [|done].
      destruct (proj1 I6 eq_refl) as (g & r & Hg). congruence.
Qed.

(** Mutations that are with the router are active, counted and not yet ended. *)
Lemma inflight_some y i p : voice_inv y → y_mutations y !! i = Some p →
  in_flight (y_voice y) = true ∧ _is_active (y_voice y) = true ∧
  ∀ generation r, y_loop y = LFetching generation r → generation ≠ _registry_generation (y_voice y).
Proof.
  intros Hi Hp. split; [|split].
  - unfold in_flight. rewrite (vi_count _ Hi). apply bool_decide_eq_true. destruct (decide (y_mutations y = ∅)) as [He|He]; [by rewrite He in Hp|].
    apply map_size_non_empty_iff in He. lia.
  - destruct (_is_active (y_voice y)) eqn:E; [done|]. destruct (vi_active _ Hi E) as [He _]. by rewrite He in Hp.
  - intros g r Hl Hg. destruct (vi_fetch _ Hi g r Hl Hg) as [He _]. by rewrite He in Hp.
Qed.

Lemma inv_phase y i p q : voice_inv y → y_mutations y !! i = Some p →
  (p ≠ MSending ∨ q = MSending ∨ _is_registry_dirty (y_voice y) = true) →
  (q = MDispatched → _is_registry_dirty (y_voice y) = true) → voice_inv (with_phase i q y).
Proof.
  intros Hi Hp Hpq Hq. destruct (inflight_some y i p Hi Hp) as (_ & Ha & Hg). destruct Hi as [I1 I2 I3 I4 I5 I6 I7 I8].
  assert (∀ x : mphase, <[i := x]> (y_mutations y) ≠ ∅) as Hne by (intros x; apply insert_non_empty).
  split; simpl; try done.
  - rewrite map_size_insert_Some; [done|by exists p].
  - intros Hh Hd. destruct (I2 Hh Hd) as [?|[k Hk]]; [by left|right].
    destruct (decide (k = i)) as [->|Hki]; [|exists k; by rewrite lookup_insert_ne].
    exists i. rewrite lookup_insert_eq. destruct Hpq as [?|[->|?]]; congruence.
  - intros k [[<- ->]|[_ Hk]]%lookup_insert_Some; [by apply Hq|by eapply I3].
  - intros g r Hl Hgen. by destruct (Hg g r Hl).
  - intros ?. congruence.
  - intros _ _ He. by destruct (Hne q).
Qed.

Lemma inv_begin y i : voice_inv y → y_mutations y !! i = None → voice_inv (with_phase i MBegun (with_voice (begin_mutation (y_voice y)) y)).
Proof.
  intros [I1 I2 I3 I4 I5 I6 I7 I8] Hi. split; simpl; try done.
  - rewrite map_size_insert_None by done. lia.
  - intros Hh Hd. destruct (I2 Hh Hd) as [?|[k Hk]]; [by left|right]. exists k. rewrite lookup_insert_ne; [done|]. by intros ->; congruence.
  - intros k [[_ ?]|[_ Hk]]%lookup_insert_Some; [done|by eapply I3].
  - intros g r Hl Hg. specialize (I5 g r Hl). lia.
  - intros g r Hl. specialize (I5 g r Hl). lia.
  - intros _ _ He. by destruct (insert_non_empty (y_mutations y) i MBegun).
Qed.

(** The router marks its names as doubtful while a mutation is with it. *)
Lemma inv_dirty y i p : voice_inv y → y_mutations y !! i = Some p → voice_inv (with_voice (set_dirty (y_voice y)) y).
Proof.
  intros Hi Hp. destruct Hi as [I1 I2 I3 I4 I5 I6 I7 I8]. split; simpl; try done.
  intros _ _ He. by rewrite He in Hp.
Qed.

Lemma inv_uncertain y i p : voice_inv y → y_mutations y !! i = Some p → voice_inv (with_voice (mark_uncertain (y_voice y)) y).
Proof. intros Hi Hp. destruct Hi as [I1 I2 I3 I4 I5 I6 I7 I8]. split; simpl; try done. Qed.

Lemma inv_registry y registry i p :
  voice_inv y → y_mutations y !! i = Some p → at_owner p → voice_inv (with_registry registry y).
Proof.
  intros Hi Hp Hat. destruct (inflight_some y i p Hi Hp) as (_ & _ & Hg). destruct Hi as [I1 I2 I3 I4 I5 I6 I7 I8]. split; simpl; try done.
  - intros Hh Hd. right. exists i. destruct Hat as [->| ->]; [done|]. by rewrite (I3 i Hp) in Hd.
  - intros g r Hl Hgen. by destruct (Hg g r Hl).
Qed.

Lemma inv_late y registry : late = true → voice_inv y → voice_inv (commit_late registry y).
Proof.
  intros Hlate [I1 I2 I3 I4 I5 I6 I7 I8]. assert (Hk : ∀ names, knows names y → knows names (commit_late registry y)).
  { intros names [Hs _]. split; [|congruence]. intros x [Hx Hn]%elem_of_difference. simpl in Hx, Hn. apply Hs.
    apply elem_of_difference. split; [|set_solver]. destruct (decide (x ∈ y_registry y)); [done|]. set_solver. }
  split; simpl; try done.
  - intros Hh Hd. destruct (I2 Hh Hd) as [?|?]; [left; by apply Hk|by right].
  - intros g r Hl Hg. destruct (I4 g r Hl Hg) as [He Hn]. split; [done|]. intros names Hr. by apply Hk, Hn.
Qed.

Lemma inv_apply y i m v : voice_inv y → y_mutations y !! i = Some MDispatched → apply m (y_voice y) = Ok v → voice_inv (with_voice v y).
Proof.
  intros Hi Hp Ha. destruct Hi as [I1 I2 I3 I4 I5 I6 I7 I8]. unfold apply in Ha. destruct (in_flight (y_voice y)); [|done].
  injection Ha as <-. split; simpl; try done. intros _ Hd. by rewrite (I3 i Hp) in Hd.
Qed.

Lemma inv_end y i v : voice_inv y → y_mutations y !! i = Some MSettled → end_mutation (y_voice y) = Ok v → voice_inv (without i (with_voice v y)).
Proof.
  intros Hi Hp He. destruct (inflight_some y i _ Hi Hp) as (Hf & Ha & Hg). destruct Hi as [I1 I2 I3 I4 I5 I6 I7 I8].
  unfold end_mutation in He. rewrite Hf in He. simpl in He.
  assert (size (y_mutations y) = S (size (delete i (y_mutations y)))) as Hs.
  { rewrite map_size_delete_Some; [|by exists MSettled]. destruct (decide (size (y_mutations y) = 0)) as [Hz|]; [|lia].
    apply map_size_empty_iff in Hz. by rewrite Hz in Hp. }
  assert (∀ j q, q ≠ MSettled → y_mutations y !! j = Some q → delete i (y_mutations y) !! j = Some q) as Hkeep.
  { intros j q Hq Hj. rewrite lookup_delete_ne; [done|]. intros ->. congruence. }
  assert (delete i (y_mutations y) = ∅ → (_mutations_inflight (y_voice y) - 1)%Z = 0%Z) as Hlast.
  { intros Hz. apply map_size_empty_iff in Hz. lia. }
  case_bool_decide as Hn; injection He as <-; split; simpl; try done.
  - lia.
  - intros Hh Hd. destruct (I2 Hh Hd) as [?|[k Hk]]; [by left|right; exists k; by apply Hkeep].
  - intros k [_ Hk]%lookup_delete_Some. by eapply I3.
  - intros g r Hl Hgen. by destruct (Hg g r Hl).
  - intros Hx. congruence.
  - lia.
  - intros Hh Hd. destruct (I2 Hh Hd) as [?|[k Hk]]; [by left|right; exists k; by apply Hkeep].
  - intros k [_ Hk]%lookup_delete_Some. by eapply I3.
  - intros g r Hl Hgen. by destruct (Hg g r Hl).
  - intros Hx. congruence.
  - intros _ _ Hz. by apply Hlast in Hz.
Qed.

Lemma inv_wake y : voice_inv y → y_loop y = LWait → _refresh_requested (y_voice y) = true → _is_active (y_voice y) = true →
  voice_inv (wake y).
Proof.
  intros [I1 I2 I3 I4 I5 I6 I7 I8] Hl Hr Ha. unfold wake, _reconcile_begin, in_flight.
  cbn [set_refresh _mutations_inflight]. assert (∀ g r, y_loop y ≠ LFetching g r) as Hnf by (intros g r; by rewrite Hl).
  assert (_is_reconciling (y_voice y) = false) as Hnr.
  { destruct (_is_reconciling (y_voice y)); [|done]. destruct (proj1 I6 eq_refl) as (g & r & Hg). by destruct (Hnf g r). }
  change (owner (y_workers y) (set_refresh false (y_voice y))) with (owner (y_workers y) (y_voice y)).
  case_bool_decide as Hn.
  - split; simpl; try done; [split; [by rewrite Hnr|by intros (? & ? & ?)]|by rewrite Ha|].
    intros _ _ He _. rewrite He, map_size_empty in I1. lia.
  - assert (y_mutations y = ∅) as He by (apply map_size_empty_iff; lia).
    assert (∀ b : bool, b = negb (_is_hydrated (y_voice y)) || _is_registry_dirty (y_voice y) →
      voice_inv (with_loop (if b then LRetry else LWait) (with_voice (set_refresh false (y_voice y)) y))) as Hidle.
    { intros b Hb. split; simpl; try done; try (by destruct b).
      - rewrite Hnr. split; [done|]. intros (g & r & Hg). by destruct b.
      - by rewrite Ha.
      - destruct b; [done|]. intros _ _ _ _. by destruct (_is_hydrated (y_voice y)), (_is_registry_dirty (y_voice y)). }
    destruct (owner (y_workers y) (y_voice y)) as [w|].
    + destruct (is_routable w).
      * split; simpl; try done; [by intros g r [= <- <-]|by intros g r [= <- <-]|split; [by eauto|done]|by rewrite Ha].
      * specialize (Hidle _ eq_refl). cbn [set_refresh _is_hydrated _is_registry_dirty]. by destruct (_ || _).
    + specialize (Hidle _ eq_refl). cbn [set_refresh _is_hydrated _is_registry_dirty]. by destruct (_ || _).
Qed.

Lemma inv_reconciled y g r : voice_inv y → y_loop y = LFetching g (Some r) → voice_inv (reconciled g r y).
Proof.
  intros [I1 I2 I3 I4 I5 I6 I7 I8] Hl. assert (_is_active (y_voice y) = true) as Ha.
  { destruct (_is_active (y_voice y)); [done|]. destruct (I7 eq_refl) as (_ & Hw & _ & _). congruence. }
  unfold reconciled, _reconcile_end. destruct r as [names|e].
  - destruct (bool_decide _ || in_flight _) eqn:E.
    + split; simpl; try done; [split; [done|by intros (? & ? & ?)]|by rewrite Ha].
    + apply orb_false_iff in E as [Hg Hf]. apply bool_decide_eq_false in Hg. apply dec_stable in Hg.
      destruct (I4 g _ Hl (eq_sym Hg)) as [He Hn].
      split; simpl; try done; [intros _ _; left; by apply Hn|by rewrite He|split; [done|by intros (? & ? & ?)]|by rewrite Ha].
  - split; simpl; try done; [split; [done|by intros (? & ? & ?)]|by rewrite Ha].
Qed.

Lemma vstep_inv y y' : voice_inv y → vstep y y' → voice_inv y'.
Proof.
  intros Hi Hs. destruct Hs as [i y Hp|i v w rq md y Hp Hen Hreq|i y Hp|i p reg y Hp Hat|i v y Hp Hd|i p y Hp Hat|i m v y Hp Ha|
    i y Hp|i v y Hp He|reg y Hl|names over y|ws y Hk|ws y Hk|y Hl Hr|g status chunks names y Hl Hf Hn|g e y Hl|g r y Hl|y Hl|y Hl Hr].
  - by apply inv_begin.
  - assert (steady (y_voice y) v) as Hst.
    { eapply steady_trans; [apply steady_activate|]. pose proof (steady_owner (y_workers y) (activate (y_voice y))) as Ho. by rewrite Hen in Ho. }
    eapply inv_phase; [by apply inv_steady|exact Hp|by left|done].
  - eapply inv_phase; [apply inv_steady; [done|eapply steady_trans; [apply steady_activate|apply steady_owner]]|exact Hp|by left|done].
  - by eapply inv_registry.
  - unfold mark_mutation_dispatched in Hd. destruct (in_flight _); [|done]. injection Hd as <-.
    eapply inv_phase; [by eapply inv_dirty|exact Hp|by right; right|done].
  - assert (voice_inv (with_phase i MSettled (with_voice (mark_uncertain (y_voice y)) y))) as [I1 I2 I3 I4 I5 I6 I7 I8].
    { eapply inv_phase; [by eapply inv_uncertain|exact Hp|by right; right|done]. }
    by split.
  - assert (_is_registry_dirty (y_voice y) = true) as Hd by by eapply vi_dirty.
    eapply inv_phase; [by eapply inv_apply|exact Hp|by left|done].
  - eapply inv_phase; [done|exact Hp|by left|done].
  - by eapply inv_end.
  - by apply inv_late.
  - apply inv_steady; [done|apply steady_requires].
  - assert (voice_inv (with_voice (request_refresh (y_voice y)) y)) as [I1 I2 I3 I4 I5 I6 I7 I8] by (apply inv_steady; [done|apply steady_request]).
    by split.
  - destruct Hi as [I1 I2 I3 I4 I5 I6 I7 I8]. by split.
  - apply inv_wake; try done. destruct (_is_active (y_voice y)) eqn:E; [done|]. destruct (vi_active _ Hi E) as (_ & _ & _ & Hx). congruence.
  - destruct Hi as [I1 I2 I3 I4 I5 I6 I7 I8]. split; simpl; try done.
    + intros g' r [= <- <-] Hg. destruct (I4 g _ Hl Hg) as [He _]. split; [done|]. intros n [= <-]. subst. split; [|done]. intros x [Hx _]%elem_of_difference. exact Hx.
    + intros g' r [= <- <-]. by eapply I5.
    + rewrite I6. split; intros _; [by eauto|by eauto].
    + intros Ha. destruct (I7 Ha) as (_ & Hw & _ & _). congruence.
  - destruct Hi as [I1 I2 I3 I4 I5 I6 I7 I8]. split; simpl; try done.
    + intros g' r [= <- <-] Hg. destruct (I4 g _ Hl Hg) as [He _]. by split.
    + intros g' r [= <- <-]. by eapply I5.
    + rewrite I6. split; intros _; [by eauto|by eauto].
    + intros Ha. destruct (I7 Ha) as (_ & Hw & _ & _). congruence.
  - by apply inv_reconciled.
  - destruct Hi as [I1 I2 I3 I4 I5 I6 I7 I8]. split; simpl; try done.
    intros Ha. destruct (I7 Ha) as (_ & Hw & _ & _). congruence.
  - destruct Hi as [I1 I2 I3 I4 I5 I6 I7 I8]. split; simpl; try done.
    + rewrite I6. split; [|by intros (? & ? & ?)]. intros (? & ? & ?). congruence.
    + intros Ha. destruct (I7 Ha) as (_ & Hw & _ & _). congruence.
    + congruence.
Qed.

Lemma reachable_voice_inv o ws reg y : rtc vstep (vsys_init o ws reg) y → voice_inv y.
Proof.
  intros Hr. refine (rtc_ind_r voice_inv _ _ _ _ Hr).
  - split; simpl; try done. split; [done|]. by intros (? & ? & ?).
  - intros x z _ Hxz Hx. by eapply vstep_inv.
Qed.

Lemma owner_has_url ws v w : owner ws v = Some w → _owner_url v = Some (w_url w).
Proof.
  unfold owner. destruct (_owner_url v) as [url|]; [|done]. intros Hh. apply head_Some_elem_of, list_elem_of_filter in Hh as [Hu _].
  by apply bool_decide_unpack in Hu as ->.
Qed.

Lemma ensure_owner_url ws v v' w : ensure_owner ws v = (v', Some w) → _owner_url v' = Some (w_url w).
Proof.
  unfold ensure_owner. destruct (owner ws v) as [w0|] eqn:E.
  - intros [= <- <-]. by eapply owner_has_url.
  - destruct (_owner_url v); [done|]. destruct (head _); [|done]. by intros [= <- <-].
Qed.

Lemma ensure_owner_kept ws v w : _owner_url v = Some (w_url w) → ∀ w', (ensure_owner ws v).2 = Some w' → w_url w' = w_url w.
Proof.
  intros Hu w'. unfold ensure_owner. destruct (owner ws v) as [w0|] eqn:E; [|by rewrite Hu].
  simpl. intros [= <-]. apply owner_has_url in E. congruence.
Qed.

Lemma activate_owner v : _owner_url (activate v) = _owner_url v.
Proof. unfold activate, request_refresh. destruct (_is_active v); [done|]. simpl. by destruct (negb _). Qed.

Lemma request_refresh_owner v : _owner_url (request_refresh v) = _owner_url v.
Proof. unfold request_refresh. by destruct (_ && _). Qed.

Lemma requires_owner_url ws names over v v' b w :
  requires_owner ws names over v = (v', b) → (ensure_owner ws v).2 = Some w → _owner_url v' = Some (w_url w).
Proof.
  unfold requires_owner. destruct (ensure_owner ws v) as [v1 o] eqn:E. simpl. intros Hr ->. apply ensure_owner_url in E.
  destruct over; [by injection Hr as <- <-|]. case_bool_decide; [by injection Hr as <- <-|].
  destruct (_ || _); injection Hr as <- <-; [rewrite request_refresh_owner|]; by rewrite activate_owner.
Qed.

(** A voice the owner has is looked for there. *)
Lemma known_voice_requires_owner y names n name over w :
  voice_inv y → n ∈ names → _normalize_voice_name (PStr n) = Some name → name ∈ y_registry y → name ∉ y_late y → name ≠ DEFAULT_VOICE_NAME →
  (ensure_owner (y_workers y) (y_voice y)).2 = Some w → (requires_owner (y_workers y) names over (y_voice y)).2 = true.
Proof.
  intros Hi Hn Hname Hreg Hlate Hdef Ho. unfold requires_owner. pose proof (steady_owner (y_workers y) (y_voice y)) as Hs.
  destruct (ensure_owner (y_workers y) (y_voice y)) as [v1 o]. simpl in Ho, Hs. subst o. destruct over; [done|].
  assert (name ∈ normalized_names names ∖ {[DEFAULT_VOICE_NAME]}) as Hin.
  { apply elem_of_difference. split; [|set_solver]. apply elem_of_list_to_set, list_elem_of_omap. by exists n. }
  rewrite bool_decide_false by set_solver.
  assert (steady (y_voice y) (activate v1)) as Ha by (eapply steady_trans; [exact Hs|apply steady_activate]).
  destruct (negb (_is_hydrated (activate v1)) || _is_registry_dirty (activate v1) || in_flight (activate v1)) eqn:E; [done|].
  simpl. apply bool_decide_eq_true. rewrite (st_names _ _ Ha).
  apply orb_false_iff in E as [[Hh Hd]%orb_false_iff Hf]. rewrite (st_hydrated _ _ Ha) in Hh. rewrite (st_dirty _ _ Ha) in Hd.
  apply negb_false_iff in Hh. destruct (vi_names _ Hi Hh Hd) as [[Hk _]|[i Hm]]; [set_solver|].
  destruct (inflight_some _ _ _ Hi Hm) as [Hfl _]. unfold in_flight in *. rewrite (st_inflight _ _ Ha) in Hf. congruence.
Qed.

Lemma require_eligible_same o required model w : require_eligible_worker o required model = Ok w → o = Some w.
Proof.
  unfold require_eligible_worker. destruct (eligible_workers _ _ _) as [|x l] eqn:E; [done|]. intros [= <-].
  assert (x ∈ eligible_workers (option_list o) required model) as Hx by (rewrite E; left).
  apply eligible_routable in Hx as [Hx _]. destruct o as [z|]; simpl in Hx; [|by apply elem_of_nil in Hx].
  apply list_elem_of_singleton in Hx. congruence.
Qed.

(** C35. A request that names an uploaded voice is never sent to a worker without it:
    in every reachable state, for every voice the owner has, selection for a speech
    request gives the owner or no worker, and leaves the load balancer alone.  This
    holds while mutations are in flight, after uncertain ones, during a refresh and
    before the first.  Two names are excepted: the built-in voice, which is not
    uploaded, and a name the owner got from a mutation that committed after the
    router had given up on its answer and ended it ([late_commit_is_missed]). *)
Theorem uploaded_voice_goes_to_owner {R} `{Random R} owner_url ws reg y md n name w (sel : WorkerSelector R) :
  rtc vstep (vsys_init owner_url ws reg) y →
  is_speech (rm_route_kind md) = true → n ∈ rm_voice_names md →
  _normalize_voice_name (PStr n) = Some name → name ∈ y_registry y → name ∉ y_late y → name ≠ DEFAULT_VOICE_NAME →
  (ensure_owner (y_workers y) (y_voice y)).2 = Some w →
  match (_select_worker (y_workers y) md (y_voice y) sel).2 with
  | Ok (chosen, sel') => w_url chosen = w_url w ∧ sel' = sel
  | Raise e => e = NoEligibleWorkerError
  end.
Proof.
  intros Hi%reachable_voice_inv Hsp Hn Hname Hreg Hlate Hdef Ho. unfold _select_worker.
  assert (bool_decide (rm_route_kind md = VOICE_CONTROL) = false) as ->.
  { apply bool_decide_eq_false. intros Hk. unfold is_speech in Hsp. rewrite Hk in Hsp. done. }
  rewrite Hsp. pose proof (known_voice_requires_owner y _ n name (rm_is_body_over_metadata_limit md) w Hi Hn Hname Hreg Hlate Hdef Ho) as Hreq.
  destruct (requires_owner (y_workers y) (rm_voice_names md) _ (y_voice y)) as [v b] eqn:E. simpl in Hreq. subst b.
  apply (requires_owner_url _ _ _ _ _ _ w) in E; [|done]. pose proof (ensure_owner_kept (y_workers y) v w E) as Hk.
  simpl. destruct (ensure_owner (y_workers y) v) as [v2 o]. simpl in *.
  destruct (require_eligible_worker o _ _) as [w'|e] eqn:Eq; simpl.
  - apply require_eligible_same in Eq. split; [by apply Hk|done].
  - unfold require_eligible_worker in Eq. by destruct (eligible_workers _ _ _); simplify_eq.
Qed.

(** The reconciliation task never sleeps on stale names: whenever it waits with no
    refresh requested and no mutation in flight, an active router knows exactly the
    owner's voices; and no assertion of the mutation protocol can fail. *)
Theorem reconciliation_never_sleeps_stale owner_url ws reg y :
  late = false → rtc vstep (vsys_init owner_url ws reg) y →
  (y_loop y = LWait → _is_active (y_voice y) = true → y_mutations y = ∅ → _refresh_requested (y_voice y) = false →
    _uploaded_names (y_voice y) = y_registry y ∧ _is_hydrated (y_voice y) = true ∧ _is_registry_dirty (y_voice y) = false) ∧
  (registry_state (y_workers y) (y_voice y) = "ready" → _uploaded_names (y_voice y) = y_registry y) ∧
  (∀ i p m, y_mutations y !! i = Some p → is_ok (mark_mutation_dispatched (y_voice y)) = true ∧
    is_ok (end_mutation (y_voice y)) = true ∧ is_ok (apply m (y_voice y)) = true).
Proof.
  intros Hlate Hi%reachable_voice_inv.
  assert (y_mutations y = ∅ → _is_hydrated (y_voice y) = true → _is_registry_dirty (y_voice y) = false →
    _uploaded_names (y_voice y) = y_registry y) as Hexact.
  { intros He Hh Hd. destruct (vi_names _ Hi Hh Hd) as [[_ Hk]|[i Hm]]; [by apply Hk|]. by rewrite He in Hm. }
  split_and!.
  - intros Hl Ha Hm Hr. destruct (vi_awake _ Hi Hl Ha Hm Hr) as [Hh Hd]. split_and!; [by apply Hexact|done|done].
  - unfold registry_state. destruct (owner _ _); [|done]. destruct (_is_active (y_voice y)); [|done]. simpl.
    case_bool_decide as Hm; [done|]. rewrite (vi_count _ Hi) in Hm.
    destruct (_is_reconciling (y_voice y)); [by destruct (_is_hydrated (y_voice y))|].
    destruct (_is_hydrated (y_voice y)) eqn:Eh; [|by destruct (_last_refresh_error (y_voice y))]. simpl.
    destruct (_is_registry_dirty (y_voice y)) eqn:Ed; [done|]. intros _. apply Hexact; [|done|done]. apply map_size_empty_iff. lia.
  - intros i p m Hp. destruct (inflight_some _ _ _ Hi Hp) as [Hf _].
    unfold mark_mutation_dispatched, end_mutation, apply. rewrite Hf. by case_bool_decide.
Qed.
End system.

(** ** Runs with one worker that lists its voices *)
Definition demo_worker : Worker :=
  mkWorker (mkWorkerConfig "http://w" None {["speech"; "audio_input"]}) "w" "i" 0 0 HEALTHY false 0 0 0 0 0 [] [] [] None None None.
Definition demo_list (names : list string) : string → option pyval :=
  λ _, Some (PDict [("uploaded_voice_names", PList (map PStr names))]).
Definition demo_start : vsys := vsys_init (Some "http://w") [demo_worker] ∅.
Definition speech_for (voice : string) : RouteMetadata := mkMetadata SPEECH None ["speech"] [voice] false.

#[local] Instance demo_random : Random unit := λ _ r, (0, r).
Definition demo_selector : WorkerSelector unit := mkSelector "round_robin" 0 tt.

Lemma vstep_to late loads y z z' : vstep late loads y z → z = z' → vstep late loads y z'.
Proof. by intros ? <-. Qed.
Ltac v_step c := eapply rtc_l; [eapply vstep_to; [c; vm_compute; try reflexivity|vm_compute; reflexivity]|].

(** An upload whose response is lost: its commit is seen, because the names stay doubtful. *)
Lemma demo_uncertain : ∃ y, rtc (vstep false (demo_list [])) demo_start y ∧
  "nova" ∈ y_registry y ∧ y_loop y = LWait ∧ (ensure_owner (y_workers y) (y_voice y)).2 = Some demo_worker.
Proof.
  eexists. split.
  - v_step ltac:(apply (vs_begin _ _ 0)). v_step ltac:(eapply (vs_forward _ _ 0 _ _ [] None)).
    v_step ltac:(apply (vs_commit _ _ 0 MSending {["nova"]}); [|left]).
    v_step ltac:(apply (vs_uncertain _ _ 0 MSending); [|left]).
    v_step ltac:(eapply (vs_end _ _ 0)). apply rtc_refl.
  - split_and!; vm_compute; reflexivity.
Qed.

(** With late commits: one of them gave the owner "echo"; the voice "nova" is still safe. *)
Lemma demo_late : ∃ y, rtc (vstep true (demo_list [])) demo_start y ∧ "nova" ∈ y_registry y ∧ "nova" ∉ y_late y ∧ y_late y = {["echo"]} ∧
  (ensure_owner (y_workers y) (y_voice y)).2 = Some demo_worker.
Proof.
  eexists. split.
  - v_step ltac:(apply (vs_begin _ _ 0)). v_step ltac:(eapply (vs_forward _ _ 0 _ _ [] None)).
    v_step ltac:(apply (vs_commit _ _ 0 MSending {["nova"]}); [|left]).
    v_step ltac:(apply (vs_uncertain _ _ 0 MSending); [|left]).
    v_step ltac:(eapply (vs_end _ _ 0)). v_step ltac:(apply (vs_late _ _ {["nova"; "echo"]})). apply rtc_refl.
  - split_and!; try (vm_compute; reflexivity); apply (bool_decide_eq_true_1 _); vm_compute; reflexivity.
Qed.

Lemma uploaded_voice_goes_to_owner_witness : ∃ y, rtc (vstep true (demo_list [])) demo_start y ∧ y_late y = {["echo"]} ∧
  match (_select_worker (y_workers y) (speech_for " Nova ") (y_voice y) demo_selector).2 with
  | Ok (chosen, sel') => w_url chosen = "http://w" ∧ sel' = demo_selector
  | Raise e => e = NoEligibleWorkerError
  end.
Proof.
  destruct demo_late as (y & Hr & Hn & Hl & El & Ho). exists y. split; [exact Hr|]. split; [exact El|].
  apply (uploaded_voice_goes_to_owner true (demo_list []) (Some "http://w") [demo_worker] ∅ y (speech_for " Nova ") " Nova " "nova"
    demo_worker demo_selector Hr); [reflexivity|by left|reflexivity|exact Hn|exact Hl|by vm_compute|exact Ho].
Defined.

Lemma demo_reconciled : ∃ y, rtc (vstep false (demo_list ["nova"])) demo_start y ∧ y_loop y = LWait ∧ _is_active (y_voice y) = true ∧
  y_mutations y = ∅ ∧ _refresh_requested (y_voice y) = false ∧ y_registry y = {["nova"]}.
Proof.
  eexists. split.
  - v_step ltac:(apply (vs_begin _ _ 0)). v_step ltac:(eapply (vs_forward _ _ 0 _ _ [] None)).
    v_step ltac:(apply (vs_commit _ _ 0 MSending {["nova"]}); [|left]).
    v_step ltac:(eapply (vs_dispatched _ _ 0)). v_step ltac:(eapply (vs_committed _ _ 0 (mkMutation VoiceUpload "nova"))).
    v_step ltac:(eapply (vs_end _ _ 0)). v_step ltac:(apply vs_wake).
    v_step ltac:(eapply (vs_listed _ _ 1 200 [])). v_step ltac:(eapply vs_reconciled). apply rtc_refl.
  - split_and!; vm_compute; reflexivity.
Qed.

Lemma reconciliation_never_sleeps_stale_witness : ∃ y, rtc (vstep false (demo_list ["nova"])) demo_start y ∧
  _uploaded_names (y_voice y) = {["nova"]}.
Proof.
  destruct demo_reconciled as (y & Hr & Hl & Ha & Hm & Hf & Hreg). exists y. split; [exact Hr|].
  destruct (reconciliation_never_sleeps_stale false (demo_list ["nova"]) (Some "http://w") [demo_worker] ∅ y eq_refl Hr) as [Hex _].
  destruct (Hex Hl Ha Hm Hf) as [-> _]. exact Hreg.
Defined.

(** An upload that outlives its request is missed: the router ends a mutation whose
    response it lost, reconciles with an owner that has not committed yet, and is ready;
    when the owner then commits, no refresh is asked for, and a request for the voice is
    not required to go to the owner. *)
Theorem late_commit_is_missed : ∃ y, rtc (vstep true (demo_list [])) demo_start y ∧
  "nova" ∈ y_registry y ∧ registry_state (y_workers y) (y_voice y) = "ready" ∧ y_loop y = LWait ∧
  _refresh_requested (y_voice y) = false ∧ (requires_owner (y_workers y) ["nova"] false (y_voice y)).2 = false.
Proof.
  eexists. split.
  - v_step ltac:(apply (vs_begin _ _ 0)). v_step ltac:(eapply (vs_forward _ _ 0 _ _ [] None)).
    v_step ltac:(apply (vs_uncertain _ _ 0 MSending); [|left]).
    v_step ltac:(eapply (vs_end _ _ 0)). v_step ltac:(apply vs_wake).
    v_step ltac:(eapply (vs_listed _ _ 1 200 [])). v_step ltac:(eapply vs_reconciled).
    v_step ltac:(apply (vs_late _ _ {["nova"]})). apply rtc_refl.
  - split_and!; vm_compute; reflexivity.
Qed.
