(* ===== verification/CounterLedger.v ===== *)
(** * The control plane's counter ledger

    Models [sglang_omni_router/python/observability.py].  A data plane's segments,
    nested dicts in the source, are keyed by worker id and incarnation at once;
    the fixed counter keys are a type; times are integers. *)
From S2P Require Import Prelude.

Inductive counter_key := routed_total | successful_total | failed_total.

Record WorkerCounters := mkCounters {
  wc_worker_id : string;
  wc_incarnation : string;
  wc_total : counter_key → Z;
  wc_current_active : Z;
  wc_by_class : counter_key → gmap string Z;
}.

Record CounterReport := mkReport {
  cr_dp_index : Z; cr_generation : Z; cr_counter_seq : Z; cr_workers : list WorkerCounters }.

Record WorkerLedger := mkWorkerLedger {
  baseline : counter_key → Z;
  high_water : counter_key → Z;
  class_baseline : counter_key → gmap string Z;
  class_high_water : counter_key → gmap string Z;
  current_active : Z;
}.

Definition contribution (l : WorkerLedger) (key : counter_key) : Z :=
  Z.max 0 (high_water l key - baseline l key).
Definition class_contributions (l : WorkerLedger) (key : counter_key) : gmap string Z :=
  map_imap (λ c v, Some (Z.max 0 (v - default 0%Z (class_baseline l key !! c)))) (class_high_water l key).

Abbreviation segments := (gmap (string * string) WorkerLedger).

Record LedgerEntry := mkEntry {
  le_generation : Z; le_counter_seq : Z; le_reported_at : Z; le_per_worker : segments }.

Record Ledger := mkLedger {
  entries : gmap Z LedgerEntry;
  retired : gmap string (counter_key → Z);
  retired_by_class : gmap string (counter_key → gmap string Z);
  seen_dps : gset Z;
  liveness : Z;
}.

Definition ledger_init (liveness_secs : Z) : Ledger := mkLedger ∅ ∅ ∅ ∅ liveness_secs.

Definition _add_counter_maps (target source : gmap string Z) : gmap string Z :=
  union_with (λ a b, Some (a + b)%Z) target source.

Definition _retire_worker (L : Ledger) (worker_id : string) (l : WorkerLedger) : Ledger :=
  let slot := default (λ _, 0%Z) (retired L !! worker_id) in
  let class_slot := default (λ _, ∅) (retired_by_class L !! worker_id) in
  mkLedger (entries L)
    (<[worker_id := λ key, (slot key + contribution l key)%Z]> (retired L))
    (<[worker_id := λ key, _add_counter_maps (class_slot key) (class_contributions l key)]> (retired_by_class L))
    (seen_dps L) (liveness L).

Definition retire_segments (L : Ledger) (segs : segments) : Ledger :=
  foldl (λ L kv, _retire_worker L kv.1.1 kv.2) L (map_to_list segs).

Definition _retire (L : Ledger) (e : LedgerEntry) : Ledger := retire_segments L (le_per_worker e).

(** The ledger of a segment the control plane has not seen before. *)
Definition fresh_ledger (first_contact : bool) (item : WorkerCounters) : WorkerLedger :=
  mkWorkerLedger (λ key, if first_contact then wc_total item key else 0%Z) (wc_total item)
    (λ key, if first_contact then wc_by_class item key else ∅) (wc_by_class item) (wc_current_active item).

Definition raise_classes (high_water values : gmap string Z) : gmap string Z :=
  merge (λ h v, match v with Some v => Some (Z.max (default 0%Z h) v) | None => h end) high_water values.

(** A segment's ledger raised to a report's values. *)
Definition advance_ledger (l : WorkerLedger) (item : WorkerCounters) : WorkerLedger :=
  mkWorkerLedger (baseline l) (λ key, Z.max (high_water l key) (wc_total item key)) (class_baseline l)
    (λ key, raise_classes (class_high_water l key) (wc_by_class item key)) (wc_current_active item).

(** The state of [apply]'s loop over the report's workers. *)
Record merging := mkMerging { mg_ledger : Ledger; mg_carried : segments; mg_per_worker : segments }.

Definition merge_item (first_contact : bool) (m : merging) (item : WorkerCounters) : merging :=
  let k := (wc_worker_id item, wc_incarnation item) in
  let l := match mg_carried m !! k with
           | Some l => advance_ledger l item
           | None => fresh_ledger first_contact item
           end in
  let L := match mg_per_worker m !! k with
           | Some duplicate => _retire_worker (mg_ledger m) (wc_worker_id item) duplicate
           | None => mg_ledger m
           end in
  mkMerging L (delete k (mg_carried m)) (<[k := l]> (mg_per_worker m)).

Definition set_entry (i : Z) (e : LedgerEntry) (L : Ledger) : Ledger :=
  mkLedger (<[i := e]> (entries L)) (retired L) (retired_by_class L) (seen_dps L) (liveness L).
Definition see_dp (i : Z) (L : Ledger) : Ledger :=
  mkLedger (entries L) (retired L) (retired_by_class L) ({[i]} ∪ seen_dps L) (liveness L).

(** The part of [apply] after the report was found fresh; [carried] are the
    segments of the entry it continues. *)
Definition apply_fresh (L : Ledger) (carried : segments) (r : CounterReport) (now : Z) : Ledger :=
  let first_contact := bool_decide (cr_dp_index r ∉ seen_dps L) in
  let m := foldl (merge_item first_contact) (mkMerging (see_dp (cr_dp_index r) L) carried ∅) (cr_workers r) in
  set_entry (cr_dp_index r) (mkEntry (cr_generation r) (cr_counter_seq r) now (mg_per_worker m))
    (retire_segments (mg_ledger m) (mg_carried m)).

Definition ledger_apply (L : Ledger) (r : CounterReport) (now : Z) : res (bool * Ledger) :=
  match entries L !! cr_dp_index r with
  | None => Ok (true, apply_fresh L ∅ r now)
  | Some e =>
      if bool_decide (cr_generation r < le_generation e)%Z then Raise (RuntimeError "stale counter generation")
      else if bool_decide (cr_generation r = le_generation e ∧ cr_counter_seq r ≤ le_counter_seq e)%Z then Ok (false, L)
      else if bool_decide (le_generation e < cr_generation r)%Z
      then Ok (true, apply_fresh (_retire L e) ∅ r now)
      else Ok (true, apply_fresh L (le_per_worker e) r now)
  end.

(** [sum] over a map's entries. *)
Definition msum {K A} `{Countable K} (f : K → A → Z) (m : gmap K A) : Z :=
  zsum (map (λ kv, f kv.1 kv.2) (map_to_list m)).

Definition totals (L : Ledger) (worker_id : string) (key : counter_key) : Z :=
  (default (λ _, 0) (retired L !! worker_id) key +
   msum (λ _ e, msum (λ k l, if decide (k.1 = worker_id) then contribution l key else 0) (le_per_worker e)) (entries L))%Z.

Definition class_totals (L : Ledger) (worker_id : string) (key : counter_key) : gmap string Z :=
  foldl (λ acc ie,
      foldl (λ acc kl, if decide (kl.1.1 = worker_id)
                       then _add_counter_maps acc (class_contributions kl.2 key) else acc)
        acc (map_to_list (le_per_worker ie.2)))
    (default (λ _, ∅) (retired_by_class L !! worker_id) key) (map_to_list (entries L)).

Definition active_gauge (L : Ledger) (worker_id : string) (now : Z) : Z :=
  msum (λ _ e, if bool_decide (liveness L < now - le_reported_at e)%Z then 0%Z
               else msum (λ k l, if decide (k.1 = worker_id) then current_active l else 0%Z) (le_per_worker e)) (entries L).

Record overlay_fields := mkOverlay {
  ov_active_requests : Z; ov_routed : Z; ov_successful : Z; ov_failed : Z;
  ov_by_class : counter_key → gmap string Z }.

Definition overlay (L : Ledger) (worker_id : string) (now : Z) : overlay_fields :=
  mkOverlay (active_gauge L worker_id now) (totals L worker_id routed_total) (totals L worker_id successful_total)
    (totals L worker_id failed_total) (class_totals L worker_id).

(** ** Sums over maps *)
Section msum.
Context {K A : Type} `{Countable K}.
Implicit Types (f : K → A → Z) (m : gmap K A).

Lemma msum_empty f : msum f ∅ = 0%Z.
Proof. unfold msum. by rewrite map_to_list_empty. Qed.

Lemma msum_insert_fresh f k a m : m !! k = None → msum f (<[k := a]> m) = (f k a + msum f m)%Z.
Proof.
  intros Hk. unfold msum. erewrite zsum_perm; [|apply Permutation_map, map_to_list_insert, Hk]. done.
Qed.

Lemma msum_delete f k a m : m !! k = Some a → msum f m = (f k a + msum f (delete k m))%Z.
Proof.
  intros Hk. rewrite <-(insert_delete_id m k a) at 1 by done.
  apply msum_insert_fresh. apply lookup_delete_eq.
Qed.

Lemma msum_delete_lookup f k m :
  msum f m = (match m !! k with Some a => f k a | None => 0 end + msum f (delete k m))%Z.
Proof. destruct (m !! k) eqn:E; [by apply msum_delete|]. by rewrite delete_id. Qed.

Lemma msum_insert f k a m :
  (msum f (<[k := a]> m) + match m !! k with Some b => f k b | None => 0 end = f k a + msum f m)%Z.
Proof.
  rewrite (msum_delete_lookup f k m). rewrite <-insert_delete_eq, msum_insert_fresh by apply lookup_delete_eq. lia.
Qed.
End msum.

(** ** What is displayed *)

(** A displayed number of a worker: a total, or a service class's share of it. *)
Inductive view := VTotal (key : counter_key) | VClass (key : counter_key) (service_class : string).

Definition high_of (v : view) (l : WorkerLedger) : Z :=
  match v with VTotal key => high_water l key | VClass key c => default 0%Z (class_high_water l key !! c) end.
Definition base_of (v : view) (l : WorkerLedger) : Z :=
  match v with VTotal key => baseline l key | VClass key c => default 0%Z (class_baseline l key !! c) end.
(** The cumulative count a report gives, if it gives one. *)
Definition reported (v : view) (item : WorkerCounters) : option Z :=
  match v with VTotal key => Some (wc_total item key) | VClass key c => wc_by_class item key !! c end.
Definition measure (v : view) (l : WorkerLedger) : Z :=
  match v with VTotal key => contribution l key | VClass key c => default 0%Z (class_contributions l key !! c) end.
Definition retired_of (v : view) (L : Ledger) (worker_id : string) : Z :=
  match v with
  | VTotal key => default (λ _, 0%Z) (retired L !! worker_id) key
  | VClass key c => default 0%Z (default (λ _, ∅) (retired_by_class L !! worker_id) key !! c)
  end.
Definition shown (v : view) (L : Ledger) (worker_id : string) : Z :=
  match v with VTotal key => totals L worker_id key | VClass key c => default 0%Z (class_totals L worker_id key !! c) end.

Definition seg (v : view) (worker_id : string) (k : string * string) (l : WorkerLedger) : Z :=
  if decide (k.1 = worker_id) then measure v l else 0%Z.
Definition total_of (v : view) (L : Ledger) (worker_id : string) : Z :=
  (retired_of v L worker_id + msum (λ _ e, msum (seg v worker_id) (le_per_worker e)) (entries L))%Z.

Lemma add_counter_maps_lookup a b (c : string) :
  default 0%Z (_add_counter_maps a b !! c) = (default 0%Z (a !! c) + default 0%Z (b !! c))%Z.
Proof. unfold _add_counter_maps. rewrite lookup_union_with. destruct (a !! c), (b !! c); simpl; lia. Qed.

Lemma class_fold wid key c (l : list ((string * string) * WorkerLedger)) (acc : gmap string Z) :
  default 0%Z (foldl (λ acc kl, if decide (kl.1.1 = wid)
      then _add_counter_maps acc (class_contributions kl.2 key) else acc) acc l !! c) =
  (default 0%Z (acc !! c) + zsum (map (λ kl, seg (VClass key c) wid kl.1 kl.2) l))%Z.
Proof.
  revert acc. induction l as [|[k wl] l IH]; intros acc; simpl; [lia|]. rewrite IH. unfold seg. simpl.
  case_decide; [rewrite add_counter_maps_lookup|]; lia.
Qed.

Lemma shown_total v L wid : shown v L wid = total_of v L wid.
Proof.
  destruct v as [key|key c]; simpl; [done|]. unfold class_totals, total_of, msum.
  generalize (map_to_list (entries L)) as es. intros es. simpl.
  generalize (default (λ _ : counter_key, ∅) (retired_by_class L !! wid) key). intros acc. revert acc.
  induction es as [|[i e] es IH]; intros acc; simpl; [lia|]. rewrite IH, class_fold. unfold msum. lia.
Qed.

Lemma retire_worker_retired v L w l wid :
  retired_of v (_retire_worker L w l) wid = (retired_of v L wid + if decide (w = wid) then measure v l else 0)%Z.
Proof.
  destruct v as [key|key c]; simpl; (case_decide as E; [subst; rewrite lookup_insert_eq|rewrite lookup_insert_ne by done]);
    simpl; try lia. by rewrite add_counter_maps_lookup.
Qed.

Lemma retire_segments_sound v L segs wid :
  retired_of v (retire_segments L segs) wid = (retired_of v L wid + msum (seg v wid) segs)%Z ∧
  entries (retire_segments L segs) = entries L ∧ seen_dps (retire_segments L segs) = seen_dps L.
Proof.
  unfold retire_segments, msum. generalize (map_to_list segs) as l. intros l. revert L.
  induction l as [|[[w i] wl] l IH]; intros L; simpl; [split; [lia|done]|].
  destruct (IH (_retire_worker L w wl)) as (-> & -> & ->). rewrite retire_worker_retired. unfold seg. simpl.
  split; [lia|done].
Qed.

(** Increments: what a report's item adds to a worker's display. *)
Definition increment (v : view) (first_contact : bool) (tracked : option WorkerLedger) (item : WorkerCounters) : Z :=
  match tracked with
  | Some l => match reported v item with Some x => Z.max 0 (x - high_of v l) | None => 0%Z end
  | None => if first_contact then 0%Z else default 0%Z (reported v item)
  end.

(** Counts are not negative, and a baseline is a count seen before. *)
Definition sound_segment (l : WorkerLedger) : Prop := ∀ v, (0 ≤ base_of v l ≤ high_of v l)%Z.
Definition report_ok (r : CounterReport) : Prop :=
  Forall (λ item, ∀ v x, reported v item = Some x → (0 ≤ x)%Z) (cr_workers r).
Definition sound_ledger (L : Ledger) : Prop :=
  map_Forall (λ _ e, map_Forall (λ _, sound_segment) (le_per_worker e)) (entries L).

Lemma measure_sound v l : sound_segment l → measure v l = (high_of v l - base_of v l)%Z.
Proof.
  intros Hl. specialize (Hl v). destruct v as [key|key c]; simpl in *; [unfold contribution; lia|].
  unfold class_contributions. rewrite map_lookup_imap. destruct (class_high_water l key !! c); simpl in *; lia.
Qed.

Lemma advance_sound v l item :
  sound_segment l →
  high_of v (advance_ledger l item) = match reported v item with Some x => Z.max (high_of v l) x | None => high_of v l end ∧
  base_of v (advance_ledger l item) = base_of v l.
Proof.
  intros Hl. destruct v as [key|key c]; simpl; [done|]. split; [|done].
  unfold raise_classes. rewrite lookup_merge. unfold diag_None.
  destruct (class_high_water l key !! c), (wc_by_class item key !! c); done.
Qed.

Lemma fresh_sound v (first : bool) item :
  high_of v (fresh_ledger first item) = default 0%Z (reported v item) ∧
  base_of v (fresh_ledger first item) = (if first then default 0%Z (reported v item) else 0)%Z.
Proof. destruct v, first; done. Qed.

(** The ledger an item ends up with. *)
Definition item_ledger (first : bool) (carried : segments) (item : WorkerCounters) : WorkerLedger :=
  match carried !! (wc_worker_id item, wc_incarnation item) with
  | Some l => advance_ledger l item
  | None => fresh_ledger first item
  end.

Section merge.
Context (first : bool).
Abbreviation key_of := (λ item, (wc_worker_id item, wc_incarnation item)).

Lemma item_ledger_sound carried item :
  map_Forall (λ _, sound_segment) carried → (∀ v x, reported v item = Some x → (0 ≤ x)%Z) →
  sound_segment (item_ledger first carried item) ∧
  ∀ v, measure v (item_ledger first carried item) =
    (match carried !! key_of item with Some l => measure v l | None => 0 end +
     increment v first (carried !! key_of item) item)%Z.
Proof.
  intros Hc Hx. assert (∀ v, (0 ≤ default 0%Z (reported v item))%Z) as Hx0.
  { intros v. destruct (reported v item) eqn:E; simpl; [by eapply Hx|lia]. }
  unfold item_ledger, increment. destruct (carried !! _) as [l|] eqn:E.
  - specialize (Hc _ _ E). simpl in Hc. assert (sound_segment (advance_ledger l item)) as Ha.
    { intros v. destruct (advance_sound v l item Hc) as [-> ->]. specialize (Hc v). destruct (reported v item); lia. }
    split; [done|]. intros v. rewrite !measure_sound by done. destruct (advance_sound v l item Hc) as [-> ->].
    destruct (reported v item); lia.
  - assert (sound_segment (fresh_ledger first item)) as Ha.
    { intros v. destruct (fresh_sound v first item) as [-> ->]. specialize (Hx0 v). destruct first; lia. }
    split; [done|]. intros v. rewrite measure_sound by done. destruct (fresh_sound v first item) as [-> ->].
    destruct first; lia.
Qed.

Definition merge_total (v : view) (wid : string) (m : merging) : Z :=
  (retired_of v (mg_ledger m) wid + msum (seg v wid) (mg_carried m) + msum (seg v wid) (mg_per_worker m))%Z.
Definition merge_sound (m : merging) : Prop :=
  map_Forall (λ _, sound_segment) (mg_carried m) ∧ map_Forall (λ _, sound_segment) (mg_per_worker m).

Lemma merge_item_sound m item :
  merge_sound m → (∀ v x, reported v item = Some x → (0 ≤ x)%Z) →
  merge_sound (merge_item first m item) ∧
  entries (mg_ledger (merge_item first m item)) = entries (mg_ledger m) ∧
  seen_dps (mg_ledger (merge_item first m item)) = seen_dps (mg_ledger m) ∧
  ∀ v wid, merge_total v wid (merge_item first m item) =
    (merge_total v wid m +
     if decide (wc_worker_id item = wid) then increment v first (mg_carried m !! key_of item) item else 0)%Z.
Proof.
  intros [Hc Hp] Hx. destruct (item_ledger_sound (mg_carried m) item Hc Hx) as [Hl Hinc].
  split_and!.
  - split; simpl; [by apply map_Forall_delete|by apply map_Forall_insert_2].
  - simpl. by destruct (mg_per_worker m !! _).
  - simpl. by destruct (mg_per_worker m !! _).
  - intros v wid. set (k := key_of item) in *. set (l := item_ledger first (mg_carried m) item) in *.
    assert (retired_of v (mg_ledger (merge_item first m item)) wid = retired_of v (mg_ledger m) wid +
      match mg_per_worker m !! k with Some b => seg v wid k b | None => 0 end)%Z as Hr.
    { simpl. fold k. destruct (mg_per_worker m !! k); [|lia]. by rewrite retire_worker_retired. }
    pose proof (msum_insert (seg v wid) k l (mg_per_worker m)) as Hi.
    pose proof (msum_delete_lookup (seg v wid) k (mg_carried m)) as Hd.
    assert (seg v wid k l = match mg_carried m !! k with Some b => seg v wid k b | None => 0 end +
      if decide (wc_worker_id item = wid) then increment v first (mg_carried m !! k) item else 0)%Z as Hl'.
    { unfold seg. simpl. case_decide; [by rewrite Hinc|]. by destruct (mg_carried m !! k). }
    unfold merge_total. rewrite Hr. simpl. change (match mg_carried m !! _ with Some l => _ | None => _ end) with l.
    fold k. lia.
Qed.
End merge.

(** ** A whole report *)
Definition key_of (item : WorkerCounters) : string * string := (wc_worker_id item, wc_incarnation item).

Definition gain (v : view) (wid : string) (first : bool) (carried : segments) (items : list WorkerCounters) : Z :=
  zsum (map (λ item, if decide (wc_worker_id item = wid)
                     then increment v first (carried !! key_of item) item else 0%Z) items).

Lemma increment_nonneg v first tracked item :
  (∀ x, reported v item = Some x → (0 ≤ x)%Z) → (0 ≤ increment v first tracked item)%Z.
Proof.
  intros Hx. unfold increment. destruct tracked; [case_match; lia|]. destruct first; [lia|].
  destruct (reported v item) eqn:E; simpl; [by apply Hx|lia].
Qed.

Lemma gain_delete v wid first carried k items :
  k ∉ map key_of items → gain v wid first (delete k carried) items = gain v wid first carried items.
Proof.
  unfold gain. induction items as [|item items IH]; simpl; [done|].
  intros [Hk Hks]%not_elem_of_cons. rewrite IH, lookup_delete_ne by done. done.
Qed.

Lemma merge_items_sound first items m :
  merge_sound m → Forall (λ item, ∀ v x, reported v item = Some x → (0 ≤ x)%Z) items →
  let m' := foldl (merge_item first) m items in
  merge_sound m' ∧ entries (mg_ledger m') = entries (mg_ledger m) ∧
  ∀ v wid, (merge_total v wid m ≤ merge_total v wid m')%Z ∧
    (NoDup (map key_of items) →
     merge_total v wid m' = (merge_total v wid m + gain v wid first (mg_carried m) items)%Z).
Proof.
  intros Hm Hi. revert m Hm. induction Hi as [|item items Hx _ IH]; intros m Hm m'.
  { subst m'. simpl. split_and!; [apply Hm..|done|]. intros v wid. unfold gain. simpl. lia. }
  destruct (merge_item_sound first m item Hm Hx) as (Hm1 & He1 & _ & Ht1).
  destruct (IH _ Hm1) as (Hm' & He' & Ht'). subst m'. simpl. split_and!; [apply Hm'..|congruence|].
  intros v wid. specialize (Ht1 v wid). destruct (Ht' v wid) as [Hle Heq].
  pose proof (increment_nonneg v first (mg_carried m !! key_of item) item (Hx v)) as Hnn.
  fold (key_of item) in Ht1. split; [case_decide; lia|].
  intros [Hk Hnd]%NoDup_cons. rewrite Heq, Ht1 by done. simpl mg_carried. fold (key_of item).
  rewrite gain_delete by done. unfold gain. simpl. fold (gain v wid first (mg_carried m) items). lia.
Qed.

(** The segments a report continues. *)
Definition carried_of (L : Ledger) (r : CounterReport) : segments :=
  match entries L !! cr_dp_index r with
  | Some e => if bool_decide (cr_generation r = le_generation e) then le_per_worker e else ∅
  | None => ∅
  end.

Definition first_contact (L : Ledger) (r : CounterReport) : bool := bool_decide (cr_dp_index r ∉ seen_dps L).

(** [total_of] moves only by the items' increments. *)
Lemma apply_fresh_sound L carried r now :
  sound_ledger L → map_Forall (λ _, sound_segment) carried → report_ok r →
  let L' := apply_fresh L carried r now in
  sound_ledger L' ∧ ∀ v wid,
    let before := (total_of v L wid + msum (seg v wid) carried -
      match entries L !! cr_dp_index r with Some e => msum (seg v wid) (le_per_worker e) | None => 0 end)%Z in
    (before ≤ total_of v L' wid)%Z ∧
    (NoDup (map key_of (cr_workers r)) → total_of v L' wid = (before + gain v wid (first_contact L r) carried (cr_workers r))%Z).
Proof.
  intros HL Hc Hr L'.
  set (m0 := mkMerging (see_dp (cr_dp_index r) L) carried ∅).
  destruct (merge_items_sound (first_contact L r) (cr_workers r) m0) as ([Hmc Hmp] & He & Ht); [|done|].
  { split; [done|apply map_Forall_empty]. }
  set (m := foldl _ m0 _) in *.
  assert (L' = set_entry (cr_dp_index r) (mkEntry (cr_generation r) (cr_counter_seq r) now (mg_per_worker m))
    (retire_segments (mg_ledger m) (mg_carried m))) as -> by done.
  destruct (retire_segments_sound (VTotal routed_total) (mg_ledger m) (mg_carried m) "") as (_ & Hre & _).
  split.
  - unfold sound_ledger. simpl. rewrite Hre, He. apply map_Forall_insert_2; [done|exact HL].
  - intros v wid before. destruct (Ht v wid) as [Hle Heq].
    destruct (retire_segments_sound v (mg_ledger m) (mg_carried m) wid) as (Hret & _ & _).
    pose proof (msum_insert (λ _ e, msum (seg v wid) (le_per_worker e)) (cr_dp_index r)
      (mkEntry (cr_generation r) (cr_counter_seq r) now (mg_per_worker m)) (entries L)) as Hi. simpl in Hi.
    assert (merge_total v wid m0 = retired_of v L wid + msum (seg v wid) carried)%Z as E0.
    { unfold merge_total. simpl. rewrite msum_empty. destruct v; simpl; lia. }
    set (L2 := set_entry _ _ _).
    assert (total_of v L2 wid = merge_total v wid m + msum (λ _ e, msum (seg v wid) (le_per_worker e)) (entries L) -
      match entries L !! cr_dp_index r with Some e => msum (seg v wid) (le_per_worker e) | None => 0 end)%Z as E2.
    { assert (retired_of v L2 wid = retired_of v (mg_ledger m) wid + msum (seg v wid) (mg_carried m))%Z as Hr2.
      { rewrite <-Hret. by destruct v. }
      unfold total_of. rewrite Hr2. unfold L2. simpl. rewrite Hre, He. simpl. unfold merge_total. lia. }
    subst before. rewrite E2.
    change (total_of v L wid) with (retired_of v L wid + msum (λ _ e, msum (seg v wid) (le_per_worker e)) (entries L))%Z.
    split; [lia|].
    intros Hnd. specialize (Heq Hnd). simpl mg_carried in Heq. lia.
Qed.

Lemma retire_sound L e :
  sound_ledger L → sound_ledger (_retire L e) ∧ entries (_retire L e) = entries L ∧
  seen_dps (_retire L e) = seen_dps L ∧
  ∀ v wid, total_of v (_retire L e) wid = (total_of v L wid + msum (seg v wid) (le_per_worker e))%Z.
Proof.
  intros HL. unfold _retire.
  destruct (retire_segments_sound (VTotal routed_total) L (le_per_worker e) "") as (_ & He & Hs).
  split_and!; [unfold sound_ledger; by rewrite He|done|done|].
  intros v wid. unfold total_of. destruct (retire_segments_sound v L (le_per_worker e) wid) as (-> & -> & _). lia.
Qed.

Lemma ledger_apply_sound L r now L' :
  sound_ledger L → report_ok r → ledger_apply L r now = Ok (true, L') →
  sound_ledger L' ∧ ∀ v wid, (shown v L wid ≤ shown v L' wid)%Z ∧
    (NoDup (map key_of (cr_workers r)) →
     shown v L' wid = (shown v L wid + gain v wid (first_contact L r) (carried_of L r) (cr_workers r))%Z).
Proof.
  intros HL Hr. unfold ledger_apply, carried_of. destruct (entries L !! cr_dp_index r) as [e|] eqn:Ee.
  - destruct (bool_decide (cr_generation r < le_generation e)%Z) eqn:E1; [done|].
    destruct (bool_decide (cr_generation r = le_generation e ∧ _)) eqn:E2; [done|].
    apply bool_decide_eq_false in E1, E2.
    destruct (bool_decide (le_generation e < cr_generation r)%Z) eqn:E3; intros [= <-]; bool_simpl.
    + rewrite bool_decide_false by lia. destruct (retire_sound L e HL) as (HL1 & He1 & Hs1 & Ht1).
      destruct (apply_fresh_sound (_retire L e) ∅ r now) as [Hs Ht]; [done|apply map_Forall_empty|done|].
      split; [done|]. intros v wid. rewrite !shown_total. destruct (Ht v wid) as [Hle Heq].
      unfold first_contact in Heq. rewrite He1, Hs1, Ee, Ht1, msum_empty in *. fold (first_contact L r) in Heq.
      split; [lia|]. intros Hnd. specialize (Heq Hnd). lia.
    + rewrite bool_decide_true by lia.
      destruct (apply_fresh_sound L (le_per_worker e) r now) as [Hs Ht]; [done|by eapply HL|done|].
      split; [done|]. intros v wid. rewrite !shown_total. destruct (Ht v wid) as [Hle Heq]. rewrite Ee in *.
      split; [lia|]. intros Hnd. specialize (Heq Hnd). lia.
  - intros [= <-]. destruct (apply_fresh_sound L ∅ r now) as [Hs Ht]; [done|apply map_Forall_empty|done|].
    split; [done|]. intros v wid. rewrite !shown_total. destruct (Ht v wid) as [Hle Heq]. rewrite Ee, msum_empty in *.
    split; [lia|]. intros Hnd. specialize (Heq Hnd). lia.
Qed.

(** The ledger after a sequence of reports, each with its arrival time. *)
Definition ledger_run (L : Ledger) (rs : list (CounterReport * Z)) : Ledger :=
  foldl (λ L rt, match ledger_apply L rt.1 rt.2 with Ok (_, L') => L' | Raise _ => L end) L rs.

Lemma ledger_apply_false L r now L' : ledger_apply L r now = Ok (false, L') → L' = L.
Proof. unfold ledger_apply. intros H. repeat case_match; by simplify_eq. Qed.

Lemma ledger_run_sound rs L : sound_ledger L → Forall (λ rt, report_ok rt.1) rs → sound_ledger (ledger_run L rs).
Proof.
  intros HL Hrs. revert L HL. induction Hrs as [|[r t] rs Hr _ IH]; intros L HL; simpl; [done|].
  apply IH. destruct (ledger_apply L r t) as [[[] L']|] eqn:E; [|by apply ledger_apply_false in E as ->|done].
  by eapply ledger_apply_sound.
Qed.

(** Reports may be resent, reordered or come from replaced data planes: a
    report that is not strictly newer changes nothing or raises, and an accepted
    one adds to each worker's displayed totals, per class too, exactly what exceeds
    the counts already seen for its segment (all of a new segment; nothing at the
    data plane's first contact).  No report ever lowers a displayed total, even one
    that repeats a segment. *)
Theorem ledger_counts_each_request_once t rs r now b L' :
  let L := ledger_run (ledger_init t) rs in
  Forall (λ rt, report_ok rt.1) rs → report_ok r → ledger_apply L r now = Ok (b, L') →
  (b = false → L' = L) ∧
  ∀ v wid, (shown v L wid ≤ shown v L' wid)%Z ∧
    (b = true → NoDup (map key_of (cr_workers r)) →
     shown v L' wid = (shown v L wid + gain v wid (first_contact L r) (carried_of L r) (cr_workers r))%Z).
Proof.
  intros L Hrs Hr Ha. split; [intros ->; by eapply ledger_apply_false|].
  assert (sound_ledger L) as HL by (apply ledger_run_sound; [apply map_Forall_empty|done]).
  intros v wid. destruct b; [|by rewrite (ledger_apply_false _ _ _ _ Ha)].
  destruct (ledger_apply_sound L r now L' HL Hr Ha) as [_ Ht]. destruct (Ht v wid). auto.
Qed.

Definition ex_item (incarnation : string) (n : Z) : WorkerCounters :=
  mkCounters "w" incarnation (λ _, n) 1 (λ _, {["chat" := n]}).
Definition ex_report (generation seq : Z) (items : list WorkerCounters) : CounterReport := mkReport 0 generation seq items.

Lemma ex_item_ok i n v x : (0 ≤ n)%Z → reported v (ex_item i n) = Some x → (0 ≤ x)%Z.
Proof.
  intros Hn. destruct v as [|key c]; simpl; [congruence|]. intros H%lookup_singleton_Some. naive_solver lia.
Qed.

(** First contact at 5, then 8, then a re-registered worker (a new incarnation)
    at 2 while the old one drains at 9: 3 and then 1 + 2 requests are shown. *)
Lemma ledger_counts_each_request_once_witness :
  let rs := [(ex_report 1 1 [ex_item "a" 5], 0%Z); (ex_report 1 2 [ex_item "a" 8], 1%Z)] in
  let r := ex_report 1 3 [ex_item "b" 2; ex_item "a" 9] in
  ∃ L', ledger_apply (ledger_run (ledger_init 3) rs) r 2 = Ok (true, L') ∧
    shown (VTotal routed_total) (ledger_run (ledger_init 3) rs) "w" = 3%Z ∧
    shown (VTotal routed_total) L' "w" = (3 + 3)%Z.
Proof.
  intros rs r. destruct (ledger_apply (ledger_run (ledger_init 3) rs) r 2) as [[[] L']|] eqn:E;
    [|by vm_compute in E..].
  exists L'. assert (shown (VTotal routed_total) (ledger_run (ledger_init 3) rs) "w" = 3%Z) as E3 by (vm_compute; reflexivity).
  split; [done|]. split; [exact E3|].
  destruct (ledger_counts_each_request_once 3 rs r 2 true L') as [_ H]; [..|exact E|].
  - repeat constructor; simpl; intros v x; by apply ex_item_ok.
  - repeat constructor; simpl; intros v x; by apply ex_item_ok.
  - destruct (H (VTotal routed_total) "w") as [_ Hg]. rewrite Hg, E3; [f_equal; vm_compute; reflexivity|done|].
    apply (bool_decide_unpack _). vm_compute. done.
Defined.
