(* ===== verification/WorkerSnapshot.v ===== *)
(** * The worker snapshot: control plane to data planes

    Models [sglang_omni_router/python/snapshot.py], the data plane's worker view
    ([data_plane.py]) and the control plane's two ends ([control_plane.py],
    [snapshot_workers] and [restore_workers]).  Snapshot entries come from validated
    configurations, so building a [WorkerConfig] from one does not fail. *)
From S2P Require Import Prelude RouterWorker.

Definition SNAPSHOT_SCHEMA_VERSION : Z := 1.
Definition DEFAULT_CAPABILITIES : gset string :=
  {["chat"; "speech"; "streaming"; "image_input"; "audio_input"; "video_input"; "audio_output"]}.

Record SnapshotWorker := mkEntryOf {
  sw_url : string; sw_worker_id : string; sw_incarnation : string; sw_model : option string;
  sw_capabilities : list string; sw_routable : bool; sw_state : WorkerState; sw_disabled : bool }.

Record WorkerSnapshot := mkSnapshot {
  sn_version : Z; sn_seq : Z; sn_epoch : string; sn_generated_at : Z; sn_workers : list SnapshotWorker }.

Definition snapshot_worker (w : Worker) : SnapshotWorker :=
  mkEntryOf (w_url w) (w_worker_id w) (w_incarnation w) (w_model w)
    (sort_strings (elements (w_capabilities w))) (is_routable w) (w_state w) (w_disabled w).
Definition snapshot_workers (workers : list Worker) : list SnapshotWorker := map snapshot_worker workers.

(** ** The file *)

(** [os.stat]'s inode, size and modification time, and the content if it parses. *)
Abbreviation fingerprint := (Z * Z * Z)%type.
Record snapshot_file := mkFile { sf_fingerprint : fingerprint; sf_content : option WorkerSnapshot }.

Record SnapshotWriter := mkWriter { sw_epoch : string; sw_seq : Z }.

(** [publish] numbers the snapshot first; the write is atomic, and may fail. *)
Definition publish (workers : list SnapshotWorker) (now : Z) (written : option fingerprint)
    (wr : SnapshotWriter) (file : option snapshot_file) : SnapshotWriter * option snapshot_file * res unit :=
  let wr := mkWriter (sw_epoch wr) (sw_seq wr + 1) in
  match written with
  | Some fp => (wr, Some (mkFile fp (Some (mkSnapshot SNAPSHOT_SCHEMA_VERSION (sw_seq wr) (sw_epoch wr) now workers))), Ok tt)
  | None => (wr, file, Raise OSError)
  end.

Record SnapshotReader := mkReader { rd_last_fingerprint : option fingerprint; rd_snapshot : option WorkerSnapshot }.
Definition reader_init : SnapshotReader := mkReader None None.

Definition maybe_reload (file : option snapshot_file) (r : SnapshotReader) : bool * SnapshotReader :=
  match file with
  | None => (false, r)
  | Some f =>
      if bool_decide (rd_last_fingerprint r = Some (sf_fingerprint f)) then (false, r)
      else match sf_content f with
           | None => (false, r)
           | Some sn =>
               if bool_decide (sn_version sn ≠ SNAPSHOT_SCHEMA_VERSION) then (false, r)
               else
                 let r := mkReader (Some (sf_fingerprint f)) (rd_snapshot r) in
                 match rd_snapshot r with
                 | Some old =>
                     if bool_decide (sn_epoch sn = sn_epoch old ∧ sn_seq sn ≤ sn_seq old)%Z then (false, r)
                     else (true, mkReader (rd_last_fingerprint r) (Some sn))
                 | None => (true, mkReader (rd_last_fingerprint r) (Some sn))
                 end
           end
  end.

Definition age_secs (now : Z) (r : SnapshotReader) : option Z :=
  match rd_snapshot r with Some sn => Some (now - sn_generated_at sn)%Z | None => None end.

(** [_stale_gate]: new requests are shed. *)
Definition stale_gate (max_age now : Z) (r : SnapshotReader) : bool :=
  match age_secs now r with Some age => negb (bool_decide (age ≤ max_age)%Z) | None => true end.

Definition restore_worker (uuid : string) (e : SnapshotWorker) : Worker :=
  let w := new_worker (mkWorkerConfig (sw_url e) (sw_model e) (list_to_set (sw_capabilities e))) uuid in
  let w := if bool_decide (sw_incarnation e = "") then w else set_incarnation (sw_incarnation e) w in
  set_status (sw_state e) (sw_disabled e) w.

(** [uuid] gives the fresh identifiers drawn, by draw. *)
Definition restore_workers (uuid : nat → string) (file : option snapshot_file) (configs : list WorkerConfig) : res (list Worker) :=
  match file with
  | None => Ok (imap (λ i c, new_worker c (uuid i)) configs)
  | Some _ =>
      match (maybe_reload file reader_init).2 with
      | mkReader _ (Some sn) => Ok (imap (λ i, restore_worker (uuid i)) (sn_workers sn))
      | _ => Raise (RuntimeError "cannot recover worker registry")
      end
  end.

(** ** The data plane's view: worker objects and the references to them *)
Record DataPlaneWorkerView := mkView {
  v_objects : gmap nat Worker;
  v_next : nat;
  v_workers : list (string * nat);
  v_retiring : list nat;
  v_last_applied_seq : Z;
  v_last_applied_epoch : string;
}.

Definition view_init : DataPlaneWorkerView := mkView ∅ 0 [] [] 0 "".

Definition deref (v : DataPlaneWorkerView) (ids : list nat) : list Worker := omap (v_objects v !!.) ids.
Definition view_workers (v : DataPlaneWorkerView) : list Worker := deref v (v_workers v).*2.
Definition reportable (v : DataPlaneWorkerView) : list nat := (v_workers v).*2 ++ v_retiring v.
Definition reportable_workers (v : DataPlaneWorkerView) : list Worker := deref v (reportable v).

Definition active_of (v : DataPlaneWorkerView) (i : nat) : Z :=
  match v_objects v !! i with Some w => w_active_requests w | None => 0 end.
Definition routed_of (v : DataPlaneWorkerView) (i : nat) : Z :=
  match v_objects v !! i with Some w => w_routed_requests w | None => 0 end.

Definition drained_retired (v : DataPlaneWorkerView) : list nat :=
  filter (λ i, active_of v i = 0%Z) (v_retiring v).

Definition set_refs workers retiring (v : DataPlaneWorkerView) : DataPlaneWorkerView :=
  mkView (v_objects v) (v_next v) workers retiring (v_last_applied_seq v) (v_last_applied_epoch v).

Definition release_retired (reported : list nat) (v : DataPlaneWorkerView) : DataPlaneWorkerView :=
  set_refs (v_workers v) (filter (.∉ reported) (v_retiring v)) v.

Definition _retire (i : nat) (v : DataPlaneWorkerView) : DataPlaneWorkerView :=
  if bool_decide (0 < active_of v i)%Z || bool_decide (0 < routed_of v i)%Z
  then set_refs (v_workers v) (v_retiring v ++ [i]) v else v.

(** A worker object changed in place, by a request that holds it. *)
Definition update_object (i : nat) (f : Worker → Worker) (v : DataPlaneWorkerView) : DataPlaneWorkerView :=
  mkView (alter f i (v_objects v)) (v_next v) (v_workers v) (v_retiring v) (v_last_applied_seq v) (v_last_applied_epoch v).

Definition add_object (url : string) (w : Worker) (v : DataPlaneWorkerView) : DataPlaneWorkerView :=
  mkView (<[v_next v := w]> (v_objects v)) (S (v_next v)) (od_set url (v_next v) (v_workers v)) (v_retiring v)
    (v_last_applied_seq v) (v_last_applied_epoch v).

Definition entry_config (e : SnapshotWorker) : WorkerConfig :=
  mkWorkerConfig (sw_url e) (sw_model e)
    (if bool_decide (sw_capabilities e = []) then DEFAULT_CAPABILITIES else list_to_set (sw_capabilities e)).

Definition adopt_incarnation (e : SnapshotWorker) (w : Worker) : Worker :=
  if bool_decide (sw_incarnation e = "") then w else set_incarnation (sw_incarnation e) w.

(** The loop body of [apply]; [uuid] is what a new [Worker] draws. *)
Definition apply_entry (uuid : nat → string) (v : DataPlaneWorkerView) (e : SnapshotWorker) : DataPlaneWorkerView :=
  let config := entry_config e in
  let fresh v := add_object (sw_url e)
    (set_status (sw_state e) (sw_disabled e) (adopt_incarnation e (new_worker config (uuid (v_next v))))) v in
  match od_get (sw_url e) (v_workers v) with
  | None => fresh v
  | Some i =>
      let incarnation := match v_objects v !! i with Some w => w_incarnation w | None => "" end in
      if negb (bool_decide (sw_incarnation e = "")) && negb (bool_decide (incarnation = sw_incarnation e))
      then fresh (_retire i v)
      else
        update_object i (λ w,
          let w := if bool_decide (w_model w ≠ wc_model config) || bool_decide (w_capabilities w ≠ wc_capabilities config)
                   then set_config config w else w in
          set_status (sw_state e) (sw_disabled e) (adopt_incarnation e w)) v
  end.

(** [for url in list(self._workers): if url not in seen: self._retire(self._workers.pop(url))]. *)
Definition drop_unseen (seen : list string) (v : DataPlaneWorkerView) : DataPlaneWorkerView :=
  foldl (λ v kv, if bool_decide (kv.1 ∈ seen) then v
                 else _retire kv.2 (set_refs (od_del kv.1 (v_workers v)) (v_retiring v) v))
    v (v_workers v).

Definition view_apply (uuid : nat → string) (sn : WorkerSnapshot) (v : DataPlaneWorkerView) : DataPlaneWorkerView :=
  let v := foldl (apply_entry uuid) v (sn_workers sn) in
  let v := drop_unseen (map sw_url (sn_workers sn)) v in
  mkView (v_objects v) (v_next v) (v_workers v) (v_retiring v) (sn_seq sn) (sn_epoch sn).

(** ** Applying a snapshot *)

(** The references are distinct and name objects of their URL. *)
Record view_wf (v : DataPlaneWorkerView) : Prop := {
  vw_keys : NoDup (od_keys (v_workers v));
  vw_ids : NoDup (reportable v);
  vw_refs : ∀ url i, (url, i) ∈ v_workers v →
    ∃ w, v_objects v !! i = Some w ∧ w_url w = url ∧ w_worker_id w = quote url;
  vw_retiring : ∀ i, i ∈ v_retiring v → is_Some (v_objects v !! i);
  vw_next : ∀ i, v_next v ≤ i → v_objects v !! i = None;
}.

(** The worker has requests the ledger may not know of. *)
Definition counting (v : DataPlaneWorkerView) (i : nat) : Prop := (0 < active_of v i ∨ 0 < routed_of v i)%Z.

(** No such worker is lost, and its counts are untouched. *)
Definition keeps_counts (v v' : DataPlaneWorkerView) : Prop :=
  ∀ i, i ∈ reportable v → counting v i →
    i ∈ reportable v' ∧ active_of v' i = active_of v i ∧ routed_of v' i = routed_of v i.

#[export] Instance keeps_counts_preorder : PreOrder keeps_counts.
Proof.
  split; [by intros v i|]. intros v1 v2 v3 H12 H23 i Hi Hc.
  destruct (H12 i Hi Hc) as (Hi2 & Ha & Hr). assert (counting v2 i) as Hc2 by (unfold counting; by rewrite Ha, Hr).
  destruct (H23 i Hi2 Hc2) as (Hi3 & -> & ->). done.
Qed.

(** The entry's worker is there, with the entry's status and configuration. *)
Definition shows (v : DataPlaneWorkerView) (e : SnapshotWorker) : Prop :=
  ∃ i w, od_get (sw_url e) (v_workers v) = Some i ∧ v_objects v !! i = Some w ∧
    w_state w = sw_state e ∧ w_disabled w = sw_disabled e ∧ w_config w = entry_config e ∧
    (sw_incarnation e ≠ "" → w_incarnation w = sw_incarnation e).

Lemma reportable_lt v i : view_wf v → i ∈ reportable v → i < v_next v.
Proof.
  intros Hv Hi. assert (is_Some (v_objects v !! i)) as [w Hw].
  { apply elem_of_app in Hi as [Hi|Hi]; [|by apply Hv].
    apply list_elem_of_fmap in Hi as ([url i'] & -> & Hi). destruct (vw_refs v Hv _ _ Hi) as (w & Hw & _). eauto. }
  destruct (decide (i < v_next v)); [done|]. rewrite (vw_next v Hv) in Hw by lia. done.
Qed.

Lemma od_get_ref v url i : view_wf v → od_get url (v_workers v) = Some i → (url, i) ∈ v_workers v ∧ i ∈ (v_workers v).*2.
Proof. intros Hv H%od_get_Some_elem. split; [done|]. apply list_elem_of_fmap. by exists (url, i). Qed.

Lemma retire_eq v i :
  (∃ r, _retire i v = set_refs (v_workers v) r v ∧ (r = v_retiring v ∧ ¬ counting v i ∨ r = v_retiring v ++ [i])).
Proof.
  unfold _retire. destruct (_ || _) eqn:E.
  - exists (v_retiring v ++ [i]). auto.
  - apply orb_false_iff in E as [E1%bool_decide_eq_false E2%bool_decide_eq_false].
    exists (v_retiring v). split; [by destruct v|]. left. split; [done|]. intros [?|?]; done.
Qed.

(** The worker [i] of [url] leaves the view, retired if it counts. *)
Lemma detach_wf v url i :
  view_wf v → od_get url (v_workers v) = Some i →
  ∃ r, (r = v_retiring v ∧ ¬ counting v i ∨ r = v_retiring v ++ [i]) ∧
    _retire i v = set_refs (v_workers v) r v ∧ NoDup ((od_del url (v_workers v)).*2 ++ r).
Proof.
  intros Hv Hg. destruct (retire_eq v i) as (r & Hr & Hcase). exists r. split; [done|]. split; [done|].
  pose proof (vw_ids v Hv) as Hnd. unfold reportable in Hnd.
  rewrite (od_get_perm url i (v_workers v)) in Hnd by (done || apply Hv). simpl in Hnd.
  destruct Hcase as [[-> _]| ->]; [by apply NoDup_cons in Hnd as [_ Hnd]|].
  rewrite app_assoc, Permutation_app_comm. exact Hnd.
Qed.

Lemma add_object_wf v url w :
  view_wf v → w_url w = url → w_worker_id w = quote url →
  ∀ r, NoDup ((od_del url (v_workers v)).*2 ++ r) → (∀ i, i ∈ r → i ∈ reportable v) →
  view_wf (add_object url w (set_refs (v_workers v) r v)).
Proof.
  intros Hv Hu Hid r Hnd Hr. split; simpl.
  - apply od_set_NoDup, Hv.
  - unfold reportable. simpl. rewrite od_set_perm by apply Hv. simpl. apply NoDup_cons. split; [|done].
    intros Hin. assert (v_next v ∈ reportable v) as H.
    { apply elem_of_app in Hin as [Hin|Hin]; [|by apply Hr]. apply elem_of_app. left.
      apply list_elem_of_fmap in Hin as (e & -> & He). apply list_elem_of_fmap. exists e.
      apply list_elem_of_filter in He as [_ He]. done. }
    apply reportable_lt in H; [lia|done].
  - intros url' i. rewrite (od_set_perm url (v_next v)) by apply Hv. intros [[= -> ->]|Hin]%elem_of_cons.
    + exists w. by rewrite lookup_insert_eq.
    + apply list_elem_of_filter in Hin as [_ Hin]. destruct (vw_refs v Hv _ _ Hin) as (w' & Hw' & ?).
      exists w'. rewrite lookup_insert_ne; [done|]. intros <-. rewrite (vw_next v Hv) in Hw' by lia. done.
  - intros i Hi. assert (i < v_next v) as Hlt by (apply reportable_lt; auto).
    rewrite lookup_insert_ne by lia. apply Hr, elem_of_app in Hi as [Hi|Hi]; [|by apply Hv].
    apply list_elem_of_fmap in Hi as ([u i'] & -> & Hi). destruct (vw_refs v Hv _ _ Hi) as (w' & Hw' & _). eauto.
  - intros i Hi. rewrite lookup_insert_ne by lia. apply Hv. lia.
Qed.

Lemma add_object_keeps v url w r :
  view_wf v →
  (∀ i, i ∈ reportable v → counting v i → i ∈ (od_del url (v_workers v)).*2 ++ r) →
  keeps_counts v (add_object url w (set_refs (v_workers v) r v)).
Proof.
  intros Hv Hr i Hi Hc. assert (i < v_next v) as Hlt by by apply reportable_lt.
  unfold reportable, active_of, routed_of. simpl. rewrite lookup_insert_ne by lia. split; [|done].
  rewrite (od_set_perm url) by apply Hv. simpl. right. by apply Hr.
Qed.

Lemma update_object_wf v i f :
  (∀ w, w_url (f w) = w_url w ∧ w_worker_id (f w) = w_worker_id w) → view_wf v → view_wf (update_object i f v).
Proof.
  intros Hf Hv. split; simpl; [apply Hv|apply Hv| | |].
  - intros url j Hj. destruct (vw_refs v Hv _ _ Hj) as (w & Hw & <- & Hid).
    destruct (decide (i = j)) as [->|]; [rewrite lookup_alter_eq, Hw|rewrite lookup_alter_ne by done]; [|eauto].
    exists (f w). simpl. destruct (Hf w) as [-> ->]. done.
  - intros j Hj. apply Hv in Hj as [w Hw].
    destruct (decide (i = j)) as [->|]; [rewrite lookup_alter_eq, Hw|rewrite lookup_alter_ne by done]; eauto.
  - intros j Hj. destruct (decide (i = j)) as [->|]; [rewrite lookup_alter_eq|rewrite lookup_alter_ne by done];
      by rewrite (vw_next v Hv).
Qed.

Lemma update_object_keeps v i f :
  (∀ w, w_active_requests (f w) = w_active_requests w ∧ w_routed_requests (f w) = w_routed_requests w) →
  keeps_counts v (update_object i f v).
Proof.
  intros Hf j Hj _. split; [done|]. unfold active_of, routed_of. simpl.
  destruct (decide (i = j)) as [->|]; [rewrite lookup_alter_eq|by rewrite lookup_alter_ne].
  destruct (v_objects v !! j) as [w|]; simpl; [|done]. by destruct (Hf w) as [-> ->].
Qed.

(** The worker of [url] is the same object, unchanged. *)
Definition same_at (v v' : DataPlaneWorkerView) (url : string) : Prop :=
  od_get url (v_workers v') = od_get url (v_workers v) ∧
  ∀ i, od_get url (v_workers v) = Some i → v_objects v' !! i = v_objects v !! i.

Lemma same_at_shows v v' e : same_at v v' (sw_url e) → shows v e → shows v' e.
Proof. intros [Hg Ho] (i & w & Hi & Hw & ?). exists i, w. by rewrite Hg, (Ho i Hi). Qed.

Lemma same_at_trans v1 v2 v3 url : same_at v1 v2 url → same_at v2 v3 url → same_at v1 v3 url.
Proof.
  intros [Hg1 Ho1] [Hg2 Ho2]. split; [congruence|]. intros i Hi. rewrite Ho2; [by apply Ho1|]. by rewrite Hg1.
Qed.

(** The entry names another incarnation than the worker at its URL. *)
Definition replaces (v : DataPlaneWorkerView) (e : SnapshotWorker) : Prop :=
  ∃ i w, od_get (sw_url e) (v_workers v) = Some i ∧ v_objects v !! i = Some w ∧
    sw_incarnation e ≠ "" ∧ w_incarnation w ≠ sw_incarnation e.

Definition entry_spec (v : DataPlaneWorkerView) (e : SnapshotWorker) (v' : DataPlaneWorkerView) : Prop :=
  view_wf v' ∧ keeps_counts v v' ∧ shows v' e ∧ v_next v ≤ v_next v' ∧
  (∀ url, url ∈ od_keys (v_workers v') ↔ url = sw_url e ∨ url ∈ od_keys (v_workers v)) ∧
  (∀ url, url ≠ sw_url e → same_at v v' url) ∧
  (replaces v e → ∃ j, od_get (sw_url e) (v_workers v') = Some j ∧ v_next v ≤ j).

Lemma keys_set {V} url k (n : V) d : url ∈ od_keys (od_set k n d) ↔ url = k ∨ url ∈ od_keys d.
Proof. rewrite od_keys_set. case_decide; set_solver. Qed.

Lemma add_object_spec v e w r :
  view_wf v → w_config w = entry_config e → w_worker_id w = quote (sw_url e) →
  w_state w = sw_state e → w_disabled w = sw_disabled e → (sw_incarnation e ≠ "" → w_incarnation w = sw_incarnation e) →
  NoDup ((od_del (sw_url e) (v_workers v)).*2 ++ r) → (∀ i, i ∈ r → i ∈ reportable v) →
  (∀ i, i ∈ reportable v → counting v i → i ∈ (od_del (sw_url e) (v_workers v)).*2 ++ r) →
  entry_spec v e (add_object (sw_url e) w (set_refs (v_workers v) r v)).
Proof.
  intros Hv Hc Hid Hst Hd Hinc Hnd Hr Hk. split_and!.
  - apply add_object_wf; try done. unfold w_url. by rewrite Hc.
  - by apply add_object_keeps.
  - exists (v_next v), w. simpl. rewrite od_get_set, decide_True by done. rewrite lookup_insert_eq. done.
  - simpl. lia.
  - intros url. simpl. apply keys_set.
  - intros url Hne. split; simpl; [by rewrite od_get_set, decide_False|].
    intros i Hi. rewrite lookup_insert_ne; [done|]. apply od_get_ref in Hi as [_ Hi]; [|done].
    assert (i < v_next v); [|lia]. apply reportable_lt; [done|]. apply elem_of_app. by left.
  - intros _. exists (v_next v). simpl. by rewrite od_get_set, decide_True.
Qed.

Lemma apply_entry_spec uuid v e : view_wf v → entry_spec v e (apply_entry uuid v e).
Proof.
  intros Hv. unfold apply_entry.
  set (w0 := set_status (sw_state e) (sw_disabled e) (adopt_incarnation e (new_worker (entry_config e) (uuid (v_next v))))).
  assert (w_config w0 = entry_config e ∧ w_worker_id w0 = quote (sw_url e) ∧
    (sw_incarnation e ≠ "" → w_incarnation w0 = sw_incarnation e)) as (Hc0 & Hid0 & Hinc0).
  { subst w0. unfold adopt_incarnation. case_bool_decide; done. }
  assert (w_state w0 = sw_state e ∧ w_disabled w0 = sw_disabled e) as [Hst0 Hd0].
  { subst w0. unfold adopt_incarnation. case_bool_decide; done. }
  destruct (od_get (sw_url e) (v_workers v)) as [i|] eqn:Hg.
  2: { replace v with (set_refs (v_workers v) (v_retiring v) v) at 2 by (by destruct v).
       apply od_get_None in Hg as Hn.
       apply add_object_spec; try done; [rewrite od_del_id by done; apply Hv| |by rewrite od_del_id by done].
       intros i Hi. apply elem_of_app. by right. }
  destruct (od_get_ref v (sw_url e) i Hv Hg) as [Hin Hi].
  destruct (vw_refs v Hv _ _ Hin) as (w & Hw & Hwu & Hwid). rewrite Hw.
  destruct (negb _ && negb _) eqn:E.
  - destruct (detach_wf v (sw_url e) i Hv Hg) as (r & Hcase & -> & Hnd).
    apply add_object_spec; try done.
    + intros j Hj. apply elem_of_app. destruct Hcase as [[-> _]| ->]; [by right|].
      apply elem_of_app in Hj as [Hj|Hj%list_elem_of_singleton]; [by right|subst; by left].
    + intros j Hj Hcj. apply elem_of_app in Hj as [Hj|Hj].
      * rewrite (od_get_perm _ _ _ (vw_keys v Hv) Hg) in Hj. apply elem_of_cons in Hj as [->|Hj]; [|set_solver].
        destruct Hcase as [[_ Hn]| ->]; [done|]. apply elem_of_app. right. apply elem_of_app. right. set_solver.
      * apply elem_of_app. right. destruct Hcase as [[-> _]| ->]; [done|]. apply elem_of_app. by left.
  - set (f := λ w : Worker, _). assert (∀ w', w_url w' = sw_url e → w_url (f w') = w_url w') as Hfu.
    { intros w' Hu. unfold f, adopt_incarnation, w_url. repeat case_match; simpl; try done; by rewrite <-Hu. }
    set (g := λ w' : Worker, if bool_decide (w_url w' = sw_url e) then f w' else w').
    assert (update_object i f v = update_object i g v) as ->.
    { unfold update_object. f_equal. apply map_eq. intros j. destruct (decide (i = j)) as [<-|].
      - rewrite !lookup_alter_eq, Hw. simpl. unfold g. by rewrite bool_decide_true.
      - by rewrite !lookup_alter_ne. }
    assert (∀ w', w_worker_id (f w') = w_worker_id w' ∧ w_active_requests (f w') = w_active_requests w' ∧
      w_routed_requests (f w') = w_routed_requests w') as Hf.
    { intros w'. unfold f, adopt_incarnation. by repeat case_match. }
    split_and!.
    + apply update_object_wf; [|done]. intros w'. unfold g. destruct (bool_decide (w_url w' = _)) eqn:Eu; [|done].
      apply bool_decide_eq_true in Eu. split; [by apply Hfu|apply Hf].
    + apply update_object_keeps. intros w'. unfold g. destruct (bool_decide (w_url w' = _)); [apply Hf|done].
    + exists i, (f w). simpl. rewrite lookup_alter_eq, Hw. simpl. unfold g. rewrite bool_decide_true by done.
      split_and!; try done.
      * unfold f, adopt_incarnation. destruct (bool_decide (_ ≠ _) || bool_decide (_ ≠ _)) eqn:Ec.
        { by destruct (bool_decide (sw_incarnation e = _)). }
        apply orb_false_iff in Ec as [E1%bool_decide_eq_false%dec_stable E2%bool_decide_eq_false%dec_stable].
        assert (w_config w = entry_config e) as Hcw.
        { unfold w_model, w_capabilities, w_url in *. destruct (w_config w), (entry_config e) eqn:Ee.
          simpl in *. unfold entry_config in Ee. simplify_eq/=. done. }
        by destruct (bool_decide (sw_incarnation e = _)).
      * intros Hne. unfold f, adopt_incarnation. rewrite bool_decide_false by done. by repeat case_match.
    + done.
    + intros url. simpl. split; [by right|]. intros [->|?]; [|done]. apply list_elem_of_fmap. by exists (sw_url e, i).
    + intros url Hne. split; [done|]. intros j Hj. simpl. rewrite lookup_alter_ne; [done|]. intros ->.
      apply od_get_Some_elem in Hj. destruct (vw_refs v Hv _ _ Hj) as (w' & Hw' & Hu' & _). congruence.
    + intros (j & w' & Hj & Hw' & Hne & Hinc). rewrite Hg in Hj. simplify_eq.
      rewrite !bool_decide_false in E by done. done.
Qed.

Lemma apply_entries_spec uuid es v :
  view_wf v → NoDup (map sw_url es) →
  let v' := foldl (apply_entry uuid) v es in
  view_wf v' ∧ keeps_counts v v' ∧ v_next v ≤ v_next v' ∧
  (∀ url, url ∈ od_keys (v_workers v') ↔ url ∈ map sw_url es ∨ url ∈ od_keys (v_workers v)) ∧
  (∀ url, url ∉ map sw_url es → same_at v v' url) ∧
  (∀ e, e ∈ es → shows v' e ∧
     (replaces v e → ∃ j, od_get (sw_url e) (v_workers v') = Some j ∧ v_next v ≤ j)).
Proof.
  revert v. induction es as [|e es IH]; intros v Hv Hnd v'.
  { subst v'. simpl. split_and!; [done|done|done|set_solver|by split|]. intros e He. by apply not_elem_of_nil in He. }
  simpl in Hnd. apply NoDup_cons in Hnd as [He Hnd].
  destruct (apply_entry_spec uuid v e Hv) as (Hv1 & Hk1 & Hs1 & Hn1 & Hkeys1 & Hsame1 & Hrep1).
  destruct (IH _ Hv1 Hnd) as (Hv2 & Hk2 & Hn2 & Hkeys2 & Hsame2 & Hes). subst v'. simpl.
  split_and!; [done|by etransitivity|lia| | |].
  - intros url. rewrite Hkeys2, Hkeys1. set_solver.
  - intros url [Hne Hin]%not_elem_of_cons. eapply same_at_trans; [by apply Hsame1|by apply Hsame2].
  - intros e' [->|Hin]%elem_of_cons.
    + split; [by eapply same_at_shows; [apply Hsame2|]|].
      intros Hr. destruct (Hrep1 Hr) as (j & Hj & Hle). exists j. destruct (Hsame2 _ He) as [-> _]. done.
    + destruct (Hes e' Hin) as [Hs Hr]. split; [done|]. intros (i & w & Hg & Hw & Hinc).
      assert (sw_url e' ≠ sw_url e) as Hne.
      { intros Heq. apply He. rewrite <-Heq. apply list_elem_of_In, in_map, list_elem_of_In, Hin. }
      destruct (Hsame1 _ Hne) as [Hg1 Ho1]. destruct Hr as (j & Hj & Hle).
      { exists i, w. rewrite Hg1, (Ho1 i Hg). done. }
      exists j. split; [done|lia].
Qed.

Lemma retire_refs ws v i :
  _retire i (set_refs ws (v_retiring v) v) = set_refs ws (v_retiring (_retire i v)) v.
Proof. unfold _retire, active_of, routed_of. simpl. by destruct (_ || _). Qed.

Lemma drop_one_spec v url i :
  view_wf v → od_get url (v_workers v) = Some i →
  let v' := _retire i (set_refs (od_del url (v_workers v)) (v_retiring v) v) in
  view_wf v' ∧ keeps_counts v v' ∧ v_objects v' = v_objects v ∧ v_next v' = v_next v ∧
  v_workers v' = od_del url (v_workers v).
Proof.
  intros Hv Hg v'. destruct (detach_wf v url i Hv Hg) as (r & Hcase & Heq & Hnd).
  assert (v' = set_refs (od_del url (v_workers v)) r v) as ->.
  { subst v'. rewrite retire_refs. by rewrite Heq. }
  split_and!; try done; [split; simpl|].
  - apply od_del_NoDup, Hv.
  - done.
  - intros u j Hj. apply Hv. by apply list_elem_of_filter in Hj as [_ Hj].
  - intros j Hj. destruct Hcase as [[-> _]| ->]; [by apply Hv|].
    apply elem_of_app in Hj as [Hj|Hj%list_elem_of_singleton]; [by apply Hv|subst j].
    apply od_get_ref in Hg as [Hg _]; [|done]. destruct (vw_refs v Hv _ _ Hg) as (w & Hw & _). eauto.
  - apply Hv.
  - intros j Hj Hc. split; [|done]. apply elem_of_app in Hj as [Hj|Hj].
    + rewrite (od_get_perm _ _ _ (vw_keys v Hv) Hg) in Hj. apply elem_of_cons in Hj as [->|Hj].
      * destruct Hcase as [[_ Hn]| ->]; [done|]. apply elem_of_app. right. simpl. apply elem_of_app. right. by left.
      * apply elem_of_app. by left.
    + apply elem_of_app. right. simpl. destruct Hcase as [[-> _]| ->]; [done|]. apply elem_of_app. by left.
Qed.

Lemma drop_loop_spec (seen : list string) l v :
  view_wf v → NoDup (od_keys l) → (∀ url i, (url, i) ∈ l → od_get url (v_workers v) = Some i) →
  let v' := foldl (λ v kv, if bool_decide (kv.1 ∈ seen) then v
                 else _retire kv.2 (set_refs (od_del kv.1 (v_workers v)) (v_retiring v) v)) v l in
  view_wf v' ∧ keeps_counts v v' ∧ v_objects v' = v_objects v ∧ v_next v' = v_next v ∧
  ∀ url, od_get url (v_workers v') =
    if bool_decide (url ∈ od_keys l ∧ url ∉ seen) then None else od_get url (v_workers v).
Proof.
  revert v. induction l as [|[url i] l IH]; intros v Hv Hnd Hl v'.
  { by subst v'. }
  simpl in Hnd. apply NoDup_cons in Hnd as [Hu Hnd]. subst v'. simpl.
  destruct (bool_decide (url ∈ seen)) eqn:E; bool_simpl.
  - destruct (IH v Hv Hnd) as (? & ? & ? & ? & Hg); [intros; apply Hl; by right|]. split_and!; try done.
    intros u. rewrite Hg. simpl.
    rewrite (bool_decide_ext (u ∈ url :: od_keys l ∧ u ∉ seen) (u ∈ od_keys l ∧ u ∉ seen)); [done|].
    rewrite elem_of_cons. naive_solver.
  - destruct (drop_one_spec v url i Hv (Hl _ _ ltac:(by left))) as (Hv1 & Hk1 & Ho1 & Hn1 & Hw1).
    set (v1 := _retire i _) in *. destruct (IH v1 Hv1 Hnd) as (? & ? & Ho & Hn & Hg).
    { intros u j Hj. rewrite Hw1, od_get_del. rewrite decide_False; [apply Hl; by right|].
      intros ->. apply Hu, list_elem_of_fmap. by exists (url, j). }
    split_and!; [done|by etransitivity|congruence|congruence|].
    intros u. rewrite Hg, Hw1, od_get_del. simpl.
    destruct (decide (u = url)) as [->|Hne].
    + rewrite (bool_decide_true (url ∈ url :: _ ∧ _)) by (split; [by left|done]). by case_match.
    + rewrite (bool_decide_ext (u ∈ url :: od_keys l ∧ u ∉ seen) (u ∈ od_keys l ∧ u ∉ seen)); [done|].
      rewrite elem_of_cons. naive_solver.
Qed.

Lemma view_apply_spec uuid sn v :
  view_wf v → NoDup (map sw_url (sn_workers sn)) →
  let v' := view_apply uuid sn v in
  view_wf v' ∧ keeps_counts v v' ∧ v_last_applied_seq v' = sn_seq sn ∧ v_last_applied_epoch v' = sn_epoch sn ∧
  (∀ url, url ∈ od_keys (v_workers v') ↔ url ∈ map sw_url (sn_workers sn)) ∧
  (∀ e, e ∈ sn_workers sn → shows v' e ∧
     (replaces v e → ∃ j, od_get (sw_url e) (v_workers v') = Some j ∧ j ∉ reportable v)).
Proof.
  intros Hv Hnd v'. destruct (apply_entries_spec uuid (sn_workers sn) v Hv Hnd) as (Hv1 & Hk1 & Hn1 & Hkeys & _ & Hes).
  set (v1 := foldl _ v _) in *.
  destruct (drop_loop_spec (map sw_url (sn_workers sn)) (v_workers v1) v1 Hv1 (vw_keys v1 Hv1))
    as (Hv2 & Hk2 & Ho2 & Hn2 & Hg2); [intros url i; by apply od_get_elem, (vw_keys v1 Hv1)|].
  assert (∃ v2, v' = mkView (v_objects v2) (v_next v2) (v_workers v2) (v_retiring v2) (sn_seq sn) (sn_epoch sn) ∧
    v2 = drop_unseen (map sw_url (sn_workers sn)) v1) as (v2 & -> & E2) by by eexists.
  unfold drop_unseen in E2. rewrite <-E2 in *. clear E2.
  split_and!; [by destruct Hv2; split|by etransitivity; [apply Hk1|]|done|done| |]; simpl.
  - intros url. destruct (decide (url ∈ map sw_url (sn_workers sn))) as [Hin|Hin].
    + split; [done|]. intros _. apply dec_stable. intros Hn%od_get_None. rewrite Hg2, bool_decide_false in Hn by naive_solver.
      apply od_get_None in Hn. apply Hn, Hkeys. by left.
    + split; [|done]. intros Hk. exfalso. destruct (decide (url ∈ od_keys (v_workers v1))) as [Hk1'|Hk1'].
      * specialize (Hg2 url). rewrite bool_decide_true in Hg2 by done. by apply od_get_None in Hg2.
      * apply od_get_None in Hk1'. specialize (Hg2 url). rewrite Hk1' in Hg2.
        assert (od_get url (v_workers v2) = None) as H%od_get_None; [|done]. rewrite Hg2. by case_bool_decide.
  - intros e He. assert (sw_url e ∈ map sw_url (sn_workers sn)) as Hin by (apply list_elem_of_In, in_map, list_elem_of_In, He).
    assert (od_get (sw_url e) (v_workers v2) = od_get (sw_url e) (v_workers v1)) as Heq.
    { rewrite Hg2, bool_decide_false; [done|]. naive_solver. }
    destruct (Hes e He) as [(i & w & Hg & Hw & ?) Hr]. split.
    + exists i, w. simpl. by rewrite Heq, Ho2.
    + intros Hrep. destruct (Hr Hrep) as (j & Hj & Hle). exists j. rewrite Heq. split; [done|].
      intros Hj'%reportable_lt; [lia|done].
Qed.

(** C14. Applying a snapshot makes the data plane's view exactly the snapshot's
    workers, each with the published status and configuration; a worker that was
    re-registered gets a fresh object, so late results of its predecessor cannot
    reach it; and no worker object with requests in flight or counted is lost from
    what the next counter report carries. *)
Theorem view_mirrors_snapshot uuid sn v :
  view_wf v → NoDup (map sw_url (sn_workers sn)) →
  let v' := view_apply uuid sn v in
  view_wf v' ∧ keeps_counts v v' ∧ v_last_applied_seq v' = sn_seq sn ∧ v_last_applied_epoch v' = sn_epoch sn ∧
  (∀ url, url ∈ od_keys (v_workers v') ↔ url ∈ map sw_url (sn_workers sn)) ∧
  (∀ e, e ∈ sn_workers sn → shows v' e ∧
     (replaces v e → ∃ j, od_get (sw_url e) (v_workers v') = Some j ∧ j ∉ reportable v)).
Proof. apply view_apply_spec. Qed.

Lemma view_init_wf : view_wf view_init.
Proof. split; [apply NoDup_nil_2|apply NoDup_nil_2| | |done]; intros * []%not_elem_of_nil. Qed.

Definition ex_entry (url incarnation : string) : SnapshotWorker :=
  mkEntryOf url (quote url) incarnation None ["chat"] true HEALTHY false.
Definition ex_uuid (n : nat) : string := "uuid".

(** A request is in flight to [a] when [a] is re-registered and [b] deleted: [a]'s
    old object 0 is kept for the report, the new one is object 2. *)
Lemma view_mirrors_snapshot_witness :
  let sn1 := mkSnapshot 1 1 "e" 0 [ex_entry "http://a" "i1"; ex_entry "http://b" "i1"] in
  let sn2 := mkSnapshot 1 2 "e" 1 [ex_entry "http://a" "i2"] in
  let v1 := update_object 0 increment_active (view_apply ex_uuid sn1 view_init) in
  let v2 := view_apply ex_uuid sn2 v1 in
  keeps_counts v1 v2 ∧ v_workers v2 = [("http://a", 2)] ∧ v_retiring v2 = [0] ∧ active_of v2 0 = 1%Z.
Proof.
  intros sn1 sn2 v1 v2. split_and!; [|vm_compute; reflexivity..].
  assert (view_wf v1) as Hv1.
  { apply update_object_wf; [done|]. apply (view_mirrors_snapshot ex_uuid sn1 view_init); [apply view_init_wf|].
    apply (bool_decide_unpack _). vm_compute. done. }
  apply (view_mirrors_snapshot ex_uuid sn2 v1); [done|]. apply (bool_decide_unpack _). vm_compute. done.
Defined.
