(* ===== verification/WeightUpdate.v ===== *)
(** * The weight-update transaction

    Models the parts of the multi-process router a weight update runs through: the
    data planes' registrations and heartbeats ([internal_channel.py]), the snapshot
    acknowledgement barrier ([control_plane.py]), the transaction itself and journal
    recovery ([app.py]), over the snapshot hand-off and the journal.  Times are
    integers; the worker's admin requests are their outcomes. *)
From S2P Require Import Prelude PyVal RouterWorker WorkerSnapshot UpdateJournal.

(** ** The internal channel *)
Record DataPlaneHello := mkHello { he_dp_index : Z; he_generation : Z; he_pid : Z }.

Record DataPlaneHeartbeat := mkBeat {
  hb_dp_index : Z; hb_generation : Z; hb_pid : Z;
  hb_last_applied_seq : Z; hb_last_applied_epoch : string; hb_serving : bool }.

Record DataPlaneRecord := mkRecord {
  dr_generation : Z; dr_pid : Z; dr_last_applied_seq : Z; dr_last_applied_epoch : string;
  dr_serving : bool; dr_last_seen_at : Z }.

Abbreviation data_planes := (gmap Z DataPlaneRecord).

Definition register (hello : DataPlaneHello) (now : Z) (s : data_planes) : res data_planes :=
  let current := s !! he_dp_index hello in
  let fenced := match current with
                | Some c => bool_decide (he_generation hello < dr_generation c)%Z ||
                    bool_decide (he_generation hello = dr_generation c ∧ he_pid hello ≠ dr_pid c)
                | None => false
                end in
  if (fenced : bool) then Raise StaleGenerationError
  else
    let '(seq, epoch, serving) :=
      match current with
      | Some c =>
          if bool_decide (he_generation hello = dr_generation c ∧ he_pid hello = dr_pid c)
          then (dr_last_applied_seq c, dr_last_applied_epoch c, dr_serving c) else (0%Z, "", true)
      | None => (0%Z, "", true)
      end in
    Ok (<[he_dp_index hello := mkRecord (he_generation hello) (he_pid hello) seq epoch serving now]> s).

Definition heartbeat (beat : DataPlaneHeartbeat) (now : Z) (s : data_planes) : res data_planes :=
  match s !! hb_dp_index beat with
  | None => Raise UnknownDataPlaneError
  | Some c =>
      if bool_decide (dr_generation c < hb_generation beat)%Z then Raise UnknownDataPlaneError
      else if bool_decide (hb_generation beat < dr_generation c)%Z || bool_decide (hb_pid beat ≠ dr_pid c)
      then Raise StaleGenerationError
      else
        let seq := if bool_decide (hb_last_applied_epoch beat = dr_last_applied_epoch c)
                   then Z.max (dr_last_applied_seq c) (hb_last_applied_seq beat) else hb_last_applied_seq beat in
        Ok (<[hb_dp_index beat := mkRecord (hb_generation beat) (hb_pid beat) seq (hb_last_applied_epoch beat)
               (hb_serving beat) now]> s)
  end.

Definition drop_plane (i : Z) (s : data_planes) : data_planes := delete i s.

(** ** The acknowledgement barrier *)
Section barrier.
Context (cp_epoch : string) (dp_liveness_secs : Z) (expected_data_planes : option nat).

Definition live (now : Z) (s : data_planes) : data_planes :=
  filter (λ kv, now - dr_last_seen_at kv.2 ≤ dp_liveness_secs)%Z s.

Definition lagging (target_seq : Z) (r : DataPlaneRecord) : bool :=
  negb (bool_decide (dr_last_applied_epoch r = cp_epoch)) || bool_decide (dr_last_applied_seq r < target_seq)%Z.

Definition expected_indices (s : data_planes) : gset Z :=
  match expected_data_planes with
  | Some n => list_to_set (Z.of_nat <$> seq 0 n)
  | None => dom s
  end.

(** What one round of the barrier's loop still waits for. *)
Definition barrier_pending (target_seq now : Z) (s : data_planes) : gset Z :=
  dom (filter (λ kv, lagging target_seq kv.2) (live now s)) ∪ (expected_indices s ∖ dom (live now s)).
End barrier.

(** ** The transaction *)
Definition _find_worker (workers : list Worker) (worker_id : string) : option nat :=
  fst <$> list_find (λ w, w_worker_id w = worker_id ∨ w_url w = unquote worker_id) workers.

Definition target_workers (workers : list Worker) : list string :=
  w_worker_id <$> filter (λ w, is_dead w = false) workers.

Definition on_targets (targets : list string) (f : Worker → Worker) (workers : list Worker) : list Worker :=
  (λ w, if bool_decide (w_worker_id w ∈ targets) then f w else w) <$> workers.

Definition previous_disabled (targets : list string) (workers : list Worker) : gmap string bool :=
  list_to_map ((λ w, (w_worker_id w, w_disabled w)) <$> filter (λ w, w_worker_id w ∈ targets) workers).

(** [results]: [None] after a crash mid-broadcast, [Some []] when nothing was sent. *)
Definition outcome_safe (results : option (list bool)) : bool :=
  match results with Some l => forallb id l | None => false end.

Definition _restore_admin_disabled_state (targets : list string) (previous : gmap string bool) (safe : bool)
    (workers : list Worker) : list Worker :=
  on_targets targets (λ w, set_disabled (if safe then default true (previous !! w_worker_id w) else true) w) workers.

(** The journal operation that closes a transaction. *)
Definition resolve_journal (safe : bool) (targets : list string) : write_op :=
  if safe then OClear else OKeep targets.

(** ** Registry changes, made under the update lock

    [discarded] is what [journal.discard] returned to a re-enabling update.  The
    control plane has no voice owner to keep. *)
Inductive registry_op :=
| RAdd (w : Worker)
| RDelete (worker_id : string)
| RUpdate (worker_id : string) (config : WorkerConfig) (disabled dead : option bool) (discarded : bool).

Definition apply_worker_update (config : WorkerConfig) (disabled dead : option bool) (w : Worker) : res Worker :=
  w ← replace_config config w;
  let w := match disabled with Some b => set_disabled b w | None => w end in
  mret (match dead with
        | Some true => mark_dead None w
        | Some false => clear_dead w
        | None => w
        end).

Definition registry_apply (o : registry_op) (workers : list Worker) : list Worker :=
  match o with
  | RAdd w => if existsb (λ x, bool_decide (w_url x = w_url w)) workers then workers else workers ++ [w]
  | RDelete worker_id =>
      match _find_worker workers worker_id with Some i => delete i workers | None => workers end
  | RUpdate worker_id config disabled dead discarded =>
      match _find_worker workers worker_id with
      | Some i => match workers !! i with
                  | Some w =>
                      if bool_decide (disabled = Some false) && negb discarded then workers
                      else match apply_worker_update config disabled dead w with
                           | Ok w => <[i := w]> workers
                           | Raise _ => workers
                           end
                  | None => workers
                  end
      | None => workers
      end
  end.

(** ** Recovery *)
Definition recover_worker_pool_from_journal (unresolved : res (list string)) (workers : list Worker) : list Worker :=
  match unresolved with
  | Raise _ => set_disabled true <$> workers
  | Ok ids =>
      foldl (λ ws worker_id, match _find_worker ws worker_id with
                             | Some i => alter (set_disabled true) i ws
                             | None => ws
                             end) workers ids
  end.

Definition _worker_id_is_journaled (unresolved : res (list string)) (worker_id : string) : bool :=
  match unresolved with Ok ids => bool_decide (worker_id ∈ ids) | Raise _ => true end.

(** [create_worker] after its checks: a journaled id starts disabled. *)
Definition admit_worker (unresolved : res (list string)) (w : Worker) (workers : list Worker) : list Worker :=
  registry_apply (RAdd (if _worker_id_is_journaled unresolved (w_worker_id w) then set_disabled true w else w)) workers.

(** ** Recovery disables what the journal lists *)

(** URLs are unique and ids are theirs. *)
Definition registry_ok (workers : list Worker) : Prop :=
  NoDup (w_url <$> workers) ∧ Forall (λ w, w_worker_id w = quote (w_url w)) workers.

Lemma find_worker_at workers i w :
  registry_ok workers → workers !! i = Some w → _find_worker workers (w_worker_id w) = Some i.
Proof.
  intros [Hnd Hid] Hi. assert (w_worker_id w = quote (w_url w)) as Hw by by eapply (Forall_lookup_1 _ _ _ _ Hid).
  unfold _find_worker. rewrite (proj2 (list_find_Some _ workers i w)); [done|]. split_and!; [done|by left|].
  intros j x Hj Hlt [Hx|Hx].
  - assert (w_worker_id x = quote (w_url x)) as Hx' by by eapply (Forall_lookup_1 _ _ _ _ Hid).
    rewrite Hx, Hw in Hx'. apply (inj quote) in Hx'.
    assert (i = j); [|lia]. eapply NoDup_lookup; [exact Hnd| |]; rewrite list_lookup_fmap; [by rewrite Hi|by rewrite Hj; simpl; f_equal].
  - rewrite Hw, unquote_quote in Hx.
    assert (i = j); [|lia]. eapply NoDup_lookup; [exact Hnd| |]; rewrite list_lookup_fmap; [by rewrite Hi|by rewrite Hj; simpl; f_equal].
Qed.

Definition same_identity (w w' : Worker) : Prop := w_url w' = w_url w ∧ w_worker_id w' = w_worker_id w.

Lemma registry_ok_alter f i workers :
  (∀ w, same_identity w (f w)) → registry_ok workers → registry_ok (alter f i workers).
Proof.
  intros Hf [Hnd Hid]. split.
  - assert (w_url <$> alter f i workers = w_url <$> workers) as ->; [|done].
    apply list_eq. intros j. rewrite !list_lookup_fmap. destruct (decide (i = j)) as [->|Hne].
    + rewrite list_lookup_alter_eq. destruct (workers !! j) as [w|]; simpl; [|done]. by destruct (Hf w) as [-> _].
    + by rewrite list_lookup_alter_ne.
  - apply Forall_lookup. intros j w Hj. destruct (decide (i = j)) as [->|Hne].
    + rewrite list_lookup_alter_eq in Hj. destruct (workers !! j) as [w0|] eqn:E; simplify_eq/=.
      destruct (Hf w0) as [-> ->]. by eapply (Forall_lookup_1 _ _ _ _ Hid).
    + rewrite list_lookup_alter_ne in Hj by done. by eapply (Forall_lookup_1 _ _ _ _ Hid).
Qed.

Lemma set_disabled_identity b w : same_identity w (set_disabled b w).
Proof. done. Qed.

(** The worker of [worker_id], if any, is disabled. *)
Definition all_disabled (worker_id : string) (workers : list Worker) : Prop :=
  Forall (λ w, w_worker_id w = worker_id → w_disabled w = true) workers.

Lemma recover_step ws worker_id :
  registry_ok ws →
  let ws' := match _find_worker ws worker_id with Some i => alter (set_disabled true) i ws | None => ws end in
  registry_ok ws' ∧ all_disabled worker_id ws' ∧ ∀ wid, all_disabled wid ws → all_disabled wid ws'.
Proof.
  intros Hok ws'. assert (∀ wid i, all_disabled wid ws → all_disabled wid (alter (set_disabled true) i ws)) as Hmono.
  { intros wid i Hall. apply Forall_lookup. intros j w Hj. destruct (decide (i = j)) as [->|Hne].
    - rewrite list_lookup_alter_eq in Hj. destruct (ws !! j); by simplify_eq/=.
    - rewrite list_lookup_alter_ne in Hj by done. by eapply Forall_lookup_1 in Hall. }
  subst ws'. destruct (_find_worker ws worker_id) as [i|] eqn:E.
  - split_and!; [by apply registry_ok_alter| |by intros; apply Hmono].
    apply Forall_lookup. intros j w Hj Hwid. destruct (decide (i = j)) as [->|Hne].
    + rewrite list_lookup_alter_eq in Hj. destruct (ws !! j); by simplify_eq/=.
    + rewrite list_lookup_alter_ne in Hj by done. apply find_worker_at in Hj; [|done]. congruence.
  - split_and!; [done| |done]. apply Forall_lookup. intros j w Hj Hwid.
    apply find_worker_at in Hj; [|done]. congruence.
Qed.

Lemma recover_disables unresolved workers worker_id :
  registry_ok workers → match unresolved with Ok ids => worker_id ∈ ids | Raise _ => True end →
  all_disabled worker_id (recover_worker_pool_from_journal unresolved workers).
Proof.
  intros Hok Hin. destruct unresolved as [ids|e]; simpl.
  2: { apply Forall_fmap, Forall_forall. by intros. }
  revert workers Hok Hin. induction ids as [|i ids IH]; intros workers Hok Hin; [by apply not_elem_of_nil in Hin|].
  simpl. destruct (recover_step workers i Hok) as (Hok' & Hi & Hmono). 
  set (ws' := match _find_worker workers i with Some i => alter (set_disabled true) i workers | None => workers end) in *.
  apply elem_of_cons in Hin as [->|Hin]; [|by apply IH]. clear IH Hmono Hok.
  clearbody ws'. revert ws' Hok' Hi. induction ids as [|j ids IH]; intros ws' Hok' Hi; simpl; [done|].
  destruct (recover_step ws' j Hok') as (Hok2 & _ & Hm2). apply IH; [done|by apply Hm2].
Qed.

(** The disks journal operations go through, one after another under one
    schedule of faults, the disk they end with last. *)
Fixpoint visited (ops : list write_op) (d : disk) (fs : list bool) : list disk :=
  match ops with
  | [] => [d]
  | o :: ops => let w := (run_op o (mkWorld d [] fs)).1 in w_log w ++ visited ops (w_disk w) (w_faults w)
  end.

Lemma visited_guarding wid ops d fs :
  Forall (retains wid) ops → guarding wid d → Forall (guarding wid) (visited ops d fs).
Proof.
  intros Hops. revert d fs. induction Hops as [|o ops Ho _ IH]; intros d fs Hd; simpl; [by apply Forall_singleton|].
  destruct Hd as (Hs & Hj & Hc). destruct (op_stays wid o d Hs Hj Hc Ho) as (js & Hjs & Hst).
  destruct (run_op o (mkWorld d [] fs)) as [w r] eqn:E. simpl.
  destruct (triple_run _ _ _ _ _ _ _ _ _ Hst eq_refl E) as [Hlog Hend].
  assert (between js (w_disk w)) as Hb by by destruct r.
  apply Forall_app. split; [|by eapply IH, guarding_between].
  eapply Forall_impl; [exact Hlog|]. intros d1. by apply guarding_between.
Qed.

Lemma guarding_crash wid d d' :
  guarding wid d → crash d d' → match recovered d' with Ok ids => wid ∈ ids | Raise _ => True end.
Proof.
  intros (Hs & _ & Hc) Hcr. rewrite recovered_file_pending. apply Hc. by apply steady_crash.
Qed.

(** C13. Once a weight update's [journal.begin] returned, a target stays out of
    service across any host crash until an operation releases it: whatever journal
    operations follow, whichever OS calls fail and whenever the crash hits, the
    restarted router's recovery disables the target, and registering it again
    admits it disabled.  The begin is one on a usable directory ([ready]): every
    directory above the journal is durable, or the journal was never written there.
    After a begin whose directory sync failed that is not so, and then a retried begin may return
    without being durable ([retried_begin_can_vanish]). *)
Theorem update_survives_crash path ids d fs w ops wid d1 d' workers :
  ready d → begin true path ids (mkWorld d [] fs) = (w, Ok tt) → wid ∈ ids →
  Forall (retains wid) ops → d1 ∈ visited ops (w_disk w) (w_faults w) → crash d1 d' →
  registry_ok workers →
  all_disabled wid (recover_worker_pool_from_journal (recovered d') workers) ∧
  ∀ x, w_worker_id x = wid → Forall (λ y, w_url y ≠ w_url x) workers →
    ∃ x', admit_worker (recovered d') x workers = workers ++ [x'] ∧ w_worker_id x' = wid ∧ w_disabled x' = true.
Proof.
  intros Hr Hb Hin Hops Hd1 Hcr Hok.
  assert (guarding wid d1) as Hg.
  { pose proof (visited_guarding wid ops (w_disk w) (w_faults w) Hops ltac:(by eapply begin_guarding)) as Hv.
    by eapply Forall_forall in Hv. }
  pose proof (guarding_crash wid d1 d' Hg Hcr) as Hrec. split; [by apply recover_disables|].
  intros x Hx Hfresh. exists (set_disabled true x). split; [|done].
  unfold admit_worker, registry_apply. rewrite Hx.
  assert (_worker_id_is_journaled (recovered d') wid = true) as ->.
  { unfold _worker_id_is_journaled. destruct (recovered d'); [by rewrite bool_decide_true|done]. }
  assert (existsb (λ y, bool_decide (w_url y = w_url (set_disabled true x))) workers = false) as ->; [|done].
  apply not_true_iff_false. intros (y & Hy & Hu%bool_decide_eq_true)%existsb_exists.
  apply list_elem_of_In in Hy. eapply Forall_forall in Hfresh; [|done]. done.
Qed.

Definition ex_target (url : string) : Worker := set_status HEALTHY false (new_worker (mkWorkerConfig url None {["chat"]}) "i").

(** The update begins, [w2] is re-enabled, and the directory sync of that fails. *)
Lemma update_survives_crash_witness :
  let w1 := quote "http://w1" in
  let w2 := quote "http://w2" in
  let pool := [ex_target "http://w1"; ex_target "http://w2"] in
  let d := (begin true "/reload" [w1; w2] (mkWorld fresh [] [])).1 in
  ∃ d1 d', d1 ∈ visited [ODiscard w2] (w_disk d) [] ∧ crash d1 d' ∧
    all_disabled w1 (recover_worker_pool_from_journal (recovered d') pool).
Proof.
  intros w1 w2 pool d.
  set (last := w_disk (run_op (ODiscard w2) (mkWorld (w_disk d) [] [])).1).
  assert (last ∈ visited [ODiscard w2] (w_disk d) []) as Hlast.
  { unfold visited. apply elem_of_app. right. by left. }
  set (rebooted := mkDisk [DS; DS] (journal last) None [journal last]).
  assert (crash last rebooted) as Hcr.
  { unfold rebooted. replace [DS; DS] with (map (λ e, mkDir (d_exists e) true) (dirs last)) by (vm_compute; reflexivity).
    apply crash_kept; [vm_compute; by repeat constructor|]. vm_compute. by left. }
  exists last, rebooted. split; [exact Hlast|]. split; [exact Hcr|].
  destruct (update_survives_crash "/reload" [w1; w2] fresh [] d [ODiscard w2] w1 last rebooted pool) as [H _]; [..|exact H].
  - exists 0, 1. split_and!; [done|by left|done].
  - vm_compute. reflexivity.
  - by left.
  - repeat constructor. simpl. by vm_compute.
  - exact Hlast.
  - exact Hcr.
  - split; [apply (bool_decide_unpack _); vm_compute; done|]. repeat constructor.
Defined.

(** ** The running router

    One control plane process and its data planes; at most one process runs per
    data-plane index, the supervisor's contract.  Heartbeats may be delayed,
    reordered and delivered again. *)
Record dp := mkDp { dp_generation : Z; dp_pid : Z; dp_reader : SnapshotReader; dp_view : DataPlaneWorkerView }.

Inductive phase :=
| Idle
| Acking (targets : list string) (previous : gmap string bool) (target_seq : Z)
| Sending (targets : list string) (previous : gmap string bool) (target_seq : Z).

Record system := mkSystem {
  s_workers : list Worker;
  s_writer : SnapshotWriter;
  s_file : option snapshot_file;
  s_planes : data_planes;
  s_beats : list DataPlaneHeartbeat;
  s_dps : gmap Z dp;
  s_phase : phase;
}.

Definition with_workers ws s := mkSystem ws (s_writer s) (s_file s) (s_planes s) (s_beats s) (s_dps s) (s_phase s).
Definition with_planes ps s := mkSystem (s_workers s) (s_writer s) (s_file s) ps (s_beats s) (s_dps s) (s_phase s).
Definition with_beats bs s := mkSystem (s_workers s) (s_writer s) (s_file s) (s_planes s) bs (s_dps s) (s_phase s).
Definition with_dps ds s := mkSystem (s_workers s) (s_writer s) (s_file s) (s_planes s) (s_beats s) ds (s_phase s).
Definition with_phase p s := mkSystem (s_workers s) (s_writer s) (s_file s) (s_planes s) (s_beats s) (s_dps s) p.

(** [publish()] of the control plane, whose file write may fail. *)
Definition cp_publish (now : Z) (written : option fingerprint) (s : system) : system * res unit :=
  let '(wr, file, r) := publish (snapshot_workers (s_workers s)) now written (s_writer s) (s_file s) in
  (mkSystem (s_workers s) wr file (s_planes s) (s_beats s) (s_dps s) (s_phase s), r).

(** A round of [_refresh_loop]. *)
Definition dp_refresh (uuid : nat → string) (file : option snapshot_file) (d : dp) : dp :=
  match maybe_reload file (dp_reader d) with
  | (true, r) =>
      match rd_snapshot r with
      | Some sn => mkDp (dp_generation d) (dp_pid d) r (view_apply uuid sn (dp_view d))
      | None => mkDp (dp_generation d) (dp_pid d) r (dp_view d)
      end
  | (false, r) => mkDp (dp_generation d) (dp_pid d) r (dp_view d)
  end.

Definition dp_beat (i : Z) (serving : bool) (d : dp) : DataPlaneHeartbeat :=
  mkBeat i (dp_generation d) (dp_pid d) (v_last_applied_seq (dp_view d)) (v_last_applied_epoch (dp_view d)) serving.

Definition dp_update_object (j : nat) (f : Worker → Worker) (d : dp) : dp :=
  mkDp (dp_generation d) (dp_pid d) (dp_reader d) (update_object j f (dp_view d)).

Definition opt_res {A} (r : res A) (a : A) : A := match r with Ok a => a | Raise _ => a end.

(** An update up to the barrier, its journal entry written: without live workers it
    is refused; otherwise they are disabled and the change published.  A failed
    publish leaves by its exception. *)
Definition begin_update (now : Z) (written : option fingerprint) (s : system) : system :=
  let targets := target_workers (s_workers s) in
  if bool_decide (targets = []) then s else
  let previous := previous_disabled targets (s_workers s) in
  let s := with_workers (on_targets targets (set_disabled true) (s_workers s)) s in
  let '(s, r) := cp_publish now written s in
  if is_ok r then with_phase (Acking targets previous (sw_seq (s_writer s))) s else s.

(** Its [finally] block; the exception of the last publish ends the request too. *)
Definition end_update (results : option (list bool)) (targets : list string) (previous : gmap string bool)
    (now : Z) (written : option fingerprint) (s : system) : system :=
  let s := with_workers (_restore_admin_disabled_state targets previous (outcome_safe results) (s_workers s)) s in
  with_phase Idle (cp_publish now written s).1.

Section router.
Context (uuid : nat → string) (cp_epoch : string) (dp_liveness_secs : Z) (data_plane_count : nat).
Context (failure_threshold success_threshold : Z).

(** Health and request events on the control plane's worker objects. *)
Inductive worker_event : Worker → Worker → Prop :=
| we_probe epoch r t w : worker_event w (check_end failure_threshold success_threshold epoch r t w)
| we_failure code error t w : worker_event w (proxy_request_failure failure_threshold code error t w).

(** What a request does to the worker object it holds. *)
Inductive request_event : (Worker → Worker) → Prop :=
| re_start : request_event increment_active
| re_end : request_event (λ w, opt_res (decrement_active w) w)
| re_routed code service_class : request_event (record_routed_request code service_class).

Inductive rstep : system → system → Prop :=
| r_publish now written s : rstep s (cp_publish now written s).1
| r_health i w w' s :
    s_workers s !! i = Some w → worker_event w w' → rstep s (with_workers (<[i := w']> (s_workers s)) s)
| r_registry o s :
    s_phase s = Idle → (∀ w, o = RAdd w → w_worker_id w = quote (w_url w)) →
    rstep s (with_workers (registry_apply o (s_workers s)) s)
| r_start i generation pid s :
    rstep s (with_dps (<[i := mkDp generation pid reader_init view_init]> (s_dps s)) s)
| r_exit i s : rstep s (with_dps (delete i (s_dps s)) s)
| r_refresh i d s :
    s_dps s !! i = Some d → rstep s (with_dps (<[i := dp_refresh uuid (s_file s) d]> (s_dps s)) s)
| r_request i d j f s :
    s_dps s !! i = Some d → request_event f → rstep s (with_dps (<[i := dp_update_object j f d]> (s_dps s)) s)
| r_hello hello now s : rstep s (with_planes (opt_res (register hello now (s_planes s)) (s_planes s)) s)
| r_beat i d serving s :
    s_dps s !! i = Some d → rstep s (with_beats (dp_beat i serving d :: s_beats s) s)
| r_deliver b now s :
    b ∈ s_beats s → rstep s (with_planes (opt_res (heartbeat b now (s_planes s)) (s_planes s)) s)
| r_begin now written s : s_phase s = Idle → rstep s (begin_update now written s)
| r_acked targets previous target_seq now s :
    s_phase s = Acking targets previous target_seq →
    barrier_pending cp_epoch dp_liveness_secs (Some data_plane_count) target_seq now (s_planes s) = ∅ →
    rstep s (with_phase (Sending targets previous target_seq) s)
| r_timeout targets previous target_seq now written s :
    s_phase s = Acking targets previous target_seq →
    rstep s (end_update (Some []) targets previous now written s)
| r_finish results targets previous target_seq now written s :
    s_phase s = Sending targets previous target_seq →
    rstep s (end_update results targets previous now written s).

(** A data plane's view mirrors the last snapshot its reader took. *)
Definition snapshot_ok (sn : WorkerSnapshot) : Prop :=
  NoDup (map sw_url (sn_workers sn)) ∧ Forall (λ e, sw_worker_id e = quote (sw_url e)) (sn_workers sn).

Definition mirrors (v : DataPlaneWorkerView) (sn : WorkerSnapshot) : Prop :=
  v_last_applied_seq v = sn_seq sn ∧ v_last_applied_epoch v = sn_epoch sn ∧
  ∀ url i w, od_get url (v_workers v) = Some i → v_objects v !! i = Some w →
    ∃ e, e ∈ sn_workers sn ∧ w_worker_id w = sw_worker_id e ∧ w_disabled w = sw_disabled e.

Definition dp_ok (d : dp) : Prop :=
  view_wf (dp_view d) ∧
  match rd_snapshot (dp_reader d) with
  | None => v_workers (dp_view d) = [] ∧ v_last_applied_epoch (dp_view d) = ""
  | Some sn => snapshot_ok sn ∧ mirrors (dp_view d) sn
  end.

(** A control plane that just started: data planes and the snapshot file may be
    left from earlier epochs. *)
Definition router_start (s : system) : Prop :=
  cp_epoch ≠ "" ∧ registry_ok (s_workers s) ∧ s_writer s = mkWriter cp_epoch 0 ∧
  s_planes s = ∅ ∧ s_beats s = [] ∧ s_phase s = Idle ∧
  (∀ f sn, s_file s = Some f → sf_content f = Some sn → sn_epoch sn ≠ cp_epoch ∧ snapshot_ok sn) ∧
  ∀ i d, s_dps s !! i = Some d → dp_ok d ∧ ∀ sn, rd_snapshot (dp_reader d) = Some sn → sn_epoch sn ≠ cp_epoch.

(** The file holds this epoch's snapshot number [n] or a later one. *)
Definition file_at (n : Z) (s : system) : Prop :=
  ∃ f sn, s_file s = Some f ∧ sf_content f = Some sn ∧ sn_epoch sn = cp_epoch ∧ (n ≤ sn_seq sn)%Z.
(** The process has read nothing yet, or snapshot [n] or a later one. *)
Definition ahead (n : Z) (d : dp) : Prop :=
  match rd_snapshot (dp_reader d) with None => True | Some sn => sn_epoch sn = cp_epoch ∧ (n ≤ sn_seq sn)%Z end.
(** A report of snapshot [n] by index [i] holds of whatever process runs there. *)
Definition claim (s : system) (i : Z) (epoch : string) (n : Z) : Prop :=
  epoch = cp_epoch → file_at n s ∧ ∀ d, s_dps s !! i = Some d → ahead n d.

Definition targets_disabled (targets : list string) (workers : list Worker) : Prop :=
  Forall (λ w, w_worker_id w ∈ targets → w_disabled w = true) workers.
Definition withholds (targets : list string) (sn : WorkerSnapshot) : Prop :=
  Forall (λ e, sw_worker_id e ∈ targets → sw_disabled e = true) (sn_workers sn).

Definition updating (targets : list string) (n : Z) (s : system) : Prop :=
  targets_disabled targets (s_workers s) ∧
  (∃ f sn, s_file s = Some f ∧ sf_content f = Some sn ∧ sn_epoch sn = cp_epoch ∧ (n ≤ sn_seq sn)%Z ∧ withholds targets sn) ∧
  ∀ i d sn, s_dps s !! i = Some d → rd_snapshot (dp_reader d) = Some sn → sn_epoch sn = cp_epoch → (n ≤ sn_seq sn)%Z →
    withholds targets sn.

Record router_inv (s : system) : Prop := {
  ri_epoch : cp_epoch ≠ "" ∧ sw_epoch (s_writer s) = cp_epoch;
  ri_registry : registry_ok (s_workers s);
  ri_file : ∀ f sn, s_file s = Some f → sf_content f = Some sn →
    snapshot_ok sn ∧ (sn_epoch sn = cp_epoch → sn_seq sn ≤ sw_seq (s_writer s))%Z;
  ri_dps : ∀ i d, s_dps s !! i = Some d →
    dp_ok d ∧ ∀ sn, rd_snapshot (dp_reader d) = Some sn → sn_epoch sn = cp_epoch → file_at (sn_seq sn) s;
  ri_planes : ∀ i r, s_planes s !! i = Some r → claim s i (dr_last_applied_epoch r) (dr_last_applied_seq r);
  ri_beats : ∀ b, b ∈ s_beats s → claim s (hb_dp_index b) (hb_last_applied_epoch b) (hb_last_applied_seq b);
  ri_phase : match s_phase s with
    | Idle => True
    | Acking targets _ n => updating targets n s
    | Sending targets _ n => updating targets n s ∧
        ∀ i d, i < data_plane_count → s_dps s !! Z.of_nat i = Some d → ahead n d
    end;
}.

Lemma start_inv s : router_start s → router_inv s.
Proof.
  intros (He & Hr & Hw & Hp & Hb & Hph & Hf & Hd). split.
  - by rewrite Hw.
  - done.
  - intros f sn Hfs Hsn. destruct (Hf f sn Hfs Hsn). done.
  - intros i d Hid. destruct (Hd i d Hid) as [Hok Hold]. split; [done|]. intros sn Hsn Hep. by destruct (Hold sn Hsn).
  - intros i r. rewrite Hp. done.
  - intros b. rewrite Hb. by intros ?%not_elem_of_nil.
  - by rewrite Hph.
Qed.

(** ** Lemmas on the pieces *)
Lemma registry_insert i w w' ws :
  ws !! i = Some w → same_identity w w' → registry_ok ws → registry_ok (<[i := w']> ws).
Proof.
  intros Hi [Hu Hw] [Hnd Hid]. split.
  - rewrite list_fmap_insert, list_insert_id; [done|]. by rewrite list_lookup_fmap, Hi, Hu.
  - apply Forall_insert; [done|]. rewrite Hu, Hw. by eapply (Forall_lookup_1 _ _ _ _ Hid).
Qed.

Lemma on_targets_registry targets f ws :
  (∀ w, same_identity w (f w)) → registry_ok ws → registry_ok (on_targets targets f ws).
Proof.
  intros Hf [Hnd Hid]. unfold on_targets. split.
  - rewrite <-list_fmap_compose. erewrite list_fmap_ext; [exact Hnd|]. intros _ w _. simpl.
    case_bool_decide; [apply Hf|done].
  - apply Forall_fmap. eapply Forall_impl; [exact Hid|]. intros w Hw. simpl.
    case_bool_decide; [|done]. by destruct (Hf w) as [-> ->].
Qed.

Lemma registry_apply_ok o ws :
  (∀ w, o = RAdd w → w_worker_id w = quote (w_url w)) → registry_ok ws → registry_ok (registry_apply o ws).
Proof.
  intros Ho Hok. destruct o as [w|wid|wid c dis dead discarded]; simpl.
  - destruct (existsb _ _) eqn:E; [done|]. destruct Hok as [Hnd Hid]. split.
    + rewrite fmap_app. apply NoDup_app. split_and!; [done| |apply NoDup_singleton].
      intros u Hu ->%list_elem_of_singleton. apply not_true_iff_false in E. apply E, existsb_exists.
      apply list_elem_of_fmap in Hu as (x & Hx & Hin). exists x. split; [by apply list_elem_of_In|]. by apply bool_decide_eq_true.
    + apply Forall_app. split; [done|]. apply Forall_singleton. by apply Ho.
  - destruct (_find_worker ws wid); [|done]. destruct Hok as [Hnd Hid]. split; [|by apply Forall_delete_at].
    eapply sublist_NoDup; [exact Hnd|]. apply fmap_sublist. apply sublist_delete.
  - destruct (_find_worker ws wid) as [i|]; [|done]. destruct (ws !! i) as [w|] eqn:Hi; [|done].
    destruct (_ && _); [done|]. destruct (apply_worker_update c dis dead w) as [w'|] eqn:E; [|done].
    eapply registry_insert; [done| |done]. unfold apply_worker_update, replace_config in E.
    case_bool_decide as Hu; simpl in E; [done|]. injection E as <-.
    destruct dis, dead as [[]|]; split; try done; exact Hu.
Qed.

Lemma event_identity w w' : worker_event w w' → same_identity w w' ∧ w_disabled w' = w_disabled w.
Proof.
  intros [epoch r t x|code error t x].
  - unfold check_end. destruct (bool_decide _); [done|]. destruct r as [|status text]; [done|].
    by destruct (bool_decide _).
  - unfold proxy_request_failure. by destruct (is_dead x).
Qed.

Lemma request_identity f w : request_event f → same_identity w (f w) ∧ w_disabled (f w) = w_disabled w.
Proof.
  intros []; [done| |].
  - unfold decrement_active. by case_bool_decide.
  - unfold record_routed_request. by case_match.
Qed.

Lemma target_disable targets ws : targets_disabled targets (on_targets targets (set_disabled true) ws).
Proof.
  apply Forall_fmap, Forall_forall. intros w _. simpl. case_bool_decide; [done|]. by intros.
Qed.

Lemma snapshot_workers_ok seq epoch now ws :
  registry_ok ws → snapshot_ok (mkSnapshot SNAPSHOT_SCHEMA_VERSION seq epoch now (snapshot_workers ws)).
Proof.
  intros [Hnd Hid]. split; simpl; unfold snapshot_workers.
  - rewrite map_map. exact Hnd.
  - apply Forall_forall. intros e (w & <- & Hw%list_elem_of_In)%list_elem_of_In%in_map_iff.
    simpl. by eapply Forall_forall in Hid.
Qed.

Lemma snapshot_withholds targets seq epoch now ws :
  targets_disabled targets ws →
  withholds targets (mkSnapshot SNAPSHOT_SCHEMA_VERSION seq epoch now (snapshot_workers ws)).
Proof.
  intros Ht. apply Forall_forall. intros e (w & <- & Hw%list_elem_of_In)%list_elem_of_In%in_map_iff.
  simpl. by eapply Forall_forall in Ht.
Qed.

Lemma maybe_reload_spec file r b r' :
  maybe_reload file r = (b, r') →
  if b then ∃ f sn, file = Some f ∧ sf_content f = Some sn ∧ rd_snapshot r' = Some sn ∧
    ∀ old, rd_snapshot r = Some old → sn_epoch sn = sn_epoch old → (sn_seq old < sn_seq sn)%Z
  else rd_snapshot r' = rd_snapshot r.
Proof.
  unfold maybe_reload. intros H. destruct file as [f|]; [|by simplify_eq].
  destruct (bool_decide (rd_last_fingerprint r = _)); [by simplify_eq|].
  destruct (sf_content f) as [sn|] eqn:Ec; [|by simplify_eq].
  destruct (bool_decide (sn_version sn ≠ _)); [by simplify_eq|]. simpl in H.
  destruct (rd_snapshot r) as [old|] eqn:Eo.
  - destruct (bool_decide _) eqn:Eb in H; simplify_eq/=; [done|]. apply bool_decide_eq_false in Eb.
    exists f, sn. split_and!; try done. intros old' [= <-] He. destruct (decide (sn_seq sn ≤ sn_seq old)%Z); [by destruct Eb|lia].
  - simplify_eq/=. exists f, sn. split_and!; try done.
Qed.

Lemma view_apply_mirrors sn v :
  view_wf v → snapshot_ok sn → view_wf (view_apply uuid sn v) ∧ mirrors (view_apply uuid sn v) sn.
Proof.
  intros Hv [Hnd Hids]. destruct (view_apply_spec uuid sn v Hv Hnd) as (Hv' & _ & Hs & He & Hkeys & Hes).
  split; [done|]. split_and!; [done|done|]. intros url i w Hg Hw.
  assert (url ∈ map sw_url (sn_workers sn)) as (e & Hu & Hin%list_elem_of_In)%list_elem_of_In%in_map_iff.
  { apply Hkeys. apply od_get_Some_elem in Hg. apply list_elem_of_fmap. by exists (url, i). }
  exists e. split; [done|]. destruct (Hes e Hin) as [(i' & w' & Hg' & Hw' & _ & Hd & _) _].
  rewrite Hu, Hg in Hg'. simplify_eq. split; [|done].
  apply od_get_Some_elem in Hg. destruct (vw_refs _ Hv' _ _ Hg) as (w' & Hw' & _ & Hid). simplify_eq.
  rewrite Hid. symmetry. by eapply Forall_forall in Hids.
Qed.

Lemma refresh_ok file d :
  dp_ok d → (∀ f sn, file = Some f → sf_content f = Some sn → snapshot_ok sn) →
  dp_ok (dp_refresh uuid file d) ∧
  (rd_snapshot (dp_reader (dp_refresh uuid file d)) = rd_snapshot (dp_reader d) ∨
   ∃ f sn, file = Some f ∧ sf_content f = Some sn ∧ rd_snapshot (dp_reader (dp_refresh uuid file d)) = Some sn).
Proof.
  intros [Hv Hm] Hf. unfold dp_refresh. destruct (maybe_reload file (dp_reader d)) as [b r] eqn:E.
  apply maybe_reload_spec in E. destruct b.
  - destruct E as (f & sn & Hfile & Hsn & Hr & _). rewrite Hr. simpl. rewrite Hr. split; [|right; eauto].
    assert (snapshot_ok sn) as Hok by eauto. destruct (view_apply_mirrors sn (dp_view d) Hv Hok).
    unfold dp_ok. simpl. rewrite Hr. done.
  - simpl. split; [|by left]. unfold dp_ok. simpl. by rewrite E.
Qed.

Lemma update_object_ok j f d : request_event f → dp_ok d → dp_ok (dp_update_object j f d).
Proof.
  intros Hf [Hv Hm]. split; simpl.
  - apply update_object_wf; [|done]. intros w. by apply request_identity.
  - destruct (rd_snapshot (dp_reader d)) as [sn|]; [|done]. destruct Hm as [Hok (Hs & He & Hm)].
    split; [done|]. split_and!; [done|done|]. intros url i w Hg Hw. simpl in *.
    destruct (decide (j = i)) as [->|Hne].
    + rewrite lookup_alter_eq in Hw. destruct (v_objects (dp_view d) !! i) as [w0|] eqn:E; simplify_eq/=.
      destruct (Hm url i w0 Hg E) as (e & Hin & Hid & Hd). exists e.
      destruct (request_identity f w0 Hf) as [[_ ->] ->]. done.
    + rewrite lookup_alter_ne in Hw by done. by eapply Hm.
Qed.

(** ** The invariant is preserved *)

(** Steps that move only the data planes' side, or only the control plane's. *)
Lemma file_at_same n s s' : s_file s' = s_file s → file_at n s → file_at n s'.
Proof. intros H (f & sn & Hf & ?). exists f, sn. by rewrite H. Qed.

Lemma claim_same s s' i epoch n :
  s_file s' = s_file s → s_dps s' = s_dps s → claim s i epoch n → claim s' i epoch n.
Proof. intros Hf Hd Hc He. destruct (Hc He) as [H1 H2]. split; [by eapply file_at_same|]. by rewrite Hd. Qed.

Lemma updating_same targets n s s' :
  s_file s' = s_file s → s_dps s' = s_dps s → targets_disabled targets (s_workers s') →
  updating targets n s → updating targets n s'.
Proof. intros Hf Hd Hw (_ & H1 & H2). unfold updating. rewrite Hf, Hd. done. Qed.

Lemma claim_dps s ds i epoch n :
  (∀ d', ds !! i = Some d' → rd_snapshot (dp_reader d') = None ∨ (∃ d, s_dps s !! i = Some d ∧
     rd_snapshot (dp_reader d') = rd_snapshot (dp_reader d)) ∨
     ∃ f sn, s_file s = Some f ∧ sf_content f = Some sn ∧ rd_snapshot (dp_reader d') = Some sn) →
  claim s i epoch n → claim (with_dps ds s) i epoch n.
Proof.
  intros Hds Hc He. destruct (Hc He) as [Hf Hd]. split; [done|]. intros d' Hd'. simpl in Hd'.
  unfold ahead. destruct (Hds d' Hd') as [Hn|[(d & Hid & Heq)|(f & sn & Hfile & Hsn & Heq)]].
  - by rewrite Hn.
  - rewrite Heq. by apply Hd.
  - rewrite Heq. destruct Hf as (f' & sn' & Hf' & Hsn' & ? & ?). by simplify_eq.
Qed.

(** Replacing what runs at one index by a process that is fresh, has read nothing
    new, or has just read the file. *)
Definition dps_move (s : system) (ds : gmap Z dp) : Prop :=
  ∀ i d', ds !! i = Some d' → dp_ok d' ∧
    (rd_snapshot (dp_reader d') = None ∨ (∃ d, s_dps s !! i = Some d ∧
       rd_snapshot (dp_reader d') = rd_snapshot (dp_reader d)) ∨
     ∃ f sn, s_file s = Some f ∧ sf_content f = Some sn ∧ rd_snapshot (dp_reader d') = Some sn).

Lemma dps_move_inv s ds : dps_move s ds → router_inv s → router_inv (with_dps ds s).
Proof.
  intros Hm [He Hr Hf Hd Hp Hb Hph]. split; simpl; try done.
  - intros i d' Hd'. destruct (Hm i d' Hd') as [Hok Hcase]. split; [done|]. intros sn Hsn Hep.
    destruct Hcase as [Hn|[(d & Hid & Heq)|(f & sn' & Hfile & Hsn' & Heq)]].
    + congruence.
    + apply (proj2 (Hd i d Hid) sn); congruence.
    + exists f, sn'. assert (sn = sn') as -> by congruence. done.
  - intros i r Hir. apply claim_dps; [|by apply Hp]. intros d' Hd'. by apply Hm.
  - intros b Hin. apply claim_dps; [|by apply Hb]. intros d' Hd'. by apply Hm.
  - assert (∀ T n, updating T n s → updating T n (with_dps ds s)) as Hup.
    { intros T n (Ht & Hfile & Hsn). split_and!; [done|done|]. intros i d' sn Hd' Hrd Hep Hle. simpl in Hd'.
      destruct (Hm i d' Hd') as [_ [Hn|[(d & Hid & Heq)|(f & sn' & Hf' & Hsn' & Heq)]]].
      - congruence.
      - eapply Hsn; [done|congruence|done|done].
      - destruct Hfile as (f0 & sn0 & Hf0 & Hsn0 & _ & _ & Hw). congruence. }
    destruct (s_phase s) as [|T p n|T p n]; [done|by apply Hup|].
    destruct Hph as [Hu Ha]. split; [by apply Hup|]. intros i d' Hi Hd'. simpl in Hd'.
    destruct (Hm _ d' Hd') as [_ [Hn|[(d & Hid & Heq)|(f & sn' & Hf' & Hsn' & Heq)]]]; unfold ahead.
    + by rewrite Hn.
    + rewrite Heq. by eapply Ha.
    + rewrite Heq. destruct Hu as (_ & (f0 & sn0 & Hf0 & Hsn0 & Hep0 & Hle0 & _) & _). by simplify_eq.
Qed.

Definition phase_disabled (p : phase) (ws : list Worker) : Prop :=
  match p with Idle => True | Acking T _ _ | Sending T _ _ => targets_disabled T ws end.

Lemma with_workers_inv ws s :
  registry_ok ws → phase_disabled (s_phase s) ws → router_inv s → router_inv (with_workers ws s).
Proof.
  intros Hws Hpd [He Hr Hf Hd Hp Hb Hph]. split; try done. simpl.
  destruct (s_phase s) as [|T p n|T p n]; [done|by apply (updating_same T n s)|].
  destruct Hph as [Hu Ha]. split; [by apply (updating_same T n s)|done].
Qed.

Lemma idle_inv s : router_inv s → router_inv (with_phase Idle s).
Proof. intros [He Hr Hf Hd Hp Hb Hph]. by split. Qed.

Lemma planes_inv ps s :
  (∀ i r, ps !! i = Some r → claim s i (dr_last_applied_epoch r) (dr_last_applied_seq r)) →
  router_inv s → router_inv (with_planes ps s).
Proof. intros Hps [He Hr Hf Hd Hp Hb Hph]. by split. Qed.

Lemma beats_inv b s :
  claim s (hb_dp_index b) (hb_last_applied_epoch b) (hb_last_applied_seq b) →
  router_inv s → router_inv (with_beats (b :: s_beats s) s).
Proof.
  intros Hc [He Hr Hf Hd Hp Hb Hph]. split; try done. simpl. intros b' [->|Hin]%elem_of_cons; [done|]. by apply Hb.
Qed.

(** What a successful publish puts in the file. *)
Definition published (now : Z) (s : system) : WorkerSnapshot :=
  mkSnapshot SNAPSHOT_SCHEMA_VERSION (sw_seq (s_writer s) + 1) (sw_epoch (s_writer s)) now (snapshot_workers (s_workers s)).

Lemma publish_file_at now written s n :
  router_inv s → file_at n s → file_at n (cp_publish now written s).1.
Proof.
  intros Hi (f & sn & Hf & Hsn & He & Hle). destruct written as [fp|]; [|by exists f, sn].
  destruct (ri_file s Hi f sn Hf Hsn) as [_ Hw]. exists (mkFile fp (Some (published now s))), (published now s). simpl.
  split_and!; [done|done|apply Hi|]. specialize (Hw He). lia.
Qed.

Lemma publish_inv now written s : router_inv s → router_inv (cp_publish now written s).1.
Proof.
  intros Hi. pose proof Hi as [He Hr Hf Hd Hp Hb Hph].
  assert (∀ i epoch n, claim s i epoch n → claim (cp_publish now written s).1 i epoch n) as Hclaim.
  { intros i epoch n Hc Hep. destruct (Hc Hep) as [Hfa Ha]. split; [by apply publish_file_at|].
    by destruct written. }
  assert (∀ T n, updating T n s → updating T n (cp_publish now written s).1) as Hup.
  { intros T n (Ht & (f & sn & Hfs & Hsn & Hep & Hle & Hw) & Hds). destruct written as [fp|]; simpl.
    - split_and!; [done| |done]. exists (mkFile fp (Some (published now s))), (published now s). simpl.
      destruct (Hf f sn Hfs Hsn) as [_ Hseq]. specialize (Hseq Hep).
      split_and!; [done|done|apply He|lia|]. by apply snapshot_withholds.
    - split_and!; [done| |done]. by exists f, sn. }
  destruct written as [fp|]; split; simpl in *; try done.
  - intros f sn [= <-] [= <-]. split; [by apply snapshot_workers_ok|]. simpl. lia.
  - intros i d Hid. destruct (Hd i d Hid) as [Hok Hfa]. split; [done|]. intros sn Hsn Hep.
    apply (publish_file_at now (Some fp) s); auto.
  - intros i r Hir. by apply Hclaim, Hp.
  - intros b Hin. by apply Hclaim, Hb.
  - destruct (s_phase s) as [|T p n|T p n]; [done|by apply Hup|].
    destruct Hph as [Hu Ha]. split; [by apply Hup|done].
  - intros f sn Hfs Hsn. destruct (Hf f sn Hfs Hsn) as [Hok Hle]. split; [done|]. intros Hep. specialize (Hle Hep). lia.
Qed.

Lemma begin_inv now written s : s_phase s = Idle → router_inv s → router_inv (begin_update now written s).
Proof.
  intros Hidle Hi. unfold begin_update. destruct (bool_decide _); [done|].
  set (T := target_workers (s_workers s)). set (prev := previous_disabled T (s_workers s)).
  set (s1 := with_workers (on_targets T (set_disabled true) (s_workers s)) s).
  assert (router_inv s1) as Hi1.
  { apply with_workers_inv; [|by rewrite Hidle|done]. apply on_targets_registry; [done|apply Hi]. }
  pose proof (publish_inv now written s1 Hi1) as Hi2. unfold cp_publish in *.
  destruct written as [fp|]; simpl in *; [|done].
  destruct Hi2 as [He2 Hr2 Hf2 Hd2 Hp2 Hb2 _]. split; try done. simpl. split_and!.
  - apply target_disable.
  - exists (mkFile fp (Some (published now s1))), (published now s1). simpl.
    split_and!; [done|done|apply Hi1|lia|]. apply snapshot_withholds, target_disable.
  - intros i d sn Hid Hsn Hep Hle. exfalso. simpl in Hid.
    destruct (proj2 (ri_dps s Hi i d Hid) sn Hsn Hep) as (f & sn' & Hfs & Hsn' & Hep' & Hle').
    destruct (ri_file s Hi f sn' Hfs Hsn') as [_ Hw]. specialize (Hw Hep'). simpl in Hle. lia.
Qed.

Lemma end_inv results targets previous now written s :
  router_inv s → router_inv (end_update results targets previous now written s).
Proof.
  intros Hi. unfold end_update.
  set (ws := _restore_admin_disabled_state _ _ _ _).
  assert (with_phase Idle (cp_publish now written (with_workers ws s)).1 =
          (cp_publish now written (with_workers ws (with_phase Idle s))).1) as -> by by destruct written.
  apply publish_inv, with_workers_inv; [|done|by apply idle_inv].
  apply on_targets_registry; [done|apply Hi].
Qed.

Lemma hello_inv hello now s :
  router_inv s → router_inv (with_planes (opt_res (register hello now (s_planes s)) (s_planes s)) s).
Proof.
  intros Hi. apply planes_inv; [|done]. intros i r Hir. unfold register in Hir.
  destruct (match s_planes s !! he_dp_index hello with Some c => _ | None => false end); [by apply Hi|].
  destruct (s_planes s !! he_dp_index hello) as [c|] eqn:Ec; [destruct (bool_decide _)|]; simpl in Hir;
    apply lookup_insert_Some in Hir as [[<- <-]|[_ Hir]]; try (by apply Hi); simpl.
  - by apply (ri_planes s Hi).
  - intros Hep. by destruct (ri_epoch s Hi).
  - intros Hep. by destruct (ri_epoch s Hi).
Qed.

Lemma deliver_inv b now s :
  b ∈ s_beats s → router_inv s →
  router_inv (with_planes (opt_res (heartbeat b now (s_planes s)) (s_planes s)) s).
Proof.
  intros Hb Hi. apply planes_inv; [|done]. intros i r Hir. unfold heartbeat in Hir.
  destruct (s_planes s !! hb_dp_index b) as [c|] eqn:Ec; [|by apply Hi].
  destruct (bool_decide (dr_generation c < hb_generation b)%Z); [by apply Hi|].
  destruct (_ || _); [by apply Hi|]. simpl in Hir.
  apply lookup_insert_Some in Hir as [[<- <-]|[_ Hir]]; [|by apply Hi]. simpl.
  pose proof (ri_beats s Hi b Hb) as Hcb. pose proof (ri_planes s Hi _ c Ec) as Hcc.
  case_bool_decide as Hep; [|done]. rewrite Hep in *.
  destruct (Z.max_spec (dr_last_applied_seq c) (hb_last_applied_seq b)) as [[_ ->]|[_ ->]]; done.
Qed.

Lemma beat_claim i d serving s :
  router_inv s → s_dps s !! i = Some d →
  claim s i (hb_last_applied_epoch (dp_beat i serving d)) (hb_last_applied_seq (dp_beat i serving d)).
Proof.
  intros Hi Hd Hep. simpl in *. destruct (ri_dps s Hi i d Hd) as [[Hv Hm] Hfa].
  destruct (rd_snapshot (dp_reader d)) as [sn|] eqn:Er.
  - destruct Hm as [_ (Hs & He & _)]. rewrite Hs. rewrite He in Hep. split; [by apply Hfa|].
    intros d' Hd'. simplify_eq. unfold ahead. rewrite Er. split; [done|lia].
  - destruct Hm as [_ He]. destruct (ri_epoch s Hi) as [Hne _]. congruence.
Qed.

(** The barrier lets go only when every expected index reported the snapshot. *)
Lemma barrier_reported n now ps i :
  barrier_pending cp_epoch dp_liveness_secs (Some data_plane_count) n now ps = ∅ → i < data_plane_count →
  ∃ r, ps !! Z.of_nat i = Some r ∧ dr_last_applied_epoch r = cp_epoch ∧ (n ≤ dr_last_applied_seq r)%Z.
Proof.
  unfold barrier_pending, live. set (alive := filter _ ps). intros Hempty Hi.
  assert (Z.of_nat i ∈ dom alive) as Halive.
  { destruct (decide (Z.of_nat i ∈ dom alive)) as [|Hn]; [done|]. exfalso.
    assert (Z.of_nat i ∈ (∅ : gset Z)) as H; [|set_solver]. rewrite <-Hempty.
    apply elem_of_union. right. apply elem_of_difference. split; [|done].
    unfold expected_indices. apply elem_of_list_to_set, list_elem_of_fmap. exists i. split; [done|]. apply elem_of_seq. lia. }
  apply elem_of_dom in Halive as [r Hr]. pose proof Hr as Hr'.
  apply map_lookup_filter_Some in Hr' as [Hps _]. exists r. split; [done|].
  destruct (lagging cp_epoch n r) eqn:El.
  - exfalso. assert (Z.of_nat i ∈ (∅ : gset Z)) as H; [|set_solver]. rewrite <-Hempty.
    apply elem_of_union. left. apply elem_of_dom. exists r. apply map_lookup_filter_Some. split; [done|]. simpl. by apply Is_true_true.
  - unfold lagging in El. apply orb_false_iff in El as [E1%negb_false_iff%bool_decide_eq_true E2%bool_decide_eq_false].
    split; [done|lia].
Qed.

Lemma rstep_inv s s' : rstep s s' → router_inv s → router_inv s'.
Proof.
  intros Hst Hi. destruct Hst as [now written s|i w w' s Hw Hev|o s Hidle Ho|i g pid s|i s|i d s Hd|i d j f s Hd Hf
    |hello now s|i d serving s Hd|b now s Hb|now written s Hidle|T p n now s Hph Hbar|T p n now written s Hph|results T p n now written s Hph].
  - by apply publish_inv.
  - destruct (event_identity _ _ Hev) as [Hid Hdis]. apply with_workers_inv; [|..|done].
    + eapply registry_insert; [done|done|apply Hi].
    + assert (∀ T, targets_disabled T (s_workers s) → targets_disabled T (<[i:=w']> (s_workers s))) as Hmono.
      { intros T HT. apply Forall_insert; [done|]. destruct Hid as [_ ->]. rewrite Hdis.
        by eapply (Forall_lookup_1 _ _ _ _ HT). }
      pose proof (ri_phase s Hi) as Hp. unfold phase_disabled. destruct (s_phase s); [done|..]; apply Hmono, Hp.
  - apply with_workers_inv; [|by rewrite Hidle|done]. apply registry_apply_ok; [done|apply Hi].
  - apply dps_move_inv; [|done]. intros k d' Hk. apply lookup_insert_Some in Hk as [[<- <-]|[_ Hk]].
    + split; [|by left]. split; [apply view_init_wf|done].
    + split; [by eapply Hi|]. right. left. eauto.
  - apply dps_move_inv; [|done]. intros k d' [_ Hk]%lookup_delete_Some. split; [by eapply Hi|]. right. left. eauto.
  - apply dps_move_inv; [|done]. intros k d' Hk. apply lookup_insert_Some in Hk as [[<- <-]|[_ Hk]].
    + destruct (refresh_ok (s_file s) d) as [Hok Hcase]; [by eapply Hi|intros f sn Hf Hsn; by eapply (ri_file s Hi)|].
      split; [done|]. right. destruct Hcase as [Heq|?]; [left; eauto|by right].
    + split; [by eapply Hi|]. right. left. eauto.
  - apply dps_move_inv; [|done]. intros k d' Hk. apply lookup_insert_Some in Hk as [[<- <-]|[_ Hk]].
    + split; [apply update_object_ok; [done|by eapply Hi]|]. right. left. eauto.
    + split; [by eapply Hi|]. right. left. eauto.
  - by apply hello_inv.
  - apply beats_inv; [|done]. by apply beat_claim.
  - by apply deliver_inv.
  - by apply begin_inv.
  - pose proof Hi as [He Hr Hf Hd Hp Hb Hphase]. rewrite Hph in Hphase. split; try done. simpl. split; [done|].
    intros k d Hk Hkd. destruct (barrier_reported n now (s_planes s) k Hbar Hk) as (r & Hr' & Hep & Hle).
    destruct (Hp _ r Hr' Hep) as [_ Ha]. specialize (Ha d Hkd). unfold ahead in *.
    destruct (rd_snapshot (dp_reader d)); [|done]. destruct Ha. split; [done|lia].
  - by apply end_inv.
  - by apply end_inv.
Qed.

Lemma router_reachable_inv s0 s : router_start s0 → rtc rstep s0 s → router_inv s.
Proof. intros H0 Hst. apply start_inv in H0. induction Hst; [done|]. eauto using rstep_inv. Qed.
(** A view that mirrors a snapshot withholding the targets routes to none of them. *)
Lemma withheld_unroutable v sn targets w :
  view_wf v → mirrors v sn → withholds targets sn →
  w ∈ view_workers v → w_worker_id w ∈ targets → is_routable w = false.
Proof.
  intros Hv (_ & _ & Hm) Hw Hin HT. unfold view_workers, deref in Hin. apply list_elem_of_omap in Hin as (i & Hi & Hobj).
  apply list_elem_of_fmap in Hi as ([url k] & -> & Huk). simpl in Hobj.
  destruct (Hm url k w) as (e & He & Hid & Hdis); [by apply od_get_elem; [apply Hv|]|done|].
  eapply Forall_forall in Hw; [|done]. rewrite Hid in HT. specialize (Hw HT).
  unfold is_routable. rewrite Hdis, Hw. apply andb_false_r.
Qed.

(** C1. While a weight update is being sent to its targets, no data plane routes a
    new request to any of them: on every run of the router from a control plane's
    start, with snapshots published and re-read, workers probed, requests counted,
    data planes restarted and heartbeats lost, delayed or duplicated in any order,
    a target a data plane knows is not routable there, and no selection takes it. *)
Theorem update_never_routes_to_targets s0 s targets previous target_seq i d w :
  router_start s0 → rtc rstep s0 s → s_phase s = Sending targets previous target_seq →
  i < data_plane_count → s_dps s !! Z.of_nat i = Some d →
  w ∈ view_workers (dp_view d) → w_worker_id w ∈ targets →
  is_routable w = false ∧
  ∀ required requested, w ∉ eligible_workers (view_workers (dp_view d)) required requested.
Proof.
  intros H0 Hst Hph Hi Hd Hw HT. pose proof (router_reachable_inv s0 s H0 Hst) as Hinv.
  pose proof (ri_phase s Hinv) as Hp. rewrite Hph in Hp. destruct Hp as [(_ & _ & Hwh) Ha].
  specialize (Ha i d Hi Hd). destruct (proj1 (ri_dps s Hinv _ d Hd)) as [Hv Hm]. unfold ahead in Ha.
  assert (is_routable w = false) as Hr.
  { destruct (rd_snapshot (dp_reader d)) as [sn|] eqn:Er.
    - destruct Ha as [Hep Hle]. destruct Hm as [_ Hm]. eapply withheld_unroutable; [done|done| |done|done].
      by eapply Hwh.
    - destruct Hm as [Hm _]. unfold view_workers in Hw. rewrite Hm in Hw. by apply not_elem_of_nil in Hw. }
  split; [done|]. intros required requested Hel. apply eligible_routable in Hel as (_ & Hr' & _). congruence.
Qed.
End router.

(** Two workers and one data plane: the update publishes, the data plane re-reads
    the file, registers and reports, and the barrier lets the update send. *)
Definition ex_start : system :=
  mkSystem [ex_target "http://w1"; ex_target "http://w2"] (mkWriter "e" 0) None ∅ [] ∅ Idle.
Definition ex_acking : system :=
  let s := with_dps {[0%Z := mkDp 1 7 reader_init view_init]} ex_start in
  begin_update 0 (Some (1, 1, 1)%Z) s.
Definition ex_refreshed : system :=
  let s := with_dps (<[0%Z := dp_refresh ex_uuid (s_file ex_acking) (mkDp 1 7 reader_init view_init)]> (s_dps ex_acking)) ex_acking in
  with_planes (opt_res (register (mkHello 0 1 7) 1 (s_planes s)) (s_planes s)) s.
Definition ex_dp : dp := default (mkDp 1 7 reader_init view_init) (s_dps ex_refreshed !! 0%Z).
Definition ex_delivered : system :=
  let s := with_beats (dp_beat 0 true ex_dp :: s_beats ex_refreshed) ex_refreshed in
  with_planes (opt_res (heartbeat (dp_beat 0 true ex_dp) 2 (s_planes s)) (s_planes s)) s.
Definition ex_sending : system :=
  with_phase (Sending [quote "http://w1"; quote "http://w2"] (previous_disabled [quote "http://w1"; quote "http://w2"] (s_workers ex_start)) 1)
    ex_delivered.

Lemma update_never_routes_to_targets_witness :
  ∃ w, w ∈ view_workers (dp_view ex_dp) ∧ w_worker_id w = quote "http://w1" ∧ is_routable w = false.
Proof.
  assert (rtc (rstep ex_uuid "e" 10 1 3 2) ex_start ex_sending) as Hrun.
  { eapply rtc_l; [apply (r_start ex_uuid "e" 10 1 3 2 0 1 7 ex_start)|].
    eapply rtc_l; [by apply (r_begin ex_uuid "e" 10 1 3 2 0 (Some (1, 1, 1)%Z))|].
    eapply rtc_l; [by apply (r_refresh ex_uuid "e" 10 1 3 2 0 (mkDp 1 7 reader_init view_init))|].
    eapply rtc_l; [by apply (r_hello ex_uuid "e" 10 1 3 2 (mkHello 0 1 7) 1)|].
    eapply rtc_l; [by apply (r_beat ex_uuid "e" 10 1 3 2 0 ex_dp true)|].
    eapply rtc_l; [apply (r_deliver ex_uuid "e" 10 1 3 2 (dp_beat 0 true ex_dp) 2); by left|].
    eapply rtc_l; [|apply rtc_refl].
    apply (r_acked ex_uuid "e" 10 1 3 2 _ _ _ 3 ex_delivered); vm_compute; reflexivity. }
  destruct (view_workers (dp_view ex_dp)) as [|w ws] eqn:E; [by vm_compute in E|].
  assert (w_worker_id w = quote "http://w1") as Hw by by (vm_compute in E; injection E as <- _).
  exists w. split_and!; [by left|done|].
  destruct (update_never_routes_to_targets ex_uuid "e" 10 1 3 2 ex_start ex_sending
    [quote "http://w1"; quote "http://w2"] (previous_disabled [quote "http://w1"; quote "http://w2"] (s_workers ex_start))
    1 0 ex_dp w) as [H _]; [..|exact H].
  - split; [done|]. split; [split; apply (bool_decide_unpack _); vm_compute; done|].
    do 4 (split; [reflexivity|]). split; [intros f sn H; discriminate H|]. intros i d H. discriminate H.
  - exact Hrun.
  - reflexivity.
  - lia.
  - vm_compute. reflexivity.
  - rewrite E. by left.
  - rewrite Hw. by left.
Defined.
