(* ===== verification/FailureReports.v ===== *)
(** * Worker-failure reports on the control plane

    Models [POST /internal/worker_failure] ([control_plane.py]): the data planes'
    failure events, delivered late, out of order or more than once, against the
    control plane's worker objects.  Between two reports the registrations and the
    workers may have changed in any way. *)
From S2P Require Import Prelude RouterWorker WorkerSnapshot UpdateJournal WeightUpdate.

Record WorkerFailureReport := mkReport {
  fr_worker_id : string; fr_incarnation : string; fr_status_code : option Z; fr_error : option string;
  fr_dp_index : Z; fr_generation : Z; fr_failure_seq : Z }.

(** [applied_failure_seqs]: per data-plane process, the ids applied and the floor. *)
Record applied_seqs := mkApplied { ap_seqs : gset Z; ap_floor : Z }.
Abbreviation applied_failure_seqs := (gmap (Z * Z) applied_seqs).

Definition applied_init : applied_seqs := mkApplied ∅ 0.

(** [max] of a set that is not empty. *)
Definition max_seq (s : gset Z) : Z :=
  match elements s with [] => 0%Z | x :: l => foldr Z.max x l end.

Definition _failure_already_applied (report : WorkerFailureReport) (a : applied_failure_seqs) : bool * applied_failure_seqs :=
  let key := (fr_dp_index report, fr_generation report) in
  let state := default applied_init (a !! key) in
  let seq := fr_failure_seq report in
  if bool_decide (seq ≤ ap_floor state)%Z then (true, <[key := state]> a)
  else if bool_decide (seq ∈ ap_seqs state) then (true, <[key := state]> a)
  else
    let seqs := {[seq]} ∪ ap_seqs state in
    if bool_decide (4096 < Z.of_nat (size seqs))%Z then
      let floor := (max_seq seqs - 1024)%Z in
      (false, <[key := mkApplied (filter (λ s, floor < s)%Z seqs) floor]> a)
    else (false, <[key := mkApplied seqs (ap_floor state)]> a).

Definition _stale_generation (dp_index generation : Z) (planes : data_planes) : bool :=
  match planes !! dp_index with
  | Some current => bool_decide (generation < dr_generation current)%Z
  | None => false
  end.

Inductive failure_outcome :=
| StaleGeneration
| WorkerNotFound
| StaleIncarnation
| Deduplicated
| IgnoredDead
| Recorded (publish : bool).

#[export] Instance failure_outcome_eq_dec : EqDecision failure_outcome.
Proof. solve_decision. Defined.

Section reports.
Context (health_failure_threshold : Z).

(** The handler; [now] is the clock [record_request_failure] reads. *)
Definition worker_failure (planes : data_planes) (report : WorkerFailureReport) (now : Z)
    (workers : list Worker) (a : applied_failure_seqs) : failure_outcome * list Worker * applied_failure_seqs :=
  if _stale_generation (fr_dp_index report) (fr_generation report) planes then (StaleGeneration, workers, a)
  else match _find_worker workers (fr_worker_id report) with
  | None => (WorkerNotFound, workers, a)
  | Some i =>
      match workers !! i with
      | None => (WorkerNotFound, workers, a)
      | Some worker =>
          if bool_decide (fr_incarnation report ≠ "" ∧ w_incarnation worker ≠ fr_incarnation report)
          then (StaleIncarnation, workers, a)
          else match _failure_already_applied report a with
          | (true, a) => (Deduplicated, workers, a)
          | (false, a) =>
              if is_dead worker then (IgnoredDead, workers, a)
              else
                let worker' := record_request_failure health_failure_threshold (fr_status_code report) (fr_error report) now worker in
                (Recorded (negb (bool_decide ((is_routable worker', w_state worker') = (is_routable worker, w_state worker)))),
                 <[i := worker']> workers, a)
          end
      end
  end.

(** ** A history of deliveries *)
Record delivery := mkDelivery { de_planes : data_planes; de_workers : list Worker; de_report : WorkerFailureReport; de_now : Z }.

Definition deliver (d : delivery) (a : applied_failure_seqs) : failure_outcome * applied_failure_seqs :=
  let '(o, _, a) := worker_failure (de_planes d) (de_report d) (de_now d) (de_workers d) a in (o, a).

(** The outcomes, in order, and the state they leave. *)
Fixpoint deliver_all (ds : list delivery) (a : applied_failure_seqs) : list failure_outcome * applied_failure_seqs :=
  match ds with
  | [] => ([], a)
  | d :: ds =>
      let '(o, a) := deliver d a in
      let '(os, a) := deliver_all ds a in (o :: os, a)
  end.

Definition event_id (r : WorkerFailureReport) : Z * Z * Z := ((fr_dp_index r, fr_generation r), fr_failure_seq r).

(** The outcome took the event: it counted, or it was dropped for a dead worker. *)
Definition consumed (o : failure_outcome) : bool :=
  match o with IgnoredDead | Recorded _ => true | _ => false end.

Definition consumed_ids (ds : list delivery) (os : list failure_outcome) : list (Z * Z * Z) :=
  (λ x, event_id (de_report x.1)) <$> filter (λ x, consumed x.2 = true) (zip ds os).

Record dedup_inv (ids : list (Z * Z * Z)) (a : applied_failure_seqs) : Prop := {
  di_once : NoDup ids;
  di_size : ∀ key, (Z.of_nat (size (ap_seqs (default applied_init (a !! key)))) ≤ 4096)%Z;
  di_sound : ∀ key s, s ∈ ap_seqs (default applied_init (a !! key)) →
    (key, s) ∈ ids ∧ (ap_floor (default applied_init (a !! key)) < s)%Z;
  di_kept : ∀ key s, (key, s) ∈ ids →
    s ∈ ap_seqs (default applied_init (a !! key)) ∨ (s ≤ ap_floor (default applied_init (a !! key)))%Z;
  di_floor : ∀ key s, (s ≤ ap_floor (default applied_init (a !! key)))%Z →
    (s < 1)%Z ∨ ∃ s', (key, s') ∈ ids ∧ (s + 1024 ≤ s')%Z;
}.

Lemma max_seq_spec (s : gset Z) : s ≠ ∅ → max_seq s ∈ s ∧ ∀ x, x ∈ s → (x ≤ max_seq s)%Z.
Proof.
  intros Hne. unfold max_seq. destruct (elements s) as [|x l] eqn:E.
  - by apply elements_empty_inv in E; apply leibniz_equiv in E.
  - assert (∀ y l, foldr Z.max y l ∈ y :: l ∧ ∀ z, z ∈ y :: l → (z ≤ foldr Z.max y l)%Z) as Hfold.
    { clear. intros y l. induction l as [|w l [IH1 IH2]]; simpl.
      - split; [by left|]. by intros z ->%list_elem_of_singleton.
      - split.
        + destruct (Z.max_spec w (foldr Z.max y l)) as [[_ ->]|[_ ->]]; [|by right; left].
          apply elem_of_cons in IH1 as [->|IH1]; [by left|by right; right].
        + intros z [->|[->|Hz]%elem_of_cons]%elem_of_cons; [|lia|].
          * specialize (IH2 y ltac:(by left)). lia.
          * specialize (IH2 z ltac:(by right)). lia. }
    destruct (Hfold x l) as [H1 H2]. rewrite <-E in *. split; [by apply elem_of_elements|].
    intros z Hz. apply H2. by apply elem_of_elements.
Qed.

Lemma size_within (s : gset Z) lo hi : (∀ x, x ∈ s → lo < x ≤ hi)%Z → size s ≤ Z.to_nat (hi - lo).
Proof.
  intros H. etrans; [apply (subseteq_size _ (list_to_set (seqZ (lo + 1) (hi - lo))))|].
  - intros x Hx. apply elem_of_list_to_set, elem_of_seqZ. specialize (H x Hx). lia.
  - etrans; [apply size_list_to_set_le|]. by rewrite length_seqZ.
Qed.

(** Taking a new event keeps the invariant; a known one changes nothing. *)
Lemma already_applied_inv r ids a :
  dedup_inv ids a →
  let '(dup, a') := _failure_already_applied r a in
  if (dup : bool) then dedup_inv ids a' ∧
    (event_id r ∈ ids ∨ fr_failure_seq r < 1 ∨
     ∃ s', ((fr_dp_index r, fr_generation r), s') ∈ ids ∧ fr_failure_seq r + 1024 ≤ s')%Z
  else dedup_inv (event_id r :: ids) a'.
Proof.
  intros [Honce Hsize Hsound Hkept Hfloor]. unfold _failure_already_applied, event_id.
  set (key := (fr_dp_index r, fr_generation r)). set (st := default applied_init (a !! key)). set (seq := fr_failure_seq r).
  assert (dedup_inv ids (<[key := st]> a)) as Hsame.
  { assert (∀ k, default applied_init ((<[key := st]> a) !! k) = default applied_init (a !! k)) as Hk.
    { intros k. destruct (decide (k = key)) as [->|]; [by rewrite lookup_insert_eq|by rewrite lookup_insert_ne]. }
    split; try done; intros k; rewrite Hk; auto. }
  case_bool_decide as H1; [split; [done|]; destruct (Hfloor key seq H1); auto|].
  case_bool_decide as H2; [split; [done|]; left; by apply Hsound|].
  assert ((key, seq) ∉ ids) as Hnew.
  { intros Hin. destruct (Hkept key seq Hin); [done|]. fold st in H. lia. }
  set (seqs := {[seq]} ∪ ap_seqs st).
  assert (∀ s, s ∈ seqs → (key, s) ∈ (key, seq) :: ids ∧ (ap_floor st < s)%Z) as Hin.
  { intros s [->%elem_of_singleton|Hs]%elem_of_union; [split; [by left|lia]|]. apply Hsound in Hs as [? ?]. split; [by right|done]. }
  (* Both branches leave a state [st'] of the key that satisfies the local clauses. *)
  assert (∀ st', (Z.of_nat (size (ap_seqs st')) ≤ 4096)%Z → (∀ s, s ∈ ap_seqs st' → s ∈ seqs ∧ ap_floor st' < s)%Z →
    (∀ s, s ∈ seqs ∨ (s ≤ ap_floor st)%Z → s ∈ ap_seqs st' ∨ (s ≤ ap_floor st')%Z) →
    (∀ s, (s ≤ ap_floor st')%Z → (s ≤ ap_floor st)%Z ∨ ∃ s', s' ∈ seqs ∧ (s + 1024 ≤ s')%Z) →
    dedup_inv ((key, seq) :: ids) (<[key := st']> a)) as Hput.
  { intros st' Hsz Hs Hk Hf. split; [by constructor|..]; intros k; (destruct (decide (k = key)) as [->|Hne];
      [rewrite lookup_insert_eq|rewrite lookup_insert_ne by done]); simpl.
    - done.
    - apply Hsize.
    - intros s Hst. destruct (Hs s Hst) as [? ?]. split; [by apply Hin|done].
    - intros s Hst. destruct (Hsound k s Hst). split; [by right|done].
    - intros s [[= ->]|Hst]%elem_of_cons; apply Hk; [left; unfold seqs; set_solver|].
      destruct (Hkept key s Hst) as [?|?]; [left; unfold seqs; set_solver|by right].
    - intros s [[= -> ->]|Hst]%elem_of_cons; [done|by apply Hkept].
    - intros s Hst. destruct (Hf s Hst) as [Ho|(s' & Hs' & Hle)].
      + destruct (Hfloor key s Ho) as [?|(s' & ? & ?)]; [by left|]. right. exists s'. split; [by right|done].
      + right. exists s'. split; [by apply Hin|done].
    - intros s Hst. destruct (Hfloor k s Hst) as [?|(s' & ? & ?)]; [by left|]. right. exists s'. split; [by right|done]. }
  case_bool_decide as Hbig; apply Hput; simpl.
  - cut (size (filter (λ s, max_seq seqs - 1024 < s)%Z seqs) ≤ Z.to_nat (max_seq seqs - (max_seq seqs - 1024))); [lia|].
    apply size_within. intros s [Hlt Hs]%elem_of_filter.
    split; [done|]. apply max_seq_spec; [set_solver|done].
  - intros s [Hlt Hs]%elem_of_filter. done.
  - intros s Hs. destruct (decide (max_seq seqs - 1024 < s)%Z) as [Hlt|Hge]; [|right; lia]. left. apply elem_of_filter.
    split; [done|]. destruct Hs as [Hs|Hs]; [done|]. exfalso.
    assert (size seqs ≤ Z.to_nat (max_seq seqs - ap_floor st)) as Hc; [|lia].
    apply size_within. intros x Hx. split; [by apply Hin|]. apply max_seq_spec; [set_solver|done].
  - intros s Hs. right. exists (max_seq seqs). split; [apply max_seq_spec; unfold seqs; set_solver|lia].
  - lia.
  - intros s Hs. split; [done|by apply Hin].
  - done.
  - auto.
Qed.

Lemma delivery_inv d ids a o a' :
  dedup_inv ids a → deliver d a = (o, a') →
  dedup_inv (if consumed o then event_id (de_report d) :: ids else ids) a' ∧
  (o = Deduplicated → event_id (de_report d) ∈ ids ∨ (fr_failure_seq (de_report d) < 1)%Z ∨
     ∃ s', ((fr_dp_index (de_report d), fr_generation (de_report d)), s') ∈ ids ∧ (fr_failure_seq (de_report d) + 1024 ≤ s')%Z).
Proof.
  intros Hi. unfold deliver, worker_failure. set (r := de_report d).
  destruct (_stale_generation _ _ _); [by intros [= <- <-]|].
  destruct (_find_worker _ _) as [i|]; [|by intros [= <- <-]]. destruct (_ !! i) as [w|]; [|by intros [= <- <-]].
  destruct (bool_decide _); [by intros [= <- <-]|].
  pose proof (already_applied_inv r ids a Hi) as Ha. destruct (_failure_already_applied r a) as [[] a1].
  - intros [= <- <-]. destruct Ha. done.
  - destruct (is_dead w); intros [= <- <-]; done.
Qed.

Lemma dedup_inv_perm ids ids' a : ids ≡ₚ ids' → dedup_inv ids a → dedup_inv ids' a.
Proof.
  intros Hp [H1 H2 H3 H4 H5]. split; [by rewrite <-Hp|done|..].
  - intros key s. rewrite <-Hp. apply H3.
  - intros key s. rewrite <-Hp. apply H4.
  - intros key s Hs. destruct (H5 key s Hs) as [?|(s' & ? & ?)]; [by left|]. right. exists s'. by rewrite <-Hp.
Qed.

Lemma consumed_ids_cons d ds o os :
  consumed_ids (d :: ds) (o :: os) = (if consumed o then [event_id (de_report d)] else []) ++ consumed_ids ds os.
Proof.
  unfold consumed_ids. simpl. rewrite filter_cons. simpl. destruct (consumed o); [by rewrite decide_True|by rewrite decide_False].
Qed.

(** A refusal is of a repeat, or of an event more than a thousand behind. *)
Definition refused_rightly (r : WorkerFailureReport) (ids : list (Z * Z * Z)) : Prop :=
  event_id r ∈ ids ∨ (fr_failure_seq r < 1)%Z ∨
  ∃ s', ((fr_dp_index r, fr_generation r), s') ∈ ids ∧ (fr_failure_seq r + 1024 ≤ s')%Z.

Lemma deliver_all_inv ds ids a os a' :
  dedup_inv ids a → deliver_all ds a = (os, a') →
  length os = length ds ∧ dedup_inv (consumed_ids ds os ++ ids) a' ∧
  ∀ i d, ds !! i = Some d → os !! i = Some Deduplicated →
    refused_rightly (de_report d) (consumed_ids (take i ds) (take i os) ++ ids).
Proof.
  revert ids a os a'. induction ds as [|d ds IH]; intros ids a os a' Hi; simpl; [by intros [= <- <-]|].
  destruct (deliver d a) as [o a1] eqn:Ed. destruct (deliver_all ds a1) as [os1 a2] eqn:Es. intros [= <- <-].
  destruct (delivery_inv d ids a o a1 Hi Ed) as [Hi1 Href].
  destruct (IH _ _ _ _ Hi1 Es) as (Hlen & Hi2 & Hrefs). split; [simpl; by rewrite Hlen|]. split.
  - rewrite consumed_ids_cons. eapply dedup_inv_perm; [|exact Hi2]. destruct (consumed o); simpl; [|done].
    by rewrite Permutation_middle.
  - intros [|i] d' Hd Ho; simpl in *; simplify_eq.
    + by apply Href.
    + specialize (Hrefs i d' Hd Ho). rewrite consumed_ids_cons. unfold refused_rightly in *.
      destruct (consumed o); simpl; [|exact Hrefs].
      assert (∀ x l, x ∈ consumed_ids (take i ds) (take i os1) ++ event_id (de_report d) :: l →
        x ∈ event_id (de_report d) :: consumed_ids (take i ds) (take i os1) ++ l) as Hmove.
      { intros x l. by rewrite <-Permutation_middle. }
      destruct Hrefs as [H|[H|(s' & H & Hle)]]; [left; by apply Hmove|right; by left|right; right].
      exists s'. split; [by apply Hmove|done].
Qed.

(** Each failure event counts at most once, whatever is delivered in whatever
    order and however workers and registrations change meanwhile; an event is refused
    only if it was taken before, or one of the same process at least 1024 later was;
    and the ids kept per process stay bounded. *)
Theorem failure_events_count_once ds :
  let os := (deliver_all ds ∅).1 in
  let a := (deliver_all ds ∅).2 in
  NoDup (consumed_ids ds os) ∧
  (∀ i d, ds !! i = Some d → os !! i = Some Deduplicated →
     refused_rightly (de_report d) (consumed_ids (take i ds) (take i os))) ∧
  ∀ key state, a !! key = Some state → (Z.of_nat (size (ap_seqs state)) ≤ 4096)%Z.
Proof.
  intros os a. assert (dedup_inv [] ∅) as H0.
  { split; [by apply NoDup_nil_2|..]; intros key; rewrite lookup_empty; simpl.
    - done.
    - intros s Hs. done.
    - intros s Hs%not_elem_of_nil. done.
    - intros s Hs. left. lia. }
  destruct (deliver_all_inv ds [] ∅ os a H0) as (Hlen & Hi & Href); [by unfold os, a; destruct (deliver_all ds ∅)|].
  rewrite app_nil_r in Hi. split; [apply Hi|]. split.
  - intros i d Hd Ho. specialize (Href i d Hd Ho). by rewrite app_nil_r in Href.
  - intros key state Hs. pose proof (di_size _ _ Hi key) as Hsz. by rewrite Hs in Hsz.
Qed.

(** What an event does that counts: one recorded failure on a live worker of the
    incarnation it names; every other outcome leaves the workers alone. *)
Lemma worker_failure_effect planes r now workers a o workers' a' :
  worker_failure planes r now workers a = (o, workers', a') →
  match o with
  | Recorded _ => ∃ i w, workers !! i = Some w ∧ is_dead w = false ∧
      (fr_incarnation r = "" ∨ w_incarnation w = fr_incarnation r) ∧
      workers' = <[i := record_request_failure health_failure_threshold (fr_status_code r) (fr_error r) now w]> workers
  | _ => workers' = workers
  end.
Proof.
  unfold worker_failure. destruct (_stale_generation _ _ _); [by intros [= <- <- <-]|].
  destruct (_find_worker workers _) as [i|]; [|by intros [= <- <- <-]].
  destruct (workers !! i) as [w|] eqn:Hw; [|by intros [= <- <- <-]].
  case_bool_decide as Hinc; [by intros [= <- <- <-]|].
  destruct (_failure_already_applied r a) as [[] a1]; [by intros [= <- <- <-]|].
  destruct (is_dead w) eqn:Hd; intros [= <- <- <-]; [done|]. exists i, w. split_and!; try done.
  destruct (decide (fr_incarnation r = "")); [by left|]. right. destruct (decide (w_incarnation w = fr_incarnation r)); [done|].
  by destruct Hinc.
Qed.
End reports.

(** The report is delivered twice, and the worker counts one failure. *)
Lemma failure_events_count_once_witness :
  let worker := set_status HEALTHY false (new_worker (mkWorkerConfig "http://w" None {["chat"]}) "i") in
  let d := mkDelivery ∅ [worker] (mkReport (quote "http://w") "i" (Some 500%Z) None 0 1 1) 0 in
  (deliver_all 3 [d; d] ∅).1 = [Recorded false; Deduplicated] ∧ NoDup (consumed_ids [d; d] (deliver_all 3 [d; d] ∅).1).
Proof.
  intros worker d. split; [vm_compute; reflexivity|]. apply (failure_events_count_once 3 [d; d]).
Defined.
