(* ===== verification/Supervisor.v ===== *)
(** * The router's supervisor

    Models [RouterSupervisor] ([src/sglang_omni_router/python/supervisor.py]): the start, the
    polling loop that reaps dead processes, folds and reclaims their admission slots
    ([AdmissionShm]) and restarts them, and the shutdown.  A step is one operation of the
    supervisor on the world: a poll, a spawn, a signal, a wait.  Between any two of them
    the children exit and write their slots, the control plane writes its files, signals
    arrive and time passes.  An operation of the system may fail where it can raise;
    an unlink and the rmdir of the shutdown may fail too, and are then passed over.  A
    child's [pid] is its position in [children]; epochs drawn from [uuid4] are numbers. *)
From S2P Require Import Prelude AdmissionShm.

(** ** Settings

    [machine] is the machine's name in lower case. *)
Definition SUPPORTED_MACHINES : list string := ["x86_64"; "amd64"].
Definition validate_multiprocess_settings (router_processes : Z) (effective_max_inflight : option Z) (policy machine : string) : res unit :=
  if bool_decide (router_processes < 1)%Z then Raise (ValueError "router_processes must be >= 1")
  else if match effective_max_inflight with Some m => bool_decide (m < router_processes)%Z | None => false end
  then Raise (ValueError "max in-flight bound is below router_processes")
  else if bool_decide (1 < router_processes)%Z && negb (bool_decide (machine ∈ SUPPORTED_MACHINES))
  then Raise (ValueError "multi-process admission is validated on x86-64 only")
  else if bool_decide (policy = "least_request") && bool_decide (1 < router_processes)%Z
  then Raise (ValueError "least_request is not supported with multiple router processes")
  else Ok tt.
Lemma validate_accepts n bound policy machine : validate_multiprocess_settings n bound policy machine = Ok tt ↔
  (1 ≤ n ∧ (∀ m, bound = Some m → n ≤ m) ∧ (1 < n → machine ∈ SUPPORTED_MACHINES ∧ policy ≠ "least_request"))%Z.
Proof.
  unfold validate_multiprocess_settings. split.
  - intros H. case_bool_decide as H1; [done|]. destruct (match bound with Some m => bool_decide (m < n)%Z | None => false end) eqn:H2; [done|].
    destruct (bool_decide (1 < n)%Z && negb (bool_decide (machine ∈ SUPPORTED_MACHINES))) eqn:H3; [done|]. destruct (bool_decide (policy = "least_request") && bool_decide (1 < n)%Z) eqn:H4; [done|].
    split_and!; [lia|intros m ->; apply bool_decide_eq_false in H2; lia|]. intros Hn. rewrite (bool_decide_true (1 < n)%Z) in H3, H4 by done. split.
    + by apply negb_false_iff, bool_decide_eq_true in H3.
    + rewrite andb_true_r in H4. by apply bool_decide_eq_false in H4.
  - intros (H1 & H2 & H3). rewrite bool_decide_false by lia. assert (Hb : match bound with Some m => bool_decide (m < n)%Z | None => false end = false).
    { destruct bound as [m|]; [|done]. specialize (H2 m eq_refl). apply bool_decide_false. lia. }
    rewrite Hb. destruct (decide (1 < n)%Z) as [Hn|Hn]; [|by rewrite (bool_decide_false (1 < n)%Z), andb_false_r]. destruct (H3 Hn) as [Hm Hp]. by rewrite (bool_decide_true (machine ∈ _)), andb_false_r, (bool_decide_false (policy = _)).
Qed.

(** ** The slots of dead processes *)
(** [_fold_and_reclaim_slot] on the admission file: nobody else writes these two slots.  The
    retired slot is held mid-write over both. *)
Definition folded (accumulated view : SlotView) (now : Z) : SlotView :=
  mkSlotView 0 0 (Z.max (peak_sum accumulated) (peak_sum view)) (rejected_total accumulated + rejected_total view) 0 0 now.
Definition fold_retired (router_processes index : nat) (now : Z) (accumulated view : SlotView) (buf : list Z) : res (list Z) :=
  '(marker, buf) ← begin_write router_processes buf;
  buf ← write_fields router_processes (folded accumulated view now) buf;
  buf ← reclaim index now buf;
  end_write router_processes marker buf.
Definition _fold_and_reclaim_slot (router_processes index : nat) (now : Z) (buf : list Z) : res (list Z) :=
  match slot_read true index (λ _, buf), slot_read true router_processes (λ _, buf) with
  | Ok view, Ok accumulated => fold_retired router_processes index now accumulated view buf
  | _, _ => reclaim index now buf
  end.


(** ** Folding keeps the counters *)
(** Words after a slot is marked and its fields are stored. *)
Lemma marked_words i v buf m b1 b2 : slot_in i buf → begin_write i buf = Ok (m, b1) → write_fields i v b1 = Ok b2 →
  m = Z.lor (unpack_q buf (word_off i 0)) 1 ∧ length b2 = length buf ∧ ∃ ws, pack_fields v = Ok ws ∧
  ∀ j k, k < 8 → get_word b2 (word_off j k) =
    if decide (i = j) then match k with O => (m mod 2 ^ 64)%Z | S k => (default 0 (ws !! k) mod 2 ^ 64)%Z end else get_word buf (word_off j k).
Proof.
  intros Hi. unfold begin_write, write_fields, pack_seq. intros (? & (? & Hm%raise_if_ok & [= <-])%bind_ok & [= <- <-])%bind_ok (ws & Hws & [= <-])%bind_ok.
  set (m := Z.lor _ 1). set (b1 := put_word buf _ _). split; [done|].
  assert (Hlw : length ws = 7) by (unfold pack_fields in Hws; by apply bind_ok in Hws as (? & _ & [= <-])).
  assert (Hi1 : slot_in i b1) by (by apply slot_in_put; [|lia|]).
  assert (Hl1 : length b1 = length buf) by (apply length_put_word; unfold slot_in, word_off, SLOT_SIZE in *; lia).
  split; [by rewrite length_put_fields by (done || lia)|]. exists ws. split; [done|]. intros j k Hk. rewrite get_put_fields by (done || lia). unfold b1.
  rewrite get_word_put by (done || lia). destruct (decide (i = j)) as [->|Hne]; [|by rewrite decide_False by congruence]. destruct k as [|k].
  - rewrite !(decide_True (P := (j, 0) = (j, 0))) by done. destruct (ws !! (0 - 1)); [|done]. by rewrite decide_False by lia.
  - rewrite !(decide_False (P := (j, 0) = (j, S k))) by congruence. replace (S k - 1) with k by lia.
    destruct (lookup_lt_is_Some_2 ws k) as [w ->]; [lia|]. by rewrite decide_True by lia.
Qed.

Lemma view_of_words i v b (s : Z) ws : pack_fields v = Ok ws → (0 ≤ heartbeat_ts v < 2 ^ 64)%Z → q_range s = true →
  (∀ k, k < 8 → get_word b (word_off i k) = match k with O => (s mod 2 ^ 64)%Z | S k => (default 0 (ws !! k) mod 2 ^ 64)%Z end) → view_of i b = with_seq s v.
Proof.
  intros Hws Hh Hs Hg. unfold pack_fields in Hws. apply bind_ok in Hws as (? & Hr%raise_if_ok & [= <-]).
  apply negb_false_iff in Hr. repeat (apply andb_true_iff in Hr as [Hr ?]). unfold view_of, load_view, with_seq. simpl Nat.add.
  rewrite !Hg by lia. simpl default. rewrite !to_signed_mod by done. by rewrite Z.mod_small by lia.
Qed.
Lemma view_of_same i b b' : (∀ k, k < 8 → get_word b' (word_off i k) = get_word b (word_off i k)) → view_of i b' = view_of i b.
Proof. intros H. unfold view_of, load_view. by rewrite !H by lia. Qed.
Lemma unpack_view i b : unpack_q b (word_off i 0) = seq (view_of i b).
Proof. done. Qed.

Definition empty_slot (now : Z) : SlotView := mkSlotView 0 0 0 0 0 0 now.

Lemma fold_words n i now acc view buf buf' : i ≠ n → slot_in i buf → slot_in n buf → fold_retired n i now acc view buf = Ok buf' →
  ∃ (m s : Z) ws ws3, q_range (m + 1) = true ∧ Z.even (m + 1) = true ∧ q_range s = true ∧ Z.even s = true ∧ pack_fields (folded acc view now) = Ok ws ∧ pack_fields (empty_slot now) = Ok ws3 ∧
  length buf' = length buf ∧ ∀ j k, k < 8 → get_word buf' (word_off j k) =
    if decide (n = j) then match k with O => ((m + 1) mod 2 ^ 64)%Z | S k => (default 0 (ws !! k) mod 2 ^ 64)%Z end
    else if decide (i = j) then match k with O => (s mod 2 ^ 64)%Z | S k => (default 0 (ws3 !! k) mod 2 ^ 64)%Z end
    else get_word buf (word_off j k).
Proof.
  intros Hne Hi Hn Hf. unfold fold_retired in Hf.
  apply bind_ok in Hf as ([m b1] & Hb & Hf). apply bind_ok in Hf as (b2 & Hw & Hf). apply bind_ok in Hf as (b3 & Hr & Hf).
  destruct (marked_words _ _ _ _ _ _ Hn Hb Hw) as (Em & L2 & ws & Hws & G2).
  assert (Hi2 : slot_in i b2) by (unfold slot_in in *; by rewrite L2).
  unfold reclaim in Hr. destruct (slot_write_words _ _ _ _ Hi2 Hr) as (L3 & Hq & ws3 & Hws3 & G3).
  unfold end_write, pack_seq in Hf. apply bind_ok in Hf as (? & (? & Hm1%raise_if_ok & [= <-])%bind_ok & [= <-]). apply negb_false_iff in Hm1.
  assert (Hn3 : slot_in n b3) by (unfold slot_in in *; by rewrite L3, L2).
  exists m, (Z.lor (unpack_q b2 (word_off i 0)) 1 + 1)%Z, ws, ws3. split_and!; try assumption.
  - by rewrite Z.even_add, Em, <- Z.negb_odd, lor_1_odd.
  - by rewrite Z.even_add, <- Z.negb_odd, lor_1_odd.
  - rewrite length_put_word; [by rewrite L3, L2|]. unfold slot_in, word_off, SLOT_SIZE in *. lia.
  - intros j k Hk. rewrite get_word_put by (done || lia). destruct (decide (n = j)) as [->|Hnj].
    + rewrite G3, G2 by done. rewrite (decide_False (P := i = j)) by done. rewrite (decide_True (P := j = j)) by done.
      destruct k; [by rewrite decide_True by done|by rewrite decide_False by congruence].
    + rewrite (decide_False (P := (n, 0) = (j, k))) by congruence. rewrite G3 by done. destruct (decide (i = j)) as [->|Hij]; [done|].
      rewrite G2 by done. by rewrite decide_False by done.
Qed.

Lemma fold_views n i now buf buf' : i ≠ n → slot_in i buf → slot_in n buf → (0 ≤ now < 2 ^ 64)%Z → fold_retired n i now (view_of n buf) (view_of i buf) buf = Ok buf' →
  (∃ s, Z.even s = true ∧ view_of n buf' = with_seq s (folded (view_of n buf) (view_of i buf) now)) ∧ (∃ s, Z.even s = true ∧ view_of i buf' = with_seq s (empty_slot now)) ∧
  (∀ j k, j ≠ i → j ≠ n → k < 8 → get_word buf' (word_off j k) = get_word buf (word_off j k)) ∧ length buf' = length buf.
Proof.
  intros Hne Hi Hn Hnow Hf. destruct (fold_words _ _ _ _ _ _ _ Hne Hi Hn Hf) as (m & s & ws & ws3 & Q1 & E1 & Q2 & E2 & P1 & P2 & L & G). split_and!.
  - exists (m + 1)%Z. split; [done|]. apply (view_of_words _ _ _ _ ws); [exact P1|exact Hnow|exact Q1|]. intros k Hk. rewrite G by done. by rewrite decide_True by done.
  - exists s. split; [done|]. apply (view_of_words _ _ _ _ ws3); [exact P2|exact Hnow|exact Q2|]. intros k Hk. rewrite G by done.
    rewrite decide_False by congruence. by rewrite decide_True by done.
  - intros j k Hji Hjn Hk. rewrite G by done. by rewrite !decide_False by congruence.
  - done.
Qed.

Lemma fold_stable n i now buf : Z.even (seq (view_of i buf)) = true → Z.even (seq (view_of n buf)) = true →
  _fold_and_reclaim_slot n i now buf = fold_retired n i now (view_of n buf) (view_of i buf) buf.
Proof. intros Ei En. unfold _fold_and_reclaim_slot. by rewrite !read_constant. Qed.
Lemma read_torn i buf budget t : Z.even (seq (view_of i buf)) = false → read_attempts i (λ _, buf) budget t = Raise SeqlockUnstableError.
Proof.
  intros He. revert t. induction budget as [|budget IH]; intros t; simpl; [done|].
  assert (Ho : Z.odd (unpack_q buf (word_off i 0)) = true) by (rewrite unpack_view, <- Z.negb_even, He; done). by rewrite Ho.
Qed.
Lemma slot_read_torn ff i buf : Z.even (seq (view_of i buf)) = false → slot_read ff i (λ _, buf) = Raise SeqlockUnstableError.
Proof. intros He. exact (read_torn i buf _ 0 He). Qed.
Lemma fold_torn n i now buf : Z.even (seq (view_of i buf)) = false → _fold_and_reclaim_slot n i now buf = reclaim i now buf.
Proof. intros He. unfold _fold_and_reclaim_slot. by rewrite slot_read_torn. Qed.
Lemma fold_retired_torn n i now buf : Z.even (seq (view_of n buf)) = false → _fold_and_reclaim_slot n i now buf = reclaim i now buf.
Proof. intros He. unfold _fold_and_reclaim_slot. rewrite (slot_read_torn true n) by done. by destruct (slot_read true i _). Qed.

(** In every case only the dead process's slot and the retired one change. *)
Lemma reclaim_words i now buf buf' : slot_in i buf → reclaim i now buf = Ok buf' →
  length buf' = length buf ∧ ∀ j k, j ≠ i → k < 8 → get_word buf' (word_off j k) = get_word buf (word_off j k).
Proof.
  intros Hi Hr. destruct (slot_write_words _ _ _ _ Hi Hr) as (L & _ & ws & _ & G). split; [done|]. intros j k Hj Hk. rewrite G by done. by rewrite decide_False by congruence.
Qed.
Lemma fold_spares n i now buf buf' : i ≠ n → slot_in i buf → slot_in n buf → _fold_and_reclaim_slot n i now buf = Ok buf' →
  length buf' = length buf ∧ ∀ j k, j ≠ i → j ≠ n → k < 8 → get_word buf' (word_off j k) = get_word buf (word_off j k).
Proof.
  intros Hne Hi Hn. unfold _fold_and_reclaim_slot.
  destruct (slot_read true i _); [destruct (slot_read true n _)|]; intros Hf; try (destruct (reclaim_words _ _ _ _ Hi Hf) as [? H]; split; [done|auto]).
  destruct (fold_words _ _ _ _ _ _ _ Hne Hi Hn Hf) as (m & s & ws & ws3 & _ & _ & _ & _ & _ & _ & L & G). split; [done|].
  intros j k Hji Hjn Hk. rewrite G by done. by rewrite !decide_False by congruence.
Qed.

(** C33. What dead processes counted is kept: when a data plane is reaped, its rejections move to the
    retired slot and its peak is folded in, so that the totals an aggregate reports (the sum
    of rejections over the slots and the retired one, and the greatest peak) do not change,
    its slot is empty and readable again, and no other slot is touched; if it died in the
    middle of a write its own counters are lost, and nothing else. *)
Theorem fold_keeps_totals n i now buf buf' : i < n → length buf = admission_file_size n → (0 ≤ now < 2 ^ 64)%Z → _fold_and_reclaim_slot n i now buf = Ok buf' →
  let rejections b := zsum (map (λ j, rejected_total (view_of j b)) (List.seq 0 (S n))) in
  (∃ s, Z.even s = true ∧ view_of i buf' = with_seq s (empty_slot now)) ∧ (∀ j, j ≠ i → j ≠ n → view_of j buf' = view_of j buf) ∧
  (Z.even (seq (view_of i buf)) = true → Z.even (seq (view_of n buf)) = true →
    rejections buf' = rejections buf ∧ peak_sum (view_of n buf') = Z.max (peak_sum (view_of n buf)) (peak_sum (view_of i buf)) ∧ Z.even (seq (view_of n buf')) = true) ∧
  (Z.even (seq (view_of i buf)) = false → view_of n buf' = view_of n buf).
Proof.
  intros Hin Hl Hnow Hf rejections. assert (Hi : slot_in i buf) by (unfold slot_in, admission_file_size, SLOT_SIZE in *; lia).
  assert (Hn : slot_in n buf) by (unfold slot_in, admission_file_size, SLOT_SIZE in *; lia). assert (Hne : i ≠ n) by lia.
  destruct (fold_spares _ _ _ _ _ Hne Hi Hn Hf) as [_ Hsp].
  assert (Hrecl : reclaim i now buf = Ok buf' → (∃ s, Z.even s = true ∧ view_of i buf' = with_seq s (empty_slot now)) ∧ view_of n buf' = view_of n buf).
  { intros Hr. destruct (slot_write_view i (empty_slot now) _ _ Hi Hnow Hr) as (Hv & He & Ho & _). split; [|by apply Ho]. eexists. split; [|exact Hv]. by rewrite Hv in He. }
  split_and!.
  - destruct (Z.even (seq (view_of i buf))) eqn:Ei; [|rewrite fold_torn in Hf by done; by apply Hrecl].
    destruct (Z.even (seq (view_of n buf))) eqn:En; [rewrite fold_stable in Hf by done; by apply (fold_views n i now buf buf')|].
    rewrite fold_retired_torn in Hf by done. by apply Hrecl.
  - intros j Hji Hjn. apply view_of_same. intros. by apply Hsp.
  - intros Ei En. rewrite fold_stable in Hf by done. destruct (fold_views _ _ _ _ _ Hne Hi Hn Hnow Hf) as ((s & Es & Vn) & (s' & Es' & Vi) & Ho & _). rewrite Vn. split_and!; [|done|done].
    unfold rejections. assert (Hz : ∀ f : nat → Z, zsum (map f (List.seq 0 (S n))) = (zsum (map f (List.seq 0 n)) + f n)%Z) by (intros f; rewrite seq_S, map_app, zsum_app; simpl; lia).
    rewrite !Hz, Vn.
    rewrite (zsum_map_update _ (λ j, if decide (j = n) then rejected_total (view_of j buf') else rejected_total (view_of j buf)) i n 0); [|lia|].
    + rewrite decide_False by done. rewrite (map_ext_in _ (λ j, rejected_total (view_of j buf)) (List.seq 0 n)) by (intros j Hj%in_seq; by rewrite decide_False by lia).
      rewrite Vi. cbn [rejected_total with_seq empty_slot folded]. lia.
    + intros j Hj. case_decide as Hjn; [done|]. by rewrite (view_of_same j buf buf') by (intros; by apply Hsp).
  - intros Ei. rewrite fold_torn in Hf by done. by apply Hrecl.
Qed.

(** *** At work *)
Definition demo_view (r p : Z) : SlotView := mkSlotView 0 2 p r 1 7 42.
Definition demo_admission : list Z :=
  match b ← slot_write 0 (demo_view 3 5) (create_admission_file 1); slot_write 1 (demo_view 4 2) b with Ok b => b | Raise _ => [] end.
Definition demo_folded : list Z := match _fold_and_reclaim_slot 1 0 99 demo_admission with Ok b => b | Raise _ => [] end.
Lemma fold_keeps_totals_witness : rejected_total (view_of 1 demo_folded) = 7%Z ∧ peak_sum (view_of 1 demo_folded) = 5%Z ∧ rejected_total (view_of 0 demo_folded) = 0%Z ∧
  ∃ s, Z.even s = true ∧ view_of 0 demo_folded = with_seq s (empty_slot 99).
Proof.
  split_and!; [vm_compute; reflexivity..|]. destruct (fold_keeps_totals 1 0 99 demo_admission demo_folded) as [H _]; [lia|vm_compute; reflexivity|lia|vm_compute; reflexivity|exact H].
Defined.

(** ** The supervisor's settings

    [stamp] is the word that the wall clock's float makes in the slots. *)
Class RouterSupervisor := {
  router_processes : nat;
  rapid_window_secs : Z;
  max_rapid_restarts : nat;
  prefer_uds : bool;
  owns_workdir : bool;
  stamp : Z → Z;
}.

Section supervisor.
Context {settings : RouterSupervisor}.

(** ** Children and the supervisor's object *)
Inductive role := DataPlane (index generation : nat) | ControlPlane (epoch : nat).
Inductive status := Alive | Exited (code : Z) | Reaped (code : Z).
Record child := mkChild { c_role : role; c_status : status; c_signalled : bool; c_killed : bool }.

Record DataPlaneSlot := mkSlot { s_generation : nat; s_process : nat; spawned_at : Z; rapid_deaths : nat }.

(** What happened, for the statements. *)
Inductive happening :=
| Spawned (r : role)
| Reap (r : role)
| Reclaimed (index generation : nat)
| Lived (index : nat) (lifetime : Z)
| Listening (b : bool)
| Signalled (r : role)
| KeptFile (f : string)
| KeptWorkdir.

Inductive start_step := MkWorkdir | WriteConfig | MakeSocket | Bind | MakePipe | CreateShm | MapShm | MakeContext | SpawnCp | SpawnDp (i : nat).
Inductive why := Stopped | StartFailed | DataPlaneFlaps (i : nat) | ControlPlaneFlaps | SpawnFailed | FoldFailed.
Inductive stop_stage := SSocket | SSignal (l : list nat) | SAwait (l : list nat) | SKilled (i : nat) (l : list nat) | SCp | SCpAwait (p : nat) | SCpKilled (p : nat) | SClose | SUnlink (l : list string) | SRmdir.
Inductive pc :=
| PStart (k : start_step)
| PLoop
| PSlots (l : list nat)
| PFold (i : nat) (l : list nat)
| PCheck (i : nat) (l : list nat)
| PRespawn (i : nat) (l : list nat)
| PPollCp
| PCheckCp
| PUnlinkUds
| PRespawnCp
| PSleep
| PStop (k : stop_stage) (w : why)
| PDone (w : why).

Record world := mkWorld {
  at_pc : pc;
  dp_slots : gmap nat DataPlaneSlot;
  cp_process : option nat;
  cp_spawned_at : Z;
  cp_rapid_deaths : nat;
  cp_epoch : nat;
  stop_requested : bool;
  interrupted : bool;
  children : list child;
  now : Z;
  socket_open : bool;
  pipe_open : bool;
  shm : option (list Z);
  context : bool;
  workdir : bool;
  files : gset string;
  log : list happening;
}.
Definition world_init : world := mkWorld (PStart MkWorkdir) ∅ None 0 0 0 false false [] 0 false false None false (negb owns_workdir) ∅ [].

Definition goto (p : pc) (s : world) : world := mkWorld p (dp_slots s) (cp_process s) (cp_spawned_at s) (cp_rapid_deaths s) (cp_epoch s) (stop_requested s) (interrupted s) (children s) (now s) (socket_open s) (pipe_open s) (shm s) (context s) (workdir s) (files s) (log s).
Definition set_slots (m : gmap nat DataPlaneSlot) (s : world) : world := mkWorld (at_pc s) m (cp_process s) (cp_spawned_at s) (cp_rapid_deaths s) (cp_epoch s) (stop_requested s) (interrupted s) (children s) (now s) (socket_open s) (pipe_open s) (shm s) (context s) (workdir s) (files s) (log s).
Definition set_cp (p : option nat) (at_ : Z) (rapid epoch : nat) (s : world) : world := mkWorld (at_pc s) (dp_slots s) p at_ rapid epoch (stop_requested s) (interrupted s) (children s) (now s) (socket_open s) (pipe_open s) (shm s) (context s) (workdir s) (files s) (log s).
Definition set_stop (i : bool) (s : world) : world := mkWorld (at_pc s) (dp_slots s) (cp_process s) (cp_spawned_at s) (cp_rapid_deaths s) (cp_epoch s) true (i || interrupted s) (children s) (now s) (socket_open s) (pipe_open s) (shm s) (context s) (workdir s) (files s) (log s).
Definition set_children (l : list child) (h : list happening) (s : world) : world := mkWorld (at_pc s) (dp_slots s) (cp_process s) (cp_spawned_at s) (cp_rapid_deaths s) (cp_epoch s) (stop_requested s) (interrupted s) l (now s) (socket_open s) (pipe_open s) (shm s) (context s) (workdir s) (files s) (log s ++ h).
Definition set_now (t : Z) (s : world) : world := mkWorld (at_pc s) (dp_slots s) (cp_process s) (cp_spawned_at s) (cp_rapid_deaths s) (cp_epoch s) (stop_requested s) (interrupted s) (children s) t (socket_open s) (pipe_open s) (shm s) (context s) (workdir s) (files s) (log s).
Definition set_socket (b : bool) (s : world) : world := mkWorld (at_pc s) (dp_slots s) (cp_process s) (cp_spawned_at s) (cp_rapid_deaths s) (cp_epoch s) (stop_requested s) (interrupted s) (children s) (now s) b (pipe_open s) (shm s) (context s) (workdir s) (files s) (log s ++ [Listening b]).
Definition set_pipe (b : bool) (s : world) : world := mkWorld (at_pc s) (dp_slots s) (cp_process s) (cp_spawned_at s) (cp_rapid_deaths s) (cp_epoch s) (stop_requested s) (interrupted s) (children s) (now s) (socket_open s) b (shm s) (context s) (workdir s) (files s) (log s).
Definition set_shm (b : option (list Z)) (h : list happening) (s : world) : world := mkWorld (at_pc s) (dp_slots s) (cp_process s) (cp_spawned_at s) (cp_rapid_deaths s) (cp_epoch s) (stop_requested s) (interrupted s) (children s) (now s) (socket_open s) (pipe_open s) b (context s) (workdir s) (files s) (log s ++ h).
Definition set_context (b : bool) (s : world) : world := mkWorld (at_pc s) (dp_slots s) (cp_process s) (cp_spawned_at s) (cp_rapid_deaths s) (cp_epoch s) (stop_requested s) (interrupted s) (children s) (now s) (socket_open s) (pipe_open s) (shm s) b (workdir s) (files s) (log s).
Definition note (h : happening) (s : world) : world := mkWorld (at_pc s) (dp_slots s) (cp_process s) (cp_spawned_at s) (cp_rapid_deaths s) (cp_epoch s) (stop_requested s) (interrupted s) (children s) (now s) (socket_open s) (pipe_open s) (shm s) (context s) (workdir s) (files s) (log s ++ [h]).
Definition set_files (d : bool) (f : gset string) (s : world) : world := mkWorld (at_pc s) (dp_slots s) (cp_process s) (cp_spawned_at s) (cp_rapid_deaths s) (cp_epoch s) (stop_requested s) (interrupted s) (children s) (now s) (socket_open s) (pipe_open s) (shm s) (context s) d f (log s).

(** ** Children *)
Definition reap (c : child) : child := mkChild (c_role c) (match c_status c with Exited z => Reaped z | st => st end) (c_signalled c) (c_killed c).
(** [Popen.poll] and [Popen.wait] reap a child that has exited. *)
Definition poll (p : nat) (s : world) : option Z * world :=
  match children s !! p with
  | Some c =>
      match c_status c with
      | Alive => (None, s)
      | Exited z => (Some z, set_children (<[p := reap c]> (children s)) [Reap (c_role c)] s)
      | Reaped z => (Some z, s)
      end
  | None => (None, s)
  end.
Definition terminate (p : nat) (s : world) : world :=
  match children s !! p with Some c => set_children (<[p := mkChild (c_role c) (c_status c) true (c_killed c)]> (children s)) [Signalled (c_role c)] s | None => s end.
Definition kill (p : nat) (s : world) : world :=
  match children s !! p with Some c => set_children (<[p := mkChild (c_role c) (c_status c) (c_signalled c) true]> (children s)) [] s | None => s end.
Definition _signal_child (p : nat) (s : world) : world := match poll p s with (None, s) => terminate p s | (Some _, s) => s end.
Definition spawn (r : role) (s : world) : nat * world := (length (children s), set_children (children s ++ [mkChild r Alive false false]) [Spawned r] s).

Definition _spawn_dp_slot (i generation : nat) (s : world) : world :=
  let (p, s) := spawn (DataPlane i generation) s in
  set_slots (<[i := mkSlot generation p (now s) match dp_slots s !! i with Some previous => rapid_deaths previous | None => 0 end]> (dp_slots s)) s.
Definition _spawn_control_plane (s : world) : world :=
  let (p, s) := spawn (ControlPlane (cp_epoch s)) s in set_cp (Some p) (now s) (cp_rapid_deaths s) (cp_epoch s) s.

(** The slots in the order of the dict. *)
Definition slot_indices (s : world) : list nat := filter (λ i, is_Some (dp_slots s !! i)) (List.seq 0 router_processes).

(** ** The start: [_start_inner]

    [Bind] stands for the bind, the listen and the probe for a port; a fold that raises stops
    the supervisor, and what it wrote until then is not kept. *)
Definition stop (w : why) (s : world) : world := goto (PStop SSocket w) s.
Definition next_dp (i : nat) (s : world) : world := goto (if bool_decide (i < router_processes) then PStart (SpawnDp i) else PLoop) s.
Definition add_file (f : string) (s : world) : world := set_files (workdir s) ({[f]} ∪ files s) s.

(** An operation of the system goes through, raises, raises after a file was made, or, when it is
    a wait, times out. *)
Inductive input := Go | Fails | FailsHalfway | Timeout.

Definition start_tick (k : start_step) (i : input) (s : world) : option world :=
  match k, i with
  | MakeContext, Fails | MakeContext, FailsHalfway => None
  | WriteConfig, FailsHalfway => Some (stop StartFailed (add_file "router_config.json" s))
  | MkWorkdir, FailsHalfway => Some (stop StartFailed (set_files true (files s) s))
  | MakePipe, FailsHalfway => Some (stop StartFailed (set_pipe true s))
  | CreateShm, FailsHalfway => Some (stop StartFailed (add_file "admission.shm" s))
  | _, Fails => Some (stop StartFailed s)
  | MkWorkdir, Go => Some (goto (PStart WriteConfig) (set_files true (files s) s))
  | WriteConfig, Go => Some (goto (PStart MakeSocket) (add_file "router_config.json" s))
  | MakeSocket, Go => Some (goto (PStart Bind) (set_socket true s))
  | Bind, Go => Some (goto (PStart MakePipe) s)
  | MakePipe, Go => Some (goto (PStart CreateShm) (set_pipe true s))
  | CreateShm, Go => Some (goto (PStart MapShm) (add_file "admission.shm" s))
  | MapShm, Go => Some (goto (PStart MakeContext) (set_shm (Some (create_admission_file router_processes)) [] s))
  | MakeContext, Go => Some (goto (PStart SpawnCp) (set_context true s))
  | SpawnCp, Go => Some (next_dp 0 (_spawn_control_plane s))
  | SpawnDp j, Go => Some (next_dp (S j) (_spawn_dp_slot j 1 s))
  | _, _ => None
  end.

(** ** The loop: [poll_once] *)
Definition rapid (born : Z) (deaths : nat) (s : world) : nat := if bool_decide (now s - born < rapid_window_secs)%Z then S deaths else 0.

Definition poll_slot (i : nat) (l : list nat) (s : world) : world :=
  match dp_slots s !! i with
  | Some slot => match poll (s_process slot) s with (None, s) => goto (PSlots l) s | (Some _, s) => goto (PFold i l) s end
  | None => goto (PSlots l) s
  end.
Definition fold_slot (i : nat) (l : list nat) (s : world) : world :=
  match shm s, dp_slots s !! i with
  | Some buf, Some slot =>
      match _fold_and_reclaim_slot router_processes i (stamp (now s)) buf with
      | Ok buf => goto (PCheck i l) (set_shm (Some buf) [Reclaimed i (s_generation slot)] s)
      | Raise _ => stop FoldFailed s
      end
  | _, _ => goto (PCheck i l) s
  end.
Definition check_slot (i : nat) (l : list nat) (s : world) : world :=
  match dp_slots s !! i with
  | Some slot =>
      let deaths := rapid (spawned_at slot) (rapid_deaths slot) s in
      let s := set_shm (shm s) [Lived i (now s - spawned_at slot)] (set_slots (<[i := mkSlot (s_generation slot) (s_process slot) (spawned_at slot) deaths]> (dp_slots s)) s) in
      if bool_decide (max_rapid_restarts ≤ deaths) then stop (DataPlaneFlaps i) s else goto (PRespawn i l) s
  | None => goto (PSlots l) s
  end.
Definition poll_cp (s : world) : world :=
  match cp_process s with
  | Some p => match poll p s with (None, s) => goto PSleep s | (Some _, s) => goto PCheckCp s end
  | None => goto PSleep s
  end.
Definition check_cp (s : world) : world :=
  let deaths := rapid (cp_spawned_at s) (cp_rapid_deaths s) s in
  let s := set_cp (cp_process s) (cp_spawned_at s) deaths (cp_epoch s) s in
  if bool_decide (max_rapid_restarts ≤ deaths) then stop ControlPlaneFlaps s else goto PUnlinkUds s.

(** The control plane that replaces it is a new epoch; its socket file is unlinked before, and an
    [OSError] of that is swallowed. *)
Definition next_epoch (s : world) : world :=
  goto PRespawnCp (set_cp (cp_process s) (cp_spawned_at s) (cp_rapid_deaths s) (S (cp_epoch s)) s).

(** ** The end: [shutdown], and [_cleanup_partial_start], which follows the same order *)
Definition await_child (p : nat) (killing done : pc) (i : input) (s : world) : option world :=
  match poll p s, i with
  | (Some _, s), Go => Some (goto done s)
  | (None, s), Timeout => Some (goto killing (kill p s))
  | _, _ => None
  end.
Definition config_files : list string := ["router_config.json"; "internal.sock"; "workers.json"; "admission.shm"].
(** The paths unlinked: [shutdown] takes those of the context, which has no socket file without
    UDS.  An [OSError] is swallowed, and the file stays. *)
Definition unlink_artifacts (w : why) : list string :=
  match w with StartFailed => config_files | _ => filter (λ f, f = "internal.sock" → prefer_uds = true) config_files end.
Definition unlink_artifact (i : input) (f : string) (s : world) : option world :=
  match i with
  | Go => Some (set_files (workdir s) (files s ∖ {[f]}) s)
  | Fails => Some (if bool_decide (f ∈ files s) then note (KeptFile f) s else s)
  | _ => None
  end.
(** [rmdir] refuses a directory that is not empty, and may fail otherwise; both are swallowed.  A
    directory that is not the supervisor's own is left alone. *)
Definition remove_workdir (i : input) (s : world) : option world :=
  match i with
  | Go => Some (set_files (workdir s && negb (owns_workdir && bool_decide (files s = ∅))) (files s) s)
  | Fails => Some (if owns_workdir then note KeptWorkdir s else s)
  | _ => None
  end.

Definition slot_child (i : nat) (s : world) : option nat := s_process <$> dp_slots s !! i.
Definition stop_tick (k : stop_stage) (w : why) (i : input) (s : world) : option world :=
  match k, i with
  | SSocket, Go => Some (goto (PStop (SSignal (slot_indices s)) w) (if socket_open s then set_socket false s else s))
  | SSignal [], Go => Some (goto (PStop (SAwait (slot_indices s)) w) s)
  | SSignal (j :: l), Go => Some (goto (PStop (SSignal l) w) match slot_child j s with Some p => _signal_child p s | None => s end)
  | SAwait [], Go => Some (goto (PStop SCp w) (set_slots ∅ s))
  | SAwait (j :: l), _ =>
      match slot_child j s with
      | Some p => await_child p (PStop (SKilled j l) w) (PStop (SAwait l) w) i s
      | None => None
      end
  | SKilled j l, Go =>
      match slot_child j s with Some p => match poll p s with (Some _, s) => Some (goto (PStop (SAwait l) w) s) | (None, _) => None end | None => None end
  | SCp, Go => match cp_process s with Some p => Some (goto (PStop (SCpAwait p) w) (_signal_child p s)) | None => Some (goto (PStop SClose w) s) end
  | SCpAwait p, _ => await_child p (PStop (SCpKilled p) w) (PStop SClose w) i s
  | SCpKilled p, Go => match poll p s with (Some _, s) => Some (goto (PStop SClose w) s) | (None, _) => None end
  | SClose, Go => Some (goto (PStop (SUnlink (unlink_artifacts w)) w) (set_context false (set_shm None [] (set_pipe false (set_cp None (cp_spawned_at s) (cp_rapid_deaths s) (cp_epoch s) s)))))
  | SUnlink [], Go => Some (goto (PStop SRmdir w) s)
  | SUnlink (f :: l), _ => goto (PStop (SUnlink l) w) <$> unlink_artifact i f s
  | SRmdir, _ => goto (PDone w) <$> remove_workdir i s
  | _, _ => None
  end.

(** ** The supervisor *)
Definition tick (i : input) (s : world) : option world :=
  match at_pc s, i with
  | PStart k, _ => start_tick k i s
  | PLoop, Go => Some (if stop_requested s then stop Stopped s else goto (PSlots (slot_indices s)) s)
  | PSlots [], Go => Some (goto PPollCp s)
  | PSlots (j :: l), Go => Some (poll_slot j l s)
  | PFold j l, Go => Some (fold_slot j l s)
  | PCheck j l, Go => Some (check_slot j l s)
  | PRespawn j l, Go => Some (goto (PSlots l) match dp_slots s !! j with Some slot => _spawn_dp_slot j (S (s_generation slot)) s | None => s end)
  | PRespawn _ _, Fails | PRespawnCp, Fails => Some (stop SpawnFailed s)
  | PPollCp, Go => Some (poll_cp s)
  | PCheckCp, Go => Some (check_cp s)
  | PUnlinkUds, Go => Some (next_epoch (if prefer_uds then set_files (workdir s) (files s ∖ {["internal.sock"]}) s else s))
  | PUnlinkUds, Fails => Some (next_epoch s)
  | PRespawnCp, Go => Some (goto PSleep (_spawn_control_plane s))
  | PSleep, Go => Some (goto PLoop s)
  | PStop k w, _ => stop_tick k w i s
  | _, _ => None
  end.

(** What the rest of the world does meanwhile: a child exits; a signal asks to stop; time
    passes; a live data plane writes its own slot; a live control plane makes its
    socket and publishes its snapshot, through a temporary file of its own, or removes these. *)
Definition other_slots_same (i : nat) (buf buf' : list Z) : Prop :=
  length buf' = length buf ∧ ∀ j k, j ≠ i → k < 8 → get_word buf' (word_off j k) = get_word buf (word_off j k).
Definition tmp_name (p : nat) : string := ("workers.json.tmp." +:+ pretty p)%string.
Inductive other (s : world) : world → Prop :=
| o_exit p c z : children s !! p = Some c → c_status c = Alive → other s (set_children (<[p := mkChild (c_role c) (Exited z) (c_signalled c) (c_killed c)]> (children s)) [] s)
| o_signal i : other s (set_stop i s)
| o_time t : (now s ≤ t)%Z → other s (set_now t s)
| o_write p c i g buf buf' : children s !! p = Some c → c_status c = Alive → c_role c = DataPlane i g → shm s = Some buf → other_slots_same i buf buf' → other s (set_shm (Some buf') [] s)
| o_socket p c e : children s !! p = Some c → c_status c = Alive → c_role c = ControlPlane e → prefer_uds = true → other s (add_file "internal.sock" s)
| o_tmp p c e : children s !! p = Some c → c_status c = Alive → c_role c = ControlPlane e → other s (add_file (tmp_name p) s)
| o_publish p c e : children s !! p = Some c → c_status c = Alive → c_role c = ControlPlane e → tmp_name p ∈ files s →
    other s (set_files (workdir s) ({["workers.json"]} ∪ files s ∖ {[tmp_name p]}) s)
| o_remove p c e f : children s !! p = Some c → c_status c = Alive → c_role c = ControlPlane e → f = tmp_name p ∨ f = "workers.json" ∨ f = "internal.sock" →
    other s (set_files (workdir s) (files s ∖ {[f]}) s).

Inductive step (s : world) : world → Prop :=
| s_tick i s' : tick i s = Some s' → step s s'
| s_other s' : other s s' → step s s'.
Definition reachable (s : world) : Prop := rtc step world_init s.

(** ** Runs *)
Inductive act := Tick (i : input) | Exit (p : nat) (z : Z) | Time (t : Z) | Interrupt (i : bool) | WriteTmp (p : nat).
Definition perform (a : act) (s : world) : option world :=
  match a with
  | Tick i => tick i s
  | Exit p z =>
      match children s !! p with
      | Some c => match c_status c with Alive => Some (set_children (<[p := mkChild (c_role c) (Exited z) (c_signalled c) (c_killed c)]> (children s)) [] s) | _ => None end
      | None => None
      end
  | Time t => if bool_decide (now s ≤ t)%Z then Some (set_now t s) else None
  | Interrupt i => Some (set_stop i s)
  | WriteTmp p =>
      match children s !! p with
      | Some c => match c_status c, c_role c with Alive, ControlPlane _ => Some (add_file (tmp_name p) s) | _, _ => None end
      | None => None
      end
  end.
Definition play (l : list act) : option world := foldl (λ o a, s ← o; perform a s) (Some world_init) l.
Lemma perform_step a s s' : perform a s = Some s' → step s s'.
Proof.
  destruct a as [i|p z|t|i|p]; simpl; intros H; [by apply s_tick in H|apply s_other..].
  - destruct (children s !! p) as [c|] eqn:Ec; [|done]. destruct (c_status c) eqn:Es; try done. injection H as <-. by eapply o_exit.
  - case_bool_decide; [|done]. injection H as <-. by apply o_time.
  - injection H as <-. apply o_signal.
  - destruct (children s !! p) as [c|] eqn:Ec; [|done]. destruct (c_status c) eqn:Es; try done. destruct (c_role c) eqn:Er; [done|]. injection H as <-. by eapply o_tmp.
Qed.
Lemma play_reachable l s : play l = Some s → reachable s.
Proof.
  unfold play, reachable. revert s. induction l as [|a l IH] using rev_ind; intros s H; [injection H as <-; constructor|].
  rewrite foldl_app in H. simpl in H. apply bind_Some in H as (s0 & H0 & H). eapply rtc_r; [by apply IH|by eapply perform_step].
Qed.
(** A run, or nothing of it when a step of it cannot be taken. *)
Definition played (l : list act) : world := default world_init (play l).
Lemma played_reachable l : reachable (played l).
Proof. unfold played. destruct (play l) eqn:E; [by eapply play_reachable|apply rtc_refl]. Qed.
End supervisor.
