(* ===== verification/SupervisorProps.v ===== *)
(** * The router's supervisor: its theorems

    The invariant of every reachable world of [Supervisor]: the lanes of the data planes and
    the control plane ([inv]), the drain ([drain_ok]), the files ([files_ok]) and the rapid
    deaths ([flap_at]); then what they say together. *)
From S2P Require Import Prelude AdmissionShm Supervisor.

Section supervisor.
Context {settings : RouterSupervisor}.

(** ** The lane of a data plane

    What may happen to the data planes of one index, in order: generation [g] is spawned,
    reaped, its slot reclaimed, and only then generation [g + 1] is spawned. *)
Inductive lane_state := LFree (next : nat) | LUp (g : nat) | LDead (g : nat).
Definition lane_step (i : nat) (st : lane_state) (h : happening) : option lane_state :=
  match h with
  | Spawned (DataPlane j g) => if bool_decide (j = i) then match st with LFree g' => if bool_decide (g' = g) then Some (LUp g) else None | _ => None end else Some st
  | Reap (DataPlane j g) => if bool_decide (j = i) then match st with LUp g' => if bool_decide (g' = g) then Some (LDead g) else None | _ => None end else Some st
  | Reclaimed j g => if bool_decide (j = i) then match st with LDead g' => if bool_decide (g' = g) then Some (LFree (S g)) else None | _ => None end else Some st
  | _ => Some st
  end.
Definition lane (i : nat) (l : list happening) : option lane_state := foldl (λ o h, st ← o; lane_step i st h) (Some (LFree 1)) l.
Lemma lane_snoc i l h : lane i (l ++ [h]) = st ← lane i l; lane_step i st h.
Proof. unfold lane. by rewrite foldl_app. Qed.

Definition unreaped (c : child) : bool := match c_status c with Reaped _ => false | _ => true end.
(** Roles and what is still to be reaped, position by position. *)
Definition kin (l : list child) : list (role * bool) := (λ c, (c_role c, unreaped c)) <$> l.

Lemma kin_lookup l p : kin l !! p = (λ c, (c_role c, unreaped c)) <$> l !! p.
Proof. apply list_lookup_fmap. Qed.
Lemma kin_same l p c c' : l !! p = Some c → c_role c' = c_role c → unreaped c' = unreaped c → kin (<[p := c']> l) = kin l.
Proof. intros Hp Hr Hu. unfold kin. rewrite list_fmap_insert, Hr, Hu. apply list_insert_id. by rewrite list_lookup_fmap, Hp. Qed.

Definition current (p : pc) : option nat := match p with PFold i _ | PCheck i _ | PRespawn i _ => Some i | _ => None end.
Definition stopping (p : pc) : bool := match p with PStop _ _ | PDone _ => true | _ => false end.
Definition cleared (p : pc) : bool := match p with PStop (SCp | SCpAwait _ | SCpKilled _ | SClose | SUnlink _ | SRmdir) _ | PDone _ => true | _ => false end.

(** Slots, children and lanes agree. *)
Definition slot_ok (i : nat) (slot : DataPlaneSlot) (k : list (role * bool)) (st : option lane_state) : Prop :=
  i < router_processes ∧ ∃ u, k !! s_process slot = Some (DataPlane i (s_generation slot), u) ∧
    (if u : bool then st = Some (LUp (s_generation slot)) else st = Some (LDead (s_generation slot)) ∨ st = Some (LFree (S (s_generation slot)))).
Definition current_ok (p : pc) (m : gmap nat DataPlaneSlot) (k : list (role * bool)) (l : list happening) : Prop :=
  match p with
  | PFold i _ => ∃ slot, m !! i = Some slot ∧ k !! s_process slot = Some (DataPlane i (s_generation slot), false) ∧ lane i l = Some (LDead (s_generation slot))
  | PCheck i _ | PRespawn i _ => ∃ slot, m !! i = Some slot ∧ k !! s_process slot = Some (DataPlane i (s_generation slot), false) ∧ lane i l = Some (LFree (S (s_generation slot)))
  | PStart (SpawnDp j) => j < router_processes ∧ ∀ i, is_Some (m !! i) ↔ i < j
  | PStart _ => m = ∅
  | _ => True
  end.
Record lanes_ok (p : pc) (m : gmap nat DataPlaneSlot) (k : list (role * bool)) (l : list happening) : Prop := {
  la_slot : ∀ i slot, m !! i = Some slot → slot_ok i slot k (lane i l);
  la_child : ∀ q i g, k !! q = Some (DataPlane i g, true) → ∃ slot, m !! i = Some slot ∧ s_process slot = q;
  la_none : cleared p = false → ∀ i, m !! i = None → lane i l = Some (LFree 1);
  la_lane : ∀ i, is_Some (lane i l);
  la_current : current_ok p m k l;
  la_up : stopping p = false → ∀ i slot, m !! i = Some slot → current p ≠ Some i → k !! s_process slot = Some (DataPlane i (s_generation slot), true);
}.
Definition lanes_inv (s : world) : Prop := lanes_ok (at_pc s) (dp_slots s) (kin (children s)) (log s).

(** Happenings that concern no lane. *)
Definition aside (h : happening) : bool := match h with Spawned (DataPlane _ _) | Reap (DataPlane _ _) | Reclaimed _ _ => false | _ => true end.
Lemma lane_aside i l hs : forallb aside hs = true → lane i (l ++ hs) = lane i l.
Proof.
  induction hs as [|h hs IH] using rev_ind; [by rewrite app_nil_r|]. rewrite forallb_app, andb_true_iff. simpl. rewrite andb_true_r. intros [H Hh].
  rewrite (assoc_L app), lane_snoc, IH by done. destruct (lane i l); [|done]. by destruct h as [[]|[]| | | | | |].
Qed.

(** The supervisor goes on, with nothing that concerns the lanes. *)
Lemma lanes_go_on p p' m k k' l hs : lanes_ok p m k l → forallb aside hs = true → (∀ q i g u, k' !! q = Some (DataPlane i g, u) ↔ k !! q = Some (DataPlane i g, u)) →
  current_ok p' m k' (l ++ hs) → (cleared p' = false → cleared p = false) → (stopping p' = false → stopping p = false ∧ (∀ i, current p = Some i → current p' = Some i)) → lanes_ok p' m k' (l ++ hs).
Proof.
  intros [H1 H2 H3 H4 H5 H6] Ha Hk Hc Hcl Hst. split; try (intros i; rewrite lane_aside by done); auto.
  - intros slot Hs. destruct (H1 i slot Hs) as [Hn (u & Hu & Hl)]. split; [done|]. exists u. by rewrite Hk.
  - intros q i g Hq. rewrite Hk in Hq. eauto.
  - intros Hx i Hi. rewrite lane_aside by done. auto.
  - intros Hx i slot Hs Hne. destruct (Hst Hx) as [Hy Hz]. rewrite Hk. apply H6; [done|done|]. intros E. by apply Hne, Hz.
Qed.
Lemma current_ok_aside p m k k' l hs : current_ok p m k l → forallb aside hs = true → (∀ q i g u, k' !! q = Some (DataPlane i g, u) ↔ k !! q = Some (DataPlane i g, u)) → current_ok p m k' (l ++ hs).
Proof.
  intros H Ha Hk. destruct p as [[]| | |i x|i x|i x| | | | | | |]; simpl in *; try done; setoid_rewrite Hk; by rewrite lane_aside.
Qed.

Lemma lane_other i h l : match h with Spawned (DataPlane j _) | Reap (DataPlane j _) | Reclaimed j _ => j ≠ i | _ => True end → lane i (l ++ [h]) = lane i l.
Proof. intros Hh. rewrite lane_snoc. destruct (lane i l); [|done]. destruct h as [[]|[]| | | | | |]; simpl; by rewrite ?bool_decide_false. Qed.
Lemma lanes_slot_of p m k l q i g : lanes_ok p m k l → k !! q = Some (DataPlane i g, true) →
  ∃ slot, m !! i = Some slot ∧ s_process slot = q ∧ s_generation slot = g ∧ lane i l = Some (LUp g) ∧ i < router_processes.
Proof.
  intros H Hq. destruct (la_child _ _ _ _ H _ _ _ Hq) as (slot & Hs & Hp). exists slot. destruct (la_slot _ _ _ _ H _ _ Hs) as [Hn (u & Hu & Hl)].
  rewrite Hp, Hq in Hu. injection Hu as -> <-. by split_and!.
Qed.

Lemma lanes_reap p p' m k l q i g : lanes_ok p m k l → k !! q = Some (DataPlane i g, true) → current_ok p' m (<[q := (DataPlane i g, false)]> k) (l ++ [Reap (DataPlane i g)]) →
  (cleared p' = false → cleared p = false) → (stopping p' = false → stopping p = false ∧ current p = None ∧ current p' = Some i) →
  lanes_ok p' m (<[q := (DataPlane i g, false)]> k) (l ++ [Reap (DataPlane i g)]).
Proof.
  intros H Hq Hc Hcl Hst. destruct (lanes_slot_of _ _ _ _ _ _ _ H Hq) as (slot & Hs & Ep & Eg & El & Hn). pose proof H as [H1 H2 H3 H4 H5 H6].
  assert (Hdead : lane i (l ++ [Reap (DataPlane i g)]) = Some (LDead g)) by (rewrite lane_snoc, El; simpl; by rewrite !bool_decide_true).
  assert (Hoth : ∀ j, j ≠ i → lane j (l ++ [Reap (DataPlane i g)]) = lane j l) by (intros; by apply lane_other).
  assert (Hk : ∀ j s', m !! j = Some s' → j ≠ i → <[q := (DataPlane i g, false)]> k !! s_process s' = k !! s_process s').
  { intros j s' Hj Hne. apply list_lookup_insert_ne. intros E. destruct (H1 _ _ Hj) as [_ (u & Hu & _)]. rewrite <- E, Hq in Hu. congruence. }
  split; [..|done|].
  - intros j s' Hj. destruct (decide (j = i)) as [->|Hne].
    + rewrite Hs in Hj. injection Hj as <-. split; [done|]. exists false. rewrite Ep, Eg, Hdead. split; [|by left]. apply list_lookup_insert_eq. by eapply lookup_lt_Some.
    + destruct (H1 _ _ Hj) as [? Hu]. split; [done|]. by rewrite (Hk j), Hoth.
  - intros q' j g' Hq'. destruct (decide (q' = q)) as [->|Hne]; [rewrite list_lookup_insert_eq in Hq'; [done|by eapply lookup_lt_Some]|].
    rewrite list_lookup_insert_ne in Hq' by done. eauto.
  - intros Hx j Hj. rewrite Hoth by congruence. auto.
  - intros j. destruct (decide (j = i)) as [->|Hne]; [rewrite Hdead; by eexists|rewrite Hoth; auto].
  - intros Hx j s' Hj Hne. destruct (Hst Hx) as (Hy & Hz & Hw). rewrite (Hk j); [|done|congruence]. apply H6; [done|done|]. by rewrite Hz.
Qed.

Lemma lanes_reclaim i x y m k l slot : lanes_ok (PFold i x) m k l → m !! i = Some slot → lanes_ok (PCheck i y) m k (l ++ [Reclaimed i (s_generation slot)]).
Proof.
  intros [H1 H2 H3 H4 H5 H6] Hs. destruct H5 as (slot' & Hs' & Hk & Hl). rewrite Hs in Hs'. injection Hs' as <-.
  assert (Hfree : lane i (l ++ [Reclaimed i (s_generation slot)]) = Some (LFree (S (s_generation slot)))) by (rewrite lane_snoc, Hl; simpl; by rewrite !bool_decide_true).
  assert (Hoth : ∀ j, j ≠ i → lane j (l ++ [Reclaimed i (s_generation slot)]) = lane j l) by (intros; by apply lane_other).
  split; [|done| | | |done].
  - intros j s' Hj. destruct (decide (j = i)) as [->|Hne]; [|rewrite Hoth by done; by apply H1]. rewrite Hs in Hj. injection Hj as <-. destruct (H1 _ _ Hs) as [? _].
    split; [done|]. exists false. split; [done|]. rewrite Hfree. by right.
  - intros _ j Hj. rewrite Hoth by congruence. by apply H3.
  - intros j. destruct (decide (j = i)) as [->|Hne]; [rewrite Hfree; by eexists|rewrite Hoth; auto].
  - simpl. exists slot. by rewrite Hfree.
Qed.

Lemma lanes_spawn p p' m k l i g at_ deaths : lanes_ok p m k l → i < router_processes → lane i l = Some (LFree g) → cleared p = false → stopping p = false → (∀ q g', k !! q ≠ Some (DataPlane i g', true)) →
  (∀ j, current p = Some j → j = i) → (match p' with PFold _ _ | PCheck _ _ | PRespawn _ _ => False | _ => True end) →
  (let slot := mkSlot g (length k) at_ deaths in current_ok p' (<[i := slot]> m) (k ++ [(DataPlane i g, true)]) (l ++ [Spawned (DataPlane i g)])) →
  lanes_ok p' (<[i := mkSlot g (length k) at_ deaths]> m) (k ++ [(DataPlane i g, true)]) (l ++ [Spawned (DataPlane i g)]).
Proof.
  intros [H1 H2 H3 H4 H5 H6] Hn Hl Hcl Hst Hno Hcur Hp' Hc.
  assert (Hup : lane i (l ++ [Spawned (DataPlane i g)]) = Some (LUp g)) by (rewrite lane_snoc, Hl; simpl; by rewrite !bool_decide_true).
  assert (Hoth : ∀ j, j ≠ i → lane j (l ++ [Spawned (DataPlane i g)]) = lane j l) by (intros; by apply lane_other).
  assert (Hlook : ∀ q x, k !! q = Some x → (k ++ [(DataPlane i g, true)]) !! q = Some x) by (intros q x Hq; by apply lookup_app_l_Some).
  assert (Hnew : (k ++ [(DataPlane i g, true)]) !! length k = Some (DataPlane i g, true)) by (by apply list_lookup_middle).
  split; [..|exact Hc|].
  - intros j s' [[<- <-]|[Hne Hj]]%lookup_insert_Some; [split; [done|]; exists true; by rewrite Hup|]. destruct (H1 _ _ Hj) as [? (u & Hu & Hx)].
    split; [done|]. exists u. rewrite Hoth by done. split; [by apply Hlook|done].
  - intros q j g' Hq. apply lookup_app_Some in Hq as [Hq|[Hle Hq]].
    + destruct (decide (j = i)) as [->|Hne]; [by destruct (Hno q g')|]. rewrite lookup_insert_ne by done. eauto.
    + apply list_lookup_singleton_Some in Hq as [Hz [= <- <-]]. rewrite lookup_insert_eq. eexists. split; [done|]. simpl. lia.
  - intros Hx j [Hj Hne]%lookup_insert_None. rewrite Hoth by done. by apply H3.
  - intros j. destruct (decide (j = i)) as [->|Hne]; [rewrite Hup; by eexists|rewrite Hoth; auto].
  - intros Hx j s' [[<- <-]|[Hne Hj]]%lookup_insert_Some Hcu; [done|]. apply Hlook, H6; [done|done|]. intros E. by apply Hne, eq_sym, Hcur.
Qed.

(** A slot keeps its process and its generation. *)
Lemma lanes_update p m k l i slot slot' : lanes_ok p m k l → m !! i = Some slot → s_process slot' = s_process slot → s_generation slot' = s_generation slot →
  match p with PStart _ => False | _ => True end → lanes_ok p (<[i := slot']> m) k l.
Proof.
  intros [H1 H2 H3 H4 H5 H6] Hs Ep Eg Hp.
  assert (Hm : ∀ j s', <[i := slot']> m !! j = Some s' → ∃ s0, m !! j = Some s0 ∧ s_process s' = s_process s0 ∧ s_generation s' = s_generation s0)
    by (intros j s' [[<- <-]|[_ Hj]]%lookup_insert_Some; eauto).
  assert (Hm' : ∀ j s0, m !! j = Some s0 → ∃ s', <[i := slot']> m !! j = Some s' ∧ s_process s' = s_process s0 ∧ s_generation s' = s_generation s0).
  { intros j s0 Hj. destruct (decide (j = i)) as [->|Hne]; [|exists s0; by rewrite lookup_insert_ne by done]. rewrite Hs in Hj. injection Hj as <-. exists slot'. by rewrite lookup_insert_eq. }
  split; [..|done| |].
  - intros j s' Hj. destruct (Hm _ _ Hj) as (s0 & Hj' & E1 & E2). unfold slot_ok. rewrite E1, E2. by apply H1.
  - intros q j g Hq. destruct (H2 _ _ _ Hq) as (s0 & Hj & <-). destruct (Hm' _ _ Hj) as (s' & ? & ? & _). by exists s'.
  - intros Hx j [Hj _]%lookup_insert_None. by apply H3.
  - destruct p as [| | |j x|j x|j x| | | | | | |]; try done; destruct H5 as (s0 & Hj & Hk & Hl); destruct (Hm' _ _ Hj) as (s' & Hj' & E1 & E2); exists s'; by rewrite E1, E2.
  - intros Hx j s' Hj Hne. destruct (Hm _ _ Hj) as (s0 & Hj' & E1 & E2). rewrite E1, E2. by apply H6.
Qed.

Lemma lanes_clear p p' m k l : lanes_ok p m k l → (∀ q i g, k !! q ≠ Some (DataPlane i g, true)) → cleared p' = true → stopping p' = true → lanes_ok p' ∅ k l.
Proof.
  intros [H1 H2 H3 H4 H5 H6] Hno Hcl Hst. split; [done| |congruence|done|by destruct p'|congruence]. intros q i g Hq. by destruct (Hno q i g).
Qed.

(** The control plane: one process at a time. *)
Definition cp_stage (p : pc) (cp : option nat) (k : list (role * bool)) : Prop :=
  match p with
  | PStart (SpawnDp _) => True
  | PStart _ => cp = None
  | PCheckCp | PUnlinkUds | PRespawnCp => ∃ q e, cp = Some q ∧ k !! q = Some (ControlPlane e, false)
  | PStop (SCpAwait q) _ | PStop (SCpKilled q) _ => cp = Some q
  | PStop (SClose | SUnlink _ | SRmdir) _ | PDone _ => ∀ q e, k !! q ≠ Some (ControlPlane e, true)
  | _ => True
  end.
Record cp_ok (p : pc) (cp : option nat) (k : list (role * bool)) : Prop := {
  cp_role : ∀ q, cp = Some q → ∃ e u, k !! q = Some (ControlPlane e, u);
  cp_child : ∀ q e, k !! q = Some (ControlPlane e, true) → cp = Some q;
  cp_at : cp_stage p cp k;
}.
Definition cp_inv (s : world) : Prop := cp_ok (at_pc s) (cp_process s) (kin (children s)).

Lemma cp_move p p' cp k k' : cp_ok p cp k → (∀ q e u, k' !! q = Some (ControlPlane e, u) ↔ k !! q = Some (ControlPlane e, u)) → cp_stage p' cp k' → cp_ok p' cp k'.
Proof. intros [H1 H2 H3] Hk Hp. split; [intros q Hq; setoid_rewrite Hk; auto|intros q e; rewrite Hk; eauto|done]. Qed.
Lemma cp_reap p p' cp k q e : cp_ok p cp k → k !! q = Some (ControlPlane e, true) → cp_stage p' cp (<[q := (ControlPlane e, false)]> k) → cp_ok p' cp (<[q := (ControlPlane e, false)]> k).
Proof.
  intros [H1 H2 H3] Hq Hp. split; [..|done].
  - intros q' Hq'. destruct (decide (q' = q)) as [->|Hne]; [|rewrite list_lookup_insert_ne by done; auto]. rewrite list_lookup_insert_eq by (by eapply lookup_lt_Some). by eexists _, _.
  - intros q' e' Hq'. destruct (decide (q' = q)) as [->|Hne]; [rewrite list_lookup_insert_eq in Hq'; [done|by eapply lookup_lt_Some]|]. rewrite list_lookup_insert_ne in Hq' by done. eauto.
Qed.
Lemma cp_spawn p p' cp k e : cp_ok p cp k → (∀ q e, k !! q ≠ Some (ControlPlane e, true)) → cp_stage p' (Some (length k)) (k ++ [(ControlPlane e, true)]) → cp_ok p' (Some (length k)) (k ++ [(ControlPlane e, true)]).
Proof.
  intros [H1 H2 H3] Hno Hp. split; [..|done].
  - intros q [= <-]. rewrite list_lookup_middle by done. by eexists _, _.
  - intros q e' Hq. apply lookup_app_Some in Hq as [Hq|[Hle Hq]]; [by destruct (Hno q e')|]. apply list_lookup_singleton_Some in Hq as [Hz _]. f_equal. lia.
Qed.

(** Positions that an update or an append does not concern. *)
Lemma kin_insert (k : list (role * bool)) q (x y z : role * bool) q' : k !! q = Some x → y ≠ z → x ≠ z → <[q := y]> k !! q' = Some z ↔ k !! q' = Some z.
Proof.
  intros Hq Hy Hx. destruct (decide (q' = q)) as [->|Hne]; [|by rewrite list_lookup_insert_ne by done].
  rewrite list_lookup_insert_eq by (by eapply lookup_lt_Some). rewrite Hq. split; intros [= ->]; done.
Qed.
Lemma kin_append (k : list (role * bool)) (y z : role * bool) q' : y ≠ z → (k ++ [y]) !! q' = Some z ↔ k !! q' = Some z.
Proof.
  intros Hy. split.
  - intros [Hq|[_ Hq]]%lookup_app_Some; [done|]. by apply list_lookup_singleton_Some in Hq as [_ ->].
  - intros Hq. by apply lookup_app_l_Some.
Qed.

(** *** Polls, signals and spawns *)
Lemma poll_none p s s' : poll p s = (None, s') → s' = s.
Proof. unfold poll. destruct (children s !! p) as [c|]; [|by intros [= <-]]. destruct (c_status c); by intros [= <-]. Qed.
Lemma poll_some p s z s' : poll p s = (Some z, s') → ∃ c, children s !! p = Some c ∧ c_status c ≠ Alive ∧ unreaped (reap c) = false ∧
  s' = set_children (<[p := reap c]> (children s)) (if unreaped c then [Reap (c_role c)] else []) s.
Proof.
  unfold poll. destruct (children s !! p) as [c|] eqn:Ec; [|done]. destruct (c_status c) as [|y|y] eqn:Es; [done|intros [= <- <-]|intros [= <- <-]]; exists c; unfold unreaped; simpl; rewrite Es.
  - by split_and!.
  - split_and!; [done|done|done|]. assert (Er : reap c = c) by (destruct c as [r st a b]; simpl in *; unfold reap; simpl; by rewrite Es).
    rewrite Er, list_insert_id by done. destruct s. unfold set_children. simpl. by rewrite app_nil_r.
Qed.
Lemma kin_reap l p c : l !! p = Some c → unreaped (reap c) = false → kin (<[p := reap c]> l) = <[p := (c_role c, false)]> (kin l).
Proof. intros Hp Hu. unfold kin. by rewrite list_fmap_insert, Hu. Qed.
Lemma kin_child l p c : l !! p = Some c → kin l !! p = Some (c_role c, unreaped c).
Proof. intros Hp. by rewrite kin_lookup, Hp. Qed.
Lemma kin_child_inv l p r u : kin l !! p = Some (r, u) → ∃ c, l !! p = Some c ∧ c_role c = r ∧ unreaped c = u.
Proof. rewrite kin_lookup. destruct (l !! p) as [c|]; simpl; [intros [= <- <-]; by exists c|done]. Qed.
Lemma unreaped_alive c : c_status c = Alive → unreaped c = true.
Proof. unfold unreaped. by intros ->. Qed.
Lemma length_kin l : length (kin l) = length l.
Proof. apply length_fmap. Qed.

Definition inv1 (s : world) : Prop := lanes_inv s ∧ cp_inv s.
Lemma world_eta s : goto (at_pc s) s = s.
Proof. by destruct s. Qed.

(** The supervisor moves on without touching slots or children. *)
Lemma inv1_move s s' : inv1 s → dp_slots s' = dp_slots s → cp_process s' = cp_process s → kin (children s') = kin (children s) → (∃ hs, log s' = log s ++ hs ∧ forallb aside hs = true) →
  current_ok (at_pc s') (dp_slots s) (kin (children s)) (log s') → cp_stage (at_pc s') (cp_process s) (kin (children s)) → (cleared (at_pc s') = false → cleared (at_pc s) = false) →
  (stopping (at_pc s') = false → stopping (at_pc s) = false ∧ (∀ i, current (at_pc s) = Some i → current (at_pc s') = Some i)) → inv1 s'.
Proof.
  intros [Hl Hc] E1 E2 E3 (hs & E4 & Ha) H1 H2 H3 H4. unfold inv1, lanes_inv, cp_inv in *. rewrite E1, E2, E3. split.
  - rewrite E4 in *. by eapply lanes_go_on.
  - by eapply cp_move.
Qed.

(** The child of a slot, and a poll that finds it dead. *)
Lemma slot_child_ok s i slot : lanes_inv s → dp_slots s !! i = Some slot → ∃ c, children s !! s_process slot = Some c ∧ c_role c = DataPlane i (s_generation slot) ∧ i < router_processes.
Proof. intros Hl Hs. destruct (la_slot _ _ _ _ Hl _ _ Hs) as [Hn (u & (c & Hc & Hr & _)%kin_child_inv & _)]. by exists c. Qed.

Lemma inv1_poll_dead s i slot z s' p' : inv1 s → dp_slots s !! i = Some slot → poll (s_process slot) s = (Some z, s') →
  stopping p' = true → (cleared p' = false → cleared (at_pc s) = false) → (∀ k, (∀ q e u, k !! q = Some (ControlPlane e, u) ↔ kin (children s) !! q = Some (ControlPlane e, u)) → cp_stage p' (cp_process s) k) →
  inv1 (goto p' s').
Proof.
  intros [Hl Hc] Hs Hp Hst Hcl Hcp. destruct (slot_child_ok _ _ _ Hl Hs) as (c & Ec & Er & Hn). destruct (poll_some _ _ _ _ Hp) as (c' & Ec' & _ & Hu & ->).
  rewrite Ec in Ec'. injection Ec' as <-. assert (Hcur : ∀ m k l, current_ok p' m k l) by (by destruct p').
  pose proof (kin_child _ _ _ Ec) as Hk. rewrite Er in Hk.
  assert (Hiff : ∀ q e u, <[s_process slot := (DataPlane i (s_generation slot), false)]> (kin (children s)) !! q = Some (ControlPlane e, u) ↔ kin (children s) !! q = Some (ControlPlane e, u))
    by (intros q e u; by eapply kin_insert).
  unfold inv1, lanes_inv, cp_inv. simpl. rewrite (kin_reap _ _ c) by done. rewrite Er. split.
  - destruct (unreaped c) eqn:Eu.
    + eapply lanes_reap; [exact Hl|exact Hk|apply Hcur|exact Hcl|congruence].
    + rewrite list_insert_id by done. eapply lanes_go_on; [exact Hl|done|done|apply Hcur|exact Hcl|congruence].
  - eapply cp_move; [exact Hc|exact Hiff|by apply Hcp].
Qed.

Ltac quiet := first [done|by exists []; rewrite app_nil_r|by eexists [_]].
Lemma inv1_goto s p : inv1 s → current_ok p (dp_slots s) (kin (children s)) (log s) → cp_stage p (cp_process s) (kin (children s)) → (cleared p = false → cleared (at_pc s) = false) →
  (stopping p = false → stopping (at_pc s) = false ∧ (∀ i, current (at_pc s) = Some i → current p = Some i)) → inv1 (goto p s).
Proof. intros H H1 H2 H3 H4. apply (inv1_move s); try done. exists []. by rewrite app_nil_r. Qed.
Lemma inv1_stop s w : inv1 s → cleared (at_pc s) = false → inv1 (stop w s).
Proof. intros H Hc. by apply inv1_goto. Qed.
(** Fields that are not concerned. *)
Definition same_core (s s' : world) : Prop := at_pc s' = at_pc s ∧ dp_slots s' = dp_slots s ∧ cp_process s' = cp_process s ∧ kin (children s') = kin (children s) ∧ ∃ hs, log s' = log s ++ hs ∧ forallb aside hs = true.
Lemma inv1_core s s' : inv1 s → same_core s s' → inv1 s'.
Proof.
  intros H (E1 & E2 & E3 & E4 & hs & E5 & Ha). pose proof H as [Hl Hc]. apply (inv1_move s); rewrite ?E1; try done; [by exists hs| |apply (cp_at _ _ _ Hc)].
  rewrite E5. eapply current_ok_aside; [apply (la_current _ _ _ _ Hl)|done|done].
Qed.
Lemma core_refl s s' : at_pc s' = at_pc s → dp_slots s' = dp_slots s → cp_process s' = cp_process s → children s' = children s → log s' = log s → same_core s s'.
Proof. intros E1 E2 E3 E4 E5. split_and!; [done|done|done|by rewrite E4|]. exists []. by rewrite E5, app_nil_r. Qed.

Lemma next_dp_ok i s : inv1 s → (∃ k, at_pc s = PStart k) → (∀ j, is_Some (dp_slots s !! j) ↔ j < i) → inv1 (next_dp i s).
Proof.
  intros H (k & E) Hd. unfold next_dp. case_bool_decide as Hi; apply inv1_goto; simpl; rewrite ?E; try done.
Qed.

Lemma kin_spawn l r : kin (l ++ [mkChild r Alive false false]) = kin l ++ [(r, true)].
Proof. unfold kin. by rewrite fmap_app. Qed.
Lemma inv1_spawn_cp s p' : inv1 s → (∀ q e, kin (children s) !! q ≠ Some (ControlPlane e, true)) →
  current_ok p' (dp_slots s) (kin (children s) ++ [(ControlPlane (cp_epoch s), true)]) (log s ++ [Spawned (ControlPlane (cp_epoch s))]) →
  (cleared p' = false → cleared (at_pc s) = false) → (stopping p' = false → stopping (at_pc s) = false ∧ (∀ i, current (at_pc s) = Some i → current p' = Some i)) →
  (∀ n k, cp_stage p' (Some n) k) → inv1 (goto p' (_spawn_control_plane s)).
Proof.
  intros [Hl Hc] Hno Hcur Hcl Hst Hcp. unfold inv1, lanes_inv, cp_inv. simpl. rewrite kin_spawn. split.
  - eapply lanes_go_on; [exact Hl|done|intros; by apply kin_append|exact Hcur|exact Hcl|exact Hst].
  - rewrite <- length_kin. eapply cp_spawn; [exact Hc|exact Hno|apply Hcp].
Qed.

Lemma inv1_spawn_dp s i g p' : inv1 s → i < router_processes → lane i (log s) = Some (LFree g) → cleared (at_pc s) = false → stopping (at_pc s) = false →
  (∀ q g', kin (children s) !! q ≠ Some (DataPlane i g', true)) → (∀ j, current (at_pc s) = Some j → j = i) → (match p' with PFold _ _ | PCheck _ _ | PRespawn _ _ => False | _ => True end) →
  (∀ m k l, (∀ j, is_Some (m !! j) ↔ j = i ∨ is_Some (dp_slots s !! j)) → current_ok p' m k l) → cp_stage p' (cp_process s) (kin (children s) ++ [(DataPlane i g, true)]) → inv1 (goto p' (_spawn_dp_slot i g s)).
Proof.
  intros [Hl Hc] Hn Hfree Hcl Hst Hno Hcu Hp' Hcur Hcp. unfold inv1, lanes_inv, cp_inv. simpl. rewrite kin_spawn. split.
  - rewrite <- (length_kin (children s)). eapply lanes_spawn; try done. apply Hcur. intros j. destruct (decide (j = i)) as [->|Hne].
    + rewrite lookup_insert_eq. split; [by left|by eexists].
    + rewrite lookup_insert_ne by done. split; [by right|by intros [?|?]].
  - eapply cp_move; [exact Hc|intros; by apply kin_append|exact Hcp].
Qed.

Lemma inv1_start k i s s' : inv1 s → at_pc s = PStart k → start_tick k i s = Some s' → inv1 s'.
Proof.
  intros H E Hs. pose proof H as [Hl Hc]. pose proof (la_current _ _ _ _ Hl) as Hcur. pose proof (cp_at _ _ _ Hc) as Hcp. rewrite E in Hcur, Hcp. simpl in Hcur, Hcp.
  assert (Hstop : ∀ z, same_core s z → inv1 (stop StartFailed z)) by (intros z Hz; apply inv1_stop; [by eapply inv1_core|destruct Hz as (-> & _); by rewrite E]).
  assert (Hnext : ∀ k' z, same_core s z → match k, k' with SpawnCp, _ | SpawnDp _, _ | _, SpawnDp _ => False | _, _ => True end → inv1 (goto (PStart k') z)).
  { intros k' z Hz Hk. pose proof (inv1_core _ _ H Hz) as Hz'. destruct Hz as (E1 & E2 & E3 & _). apply inv1_goto; [done|..]; rewrite ?E1, ?E2, ?E3, ?E; try done; destruct k, k'; done. }
  assert (Hr : ∀ z, at_pc z = at_pc s → dp_slots z = dp_slots s → cp_process z = cp_process s → children z = children s → log z = log s → same_core s z) by (intros; by apply core_refl).
  destruct k, i; simpl in Hs; try done; injection Hs as <-;
    try (apply Hstop; apply core_refl; done); try (apply Hnext; [apply core_refl; done|done]).
  - apply Hnext; [|done]. split_and!; try done. by exists [Listening true].
  - apply Hnext; [|done]. split_and!; try done. by exists [].
  - unfold next_dp. apply inv1_spawn_cp; simpl; rewrite ?E; try done; try (case_bool_decide; done).
    + intros q e Hq. by rewrite (cp_child _ _ _ Hc _ _ Hq) in Hcp.
    + case_bool_decide as Hn; [|done]. split; [done|]. intros i. rewrite Hcur, lookup_empty. split; [by intros [??]|lia].
  - destruct Hcur as [Hn Hd]. assert (Hnone : dp_slots s !! i0 = None) by (destruct (dp_slots s !! i0) eqn:Ex; [|done]; assert (i0 < i0) by (apply Hd; rewrite Ex; by eexists); lia).
    unfold next_dp. apply inv1_spawn_dp; rewrite ?E; try done; try (case_bool_decide; done).
    + apply (la_none _ _ _ _ Hl); [by rewrite E|done].
    + intros q g' Hq. destruct (la_child _ _ _ _ Hl _ _ _ Hq) as (? & ? & _). congruence.
    + intros m k l Hm. case_bool_decide; simpl; [|done]. split; [done|]. intros i. rewrite Hm, Hd. lia.
Qed.

(** *** The loop *)
Lemma core_log s s' hs : at_pc s' = at_pc s → dp_slots s' = dp_slots s → cp_process s' = cp_process s → kin (children s') = kin (children s) → log s' = log s ++ hs → forallb aside hs = true → same_core s s'.
Proof. intros. split_and!; try done. by exists hs. Qed.

Lemma current_at s p : inv1 s → at_pc s = p → current_ok p (dp_slots s) (kin (children s)) (log s).
Proof. intros [H _] <-. apply (la_current _ _ _ _ H). Qed.
Lemma stage_at s p : inv1 s → at_pc s = p → cp_stage p (cp_process s) (kin (children s)).
Proof. intros [_ H] <-. apply (cp_at _ _ _ H). Qed.

(** A poll of the child of a slot finds it dead for the first time. *)
Lemma inv1_reap s i slot z s' l : inv1 s → stopping (at_pc s) = false → current (at_pc s) = None → dp_slots s !! i = Some slot → poll (s_process slot) s = (Some z, s') → inv1 (goto (PFold i l) s').
Proof.
  intros [Hl Hc] Hst Hcu Hs Hp. destruct (poll_some _ _ _ _ Hp) as (c & Ec & _ & Hu & ->). pose proof (kin_child _ _ _ Ec) as Hk.
  pose proof (la_up _ _ _ _ Hl Hst _ _ Hs) as Hup. rewrite Hcu in Hup. specialize (Hup ltac:(done)). rewrite Hk in Hup. injection Hup as Er Eu. rewrite Er, Eu in Hk.
  unfold inv1, lanes_inv, cp_inv. simpl. rewrite (kin_reap _ _ c) by done. rewrite Er, Eu. split.
  - eapply lanes_reap; [exact Hl|exact Hk| |intros _; by destruct (at_pc s) as [| | | | | | | | | | |[]|]|done].
    simpl. exists slot. split_and!; [done|by apply list_lookup_insert_eq; eapply lookup_lt_Some|].
    destruct (lanes_slot_of _ _ _ _ _ _ _ Hl Hk) as (? & ? & _ & _ & El & _). rewrite lane_snoc, El. simpl. by rewrite !bool_decide_true.
  - eapply cp_move; [exact Hc| |done]. intros. by eapply kin_insert.
Qed.
Lemma inv1_poll_slot s j l : inv1 s → at_pc s = PSlots (j :: l) → inv1 (poll_slot j l s).
Proof.
  intros H E. unfold poll_slot. destruct (dp_slots s !! j) as [slot|] eqn:Es; [|apply inv1_goto; by rewrite ?E].
  destruct (poll (s_process slot) s) as [[z|] s'] eqn:Ep.
  - eapply inv1_reap; [done|by rewrite E..|done|done].
  - apply poll_none in Ep as ->. apply inv1_goto; by rewrite ?E.
Qed.
Lemma inv1_fold s j l : inv1 s → at_pc s = PFold j l → is_Some (shm s) → inv1 (fold_slot j l s).
Proof.
  intros H E [buf Eb]. destruct (current_at _ _ H E) as (slot & Es & _). pose proof H as [Hl Hc]. unfold fold_slot. rewrite Eb, Es.
  destruct (_fold_and_reclaim_slot _ _ _ _) as [b|x]; [|apply inv1_stop; by rewrite ?E]. split.
  - unfold lanes_inv in *. rewrite E in Hl. by eapply lanes_reclaim.
  - unfold cp_inv. simpl. by eapply cp_move; [exact Hc| |].
Qed.
Lemma inv1_check s j l : inv1 s → at_pc s = PCheck j l → inv1 (check_slot j l s).
Proof.
  intros H E. destruct (current_at _ _ H E) as (slot & Es & _). unfold check_slot. rewrite Es. cbv zeta. set (s1 := set_slots _ s).
  assert (H1 : inv1 s1).
  { destruct H as [Hl Hc]. split; [|done]. unfold lanes_inv. simpl. eapply lanes_update; [exact Hl|done|done|done|by rewrite E]. }
  set (s2 := set_shm _ _ s1). assert (H2 : inv1 s2) by (apply (inv1_core s1); [done|]; by apply (core_log _ _ [Lived j (now s - spawned_at slot)%Z])).
  assert (E2 : at_pc s2 = PCheck j l) by done. clearbody s2. case_bool_decide; [apply inv1_stop; by rewrite ?E2|].
  apply inv1_goto; rewrite ?E2; try done. exact (current_at _ _ H2 E2).
Qed.
Lemma inv1_respawn s j l : inv1 s → at_pc s = PRespawn j l → inv1 (goto (PSlots l) match dp_slots s !! j with Some slot => _spawn_dp_slot j (S (s_generation slot)) s | None => s end).
Proof.
  intros H E. destruct (current_at _ _ H E) as (slot & Es & Hk & El). rewrite Es. pose proof H as [Hl Hc].
  apply inv1_spawn_dp; rewrite ?E; try done.
  - by destruct (la_slot _ _ _ _ Hl _ _ Es).
  - intros q g' Hq. destruct (la_child _ _ _ _ Hl _ _ _ Hq) as (s0 & Hs & <-). congruence.
  - by intros ? [= <-].
Qed.

(** A poll of the control plane finds it dead. *)
Lemma inv1_cp_dead s p z s' p' : inv1 s → cp_process s = Some p → poll p s = (Some z, s') → (∀ m k l, current_ok p' m k l) → (cleared p' = false → cleared (at_pc s) = false) →
  (stopping p' = false → stopping (at_pc s) = false ∧ current (at_pc s) = None) → (∀ k e, k !! p = Some (ControlPlane e, false) → (∀ q e, k !! q = Some (ControlPlane e, true) → q = p) → cp_stage p' (Some p) k) → inv1 (goto p' s').
Proof.
  intros [Hl Hc] Hs Hp Hcur Hcl Hst Hcp. destruct (poll_some _ _ _ _ Hp) as (c & Ec & _ & Hu & ->). pose proof (kin_child _ _ _ Ec) as Hk.
  destruct (cp_role _ _ _ Hc _ Hs) as (e & u & Hk'). rewrite Hk in Hk'. injection Hk' as Er Eu. rewrite Er, Eu in Hk.
  unfold inv1, lanes_inv, cp_inv. simpl. rewrite (kin_reap _ _ c) by done. rewrite Er, Eu. split.
  - eapply lanes_go_on; [exact Hl|by destruct u| |apply Hcur|exact Hcl|].
    + intros q i g v. by eapply kin_insert.
    + intros Hx. destruct (Hst Hx) as [? ->]. done.
  - rewrite Hs. assert (Hstage : cp_stage p' (Some p) (<[p := (ControlPlane e, false)]> (kin (children s)))).
    { apply (Hcp _ e); [by apply list_lookup_insert_eq; eapply lookup_lt_Some|]. intros q e' Hq. destruct (decide (q = p)) as [|Hne]; [done|]. rewrite list_lookup_insert_ne in Hq by done.
      pose proof (cp_child _ _ _ Hc _ _ Hq). congruence. }
    unfold cp_inv in Hc. rewrite Hs in Hc. destruct u; [by eapply cp_reap|]. rewrite list_insert_id in * by done. by eapply cp_move.
Qed.
Lemma inv1_poll_cp s : inv1 s → at_pc s = PPollCp → inv1 (poll_cp s).
Proof.
  intros H E. unfold poll_cp. destruct (cp_process s) as [p|] eqn:Es; [|apply inv1_goto; by rewrite ?E].
  destruct (poll p s) as [[z|] s'] eqn:Ep; [|apply poll_none in Ep as ->; apply inv1_goto; by rewrite ?E].
  eapply inv1_cp_dead; rewrite ?E; try done. intros k e Hk _. by exists p, e.
Qed.
Lemma inv1_check_cp s : inv1 s → at_pc s = PCheckCp → inv1 (check_cp s).
Proof.
  intros H E. unfold check_cp. cbv zeta. set (s1 := set_cp _ _ _ _ s). assert (H1 : inv1 s1) by (by apply (inv1_core s); [|apply core_refl]).
  assert (E1 : at_pc s1 = PCheckCp) by done. clearbody s1. case_bool_decide; [apply inv1_stop; by rewrite ?E1|].
  apply inv1_goto; rewrite ?E1; try done. exact (stage_at _ _ H1 E1).
Qed.
Lemma inv1_respawn_cp s : inv1 s → at_pc s = PRespawnCp → inv1 (goto PSleep (_spawn_control_plane s)).
Proof.
  intros H E. destruct (stage_at _ _ H E) as (p & e & Es & Hk). apply inv1_spawn_cp; rewrite ?E; try done.
  intros q e' Hq. destruct H as [_ Hc]. pose proof (cp_child _ _ _ Hc _ _ Hq). congruence.
Qed.

(** *** The end *)
Definition no_up (k : list (role * bool)) (l : list nat) : Prop := ∀ q i g, k !! q = Some (DataPlane i g, true) → i ∈ l.
(** The indices whose data planes may still be there. *)
Definition waiting (p : pc) : option (list nat) :=
  match p with PStop (SAwait l) _ => Some l | PStop (SKilled j l) _ => Some (j :: l) | _ => if cleared p then Some [] else None end.
Definition await_ok (s : world) : Prop := ∀ l, waiting (at_pc s) = Some l → no_up (kin (children s)) l.
Definition shm_there (p : pc) : bool :=
  match p with PStart (MakeContext | SpawnCp | SpawnDp _) => true | PStart _ | PStop _ _ | PDone _ => false | _ => true end.
Definition shm_ok (s : world) : Prop := (shm_there (at_pc s) = true → is_Some (shm s)) ∧ ∀ buf, shm s = Some buf → length buf = admission_file_size router_processes.
Definition inv (s : world) : Prop := inv1 s ∧ await_ok s ∧ shm_ok s.

Lemma inv1_signal s p k w : inv1 s → stopping (at_pc s) = true → cleared (at_pc s) = false → (∃ c, children s !! p = Some c) →
  (∀ z s', poll p s = (Some z, s') → inv1 (goto (PStop k w) s')) → (∀ m kk l, current_ok (PStop k w) m kk l) → cp_stage (PStop k w) (cp_process s) (kin (children s)) →
  inv1 (goto (PStop k w) (_signal_child p s)).
Proof.
  intros H Hst Hcl (c & Ec) Hd Hcur Hcp. unfold _signal_child. destruct (poll p s) as [[z|] s'] eqn:Ep; [by eapply Hd|]. apply poll_none in Ep as ->.
  unfold terminate. rewrite Ec. apply (inv1_move s); simpl; try done; [by eapply kin_same|by eexists [_]].
Qed.
Lemma inv1_kill s p p' : inv1 s → stopping p' = true → (cleared p' = false → cleared (at_pc s) = false) → cp_stage p' (cp_process s) (kin (children s)) → inv1 (goto p' (kill p s)).
Proof.
  intros H Hst Hcl Hcp. assert (Hcur : ∀ m k l, current_ok p' m k l) by (by destruct p'). unfold kill. destruct (children s !! p) as [c|] eqn:Ec; [|apply inv1_goto; try done; congruence].
  apply (inv1_move s); simpl; try done; [by eapply kin_same|by exists []|congruence].
Qed.

Lemma kin_goto p s : kin (children (goto p s)) = kin (children s).
Proof. done. Qed.
Lemma slot_child_inv s j p : slot_child j s = Some p → ∃ slot, dp_slots s !! j = Some slot ∧ s_process slot = p.
Proof. unfold slot_child. destruct (dp_slots s !! j) as [slot|]; simpl; [intros [= <-]; by exists slot|done]. Qed.

(** The last stages: a file or the directory is removed, or it is kept. *)
Inductive ending (w : why) (s : world) : stop_stage → world → Prop :=
| en_rmdir : ending w s (SUnlink []) (goto (PStop SRmdir w) s)
| en_gone f l : ending w s (SUnlink (f :: l)) (goto (PStop (SUnlink l) w) (set_files (workdir s) (files s ∖ {[f]}) s))
| en_absent f l : f ∉ files s → ending w s (SUnlink (f :: l)) (goto (PStop (SUnlink l) w) s)
| en_kept f l : f ∈ files s → ending w s (SUnlink (f :: l)) (goto (PStop (SUnlink l) w) (note (KeptFile f) s))
| en_removed : ending w s SRmdir (goto (PDone w) (set_files (workdir s && negb (owns_workdir && bool_decide (files s = ∅))) (files s) s))
| en_not_owned : owns_workdir = false → ending w s SRmdir (goto (PDone w) s)
| en_kept_dir : ending w s SRmdir (goto (PDone w) (note KeptWorkdir s)).
Definition removing (k : stop_stage) : bool := match k with SUnlink _ | SRmdir => true | _ => false end.
Lemma stop_ending k w i s s' : stop_tick k w i s = Some s' → removing k = true → ending w s k s'.
Proof.
  intros Ht Hk. destruct k as [| | | | | | | |[|f l]|]; try done; destruct i; simpl in Ht; try done; injection Ht as <-; try constructor.
  - case_bool_decide; by constructor.
  - destruct owns_workdir eqn:Eo; [constructor|by apply en_not_owned].
Qed.
Lemma ending_children w s k s' : ending w s k s' → children s' = children s ∧ shm s' = shm s ∧ dp_slots s' = dp_slots s ∧ cp_process s' = cp_process s.
Proof. by intros []. Qed.
Lemma ending_pc w s k s' : ending w s k s' → (∃ k', removing k' = true ∧ at_pc s' = PStop k' w) ∨ at_pc s' = PDone w.
Proof. intros []; simpl; try (by right); left; eexists; (split; [|reflexivity]); done. Qed.

Lemma inv1_stop_tick s k w i s' : inv1 s → await_ok s → at_pc s = PStop k w → stop_tick k w i s = Some s' → inv1 s'.
Proof.
  intros H Ha E Hs. pose proof (stage_at _ _ H E) as Hcp. pose proof H as [Hl Hc].
  assert (Hd : ∀ j p z z' p', slot_child j s = Some p → poll p s = (Some z, z') → stopping p' = true → cleared p' = false → cp_stage p' (cp_process s) (kin (children s)) →
    match p' with PStop (SCpAwait _ | SCpKilled _) _ => False | _ => True end → cleared (at_pc s) = false → inv1 (goto p' z')).
  { intros j p z z' p' (slot & Ej & <-)%slot_child_inv Hp Hst Hcl Hcp' Hm Hx. eapply inv1_poll_dead; try done. intros kk Hkk. destruct p' as [| | | | | | | | | | |[]|]; try done. }
  assert (Hdc : ∀ p z z', cp_process s = Some p → poll p s = (Some z, z') → inv1 (goto (PStop SClose w) z')).
  { intros p z z' Hp Hpoll. eapply inv1_cp_dead; rewrite ?E; try done. intros kk e Hkk Hq q e' Hq'. assert (q = p) by eauto. subst. congruence. }
  destruct (removing k) eqn:Hrm.
  { apply stop_ending in Hs; [|done]. destruct (ending_children _ _ _ _ Hs) as (Ek & _ & Ed & Ec). apply (inv1_move s); rewrite ?E; try done; [by rewrite Ek|by destruct Hs; quiet|..].
    all: destruct (ending_pc _ _ _ _ Hs) as [([] & Hk & ->)| ->]; destruct k; simpl in *; done. }
  destruct k as [|[|j l]|[|j l]|j l| |p|p| |[|f l]|]; try discriminate Hrm; simpl in Hs.
  - destruct i; try done. injection Hs as <-. destruct (socket_open s).
    + apply (inv1_move s); simpl; rewrite ?E; try done. by exists [Listening false].
    + apply inv1_goto; by rewrite ?E.
  - destruct i; try done. injection Hs as <-. apply inv1_goto; by rewrite ?E.
  - destruct i; try done. injection Hs as <-. destruct (slot_child j s) as [p|] eqn:Ej; [|apply inv1_goto; by rewrite ?E].
    apply inv1_signal; rewrite ?E; try done.
    + apply slot_child_inv in Ej as (slot & Ej & <-). destruct (slot_child_ok _ _ _ Hl Ej) as (c & Ec & _). by exists c.
    + intros z z' Hz. eapply Hd; rewrite ?E; try done.
  - destruct i; try done. injection Hs as <-. destruct H as [_ _]. split; [|by eapply cp_move].
    unfold lanes_inv in *. simpl. eapply lanes_clear; [exact Hl| |done|done]. intros q i g Hq. assert (Hin : i ∈ []) by (eapply Ha; [by rewrite E|done]). by apply not_elem_of_nil in Hin.
  - assert (Hs' : match slot_child j s with Some p => await_child p (PStop (SKilled j l) w) (PStop (SAwait l) w) i s | None => None end = Some s') by (by destruct i).
    clear Hs. destruct (slot_child j s) as [p|] eqn:Ej; [|done]. unfold await_child in Hs'. destruct (poll p s) as [[z|] z'] eqn:Ep.
    + destruct i; try done. injection Hs' as <-. eapply Hd; rewrite ?E; try done.
    + destruct i; try done. injection Hs' as <-. apply poll_none in Ep as ->. apply inv1_kill; by rewrite ?E.
  - destruct i; try done. destruct (slot_child j s) as [p|] eqn:Ej; [|done]. destruct (poll p s) as [[z|] z'] eqn:Ep; [|done]. injection Hs as <-. eapply Hd; rewrite ?E; try done.
  - destruct i; try done. destruct (cp_process s) as [p|] eqn:Ecp.
    + injection Hs as <-. destruct (cp_role _ _ _ Hc _ Ecp) as (e & u & Hk). apply kin_child_inv in Hk as (c & Ec & _).
      unfold _signal_child. destruct (poll p s) as [[z|] z'] eqn:Ep.
      * eapply inv1_cp_dead; rewrite ?E; done.
      * apply poll_none in Ep as ->. unfold terminate. rewrite Ec. apply (inv1_move s); simpl; rewrite ?E, ?Ecp; try done; [by eapply kin_same|by eexists [_]].
    + injection Hs as <-. apply inv1_goto; rewrite ?E; try done. simpl. intros q e Hq. pose proof (cp_child _ _ _ Hc _ _ Hq). congruence.
  - assert (Hs' : await_child p (PStop (SCpKilled p) w) (PStop SClose w) i s = Some s') by (by destruct i). clear Hs.
    unfold await_child in Hs'. destruct (poll p s) as [[z|] z'] eqn:Ep.
    + destruct i; try done. injection Hs' as <-. by eapply Hdc.
    + destruct i; try done. injection Hs' as <-. apply poll_none in Ep as ->. apply inv1_kill; by rewrite ?E.
  - destruct i; try done. destruct (poll p s) as [[z|] z'] eqn:Ep; [|done]. injection Hs as <-. by eapply Hdc.
  - destruct i; try done. injection Hs as <-. split.
    + unfold lanes_inv in *. simpl. eapply lanes_go_on; [exact Hl|done|done|done|by rewrite E|done].
    + split; [done|intros q e Hq; by destruct (Hcp q e)|exact Hcp].
Qed.

(** *** What the tick does to children, and the invariant *)
Definition fewer (k k' : list (role * bool)) : Prop := ∀ q r, k' !! q = Some (r, true) → k !! q = Some (r, true).
Lemma fewer_refl k : fewer k k.
Proof. by intros q r. Qed.
Lemma fewer_poll p s : fewer (kin (children s)) (kin (children (poll p s).2)).
Proof.
  destruct (poll p s) as [[z|] s'] eqn:Ep; simpl; [|apply poll_none in Ep as ->; apply fewer_refl]. destruct (poll_some _ _ _ _ Ep) as (c & Ec & _ & Hu & ->). simpl.
  rewrite (kin_reap _ _ c) by done. intros q r Hq. destruct (decide (q = p)) as [->|Hne]; [rewrite list_lookup_insert_eq in Hq; [done|rewrite length_kin; by eapply lookup_lt_Some]|].
  by rewrite list_lookup_insert_ne in Hq.
Qed.
Lemma kin_terminate p s : kin (children (terminate p s)) = kin (children s).
Proof. unfold terminate. destruct (children s !! p) eqn:Ec; [|done]. simpl. by eapply kin_same. Qed.
Lemma kin_kill p s : kin (children (kill p s)) = kin (children s).
Proof. unfold kill. destruct (children s !! p) eqn:Ec; [|done]. simpl. by eapply kin_same. Qed.
Lemma fewer_signal p s : fewer (kin (children s)) (kin (children (_signal_child p s))).
Proof. unfold _signal_child. pose proof (fewer_poll p s) as H. destruct (poll p s) as [[z|] s']; simpl in H; [done|]. by rewrite kin_terminate. Qed.

Lemma await_child_some p b d i s s' : await_child p b d i s = Some s' →
  (i = Go ∧ ∃ z, s' = goto d (poll p s).2 ∧ (poll p s).1 = Some z) ∨ (i = Timeout ∧ s' = goto b (kill p s) ∧ (poll p s).1 = None).
Proof.
  unfold await_child. destruct (poll p s) as [[z|] s1] eqn:Ep; destruct i; try done; intros [= <-]; [left|right]; simpl.
  - split; [done|]. by exists z.
  - apply poll_none in Ep as ->. done.
Qed.
Lemma stop_tick_fewer k w i s s' : stop_tick k w i s = Some s' → fewer (kin (children s)) (kin (children s')).
Proof.
  intros Hs. assert (Haw : ∀ p b d, await_child p b d i s = Some s' → fewer (kin (children s)) (kin (children s'))).
  { intros p b d [(_ & z & -> & _)|(_ & -> & _)]%await_child_some; [apply (fewer_poll p s)|]. rewrite kin_goto, kin_kill. apply fewer_refl. }
  destruct (removing k) eqn:Hrm; [rewrite (proj1 (ending_children _ _ _ _ (stop_ending _ _ _ _ _ Hs Hrm))); apply fewer_refl|].
  destruct k as [|[|j l]|[|j l]|j l| |p|p| |[|f l]|]; try discriminate Hrm; destruct i; simpl in Hs; try done; try (by eapply Haw).
  all: try (destruct (slot_child j s) as [p|] eqn:Ej; try done).
  all: try (by eapply Haw).
  all: try (destruct (poll p s) as [[z|] s1] eqn:Ep; [|done]; injection Hs as <-; pose proof (fewer_poll p s) as H; rewrite Ep in H; exact H).
  all: try (destruct (cp_process s) as [p|]).
  all: injection Hs as <-; try (rewrite kin_goto); try apply fewer_signal; try apply fewer_refl. all: destruct (socket_open s); apply fewer_refl.
Qed.

Lemma elem_slot_indices i s : i ∈ slot_indices s ↔ is_Some (dp_slots s !! i) ∧ i < router_processes.
Proof. unfold slot_indices. rewrite list_elem_of_filter. rewrite elem_of_seq. split; intros [? ?]; split; try done; lia. Qed.

Lemma poll_reaped p s z q r : (poll p s).1 = Some z → kin (children (poll p s).2) !! q = Some (r, true) → q ≠ p.
Proof.
  intros Hz Hq ->. destruct (poll p s) as [o s'] eqn:Ep. simpl in Hz. subst o. destruct (poll_some _ _ _ _ Ep) as (c & Ec & _ & Hu & ->). simpl in Hq.
  rewrite (kin_reap _ _ c) in Hq by done. rewrite list_lookup_insert_eq in Hq; [done|]. rewrite length_kin. by eapply lookup_lt_Some.
Qed.
Lemma no_up_poll s j l p z : lanes_inv s → slot_child j s = Some p → no_up (kin (children s)) (j :: l) → (poll p s).1 = Some z → no_up (kin (children (poll p s).2)) l.
Proof.
  intros Hl (slot & Ej & <-)%slot_child_inv Hn Hz q i g Hq. pose proof (fewer_poll _ _ _ _ Hq) as Hq'. pose proof (poll_reaped _ _ _ _ _ Hz Hq) as Hne.
  specialize (Hn _ _ _ Hq'). apply list_elem_of_In in Hn as [->|Hin]; [|by apply list_elem_of_In]. destruct (la_child _ _ _ _ Hl _ _ _ Hq') as (s0 & Es & <-). congruence.
Qed.
Lemma await_stop s k w i s' : inv1 s → await_ok s → at_pc s = PStop k w → stop_tick k w i s = Some s' → await_ok s'.
Proof.
  intros [Hl Hc] Ha E Hs. pose proof (stop_tick_fewer _ _ _ _ _ Hs) as Hf. assert (Hmono : ∀ l, waiting (at_pc s) = Some l → no_up (kin (children s')) l) by (intros l Hw q j g Hq; eapply Ha; [done|by apply Hf]).
  rewrite E in Hmono. intros l' Hw.
  destruct (removing k) eqn:Hrm; [destruct (stop_ending _ _ _ _ _ Hs Hrm); injection Hw as <-; by apply Hmono|].
  destruct k as [|[|j l]|[|j l]|j l| |p|p| |[|f l]|]; try discriminate Hrm; simpl in Hs.
  all: try (assert (Hs' : match slot_child j s with Some p => await_child p (PStop (SKilled j l) w) (PStop (SAwait l) w) i s | None => None end = Some s') by (by destruct i); clear Hs;
    destruct (slot_child j s) as [p|] eqn:Ej; [|done]; destruct (await_child_some _ _ _ _ _ _ Hs') as [(_ & z & -> & Hz)|(_ & -> & _)]; injection Hw as <-;
    [by eapply no_up_poll; [| |apply Ha; by rewrite E|]|by apply Hmono]).
  all: try (assert (Hs' : await_child p (PStop (SCpKilled p) w) (PStop SClose w) i s = Some s') by (by destruct i); clear Hs;
    destruct (await_child_some _ _ _ _ _ _ Hs') as [(_ & z & -> & Hz)|(_ & -> & _)]; injection Hw as <-; by apply Hmono).
  all: destruct i; try done.
  - injection Hs as <-. by destruct (socket_open s).
  - injection Hs as <-. injection Hw as <-. intros q i g Hq. destruct (la_child _ _ _ _ Hl _ _ _ Hq) as (slot & Es & _). apply elem_slot_indices.
    split; [by rewrite Es|]. by destruct (la_slot _ _ _ _ Hl _ _ Es).
  - by injection Hs as <-.
  - injection Hs as <-. injection Hw as <-. by apply Hmono.
  - destruct (cp_process s); injection Hs as <-; injection Hw as <-; by apply Hmono.
  - injection Hs as <-. injection Hw as <-. by apply Hmono.
Qed.

(** Where a tick outside of the end leads. *)
Definition plain (p : pc) : bool := match p with PStop SSocket _ => true | PStop _ _ | PDone _ => false | _ => true end.
Lemma plain_waiting p : plain p = true → waiting p = None.
Proof. by destruct p as [| | | | | | | | | | |[]|]. Qed.
Lemma poll_shm p s : shm (poll p s).2 = shm s ∧ at_pc (poll p s).2 = at_pc s.
Proof. unfold poll. destruct (children s !! p) as [c|]; [|done]. by destruct (c_status c). Qed.
Lemma signal_shm p s : shm (_signal_child p s) = shm s.
Proof.
  unfold _signal_child, terminate. pose proof (poll_shm p s) as [H _]. destruct (poll p s) as [[z|] s']; simpl in *; [done|]. destruct (children s' !! p); done.
Qed.
Lemma kill_shm p s : shm (kill p s) = shm s.
Proof. unfold kill. by destruct (children s !! p). Qed.
Lemma create_length : length (create_admission_file router_processes) = admission_file_size router_processes.
Proof. apply length_replicate. Qed.

(** What a tick leaves of the admission file. *)
Lemma tick_shm i s s' : tick i s = Some s' → shm s' = shm s ∨ (shm s' = None ∧ plain (at_pc s') = false) ∨ (at_pc s = PStart MapShm ∧ shm s' = Some (create_admission_file router_processes)) ∨
  ∃ j l buf buf', at_pc s = PFold j l ∧ is_Some (dp_slots s !! j) ∧ shm s = Some buf ∧ shm s' = Some buf' ∧ _fold_and_reclaim_slot router_processes j (stamp (now s)) buf = Ok buf'.
Proof.
  unfold tick. intros Ht. destruct (at_pc s) as [k| |[|j l]|j l|j l|j l| | | | | |k w|] eqn:E.
  - destruct k, i; simpl in Ht; try done; injection Ht as <-; first [by left|by right; right; left].
  - destruct i; try done. injection Ht as <-. left. by destruct (stop_requested s).
  - destruct i; try done. injection Ht as <-. by left.
  - destruct i; try done. injection Ht as <-. left. unfold poll_slot. destruct (dp_slots s !! j) as [slot|]; [|done].
    pose proof (poll_shm (s_process slot) s) as [H _]. by destruct (poll (s_process slot) s) as [[z|] s'].
  - destruct i; try done. injection Ht as <-. unfold fold_slot. destruct (shm s) as [buf|] eqn:Eb; [|by left]. destruct (dp_slots s !! j) as [slot|] eqn:Es; [|by left].
    destruct (_fold_and_reclaim_slot _ _ _ _) as [buf'|] eqn:Ef; [|by left]. right; right; right. exists j, l, buf, buf'. by rewrite Es.
  - destruct i; try done. injection Ht as <-. left. unfold check_slot. destruct (dp_slots s !! j); [|done]. cbv zeta. by case_bool_decide.
  - destruct i; try done; injection Ht as <-; left; by try destruct (dp_slots s !! j).
  - destruct i; try done. injection Ht as <-. left. unfold poll_cp. destruct (cp_process s) as [p|]; [|done].
    pose proof (poll_shm p s) as [H _]. by destruct (poll p s) as [[z|] s'].
  - destruct i; try done. injection Ht as <-. left. unfold check_cp. cbv zeta. by case_bool_decide.
  - destruct i; try done; injection Ht as <-; left; by try destruct prefer_uds.
  - destruct i; try done; injection Ht as <-; by left.
  - destruct i; try done. injection Ht as <-. by left.
  - assert (Haw : ∀ p b d, await_child p b d i s = Some s' → shm s' = shm s).
    { intros p b d [(_ & z & -> & _)|(_ & -> & _)]%await_child_some; simpl; [apply poll_shm|apply kill_shm]. }
    destruct (removing k) eqn:Hrm; [left; by destruct (ending_children _ _ _ _ (stop_ending _ _ _ _ _ Ht Hrm)) as (_ & -> & _)|].
    destruct k as [|[|j l]|[|j l]|j l| |p|p| |[|f l]|]; try discriminate Hrm; destruct i; simpl in Ht; try done.
    all: try (destruct (slot_child j s) as [p|]; try done).
    all: try (by left; eapply Haw).
    all: try (destruct (cp_process s) as [p|]).
    all: try (injection Ht as <-; first [by left|left; simpl; apply signal_shm|left; by destruct (socket_open s)|by right; left]).
    all: destruct (poll p s) as [[z|] z'] eqn:Ep; [|done]; injection Ht as <-; left; simpl; pose proof (poll_shm p s) as [H _]; by rewrite Ep in H.
  - by destruct i.
Qed.

Lemma tick_plain i s s' : tick i s = Some s' → stopping (at_pc s) = false → plain (at_pc s') = true ∧ (shm_there (at_pc s') = true → shm_there (at_pc s) = true ∨ shm s' = Some (create_admission_file router_processes)).
Proof.
  unfold tick. intros Ht Hst. destruct (at_pc s) as [k| |[|j l]|j l|j l|j l| | | | | |k w|] eqn:E; try done.
  - destruct k, i; simpl in Ht; try done; injection Ht as <-; simpl; unfold next_dp; try case_bool_decide; (split; [done|]); intros; first [done|by left|by right].
  - destruct i; try done. injection Ht as <-. destruct (stop_requested s); (split; [done|by left]).
  - destruct i; try done. injection Ht as <-. split; [done|by left].
  - destruct i; try done. injection Ht as <-. unfold poll_slot. destruct (dp_slots s !! j) as [slot|]; [|split; [done|by left]]. destruct (poll (s_process slot) s) as [[z|] s']; (split; [done|by left]).
  - destruct i; try done. injection Ht as <-. unfold fold_slot. destruct (shm s), (dp_slots s !! j); try destruct (_fold_and_reclaim_slot _ _ _ _); (split; [done|by left]).
  - destruct i; try done. injection Ht as <-. unfold check_slot. destruct (dp_slots s !! j); cbv zeta; try case_bool_decide; (split; [done|by left]).
  - destruct i; try done; injection Ht as <-; (split; [done|by left]).
  - destruct i; try done. injection Ht as <-. unfold poll_cp. destruct (cp_process s) as [p|]; [|split; [done|by left]]. destruct (poll p s) as [[z|] s']; (split; [done|by left]).
  - destruct i; try done. injection Ht as <-. unfold check_cp. cbv zeta. case_bool_decide; (split; [done|by left]).
  - destruct i; try done; injection Ht as <-; (split; [done|by left]).
  - destruct i; try done; injection Ht as <-; (split; [done|by left]).
  - destruct i; try done. injection Ht as <-. split; [done|by left].
Qed.
Lemma stop_tick_stopping k w i s s' : stop_tick k w i s = Some s' → stopping (at_pc s') = true.
Proof.
  intros Ht. assert (Haw : ∀ p b d, stopping b = true → stopping d = true → await_child p b d i s = Some s' → stopping (at_pc s') = true).
  { intros p b d Hb Hd [(_ & z & -> & _)|(_ & -> & _)]%await_child_some; done. }
  destruct (removing k) eqn:Hrm; [by destruct (ending_pc _ _ _ _ (stop_ending _ _ _ _ _ Ht Hrm)) as [(? & _ & ->)| ->]|].
  destruct k as [|[|j l]|[|j l]|j l| |p|p| |[|f l]|]; try discriminate Hrm; destruct i; simpl in Ht; try done.
  all: try (destruct (slot_child j s) as [p|]; try done).
  all: try (by eapply Haw; [..|exact Ht]).
  all: try (destruct (cp_process s) as [p|]).
  all: try (by injection Ht as <-).
  all: destruct (poll p s) as [[z|] z'] eqn:Ep; [|done]; by injection Ht as <-.
Qed.
Lemma tick_stop i s s' : tick i s = Some s' → stopping (at_pc s) = true → ∃ k w, at_pc s = PStop k w ∧ stop_tick k w i s = Some s'.
Proof. unfold tick. intros Ht Hst. destruct (at_pc s); try done. by eexists _, _. Qed.

Lemma fold_length i buf buf' t : i < router_processes → length buf = admission_file_size router_processes → _fold_and_reclaim_slot router_processes i t buf = Ok buf' →
  length buf' = length buf ∧ ∀ j k, j ≠ i → j ≠ router_processes → k < 8 → get_word buf' (word_off j k) = get_word buf (word_off j k).
Proof. intros Hi Hb. apply fold_spares; [lia|..]; unfold slot_in, admission_file_size, SLOT_SIZE in *; lia. Qed.

Lemma inv_tick i s s' : inv s → tick i s = Some s' → inv s'.
Proof.
  intros (H1 & H2 & H3) Ht. assert (Hstop : stopping (at_pc s) = true → inv1 s' ∧ await_ok s').
  { intros Hst. destruct (tick_stop _ _ _ Ht Hst) as (k & w & E & Hs). split; [by eapply inv1_stop_tick|by eapply await_stop]. }
  assert (Hgo : stopping (at_pc s) = false → inv1 s' ∧ await_ok s').
  { intros Hst. split; [|intros l Hw; destruct (tick_plain _ _ _ Ht Hst) as [Hp _]; by rewrite (plain_waiting _ Hp) in Hw].
    unfold tick in Ht. destruct (at_pc s) as [k| |[|j l]|j l|j l|j l| | | | | |k w|] eqn:E; try done; destruct i; try done; try (by eapply inv1_start); injection Ht as <-.
    - destruct (stop_requested s); [apply inv1_stop|apply inv1_goto]; by rewrite ?E.
    - apply inv1_goto; by rewrite ?E.
    - by apply inv1_poll_slot.
    - apply inv1_fold; [done|done|]. apply H3. by rewrite E.
    - by apply inv1_check.
    - by apply inv1_respawn.
    - apply inv1_stop; by rewrite ?E.
    - by apply inv1_poll_cp.
    - by apply inv1_check_cp.
    - pose proof (stage_at _ _ H1 E) as Hs. apply (inv1_move s); simpl; rewrite ?E; try done; destruct prefer_uds; simpl; try done; exists []; by rewrite app_nil_r.
    - pose proof (stage_at _ _ H1 E) as Hs. apply (inv1_move s); simpl; rewrite ?E; try done; quiet.
    - by apply inv1_respawn_cp.
    - apply inv1_stop; by rewrite ?E.
    - apply inv1_goto; by rewrite ?E. }
  split; [destruct (stopping (at_pc s)); [by destruct Hstop|by destruct Hgo]|]. split; [destruct (stopping (at_pc s)); [by destruct Hstop|by destruct Hgo]|].
  destruct H3 as [H3 H4]. split.
  - intros Hth. destruct (stopping (at_pc s)) eqn:Hst.
    { destruct (tick_stop _ _ _ Ht Hst) as (k & w & _ & Hs). apply stop_tick_stopping in Hs. by destruct (at_pc s'). }
    destruct (tick_plain _ _ _ Ht Hst) as [Hp Hs]. destruct (tick_shm _ _ _ Ht) as [E|[(_ & E)|[(_ & ->)|(j & l & buf & buf' & _ & _ & _ & -> & _)]]]; [|congruence|done|done].
    rewrite E. destruct (Hs Hth) as [Hth'|E']; [auto|]. by rewrite <- E, E'.
  - intros b Hb. destruct (tick_shm _ _ _ Ht) as [E|[(E & _)|[(_ & E)|(j & l & buf & buf' & _ & [slot Es] & Eb & E & Hf)]]]; rewrite E in Hb; [auto|done|..]; injection Hb as <-.
    + apply create_length.
    + destruct H1 as [Hl _]. destruct (la_slot _ _ _ _ Hl _ _ Es) as [Hj _]. destruct (fold_length _ _ _ _ Hj (H4 _ Eb) Hf) as [-> _]. auto.
Qed.
Lemma other_core s s' : other s s' → same_core s s'.
Proof.
  intros [p c z Hp Hc|i|t Ht|p c i g buf buf' Hp Hc Hr Hb Ho|p c e Hp Hc Hr Hu|p c e Hp Hc Hr|p c e Hp Hc Hr Hf|p c e f Hp Hc Hr Hf]; try (by apply core_refl).
  - apply (core_log _ _ []); try done. simpl. eapply kin_same; [done|done|]. by rewrite (unreaped_alive c).
  - by apply (core_log _ _ []).
Qed.
Lemma inv_other s s' : inv s → other s s' → inv s'.
Proof.
  intros (H1 & H2 & H3) Ho. pose proof (other_core _ _ Ho) as Hc. split; [by eapply inv1_core|]. destruct Hc as (E1 & _ & _ & E4 & _). split.
  - intros l. rewrite E1, E4. apply H2.
  - destruct H3 as [H3 H4]. split; rewrite ?E1.
    + intros Hth. specialize (H3 Hth). destruct Ho; done.
    + destruct Ho as [| | |p c i g buf buf' Hp Hc Hr Hb [Hl _]| | | |]; try done. intros b [= <-]. rewrite Hl. auto.
Qed.
Lemma supervisor_init : inv world_init.
Proof.
  split; [split|split].
  - split; simpl; try done; intros i; by eexists.
  - split; done.
  - done.
  - split; done.
Qed.
Lemma reachable_supervisor s : reachable s → inv s.
Proof.
  intros H. unfold reachable in H. apply rtc_ind_r with (P := inv) in H; [done|apply supervisor_init|].
  intros x y _ Hs Hx. destruct Hs; [by eapply inv_tick|by eapply inv_other].
Qed.

(** ** One process per slot *)

(** A slot's words are read and written by its own live data plane, and by nobody else. *)
Lemma tick_spares i s s' p c j g buf buf' : inv s → tick i s = Some s' → children s !! p = Some c → c_status c = Alive → c_role c = DataPlane j g → shm s = Some buf → shm s' = Some buf' →
  ∀ k, k < 8 → get_word buf' (word_off j k) = get_word buf (word_off j k).
Proof.
  intros (H1 & _ & _ & H4) Ht Hp Hc Hr Hb Hb' k Hk. pose proof H1 as [Hl _].
  assert (Hup : kin (children s) !! p = Some (DataPlane j g, true)) by (by rewrite (kin_child _ _ _ Hp), Hr, (unreaped_alive c)).
  destruct (lanes_slot_of _ _ _ _ _ _ _ Hl Hup) as (slot & Es & Ep & Eg & _ & Hj).
  destruct (tick_shm _ _ _ Ht) as [E|[(E & _)|[(E & E')|(j' & l & b & b' & E & [slot' Es'] & Eb & E' & Hf)]]].
  - congruence.
  - congruence.
  - pose proof (current_at _ _ H1 E) as Hm. simpl in Hm. rewrite Hm in Es. by rewrite lookup_empty in Es.
  - rewrite Hb in Eb. rewrite Hb' in E'. simplify_eq. destruct (la_slot _ _ _ _ Hl _ _ Es') as [Hj' _].
    destruct (fold_length _ _ _ _ Hj' (H4 _ Hb) Hf) as [_ Hw]. apply Hw; [|lia|done]. intros ->.
    destruct (current_at _ _ H1 E) as (s0 & Es0 & Hk0 & _). rewrite Es in Es0. injection Es0 as <-. congruence.
Qed.

(** C5. A slot of the admission file has one owner at a time: in every history the data planes of an
    index are started, reaped, have their slot reclaimed and are succeeded by the next
    generation, in that order and with no step skipped or repeated; at any moment at most one
    process of an index, and at most one control plane, is yet to be reaped; and no step of the
    supervisor changes a word of the slot of a data plane that is still running. *)
Theorem slots_reclaimed_in_order s : reachable s →
  (∀ i, is_Some (lane i (log s))) ∧
  (∀ p q c d i g h, children s !! p = Some c → children s !! q = Some d → unreaped c = true → unreaped d = true → c_role c = DataPlane i g → c_role d = DataPlane i h → p = q) ∧
  (∀ p q c d e f, children s !! p = Some c → children s !! q = Some d → unreaped c = true → unreaped d = true → c_role c = ControlPlane e → c_role d = ControlPlane f → p = q) ∧
  (∀ i s' p c j g buf buf', tick i s = Some s' → children s !! p = Some c → c_status c = Alive → c_role c = DataPlane j g → shm s = Some buf → shm s' = Some buf' →
    ∀ k, k < 8 → get_word buf' (word_off j k) = get_word buf (word_off j k)).
Proof.
  intros Hr. pose proof (reachable_supervisor _ Hr) as H. pose proof H as ([Hl Hc] & _). split_and!.
  - apply (la_lane _ _ _ _ Hl).
  - intros p q c d i g h Hp Hq Uc Ud Rc Rd. apply kin_child in Hp, Hq. rewrite Uc, Rc in Hp. rewrite Ud, Rd in Hq.
    destruct (la_child _ _ _ _ Hl _ _ _ Hp) as (? & ? & <-), (la_child _ _ _ _ Hl _ _ _ Hq) as (? & ? & <-). congruence.
  - intros p q c d e f Hp Hq Uc Ud Rc Rd. apply kin_child in Hp, Hq. rewrite Uc, Rc in Hp. rewrite Ud, Rd in Hq.
    pose proof (cp_child _ _ _ Hc _ _ Hp). pose proof (cp_child _ _ _ Hc _ _ Hq). congruence.
  - intros. by eapply tick_spares.
Qed.

(** ** The end is reached *)
Definition rank (p : pc) : nat :=
  match p with
  | PStop SSocket _ => 15 + 3 * router_processes
  | PStop (SSignal l) _ => 13 + 2 * router_processes + length l
  | PStop (SAwait l) _ => 11 + 2 * length l
  | PStop (SKilled _ l) _ => 12 + 2 * length l
  | PStop SCp _ => 10
  | PStop (SCpAwait _) _ => 9
  | PStop (SCpKilled _) _ => 8
  | PStop SClose _ => 7
  | PStop (SUnlink l) _ => 2 + length l
  | PStop SRmdir _ => 1
  | _ => 0
  end.
Lemma slot_indices_length s : length (slot_indices s) ≤ router_processes.
Proof. unfold slot_indices. etrans; [apply length_filter|]. by rewrite length_seq. Qed.
Lemma artifacts_length w : length (unlink_artifacts w) ≤ 4.
Proof. destruct w; first [done|apply (length_filter _ config_files)]. Qed.
Lemma stop_tick_rank k w i s s' : at_pc s = PStop k w → stop_tick k w i s = Some s' → rank (at_pc s') < rank (at_pc s).
Proof.
  intros E Ht. rewrite E. pose proof (artifacts_length w) as Hu. pose proof (slot_indices_length s) as Hn. assert (Haw : ∀ p b d n, rank b < n → rank d < n → await_child p b d i s = Some s' → rank (at_pc s') < n).
  { intros p b d n Hb Hd [(_ & z & -> & _)|(_ & -> & _)]%await_child_some; done. }
  destruct (removing k) eqn:Hrm; [destruct (stop_ending _ _ _ _ _ Ht Hrm); simpl; lia|].
  destruct k as [|[|j l]|[|j l]|j l| |p|p| |[|f l]|]; try discriminate Hrm; destruct i; simpl in Ht; try done.
  all: try (destruct (slot_child j s) as [p|]; try done).
  all: try (by eapply Haw; [..|exact Ht]; simpl; lia).
  all: try (destruct (cp_process s) as [p|]).
  all: try (injection Ht as <-; simpl; lia).
  all: destruct (poll p s) as [[z|] z'] eqn:Ep; [|done]; injection Ht as <-; simpl; lia.
Qed.

(** ** Draining *)

(** What one step does to the list of children: signals come only while stopping, spawns only before. *)
Inductive child_step : bool → list child → list child → Prop :=
| cs_same b l : child_step b l l
| cs_reap b l p c : l !! p = Some c → child_step b l (<[p := reap c]> l)
| cs_spawn l r : child_step false l (l ++ [mkChild r Alive false false])
| cs_signal l p c : l !! p = Some c → child_step true l (<[p := mkChild (c_role c) (c_status c) true (c_killed c)]> l)
| cs_kill l p c : l !! p = Some c → child_step true l (<[p := mkChild (c_role c) (c_status c) (c_signalled c) true]> l).

Lemma poll_children b p s : child_step b (children s) (children (poll p s).2).
Proof. unfold poll. destruct (children s !! p) as [c|] eqn:Ec; [|constructor]. destruct (c_status c); simpl; by constructor. Qed.
Lemma poll_children' b p s o s' : poll p s = (o, s') → child_step b (children s) (children s').
Proof. intros E. pose proof (poll_children b p s) as H. by rewrite E in H. Qed.
Lemma terminate_children p s : child_step true (children s) (children (terminate p s)).
Proof. unfold terminate. destruct (children s !! p) eqn:Ec; by constructor. Qed.
Lemma signal_children p s : child_step true (children s) (children (_signal_child p s)).
Proof.
  unfold _signal_child. destruct (poll p s) as [[z|] s'] eqn:Ep; [by eapply poll_children'|]. apply poll_none in Ep as ->. apply terminate_children.
Qed.
Lemma kill_children p s : child_step true (children s) (children (kill p s)).
Proof. unfold kill. destruct (children s !! p) eqn:Ec; by constructor. Qed.

Lemma stop_tick_children k w i s s' : stop_tick k w i s = Some s' → child_step true (children s) (children s').
Proof.
  intros Ht. assert (Haw : ∀ p b d, await_child p b d i s = Some s' → child_step true (children s) (children s')).
  { intros p b d [(_ & z & -> & _)|(_ & -> & _)]%await_child_some; [apply (poll_children true p s)|apply (kill_children p s)]. }
  destruct (removing k) eqn:Hrm; [rewrite (proj1 (ending_children _ _ _ _ (stop_ending _ _ _ _ _ Ht Hrm))); apply cs_same|].
  destruct k as [|[|j l]|[|j l]|j l| |p|p| |[|f l]|]; try discriminate Hrm; destruct i; simpl in Ht; try done.
  all: try (destruct (slot_child j s) as [p|]; try done).
  all: try (by eapply Haw).
  all: try (destruct (cp_process s) as [p|]).
  all: try (injection Ht as <-; first [apply signal_children|apply cs_same|destruct (socket_open s); apply cs_same]).
  all: destruct (poll p s) as [[z|] z'] eqn:Ep; [|done]; injection Ht as <-; exact (poll_children' _ _ _ _ _ Ep).
Qed.
Lemma tick_children i s s' : tick i s = Some s' → child_step (stopping (at_pc s)) (children s) (children s').
Proof.
  unfold tick. intros Ht. destruct (at_pc s) as [k| |[|j l]|j l|j l|j l| | | | | |k w|] eqn:E; cbn [stopping]; [|..|by eapply stop_tick_children|by destruct i].
  all: try (destruct i; try done; injection Ht as <-; apply cs_same).
  all: try (destruct i; try done; injection Ht as <-).
  - destruct k, i; simpl in Ht; try done; injection Ht as <-; try apply cs_same; [apply cs_spawn|]. apply (cs_spawn _ (DataPlane i0 1)).
  - destruct (stop_requested s); apply cs_same.
  - unfold poll_slot. destruct (dp_slots s !! j) as [slot|]; [|apply cs_same]. destruct (poll (s_process slot) s) as [[z|] z'] eqn:Ep; exact (poll_children' _ _ _ _ _ Ep).
  - unfold fold_slot. destruct (shm s), (dp_slots s !! j); try destruct (_fold_and_reclaim_slot _ _ _ _); apply cs_same.
  - unfold check_slot. destruct (dp_slots s !! j); cbv zeta; try case_bool_decide; apply cs_same.
  - destruct (dp_slots s !! j) as [slot|]; [apply (cs_spawn _ (DataPlane j (S (s_generation slot))))|apply cs_same].
  - apply cs_same.
  - unfold poll_cp. destruct (cp_process s) as [p|]; [|apply cs_same]. destruct (poll p s) as [[z|] z'] eqn:Ep; exact (poll_children' _ _ _ _ _ Ep).
  - unfold check_cp. cbv zeta. case_bool_decide; apply cs_same.
  - destruct prefer_uds; apply cs_same.
  - apply cs_same.
  - apply (cs_spawn _ (ControlPlane (cp_epoch s))).
  - apply cs_same.
Qed.

Definition past_socket (p : pc) : bool := match p with PStop SSocket _ => false | PStop _ _ | PDone _ => true | _ => false end.
Definition may_signal (p : pc) (r : role) : bool := match r with DataPlane _ _ => past_socket p | ControlPlane _ => cleared p end.
(** Every data plane still up whose index is not in [l] has been signalled. *)
Definition all_signalled (l : list nat) (s : world) : Prop := ∀ p c i g, children s !! p = Some c → unreaped c = true → c_role c = DataPlane i g → i ∉ l → c_signalled c = true.
Definition have_slots (l : list nat) (s : world) : Prop := ∀ j, j ∈ l → is_Some (dp_slots s !! j).
Definition stage_ok (s : world) : Prop :=
  match at_pc s with
  | PStop (SSignal l) _ => have_slots l s ∧ all_signalled l s
  | PStop (SAwait l) _ => have_slots l s ∧ all_signalled [] s
  | PStop (SKilled j l) _ => have_slots (j :: l) s ∧ all_signalled [] s ∧ ∃ p c, slot_child j s = Some p ∧ children s !! p = Some c ∧ c_killed c = true
  | PStop (SCpAwait p) _ => ∃ c, children s !! p = Some c ∧ (unreaped c = true → c_signalled c = true)
  | PStop (SCpKilled p) _ => ∃ c, children s !! p = Some c ∧ c_killed c = true
  | PStop (SUnlink _ | SRmdir) _ | PDone _ => pipe_open s = false ∧ shm s = None ∧ context s = false
  | _ => True
  end.
Record drain_ok (s : world) : Prop := {
  dr_signalled : ∀ p c, children s !! p = Some c → c_signalled c = true → may_signal (at_pc s) (c_role c) = true;
  dr_killed : ∀ p c, children s !! p = Some c → c_killed c = true → c_signalled c = true;
  dr_socket : past_socket (at_pc s) = true → socket_open s = false;
  dr_stage : stage_ok s;
}.

(** Children that are as they were, or reaped. *)
Definition tamer (l l' : list child) : Prop := ∀ q d, l' !! q = Some d → ∃ d0, l !! q = Some d0 ∧ c_role d = c_role d0 ∧ c_signalled d = c_signalled d0 ∧ c_killed d = c_killed d0 ∧ (unreaped d = true → unreaped d0 = true).
Lemma tamer_refl l : tamer l l.
Proof. intros q d Hq. by exists d. Qed.
Lemma tamer_reap l p c : l !! p = Some c → tamer l (<[p := reap c]> l).
Proof.
  intros Hp q d Hq. destruct (decide (q = p)) as [->|Hne]; [|exists d; by rewrite list_lookup_insert_ne in Hq].
  rewrite list_lookup_insert_eq in Hq by (by eapply lookup_lt_Some). injection Hq as <-. exists c. split_and!; try done. unfold unreaped. simpl. by destruct (c_status c).
Qed.
Lemma tamer_exit l p c z : l !! p = Some c → c_status c = Alive → tamer l (<[p := mkChild (c_role c) (Exited z) (c_signalled c) (c_killed c)]> l).
Proof.
  intros Hp Ha q d Hq. destruct (decide (q = p)) as [->|Hne]; [|exists d; by rewrite list_lookup_insert_ne in Hq].
  rewrite list_lookup_insert_eq in Hq by (by eapply lookup_lt_Some). injection Hq as <-. exists c. split_and!; try done. intros _. by apply unreaped_alive.
Qed.
Lemma tamer_poll p s : tamer (children s) (children (poll p s).2).
Proof. unfold poll. destruct (children s !! p) as [c|] eqn:Ec; [|apply tamer_refl]. destruct (c_status c); simpl; first [apply tamer_refl|by apply tamer_reap]. Qed.
Lemma signalled_tamer l l' s s' : tamer (children s) (children s') → l ⊆ l' → all_signalled l s → all_signalled l' s'.
Proof. intros Ht Hl Ha p c i g Hp Hu Hr Hi. destruct (Ht _ _ Hp) as (d & Hd & E1 & -> & _ & Hu'). apply (Ha p d i g); [done|auto|congruence|]. intros Hx. by apply Hi, Hl. Qed.

Definition onwards (p p' : pc) : Prop := (past_socket p = true → past_socket p' = true) ∧ (cleared p = true → cleared p' = true).
Lemma may_onwards p p' r : onwards p p' → may_signal p r = true → may_signal p' r = true.
Proof. intros [H1 H2]. by destruct r; simpl. Qed.

Lemma drain_tamer s s' : drain_ok s → tamer (children s) (children s') → onwards (at_pc s) (at_pc s') → (past_socket (at_pc s') = true → socket_open s' = false) → stage_ok s' → drain_ok s'.
Proof.
  intros [H1 H2 _ _] Ht Ho Hs Hst. split; [..|done|done].
  - intros p c Hp Hc. destruct (Ht _ _ Hp) as (d & Hd & -> & E & _). rewrite E in Hc. eapply may_onwards; eauto.
  - intros p c Hp Hc. destruct (Ht _ _ Hp) as (d & Hd & _ & E & E' & _). rewrite E' in Hc. rewrite E. eauto.
Qed.
Lemma drain_change s s' p c x y : drain_ok s → children s !! p = Some c → children s' = <[p := mkChild (c_role c) (c_status c) x y]> (children s) → onwards (at_pc s) (at_pc s') →
  (x = true → c_signalled c = true ∨ may_signal (at_pc s') (c_role c) = true) → (y = true → x = true) → (past_socket (at_pc s') = true → socket_open s' = false) → stage_ok s' → drain_ok s'.
Proof.
  intros [H1 H2 _ _] Hp E Ho Hx Hy Hs Hst. split; [..|done|done]; rewrite E; intros q d Hq; (destruct (decide (q = p)) as [->|Hne]; [rewrite list_lookup_insert_eq in Hq by (by eapply lookup_lt_Some); injection Hq as <-; simpl|rewrite list_lookup_insert_ne in Hq by done]).
  - intros Hc. destruct (Hx Hc); [|done]. eapply may_onwards; eauto.
  - intros Hc. eapply may_onwards; eauto.
  - auto.
  - eauto.
Qed.
Lemma child_at_change (l : list child) p c d : l !! p = Some c → <[p := d]> l !! p = Some d.
Proof. intros. apply list_lookup_insert_eq. by eapply lookup_lt_Some. Qed.

(** *** The supervisor's steps *)
Lemma drain_signal s j l w p : inv s → drain_ok s → at_pc s = PStop (SSignal (j :: l)) w → slot_child j s = Some p → drain_ok (goto (PStop (SSignal l) w) (_signal_child p s)).
Proof.
  intros ((Hl & Hc) & _) Hd E (slot & Es & <-)%slot_child_inv. pose proof (dr_stage _ Hd) as Hst. unfold stage_ok in Hst. rewrite E in Hst. destruct Hst as [Hsl Hall].
  destruct (slot_child_ok _ _ _ Hl Es) as (c & Ec & Er & _). set (p := s_process slot) in *.
  assert (Hsl' : have_slots l s) by (intros x Hx; apply Hsl; by right).
  assert (Hown : ∀ q d g, children s !! q = Some d → unreaped d = true → c_role d = DataPlane j g → q = p).
  { intros q d g Hq Hu Hr. assert (Hk : kin (children s) !! q = Some (DataPlane j g, true)) by (by rewrite (kin_child _ _ _ Hq), Hu, Hr).
    destruct (la_child _ _ _ _ Hl _ _ _ Hk) as (s0 & Es0 & <-). unfold p. congruence. }
  pose proof (dr_socket _ Hd) as Hso. rewrite E in Hso. specialize (Hso eq_refl).
  unfold _signal_child. destruct (poll p s) as [[z|] s'] eqn:Ep.
  - destruct (poll_some _ _ _ _ Ep) as (c' & Ec' & _ & Hu & ->). rewrite Ec in Ec'. injection Ec' as <-.
    apply (drain_tamer s); simpl; rewrite ?E; try done; [by apply tamer_reap|]. split; [done|]. intros q d i g Hq Hud Hr Hi. simpl in Hq.
    destruct (decide (q = p)) as [->|Hne]; [rewrite (child_at_change _ _ c) in Hq by done; congruence|]. rewrite list_lookup_insert_ne in Hq by done.
    apply (Hall q d i g); try done. intros [->|]%elem_of_cons; [|done]. by apply Hne, (Hown _ d g).
  - apply poll_none in Ep as ->. unfold terminate. rewrite Ec. eapply (drain_change s _ p c); simpl; rewrite ?E; try done; [intros _; right; by rewrite Er|]. split; [done|]. intros q d i g Hq Hud Hr Hi. simpl in Hq.
    destruct (decide (q = p)) as [->|Hne]; [rewrite (child_at_change _ _ c) in Hq by done; by injection Hq as <-|]. rewrite list_lookup_insert_ne in Hq by done.
    apply (Hall q d i g); try done. intros [->|]%elem_of_cons; [|done]. by apply Hne, (Hown _ d g).
Qed.
Lemma poll_alive p s s' c : poll p s = (None, s') → children s !! p = Some c → c_status c = Alive.
Proof. unfold poll. intros H Hc. rewrite Hc in H. by destruct (c_status c). Qed.
Lemma stage_at_pc s p : drain_ok s → at_pc s = p → stage_ok (goto p s).
Proof. intros H <-. rewrite world_eta. apply (dr_stage _ H). Qed.
Lemma drain_polled s p z s' p' : drain_ok s → poll p s = (Some z, s') → onwards (at_pc s) p' → (past_socket p' = true → socket_open s = false) →
  (∀ l, tamer (children s) l → stage_ok (goto p' (set_children l [] s))) → drain_ok (goto p' s').
Proof.
  intros Hd Hp Ho Hs Hst. pose proof (tamer_poll p s) as Ht. rewrite Hp in Ht. destruct (poll_some _ _ _ _ Hp) as (c & _ & _ & _ & ->).
  apply (drain_tamer s); simpl; try done. apply (Hst (<[p:=reap c]> (children s))) in Ht. by destruct p' as [| | | | | | | | | | |[]|].
Qed.
Lemma drain_killed s p c s' p' : drain_ok s → poll p s = (None, s') → children s !! p = Some c → c_signalled c = true → onwards (at_pc s) p' → (past_socket p' = true → socket_open s = false) →
  (∀ d, c_role d = c_role c → unreaped d = unreaped c → c_signalled d = true → c_killed d = true → stage_ok (goto p' (set_children (<[p := d]> (children s)) [] s))) → drain_ok (goto p' (kill p s')).
Proof.
  intros Hd Hp Hc Hsg Ho Hs Hst. apply poll_none in Hp as ->. unfold kill. rewrite Hc. apply (drain_change s _ p c (c_signalled c) true); simpl; try done; [by left|].
  exact (Hst (mkChild (c_role c) (c_status c) (c_signalled c) true) eq_refl eq_refl Hsg eq_refl).
Qed.
Lemma all_signalled_change s p c d l h : all_signalled l s → children s !! p = Some c → c_role d = c_role c → unreaped d = unreaped c → c_signalled d = true → all_signalled l (set_children (<[p := d]> (children s)) h s).
Proof.
  intros Ha Hp Hr Hu Hs q x i g Hq Hx Hi Hn. simpl in Hq. destruct (decide (q = p)) as [->|Hne]; [rewrite (child_at_change _ _ c) in Hq by done; by injection Hq as <-|].
  rewrite list_lookup_insert_ne in Hq by done. eauto.
Qed.

Lemma drain_stop_tick s k w i s' : inv s → drain_ok s → at_pc s = PStop k w → stop_tick k w i s = Some s' → drain_ok s'.
Proof.
  intros Hi Hd E Ht. pose proof Hi as ((Hl & Hc) & _). pose proof (dr_stage _ Hd) as Hst. unfold stage_ok in Hst. rewrite E in Hst. pose proof (dr_socket _ Hd) as Hso. rewrite E in Hso.
  assert (Haw : ∀ j l p, have_slots (j :: l) s → all_signalled [] s → slot_child j s = Some p → past_socket (at_pc s) = true → cleared (at_pc s) = false →
    await_child p (PStop (SKilled j l) w) (PStop (SAwait l) w) i s = Some s' → drain_ok s').
  { intros j l p Hsl Ha Hj Hps Hcl Haw. assert (Hsl' : have_slots l s) by (intros x Hx; apply Hsl; by right). assert (Hso' : socket_open s = false) by (apply (dr_socket _ Hd); done).
    unfold await_child in Haw. destruct (poll p s) as [[z|] s1] eqn:Ep; destruct i; try done; injection Haw as <-.
    - eapply drain_polled; try done; [split; [done|by rewrite Hcl]|]. intros kk Hkk. split; [done|]. by eapply signalled_tamer; [exact Hkk|done|].
    - destruct (slot_child_inv _ _ _ Hj) as (slot & Es & <-). destruct (slot_child_ok _ _ _ Hl Es) as (c & Ec & Er & _). pose proof (poll_alive _ _ _ _ Ep Ec) as Hal.
      eapply drain_killed; try done; [by eapply Ha; [done|by apply unreaped_alive|done|apply not_elem_of_nil]|split; [done|by rewrite Hcl]|].
      intros d Hr Hu Hsg Hk. split; [done|]. split; [by eapply all_signalled_change|]. exists (s_process slot), d. split_and!; [done| |done]. simpl. by eapply child_at_change. }
  destruct (removing k) eqn:Hrm; [destruct (stop_ending _ _ _ _ _ Ht Hrm); apply (drain_tamer s); simpl; rewrite ?E; try done; apply tamer_refl|].
  destruct k as [|[|j l]|[|j l]|j l| |p|p| |[|f l]|]; try discriminate Hrm; simpl in Ht.
  - destruct i; try done. injection Ht as <-. assert (Hs : stage_ok (goto (PStop (SSignal (slot_indices s)) w) s)).
    { split; [intros j Hj; by apply elem_slot_indices in Hj as [? _]|]. intros p c j g Hp Hu Hr Hn. exfalso. apply Hn, elem_slot_indices.
      assert (Hk : kin (children s) !! p = Some (DataPlane j g, true)) by (rewrite (kin_child (children s) p c Hp), Hu, Hr; done). destruct (lanes_slot_of _ _ _ _ _ _ _ Hl Hk) as (slot & -> & _ & _ & _ & Hj). split; [by eexists|done]. }
    apply (drain_tamer s); simpl; rewrite ?E; try done; destruct (socket_open s) eqn:Eo; try done; by apply tamer_refl.
  - destruct i; try done. injection Ht as <-. destruct Hst as [_ Ha]. apply (drain_tamer s); simpl; rewrite ?E; try done; [by apply tamer_refl|]. split; [|exact Ha]. intros j Hj. by apply elem_slot_indices in Hj as [? _].
  - destruct i; try done. injection Ht as <-. destruct Hst as [Hsl Ha]. destruct (slot_child j s) as [p|] eqn:Ej; [by eapply drain_signal|].
    destruct (Hsl j) as [slot Es]; [by left|]. unfold slot_child in Ej. by rewrite Es in Ej.
  - destruct i; try done. injection Ht as <-. apply (drain_tamer s); simpl; rewrite ?E; try done; apply tamer_refl.
  - destruct Hst as [Hsl Ha]. assert (Ht' : match slot_child j s with Some p => await_child p (PStop (SKilled j l) w) (PStop (SAwait l) w) i s | None => None end = Some s') by (by destruct i).
    destruct (slot_child j s) as [p|] eqn:Ej; [|done]. eapply Haw; rewrite ?E; done.
  - destruct Hst as (Hsl & Ha & _). assert (Ht' : i = Go ∧ match slot_child j s with Some p => await_child p (PStop (SKilled j l) w) (PStop (SAwait l) w) i s | None => None end = Some s') by (by destruct i).
    destruct Ht' as [_ Ht']. destruct (slot_child j s) as [p|] eqn:Ej; [|done]. eapply Haw; rewrite ?E; done.
  - destruct i; try done. specialize (Hso eq_refl). destruct (cp_process s) as [p|] eqn:Ecp.
    + injection Ht as <-. destruct (cp_role _ _ _ Hc _ Ecp) as (e & u & Hk). apply kin_child_inv in Hk as (c & Ec & Er & Eu). unfold _signal_child. destruct (poll p s) as [[z|] s1] eqn:Ep.
      * destruct (poll_some _ _ _ _ Ep) as (c' & Ec' & _ & Hu & ->). rewrite Ec in Ec'. injection Ec' as <-.
        apply (drain_tamer s); simpl; rewrite ?E; try done; [by apply tamer_reap|]. exists (reap c). split; [by eapply child_at_change|]. congruence.
      * apply poll_none in Ep as ->. unfold terminate. rewrite Ec. eapply (drain_change s _ p c); simpl; rewrite ?E; try done; [by rewrite Er; right|].
        eexists. split; [by eapply child_at_change|done].
    + injection Ht as <-. apply (drain_tamer s); simpl; rewrite ?E; try done. by apply tamer_refl.
  - assert (Ht' : await_child p (PStop (SCpKilled p) w) (PStop SClose w) i s = Some s') by (by destruct i). clear Ht. unfold await_child in Ht'.
    destruct Hst as (c & Ec & Hsg). destruct (poll p s) as [[z|] s1] eqn:Ep; destruct i; try done; injection Ht' as <-.
    + eapply drain_polled; by rewrite ?E.
    + pose proof (poll_alive _ _ _ _ Ep Ec) as Hal. eapply drain_killed; rewrite ?E; try done; [by apply Hsg, unreaped_alive|].
      intros d _ _ _ Hk. exists d. split; [by eapply child_at_change|done].
  - destruct i; try done. destruct (poll p s) as [[z|] z'] eqn:Ep; [|done]. injection Ht as <-. eapply drain_polled; by rewrite ?E.
  - destruct i; try done. injection Ht as <-. apply (drain_tamer s); simpl; rewrite ?E; try done; apply tamer_refl.
Qed.
Lemma quiet_children s : drain_ok s → stopping (at_pc s) = false → ∀ p c, children s !! p = Some c → c_signalled c = false ∧ c_killed c = false.
Proof.
  intros [H1 H2 _ _] Hst p c Hp. assert (Hs : c_signalled c = false).
  { destruct (c_signalled c) eqn:Es; [|done]. specialize (H1 _ _ Hp Es). destruct (c_role c), (at_pc s); done. }
  split; [done|]. destruct (c_killed c) eqn:Ek; [|done]. specialize (H2 _ _ Hp Ek). congruence.
Qed.
Lemma drain_go_tick i s s' : drain_ok s → stopping (at_pc s) = false → tick i s = Some s' → drain_ok s'.
Proof.
  intros Hd Hst Ht. pose proof (quiet_children _ Hd Hst) as Hq. destruct (tick_plain _ _ _ Ht Hst) as [Hp _]. pose proof (tick_children _ _ _ Ht) as Hc. rewrite Hst in Hc.
  assert (Hq' : ∀ p c, children s' !! p = Some c → c_signalled c = false ∧ c_killed c = false).
  { intros p c Hx. remember (children s) as l eqn:El. remember (children s') as l' eqn:El'. remember false as b eqn:Eb. destruct Hc as [b l|b l q d Hd'|l r|l q d|l q d]; try done.
    - eauto.
    - destruct (tamer_reap _ _ _ Hd' _ _ Hx) as (d0 & Hd0 & _ & -> & -> & _). eauto.
    - apply lookup_app_Some in Hx as [Hx|[_ Hx]]; [eauto|]. by apply list_lookup_singleton_Some in Hx as [_ <-]. }
  split.
  - intros p c Hx Hs. destruct (Hq' _ _ Hx). congruence.
  - intros p c Hx Hs. destruct (Hq' _ _ Hx). congruence.
  - by destruct (at_pc s') as [| | | | | | | | | | |[]|].
  - unfold stage_ok. by destruct (at_pc s') as [| | | | | | | | | | |[]|].
Qed.
Lemma stage_exit s p c z : stage_ok s → children s !! p = Some c → c_status c = Alive → stage_ok (set_children (<[p := mkChild (c_role c) (Exited z) (c_signalled c) (c_killed c)]> (children s)) [] s).
Proof.
  intros Hst Hp Ha. pose proof (tamer_exit _ _ _ z Hp Ha) as Ht. set (c' := mkChild _ _ _ _) in *. set (s' := set_children _ _ s).
  assert (Hk : ∀ q d, children s !! q = Some d → ∃ d', children s' !! q = Some d' ∧ c_signalled d' = c_signalled d ∧ c_killed d' = c_killed d ∧ unreaped d' = unreaped d).
  { intros q d Hq. simpl. destruct (decide (q = p)) as [->|Hne]; [|exists d; by rewrite list_lookup_insert_ne]. rewrite Hp in Hq. injection Hq as <-. exists c'.
    split_and!; [by eapply child_at_change|done|done|]. by rewrite (unreaped_alive c). }
  unfold stage_ok in *. change (at_pc s') with (at_pc s). destruct (at_pc s) as [| | | | | | | | | | |[|l|l|j l| |q|q| |l|]|]; try done.
  - destruct Hst as [? Hs]. split; [done|]. by eapply signalled_tamer.
  - destruct Hst as [? Hs]. split; [done|]. by eapply signalled_tamer.
  - destruct Hst as (? & Hs & q & d & Hj & Hq & Hkd). split_and!; [done|by eapply signalled_tamer|]. destruct (Hk _ _ Hq) as (d' & ? & _ & E & _). exists q, d'. by rewrite E.
  - destruct Hst as (d & Hq & Hsg). destruct (Hk _ _ Hq) as (d' & ? & E1 & _ & E3). exists d'. by rewrite E1, E3.
  - destruct Hst as (d & Hq & Hkd). destruct (Hk _ _ Hq) as (d' & ? & _ & E2 & _). exists d'. by rewrite E2.
Qed.
Lemma drain_other s s' : drain_ok s → other s s' → drain_ok s'.
Proof.
  intros Hd Ho. pose proof (dr_socket _ Hd) as Hso. pose proof (dr_stage _ Hd) as Hst.
  destruct Ho as [p c z Hp Ha| | |p c i g buf buf' Hp Ha Hr Hb Hw| | | |]; try (by apply (drain_tamer s); [done|apply tamer_refl|split; simpl; auto|done|exact Hst]).
  - apply (drain_tamer s); [done|by eapply tamer_exit|split; simpl; auto|done|by apply stage_exit].
  - apply (drain_tamer s); [done|apply tamer_refl|split; simpl; auto|done|]. unfold stage_ok in *. simpl in *. destruct (at_pc s) as [| | | | | | | | | | |[]|]; try done; destruct Hst as (_ & Hn & _); congruence.
Qed.
Lemma drain_init : drain_ok world_init.
Proof. split; done. Qed.
Lemma reachable_drain s : reachable s → inv s ∧ drain_ok s.
Proof.
  intros H. unfold reachable in H. apply rtc_ind_r with (P := λ s, inv s ∧ drain_ok s) in H; [done|split; [apply supervisor_init|apply drain_init]|].
  intros x y _ Hs [Hx Hd]. destruct Hs as [i y Ht|y Ho]; [|split; [by eapply inv_other|by eapply drain_other]]. split; [by eapply inv_tick|].
  destruct (stopping (at_pc x)) eqn:Hst; [|by eapply drain_go_tick]. destruct (tick_stop _ _ _ Ht Hst) as (k & w & E & Hs). by eapply drain_stop_tick.
Qed.

(** ** Files *)
(** The paths that are still to be unlinked, once the shutdown is at that. *)
Definition still (p : pc) : option (list string) := match p with PStop (SUnlink l) _ => Some l | PStop SRmdir _ | PDone _ => Some [] | _ => None end.
Record files_ok (s : world) : Prop := {
  fi_from : ∀ f, f ∈ files s → f ∈ config_files ∨ ∃ p e u, kin (children s) !! p = Some (ControlPlane e, u) ∧ f = tmp_name p;
  fi_uds : "internal.sock" ∈ files s → prefer_uds = true;
  fi_left : ∀ l, still (at_pc s) = Some l → ∀ f, f ∈ config_files → f ∈ files s → f ∈ l ∨ KeptFile f ∈ log s;
  fi_dir : ∀ w, at_pc s = PDone w → owns_workdir = true → files s = ∅ → workdir s = false ∨ KeptWorkdir ∈ log s;
}.
Lemma poll_files p s : files (poll p s).2 = files s.
Proof. unfold poll. destruct (children s !! p) as [c|]; [|done]. by destruct (c_status c). Qed.
Lemma poll_files' p s o s' : poll p s = (o, s') → files s' = files s.
Proof. intros E. pose proof (poll_files p s) as H. by rewrite E in H. Qed.
Lemma signal_files p s : files (_signal_child p s) = files s.
Proof. unfold _signal_child, terminate. pose proof (poll_files p s) as H. destruct (poll p s) as [[z|] s']; simpl in *; [done|]. by destruct (children s' !! p). Qed.
Lemma kill_files p s : files (kill p s) = files s.
Proof. unfold kill. by destruct (children s !! p). Qed.
Definition new_files (s s' : world) : Prop := ∀ f, f ∈ files s' → f ∈ files s ∨ f = "router_config.json" ∨ f = "admission.shm".
Lemma new_files_same s s' : files s' = files s → new_files s s'.
Proof. intros E f. rewrite E. by left. Qed.
Lemma new_files_add s s' f : files s' = {[f]} ∪ files s → (f = "router_config.json" ∨ f = "admission.shm") → new_files s s'.
Proof. intros E Hf g. rewrite E. intros [Hg|Hg]%elem_of_union; [apply elem_of_singleton in Hg as ->; by right|by left]. Qed.
Lemma new_files_less s s' X : files s' = files s ∖ X → new_files s s'.
Proof. intros E f. rewrite E. intros [? _]%elem_of_difference. by left. Qed.
Lemma await_files p b d i s s' : await_child p b d i s = Some s' → files s' = files s.
Proof. intros [(_ & z & -> & _)|(_ & -> & _)]%await_child_some; simpl; [apply poll_files|apply kill_files]. Qed.

Lemma stop_tick_files k w i s s' : stop_tick k w i s = Some s' → removing k = false →
  files s' = files s ∧ ((∃ k', at_pc s' = PStop k' w ∧ removing k' = false) ∨ at_pc s' = PStop (SUnlink (unlink_artifacts w)) w).
Proof.
  intros Ht Hrm. assert (Haw : ∀ p b d, (∃ k', b = PStop k' w ∧ removing k' = false) → (∃ k', d = PStop k' w ∧ removing k' = false) → await_child p b d i s = Some s' →
    files s' = files s ∧ ((∃ k', at_pc s' = PStop k' w ∧ removing k' = false) ∨ at_pc s' = PStop (SUnlink (unlink_artifacts w)) w)).
  { intros p b d (kb & -> & Hb) (kd & -> & Hd) Haw. split; [by eapply await_files|left]. destruct (await_child_some _ _ _ _ _ _ Haw) as [(_ & z & -> & _)|(_ & -> & _)]; by eexists. }
  destruct k as [|[|j l]|[|j l]|j l| |p|p| |[|f l]|]; try discriminate Hrm; destruct i; simpl in Ht; try done.
  all: try (destruct (slot_child j s) as [p|]; try done).
  all: try (destruct (poll p s) as [[z|] z'] eqn:Ep; [|done]; injection Ht as <-; split; [exact (poll_files' _ _ _ _ Ep)|left; by eexists]).
  all: try (eapply Haw; [..|exact Ht]; by eexists).
  all: try (destruct (cp_process s) as [p|]).
  all: injection Ht as <-; simpl; (split; [first [done|apply signal_files|by destruct (socket_open s)]|first [by right|left; by eexists]]).
Qed.
Lemma stop_tick_why k w i s s' : stop_tick k w i s = Some s' → (∃ k', at_pc s' = PStop k' w) ∨ at_pc s' = PDone w.
Proof.
  intros Hs. destruct (removing k) eqn:Hrm; [destruct (ending_pc _ _ _ _ (stop_ending _ _ _ _ _ Hs Hrm)) as [(k' & _ & ?)|?]; by eauto|].
  destruct (stop_tick_files _ _ _ _ _ Hs Hrm) as [_ [(k' & ? & _)|?]]; by eauto.
Qed.
Lemma elem_artifacts w f : f ∈ config_files → (f = "internal.sock" → prefer_uds = true) → f ∈ unlink_artifacts w.
Proof. intros Hf Hu. destruct w; first [exact Hf|by apply list_elem_of_filter]. Qed.
Lemma files_ending w s k s' : files_ok s → at_pc s = PStop k w → ending w s k s' → (∀ l, still (at_pc s') = Some l → ∀ f, f ∈ config_files → f ∈ files s' → f ∈ l ∨ KeptFile f ∈ log s') ∧
  (∀ w', at_pc s' = PDone w' → owns_workdir = true → files s' = ∅ → workdir s' = false ∨ KeptWorkdir ∈ log s').
Proof.
  intros [_ _ H3 _] E He. rewrite E in H3. destruct He as [|f l|f l Hf|f l Hf| |Ho|]; simpl in *; (split; [intros l' [= <-] g Hg Hin|try done]).
  - by apply H3.
  - apply elem_of_difference in Hin as [Hin Hne]. destruct (H3 _ eq_refl g Hg Hin) as [[->|?]%elem_of_cons|?]; [set_solver|by left|by right].
  - destruct (H3 _ eq_refl g Hg Hin) as [[->|?]%elem_of_cons|?]; [done|by left|by right].
  - rewrite elem_of_app. destruct (H3 _ eq_refl g Hg Hin) as [[->|?]%elem_of_cons|?]; [right; right; by left|by left|right; by left].
  - by apply H3.
  - intros w' _ -> ->. left. by rewrite bool_decide_true, andb_false_r.
  - by apply H3.
  - intros w' _ Ho'. congruence.
  - rewrite elem_of_app. destruct (H3 _ eq_refl g Hg Hin) as [?|?]; [by left|right; by left].
  - intros w' _ _ _. right. apply elem_of_app. right. by left.
Qed.
Lemma go_tick_files i s s' : tick i s = Some s' → stopping (at_pc s) = false → new_files s s'.
Proof.
  unfold tick. intros Ht Hst. destruct (at_pc s) as [k| |[|j l]|j l|j l|j l| | | | | |k w|] eqn:E; try done.
  all: try (destruct i; try done; injection Ht as <-; apply new_files_same; done).
  all: try (destruct i; try done; injection Ht as <-).
  - destruct k, i; simpl in Ht; try done; injection Ht as <-; try (by apply new_files_same); eapply new_files_add; first [by left|by right|done].
  - apply new_files_same. by destruct (stop_requested s).
  - apply new_files_same. unfold poll_slot. destruct (dp_slots s !! j) as [slot|]; [|done]. destruct (poll (s_process slot) s) as [[z|] z'] eqn:Ep; exact (poll_files' _ _ _ _ Ep).
  - apply new_files_same. unfold fold_slot. destruct (shm s), (dp_slots s !! j); try destruct (_fold_and_reclaim_slot _ _ _ _); done.
  - apply new_files_same. unfold check_slot. destruct (dp_slots s !! j); cbv zeta; try case_bool_decide; done.
  - apply new_files_same. by destruct (dp_slots s !! j).
  - by apply new_files_same.
  - apply new_files_same. unfold poll_cp. destruct (cp_process s) as [p|]; [|done]. destruct (poll p s) as [[z|] z'] eqn:Ep; exact (poll_files' _ _ _ _ Ep).
  - apply new_files_same. unfold check_cp. cbv zeta. by case_bool_decide.
  - destruct prefer_uds; [by eapply new_files_less|by apply new_files_same].
  - by apply new_files_same.
Qed.
Lemma child_step_roles b l l' p r u : child_step b l l' → kin l !! p = Some (r, u) → ∃ u', kin l' !! p = Some (r, u').
Proof.
  intros Hs (c & Hc & <- & <-)%kin_child_inv. destruct Hs as [b l|b l q d Hq|l r|l q d Hq|l q d Hq].
  1: exists (unreaped c); by apply kin_child.
  2: exists (unreaped c); apply kin_child; by apply lookup_app_l_Some.
  all: destruct (decide (p = q)) as [->|Hne]; [rewrite Hq in Hc; injection Hc as <-; eexists; rewrite kin_lookup, (child_at_change _ _ _ _ Hq); done|exists (unreaped c); apply kin_child; by rewrite list_lookup_insert_ne].
Qed.
Lemma files_tick i s s' : files_ok s → tick i s = Some s' → files_ok s'.
Proof.
  intros Hok Ht. pose proof Hok as [H1 H2 H3 H4]. pose proof (tick_children _ _ _ Ht) as Hc. assert (Hfrom : ∀ f, f ∈ files s → f ∈ config_files ∨ ∃ p e u, kin (children s') !! p = Some (ControlPlane e, u) ∧ f = tmp_name p).
  { intros f [Hf|(p & e & u & Hp & ->)]%H1; [by left|]. destruct (child_step_roles _ _ _ _ _ _ Hc Hp) as (u' & Hu). right. by exists p, e, u'. }
  destruct (stopping (at_pc s)) eqn:Hst.
  - destruct (tick_stop _ _ _ Ht Hst) as (k & w & E & Hs). destruct (removing k) eqn:Hrm.
    + apply stop_ending in Hs; [|done]. destruct (files_ending w s k s') as [? ?]; try done. assert (Hsub : files s' ⊆ files s) by (destruct Hs; simpl; set_solver). split; try done; auto.
    + destruct (stop_tick_files _ _ _ _ _ Hs Hrm) as [Ef Hpc]. split; rewrite ?Ef; [done|done| |]; destruct Hpc as [(k' & -> & Hk')| ->]; try done.
      * intros l Hl. by destruct k'.
      * intros l [= <-] f Hf Hin. left. apply elem_artifacts; [done|]. intros ->. auto.
  - pose proof (go_tick_files _ _ _ Ht Hst) as Hn. destruct (tick_plain _ _ _ Ht Hst) as [Hp _]. split.
    + intros f [Hf|Hf]%Hn; [by apply Hfrom|]. left. destruct Hf as [-> | ->]; unfold config_files; set_solver.
    + intros [Hf|[Hf|Hf]]%Hn; [auto|done|done].
    + intros l Hl. by destruct (at_pc s') as [| | | | | | | | | | |[]|].
    + intros w E. by rewrite E in Hp.
Qed.
Lemma files_other s s' : inv s → files_ok s → other s s' → files_ok s'.
Proof.
  intros ((_ & Hc) & _) [H1 H2 H3 H4] Ho. pose proof (other_core _ _ Ho) as (E1 & _ & _ & E4 & _).
  assert (Hnd : ∀ p c e, children s !! p = Some c → c_status c = Alive → c_role c = ControlPlane e → still (at_pc s) = None ∧ ∀ w, at_pc s ≠ PDone w).
  { intros p c e Hp Ha Hr. assert (Hk : kin (children s) !! p = Some (ControlPlane e, true)) by (by rewrite (kin_child _ _ _ Hp), Hr, unreaped_alive).
    pose proof (cp_at _ _ _ Hc) as Hat. destruct (at_pc s) as [| | | | | | | | | | |[]|]; try done; by destruct (Hat p e). }
  destruct Ho as [p c z Hp Ha| | |p c i g buf buf' Hp Ha Hr Hb Hw|p c e Hp Ha Hr Hu|p c e Hp Ha Hr|p c e Hp Ha Hr Hf|p c e f Hp Ha Hr Hf].
  all: split; rewrite ?E4; simpl; rewrite ?app_nil_r; try done.
  all: try (intros l Hl; destruct (Hnd _ _ _ Hp Ha Hr) as [Hn _]; congruence).
  all: try (intros w E; by destruct (Hnd _ _ _ Hp Ha Hr) as [_ Hn]; destruct (Hn w)).
  - intros f [->%elem_of_singleton|Hf]%elem_of_union; [left; unfold config_files; set_solver|auto].
  - intros f [->%elem_of_singleton|Hf]%elem_of_union; [|auto]. right. exists p, e, (unreaped c). by rewrite (kin_child _ _ _ Hp), Hr.
  - intros [Hx%elem_of_singleton|Hf]%elem_of_union; [|auto]. by unfold tmp_name in Hx.
  - intros f [->%elem_of_singleton|[Hg _]%elem_of_difference]%elem_of_union; [left; unfold config_files; set_solver|auto].
  - intros [Hx%elem_of_singleton|[Hg _]%elem_of_difference]%elem_of_union; [done|auto].
  - intros g [Hg _]%elem_of_difference. auto.
  - intros [Hg _]%elem_of_difference. auto.
Qed.
Lemma reachable_files s : reachable s → files_ok s.
Proof.
  intros H. unfold reachable in H. apply rtc_ind_r with (P := λ s, inv s ∧ files_ok s) in H; [by destruct H|split; [apply supervisor_init|split; done]|].
  intros x y _ Hs [Hx Hf]. destruct Hs as [i y Ht|y Ho]; split; [by eapply inv_tick|by eapply files_tick|by eapply inv_other|by eapply files_other].
Qed.

(** ** Flapping *)
Definition lived (i : nat) (h : happening) : option Z := match h with Lived j t => if bool_decide (j = i) then Some t else None | _ => None end.
Definition lives (i : nat) (l : list happening) : list Z := omap (lived i) l.
Definition is_rapid (t : Z) : bool := bool_decide (t < rapid_window_secs)%Z.
Definition death (o : option nat) (t : Z) : option nat := d ← o; if bool_decide (d < max_rapid_restarts) then Some (if is_rapid t then S d else 0) else None.
Definition deaths (l : list Z) : option nat := foldl death (Some 0) l.
Definition rd (i : nat) (s : world) : nat := match dp_slots s !! i with Some slot => rapid_deaths slot | None => 0 end.

Lemma lives_app i l h : lives i (l ++ h) = lives i l ++ lives i h.
Proof. apply omap_app. Qed.
Lemma foldl_death_none l : foldl death None l = None.
Proof. by induction l. Qed.
Lemma deaths_snoc l t : deaths (l ++ [t]) = death (deaths l) t.
Proof. unfold deaths. by rewrite foldl_app. Qed.
(** A count of [d] is [d] rapid lifetimes at the end. *)
Lemma deaths_suffix l d : deaths l = Some d → ∃ a b, l = a ++ b ∧ length b = d ∧ Forall (λ t, is_rapid t = true) b.
Proof.
  revert d. induction l as [|t l IH] using rev_ind; intros d H; [injection H as <-; by exists [], []|]. rewrite deaths_snoc in H. unfold death in H.
  destruct (deaths l) as [d0|]; simpl in H; [|done]. case_bool_decide; [|done]. destruct (is_rapid t) eqn:Et; injection H as <-.
  - destruct (IH d0 eq_refl) as (a & b & -> & <- & Hb). exists a, (b ++ [t]). split_and!; [by rewrite app_assoc|rewrite length_app; simpl; lia|]. apply Forall_app. by split; [|constructor].
  - exists (l ++ [t]), []. by rewrite app_nil_r.
Qed.
Lemma deaths_rapid d b e : Forall (λ t, is_rapid t = true) b → foldl death (Some d) b = Some e → e = d + length b.
Proof.
  intros Hb. revert d. induction Hb as [|t b Ht Hb IH]; intros d H; simpl in H; [injection H as <-; simpl; lia|]. case_bool_decide; [|by rewrite foldl_death_none in H]. rewrite Ht in H. apply IH in H. simpl. lia.
Qed.
Lemma deaths_cut a b c e : deaths (a ++ b ++ c) = Some e → length b = max_rapid_restarts → Forall (λ t, is_rapid t = true) b → c = [] ∧ max_rapid_restarts ≤ e.
Proof.
  unfold deaths. rewrite !foldl_app. intros H Hl Hb. destruct (foldl death (Some 0) a) as [d|] eqn:Ea; [|by rewrite !foldl_death_none in H].
  destruct (foldl death (Some d) b) as [x|] eqn:Eb; [|by rewrite foldl_death_none in H]. pose proof (deaths_rapid _ _ _ Hb Eb) as ->.
  destruct c as [|t c]; simpl in H; [injection H as <-; split; [done|lia]|]. rewrite bool_decide_false in H by lia. by rewrite foldl_death_none in H.
Qed.

(** *** What a tick adds to the log *)
Definition no_life (h : list happening) : Prop := ∀ i, lives i h = [].
Definition quiet_log (s s' : world) : Prop := ∃ h, log s' = log s ++ h ∧ no_life h.
Lemma quiet_same s s' : log s' = log s → quiet_log s s'.
Proof. intros E. exists []. by rewrite E, app_nil_r. Qed.
Lemma quiet_one s s' h : log s' = log s ++ [h] → (∀ i, lived i h = None) → quiet_log s s'.
Proof. intros E Hh. exists [h]. split; [done|]. intros i. unfold lives. simpl. by rewrite Hh. Qed.
Lemma poll_quiet p s : quiet_log s (poll p s).2.
Proof. unfold poll. destruct (children s !! p) as [c|]; [|by apply quiet_same]. destruct (c_status c); [by apply quiet_same|by eapply quiet_one|by apply quiet_same]. Qed.
Lemma poll_quiet' p s o s' : poll p s = (o, s') → quiet_log s s'.
Proof. intros E. pose proof (poll_quiet p s) as H. by rewrite E in H. Qed.
Lemma terminate_quiet p s : quiet_log s (terminate p s).
Proof. unfold terminate. destruct (children s !! p); [by eapply quiet_one|by apply quiet_same]. Qed.
Lemma signal_quiet p s : quiet_log s (_signal_child p s).
Proof. unfold _signal_child. destruct (poll p s) as [[z|] s'] eqn:Ep; [exact (poll_quiet' _ _ _ _ Ep)|]. apply poll_none in Ep as ->. apply terminate_quiet. Qed.
Lemma kill_quiet p s : quiet_log s (kill p s).
Proof. unfold kill. destruct (children s !! p); [|by apply quiet_same]. exists []. done. Qed.
Lemma stop_tick_quiet k w i s s' : stop_tick k w i s = Some s' → quiet_log s s'.
Proof.
  intros Ht. assert (Haw : ∀ p b d, await_child p b d i s = Some s' → quiet_log s s').
  { intros p b d [(_ & z & -> & _)|(_ & -> & _)]%await_child_some; [exact (poll_quiet p s)|exact (kill_quiet p s)]. }
  destruct (removing k) eqn:Hrm; [destruct (stop_ending _ _ _ _ _ Ht Hrm); first [by apply quiet_same|by eapply quiet_one]|].
  destruct k as [|[|j l]|[|j l]|j l| |p|p| |[|f l]|]; try discriminate Hrm; destruct i; simpl in Ht; try done.
  all: try (destruct (slot_child j s) as [p|]; try done).
  all: try (by eapply Haw).
  all: try (destruct (cp_process s) as [p|]).
  all: try (injection Ht as <-; first [exact (signal_quiet _ s)|by apply quiet_same|exists []; done|destruct (socket_open s); [by eapply quiet_one|by apply quiet_same]]).
  all: destruct (poll p s) as [[z|] z'] eqn:Ep; [|done]; injection Ht as <-; exact (poll_quiet' _ _ _ _ Ep).
Qed.

(** The count of the slots, and what the log holds of it. *)
Definition flapping (i : nat) (p : pc) : bool := match p with PStop _ (DataPlaneFlaps j) | PDone (DataPlaneFlaps j) => bool_decide (j = i) | _ => false end.
Record flap_at (s : world) (i : nat) : Prop := {
  fl_go : stopping (at_pc s) = false → deaths (lives i (log s)) = Some (rd i s) ∧ rd i s < max_rapid_restarts;
  fl_some : ∃ d, deaths (lives i (log s)) = Some d ∧ (flapping i (at_pc s) = true → max_rapid_restarts ≤ d);
}.

Lemma quiet_lives s s' i : quiet_log s s' → lives i (log s') = lives i (log s).
Proof. intros (h & -> & Hh). by rewrite lives_app, Hh, app_nil_r. Qed.
Lemma poll_slots p s : dp_slots (poll p s).2 = dp_slots s.
Proof. unfold poll. destruct (children s !! p) as [c|]; [|done]. by destruct (c_status c). Qed.
Lemma poll_slots' p s o s' : poll p s = (o, s') → dp_slots s' = dp_slots s.
Proof. intros E. pose proof (poll_slots p s) as H. by rewrite E in H. Qed.
Lemma rd_same s s' i : dp_slots s' = dp_slots s → rd i s' = rd i s.
Proof. unfold rd. by intros ->. Qed.
Lemma rd_spawn s j g i : rd i (_spawn_dp_slot j g s) = rd i s.
Proof. unfold rd. simpl. destruct (decide (i = j)) as [->|Hne]; [by rewrite lookup_insert_eq|by rewrite lookup_insert_ne]. Qed.

(** A tick of the loop that is not a check: the counts stay, and the supervisor does not stop for flapping. *)
Lemma go_tick_rd i s s' : tick i s = Some s' → stopping (at_pc s) = false → (∀ j l, at_pc s ≠ PCheck j l) →
  quiet_log s s' ∧ (∀ j, rd j s' = rd j s) ∧ (∀ j, flapping j (at_pc s') = false).
Proof.
  unfold tick. intros Ht Hst Hnc. destruct (at_pc s) as [k| |[|j l]|j l|j l|j l| | | | | |k w|] eqn:E; try done; try (by destruct (Hnc j l)).
  all: try (destruct i; try done; injection Ht as <-; (split; [by apply quiet_same|done])).
  all: try (destruct i; try done; injection Ht as <-).
  - assert (Hn : ∀ x y, (∀ z, flapping z (at_pc (next_dp x y)) = false) ∧ (quiet_log s (next_dp x y) ↔ quiet_log s y) ∧ ∀ z, rd z (next_dp x y) = rd z y).
    { intros x y. unfold next_dp. by case_bool_decide. }
    destruct k, i; simpl in Ht; try done; injection Ht as <-; (split; [|split; [|]]); try (by apply quiet_same); try (by eapply quiet_one); try done.
    all: first [exists []; done|apply Hn; by eapply quiet_one|intros j; by apply Hn|intros j; destruct (Hn (S i0) (_spawn_dp_slot i0 1 s)) as (_ & _ & ->); apply rd_spawn].
  - destruct (stop_requested s); (split; [by apply quiet_same|done]).
  - unfold poll_slot. destruct (dp_slots s !! j) as [slot|]; [|split; [by apply quiet_same|done]].
    destruct (poll (s_process slot) s) as [[z|] z'] eqn:Ep; (split; [exact (poll_quiet' _ _ _ _ Ep)|split; [|done]]); intros x; apply rd_same; exact (poll_slots' _ _ _ _ Ep).
  - unfold fold_slot. destruct (shm s), (dp_slots s !! j); try destruct (_fold_and_reclaim_slot _ _ _ _); (split; [first [by apply quiet_same|by eapply quiet_one]|done]).
  - destruct (dp_slots s !! j) as [slot|]; [|split; [by apply quiet_same|done]]. split; [by eapply quiet_one|]. split; [|done]. intros x. exact (rd_spawn s j (S (s_generation slot)) x).
  - split; [by apply quiet_same|done].
  - unfold poll_cp. destruct (cp_process s) as [p|]; [|split; [by apply quiet_same|done]].
    destruct (poll p s) as [[z|] z'] eqn:Ep; (split; [exact (poll_quiet' _ _ _ _ Ep)|split; [|done]]); intros x; apply rd_same; exact (poll_slots' _ _ _ _ Ep).
  - unfold check_cp. cbv zeta. case_bool_decide; (split; [by apply quiet_same|done]).
  - destruct prefer_uds; (split; [by apply quiet_same|done]).
  - split; [by apply quiet_same|done].
  - split; [by eapply quiet_one|done].
  - split; [by apply quiet_same|done].
Qed.

Lemma flap_quiet s s' i : flap_at s i → quiet_log s s' → (stopping (at_pc s') = false → stopping (at_pc s) = false ∧ rd i s' = rd i s) → (flapping i (at_pc s') = true → flapping i (at_pc s) = true) → flap_at s' i.
Proof.
  intros [H1 (d & H2 & H3)] Hq Hs Hf. split; rewrite (quiet_lives _ _ _ Hq).
  - intros Hst. destruct (Hs Hst) as [Hst' ->]. auto.
  - exists d. auto.
Qed.
Lemma flap_check s j l i : inv1 s → flap_at s i → at_pc s = PCheck j l → flap_at (check_slot j l s) i.
Proof.
  intros H [H1 _] E. rewrite E in H1. destruct (H1 eq_refl) as [Hd Hlt]. destruct (current_at _ _ H E) as (slot & Es & _). unfold check_slot. rewrite Es. cbv zeta.
  set (t := (now s - spawned_at slot)%Z). set (n := rapid _ _ _). set (s1 := set_shm _ _ _).
  assert (Hl : lives i (log s1) = lives i (log s) ++ (if bool_decide (j = i) then [t] else [])) by (simpl; rewrite lives_app; unfold lives at 2; simpl; by case_bool_decide).
  assert (Hrd : rd i s1 = if bool_decide (j = i) then n else rd i s).
  { unfold rd. simpl. case_bool_decide as Hji; [subst; by rewrite lookup_insert_eq|by rewrite lookup_insert_ne]. }
  assert (Hd1 : deaths (lives i (log s1)) = Some (rd i s1)).
  { rewrite Hl, Hrd. case_bool_decide as Hji; [|by rewrite app_nil_r]. subst j. rewrite deaths_snoc, Hd. unfold death. simpl. rewrite bool_decide_true by done. unfold n, rapid, is_rapid, t, rd. by rewrite Es. }
  destruct (bool_decide_reflect (max_rapid_restarts ≤ n)) as [Hm|Hm]; split; simpl; try done.
  - exists (rd i s1). split; [done|]. intros Hji%bool_decide_eq_true. rewrite Hrd. by rewrite bool_decide_true.
  - intros _. split; [done|]. change (rd i (goto (PRespawn j l) s1)) with (rd i s1). rewrite Hrd. case_bool_decide; [lia|done].
  - exists (rd i s1). by split.
Qed.
Lemma flap_tick s i s' : inv s → (∀ j, flap_at s j) → tick i s = Some s' → ∀ j, flap_at s' j.
Proof.
  intros (H1 & _) Hf Ht x. destruct (stopping (at_pc s)) eqn:Hst.
  - destruct (tick_stop _ _ _ Ht Hst) as (k & w & E & Hs). pose proof (stop_tick_quiet _ _ _ _ _ Hs) as Hq. pose proof (stop_tick_stopping _ _ _ _ _ Hs) as Hst'.
    apply (flap_quiet s); [done|done|congruence|]. rewrite E. by destruct (stop_tick_why _ _ _ _ _ Hs) as [(k' & ->)| ->].
  - destruct (at_pc s) as [| | | |j l| | | | | | | |] eqn:E; [..|done|done].
    all: try (destruct (go_tick_rd _ _ _ Ht ltac:(by rewrite E) ltac:(by intros ??; rewrite E)) as (Hq & Hr & Hn); apply (flap_quiet s); [done|done|by rewrite E|by rewrite Hn]).
    unfold tick in Ht. rewrite E in Ht. destruct i; try done. injection Ht as <-. by apply flap_check.
Qed.
Lemma other_quiet s s' : other s s' → quiet_log s s'.
Proof. intros []; try (by apply quiet_same); exists []; done. Qed.
Lemma flap_other s s' : (∀ j, flap_at s j) → other s s' → ∀ j, flap_at s' j.
Proof.
  intros Hf Ho j. pose proof (other_core _ _ Ho) as (E1 & E2 & _). apply (flap_quiet s); [done|by apply other_quiet|rewrite E1; by intros; split; [|apply rd_same]|by rewrite E1].
Qed.
Lemma reachable_flap s : 0 < max_rapid_restarts → reachable s → ∀ i, flap_at s i.
Proof.
  intros Hm H. unfold reachable in H. apply rtc_ind_r with (P := λ s, inv s ∧ ∀ i, flap_at s i) in H; [by destruct H|split; [apply supervisor_init|]|].
  - intros i. split; [done|]. by exists 0.
  - intros x y _ Hs [Hx Hf]. destruct Hs as [i y Ht|y Ho]; split; [by eapply inv_tick|by eapply flap_tick|by eapply inv_other|by eapply flap_other].
Qed.

(** ** Shutting down *)
Lemma poll_set_exited p c z s : children s !! p = Some c → ∃ s', poll p (set_children (<[p := mkChild (c_role c) (Exited z) (c_signalled c) (c_killed c)]> (children s)) [] s) = (Some z, s').
Proof. intros Hp. unfold poll. simpl. rewrite (child_at_change _ _ c) by done. simpl. by eexists. Qed.

(** C31. The shutdown, and the cleanup of a start that failed, come to an end: every step of it is one of
    at most [15 + 3 * router_processes], nothing else moves it, it never goes back to the loop,
    and until it is done there is a step to take at once, or it waits for the exit of a
    child it has already killed and takes a step after that. *)
Theorem shutdown_terminates s : reachable s → stopping (at_pc s) = true →
  (∀ i s', tick i s = Some s' → stopping (at_pc s') = true ∧ rank (at_pc s') < rank (at_pc s)) ∧
  (∀ s', other s s' → at_pc s' = at_pc s) ∧
  ((∃ w, at_pc s = PDone w) ∨ (∃ i s', tick i s = Some s') ∨
   (∃ p c, children s !! p = Some c ∧ c_status c = Alive ∧ c_killed c = true ∧ ∀ z, ∃ s1 s2, other s s1 ∧ (c_status <$> children s1 !! p) = Some (Exited z) ∧ tick Go s1 = Some s2)).
Proof.
  intros Hr Hst. destruct (reachable_drain _ Hr) as [Hi Hd]. pose proof (dr_stage _ Hd) as Hstage. split_and!.
  - intros i s' Ht. destruct (tick_stop _ _ _ Ht Hst) as (k & w & E & Hs). split; [by eapply stop_tick_stopping|by eapply stop_tick_rank].
  - intros s' Ho. by destruct (other_core _ _ Ho).
  - unfold stage_ok in Hstage. unfold tick. destruct (at_pc s) as [| | | | | | | | | | |k w|w] eqn:E; try done; [|left; by eexists]. right.
    assert (Hx : ∀ p c k', k = k' → children s !! p = Some c → c_killed c = true → (∀ x y z, poll p x = (Some z, y) → at_pc x = PStop k w → dp_slots x = dp_slots s → ∃ s2, tick Go x = Some s2) →
      (∃ i s', stop_tick k w i s = Some s') ∨ ∃ p c, children s !! p = Some c ∧ c_status c = Alive ∧ c_killed c = true ∧ ∀ z, ∃ s1 s2, other s s1 ∧ (c_status <$> children s1 !! p) = Some (Exited z) ∧ tick Go s1 = Some s2).
    { intros p c k' -> Hp Hk Hgo. destruct (poll p s) as [[z|] s'] eqn:Ep.
      - left. destruct (Hgo _ _ _ Ep E eq_refl) as [s2 Hs2]. unfold tick in Hs2. rewrite E in Hs2. by exists Go, s2.
      - right. pose proof (poll_alive _ _ _ _ Ep Hp) as Ha. exists p, c. split_and!; try done. intros z. destruct (poll_set_exited p c z s Hp) as [y Hy].
        destruct (Hgo _ _ _ Hy E eq_refl) as [s2 Hs2]. eexists _, s2. split; [by eapply o_exit|]. split; [|done]. simpl. by rewrite (child_at_change _ _ c). }
    destruct k as [|[|j l]|[|j l]|j l| |p|p| |[|f l]|]; try (left; by eexists Go, _).
    + destruct Hstage as [Hsl _]. destruct (Hsl j) as [slot Es]; [by left|]. left. destruct (poll (s_process slot) s) as [[z|] s'] eqn:Ep.
      * exists Go. eexists. simpl. unfold slot_child. rewrite Es. simpl. unfold await_child. by rewrite Ep.
      * exists Timeout. eexists. simpl. unfold slot_child. rewrite Es. simpl. unfold await_child. by rewrite Ep.
    + destruct Hstage as (_ & _ & p & c & Hj & Hp & Hk). eapply (Hx p c); [done|done|done|]. intros x y z Hy Ex Es. unfold tick. rewrite Ex. simpl.
      assert (Hjx : slot_child j x = Some p) by (unfold slot_child in *; by rewrite Es). rewrite Hjx, Hy. by eexists.
    + left. simpl. exists Go. destruct (cp_process s); by eexists.
    + destruct Hstage as (c & Hp & _). left. destruct (poll p s) as [[z|] s'] eqn:Ep.
      * exists Go. eexists. simpl. unfold await_child. by rewrite Ep.
      * exists Timeout. eexists. simpl. unfold await_child. by rewrite Ep.
    + destruct Hstage as (c & Hp & Hk). eapply (Hx p c); [done|done|done|]. intros x y z Hy Ex Es. unfold tick. rewrite Ex. simpl. rewrite Hy. by eexists.
Qed.

(** C32. The drain is in order: no data plane is asked to stop before the public listener is closed, none
    is waited for before every one still up has been asked to stop, the control plane is asked
    to stop only when every data plane has been reaped, and a child is killed only after it was
    asked to stop. *)
Theorem drain_is_in_order s : reachable s →
  (∀ p c i g, children s !! p = Some c → c_role c = DataPlane i g → c_signalled c = true → stopping (at_pc s) = true ∧ socket_open s = false) ∧
  (∀ w l, (at_pc s = PStop (SAwait l) w ∨ ∃ j, at_pc s = PStop (SKilled j l) w) → ∀ p c i g, children s !! p = Some c → c_role c = DataPlane i g → unreaped c = true → c_signalled c = true) ∧
  (∀ p c e, children s !! p = Some c → c_role c = ControlPlane e → c_signalled c = true → ∀ q d i g, children s !! q = Some d → c_role d = DataPlane i g → ∃ z, c_status d = Reaped z) ∧
  (∀ p c, children s !! p = Some c → c_killed c = true → c_signalled c = true).
Proof.
  intros Hr. destruct (reachable_drain _ Hr) as [(_ & Hw & _) [H1 H2 H3 H4]]. split_and!.
  - intros p c i g Hp Hro Hs. specialize (H1 _ _ Hp Hs). rewrite Hro in H1. simpl in H1. split; [by destruct (at_pc s) as [| | | | | | | | | | |[]|]|by apply H3].
  - intros w l Hpc p c i g Hp Hro Hu. unfold stage_ok in H4. destruct Hpc as [E|[j E]]; rewrite E in H4.
    + destruct H4 as [_ Ha]. by eapply Ha; [| | |apply not_elem_of_nil].
    + destruct H4 as (_ & Ha & _). by eapply Ha; [| | |apply not_elem_of_nil].
  - intros p c e Hp Hro Hs q d i g Hq Hrd. specialize (H1 _ _ Hp Hs). rewrite Hro in H1. simpl in H1.
    destruct (unreaped d) eqn:Hu; [|unfold unreaped in Hu; destruct (c_status d) as [|z|z]; try done; by exists z].
    assert (Hn : no_up (kin (children s)) []) by (apply Hw; by destruct (at_pc s) as [| | | | | | | | | | |[]|]).
    assert (Hin : i ∈ []) by (apply (Hn q i g); by rewrite (kin_child _ _ _ Hq), Hrd, Hu). by apply not_elem_of_nil in Hin.
  - apply H2.
Qed.

(** C6. Nothing is left behind but what could not be removed: once the supervisor is done, whether
    it was told to stop, gave up or could not start, every process it ever started has exited and
    been reaped, the public listener, the pipe that ties the children to it and the mapped
    admission file are closed; a file that is left is one of the four it unlinks whose unlink
    failed ([KeptFile]), or the temporary file of a control plane that died while it was
    publishing; a directory of its own in which no file is left is removed unless the [rmdir]
    failed ([KeptWorkdir]); and it does nothing more. *)
Theorem shutdown_leaves_nothing s w : reachable s → at_pc s = PDone w →
  (∀ p c, children s !! p = Some c → ∃ z, c_status c = Reaped z) ∧
  socket_open s = false ∧ pipe_open s = false ∧ shm s = None ∧ context s = false ∧
  (∀ f, f ∈ files s → (f ∈ config_files ∧ KeptFile f ∈ log s) ∨ ∃ p c e, children s !! p = Some c ∧ c_role c = ControlPlane e ∧ f = tmp_name p) ∧
  (owns_workdir = true → files s = ∅ → KeptWorkdir ∉ log s → workdir s = false) ∧ ∀ i, tick i s = None.
Proof.
  intros Hr E. destruct (reachable_drain _ Hr) as [((Hl & Hc) & Hw & _) [_ _ H3 H4]]. destruct (reachable_files _ Hr) as [F1 _ F3 F4]. unfold stage_ok in H4. rewrite E in H3, H4, F3.
  destruct H4 as (Hpipe & Hshm & Hctx). split_and!; try done.
  - intros p c Hp. destruct (unreaped c) eqn:Hu; [|unfold unreaped in Hu; destruct (c_status c) as [|z|z]; try done; by exists z]. exfalso. pose proof (kin_child _ _ _ Hp) as Hk. rewrite Hu in Hk.
    destruct (c_role c) as [i g|e] eqn:Hro.
    + assert (Hin : i ∈ []) by (eapply Hw; [by rewrite E|done]). by apply not_elem_of_nil in Hin.
    + pose proof (cp_at _ _ _ Hc) as Hat. rewrite E in Hat. by apply (Hat p e).
  - by apply H3.
  - intros f Hf. destruct (F1 f Hf) as [Hin|(p & e & u & Hp & ->)]; [left|right].
    + destruct (F3 _ eq_refl f Hin Hf) as [Hx|?]; [by apply not_elem_of_nil in Hx|done].
    + apply kin_child_inv in Hp as (c & Hp & Hro & _). by exists p, c, e.
  - intros Ho He Hk. by destruct (F4 _ E Ho He).
  - intros i. unfold tick. rewrite E. by destruct i.
Qed.

(** C7. A data plane that keeps dying stops the router: whenever the lifetimes of the data planes of an
    index hold [max_rapid_restarts] in a row that are shorter than the window, the last of them
    is the last of all and the supervisor is shutting down, so that no more is started; and it
    gives up on an index only after that many in a row. *)
Theorem flapping_stops_the_router s i : 0 < max_rapid_restarts → reachable s →
  (∀ a b c, lives i (log s) = a ++ b ++ c → length b = max_rapid_restarts → Forall (λ t, (t < rapid_window_secs)%Z) b → c = [] ∧ stopping (at_pc s) = true) ∧
  ((∃ k, at_pc s = PStop k (DataPlaneFlaps i)) ∨ at_pc s = PDone (DataPlaneFlaps i) →
    ∃ a b, lives i (log s) = a ++ b ∧ max_rapid_restarts ≤ length b ∧ Forall (λ t, (t < rapid_window_secs)%Z) b).
Proof.
  intros Hm Hr. destruct (reachable_flap _ Hm Hr i) as [H1 (d & H2 & H3)]. split.
  - intros a b c E Hl Hb. rewrite E in H2. destruct (deaths_cut _ _ _ _ H2 Hl) as [-> Hd]; [eapply Forall_impl; [exact Hb|]; intros t Ht; by apply bool_decide_true|]. split; [done|].
    destruct (stopping (at_pc s)) eqn:Hst; [done|]. destruct (H1 eq_refl) as [H4 H5]. rewrite E, H2 in H4. simplify_eq. lia.
  - intros Hpc. destruct (deaths_suffix _ _ H2) as (a & b & E & Hl & Hb). exists a, b. split; [done|]. split.
    + rewrite Hl. apply H3. destruct Hpc as [(k & ->)| ->]; by apply bool_decide_true.
    + eapply Forall_impl; [exact Hb|]. intros t Ht. by apply bool_decide_eq_true in Ht.
Qed.
End supervisor.


(** ** At work *)
(** One data plane, a window of five seconds, and two rapid deaths are too many. *)
#[local] Instance demo_settings : RouterSupervisor := {| router_processes := 1; rapid_window_secs := 5; max_rapid_restarts := 2; prefer_uds := true; owns_workdir := true; stamp t := t |}.
Definition demo (l : list act) : world := played l.
Lemma demo_reachable l : reachable (demo l).
Proof. apply played_reachable. Qed.
Definition go (n : nat) : list act := repeat (Tick Go) n.
Definition demo_boot : list act := go 10.
(** The data plane dies at once and is replaced. *)
Definition demo_death (p : nat) : list act := Exit p 1 :: go 8.
(** The data plane ignores the request to stop; the control plane dies while it is publishing. *)
Definition demo_kill : list act := demo_boot ++ [Interrupt true; Tick Go; Tick Go; Tick Go; Tick Go; Tick Timeout].
Definition demo_stop (tail removal : list act) : list act := demo_kill ++ [Exit 1 (-9); Tick Go; Tick Go; Tick Go] ++ tail ++ [Exit 0 0; Tick Go; Tick Go] ++ removal.
Lemma slots_reclaimed_in_order_witness : at_pc (demo (demo_boot ++ demo_death 1)) = PLoop ∧ lane 0 (log (demo (demo_boot ++ demo_death 1))) = Some (LUp 2) ∧ is_Some (lane 0 (log (demo (demo_boot ++ demo_death 1)))).
Proof.
  split_and!; [vm_compute; reflexivity..|]. destruct (slots_reclaimed_in_order _ (demo_reachable (demo_boot ++ demo_death 1))) as [H _]. apply H.
Defined.
Lemma shutdown_terminates_witness : at_pc (demo demo_kill) = PStop (SKilled 0 []) Stopped ∧ ∀ i s', tick i (demo demo_kill) = Some s' → rank (at_pc s') < 12.
Proof.
  assert (E : at_pc (demo demo_kill) = PStop (SKilled 0 []) Stopped) by (vm_compute; reflexivity). split; [exact E|]. intros i s' Ht.
  pose proof (demo_reachable demo_kill) as Hr. revert E Hr Ht. generalize (demo demo_kill). intros s E Hr Ht.
  destruct (shutdown_terminates s Hr) as [H _]; [by rewrite E|]. destruct (H i s' Ht) as [_ Hrank]. by rewrite E in Hrank.
Defined.
Lemma drain_is_in_order_witness : c_killed <$> children (demo demo_kill) = [false; true] ∧ c_signalled <$> children (demo demo_kill) = [false; true] ∧ socket_open (demo demo_kill) = false.
Proof.
  split_and!; [vm_compute; reflexivity..|]. destruct (drain_is_in_order _ (demo_reachable demo_kill)) as [H _].
  apply (H 1 (mkChild (DataPlane 0 1) Alive true true) 0 1); vm_compute; reflexivity.
Defined.
(** All is removed; then a run in which the configuration's unlink fails. *)
Lemma shutdown_leaves_nothing_witness :
  (let s := demo (demo_stop [] (go 6)) in at_pc s = PDone Stopped ∧ shm s = None ∧ workdir s = false) ∧
  (let s := demo (demo_stop [] (Tick Fails :: go 5)) in at_pc s = PDone Stopped ∧ files s = {["router_config.json"]} ∧ workdir s = true ∧ KeptFile "router_config.json" ∈ log s).
Proof.
  split; intros s.
  - assert (E : at_pc s = PDone Stopped) by (vm_compute; reflexivity). destruct (shutdown_leaves_nothing _ Stopped (demo_reachable (demo_stop [] (go 6))) E) as (_ & _ & _ & Hs & _ & _ & Hd & _).
    split_and!; [exact E|exact Hs|]. apply Hd; [reflexivity|vm_compute; reflexivity|]. intros Hin%list_elem_of_In.
    assert (Hall : forallb (λ h, match h with KeptWorkdir => false | _ => true end) (log s) = true) by (vm_compute; reflexivity). exact (Bool.diff_false_true (proj1 (forallb_forall _ _) Hall _ Hin)).
  - assert (E : at_pc s = PDone Stopped) by (vm_compute; reflexivity). destruct (shutdown_leaves_nothing _ Stopped (demo_reachable (demo_stop [] (Tick Fails :: go 5))) E) as (_ & _ & _ & _ & _ & Hf & _).
    assert (Ef : files s = {["router_config.json"]}) by (vm_compute; reflexivity). split_and!; [exact E|exact Ef|vm_compute; reflexivity|].
    destruct (Hf "router_config.json") as [[_ Hk]|(p & c & e & _ & _ & Hx)]; [apply (eq_ind_r (λ X, "router_config.json" ∈ X) (proj2 (elem_of_singleton _ _) eq_refl) Ef)|exact Hk|by unfold tmp_name in Hx].
Defined.
Lemma flapping_stops_the_router_witness : lives 0 (log (demo (demo_boot ++ demo_death 1 ++ demo_death 2))) = [0; 0]%Z ∧ stopping (at_pc (demo (demo_boot ++ demo_death 1 ++ take 5 (demo_death 2)))) = true.
Proof.
  split; [vm_compute; reflexivity|].
  destruct (flapping_stops_the_router (settings := demo_settings) _ 0 (le_S 1 1 (le_n 1)) (demo_reachable (demo_boot ++ demo_death 1 ++ take 5 (demo_death 2)))) as [H _].
  apply (H [] [0; 0]%Z []); [vm_compute; reflexivity|reflexivity|by repeat constructor].
Defined.

(** A control plane that is killed between writing its snapshot and renaming it leaves its temporary
    file, which [shutdown] does not know of: the directory cannot be removed, and stays. *)
Example killed_publisher_leaves_workdir : at_pc (demo (demo_stop [WriteTmp 0] (go 6))) = PDone Stopped ∧ files (demo (demo_stop [WriteTmp 0] (go 6))) = {["workers.json.tmp.0"]} ∧ workdir (demo (demo_stop [WriteTmp 0] (go 6))) = true.
Proof. split_and!; vm_compute; reflexivity. Qed.
