(* ===== verification/TranscriptionChunking.v ===== *)
(** * Long-audio chunking for transcriptions

    Models [src/sglang_omni/serve/transcription_chunking.py] and the configuration it
    reads ([config/schema.py], [ResolvedAudioChunking]).  Python floats are binary64
    ([SpecFloat]); text is its list of code points.  The waveform is the list of its
    samples; numpy's mean of squares, argmin and peak are parameters. *)
From Stdlib Require Import SpecFloat.
From S2P Require Import Prelude.

(** ** Python floats *)
Definition float_of_int (z : Z) : spec_float := binary_normalize 53 1024 z 0 false.
Definition float_mul : spec_float → spec_float → spec_float := SFmul 53 1024.
Definition float_div : spec_float → spec_float → spec_float := SFdiv 53 1024.

Definition signed (negative : bool) (z : Z) : Z := if negative then (- z)%Z else z.

(** [int(x)] truncates; it raises on infinities and NaN. *)
Definition float_to_int (x : spec_float) : res Z :=
  match x with
  | S754_zero _ => Ok 0%Z
  | S754_infinity _ => Raise OverflowError
  | S754_nan => Raise (ValueError "cannot convert float NaN to integer")
  | S754_finite s m e =>
      Ok (signed s (if bool_decide (0 ≤ e)%Z then (Zpos m * 2 ^ e)%Z else (Zpos m / 2 ^ (- e))%Z))
  end.

(** [round(x)]: to the nearest integer, ties to even. *)
Definition float_round (x : spec_float) : res Z :=
  match x with
  | S754_finite s m e =>
      if bool_decide (0 ≤ e)%Z then Ok (signed s (Zpos m * 2 ^ e)%Z)
      else
        let d := (2 ^ (- e))%Z in
        let q := (Zpos m / d)%Z in
        let r2 := (2 * (Zpos m mod d))%Z in
        Ok (signed s (if bool_decide (d < r2)%Z || (bool_decide (r2 = d) && Z.odd q) then q + 1 else q)%Z)
  | _ => float_to_int x
  end.

(** ** The configuration *)
Record ResolvedAudioChunking := mkChunking {
  allow_audio_chunking : bool;
  max_audio_clip_s : spec_float;
  max_native_clip_s : option spec_float;
  max_total_audio_s : option spec_float;
  min_tail_s : spec_float;
  max_concurrent_chunks : Z;
  condition_on_previous_text : bool;
}.

Definition stream_clip_limit_s (c : ResolvedAudioChunking) : spec_float :=
  match max_native_clip_s c with Some s => s | None => max_audio_clip_s c end.

Definition chunk_samples (c : ResolvedAudioChunking) (sample_rate : Z) : res Z :=
  n ← float_to_int (float_mul (max_audio_clip_s c) (float_of_int sample_rate));
  mret (Z.max n 1).

Definition float_zero : spec_float := S754_zero false.

Definition needs_chunking (duration_s : spec_float) (c : ResolvedAudioChunking) : bool :=
  if negb (allow_audio_chunking c) then false
  else if SFleb duration_s float_zero then false
  else SFltb (max_audio_clip_s c) duration_s.

Definition check_total_duration (duration_s : spec_float) (c : ResolvedAudioChunking) : res unit :=
  match max_total_audio_s c with
  | None => Ok tt
  | Some limit => if SFleb duration_s limit then Ok tt else Raise (ValueError "transcription accepts audio up to")
  end.

(** ** The splitter *)
Abbreviation Span := (Z * Z)%type.

Record RMSSplitter := mkSplitter { search_window_s : spec_float; energy_window_samples : Z }.

Definition splitter_init (search_window_s : spec_float) (energy_window_samples : Z) : res RMSSplitter :=
  if SFltb search_window_s float_zero then Raise (ValueError "search_window_s must not be negative")
  else if bool_decide (energy_window_samples < 1)%Z then Raise (ValueError "energy_window_samples must be at least 1")
  else Ok (mkSplitter search_window_s energy_window_samples).

(** [RMSSplitter()]: 2.0 seconds and 1600 samples. *)
Definition default_splitter : RMSSplitter := mkSplitter (float_of_int 2) 1600.

(** [l[a:b]] for indices that are not negative. *)
Definition slice {A} (a b : Z) (l : list A) : list A := take (Z.to_nat (b - a)) (drop (Z.to_nat a) l).

Definition len {A} (l : list A) : Z := Z.of_nat (length l).

Section splitter.
Context {sample energy : Type} (mean_square : list sample → energy) (argmin : list energy → nat).

Definition _find_split_point (sp : RMSSplitter) (waveform : list sample) (search_start search_end : Z) : Z :=
  let region := slice search_start search_end waveform in
  let window := energy_window_samples sp in
  let window_count := (len region / window)%Z in
  if bool_decide (window_count < 1)%Z then search_end
  else
    let frames := (λ k, slice (k * window) ((k + 1) * window) region) <$> seqZ 0 window_count in
    let energies := mean_square <$> frames in
    let quietest := Z.of_nat (argmin energies) in
    (search_start + quietest * window + window / 2)%Z.

(** Where the loop body of [split] cuts. *)
Definition next_cut (sp : RMSSplitter) (waveform : list sample) (chunk_samples search_samples min_tail start : Z) : Z :=
  let total_samples := len waveform in
  let boundary := (start + chunk_samples)%Z in
  let search_start := Z.max (boundary - search_samples) (start + 1) in
  let cut := _find_split_point sp waveform search_start boundary in
  let tail_samples := (total_samples - cut)%Z in
  if bool_decide (0 < tail_samples ∧ tail_samples < min_tail ∧ min_tail ≤ chunk_samples)%Z
  then Z.max (total_samples - min_tail) (start + 1) else cut.

(** The loop from [start], with the spans it appends; [None] is out of fuel. *)
Fixpoint split_loop (fuel : nat) (sp : RMSSplitter) (waveform : list sample) (sample_rate chunk_samples search_samples : Z)
    (min_tail_s : spec_float) (start : Z) : option (res (list Span)) :=
  match fuel with
  | O => None
  | S fuel =>
      if negb (bool_decide (start < len waveform)%Z) then Some (Ok [])
      else if bool_decide (len waveform - start ≤ chunk_samples)%Z then Some (Ok [(start, len waveform)])
      else match float_to_int (float_mul min_tail_s (float_of_int sample_rate)) with
           | Raise e => Some (Raise e)
           | Ok min_tail =>
               let cut := next_cut sp waveform chunk_samples search_samples min_tail start in
               match split_loop fuel sp waveform sample_rate chunk_samples search_samples min_tail_s cut with
               | None => None
               | Some (Raise e) => Some (Raise e)
               | Some (Ok spans) => Some (Ok ((start, cut) :: spans))
               end
           end
  end.

Definition split (sp : RMSSplitter) (waveform : list sample) (sample_rate max_chunk_samples : Z) (min_tail_s : spec_float) :
    option (res (list Span)) :=
  let total_samples := len waveform in
  if bool_decide (total_samples ≤ 0)%Z then Some (Ok [])
  else
    let chunk_samples := Z.max max_chunk_samples 1 in
    if bool_decide (total_samples ≤ chunk_samples)%Z then Some (Ok [(0, total_samples)%Z])
    else match float_to_int (float_mul (search_window_s sp) (float_of_int sample_rate)) with
         | Raise e => Some (Raise e)
         | Ok n => split_loop (S (length waveform)) sp waveform sample_rate chunk_samples (Z.max n 0) min_tail_s 0
         end.

(** ** The loop *)
Context (argmin_lt : ∀ l, l ≠ [] → argmin l < length l).
Context (sp : RMSSplitter) (waveform : list sample).
Context (Hwindow : (1 ≤ energy_window_samples sp)%Z).

Lemma slice_length {A} a b (l : list A) :
  (0 ≤ a)%Z → (a ≤ b)%Z → (b ≤ len l)%Z → len (slice a b l) = (b - a)%Z.
Proof. intros. unfold len, slice in *. rewrite length_take, length_drop. lia. Qed.

Lemma slice_app {A} a b c (l : list A) :
  (0 ≤ a)%Z → (a ≤ b)%Z → (b ≤ c)%Z → slice a b l ++ slice b c l = slice a c l.
Proof.
  intros. unfold slice. replace (drop (Z.to_nat b) l) with (drop (Z.to_nat (b - a)) (drop (Z.to_nat a) l)).
  2: { rewrite drop_drop. f_equal. lia. }
  replace (Z.to_nat (c - a)) with (Z.to_nat (b - a) + Z.to_nat (c - b)) by lia. apply take_take_drop.
Qed.

Lemma slice_all {A} (l : list A) : slice 0 (len l) l = l.
Proof. unfold slice, len. rewrite drop_0. apply take_ge. lia. Qed.

(** The cut is in the search window, and is the boundary only if no energy window fits. *)
Lemma find_split_point_bounds a b :
  (0 ≤ a)%Z → (a ≤ b)%Z → (b ≤ len waveform)%Z →
  (a ≤ _find_split_point sp waveform a b ≤ b)%Z.
Proof.
  intros Ha Hab Hb. unfold _find_split_point. set (region := slice a b waveform).
  assert (len region = (b - a)%Z) as Hlen by by apply slice_length.
  set (win := energy_window_samples sp) in *. set (n := (len region / win)%Z).
  case_bool_decide as Hn; [lia|].
  set (energies := mean_square <$> _).
  assert (length energies = Z.to_nat n) as He by (unfold energies; by rewrite !length_fmap, length_seqZ).
  assert (argmin energies < length energies) as Hq.
  { apply argmin_lt. intros H. rewrite H in He. simpl in He. lia. }
  assert (n * win ≤ len region)%Z as Hfit by (unfold n; rewrite Z.mul_comm; apply Z.mul_div_le; lia).
  assert (0 ≤ win / 2 ≤ win)%Z as Hhalf by (split; [apply Z.div_pos; lia|apply Z.div_le_upper_bound; lia]).
  nia.
Qed.

Section step.
Context (chunk_samples search_samples min_tail start : Z).
Context (Hchunk : (1 ≤ chunk_samples)%Z) (Hsearch : (0 ≤ search_samples)%Z) (Hstart : (0 ≤ start)%Z)
  (Hmore : (chunk_samples < len waveform - start)%Z).
Let cut := next_cut sp waveform chunk_samples search_samples min_tail start.

(** The cut makes progress, stays within the chunk limit and leaves a tail; a tail
    shorter than the minimum is never left behind. *)
Lemma next_cut_bounds :
  (start < cut ≤ start + chunk_samples)%Z ∧ (cut < len waveform)%Z ∧
  (min_tail ≤ chunk_samples → min_tail ≤ len waveform - cut)%Z.
Proof.
  unfold cut, next_cut.
  pose proof (find_split_point_bounds (Z.max (start + chunk_samples - search_samples) (start + 1)) (start + chunk_samples)
    ltac:(lia) ltac:(lia) ltac:(lia)) as Hf.
  set (c := _find_split_point _ _ _ _) in *. case_bool_decide; lia.
Qed.
End step.

(** [spans] covers [start, total) without gap or overlap. *)
Fixpoint covers_from (start total : Z) (spans : list Span) : Prop :=
  match spans with
  | [] => start = total
  | (a, b) :: spans => a = start ∧ (a < b)%Z ∧ covers_from b total spans
  end.

Lemma covers_concat spans start :
  (0 ≤ start)%Z → covers_from start (len waveform) spans →
  (start ≤ len waveform)%Z ∧ concat (map (λ s : Span, slice s.1 s.2 waveform) spans) = slice start (len waveform) waveform.
Proof.
  revert start. induction spans as [|[a b] spans IH]; intros start H0 Hc; simpl in *.
  - subst. split; [lia|]. unfold slice. by rewrite Z.sub_diag.
  - destruct Hc as (-> & Hlt & Hc). destruct (IH b ltac:(lia) Hc) as [Hle ->]. split; [lia|]. apply slice_app; lia.
Qed.

Section loop.
Context (sample_rate chunk_samples search_samples min_tail : Z) (min_tail_s : spec_float).
Context (Hchunk : (1 ≤ chunk_samples)%Z) (Hsearch : (0 ≤ search_samples)%Z)
  (Htail : float_to_int (float_mul min_tail_s (float_of_int sample_rate)) = Ok min_tail).

(** With fuel for the samples left, the loop ends. *)
Lemma split_loop_total fuel start :
  (0 ≤ start)%Z → (start < len waveform)%Z → (len waveform - start < Z.of_nat fuel)%Z →
  ∃ spans, split_loop fuel sp waveform sample_rate chunk_samples search_samples min_tail_s start
           = Some (Ok spans) ∧
    covers_from start (len waveform) spans ∧ Forall (λ s : Span, s.2 - s.1 ≤ chunk_samples)%Z spans ∧
    (min_tail ≤ chunk_samples → min_tail ≤ len waveform - start →
       ∃ s : Span, last spans = Some s ∧ min_tail ≤ s.2 - s.1)%Z.
Proof.
  revert start. induction fuel as [|fuel IH]; intros start H0 Hlt Hfuel; [lia|]. simpl.
  rewrite bool_decide_true by done. simpl. case_bool_decide as Hlast.
  - exists [(start, len waveform)]. split; [done|]. split; [done|]. split; [by apply Forall_singleton|]. eauto.
  - rewrite Htail.
    destruct (next_cut_bounds chunk_samples search_samples min_tail start Hchunk Hsearch H0 ltac:(lia)) as (Hc & Hend & Ht).
    set (cut := next_cut _ _ _ _ _ _) in *.
    destruct (IH cut ltac:(lia) Hend ltac:(lia)) as (spans & -> & Hcov & Hmax & Htl).
    exists ((start, cut) :: spans). split; [done|]. split; [split_and!; [done|lia|done]|].
    split; [apply Forall_cons; split; [simpl; lia|done]|]. intros Hmin _.
    destruct (Htl Hmin (Ht Hmin)) as (s & Hs & Hsl). exists s. split; [|done]. by rewrite last_cons, Hs.
Qed.
End loop.

Lemma covers_positive start spans total : covers_from start total spans → Forall (λ s : Span, 0 < s.2 - s.1)%Z spans.
Proof.
  revert start. induction spans as [|[a b] spans IH]; intros start; simpl; [done|].
  intros (-> & ? & ?). apply Forall_cons; split; [simpl; lia|by eapply IH].
Qed.

(** C37. [split] always returns (or raises what the conversion of its durations
    raises): its spans cover the waveform in order with no gap and no overlap, every
    one is non-empty and within the limit, and when the audio was split the last one
    is at least the minimum tail. *)
Theorem split_partitions_the_waveform sample_rate max_chunk_samples min_tail_s search min_tail :
  let limit := Z.max max_chunk_samples 1 in
  float_to_int (float_mul (search_window_s sp) (float_of_int sample_rate)) = Ok search →
  float_to_int (float_mul min_tail_s (float_of_int sample_rate)) = Ok min_tail →
  ∃ spans, split sp waveform sample_rate max_chunk_samples min_tail_s = Some (Ok spans) ∧
    covers_from 0 (len waveform) spans ∧
    concat (map (λ s : Span, slice s.1 s.2 waveform) spans) = waveform ∧
    Forall (λ s : Span, 0 < s.2 - s.1 ≤ limit)%Z spans ∧
    (min_tail ≤ limit → limit < len waveform → ∃ s : Span, last spans = Some s ∧ min_tail ≤ s.2 - s.1)%Z.
Proof.
  intros limit Hse Hmt.
  assert (∃ spans, split sp waveform sample_rate max_chunk_samples min_tail_s = Some (Ok spans) ∧
    covers_from 0 (len waveform) spans ∧ Forall (λ s : Span, s.2 - s.1 ≤ limit)%Z spans ∧
    (min_tail ≤ limit → limit < len waveform → ∃ s : Span, last spans = Some s ∧ min_tail ≤ s.2 - s.1)%Z)
    as (spans & Hs & Hcov & Hmax & Hlast).
  { unfold split. fold limit. assert (0 ≤ len waveform)%Z by (unfold len; lia). case_bool_decide as H0.
    { exists []. split; [done|]. split; [simpl; lia|]. split; [done|lia]. }
    case_bool_decide as H1.
    { exists [(0, len waveform)%Z]. split; [done|]. split; [simpl; lia|]. split; [apply Forall_singleton; simpl; lia|lia]. }
    rewrite Hse.
    destruct (split_loop_total sample_rate limit (Z.max search 0) min_tail min_tail_s ltac:(lia) ltac:(lia) Hmt
      (S (length waveform)) 0 ltac:(lia) ltac:(lia) ltac:(unfold len; lia)) as (spans & Hs & Hcov & Hmax & Hlast).
    exists spans. split_and!; try done. intros. apply Hlast; lia. }
  exists spans. split; [done|]. split; [done|]. split.
  { destruct (covers_concat spans 0 ltac:(lia) Hcov) as [_ ->]. apply slice_all. }
  split; [|done]. apply Forall_and. split; [by eapply covers_positive|done].
Qed.
End splitter.

(** ** The plan *)
Definition TARGET_SAMPLE_RATE : Z := 16000.

Record ChunkSpan := mkChunkSpan {
  cs_index : nat; cs_start_sample : Z; cs_end_sample : Z; cs_start_s : spec_float; cs_end_s : spec_float; cs_has_speech : bool }.

Record ChunkPlan (sample : Type) := mkPlan {
  cp_sample_rate : Z; cp_duration_s : spec_float; cp_spans : list ChunkSpan; cp_waveform : list sample }.
Arguments mkPlan {sample}.
Arguments cp_sample_rate {sample}.
Arguments cp_duration_s {sample}.
Arguments cp_spans {sample}.
Arguments cp_waveform {sample}.

(** [a / b] of two integers. *)
Definition true_div (a b : Z) : spec_float := float_div (float_of_int a) (float_of_int b).

Section plan.
Context {sample energy : Type} (mean_square : list sample → energy) (argmin : list energy → nat).
(** Whether the peak amplitude reaches [SILENT_CHUNK_PEAK_THRESHOLD]. *)
Context (audible : list sample → bool).

Definition chunk_span (waveform : list sample) (sample_rate : Z) (index : nat) (s : Span) : ChunkSpan :=
  mkChunkSpan index s.1 s.2 (true_div s.1 sample_rate) (true_div s.2 sample_rate) (audible (slice s.1 s.2 waveform)).

(** [plan_audio_chunks] after the decode; [Ok None] leaves the upload whole. *)
Definition plan_audio_chunks (waveform : list sample) (config : ResolvedAudioChunking) (sp : RMSSplitter) (sample_rate : Z) :
    option (res (option (ChunkPlan sample))) :=
  match chunk_samples config sample_rate with
  | Raise e => Some (Raise e)
  | Ok max_chunk_samples =>
      if bool_decide (len waveform ≤ max_chunk_samples)%Z then Some (Ok None)
      else match split mean_square argmin sp waveform sample_rate max_chunk_samples (min_tail_s config) with
           | None => None
           | Some (Raise e) => Some (Raise e)
           | Some (Ok spans) =>
               Some (Ok (Some (mkPlan sample_rate (true_div (len waveform) sample_rate)
                 (imap (chunk_span waveform sample_rate) spans) waveform)))
           end
  end.

(** What [ChunkPlan.encode] hands to the WAV encoder. *)
Definition chunk_audio (p : ChunkPlan sample) (s : ChunkSpan) : list sample :=
  slice (cs_start_sample s) (cs_end_sample s) (cp_waveform p).
End plan.

(** ** Joining the transcripts *)
Abbreviation text := (list Z).

(** [str.isspace] of one character. *)
Definition is_space (c : Z) : bool :=
  existsb (λ r : Z * Z, bool_decide (r.1 ≤ c ≤ r.2)%Z)
    [(9, 13); (28, 32); (133, 133); (160, 160); (5760, 5760); (8192, 8202); (8232, 8233); (8239, 8239); (8287, 8287); (12288, 12288)]%Z.

Fixpoint lstrip (t : text) : text :=
  match t with [] => [] | c :: t' => if is_space c then lstrip t' else t end.
Definition strip (t : text) : text := reverse (lstrip (reverse (lstrip t))).

Definition _UNSPACED_SCRIPT_RANGES : list (Z * Z) :=
  [(0x0E00, 0x0EFF); (0x1000, 0x109F); (0x1780, 0x17FF); (0x2E80, 0x303F); (0x3040, 0x30FF); (0x3400, 0x9FFF);
   (0xF900, 0xFAFF); (0xFF00, 0xFFEF); (0x20000, 0x2FA1F)]%Z.

Definition _is_spaced_script (c : Z) : bool :=
  if is_space c then false
  else negb (existsb (λ r : Z * Z, bool_decide (r.1 ≤ c ≤ r.2)%Z) _UNSPACED_SCRIPT_RANGES).

(** [joined[-1]] and [stripped[0]] when they exist. *)
Definition seam_spaced (joined stripped : text) : bool :=
  match last joined, head stripped with
  | Some a, Some b => _is_spaced_script a && _is_spaced_script b
  | _, _ => false
  end.

Definition join_transcript_parts (parts : list text) : text :=
  foldl (λ joined part,
    let stripped := strip part in
    if bool_decide (stripped = []) then joined
    else (if seam_spaced joined stripped then joined ++ [32%Z] else joined) ++ stripped) [] parts.

(** The reference: the parts that say something, each seam decided by the two
    characters that meet there. *)
Fixpoint with_seams (parts : list text) : text :=
  match parts with
  | [] => []
  | p :: parts =>
      p ++ match parts with
           | q :: _ => if seam_spaced p q then [32%Z] else []
           | [] => []
           end ++ with_seams parts
  end.

Definition spoken (parts : list text) : list text := filter (λ p, p ≠ []) (strip <$> parts).
Definition letters (t : text) : text := filter (λ c, is_space c = false) t.

Lemma letters_lstrip t : letters (lstrip t) = letters t.
Proof.
  induction t as [|c t IH]; [done|]. simpl. destruct (is_space c) eqn:E; [|done].
  unfold letters at 2. rewrite filter_cons_False by congruence. exact IH.
Qed.

Lemma letters_reverse t : letters (reverse t) = reverse (letters t).
Proof.
  induction t as [|c t IH]; [done|]. rewrite reverse_cons. unfold letters in *. rewrite filter_app, IH.
  rewrite !filter_cons. case_decide; [by rewrite reverse_cons|]. by rewrite filter_nil, app_nil_r.
Qed.

Lemma letters_strip t : letters (strip t) = letters t.
Proof. unfold strip. by rewrite letters_reverse, letters_lstrip, letters_reverse, reverse_involutive, letters_lstrip. Qed.

Lemma seam_last a b q : b ≠ [] → seam_spaced (a ++ b) q = seam_spaced b q.
Proof.
  intros Hb. unfold seam_spaced. rewrite last_app. destruct (last b) eqn:E; [done|]. by apply last_None in E.
Qed.

Lemma with_seams_snoc ps p q :
  with_seams ((ps ++ [p]) ++ [q]) = with_seams (ps ++ [p]) ++ (if seam_spaced p q then [32%Z] else []) ++ q.
Proof.
  induction ps as [|x ps IH]; simpl.
  - by rewrite !app_nil_r.
  - simpl in IH. rewrite IH. destruct ps; simpl; by rewrite <-?app_assoc.
Qed.

Lemma with_seams_last ps p q : p ≠ [] → seam_spaced (with_seams (ps ++ [p])) q = seam_spaced p q.
Proof.
  intros Hp. induction ps as [|x ps IH]; simpl; [by rewrite !app_nil_r|].
  assert (with_seams (ps ++ [p]) ≠ []) as Hn.
  { destruct ps as [|y ps]; simpl; [by rewrite !app_nil_r|]. clear IH.
    revert y. induction ps as [|z ps IH]; intros y Hy; simpl in *.
    - apply app_eq_nil in Hy as [_ Hy]. apply app_eq_nil in Hy as [_ Hy]. by rewrite !app_nil_r in Hy.
    - apply app_eq_nil in Hy as [_ Hy]. apply app_eq_nil in Hy as [_ Hy]. by apply (IH z). }
  rewrite !seam_last; [done|done|]. intros Hnil. by apply app_eq_nil in Hnil as [_ ?].
Qed.

Lemma join_spoken parts : join_transcript_parts parts = with_seams (spoken parts).
Proof.
  unfold join_transcript_parts, spoken. induction parts as [|p parts IH] using rev_ind; [done|].
  rewrite foldl_app, IH. simpl. rewrite fmap_app, filter_app. simpl.
  set (ps := filter _ (strip <$> parts)). case_bool_decide as Hp.
  - rewrite filter_cons_False by (intros H; by apply H). by rewrite filter_nil, app_nil_r.
  - rewrite filter_cons_True by done. rewrite filter_nil.
    assert (Forall (λ q : text, q ≠ []) ps) as Hall.
    { apply Forall_forall. intros q Hq. by apply list_elem_of_filter in Hq as [? _]. }
    clearbody ps. clear IH. destruct ps as [|q ps _] using rev_ind; [simpl; by rewrite ?app_nil_r|].
    apply Forall_app in Hall as [_ Hq]. apply Forall_cons in Hq as [Hq _].
    rewrite with_seams_snoc, with_seams_last by exact Hq. destruct (seam_spaced q (strip p)); by rewrite <-?app_assoc.
Qed.

Lemma with_seams_letters parts : letters (with_seams parts) = concat (map letters parts).
Proof.
  induction parts as [|p parts IH]; [done|]. cbn -[letters]. unfold letters in *. rewrite !filter_app, IH. f_equal.
  destruct parts as [|q parts]; [done|]. by destruct (seam_spaced p q).
Qed.

Lemma spoken_letters parts : concat (map letters (spoken parts)) = concat (map letters parts).
Proof.
  unfold spoken. induction parts as [|p parts IH]; [done|]. rewrite fmap_cons, filter_cons.
  case_decide as Hp; cbn [map concat]; [by rewrite IH, letters_strip|].
  rewrite IH, <-(letters_strip p), Hp. done.
Qed.

(** Joining per-chunk transcripts is the seam-by-seam reference: every part that
    says something appears stripped and in order, a space goes between two of them
    exactly when both characters at the seam are of spaced scripts, and no character
    but whitespace is added or lost. *)
Theorem join_adds_only_seam_spaces parts :
  join_transcript_parts parts = with_seams (spoken parts) ∧
  letters (join_transcript_parts parts) = concat (map letters parts).
Proof. rewrite join_spoken. split; [done|]. by rewrite with_seams_letters, spoken_letters. Qed.

(** An energy and an argmin to run the splitter with. *)
Definition ex_energy (l : list Z) : Z := foldr (λ x a, (Z.abs x + a)%Z) 0%Z l.
Fixpoint ex_argmin_from (best : nat) (least : Z) (i : nat) (l : list Z) : nat :=
  match l with
  | [] => best
  | e :: l => if bool_decide (e < least)%Z then ex_argmin_from i e (S i) l else ex_argmin_from best least (S i) l
  end.
Definition ex_argmin (l : list Z) : nat :=
  match l with [] => 0 | e :: l => ex_argmin_from 0 e 1 l end.

Lemma ex_argmin_from_lt best least i l : best < i → ex_argmin_from best least i l < i + length l.
Proof.
  revert best least i. induction l as [|e l IH]; intros best least i H; simpl; [lia|].
  case_bool_decide; [eapply Nat.lt_le_trans; [apply IH; lia|lia]|].
  eapply Nat.lt_le_trans; [apply IH; lia|lia].
Qed.

Lemma ex_argmin_lt l : l ≠ [] → ex_argmin l < length l.
Proof. destruct l as [|e l]; [done|]. intros _. simpl. apply (ex_argmin_from_lt 0 e 1 l). lia. Qed.

(** 21 samples at one per second, at most 10 per chunk, cut at the quietest pair
    within 4 samples, no tail below 3. *)
Definition ex_waveform : list Z := [5;5;5;5;5;5;5;0;0;5; 5;5;5;5;5;5;5;5;1;1;5]%Z.
Definition ex_splitter : RMSSplitter := mkSplitter (float_of_int 4) 2.

Lemma split_partitions_the_waveform_witness :
  split ex_energy ex_argmin ex_splitter ex_waveform 1 10 (float_of_int 3) = Some (Ok [(0, 7); (7, 14); (14, 21)]%Z) ∧
  Forall (λ s : Span, 0 < s.2 - s.1 ≤ 10)%Z [(0, 7); (7, 14); (14, 21)]%Z.
Proof.
  destruct (split_partitions_the_waveform ex_energy ex_argmin ex_argmin_lt ex_splitter ex_waveform ltac:(done)
    1 10 (float_of_int 3) 4 3) as (spans & Hs & _ & _ & Hf & _); [vm_compute; reflexivity..|].
  assert (split ex_energy ex_argmin ex_splitter ex_waveform 1 10 (float_of_int 3) = Some (Ok [(0, 7); (7, 14); (14, 21)]%Z)) as H
    by (vm_compute; reflexivity).
  split; [exact H|]. rewrite Hs in H. injection H as ->. exact Hf.
Defined.

(** The chunks of a plan are numbered by their place. *)
Lemma plan_indices {sample energy} (mean_square : list sample → energy) argmin audible waveform config sp sample_rate p :
  plan_audio_chunks mean_square argmin audible waveform config sp sample_rate = Some (Ok (Some p)) →
  ∀ k span, cp_spans p !! k = Some span → cs_index span = k.
Proof.
  unfold plan_audio_chunks. destruct (chunk_samples _ _) as [n|]; [|done]. case_bool_decide; [done|].
  destruct (split _ _ _ _ _ _ _) as [[spans|]|]; [|done|done]. intros [= <-] k span. simpl.
  rewrite list_lookup_imap. by destruct (spans !! k); intros [= <-].
Qed.
