(* ===== verification/TranscriptionRun.v ===== *)
(** * Transcribing the chunks of a plan

    Models [_transcribe_audio_chunks] ([src/sglang_omni/serve/transcriptions.py]) as a
    step relation: the chunk tasks under their semaphore, the engine requests they
    submit, the failure of one, the cancellation of all, and the aborts of the cleanup.
    The engine's texts are a function of request id and prompt.  The model takes from
    [Client.completion] that it returns or raises only once the engine side ended, and
    a handler is cancelled at most once. *)
From S2P Require Import Prelude TranscriptionChunking.

(** The adapter's part of the orchestration ([transcription_adapters/base.py]). *)
Record TranscriptionAdapter := mkAdapter {
  requires_ordered_chunk_decoding : bool;
  chunk_prompt : option text → option text → bool → option text;
  should_retry_chunk_without_context : text → bool;
}.

Definition base_adapter : TranscriptionAdapter := mkAdapter false (λ caller_prompt _ _, caller_prompt) (λ _, false).

(** Whisper's prompts; the repetition detector is a parameter. *)
Definition whisper_adapter (_has_sustained_repetition : text → bool) : TranscriptionAdapter :=
  mkAdapter true
    (λ caller_prompt previous_text is_first_decoded_chunk,
       if (is_first_decoded_chunk : bool) then caller_prompt else previous_text)
    _has_sustained_repetition.

(** One [run_chunk] call, by the await it stands at. *)
Inductive run :=
| RNew
| REncoding
| RSubmitting
| RLive
| REnded (outcome : res text)
| RDone (t : text)
| RFailed (e : exn)
| RCancelled.

#[export] Instance run_eq_dec : EqDecision run.
Proof. solve_decision. Defined.

(** It holds the semaphore. *)
Definition holding (r : run) : bool :=
  match r with REncoding | RSubmitting | RLive | REnded _ => true | _ => false end.
Definition finished (r : run) : bool :=
  match r with RDone _ | RFailed _ | RCancelled => true | _ => false end.

Definition holders (runs : list run) : nat := sum_list_with (λ r, Nat.b2n (holding r)) runs.

(** The ordered loop's place: at chunk [o_index], on its first try or its retry, the
    texts so far and the context. *)
Record ordered := mkOrdered {
  o_index : nat; o_retry : bool; o_run : run; o_texts : list text; o_previous : option text; o_first : bool }.

Inductive main :=
| MGather (runs : list run) (cancelled : bool)
| MOrdered (o : ordered)
| MCleaning (runs : list run) (pending : list string) (e : exn)
| MAborting (pending : list string) (e : exn)
| MReturned (texts : list text)
| MRaised (e : exn).

Record sys := mkSys {
  s_main : main;
  s_in_flight : gset string;
  s_engine : gset string;        (* requests running in the engine *)
  s_abort_failed : gset string;  (* requests whose abort raised *)
}.

Section transcribe.
Context (request_id : string) (prompt : option text) (max_concurrent : nat) (adapter : TranscriptionAdapter).
Context (condition_on_previous_text : bool) (spans : list ChunkSpan).
Context (answer : string → option text → text).

Definition chunk_request_id (index : nat) (retry : bool) : string :=
  request_id +:+ "-chunk-" +:+ pretty index +:+ (if retry then "-retry" else "").

Definition chunk_failed (index : nat) : exn := ClientError ("transcription failed for chunk " +:+ pretty index).

(** [run_chunk] over one await: the run, [in_flight] and the engine before and after.
    [free] says that the semaphore has a permit. *)
Inductive run_step (span : ChunkSpan) (retry : bool) (chunk_prompt : option text) (free : bool) :
    run → gset string → gset string → run → gset string → gset string → Prop :=
| rs_silent f g :
    cs_has_speech span = false → run_step span retry chunk_prompt free RNew f g (RDone []) f g
| rs_acquire f g :
    cs_has_speech span = true → free = true → run_step span retry chunk_prompt free RNew f g REncoding f g
| rs_encode_fails e f g :
    run_step span retry chunk_prompt free REncoding f g (RFailed e) f g
| rs_encoded f g :
    run_step span retry chunk_prompt free REncoding f g RSubmitting ({[chunk_request_id (cs_index span) retry]} ∪ f) g
| rs_submit f g :
    run_step span retry chunk_prompt free RSubmitting f g RLive f ({[chunk_request_id (cs_index span) retry]} ∪ g)
| rs_reject e f g :
    run_step span retry chunk_prompt free RSubmitting f g (REnded (Raise e)) f g
| rs_answer f g :
    run_step span retry chunk_prompt free RLive f g
      (REnded (Ok (answer (chunk_request_id (cs_index span) retry) chunk_prompt)))
      f (g ∖ {[chunk_request_id (cs_index span) retry]})
| rs_error e f g :
    run_step span retry chunk_prompt free RLive f g (REnded (Raise e)) f (g ∖ {[chunk_request_id (cs_index span) retry]})
| rs_result t f g :
    run_step span retry chunk_prompt free (REnded (Ok t)) f g (RDone t) (f ∖ {[chunk_request_id (cs_index span) retry]}) g
| rs_cancelled f g :
    run_step span retry chunk_prompt free (REnded (Raise CancelledError)) f g RCancelled f g
| rs_raise e f g :
    e ≠ CancelledError →
    run_step span retry chunk_prompt free (REnded (Raise e)) f g (RFailed (chunk_failed (cs_index span)))
      (f ∖ {[chunk_request_id (cs_index span) retry]}) g.

Definition in_order : bool := condition_on_previous_text && requires_ordered_chunk_decoding adapter.

Definition start : sys :=
  mkSys (if in_order then MOrdered (mkOrdered 0 false RNew [] None true) else MGather (replicate (length spans) RNew) false)
    ∅ ∅ ∅.

(** The prompt of the ordered loop's current try. *)
Definition ordered_prompt (o : ordered) : option text :=
  if o_retry o then None else chunk_prompt adapter prompt (o_previous o) (o_first o).

(** The loop body's end: [texts.append(text)] and the context of the next chunk. *)
Definition ordered_next (t : text) (o : ordered) : ordered :=
  mkOrdered (S (o_index o)) false RNew (o_texts o ++ [t]) (Some t) false.

Definition ordered_with_run (r : run) (o : ordered) : ordered :=
  mkOrdered (o_index o) (o_retry o) r (o_texts o) (o_previous o) (o_first o).

Definition done_text (r : run) : option text := match r with RDone t => Some t | _ => None end.

(** Engine requests may outlive the tasks that awaited them. *)
Definition detached (m : main) : bool :=
  match m with MGather _ cancelled => cancelled | MCleaning _ _ _ | MAborting _ _ => true | _ => false end.

Inductive step : sys → sys → Prop :=
(* the concurrent tasks *)
| st_task k span r r' runs f g f' g' a :
    runs !! k = Some r → spans !! k = Some span →
    run_step span false prompt (bool_decide (holders runs < max_concurrent)) r f g r' f' g' →
    step (mkSys (MGather runs false) f g a) (mkSys (MGather (<[k := r']> runs) false) f' g' a)
| st_return runs texts f g a :
    mapM done_text runs = Some texts → step (mkSys (MGather runs false) f g a) (mkSys (MReturned texts) f g a)
| st_fail k e runs cancelled f g a :
    runs !! k = Some (RFailed e) →
    step (mkSys (MGather runs cancelled) f g a) (mkSys (MCleaning runs (sort_strings (elements f)) e) f g a)
| st_task_cancelled k r runs f g a :
    runs !! k = Some r → finished r = false →
    step (mkSys (MGather runs true) f g a) (mkSys (MGather (<[k := RCancelled]> runs) true) f g a)
| st_cancelled runs cancelled f g a :
    RCancelled ∈ runs ∨ (cancelled = true ∧ Forall (λ r, finished r = true) runs) →
    step (mkSys (MGather runs cancelled) f g a) (mkSys (MCleaning runs (sort_strings (elements f)) CancelledError) f g a)
(* the ordered loop *)
| st_skip o span f g a :
    spans !! o_index o = Some span → cs_has_speech span = false → o_run o = RNew → o_retry o = false →
    step (mkSys (MOrdered o) f g a)
         (mkSys (MOrdered (mkOrdered (S (o_index o)) false RNew (o_texts o ++ [[]]) (o_previous o) (o_first o))) f g a)
| st_ordered o span r' f g f' g' a :
    spans !! o_index o = Some span → cs_has_speech span = true →
    run_step span (o_retry o) (ordered_prompt o) true (o_run o) f g r' f' g' →
    step (mkSys (MOrdered o) f g a) (mkSys (MOrdered (ordered_with_run r' o)) f' g' a)
| st_retry o t f g a :
    o_run o = RDone t → o_retry o = false → should_retry_chunk_without_context adapter t = true →
    step (mkSys (MOrdered o) f g a)
         (mkSys (MOrdered (mkOrdered (o_index o) true RNew (o_texts o) (o_previous o) (o_first o))) f g a)
| st_next o t f g a :
    o_run o = RDone t → o_retry o = true ∨ should_retry_chunk_without_context adapter t = false →
    step (mkSys (MOrdered o) f g a) (mkSys (MOrdered (ordered_next t o)) f g a)
| st_ordered_return o f g a :
    o_index o = length spans → o_run o = RNew → step (mkSys (MOrdered o) f g a) (mkSys (MReturned (o_texts o)) f g a)
| st_ordered_fail o e f g a :
    o_run o = RFailed e →
    step (mkSys (MOrdered o) f g a) (mkSys (MAborting (sort_strings (elements f)) e) f g a)
| st_ordered_cancelled o f g a :
    o_run o = RCancelled →
    step (mkSys (MOrdered o) f g a) (mkSys (MAborting (sort_strings (elements f)) CancelledError) f g a)
(* the cleanup *)
| st_stop_task k r runs pending e f g a :
    runs !! k = Some r → finished r = false →
    step (mkSys (MCleaning runs pending e) f g a) (mkSys (MCleaning (<[k := RCancelled]> runs) pending e) f g a)
| st_engine_ends x m f g a :
    detached m = true → x ∈ g → step (mkSys m f g a) (mkSys m f (g ∖ {[x]}) a)
| st_stopped runs pending e f g a :
    Forall (λ r, finished r = true) runs →
    step (mkSys (MCleaning runs pending e) f g a) (mkSys (MAborting pending e) f g a)
| st_abort x pending e f g a :
    step (mkSys (MAborting (x :: pending) e) f g a) (mkSys (MAborting pending e) f (g ∖ {[x]}) a)
| st_abort_fails x pending e f g a :
    step (mkSys (MAborting (x :: pending) e) f g a) (mkSys (MAborting pending e) f g ({[x]} ∪ a))
| st_raise e f g a :
    step (mkSys (MAborting [] e) f g a) (mkSys (MRaised e) f g a).

(** The handler's task is cancelled, by a disconnect: [gather] passes it on to its
    tasks, the ordered loop raises where it stands. *)
Inductive interrupt : sys → sys → Prop :=
| it_gather runs f g a : interrupt (mkSys (MGather runs false) f g a) (mkSys (MGather runs true) f g a)
| it_ordered o f g a :
    interrupt (mkSys (MOrdered o) f g a) (mkSys (MAborting (sort_strings (elements f)) CancelledError) f g a).

Definition trans (s s' : sys) : Prop := step s s' ∨ interrupt s s'.

(** ** Arithmetic on the runs *)
Definition weight (r : run) : nat :=
  match r with RNew => 6 | REncoding => 5 | RSubmitting => 4 | RLive => 3 | REnded _ => 2 | _ => 0 end.

Fixpoint live_ids (k : nat) (runs : list run) : list string :=
  match runs with
  | [] => []
  | RLive :: runs => chunk_request_id k false :: live_ids (S k) runs
  | _ :: runs => live_ids (S k) runs
  end.

(** ** The texts the plan asks for *)
Definition independent_text (span : ChunkSpan) : text :=
  if cs_has_speech span then answer (chunk_request_id (cs_index span) false) prompt else [].

Fixpoint ordered_texts (spans : list ChunkSpan) (previous : option text) (first : bool) : list text :=
  match spans with
  | [] => []
  | span :: spans =>
      if cs_has_speech span then
        let t := answer (chunk_request_id (cs_index span) false) (chunk_prompt adapter prompt previous first) in
        let t := if should_retry_chunk_without_context adapter t
                 then answer (chunk_request_id (cs_index span) true) None else t in
        t :: ordered_texts spans (Some t) false
      else [] :: ordered_texts spans previous first
  end.

Definition chunk_texts : list text :=
  if in_order then ordered_texts spans None true else independent_text <$> spans.

(** ** The invariant *)
Context (Hindex : ∀ k span, spans !! k = Some span → cs_index span = k) (Hmax : 1 ≤ max_concurrent).

(** What a run's state says: its request is registered while it lasts, and a text
    it holds is the engine's. *)
Definition run_ok (span : ChunkSpan) (retry : bool) (p : option text) (f : gset string) (r : run) : Prop :=
  match r with RSubmitting | RLive | REnded _ => chunk_request_id (cs_index span) retry ∈ f | _ => True end ∧
  match r with
  | REnded (Ok t) => cs_has_speech span = true ∧ t = answer (chunk_request_id (cs_index span) retry) p
  | RDone t => t = if cs_has_speech span then answer (chunk_request_id (cs_index span) retry) p else []
  | RNew | RFailed _ | RCancelled => True
  | _ => cs_has_speech span = true
  end.

Definition live_only (id : string) (r : run) (g : gset string) : Prop :=
  g ⊆ match r with RLive => {[id]} | _ => ∅ end.

Record gather_inv (runs : list run) (cancelled : bool) (f g : gset string) : Prop := {
  gi_mode : in_order = false;
  gi_length : length runs = length spans;
  gi_runs : ∀ k r span, runs !! k = Some r → spans !! k = Some span → run_ok span false prompt f r;
  gi_flight : g ⊆ f;
  gi_live : cancelled = false → ∀ x, x ∈ g → ∃ k, runs !! k = Some RLive ∧ x = chunk_request_id k false;
  gi_holders : cancelled = false → holders runs ≤ max_concurrent;
}.

Record ordered_inv (o : ordered) (f g : gset string) : Prop := {
  oi_mode : in_order = true;
  oi_index : o_index o ≤ length spans;
  oi_inside : o_run o ≠ RNew ∨ o_retry o = true → ∃ span, spans !! o_index o = Some span ∧ cs_has_speech span = true ∧
    run_ok span (o_retry o) (ordered_prompt o) f (o_run o) ∧
    (o_retry o = true → should_retry_chunk_without_context adapter
       (answer (chunk_request_id (o_index o) false) (chunk_prompt adapter prompt (o_previous o) (o_first o))) = true);
  oi_flight : g ⊆ f;
  oi_live : live_only (chunk_request_id (o_index o) (o_retry o)) (o_run o) g;
  oi_texts : o_texts o ++ ordered_texts (drop (o_index o) spans) (o_previous o) (o_first o) = ordered_texts spans None true;
}.

Definition run_inv (s : sys) : Prop :=
  size (s_engine s) ≤ max_concurrent ∧
  match s_main s with
  | MGather runs cancelled => gather_inv runs cancelled (s_in_flight s) (s_engine s)
  | MOrdered o => ordered_inv o (s_in_flight s) (s_engine s)
  | MCleaning _ pending _ | MAborting pending _ => s_engine s ⊆ list_to_set pending ∪ s_abort_failed s
  | MReturned texts => texts = chunk_texts ∧ s_engine s = ∅
  | MRaised _ => s_engine s ⊆ s_abort_failed s
  end.

(** ** Lemmas *)
Lemma sum_insert {A} (h : A → nat) k x y (l : list A) :
  l !! k = Some x → sum_list_with h (<[k := y]> l) + h x = sum_list_with h l + h y.
Proof.
  intros Hk. rewrite <-(take_drop_middle l k x Hk) at 2. rewrite insert_take_drop by (by eapply lookup_lt_Some).
  rewrite !sum_list_with_app. simpl. lia.
Qed.

Lemma live_ids_length k runs : length (live_ids k runs) ≤ holders runs.
Proof.
  revert k. induction runs as [|r runs IH]; intros k; simpl; [done|].
  unfold holders in *. simpl. specialize (IH (S k)). destruct r; simpl in *; lia.
Qed.

Lemma elem_of_live_ids j k runs : runs !! j = Some RLive → chunk_request_id (k + j) false ∈ live_ids k runs.
Proof.
  revert j k. induction runs as [|r runs IH]; intros j k; [done|]. destruct j as [|j]; simpl.
  - intros [= ->]. rewrite Nat.add_0_r. by left.
  - intros Hj. rewrite Nat.add_succ_r. specialize (IH j (S k) Hj). destruct r; try done. by right.
Qed.

Lemma live_size runs (g : gset string) :
  (∀ x, x ∈ g → ∃ k, runs !! k = Some RLive ∧ x = chunk_request_id k false) → size g ≤ holders runs.
Proof.
  intros Hg. etrans; [|apply (live_ids_length 0)]. etrans; [|apply size_list_to_set_le]. apply subseteq_size.
  intros x Hx. destruct (Hg x Hx) as (k & Hk & ->). apply elem_of_list_to_set. by apply (elem_of_live_ids k 0).
Qed.

Lemma chunk_request_id_inj j k : chunk_request_id j false = chunk_request_id k false → j = k.
Proof.
  unfold chunk_request_id. intros H. apply (inj (String.append _)) in H. apply (inj (String.append _)) in H.
  assert (∀ s, s +:+ "" = s) as Hnil by (intros s; induction s as [|c s IH]; [done|]; change (String c (s +:+ "") = String c s); by f_equal).
  rewrite !Hnil in H. by apply (inj pretty) in H.
Qed.

Lemma run_step_weight span retry p free r f g r' f' g' :
  run_step span retry p free r f g r' f' g' → 2 * weight r' + size g' < 2 * weight r + size g.
Proof.
  assert (∀ (X : gset string) x, size (X ∖ {[x]}) ≤ size X) as Hd.
  { intros. apply subseteq_size, subseteq_difference_l. done. }
  assert (∀ (X : gset string) x, size ({[x]} ∪ X) ≤ S (size X)) as Hu.
  { intros. rewrite size_union_alt, size_singleton. specialize (Hd X x). lia. }
  intros []; simpl; try lia;
    match goal with
    | |- context [size ({[?x]} ∪ ?X)] => specialize (Hu X x); lia
    | |- context [size (?X ∖ {[?x]})] => specialize (Hd X x); lia
    end.
Qed.

(** The run's own part of the invariant. *)
Lemma run_step_ok span retry p free r f g r' f' g' :
  run_step span retry p free r f g r' f' g' → run_ok span retry p f r → run_ok span retry p f' r'.
Proof.
  intros [] [H1 H2]; split; simpl in *; try done; try set_solver.
  - by rewrite H.
  - destruct H2 as [-> ->]. done.
Qed.

(** What it does to [in_flight] and the engine: only its own request moves. *)
Lemma run_step_frame span retry p free r f g r' f' g' (id := chunk_request_id (cs_index span) retry) :
  run_step span retry p free r f g r' f' g' → run_ok span retry p f r → g ⊆ f → (id ∈ g → r = RLive) →
  g' ⊆ f' ∧ (∀ x, x ≠ id → (x ∈ f' ↔ x ∈ f) ∧ (x ∈ g' ↔ x ∈ g)) ∧ (id ∈ g' → r' = RLive).
Proof.
  intros Hst [H1 H2] Hgf Hlive. subst id. destruct Hst; simpl in *; split_and!; try set_solver.
Qed.

Lemma gather_task k span r r' runs f g f' g' :
  runs !! k = Some r → spans !! k = Some span →
  run_step span false prompt (bool_decide (holders runs < max_concurrent)) r f g r' f' g' →
  gather_inv runs false f g → gather_inv (<[k := r']> runs) false f' g'.
Proof.
  intros Hk Hspan Hst [Hmode Hlen Hruns Hgf Hlive Hhold]. specialize (Hlive eq_refl). specialize (Hhold eq_refl).
  pose proof (Hindex k span Hspan) as Hi. pose proof (Hruns k r span Hk Hspan) as Hok.
  destruct (run_step_frame _ _ _ _ _ _ _ _ _ _ Hst Hok Hgf) as (Hgf' & Hframe & Hown).
  { intros Hin. destruct (Hlive _ Hin) as (k' & Hk' & Heq). rewrite Hi in Heq.
    apply chunk_request_id_inj in Heq as <-. congruence. }
  rewrite Hi in Hframe, Hown. split; [done|by rewrite length_insert| |done| |].
  - intros j rj sj Hj Hsj. destruct (decide (j = k)) as [->|Hne].
    + rewrite list_lookup_insert_eq in Hj by (by eapply lookup_lt_Some). simplify_eq. by eapply run_step_ok.
    + rewrite list_lookup_insert_ne in Hj by done. destruct (Hruns j rj sj Hj Hsj) as [Hf Ht].
      split; [|done]. rewrite (Hindex j sj Hsj) in *.
      assert (chunk_request_id j false ≠ chunk_request_id k false) as Hid by (by intros ?%chunk_request_id_inj).
      destruct rj; try done; by apply (Hframe _ Hid).
  - intros _ x Hx. destruct (decide (x = chunk_request_id k false)) as [->|Hne].
    + exists k. split; [|done]. rewrite list_lookup_insert_eq by (by eapply lookup_lt_Some). by rewrite Hown.
    + apply Hframe in Hx; [|done]. destruct (Hlive x Hx) as (k' & Hk' & ->). exists k'. split; [|done].
      rewrite list_lookup_insert_ne; [done|]. by intros ->.
  - intros _. pose proof (sum_insert (λ r, Nat.b2n (holding r)) k r r' runs Hk) as Hs. unfold holders in *.
    destruct Hst; simpl in Hs; try lia. apply bool_decide_eq_true in H0. lia.
Qed.

Lemma gather_stop k runs f g :
  gather_inv runs true f g → gather_inv (<[k := RCancelled]> runs) true f g.
Proof.
  intros [Hmode Hlen Hruns Hgf Hlive Hhold]. split; try done; [by rewrite length_insert|].
  intros j rj sj Hj Hsj. destruct (decide (j = k)) as [->|Hne].
  - destruct (decide (k < length runs)) as [Hlt|Hge].
    + rewrite list_lookup_insert_eq in Hj by done. by simplify_eq.
    + rewrite list_insert_ge in Hj by lia. by eapply Hruns.
  - rewrite list_lookup_insert_ne in Hj by done. by eapply Hruns.
Qed.

Lemma gather_size runs f g : gather_inv runs false f g → size g ≤ max_concurrent.
Proof. intros [_ _ _ _ Hlive Hhold]. etrans; [apply live_size, Hlive, eq_refl|by apply Hhold]. Qed.

Lemma gather_returns runs f g texts :
  gather_inv runs false f g → mapM done_text runs = Some texts → texts = chunk_texts ∧ g = ∅.
Proof.
  intros [Hmode Hlen Hruns Hgf Hlive Hhold] Hall. apply mapM_Some in Hall. unfold chunk_texts. rewrite Hmode. split.
  - apply list_eq. intros k. rewrite list_lookup_fmap. destruct (spans !! k) as [span|] eqn:Hs; simpl.
    + destruct (lookup_lt_is_Some_2 runs k) as [r Hr]; [rewrite Hlen; by eapply lookup_lt_Some|].
      destruct (Forall2_lookup_l _ _ _ _ _ Hall Hr) as (t & Ht & Hd). rewrite Ht. f_equal.
      unfold done_text in Hd. destruct r; simplify_eq. destruct (Hruns k _ span Hr Hs) as [_ ->]. done.
    + apply lookup_ge_None in Hs. apply lookup_ge_None. rewrite <-(Forall2_length _ _ _ Hall). lia.
  - apply set_eq. intros x. split; [|set_solver]. intros Hx. destruct (Hlive eq_refl x Hx) as (k & Hk & _).
    destruct (Forall2_lookup_l _ _ _ _ _ Hall Hk) as (t & _ & Hd). done.
Qed.

Lemma pending_covers (f g a : gset string) : g ⊆ f → g ⊆ list_to_set (sort_strings (elements f)) ∪ a.
Proof.
  intros Hgf x Hx. apply elem_of_union. left. apply elem_of_list_to_set, elem_of_sort_strings, elem_of_elements. by apply Hgf.
Qed.

(** The ordered loop. *)
Lemma ordered_texts_at k span previous first :
  spans !! k = Some span →
  ordered_texts (drop k spans) previous first =
  if cs_has_speech span then
    let t := answer (chunk_request_id k false) (chunk_prompt adapter prompt previous first) in
    let t := if should_retry_chunk_without_context adapter t then answer (chunk_request_id k true) None else t in
    t :: ordered_texts (drop (S k) spans) (Some t) false
  else [] :: ordered_texts (drop (S k) spans) previous first.
Proof. intros Hk. rewrite (drop_S _ _ _ Hk). simpl. by rewrite (Hindex k span Hk). Qed.

Lemma ordered_task o span r' f g f' g' :
  spans !! o_index o = Some span → cs_has_speech span = true →
  run_step span (o_retry o) (ordered_prompt o) true (o_run o) f g r' f' g' →
  ordered_inv o f g → ordered_inv (ordered_with_run r' o) f' g'.
Proof.
  intros Hs Hsp Hst [Hmode Hidx Hin Hgf Hlive Htexts]. pose proof (Hindex _ _ Hs) as Hi.
  assert (run_ok span (o_retry o) (ordered_prompt o) f (o_run o) ∧
    (o_retry o = true → should_retry_chunk_without_context adapter
       (answer (chunk_request_id (o_index o) false) (chunk_prompt adapter prompt (o_previous o) (o_first o))) = true)) as [Hok Hre].
  { destruct (decide (o_run o ≠ RNew ∨ o_retry o = true)) as [H|H].
    - destruct (Hin H) as (span' & Hs' & _ & Hok & Hre). by simplify_eq.
    - assert (o_run o = RNew) as -> by (destruct (decide (o_run o = RNew)); [done|exfalso; tauto]).
      split; [done|]. intros Hr. exfalso. tauto. }
  destruct (run_step_frame _ _ _ _ _ _ _ _ _ _ Hst Hok Hgf) as (Hgf' & Hframe & Hown).
  { intros Hx. rewrite Hi in Hx. apply Hlive in Hx. destruct (o_run o); set_solver. }
  split; simpl; try done.
  - intros _. exists span. split_and!; try done. by eapply run_step_ok.
  - intros x Hx. rewrite Hi in *. destruct (decide (x = chunk_request_id (o_index o) (o_retry o))) as [->|Hne].
    + rewrite (Hown Hx). set_solver.
    + apply Hframe in Hx; [|done]. apply Hlive in Hx. destruct (o_run o); set_solver.
Qed.

(** At the end of a try: the span, the engine's text, and nothing running. *)
Lemma ordered_done o t f g :
  o_run o = RDone t → ordered_inv o f g → ∃ span, spans !! o_index o = Some span ∧ cs_has_speech span = true ∧
    t = answer (chunk_request_id (o_index o) (o_retry o)) (ordered_prompt o) ∧ g = ∅.
Proof.
  intros Hr [Hmode Hidx Hin Hgf Hlive Htexts]. rewrite Hr in *.
  destruct (Hin ltac:(by left)) as (span & Hs & Hsp & [_ Ht] & _). exists span. rewrite Hsp, (Hindex _ _ Hs) in Ht.
  split_and!; try done. apply set_eq. intros x. split; [|set_solver]. intros Hx. by apply Hlive in Hx.
Qed.

Lemma ordered_retry o t f g :
  o_run o = RDone t → o_retry o = false → should_retry_chunk_without_context adapter t = true →
  ordered_inv o f g → ordered_inv (mkOrdered (o_index o) true RNew (o_texts o) (o_previous o) (o_first o)) f g.
Proof.
  intros Hr Hre Hsh Hinv. destruct (ordered_done o t f g Hr Hinv) as (span & Hs & Hsp & -> & ->).
  destruct Hinv as [Hmode Hidx Hin Hgf Hlive Htexts]. split; simpl; try done.
  intros _. exists span. split_and!; try done. intros _. unfold ordered_prompt in Hsh. by rewrite Hre in Hsh.
Qed.

Lemma ordered_continue o t f g :
  o_run o = RDone t → o_retry o = true ∨ should_retry_chunk_without_context adapter t = false →
  ordered_inv o f g → ordered_inv (ordered_next t o) f g.
Proof.
  intros Hr Hor Hinv. destruct (ordered_done o t f g Hr Hinv) as (span & Hs & Hsp & -> & ->).
  destruct Hinv as [Hmode Hidx Hin Hgf Hlive Htexts].
  destruct (Hin ltac:(left; by rewrite Hr)) as (_ & _ & _ & _ & Hre). split; simpl; try done.
  - apply lookup_lt_Some in Hs. lia.
  - by intros [].
  - rewrite <-Htexts, (ordered_texts_at _ _ _ _ Hs), Hsp, <-app_assoc. simpl. f_equal.
    unfold ordered_prompt in *. destruct (o_retry o); [by rewrite Hre|]. destruct Hor as [|Hor]; [done|]. by rewrite Hor.
Qed.

Lemma ordered_skip o span f g :
  spans !! o_index o = Some span → cs_has_speech span = false → o_run o = RNew → o_retry o = false →
  ordered_inv o f g → ordered_inv (mkOrdered (S (o_index o)) false RNew (o_texts o ++ [[]]) (o_previous o) (o_first o)) f g.
Proof.
  intros Hs Hsp Hr Hre [Hmode Hidx Hin Hgf Hlive Htexts]. split; simpl; try done.
  - apply lookup_lt_Some in Hs. lia.
  - by intros [].
  - by rewrite Hr in Hlive.
  - rewrite <-Htexts, (ordered_texts_at _ _ _ _ Hs), Hsp, <-app_assoc. done.
Qed.

Lemma ordered_size o f g : ordered_inv o f g → size g ≤ max_concurrent.
Proof.
  intros [_ _ _ _ Hlive _]. etrans; [|exact Hmax].
  assert (g ⊆ {[chunk_request_id (o_index o) (o_retry o)]}) as Hg.
  { unfold live_only in Hlive. intros x Hx. apply Hlive in Hx. destruct (o_run o); set_solver. }
  apply subseteq_size in Hg. by rewrite size_singleton in Hg.
Qed.

Lemma run_start_inv : run_inv start.
Proof.
  unfold run_inv, start. split; [change (0 ≤ max_concurrent); lia|]. simpl. destruct in_order eqn:Hm; split; simpl; try done.
  - lia.
  - by intros [].
  - by rewrite length_replicate.
  - intros k r span Hr _. by apply lookup_replicate in Hr as [-> _].
  - intros _. unfold holders. induction (length spans); simpl; lia.
Qed.

Lemma run_steps_inv s s' : step s s' → run_inv s → run_inv s'.
Proof.
  assert (∀ (X : gset string) x, size X ≤ max_concurrent → size (X ∖ {[x]}) ≤ max_concurrent) as Hd.
  { intros X x HX. etrans; [|exact HX]. apply subseteq_size, subseteq_difference_l. done. }
  unfold run_inv. intros [k span r r' runs f g f' g' a Hk Hs Hst|runs texts f g a Ht|k e runs c f g a Hk
    |k r runs f g a Hk Hf|runs c f g a Hc|o span f g a Hs Hsp Hr Hre|o span r' f g f' g' a Hs Hsp Hst|o t f g a Hr Hre Hsh
    |o t f g a Hr Hor|o f g a Hi Hr|o e f g a Hr|o f g a Hr|k r runs pend e f g a Hk Hf|x m f g a Hm Hx|runs pend e f g a Hf
    |x pend e f g a|x pend e f g a|e f g a]; simpl; intros [Hsz Hinv].
  - assert (gather_inv (<[k:=r']> runs) false f' g') as H by by eapply gather_task. split; [by eapply gather_size|done].
  - split; [done|]. by eapply gather_returns.
  - split; [done|]. by apply pending_covers, Hinv.
  - split; [done|]. by apply gather_stop.
  - split; [done|]. by apply pending_covers, Hinv.
  - split; [done|]. by eapply ordered_skip.
  - assert (ordered_inv (ordered_with_run r' o) f' g') as H by by eapply ordered_task. split; [by eapply ordered_size|done].
  - split; [done|]. by eapply ordered_retry.
  - split; [done|]. by eapply ordered_continue.
  - split; [done|]. destruct Hinv as [Hmode Hidx Hin Hgf Hlive Htexts]. rewrite Hr in Hlive.
    unfold chunk_texts. rewrite Hmode, <-Htexts, Hi, drop_all. simpl. split; [by rewrite app_nil_r|].
    apply set_eq. intros y. split; [|set_solver]. intros Hy. by apply Hlive in Hy.
  - split; [done|]. by apply pending_covers, Hinv.
  - split; [done|]. by apply pending_covers, Hinv.
  - done.
  - split; [by apply Hd|]. destruct m as [runs c|o|runs pend e|pend e|texts|e]; simpl in *; try done; [|set_solver..].
    subst c. destruct Hinv. split; try done. set_solver.
  - done.
  - split; [by apply Hd|]. set_solver.
  - split; [done|]. set_solver.
  - split; [done|]. set_solver.
Qed.

Lemma interrupt_inv s s' : interrupt s s' → run_inv s → run_inv s'.
Proof.
  unfold run_inv. intros [runs f g a|o f g a]; simpl; intros [Hsz Hinv]; (split; [done|]).
  - by destruct Hinv; split.
  - by apply pending_covers, Hinv.
Qed.

Lemma trans_inv s s' : trans s s' → run_inv s → run_inv s'.
Proof. intros []; eauto using run_steps_inv, interrupt_inv. Qed.

Lemma run_reachable_inv s : rtc trans start s → run_inv s.
Proof. pose proof run_start_inv as H. induction 1; [done|]. eauto using trans_inv. Qed.

(** C36. However the chunk tasks interleave: at most [max_concurrent] requests run in
    the engine at any time; when texts are returned they are the engine's, in span
    order, silent chunks empty (in ordered mode each under the context the previous
    chunk left, or its retry's), and no request is left running; when the call fails
    or is cancelled, every request still running is one whose abort raised. *)
Theorem chunks_transcribed_or_aborted s :
  rtc trans start s →
  size (s_engine s) ≤ max_concurrent ∧
  match s_main s with
  | MReturned texts => texts = chunk_texts ∧ s_engine s = ∅
  | MRaised _ => s_engine s ⊆ s_abort_failed s
  | _ => True
  end.
Proof. intros [Hsz Hinv]%run_reachable_inv. split; [done|]. by destruct (s_main s). Qed.

(** ** Termination *)
Definition total_weight (runs : list run) : nat := sum_list_with weight runs.

(** The phase, and what is left to do in it. *)
Definition measure (s : sys) : nat * nat :=
  match s_main s with
  | MGather runs cancelled => (3, 2 * total_weight runs + size (s_engine s) + (if cancelled then 0 else 1))
  | MOrdered o => (3, 40 * (length spans - o_index o) + (if o_retry o then 0 else 20) + 2 * weight (o_run o) + size (s_engine s))
  | MCleaning runs _ _ => (2, 2 * total_weight runs + size (s_engine s))
  | MAborting pending _ => (1, length pending + size (s_engine s))
  | MReturned _ | MRaised _ => (0, 0)
  end.

Definition smaller (x y : nat * nat) : Prop := x.1 < y.1 ∨ (x.1 = y.1 ∧ x.2 < y.2).

Lemma smaller_wf : well_founded smaller.
Proof.
  intros [a b]. revert b. induction a as [a IHa] using lt_wf_ind. intros b.
  induction b as [b IHb] using lt_wf_ind. constructor. intros [c d] [H|[H1 H2]]; simpl in *; [by apply IHa|]. subst. by apply IHb.
Qed.

Lemma remove_smaller (X : gset string) x : size (X ∖ {[x]}) ≤ size X ∧ (x ∈ X → size (X ∖ {[x]}) < size X).
Proof.
  split; [apply subseteq_size, subseteq_difference_l; done|]. intros Hx. apply subset_size.
  split; [by apply subseteq_difference_l|]. intros H. specialize (H x Hx). set_solver.
Qed.

Lemma weight_cancelled r : finished r = false → 0 < weight r.
Proof. destruct r; simpl; try done; lia. Qed.

Lemma step_measure s s' : run_inv s → step s s' → smaller (measure s') (measure s).
Proof.
  unfold run_inv, measure, smaller. intros [_ Hinv] Hst.
  destruct Hst as [k span r r' runs f g f' g' a Hk Hs Hst|runs texts f g a Ht|k e runs c f g a Hk
    |k r runs f g a Hk Hf|runs c f g a Hc|o span f g a Hs Hsp Hr Hre|o span r' f g f' g' a Hs Hsp Hst|o t f g a Hr Hre Hsh
    |o t f g a Hr Hor|o f g a Hi Hr|o e f g a Hr|o f g a Hr|k r runs pend e f g a Hk Hf|x m f g a Hm Hx|runs pend e f g a Hf
    |x pend e f g a|x pend e f g a|e f g a]; simpl in *; try (left; lia);
    try (right; split; [lia|]).
  - apply run_step_weight in Hst. pose proof (sum_insert weight k r r' runs Hk). unfold total_weight. lia.
  - pose proof (sum_insert weight k r RCancelled runs Hk). apply weight_cancelled in Hf. unfold total_weight. simpl in *. lia.
  - apply lookup_lt_Some in Hs. rewrite Hr, Hre. simpl. lia.
  - apply run_step_weight in Hst. lia.
  - rewrite Hr, Hre. simpl. lia.
  - destruct (ordered_done o t f g Hr Hinv) as (span & Hs & _). apply lookup_lt_Some in Hs. rewrite Hr. simpl.
    destruct (o_retry o); lia.
  - pose proof (sum_insert weight k r RCancelled runs Hk). apply weight_cancelled in Hf. unfold total_weight. simpl in *. lia.
  - destruct (remove_smaller g x) as [_ H]. specialize (H Hx). destruct m; simpl in *; try done; right; split; simpl; lia.
  - destruct (remove_smaller g x) as [H _]. lia.
  - lia.
Qed.

Definition final (s : sys) : Prop := match s_main s with MReturned _ | MRaised _ => True | _ => False end.

Lemma interrupt_measure s s' : interrupt s s' → smaller (measure s') (measure s).
Proof. unfold measure, smaller. intros []; simpl; lia. Qed.

Lemma trans_sn s : run_inv s → sn trans s.
Proof.
  remember (measure s) as m eqn:Hm. revert s Hm. induction m as [m IH] using (well_founded_induction smaller_wf).
  intros s -> Hs. constructor. intros s' Hst. eapply IH; [|done|by eapply trans_inv].
  destruct Hst; [by apply step_measure|by apply interrupt_measure].
Qed.

(** ** Progress *)
Lemma not_all_finished runs : ¬ Forall (λ r, finished r = true) runs → ∃ k r, runs !! k = Some r ∧ finished r = false.
Proof.
  intros H. apply not_Forall_Exists in H; [|solve_decision]. apply Exists_exists in H as (r & [k Hk]%list_elem_of_lookup & Hr).
  exists k, r. split; [done|]. by apply not_true_iff_false.
Qed.

(** A run that holds the semaphore, or is silent, or finds a permit, can move. *)
Lemma run_moves span retry p free r f g :
  finished r = false → holding r = true ∨ cs_has_speech span = false ∨ free = true →
  ∃ r' f' g', run_step span retry p free r f g r' f' g'.
Proof.
  intros Hf Hor. destruct r as [| | | |out| | |]; try done.
  - destruct (cs_has_speech span) eqn:Hs; [|by do 3 eexists; apply rs_silent].
    destruct Hor as [|[|]]; try done. by do 3 eexists; apply rs_acquire.
  - do 3 eexists. apply rs_encoded.
  - do 3 eexists. apply rs_submit.
  - do 3 eexists. apply rs_answer.
  - destruct out as [t|e]; [do 3 eexists; apply rs_result|]. destruct (decide (e = CancelledError)) as [->|].
    + do 3 eexists. apply rs_cancelled.
    + do 3 eexists. by apply rs_raise.
Qed.

Lemma some_holder runs : 1 ≤ holders runs → ∃ k r, runs !! k = Some r ∧ holding r = true.
Proof.
  unfold holders. induction runs as [|r runs IH]; simpl; [lia|]. intros H. destruct (holding r) eqn:Hr.
  - by exists 0, r.
  - destruct IH as (k & r' & ? & ?); [simpl in H; lia|]. by exists (S k), r'.
Qed.

Lemma finished_outcome runs :
  Forall (λ r, finished r = true) runs →
  (∃ texts, mapM done_text runs = Some texts) ∨ (∃ k e, runs !! k = Some (RFailed e)) ∨ RCancelled ∈ runs.
Proof.
  induction 1 as [|r runs Hr _ IH]; [left; by exists []|]. destruct r; try done.
  - destruct IH as [[texts IH]|[(k & e & ?)|?]]; [left|right; left|right; right].
    + exists (t :: texts). simpl. by rewrite IH.
    + by exists (S k), e.
    + by right.
  - right. left. by exists 0, e.
  - right. right. by left.
Qed.

Lemma gather_progress runs c f g a : gather_inv runs c f g → ∃ s', step (mkSys (MGather runs c) f g a) s'.
Proof.
  intros [Hmode Hlen Hruns Hgf Hlive Hhold]. destruct (decide (Forall (λ r, finished r = true) runs)) as [Hall|Hall].
  - destruct (finished_outcome runs Hall) as [[texts Ht]|[(k & e & Hk)|Hc]].
    + destruct c; [eexists; apply st_cancelled; by right|eexists; by apply st_return].
    + eexists. by eapply st_fail.
    + eexists. apply st_cancelled. by left.
  - destruct (not_all_finished runs Hall) as (k & r & Hk & Hf). destruct c; [eexists; by eapply st_task_cancelled|].
    assert (∃ j rj span, runs !! j = Some rj ∧ spans !! j = Some span ∧ finished rj = false ∧
      (holding rj = true ∨ bool_decide (holders runs < max_concurrent) = true)) as (j & rj & span & Hj & Hs & Hfj & Hor).
    { assert (∀ j rj, runs !! j = Some rj → is_Some (spans !! j)) as Hsp.
      { intros j rj Hj%lookup_lt_Some. apply lookup_lt_is_Some. lia. }
      destruct (decide (holders runs < max_concurrent)) as [Hfree|Hfull].
      - destruct (Hsp k r Hk) as [span Hs]. exists k, r, span. split_and!; try done. right. by apply bool_decide_eq_true.
      - destruct (some_holder runs) as (j & rj & Hj & Hh); [lia|]. destruct (Hsp j rj Hj) as [span Hs].
        exists j, rj, span. split_and!; try done; [by destruct rj|by left]. }
    destruct (run_moves span false prompt (bool_decide (holders runs < max_concurrent)) rj f g Hfj) as (r' & f' & g' & Hst); [tauto|].
    eexists. by eapply st_task.
Qed.

Lemma ordered_progress o f g a : ordered_inv o f g → ∃ s', step (mkSys (MOrdered o) f g a) s'.
Proof.
  intros [Hmode Hidx Hin Hgf Hlive Htexts]. destruct (decide (o_run o ≠ RNew ∨ o_retry o = true)) as [H|H].
  - destruct (Hin H) as (span & Hs & Hsp & _). destruct (finished (o_run o)) eqn:Hf.
    + destruct (o_run o) as [| | | | |t|e|] eqn:Hr; try done.
      * destruct (o_retry o) eqn:Hre; [eexists; eapply st_next; [done|by left]|].
        destruct (should_retry_chunk_without_context adapter t) eqn:Hsh.
        -- eexists. by eapply st_retry.
        -- eexists. eapply st_next; [done|by right].
      * eexists. by eapply st_ordered_fail.
      * eexists. by eapply st_ordered_cancelled.
    + destruct (run_moves span (o_retry o) (ordered_prompt o) true (o_run o) f g Hf) as (r' & f' & g' & Hst); [tauto|].
      eexists. by eapply st_ordered.
  - assert (o_run o = RNew) as Hr by (destruct (decide (o_run o = RNew)); [done|tauto]).
    assert (o_retry o = false) as Hre by (apply not_true_iff_false; tauto).
    destruct (spans !! o_index o) as [span|] eqn:Hs.
    + destruct (cs_has_speech span) eqn:Hsp; [|eexists; by eapply st_skip].
      eexists. eapply st_ordered; [done|done|]. rewrite Hr, Hre. by apply rs_acquire.
    + eexists. apply st_ordered_return; [|done]. apply lookup_ge_None in Hs. lia.
Qed.

(** A transcription always ends: there is no infinite run, whether or not the
    handler is cancelled, and a run that has neither returned nor raised can go on
    without being cancelled, so the semaphore never deadlocks and the cleanup
    finishes. *)
Theorem transcription_terminates :
  sn trans start ∧ ∀ s, rtc trans start s → final s ∨ ∃ s', step s s'.
Proof.
  split; [apply trans_sn, run_start_inv|]. intros [m f g a] Hs%run_reachable_inv. destruct Hs as [_ Hinv]. simpl in Hinv.
  destruct m as [runs c|o|runs pend e|pend e|texts|e]; try (by left); right.
  - by apply gather_progress.
  - by apply ordered_progress.
  - destruct (decide (Forall (λ r, finished r = true) runs)) as [Hall|Hall]; [eexists; by apply st_stopped|].
    destruct (not_all_finished runs Hall) as (k & r & Hk & Hf). eexists. by eapply st_stop_task.
  - destruct pend as [|x pend]; eexists; [apply st_raise|apply st_abort].
Qed.
End transcribe.

(** Two spoken chunks; the second cannot be encoded while the first runs. *)
Definition ex_spans : list ChunkSpan :=
  [mkChunkSpan 0 0 10 float_zero float_zero true; mkChunkSpan 1 10 20 float_zero float_zero true].
Definition ex_answer (id : string) (prompt : option text) : text := [111; 107]%Z.

Lemma ex_spans_index k span : ex_spans !! k = Some span → cs_index span = k.
Proof. destruct k as [|[|k]]; simpl; intros H; by simplify_eq. Qed.

Lemma chunks_transcribed_or_aborted_witness :
  let id := chunk_request_id "t" 0 false in
  let final := mkSys (MRaised OSError) ({[id]} ∪ ∅) (({[id]} ∪ ∅) ∖ {[id]}) ∅ in
  rtc (trans "t" None 2 base_adapter ex_spans ex_answer) (start base_adapter false ex_spans) final ∧
  s_engine final ⊆ s_abort_failed final.
Proof.
  intros id final.
  assert (rtc (trans "t" None 2 base_adapter ex_spans ex_answer) (start base_adapter false ex_spans) final) as Hrun.
  { assert (∀ s s' s'', step "t" None 2 base_adapter ex_spans ex_answer s s' →
      rtc (trans "t" None 2 base_adapter ex_spans ex_answer) s' s'' →
      rtc (trans "t" None 2 base_adapter ex_spans ex_answer) s s'') as Hgo.
    { intros s s' s'' H. apply rtc_l. by left. }
    eapply Hgo; [eapply (st_task _ _ _ _ _ _ 0); [done|done|by apply rs_acquire]|].
    eapply Hgo; [eapply (st_task _ _ _ _ _ _ 1); [done|done|by apply rs_acquire]|].
    eapply Hgo; [eapply (st_task _ _ _ _ _ _ 0); [done|done|by apply rs_encoded]|].
    eapply Hgo; [eapply (st_task _ _ _ _ _ _ 0); [done|done|by apply rs_submit]|].
    eapply Hgo; [eapply (st_task _ _ _ _ _ _ 1); [done|done|by apply (rs_encode_fails _ _ _ _ _ _ OSError)]|].
    eapply Hgo; [by eapply (st_fail _ _ _ _ _ _ 1)|].
    eapply Hgo; [by eapply (st_stop_task _ _ _ _ _ _ 0)|].
    eapply Hgo; [apply st_stopped; by repeat constructor|].
    assert (sort_strings (elements ({[id]} ∪ ∅ : gset string)) = [id]) as Hpend by (vm_compute; reflexivity).
    change (chunk_request_id "t" (cs_index _) false) with id. rewrite Hpend.
    eapply Hgo; [apply st_abort|]. eapply Hgo; [apply st_raise|]. apply rtc_refl. }
  split; [exact Hrun|].
  destruct (chunks_transcribed_or_aborted "t" None 2 base_adapter false ex_spans ex_answer ex_spans_index ltac:(lia) final Hrun)
    as [_ H]. exact H.
Defined.

Lemma transcription_terminates_witness :
  sn (trans "t" None 2 base_adapter ex_spans ex_answer) (start base_adapter false ex_spans).
Proof.
  apply (transcription_terminates "t" None 2 base_adapter false ex_spans ex_answer ex_spans_index). lia.
Defined.
