(* ===== verification/Subtitles.v ===== *)
(** * Subtitle serialization

    Models [src/sglang_omni/serve/subtitles.py]: timestamps, cue text and the SRT and
    VTT writers, on text as code points and times as Python floats. *)
From Stdlib Require Import SpecFloat DecimalN.
From S2P Require Import Prelude TranscriptionChunking.

(** ASCII literals. *)
Definition lit (s : string) : text := (λ c, Z.of_nat (Ascii.nat_of_ascii c)) <$> String.list_ascii_of_string s.

(** [str] of an integer and the format [:0wd]. *)
Fixpoint uint_text (u : Decimal.uint) : text :=
  match u with
  | Decimal.Nil => []
  | Decimal.D0 u => 48%Z :: uint_text u
  | Decimal.D1 u => 49%Z :: uint_text u
  | Decimal.D2 u => 50%Z :: uint_text u
  | Decimal.D3 u => 51%Z :: uint_text u
  | Decimal.D4 u => 52%Z :: uint_text u
  | Decimal.D5 u => 53%Z :: uint_text u
  | Decimal.D6 u => 54%Z :: uint_text u
  | Decimal.D7 u => 55%Z :: uint_text u
  | Decimal.D8 u => 56%Z :: uint_text u
  | Decimal.D9 u => 57%Z :: uint_text u
  end.

Definition digits (z : Z) : text := uint_text (N.to_uint (Z.to_N (Z.abs z))).
Definition padded (width : nat) (z : Z) : text :=
  let sign := if bool_decide (z < 0)%Z then [45%Z] else [] in
  sign ++ replicate (width - length sign - length (digits z)) 48%Z ++ digits z.

Definition _format_timestamp (seconds : spec_float) (always_include_hours : bool) (decimal_marker : text) : res text :=
  milliseconds ← float_round (float_mul seconds (float_of_int 1000));
  let hours := (milliseconds / 3600000)%Z in
  let milliseconds := (milliseconds mod 3600000)%Z in
  let minutes := (milliseconds / 60000)%Z in
  let milliseconds := (milliseconds mod 60000)%Z in
  let secs := (milliseconds / 1000)%Z in
  let milliseconds := (milliseconds mod 1000)%Z in
  let hours_marker := if (always_include_hours || bool_decide (0 < hours)%Z : bool) then padded 2 hours ++ lit ":" else [] in
  mret (hours_marker ++ padded 2 minutes ++ lit ":" ++ padded 2 secs ++ decimal_marker ++ padded 3 milliseconds).

(** [t.replace("-->", "->")]: left to right, what is put in is not scanned again. *)
Fixpoint replace_arrows (t : text) : text :=
  match t with
  | c :: ((d :: e :: u) as t') =>
      if bool_decide (c = 45 ∧ d = 45 ∧ e = 62)%Z then 45%Z :: 62%Z :: replace_arrows u else c :: replace_arrows t'
  | c :: t' => c :: replace_arrows t'
  | [] => []
  end.

Definition _cue_text (t : text) : text := replace_arrows (strip t).

Record TranscriptionSegment := mkSegment { ts_start : spec_float; ts_end : spec_float; ts_text : text }.

Definition srt_block (index : nat) (segment : TranscriptionSegment) : res text :=
  start ← _format_timestamp (ts_start segment) true (lit ",");
  end_ ← _format_timestamp (ts_end segment) true (lit ",");
  mret (digits (Z.of_nat index) ++ [10%Z] ++ start ++ lit " --> " ++ end_ ++ [10%Z] ++ _cue_text (ts_text segment) ++ [10; 10]%Z).

Fixpoint segments_to_srt_from (index : nat) (segments : list TranscriptionSegment) : res text :=
  match segments with
  | [] => Ok []
  | segment :: segments =>
      block ← srt_block index segment;
      blocks ← segments_to_srt_from (S index) segments;
      mret (block ++ blocks)
  end.
Definition segments_to_srt (segments : list TranscriptionSegment) : res text := segments_to_srt_from 1 segments.

Definition vtt_cue (segment : TranscriptionSegment) : res text :=
  start ← _format_timestamp (ts_start segment) false (lit ".");
  end_ ← _format_timestamp (ts_end segment) false (lit ".");
  mret (start ++ lit " --> " ++ end_ ++ [10%Z] ++ _cue_text (ts_text segment) ++ [10; 10]%Z).

Fixpoint vtt_cues (segments : list TranscriptionSegment) : res text :=
  match segments with
  | [] => Ok []
  | segment :: segments => cue ← vtt_cue segment; cues ← vtt_cues segments; mret (cue ++ cues)
  end.
Definition segments_to_vtt (segments : list TranscriptionSegment) : res text :=
  cues ← vtt_cues segments; mret (lit "WEBVTT" ++ [10; 10]%Z ++ cues).

(** ** Reading a timestamp back *)
Fixpoint text_uint (t : text) : option Decimal.uint :=
  match t with
  | [] => Some Decimal.Nil
  | c :: t =>
      u ← text_uint t;
      match c with
      | 48%Z => Some (Decimal.D0 u) | 49%Z => Some (Decimal.D1 u) | 50%Z => Some (Decimal.D2 u) | 51%Z => Some (Decimal.D3 u)
      | 52%Z => Some (Decimal.D4 u) | 53%Z => Some (Decimal.D5 u) | 54%Z => Some (Decimal.D6 u) | 55%Z => Some (Decimal.D7 u)
      | 56%Z => Some (Decimal.D8 u) | 57%Z => Some (Decimal.D9 u) | _ => None
      end
  end.

Definition read_number (t : text) : option Z := (λ u, Z.of_N (N.of_uint u)) <$> text_uint t.

(** [t.split(sep)]: the fields between separators. *)
Fixpoint split_on (sep : Z) (t : text) : list text :=
  match t with
  | [] => [[]]
  | c :: t =>
      if bool_decide (c = sep) then [] :: split_on sep t
      else match split_on sep t with
           | field :: fields => (c :: field) :: fields
           | [] => [[c]]
           end
  end.

Definition read_seconds (marker : Z) (t : text) : option Z :=
  match split_on marker t with
  | [secs; ms] => s ← read_number secs; m ← read_number ms; Some (1000 * s + m)%Z
  | _ => None
  end.

Definition read_timestamp (marker : Z) (t : text) : option Z :=
  match split_on 58 t with
  | [hours; minutes; rest] =>
      h ← read_number hours; m ← read_number minutes; s ← read_seconds marker rest;
      Some (3600000 * h + 60000 * m + s)%Z
  | [minutes; rest] => m ← read_number minutes; s ← read_seconds marker rest; Some (60000 * m + s)%Z
  | _ => None
  end.

Lemma text_uint_text u : text_uint (uint_text u) = Some u.
Proof. induction u as [|u IH|u IH|u IH|u IH|u IH|u IH|u IH|u IH|u IH|u IH]; [done|..]; simpl; by rewrite IH. Qed.

Lemma text_uint_zeros n u : text_uint (replicate n 48%Z ++ uint_text u) = Some (Nat.iter n Decimal.D0 u).
Proof. induction n as [|n IH]; simpl; [apply text_uint_text|]. by rewrite IH. Qed.

Lemma of_uint_zeros n u : N.of_uint (Nat.iter n Decimal.D0 u) = N.of_uint u.
Proof. induction n as [|n IH]; [done|]. exact IH. Qed.

Lemma read_padded w z : (0 ≤ z)%Z → read_number (padded w z) = Some z.
Proof.
  intros Hz. unfold padded, read_number, digits. rewrite bool_decide_false by lia. simpl.
  rewrite text_uint_zeros. simpl. rewrite of_uint_zeros, DecimalN.Unsigned.of_to. f_equal. lia.
Qed.

Definition is_digit (c : Z) : Prop := (48 ≤ c ≤ 57)%Z.

Lemma uint_text_digits u : Forall is_digit (uint_text u).
Proof. unfold is_digit. induction u; simpl; repeat constructor; try lia; done. Qed.

Lemma padded_digits w z : (0 ≤ z)%Z → Forall is_digit (padded w z).
Proof.
  intros Hz. unfold padded. rewrite bool_decide_false by lia. simpl. apply Forall_app. split; [|apply uint_text_digits].
  apply Forall_replicate. unfold is_digit. lia.
Qed.

Lemma split_field sep field t : sep ∉ field → split_on sep (field ++ sep :: t) = field :: split_on sep t.
Proof.
  induction field as [|c field IH]; intros Hn; simpl; [by rewrite bool_decide_true|].
  rewrite bool_decide_false by (intros ->; apply Hn; by left). by rewrite IH by (intros H; apply Hn; by right).
Qed.

Lemma split_last sep field : sep ∉ field → split_on sep field = [field].
Proof.
  induction field as [|c field IH]; intros Hn; simpl; [done|].
  rewrite bool_decide_false by (intros ->; apply Hn; by left). by rewrite IH by (intros H; apply Hn; by right).
Qed.

Lemma digits_free sep t : ¬ is_digit sep → Forall is_digit t → sep ∉ t.
Proof. intros Hs Ht Hin. by eapply Forall_forall in Ht. Qed.

Lemma read_clock marker h m s ms (with_hours : bool) :
  ¬ is_digit marker → marker ≠ 58%Z → (0 ≤ h)%Z → (0 ≤ m)%Z → (0 ≤ s)%Z → (0 ≤ ms)%Z → (with_hours = false → h = 0%Z) →
  read_timestamp marker ((if with_hours then padded 2 h ++ lit ":" else []) ++ padded 2 m ++ lit ":" ++ padded 2 s ++
    [marker] ++ padded 3 ms) = Some (3600000 * h + 60000 * m + (1000 * s + ms))%Z.
Proof.
  intros Hmk Hcolon Hh Hm Hs Hms Hno. change (lit ":") with [58%Z].
  assert (¬ is_digit 58) as Hc by (unfold is_digit; lia).
  assert (read_seconds marker (padded 2 s ++ [marker] ++ padded 3 ms) = Some (1000 * s + ms)%Z ∧
    split_on 58 (padded 2 m ++ [58%Z] ++ padded 2 s ++ [marker] ++ padded 3 ms) =
    [padded 2 m; padded 2 s ++ [marker] ++ padded 3 ms]) as [Hsec Hsplit].
  { split.
    - unfold read_seconds. simpl. rewrite split_field by (apply digits_free; [done|by apply padded_digits]).
      rewrite split_last by (apply digits_free; [done|by apply padded_digits]). rewrite !read_padded by done. done.
    - simpl. rewrite split_field by (apply digits_free; [done|by apply padded_digits]). f_equal. apply split_last.
      intros [H|[H|H]%elem_of_cons]%elem_of_app; [|congruence|]; revert H; apply digits_free; try done; by apply padded_digits. }
  unfold read_timestamp. destruct with_hours.
  - rewrite <-app_assoc. simpl. rewrite split_field by (apply digits_free; [done|by apply padded_digits]).
    simpl in Hsplit, Hsec. rewrite Hsplit, !read_padded by done. simpl. rewrite Hsec. simpl. done.
  - rewrite app_nil_l. rewrite Hsplit, read_padded by done. simpl in *. rewrite Hsec. simpl. f_equal. rewrite (Hno eq_refl). lia.
Qed.

(** A timestamp reads back to the rounded milliseconds, whatever the duration
    with or without the hours field. *)
Theorem timestamp_reads_back seconds always_include_hours marker ms :
  float_round (float_mul seconds (float_of_int 1000)) = Ok ms → (0 ≤ ms)%Z → ¬ is_digit marker → marker ≠ 58%Z →
  ∃ t, _format_timestamp seconds always_include_hours [marker] = Ok t ∧ read_timestamp marker t = Some ms.
Proof.
  intros Hms H0 Hmk Hcolon. unfold _format_timestamp. rewrite Hms. eexists. split; [reflexivity|].
  cbv zeta. rewrite read_clock; try done; try (apply Z.div_pos; lia).
  - f_equal. pose proof (Z.div_mod ms 3600000). pose proof (Z.div_mod (ms mod 3600000) 60000).
    pose proof (Z.div_mod ((ms mod 3600000) mod 60000) 1000). lia.
  - apply Z.div_pos; [|lia]. apply Z.mod_pos_bound. lia.
  - apply Z.div_pos; [|lia]. apply Z.mod_pos_bound. lia.
  - apply Z.mod_pos_bound. lia.
  - intros [_ Hn%bool_decide_eq_false]%orb_false_iff. pose proof (Z.div_pos ms 3600000). lia.
Qed.

(** 1 h 1 min 1.5 s. *)
Lemma timestamp_reads_back_witness :
  _format_timestamp (float_div (float_of_int 7323) (float_of_int 2)) false (lit ".") = Ok (lit "01:01:01.500") ∧
  ∃ t, _format_timestamp (float_div (float_of_int 7323) (float_of_int 2)) false (lit ".") = Ok t ∧
    read_timestamp 46 t = Some 3661500%Z.
Proof.
  split; [vm_compute; reflexivity|].
  apply (timestamp_reads_back (float_div (float_of_int 7323) (float_of_int 2)) false 46 3661500);
    [vm_compute; reflexivity|lia|unfold is_digit; lia|done].
Defined.

(** ** Arrows in cue text *)
Fixpoint contains (p t : text) : bool :=
  bool_decide (take (length p) t = p) || match t with [] => false | _ :: t' => contains p t' end.

Definition arrow : text := lit "-->".
Definition long_arrow : text := lit "--->".

Lemma contains_cons p c t : contains p (c :: t) = bool_decide (take (length p) (c :: t) = p) || contains p t.
Proof. done. Qed.

Lemma replace_step c d e u :
  replace_arrows (c :: d :: e :: u) =
  if bool_decide (c = 45 ∧ d = 45 ∧ e = 62)%Z then 45%Z :: 62%Z :: replace_arrows u else c :: replace_arrows (d :: e :: u).
Proof. done. Qed.

Lemma replace_head t : head (replace_arrows t) = head t.
Proof.
  destruct t as [|c [|d [|e u]]]; try done. rewrite replace_step. case_bool_decide as H; [|done]. by destruct H as (-> & _).
Qed.

(** What can start with [->] after the replacement. *)
Lemma replace_starts t :
  take 2 (replace_arrows t) = lit "->" ↔ take 3 t = arrow ∨ take 2 t = lit "->".
Proof.
  destruct t as [|c [|d [|e u]]]; try (split; [by auto|by intros []]).
  rewrite replace_step. case_bool_decide as H; [destruct H as (-> & -> & ->); split; [by left|done]|].
  pose proof (replace_head (d :: e :: u)) as Hh. destruct (replace_arrows (d :: e :: u)) as [|x l]; [done|].
  injection Hh as ->. split; [by right|]. intros [H'|H']; [|done]. injection H' as -> -> ->. by destruct H.
Qed.

Lemma take_S_cons n c x (t p : text) : take (S n) (c :: t) = x :: p ↔ c = x ∧ take n t = p.
Proof. simpl. split; [by intros [= -> ->]|by intros [-> ->]]. Qed.

Lemma arrows_after_replace t : contains arrow (replace_arrows t) = contains long_arrow t.
Proof.
  remember (length t) as n eqn:Hn. revert t Hn. induction n as [n IH] using lt_wf_ind. intros t ->.
  assert (∀ c t', t = c :: t' → replace_arrows t = c :: replace_arrows t' → (c = 45%Z → take 2 t' ≠ lit "->") →
    contains arrow (replace_arrows t) = contains long_arrow t) as Hstep.
  { intros c t' -> -> Hno. rewrite !contains_cons, (IH (length t')) by (simpl; lia || done). f_equal.
    apply bool_decide_ext. change (take (S 2) (c :: replace_arrows t') = 45%Z :: lit "->" ↔ take (S 3) (c :: t') = 45%Z :: arrow).
    rewrite !take_S_cons, replace_starts. split; intros [-> H]; (split; [done|]); [|by left].
    destruct H as [|H]; [done|]. by destruct (Hno eq_refl). }
  destruct t as [|c [|d [|e u]]]; [done|by eapply Hstep|eapply Hstep; [done|done|by intros ?]|].
  destruct (decide (c = 45 ∧ d = 45 ∧ e = 62)%Z) as [Hc|Hc].
  - destruct Hc as (-> & -> & ->). assert (replace_arrows (45 :: 45 :: 62 :: u)%Z = 45%Z :: 62%Z :: replace_arrows u) as -> by done.
    rewrite !contains_cons, (IH (length u)) by (simpl; lia || done). done.
  - eapply Hstep; [done| |].
    + rewrite replace_step. by rewrite bool_decide_false by done.
    + intros -> Hd. injection Hd as -> ->. by destruct Hc.
Qed.

(** Cue text still holds an arrow exactly when the segment's text held one with
    an extra dash: replacing [-->] by [->] puts a new [-->] together out of [--->]. *)
Theorem cue_text_keeps_long_arrows t :
  contains arrow (_cue_text t) = contains long_arrow (strip t) ∧
  _cue_text (lit "a ---> b") = lit "a --> b".
Proof. split; [apply arrows_after_replace|vm_compute; reflexivity]. Qed.
