(* ===== verification/StageInput.v ===== *)
(** * Stage inputs: fan-in and stream queues

    Models [src/sglang_omni/pipeline/stage/input.py] and [stream_queue.py].  Payloads
    and chunks are parameters; the merge and the dynamic fan-in resolver, configured
    callables, are arguments. *)
From S2P Require Import Prelude.

(** ** Fan-in *)

(** What a resolver returns: nothing yet, one name, an iterable whose elements that
    are not strings are [None], or a value that cannot be iterated. *)
Inductive resolved :=
| ResolvedNone
| ResolvedOne (source : string)
| ResolvedMany (sources : list (option string))
| ResolvedOther.

Section fan_in.
Context {payload : Type}.

Record AggregatedInput := mkInput {
  _pending : gmap string (list (string * payload));
  _expected_sources : gmap string (gset string);
}.

Definition input_init : AggregatedInput := mkInput ∅ ∅.

Context (_sources : gset string) (_merge : list (string * payload) → res payload)
  (_expected_sources_fn : option (string → string → payload → resolved)).

Definition _normalize_expected_sources (sources : resolved) : res (gset string) :=
  match sources with
  | ResolvedNone => Raise (ValueError "dynamic fan-in resolver returned unsupported sources")
  | ResolvedOther => Raise (ValueError "dynamic fan-in resolver returned unsupported sources")
  | ResolvedOne s => if bool_decide (s ∈ _sources) then Ok {[s]} else Raise (ValueError "sources outside static wait_for")
  | ResolvedMany l =>
      if bool_decide (l = []) then Raise (ValueError "dynamic fan-in resolver returned no sources")
      else match mapM id l with
           | None => Raise (ValueError "dynamic fan-in resolver returned non-string sources")
           | Some names =>
               let expected := list_to_set names in
               if bool_decide (expected ⊆ _sources) then Ok expected else Raise (ValueError "sources outside static wait_for")
           end
  end.

Definition set_pending (p : gmap string (list (string * payload))) (h : AggregatedInput) := mkInput p (_expected_sources h).
Definition set_expected (e : gmap string (gset string)) (h : AggregatedInput) := mkInput (_pending h) e.

(** The sources the request waits for: [None] while the resolver cannot say. *)
Definition expected_for (request_id from_stage : string) (data : payload) (h : AggregatedInput) :
    AggregatedInput * res (option (gset string)) :=
  match _expected_sources h !! request_id with
  | Some e => (h, Ok (Some e))
  | None =>
      match _expected_sources_fn with
      | None => (h, Ok (Some _sources))
      | Some fn =>
          match fn request_id from_stage data with
          | ResolvedNone => (h, Ok None)
          | r => match _normalize_expected_sources r with
                 | Raise e => (h, Raise e)
                 | Ok e => (set_expected (<[request_id := e]> (_expected_sources h)) h, Ok (Some e))
                 end
          end
      end
  end.

Definition receive (request_id from_stage : string) (data : payload) (h : AggregatedInput) :
    AggregatedInput * res (option payload) :=
  if negb (bool_decide (from_stage ∈ _sources)) then (h, Ok None)
  else
    let inputs := od_set from_stage data (default [] (_pending h !! request_id)) in
    let h := set_pending (<[request_id := inputs]> (_pending h)) h in
    match expected_for request_id from_stage data h with
    | (h, Raise e) => (h, Raise e)
    | (h, Ok None) => (h, Ok None)
    | (h, Ok (Some expected)) =>
        let pending_sources := list_to_set (od_keys inputs) : gset string in
        if bool_decide (pending_sources ⊆ expected) then
          if bool_decide (pending_sources = expected) then
            (mkInput (delete request_id (_pending h)) (delete request_id (_expected_sources h)), Some <$> _merge inputs)
          else (h, Ok None)
        else (h, Raise (ValueError "received sources outside expected fan-in"))
    end.

Definition cancel (request_id : string) (h : AggregatedInput) : AggregatedInput :=
  mkInput (delete request_id (_pending h)) (delete request_id (_expected_sources h)).

(** ** What fan-in keeps *)

(** Keys are unique sources of the stage; a request's known fan-in is within the
    stage's. *)
Record input_wf (h : AggregatedInput) : Prop := {
  iw_pending : ∀ r inputs, _pending h !! r = Some inputs →
    NoDup (od_keys inputs) ∧ list_to_set (od_keys inputs) ⊆ _sources;
  iw_expected : ∀ r e, _expected_sources h !! r = Some e → e ⊆ _sources;
}.

Lemma normalize_within r e : _normalize_expected_sources r = Ok e → e ⊆ _sources.
Proof.
  destruct r as [|s|l|]; simpl; [done| | |done].
  - case_bool_decide; [|done]. intros [= <-]. set_solver.
  - case_bool_decide; [done|]. destruct (mapM id l) as [names|]; [|done]. case_bool_decide; [|done]. by intros [= <-].
Qed.

Lemma expected_for_spec request_id from_stage data h h' r :
  expected_for request_id from_stage data h = (h', r) → input_wf h →
  input_wf h' ∧ _pending h' = _pending h ∧ ∀ e, r = Ok (Some e) → e ⊆ _sources.
Proof.
  unfold expected_for. intros He Hwf. destruct (_expected_sources h !! request_id) as [e|] eqn:E.
  { simplify_eq. split_and!; try done. intros e' [= <-]. by eapply iw_expected. }
  destruct _expected_sources_fn as [fn|]; [|simplify_eq; split_and!; [done|done|by intros e [= <-]]].
  destruct (fn request_id from_stage data) as [|s|l|] eqn:Ef; [by simplify_eq|..].
  all: destruct (_normalize_expected_sources _) as [e|x] eqn:En; [|by simplify_eq]; apply normalize_within in En;
    simplify_eq; split_and!; [|done|by intros e' [= <-]]; destruct Hwf; split; [done|]; simpl;
    intros r0 e0 [[<- <-]|[_ ?]]%lookup_insert_Some; [done|eauto].
Qed.

(** Only the request's own entries change. *)
Lemma expected_for_frame request_id from_stage data h h' r request_id' :
  request_id' ≠ request_id → expected_for request_id from_stage data h = (h', r) →
  _pending h' !! request_id' = _pending h !! request_id' ∧ _expected_sources h' !! request_id' = _expected_sources h !! request_id'.
Proof.
  intros Hne. unfold expected_for. destruct (_expected_sources h !! request_id); [by intros [= <- <-]|].
  destruct _expected_sources_fn as [fn|]; [|by intros [= <- <-]].
  destruct (fn request_id from_stage data) as [|s|l|] eqn:Ef; [by intros [= <- <-]|..].
  all: destruct (_normalize_expected_sources _) as [e|x]; intros [= <- <-]; [|done]; simpl; by rewrite lookup_insert_ne.
Qed.

Lemma receive_frame request_id from_stage data h request_id' :
  request_id' ≠ request_id →
  _pending (receive request_id from_stage data h).1 !! request_id' = _pending h !! request_id' ∧
  _expected_sources (receive request_id from_stage data h).1 !! request_id' = _expected_sources h !! request_id'.
Proof.
  intros Hne. unfold receive. case_bool_decide; [|done]. cbn [negb].
  set (inputs := od_set from_stage data _).
  destruct (expected_for _ _ _ _) as [h1 r] eqn:E. apply (expected_for_frame _ _ _ _ _ _ request_id' Hne) in E as [Hp He].
  simpl in Hp, He. rewrite lookup_insert_ne in Hp by done.
  destruct r as [[e|]|x]; [|done|done]. case_bool_decide; [|done]. case_bool_decide; [|done]. simpl. by rewrite !lookup_delete_ne.
Qed.

Lemma receive_wf request_id from_stage data h :
  input_wf h → input_wf (receive request_id from_stage data h).1.
Proof.
  intros Hwf. unfold receive. case_bool_decide as Hsrc; simpl; [|done].
  set (inputs := od_set from_stage data (default [] (_pending h !! request_id))).
  assert (input_wf (set_pending (<[request_id := inputs]> (_pending h)) h)) as Hwf1.
  { destruct Hwf as [Hp He]. split; [|done]. simpl. intros r ins [[<- <-]|[_ ?]]%lookup_insert_Some; [|eauto].
    unfold inputs. rewrite od_set_keys. destruct (_pending h !! request_id) as [l|] eqn:E; simpl.
    - destruct (Hp _ _ E). split; [by apply od_set_NoDup|set_solver].
    - split; [apply (od_set_NoDup from_stage data []), NoDup_nil_2|set_solver]. }
  destruct (expected_for _ _ _ _) as [h1 r] eqn:Ee. destruct (expected_for_spec _ _ _ _ _ _ Ee Hwf1) as (Hwf2 & Hp & Hr).
  destruct r as [[e|]|x]; simpl; [|done|done]. case_bool_decide; [|done]. case_bool_decide; [|done]. simpl.
  destruct Hwf2 as [H1 H2]. split; simpl; intros r0 x [_ ?]%lookup_delete_Some; eauto.
Qed.

(** One request's arrivals, in order, with what each call returns. *)
Definition receive_all (request_id : string) (calls : list (string * payload)) (h : AggregatedInput) :
    list (res (option payload)) * AggregatedInput :=
  foldl (λ '(outs, h) call, let '(h, out) := receive request_id call.1 call.2 h in (outs ++ [out], h)) ([], h) calls.

(** The inputs a merge sees: the sources in order of first arrival, the latest data of each. *)
Definition arrived (calls : list (string * payload)) : list (string * payload) :=
  foldl (λ d call, od_set call.1 call.2 d) [] calls.

Definition arrived_sources (calls : list (string * payload)) : gset string := list_to_set (od_keys (arrived calls)).

Lemma arrived_snoc calls call : arrived (calls ++ [call]) = od_set call.1 call.2 (arrived calls).
Proof. unfold arrived. by rewrite foldl_app. Qed.

Lemma receive_all_snoc request_id calls call h :
  receive_all request_id (calls ++ [call]) h =
  let '(outs, h1) := receive_all request_id calls h in
  let '(h2, out) := receive request_id call.1 call.2 h1 in (outs ++ [out], h2).
Proof. unfold receive_all. rewrite foldl_app. simpl. by destruct (foldl _ _ calls). Qed.

Section static.
Context (Hstatic : _expected_sources_fn = None).

Lemma arrived_within calls : Forall (λ c, c.1 ∈ _sources) calls → arrived_sources calls ⊆ _sources.
Proof.
  induction calls as [|c calls IH] using rev_ind; [unfold arrived_sources; set_solver|].
  intros [Hc Hl]%Forall_app. unfold arrived_sources in *. rewrite arrived_snoc, od_set_keys. apply Forall_cons in Hl as [Hl _]. set_solver.
Qed.

(** While some source is missing, the calls return [None] and the arrivals are kept. *)
Lemma fan_in_waits request_id calls h :
  _pending h !! request_id = None → _expected_sources h !! request_id = None →
  Forall (λ c, c.1 ∈ _sources) calls →
  (∀ k, 0 < k → k ≤ length calls → arrived_sources (take k calls) ≠ _sources) →
  receive_all request_id calls h =
    (replicate (length calls) (Ok None),
     if decide (calls = []) then h else set_pending (<[request_id := arrived calls]> (_pending h)) h).
Proof.
  intros Hp He. induction calls as [|c calls IH] using rev_ind; [done|]. intros [Hsrc Hc]%Forall_app Hmiss.
  apply Forall_cons in Hc as [Hc _]. rewrite receive_all_snoc, IH; [|done|].
  2: { intros k H0 Hk. specialize (Hmiss k H0). rewrite take_app_le in Hmiss by done. apply Hmiss. rewrite length_app. simpl. lia. }
  specialize (Hmiss (length (calls ++ [c])) ltac:(rewrite length_app; simpl; lia) ltac:(done)). rewrite take_ge in Hmiss by done.
  rewrite (decide_False (P := calls ++ [c] = [])) by (by destruct calls). 
  assert (∀ h0, default [] (_pending h0 !! request_id) = arrived calls → _expected_sources h0 = _expected_sources h →
    (<[request_id := arrived (calls ++ [c])]> (_pending h0)) = <[request_id := arrived (calls ++ [c])]> (_pending h) →
    receive request_id c.1 c.2 h0 = (set_pending (<[request_id := arrived (calls ++ [c])]> (_pending h)) h, Ok None)) as Hgo.
  { intros h0 Hd Hex Hpe. unfold receive. rewrite bool_decide_true by done. cbn [negb]. rewrite Hd, <-arrived_snoc.
    unfold expected_for. cbn [set_pending _expected_sources]. rewrite Hex, He, Hstatic.
    rewrite bool_decide_true by (by apply arrived_within, Forall_app; split; [|apply Forall_singleton]).
    rewrite bool_decide_false by done. rewrite Hpe. unfold set_pending. by rewrite Hex. }
  case_decide as Hnil.
  - subst calls. rewrite (Hgo h); [done|by rewrite Hp|done|done].
  - rewrite Hgo; [|by simpl; rewrite lookup_insert_eq|done|by simpl; rewrite insert_insert_eq].
    rewrite length_app, Nat.add_comm. simpl. by rewrite <-replicate_cons_app.
Qed.

(** Fan-in fires exactly once, when the last source arrives: until then every
    call returns nothing, then the merge gets each source once with its latest data,
    and nothing of the request is left. *)
Theorem fan_in_fires_when_complete request_id calls source data h :
  _pending h !! request_id = None → _expected_sources h !! request_id = None →
  Forall (λ c, c.1 ∈ _sources) calls → source ∈ _sources →
  (∀ k, 0 < k → k ≤ length calls → arrived_sources (take k calls) ≠ _sources) →
  arrived_sources (calls ++ [(source, data)]) = _sources →
  let inputs := arrived (calls ++ [(source, data)]) in
  receive_all request_id (calls ++ [(source, data)]) h =
    (replicate (length calls) (Ok None) ++ [Some <$> _merge inputs],
     mkInput (delete request_id (_pending h)) (delete request_id (_expected_sources h))) ∧
  NoDup (od_keys inputs) ∧ od_get source inputs = Some data.
Proof.
  intros Hp He Hsrc Hs Hmiss Hall inputs. split; [|split].
  - rewrite receive_all_snoc, (fan_in_waits request_id calls h Hp He Hsrc Hmiss).
    set (h1 := if decide (calls = []) then h else _).
    assert (default [] (_pending h1 !! request_id) = arrived calls ∧ _expected_sources h1 = _expected_sources h ∧
      delete request_id (<[request_id := inputs]> (_pending h1)) = delete request_id (_pending h)) as (Hd & Hex & Hdel).
    { unfold h1. case_decide as Hn; simpl; [subst; rewrite Hp|rewrite lookup_insert_eq]; split_and!; try done.
      - by rewrite delete_insert_eq.
      - by rewrite insert_insert_eq, delete_insert_eq. }
    clearbody h1. unfold receive. rewrite bool_decide_true by done. cbn [negb fst snd]. rewrite Hd.
    assert (od_set source data (arrived calls) = inputs) as -> by (unfold inputs; by rewrite arrived_snoc).
    unfold expected_for. cbn [set_pending _expected_sources _pending]. rewrite Hex, He, Hstatic.
    unfold arrived_sources in Hall. fold inputs in Hall. rewrite Hall.
    rewrite bool_decide_true by done. rewrite bool_decide_true by done. unfold set_pending. simpl. by rewrite Hdel, Hex.
  - unfold inputs. rewrite arrived_snoc. apply od_set_NoDup. clear. induction calls as [|c calls IH] using rev_ind; [by apply NoDup_nil_2|].
    rewrite arrived_snoc. by apply od_set_NoDup.
  - unfold inputs. rewrite arrived_snoc. simpl. rewrite od_get_set. by rewrite decide_True.
Qed.
End static.
End fan_in.
Arguments AggregatedInput : clear implicits.

(** A talker stage that waits for two sources; the first sends twice. *)
Lemma fan_in_fires_when_complete_witness :
  let calls := [("thinker", 1); ("thinker", 2)] in
  let merge := λ inputs : list (string * nat), Ok (sum_list (inputs.*2)) in
  (receive_all {["thinker"; "encoder"]} merge None "r" (calls ++ [("encoder", 5)]) input_init).1 = [Ok None; Ok None; Ok (Some 7)].
Proof.
  intros calls merge.
  destruct (fan_in_fires_when_complete {["thinker"; "encoder"]} merge None eq_refl "r" calls "encoder" 5 input_init) as [-> _].
  - done.
  - done.
  - apply (bool_decide_unpack _). vm_compute. done.
  - apply (bool_decide_unpack _). vm_compute. done.
  - intros k H0 Hk Heq. assert ("encoder" ∈ arrived_sources (take k calls)) as Hin by (rewrite Heq; set_solver).
    destruct k as [|[|[|k]]]; [lia|by vm_compute in Hin|by vm_compute in Hin|simpl in Hk; lia].
  - apply (bool_decide_unpack _). vm_compute. done.
  - vm_compute. reflexivity.
Defined.

(** ** Stream queues *)
Section stream_queue.
Context {chunk error : Type}.

Inductive stream_event :=
| StreamItem (chunk_id : Z) (data : chunk) (from_stage : string)
| StreamDone (from_stage : option string)
| StreamError (from_stage : option string) (e : error).

Record StreamQueue := mkQueue { _queues : gmap string (list stream_event); _closed : gset string }.

Definition queue_init : StreamQueue := mkQueue ∅ ∅.

Definition open (request_id : string) (q : StreamQueue) : StreamQueue :=
  mkQueue (match _queues q !! request_id with Some _ => _queues q | None => <[request_id := []]> (_queues q) end)
    (_closed q ∖ {[request_id]}).

Definition has (request_id : string) (q : StreamQueue) : bool :=
  match _queues q !! request_id with Some _ => true | None => false end.

(** [put], [put_done] and [put_error]: nothing without a queue. *)
Definition put_event (request_id : string) (ev : stream_event) (q : StreamQueue) : StreamQueue :=
  mkQueue (alter (λ l, l ++ [ev]) request_id (_queues q)) (_closed q).

Definition put (request_id : string) (chunk_id : Z) (data : chunk) (from_stage : string) : StreamQueue → StreamQueue :=
  put_event request_id (StreamItem chunk_id data from_stage).
Definition put_done (request_id : string) (from_stage : option string) : StreamQueue → StreamQueue :=
  put_event request_id (StreamDone from_stage).
Definition put_error (request_id : string) (e : error) (from_stage : option string) : StreamQueue → StreamQueue :=
  put_event request_id (StreamError from_stage e).

(** What [get] does at once: the item or the end, an exception, or a wait. *)
Inductive got := GotItem (chunk_id : Z) (data : chunk) (from_stage : string) | GotEnd | GotRaise (e : error) | GotNoQueue | GotWait.

Definition get (request_id : string) (q : StreamQueue) : StreamQueue * got :=
  match _queues q !! request_id with
  | None => (q, if bool_decide (request_id ∈ _closed q) then GotEnd else GotNoQueue)
  | Some [] => (q, GotWait)
  | Some (ev :: l) =>
      (mkQueue (<[request_id := l]> (_queues q)) (_closed q),
       match ev with StreamItem i d s => GotItem i d s | StreamDone _ => GotEnd | StreamError _ e => GotRaise e end)
  end.

(** [close]; [kept] is what the pruning of a large [_closed] leaves, in an order of
    the set's own.  The end put for blocked readers goes to the popped queue. *)
Definition close (request_id : string) (kept : gset string) (q : StreamQueue) : StreamQueue :=
  let closed := {[request_id]} ∪ _closed q in
  mkQueue (delete request_id (_queues q)) (if bool_decide (10000 < Z.of_nat (size closed))%Z then kept ∩ closed else closed).
End stream_queue.
Arguments StreamQueue : clear implicits.
