(* ===== verification/StageRuntime.v ===== *)
(** * The stage runtime

    Models [Stage] ([src/sglang_omni/pipeline/stage/runtime.py]): what one stage keeps
    per request, its message handlers, the routing of results and stream chunks, the
    ordered receive lanes, aborts and failures.  A handler is cut at its awaits into
    steps that are atomic on the event loop; what it sends to the scheduler, the
    coordinator and other stages is a list of actions.  The transports are reduced to
    whether a target is reached as a local object: their own failures, and what a local call raises
    in the stage it calls, are left out on the sending side. *)
From S2P Require Import Prelude Replicas StageInput.

(** ** The input handler, as the stage uses it *)
Class InputHandler (P H : Type) := {
  ih_receive : string → string → P → H → H * res (option P);
  ih_cancel : string → H → H;
  ih_holds : string → H → Prop;
}.

Class InputHandlerLaws (P H : Type) `{InputHandler P H} : Prop := {
  ih_cancel_clears r h : ¬ ih_holds r (ih_cancel r h);
  ih_cancel_frame r r' h : ih_holds r (ih_cancel r' h) → ih_holds r h;
  ih_receive_frame r r' src p h : r ≠ r' → ih_holds r (ih_receive r' src p h).1 → ih_holds r h;
}.

(** [DirectInput] *)
#[export] Instance direct_input (P : Type) : InputHandler P unit := {|
  ih_receive _ _ p h := (h, Ok (Some p));
  ih_cancel _ h := h;
  ih_holds _ _ := False |}.
#[export] Instance direct_input_laws (P : Type) : InputHandlerLaws P unit.
Proof. split; simpl; auto. Qed.

(** [AggregatedInput] *)
Definition aggregated_input {P : Type} (sources : gset string) (merge : list (string * P) → res P)
    (fn : option (string → string → P → resolved)) : InputHandler P (AggregatedInput P) := {|
  ih_receive := receive sources merge fn;
  ih_cancel := cancel;
  ih_holds r h := is_Some (_pending h !! r) ∨ is_Some (_expected_sources h !! r) |}.

Lemma aggregated_input_laws {P : Type} sources merge fn :
  @InputHandlerLaws P (AggregatedInput P) (aggregated_input sources merge fn).
Proof.
  split; simpl.
  - intros r h. rewrite !lookup_delete_eq. by intros [[] | []].
  - intros r r' h. destruct (decide (r = r')) as [->|Hne].
    + rewrite !lookup_delete_eq. by intros [[] | []].
    + by rewrite !lookup_delete_ne.
  - intros r r' src p h Hne. by destruct (receive_frame sources merge fn r' src p h r Hne) as [-> ->].
Qed.

(** ** The stage *)
Section stage.
Context {P D H : Type} `{!InputHandler P H} `{!InputHandlerLaws P H}.
Context (payload_request_id : P → string) (is_tensor : D → bool).
(** What a bounded id set keeps when it is pruned, in the set's own order. *)
Context (prune : gset string → gset string).

(** The constructor's arguments. *)
Record StageConfig := mkStageConfig {
  cfg_name : string;
  cfg_owns_external_io : bool;
  cfg_stream_targets : list string;
  cfg_is_terminal : bool;
  cfg_can_accept_stream_before_payload : bool;
  cfg_topology : ReplicaTopology;
  cfg_endpoints : gset string;
  cfg_same_process_targets : gset string;
  cfg_has_dispatcher : bool;
  cfg_fans_out_work : bool;
  cfg_get_next : string → P → option (list string);
  cfg_get_stream_done_targets : option (string → P → option (list string));
  cfg_project : string → option (P → P);
  cfg_isolated : P → P → bool;
}.
Context (cfg : StageConfig).

Record Stage := mkStage {
  _aborted : gset string;
  _active_requests : gset string;
  _stream_queue : option (StreamQueue D exn);
  _stream_chunk_counters : gmap (string * string) Z;
  _local_stream_targets : gmap string (gset string);
  _nonlocal_stream_targets : gmap string (gset string);
  _replica_bindings : gmap string (gmap string Z);
  _input : H;
}.

Definition set_aborted f s := mkStage (f (_aborted s)) (_active_requests s) (_stream_queue s) (_stream_chunk_counters s)
  (_local_stream_targets s) (_nonlocal_stream_targets s) (_replica_bindings s) (_input s).
Definition set_active f s := mkStage (_aborted s) (f (_active_requests s)) (_stream_queue s) (_stream_chunk_counters s)
  (_local_stream_targets s) (_nonlocal_stream_targets s) (_replica_bindings s) (_input s).
Definition set_queue f s := mkStage (_aborted s) (_active_requests s) (f <$> _stream_queue s) (_stream_chunk_counters s)
  (_local_stream_targets s) (_nonlocal_stream_targets s) (_replica_bindings s) (_input s).
Definition set_counters f s := mkStage (_aborted s) (_active_requests s) (_stream_queue s) (f (_stream_chunk_counters s))
  (_local_stream_targets s) (_nonlocal_stream_targets s) (_replica_bindings s) (_input s).
Definition set_targets fl fn s := mkStage (_aborted s) (_active_requests s) (_stream_queue s) (_stream_chunk_counters s)
  (fl (_local_stream_targets s)) (fn (_nonlocal_stream_targets s)) (_replica_bindings s) (_input s).
Definition set_bindings f s := mkStage (_aborted s) (_active_requests s) (_stream_queue s) (_stream_chunk_counters s)
  (_local_stream_targets s) (_nonlocal_stream_targets s) (f (_replica_bindings s)) (_input s).
Definition set_input f s := mkStage (_aborted s) (_active_requests s) (_stream_queue s) (_stream_chunk_counters s)
  (_local_stream_targets s) (_nonlocal_stream_targets s) (_replica_bindings s) (f (_input s)).

(** What the stage does to the world. *)
Inductive action :=
| NewRequest (p : P)                                  (* scheduler inbox *)
| StreamChunkIn (request_id : string) (chunk_id : Z) (d : D) (from_stage : string)
| StreamDoneIn (request_id : string)
| SchedulerAbort (request_id : string)
| FanoutWork (p : P)
| CompleteOk (request_id : string) (result : P)       (* coordinator *)
| CompleteFail (request_id error : string)
| StreamToCoordinator (request_id : string) (chunk_id : Z) (d : D)
| SendPayload (request_id target : string) (p : P) (bindings : option (gmap string Z)) (as_local : bool)
| SendChunk (request_id target : string) (chunk_id : Z) (d : D) (as_local : bool)
| SendSignal (request_id target : string) (is_done : bool) (error : option string) (as_local : bool)
| CommCleanup (request_id : string)
| Cleared (request_id : string)                       (* per-request state dropped *)
| CloseControlPlane.

Definition _record_replica_bindings (rid : string) (bindings : option (gmap string Z)) (s : Stage) : Stage :=
  match bindings with
  | Some b =>
      if bool_decide (b = ∅) || bool_decide (rid ∈ _aborted s) then s
      else match _replica_bindings s !! rid with
           | Some _ => s
           | None => set_bindings (insert rid b) s
           end
  | None => s
  end.

Definition _logical_source (from_stage : string) : string := logical_name (cfg_topology cfg) from_stage.

Definition _resolve_target_instance (rid target : string) (s : Stage) : res string :=
  if negb (is_replicated (cfg_topology cfg) target) then Ok target
  else match _replica_bindings s !! rid ≫= (.!! target) with
       | None => Raise (RuntimeError "no replica binding for target")
       | Some replica_id => resolve (cfg_topology cfg) target replica_id
       end.

Definition _record_aborted_request_id (rid : string) : Stage → Stage :=
  set_aborted (λ ids,
    let ids := {[rid]} ∪ ids in if bool_decide (10000 < Z.of_nat (size ids))%Z then ids ∩ prune ids else ids).

Definition _clear_request_state (rid : string) (s : Stage) : Stage :=
  let s := set_active (λ a, a ∖ {[rid]}) s in
  let s := set_input (ih_cancel rid) s in
  let s := set_queue (λ q, close rid (prune ({[rid]} ∪ _closed q)) q) s in
  let s := set_counters (filter (λ kv, kv.1.1 ≠ rid)) s in
  let s := set_targets (delete rid) (delete rid) s in
  set_bindings (delete rid) s.

Definition open_stream (rid : string) (s : Stage) : Stage :=
  match _stream_queue s with
  | Some q => if has rid q then s else set_queue (open rid) s
  | None => s
  end.

(** ** Sending, as a job's pieces of work

    A piece of work runs up to the await of its send; its result is the work that
    replaces it, or the exception that ends the job. *)
Inductive work :=
| WSignal (rid target : string)                       (* stream done to a target *)
| WNext (rid : string) (result : P) (stream_targets : gset string)
| WPayload (rid target : string) (result : P) (single : bool) (stream_targets : gset string)
| WChunk (rid target : string) (d : D)
| WChunkCoordinator (rid : string) (d : D)
| WFail (rid error : string)                          (* [_send_failure] *)
| WClear (rid : string)                               (* its end, after the send *)
| WCrashOne (rid error : string)                      (* one request of the crash handler *)
| WCommCleanup (rid : string)
| WClose.

(** The state after, the actions in order, and what is left of the work. *)
Definition outcome : Type := Stage * list action * res (list work).

Definition _can_send_full_payload_locally (rid target : string) (stream_targets : gset string) (s : Stage) : bool :=
  if bool_decide (target ∈ default ∅ (_nonlocal_stream_targets s !! rid)) then false
  else if bool_decide (target ∉ stream_targets) then true
  else bool_decide (target ∈ default ∅ (_local_stream_targets s !! rid)).

Definition record_target (rid target : string) (m : gmap string (gset string)) : gmap string (gset string) :=
  <[rid := {[target]} ∪ default ∅ (m !! rid)]> m.
Definition _record_local_stream_target (rid target : string) : Stage → Stage := set_targets (record_target rid target) id.
Definition _record_nonlocal_stream_target (rid target : string) : Stage → Stage := set_targets id (record_target rid target).

Definition _send_stream_signal_to_target (rid target : string) (is_done : bool) (error : option string) (s : Stage) : outcome :=
  if negb (cfg_owns_external_io cfg) then (s, [], Ok [])
  else match _resolve_target_instance rid target s with
  | Raise e => (s, [], Raise e)
  | Ok target =>
      if negb (bool_decide (target ∈ cfg_endpoints cfg)) then (s, [], Raise (RuntimeError "no endpoint configured for stream target"))
      else if bool_decide (target ∈ cfg_same_process_targets cfg) then
        if negb (cfg_has_dispatcher cfg) then (s, [], Raise (RuntimeError "same-process stream target requires a local dispatcher"))
        else (_record_local_stream_target rid target s, [SendSignal rid target is_done error true], Ok [])
      else (_record_nonlocal_stream_target rid target s, [SendSignal rid target is_done error false], Ok [])
  end.

Definition _send_stream_to_target (rid target : string) (d : D) (s : Stage) : outcome :=
  if negb (cfg_owns_external_io cfg) then (s, [], Ok [])
  else match _resolve_target_instance rid target s with
  | Raise e => (s, [], Raise e)
  | Ok target =>
      if negb (bool_decide (target ∈ cfg_endpoints cfg)) then (s, [], Raise (RuntimeError "no endpoint configured for stream target"))
      else
        let chunk_id := default 0%Z (_stream_chunk_counters s !! (rid, target)) in
        let s := set_counters (insert (rid, target) (chunk_id + 1)%Z) s in
        if bool_decide (target ∈ cfg_same_process_targets cfg) then
          if negb (cfg_has_dispatcher cfg) then (s, [], Raise (RuntimeError "same-process stream target requires a local dispatcher"))
          else (_record_local_stream_target rid target s, [SendChunk rid target chunk_id d true], Ok [])
        else
          let s := _record_nonlocal_stream_target rid target s in
          if negb (is_tensor d) then (s, [], Raise (TypeError "relay-backed stream chunks must be torch.Tensor"))
          else (s, [SendChunk rid target chunk_id d false], Ok [])
  end.

Definition _send_stream_to_coordinator (rid : string) (d : D) (s : Stage) : outcome :=
  if negb (cfg_is_terminal cfg) then (s, [], Raise (RuntimeError "emitted untargeted stream chunk but isn't terminal"))
  else if negb (cfg_owns_external_io cfg) then (s, [], Ok [])
  else if bool_decide (rid ∈ _aborted s) then (s, [], Ok [])
  else
    let chunk_id := default 0%Z (_stream_chunk_counters s !! (rid, "coordinator")) in
    (set_counters (insert (rid, "coordinator") (chunk_id + 1)%Z) s, [StreamToCoordinator rid chunk_id d], Ok []).

Definition _send_to_stage (rid target : string) (payload : P) (single : bool) (stream_targets : gset string) (s : Stage) : outcome :=
  if negb (cfg_owns_external_io cfg) then (s, [], Raise (RuntimeError "follower stage cannot send downstream data"))
  else match _resolve_target_instance rid target s with
  | Raise e => (s, [], Raise e)
  | Ok target =>
      if negb (bool_decide (target ∈ cfg_endpoints cfg)) then (s, [], Raise (RuntimeError "no endpoint configured for target"))
      else
        let projected := match cfg_project cfg target with Some f => f payload | None => payload end in
        let use_local := single || match cfg_project cfg target with Some _ => cfg_isolated cfg payload projected | None => false end in
        if use_local && bool_decide (target ∈ cfg_same_process_targets cfg)
           && _can_send_full_payload_locally rid target stream_targets s
        then if negb (cfg_has_dispatcher cfg) then (s, [], Raise (RuntimeError "same-process target requires a local dispatcher"))
             else (s, [SendPayload rid target projected (_replica_bindings s !! rid) true], Ok [])
        else (s, [SendPayload rid target projected (_replica_bindings s !! rid) false], Ok [])
  end.

(** [_send_failure], up to the await of its send. *)
Definition _send_failure (rid error : string) (s : Stage) : outcome :=
  let s := _record_aborted_request_id rid s in
  if negb (cfg_owns_external_io cfg)
  then (_clear_request_state rid s, [Cleared rid], Raise (RuntimeError "follower stage failed"))
  else (s, [CompleteFail rid error], Ok [WClear rid]).

(** [_route_result], up to its first send. *)
Definition _route_result (rid : string) (result : P) (s : Stage) : outcome :=
  if negb (cfg_owns_external_io cfg) then (_clear_request_state rid s, [Cleared rid], Ok [])
  else
    let stream_targets := match cfg_get_stream_done_targets cfg with
                          | Some f => default [] (f rid result)
                          | None => cfg_stream_targets cfg
                          end in
    (s, [], Ok (map (WSignal rid) stream_targets ++ [WNext rid result (list_to_set stream_targets)])).

(** After the stream signals: where the result goes. *)
Definition route_next (rid : string) (result : P) (stream_targets : gset string) (s : Stage) : outcome :=
  match cfg_get_next cfg rid result with
  | None => (s, [CompleteOk rid result], Ok [WClear rid])
  | Some next_stages =>
      let single := bool_decide (length next_stages = 1) in
      (s, [], Ok (map (λ t, WPayload rid t result single stream_targets) next_stages ++ [WClear rid]))
  end.

Definition run_work (w : work) (s : Stage) : outcome :=
  match w with
  | WSignal rid target => _send_stream_signal_to_target rid target true None s
  | WNext rid result stream_targets => route_next rid result stream_targets s
  | WPayload rid target result single stream_targets => _send_to_stage rid target result single stream_targets s
  | WChunk rid target d => _send_stream_to_target rid target d s
  | WChunkCoordinator rid d => _send_stream_to_coordinator rid d s
  | WFail rid error => _send_failure rid error s
  | WClear rid => (_clear_request_state rid s, [Cleared rid], Ok [])
  | WCrashOne rid error =>
      let '(s, acts, r) := _send_failure rid error s in (s, SchedulerAbort rid :: acts, r)
  | WCommCleanup rid => (s, [CommCleanup rid], Ok [])
  | WClose => (s, [CloseControlPlane], Ok [])
  end.

(** ** Handlers, between their awaits *)
Definition _execute (p : P) (s : Stage) : list action :=
  if bool_decide (payload_request_id p ∈ _aborted s) then []
  else (if cfg_fans_out_work cfg then [FanoutWork p] else []) ++ [NewRequest p].

Definition _on_submit (rid : string) (bindings : option (gmap string Z)) (p : P) (s : Stage) : Stage * list action :=
  if bool_decide (rid ∈ _aborted s) then (s, [])
  else
    let s := _record_replica_bindings rid bindings s in
    let s := open_stream rid (set_active (λ a, {[rid]} ∪ a) s) in
    (s, _execute p s).

Definition _receive_payload_from_stage (rid from_stage : string) (p : P) (s : Stage) : outcome :=
  if bool_decide (rid ∈ _aborted s) then (s, [], Ok [])
  else
    let s := open_stream rid (set_active (λ a, {[rid]} ∪ a) s) in
    let '(h, merged) := ih_receive rid (_logical_source from_stage) p (_input s) in
    let s := set_input (λ _, h) s in
    match merged with
    | Raise e => (s, [], Raise e)
    | Ok None => (s, [], Ok [])
    | Ok (Some m) => (s, _execute m s, Ok [])
    end.

(** [_open_pre_payload_stream_if_allowed], with the state it leaves. *)
Definition _open_pre_payload_stream_if_allowed (rid : string) (s : Stage) : Stage * bool :=
  match _stream_queue s with
  | None => (s, false)
  | Some q =>
      if has rid q then (s, true)
      else if negb (cfg_can_accept_stream_before_payload cfg) then (s, false)
      else (set_queue (open rid) (set_active (λ a, {[rid]} ∪ a) s), true)
  end.

(** A scheduler abort whose exceptions are suppressed, then [_send_failure]. *)
Definition abort_and_fail (rid error : string) (s : Stage) : outcome :=
  let '(s, acts, r) := _send_failure rid error s in (s, SchedulerAbort rid :: acts, r).

Definition _route_stream_item_or_fail (rid : string) (chunk_id : Z) (d : D) (from_stage : string) (s : Stage) : outcome :=
  let '(s, allowed) := _open_pre_payload_stream_if_allowed rid s in
  if (allowed : bool) then (s, [StreamChunkIn rid chunk_id d (_logical_source from_stage)], Ok [])
  else abort_and_fail rid "stream chunk arrived before the request payload" s.

Definition receive_local_stream_chunk (rid from_stage : string) (chunk_id : Z) (d : D) (bindings : option (gmap string Z))
    (s : Stage) : outcome :=
  if bool_decide (rid ∈ _aborted s) then (s, [], Ok [])
  else
    let s := set_active (λ a, {[rid]} ∪ a) (_record_replica_bindings rid bindings s) in
    _route_stream_item_or_fail rid chunk_id d from_stage s.

Definition _queue_stream_error (rid error : string) (s : Stage) : outcome :=
  if bool_decide (rid ∈ _aborted s) then (s, [], Ok []) else abort_and_fail rid error s.

Definition _receive_stream_signal (rid from_stage : string) (is_done : bool) (error : option string) (s : Stage) : outcome :=
  if bool_decide (rid ∈ _aborted s) then (s, [], Ok [])
  else
    let s := set_active (λ a, {[rid]} ∪ a) s in
    let e := default "" error in
    if bool_decide (e ≠ "") then _queue_stream_error rid e s
    else if (is_done : bool) then
      let '(s, allowed) := _open_pre_payload_stream_if_allowed rid s in
      if (allowed : bool)
      then (set_queue (put_done rid (Some (_logical_source from_stage))) s, [StreamDoneIn rid], Ok [])
      else abort_and_fail rid "stream_done arrived before the request payload" s
    else (s, [], Ok []).

Definition receive_local_payload (rid from_stage : string) (p : P) (bindings : option (gmap string Z)) (s : Stage) : outcome :=
  _receive_payload_from_stage rid from_stage p (_record_replica_bindings rid bindings s).

Definition receive_local_stream_signal (rid from_stage : string) (is_done : bool) (error : option string)
    (bindings : option (gmap string Z)) (s : Stage) : outcome :=
  _receive_stream_signal rid from_stage is_done error (_record_replica_bindings rid bindings s).

Definition _on_abort (rid : string) (s : Stage) : Stage * list action :=
  (_clear_request_state rid (_record_aborted_request_id rid s), [CommCleanup rid; Cleared rid; SchedulerAbort rid]).

(** One message of the scheduler's outbox.  The sends of a chunk to several targets,
    which the code gathers, are done one after the other. *)
Inductive scheduler_out :=
| OutResult (rid : string) (result : P)
| OutStream (rid : string) (d : D) (target : option string)
| OutError (rid error : string).

Definition out_request_id (o : scheduler_out) : string :=
  match o with OutResult rid _ | OutStream rid _ _ | OutError rid _ => rid end.

Definition _drain_outbox_external (o : scheduler_out) (s : Stage) : outcome :=
  if negb (bool_decide (out_request_id o ∈ _active_requests s)) then (s, [], Ok [])
  else match o with
  | OutResult rid result => _route_result rid result s
  | OutStream rid d None =>
      match cfg_stream_targets cfg with
      | [] => (s, [], Ok [WChunkCoordinator rid d])
      | targets => (s, [], Ok (map (λ t, WChunk rid t d) targets))
      end
  | OutStream rid d (Some target) => (s, [], Ok [WChunk rid target d])
  | OutError rid error => (s, [], Ok [WFail rid error])
  end.

Definition _drain_outbox_follower (o : scheduler_out) (s : Stage) : outcome :=
  match o with
  | OutResult rid _ => (_clear_request_state rid s, [Cleared rid], Ok [])
  | OutStream _ _ _ => (s, [], Ok [])
  | OutError _ _ => (s, [], Raise (RuntimeError "TP follower stage received scheduler error"))
  end.

Definition _drain_outbox (o : scheduler_out) (s : Stage) : outcome :=
  if cfg_owns_external_io cfg then _drain_outbox_external o s else _drain_outbox_follower o s.

(** [_handle_scheduler_crash]: the requests it fails, then the close. *)
Definition _handle_scheduler_crash (exc : string) (s : Stage) : list work :=
  if negb (cfg_owns_external_io cfg) then [WClose]
  else flat_map (λ rid, [WCrashOne rid exc; WCommCleanup rid]) (elements (_active_requests s ∖ _aborted s)) ++ [WClose].

(** ** The event loop

    [run], the receive tasks, the outbox drain and the calls of other stages in the
    process, interleaved at their awaits. *)
Record DataReadyMessage := mkReady {
  dm_request_id : string; dm_from_stage : string; dm_chunk_id : option Z; dm_is_done : bool; dm_error : option string;
  dm_bindings : option (gmap string Z) }.

Inductive handler := OnStreamSignal | OnStreamChunk (chunk_id : Z) | OnDataReady.

Definition handler_of (m : DataReadyMessage) : handler :=
  if dm_is_done m || bool_decide (is_Some (dm_error m)) then OnStreamSignal
  else match dm_chunk_id m with Some i => OnStreamChunk i | None => OnDataReady end.

(** What the transport delivers. *)
Inductive read_result :=
| ReadPayload (p : option P)
| ReadChunk (d : D)
| ReadFailed (through_relay : bool) (error : string).

(** A receive task, by the await it stands at.  It is drained without a delivery when
    its request was aborted before it started. *)
Inductive rstat :=
| RNew
| RDiscarding
| RReading
| RRead (r : read_result)
| RSending (ws : list work)
| RFinally (e : option exn)
| RFinished.

(** Numbered by arrival; the number names the completion future too. *)
Record rtask := mkTask { rt_msg : DataReadyMessage; rt_pred : option nat; rt_stat : rstat }.
Definition set_stat (st : rstat) (t : rtask) : rtask := mkTask (rt_msg t) (rt_pred t) st.
Definition lane (m : DataReadyMessage) : string * string := (dm_request_id m, dm_from_stage m).

Definition start_receive (m : DataReadyMessage) (s : Stage) : Stage * rstat :=
  let aborted := bool_decide (dm_request_id m ∈ _aborted s) in
  match handler_of m with
  | OnStreamSignal => (s, RRead (ReadPayload None))
  | OnStreamChunk _ => if aborted then (s, RDiscarding) else (set_active (λ a, {[dm_request_id m]} ∪ a) s, RReading)
  | OnDataReady => (s, if aborted then RDiscarding else RReading)
  end.

(** A payload that could not be read from a relay is dropped there at once. *)
Definition read_actions (m : DataReadyMessage) (r : read_result) : list action :=
  match handler_of m, r with OnDataReady, ReadFailed true _ => [CommCleanup (dm_request_id m)] | _, _ => [] end.

(** The handlers after their predecessor's completion; the ways a chunk or a payload
    can travel differ in how it is read only. *)
Definition _on_stream_signal (m : DataReadyMessage) (s : Stage) : outcome :=
  _receive_stream_signal (dm_request_id m) (dm_from_stage m) (dm_is_done m) (dm_error m) s.

Definition _on_stream_chunk (chunk_id : Z) (m : DataReadyMessage) (r : read_result) (s : Stage) : outcome :=
  match r with
  | ReadFailed _ e => _queue_stream_error (dm_request_id m) e s
  | ReadChunk d =>
      if bool_decide (dm_request_id m ∈ _aborted s) then (s, [], Ok [])
      else _route_stream_item_or_fail (dm_request_id m) chunk_id d (dm_from_stage m) s
  | ReadPayload _ => (s, [], Ok [])
  end.

Definition _on_data_ready (m : DataReadyMessage) (r : read_result) (s : Stage) : outcome :=
  match r with
  | ReadFailed _ e => _send_failure (dm_request_id m) e s
  | ReadPayload (Some p) => _receive_payload_from_stage (dm_request_id m) (dm_from_stage m) p s
  | _ => (s, [], Ok [])
  end.

Definition deliver (m : DataReadyMessage) (r : read_result) (s : Stage) : outcome :=
  match handler_of m with
  | OnStreamSignal => _on_stream_signal m s
  | OnStreamChunk i => _on_stream_chunk i m r s
  | OnDataReady => _on_data_ready m r s
  end.

(** [y_delivered] and [y_out] are histories, latest first; [y_error] is
    [_background_task_error], which stops the stage. *)
Record sys := mkSys {
  y_stage : Stage;
  y_tasks : gmap nat rtask;
  y_tails : gmap (string * string) nat;
  y_next : nat;
  y_jobs : gmap nat (list work);
  y_delivered : list nat;
  y_out : list action;
  y_error : option exn;
}.

Definition completed (tasks : gmap nat rtask) (i : nat) : Prop := ∃ t, tasks !! i = Some t ∧ rt_stat t = RFinished.
Definition after_predecessor (tasks : gmap nat rtask) (t : rtask) : Prop :=
  match rt_pred t with Some j => completed tasks j | None => True end.

Definition with_stage s acts y := mkSys s (y_tasks y) (y_tails y) (y_next y) (y_jobs y) (y_delivered y) (rev acts ++ y_out y) (y_error y).
Definition with_task i t y := mkSys (y_stage y) (<[i := t]> (y_tasks y)) (y_tails y) (y_next y) (y_jobs y) (y_delivered y) (y_out y) (y_error y).
Definition with_job i ws y := mkSys (y_stage y) (y_tasks y) (y_tails y) (y_next y) (<[i := ws]> (y_jobs y)) (y_delivered y) (y_out y) (y_error y).
Definition with_error e y := mkSys (y_stage y) (y_tasks y) (y_tails y) (y_next y) (y_jobs y) (y_delivered y) (y_out y) (Some e).
Definition delivered i y := mkSys (y_stage y) (y_tasks y) (y_tails y) (y_next y) (y_jobs y) (i :: y_delivered y) (y_out y) (y_error y).

Definition _schedule_receive_task (m : DataReadyMessage) (y : sys) : sys :=
  mkSys (_record_replica_bindings (dm_request_id m) (dm_bindings m) (y_stage y))
    (<[y_next y := mkTask m (y_tails y !! lane m) RNew]> (y_tasks y)) (<[lane m := y_next y]> (y_tails y)) (S (y_next y))
    (y_jobs y) (y_delivered y) (y_out y) (y_error y).

(** The end of [_run_receive_task]; an exception of the handler stops the stage. *)
Definition finish_receive (i : nat) (t : rtask) (e : option exn) (y : sys) : sys :=
  mkSys (y_stage y) (<[i := set_stat RFinished t]> (y_tasks y))
    (if bool_decide (y_tails y !! lane (rt_msg t) = Some i) then delete (lane (rt_msg t)) (y_tails y) else y_tails y)
    (y_next y) (y_jobs y) (y_delivered y) (y_out y) (match e with Some x => Some x | None => y_error y end).

Definition after_handler (r : res (list work)) : rstat :=
  match r with Ok [] => RFinally None | Ok ws => RSending ws | Raise e => RFinally (Some e) end.

(** What another stage of the process calls through the dispatcher. *)
Inductive local_call :=
| LocalPayload (rid from_stage : string) (p : P) (bindings : option (gmap string Z))
| LocalChunk (rid from_stage : string) (chunk_id : Z) (d : D) (bindings : option (gmap string Z))
| LocalSignal (rid from_stage : string) (is_done : bool) (error : option string) (bindings : option (gmap string Z)).

Definition run_local (c : local_call) (s : Stage) : outcome :=
  match c with
  | LocalPayload rid src p b => receive_local_payload rid src p b s
  | LocalChunk rid src i d b => receive_local_stream_chunk rid src i d b s
  | LocalSignal rid src is_done e b => receive_local_stream_signal rid src is_done e b s
  end.

(** A job's piece of work done: what replaces it goes before the rest.  An exception of the
    outbox drain stops the stage; one of a local call goes to the stage that called, and the
    call is over.  A scheduler crash is handled where failures are sent, which raises nothing. *)
Definition job_step (k : nat) (o : outcome) (rest : list work) (y : sys) : sys :=
  let '(s, acts, r) := o in
  match r with
  | Ok new => with_job k (new ++ rest) (with_stage s acts y)
  | Raise e => if bool_decide (k = 0) then with_error e (with_stage s acts y) else with_job k [] (with_stage s acts y)
  end.

Definition task_step (i : nat) (t : rtask) (o : outcome) (rest : list work) (y : sys) : sys :=
  let '(s, acts, r) := o in
  with_task i (set_stat (after_handler (new ← r; mret (new ++ rest))) t) (with_stage s acts y).

Definition start_task (i : nat) (t : rtask) (y : sys) : sys :=
  let '(s, st) := start_receive (rt_msg t) (y_stage y) in with_task i (set_stat st t) (with_stage s [] y).

Definition stage_call (o : Stage * list action) (y : sys) : sys := with_stage o.1 o.2 y.

(** Job 0 is the outbox drain, which takes one scheduler message at a time. *)
Inductive step : sys → sys → Prop :=
| ys_submit rid bindings p y : step y (stage_call (_on_submit rid bindings p (y_stage y)) y)
| ys_abort rid y : step y (stage_call (_on_abort rid (y_stage y)) y)
| ys_data_ready m y : step y (_schedule_receive_task m y)
| ys_start i t y : y_tasks y !! i = Some t → rt_stat t = RNew → step y (start_task i t y)
| ys_drained i t y :
    y_tasks y !! i = Some t → rt_stat t = RDiscarding → step y (with_task i (set_stat (RFinally None) t) y)
| ys_read i t r y :
    y_tasks y !! i = Some t → rt_stat t = RReading →
    step y (with_task i (set_stat (RRead r) t) (with_stage (y_stage y) (read_actions (rt_msg t) r) y))
| ys_deliver i t r y :
    y_tasks y !! i = Some t → rt_stat t = RRead r → after_predecessor (y_tasks y) t →
    step y (delivered i (task_step i t (deliver (rt_msg t) r (y_stage y)) [] y))
| ys_sent i t w ws y :
    y_tasks y !! i = Some t → rt_stat t = RSending (w :: ws) →
    step y (task_step i t (run_work w (y_stage y)) ws y)
| ys_finish i t e y :
    y_tasks y !! i = Some t → rt_stat t = RFinally e → after_predecessor (y_tasks y) t → step y (finish_receive i t e y)
| ys_local k c y : k ≠ 0 → y_jobs y !! k = None → step y (job_step k (run_local c (y_stage y)) [] y)
| ys_drain o y : default [] (y_jobs y !! 0) = [] → step y (job_step 0 (_drain_outbox o (y_stage y)) [] y)
| ys_work k w ws y : y_jobs y !! k = Some (w :: ws) → step y (job_step k (run_work w (y_stage y)) ws y)
| ys_scheduler_crash k exc y :
    k ≠ 0 → y_jobs y !! k = None → step y (with_job k (_handle_scheduler_crash exc (y_stage y)) y).

(** After an exception the loop is left and the tasks are cancelled: what they still do
    until then is not modelled. *)
Definition running_step (y y' : sys) : Prop := y_error y = None ∧ step y y'.

Definition stage_init (queue : bool) (h : H) : Stage :=
  mkStage ∅ ∅ (if queue then Some queue_init else None) ∅ ∅ ∅ ∅ h.
Definition sys_init (queue : bool) (h : H) : sys := mkSys (stage_init queue h) ∅ ∅ 0 ∅ [] [] None.

(** ** What an aborted request leaves *)

(** Nothing of the request is kept but stream bookkeeping. *)
Definition clean (rid : string) (s : Stage) : Prop :=
  rid ∉ _active_requests s ∧ (∀ q, _stream_queue s = Some q → _queues q !! rid = None) ∧
  _replica_bindings s !! rid = None ∧ ¬ ih_holds rid (_input s).

(** The same for every request but [rid]. *)
Definition touches (rid : string) (s s' : Stage) : Prop :=
  _aborted s' = _aborted s ∧ ∀ r, r ≠ rid → clean r s → clean r s'.

Lemma touches_refl rid s : touches rid s s.
Proof. by split. Qed.
Lemma touches_trans rid s1 s2 s3 : touches rid s1 s2 → touches rid s2 s3 → touches rid s1 s3.
Proof. intros [H1 H2] [H3 H4]. split; [congruence|]. auto. Qed.

Lemma touches_active rid s : touches rid s (set_active (λ a, {[rid]} ∪ a) s).
Proof. split; [done|]. intros r Hne (Ha & Hq & Hb & Hi). split_and!; try done. simpl. set_solver. Qed.

Lemma touches_queue rid (f : StreamQueue D exn → StreamQueue D exn) s :
  (∀ q r, r ≠ rid → _queues q !! r = None → _queues (f q) !! r = None) → touches rid s (set_queue f s).
Proof.
  intros Hf. split; [done|]. intros r Hne (Ha & Hq & Hb & Hi). split_and!; try done. simpl.
  intros q' Hq'. destruct (_stream_queue s) as [q|]; simplify_eq/=. by apply Hf; [|apply Hq].
Qed.

Lemma open_other rid (q : StreamQueue D exn) r : r ≠ rid → _queues q !! r = None → _queues (open rid q) !! r = None.
Proof. intros Hne Hq. simpl. destruct (_queues q !! rid); [done|]. by rewrite lookup_insert_ne. Qed.

Lemma touches_open_stream rid s : touches rid s (open_stream rid s).
Proof.
  unfold open_stream. destruct (_stream_queue s); [|apply touches_refl]. destruct (has _ _); [apply touches_refl|].
  apply touches_queue. apply open_other.
Qed.

Lemma touches_record rid b s : touches rid s (_record_replica_bindings rid b s).
Proof.
  unfold _record_replica_bindings. destruct b as [b|]; [|apply touches_refl]. destruct (_ || _); [apply touches_refl|].
  destruct (_replica_bindings s !! rid); [apply touches_refl|]. split; [done|].
  intros r Hne (Ha & Hq & Hb & Hi). split_and!; try done. simpl. by rewrite lookup_insert_ne.
Qed.

Lemma touches_receive rid src p s h x :
  ih_receive rid src p (_input s) = (h, x) → touches rid s (set_input (λ _, h) s).
Proof.
  intros He. split; [done|]. intros r Hne (Ha & Hq & Hb & Hi). split_and!; try done. simpl.
  replace h with (ih_receive rid src p (_input s)).1 by by rewrite He. intros Hh. by apply Hi, (ih_receive_frame r rid src p).
Qed.

Lemma clear_clean rid s : clean rid (_clear_request_state rid s).
Proof.
  unfold _clear_request_state, clean. simpl. split_and!; [set_solver| | |].
  - intros q Hq. destruct (_stream_queue s); simplify_eq/=. by rewrite lookup_delete_eq.
  - by rewrite lookup_delete_eq.
  - apply ih_cancel_clears.
Qed.

Lemma touches_clear rid s : touches rid s (_clear_request_state rid s).
Proof.
  split; [done|]. intros r Hne (Ha & Hq & Hb & Hi). unfold _clear_request_state, clean. simpl. split_and!.
  - set_solver.
  - intros q Hq'. destruct (_stream_queue s) as [q0|]; simplify_eq/=. rewrite lookup_delete_ne by done. by apply Hq.
  - by rewrite lookup_delete_ne.
  - intros Hh. by apply Hi, (ih_cancel_frame r rid).
Qed.

(** After a step of a handler: an id that is aborted was so before and as clean as
    before, or is clean, or its state goes with the work that comes first. *)
Definition abort_ok (s : Stage) (o : outcome) : Prop :=
  ∀ rid, rid ∈ _aborted o.1.1 →
    (rid ∈ _aborted s ∧ (clean rid s → clean rid o.1.1)) ∨ clean rid o.1.1 ∨ ∃ ws, o.2 = Ok (WClear rid :: ws).

Lemma touches_ok rid s o : rid ∉ _aborted s → touches rid s o.1.1 → abort_ok s o.
Proof. intros Hn [Ha Hc] r Hr. left. rewrite Ha in Hr. split; [done|]. apply Hc. by intros ->. Qed.

(** Only stream bookkeeping moves. *)
Definition same_core (s s' : Stage) : Prop :=
  _aborted s' = _aborted s ∧ _active_requests s' = _active_requests s ∧ _stream_queue s' = _stream_queue s ∧
  _replica_bindings s' = _replica_bindings s ∧ _input s' = _input s.

Lemma same_core_ok s o : same_core s o.1.1 → abort_ok s o.
Proof. intros (H1 & H2 & H3 & H4 & H5) r Hr. left. rewrite H1 in Hr. split; [done|]. unfold clean. by rewrite H2, H3, H4, H5. Qed.

Lemma aborted_record rid s r : r ∈ _aborted (_record_aborted_request_id rid s) → r = rid ∨ r ∈ _aborted s.
Proof. simpl. case_bool_decide; set_solver. Qed.

Lemma send_failure_ok rid e s s0 : touches rid s0 s → abort_ok s0 (_send_failure rid e s).
Proof.
  intros [Ha Hc]. unfold _send_failure.
  assert (∀ r, r ≠ rid → clean r s0 → clean r (_record_aborted_request_id rid s)) as Hrec by (intros r Hne Hr; by apply Hc).
  destruct (cfg_owns_external_io cfg); intros r Hr; change (r ∈ _aborted (_record_aborted_request_id rid s)) in Hr;
    cbn [negb fst snd].
  - destruct (decide (r = rid)) as [->|Hne]; [right; right; by eexists|]. left.
    apply aborted_record in Hr as [?|Hr]; [done|]. rewrite Ha in Hr. split; [done|]. by apply Hrec.
  - destruct (decide (r = rid)) as [->|Hne]; [right; left; apply clear_clean|]. left.
    apply aborted_record in Hr as [?|Hr]; [done|]. rewrite Ha in Hr. split; [done|]. intros Hcl. apply touches_clear; auto.
Qed.

Lemma abort_and_fail_ok rid e s s0 : touches rid s0 s → abort_ok s0 (abort_and_fail rid e s).
Proof.
  intros Ht. pose proof (send_failure_ok rid e s s0 Ht) as H0. unfold abort_and_fail.
  by destruct (_send_failure rid e s) as [[s' acts] r].
Qed.

Lemma signal_core rid target b e s : same_core s (_send_stream_signal_to_target rid target b e s).1.1.
Proof.
  unfold _send_stream_signal_to_target. destruct (cfg_owns_external_io cfg); simpl; [|done].
  destruct (_resolve_target_instance _ _ _); [|done]. destruct (bool_decide _); simpl; [|done].
  destruct (bool_decide _); [|done]. by destruct (cfg_has_dispatcher cfg).
Qed.

Lemma chunk_core rid target d s : same_core s (_send_stream_to_target rid target d s).1.1.
Proof.
  unfold _send_stream_to_target. destruct (cfg_owns_external_io cfg); simpl; [|done].
  destruct (_resolve_target_instance _ _ _); [|done]. destruct (bool_decide _); simpl; [|done].
  destruct (bool_decide _); [by destruct (cfg_has_dispatcher cfg)|]. by destruct (is_tensor d).
Qed.

Lemma coordinator_core rid d s : same_core s (_send_stream_to_coordinator rid d s).1.1.
Proof.
  unfold _send_stream_to_coordinator. destruct (cfg_is_terminal cfg); simpl; [|done].
  destruct (cfg_owns_external_io cfg); simpl; [|done]. by destruct (bool_decide _).
Qed.

Lemma payload_core rid target p single ts s : same_core s (_send_to_stage rid target p single ts s).1.1.
Proof.
  unfold _send_to_stage. destruct (cfg_owns_external_io cfg); simpl; [|done].
  destruct (_resolve_target_instance _ _ _); [|done]. destruct (bool_decide _); simpl; [|done].
  destruct (_ && _); [|done]. by destruct (cfg_has_dispatcher cfg).
Qed.

Lemma clear_ok rid s acts r : abort_ok s (_clear_request_state rid s, acts, r).
Proof.
  intros x Hx. simpl in *. destruct (decide (x = rid)) as [->|Hne]; [right; left; apply clear_clean|].
  left. split; [done|]. by apply touches_clear.
Qed.

Lemma run_work_ok w s : abort_ok s (run_work w s).
Proof.
  destruct w; simpl.
  - apply same_core_ok, signal_core.
  - apply same_core_ok. unfold route_next. by destruct (cfg_get_next cfg rid result).
  - apply same_core_ok, payload_core.
  - apply same_core_ok, chunk_core.
  - apply same_core_ok, coordinator_core.
  - apply send_failure_ok, touches_refl.
  - apply clear_ok.
  - apply abort_and_fail_ok, touches_refl.
  - by apply same_core_ok.
  - by apply same_core_ok.
Qed.

Lemma receive_payload_ok rid src p s s0 :
  rid ∉ _aborted s0 ∨ s = s0 → touches rid s0 s → abort_ok s0 (_receive_payload_from_stage rid src p s).
Proof.
  intros Hor Ht. unfold _receive_payload_from_stage. case_bool_decide as Ha.
  { destruct Hor as [Hn| ->]; [by rewrite (proj1 Ht) in Ha|by apply same_core_ok]. }
  assert (rid ∉ _aborted s0) as Hn by (by rewrite (proj1 Ht) in Ha).
  destruct (ih_receive rid _ p _) as [h m] eqn:E. apply touches_receive in E.
  assert (touches rid s0 (set_input (λ _, h) (open_stream rid (set_active (λ a, {[rid]} ∪ a) s)))) as Hall.
  { eapply touches_trans; [exact Ht|]. eapply touches_trans; [apply touches_active|].
    eapply touches_trans; [apply touches_open_stream|exact E]. }
  destruct m as [[m|]|e]; by apply (touches_ok rid).
Qed.

Lemma pre_payload_touches rid s : touches rid s (_open_pre_payload_stream_if_allowed rid s).1.
Proof.
  unfold _open_pre_payload_stream_if_allowed. destruct (_stream_queue s); [|apply touches_refl].
  destruct (has _ _); [apply touches_refl|]. destruct (cfg_can_accept_stream_before_payload cfg); [|apply touches_refl].
  eapply touches_trans; [apply touches_active|]. apply touches_queue. apply open_other.
Qed.

Lemma route_chunk_ok rid i d src s s0 :
  rid ∉ _aborted s0 → touches rid s0 s → abort_ok s0 (_route_stream_item_or_fail rid i d src s).
Proof.
  intros Hn Ht. unfold _route_stream_item_or_fail. pose proof (pre_payload_touches rid s) as Hp.
  destruct (_open_pre_payload_stream_if_allowed rid s) as [s' []]; simpl in *.
  - apply (touches_ok rid); [done|]. by eapply touches_trans.
  - apply abort_and_fail_ok. by eapply touches_trans.
Qed.

Lemma stream_error_ok rid e s s0 : rid ∉ _aborted s0 → touches rid s0 s → abort_ok s0 (_queue_stream_error rid e s).
Proof. intros Hn Ht. unfold _queue_stream_error. case_bool_decide; [by apply (touches_ok rid)|]. by apply abort_and_fail_ok. Qed.

Lemma receive_signal_ok rid src b e s s0 :
  rid ∉ _aborted s0 ∨ s = s0 → touches rid s0 s → abort_ok s0 (_receive_stream_signal rid src b e s).
Proof.
  intros Hor Ht. unfold _receive_stream_signal. case_bool_decide as Ha.
  { destruct Hor as [Hn| ->]; [by rewrite (proj1 Ht) in Ha|by apply same_core_ok]. }
  assert (rid ∉ _aborted s0) as Hn by (by rewrite (proj1 Ht) in Ha).
  assert (touches rid s0 (set_active (λ a, {[rid]} ∪ a) s)) as Ht1 by (eapply touches_trans; [exact Ht|apply touches_active]).
  case_bool_decide; [by apply stream_error_ok|]. destruct b; [|by apply (touches_ok rid)].
  pose proof (pre_payload_touches rid (set_active (λ a, {[rid]} ∪ a) s)) as Hp.
  destruct (_open_pre_payload_stream_if_allowed rid _) as [s' []]; simpl in *.
  - apply (touches_ok rid); [done|]. eapply touches_trans; [exact Ht1|]. eapply touches_trans; [exact Hp|].
    apply touches_queue. intros q r Hne Hq. simpl. by rewrite lookup_alter_ne.
  - apply abort_and_fail_ok. by eapply touches_trans.
Qed.

Lemma record_unaborted rid b s : rid ∉ _aborted s ∨ _record_replica_bindings rid b s = s.
Proof.
  destruct (decide (rid ∈ _aborted s)) as [Ha|Ha]; [right|by left]. unfold _record_replica_bindings. destruct b; [|done].
  rewrite (bool_decide_true (rid ∈ _aborted s)) by done. by rewrite orb_true_r.
Qed.

Lemma run_local_ok c s : abort_ok s (run_local c s).
Proof.
  destruct c as [rid src p b|rid src i d b|rid src dn e b]; simpl.
  - apply receive_payload_ok; [apply record_unaborted|apply touches_record].
  - unfold receive_local_stream_chunk. case_bool_decide; [by apply same_core_ok|]. apply route_chunk_ok; [done|].
    eapply touches_trans; [apply touches_record|apply touches_active].
  - apply receive_signal_ok; [apply record_unaborted|apply touches_record].
Qed.

Lemma deliver_ok m r s : abort_ok s (deliver m r s).
Proof.
  unfold deliver, _on_stream_signal, _on_stream_chunk, _on_data_ready. destruct (handler_of m) as [|i|].
  - apply receive_signal_ok; [by right|apply touches_refl].
  - destruct r as [p|d|relay e]; [by apply same_core_ok| |].
    + case_bool_decide; [by apply same_core_ok|]. apply route_chunk_ok; [done|apply touches_refl].
    + unfold _queue_stream_error. case_bool_decide; [by apply same_core_ok|]. apply abort_and_fail_ok, touches_refl.
  - destruct r as [[p|]|d|relay e]; [apply receive_payload_ok; [by right|apply touches_refl]|by apply same_core_ok..|].
    apply send_failure_ok, touches_refl.
Qed.

Lemma drain_ok o s : abort_ok s (_drain_outbox o s).
Proof.
  unfold _drain_outbox. destruct (cfg_owns_external_io cfg) eqn:E.
  - unfold _drain_outbox_external. destruct (negb _); [by apply same_core_ok|].
    destruct o as [rid result|rid d [target|]|rid e]; [|by apply same_core_ok| |by apply same_core_ok].
    + unfold _route_result. rewrite E. by apply same_core_ok.
    + by destruct (cfg_stream_targets cfg); apply same_core_ok.
  - destruct o; [apply clear_ok|by apply same_core_ok..].
Qed.

(** ** The receive lanes *)
Definition same_lane (t u : rtask) : Prop := lane (rt_msg t) = lane (rt_msg u).

(** Every earlier task of its lane is finished. *)
Definition turn (tasks : gmap nat rtask) (i : nat) (t : rtask) : Prop :=
  ∀ k u, k < i → tasks !! k = Some u → same_lane u t → rt_stat u = RFinished.

Definition past_delivery (st : rstat) : Prop := match st with RSending _ | RFinally _ | RFinished => True | _ => False end.

Record lanes_inv (tasks : gmap nat rtask) (tails : gmap (string * string) nat) (next : nat) (hist : list nat) : Prop := {
  li_dom : ∀ i, is_Some (tasks !! i) → i < next;
  li_pred : ∀ i t, tasks !! i = Some t → match rt_pred t with
    | Some j => j < i ∧ (∃ u, tasks !! j = Some u ∧ same_lane u t) ∧
        ∀ k u, k < i → tasks !! k = Some u → same_lane u t → k ≤ j
    | None => turn tasks i t
    end;
  li_done : ∀ i t, tasks !! i = Some t → rt_stat t = RFinished → turn tasks i t;
  li_work : ∀ i t ws, tasks !! i = Some t → rt_stat t = RSending ws → ∃ rid, ws = [WClear rid];
  li_tail : ∀ l, match tails !! l with
    | Some j => (∃ u, tasks !! j = Some u ∧ lane (rt_msg u) = l) ∧ ∀ k u, tasks !! k = Some u → lane (rt_msg u) = l → k ≤ j
    | None => ∀ k u, tasks !! k = Some u → lane (rt_msg u) = l → rt_stat u = RFinished
    end;
  li_delivered : ∀ i, i ∈ hist → ∃ t, tasks !! i = Some t ∧ past_delivery (rt_stat t) ∧ turn tasks i t;
  li_order : StronglySorted (λ i k, ∀ t u, tasks !! i = Some t → tasks !! k = Some u → same_lane t u → k < i) hist;
}.

Lemma predecessor_turn tasks tails next hist i t :
  lanes_inv tasks tails next hist → tasks !! i = Some t → after_predecessor tasks t → turn tasks i t.
Proof.
  intros Hl Hi Ha k u Hk Hu Hlane. pose proof (li_pred _ _ _ _ Hl i t Hi) as Hp. unfold after_predecessor in Ha.
  destruct (rt_pred t) as [j|]; [|by eapply Hp]. destruct Hp as (Hj & (v & Hv & Hvl) & Hmax).
  destruct Ha as (v' & Hv' & Hfin). assert (v' = v) as -> by congruence.
  specialize (Hmax k u Hk Hu Hlane). destruct (decide (k = j)) as [->|Hne]; [congruence|].
  apply (li_done _ _ _ _ Hl j v Hv Hfin k u ltac:(lia) Hu). unfold same_lane in *. congruence.
Qed.

(** A task changes its status: its number, message and predecessor stay. *)
Lemma restat_back (tasks : gmap nat rtask) i t st k u :
  tasks !! i = Some t → <[i := set_stat st t]> tasks !! k = Some u →
  ∃ u0, tasks !! k = Some u0 ∧ rt_msg u0 = rt_msg u ∧ rt_pred u0 = rt_pred u ∧ ((k = i ∧ u0 = t ∧ u = set_stat st t) ∨ (k ≠ i ∧ u0 = u)).
Proof.
  intros Hi [[<- <-]|[Hne Hu]]%lookup_insert_Some; [exists t|exists u]; (split; [done|]; split; [done|]; split; [done|]); [by left|].
  right. split; [by intros ->|done].
Qed.

Lemma restat_fwd (tasks : gmap nat rtask) i t st k u0 :
  tasks !! i = Some t → tasks !! k = Some u0 → ∃ u, <[i := set_stat st t]> tasks !! k = Some u ∧ rt_msg u = rt_msg u0.
Proof.
  intros Hi Hk. destruct (decide (i = k)) as [<-|Hne]; [|exists u0; by rewrite lookup_insert_ne].
  exists (set_stat st t). rewrite lookup_insert_eq. split; [done|]. simpl. congruence.
Qed.

Lemma restat_turn (tasks : gmap nat rtask) i t st j u u0 :
  tasks !! i = Some t → (rt_stat t = RFinished → st = RFinished) → rt_msg u0 = rt_msg u →
  turn tasks j u0 → turn (<[i := set_stat st t]> tasks) j u.
Proof.
  intros Hi Hf Hm Ht k v Hk Hv Hlane. destruct (restat_back _ _ _ _ _ _ Hi Hv) as (v0 & Hv0 & Hmv & _ & Hcase).
  assert (rt_stat v0 = RFinished) as Hfin by (apply (Ht k v0 Hk Hv0); unfold same_lane in *; congruence).
  destruct Hcase as [(-> & -> & ->)|[_ ->]]; [by apply Hf|done].
Qed.

Lemma sorted_impl {A : Type} (R1 R2 : A → A → Prop) (l : list A) :
  (∀ x y, R1 x y → R2 x y) → StronglySorted R1 l → StronglySorted R2 l.
Proof.
  intros Himp Hs. induction Hs as [|x l _ IH Hx]; constructor; [done|].
  apply Forall_forall. intros y Hy. apply Himp. by eapply Forall_forall in Hx.
Qed.

Lemma lanes_restat (tasks : gmap nat rtask) (tails tails' : gmap (string * string) nat) next hist i t st :
  lanes_inv tasks tails next hist → tasks !! i = Some t →
  (rt_stat t = RFinished → st = RFinished) → (st = RFinished → turn tasks i t) → (∀ ws, st = RSending ws → ∃ rid, ws = [WClear rid]) →
  (past_delivery (rt_stat t) → past_delivery st) →
  (∀ l, tails' !! l = tails !! l ∨ (l = lane (rt_msg t) ∧ tails' !! l = None ∧ tails !! l = Some i ∧ st = RFinished)) →
  lanes_inv (<[i := set_stat st t]> tasks) tails' next hist.
Proof.
  intros Hl Hi Hf Hst Hw Hpast Htails. split.
  - intros k [u Hu]. destruct (restat_back _ _ _ _ _ _ Hi Hu) as (u0 & Hu0 & _). eapply li_dom; eauto.
  - intros k u Hu. destruct (restat_back _ _ _ _ _ _ Hi Hu) as (u0 & Hu0 & Hm & Hp & _). pose proof (li_pred _ _ _ _ Hl k u0 Hu0) as H0.
    rewrite Hp in H0. destruct (rt_pred u) as [j|]; [|by eapply restat_turn]. destruct H0 as (Hj & (v & Hv & Hvl) & Hmax).
    split; [done|]. destruct (restat_fwd _ _ _ st _ _ Hi Hv) as (v' & Hv' & Hmv).
    split; [exists v'; split; [done|]; unfold same_lane in *; congruence|]. intros x w Hx Hw' Hlane.
    destruct (restat_back _ _ _ _ _ _ Hi Hw') as (w0 & Hw0 & Hmw & _). apply (Hmax x w0 Hx Hw0). unfold same_lane in *. congruence.
  - intros k u Hu Hfin. destruct (restat_back _ _ _ _ _ _ Hi Hu) as (u0 & Hu0 & Hm & _ & Hcase). eapply restat_turn; [done|done|done|].
    destruct Hcase as [(-> & -> & ->)|[_ ->]]; [by apply Hst|by eapply li_done].
  - intros k u ws Hu Hws. destruct (restat_back _ _ _ _ _ _ Hi Hu) as (u0 & Hu0 & _ & _ & [(-> & -> & ->)|[_ ->]]); [by apply Hw|by eapply li_work].
  - intros l. pose proof (li_tail _ _ _ _ Hl l) as Ht. destruct (Htails l) as [->|(-> & -> & Hti & ->)].
    + destruct (tails !! l) as [j|].
      * destruct Ht as [(u & Hu & Hul) Hmax]. destruct (restat_fwd _ _ _ st _ _ Hi Hu) as (u' & Hu' & Hmu).
        split; [exists u'; split; [done|congruence]|]. intros k v Hv Hvl.
        destruct (restat_back _ _ _ _ _ _ Hi Hv) as (v0 & Hv0 & Hmv & _). apply (Hmax k v0 Hv0). congruence.
      * intros k v Hv Hvl. destruct (restat_back _ _ _ _ _ _ Hi Hv) as (v0 & Hv0 & Hmv & _ & Hcase).
        assert (rt_stat v0 = RFinished) as Hv0f by (apply (Ht k v0 Hv0); congruence).
        destruct Hcase as [(-> & -> & ->)|[_ ->]]; [by apply Hf|done].
    + rewrite Hti in Ht. destruct Ht as [_ Hmax]. intros k v Hv Hvl.
      destruct (restat_back _ _ _ _ _ _ Hi Hv) as (v0 & Hv0 & Hmv & _ & [(-> & -> & ->)|[Hki ->]]); [done|].
      apply (Hst eq_refl k v); [|done|done]. specialize (Hmax k v Hv0 Hvl). lia.
  - intros k Hk. destruct (li_delivered _ _ _ _ Hl k Hk) as (u & Hu & Hpd & Htu). destruct (restat_fwd _ _ _ st _ _ Hi Hu) as (u' & Hu' & Hmu).
    exists u'. split; [done|]. split; [|by eapply restat_turn].
    destruct (restat_back _ _ _ _ _ _ Hi Hu') as (u0 & Hu0 & _ & _ & [(-> & -> & ->)|[_ ->]]); [|congruence].
    apply Hpast. congruence.
  - eapply sorted_impl; [|exact (li_order _ _ _ _ Hl)]. intros x y Hxy a b Ha Hb Hab.
    destruct (restat_back _ _ _ _ _ _ Hi Ha) as (a0 & Ha0 & Hma & _). destruct (restat_back _ _ _ _ _ _ Hi Hb) as (b0 & Hb0 & Hmb & _).
    eapply Hxy; [done|done|]. unfold same_lane in *. congruence.
Qed.

Lemma lanes_move (tasks : gmap nat rtask) tails next hist i t st :
  lanes_inv tasks tails next hist → tasks !! i = Some t → rt_stat t ≠ RFinished → st ≠ RFinished → (∀ ws, st = RSending ws → ∃ rid, ws = [WClear rid]) →
  (past_delivery (rt_stat t) → past_delivery st) → lanes_inv (<[i := set_stat st t]> tasks) tails next hist.
Proof. intros Hl Hi Hnf Hst Hw Hp. eapply lanes_restat; try done. intros l. by left. Qed.

(** A task's delivery is recorded. *)
Lemma lanes_deliver tasks tails next hist i t :
  lanes_inv tasks tails next hist → tasks !! i = Some t → past_delivery (rt_stat t) → turn tasks i t → rt_stat t ≠ RFinished →
  i ∉ hist → lanes_inv tasks tails next (i :: hist).
Proof.
  intros Hl Hi Hp Ht Hnf Hni. destruct Hl as [H1 H2 H3 H4 H5 H6 H7]. split; try done.
  - intros k [->|Hk]%elem_of_cons; [by exists t|by apply H6].
  - constructor; [done|]. apply Forall_forall. intros k Hk a b Ha Hb Hab. assert (a = t) as -> by congruence.
    destruct (H6 k Hk) as (u & Hu & _ & Htu). assert (b = u) as -> by congruence.
    destruct (decide (k < i)) as [|Hge]; [done|]. exfalso. destruct (decide (k = i)) as [->|Hne]; [done|].
    apply Hnf, (Htu i t ltac:(lia) Hi). done.
Qed.

Lemma lanes_finish (tasks : gmap nat rtask) tails next hist i t :
  lanes_inv tasks tails next hist → tasks !! i = Some t → after_predecessor tasks t →
  lanes_inv (<[i := set_stat RFinished t]> tasks)
    (if bool_decide (tails !! lane (rt_msg t) = Some i) then delete (lane (rt_msg t)) tails else tails) next hist.
Proof.
  intros Hl Hi Ha. eapply lanes_restat; try done; [by intros _; eapply predecessor_turn|].
  intros l. case_bool_decide; [|by left]. destruct (decide (l = lane (rt_msg t))) as [->|Hne].
  - right. by rewrite lookup_delete_eq.
  - left. by rewrite lookup_delete_ne.
Qed.

Lemma lanes_schedule tasks tails next hist m :
  lanes_inv tasks tails next hist →
  lanes_inv (<[next := mkTask m (tails !! lane m) RNew]> tasks) (<[lane m := next]> tails) (S next) hist.
Proof.
  intros Hl. set (t := mkTask m (tails !! lane m) RNew).
  assert (tasks !! next = None) as Hfresh.
  { destruct (tasks !! next) eqn:E; [|done]. exfalso. enough (next < next) by lia. eapply li_dom; eauto. }
  assert (∀ k u, tasks !! k = Some u → k < next ∧ <[next := t]> tasks !! k = Some u) as Hold.
  { intros k u Hk. assert (k < next) by (eapply li_dom; eauto). split; [done|]. rewrite lookup_insert_ne by lia. done. }
  assert (∀ j u, j ≤ next → turn tasks j u → turn (<[next := t]> tasks) j u) as Hturn.
  { intros j u Hj Ht k v Hk Hv. rewrite lookup_insert_ne in Hv by lia. exact (Ht k v Hk Hv). }
  split.
  - intros k [u [[<- _]|[_ Hu]]%lookup_insert_Some]; [lia|]. destruct (Hold k u Hu). lia.
  - intros k u [[<- <-]|[Hne Hu]]%lookup_insert_Some.
    + simpl. pose proof (li_tail _ _ _ _ Hl (lane m)) as Ht. destruct (tails !! lane m) as [j|] eqn:Et.
      * destruct Ht as [(u & Hu & Hul) Hmax]. destruct (Hold j u Hu) as [Hj Hu']. split; [done|]. split; [by exists u|].
        intros k v Hk Hv Hvl. rewrite lookup_insert_ne in Hv by lia. by apply (Hmax k v).
      * intros k v Hk Hv Hvl. rewrite lookup_insert_ne in Hv by lia. by apply (Ht k v).
    + destruct (Hold k u Hu) as [Hk _]. pose proof (li_pred _ _ _ _ Hl k u Hu) as Hp.
      destruct (rt_pred u) as [j|]; [|by apply Hturn; [lia|exact Hp]]. destruct Hp as (Hj & (v & Hv & Hvl) & Hmax).
      split; [done|]. split; [exists v; split; [by apply Hold|done]|]. intros x w Hx Hw Hwl.
      rewrite lookup_insert_ne in Hw by lia. by apply (Hmax x w).
  - intros k u [[<- <-]|[Hne Hu]]%lookup_insert_Some Hf; [done|]. destruct (Hold k u Hu) as [Hk _]. apply Hturn; [lia|]. by eapply li_done.
  - intros k u ws [[<- <-]|[Hne Hu]]%lookup_insert_Some Hws; [done|by eapply li_work].
  - intros l. destruct (decide (l = lane m)) as [->|Hne].
    + rewrite lookup_insert_eq. split; [exists t; by rewrite lookup_insert_eq|].
      intros k u [[<- _]|[_ Hu]]%lookup_insert_Some _; [done|]. destruct (Hold k u Hu). lia.
    + rewrite lookup_insert_ne by done. pose proof (li_tail _ _ _ _ Hl l) as Ht. destruct (tails !! l) as [j|].
      * destruct Ht as [(u & Hu & Hul) Hmax]. split; [exists u; split; [by apply Hold|done]|].
        intros k v [[<- <-]|[_ Hv]]%lookup_insert_Some Hvl; [by destruct Hne|by apply (Hmax k v)].
      * intros k v [[<- <-]|[_ Hv]]%lookup_insert_Some Hvl; [by destruct Hne|by apply (Ht k v)].
  - intros k Hk. destruct (li_delivered _ _ _ _ Hl k Hk) as (u & Hu & Hpd & Htu). destruct (Hold k u Hu) as [Hlt Hu'].
    exists u. split; [done|]. split; [done|]. apply Hturn; [lia|done].
  - assert (Forall (λ i, i < next) hist) as Hlt.
    { apply Forall_forall. intros i Hi. destruct (li_delivered _ _ _ _ Hl i Hi) as (u & Hu & _). by apply (Hold i u). }
    pose proof (li_order _ _ _ _ Hl) as Ho. clear -Ho Hlt.
    induction Ho as [|x l _ IH Hx]; [constructor|]. apply Forall_cons in Hlt as [Hxn Hln]. constructor; [by apply IH|].
    apply Forall_forall. intros y Hy a b Ha Hb Hab. eapply Forall_forall in Hx; [|done]. eapply Forall_forall in Hln; [|done].
    rewrite lookup_insert_ne in Ha, Hb by lia. by eapply Hx.
Qed.

(** What a delivery leaves to do is the end of a failure, or nothing. *)
Lemma send_failure_work rid e s ws : (_send_failure rid e s).2 = Ok ws → ∃ r, ws = [WClear r].
Proof. unfold _send_failure. destruct (cfg_owns_external_io cfg); intros [=<-]. by exists rid. Qed.

Lemma abort_and_fail_work rid e s ws : (abort_and_fail rid e s).2 = Ok ws → ∃ r, ws = [WClear r].
Proof. intros H0. apply (send_failure_work rid e s). unfold abort_and_fail in H0. destruct (_send_failure rid e s) as [[? ?] ?]. exact H0. Qed.

Lemma route_chunk_work rid i d src s ws :
  (_route_stream_item_or_fail rid i d src s).2 = Ok ws → ws = [] ∨ ∃ r, ws = [WClear r].
Proof.
  unfold _route_stream_item_or_fail. destruct (_open_pre_payload_stream_if_allowed rid s) as [s' []].
  - intros [=<-]. by left.
  - intros Hw. right. by eapply abort_and_fail_work.
Qed.

Lemma stream_error_work rid e s ws : (_queue_stream_error rid e s).2 = Ok ws → ws = [] ∨ ∃ r, ws = [WClear r].
Proof.
  unfold _queue_stream_error. case_bool_decide; [intros [=<-]; by left|]. intros Hw. right. by eapply abort_and_fail_work.
Qed.

Lemma receive_signal_work rid src b e s ws :
  (_receive_stream_signal rid src b e s).2 = Ok ws → ws = [] ∨ ∃ r, ws = [WClear r].
Proof.
  unfold _receive_stream_signal. case_bool_decide; [intros [=<-]; by left|].
  case_bool_decide; [apply stream_error_work|]. destruct b; [|intros [=<-]; by left].
  destruct (_open_pre_payload_stream_if_allowed rid _) as [s' []]; [intros [=<-]; by left|].
  intros Hw. right. by eapply abort_and_fail_work.
Qed.

Lemma receive_payload_work rid src p s ws : (_receive_payload_from_stage rid src p s).2 = Ok ws → ws = [].
Proof.
  unfold _receive_payload_from_stage. case_bool_decide; [by intros [=<-]|].
  destruct (ih_receive rid _ p _) as [h [[m|]|e]]; by intros [=<-].
Qed.

Lemma deliver_work m r s ws : (deliver m r s).2 = Ok ws → ws = [] ∨ ∃ rid, ws = [WClear rid].
Proof.
  unfold deliver, _on_stream_signal, _on_stream_chunk, _on_data_ready. destruct (handler_of m) as [|i|]; [apply receive_signal_work| |].
  - destruct r as [p|d|relay e]; [intros [=<-]; by left| |apply stream_error_work].
    case_bool_decide; [intros [=<-]; by left|apply route_chunk_work].
  - destruct r as [[p|]|d|relay e]; [intros H0; left; by eapply receive_payload_work|intros [=<-]; by left..|].
    intros H0. right. by eapply send_failure_work.
Qed.

Lemma after_handler_past r : past_delivery (after_handler r) ∧ after_handler r ≠ RFinished.
Proof. by destruct r as [[|w ws]|e]. Qed.

Lemma after_handler_work r ws :
  (∀ ws, r = Ok ws → ws = [] ∨ ∃ rid, ws = [WClear rid]) → after_handler r = RSending ws → ∃ rid, ws = [WClear rid].
Proof. intros Hr. destruct r as [[|w l]|e]; [done| |done]. intros [=<-]. by destruct (Hr _ eq_refl). Qed.

(** ** Reachable stages *)
Definition lanes (y : sys) : Prop := lanes_inv (y_tasks y) (y_tails y) (y_next y) (y_delivered y).

Lemma task_step_lanes i t o rest y :
  lanes y → y_tasks y !! i = Some t → rt_stat t ≠ RFinished →
  (∀ ws, (new ← o.2; mret (new ++ rest)) = Ok ws → ws = [] ∨ ∃ rid, ws = [WClear rid]) →
  lanes (task_step i t o rest y).
Proof.
  intros Hl Hi Hnf Hw. destruct o as [[s acts] r]. unfold lanes, task_step. simpl in *.
  destruct (after_handler_past (new ← r; mret (new ++ rest))) as [Hp Hne].
  apply lanes_move; [done|done|done|done| |done]. intros ws. by apply after_handler_work.
Qed.

Lemma deliver_lanes i t r y :
  lanes y → y_tasks y !! i = Some t → rt_stat t = RRead r → after_predecessor (y_tasks y) t →
  lanes (delivered i (task_step i t (deliver (rt_msg t) r (y_stage y)) [] y)).
Proof.
  intros Hl Hi Hst Hp. pose proof (deliver_work (rt_msg t) r (y_stage y)) as Hw.
  destruct (deliver (rt_msg t) r (y_stage y)) as [[s acts] x] eqn:E. simpl in Hw.
  assert (∀ ws, (new ← x; mret (new ++ [])) = Ok ws → ws = [] ∨ ∃ rid, ws = [WClear rid]) as Hw'.
  { intros ws. destruct x as [l|]; [|done]. simpl. rewrite app_nil_r. intros [=<-]. by apply Hw. }
  pose proof (task_step_lanes i t (s, acts, x) [] y Hl Hi ltac:(by rewrite Hst) Hw') as Hl'.
  unfold lanes, delivered, task_step in *. simpl in *.
  destruct (after_handler_past (new ← x; mret (new ++ []))) as [Hpd Hne].
  apply (lanes_deliver _ _ _ _ _ _ Hl' (lookup_insert_eq _ _ _)); [done| |done|].
  - apply (restat_turn _ i t _ i _ t); [done|by rewrite Hst|done|by eapply predecessor_turn].
  - intros Hin. destruct (li_delivered _ _ _ _ Hl i Hin) as (u & Hu & Hpu & _). assert (u = t) as -> by congruence. by rewrite Hst in Hpu.
Qed.

Lemma step_lanes y y' : lanes y → step y y' → lanes y'.
Proof.
  intros Hl Hs. destruct Hs as [rid b p y|rid y|m y|i t y Hi Hst|i t y Hi Hst|i t r y Hi Hst|i t r y Hi Hst Hp|
    i t w ws y Hi Hst|i t e y Hi Hst Hp|k c y Hk Hn|o y Hj|k w ws y Hj|k exc y Hk Hn]; try exact Hl.
  - by apply lanes_schedule.
  - unfold start_task, start_receive. destruct (handler_of (rt_msg t)); [|case_bool_decide|];
      (apply lanes_move; try done; try (by rewrite Hst); by case_bool_decide).
  - apply lanes_move; try done; by rewrite Hst.
  - apply lanes_move; try done; by rewrite Hst.
  - by apply deliver_lanes.
  - destruct (li_work _ _ _ _ Hl i t _ Hi Hst) as [rid [= -> ->]]. apply task_step_lanes; [done|done|by rewrite Hst|].
    intros ws [=<-]. by left.
  - by apply lanes_finish.
  - destruct (run_local c (y_stage y)) as [[s acts] [ws|e]]; simpl; try case_bool_decide; exact Hl.
  - destruct (_drain_outbox o (y_stage y)) as [[s acts] [ws|e]]; simpl; try case_bool_decide; exact Hl.
  - destruct (run_work w (y_stage y)) as [[s acts] [ws'|e]]; simpl; try case_bool_decide; exact Hl.
Qed.

Lemma lanes_init queue h : lanes (sys_init queue h).
Proof. split; try done; [by intros i [? ?]|intros l; simpl; by rewrite lookup_empty|by intros i ?%elem_of_nil|by constructor]. Qed.

Lemma running_ind (I : sys → Prop) queue h y :
  I (sys_init queue h) → (∀ x z, I x → y_error x = None → step x z → I z) → rtc running_step (sys_init queue h) y → I y.
Proof. intros Hi Hs. apply (rtc_ind_r I); [done|]. intros x z _ [He Hxz] Hx. by eapply Hs. Qed.

Lemma run_lanes queue h y : rtc running_step (sys_init queue h) y → lanes y.
Proof. apply running_ind; [apply lanes_init|]. intros x z Hx _ Hs. by eapply step_lanes. Qed.


(** ** Receive tasks finish *)
Definition steps_to (y : sys) (Q : sys → Prop) : Prop := ∃ y', rtc running_step y y' ∧ (Q y' ∨ y_error y' ≠ None).

Lemma steps_now (y : sys) (Q : sys → Prop) : Q y → steps_to y Q.
Proof. intros HQ. exists y. split; [reflexivity|by left]. Qed.

Lemma steps_step y y' Q : y_error y = None → step y y' → steps_to y' Q → steps_to y Q.
Proof. intros He Hs (z & Hz & HQ). exists z. split; [|done]. eapply rtc_l; [by split|done]. Qed.

Lemma steps_bind y Q R : steps_to y Q → (∀ z, rtc running_step y z → y_error z = None → Q z → steps_to z R) → steps_to y R.
Proof.
  intros (z & Hz & HQ) Hk. destruct (decide (y_error z = None)) as [He|He]; [|exists z; by split; [|right]].
  destruct HQ as [HQ|?]; [|done]. destruct (Hk z Hz He HQ) as (w & Hw & HR). exists w. split; [by etransitivity|done].
Qed.

Lemma job_step_tasks k o rest y : y_tasks (job_step k o rest y) = y_tasks y.
Proof. destruct o as [[s acts] [ws|e]]; [done|]. simpl. by case_bool_decide. Qed.

Lemma task_kept y y' i t :
  lanes y → step y y' → y_tasks y !! i = Some t → ∃ t', y_tasks y' !! i = Some t' ∧ rt_pred t' = rt_pred t.
Proof.
  assert (∀ k u st, y_tasks y !! k = Some u → y_tasks y !! i = Some t →
    ∃ t', <[k := set_stat st u]> (y_tasks y) !! i = Some t' ∧ rt_pred t' = rt_pred t) as Hset.
  { intros k u st Hk Hi. destruct (decide (k = i)) as [->|Hne]; [|exists t; by rewrite lookup_insert_ne].
    exists (set_stat st u). rewrite lookup_insert_eq. split; [done|]. simpl. congruence. }
  intros Hl Hs Hi. destruct Hs as [rid b p y|rid y|m y|k u y Hk Hst|k u y Hk Hst|k u r y Hk Hst|k u r y Hk Hst Hp|
    k u w ws y Hk Hst|k u e y Hk Hst Hp|k c y Hk Hn|o y Hj|k w ws y Hj|k exc y Hk Hn]; try by exists t.
  - assert (i < y_next y) by (by eapply li_dom; eauto). exists t. simpl. by rewrite lookup_insert_ne by lia.
  - unfold start_task. destruct (start_receive _ _) as [s st]. by apply Hset.
  - by apply Hset.
  - by apply Hset.
  - destruct (deliver _ _ _) as [[s acts] x]. by apply Hset.
  - destruct (run_work _ _) as [[s acts] x]. by apply Hset.
  - by apply Hset.
  - exists t. by rewrite job_step_tasks.
  - exists t. by rewrite job_step_tasks.
  - exists t. by rewrite job_step_tasks.
Qed.

Lemma tasks_kept y y' i t :
  lanes y → rtc running_step y y' → y_tasks y !! i = Some t →
  lanes y' ∧ ∃ t', y_tasks y' !! i = Some t' ∧ rt_pred t' = rt_pred t.
Proof.
  intros Hl Hr. revert t Hl. induction Hr as [y|x y z [_ Hs] _ IH]; intros t Hl Hi; [split; [done|by exists t]|].
  destruct (task_kept x y i t Hl Hs Hi) as (u & Hu & Hp). destruct (IH u) as (Hl' & v & Hv & Hpv); [by eapply step_lanes|done|].
  split; [done|]. exists v. split; [done|congruence].
Qed.

(** How far a task is from its end. *)
Definition rank (st : rstat) : nat :=
  match st with RNew => 5 | RReading => 4 | RRead _ => 3 | RDiscarding => 2 | RSending _ => 2 | RFinally _ => 1 | RFinished => 0 end.

Definition ready (i : nat) (y : sys) (n : nat) : Prop :=
  ∃ t, y_tasks y !! i = Some t ∧ rank (rt_stat t) ≤ n ∧
    match rt_pred t with Some j => j ≠ i ∧ completed (y_tasks y) j | None => True end.

Lemma ready_after i y t : y_tasks y !! i = Some t →
  match rt_pred t with Some j => j ≠ i ∧ completed (y_tasks y) j | None => True end → after_predecessor (y_tasks y) t.
Proof. unfold after_predecessor. destruct (rt_pred t); [by intros _ [_ ?]|done]. Qed.

Lemma ready_set i t st (y : sys) (tasks : gmap nat rtask) n :
  match rt_pred t with Some j => j ≠ i ∧ completed (y_tasks y) j | None => True end → rank st ≤ n →
  tasks = <[i := set_stat st t]> (y_tasks y) →
  ∃ u, tasks !! i = Some u ∧ rank (rt_stat u) ≤ n ∧
    match rt_pred u with Some j => j ≠ i ∧ completed tasks j | None => True end.
Proof.
  intros Hp Hn ->. exists (set_stat st t). rewrite lookup_insert_eq. split_and!; [done|done|]. simpl.
  destruct (rt_pred t) as [j|]; [|done]. destruct Hp as [Hne (u & Hu & Hf)]. split; [done|].
  exists u. split; [by rewrite lookup_insert_ne|done].
Qed.

(** With its predecessor done, one step brings a task nearer its end. *)
Lemma ready_step i y n :
  lanes y → y_error y = None → ready i y (S n) → ready i y n ∨ ∃ y', step y y' ∧ ready i y' n.
Proof.
  intros Hl He (t & Hi & Hn & Hp). destruct (rt_stat t) as [| | |r|ws|e|] eqn:Est; simpl in Hn.
  - right. exists (start_task i t y). split; [by apply ys_start|]. unfold start_task.
    destruct (start_receive (rt_msg t) (y_stage y)) as [s st] eqn:E. eapply ready_set; [done| |reflexivity].
    transitivity 4; [|lia]. unfold start_receive in E. destruct (handler_of _); simplify_eq/=; [lia|..];
      case_bool_decide; simplify_eq/=; lia.
  - right. eexists. split; [by eapply ys_drained|]. eapply ready_set; [done| |reflexivity]. simpl. lia.
  - right. eexists. split; [eapply (ys_read i t (ReadPayload None)); done|]. eapply ready_set; [done| |reflexivity]. simpl. lia.
  - right. eexists. split; [eapply ys_deliver; [done|done|by eapply ready_after]|].
    destruct (deliver _ _ _) as [[s acts] x]. eapply ready_set; [done| |reflexivity].
    transitivity 2; [|lia]. by destruct x as [[|w ws]|e]; simpl; lia.
  - right. destruct (li_work _ _ _ _ Hl i t ws Hi Est) as [rid ->]. eexists. split; [by eapply ys_sent|].
    eapply ready_set; [done| |reflexivity]. simpl. lia.
  - right. eexists. split; [by eapply ys_finish; [..|eapply ready_after]|]. eapply ready_set; [done| |reflexivity]. simpl. lia.
  - left. exists t. split_and!; [done| |done]. rewrite Est. simpl. lia.
Qed.

Lemma ready_completes i n y : lanes y → ready i y n → steps_to y (λ z, completed (y_tasks z) i).
Proof.
  revert y. induction n as [|n IH]; intros y Hl Hr.
  - destruct Hr as (t & Hi & Hn & _). apply steps_now. exists t. split; [done|]. by destruct (rt_stat t); simpl in Hn; try lia.
  - destruct (decide (y_error y = None)) as [He|He]; [|exists y; split; [reflexivity|by right]].
    destruct (ready_step i y n Hl He Hr) as [Hn|(y' & Hs & Hn)]; [by apply IH|].
    eapply steps_step; [done|done|]. apply IH; [by eapply step_lanes|done].
Qed.

Lemma rank_bound st : rank st ≤ 5.
Proof. destruct st; simpl; lia. Qed.

Lemma task_completes i y t : lanes y → y_tasks y !! i = Some t → steps_to y (λ z, completed (y_tasks z) i).
Proof.
  revert y t. induction i as [i IH] using lt_wf_ind. intros y t Hl Hi.
  pose proof (li_pred _ _ _ _ Hl i t Hi) as Hp. destruct (rt_pred t) as [j|] eqn:Ep.
  - destruct Hp as (Hj & (u & Hu & _) & _). eapply steps_bind; [by eapply (IH j Hj y u)|]. intros z Hz He Hc.
    destruct (tasks_kept y z i t Hl Hz Hi) as (Hlz & t' & Ht' & Hpt). apply (ready_completes i 5); [done|].
    exists t'. split_and!; [done|apply rank_bound|]. rewrite Hpt, Ep. split; [lia|done].
  - apply (ready_completes i 5); [done|]. exists t. split_and!; [done|apply rank_bound|]. by rewrite Ep.
Qed.

(** The completion futures of a lane never wait for each other for ever: from every
    reachable state, every receive task can be brought to its end, unless an exception
    stops the stage first. *)
Theorem receive_tasks_finish queue h y i t :
  rtc running_step (sys_init queue h) y → y_tasks y !! i = Some t →
  steps_to y (λ z, completed (y_tasks z) i).
Proof. intros Hl%run_lanes Hi. by eapply task_completes. Qed.

(** ** Aborted requests *)

(** The request whose state goes with the next piece of work. *)
Definition head_clear (ws : list work) : option string := match ws with WClear rid :: _ => Some rid | _ => None end.
Definition task_clear (t : rtask) : option string := match rt_stat t with RSending ws => head_clear ws | _ => None end.

(** A failure's end is the next piece of a job or of a receive task. *)
Definition pending_clear (rid : string) (y : sys) : Prop :=
  (∃ k, y_jobs y !! k ≫= head_clear = Some rid) ∨ ∃ i, y_tasks y !! i ≫= task_clear = Some rid.

Definition aborts_clean (y : sys) : Prop :=
  y_error y = None → ∀ rid, rid ∈ _aborted (y_stage y) → clean rid (y_stage y) ∨ pending_clear rid y.

(** A step with outcome [o]: what was pending stays pending, unless it was done. *)
Lemma aborts_clean_step y y' (o : outcome) :
  aborts_clean y → y_error y = None → y_stage y' = o.1.1 → abort_ok (y_stage y) o →
  (∀ rid, pending_clear rid y → pending_clear rid y' ∨ clean rid o.1.1) →
  (∀ rid ws, o.2 = Ok (WClear rid :: ws) → pending_clear rid y') →
  aborts_clean y'.
Proof.
  intros Hy He Hs Ho Hkeep Hnew _ rid. rewrite Hs. intros Hr.
  destruct (Ho rid Hr) as [[Hin Hc]|[Hc|[ws Hws]]]; [|by left|right; by eapply Hnew].
  destruct (Hy He rid Hin) as [Hcl|Hp]; [left; by apply Hc|]. by destruct (Hkeep rid Hp); [right|left].
Qed.

Lemma pending_jobs k (y y' : sys) rid :
  (∀ k', k' ≠ k → y_jobs y' !! k' = y_jobs y !! k') → y_tasks y' = y_tasks y →
  pending_clear rid y → pending_clear rid y' ∨ y_jobs y !! k ≫= head_clear = Some rid.
Proof.
  intros Hj Ht [[k' Hk]|Hi]; [|left; right; by rewrite Ht]. destruct (decide (k' = k)) as [->|Hne]; [by right|].
  left. left. exists k'. by rewrite Hj.
Qed.

Lemma pending_tasks i (y y' : sys) rid :
  (∀ k, k ≠ i → y_tasks y' !! k = y_tasks y !! k) → y_jobs y' = y_jobs y →
  pending_clear rid y → pending_clear rid y' ∨ y_tasks y !! i ≫= task_clear = Some rid.
Proof.
  intros Ht Hj [Hk|[k Hk]]; [left; left; by rewrite Hj|]. destruct (decide (k = i)) as [->|Hne]; [by right|].
  left. right. exists k. by rewrite Ht.
Qed.

Lemma job_step_aborts k o rest y :
  aborts_clean y → y_error y = None → abort_ok (y_stage y) o →
  (∀ rid, y_jobs y !! k ≫= head_clear = Some rid → clean rid o.1.1) → aborts_clean (job_step k o rest y).
Proof.
  intros Hy He Ho Hhead. destruct o as [[s acts] r]. assert (Hkeep : ∀ ws rid, pending_clear rid y → pending_clear rid (with_job k ws (with_stage s acts y)) ∨ clean rid s).
  { intros ws rid Hp. destruct (pending_jobs k y (with_job k ws (with_stage s acts y)) rid) as [?|Hk]; [|done|done|by left|right; by apply Hhead].
    intros k' Hne. simpl. by rewrite lookup_insert_ne. }
  unfold job_step. destruct r as [new|e]; [|case_bool_decide; [by intros ?|]]; eapply (aborts_clean_step y _ (s, acts, _)); try done.
  - apply Hkeep.
  - intros rid ws [= ->]. left. exists k. simpl. by rewrite lookup_insert_eq.
  - apply Hkeep.
Qed.

Lemma task_set_aborts i t y y' o :
  aborts_clean y → y_error y = None → abort_ok (y_stage y) o → y_tasks y !! i = Some t →
  (∀ rid, task_clear t = Some rid → clean rid o.1.1) →
  y_stage y' = o.1.1 → y_jobs y' = y_jobs y → (∀ k, k ≠ i → y_tasks y' !! k = y_tasks y !! k) →
  (∀ rid ws, o.2 = Ok (WClear rid :: ws) → y_tasks y' !! i ≫= task_clear = Some rid) → aborts_clean y'.
Proof.
  intros Hy He Ho Hi Hhead Hs Hj Ht Hnew. eapply (aborts_clean_step y _ o); [done|done|done|done| |].
  - intros rid Hp. destruct (pending_tasks i y y' rid) as [?|Hk]; [done|done|done|by left|right].
    rewrite Hi in Hk. by apply Hhead.
  - intros rid ws Hws. right. exists i. by eapply Hnew.
Qed.

(** A step of the stage that neither ends nor starts a piece of work. *)
Lemma stage_set_aborts y y' s :
  aborts_clean y → y_error y = None → abort_ok (y_stage y) (s, [], Ok []) →
  y_stage y' = s → y_jobs y' = y_jobs y → (∀ rid, pending_clear rid y → pending_clear rid y') → aborts_clean y'.
Proof.
  intros Hy He Ho Hs Hj Hp. eapply (aborts_clean_step y _ (s, [], Ok [])); [done|done|done|done| |done].
  intros rid Hr. left. by apply Hp.
Qed.

Lemma submit_ok rid b p s : abort_ok s ((_on_submit rid b p s).1, [], Ok []).
Proof.
  unfold _on_submit. case_bool_decide as Ha; [by apply same_core_ok|]. apply (touches_ok rid); [done|]. simpl.
  eapply touches_trans; [apply touches_record|]. eapply touches_trans; [apply touches_active|apply touches_open_stream].
Qed.

Lemma on_abort_ok rid s : abort_ok s ((_on_abort rid s).1, [], Ok []).
Proof.
  intros r Hr. simpl in Hr. destruct (decide (r = rid)) as [->|Hne]; [right; left; apply clear_clean|left].
  change (r ∈ _aborted (_record_aborted_request_id rid s)) in Hr. apply aborted_record in Hr as [?|Hr]; [done|].
  split; [done|]. intros Hc. apply (touches_clear rid (_record_aborted_request_id rid s)); [done|exact Hc].
Qed.

Lemma record_ok rid b s : abort_ok s (_record_replica_bindings rid b s, [], Ok []).
Proof.
  destruct (record_unaborted rid b s) as [Hn| ->]; [|by apply same_core_ok]. apply (touches_ok rid); [done|apply touches_record].
Qed.

Lemma start_ok m s : abort_ok s ((start_receive m s).1, [], Ok []).
Proof.
  unfold start_receive. destruct (handler_of m); [by apply same_core_ok| |by apply same_core_ok].
  case_bool_decide; [by apply same_core_ok|]. by apply (touches_ok (dm_request_id m)); [|apply touches_active].
Qed.

Lemma task_step_aborts i t o rest y y' :
  aborts_clean y → y_error y = None → abort_ok (y_stage y) o → y_tasks y !! i = Some t →
  (∀ rid, task_clear t = Some rid → clean rid o.1.1) →
  y_stage y' = y_stage (task_step i t o rest y) → y_jobs y' = y_jobs y → y_tasks y' = y_tasks (task_step i t o rest y) →
  aborts_clean y'.
Proof.
  intros Hy He Ho Hi Hhead Hs Hj Ht. destruct o as [[s acts] r]. simpl in *.
  eapply (task_set_aborts i t y y' (s, acts, r)); try done; rewrite Ht.
  - intros k Hne. by rewrite lookup_insert_ne.
  - intros rid ws [= ->]. rewrite lookup_insert_eq. simpl. done.
Qed.

(** A receive task moves on; its stage may mark its request active. *)
Lemma move_aborts i t st s' y y' :
  aborts_clean y → y_error y = None → abort_ok (y_stage y) (s', [], Ok []) → y_tasks y !! i = Some t → task_clear t = None →
  y_stage y' = s' → y_jobs y' = y_jobs y → y_tasks y' = <[i := set_stat st t]> (y_tasks y) → aborts_clean y'.
Proof.
  intros Hy He Ho Hi Hc Hs Hj Ht. eapply (task_set_aborts i t y y' (s', [], Ok [])); try done; [by rewrite Hc|].
  intros k Hne. by rewrite Ht, lookup_insert_ne.
Qed.

Lemma step_aborts y y' : lanes y → aborts_clean y → y_error y = None → step y y' → aborts_clean y'.
Proof.
  intros Hl Hy He Hs. destruct Hs as [rid b p y|rid y|m y|i t y Hi Hst|i t y Hi Hst|i t r y Hi Hst|i t r y Hi Hst Hp|
    i t w ws y Hi Hst|i t e y Hi Hst Hp|k c y Hk Hn|o y Hj|k w ws y Hj|k exc y Hk Hn].
  - eapply stage_set_aborts; [done|done|apply submit_ok|done|done|done].
  - eapply stage_set_aborts; [done|done|apply on_abort_ok|done|done|done].
  - eapply stage_set_aborts; [done|done|apply record_ok|done|done|]. intros rid [Hk|[k Hk]]; [by left|right].
    exists k. simpl. rewrite lookup_insert_ne; [done|]. intros <-. destruct (y_tasks y !! y_next y) eqn:E; [|done].
    enough (y_next y < y_next y) by lia. eapply li_dom; eauto.
  - unfold start_task. pose proof (start_ok (rt_msg t) (y_stage y)) as Ho. destruct (start_receive _ _) as [s st].
    eapply move_aborts; try done. unfold task_clear. by rewrite Hst.
  - eapply move_aborts; try done; [by apply same_core_ok|]. unfold task_clear. by rewrite Hst.
  - eapply move_aborts; try done; [by apply same_core_ok|]. unfold task_clear. by rewrite Hst.
  - apply (task_step_aborts i t (deliver (rt_msg t) r (y_stage y)) [] y);
      [done|done|apply deliver_ok|done|unfold task_clear; by rewrite Hst|reflexivity|by destruct (deliver _ _ _) as [[s acts] x]|reflexivity].
  - apply (task_step_aborts i t (run_work w (y_stage y)) ws y);
      [done|done|apply run_work_ok|done| |reflexivity|by destruct (run_work _ _) as [[s acts] x]|reflexivity].
    unfold task_clear. rewrite Hst. simpl. intros rid. destruct w; try done. intros [= ->]. apply clear_clean.
  - destruct e as [x|]; [by intros ?|]. eapply move_aborts; try done; [by apply same_core_ok|]. unfold task_clear. by rewrite Hst.
  - apply job_step_aborts; [done|done|apply run_local_ok|]. by rewrite Hn.
  - apply job_step_aborts; [done|done|apply drain_ok|]. intros rid. destruct (y_jobs y !! 0) as [l|]; [|done]. simpl in Hj. by rewrite Hj.
  - apply job_step_aborts; [done|done|apply run_work_ok|]. intros rid. rewrite Hj. simpl.
    destruct w; try done. intros [= ->]. apply clear_clean.
  - eapply (aborts_clean_step y _ (y_stage y, [], Ok [])); [done|done|done|by apply same_core_ok| |done].
    intros rid Hp. left. edestruct (pending_jobs k y) as [?|Hx]; [| |exact Hp|eassumption|by rewrite Hn in Hx]; [|done].
    intros k' Hne. simpl. by rewrite lookup_insert_ne.
Qed.

Lemma run_aborts queue h y : rtc running_step (sys_init queue h) y → lanes y ∧ aborts_clean y.
Proof.
  apply (running_ind (λ y, lanes y ∧ aborts_clean y)); [split; [apply lanes_init|by intros _ rid ?%elem_of_empty]|].
  intros x z [Hl Ha] He Hs. split; [by eapply step_lanes|by eapply step_aborts].
Qed.

(** C19. In every reachable state of a stage that still runs, an id recorded as aborted is
    not active, has no stream queue, no replica bindings and nothing in the input handler,
    or the failure that aborted it has sent its message and is about to drop them. *)
Theorem aborted_request_leaves_nothing queue h y rid :
  rtc running_step (sys_init queue h) y → y_error y = None → rid ∈ _aborted (y_stage y) →
  clean rid (y_stage y) ∨ pending_clear rid y.
Proof. intros [_ Hy]%run_aborts He Hr. by apply Hy. Qed.

(** ** Chunk numbers *)

(** The ids sent for a request to a target since its state was last dropped, oldest first. *)
Definition chunk_of (rid target : string) (a : action) : list Z :=
  match a with
  | SendChunk r t i _ _ => if bool_decide ((r, t) = (rid, target)) then [i] else []
  | StreamToCoordinator r i _ => if bool_decide ((r, "coordinator") = (rid, target)) then [i] else []
  | _ => []
  end.

Fixpoint chunks_since (rid target : string) (out : list action) : list Z :=
  match out with
  | [] => []
  | Cleared r :: out' => if bool_decide (r = rid) then [] else chunks_since rid target out'
  | a :: out' => chunks_since rid target out' ++ chunk_of rid target a
  end.

Definition numbered (s : Stage) (out : list action) : Prop :=
  ∀ rid target, let n := default 0%Z (_stream_chunk_counters s !! (rid, target)) in
    (0 ≤ n)%Z ∧ chunks_since rid target out = seqZ 0 n.

Definition numbers (s : Stage) (o : outcome) : Prop := ∀ out, numbered s out → numbered o.1.1 (rev o.1.2 ++ out).

Definition quiet (a : action) : bool :=
  match a with SendChunk _ _ _ _ _ | StreamToCoordinator _ _ _ | Cleared _ => false | _ => true end.

Lemma chunks_quiet rid target acts out : forallb quiet acts = true → chunks_since rid target (rev acts ++ out) = chunks_since rid target out.
Proof.
  revert out. induction acts as [|a acts IH]; intros out; simpl; [done|]. intros [Ha Hq]%andb_true_iff.
  rewrite <- app_assoc. rewrite IH by done. destruct a; simpl in *; try done; by rewrite app_nil_r.
Qed.

Lemma numbers_quiet s (o : outcome) :
  _stream_chunk_counters o.1.1 = _stream_chunk_counters s → forallb quiet o.1.2 = true → numbers s o.
Proof. intros Hc Hq out Hn rid target. rewrite Hc, chunks_quiet by done. apply Hn. Qed.

Lemma numbers_clear s s1 rid pre post r :
  _stream_chunk_counters s1 = _stream_chunk_counters s → forallb quiet pre = true → forallb quiet post = true →
  numbers s (_clear_request_state rid s1, pre ++ Cleared rid :: post, r).
Proof.
  intros Hc Hpre Hpost out Hn r' target. cbn [fst snd]. rewrite rev_app_distr. simpl. rewrite <- !app_assoc. simpl.
  rewrite chunks_quiet by done. simpl. rewrite Hc. case_bool_decide as Heq; [subst r'|].
  - rewrite map_lookup_filter_None_2; [done|]. right. intros x _. by intros Hx.
  - rewrite chunks_quiet by done. destruct (Hn r' target) as [Hpos Hch].
    replace (filter _ _ !! (r', target)) with (_stream_chunk_counters s !! (r', target)); [done|].
    symmetry. destruct (_stream_chunk_counters s !! (r', target)) as [i|] eqn:E.
    + apply map_lookup_filter_Some. split; [done|]. simpl. congruence.
    + apply map_lookup_filter_None. by left.
Qed.

(** A chunk sent under the counter's value, and the counter moved on. *)
Lemma numbers_chunk s s' rid target a r :
  let i := default 0%Z (_stream_chunk_counters s !! (rid, target)) in
  _stream_chunk_counters s' = <[(rid, target) := (i + 1)%Z]> (_stream_chunk_counters s) →
  (∀ r' t', chunk_of r' t' a = if bool_decide ((rid, target) = (r', t')) then [i] else []) → (∀ r', a ≠ Cleared r') →
  numbers s (s', [a], r).
Proof.
  intros i Hc Ha Hna out Hn r' t'. cbn [fst snd rev app]. rewrite Hc.
  assert (chunks_since r' t' (a :: out) = chunks_since r' t' out ++ chunk_of r' t' a) as ->.
  { destruct a; try done. exfalso. by eapply Hna. }
  rewrite Ha. destruct (Hn r' t') as [Hpos ->]. case_bool_decide as Heq.
  - injection Heq as -> ->. rewrite lookup_insert_eq. subst i. simpl in *. split; [lia|].
    by rewrite seqZ_app by lia.
  - rewrite lookup_insert_ne by done. by rewrite app_nil_r.
Qed.

Lemma send_failure_numbers rid e s s0 :
  _stream_chunk_counters s = _stream_chunk_counters s0 → numbers s0 (_send_failure rid e s).
Proof.
  intros Hc. unfold _send_failure. destruct (cfg_owns_external_io cfg); [by apply numbers_quiet|].
  by apply (numbers_clear s0 (_record_aborted_request_id rid s) rid [] []).
Qed.

(** Actions that number nothing may come before. *)
Lemma numbers_cons s (o : outcome) a :
  numbers s o → quiet a = true → numbers s (o.1.1, a :: o.1.2, o.2).
Proof.
  intros Ho Ha out Hn. cbn [fst snd rev]. rewrite <- app_assoc. apply Ho. intros rid target.
  pose proof (chunks_quiet rid target [a] out) as Hq. simpl in Hq. simpl. rewrite Hq by by rewrite Ha. apply Hn.
Qed.

Lemma abort_and_fail_numbers rid e s s0 :
  _stream_chunk_counters s = _stream_chunk_counters s0 → numbers s0 (abort_and_fail rid e s).
Proof.
  intros Hc. pose proof (numbers_cons s0 _ (SchedulerAbort rid) (send_failure_numbers rid e s s0 Hc) eq_refl) as Hn.
  unfold abort_and_fail. destruct (_send_failure rid e s) as [[s' acts] r]. exact Hn.
Qed.

Lemma signal_numbers rid target b e s : numbers s (_send_stream_signal_to_target rid target b e s).
Proof.
  unfold _send_stream_signal_to_target. destruct (cfg_owns_external_io cfg); simpl; [|by apply numbers_quiet].
  destruct (_resolve_target_instance _ _ _); [|by apply numbers_quiet]. destruct (bool_decide _); simpl; [|by apply numbers_quiet].
  destruct (bool_decide _); [|by apply numbers_quiet]. destruct (cfg_has_dispatcher cfg); by apply numbers_quiet.
Qed.

Lemma payload_numbers rid target p single ts s : numbers s (_send_to_stage rid target p single ts s).
Proof.
  unfold _send_to_stage. destruct (cfg_owns_external_io cfg); simpl; [|by apply numbers_quiet].
  destruct (_resolve_target_instance _ _ _); [|by apply numbers_quiet]. destruct (bool_decide _); simpl; [|by apply numbers_quiet].
  destruct (_ && _); [|by apply numbers_quiet]. destruct (cfg_has_dispatcher cfg); by apply numbers_quiet.
Qed.

Lemma chunk_numbers rid target d s ws : (_send_stream_to_target rid target d s).2 = Ok ws → numbers s (_send_stream_to_target rid target d s).
Proof.
  unfold _send_stream_to_target. destruct (cfg_owns_external_io cfg); simpl; [|by intros _; apply numbers_quiet].
  destruct (_resolve_target_instance _ _ _) as [t|]; [|done]. destruct (bool_decide _); simpl; [|done].
  destruct (bool_decide _).
  - destruct (cfg_has_dispatcher cfg); simpl; [intros _|done]. by apply (numbers_chunk s _ rid t).
  - destruct (is_tensor d); simpl; [intros _|done]. by apply (numbers_chunk s _ rid t).
Qed.

Lemma coordinator_numbers rid d s : numbers s (_send_stream_to_coordinator rid d s).
Proof.
  unfold _send_stream_to_coordinator. destruct (cfg_is_terminal cfg); simpl; [|by apply numbers_quiet].
  destruct (cfg_owns_external_io cfg); simpl; [|by apply numbers_quiet]. destruct (bool_decide _); [by apply numbers_quiet|].
  by apply (numbers_chunk s _ rid "coordinator").
Qed.

Lemma run_work_numbers w s ws : (run_work w s).2 = Ok ws → numbers s (run_work w s).
Proof.
  destruct w; simpl.
  - intros _. apply signal_numbers.
  - intros _. unfold route_next. destruct (cfg_get_next cfg rid result); by apply numbers_quiet.
  - intros _. apply payload_numbers.
  - apply chunk_numbers.
  - intros _. apply coordinator_numbers.
  - intros _. by apply send_failure_numbers.
  - intros _. by apply (numbers_clear s s rid [] []).
  - intros _. by apply abort_and_fail_numbers.
  - intros _. by apply numbers_quiet.
  - intros _. by apply numbers_quiet.
Qed.

Lemma open_stream_counters rid s : _stream_chunk_counters (open_stream rid s) = _stream_chunk_counters s.
Proof. unfold open_stream. destruct (_stream_queue s); [|done]. by destruct (has _ _). Qed.

Lemma record_counters rid b s : _stream_chunk_counters (_record_replica_bindings rid b s) = _stream_chunk_counters s.
Proof.
  unfold _record_replica_bindings. destruct b; [|done]. destruct (_ || _); [done|]. by destruct (_replica_bindings s !! rid).
Qed.

Lemma pre_payload_counters rid s : _stream_chunk_counters (_open_pre_payload_stream_if_allowed rid s).1 = _stream_chunk_counters s.
Proof.
  unfold _open_pre_payload_stream_if_allowed. destruct (_stream_queue s); [|done]. destruct (has _ _); [done|].
  by destruct (cfg_can_accept_stream_before_payload cfg).
Qed.

Lemma execute_quiet p s : forallb quiet (_execute p s) = true.
Proof. unfold _execute. case_bool_decide; [done|]. by destruct (cfg_fans_out_work cfg). Qed.

Lemma receive_payload_numbers rid src p s s0 :
  _stream_chunk_counters s = _stream_chunk_counters s0 → numbers s0 (_receive_payload_from_stage rid src p s).
Proof.
  intros Hc. unfold _receive_payload_from_stage. case_bool_decide; [by apply numbers_quiet|].
  destruct (ih_receive rid _ p _) as [h m]. pose proof (open_stream_counters rid (set_active (λ a, {[rid]} ∪ a) s)) as Ho.
  destruct m as [[m|]|e]; apply numbers_quiet; try done; simpl; try (by rewrite Ho). apply execute_quiet.
Qed.

Lemma route_chunk_numbers rid i d src s s0 :
  _stream_chunk_counters s = _stream_chunk_counters s0 → numbers s0 (_route_stream_item_or_fail rid i d src s).
Proof.
  intros Hc. unfold _route_stream_item_or_fail. pose proof (pre_payload_counters rid s) as Hp.
  destruct (_open_pre_payload_stream_if_allowed rid s) as [s' []]; simpl in Hp; [apply numbers_quiet|apply abort_and_fail_numbers];
    simpl; congruence || done.
Qed.

Lemma stream_error_numbers rid e s s0 :
  _stream_chunk_counters s = _stream_chunk_counters s0 → numbers s0 (_queue_stream_error rid e s).
Proof. intros Hc. unfold _queue_stream_error. case_bool_decide; [by apply numbers_quiet|by apply abort_and_fail_numbers]. Qed.

Lemma receive_signal_numbers rid src b e s s0 :
  _stream_chunk_counters s = _stream_chunk_counters s0 → numbers s0 (_receive_stream_signal rid src b e s).
Proof.
  intros Hc. unfold _receive_stream_signal. case_bool_decide; [by apply numbers_quiet|].
  case_bool_decide; [by apply stream_error_numbers|]. destruct b; [|by apply numbers_quiet].
  pose proof (pre_payload_counters rid (set_active (λ a, {[rid]} ∪ a) s)) as Hp. simpl in Hp.
  destruct (_open_pre_payload_stream_if_allowed rid _) as [s' []]; simpl in Hp; [apply numbers_quiet|apply abort_and_fail_numbers];
    simpl; congruence || done.
Qed.

Lemma run_local_numbers c s : numbers s (run_local c s).
Proof.
  destruct c as [rid src p b|rid src i d b|rid src dn e b]; simpl.
  - apply receive_payload_numbers, record_counters.
  - unfold receive_local_stream_chunk. case_bool_decide; [by apply numbers_quiet|]. apply route_chunk_numbers. simpl. apply record_counters.
  - apply receive_signal_numbers, record_counters.
Qed.

Lemma deliver_numbers m r s : numbers s (deliver m r s).
Proof.
  unfold deliver, _on_stream_signal, _on_stream_chunk, _on_data_ready. destruct (handler_of m) as [|i|]; [by apply receive_signal_numbers| |].
  - destruct r as [p|d|relay e]; [by apply numbers_quiet| |by apply stream_error_numbers].
    case_bool_decide; [by apply numbers_quiet|by apply route_chunk_numbers].
  - destruct r as [[p|]|d|relay e]; [by apply receive_payload_numbers|by apply numbers_quiet..|by apply send_failure_numbers].
Qed.

Lemma drain_numbers o s : numbers s (_drain_outbox o s).
Proof.
  unfold _drain_outbox. destruct (cfg_owns_external_io cfg) eqn:E.
  - unfold _drain_outbox_external. destruct (negb _); [by apply numbers_quiet|].
    destruct o as [rid result|rid d [target|]|rid e]; [|by apply numbers_quiet| |by apply numbers_quiet].
    + unfold _route_result. rewrite E. by apply numbers_quiet.
    + destruct (cfg_stream_targets cfg); by apply numbers_quiet.
  - destruct o as [rid result|rid d target|rid e]; [by apply (numbers_clear s s rid [] [])|by apply numbers_quiet..].
Qed.

Lemma submit_numbers rid b p s : numbers s (_on_submit rid b p s, Ok []).
Proof.
  unfold _on_submit. case_bool_decide; [by apply numbers_quiet|]. apply numbers_quiet; simpl; [|apply execute_quiet].
  rewrite open_stream_counters. simpl. apply record_counters.
Qed.

(** The whole stage. *)
Definition chunks_numbered (y : sys) : Prop := y_error y = None → numbered (y_stage y) (y_out y).

(** The work of local calls and of a scheduler crash only fails requests: it sends no chunk. *)
Definition fails_only (w : work) : bool := match w with WFail _ _ | WClear _ | WCrashOne _ _ | WCommCleanup _ | WClose => true | _ => false end.
Definition chunkless (ws : list work) : bool := forallb fails_only ws.
Lemma failing_numbers w s : fails_only w = true → numbers s (run_work w s).
Proof.
  intros Hw. destruct w; simpl; try done; [by apply send_failure_numbers|by apply (numbers_clear s s rid [] [])|by apply abort_and_fail_numbers|by apply numbers_quiet..].
Qed.
Definition local_jobs (y : sys) : Prop := ∀ k ws, k ≠ 0 → y_jobs y !! k = Some ws → chunkless ws = true.
Definition chunkless_result (o : outcome) : Prop := ∀ ws, o.2 = Ok ws → chunkless ws = true.
Lemma chunkless_failure rid e s : chunkless_result (_send_failure rid e s) ∧ chunkless_result (abort_and_fail rid e s).
Proof. unfold abort_and_fail, _send_failure. destruct (negb (cfg_owns_external_io cfg)); (split; [|simpl]); by intros ws [= <-]. Qed.
Lemma chunkless_local c s : chunkless_result (run_local c s).
Proof.
  destruct c as [rid src p b|rid src i d b|rid src dn e b]; simpl.
  - unfold receive_local_payload, _receive_payload_from_stage. case_bool_decide; [by intros ws [= <-]|].
    destruct (ih_receive _ _ _ _) as [h [[m|]|x]]; by intros ws [= <-].
  - unfold receive_local_stream_chunk, _route_stream_item_or_fail. case_bool_decide; [by intros ws [= <-]|].
    destruct (_open_pre_payload_stream_if_allowed _ _) as [s1 []]; [by intros ws [= <-]|apply chunkless_failure].
  - unfold receive_local_stream_signal, _receive_stream_signal, _queue_stream_error. case_bool_decide; [by intros ws [= <-]|].
    case_bool_decide; [case_bool_decide; [by intros ws [= <-]|apply chunkless_failure]|]. destruct dn; [|by intros ws [= <-]].
    destruct (_open_pre_payload_stream_if_allowed _ _) as [s1 []]; [by intros ws [= <-]|apply chunkless_failure].
Qed.
Lemma chunkless_app l k : chunkless (l ++ k) = chunkless l && chunkless k.
Proof. apply forallb_app. Qed.
Lemma local_jobs_step k o rest y : local_jobs y → (k ≠ 0 → chunkless_result o) → (k ≠ 0 → chunkless rest = true) → local_jobs (job_step k o rest y).
Proof.
  intros Hy Ho Hr. destruct o as [[s acts] [new|e]]; simpl; [|case_bool_decide; [done|]]; intros j ws Hj; simpl; intros [[<- <-]|[_ ?]]%lookup_insert_Some; try by eapply Hy.
  - rewrite chunkless_app, Hr, andb_true_r by done. by apply (Ho Hj).
  - done.
Qed.
Lemma job_step_numbers k o rest y :
  chunks_numbered y → y_error y = None → (∀ ws, o.2 = Ok ws → numbers (y_stage y) o) → (k ≠ 0 → numbers (y_stage y) o) → chunks_numbered (job_step k o rest y).
Proof.
  intros Hy He Ho Hk. destruct o as [[s acts] [new|e]]; simpl; [intros _|case_bool_decide as E; [by intros ?|intros _]]; [by apply (Ho new), Hy|by apply (Hk E), Hy].
Qed.

Lemma task_step_numbers i t o rest y y' :
  chunks_numbered y → y_error y = None → numbers (y_stage y) o →
  y_stage y' = y_stage (task_step i t o rest y) → y_out y' = y_out (task_step i t o rest y) → chunks_numbered y'.
Proof. intros Hy He Ho Hs Hout _. rewrite Hs, Hout. destruct o as [[s acts] r]. by apply Ho, Hy. Qed.

Lemma same_numbers y y' :
  chunks_numbered y → y_error y = None → _stream_chunk_counters (y_stage y') = _stream_chunk_counters (y_stage y) →
  y_out y' = y_out y → chunks_numbered y'.
Proof. intros Hy He Hc Hout _ rid target. rewrite Hc, Hout. by apply Hy. Qed.

Lemma step_numbers y y' : lanes y → local_jobs y → chunks_numbered y → y_error y = None → step y y' → chunks_numbered y'.
Proof.
  intros Hl Hjobs Hy He Hs. destruct Hs as [rid b p y|rid y|m y|i t y Hi Hst|i t y Hi Hst|i t r y Hi Hst|i t r y Hi Hst Hp|
    i t w ws y Hi Hst|i t e y Hi Hst Hp|k c y Hk Hn|o y Hj|k w ws y Hj|k exc y Hk Hn].
  - intros _. apply submit_numbers. by apply Hy.
  - intros _. by apply (numbers_clear (y_stage y) (_record_aborted_request_id rid (y_stage y)) rid [CommCleanup rid] [SchedulerAbort rid] (Ok [])), Hy.
  - apply (same_numbers y); [done|done|apply record_counters|done].
  - unfold start_task. destruct (start_receive _ _) as [s st] eqn:E. apply (same_numbers y); [done|done| |done].
    unfold start_receive in E. destruct (handler_of _); simplify_eq/=; [done| |done]. by case_bool_decide; simplify_eq/=.
  - by apply (same_numbers y).
  - apply (task_step_numbers i t (y_stage y, read_actions (rt_msg t) r, Ok []) [] y); [done|done| |done|done].
    apply numbers_quiet; [done|]. unfold read_actions. destruct (handler_of _), r as [| |[]]; done.
  - apply (task_step_numbers i t (deliver (rt_msg t) r (y_stage y)) [] y); [done|done|apply deliver_numbers|..];
      by destruct (deliver _ _ _) as [[s acts] x].
  - destruct (li_work _ _ _ _ Hl i t _ Hi Hst) as [rid [= -> ->]].
    apply (task_step_numbers i t (run_work (WClear rid) (y_stage y)) [] y); [done|done|by eapply run_work_numbers|done|done].
  - by apply (same_numbers y).
  - apply job_step_numbers; [done|done|..]; intros; apply run_local_numbers.
  - apply job_step_numbers; [done|done|..]; intros; apply drain_numbers.
  - apply job_step_numbers; [done|done|..]; [intros ws' Hws; by eapply run_work_numbers|].
    intros Hk. apply failing_numbers. pose proof (Hjobs _ _ Hk Hj) as Hc. by apply andb_true_iff in Hc as [Hc _].
  - by apply (same_numbers y).
Qed.

Lemma chunkless_crash exc s : chunkless (_handle_scheduler_crash exc s) = true.
Proof.
  unfold _handle_scheduler_crash. destruct (negb _); [done|]. rewrite chunkless_app. simpl. rewrite andb_true_r. by induction (elements _).
Qed.
Lemma chunkless_work w s : fails_only w = true → chunkless_result (run_work w s).
Proof. intros Hw. destruct w; simpl; try done; try (by intros ws [= <-]); apply chunkless_failure. Qed.
Lemma step_local y y' : local_jobs y → y_error y = None → step y y' → local_jobs y'.
Proof.
  intros Hy He Hs. destruct Hs as [rid b p y|rid y|m y|i t y Hi Hst|i t y Hi Hst|i t r y Hi Hst|i t r y Hi Hst Hp|
    i t w ws y Hi Hst|i t e y Hi Hst Hp|k c y Hk Hn|o y Hj|k w ws y Hj|k exc y Hk Hn]; try exact Hy.
  - unfold start_task. by destruct (start_receive _ _).
  - unfold task_step. by destruct (deliver _ _ _) as [[s1 acts] x].
  - unfold task_step. by destruct (run_work _ _) as [[s1 acts] x].
  - apply local_jobs_step; [done|intros _; apply chunkless_local|done].
  - by apply local_jobs_step.
  - apply local_jobs_step; [done|..]; intros Hk; pose proof (Hy _ _ Hk Hj) as Hc; apply andb_true_iff in Hc as [Hc Hr]; [by apply chunkless_work|done].
  - intros j ws Hj. simpl. intros [[<- <-]|[_ ?]]%lookup_insert_Some; [apply chunkless_crash|by eapply Hy].
Qed.

(** The chunks a stage sends for a request to one target, since the request's state
    was last dropped, are numbered 0, 1, 2, ... in the order they are sent, through every
    interleaving of jobs, deliveries, aborts and failures. *)
Theorem stream_chunks_numbered queue h y rid target :
  rtc running_step (sys_init queue h) y → y_error y = None →
  chunks_since rid target (y_out y) = seqZ 0 (default 0%Z (_stream_chunk_counters (y_stage y) !! (rid, target))).
Proof.
  intros Hr He. assert (lanes y ∧ local_jobs y ∧ chunks_numbered y) as (_ & _ & Hy); [|by apply Hy].
  revert Hr. apply (running_ind (λ y, lanes y ∧ local_jobs y ∧ chunks_numbered y)).
  - split_and!; [apply lanes_init|done|]. intros _ r t. simpl. rewrite lookup_empty. done.
  - intros x z (Hl & Hj & Hx) Hex Hs. split_and!; [by eapply step_lanes|by eapply step_local|by eapply step_numbers].
Qed.

(** ** An abort in the middle of a route

    The abort drops the replica bindings that the sends still to come need, and the
    exception of such a send ends the outbox drain, hence the stage, for every
    request on it. *)

(** When an abort lands before a send of a routed result to a replicated stage, that
    send raises, the outbox drain ends and the whole stage stops, with every other active
    request still on it. *)
Theorem abort_mid_route_stops_stage y rid target p single stream_targets ws :
  cfg_owns_external_io cfg = true → is_replicated (cfg_topology cfg) target = true →
  y_error y = None → y_jobs y !! 0 = Some (WPayload rid target p single stream_targets :: ws) →
  let y1 := stage_call (_on_abort rid (y_stage y)) y in
  running_step y y1 ∧
  ∃ y2, running_step y1 y2 ∧ y_error y2 = Some (RuntimeError "no replica binding for target") ∧
    _active_requests (y_stage y2) = _active_requests (y_stage y) ∖ {[rid]}.
Proof.
  intros Hio Hrep He Hj y1. split; [by split; [|constructor]|].
  exists (job_step 0 (run_work (WPayload rid target p single stream_targets) (y_stage y1)) ws y1).
  assert (run_work (WPayload rid target p single stream_targets) (y_stage y1) =
    (y_stage y1, [], Raise (RuntimeError "no replica binding for target"))) as Hw.
  { simpl. unfold _send_to_stage, _resolve_target_instance. rewrite Hio, Hrep. simpl. by rewrite lookup_delete_eq. }
  split; [split; [done|by apply ys_work]|]. by rewrite Hw.
Qed.
End stage.

(** ** Runs of a stage that routes to two replicas *)
Definition demo_cfg : StageConfig (P := string) := mkStageConfig "A" true [] false false (mkTopology {["B" := ["B@0"; "B@1"]]})
  {["B@0"; "B@1"]} ∅ false false (λ _ _, Some ["B"]) None (λ _, None) (λ _ _, false).
Definition demo_running : sys (P := string) (D := unit) (H := unit) → sys → Prop := running_step (λ p, p) (λ _, true) id demo_cfg.
Definition demo_start : sys (P := string) (D := unit) (H := unit) := sys_init true tt.

Ltac demo_step c := eapply rtc_l; [split; [vm_compute; reflexivity|c]|].
Ltac demo_now := vm_compute; reflexivity.

Lemma demo_routing : ∃ y, rtc demo_running demo_start y ∧ y_error y = None ∧ is_replicated (cfg_topology demo_cfg) "B" = true ∧
  y_jobs y !! 0 = Some [WPayload "r1" "B" "x" true ∅; WClear "r1"] ∧ "r2" ∈ _active_requests (y_stage y).
Proof.
  eexists. split.
  - demo_step ltac:(apply (ys_submit _ _ _ _ "r1" (Some {["B" := 1%Z]}) "r1")).
    demo_step ltac:(apply (ys_submit _ _ _ _ "r2" (Some {["B" := 0%Z]}) "r2")).
    demo_step ltac:(apply (ys_drain _ _ _ _ (OutResult "r1" "x")); demo_now).
    demo_step ltac:(eapply (ys_work _ _ _ _ 0); demo_now). apply rtc_refl.
  - split_and!; demo_now.
Qed.

Lemma abort_mid_route_stops_stage_witness : ∃ y y1 y2, rtc demo_running demo_start y ∧ demo_running y y1 ∧ demo_running y1 y2 ∧
  y_error y2 ≠ None ∧ "r2" ∈ _active_requests (y_stage y2).
Proof.
  destruct demo_routing as (y & Hr & He & Hrep & Hj & Hact).
  destruct (abort_mid_route_stops_stage (λ p, p) (λ _, true) id demo_cfg y "r1" "B" "x" true ∅ _ eq_refl Hrep He Hj)
    as (H1 & y2 & H2 & Hy2 & Ha).
  eexists y, _, y2. split; [exact Hr|]. split; [exact H1|]. split; [exact H2|]. split; [by rewrite Hy2|].
  rewrite Ha. apply elem_of_difference. split; [exact Hact|]. apply (bool_decide_unpack _). demo_now.
Defined.

(** Two messages of one source, read in the other order. *)
Lemma demo_delivered : ∃ y, rtc demo_running demo_start y ∧ y_delivered y = [1; 0].
Proof.
  eexists. split.
  - demo_step ltac:(apply (ys_data_ready _ _ _ _ (mkReady "r1" "S" None false None None))).
    demo_step ltac:(apply (ys_data_ready _ _ _ _ (mkReady "r1" "S" None false None None))).
    demo_step ltac:(eapply (ys_start _ _ _ _ 1); demo_now).
    demo_step ltac:(eapply (ys_read _ _ _ _ 1 _ (ReadPayload None)); demo_now).
    demo_step ltac:(eapply (ys_start _ _ _ _ 0); demo_now).
    demo_step ltac:(eapply (ys_read _ _ _ _ 0 _ (ReadPayload (Some "r1"))); demo_now).
    demo_step ltac:(eapply (ys_deliver _ _ _ _ 0); [demo_now|demo_now|exact I]).
    demo_step ltac:(eapply (ys_finish _ _ _ _ 0); [demo_now|demo_now|exact I]).
    demo_step ltac:(eapply (ys_deliver _ _ _ _ 1); [demo_now|demo_now|eexists; split; demo_now]).
    apply rtc_refl.
  - demo_now.
Qed.


Lemma demo_waiting : ∃ y, rtc demo_running demo_start y ∧ y_error y = None ∧ is_Some (y_tasks y !! 1).
Proof.
  eexists. split.
  - demo_step ltac:(apply (ys_data_ready _ _ _ _ (mkReady "r1" "S" None false None None))).
    demo_step ltac:(apply (ys_data_ready _ _ _ _ (mkReady "r1" "S" None true None None))). apply rtc_refl.
  - split; [demo_now|]. eexists. demo_now.
Qed.

Lemma receive_tasks_finish_witness : ∃ y, rtc demo_running demo_start y ∧
  steps_to (λ p, p) (λ _, true) id demo_cfg y (λ z, completed (y_tasks z) 1).
Proof.
  destruct demo_waiting as (y & Hr & He & t & Ht). exists y. split; [exact Hr|].
  exact (receive_tasks_finish (λ p, p) (λ _, true) id demo_cfg true tt y 1 t Hr Ht).
Defined.

Lemma demo_aborted : ∃ y, rtc demo_running demo_start y ∧ y_error y = None ∧ "r1" ∈ _aborted (y_stage y) ∧
  y_jobs y = ∅ ∧ y_tasks y = ∅.
Proof.
  eexists. split.
  - demo_step ltac:(apply (ys_submit _ _ _ _ "r1" (Some {["B" := 1%Z]}) "r1")).
    demo_step ltac:(apply (ys_abort _ _ _ _ "r1")). apply rtc_refl.
  - split_and!; demo_now.
Qed.

Lemma aborted_request_leaves_nothing_witness : ∃ y, rtc demo_running demo_start y ∧ "r1" ∈ _aborted (y_stage y) ∧ clean (P := string) "r1" (y_stage y).
Proof.
  destruct demo_aborted as (y & Hr & He & Ha & Hj & Ht). exists y. split; [exact Hr|]. split; [exact Ha|].
  destruct (aborted_request_leaves_nothing (λ p, p) (λ _, true) id demo_cfg true tt y "r1" Hr He Ha) as [Hc|[[k Hk]|[i Hi]]];
    [exact Hc|..].
  - by rewrite Hj in Hk.
  - by rewrite Ht in Hi.
Defined.

Lemma demo_streaming : ∃ y, rtc demo_running demo_start y ∧ y_error y = None ∧ _stream_chunk_counters (y_stage y) !! ("r1", "B@1") = Some 2%Z.
Proof.
  eexists. split.
  - demo_step ltac:(apply (ys_submit _ _ _ _ "r1" (Some {["B" := 1%Z]}) "r1")).
    demo_step ltac:(apply (ys_drain _ _ _ _ (OutStream "r1" tt (Some "B"))); demo_now).
    demo_step ltac:(eapply (ys_work _ _ _ _ 0); demo_now).
    demo_step ltac:(apply (ys_drain _ _ _ _ (OutStream "r1" tt (Some "B"))); demo_now).
    demo_step ltac:(eapply (ys_work _ _ _ _ 0); demo_now). apply rtc_refl.
  - split; demo_now.
Qed.

Lemma stream_chunks_numbered_witness : ∃ y, rtc demo_running demo_start y ∧ chunks_since "r1" "B@1" (y_out y) = [0; 1]%Z.
Proof.
  destruct demo_streaming as (y & Hr & He & Hc). exists y. split; [exact Hr|].
  rewrite (stream_chunks_numbered (λ p, p) (λ _, true) id demo_cfg true tt y "r1" "B@1" Hr He), Hc. reflexivity.
Defined.
