(* ===== verification/SimpleScheduler.v ===== *)
(** * The scheduler of simple stages

    Models [SimpleScheduler] ([src/sglang_omni/scheduling/simple_scheduler.py]) in its
    serial mode ([max_concurrency] 1): the loop that takes messages, collects a batch under its size and
    cost limits, computes and answers, with other threads putting messages and
    aborting in between.  A lock section or a queue operation is one step; waiting for
    a batch to fill is the time between two steps. *)
From S2P Require Import Prelude.

Inductive message_type := NewRequest | StreamChunk | StreamDone.
#[export] Instance message_type_eq_dec : EqDecision message_type.
Proof. solve_decision. Defined.

Section scheduler.
Context {P R : Type}.

Record IncomingMessage := mkIncoming { im_request_id : string; im_type : message_type; im_data : P }.

Inductive OutgoingMessage := OutResult (request_id : string) (result : R) | OutError (request_id : string) (error : exn).

(** The constructor's arguments, normalised. *)
Record SchedulerConfig := mkSchedulerConfig {
  _fn : P → res R;
  _batch_fn : option (list P → res (list R));
  _max_batch_size : nat;
  _request_cost_fn : option (P → res Z);
  _max_batch_cost : option Z;
}.

Definition make_config (fn : P → res R) (batch_fn : option (list P → res (list R))) (max_batch_size : Z)
    (request_cost_fn : option (P → res Z)) (max_batch_cost : option Z) (max_concurrency : Z) : res SchedulerConfig :=
  if bool_decide (1 < Z.max max_concurrency 1)%Z && (match batch_fn with Some _ => true | None => false end)
  then Raise (ValueError "max_concurrency > 1 and batch_compute_fn are mutually exclusive")
  else Ok (mkSchedulerConfig fn batch_fn (Z.to_nat (Z.max max_batch_size 1)) request_cost_fn ((λ c, Z.max c 0) <$> max_batch_cost)).

Context (cfg : SchedulerConfig) (prune : gset string → gset string).

Definition is_new (m : IncomingMessage) : bool := bool_decide (im_type m = NewRequest).

Definition _message_cost (m : IncomingMessage) : res Z :=
  match _request_cost_fn cfg with
  | None => Ok 0%Z
  | Some cost => if is_new m then c ← cost (im_data m); mret (Z.max c 0) else Ok 0%Z
  end.

(** What became of a request the loop took; [Lost] is one it took for a batch and forgot
    when a cost function raised. *)
Inductive fate := Answered (out : OutgoingMessage) | Dropped | Lost.

(** Where the loop stands; [whole] is the batch as the exception handler sees it, and [lost]
    are the requests taken from the inbox that it does not see. *)
Inductive pc :=
| PIdle
| PTaken (m : IncomingMessage)
| PCollect (first : IncomingMessage) (batch : list IncomingMessage) (batch_cost : Z)
| PBatch (batch : list IncomingMessage)
| PSingle (whole rest : list IncomingMessage)
| PComputed (whole : list IncomingMessage) (m : IncomingMessage) (r : res R) (rest : list IncomingMessage)
| PEmit (rest : list (IncomingMessage * R))
| PFail (rest : list IncomingMessage) (e : exn) (lost : list IncomingMessage).

(** [s_arrived], [s_done] and [s_outbox] are histories, oldest first; [s_aborts]
    lists the calls of [abort]. *)
Record scheduler := mkScheduler {
  s_inbox : list IncomingMessage;
  s_pending_messages : list IncomingMessage;
  s_aborted : gset string;
  s_outbox : list OutgoingMessage;
  s_pc : pc;
  s_arrived : list IncomingMessage;
  s_done : list (IncomingMessage * fate);
  s_aborts : list string;
}.

Definition scheduler_init : scheduler := mkScheduler [] [] ∅ [] PIdle [] [] [].

Definition goto p s := mkScheduler (s_inbox s) (s_pending_messages s) (s_aborted s) (s_outbox s) p (s_arrived s) (s_done s) (s_aborts s).
Definition set_inbox l s := mkScheduler l (s_pending_messages s) (s_aborted s) (s_outbox s) (s_pc s) (s_arrived s) (s_done s) (s_aborts s).
Definition set_pending l s := mkScheduler (s_inbox s) l (s_aborted s) (s_outbox s) (s_pc s) (s_arrived s) (s_done s) (s_aborts s).

(** [_consume_if_aborted], then the emission it guards. *)
Definition drop (m : IncomingMessage) s := mkScheduler (s_inbox s) (s_pending_messages s) (s_aborted s ∖ {[im_request_id m]}) (s_outbox s)
  (s_pc s) (s_arrived s) (s_done s ++ [(m, Dropped)]) (s_aborts s).
Definition emit (m : IncomingMessage) (out : OutgoingMessage) s := mkScheduler (s_inbox s) (s_pending_messages s) (s_aborted s)
  (s_outbox s ++ [out]) (s_pc s) (s_arrived s) (s_done s ++ [(m, Answered out)]) (s_aborts s).
Definition lose (l : list IncomingMessage) s := mkScheduler (s_inbox s) (s_pending_messages s) (s_aborted s) (s_outbox s)
  (s_pc s) (s_arrived s) (s_done s ++ map (λ m, (m, Lost)) l) (s_aborts s).
Definition answer (m : IncomingMessage) (out : OutgoingMessage) s : scheduler :=
  if bool_decide (im_request_id m ∈ s_aborted s) then drop m s else emit m out s.

Definition _emit_result (m : IncomingMessage) (r : R) : scheduler → scheduler := answer m (OutResult (im_request_id m) r).
Definition _emit_error (m : IncomingMessage) (e : exn) : scheduler → scheduler := answer m (OutError (im_request_id m) e).

(** [_next_message], when there is one. *)
Definition _next_message (s : scheduler) : option scheduler :=
  match s_pending_messages s with
  | m :: l => Some (goto (PTaken m) (set_pending l s))
  | [] => match s_inbox s with m :: l => Some (goto (PTaken m) (set_inbox l s)) | [] => None end
  end.

(** [_collect_batch] up to its loop. *)
Definition collect_start (m : IncomingMessage) : pc :=
  match _batch_fn cfg with
  | None => PBatch [m]
  | Some _ => if bool_decide (_max_batch_size cfg ≤ 1) then PBatch [m]
              else match _message_cost m with Ok c => PCollect m [m] c | Raise e => PFail [m] e [] end
  end.

(** One iteration of its loop.  An exception leaves the caller with the first message
    as its batch. *)
Definition _collect_batch (first : IncomingMessage) (batch : list IncomingMessage) (batch_cost : Z) (s : scheduler) : scheduler :=
  if bool_decide (_max_batch_size cfg ≤ length batch) then goto (PBatch batch) s
  else match s_inbox s with
  | [] => goto (PBatch batch) s
  | m :: l =>
      let s := set_inbox l s in
      if negb (is_new m) then set_pending (s_pending_messages s ++ [m]) s
      else match _max_batch_cost cfg with
      | None => goto (PCollect first (batch ++ [m]) batch_cost) s
      | Some limit =>
          match _message_cost m with
          | Raise e => goto (PFail [first] e (tail batch ++ [m])) s
          | Ok cost =>
              if bool_decide (limit < batch_cost + cost)%Z
              then goto (PBatch batch) (set_pending (m :: s_pending_messages s) s)
              else goto (PCollect first (batch ++ [m]) (batch_cost + cost)) s
          end
      end
  end.

(** [_run_batch], up to the calls of the computation. *)
Definition _run_batch (batch : list IncomingMessage) : pc :=
  match _batch_fn cfg with
  | None => PSingle batch batch
  | Some f =>
      if bool_decide (length batch ≤ 1) then PSingle batch batch
      else match f (map im_data batch) with
      | Raise e => PFail batch e []
      | Ok results =>
          if bool_decide (length results = length batch) then PEmit (zip batch results)
          else PFail batch (ValueError "batch_compute_fn returned a wrong number of results") []
      end
  end.

(** [_run_single]: the check before the computation, and what follows it. *)
Definition run_single (whole : list IncomingMessage) (m : IncomingMessage) (rest : list IncomingMessage) (s : scheduler) : scheduler :=
  if bool_decide (im_request_id m ∈ s_aborted s) then goto (PSingle whole rest) (drop m s)
  else goto (PComputed whole m (_fn cfg (im_data m)) rest) s.

Definition single_done (whole : list IncomingMessage) (m : IncomingMessage) (r : res R) (rest : list IncomingMessage) (s : scheduler) : scheduler :=
  match r with
  | Ok result => goto (PSingle whole rest) (_emit_result m result s)
  | Raise e => if bool_decide (im_request_id m ∈ s_aborted s) then goto (PSingle whole rest) (drop m s) else goto (PFail whole e []) s
  end.

(** [_start_serial]: the loop's next step, when it has one. *)
Definition tick (s : scheduler) : option scheduler :=
  match s_pc s with
  | PIdle => _next_message s
  | PTaken m =>
      Some (if negb (is_new m) then goto PIdle s
            else if bool_decide (im_request_id m ∈ s_aborted s) then goto PIdle (drop m s)
            else goto (collect_start m) s)
  | PCollect first batch cost => Some (_collect_batch first batch cost s)
  | PBatch batch => Some (goto (_run_batch batch) s)
  | PSingle whole [] => Some (goto PIdle s)
  | PSingle whole (m :: rest) => Some (run_single whole m rest s)
  | PComputed whole m r rest => Some (single_done whole m r rest s)
  | PEmit [] => Some (goto PIdle s)
  | PEmit ((m, r) :: rest) => Some (goto (PEmit rest) (_emit_result m r s))
  | PFail [] e lost => Some (goto PIdle (lose lost s))
  | PFail (m :: rest) e lost => Some (goto (PFail rest e lost) (_emit_error m e s))
  end.

(** What other threads do. *)
Definition put (m : IncomingMessage) (s : scheduler) : scheduler :=
  mkScheduler (s_inbox s ++ [m]) (s_pending_messages s) (s_aborted s) (s_outbox s) (s_pc s) (s_arrived s ++ [m]) (s_done s) (s_aborts s).

(** The bounded set of marks; [prune] is what it keeps when it grows too large. *)
Definition mark_aborted (request_id : string) (ids : gset string) : gset string :=
  let ids := {[request_id]} ∪ ids in if bool_decide (10000 < Z.of_nat (size ids))%Z then ids ∩ prune ids else ids.

Definition abort (request_id : string) (s : scheduler) : scheduler :=
  mkScheduler (s_inbox s) (s_pending_messages s) (mark_aborted request_id (s_aborted s)) (s_outbox s)
    (s_pc s) (s_arrived s) (s_done s) (s_aborts s ++ [request_id]).

Inductive sstep : scheduler → scheduler → Prop :=
| ss_tick s s' : tick s = Some s' → sstep s s'
| ss_put m s : sstep s (put m s)
| ss_abort request_id s : sstep s (abort request_id s).

(** ** Accounting *)

(** The requests the loop holds. *)
Definition held (p : pc) : list (IncomingMessage) :=
  match p with
  | PIdle => []
  | PTaken m => if is_new m then [m] else []
  | PCollect _ batch _ | PBatch batch => batch
  | PSingle _ rest => rest
  | PFail rest _ lost => rest ++ lost
  | PComputed _ m _ rest => m :: rest
  | PEmit rest => rest.*1
  end.

Definition fate_out (d : IncomingMessage * fate) : option (OutgoingMessage) :=
  match d.2 with Answered out => Some out | Dropped | Lost => None end.

Definition is_drop (request_id : string) (d : IncomingMessage * fate) : bool :=
  match d.2 with Dropped => bool_decide (im_request_id d.1 = request_id) | Answered _ | Lost => false end.

Definition drops (request_id : string) (l : list (IncomingMessage * fate)) : nat := length (filter (is_drop request_id) l).
Definition abort_calls (request_id : string) (l : list string) : nat := length (filter (λ r, bool_decide (r = request_id)) l).

(** An answer is what the computation said of that request. *)
Definition right_answer (m : IncomingMessage) (out : OutgoingMessage) : Prop :=
  match out with
  | OutError rid _ => rid = im_request_id m
  | OutResult rid r => rid = im_request_id m ∧
      (_fn cfg (im_data m) = Ok r ∨
       ∃ f batch results i, _batch_fn cfg = Some f ∧ f (map im_data batch) = Ok results ∧ length results = length batch ∧
         batch !! i = Some m ∧ results !! i = Some r)
  end.

Definition news : list (IncomingMessage) → list (IncomingMessage) := filter (λ m, is_new m).

(** What each point of the loop knows of its batch. *)
Definition pc_ok (p : pc) (pending : list (IncomingMessage)) : Prop :=
  match p with
  | PIdle => True
  | PTaken m => news pending = []
  | PCollect first batch _ => news pending = [] ∧ (∃ rest, batch = first :: rest) ∧ _batch_fn cfg ≠ None ∧ length batch ≤ _max_batch_size cfg ∧ news batch = batch
  | PBatch batch => batch ≠ [] ∧ (_batch_fn cfg = None → length batch = 1) ∧ length batch ≤ Nat.max 1 (_max_batch_size cfg) ∧ news batch = batch
  | PSingle whole rest => length whole = 1 ∧ (rest = whole ∨ rest = [])
  | PComputed whole m r rest => whole = [m] ∧ rest = [] ∧ r = _fn cfg (im_data m)
  | PEmit rest => ∃ f batch results pre, _batch_fn cfg = Some f ∧ f (map im_data batch) = Ok results ∧
      length results = length batch ∧ zip batch results = pre ++ rest
  | PFail rest e lost => lost = [] ∨ ∃ m, m ∈ lost ∧ _message_cost m = Raise e
  end.

Record sched_inv (s : scheduler) : Prop := {
  si_order : news (s_arrived s) = (s_done s).*1 ++ held (s_pc s) ++ news (s_pending_messages s) ++ news (s_inbox s);
  si_pending : news (tail (s_pending_messages s)) = [];
  si_outbox : s_outbox s = omap fate_out (s_done s);
  si_drops : ∀ r, drops r (s_done s) + (if bool_decide (r ∈ s_aborted s) then 1 else 0) ≤ abort_calls r (s_aborts s);
  si_right : Forall (λ d, ∀ out, d.2 = Answered out → right_answer d.1 out) (s_done s);
  si_lost : ∀ m, (m, Lost) ∈ s_done s → ∃ m' e, (m', Lost) ∈ s_done s ∧ _message_cost m' = Raise e;
  si_pc : pc_ok (s_pc s) (s_pending_messages s);
}.

Lemma news_app l k : news (l ++ k) = news l ++ news k.
Proof. apply filter_app. Qed.

Lemma news_new m l : is_new m = true → news (m :: l) = m :: news l.
Proof. intros Hm. unfold news. rewrite filter_cons_True; [done|]. by rewrite Hm. Qed.

Lemma news_old m l : is_new m = false → news (m :: l) = news l.
Proof. intros Hm. unfold news. rewrite filter_cons_False; [done|]. rewrite Hm. by intros []. Qed.

Lemma news_nil_tail l : news l = [] → news (tail l) = [].
Proof. destruct l as [|m l]; [done|]. destruct (is_new m) eqn:E; [by rewrite news_new|by rewrite news_old]. Qed.

Lemma drops_snoc r l d : drops r (l ++ [d]) = drops r l + (if is_drop r d then 1 else 0).
Proof. unfold drops. rewrite filter_app, length_app. f_equal. rewrite filter_cons, filter_nil. by destruct (is_drop r d). Qed.

(** Dropping a request uses up its abort, and answering it changes no mark. *)
Lemma drop_drops m s : (∀ r, drops r (s_done s) + (if bool_decide (r ∈ s_aborted s) then 1 else 0) ≤ abort_calls r (s_aborts s)) →
  im_request_id m ∈ s_aborted s →
  ∀ r, drops r (s_done s ++ [(m, Dropped)]) + (if bool_decide (r ∈ s_aborted s ∖ {[im_request_id m]}) then 1 else 0) ≤ abort_calls r (s_aborts s).
Proof.
  intros Hd Hin r. rewrite drops_snoc. unfold is_drop. cbn [fst snd]. specialize (Hd r). destruct (decide (im_request_id m = r)) as [<-|Hne].
  - rewrite (bool_decide_true (_ ∈ s_aborted s)) in Hd by done. rewrite (bool_decide_true (_ = _)) by done.
    rewrite bool_decide_false by set_solver. lia.
  - rewrite (bool_decide_false (_ = _)) by done.
    assert (r ∈ s_aborted s ∖ {[im_request_id m]} ↔ r ∈ s_aborted s) as Hiff by set_solver.
    rewrite (bool_decide_ext _ _ Hiff). lia.
Qed.

Lemma emit_drops m out s : (∀ r, drops r (s_done s) + (if bool_decide (r ∈ s_aborted s) then 1 else 0) ≤ abort_calls r (s_aborts s)) →
  ∀ r, drops r (s_done s ++ [(m, Answered out)]) + (if bool_decide (r ∈ s_aborted s) then 1 else 0) ≤ abort_calls r (s_aborts s).
Proof. intros Hd r. rewrite drops_snoc. unfold is_drop. simpl. rewrite Nat.add_0_r. apply Hd. Qed.

(** The requests lost so far stay lost, and a request done in another way adds none. *)
Definition lost_ok (l : list (IncomingMessage * fate)) : Prop := ∀ m, (m, Lost) ∈ l → ∃ m' e, (m', Lost) ∈ l ∧ _message_cost m' = Raise e.
Lemma lost_snoc l d : lost_ok l → d.2 ≠ Lost → lost_ok (l ++ [d]).
Proof.
  intros Hl Hd m [Hm|Hm]%elem_of_app; [|by apply list_elem_of_singleton in Hm as <-].
  destruct (Hl m Hm) as (m' & e & Hm' & ?). exists m', e. split; [|done]. apply elem_of_app. by left.
Qed.
Lemma inv_lose lost e s : sched_inv s → s_pc s = PFail [] e lost → sched_inv (goto PIdle (lose lost s)).
Proof.
  intros [I1 I2 I3 I4 I5 I7 I6] Hpc. rewrite Hpc in I1, I6. simpl in I1, I6. split; simpl; try done.
  - rewrite fmap_app, <- app_assoc. rewrite <- (list_fmap_compose (λ m, (m, Lost)) fst). simpl. by rewrite list_fmap_id.
  - rewrite omap_app, I3. symmetry. transitivity (omap fate_out (s_done s) ++ []); [|by rewrite app_nil_r]. f_equal. clear. by induction lost.
  - intros r. rewrite <- (I4 r). apply Nat.eq_le_incl. f_equal. unfold drops. rewrite filter_app, length_app.
    replace (filter (is_drop r) (map _ lost)) with (@nil (IncomingMessage * fate)); [simpl; lia|]. clear. by induction lost.
  - apply Forall_app. split; [done|]. apply Forall_forall. intros d (m & -> & _)%list_elem_of_fmap. done.
  - intros m [Hm|Hm]%elem_of_app.
    + destruct (I7 m Hm) as (m' & e' & Hm' & ?). exists m', e'. split; [|done]. apply elem_of_app. by left.
    + destruct I6 as [->|(m' & Hm' & Hc)]; [by apply not_elem_of_nil in Hm|]. exists m', e. split; [|done]. apply elem_of_app. right. apply list_elem_of_fmap. by exists m'.
Qed.

(** A request leaves the loop: the head of what it holds is done. *)
Lemma inv_drop m p s : sched_inv s → im_request_id m ∈ s_aborted s → held (s_pc s) = m :: held p →
  pc_ok p (s_pending_messages s) → sched_inv (goto p (drop m s)).
Proof.
  intros [I1 I2 I3 I4 I5 I7 I6] Hin Hh Hp. split; simpl; try done.
  - rewrite fmap_app. simpl. rewrite I1, Hh. by rewrite <-app_assoc.
  - rewrite omap_app. simpl. by rewrite app_nil_r.
  - by apply drop_drops.
  - apply Forall_app. split; [done|]. by apply Forall_cons.
  - by apply lost_snoc.
Qed.

Lemma inv_emit m out p s : sched_inv s → right_answer m out → held (s_pc s) = m :: held p →
  pc_ok p (s_pending_messages s) → sched_inv (goto p (emit m out s)).
Proof.
  intros [I1 I2 I3 I4 I5 I7 I6] Hr Hh Hp. split; simpl; try done.
  - rewrite fmap_app. simpl. rewrite I1, Hh. by rewrite <-app_assoc.
  - rewrite omap_app. simpl. by rewrite I3.
  - by apply emit_drops.
  - apply Forall_app. split; [done|]. apply Forall_cons. split; [|done]. by intros o [= <-].
  - by apply lost_snoc.
Qed.

Lemma inv_answer m out p s : sched_inv s → right_answer m out → held (s_pc s) = m :: held p →
  pc_ok p (s_pending_messages s) → sched_inv (goto p (answer m out s)).
Proof.
  intros Hi Hr Hh Hp. unfold answer. case_bool_decide; [by apply inv_drop|by apply inv_emit].
Qed.

Lemma inv_goto p s : sched_inv s → held (s_pc s) = held p → pc_ok p (s_pending_messages s) → sched_inv (goto p s).
Proof. intros [I1 I2 I3 I4 I5 I7 I6] Hh Hp. split; simpl; try done. by rewrite <-Hh. Qed.

(** The limits of a batch: its size, and its cost unless it is one request. *)
Definition cost_of (m : IncomingMessage) : Z := match _message_cost m with Ok c => c | Raise _ => 0 end.
Definition batch_cost (l : list IncomingMessage) : Z := foldr (λ m c, (cost_of m + c)%Z) 0%Z l.

Lemma batch_cost_app l k : batch_cost (l ++ k) = (batch_cost l + batch_cost k)%Z.
Proof. induction l as [|m l IH]; simpl; [done|]. lia. Qed.

Lemma message_cost_ok m c : _message_cost m = Ok c → c = cost_of m.
Proof. unfold cost_of. by intros ->. Qed.

Lemma next_inv s s' : sched_inv s → s_pc s = PIdle → _next_message s = Some s' → sched_inv s'.
Proof.
  intros [I1 I2 I3 I4 I5 I7 I6] Hpc Hn. rewrite Hpc in I1. unfold _next_message in Hn.
  destruct (s_pending_messages s) as [|m l] eqn:Ep; simpl in *.
  - destruct (s_inbox s) as [|m l] eqn:Ei; [done|]. injection Hn as <-. split; simpl; try done; try by rewrite Ep.
    rewrite I1. f_equal. destruct (is_new m) eqn:Em; [by rewrite news_new, Ep|by rewrite news_old, Ep].
  - injection Hn as <-. split; simpl; try done; [|by apply news_nil_tail].
    rewrite I1. f_equal. destruct (is_new m) eqn:Em; [by rewrite news_new|by rewrite news_old].
Qed.

Lemma taken_inv m s : sched_inv s → s_pc s = PTaken m →
  sched_inv (if negb (is_new m) then goto PIdle s
             else if bool_decide (im_request_id m ∈ s_aborted s) then goto PIdle (drop m s) else goto (collect_start m) s).
Proof.
  intros Hi Hpc. destruct (is_new m) eqn:Em; simpl.
  - case_bool_decide as Ha; [apply inv_drop; try done; rewrite Hpc; simpl; by rewrite Em|].
    pose proof (si_pc _ Hi) as Hp. rewrite Hpc in Hp. simpl in Hp.
    apply inv_goto; [done|rewrite Hpc; simpl; rewrite Em|]; unfold collect_start.
    + destruct (_batch_fn cfg); [|done]. case_bool_decide; [done|]. by destruct (_message_cost m).
    + destruct (_batch_fn cfg) eqn:Eb.
      * case_bool_decide as Hle.
        -- simpl. split_and!; [done|done|lia|by rewrite news_new].
        -- destruct (_message_cost m); simpl; [|by left]. split_and!; [done|by exists []|congruence|lia|by rewrite news_new].
      * simpl. split_and!; [done|done|lia|by rewrite news_new].
  - apply inv_goto; [done|rewrite Hpc; simpl; by rewrite Em|done].
Qed.

Lemma collect_inv first batch c s : sched_inv s → s_pc s = PCollect first batch c → sched_inv (_collect_batch first batch c s).
Proof.
  intros Hi Hpc. pose proof (si_pc _ Hi) as Hp. rewrite Hpc in Hp. destruct Hp as (Hpend & [rest Hb] & Hfn & Hlen & Hnew).
  assert (sched_inv (goto (PBatch batch) s)) as Hstop.
  { apply inv_goto; [done|by rewrite Hpc|]. simpl. split_and!; [by rewrite Hb|done|lia|done]. }
  unfold _collect_batch. case_bool_decide as Hle; [done|]. destruct (s_inbox s) as [|m l] eqn:Ei; [done|].
  destruct Hi as [I1 I2 I3 I4 I5 I7 I6]. rewrite Hpc, Hpend, Ei in I1. simpl in I1.
  destruct (is_new m) eqn:Em; simpl.
  - rewrite news_new in I1 by done.
    assert (∀ c', sched_inv (goto (PCollect first (batch ++ [m]) c') (set_inbox l s))) as Hmore.
    { intros c'. split; simpl; try done; [by rewrite Hpend, I1; simpl; rewrite <-app_assoc|].
      split_and!; [done|exists (rest ++ [m]); by rewrite Hb|done|rewrite length_app; simpl; lia|].
      by rewrite news_app, Hnew, news_new. }
    destruct (_max_batch_cost cfg) as [limit|]; [|by apply Hmore].
    destruct (_message_cost m) as [cost|e] eqn:Ec.
    2: { split; simpl; try done; [|right; exists m; split; [apply elem_of_app; right; by left|done]]. rewrite Hpend, I1, Hb. simpl. by rewrite <-!app_assoc. }
    case_bool_decide; [|by apply Hmore].
    split; simpl; try done; [by rewrite news_new, Hpend, I1 by done|split_and!; [by rewrite Hb|done|lia|done]].
  - rewrite news_old in I1 by done. assert (news (s_pending_messages s ++ [m]) = []) as Hnil by by rewrite news_app, Hpend, news_old.
    split; simpl; try done; [by rewrite Hpc, Hnil|by apply news_nil_tail|]. rewrite Hpc. simpl. split_and!; [done|by exists rest|done|done|done].
Qed.

Lemma zip_fst {A B} (l : list A) (k : list B) : length k = length l → (zip l k).*1 = l.
Proof. intros Hl. apply fst_zip. lia. Qed.

Lemma run_batch_inv batch s : sched_inv s → s_pc s = PBatch batch → sched_inv (goto (_run_batch batch) s).
Proof.
  intros Hi Hpc. pose proof (si_pc _ Hi) as Hp. rewrite Hpc in Hp. destruct Hp as (Hne & Hnone & Hlen & Hnew).
  apply inv_goto; [done|rewrite Hpc; simpl|]; unfold _run_batch; destruct (_batch_fn cfg) as [f|] eqn:Ef; try done.
  - case_bool_decide; [done|]. destruct (f (map im_data batch)) as [results|e]; [|simpl; by rewrite app_nil_r]. case_bool_decide as Hl; [|simpl; by rewrite app_nil_r].
    simpl. by rewrite zip_fst.
  - case_bool_decide as Hl; [simpl; split; [destruct batch as [|? [|]]; simpl in *; [done|done|lia]|by left]|].
    destruct (f (map im_data batch)) as [results|e] eqn:Er; [|by left]. case_bool_decide; [|by left].
    simpl. exists f, batch, results, []. by split_and!.
  - simpl. split; [by apply Hnone|by left].
Qed.

Lemma single_inv whole m rest s : sched_inv s → s_pc s = PSingle whole (m :: rest) → sched_inv (run_single whole m rest s).
Proof.
  intros Hi Hpc. pose proof (si_pc _ Hi) as Hp. rewrite Hpc in Hp. destruct Hp as [Hl [Hw|Hw]]; [|done].
  subst whole. destruct rest; [|done]. unfold run_single. case_bool_decide.
  - apply inv_drop; [done|done|by rewrite Hpc|simpl; by auto].
  - apply inv_goto; [done|by rewrite Hpc|done].
Qed.

Lemma computed_inv whole m r rest s : sched_inv s → s_pc s = PComputed whole m r rest → sched_inv (single_done whole m r rest s).
Proof.
  intros Hi Hpc. pose proof (si_pc _ Hi) as Hp. rewrite Hpc in Hp. destruct Hp as (-> & -> & Hr).
  unfold single_done. destruct r as [result|e].
  - apply inv_answer; [done|split; [done|by left]|by rewrite Hpc|split; [done|by right]].
  - case_bool_decide; [apply inv_drop; [done|done|by rewrite Hpc|split; [done|by right]]|].
    apply inv_goto; [done|by rewrite Hpc|by left].
Qed.

Lemma emit_inv m r rest s : sched_inv s → s_pc s = PEmit ((m, r) :: rest) → sched_inv (goto (PEmit rest) (_emit_result m r s)).
Proof.
  intros Hi Hpc. pose proof (si_pc _ Hi) as Hp. rewrite Hpc in Hp. destruct Hp as (f & batch & results & pre & Hf & Hr & Hl & Hz).
  apply inv_answer; [done| |by rewrite Hpc|].
  - split; [done|right]. exists f, batch, results, (length pre). split_and!; try done.
    + assert (zip batch results !! length pre = Some (m, r)) as Hx by by rewrite Hz, list_lookup_middle.
      apply lookup_zip_with_Some in Hx as (x & y & [= -> ->] & Hx & _). done.
    + assert (zip batch results !! length pre = Some (m, r)) as Hx by by rewrite Hz, list_lookup_middle.
      apply lookup_zip_with_Some in Hx as (x & y & [= -> ->] & _ & Hy). done.
  - simpl. exists f, batch, results, (pre ++ [(m, r)]). split_and!; try done. by rewrite <-app_assoc.
Qed.

Lemma tick_inv s s' : sched_inv s → tick s = Some s' → sched_inv s'.
Proof.
  intros Hi Ht. unfold tick in Ht. destruct (s_pc s) as [|m|first batch c|batch|whole [|m rest]|whole m r rest|[|[m r] rest]|[|m rest] e lost] eqn:Hpc.
  - by eapply next_inv.
  - injection Ht as <-. by apply taken_inv.
  - injection Ht as <-. by apply collect_inv.
  - injection Ht as <-. by apply run_batch_inv.
  - injection Ht as <-. apply inv_goto; [done|by rewrite Hpc|done].
  - injection Ht as <-. by apply single_inv.
  - injection Ht as <-. by apply computed_inv.
  - injection Ht as <-. apply inv_goto; [done|by rewrite Hpc|done].
  - injection Ht as <-. by apply emit_inv.
  - injection Ht as <-. by eapply inv_lose.
  - injection Ht as <-. apply inv_answer; [done|done|by rewrite Hpc|]. pose proof (si_pc _ Hi) as Hp. by rewrite Hpc in Hp.
Qed.

Lemma abort_calls_snoc r l x : abort_calls r (l ++ [x]) = abort_calls r l + (if bool_decide (x = r) then 1 else 0).
Proof. unfold abort_calls. rewrite filter_app, length_app. f_equal. rewrite filter_cons, filter_nil. by destruct (bool_decide (x = r)). Qed.

Lemma mark_within rid r ids : r ∈ mark_aborted rid ids → rid = r ∨ r ∈ ids.
Proof.
  unfold mark_aborted. intros Hr. assert (r ∈ {[rid]} ∪ ids) as Hy.
  { destruct (bool_decide _); [by apply elem_of_intersection in Hr as [? _]|done]. }
  apply elem_of_union in Hy as [Hy%elem_of_singleton|Hy]; [by left|by right].
Qed.

Lemma sstep_inv s s' : sched_inv s → sstep s s' → sched_inv s'.
Proof.
  intros Hi Hs. destruct Hs as [s s' Ht|m s|rid s]; [by eapply tick_inv|..]; destruct Hi as [I1 I2 I3 I4 I5 I7 I6].
  - split; simpl; try done. rewrite !news_app, I1. by rewrite !app_assoc.
  - pose proof (λ r, mark_within rid r (s_aborted s)) as Hin. unfold abort. revert Hin.
    generalize (mark_aborted rid (s_aborted s)). intros ids Hin. split; simpl; try done.
    intros r. rewrite abort_calls_snoc. specialize (I4 r).
    destruct (bool_decide (r ∈ ids)) eqn:H1; [|destruct (bool_decide (r ∈ s_aborted s)), (bool_decide (rid = r)); lia].
    apply bool_decide_eq_true in H1. destruct (Hin r H1) as [->|Hr].
    + rewrite (bool_decide_true (r = r)) by done. destruct (bool_decide (r ∈ s_aborted s)); lia.
    + rewrite (bool_decide_true (r ∈ s_aborted s)) in I4 by done. lia.
Qed.

Lemma run_inv s : rtc sstep scheduler_init s → sched_inv s.
Proof.
  intros Hr. refine (rtc_ind_r sched_inv _ _ _ _ Hr); [|by intros x z _ Hxz Hx; eapply sstep_inv].
  split; try done. intros m Hm. by apply not_elem_of_nil in Hm.
Qed.

(** *** Limits *)
Definition limits_ok (p : pc) : Prop :=
  match p with
  | PCollect first batch c => ∀ limit, _max_batch_cost cfg = Some limit →
      c = batch_cost batch ∧ (length batch ≤ 1 ∨ (batch_cost batch ≤ limit)%Z)
  | PBatch batch => ∀ limit, _max_batch_cost cfg = Some limit → length batch ≤ 1 ∨ (batch_cost batch ≤ limit)%Z
  | _ => True
  end.

Lemma tick_limits s s' : limits_ok (s_pc s) → tick s = Some s' → limits_ok (s_pc s').
Proof.
  intros Hl Ht. unfold tick in Ht. destruct (s_pc s) as [|m|first batch c|batch|whole [|m rest]|whole m r rest|[|[m r] rest]|[|m rest] e lost] eqn:Hpc;
    try (injection Ht as <-).
  - unfold _next_message in Ht. destruct (s_pending_messages s); [destruct (s_inbox s); [done|]|]; by injection Ht as <-.
  - destruct (negb _); [done|]. case_bool_decide; [done|]. unfold collect_start.
    destruct (_batch_fn cfg); [|by left]. case_bool_decide; [by left|]. destruct (_message_cost m) eqn:Ec; [|done]. apply message_cost_ok in Ec as ->. simpl. intros limit _. split; [lia|left; lia].
  - simpl in Hl. unfold _collect_batch. case_bool_decide; [intros limit Hlim; by destruct (Hl limit Hlim)|].
    destruct (s_inbox s) as [|m l]; [intros limit Hlim; by destruct (Hl limit Hlim)|]. destruct (negb _); [simpl; by rewrite Hpc|].
    destruct (_max_batch_cost cfg) as [limit|] eqn:Em; [|by intros limit Hlim; rewrite Em in Hlim].
    destruct (_message_cost m) as [cost|e] eqn:Ec; [|done]. apply message_cost_ok in Ec as ->. destruct (Hl limit eq_refl) as [-> Hor]. case_bool_decide as Hc.
    + by intros limit' [= <-]%(eq_trans (eq_sym Em)).
    + intros limit' [= <-]%(eq_trans (eq_sym Em)). rewrite batch_cost_app. simpl. split; [lia|right; lia].
  - unfold _run_batch. destruct (_batch_fn cfg) as [f|]; [|done]. case_bool_decide; [done|]. destruct (f _); [|done]. by case_bool_decide.
  - done.
  - unfold run_single. by case_bool_decide.
  - unfold single_done. destruct r; [done|]. by case_bool_decide.
  - done.
  - done.
  - done.
  - done.
Qed.

(** *** Draining *)
Definition pc_work (p : pc) : nat :=
  match p with
  | PIdle => 0
  | PTaken _ => 7
  | PCollect _ batch _ => 3 * length batch + 3
  | PBatch batch => 3 * length batch + 2
  | PSingle _ rest => 3 * length rest + 1
  | PComputed _ _ _ rest => 3 * length rest + 3
  | PEmit rest => length rest + 1
  | PFail rest _ _ => length rest + 1
  end.

Definition work_left (s : scheduler) : nat :=
  9 * length (s_inbox s) + 8 * length (s_pending_messages s) + pc_work (s_pc s).

Lemma answer_queues m out s : s_inbox (answer m out s) = s_inbox s ∧ s_pending_messages (answer m out s) = s_pending_messages s.
Proof. unfold answer. by case_bool_decide. Qed.

Lemma tick_work s s' : sched_inv s → tick s = Some s' → work_left s' < work_left s.
Proof.
  intros Hi Ht. pose proof (si_pc _ Hi) as Hp. unfold tick in Ht.
  destruct (s_pc s) as [|m|first batch c|batch|whole [|m rest]|whole m r rest|[|[m r] rest]|[|m rest] e lost] eqn:Hpc;
    unfold work_left; rewrite Hpc; try (injection Ht as <-).
  - unfold _next_message in Ht. destruct (s_pending_messages s) eqn:Ep; [destruct (s_inbox s) eqn:Ei; [done|]|]; injection Ht as <-;
      simpl; rewrite ?Ep; simpl; lia.
  - destruct (negb _); [simpl; lia|]. case_bool_decide; [simpl; lia|]. unfold collect_start.
    destruct (_batch_fn cfg); [|simpl; lia]. case_bool_decide; [simpl; lia|]. destruct (_message_cost m); simpl; lia.
  - unfold _collect_batch. case_bool_decide; [simpl; lia|]. destruct (s_inbox s) as [|m l] eqn:Ei; [rewrite ?Ei; simpl; rewrite ?Ei; simpl; lia|].
    destruct (negb _); [simpl; rewrite Hpc, length_app; simpl; lia|].
    destruct (_max_batch_cost cfg) as [limit|]; [|simpl; rewrite length_app; simpl; lia].
    destruct (_message_cost m); [|simpl; lia]. case_bool_decide; simpl; rewrite ?length_app; simpl; lia.
  - unfold _run_batch. destruct (_batch_fn cfg) as [f|]; [|simpl; lia]. case_bool_decide; [simpl; lia|].
    destruct (f _) as [results|]; [|simpl; lia]. case_bool_decide as Hl; simpl; [|lia]. rewrite length_zip_with. lia.
  - simpl. lia.
  - unfold run_single. case_bool_decide; simpl; lia.
  - simpl in Hp. destruct Hp as (-> & -> & _). unfold single_done. destruct r; [|case_bool_decide; simpl; lia].
    unfold _emit_result. simpl. destruct (answer_queues m (OutResult (im_request_id m) a) s) as [-> ->]. lia.
  - simpl. lia.
  - unfold _emit_result. simpl. destruct (answer_queues m (OutResult (im_request_id m) r) s) as [-> ->]. lia.
  - simpl. lia.
  - unfold _emit_error. simpl. destruct (answer_queues m (OutError (im_request_id m) e) s) as [-> ->]. lia.
Qed.

Lemma ticks_drain s : sched_inv s → ∃ s', rtc (λ a b, tick a = Some b) s s' ∧ tick s' = None.
Proof.
  remember (work_left s) as n eqn:En. revert s En. induction n as [n IH] using lt_wf_ind. intros s -> Hi.
  destruct (tick s) as [s1|] eqn:Et; [|by exists s].
  destruct (IH (work_left s1) (tick_work s s1 Hi Et) s1 eq_refl) as (s' & Hr & Hn); [by eapply tick_inv|].
  exists s'. split; [by eapply rtc_l|done].
Qed.

Lemma tick_stuck s : tick s = None → s_pc s = PIdle ∧ s_pending_messages s = [] ∧ s_inbox s = [].
Proof.
  unfold tick. destruct (s_pc s) as [|m|first batch c|batch|whole [|m rest]|whole m r rest|[|[m r] rest]|[|m rest] e lost]; try done.
  unfold _next_message. destruct (s_pending_messages s); [|done]. by destruct (s_inbox s).
Qed.

Lemma ticks_keep s s' : rtc (λ a b, tick a = Some b) s s' → s_arrived s' = s_arrived s.
Proof.
  assert (∀ m out s, s_arrived (answer m out s) = s_arrived s) as Ha by (intros m out s0; unfold answer; by case_bool_decide).
  intros Hr. induction Hr as [|x y z Hxy _ IH]; [done|]. rewrite IH. unfold tick in Hxy.
  destruct (s_pc x) as [|m|first batch c|batch|whole [|m rest]|whole m r rest|[|[m r] rest]|[|m rest] e lost]; try (injection Hxy as <-); try done.
  - unfold _next_message in Hxy. destruct (s_pending_messages x); [destruct (s_inbox x); [done|]|]; by injection Hxy as <-.
  - destruct (negb _); [done|]. by case_bool_decide.
  - unfold _collect_batch. case_bool_decide; [done|]. destruct (s_inbox x); [done|]. destruct (negb _); [done|].
    destruct (_max_batch_cost cfg); [|done]. destruct (_message_cost _); [|done]. by case_bool_decide.
  - unfold run_single. by case_bool_decide.
  - unfold single_done. destruct r; [apply Ha|]. by case_bool_decide.
  - apply Ha.
  - apply Ha.
Qed.


(** Batches keep their limits, and the queue drains: a batch about to run has at
    least one request, no more than [max_batch_size], all of them requests, and costs
    no more than [max_batch_cost] unless it is a single request; and from every
    reachable state, with nothing more put, the loop comes to rest with every request
    that arrived done. *)
Theorem batches_bounded_and_drained s : rtc sstep scheduler_init s →
  (∀ batch, s_pc s = PBatch batch → 1 ≤ length batch ≤ Nat.max 1 (_max_batch_size cfg) ∧ news batch = batch ∧
    ∀ limit, _max_batch_cost cfg = Some limit → length batch = 1 ∨ (batch_cost batch ≤ limit)%Z) ∧
  ∃ s', rtc (λ a b, tick a = Some b) s s' ∧ tick s' = None ∧ (s_done s').*1 = news (s_arrived s).
Proof.
  intros Hr. pose proof (run_inv s Hr) as Hi. split.
  - intros batch Hpc. assert (limits_ok (s_pc s)) as Hl.
    { refine (rtc_ind_r (λ s, limits_ok (s_pc s)) _ _ _ _ Hr); [done|]. intros x z _ Hxz Hx. destruct Hxz; [by eapply tick_limits|done|done]. }
    pose proof (si_pc _ Hi) as Hp. rewrite Hpc in Hp, Hl. destruct Hp as (Hne & _ & Hlen & Hnew).
    assert (1 ≤ length batch) by (destruct batch; [done|simpl; lia]). split_and!; [done|done|done|].
    intros limit Hlim. destruct (Hl limit Hlim); [left; lia|by right].
  - destruct (ticks_drain s Hi) as (s' & Hs & Hn). exists s'. split_and!; [done|done|].
    assert (sched_inv s') as Hi'.
    { clear -Hs Hi. induction Hs as [|x y z Hxy _ IH]; [done|]. apply IH. by eapply tick_inv. }
    destruct (tick_stuck s' Hn) as (Hpc & Hpend & Hin). pose proof (si_order _ Hi') as Ho. rewrite Hpc, Hpend, Hin in Ho. simpl in Ho.
    rewrite app_nil_r in Ho. by rewrite <-Ho, (ticks_keep s s' Hs).
Qed.
End scheduler.
Arguments IncomingMessage : clear implicits.
Arguments OutgoingMessage : clear implicits.
Arguments scheduler : clear implicits.
Arguments SchedulerConfig : clear implicits.

(** ** Runs of a scheduler that doubles numbers in batches of cost at most ten *)
Definition demo_cost (n : Z) : res Z := if bool_decide (n = 13)%Z then Raise (ValueError "bad payload") else Ok n.
Definition demo_cfg (cost : Z → res Z) : SchedulerConfig Z Z :=
  mkSchedulerConfig (λ n, Ok (2 * n)%Z) (Some (λ l, Ok (map (Z.mul 2) l))) 4 (Some cost) (Some 10%Z).
Definition demo_req (request_id : string) (n : Z) : IncomingMessage Z := mkIncoming request_id NewRequest n.
Definition demo_puts (l : list (IncomingMessage Z)) : scheduler Z Z := foldl (λ s m, put m s) scheduler_init l.

(** The loop run to rest. *)
Fixpoint ticks (cost : Z → res Z) (n : nat) (s : scheduler Z Z) : scheduler Z Z :=
  match n with 0 => s | S n => match tick (demo_cfg cost) s with Some s' => ticks cost n s' | None => s end end.

Lemma ticks_steps cost n s : rtc (sstep (demo_cfg cost) id) s (ticks cost n s).
Proof.
  revert s. induction n as [|n IH]; intros s; [apply rtc_refl|]. simpl. destruct (tick (demo_cfg cost) s) as [s'|] eqn:E; [|apply rtc_refl].
  eapply rtc_l; [by apply ss_tick|apply IH].
Qed.

Lemma puts_steps cost l s : rtc (sstep (demo_cfg cost) id) s (foldl (λ s m, put m s) s l).
Proof. revert s. induction l as [|m l IH]; intros s; [apply rtc_refl|]. simpl. eapply rtc_l; [apply ss_put|apply IH]. Qed.

Definition demo_run (cost : Z → res Z) (l : list (IncomingMessage Z)) (aborted : string) (n k : nat) : scheduler Z Z :=
  ticks cost k (abort id aborted (ticks cost n (demo_puts l))).

Lemma demo_run_steps cost l aborted n k : rtc (sstep (demo_cfg cost) id) scheduler_init (demo_run cost l aborted n k).
Proof.
  unfold demo_run, demo_puts. etransitivity; [apply puts_steps|]. etransitivity; [apply ticks_steps|].
  eapply rtc_l; [apply ss_abort|apply ticks_steps].
Qed.


Lemma batches_bounded_and_drained_witness :
  let s := demo_run (λ n, Ok n) [demo_req "a" 1; demo_req "b" 2; demo_req "c" 3; demo_req "d" 9] "x" 4 1 in
  ∃ batch, s_pc s = PBatch batch ∧ length batch = 3 ∧ (length batch = 1 ∨ (batch_cost (demo_cfg (λ n, Ok n)) batch ≤ 10)%Z).
Proof.
  intros s. destruct (batches_bounded_and_drained (demo_cfg (λ n, Ok n)) id s (demo_run_steps _ _ _ _ _)) as [Hb _].
  eexists. split; [vm_compute; reflexivity|]. split; [reflexivity|].
  destruct (Hb [demo_req "a" 1; demo_req "b" 2; demo_req "c" 3]%Z) as (_ & _ & Hc); [vm_compute; reflexivity|].
  exact (Hc 10%Z eq_refl).
Defined.

(** A cost function that raises loses requests: when it raises for a request being
    added to a batch, only the first request of the batch gets an error, and the loop
    comes to rest with the one whose cost raised and those collected between them
    neither answered, nor dropped, nor held; nothing was aborted. *)
Theorem cost_failure_loses_requests :
  let s := ticks demo_cost 20 (demo_puts [demo_req "a" 1; demo_req "b" 2; demo_req "c" 13]) in
  rtc (sstep (demo_cfg demo_cost) id) scheduler_init s ∧ tick (demo_cfg demo_cost) s = None ∧
  s_outbox s = [OutError "a" (ValueError "bad payload")] ∧
  s_done s = [(demo_req "a" 1, Answered (OutError "a" (ValueError "bad payload"))); (demo_req "b" 2, Lost); (demo_req "c" 13, Lost)]%Z ∧
  s_aborts s = [] ∧ held (s_pc s) = [] ∧ s_inbox s = [] ∧ s_pending_messages s = [].
Proof.
  intros s. split; [etransitivity; [apply puts_steps|apply ticks_steps]|]. vm_compute. by split_and!.
Qed.
