(* ===== verification/ThreadedScheduler.v ===== *)
(** * The scheduler of threaded stages

    Models [ThreadedSimpleScheduler] ([src/sglang_omni/scheduling/threaded_simple_scheduler.py]):
    the loop that hands requests to a thread pool, the futures with their callbacks, aborts
    from other threads, and the end.  A lock section, a queue operation or an operation on a
    future is one step; every thread may stop between two of its steps.  A future's number
    is its position in [futures]; its compute function returns or raises anything.

    Histories of a request are words of a small automaton ([lane]): it is queued, started,
    finished and answered, or an abort takes it out at one of these places. *)
From S2P Require Import Prelude SimpleScheduler.

Definition _ABORTED_REQUEST_ID_LIMIT : Z := 10000.
Definition _ABORTED_REQUEST_ID_RETAINED : Z := 5000.

Section threaded.
Context {P R : Type} (_max_concurrency : nat).
#[local] Notation IncomingMessage := (SimpleScheduler.IncomingMessage P).
#[local] Notation OutgoingMessage := (SimpleScheduler.OutgoingMessage R).

(** ** Futures

    [f_cb] is the done callback, [_finish]: not added yet, added, at one of its steps (on a
    worker thread or not), or over. *)
Inductive future_status := FQueued | FRunning | FReturned (r : res R) | FCancelled.
Inductive finish_pc := FLock | FCallback | FEmit.
Inductive callback := CbNone | CbAttached | CbRunning (p : finish_pc) (on_worker : bool) | CbDone.
Record future := mkFuture { f_request : string; f_data : P; f_status : future_status; f_cb : callback }.

(** What happened, for the statements. *)
Inductive happening :=
| Put (request_id : string)
| Consumed (request_id : string)
| Dispatched (request_id : string) (fid : nat)
| AbortQueued (request_id : string)
| AbortAhead (request_id : string)
| AbortHit (request_id : string) (fid : nat)
| ShutdownHit (request_id : string) (fid : nat)
| Evicted (request_id : string)
| Finished (request_id : string) (fid : nat) (answered : bool)
| Emitted (request_id : string) (fid : nat) (out : OutgoingMessage)
| FinishCallback (request_id : string) (fid : nat)
| AbortCallback (request_id : string).

(** ** The scheduler *)
Inductive loop_pc :=
| LTop
| LCapacity
| LCheck
| LGet
| LClaimed (m : IncomingMessage)
| LAttach (fid : nat)
| LWait (fid : nat)
| LShutdown
| LShutWait (fid : nat)
| LEnd.
Inductive abort_pc := ALock | ACancel (fid : nat) | AWait (fid : nat) | ACallback | ADone.

Record sched := mkSched {
  at_pc : loop_pc;
  queue : list IncomingMessage;
  _request_counts : gmap string Z;
  _claimed_counts : gmap string Z;
  _pending : gmap string nat;
  _queued_aborts : gset string;
  _speculative_aborts : list string;
  _aborted_futures : gset nat;
  _running : bool;
  futures : list future;
  aborts : list (string * abort_pc);
  outbox : list OutgoingMessage;
  log : list happening;
}.
(** [start] has set [_running]. *)
Definition sched_init : sched := mkSched LTop [] ∅ ∅ ∅ ∅ [] ∅ true [] [] [] [].

Definition goto (p : loop_pc) (s : sched) : sched := mkSched p (queue s) (_request_counts s) (_claimed_counts s) (_pending s) (_queued_aborts s) (_speculative_aborts s) (_aborted_futures s) (_running s) (futures s) (aborts s) (outbox s) (log s).
Definition set_inbox (l : list IncomingMessage) (c d : gmap string Z) (s : sched) : sched := mkSched (at_pc s) l c d (_pending s) (_queued_aborts s) (_speculative_aborts s) (_aborted_futures s) (_running s) (futures s) (aborts s) (outbox s) (log s).
Definition set_pending (m : gmap string nat) (s : sched) : sched := mkSched (at_pc s) (queue s) (_request_counts s) (_claimed_counts s) m (_queued_aborts s) (_speculative_aborts s) (_aborted_futures s) (_running s) (futures s) (aborts s) (outbox s) (log s).
Definition set_tombstones (q : gset string) (l : list string) (s : sched) : sched := mkSched (at_pc s) (queue s) (_request_counts s) (_claimed_counts s) (_pending s) q l (_aborted_futures s) (_running s) (futures s) (aborts s) (outbox s) (log s).
Definition set_aborted (a : gset nat) (s : sched) : sched := mkSched (at_pc s) (queue s) (_request_counts s) (_claimed_counts s) (_pending s) (_queued_aborts s) (_speculative_aborts s) a (_running s) (futures s) (aborts s) (outbox s) (log s).
Definition stop (s : sched) : sched := mkSched (at_pc s) (queue s) (_request_counts s) (_claimed_counts s) (_pending s) (_queued_aborts s) (_speculative_aborts s) (_aborted_futures s) false (futures s) (aborts s) (outbox s) (log s).
Definition set_futures (l : list future) (s : sched) : sched := mkSched (at_pc s) (queue s) (_request_counts s) (_claimed_counts s) (_pending s) (_queued_aborts s) (_speculative_aborts s) (_aborted_futures s) (_running s) l (aborts s) (outbox s) (log s).
Definition set_aborts (l : list (string * abort_pc)) (s : sched) : sched := mkSched (at_pc s) (queue s) (_request_counts s) (_claimed_counts s) (_pending s) (_queued_aborts s) (_speculative_aborts s) (_aborted_futures s) (_running s) (futures s) l (outbox s) (log s).
Definition put_out (m : OutgoingMessage) (s : sched) : sched := mkSched (at_pc s) (queue s) (_request_counts s) (_claimed_counts s) (_pending s) (_queued_aborts s) (_speculative_aborts s) (_aborted_futures s) (_running s) (futures s) (aborts s) (outbox s ++ [m]) (log s).
Definition note (h : list happening) (s : sched) : sched := mkSched (at_pc s) (queue s) (_request_counts s) (_claimed_counts s) (_pending s) (_queued_aborts s) (_speculative_aborts s) (_aborted_futures s) (_running s) (futures s) (aborts s) (outbox s) (log s ++ h).

(** ** [_CountingInbox] *)
Definition count_up (i : string) (c : gmap string Z) : gmap string Z := <[i := (default 0 (c !! i) + 1)%Z]> c.
Definition count_down (i : string) (c : gmap string Z) : gmap string Z :=
  let remaining := (default 0 (c !! i) - 1)%Z in if bool_decide (0 < remaining)%Z then <[i := remaining]> c else delete i c.
Definition put (m : IncomingMessage) (s : sched) : sched :=
  set_inbox (queue s ++ [m]) (if is_new m then count_up (im_request_id m) (_request_counts s) else _request_counts s) (_claimed_counts s) s.
Definition took (m : IncomingMessage) (l : list IncomingMessage) (s : sched) : sched :=
  if is_new m then set_inbox l (count_down (im_request_id m) (_request_counts s)) (count_up (im_request_id m) (_claimed_counts s)) s
  else set_inbox l (_request_counts s) (_claimed_counts s) s.
Definition is_reachable (i : string) (s : sched) : bool := bool_decide (is_Some (_request_counts s !! i)) || bool_decide (is_Some (_claimed_counts s !! i)).
Definition release_claim (i : string) (s : sched) : sched := set_inbox (queue s) (_request_counts s) (count_down i (_claimed_counts s)) s.

(** ** Tombstones *)
(** [while len(d) >= RETAINED: d.pop(next(iter(d)), None)]: what is popped, and what is left. *)
Definition evict (l : list string) : list string * list string :=
  let n := if bool_decide (_ABORTED_REQUEST_ID_LIMIT ≤ Z.of_nat (length l))%Z then Z.to_nat (Z.of_nat (length l) + 1 - _ABORTED_REQUEST_ID_RETAINED) else 0 in (firstn n l, skipn n l).
Definition _record_speculative_abort (i : string) (s : sched) : sched :=
  if bool_decide (i ∈ _speculative_aborts s) then s
  else let (out, l) := evict (_speculative_aborts s) in note (Evicted <$> out) (set_tombstones (_queued_aborts s) (l ++ [i]) s).
Definition without (i : string) (l : list string) : list string := filter (λ j, j ≠ i) l.
Definition _consume_reachable_tombstone (i : string) (s : sched) : bool * sched :=
  if bool_decide (i ∈ _queued_aborts s) then (true, set_tombstones (_queued_aborts s ∖ {[i]}) (without i (_speculative_aborts s)) s)
  else if bool_decide (i ∈ _speculative_aborts s) then (true, set_tombstones (_queued_aborts s) (without i (_speculative_aborts s)) s)
  else (false, s).
Definition enqueue (m : IncomingMessage) (s : sched) : sched :=
  if negb (is_new m) then put m s
  else let i := im_request_id m in
    let s := if bool_decide (i ∈ _speculative_aborts s) then set_tombstones ({[i]} ∪ _queued_aborts s) (without i (_speculative_aborts s)) s else s in
    note [Put i] (put m s).

(** ** Futures and their callbacks *)
Definition with_status (st : future_status) (f : future) : future := mkFuture (f_request f) (f_data f) st (f_cb f).
Definition with_cb (cb : callback) (f : future) : future := mkFuture (f_request f) (f_data f) (f_status f) cb.
Definition done (f : future) : bool := match f_status f with FReturned _ | FCancelled => true | _ => false end.
Definition set_future (fid : nat) (f : future) (s : sched) : sched := set_futures (<[fid := f]> (futures s)) s.
(** A future that is done runs its callback; [add_done_callback] runs it at once if it is done already. *)
Definition fire (on_worker : bool) (f : future) : future := match f_cb f with CbAttached => with_cb (CbRunning FLock on_worker) f | _ => f end.
Definition add_done_callback (f : future) : future := if done f then with_cb (CbRunning FLock false) f else with_cb CbAttached f.
Definition cancel (f : future) : future := match f_status f with FQueued => fire false (with_status FCancelled f) | _ => f end.
Definition in_callback (f : future) : bool := match f_cb f with CbRunning _ _ => true | _ => false end.
Definition on_worker (f : future) : bool := match f_status f, f_cb f with FRunning, _ | _, CbRunning _ true => true | _, _ => false end.
Definition busy (s : sched) : nat := length (filter (λ f, on_worker f = true) (futures s)).
Definition queued (f : future) : bool := match f_status f with FQueued => true | _ => false end.
(** The executor's work queue. *)
Definition next_queued (s : sched) : option (nat * future) := list_find (λ f, queued f = true) (futures s).

Definition out_of (i : string) (r : res R) : OutgoingMessage := match r with Ok v => OutResult i v | Raise e => OutError i e end.
(** [_finish], from one step to the next. *)
Definition finish_tick (fid : nat) (s : sched) : option sched :=
  f ← futures s !! fid;
  match f_cb f with
  | CbRunning FLock w =>
      let s := if bool_decide (_pending s !! f_request f = Some fid) then set_pending (delete (f_request f) (_pending s)) s else s in
      let silent := bool_decide (fid ∈ _aborted_futures s) || match f_status f with FCancelled => true | _ => false end in
      let s := set_aborted (_aborted_futures s ∖ {[fid]}) s in
      Some (note [Finished (f_request f) fid (negb silent)] (set_future fid (with_cb (CbRunning (if silent then FCallback else FEmit) w) f) s))
  | CbRunning FCallback w => Some (note [FinishCallback (f_request f) fid] (set_future fid (with_cb CbDone f) s))
  | CbRunning FEmit w =>
      match f_status f with
      | FReturned r => Some (note [Emitted (f_request f) fid (out_of (f_request f) r)] (put_out (out_of (f_request f) r) (set_future fid (with_cb CbDone f) s)))
      | _ => None
      end
  | _ => None
  end.
Definition worker_start (s : sched) : option sched :=
  if bool_decide (busy s < _max_concurrency) then '(fid, f) ← next_queued s; Some (set_future fid (with_status FRunning f) s) else None.
Definition worker_returns (fid : nat) (r : res R) (s : sched) : option sched :=
  f ← futures s !! fid; match f_status f with FRunning => Some (set_future fid (fire true (with_status (FReturned r) f)) s) | _ => None end.
Definition callback_over (fid : nat) (s : sched) : bool := match futures s !! fid with Some f => match f_cb f with CbDone => true | _ => false end | None => false end.

(** ** The loop: [start] *)
Definition dispatch (m : IncomingMessage) (s : sched) : sched :=
  let i := im_request_id m in
  match _consume_reachable_tombstone i s with
  | (true, s) => note [Consumed i] (goto LTop (release_claim i s))
  | (false, s) =>
      let fid := length (futures s) in
      let s := set_futures (futures s ++ [mkFuture i (im_data m) FQueued CbNone]) s in
      note [Dispatched i fid] (goto (LAttach fid) (release_claim i (set_pending (<[i := fid]> (_pending s)) s)))
  end.
Definition loop_tick (s : sched) : option sched :=
  match at_pc s with
  | LTop => Some (goto (if _running s then LCapacity else LShutdown) s)
  | LCapacity => if _running s && negb (bool_decide (size (_pending s) < _max_concurrency)) then None else Some (goto LCheck s)
  | LCheck => Some (goto (if _running s then LGet else LShutdown) s)
  | LGet =>
      match queue s with
      | [] => Some (goto LTop s)
      | m :: l => Some (goto (if is_new m then LClaimed m else LTop) (took m l s))
      end
  | LClaimed m => Some (dispatch m s)
  | LAttach fid => f ← futures s !! fid; let f := add_done_callback f in Some (goto (if in_callback f then LWait fid else LTop) (set_future fid f s))
  | LWait fid => if callback_over fid s then Some (goto LTop s) else None
  | LShutdown =>
      match next_queued s with
      | Some (fid, f) => let g := cancel f in
          Some (note [ShutdownHit (f_request f) fid] (goto (if in_callback g then LShutWait fid else LShutdown) (set_future fid g s)))
      | None => Some (goto LEnd s)
      end
  | LShutWait fid => if callback_over fid s then Some (goto LShutdown s) else None
  | LEnd => None
  end.

(** ** Aborts *)
Definition set_abort (a : nat) (i : string) (p : abort_pc) (s : sched) : sched := set_aborts (<[a := (i, p)]> (aborts s)) s.
Definition abort_lock (a : nat) (i : string) (s : sched) : sched :=
  match _pending s !! i with
  | Some fid => note [AbortHit i fid] (set_abort a i (ACancel fid) (set_aborted ({[fid]} ∪ _aborted_futures s) (set_pending (delete i (_pending s)) s)))
  | None =>
      if is_reachable i s then note [AbortQueued i] (set_abort a i ACallback (set_tombstones ({[i]} ∪ _queued_aborts s) (_speculative_aborts s) s))
      else note [AbortAhead i] (set_abort a i ACallback (_record_speculative_abort i s))
  end.
Definition abort_tick (a : nat) (s : sched) : option sched :=
  '(i, p) ← aborts s !! a;
  match p with
  | ALock => Some (abort_lock a i s)
  | ACancel fid => f ← futures s !! fid; let g := cancel f in
      Some (set_abort a i (if in_callback g && negb (in_callback f) then AWait fid else ACallback) (set_future fid g s))
  | AWait fid => if callback_over fid s then Some (set_abort a i ACallback s) else None
  | ACallback => Some (note [AbortCallback i] (set_abort a i ADone s))
  | ADone => None
  end.

(** ** All threads

    A request is put only when no earlier one with its identity is in the pipeline. *)
Definition free (i : string) (s : sched) : Prop :=
  is_reachable i s = false ∧ ∀ fid f, futures s !! fid = Some f → f_request f = i → f_cb f = CbDone.
Inductive step (s : sched) : sched → Prop :=
| st_loop s' : loop_tick s = Some s' → step s s'
| st_start s' : worker_start s = Some s' → step s s'
| st_returns fid r s' : worker_returns fid r s = Some s' → step s s'
| st_finish fid s' : finish_tick fid s = Some s' → step s s'
| st_abort a s' : abort_tick a s = Some s' → step s s'
| st_enqueue m : (is_new m = true → free (im_request_id m) s) → step s (enqueue m s)
| st_new_abort i : step s (set_aborts (aborts s ++ [(i, ALock)]) s)
| st_stop : step s (stop s).
Definition reachable (s : sched) : Prop := rtc step sched_init s.

(** ** The history of a request *)
Inductive phase := Idle | Waiting | Doomed | Up (fid : nat) | Hit (fid : nat) | Ans (fid : nat) | Cb (fid : nat).
Definition about (h : happening) : string :=
  match h with
  | Put i | Consumed i | Dispatched i _ | AbortQueued i | AbortAhead i | AbortHit i _ | ShutdownHit i _ | Evicted i | Finished i _ _ | Emitted i _ _ | FinishCallback i _ | AbortCallback i => i
  end.
(** Beside the phase: whether an abort is remembered for the next request of this identity. *)
Definition move (st : bool * phase) (h : happening) : option (bool * phase) :=
  let (ahead, ph) := st in
  match h, ph with
  | Put _, Idle => Some (false, if ahead then Doomed else Waiting)
  | Consumed _, Doomed => Some (false, Idle)
  | Dispatched _ fid, Waiting => Some (ahead, Up fid)
  | AbortQueued _, (Waiting | Doomed) => Some (ahead, Doomed)
  | AbortAhead _, (Idle | Hit _ | Ans _ | Cb _) => Some (true, ph)
  | (AbortHit _ fid | ShutdownHit _ fid), (Up g | Hit g) => if bool_decide (fid = g) then Some (ahead, Hit g) else None
  | Evicted _, _ => Some (false, ph)
  | Finished _ fid true, Up g => if bool_decide (fid = g) then Some (ahead, Ans g) else None
  | Finished _ fid false, Hit g => if bool_decide (fid = g) then Some (ahead, Cb g) else None
  | Emitted _ fid _, Ans g => if bool_decide (fid = g) then Some (ahead, Idle) else None
  | FinishCallback _ fid, Cb g => if bool_decide (fid = g) then Some (ahead, Idle) else None
  | AbortCallback _, _ => Some st
  | _, _ => None
  end.
Definition lane_step (i : string) (st : bool * phase) (h : happening) : option (bool * phase) := if bool_decide (about h = i) then move st h else Some st.
Definition lane (i : string) (l : list happening) : option (bool * phase) := foldl (λ o h, st ← o; lane_step i st h) (Some (false, Idle)) l.
Definition emitted (h : happening) : option OutgoingMessage := match h with Emitted _ _ out => Some out | _ => None end.

Lemma th_lane_snoc i l h : lane i (l ++ [h]) = st ← lane i l; lane_step i st h.
Proof. unfold lane. by rewrite foldl_app. Qed.
Lemma lane_note i l h st : lane i l = Some st → about h = i → lane i (l ++ [h]) = move st h.
Proof. intros Hl Ha. rewrite th_lane_snoc, Hl. simpl. unfold lane_step. by rewrite bool_decide_true. Qed.
Lemma th_lane_other i l h : about h ≠ i → lane i (l ++ [h]) = lane i l.
Proof. intros Ha. rewrite th_lane_snoc. destruct (lane i l); [|done]. simpl. unfold lane_step. by rewrite bool_decide_false. Qed.

(** ** The invariant *)
Definition of_id (i : string) (m : IncomingMessage) : bool := is_new m && bool_decide (im_request_id m = i).
Definition in_queue (i : string) (l : list IncomingMessage) : nat := length (filter (λ m, of_id i m = true) l).
Definition claimed (i : string) (p : loop_pc) : nat := match p with LClaimed m => if bool_decide (im_request_id m = i) then 1 else 0 | _ => 0 end.
Definition occ (i : string) (s : sched) : nat := in_queue i (queue s) + claimed i (at_pc s).
Definition prelock (f : future) : bool := match f_cb f with CbNone | CbAttached | CbRunning FLock _ => true | _ => false end.
Definition cancelled (f : future) : bool := match f_status f with FCancelled => true | _ => false end.
Definition fid_of (ph : phase) : option nat := match ph with Up g | Hit g | Ans g | Cb g => Some g | _ => None end.

Definition future_in (i : string) (ph : phase) (ab : bool) (f : future) : Prop :=
  f_request f = i ∧
  match ph with
  | Up _ => prelock f = true ∧ cancelled f = false ∧ ab = false
  | Hit _ => prelock f = true ∧ (ab = true ∨ cancelled f = true)
  | Ans _ => ∃ w r, f_cb f = CbRunning FEmit w ∧ f_status f = FReturned r
  | Cb _ => ∃ w, f_cb f = CbRunning FCallback w
  | _ => False
  end.
Definition aborted (fid : nat) (s : sched) : bool := bool_decide (fid ∈ _aborted_futures s).
Definition phase_ok (i : string) (ph : phase) (s : sched) : Prop :=
  match ph with
  | Idle => occ i s = 0 ∧ _pending s !! i = None ∧ i ∉ _queued_aborts s
  | Waiting => occ i s = 1 ∧ _pending s !! i = None ∧ i ∉ _queued_aborts s ∧ i ∉ _speculative_aborts s
  | Doomed => occ i s = 1 ∧ _pending s !! i = None ∧ i ∈ _queued_aborts s ∧ i ∉ _speculative_aborts s
  | _ => occ i s = 0 ∧ i ∉ _queued_aborts s ∧
      match ph with Up g => _pending s !! i = Some g | Hit g => _pending s !! i = None ∨ _pending s !! i = Some g | _ => _pending s !! i = None end ∧
      ∃ g f, fid_of ph = Some g ∧ futures s !! g = Some f ∧ future_in i ph (aborted g s) f
  end.
Definition lane_at (i : string) (s : sched) : Prop := ∃ ph, lane i (log s) = Some (bool_decide (i ∈ _speculative_aborts s), ph) ∧ phase_ok i ph s ∧
  ∀ fid f, futures s !! fid = Some f → f_request f = i → f_cb f ≠ CbDone → fid_of ph = Some fid.

Definition fut_ok (p : loop_pc) (fid : nat) (f : future) : Prop :=
  match f_cb f with
  | CbNone => p = LAttach fid
  | CbAttached => done f = false
  | CbRunning FEmit _ => ∃ r, f_status f = FReturned r
  | CbRunning _ _ | CbDone => done f = true
  end.
Definition counted (n : nat) : option Z := if n then None else Some (Z.of_nat n).
Definition started (f : future) : bool := match f_cb f with CbRunning _ _ | CbDone => true | _ => false end.
Definition abort_ok (s : sched) (i : string) (p : abort_pc) : Prop :=
  match p with
  | ACancel fid => ∃ f, futures s !! fid = Some f ∧ f_request f = i ∧ (prelock f = true → fid ∈ _aborted_futures s)
  | AWait fid => ∃ f, futures s !! fid = Some f ∧ started f = true
  | _ => True
  end.
Definition loop_ok (s : sched) : Prop :=
  match at_pc s with
  | LClaimed m => is_new m = true
  | LAttach fid => ∃ f, futures s !! fid = Some f ∧ f_cb f = CbNone
  | LWait fid | LShutWait fid => ∃ f, futures s !! fid = Some f ∧ started f = true
  | _ => True
  end.
Record inv (s : sched) : Prop := {
  i_lane : ∀ i, lane_at i s;
  i_future : ∀ fid f, futures s !! fid = Some f → fut_ok (at_pc s) fid f;
  i_aborted : ∀ fid, fid ∈ _aborted_futures s → ∃ f, futures s !! fid = Some f ∧ prelock f = true;
  i_requests : ∀ i, _request_counts s !! i = counted (in_queue i (queue s));
  i_claimed : ∀ i, _claimed_counts s !! i = counted (claimed i (at_pc s));
  i_loop : loop_ok s;
  i_aborts : ∀ a i p, aborts s !! a = Some (i, p) → abort_ok s i p;
  i_spec : NoDup (_speculative_aborts s);
}.

(** *** What a request sees *)
Record same_for (i : string) (s s' : sched) : Prop := {
  sf_occ : occ i s' = occ i s;
  sf_pending : _pending s' !! i = _pending s !! i;
  sf_queued : i ∈ _queued_aborts s' ↔ i ∈ _queued_aborts s;
  sf_spec : i ∈ _speculative_aborts s' ↔ i ∈ _speculative_aborts s;
  sf_futures : ∀ fid f, f_request f = i → futures s' !! fid = Some f ↔ futures s !! fid = Some f;
  sf_aborted : ∀ fid f, futures s !! fid = Some f → f_request f = i → aborted fid s' = aborted fid s;
}.
Lemma lane_frame i s s' : lane_at i s → same_for i s s' → lane i (log s') = lane i (log s) → lane_at i s'.
Proof.
  intros (ph & Hl & Hp & Hd) [E1 E2 E3 E4 E5 E6] El. exists ph. split; [|split].
  - rewrite El, Hl. do 2 f_equal. apply bool_decide_ext. symmetry. done.
  - assert (Hf : ∀ g f, futures s !! g = Some f ∧ future_in i ph (aborted g s) f → futures s' !! g = Some f ∧ future_in i ph (aborted g s') f).
    { intros g f [Hg Hin]. pose proof Hin as [Hr _]. rewrite E5 by done. by rewrite (E6 g f) by done. }
    unfold phase_ok in *. destruct ph; rewrite E1, E2, E3, ?E4; try done.
    all: destruct Hp as (? & ? & ? & g & f & ? & ?); split_and!; try done; exists g, f; split; [done|auto].
  - intros fid f Hf Hr. apply Hd; [|done]. by apply E5.
Qed.
Lemma same_for_refl i s s' : occ i s' = occ i s → _pending s' = _pending s → _queued_aborts s' = _queued_aborts s → _speculative_aborts s' = _speculative_aborts s → futures s' = futures s → _aborted_futures s' = _aborted_futures s → same_for i s s'.
Proof. intros ? E2 E3 E4 E5 E6. split; unfold aborted; by rewrite ?E2, ?E3, ?E4, ?E5, ?E6. Qed.

(** *** One future changes *)
Lemma prelock_live f : prelock f = true → f_cb f ≠ CbDone.
Proof. unfold prelock. by intros H E; rewrite E in H. Qed.
Lemma live_phase i s fid f : lane_at i s → futures s !! fid = Some f → f_request f = i → f_cb f ≠ CbDone →
  ∃ ph, lane i (log s) = Some (bool_decide (i ∈ _speculative_aborts s), ph) ∧ fid_of ph = Some fid ∧ future_in i ph (aborted fid s) f ∧ phase_ok i ph s ∧
    ∀ g h, futures s !! g = Some h → f_request h = i → f_cb h ≠ CbDone → g = fid.
Proof.
  intros (ph & Hl & Hp & Hd) Hf Hr Hc. pose proof (Hd _ _ Hf Hr Hc) as Hph. exists ph. split_and!; try done.
  - unfold phase_ok in Hp. destruct ph; try done; destruct Hp as (_ & _ & _ & g & h & Hg & Hh & Hin); simpl in *; injection Hph as ->; injection Hg as <-; congruence.
  - intros g h Hg Hrg Hcg. pose proof (Hd _ _ Hg Hrg Hcg). congruence.
Qed.

Lemma lane_update i s s' fid f f' : lane_at i s → futures s !! fid = Some f → prelock f = true → prelock f' = true → f_request f' = f_request f →
  (cancelled f' = cancelled f ∨ fid ∈ _aborted_futures s) → futures s' = <[fid := f']> (futures s) →
  occ i s' = occ i s → _pending s' = _pending s → _queued_aborts s' = _queued_aborts s → _speculative_aborts s' = _speculative_aborts s → _aborted_futures s' = _aborted_futures s → log s' = log s → lane_at i s'.
Proof.
  intros Hl Hf Hp Hp' Hr Hc Ef E1 E2 E3 E4 E5 El. pose proof (lookup_lt_Some _ _ _ Hf) as Hlt. destruct (decide (f_request f = i)) as [Hi|Hne].
  - destruct (live_phase _ _ _ _ Hl Hf Hi (prelock_live _ Hp)) as (ph & Hl' & Hg & Hin & Hph & Hu). exists ph. rewrite El, E4. split_and!; [done| |].
    + assert (Hin' : future_in i ph (aborted fid s') f').
      { destruct Hin as [_ Hin]. split; [congruence|]. unfold aborted in *. rewrite E5. destruct ph; try done.
        - destruct Hin as (_ & Hx & Hy). split_and!; [done| |done]. destruct Hc as [->|Hc]; [done|]. by rewrite bool_decide_true in Hy.
        - destruct Hin as (_ & Hx). split; [done|]. destruct Hc as [->|Hc]; [done|]. left. by apply bool_decide_true.
        - destruct Hin as (w & r & Hx & _). unfold prelock in Hp. by rewrite Hx in Hp.
        - destruct Hin as (w & Hx). unfold prelock in Hp. by rewrite Hx in Hp. }
      unfold phase_ok in *. rewrite E1, E2, E3, ?E4. destruct ph; try done; destruct Hph as (? & ? & ? & g & h & Hgg & _); split_and!; try done; simpl in *; injection Hg as ->; injection Hgg as <-;
        exists fid, f'; (split; [done|]); rewrite Ef, list_lookup_insert_eq by done; done.
    + intros g h Hgh Hrh Hch. rewrite Ef in Hgh. destruct (decide (g = fid)) as [->|Hne]; [done|]. rewrite list_lookup_insert_ne in Hgh by done. rewrite Hg. f_equal. symmetry. by apply (Hu g h).
  - eapply lane_frame; [exact Hl| |by rewrite El]. split; try (by rewrite ?E1, ?E2, ?E3, ?E4).
    + intros g h Hrh. rewrite Ef. destruct (decide (g = fid)) as [->|Hng]; [|by rewrite list_lookup_insert_ne]. rewrite list_lookup_insert_eq by done. rewrite Hf. split; intros [= <-]; congruence.
    + intros. unfold aborted. by rewrite E5.
Qed.

(** What is left of the invariant when one future changes and no queue does. *)
Lemma set_future_lookup fid f s g h : futures s !! fid = Some h → futures (set_future fid f s) !! g = if decide (g = fid) then Some f else futures s !! g.
Proof.
  intros Hf. simpl. destruct (decide (g = fid)) as [->|Hne]; [by apply list_lookup_insert_eq; eapply lookup_lt_Some|by apply list_lookup_insert_ne].
Qed.
Lemma started_done p fid f : fut_ok p fid f → started f = true → done f = true.
Proof.
  unfold fut_ok, started, done. destruct (f_cb f) as [| |[] w|]; intros H Hs; try done. by destruct H as [r ->].
Qed.
Lemma fut_ok_pc p q fid f : fut_ok p fid f → f_cb f ≠ CbNone → fut_ok q fid f.
Proof. unfold fut_ok. by destruct (f_cb f) as [| |[] w|]. Qed.

(** A step on one future that leaves it before its callback's lock; the loop stays where it is. *)
Lemma inv_pre s fid f f' : inv s → futures s !! fid = Some f → prelock f = true → prelock f' = true → f_request f' = f_request f → (cancelled f' = cancelled f ∨ fid ∈ _aborted_futures s) →
  fut_ok (at_pc s) fid f' → (started f = true → started f' = true) → (f_cb f = CbNone → f_cb f' = CbNone) → inv (set_future fid f' s).
Proof.
  intros [H1 H2 H3 H4 H5 H6 H7 H8] Hf Hp Hp' Hr Hc Hok Hst Hn. pose proof (lookup_lt_Some _ _ _ Hf) as Hlt. split; try done.
  - intros i. by apply (lane_update i s _ fid f f').
  - intros g h. rewrite (set_future_lookup _ _ _ _ f) by done. case_decide as Hg; [intros [= <-]; by subst|apply H2].
  - intros g Hg. destruct (H3 g Hg) as (h & Hh & Hph). rewrite (set_future_lookup _ _ _ _ f) by done. case_decide as Hgf; [by exists f'|by exists h].
  - unfold loop_ok in *. change (at_pc (set_future fid f' s)) with (at_pc s). destruct (at_pc s); try done; destruct H6 as (h & Hh & Hs); rewrite (set_future_lookup _ _ _ _ f) by done; (case_decide as Hg; [subst; rewrite Hf in Hh; injection Hh as <-; exists f'; auto|by exists h]).
  - intros a i p Ha. specialize (H7 a i p Ha). destruct p as [|g|g| |]; try done; simpl in *.
    + destruct H7 as (h & Hh & Hrh & Hab). destruct (decide (g = fid)) as [->|Hne]; [|exists h; by rewrite list_lookup_insert_ne]. rewrite Hf in Hh. injection Hh as <-. exists f'.
      rewrite list_lookup_insert_eq by done. split_and!; [done|congruence|auto].
    + destruct H7 as (h & Hh & Hs). destruct (decide (g = fid)) as [->|Hne]; [|exists h; by rewrite list_lookup_insert_ne]. rewrite Hf in Hh. injection Hh as <-. exists f'.
      rewrite list_lookup_insert_eq by done. auto.
Qed.

(** The loop moves, and nothing else. *)
Lemma claimed_none p i : match p with LClaimed _ => False | _ => True end → claimed i p = 0.
Proof. by destruct p. Qed.
Lemma th_inv_goto s p : inv s → match at_pc s with LClaimed _ | LAttach _ => False | _ => True end → match p with LClaimed _ | LAttach _ => False | _ => True end → loop_ok (goto p s) → inv (goto p s).
Proof.
  intros [H1 H2 H3 H4 H5 H6 H7 H8] Hp Hp' Hl. assert (Ec : ∀ i, claimed i p = claimed i (at_pc s)) by (intros i; rewrite !claimed_none; [done|by destruct (at_pc s)|by destruct p]). split; try done.
  - intros i. eapply lane_frame; [apply H1| |done]. apply same_for_refl; try done. unfold occ. simpl. by rewrite Ec.
  - intros fid f Hf. simpl. eapply fut_ok_pc; [by apply H2|]. intros E. specialize (H2 _ _ Hf). unfold fut_ok in H2. rewrite E in H2. by rewrite H2 in Hp.
  - intros i. simpl. by rewrite Ec.
Qed.

(** *** Workers *)
Lemma pending_pre p fid f : fut_ok p fid f → done f = false → prelock f = true ∧ started f = false.
Proof.
  unfold fut_ok, prelock, started, done. destruct (f_cb f) as [| |[] w|]; intros H Hd; try done; try (by rewrite H in Hd). by destruct H as [r H]; rewrite H in Hd.
Qed.
Lemma fut_ok_status p fid f st : fut_ok p fid f → done f = false → fut_ok p fid (fire true (with_status st f)) ∧ prelock (fire true (with_status st f)) = true ∨ match st with FReturned _ | FCancelled => False | _ => True end.
Proof.
  intros H Hd. destruct st; [by right|by right|left..]; destruct (pending_pre _ _ _ H Hd) as [Hp Hs]; unfold fut_ok, prelock, started, fire in *; destruct f as [i d st cb]; simpl in *; by destruct cb as [| |[] w|].
Qed.
Lemma inv_worker_start s s' : inv s → worker_start s = Some s' → inv s'.
Proof.
  intros H. unfold worker_start. case_bool_decide; [|done]. intros ([fid f] & Hf & [= <-])%bind_Some. apply list_find_Some in Hf as (Hf & Hq & _).
  pose proof (i_future _ H _ _ Hf) as Hok. assert (Hd : done f = false) by (unfold queued, done in *; by destruct (f_status f)). destruct (pending_pre _ _ _ Hok Hd) as [Hp Hs].
  apply (inv_pre _ _ f); try done.
  - left. unfold cancelled. simpl. unfold queued in Hq. by destruct (f_status f).
  - unfold fut_ok, started in *. destruct f as [i d st cb]. simpl in *. by destruct cb as [| |[] w|].
Qed.
Lemma inv_worker_returns s fid r s' : inv s → worker_returns fid r s = Some s' → inv s'.
Proof.
  intros H. unfold worker_returns. intros (f & Hf & Hs)%bind_Some. destruct (f_status f) eqn:Est; try done. injection Hs as <-.
  pose proof (i_future _ H _ _ Hf) as Hok. assert (Hd : done f = false) by (unfold done; by rewrite Est). destruct (pending_pre _ _ _ Hok Hd) as [Hp Hs].
  destruct (fut_ok_status _ _ _ (FReturned r) Hok Hd) as [[Hok' Hp']|]; [|done].
  apply (inv_pre _ _ f); try done.
  - by destruct f as [i d st []].
  - left. unfold cancelled. rewrite Est. by destruct f as [i d st []].
  - intros Hx. congruence.
  - intros Hx. destruct f as [i d st cb]. simpl in *. by subst.
Qed.
Lemma inv_attach s fid f : inv s → at_pc s = LAttach fid → futures s !! fid = Some f →
  inv (goto (if in_callback (add_done_callback f) then LWait fid else LTop) (set_future fid (add_done_callback f) s)).
Proof.
  intros [H1 H2 H3 H4 H5 H6 H7 H8] E Hf. unfold loop_ok in H6. rewrite E in H6. destruct H6 as (f0 & Hf0 & Hcb). rewrite Hf in Hf0. injection Hf0 as <-. pose proof (lookup_lt_Some _ _ _ Hf) as Hlt.
  set (f' := add_done_callback f). set (p' := if in_callback f' then _ else _).
  assert (Hf' : prelock f' = true ∧ f_request f' = f_request f ∧ f_status f' = f_status f) by (unfold f', add_done_callback; by destruct (done f)). destruct Hf' as (Hp' & Hr' & Hst').
  assert (Hp : prelock f = true) by (unfold prelock; by rewrite Hcb).
  assert (Ec : ∀ i, claimed i p' = claimed i (at_pc s)) by (intros i; rewrite E; unfold p'; by destruct (in_callback f')).
  split; try done.
  - intros i. apply (lane_update i s _ fid f f'); try done; [left; unfold cancelled; by rewrite Hst'|]. unfold occ. simpl. by rewrite Ec.
  - intros g h Hg. change (futures (goto p' (set_future fid f' s))) with (futures (set_future fid f' s)) in Hg. rewrite (set_future_lookup _ _ _ _ f) in Hg by done. simpl. case_decide as Hgf.
    + injection Hg as <-. unfold fut_ok, f', add_done_callback. destruct (done f) eqn:Ed; simpl; [exact Ed|exact Ed].
    + specialize (H2 _ _ Hg). eapply fut_ok_pc; [exact H2|]. intros Ecb. unfold fut_ok in H2. rewrite Ecb, E in H2. congruence.
  - intros g Hg. destruct (H3 g Hg) as (h & Hh & Hph). change (futures (goto p' (set_future fid f' s))) with (futures (set_future fid f' s)). rewrite (set_future_lookup _ _ _ _ f) by done. case_decide as Hgf; [by exists f'|by exists h].
  - intros i. simpl. by rewrite Ec.
  - unfold loop_ok. simpl. unfold p'. destruct (in_callback f') eqn:Ei; [|done]. exists f'. rewrite list_lookup_insert_eq by done. split; [done|]. unfold in_callback, started in *. by destruct (f_cb f').
  - intros a i p Ha. specialize (H7 a i p Ha). destruct p as [|g|g| |]; try done; simpl in *.
    + destruct H7 as (h & Hh & Hrh & Hab). destruct (decide (g = fid)) as [->|Hne]; [|exists h; by rewrite list_lookup_insert_ne]. rewrite Hf in Hh. injection Hh as <-. exists f'.
      rewrite list_lookup_insert_eq by done. split_and!; [done|congruence|auto].
    + destruct H7 as (h & Hh & Hs). destruct (decide (g = fid)) as [->|Hne]; [|exists h; by rewrite list_lookup_insert_ne]. rewrite Hf in Hh. injection Hh as <-. unfold started in Hs. by rewrite Hcb in Hs.
Qed.

(** *** Aborts *)
Lemma inv_set_abort s a i p : inv s → abort_ok s i p → inv (set_abort a i p s).
Proof.
  intros [H1 H2 H3 H4 H5 H6 H7 H8] Hp. split; try done.
  - intros b j q Hq. change (abort_ok s j q). simpl in Hq. apply list_lookup_insert_Some in Hq as [(<- & [= <- <-] & _)|[_ Hq]]; [done|by apply (H7 b)].
Qed.
Lemma inv_new_abort s i : inv s → inv (set_aborts (aborts s ++ [(i, ALock)]) s).
Proof.
  intros [H1 H2 H3 H4 H5 H6 H7 H8]. split; try done.
  - intros b j q Hq. change (abort_ok s j q). simpl in Hq. apply lookup_app_Some in Hq as [Hq|[_ Hq]]; [by apply (H7 b)|]. apply list_lookup_singleton_Some in Hq as [_ [= <- <-]]. done.
Qed.
Lemma inv_stop s : inv s → inv (stop s).
Proof. intros [H1 H2 H3 H4 H5 H6 H7 H8]. by split. Qed.
Lemma inv_note_quiet s h : inv s → (∀ st, move st h = Some st) → inv (note [h] s).
Proof.
  intros [H1 H2 H3 H4 H5 H6 H7 H8] Hm. split; try done. intros j. eapply lane_frame; [apply H1|by apply same_for_refl|]. simpl.
  destruct (decide (about h = j)) as [<-|Hne]; [|by apply th_lane_other]. destruct (H1 (about h)) as (ph & Hl & _). by rewrite (lane_note _ _ _ _ Hl eq_refl), Hm, Hl.
Qed.
Lemma cancel_pre p fid f : fut_ok p fid f → f_status f = FQueued → prelock f = true ∧ prelock (cancel f) = true ∧ fut_ok p fid (cancel f) ∧ f_request (cancel f) = f_request f ∧ started f = false.
Proof.
  intros H E. destruct (pending_pre _ _ _ H) as [Hp Hs]; [unfold done; by rewrite E|]. unfold cancel. rewrite E. unfold fut_ok, prelock, started, fire in *. destruct f as [i d st cb]; simpl in *. by destruct cb as [| |[] w|].
Qed.
Lemma cancel_idle f : f_status f ≠ FQueued → cancel f = f.
Proof. unfold cancel. by destruct (f_status f). Qed.
Lemma th_inv_cancel s fid f : inv s → futures s !! fid = Some f → (f_status f = FQueued → prelock f = true → fid ∈ _aborted_futures s) → inv (set_future fid (cancel f) s).
Proof.
  intros H Hf Hab. assert (Hdec : f_status f = FQueued ∨ f_status f ≠ FQueued) by (destruct (f_status f); first [by left|by right]). destruct Hdec as [Est|Est].
  - destruct (cancel_pre _ _ _ (i_future _ H _ _ Hf) Est) as (Hp & Hp' & Hok & Hr & Hs). apply (inv_pre _ _ f); try done; [right; auto|congruence|].
    intros Hcb. unfold cancel. rewrite Est. unfold fire. simpl. by rewrite Hcb.
  - rewrite cancel_idle by done. replace (set_future fid f s) with s; [done|]. destruct s. unfold set_future, set_futures. simpl. by rewrite list_insert_id.
Qed.
Lemma inv_abort_cancel s a i fid f : inv s → aborts s !! a = Some (i, ACancel fid) → futures s !! fid = Some f →
  inv (set_abort a i (if in_callback (cancel f) && negb (in_callback f) then AWait fid else ACallback) (set_future fid (cancel f) s)).
Proof.
  intros H Ha Hf. pose proof (i_aborts _ H _ _ _ Ha) as (h & Hh & Hr & Hab). rewrite Hf in Hh. injection Hh as <-. apply inv_set_abort; [apply th_inv_cancel; auto|].
  destruct (in_callback (cancel f)) eqn:Ei; [|done]. destruct (negb _); [|done]. exists (cancel f). rewrite (set_future_lookup _ _ _ _ f) by done. rewrite decide_True by done. split; [done|].
  unfold in_callback, started in *. by destruct (f_cb (cancel f)).
Qed.

(** *** Callbacks *)
Lemma inv_finish_step s s' fid f f' h : inv s → futures s !! fid = Some f → started f' = true → prelock f' = false → f_request f' = f_request f → fut_ok (at_pc s) fid f' →
  futures s' = <[fid := f']> (futures s) → at_pc s' = at_pc s → queue s' = queue s → _request_counts s' = _request_counts s → _claimed_counts s' = _claimed_counts s →
  _queued_aborts s' = _queued_aborts s → _speculative_aborts s' = _speculative_aborts s → aborts s' = aborts s → (∀ j, j ≠ f_request f → _pending s' !! j = _pending s !! j) →
  (∀ g, g ∈ _aborted_futures s' ↔ g ∈ _aborted_futures s ∧ g ≠ fid) → log s' = log s ++ [h] → about h = f_request f → lane_at (f_request f) s' → f_cb f ≠ CbNone → inv s'.
Proof.
  intros [H1 H2 H3 H4 H5 H6 H7 H8] Hf Hs' Hp' Hr Hok Ef Ep Eq Er Ec Eqa Esp Ea Epe Eab El Hh Hlane Hnn. pose proof (lookup_lt_Some _ _ _ Hf) as Hlt.
  assert (Hlk : ∀ g, futures s' !! g = if decide (g = fid) then Some f' else futures s !! g) by (intros g; rewrite Ef; exact (set_future_lookup fid f' s g f Hf)).
  split.
  - intros j. destruct (decide (j = f_request f)) as [->|Hne]; [done|]. eapply lane_frame; [apply H1| |rewrite El; apply th_lane_other; congruence]. split.
    + unfold occ. by rewrite Eq, Ep.
    + by apply Epe.
    + by rewrite Eqa.
    + by rewrite Esp.
    + intros g h' Hrh. rewrite Hlk. case_decide as Hg; [subst g; rewrite Hf; split; intros [= <-]; congruence|done].
    + intros g h' Hg Hrh. unfold aborted. apply bool_decide_ext. rewrite Eab. split; [by intros [? _]|]. intros ?. split; [done|]. intros ->. congruence.
  - intros g h'. rewrite Hlk, Ep. case_decide as Hg; [intros [= <-]; by subst|apply H2].
  - intros g [Hg Hne]%Eab. destruct (H3 g Hg) as (x & Hx & Hpx). rewrite Hlk. rewrite decide_False by done. by exists x.
  - by rewrite Er, Eq.
  - by rewrite Ec, Ep.
  - unfold loop_ok in *. rewrite Ep. destruct (at_pc s); try done; destruct H6 as (x & Hx & Hsx); rewrite Hlk; (case_decide as Hg; [subst; rewrite Hf in Hx; injection Hx as <-|by exists x]); [done|by exists f'..].
  - intros a i p. rewrite Ea. intros Ha. specialize (H7 a i p Ha). destruct p as [|g|g| |]; try done; simpl in *.
    + destruct H7 as (x & Hx & Hrx & Hab). rewrite Hlk. case_decide as Hg; [subst; rewrite Hf in Hx; injection Hx as <-; exists f'; split_and!; [done|congruence|congruence]|]. exists x. split_and!; [done|done|]. intros. apply Eab. auto.
    + destruct H7 as (x & Hx & Hsx). rewrite Hlk. case_decide as Hg; [by exists f'|by exists x].
  - by rewrite Esp.
Qed.

Lemma live_others i s s' fid f f' : futures s !! fid = Some f → futures s' = <[fid := f']> (futures s) → (∀ g h, futures s !! g = Some h → f_request h = i → f_cb h ≠ CbDone → g = fid) →
  ∀ g h, futures s' !! g = Some h → f_request h = i → f_cb h ≠ CbDone → g = fid ∧ h = f'.
Proof.
  intros Hf Ef Hu g h Hg Hr Hc. rewrite Ef in Hg. destruct (decide (g = fid)) as [->|Hne]; [rewrite list_lookup_insert_eq in Hg by (by eapply lookup_lt_Some); by injection Hg as <-|].
  rewrite list_lookup_insert_ne in Hg by done. by destruct (Hne (Hu _ _ Hg Hr Hc)).
Qed.
Lemma inv_finish_lock s fid f w : inv s → futures s !! fid = Some f → f_cb f = CbRunning FLock w → ∀ s', finish_tick fid s = Some s' → inv s'.
Proof.
  intros H Hf Hcb s' Ht. unfold finish_tick in Ht. rewrite Hf in Ht. simpl in Ht. rewrite Hcb in Ht. set (i := f_request f) in *.
  set (s1 := if bool_decide _ then set_pending _ s else s) in Ht. set (silent := bool_decide (fid ∈ _aborted_futures s1) || _) in Ht. injection Ht as <-.
  assert (E1 : futures s1 = futures s ∧ at_pc s1 = at_pc s ∧ queue s1 = queue s ∧ _request_counts s1 = _request_counts s ∧ _claimed_counts s1 = _claimed_counts s ∧ _queued_aborts s1 = _queued_aborts s ∧
    _speculative_aborts s1 = _speculative_aborts s ∧ aborts s1 = aborts s ∧ _aborted_futures s1 = _aborted_futures s ∧ log s1 = log s) by (unfold s1; by case_bool_decide).
  destruct E1 as (F1 & F2 & F3 & F4 & F5 & F6 & F7 & F8 & F9 & F10).
  assert (Hpend : ∀ j, _pending s1 !! j = if decide (j = i ∧ _pending s !! i = Some fid) then None else _pending s !! j).
  { intros j. unfold s1. case_bool_decide as Hb; simpl; case_decide as Hd; try (by tauto).
    - destruct Hd as [-> _]. by rewrite lookup_delete_eq.
    - rewrite lookup_delete_ne; [done|]. intros ->. tauto. }
  assert (Hp : prelock f = true) by (unfold prelock; by rewrite Hcb).
  destruct (live_phase _ _ _ _ (i_lane _ H i) Hf eq_refl (prelock_live _ Hp)) as (ph & Hl & Hfid & Hin & Hph & Hu). pose proof (i_future _ H _ _ Hf) as Hok.
  set (f' := with_cb (CbRunning (if silent then FCallback else FEmit) w) f). assert (Hsil : silent = aborted fid s || cancelled f) by (unfold silent, aborted; by rewrite F9).
  assert (Hdone : done f = true) by (unfold fut_ok in Hok; by rewrite Hcb in Hok).
  set (s' := note _ _). assert (Hfok : fut_ok (at_pc s) fid f').
  { unfold fut_ok, f'. simpl. destruct silent eqn:Es; [exact Hdone|]. unfold done in Hdone. symmetry in Hsil. apply orb_false_iff in Hsil as [_ Hx]. unfold cancelled in Hx. simpl.
    destruct (f_status f) as [| |r|] eqn:Est; try done. by exists r. }
  assert (Hlane : lane_at i s').
  { exists (if silent then Cb fid else Ans fid). assert (Hlog : log s' = log s ++ [Finished i fid (negb silent)]) by (unfold s'; simpl; by rewrite F10). assert (Hfut : futures s' = <[fid := f']> (futures s)) by (unfold s'; simpl; by rewrite F1).
    assert (Hlt : fid < length (futures s)) by (by eapply lookup_lt_Some).
    assert (Hbase : occ i s = 0 ∧ i ∉ _queued_aborts s ∧ (_pending s !! i = None ∨ _pending s !! i = Some fid) ∧ move (bool_decide (i ∈ _speculative_aborts s), ph) (Finished i fid (negb silent)) = Some (bool_decide (i ∈ _speculative_aborts s), if silent then Cb fid else Ans fid)).
    { destruct ph as [| | |g|g|g|g]; try done; simpl in Hfid; injection Hfid as ->; destruct Hin as [_ Hin]; destruct Hph as (O & Q & Pe & _).
      - destruct Hin as (_ & Hx & Hy). rewrite Hx, Hy in Hsil. simpl in Hsil. rewrite Hsil. split_and!; [done|done|by right|]. simpl. by rewrite bool_decide_true.
      - destruct Hin as (_ & Hx). assert (silent = true) as -> by (rewrite Hsil; destruct Hx as [-> | ->]; [done|by rewrite orb_true_r]). split_and!; [done|done|done|]. simpl. by rewrite bool_decide_true.
      - destruct Hin as (x & r & Hx & _). congruence.
      - destruct Hin as (x & Hx). congruence. }
    destruct Hbase as (O & Q & Pe & Hm). split_and!.
    - rewrite Hlog, (lane_note i (log s) (Finished i fid (negb silent)) _ Hl eq_refl), Hm. unfold s'. simpl. by rewrite F7.
    - assert (Hocc : occ i s' = 0) by (unfold occ, s'; simpl; rewrite F3, F2; exact O). assert (Hq : i ∉ _queued_aborts s') by (unfold s'; simpl; by rewrite F6).
      assert (Hpe : _pending s' !! i = None). { unfold s'. simpl. rewrite Hpend. destruct (decide (i = i ∧ _pending s !! i = Some fid)) as [Hd|Hd]; [done|]. destruct Pe as [Pe|Pe]; [done|]. by destruct (Hd (conj eq_refl Pe)). }
      assert (Hlk : futures s' !! fid = Some f') by (rewrite Hfut; by apply list_lookup_insert_eq).
      unfold phase_ok. destruct silent eqn:Es; (split_and!; [done|done|done|]); exists fid, f'; (split; [done|split; [done|]]); (split; [done|]); unfold f'; simpl.
      + by exists w.
      + unfold fut_ok, f' in Hfok. simpl in Hfok. destruct Hfok as [r Hr]. by exists w, r.
    - intros g h Hg Hrg Hcg. destruct (live_others i s s' fid f f' Hf Hfut Hu g h Hg Hrg Hcg) as [-> _]. by destruct silent. }
  apply (inv_finish_step s s' fid f f' (Finished i fid (negb silent))); try done; unfold s', f'; simpl; rewrite ?F1, ?F2, ?F3, ?F4, ?F5, ?F6, ?F7, ?F8, ?F9, ?F10; try done.
  - by destruct silent.
  - intros j Hj. rewrite Hpend. rewrite decide_False; [done|]. tauto.
  - intros g. rewrite elem_of_difference, elem_of_singleton. done.
  - congruence.
Qed.
Lemma inv_finish_end s fid f : inv s → futures s !! fid = Some f → (∃ w, f_cb f = CbRunning FCallback w ∨ f_cb f = CbRunning FEmit w) → ∀ s', finish_tick fid s = Some s' → inv s'.
Proof.
  intros H Hf (w & Hcb) s' Ht. set (i := f_request f).
  assert (Hc : f_cb f ≠ CbDone) by (destruct Hcb as [-> | ->]; done). assert (Hnp : prelock f = false) by (unfold prelock; by destruct Hcb as [-> | ->]). assert (Hnn : f_cb f ≠ CbNone) by (destruct Hcb as [-> | ->]; done).
  destruct (live_phase _ _ _ _ (i_lane _ H i) Hf eq_refl Hc) as (ph & Hl & Hfid & Hin & Hph & Hu). pose proof (i_future _ H _ _ Hf) as Hok.
  assert (Hdone : done f = true) by (apply (started_done _ _ _ Hok); unfold started; by destruct Hcb as [-> | ->]).
  assert (Hs : ∃ h, futures s' = <[fid := with_cb CbDone f]> (futures s) ∧ at_pc s' = at_pc s ∧ queue s' = queue s ∧ _request_counts s' = _request_counts s ∧ _claimed_counts s' = _claimed_counts s ∧ _queued_aborts s' = _queued_aborts s ∧
    _speculative_aborts s' = _speculative_aborts s ∧ aborts s' = aborts s ∧ _aborted_futures s' = _aborted_futures s ∧ _pending s' = _pending s ∧ log s' = log s ++ [h] ∧ about h = i ∧
    move (bool_decide (i ∈ _speculative_aborts s), ph) h = Some (bool_decide (i ∈ _speculative_aborts s), Idle)).
  { unfold finish_tick in Ht. rewrite Hf in Ht. simpl in Ht. destruct Hin as [_ Hin]. destruct Hcb as [Hcb|Hcb]; rewrite Hcb in Ht.
    - injection Ht as <-. exists (FinishCallback i fid). split_and!; try done. destruct ph as [| | |g|g|g|g]; try done; simpl in Hfid; injection Hfid as ->; simpl in *; [destruct Hin; congruence|destruct Hin; congruence| |by rewrite bool_decide_true].
      destruct Hin as (x & r & Hx & _). congruence.
    - destruct (f_status f) as [| |r|] eqn:Est; try done. injection Ht as <-. exists (Emitted i fid (out_of i r)). split_and!; try done. destruct ph as [| | |g|g|g|g]; try done; simpl in Hfid; injection Hfid as ->; simpl in *; [destruct Hin; congruence|destruct Hin; congruence|by rewrite bool_decide_true|].
      destruct Hin as (x & Hx). congruence. }
  destruct Hs as (h & E1 & E2 & E3 & E4 & E5 & E6 & E7 & E8 & E9 & E10 & E11 & Eh & Em).
  assert (Hbase : occ i s = 0 ∧ i ∉ _queued_aborts s ∧ _pending s !! i = None).
  { destruct Hin as [_ Hin]. destruct ph as [| | |g|g|g|g]; try done; destruct Hph as (O & Q & Pe & _); try done; destruct Hin as [Hx _]; congruence. }
  destruct Hbase as (O & Q & Pe).
  apply (inv_finish_step s s' fid f (with_cb CbDone f) h); rewrite ?E2, ?E3, ?E10; try done.
  - intros g. rewrite E9. split; [|by intros [? _]]. intros Hg. split; [done|]. intros ->. destruct (i_aborted _ H _ Hg) as (x & Hx & Hpx). congruence.
  - exists Idle. split_and!.
    + fold i. rewrite E11, (lane_note i (log s) h _ Hl Eh), Em, E7. done.
    + unfold phase_ok, occ. rewrite E3, E2, E10, E6. done.
    + intros g y Hg Hrg Hcg. destruct (live_others i s s' fid f _ Hf E1 Hu g y Hg Hrg Hcg) as [_ ->]. done.
Qed.
Lemma inv_finish_tick s fid s' : inv s → finish_tick fid s = Some s' → inv s'.
Proof.
  intros H Ht. pose proof Ht as Ht'. unfold finish_tick in Ht. apply bind_Some in Ht as (f & Hf & Ht). destruct (f_cb f) as [| |[] w|] eqn:Hcb; try done.
  - by eapply inv_finish_lock.
  - eapply inv_finish_end; [done|done| |done]. exists w. by left.
  - eapply inv_finish_end; [done|done| |done]. exists w. by right.
Qed.

(** *** The inbox *)
Lemma count_up_ok i c n : (∀ j, c !! j = counted (n j)) → ∀ j, count_up i c !! j = counted (n j + if decide (j = i) then 1 else 0).
Proof.
  intros H j. unfold count_up. case_decide as Hj; [subst; rewrite lookup_insert_eq, H|rewrite lookup_insert_ne, H, Nat.add_0_r by done; done].
  unfold counted. destruct (n i); simpl; [done|]. f_equal. lia.
Qed.
Lemma count_down_ok i c n : (∀ j, c !! j = counted (n j)) → 0 < n i → ∀ j, count_down i c !! j = counted (n j - if decide (j = i) then 1 else 0).
Proof.
  intros H Hn j. unfold count_down. rewrite H. destruct (n i) as [|k] eqn:En; [lia|]. cbn [counted from_option id].
  case_bool_decide as Hk; case_decide as Hj; try subst j.
  - rewrite lookup_insert_eq, En. unfold counted. destruct k; simpl; [lia|]. f_equal. lia.
  - rewrite lookup_insert_ne, H by done. by rewrite Nat.sub_0_r.
  - rewrite lookup_delete_eq, En. unfold counted. simpl in Hk. destruct k; [done|lia].
  - rewrite lookup_delete_ne, H by done. by rewrite Nat.sub_0_r.
Qed.
Lemma in_queue_cons i m l : in_queue i (m :: l) = (if of_id i m then 1 else 0) + in_queue i l.
Proof. unfold in_queue. rewrite filter_cons. destruct (of_id i m) eqn:E; [rewrite decide_True by done|rewrite decide_False by done]; done. Qed.
Lemma in_queue_snoc i m l : in_queue i (l ++ [m]) = in_queue i l + (if of_id i m then 1 else 0).
Proof. unfold in_queue. rewrite filter_app, length_app. f_equal. rewrite filter_cons, filter_nil. destruct (of_id i m) eqn:E; [rewrite decide_True by done|rewrite decide_False by done]; done. Qed.
Lemma of_id_new i m : is_new m = true → of_id i m = bool_decide (im_request_id m = i).
Proof. unfold of_id. by intros ->. Qed.
Lemma of_id_old i m : is_new m = false → of_id i m = false.
Proof. unfold of_id. by intros ->. Qed.
Lemma one_if (i j : string) : (if bool_decide (i = j) then 1 else 0) = if decide (j = i) then 1 else 0.
Proof. case_bool_decide; case_decide; congruence. Qed.

Lemma reachable_occ i s : inv s → is_reachable i s = bool_decide (0 < occ i s).
Proof.
  intros H. unfold is_reachable, occ. rewrite (i_requests _ H), (i_claimed _ H). destruct (in_queue i (queue s)) as [|n], (claimed i (at_pc s)) as [|k]; simpl; rewrite ?orb_false_r, ?orb_true_r; try done.
Qed.
Lemma other_future_ok s p : inv s → match at_pc s with LAttach _ => False | _ => True end → ∀ fid f, futures s !! fid = Some f → fut_ok p fid f.
Proof.
  intros H Hp fid f Hf. pose proof (i_future _ H _ _ Hf) as Hok. eapply fut_ok_pc; [done|]. intros E. unfold fut_ok in Hok. rewrite E in Hok. by rewrite Hok in Hp.
Qed.

Lemma inv_get s m l : inv s → at_pc s = LGet → queue s = m :: l → inv (goto (if is_new m then LClaimed m else LTop) (took m l s)).
Proof.
  intros H E Eq. pose proof H as [H1 H2 H3 H4 H5 H6 H7 H8]. assert (Hc0 : ∀ i, claimed i (at_pc s) = 0) by (intros; by rewrite E).
  assert (Hocc : ∀ i, occ i (goto (if is_new m then LClaimed m else LTop) (took m l s)) = occ i s).
  { intros i. unfold occ. rewrite Hc0, Eq, in_queue_cons. unfold took. destruct (is_new m) eqn:En; simpl; [rewrite of_id_new by done; lia|by rewrite of_id_old, !Nat.add_0_r by done]. }
  assert (Hfut : ∀ fid f, futures s !! fid = Some f → fut_ok (if is_new m then LClaimed m else LTop) fid f) by (apply other_future_ok; [done|by rewrite E]).
  split.
  - intros i. eapply lane_frame; [apply H1| |unfold took; by destruct (is_new m)]. apply same_for_refl; [apply Hocc|unfold took; by destruct (is_new m)..].
  - unfold took. by destruct (is_new m).
  - unfold took. by destruct (is_new m).
  - intros i. unfold took. destruct (is_new m) eqn:En; simpl.
    + rewrite (count_down_ok _ _ (λ j, in_queue j (queue s))) by (done || rewrite Eq, in_queue_cons, of_id_new, bool_decide_true by done; lia).
      rewrite Eq, in_queue_cons, of_id_new, one_if by done. f_equal. lia.
    + by rewrite H4, Eq, in_queue_cons, of_id_old.
  - intros i. unfold took. destruct (is_new m) eqn:En; simpl; [|by rewrite H5, Hc0].
    rewrite (count_up_ok _ _ (λ j, claimed j (at_pc s))) by done. by rewrite Hc0, one_if.
  - unfold loop_ok, took. by destruct (is_new m) eqn:En.
  - unfold took. intros a i p. destruct (is_new m); apply H7.
  - unfold took. by destruct (is_new m).
Qed.

Lemma elem_without i j l : j ∈ without i l ↔ j ∈ l ∧ j ≠ i.
Proof. unfold without. rewrite list_elem_of_filter. tauto. Qed.
Lemma release_claimed s m : inv s → at_pc s = LClaimed m → ∀ j, count_down (im_request_id m) (_claimed_counts s) !! j = None.
Proof.
  intros H E j. rewrite (count_down_ok _ _ (λ j, claimed j (at_pc s))); [|apply (i_claimed _ H)|rewrite E; simpl; rewrite bool_decide_true by done; lia].
  rewrite E. simpl. rewrite one_if. by case_decide.
Qed.
Lemma th_inv_dispatch s m : inv s → at_pc s = LClaimed m → inv (dispatch m s).
Proof.
  intros H E. pose proof H as [H1 H2 H3 H4 H5 H6 H7 H8]. unfold loop_ok in H6. rewrite E in H6. unfold dispatch. set (i := im_request_id m).
  assert (Hcl : ∀ j, claimed j (at_pc s) = if decide (j = i) then 1 else 0) by (intros j; rewrite E; apply one_if).
  destruct (H1 i) as (ph & Hl & Hph & Hu). assert (Hw : (ph = Waiting ∨ ph = Doomed) ∧ i ∉ _speculative_aborts s ∧ in_queue i (queue s) = 0 ∧ (ph = Doomed ↔ i ∈ _queued_aborts s) ∧ _pending s !! i = None).
  { unfold phase_ok, occ in Hph. rewrite Hcl, decide_True in Hph by done. destruct ph; destruct Hph as (O & Hph); try lia; destruct Hph as (Pe & Q & S); (split_and!; [auto|done|lia|split; by intros|done]). }
  destruct Hw as (Hw & Hsp & Hq0 & Hdo & Hpe). assert (Hoc : ∀ j, j ≠ i → in_queue j (queue s) = occ j s) by (intros j Hj; unfold occ; rewrite Hcl, decide_False by done; lia).
  unfold _consume_reachable_tombstone. destruct (bool_decide_reflect (i ∈ _queued_aborts s)) as [Hqa|Hqa]; [|rewrite (bool_decide_false (i ∈ _speculative_aborts s)) by done].
  - apply Hdo in Hqa as ->. set (s' := note _ _). split; try done.
    + intros j. destruct (decide (j = i)) as [->|Hne].
      * exists Idle. split_and!; [|split_and!|done].
        -- unfold s'. simpl. rewrite (lane_note i (log s) (Consumed i) _ Hl eq_refl). simpl. by rewrite (bool_decide_false (i ∈ without i _)) by (rewrite elem_without; tauto).
        -- unfold occ, s'. simpl. by rewrite Hq0.
        -- done.
        -- unfold s'. simpl. set_solver.
      * eapply lane_frame; [apply H1| |unfold s'; simpl; by apply th_lane_other]. split; unfold s'; simpl; try done.
        -- unfold occ at 1. simpl. rewrite Nat.add_0_r. by apply Hoc.
        -- set_solver.
        -- rewrite elem_without. tauto.
    + apply (other_future_ok s); [done|by rewrite E].
    + intros j. unfold s'. simpl. by rewrite (release_claimed s m).
    + by apply NoDup_filter.
  - assert (ph = Waiting) as -> by (destruct Hw as [-> | ->]; [done|by destruct Hqa; apply Hdo]). set (fid := length (futures s)). set (f := mkFuture i (im_data m) FQueued CbNone). set (s' := note _ _).
    assert (Hnew : futures s' !! fid = Some f) by (unfold s'; simpl; by apply list_lookup_middle). assert (Hold : ∀ g h, futures s' !! g = Some h ↔ futures s !! g = Some h ∨ g = fid ∧ h = f).
    { intros g h. unfold s'. simpl. rewrite lookup_app_Some, list_lookup_singleton_Some. split; [|by intros [?|[-> ->]]; [left|right; split; [done|split; [unfold fid; lia|done]]]]. intros [?|[Hg [Hz <-]]]; [by left|right]. split; [unfold fid; lia|done]. }
    assert (Hfresh : fid ∉ _aborted_futures s) by (intros Hx; destruct (H3 _ Hx) as (x & Hx' & _); apply lookup_lt_Some in Hx'; unfold fid in Hx'; lia).
    split; try done.
    + intros j. destruct (decide (j = i)) as [->|Hne].
      * exists (Up fid). split_and!.
        -- unfold s'. simpl. by rewrite (lane_note i (log s) (Dispatched i fid) _ Hl eq_refl).
        -- unfold phase_ok. split_and!; [unfold occ, s'; simpl; by rewrite Hq0|done|unfold s'; simpl; by rewrite lookup_insert_eq|]. exists fid, f. split_and!; try done. unfold future_in. split_and!; try done. by apply bool_decide_false.
        -- intros g h [Hg|[-> _]]%Hold Hr Hc; [|done]. by specialize (Hu _ _ Hg Hr Hc).
      * eapply lane_frame; [apply H1| |unfold s'; simpl; by apply th_lane_other]. split; try done.
        -- unfold s', occ at 1. simpl. rewrite Nat.add_0_r. by apply Hoc.
        -- unfold s'. simpl. by rewrite lookup_insert_ne.
        -- intros g h Hr. rewrite Hold. split; [|by left]. intros [?|[-> ->]]; [done|]. by destruct Hne.
    + intros g h [Hg|[-> ->]]%Hold; [|done]. apply (other_future_ok s); [done|by rewrite E|done].
    + intros g Hg. destruct (H3 g Hg) as (x & Hx & Hpx). exists x. split; [apply Hold; by left|done].
    + intros j. unfold s'. simpl. by rewrite (release_claimed s m).
    + exists f. by split.
    + intros a j p Ha. specialize (H7 a j p Ha). destruct p as [|g|g| |]; try done.
      * destruct H7 as (x & Hx & Hr & Hab). exists x. split; [apply Hold; by left|done].
      * destruct H7 as (x & Hx & Hs). exists x. split; [apply Hold; by left|done].
Qed.

(** *** Shutting down, putting and aborting *)
Lemma inv_shutdown s fid f : inv s → at_pc s = LShutdown → next_queued s = Some (fid, f) →
  inv (note [ShutdownHit (f_request f) fid] (goto (if in_callback (cancel f) then LShutWait fid else LShutdown) (set_future fid (cancel f) s))).
Proof.
  intros H E Hq. apply list_find_Some in Hq as (Hf & Hq & _). pose proof H as [H1 H2 H3 H4 H5 H6 H7 H8]. pose proof (H2 _ _ Hf) as Hok. pose proof (lookup_lt_Some _ _ _ Hf) as Hlt.
  assert (Est : f_status f = FQueued) by (unfold queued in Hq; by destruct (f_status f)). destruct (cancel_pre _ _ _ Hok Est) as (Hp & Hp' & _ & Hr & Hs).
  assert (Hcb : f_cb f = CbAttached) by (unfold fut_ok, started in *; rewrite E in Hok; by destruct (f_cb f) as [| |[] w|]).
  assert (Hf' : cancel f = mkFuture (f_request f) (f_data f) FCancelled (CbRunning FLock false)) by (unfold cancel, fire; rewrite Est; simpl; by rewrite Hcb).
  rewrite Hf'. cbn [in_callback f_cb]. set (f' := mkFuture _ _ _ _). set (i := f_request f). set (s' := note _ _). assert (Hfut : futures s' = <[fid := f']> (futures s)) by done.
  assert (Hlk : ∀ g, futures s' !! g = if decide (g = fid) then Some f' else futures s !! g) by (intros g; exact (set_future_lookup fid f' s g f Hf)).
  assert (Hc : ∀ j, claimed j (at_pc s) = 0) by (intros; by rewrite E). split; try done.
  - intros j. destruct (decide (j = i)) as [->|Hne].
    + destruct (live_phase _ _ _ _ (H1 i) Hf eq_refl (prelock_live _ Hp)) as (ph & Hl & Hfid & Hin & Hph & Hu). exists (Hit fid). split_and!.
      * unfold s'. simpl. rewrite (lane_note i (log s) (ShutdownHit i fid) _ Hl eq_refl). destruct ph as [| | |g|g|g|g]; try done; simpl in Hfid; injection Hfid as ->; simpl; try (by rewrite bool_decide_true); destruct Hin as [_ Hin].
        -- destruct Hin as (w & r & Hx & _). unfold prelock in Hp. by rewrite Hx in Hp.
        -- destruct Hin as (w & Hx). unfold prelock in Hp. by rewrite Hx in Hp.
      * assert (Hb : occ i s = 0 ∧ i ∉ _queued_aborts s ∧ (_pending s !! i = None ∨ _pending s !! i = Some fid)).
        { destruct ph as [| | |g|g|g|g]; try done; simpl in Hfid; injection Hfid as ->; destruct Hph as (O & Q & Pe & _); split_and!; auto. }
        destruct Hb as (O & Q & Pe). unfold phase_ok. split_and!; [|done|done|].
        -- unfold occ in *. rewrite Hc in O. unfold s'. simpl. lia.
        -- exists fid, f'. split; [done|]. rewrite Hlk, decide_True by done. split; [done|]. split; [done|]. split; [done|]. by right.
      * intros g h Hg Hrg Hcg. by destruct (live_others i s s' fid f f' Hf Hfut Hu g h Hg Hrg Hcg) as [-> _].
    + eapply lane_frame; [apply H1| |unfold s'; simpl; by apply th_lane_other]. split; try done.
      * unfold occ. rewrite Hc. done.
      * intros g h Hrh. rewrite Hlk. case_decide as Hg; [subst g; rewrite Hf; split; intros [= <-]; by destruct Hne|done].
  - intros g h. rewrite Hlk. case_decide as Hg; [intros [= <-]; by subst|]. intros Hgh. apply (other_future_ok s); [done|by rewrite E|done].
  - intros g Hg. destruct (H3 g Hg) as (x & Hx & Hpx). rewrite Hlk. case_decide; [by exists f'|by exists x].
  - intros j. change (_claimed_counts s' !! j) with (_claimed_counts s !! j). by rewrite H5, Hc.
  - exists f'. rewrite Hlk, decide_True by done. done.
  - intros a j p Ha. specialize (H7 a j p Ha). destruct p as [|g|g| |]; try done; destruct H7 as (x & Hx & Hy); rewrite <- ?Hlk in *; unfold abort_ok; rewrite Hlk; (case_decide as Hg; [subst; rewrite Hf in Hx; injection Hx as <-; exists f'|by exists x]).
    + split; [done|]. destruct Hy as [Hy1 Hy2]. split; [done|auto].
    + done.
Qed.

Lemma free_phase i s : inv s → free i s → ∃ a, lane i (log s) = Some (a, Idle) ∧ a = bool_decide (i ∈ _speculative_aborts s) ∧ occ i s = 0 ∧ _pending s !! i = None ∧ i ∉ _queued_aborts s.
Proof.
  intros H [Hr Hf]. rewrite (reachable_occ _ _ H) in Hr. apply bool_decide_eq_false in Hr. destruct (i_lane _ H i) as (ph & Hl & Hph & _). eexists. 
  assert (ph = Idle) as ->; [|split; [done|split; [done|by destruct Hph]]].
  destruct ph as [| | |g|g|g|g]; [done|destruct Hph as [? _]; lia|destruct Hph as [? _]; lia|..]; destruct Hph as (_ & _ & _ & g' & f & [= <-] & Hgf & Hri & Hin); pose proof (Hf _ _ Hgf Hri) as Hcb; exfalso.
  - destruct Hin as (Hp & _). unfold prelock in Hp. by rewrite Hcb in Hp.
  - destruct Hin as (Hp & _). unfold prelock in Hp. by rewrite Hcb in Hp.
  - destruct Hin as (w & r & Hx & _). congruence.
  - destruct Hin as (w & Hx). congruence.
Qed.
Lemma inv_put_old s m : inv s → is_new m = false → inv (put m s).
Proof.
  intros [H1 H2 H3 H4 H5 H6 H7 H8] En. assert (Hq : ∀ i, in_queue i (queue s ++ [m]) = in_queue i (queue s)) by (intros i; by rewrite in_queue_snoc, of_id_old, Nat.add_0_r by done).
  unfold put. rewrite En. split; try done.
  - intros i. eapply lane_frame; [apply H1| |done]. apply same_for_refl; try done. unfold occ. simpl. by rewrite Hq.
  - intros i. simpl. by rewrite H4, Hq.
Qed.
Lemma th_inv_enqueue s m : inv s → (is_new m = true → free (im_request_id m) s) → inv (enqueue m s).
Proof.
  intros H Hfree. unfold enqueue. destruct (is_new m) eqn:En; simpl; [|by apply inv_put_old]. specialize (Hfree eq_refl). set (i := im_request_id m) in *. pose proof H as [H1 H2 H3 H4 H5 H6 H7 H8].
  destruct (free_phase _ _ H Hfree) as (a & Hl & Ha & O & Pe & Q). set (s1 := if bool_decide _ then _ else s).
  assert (E1 : queue s1 = queue s ∧ at_pc s1 = at_pc s ∧ _request_counts s1 = _request_counts s ∧ _claimed_counts s1 = _claimed_counts s ∧ _pending s1 = _pending s ∧ futures s1 = futures s ∧ aborts s1 = aborts s ∧ _aborted_futures s1 = _aborted_futures s ∧ log s1 = log s) by (unfold s1; by case_bool_decide).
  destruct E1 as (F1 & F2 & F3 & F4 & F5 & F6 & F7 & F8 & F9).
  assert (Hqa : ∀ j, j ∈ _queued_aborts s1 ↔ j ∈ _queued_aborts s ∨ j = i ∧ i ∈ _speculative_aborts s) by (intros j; unfold s1; case_bool_decide; simpl; set_solver).
  assert (Hsp : ∀ j, j ∈ _speculative_aborts s1 ↔ j ∈ _speculative_aborts s ∧ j ≠ i).
  { intros j. unfold s1. case_bool_decide as Hb; simpl; [apply elem_without|]. split; [|by intros [? _]]. intros Hj. split; [done|]. by intros ->. }
  assert (Hq : ∀ j, in_queue j (queue s1 ++ [m]) = in_queue j (queue s) + if decide (j = i) then 1 else 0) by (intros j; by rewrite F1, in_queue_snoc, of_id_new, one_if by done).
  assert (Hnd : NoDup (_speculative_aborts s1)) by (unfold s1; case_bool_decide; [by apply NoDup_filter|done]). clearbody s1.
  set (s' := note _ _). assert (Hocc : ∀ j, occ j s' = occ j s + if decide (j = i) then 1 else 0) by (intros j; unfold occ, s'; simpl; rewrite Hq, F2; lia).
  split; unfold s', put; rewrite ?En; simpl.
  - intros j. destruct (decide (j = i)) as [->|Hne].
    + exists (if a then Doomed else Waiting). split_and!.
      * simpl. rewrite F9, (lane_note i (log s) (Put i) _ Hl eq_refl). simpl. f_equal. f_equal. symmetry. apply bool_decide_false. rewrite Hsp. tauto.
      * change (phase_ok i (if a then Doomed else Waiting) (note [Put i] (set_inbox (queue s1 ++ [m]) (count_up i (_request_counts s1)) (_claimed_counts s1) s1))).
        assert (Ho : occ i (note [Put i] (set_inbox (queue s1 ++ [m]) (count_up i (_request_counts s1)) (_claimed_counts s1) s1)) = 1).
        { specialize (Hocc i). unfold s', put in Hocc. rewrite En, O, decide_True in Hocc by done. exact Hocc. }
        subst a. destruct (bool_decide_reflect (i ∈ _speculative_aborts s)) as [Hi|Hi]; unfold phase_ok; (split_and!; [exact Ho|simpl; by rewrite F5|simpl; rewrite Hqa; tauto|simpl; rewrite Hsp; tauto]).
      * simpl. rewrite F6. intros g f Hg Hr Hc. destruct Hfree as [_ Hx]. by destruct (Hc (Hx _ _ Hg Hr)).
    + eapply lane_frame; [apply H1| |simpl; rewrite F9; by apply th_lane_other]. split; simpl; rewrite ?F5, ?F6; try done.
      * specialize (Hocc j). unfold s', put in Hocc. rewrite En, decide_False, Nat.add_0_r in Hocc by done. exact Hocc.
      * rewrite Hqa. tauto.
      * rewrite Hsp. tauto.
      * intros. unfold aborted. simpl. by rewrite F8.
  - rewrite F6, F2. apply H2.
  - rewrite F8, F6. apply H3.
  - intros j. rewrite Hq, F3. by apply (count_up_ok i _ (λ j, in_queue j (queue s))).
  - rewrite F4, F2. apply H5.
  - unfold loop_ok in *. simpl. rewrite F2, F6. done.
  - rewrite F7. intros b j p Hb. specialize (H7 b j p Hb). unfold abort_ok in *. simpl. by rewrite F6, F8.
  - done.
Qed.

(** A tombstone that is recorded may evict others. *)
Lemma lane_evicted i out l a ph : lane i l = Some (a, ph) → lane i (l ++ (Evicted <$> out)) = Some (if bool_decide (i ∈ out) then false else a, ph).
Proof.
  revert l a. induction out as [|j out IH]; intros l a Hl; cbn [fmap list_fmap].
  - rewrite app_nil_r. by destruct (bool_decide_reflect (i ∈ [])) as [[]%not_elem_of_nil|_].
  - replace (l ++ Evicted j :: (Evicted <$> out)) with ((l ++ [Evicted j]) ++ (Evicted <$> out)) by (by rewrite <- app_assoc).
    destruct (decide (j = i)) as [->|Hne].
    + rewrite (IH _ false); [|by rewrite (lane_note i l (Evicted i) _ Hl eq_refl)]. rewrite (bool_decide_true (i ∈ i :: out)) by (by left). by case_bool_decide.
    + rewrite (IH _ a); [|by rewrite th_lane_other]. f_equal. f_equal. assert (Hiff : i ∈ out ↔ i ∈ j :: out) by (rewrite elem_of_cons; split; [by right|by intros [->|]]). by rewrite (bool_decide_ext _ _ Hiff).
Qed.
Lemma evict_split l out k : evict l = (out, k) → l = out ++ k.
Proof. unfold evict. intros [= <- <-]. symmetry. apply firstn_skipn. Qed.

Lemma lane_spec i s s' : lane_at i s → occ i s' = occ i s → _pending s' = _pending s → _queued_aborts s' = _queued_aborts s → futures s' = futures s → _aborted_futures s' = _aborted_futures s →
  (i ∈ _speculative_aborts s' → i ∈ _speculative_aborts s ∨ occ i s = 0) →
  (∀ ph, lane i (log s) = Some (bool_decide (i ∈ _speculative_aborts s), ph) → phase_ok i ph s → lane i (log s') = Some (bool_decide (i ∈ _speculative_aborts s'), ph)) → lane_at i s'.
Proof.
  intros (ph & Hl & Hp & Hd) E1 E2 E3 E4 E5 Hs Hlog. exists ph. split_and!; [by apply Hlog| |by rewrite E4].
  unfold phase_ok, aborted in *. destruct ph; rewrite E1, E2, E3, ?E4, ?E5; try done.
  - destruct Hp as (? & ? & ? & ?). split_and!; try done. intros Hx. destruct (Hs Hx); [done|lia].
  - destruct Hp as (? & ? & ? & ?). split_and!; try done. intros Hx. destruct (Hs Hx); [done|lia].
Qed.

Lemma inv_record s a i : inv s → _pending s !! i = None → occ i s = 0 → inv (note [AbortAhead i] (set_abort a i ACallback (_record_speculative_abort i s))).
Proof.
  intros H Hpe Ho. apply (inv_set_abort _ a i ACallback) in H; [|done]. set (s0 := set_abort a i ACallback s) in H.
  assert (E : set_abort a i ACallback (_record_speculative_abort i s) = _record_speculative_abort i s0).
  { unfold _record_speculative_abort. change (_speculative_aborts s0) with (_speculative_aborts s). case_bool_decide; [done|]. by destruct (evict _). }
  rewrite E. assert (Hpe0 : _pending s0 !! i = None) by done. assert (Ho0 : occ i s0 = 0) by done. clearbody s0. clear E Hpe Ho. unfold _record_speculative_abort.
  assert (Hmv : ∀ ph, phase_ok i ph s0 → ∀ b, move (b, ph) (AbortAhead i) = Some (true, ph)).
  { intros ph Hph b. destruct ph; try done; [destruct Hph; lia|destruct Hph; lia|]. destruct Hph as (_ & _ & Hx & _). congruence. }
  pose proof H as [H1 H2 H3 H4 H5 H6 H7 H8]. case_bool_decide as Hi.
  - split; try done. intros j. apply (lane_spec j s0); try done; [by left|]. intros ph Hl Hph. simpl. destruct (decide (j = i)) as [->|Hne]; [|by rewrite th_lane_other].
    rewrite (lane_note i (log s0) (AbortAhead i) _ Hl eq_refl), Hmv by done. by rewrite (bool_decide_true (i ∈ _)).
  - destruct (evict (_speculative_aborts s0)) as [out l] eqn:Ee. apply evict_split in Ee. rewrite Ee in H8, Hi. apply NoDup_app in H8 as (N1 & Nd & N2). split; try done.
    + intros j. apply (lane_spec j s0); try done.
      * simpl. rewrite elem_of_app, list_elem_of_singleton, Ee, elem_of_app. intros [?| ->]; auto.
      * intros ph Hl Hph. simpl. destruct (decide (j = i)) as [->|Hne].
        -- rewrite (lane_note i _ (AbortAhead i) _ (lane_evicted _ _ _ _ _ Hl) eq_refl), Hmv by done. rewrite (bool_decide_true (i ∈ l ++ [i])); [done|]. apply elem_of_app. right. by apply list_elem_of_singleton.
        -- rewrite th_lane_other by done. rewrite (lane_evicted _ _ _ _ _ Hl). f_equal. f_equal. rewrite Ee. destruct (bool_decide_reflect (j ∈ out)) as [Ho|Ho].
           ++ symmetry. apply bool_decide_false. rewrite elem_of_app, list_elem_of_singleton. intros [Hx| ->]; [by apply (Nd j)|done].
           ++ apply bool_decide_ext. rewrite !elem_of_app, list_elem_of_singleton. tauto.
    + simpl. apply NoDup_app. split_and!; [done| |by apply NoDup_singleton]. intros x Hx ->%list_elem_of_singleton. apply Hi, elem_of_app. by right.
Qed.
Lemma inv_abort_lock s a i : inv s → inv (abort_lock a i s).
Proof.
  intros H. unfold abort_lock. destruct (_pending s !! i) as [fid|] eqn:Epe.
  - destruct (i_lane _ H i) as (ph & Hl & Hph & Hu).
    assert (Hf : ∃ f, futures s !! fid = Some f ∧ f_request f = i ∧ prelock f = true ∧ fid_of ph = Some fid ∧ occ i s = 0 ∧ i ∉ _queued_aborts s ∧ (∃ g, ph = Up g ∨ ph = Hit g)).
    { destruct ph as [| | |g|g|g|g]; try (destruct Hph as (_ & Hx & _); congruence); destruct Hph as (O & Q & Pe & g' & f & [= <-] & Hg & Hr & Hin); [destruct Hin as (Hp & _)|destruct Hin as (Hp & _)|congruence|congruence].
      - assert (g = fid) as -> by congruence. exists f. split_and!; try done. exists fid. by left.
      - assert (g = fid) as -> by (destruct Pe; congruence). exists f. split_and!; try done. exists fid. by right. }
    destruct Hf as (f & Hf & Hr & Hp & Hfid & Ho & Hq & (g & Hg)). assert (g = fid) as -> by (destruct Hg as [-> | ->]; by injection Hfid).
    pose proof H as [H1 H2 H3 H4 H5 H6 H7 H8]. set (s' := note _ _). split; try done.
    + intros j. destruct (decide (j = i)) as [->|Hne].
      * exists (Hit fid). split_and!.
        -- unfold s'. simpl. rewrite (lane_note i (log s) (AbortHit i fid) _ Hl eq_refl). destruct Hg as [-> | ->]; simpl; by rewrite bool_decide_true.
        -- unfold phase_ok. split_and!; [done|done|left; unfold s'; simpl; by apply lookup_delete_eq|]. exists fid, f. split_and!; try done. unfold future_in. split_and!; try done. left. unfold aborted, s'. simpl. apply bool_decide_true. set_solver.
        -- intros x h Hx Hrh Hch. rewrite <- (Hu x h); [by rewrite Hfid|done..].
      * eapply lane_frame; [apply H1| |unfold s'; simpl; by apply th_lane_other]. split; try done; unfold s'; simpl.
        -- by rewrite lookup_delete_ne.
        -- intros x h Hx Hrh. unfold aborted. simpl. apply bool_decide_ext. assert (x ≠ fid) by congruence. set_solver.
    + unfold s'. simpl. intros x [->%elem_of_singleton|Hx]%elem_of_union; [by exists f|auto].
    + intros b j p Hb. unfold s' in Hb. simpl in Hb. apply list_lookup_insert_Some in Hb as [(<- & [= <- <-] & _)|[_ Hb]].
      * exists f. split_and!; [done|done|]. intros _. unfold s'. simpl. set_solver.
      * specialize (H7 b j p Hb). destruct p as [|x|x| |]; try done. destruct H7 as (y & Hy & Hry & Hab). exists y. split_and!; [done|done|]. intros. unfold s'. simpl. set_solver.
  - rewrite (reachable_occ _ _ H). case_bool_decide as Ho; [|apply inv_record; [done|done|lia]]. destruct (i_lane _ H i) as (ph & Hl & Hph & Hu).
    apply (inv_set_abort _ a i ACallback) in H; [|done]. set (s0 := set_abort a i ACallback s) in H. set (s' := note _ _).
    assert (Hw : (ph = Waiting ∨ ph = Doomed) ∧ i ∉ _speculative_aborts s) by (destruct ph as [| | |g|g|g|g]; destruct Hph as (O & Hx); try lia; (split; [auto|by destruct Hx as (_ & _ & ?)])). destruct Hw as [Hw Hsp].
    pose proof H as [H1 H2 H3 H4 H5 H6 H7 H8]. split; try done.
    intros j. destruct (decide (j = i)) as [->|Hne].
    + exists Doomed. split_and!.
      * unfold s'. simpl. rewrite (lane_note i (log s) (AbortQueued i) _ Hl eq_refl). by destruct Hw as [-> | ->].
      * assert (Ho' : occ i s = 1) by (destruct Hw as [-> | ->]; by destruct Hph). unfold phase_ok. split_and!; [done|done|unfold s'; simpl; set_solver|done].
      * intros x h Hx Hrh Hch. specialize (Hu x h Hx Hrh Hch). by destruct Hw as [-> | ->].
    + eapply lane_frame; [apply (H1 j)| |unfold s'; simpl; by apply th_lane_other]. split; try done; unfold s'; simpl. set_solver.
Qed.

(** *** Every step keeps it *)
Lemma inv_loop_tick s s' : inv s → loop_tick s = Some s' → inv s'.
Proof.
  intros H. unfold loop_tick. destruct (at_pc s) as [| | | |m|fid|fid| |fid|] eqn:E.
  - intros [= <-]. destruct (_running s); apply th_inv_goto; by rewrite ?E.
  - destruct (_running s && _); [done|]. intros [= <-]. apply th_inv_goto; by rewrite ?E.
  - intros [= <-]. destruct (_running s); apply th_inv_goto; by rewrite ?E.
  - destruct (queue s) as [|m l] eqn:Eq; intros [= <-]; [apply th_inv_goto; by rewrite ?E|by apply inv_get].
  - intros [= <-]. by apply th_inv_dispatch.
  - intros (f & Hf & [= <-])%bind_Some. by apply inv_attach.
  - destruct (callback_over fid s); [|done]. intros [= <-]. apply th_inv_goto; by rewrite ?E.
  - destruct (next_queued s) as [[fid f]|] eqn:En; intros [= <-]; [by apply (inv_shutdown s fid f)|apply th_inv_goto; by rewrite ?E].
  - destruct (callback_over fid s); [|done]. intros [= <-]. apply th_inv_goto; by rewrite ?E.
  - done.
Qed.
Lemma inv_abort_tick s a s' : inv s → abort_tick a s = Some s' → inv s'.
Proof.
  intros H. unfold abort_tick. intros ([i p] & Ha & Ht)%bind_Some. destruct p as [|fid|fid| |]; simpl in Ht.
  - injection Ht as <-. by apply inv_abort_lock.
  - apply bind_Some in Ht as (f & Hf & [= <-]). by apply inv_abort_cancel.
  - destruct (callback_over fid s); [|done]. injection Ht as <-. by apply inv_set_abort.
  - injection Ht as <-. apply inv_note_quiet; [by apply inv_set_abort|by intros [? []]].
  - done.
Qed.
Lemma th_inv_step s s' : inv s → step s s' → inv s'.
Proof.
  intros H [x Hx|x Hx|fid r x Hx|fid x Hx|a x Hx|m Hm|i|].
  - by eapply inv_loop_tick.
  - by eapply inv_worker_start.
  - by eapply inv_worker_returns.
  - by eapply inv_finish_tick.
  - by eapply inv_abort_tick.
  - by apply th_inv_enqueue.
  - by apply inv_new_abort.
  - by apply inv_stop.
Qed.
Lemma th_inv_init : inv sched_init.
Proof.
  split; try done; try (intros; by apply lookup_empty). 
  - intros i. exists Idle. split_and!; try done.
  - constructor.
Qed.
Lemma reachable_threaded s : reachable s → inv s.
Proof.
  intros H. unfold reachable in H. apply rtc_ind_r with (P := inv) in H; [done|apply th_inv_init|]. intros x y _ Hs Hx. by eapply th_inv_step.
Qed.

(** ** Nothing is left behind *)
Definition capacity_ok (s : sched) : Prop :=
  size (_pending s) ≤ _max_concurrency ∧
  match at_pc s with LCheck => _running s = true → size (_pending s) < _max_concurrency | LGet | LClaimed _ => size (_pending s) < _max_concurrency | LShutdown | LShutWait _ | LEnd => _running s = false | _ => True end ∧
  (Z.of_nat (length (_speculative_aborts s)) ≤ _ABORTED_REQUEST_ID_LIMIT)%Z.
Lemma size_delete_le (m : gmap string nat) i : size (delete i m) ≤ size m.
Proof. destruct (m !! i) eqn:E; [rewrite map_size_delete_Some by (by eexists); lia|rewrite map_size_delete_None by done; lia]. Qed.
Lemma length_without i l : length (without i l) ≤ length l.
Proof. apply length_filter. Qed.
Lemma record_length i s : (Z.of_nat (length (_speculative_aborts s)) ≤ _ABORTED_REQUEST_ID_LIMIT)%Z → (Z.of_nat (length (_speculative_aborts (_record_speculative_abort i s))) ≤ _ABORTED_REQUEST_ID_LIMIT)%Z.
Proof.
  intros H. unfold _record_speculative_abort. case_bool_decide; [done|]. unfold evict. case_bool_decide as Hb; simpl; rewrite length_app, length_skipn; simpl; unfold _ABORTED_REQUEST_ID_LIMIT, _ABORTED_REQUEST_ID_RETAINED in *; lia.
Qed.
Lemma record_rest i s : at_pc (_record_speculative_abort i s) = at_pc s ∧ _pending (_record_speculative_abort i s) = _pending s ∧ _running (_record_speculative_abort i s) = _running s ∧ futures (_record_speculative_abort i s) = futures s ∧
  aborts (_record_speculative_abort i s) = aborts s ∧ queue (_record_speculative_abort i s) = queue s ∧ outbox (_record_speculative_abort i s) = outbox s ∧ _aborted_futures (_record_speculative_abort i s) = _aborted_futures s ∧
  ∃ out, log (_record_speculative_abort i s) = log s ++ (Evicted <$> out).
Proof. unfold _record_speculative_abort. case_bool_decide; [split_and!; try done; exists []; by rewrite app_nil_r|]. unfold evict. simpl. split_and!; try done. by eexists. Qed.

Lemma capacity_small s s' : capacity_ok s → at_pc s' = at_pc s → _running s' = _running s → size (_pending s') ≤ size (_pending s) → (Z.of_nat (length (_speculative_aborts s')) ≤ _ABORTED_REQUEST_ID_LIMIT)%Z → capacity_ok s'.
Proof.
  intros (H1 & H2 & H3) E1 E2 Hp Hs. split_and!; [lia| |done]. rewrite E1, E2. destruct (at_pc s); try done; try lia. intros Hx. specialize (H2 Hx). lia.
Qed.
Lemma capacity_dispatch s m : capacity_ok s → at_pc s = LClaimed m → capacity_ok (dispatch m s).
Proof.
  intros (H1 & H2 & H3) E. rewrite E in H2. pose proof (length_without (im_request_id m) (_speculative_aborts s)) as Hw. unfold dispatch, _consume_reachable_tombstone.
  case_bool_decide; [|case_bool_decide]; split_and!; simpl; try done; try lia. rewrite map_size_insert. destruct (_pending s !! _); simpl; lia.
Qed.
Lemma capacity_loop s s' : capacity_ok s → loop_tick s = Some s' → capacity_ok s'.
Proof.
  intros H. pose proof H as (H1 & H2 & H3). unfold loop_tick. destruct (at_pc s) as [| | | |m|fid|fid| |fid|] eqn:E.
  - intros [= <-]. split_and!; try done. simpl. by destruct (_running s).
  - destruct (_running s) eqn:Er; simpl; [|intros [= <-]; split_and!; try done; simpl; congruence]. case_bool_decide; simpl; [|done]. intros [= <-]. split_and!; simpl; done.
  - intros [= <-]. split_and!; try done. simpl. destruct (_running s) eqn:Er; [by apply H2|done].
  - destruct (queue s) as [|m l] eqn:Eq; intros [= <-]; [by split_and!|]. unfold took. destruct (is_new m); by split_and!.
  - intros [= <-]. by apply capacity_dispatch.
  - intros (f & Hf & [= <-])%bind_Some. split_and!; try done. simpl. by destruct (in_callback _).
  - destruct (callback_over fid s); [|done]. intros [= <-]. by split_and!.
  - destruct (next_queued s) as [[fid f]|] eqn:En; intros [= <-]; split_and!; try done. simpl. by destruct (in_callback _).
  - destruct (callback_over fid s); [|done]. intros [= <-]. by split_and!.
  - done.
Qed.
Lemma finish_tick_rest fid s s' : finish_tick fid s = Some s' → at_pc s' = at_pc s ∧ _running s' = _running s ∧ queue s' = queue s ∧ aborts s' = aborts s ∧ _speculative_aborts s' = _speculative_aborts s ∧ size (_pending s') ≤ size (_pending s).
Proof.
  unfold finish_tick. intros (f & Hf & Ht)%bind_Some. destruct (f_cb f) as [| |[] w|]; try done.
  - injection Ht as <-. destruct (bool_decide (_pending s !! f_request f = Some fid)); split_and!; try done. apply size_delete_le.
  - by injection Ht as <-.
  - destruct (f_status f); try done. by injection Ht as <-.
Qed.
Lemma capacity_step s s' : capacity_ok s → step s s' → capacity_ok s'.
Proof.
  intros H. pose proof H as (_ & _ & H3). intros [x Hx|x Hx|fid r x Hx|fid x Hx|a x Hx|m Hm|i|].
  - by eapply capacity_loop.
  - unfold worker_start in Hx. case_bool_decide; [|done]. apply bind_Some in Hx as ([fid f] & _ & [= <-]). by apply (capacity_small s).
  - unfold worker_returns in Hx. apply bind_Some in Hx as (f & _ & Hx). destruct (f_status f); try done. injection Hx as <-. by apply (capacity_small s).
  - destruct (finish_tick_rest _ _ _ Hx) as (E1 & E2 & _ & _ & E5 & E6). apply (capacity_small s); try done. by rewrite E5.
  - unfold abort_tick in Hx. apply bind_Some in Hx as ([i p] & _ & Hx). destruct p as [|fid|fid| |]; simpl in Hx.
    + injection Hx as <-. unfold abort_lock. destruct (_pending s !! i) as [fid|] eqn:Ep.
      * apply (capacity_small s); try done. apply size_delete_le.
      * destruct (is_reachable i s); [by apply (capacity_small s)|]. destruct (record_rest i s) as (E1 & E2 & E3 & _). apply (capacity_small s); simpl; try done; [by rewrite E2|by apply record_length].
    + apply bind_Some in Hx as (f & _ & [= <-]). by apply (capacity_small s).
    + destruct (callback_over fid s); [|done]. injection Hx as <-. by apply (capacity_small s).
    + injection Hx as <-. by apply (capacity_small s).
    + done.
  - unfold enqueue. pose proof (length_without (im_request_id m) (_speculative_aborts s)). destruct (is_new m) eqn:En; simpl; [|by apply (capacity_small s)].
    case_bool_decide; (apply (capacity_small s); try done); simpl; lia.
  - by apply (capacity_small s).
  - destruct H as (H1 & H2 & _). split_and!; try done. simpl. by destruct (at_pc s).
Qed.
Lemma reachable_capacity s : reachable s → capacity_ok s.
Proof.
  intros H. unfold reachable in H. apply rtc_ind_r with (P := capacity_ok) in H; [done| |intros x y _ Hs Hx; by eapply capacity_step]. split_and!; simpl; try done. rewrite map_size_empty. lia.
Qed.

(** C24. The bookkeeping of aborts and of requests in flight stays small and leaves nothing: no more than
    [max_concurrency] requests are started and not finished or aborted, at most 10000 aborts are
    remembered for requests not seen yet, and once every request put has been answered or taken
    out, no request is pending, no abort of one is waiting to be carried out, and the inbox's
    counts are empty. *)
Theorem threaded_leaves_nothing s : reachable s →
  size (_pending s) ≤ _max_concurrency ∧ (Z.of_nat (length (_speculative_aborts s)) ≤ _ABORTED_REQUEST_ID_LIMIT)%Z ∧
  ((∀ i, free i s) → _pending s = ∅ ∧ _queued_aborts s = ∅ ∧ _aborted_futures s = ∅ ∧ _request_counts s = ∅ ∧ _claimed_counts s = ∅).
Proof.
  intros Hr. destruct (reachable_capacity _ Hr) as (H1 & _ & H2). pose proof (reachable_threaded _ Hr) as H. split_and!; [done|done|]. intros Hfree.
  assert (Hi : ∀ i, occ i s = 0 ∧ _pending s !! i = None ∧ i ∉ _queued_aborts s) by (intros i; by destruct (free_phase _ _ H (Hfree i)) as (? & _ & _ & ?)).
  split_and!.
  - apply map_empty. intros i. by destruct (Hi i) as (_ & ? & _).
  - apply set_eq. intros i. destruct (Hi i) as (_ & _ & ?). set_solver.
  - apply set_eq. intros fid. split; [|set_solver]. intros Hf. destruct (i_aborted _ H _ Hf) as (f & Hlk & Hp). destruct (Hfree (f_request f)) as [_ Hd]. by destruct (prelock_live _ Hp (Hd _ _ Hlk eq_refl)).
  - apply map_empty. intros i. rewrite (i_requests _ H). destruct (Hi i) as (Ho & _). unfold occ in Ho. by replace (in_queue i (queue s)) with 0 by lia.
  - apply map_empty. intros i. rewrite (i_claimed _ H). destruct (Hi i) as (Ho & _). unfold occ in Ho. by replace (claimed i (at_pc s)) with 0 by lia.
Qed.

(** ** The work drains *)
Definition loop_rank (p : loop_pc) : nat :=
  match p with LClaimed _ => 12 | LWait _ => 5 | LTop | LAttach _ => 4 | LCapacity => 3 | LCheck => 2 | LShutWait _ => 2 | LGet | LShutdown => 1 | LEnd => 0 end.
Definition status_rank (f : future) : nat := match f_status f with FQueued => 2 | FRunning => 1 | _ => 0 end.
Definition cb_rank (f : future) : nat := match f_cb f with CbNone => 5 | CbAttached => 4 | CbRunning FLock _ => 3 | CbRunning _ _ => 2 | CbDone => 0 end.
Definition future_rank (f : future) : nat := status_rank f + cb_rank f.
Definition abort_rank (p : abort_pc) : nat := match p with ALock => 4 | ACancel _ => 3 | AWait _ => 2 | ACallback => 1 | ADone => 0 end.
Definition work (s : sched) : nat := 20 * length (queue s) + loop_rank (at_pc s) + sum_list (future_rank <$> futures s) + sum_list ((λ x, abort_rank x.2) <$> aborts s).

Lemma sum_rank_insert {A} (g : A → nat) (l : list A) i x y : l !! i = Some x → sum_list (g <$> <[i := y]> l) + g x = sum_list (g <$> l) + g y.
Proof.
  revert i. induction l as [|z l IH]; intros [|i] Hl; [done|done|injection Hl as ->; change (<[0:=y]> (x :: l)) with (y :: l); rewrite !fmap_cons; simpl; lia|]. change (<[S i:=y]> (z :: l)) with (z :: <[i:=y]> l).
  rewrite !fmap_cons. simpl. specialize (IH _ Hl). lia.
Qed.
Lemma sum_rank_snoc {A} (g : A → nat) (l : list A) x : sum_list (g <$> (l ++ [x])) = sum_list (g <$> l) + g x.
Proof. rewrite fmap_app. induction (g <$> l) as [|z k IH]; simpl; [lia|]. simpl in IH. lia. Qed.

Lemma work_future s fid f f' : futures s !! fid = Some f → work (set_future fid f' s) + future_rank f = work s + future_rank f'.
Proof. intros Hf. unfold work. simpl. pose proof (sum_rank_insert future_rank _ _ _ f' Hf). lia. Qed.
Lemma work_abort s a i p q : aborts s !! a = Some (i, p) → work (set_abort a i q s) + abort_rank p = work s + abort_rank q.
Proof. intros Ha. unfold work. simpl. pose proof (sum_rank_insert (λ x : string * abort_pc, abort_rank x.2) _ _ _ (i, q) Ha) as H. simpl in H. lia. Qed.
Lemma work_goto s p : work (goto p s) + loop_rank (at_pc s) = work s + loop_rank p.
Proof. unfold work. simpl. lia. Qed.
Lemma cancel_rank p fid f : fut_ok p fid f → future_rank (cancel f) ≤ future_rank f ∧ (f_status f = FQueued → f_cb f ≠ CbNone → future_rank (cancel f) + 3 ≤ future_rank f).
Proof.
  intros Hok. unfold cancel, future_rank, status_rank, cb_rank, fut_ok, done, fire in *. destruct f as [i d [| |r|] cb]; simpl in *; try (split; [lia|done]).
  destruct cb as [| |[] w|]; simpl in *; split; try done; try lia; try (by destruct Hok).
Qed.

(** The steps of the workers and of the aborts that were issued, and of the loop. *)
Inductive thread_tick (s : sched) : sched → Prop :=
| t_start s' : worker_start s = Some s' → thread_tick s s'
| t_returns fid r s' : worker_returns fid r s = Some s' → thread_tick s s'
| t_finish fid s' : finish_tick fid s = Some s' → thread_tick s s'
| t_abort a s' : abort_tick a s = Some s' → thread_tick s s'.
Definition tick (s s' : sched) : Prop := loop_tick s = Some s' ∨ thread_tick s s'.
(** The loop looks into an empty inbox. *)
Definition idle_poll (s : sched) : Prop := at_pc s = LGet ∧ queue s = [].

Lemma work_loop s s' : inv s → loop_tick s = Some s' → ¬ idle_poll s → work s' < work s.
Proof.
  intros H Ht Hn. unfold loop_tick in Ht. destruct (at_pc s) as [| | | |m|fid|fid| |fid|] eqn:E; try (destruct (callback_over fid s); [|done]).
  - injection Ht as <-. pose proof (work_goto s (if _running s then LCapacity else LShutdown)) as Hw. rewrite E in Hw. destruct (_running s); simpl in *; lia.
  - destruct (_running s && _); [done|]. injection Ht as <-. pose proof (work_goto s LCheck) as Hw. rewrite E in Hw. simpl in *. lia.
  - injection Ht as <-. pose proof (work_goto s (if _running s then LGet else LShutdown)) as Hw. rewrite E in Hw. destruct (_running s); simpl in *; lia.
  - destruct (queue s) as [|m l] eqn:Eq; [by destruct Hn|]. injection Ht as <-. unfold work, took. rewrite E, Eq. destruct (is_new m); simpl; lia.
  - injection Ht as <-. unfold dispatch, _consume_reachable_tombstone. repeat case_bool_decide; unfold work; simpl; rewrite E; simpl; try lia. rewrite sum_rank_snoc. unfold future_rank, status_rank, cb_rank at 2. simpl. lia.
  - apply bind_Some in Ht as (f & Hf & [= <-]). pose proof (i_loop _ H) as Hl. unfold loop_ok in Hl. rewrite E in Hl. destruct Hl as (f0 & Hf0 & Hcb). rewrite Hf in Hf0. injection Hf0 as <-.
    pose proof (work_future s fid f (add_done_callback f) Hf) as Hw. set (p := if in_callback (add_done_callback f) then _ else _). pose proof (work_goto (set_future fid (add_done_callback f) s) p) as Hg. simpl in Hg. rewrite E in Hg. simpl in Hg.
    assert (Hr : loop_rank p + future_rank (add_done_callback f) < 4 + future_rank f).
    { unfold p, in_callback, add_done_callback, future_rank, status_rank, cb_rank. rewrite Hcb. destruct (done f); simpl; destruct (f_status f); lia. }
    lia.
  - injection Ht as <-. pose proof (work_goto s LTop) as Hw. rewrite E in Hw. simpl in *. lia.
  - destruct (next_queued s) as [[fid f]|] eqn:En; injection Ht as <-; [|pose proof (work_goto s LEnd) as Hw; rewrite E in Hw; simpl in *; lia].
    unfold next_queued in En. apply list_find_Some in En as (Hf & Hq & _). pose proof (i_future _ H _ _ Hf) as Hok. destruct (cancel_rank _ _ _ Hok) as [_ Hr].
    assert (Hst : f_status f = FQueued) by (unfold queued in Hq; by destruct (f_status f)). assert (Hcb : f_cb f ≠ CbNone) by (intros Hcb; unfold fut_ok in Hok; rewrite Hcb, E in Hok; done). specialize (Hr Hst Hcb).
    pose proof (work_future s fid f (cancel f) Hf) as Hw. set (p := if in_callback (cancel f) then _ else _). pose proof (work_goto (set_future fid (cancel f) s) p) as Hg. simpl in Hg. rewrite E in Hg. simpl in Hg.
    change (work (note [ShutdownHit (f_request f) fid] (goto p (set_future fid (cancel f) s)))) with (work (goto p (set_future fid (cancel f) s))). assert (loop_rank p ≤ 2) by (unfold p; destruct (in_callback _); simpl; lia). lia.
  - injection Ht as <-. pose proof (work_goto s LShutdown) as Hw. rewrite E in Hw. simpl in *. lia.
  - done.
Qed.
Lemma work_thread s s' : inv s → thread_tick s s' → work s' < work s.
Proof.
  intros H [x Hx|fid r x Hx|fid x Hx|a x Hx].
  - unfold worker_start in Hx. case_bool_decide; [|done]. apply bind_Some in Hx as ([fid f] & Hf & [= <-]). apply list_find_Some in Hf as (Hf & Hq & _).
    pose proof (work_future s fid f (with_status FRunning f) Hf) as Hw. unfold future_rank, status_rank, queued in *. destruct (f_status f); try done. simpl in Hw. unfold cb_rank in Hw. simpl in Hw. lia.
  - unfold worker_returns in Hx. apply bind_Some in Hx as (f & Hf & Hx). destruct (f_status f) eqn:Est; try done. injection Hx as <-.
    pose proof (work_future s fid f (fire true (with_status (FReturned r) f)) Hf) as Hw. unfold fire in *. destruct f as [i d st cb]. simpl in *. subst st. unfold future_rank, status_rank, cb_rank in Hw. destruct cb; simpl in *; unfold future_rank, status_rank, cb_rank in *; simpl in *; lia.
  - unfold finish_tick in Hx. apply bind_Some in Hx as (f & Hf & Hx). destruct (f_cb f) as [| |[] w|] eqn:Ecb; try done.
    + set (s1 := if bool_decide _ then _ else s) in Hx. assert (E1 : work s1 = work s ∧ futures s1 = futures s) by (unfold s1; by destruct (bool_decide _)). destruct E1 as [E1 E2]. clearbody s1.
      set (f' := with_cb _ f) in Hx. injection Hx as <-. set (s2 := set_aborted _ s1). assert (Hf2 : futures s2 !! fid = Some f) by (unfold s2; simpl; by rewrite E2).
      pose proof (work_future s2 fid f f' Hf2) as Hw. assert (Hr : future_rank f' < future_rank f) by (unfold f', future_rank, status_rank, cb_rank; rewrite Ecb; simpl; destruct (f_status f); destruct (_ || _); lia).
      assert (E3 : work s2 = work s) by (rewrite <- E1; done). match goal with |- work ?x < _ => change (work x) with (work (set_future fid f' s2)) end. lia.
    + injection Hx as <-. pose proof (work_future s fid f (with_cb CbDone f) Hf) as Hw. unfold future_rank, status_rank, cb_rank in Hw. rewrite Ecb in Hw. simpl in Hw.
      change (work (note [FinishCallback (f_request f) fid] (set_future fid (with_cb CbDone f) s))) with (work (set_future fid (with_cb CbDone f) s)). lia.
    + destruct (f_status f) as [| |r|] eqn:Est; try done. injection Hx as <-. pose proof (work_future s fid f (with_cb CbDone f) Hf) as Hw. unfold future_rank, status_rank, cb_rank in Hw. rewrite Ecb in Hw. simpl in Hw.
      match goal with |- work ?x < _ => change (work x) with (work (set_future fid (with_cb CbDone f) s)) end. lia.
  - unfold abort_tick in Hx. apply bind_Some in Hx as ([i p] & Ha & Hx). destruct p as [|fid|fid| |]; simpl in Hx.
    + injection Hx as <-. unfold abort_lock. destruct (_pending s !! i) as [fid|] eqn:Ep.
      * pose proof (work_abort (set_aborted ({[fid]} ∪ _aborted_futures s) (set_pending (delete i (_pending s)) s)) a i ALock (ACancel fid) Ha) as Hw. simpl in Hw. unfold work in *. simpl in *. lia.
      * destruct (is_reachable i s).
        -- pose proof (work_abort (set_tombstones ({[i]} ∪ _queued_aborts s) (_speculative_aborts s) s) a i ALock ACallback Ha) as Hw. simpl in Hw. unfold work in *. simpl in *. lia.
        -- destruct (record_rest i s) as (E1 & _ & _ & E4 & E5 & E6 & _). assert (Ha' : aborts (_record_speculative_abort i s) !! a = Some (i, ALock)) by (by rewrite E5).
           pose proof (work_abort _ a i ALock ACallback Ha') as Hw. assert (Hs : work (_record_speculative_abort i s) = work s) by (unfold work; by rewrite E1, E4, E5, E6). unfold note. unfold work in *. simpl in *. lia.
    + apply bind_Some in Hx as (f & Hf & [= <-]). destruct (cancel_rank _ _ _ (i_future _ H _ _ Hf)) as [Hr _]. pose proof (work_future s fid f (cancel f) Hf) as Hw. set (q := if _ : bool then _ else _).
      pose proof (work_abort (set_future fid (cancel f) s) a i (ACancel fid) q Ha) as Hv. assert (abort_rank q ≤ 2) by (unfold q; destruct (_ && _); simpl; lia). simpl in Hv. lia.
    + destruct (callback_over fid s); [|done]. injection Hx as <-. pose proof (work_abort s a i (AWait fid) ACallback Ha) as Hw. simpl in Hw. lia.
    + injection Hx as <-. pose proof (work_abort s a i ACallback ADone Ha) as Hw. simpl in Hw. match goal with |- work ?x < _ => change (work x) with (work (set_abort a i ADone s)) end. lia.
    + done.
Qed.

Lemma find_or_all (g : future → bool) (l : list future) : (∃ fid f, l !! fid = Some f ∧ g f = true) ∨ ∀ fid f, l !! fid = Some f → g f = false.
Proof.
  destruct (list_find (λ f, g f = true) l) as [[fid f]|] eqn:E.
  - apply list_find_Some in E as (Hf & Hg & _). left. by exists fid, f.
  - apply list_find_None in E. right. intros fid f Hf. rewrite Forall_lookup in E. specialize (E _ _ Hf). by destruct (g f).
Qed.
Definition moves (s : sched) : Prop := ∃ s', tick s s' ∧ work s' < work s.
Lemma moves_thread s s' : inv s → thread_tick s s' → moves s.
Proof. intros H Ht. exists s'. split; [by right|by apply work_thread]. Qed.
Lemma moves_loop s s' : inv s → loop_tick s = Some s' → ¬ idle_poll s → moves s.
Proof. intros H Ht Hn. exists s'. split; [by left|by eapply work_loop]. Qed.

Lemma moves_finish s fid f : inv s → futures s !! fid = Some f → in_callback f = true → moves s.
Proof.
  intros H Hf Hc. pose proof (i_future _ H _ _ Hf) as Hok. assert (Hx : ∃ s', finish_tick fid s = Some s').
  { unfold finish_tick, in_callback, fut_ok in *. rewrite Hf. simpl. destruct (f_cb f) as [| |[] w|]; try done; try (by eexists). destruct Hok as [r ->]. by eexists. }
  destruct Hx as [s' Hs]. apply (moves_thread s s'); [done|by eapply t_finish].
Qed.
Lemma moves_attach s fid : inv s → at_pc s = LAttach fid → moves s.
Proof.
  intros H E. pose proof (i_loop _ H) as Hl. unfold loop_ok in Hl. rewrite E in Hl. destruct Hl as (f & Hf & _). eapply moves_loop; [done| |by intros [E' _]; congruence].
  unfold loop_tick. rewrite E, Hf. done.
Qed.
(** A request that was started always has a thread that can go on with it. *)
Lemma moves_live s fid f : 0 < _max_concurrency → inv s → futures s !! fid = Some f → f_cb f ≠ CbDone → moves s.
Proof.
  intros Hm H Hf Hc. destruct (find_or_all in_callback (futures s)) as [(g & h & Hg & Hh)|Hnc]; [by eapply moves_finish|].
  destruct (find_or_all (λ f, match f_status f with FRunning => true | _ => false end) (futures s)) as [(g & h & Hg & Hh)|Hnr].
  { destruct (f_status h) eqn:Est; try done. eapply moves_thread; [done|]. apply (t_returns _ g (Raise IndexError)). unfold worker_returns. rewrite Hg. simpl. by rewrite Est. }
  destruct (next_queued s) as [[g h]|] eqn:En.
  { eapply moves_thread; [done|]. apply t_start. unfold worker_start. rewrite bool_decide_true; [by rewrite En|]. unfold busy.
    destruct (filter (λ f, on_worker f = true) (futures s)) as [|x l] eqn:El; [done|]. assert (Hx : x ∈ filter (λ f, on_worker f = true) (futures s)) by (rewrite El; by left).
    apply list_elem_of_filter in Hx as [Hw [k Hk]%list_elem_of_lookup]. specialize (Hnc _ _ Hk). specialize (Hnr _ _ Hk). simpl in Hnr. unfold on_worker, in_callback in *. destruct (f_status x), (f_cb x); done. }
  apply list_find_None in En. rewrite Forall_lookup in En. pose proof (i_future _ H _ _ Hf) as Hok. specialize (En _ _ Hf). specialize (Hnc _ _ Hf). specialize (Hnr _ _ Hf). simpl in Hnr.
  unfold fut_ok, in_callback, queued, done in *. destruct (f_cb f) as [| |[] w|]; try done; [by eapply moves_attach|]. by destruct (f_status f).
Qed.
Lemma moves_queue s : 0 < _max_concurrency → inv s → capacity_ok s → _running s = true → queue s ≠ [] → moves s.
Proof.
  intros Hm H (_ & Hcap & _) Hr Hq. destruct (find_or_all (λ f, match f_cb f with CbDone => false | _ => true end) (futures s)) as [(g & h & Hg & Hh)|Hd].
  { eapply moves_live; [done|done|done|]. intros E. by rewrite E in Hh. }
  assert (Hall : ∀ fid f, futures s !! fid = Some f → f_cb f = CbDone) by (intros fid f Hf; specialize (Hd _ _ Hf); simpl in Hd; by destruct (f_cb f)).
  assert (Hp : _pending s = ∅).
  { apply map_empty. intros i. destruct (_pending s !! i) as [fid|] eqn:Ep; [|done]. destruct (i_lane _ H i) as (ph & _ & Hph & _). exfalso.
    destruct ph as [| | |g|g|g|g]; try (destruct Hph as (_ & Hx & _); congruence); destruct Hph as (_ & _ & Pe & g' & f & _ & Hg & _ & Hin); pose proof (Hall _ _ Hg) as Hcb; try (unfold prelock in Hin; rewrite Hcb in Hin; by destruct Hin); congruence. }
  assert (Hni : ¬ idle_poll s) by (intros [_ E]; done).
  assert (Hover : ∀ fid, (∃ f, futures s !! fid = Some f ∧ started f = true) → callback_over fid s = true) by (intros fid (f & Hf & _); unfold callback_over; by rewrite Hf, (Hall _ _ Hf)).
  assert (Hget : at_pc s = LGet → moves s).
  { intros E. destruct (queue s) as [|m l] eqn:Eq; [done|]. eapply moves_loop; [done| |done]. unfold loop_tick. by rewrite E, Eq. }
  pose proof (i_loop _ H) as Hl. unfold loop_ok in Hl. destruct (at_pc s) as [| | | |m|fid|fid| |fid|] eqn:E; try congruence; try (by apply Hget); try (by eapply moves_attach); eapply moves_loop; try done; unfold loop_tick; rewrite E; try done.
  - rewrite Hr, Hp, map_size_empty. by rewrite bool_decide_true.
  - by rewrite Hover.
Qed.
Lemma moves_abort s a i p : 0 < _max_concurrency → inv s → aborts s !! a = Some (i, p) → p ≠ ADone → moves s.
Proof.
  intros Hm H Ha Hp. pose proof (i_aborts _ H _ _ _ Ha) as Hok. assert (Hx : (∃ s', abort_tick a s = Some s') ∨ moves s).
  { unfold abort_tick. rewrite Ha. simpl. destruct p as [|fid|fid| |]; try done; try (left; by eexists).
    - destruct Hok as (f & Hf & _). left. rewrite Hf. by eexists.
    - destruct Hok as (f & Hf & Hs). unfold callback_over. rewrite Hf. destruct (f_cb f) eqn:Ecb; try (right; eapply moves_live; [done|done|done|congruence]). left. by eexists. }
  destruct Hx as [[s' Hx]|]; [|done]. eapply moves_thread; [done|by eapply t_abort].
Qed.

(** C23. The work drains: each step of the loop, of a worker, of a callback and of an abort, other than a
    look into an empty inbox, makes the work left smaller, and while the scheduler runs some such
    step can be taken as long as a message is in the inbox, a request is started and not
    finished, or an abort is not over, whatever the compute functions return and however the
    threads interleave. *)
Theorem threaded_work_drains s : 0 < _max_concurrency → reachable s →
  (∀ s', tick s s' → (at_pc s = LGet → queue s ≠ []) → work s' < work s) ∧ (∀ s', thread_tick s s' → work s' < work s) ∧
  (_running s = true → queue s ≠ [] ∨ (∃ fid f, futures s !! fid = Some f ∧ f_cb f ≠ CbDone) ∨ (∃ a i p, aborts s !! a = Some (i, p) ∧ p ≠ ADone) → ∃ s', tick s s' ∧ work s' < work s).
Proof.
  intros Hm Hr. pose proof (reachable_threaded _ Hr) as H. pose proof (reachable_capacity _ Hr) as Hc. split_and!.
  - intros s' [Ht|Ht] Hn; [|by apply work_thread]. apply work_loop; [done|done|]. intros [E Eq]. by apply Hn.
  - intros s' Ht. by apply work_thread.
  - intros Hrun [Hq|[(fid & f & Hf & Hcb)|(a & i & p & Ha & Hp)]]; [by apply moves_queue|by eapply moves_live|by eapply moves_abort].
Qed.

(** ** What is answered, and what an abort prevents *)
Definition marked (s : sched) (fid : nat) (f : future) : Prop := (prelock f = true → fid ∈ _aborted_futures s ∨ cancelled f = true) ∧ ∀ w, f_cb f ≠ CbRunning FEmit w.
Definition grows (s s' : sched) : Prop := ∀ fid f, futures s !! fid = Some f → ∃ f', futures s' !! fid = Some f' ∧ f_request f' = f_request f ∧
  (∀ r, f_status f = FReturned r → f_status f' = FReturned r) ∧ (f_cb f = CbDone → f_cb f' = CbDone) ∧ (marked s fid f → marked s' fid f').
Definition loud (h : happening) : bool := match h with Emitted _ _ _ | AbortHit _ _ | ShutdownHit _ _ => true | _ => false end.
Inductive new_log (s s' : sched) : Prop :=
| nl_quiet hs : log s' = log s ++ hs → forallb (λ h, negb (loud h)) hs = true → outbox s' = outbox s → new_log s s'
| nl_emit fid f w r : futures s !! fid = Some f → f_cb f = CbRunning FEmit w → f_status f = FReturned r → futures s' !! fid = Some (with_cb CbDone f) →
    log s' = log s ++ [Emitted (f_request f) fid (out_of (f_request f) r)] → outbox s' = outbox s ++ [out_of (f_request f) r] → new_log s s'
| nl_hit h i fid f f' : h = AbortHit i fid ∨ h = ShutdownHit i fid → futures s !! fid = Some f → prelock f = true → futures s' !! fid = Some f' → f_request f' = i → marked s' fid f' →
    log s' = log s ++ [h] → outbox s' = outbox s → new_log s s'.
Record hist_ok (s : sched) : Prop := {
  hi_out : outbox s = omap emitted (log s);
  hi_emitted : ∀ i fid out, Emitted i fid out ∈ log s → ∃ f r, futures s !! fid = Some f ∧ f_request f = i ∧ f_status f = FReturned r ∧ out = out_of i r ∧ f_cb f = CbDone;
  hi_hit : ∀ i fid, AbortHit i fid ∈ log s ∨ ShutdownHit i fid ∈ log s → (∃ f, futures s !! fid = Some f ∧ f_request f = i ∧ marked s fid f) ∧ ∀ out, Emitted i fid out ∉ log s;
}.
Lemma quiet_not hs h : h ∈ hs → forallb (λ h, negb (loud h)) hs = true → loud h = true → False.
Proof. intros Hin Hq Hl. rewrite forallb_forall in Hq. specialize (Hq h). rewrite Hl in Hq. by specialize (Hq ltac:(by apply list_elem_of_In)). Qed.
Lemma quiet_emitted hs : forallb (λ h, negb (loud h)) hs = true → omap emitted hs = [].
Proof. induction hs as [|h hs IH]; [done|]. cbn [forallb]. rewrite andb_true_iff. intros [Hh Hq]. specialize (IH Hq). by destruct h. Qed.
Lemma emitted_grows s s' i fid out f r : grows s s' → futures s !! fid = Some f → f_request f = i → f_status f = FReturned r → out = out_of i r → f_cb f = CbDone →
  ∃ f r, futures s' !! fid = Some f ∧ f_request f = i ∧ f_status f = FReturned r ∧ out = out_of i r ∧ f_cb f = CbDone.
Proof. intros Hg Hf Hr Hs Ho Hc. destruct (Hg _ _ Hf) as (f' & Hf' & Er & Es & Ec & _). exists f', r. split_and!; auto; congruence. Qed.
Lemma hist_step s s' : hist_ok s → grows s s' → new_log s s' → hist_ok s'.
Proof.
  intros [H1 H2 H3] Hg [hs El Hq Eo|fid f w r Hf Hcb Hst Hf' El Eo|h i fid f f' Hh Hf Hp Hf' Hr Hm El Eo].
  - split.
    + by rewrite Eo, El, omap_app, (quiet_emitted hs), app_nil_r.
    + intros i fid out. rewrite El, elem_of_app. intros [Hin|Hin]; [|by destruct (quiet_not hs _ Hin Hq eq_refl)]. destruct (H2 _ _ _ Hin) as (f & r & ? & ? & ? & ? & ?). by eapply emitted_grows.
    + intros i fid Hin. assert (Hin' : AbortHit i fid ∈ log s ∨ ShutdownHit i fid ∈ log s).
      { rewrite El, !elem_of_app in Hin. destruct Hin as [[?|Hx]|[?|Hx]]; [by left|by destruct (quiet_not hs _ Hx Hq eq_refl)|by right|by destruct (quiet_not hs _ Hx Hq eq_refl)]. }
      destruct (H3 _ _ Hin') as [(f & Hf & Hr & Hm) Hn]. split.
      * destruct (Hg _ _ Hf) as (f' & Hf' & Er & _ & _ & Em). exists f'. split_and!; [done|congruence|by apply Em].
      * intros out. rewrite El, elem_of_app. intros [Hx|Hx]; [by destruct (Hn out)|by destruct (quiet_not hs _ Hx Hq eq_refl)].
  - split.
    + by rewrite Eo, El, omap_app, H1.
    + intros i g out. rewrite El, elem_of_app, list_elem_of_singleton. intros [Hin|[= -> -> ->]]; [destruct (H2 _ _ _ Hin) as (x & y & ? & ? & ? & ? & ?); by eapply emitted_grows|].
      by exists (with_cb CbDone f), r.
    + intros i g Hin. assert (Hin' : AbortHit i g ∈ log s ∨ ShutdownHit i g ∈ log s) by (rewrite El, !elem_of_app, !list_elem_of_singleton in Hin; destruct Hin as [[?|?]|[?|?]]; [by left|done|by right|done]).
      destruct (H3 _ _ Hin') as [(x & Hx & Hr & Hm) Hn]. split.
      * destruct (Hg _ _ Hx) as (y & Hy & Er & _ & _ & Em). exists y. split_and!; [done|congruence|by apply Em].
      * intros out. rewrite El, elem_of_app, list_elem_of_singleton. intros [Hy|[= -> -> ->]]; [by destruct (Hn out)|]. rewrite Hf in Hx. injection Hx as <-. destruct Hm as [_ Hm]. by destruct (Hm w).
  - assert (Hne : ∀ out, Emitted i fid out ∉ log s) by (intros out Hin; destruct (H2 _ _ _ Hin) as (x & y & Hx & _ & _ & _ & Hc); rewrite Hf in Hx; injection Hx as <-; unfold prelock in Hp; by rewrite Hc in Hp).
    assert (Hnh : ∀ j g out, Emitted j g out ≠ h) by (intros j g out <-; by destruct Hh). split.
    + rewrite Eo, El, omap_app, H1. destruct Hh as [-> | ->]; simpl; by rewrite app_nil_r.
    + intros j g out. rewrite El, elem_of_app, list_elem_of_singleton. intros [Hin|Hin]; [|by destruct (Hnh _ _ _ Hin)]. destruct (H2 _ _ _ Hin) as (x & y & ? & ? & ? & ? & ?). by eapply emitted_grows.
    + intros j g Hin. assert (Hin' : (AbortHit j g ∈ log s ∨ ShutdownHit j g ∈ log s) ∨ j = i ∧ g = fid).
      { rewrite El, !elem_of_app, !list_elem_of_singleton in Hin. destruct Hin as [[?|Hx]|[?|Hx]]; [by left; left| |by left; right|]; right; destruct Hh; simplify_eq; done. }
      destruct Hin' as [Hin'|[-> ->]].
      * destruct (H3 _ _ Hin') as [(x & Hx & Hrx & Hmx) Hn]. split.
        -- destruct (Hg _ _ Hx) as (y & Hy & Er & _ & _ & Em). exists y. split_and!; [done|congruence|by apply Em].
        -- intros out. rewrite El, elem_of_app, list_elem_of_singleton. intros [Hy|Hy]; [by destruct (Hn out)|by destruct (Hnh _ _ _ Hy)].
      * split; [by exists f'|]. intros out. rewrite El, elem_of_app, list_elem_of_singleton. intros [Hy|Hy]; [by destruct (Hne out)|by destruct (Hnh _ _ _ Hy)].
Qed.

(** *** Every step *)
Lemma grows_same s s' : futures s' = futures s → (∀ fid, fid ∈ _aborted_futures s → fid ∈ _aborted_futures s') → grows s s'.
Proof.
  intros Ef Ea fid f Hf. exists f. rewrite Ef. split_and!; try done. intros [H1 H2]. split; [|done]. intros Hp. destruct (H1 Hp); auto.
Qed.
Lemma grows_set s s' fid f f' : futures s !! fid = Some f → futures s' = <[fid := f']> (futures s) → f_request f' = f_request f → (∀ r, f_status f = FReturned r → f_status f' = FReturned r) → (f_cb f = CbDone → f_cb f' = CbDone) →
  (marked s fid f → marked s' fid f') → (∀ g, g ≠ fid → g ∈ _aborted_futures s → g ∈ _aborted_futures s') → grows s s'.
Proof.
  intros Hf Ef Er Es Ec Em Ea g h Hg. rewrite Ef. destruct (decide (g = fid)) as [->|Hne].
  - rewrite Hf in Hg. injection Hg as <-. exists f'. rewrite list_lookup_insert_eq by (by eapply lookup_lt_Some). by split_and!.
  - exists h. rewrite list_lookup_insert_ne by done. split_and!; try done. intros [H1 H2]. split; [|done]. intros Hp. destruct (H1 Hp); auto.
Qed.
Lemma quiet_nil s s' : log s' = log s → outbox s' = outbox s → new_log s s'.
Proof. intros El Eo. apply (nl_quiet s s' []); [by rewrite app_nil_r|done|done]. Qed.
Lemma th_quiet_one s s' h : log s' = log s ++ [h] → loud h = false → outbox s' = outbox s → new_log s s'.
Proof. intros El Hh Eo. apply (nl_quiet s s' [h]); [done| |done]. simpl. by rewrite Hh. Qed.

Lemma hist_pre s s' fid f f' : futures s !! fid = Some f → futures s' = <[fid := f']> (futures s) → prelock f = true → prelock f' = true → f_request f' = f_request f → (∀ r, f_status f = FReturned r → f_status f' = FReturned r) →
  (cancelled f = true → cancelled f' = true) → _aborted_futures s' = _aborted_futures s → grows s s'.
Proof.
  intros Hf Ef Hp Hp' Er Es Ec Ea. eapply grows_set; try done; [by intros Hc; destruct (prelock_live _ Hp)| |by rewrite Ea].
  intros [H1 _]. split; [|by intros w Hw; unfold prelock in Hp'; rewrite Hw in Hp']. intros _. rewrite Ea. destruct (H1 Hp); auto.
Qed.
Lemma hist_loop s s' : inv s → loop_tick s = Some s' → grows s s' ∧ new_log s s'.
Proof.
  intros H Ht. unfold loop_tick in Ht. destruct (at_pc s) as [| | | |m|fid|fid| |fid|] eqn:E; try (destruct (callback_over fid s); [|done]).
  1, 3, 7, 9: injection Ht as <-; split; [by apply grows_same|by apply quiet_nil].
  - destruct (_running s && _); [done|]. injection Ht as <-. split; [by apply grows_same|by apply quiet_nil].
  - destruct (queue s) as [|m l]; injection Ht as <-; [split; [by apply grows_same|by apply quiet_nil]|]. unfold took. destruct (is_new m); (split; [by apply grows_same|by apply quiet_nil]).
  - injection Ht as <-. unfold dispatch, _consume_reachable_tombstone. repeat case_bool_decide; (split; [|by eapply th_quiet_one]); try (by apply grows_same).
    intros fid f Hf. exists f. split; [simpl; by apply lookup_app_l_Some|]. by split_and!.
  - apply bind_Some in Ht as (f & Hf & [= <-]). pose proof (i_loop _ H) as Hl. unfold loop_ok in Hl. rewrite E in Hl. destruct Hl as (f0 & Hf0 & Hcb). rewrite Hf in Hf0. injection Hf0 as <-.
    split; [|by apply quiet_nil]. apply (hist_pre s _ fid f (add_done_callback f)); try done; unfold prelock, add_done_callback, cancelled; rewrite ?Hcb; by destruct (done f).
  - destruct (next_queued s) as [[fid f]|] eqn:En; injection Ht as <-; [|split; [by apply grows_same|by apply quiet_nil]].
    unfold next_queued in En. apply list_find_Some in En as (Hf & Hq & _). pose proof (i_future _ H _ _ Hf) as Hok. assert (Hst : f_status f = FQueued) by (unfold queued in Hq; by destruct (f_status f)).
    destruct (cancel_pre _ _ _ Hok Hst) as (Hp & Hp' & _ & Hr & _). assert (Hcs : f_status (cancel f) = FCancelled) by (unfold cancel, fire; rewrite Hst; by destruct f as [? ? ? []]).
    set (s' := note _ _). assert (Hlk : futures s' !! fid = Some (cancel f)) by (unfold s'; simpl; apply list_lookup_insert_eq; by eapply lookup_lt_Some).
    assert (Hm : marked s' fid (cancel f)) by (split; [intros _; right; unfold cancelled; by rewrite Hcs|intros w Hw; unfold prelock in Hp'; by rewrite Hw in Hp']).
    split; [apply (grows_set s s' fid f (cancel f)); try done; [congruence|intros Hc; by destruct (prelock_live _ Hp)]|]. apply (nl_hit s s' (ShutdownHit (f_request f) fid) (f_request f) fid f (cancel f)); try done. by right.
  - done.
Qed.
Lemma hist_finish s fid s' : inv s → finish_tick fid s = Some s' → grows s s' ∧ new_log s s'.
Proof.
  intros H Ht. unfold finish_tick in Ht. apply bind_Some in Ht as (f & Hf & Ht). pose proof (lookup_lt_Some _ _ _ Hf) as Hlt. destruct (f_cb f) as [| |[] w|] eqn:Ecb; try done.
  - set (s1 := if bool_decide _ then _ else s) in Ht. assert (E1 : futures s1 = futures s ∧ _aborted_futures s1 = _aborted_futures s ∧ log s1 = log s ∧ outbox s1 = outbox s) by (unfold s1; by destruct (bool_decide _)).
    destruct E1 as (E1 & E2 & E3 & E4). clearbody s1. set (silent := bool_decide _ || _) in Ht. injection Ht as <-. split; [|eapply th_quiet_one; [simpl; by rewrite E3|done|simpl; by rewrite E4]].
    eapply (grows_set s _ fid f (with_cb (CbRunning (if silent then FCallback else FEmit) w) f)); try done; [by simpl; rewrite E1|by intros Hc; rewrite Ecb in Hc| |intros g Hg Hin; simpl; rewrite E2; set_solver].
    intros [Hm _]. assert (Hp : prelock f = true) by (unfold prelock; by rewrite Ecb). assert (silent = true) as -> by (unfold silent; rewrite E2; destruct (Hm Hp) as [Hx|Hx]; [by rewrite bool_decide_true|unfold cancelled in Hx; by rewrite Hx, orb_true_r]).
    split; [done|]. by intros w' [= ].
  - injection Ht as <-. split; [|by eapply th_quiet_one]. by eapply (grows_set s _ fid f (with_cb CbDone f)).
  - destruct (f_status f) as [| |r|] eqn:Est; try done. injection Ht as <-. split; [by eapply (grows_set s _ fid f (with_cb CbDone f))|].
    eapply (nl_emit s _ fid f w r); try done. simpl. by apply list_lookup_insert_eq.
Qed.
Lemma hist_abort s a s' : inv s → abort_tick a s = Some s' → grows s s' ∧ new_log s s'.
Proof.
  intros H Ht. unfold abort_tick in Ht. apply bind_Some in Ht as ([i p] & Ha & Ht). destruct p as [|fid|fid| |]; simpl in Ht; try done.
  - injection Ht as <-. unfold abort_lock. destruct (_pending s !! i) as [fid|] eqn:Ep.
    + destruct (i_lane _ H i) as (ph & _ & Hph & _). assert (Hf : ∃ f, futures s !! fid = Some f ∧ f_request f = i ∧ prelock f = true).
      { destruct ph as [| | |g|g|g|g]; try (destruct Hph as (_ & Hx & _); congruence); destruct Hph as (_ & _ & Pe & g' & f & [= <-] & Hg & Hr & Hin); try congruence; exists f; destruct Hin as (Hp & _); (assert (g = fid) as -> by (first [congruence|destruct Pe; congruence])); done. }
      destruct Hf as (f & Hf & Hr & Hp). set (s' := note _ _). split; [apply grows_same; [done|]; unfold s'; simpl; set_solver|].
      apply (nl_hit s s' (AbortHit i fid) i fid f f); try done; [by left|]. split; [intros _; left; unfold s'; simpl; set_solver|intros w Hw; unfold prelock in Hp; by rewrite Hw in Hp].
    + destruct (is_reachable i s); [split; [by apply grows_same|by eapply th_quiet_one]|]. destruct (record_rest i s) as (_ & _ & _ & E4 & _ & _ & E7 & E8 & out & E9).
      split; [apply grows_same; simpl; [done|by rewrite E8]|]. eapply (nl_quiet _ _ ((Evicted <$> out) ++ [AbortAhead i])); simpl; [by rewrite E9, app_assoc| |done].
      rewrite forallb_app. simpl. rewrite andb_true_r. clear. by induction out.
  - apply bind_Some in Ht as (f & Hf & [= <-]). split; [|by apply quiet_nil]. pose proof (i_future _ H _ _ Hf) as Hok.
    assert (Hdec : f_status f = FQueued ∨ f_status f ≠ FQueued) by (destruct (f_status f); first [by left|by right]). destruct Hdec as [Est|Est].
    + destruct (cancel_pre _ _ _ Hok Est) as (Hp & Hp' & _ & Hr & _). apply (hist_pre s _ fid f (cancel f)); try done; unfold cancelled; rewrite Est; done.
    + rewrite (cancel_idle f) by done. apply grows_same; [|done]. simpl. by apply list_insert_id.
  - destruct (callback_over fid s); [|done]. injection Ht as <-. split; [by apply grows_same|by apply quiet_nil].
  - injection Ht as <-. split; [by apply grows_same|by eapply th_quiet_one].
Qed.
Lemma hist_all s s' : inv s → step s s' → grows s s' ∧ new_log s s'.
Proof.
  intros H [x Hx|x Hx|fid r x Hx|fid x Hx|a x Hx|m Hm|i|].
  - by apply hist_loop.
  - unfold worker_start in Hx. case_bool_decide; [|done]. apply bind_Some in Hx as ([fid f] & Hf & [= <-]). apply list_find_Some in Hf as (Hf & Hq & _). split; [|by apply quiet_nil].
    pose proof (i_future _ H _ _ Hf) as Hok. assert (Est : f_status f = FQueued) by (unfold queued in Hq; by destruct (f_status f)). destruct (pending_pre _ _ _ Hok) as [Hp _]; [unfold done; by rewrite Est|].
    apply (hist_pre s _ fid f (with_status FRunning f)); try done; unfold cancelled; rewrite Est; done.
  - unfold worker_returns in Hx. apply bind_Some in Hx as (f & Hf & Hx). destruct (f_status f) eqn:Est; try done. injection Hx as <-. split; [|by apply quiet_nil].
    pose proof (i_future _ H _ _ Hf) as Hok. assert (Hd : done f = false) by (unfold done; by rewrite Est). destruct (pending_pre _ _ _ Hok Hd) as [Hp _]. destruct (fut_ok_status _ _ _ (FReturned r) Hok Hd) as [[_ Hp']|]; [|done].
    apply (hist_pre s _ fid f (fire true (with_status (FReturned r) f))); try done; [by destruct f as [? ? ? []]|congruence|unfold cancelled; by rewrite Est].
  - by eapply hist_finish.
  - by eapply hist_abort.
  - unfold enqueue. destruct (is_new m) eqn:En; simpl; [|split; [by apply grows_same|by apply quiet_nil]]. case_bool_decide; (split; [by apply grows_same|by eapply th_quiet_one]).
  - split; [by apply grows_same|by apply quiet_nil].
  - split; [by apply grows_same|by apply quiet_nil].
Qed.
Lemma reachable_hist s : reachable s → hist_ok s.
Proof.
  intros H. unfold reachable in H. apply rtc_ind_r with (P := λ s, inv s ∧ hist_ok s) in H; [by destruct H|split; [apply th_inv_init|]|].
  - split; simpl; [done|by intros ? ? ? []%not_elem_of_nil|by intros ? ? [[]%not_elem_of_nil|[]%not_elem_of_nil]].
  - intros x y _ Hs [Hi Hx]. destruct (hist_all _ _ Hi Hs) as [Hg Hn]. split; [by eapply th_inv_step|by eapply hist_step].
Qed.

(** *** What follows in a history *)
Lemma lane_app_some i l1 l2 : is_Some (lane i (l1 ++ l2)) → is_Some (lane i l1).
Proof.
  induction l2 as [|h l2 IH] using rev_ind; [by rewrite app_nil_r|]. rewrite app_assoc, th_lane_snoc. intros [x Hx]. apply bind_Some in Hx as (st & Hst & _). apply IH. by eexists.
Qed.
Lemma lane_cut i l1 h l2 : is_Some (lane i (l1 ++ h :: l2)) → ∃ st st', lane i l1 = Some st ∧ lane_step i st h = Some st' ∧ lane i (l1 ++ [h]) = Some st'.
Proof.
  intros Hs. rewrite cons_middle, app_assoc in Hs. apply lane_app_some in Hs as [st' Hst']. pose proof Hst' as Hx. rewrite th_lane_snoc in Hx. apply bind_Some in Hx as (st & Hst & Hx). by exists st, st'.
Qed.
(** What holds after a prefix and is kept by the moves that follow holds when the next one is made. *)
Lemma lane_keeps (Q : bool * phase → Prop) i l1 l2 st : lane i l1 = Some st → Q st → is_Some (lane i (l1 ++ l2)) →
  (∀ h x y, h ∈ l2 → about h = i → Q x → move x h = Some y → Q y) → ∃ x, lane i (l1 ++ l2) = Some x ∧ Q x.
Proof.
  intros Hl HQ. induction l2 as [|h l2 IH] using rev_ind; intros Hs Hm; [rewrite app_nil_r; by exists st|]. rewrite app_assoc in *. destruct (lane_app_some i _ [h] Hs) as [x0 Hx0].
  destruct IH as (x & Hx & HQx); [by rewrite Hx0|intros; eapply Hm; [|done..]; by apply elem_of_app; left|]. rewrite th_lane_snoc, Hx in *. simpl in *. destruct Hs as [y Hy]. exists y. split; [done|].
  unfold lane_step in Hy. destruct (bool_decide_reflect (about h = i)) as [Ha|Ha]; [|by injection Hy as <-]. eapply Hm; [|done..]. apply elem_of_app. right. by apply list_elem_of_singleton.
Qed.

(** C21. Every request ends once: the history of an identity is always a word of [lane], so that a request
    that was put is started at most once, answered at most once and only after it was started,
    and either answered or taken out by an abort or the end that came before it finished;
    the outbox holds the answers in the order they were given, and each is the result that its
    own compute call returned, or the exception it raised. *)
Theorem requests_end_once s : reachable s →
  (∀ i, is_Some (lane i (log s))) ∧ outbox s = omap emitted (log s) ∧
  (∀ i fid out, Emitted i fid out ∈ log s → ∃ f r, futures s !! fid = Some f ∧ f_request f = i ∧ f_status f = FReturned r ∧ out = out_of i r).
Proof.
  intros Hr. pose proof (reachable_threaded _ Hr) as H. destruct (reachable_hist _ Hr) as [H1 H2 _]. split_and!; [|done|].
  - intros i. destruct (i_lane _ H i) as (ph & Hl & _). rewrite Hl. by eexists.
  - intros i fid out Hin. destruct (H2 _ _ _ Hin) as (f & r & ? & ? & ? & ? & _). by exists f, r.
Qed.

Lemma elem_or (h : happening) (l : list happening) : (∀ x, x = h ∨ x ≠ h) → h ∈ l ∨ h ∉ l.
Proof.
  intros Hd. induction l as [|x l IH]; [right; apply not_elem_of_nil|]. destruct IH; [left; by right|]. destruct (Hd x) as [->|Hne]; [left; by left|right]. rewrite elem_of_cons. intros [->|]; done.
Qed.
Lemma consumed_or i (l : list happening) : Consumed i ∈ l ∨ Consumed i ∉ l.
Proof. apply elem_or. intros []; try (by right). destruct (decide (request_id = i)) as [->|]; [by left|right; congruence]. Qed.
Lemma evicted_or i (l : list happening) : Evicted i ∈ l ∨ Evicted i ∉ l.
Proof. apply elem_or. intros []; try (by right). destruct (decide (request_id = i)) as [->|]; [by left|right; congruence]. Qed.

(** C22. An abort reaches its request wherever it is: a request it finds started, or that the end of the
    scheduler finds waiting for a thread, is never answered, even when its computation goes on
    and returns; one it finds in the inbox is taken out before anything of that identity is
    started; and one that is put only after its abort is taken out too, unless
    the abort was forgotten because thousands of others came in between. *)
Theorem aborts_take_effect s i : reachable s →
  (∀ fid, AbortHit i fid ∈ log s ∨ ShutdownHit i fid ∈ log s → ∀ out, Emitted i fid out ∉ log s) ∧
  (∀ l1 l2 fid l3, log s = l1 ++ AbortQueued i :: l2 ++ Dispatched i fid :: l3 → Consumed i ∈ l2) ∧
  (∀ l1 l2 fid l3, log s = l1 ++ AbortAhead i :: l2 ++ Dispatched i fid :: l3 → Consumed i ∈ l2 ∨ Evicted i ∈ l2).
Proof.
  intros Hr. pose proof (reachable_threaded _ Hr) as H. destruct (reachable_hist _ Hr) as [_ _ H3]. destruct (i_lane _ H i) as (ph & Hl & _). assert (Hsome : is_Some (lane i (log s))) by (rewrite Hl; by eexists).
  split_and!.
  - intros fid Hin. by destruct (H3 _ _ Hin).
  - intros l1 l2 fid l3 E. rewrite E in Hsome. destruct (lane_cut _ _ _ _ Hsome) as (st & st' & Hst & Hm & Hst').
    destruct (consumed_or i l2) as [|Hn]; [done|]. exfalso. unfold lane_step in Hm. simpl in Hm. rewrite bool_decide_true in Hm by done.
    assert (HQ : st'.2 = Doomed) by (destruct st as [a []]; simpl in Hm; simplify_eq; done).
    rewrite cons_middle, app_assoc, (app_assoc (l1 ++ [_])) in Hsome. destruct (lane_cut _ _ _ _ Hsome) as (x & y & Hx & Hy & _).
    destruct (lane_keeps (λ x, x.2 = Doomed) _ _ l2 _ Hst' HQ) as (z & Hz & HQz); [by rewrite Hx| |].
    + intros h [a p] v Hin Ha Hp Hv. simpl in Hp. subst p. destruct h; simpl in *; simplify_eq; try done; by destruct answered.
    + rewrite Hz in Hx. injection Hx as ->. unfold lane_step in Hy. simpl in Hy. rewrite bool_decide_true in Hy by done. destruct x as [a p]. simpl in HQz. by subst p.
  - intros l1 l2 fid l3 E. rewrite E in Hsome. destruct (lane_cut _ _ _ _ Hsome) as (st & st' & Hst & Hm & Hst').
    destruct (consumed_or i l2) as [|Hn]; [by left|]. destruct (evicted_or i l2) as [|Hn']; [by right|]. exfalso. unfold lane_step in Hm. simpl in Hm. rewrite bool_decide_true in Hm by done.
    set (Q := λ x : bool * phase, match x with (true, (Idle | Hit _ | Ans _ | Cb _)) | (_, Doomed) => True | _ => False end).
    assert (HQ : Q st') by (destruct st as [a []]; simpl in Hm; simplify_eq; done).
    rewrite cons_middle, app_assoc, (app_assoc (l1 ++ [_])) in Hsome. destruct (lane_cut _ _ _ _ Hsome) as (x & y & Hx & Hy & _).
    destruct (lane_keeps Q _ _ l2 _ Hst' HQ) as (z & Hz & HQz); [by rewrite Hx| |].
    + intros h [a p] v Hin Ha Hp Hv. destruct a, p; simpl in Hp; try done; destruct h; simpl in *; repeat case_bool_decide; simplify_eq; try done; destruct answered; repeat case_bool_decide; simplify_eq; done.
    + rewrite Hz in Hx. injection Hx as ->. unfold lane_step in Hy. simpl in Hy. rewrite bool_decide_true in Hy by done. by destruct x as [[] []].
Qed.

(** ** Runs *)
Inductive act := Loop | Start | Returns (fid : nat) (r : res R) | Finish (fid : nat) | Go (a : nat) | Enqueue (m : IncomingMessage) | Abort_ (i : string) | Stop.
Definition free_b (i : string) (s : sched) : bool :=
  negb (is_reachable i s) && forallb (λ f, negb (bool_decide (f_request f = i)) || match f_cb f with CbDone => true | _ => false end) (futures s).
Lemma free_b_ok i s : free_b i s = true → free i s.
Proof.
  unfold free_b. rewrite andb_true_iff, negb_true_iff, forallb_forall. intros [H1 H2]. split; [done|]. intros fid f Hf Hr. specialize (H2 f ltac:(by eapply list_elem_of_In, list_elem_of_lookup_2)).
  rewrite bool_decide_true in H2 by done. simpl in H2. by destruct (f_cb f).
Qed.
Definition perform (x : act) (s : sched) : option sched :=
  match x with
  | Loop => loop_tick s
  | Start => worker_start s
  | Returns fid r => worker_returns fid r s
  | Finish fid => finish_tick fid s
  | Go a => abort_tick a s
  | Enqueue m => if negb (is_new m) || free_b (im_request_id m) s then Some (enqueue m s) else None
  | Abort_ i => Some (set_aborts (aborts s ++ [(i, ALock)]) s)
  | Stop => Some (stop s)
  end.
Lemma th_perform_step x s s' : perform x s = Some s' → step s s'.
Proof.
  destruct x as [| |fid r|fid|a|m|i|]; simpl; intros H; try (by econstructor); try (injection H as <-; by econstructor).
  destruct (negb (is_new m) || _) eqn:E; [|done]. injection H as <-. apply st_enqueue. intros En. rewrite En in E. by apply free_b_ok.
Qed.
(** A run, or nothing of it when a step of it cannot be taken. *)
Definition play (l : list act) : option sched := foldl (λ o x, s ← o; perform x s) (Some sched_init) l.
Definition played (l : list act) : sched := default sched_init (play l).
Lemma th_played_reachable l : reachable (played l).
Proof.
  unfold played. destruct (play l) as [s|] eqn:E; [|apply rtc_refl]. simpl. revert s E. unfold play, reachable. induction l as [|x l IH] using rev_ind; intros s H; [injection H as <-; constructor|].
  rewrite foldl_app in H. simpl in H. apply bind_Some in H as (s0 & H0 & H). eapply rtc_r; [by apply IH|by eapply th_perform_step].
Qed.
End threaded.

(** ** At work *)
Definition demo_new (i : string) (n : Z) : SimpleScheduler.IncomingMessage Z := mkIncoming i NewRequest n.
Definition demo_played (l : list (act (P := Z) (R := Z))) : sched (P := Z) (R := Z) := played 2 l.
(** "a" is answered; "b" is aborted while it runs and returns all the same; "c" is aborted in the inbox; "d" before it is put. *)
Definition demo_run : list (act (P := Z) (R := Z)) :=
  [Enqueue (demo_new "a" 1); Loop; Loop; Loop; Loop; Loop; Loop; Start;
   Enqueue (demo_new "b" 2); Loop; Loop; Loop; Loop; Loop; Loop; Start;
   Returns 0 (Ok 10%Z); Finish 0; Finish 0;
   Abort_ "b"; Go 0; Go 0; Go 0; Returns 1 (Ok 20%Z); Finish 1; Finish 1;
   Enqueue (demo_new "c" 3); Abort_ "c"; Go 1; Go 1; Loop; Loop; Loop; Loop; Loop;
   Abort_ "d"; Go 2; Go 2; Enqueue (demo_new "d" 4); Loop; Loop; Loop; Loop; Loop].
Lemma requests_end_once_witness : outbox (demo_played demo_run) = [OutResult "a" 10%Z] ∧ lane "b" (log (demo_played demo_run)) = Some (false, Idle) ∧ is_Some (lane "c" (log (demo_played demo_run))).
Proof.
  split_and!; [vm_compute; reflexivity..|]. destruct (requests_end_once 2 (demo_played demo_run) (th_played_reachable 2 demo_run)) as [H _]. apply H.
Defined.
Lemma aborts_take_effect_witness : AbortHit "b" 1 ∈ log (demo_played demo_run) ∧ ∀ out, Emitted "b" 1 out ∉ log (demo_played demo_run).
Proof.
  assert (H : AbortHit "b" 1 ∈ log (demo_played demo_run)).
  { apply (list_elem_of_lookup_2 _ 6). vm_compute. reflexivity. }
  split; [exact H|]. destruct (aborts_take_effect 2 (demo_played demo_run) "b" (th_played_reachable 2 demo_run)) as [Ha _]. apply Ha. by left.
Defined.
Lemma threaded_leaves_nothing_witness : size (_pending (demo_played (take 16 demo_run))) = 2 ∧ size (_pending (demo_played (take 16 demo_run))) ≤ 2.
Proof. split; [vm_compute; reflexivity|]. destruct (threaded_leaves_nothing 2 _ (th_played_reachable 2 (take 16 demo_run))) as [H _]. exact H. Defined.
Lemma threaded_work_drains_witness : work (demo_played (take 16 demo_run)) = 14 ∧ ∃ s', tick 2 (demo_played (take 16 demo_run)) s' ∧ work s' < 14.
Proof.
  assert (E : work (demo_played (take 16 demo_run)) = 14) by (vm_compute; reflexivity). split; [exact E|].
  destruct (threaded_work_drains 2 (demo_played (take 16 demo_run)) ltac:(lia) (th_played_reachable 2 (take 16 demo_run))) as (_ & _ & H).
  destruct H as (s' & Ht & Hw); [vm_compute; reflexivity| |exists s'; split; [exact Ht|by rewrite E in Hw]].
  right. left. eexists 0, _. split; [vm_compute; reflexivity|discriminate].
Defined.
