(* ===== verification/KVPages.v ===== *)
(** * Paged KV pools

    Models [src/sglang_omni/comm/kv_transfer.py], the CUDA IPC relay's use of a pool
    ([relay/cuda_ipc.py]) and what [CommEngine] checks before pages move
    ([comm/engine.py]): the source of [send_kv_pages] and the destination of
    [prepare_kv_receive].  A tensor is its device and its byte length; the copy kernel
    is outside the repository, the arguments it gets are not. *)
From S2P Require Import Prelude PyVal Proto.

(** ** [KVBufferRegion] and [KVPool] *)
Record tensor := mkTensor { t_device : string; t_byte_length : Z; t_flattenable : bool }.
Record KVBufferRegion := mkRegion { rg_name : string; rg_tensor : tensor; rg_bytes_per_page : Z }.

(** [__post_init__]. *)
Definition new_region (name : string) (t : tensor) (bytes_per_page : Z) : res KVBufferRegion :=
  _ ← raise_if (bool_decide (bytes_per_page ≤ 0)%Z) (ValueError "bytes_per_page must be positive");
  _ ← raise_if (bool_decide (t_byte_length t mod bytes_per_page ≠ 0)%Z) (ValueError "byte length must be divisible by bytes_per_page");
  _ ← raise_if (negb (t_flattenable t)) (ValueError "must expose a flattenable aliasing byte view");
  Ok (mkRegion name t bytes_per_page).

Definition page_count (r : KVBufferRegion) : Z := t_byte_length (rg_tensor r) `div` rg_bytes_per_page r.

Record KVPool := mkPool { pl_pool_id : string; pl_layout_id : string; pl_page_size : Z; pl_buffers : list KVBufferRegion }.

Definition devices (buffers : list KVBufferRegion) : gset string :=
  list_to_set (map (λ r, t_device (rg_tensor r)) buffers).

Definition new_pool (pool_id layout_id : string) (page_size : Z) (buffers : list KVBufferRegion) : res KVPool :=
  _ ← raise_if (bool_decide (size (devices buffers) ≠ 1)) (ValueError "all KV pool buffers must live on the same device");
  Ok (mkPool pool_id layout_id page_size buffers).

Definition pool_device (p : KVPool) : res string :=
  match pl_buffers p with r :: _ => Ok (t_device (rg_tensor r)) | [] => Raise IndexError end.

Definition layout (p : KVPool) : KVPoolLayout :=
  mkLayout (pl_layout_id p) (pl_page_size p) (map (λ r, mkBuffer (rg_name r) (rg_bytes_per_page r)) (pl_buffers p)).

(** [min] and [max] of a tuple. *)
Definition py_min (l : list Z) : res Z :=
  match l with [] => Raise (ValueError "min() iterable argument is empty") | x :: l => Ok (foldl Z.min x l) end.
Definition py_max (l : list Z) : res Z :=
  match l with [] => Raise (ValueError "max() iterable argument is empty") | x :: l => Ok (foldl Z.max x l) end.

Definition validate_page_indices (page_indices : list Z) (p : KVPool) : res unit :=
  low ← py_min page_indices;
  _ ← raise_if (bool_decide (low < 0)%Z) (ValueError "KV page indices must be non-negative");
  max_page_index ← py_max page_indices;
  foldM (λ _ r, raise_if (bool_decide (page_count r ≤ max_page_index)%Z) (ValueError "KV page index exceeds buffer capacity"))
    (pl_buffers p) tt.

(** ** The relay *)
Definition register_kv_pool (relay_device : string) (p : KVPool) (pools : gmap string KVPool) : res (gmap string KVPool) :=
  device ← pool_device p;
  _ ← raise_if (bool_decide (device ≠ relay_device)) (ValueError "KV pool is on another device than the relay");
  _ ← foldM (λ _ r, raise_if (bool_decide (rg_bytes_per_page r mod 8 ≠ 0)%Z) (ValueError "bytes_per_page must be a multiple of 8"))
        (pl_buffers p) tt;
  Ok (<[pl_pool_id p := p]> pools).

(** One call of the copy kernel. *)
Record copy := mkCopy { cp_source : KVBufferRegion; cp_target : KVBufferRegion; cp_item_size : Z; cp_src_indices : list Z; cp_dst_indices : list Z }.

(** [zip(strict=True)]. *)
Fixpoint zip_strict {A B} (l : list A) (k : list B) : res (list (A * B)) :=
  match l, k with
  | [], [] => Ok []
  | x :: l, y :: k => r ← zip_strict l k; Ok ((x, y) :: r)
  | _, _ => Raise (ValueError "zip() arguments have different lengths")
  end.

(** [get_kv_pages]: the source buffers come from the storage handles of the source pool. *)
Definition get_kv_pages (source_buffers : list KVBufferRegion) (destination : KVPool) (src_indices dst_indices : list Z) : res (list copy) :=
  copy_args ← zip_strict source_buffers (pl_buffers destination);
  Ok (map (λ x, mkCopy x.1 x.2 (rg_bytes_per_page x.2) src_indices dst_indices) copy_args).

(** ** What the engine checks *)
(** [send_kv_pages], up to the registration of the transfer, without the check for a
    duplicate id; [cuda_ipc] says whether the topology selects CUDA IPC. *)
Definition check_source (pools : gmap string KVPool) (source_pool_id : string) (indices : list Z) (cuda_ipc : bool)
    (target_tp_size tp_size : Z) (relay_device : string) (registered : gmap string KVPool) : res (gmap string KVPool) :=
  match pools !! source_pool_id with
  | None => Raise (KeyError "unknown source KV pool")
  | Some pool =>
      _ ← validate_page_indices indices pool;
      _ ← raise_if (negb cuda_ipc) (RuntimeError "NotImplementedError: only cuda_ipc");
      _ ← raise_if (bool_decide (target_tp_size ≠ tp_size)) (RuntimeError "NotImplementedError: matching tensor parallel sizes");
      register_kv_pool relay_device pool registered
  end.

Record KVPageDestination := mkDestination { kd_pool_id : string; kd_page_indices : list Z }.

(** What a preparation meets: a check before the allocator is called fails; [reserve]
    raises; a check of what it reserved fails; or all is well. *)
Inductive preparation :=
| PrepareRejected | PrepareUnreserved
| PrepareInvalid (d : KVPageDestination) (e : exn)
| PrepareReserved (d : KVPageDestination).

Definition check_reserved (m : KVTransferPrepareMessage) (d : KVPageDestination) (pools : gmap string KVPool)
    (relay_device : string) (registered : gmap string KVPool) : res (gmap string KVPool) :=
  _ ← raise_if (bool_decide (length (kd_page_indices d) ≠ length (kp_source_page_indices m)))
        (ValueError "KV receiver must reserve one destination page per source page");
  match pools !! kd_pool_id d with
  | None => Raise (KeyError "destination KV pool is not registered")
  | Some pool =>
      _ ← validate_page_indices (kd_page_indices d) pool;
      _ ← raise_if (negb (compatible_with (kp_source_layout m) (layout pool)))
            (ValueError "source and destination KV pool layouts do not match");
      register_kv_pool relay_device pool registered
  end.

Definition prepare_checks (m : KVTransferPrepareMessage) (cuda_ipc known_receiver : bool) (reserve : option KVPageDestination)
    (pools : gmap string KVPool) (relay_device : string) (registered : gmap string KVPool) : preparation :=
  if negb cuda_ipc || negb known_receiver then PrepareRejected
  else match reserve with
       | None => PrepareUnreserved
       | Some d => match check_reserved m d pools relay_device registered with
                   | Raise e => PrepareInvalid d e
                   | Ok _ => PrepareReserved d
                   end
       end.

(** ** Pages stay in their buffers *)
Lemma foldl_min_le x l : Forall (λ y, foldl Z.min x l ≤ y)%Z (x :: l).
Proof.
  revert x. induction l as [|z l IH]; intros x; simpl; [by repeat constructor|].
  specialize (IH (x `min` z)%Z). inversion IH as [|? ? H1 H2]; subst. repeat constructor; [lia..|done].
Qed.

Lemma foldl_max_ge x l : Forall (λ y, y ≤ foldl Z.max x l)%Z (x :: l).
Proof.
  revert x. induction l as [|z l IH]; intros x; simpl; [by repeat constructor|].
  specialize (IH (x `max` z)%Z). inversion IH as [|? ? H1 H2]; subst. repeat constructor; [lia..|done].
Qed.

(** A fold of an operation that returns one of its arguments returns an element. *)
Lemma foldl_choice {A} (op : A → A → A) x l : (∀ a b, op a b = a ∨ op a b = b) → foldl op x l ∈ x :: l.
Proof.
  intros Hop. revert x. induction l as [|y l IH]; intros x; simpl; [by left|].
  destruct (Hop x y) as [->| ->]; [|right; apply IH].
  destruct (proj1 (elem_of_cons _ _ _) (IH x)) as [->|H]; [left|right; right; exact H].
Qed.

Lemma foldM_raise_if {A} (P : A → bool) e l : foldM (λ _ x, raise_if (P x) e) l tt = Ok tt ↔ Forall (λ x, P x = false) l.
Proof.
  induction l as [|x l IH]; simpl; [split; [constructor|done]|]. rewrite Forall_cons, <- IH.
  unfold raise_if. destruct (P x); simpl; split; naive_solver.
Qed.

(** What [validate_page_indices] accepts. *)
Lemma validate_ok indices p u : validate_page_indices indices p = Ok u ↔
  indices ≠ [] ∧ Forall (λ i, 0 ≤ i)%Z indices ∧ Forall (λ r, Forall (λ i, i < page_count r)%Z indices) (pl_buffers p).
Proof.
  destruct u. unfold validate_page_indices. destruct indices as [|x l]; simpl; [naive_solver|].
  pose proof (foldl_min_le x l) as Hmin. pose proof (foldl_max_ge x l) as Hmax.
  pose proof (foldl_choice Z.min x l ltac:(lia)) as Hmem. pose proof (foldl_choice Z.max x l ltac:(lia)) as Hmem'.
  rewrite !Forall_forall in *. setoid_rewrite Forall_forall.
  unfold raise_if at 1. case_bool_decide as Hneg; simpl.
  - split; [done|]. intros (_ & Hn & _). specialize (Hn _ Hmem). lia.
  - etrans; [exact (foldM_raise_if (λ r, bool_decide (page_count r ≤ foldl Z.max x l)%Z) _ _)|].
    rewrite Forall_forall. setoid_rewrite bool_decide_eq_false. split.
    + intros H. split; [done|]. split; [intros i Hi; specialize (Hmin _ Hi); lia|].
      intros r Hr i Hi. specialize (H r Hr). specialize (Hmax _ Hi). lia.
    + intros (_ & _ & H) r Hr Hle. specialize (H r Hr _ Hmem'). lia.
Qed.

(** A region or a pool as its constructor makes it. *)
Definition made_region (r : KVBufferRegion) : Prop := ∃ n t b, new_region n t b = Ok r.
Definition made_pool (p : KVPool) : Prop := Forall made_region (pl_buffers p) ∧ ∃ a b c d, new_pool a b c d = Ok p.

Lemma region_bytes r : made_region r → (0 < rg_bytes_per_page r ∧ t_byte_length (rg_tensor r) = page_count r * rg_bytes_per_page r)%Z.
Proof.
  intros (n & t & b & H). unfold new_region in H.
  apply bind_ok in H as ([] & H0%raise_if_ok & H). apply bind_ok in H as ([] & H1%raise_if_ok & H).
  apply bind_ok in H as ([] & _ & [= <-]). bool_simpl. simpl. unfold page_count. simpl.
  split; [lia|]. apply dec_stable in H1. pose proof (Z_div_mod_eq_full (t_byte_length t) b). lia.
Qed.

(** A page of a buffer lies in the buffer's bytes. *)
Lemma page_in_bounds r i : made_region r → (0 ≤ i < page_count r)%Z →
  (0 ≤ i * rg_bytes_per_page r ∧ i * rg_bytes_per_page r + rg_bytes_per_page r ≤ t_byte_length (rg_tensor r))%Z.
Proof. intros [Hp ->]%region_bytes Hi. nia. Qed.

Lemma zip_strict_ok {A B} (l : list A) (k : list B) z : zip_strict l k = Ok z ↔ length l = length k ∧ z = zip l k.
Proof.
  revert k z. induction l as [|x l IH]; intros [|y k] z; simpl; [naive_solver..|].
  rewrite bind_ok. setoid_rewrite IH. split; [intros (a & [Hl ->] & [= <-]); auto|intros [[= Hl] ->]; eauto].
Qed.

Lemma buffers_match_elem (l k : list KVBufferRegion) x :
  buffers_match (map (λ r, mkBuffer (rg_name r) (rg_bytes_per_page r)) l) (map (λ r, mkBuffer (rg_name r) (rg_bytes_per_page r)) k) = true →
  x ∈ zip l k → rg_bytes_per_page x.1 = rg_bytes_per_page x.2.
Proof.
  revert k. induction l as [|r l IH]; intros [|s k]; simpl; [by intros _ ?%elem_of_nil..|].
  intros H. apply andb_true_iff in H as [H H3]. apply andb_true_iff in H as [H1 H2]. bool_simpl.
  intros [->|Hx]%elem_of_cons; [done|by apply (IH k)].
Qed.

Lemma compatible_layouts p q : compatible_with (layout p) (layout q) = true →
  length (pl_buffers p) = length (pl_buffers q) ∧
  ∀ x, x ∈ zip (pl_buffers p) (pl_buffers q) → rg_bytes_per_page x.1 = rg_bytes_per_page x.2.
Proof.
  unfold compatible_with. simpl. rewrite !length_map.
  destruct (_ || _); [done|]. destruct (bool_decide (length _ ≠ _)) eqn:Hl; [done|].
  apply bool_decide_eq_false, dec_stable in Hl. intros Hb. split; [done|]. intros x. by apply buffers_match_elem.
Qed.

Lemma registered_buffers dev p reg reg' : register_kv_pool dev p reg = Ok reg' →
  Forall (λ r, rg_bytes_per_page r mod 8 = 0)%Z (pl_buffers p).
Proof.
  unfold register_kv_pool. rewrite bind_ok. intros (x & _ & H). apply bind_ok in H as (? & _ & H).
  apply bind_ok in H as ([] & H & _).
  apply (foldM_raise_if (λ r, bool_decide (rg_bytes_per_page r mod 8 ≠ 0)%Z)) in H.
  eapply Forall_impl; [exact H|]. intros r Hr. simpl in Hr. bool_simpl. by apply dec_stable in Hr.
Qed.

Lemma source_checked pools id indices cuda tp tp' dev reg reg' p : pools !! id = Some p →
  check_source pools id indices cuda tp tp' dev reg = Ok reg' →
  validate_page_indices indices p = Ok tt ∧ cuda = true ∧ tp = tp'.
Proof.
  intros Hp. unfold check_source. rewrite Hp, bind_ok. intros ([] & Hv & H).
  apply bind_ok in H as (? & Hc%raise_if_ok & H). apply bind_ok in H as (? & Ht%raise_if_ok & _).
  bool_simpl. apply dec_stable in Ht. done.
Qed.

Lemma destination_checked m cuda known reserve pools dev reg d p :
  prepare_checks m cuda known reserve pools dev reg = PrepareReserved d → pools !! kd_pool_id d = Some p →
  length (kd_page_indices d) = length (kp_source_page_indices m) ∧ validate_page_indices (kd_page_indices d) p = Ok tt ∧
  compatible_with (kp_source_layout m) (layout p) = true ∧ Forall (λ r, rg_bytes_per_page r mod 8 = 0)%Z (pl_buffers p).
Proof.
  intros H Hp. unfold prepare_checks in H. case_match; [done|]. destruct reserve as [d'|]; [|done].
  destruct (check_reserved m d' pools dev reg) as [reg'|] eqn:Hc; [|done]. injection H as ->.
  unfold check_reserved in Hc. rewrite Hp in Hc.
  apply bind_ok in Hc as (? & Hl%raise_if_ok & Hc). apply bind_ok in Hc as ([] & Hv & Hc).
  apply bind_ok in Hc as (? & Hm%raise_if_ok & Hr%registered_buffers).
  bool_simpl. apply dec_stable in Hl. done.
Qed.

(** C17. A copy stays inside its buffers: when the sender's checks accept the source pages,
    and the receiver accepts the prepare message that carries the source pool's layout, the
    read raises nothing and every kernel call it makes pairs buffers of equal page size, as
    many source as destination pages, and only pages that lie in the bytes of the source and
    of the destination buffer. *)
Theorem accepted_copy_in_bounds pools_s pools_r source dest m d tp tp' dev_s dev_r reg_s reg_s' reg_r known reserve cuda :
  pools_s !! kp_source_pool_id m = Some source → made_pool source →
  check_source pools_s (kp_source_pool_id m) (kp_source_page_indices m) true tp tp' dev_s reg_s = Ok reg_s' →
  kp_source_layout m = layout source →
  prepare_checks m cuda known reserve pools_r dev_r reg_r = PrepareReserved d →
  pools_r !! kd_pool_id d = Some dest → made_pool dest →
  ∃ copies, get_kv_pages (pl_buffers source) dest (kp_source_page_indices m) (kd_page_indices d) = Ok copies ∧
    length copies = length (pl_buffers dest) ∧
    Forall (λ c, rg_bytes_per_page (cp_source c) = cp_item_size c ∧ rg_bytes_per_page (cp_target c) = cp_item_size c ∧
      (cp_item_size c mod 8 = 0)%Z ∧ length (cp_src_indices c) = length (cp_dst_indices c) ∧
      Forall (λ i, 0 ≤ i * cp_item_size c ∧ i * cp_item_size c + cp_item_size c ≤ t_byte_length (rg_tensor (cp_source c)))%Z (cp_src_indices c) ∧
      Forall (λ i, 0 ≤ i * cp_item_size c ∧ i * cp_item_size c + cp_item_size c ≤ t_byte_length (rg_tensor (cp_target c)))%Z (cp_dst_indices c)) copies.
Proof.
  intros Hs [Hregs _] Hcs Hl Hpc Hd [Hregd _].
  destruct (source_checked _ _ _ _ _ _ _ _ _ _ Hs Hcs) as (Hvs & _).
  destruct (destination_checked _ _ _ _ _ _ _ _ _ Hpc Hd) as (Hlen & Hvd & Hcomp & H8).
  rewrite Hl in Hcomp. apply compatible_layouts in Hcomp as [Hlb Hbpp].
  exists (map (λ x, mkCopy x.1 x.2 (rg_bytes_per_page x.2) (kp_source_page_indices m) (kd_page_indices d)) (zip (pl_buffers source) (pl_buffers dest))).
  split; [unfold get_kv_pages; by rewrite (proj2 (zip_strict_ok _ _ _) (conj Hlb eq_refl))|].
  split; [rewrite length_map, length_zip_with; lia|].
  apply Forall_fmap, Forall_forall. intros [r s] Hrs. simpl. pose proof (Hbpp _ Hrs) as Hb. simpl in Hb.
  pose proof (elem_of_zip_l _ _ _ _ Hrs) as Hr. pose proof (elem_of_zip_r _ _ _ _ Hrs) as Hs'.
  apply validate_ok in Hvs as (_ & Hs0 & Hs1). apply validate_ok in Hvd as (_ & Hd0 & Hd1).
  rewrite Forall_forall in Hregs, Hregd, Hs1, Hd1, H8.
  split_and!; [done..|by apply H8|done| |].
  - apply Forall_forall. intros i Hi. rewrite <- Hb. apply page_in_bounds; [by apply Hregs|].
    rewrite Forall_forall in Hs0. specialize (Hs1 r Hr). rewrite Forall_forall in Hs1. auto.
  - apply Forall_forall. intros i Hi. apply page_in_bounds; [by apply Hregd|].
    rewrite Forall_forall in Hd0. specialize (Hd1 s Hs'). rewrite Forall_forall in Hd1. auto.
Qed.

(** Two pools of two layers, and a transfer of two pages. *)
Definition demo_region (name : string) : KVBufferRegion := mkRegion name (mkTensor "cuda:0" 64 true) 16.
Definition demo_pool (id : string) : KVPool := mkPool id "mla" 4 [demo_region "l0"; demo_region "l1"].
Definition demo_prepare : KVTransferPrepareMessage :=
  mkKvPrepare "r" "t" "thinker" "talker" "src" "dst" [0; 3]%Z (layout (demo_pool "src")) [].

Lemma demo_region_made n : made_region (demo_region n).
Proof. by exists n, (mkTensor "cuda:0" 64 true), 16%Z. Qed.

Lemma demo_pool_made id : made_pool (demo_pool id).
Proof.
  split; [repeat constructor; apply demo_region_made|]. exists id, "mla", 4%Z, [demo_region "l0"; demo_region "l1"].
  unfold new_pool. by rewrite (bool_decide_false (size _ ≠ 1)) by (by vm_compute).
Qed.

Lemma accepted_copy_in_bounds_witness : ∃ copies,
  get_kv_pages (pl_buffers (demo_pool "src")) (demo_pool "dst") [0; 3]%Z [2; 1]%Z = Ok copies ∧ length copies = 2 ∧
  Forall (λ c, rg_bytes_per_page (cp_source c) = cp_item_size c ∧ rg_bytes_per_page (cp_target c) = cp_item_size c ∧
    (cp_item_size c mod 8 = 0)%Z ∧ length (cp_src_indices c) = length (cp_dst_indices c) ∧
    Forall (λ i, 0 ≤ i * cp_item_size c ∧ i * cp_item_size c + cp_item_size c ≤ t_byte_length (rg_tensor (cp_source c)))%Z (cp_src_indices c) ∧
    Forall (λ i, 0 ≤ i * cp_item_size c ∧ i * cp_item_size c + cp_item_size c ≤ t_byte_length (rg_tensor (cp_target c)))%Z (cp_dst_indices c)) copies.
Proof.
  eapply (accepted_copy_in_bounds {["src" := demo_pool "src"]} {["dst" := demo_pool "dst"]} (demo_pool "src") (demo_pool "dst") demo_prepare
    (mkDestination "dst" [2; 1]%Z) 1 1 "cuda:0" "cuda:0" ∅ {["src" := demo_pool "src"]} ∅ true (Some (mkDestination "dst" [2; 1]%Z)) true).
  - reflexivity.
  - apply demo_pool_made.
  - vm_compute. reflexivity.
  - reflexivity.
  - vm_compute. reflexivity.
  - reflexivity.
  - apply demo_pool_made.
Defined.
