(* ===== verification/KVTransfer.v ===== *)
(** * Paged KV transfer between two stages

    Models the KV path of [CommEngine] ([src/sglang_omni/comm/engine.py]): a sender that
    leases source pages, a receiver that reserves destination pages, and the messages
    between them, which may be delayed, reordered and lost.  A coroutine runs in one
    step from an await to the next; an await can also end in an exception, a timeout
    or a cancellation.  What the checks of [KVPages] say, the copy and the receiving
    stage's allocator are reduced to their outcomes.  An engine is a sender and a
    receiver; the two sides of one direction are modelled, and [cleanup] and [close]
    may hit each side at any time.  Transfer ids are fresh ([uuid4]), so at most one
    message of a kind is in flight for a transfer. *)
From S2P Require Import Prelude PyVal Proto KVPages.

(** ** The sender *)
Inductive future := FuturePending | FutureReady (success : bool) | FutureError.
Inductive ack_state := AckPending | AckDone | AckFailed.

(** Where [_watch_pending] stands. *)
Inductive watch := WWaiting | WCompleting | WFailing.

(** [_PendingTransfer]. *)
Record PendingTransfer := mkPending {
  p_ack : ack_state;
  p_task : option watch;
  p_lease : bool;
  p_retain_pending_on_failure : bool;
  p_receiver_terminal : bool;
}.

Inductive send_pc := SPreparing | SWaiting | SPutting | SPublishing | SSent | SWatching | SDone (returned : bool).

(** A call of [send_kv_pages], with whether it holds a lease. *)
Record send_task := mkSend { st_request : string; st_lease : bool; st_pc : send_pc }.

(** The attributes of the engine the sender uses; [released] records the calls of
    [release], [acked] the watches that returned. *)
Record sender := mkSender {
  _kv_ready : gmap string future;
  _outbound_kv_requests : gmap string string;
  _pending : gmap string PendingTransfer;
  _retained_pending_kv_transfers : list string;
  sends : gmap string send_task;
  released : list string;
  acked : list string;
}.

Definition sender_init : sender := mkSender ∅ ∅ ∅ [] ∅ [] [].

Definition set_ready f e := mkSender (f (_kv_ready e)) (_outbound_kv_requests e) (_pending e) (_retained_pending_kv_transfers e) (sends e) (released e) (acked e).
Definition set_outbound f e := mkSender (_kv_ready e) (f (_outbound_kv_requests e)) (_pending e) (_retained_pending_kv_transfers e) (sends e) (released e) (acked e).
Definition set_pending f e := mkSender (_kv_ready e) (_outbound_kv_requests e) (f (_pending e)) (_retained_pending_kv_transfers e) (sends e) (released e) (acked e).
Definition set_retained f e := mkSender (_kv_ready e) (_outbound_kv_requests e) (_pending e) (f (_retained_pending_kv_transfers e)) (sends e) (released e) (acked e).
Definition set_sends f e := mkSender (_kv_ready e) (_outbound_kv_requests e) (_pending e) (_retained_pending_kv_transfers e) (f (sends e)) (released e) (acked e).
Definition release_if (lease : bool) (t : string) e := mkSender (_kv_ready e) (_outbound_kv_requests e) (_pending e) (_retained_pending_kv_transfers e) (sends e) (released e ++ (if lease then [t] else [])) (acked e).
Definition set_acked t e := mkSender (_kv_ready e) (_outbound_kv_requests e) (_pending e) (_retained_pending_kv_transfers e) (sends e) (released e) (acked e ++ [t]).

Definition set_ack a p := mkPending a (p_task p) (p_lease p) (p_retain_pending_on_failure p) (p_receiver_terminal p).
Definition set_task w p := mkPending (p_ack p) w (p_lease p) (p_retain_pending_on_failure p) (p_receiver_terminal p).
Definition set_terminal p := mkPending (p_ack p) (p_task p) (p_lease p) (p_retain_pending_on_failure p) true.

Definition _register_pending (object_id : string) (lease retain : bool) (e : sender) : res sender :=
  match _pending e !! object_id with
  | Some _ => Raise (RuntimeError "duplicate pending transfer")
  | None => Ok (set_pending (<[object_id := mkPending AckPending None lease retain false]>) e)
  end.

Definition _arm_pending (object_id : string) (e : sender) : res sender :=
  match _pending e !! object_id with
  | None => Raise (KeyError object_id)
  | Some p => match p_task p with
              | Some _ => Raise (AssertionError "already armed")
              | None => Ok (set_pending (<[object_id := set_task (Some WWaiting) p]>) e)
              end
  end.

(** [_fail_pending]: the acknowledgement fails unless it is there; the watch starts. *)
Definition fail_one (p : PendingTransfer) : PendingTransfer :=
  let p := match p_ack p with AckPending => set_ack AckFailed p | _ => p end in
  match p_task p with None => set_task (Some WWaiting) p | Some _ => p end.
Definition _fail_pending (object_id : string) : sender → sender := set_pending (alter fail_one object_id).

(** The [finally] of [send_kv_pages]. *)
Definition send_finally (t : string) (lease : bool) (e : sender) : sender :=
  release_if lease t (set_outbound (delete t) (set_ready (delete t) e)).

Definition goto (t : string) (pc : send_pc) (s : send_task) : sender → sender :=
  set_sends (<[t := mkSend (st_request s) (st_lease s) pc]>).

(** The end of a call, by [return] or by an exception. *)
Definition send_end (t : string) (returned : bool) (s : send_task) (e : sender) : sender :=
  send_finally t (st_lease s) (set_sends (<[t := mkSend (st_request s) false (SDone returned)]>) e).

(** [send_kv_pages] up to its first await; [ok] says that [check_source] raises nothing. *)
Definition send_begin (t request_id : string) (lease ok : bool) (e : sender) : sender :=
  if negb ok || bool_decide (is_Some (_kv_ready e !! t)) || bool_decide (is_Some (_pending e !! t))
  then send_finally t lease e
  else set_sends (<[t := mkSend request_id lease SPreparing]>)
         (set_outbound (<[t := request_id]>) (set_ready (<[t := FuturePending]>) e)).

(** After the source is put: pending owns the lease from here. *)
Definition send_register (t : string) (s : send_task) (e : sender) : sender :=
  match _register_pending t (st_lease s) true e with
  | Raise _ => send_end t false s e
  | Ok e => set_sends (<[t := mkSend (st_request s) false SPublishing]>) e
  end.

(** After the publication: the watch is armed, unless a failure armed it meanwhile. *)
Definition send_published (t : string) (s : send_task) (e : sender) : sender :=
  match _arm_pending t e with Ok e => goto t SWatching s e | Raise _ => send_end t false s e end.

Definition send_unpublished (t : string) (s : send_task) (e : sender) : sender := send_end t false s (_fail_pending t e).

(** [_watch_pending]. *)
Definition _retain_pending_kv_transfer (object_id : string) (e : sender) : sender :=
  set_retained (λ l, l ++ [object_id]) (set_pending (delete object_id) e).

Definition watch_finally (object_id : string) (p : PendingTransfer) (e : sender) : sender :=
  release_if (p_lease p) object_id (set_pending (delete object_id) e).

(** The acknowledgement is there and the operations are told. *)
Definition watch_acked (object_id : string) (p : PendingTransfer) : sender → sender :=
  set_pending (<[object_id := set_task (Some WCompleting) p]>).

Definition watch_completed (object_id : string) (p : PendingTransfer) (e : sender) : sender :=
  set_acked object_id (watch_finally object_id p e).

Definition must_retain (p : PendingTransfer) : bool := p_retain_pending_on_failure p && negb (p_receiver_terminal p).

Definition watch_exception (object_id : string) (p : PendingTransfer) (e : sender) : sender :=
  if must_retain p then _retain_pending_kv_transfer object_id e
  else set_pending (<[object_id := set_task (Some WFailing) p]>) e.

Definition watch_cancelled (object_id : string) (p : PendingTransfer) (e : sender) : sender :=
  if must_retain p then _retain_pending_kv_transfer object_id e else watch_finally object_id p e.

Definition ack_one (success : bool) (p : PendingTransfer) : PendingTransfer :=
  let p := set_terminal p in
  match p_ack p with AckPending => set_ack (if success then AckDone else AckFailed) p | _ => p end.
Definition ack_transfer (object_id : string) (success : bool) : sender → sender :=
  set_pending (alter (ack_one success) object_id).

(** [_run_rank_control] on a ready message. *)
Definition ready_received (t : string) (success : bool) : sender → sender :=
  set_ready (alter (λ f, match f with FuturePending => FutureReady success | _ => f end) t).

Definition fail_future (f : future) : future := match f with FuturePending => FutureError | _ => f end.

(** [cleanup], the sender's part: the loop visits each transfer of the request once. *)
Definition sender_cleanup (request_id : string) (e : sender) : sender :=
  let hit t := bool_decide (_outbound_kv_requests e !! t = Some request_id) in
  set_pending (map_imap (λ t p, Some (if hit t then fail_one p else p)))
    (set_ready (map_imap (λ t f, Some (if hit t then fail_future f else f))) e).

(** [close], the sender's part: the futures that fail are those of the dictionary it clears,
    whose calls then raise. *)
Definition sender_close (e : sender) : sender :=
  set_outbound (λ _, ∅) (set_ready (λ _, ∅) (set_pending (fmap fail_one) e)).

(** ** The receiver *)
Record InboundKVTransfer := mkInbound { in_request : string; in_copy_started : bool; in_abort_error : bool }.

(** A call of [_receive_rank_kv]. *)
Inductive read_pc := RStart | RReading | RAcking (success : bool) | RDone.
#[export] Instance read_pc_eq_dec : EqDecision read_pc.
Proof. solve_decision. Defined.

(** A call of the allocator that settles: [abort] may come without a destination. *)
Inductive settled := Committed | Aborted | AbortedNothing.
#[export] Instance settled_eq_dec : EqDecision settled.
Proof. solve_decision. Defined.

(** [r_reserved] and [r_log] record the allocator's returned [reserve] calls and its
    [commit] and [abort] calls. *)
Record receiver := mkReceiver {
  _inbound_kv : gmap string InboundKVTransfer;
  _aborted_kv_requests : gset string;
  reads : gmap string (string * read_pc);
  r_reserved : list string;
  r_log : list (string * settled);
}.

Definition receiver_init : receiver := mkReceiver ∅ ∅ ∅ [] [].

Definition set_inbound f r := mkReceiver (f (_inbound_kv r)) (_aborted_kv_requests r) (reads r) (r_reserved r) (r_log r).
Definition set_aborted f r := mkReceiver (_inbound_kv r) (f (_aborted_kv_requests r)) (reads r) (r_reserved r) (r_log r).
Definition set_read t x r := mkReceiver (_inbound_kv r) (_aborted_kv_requests r) (<[t := x]> (reads r)) (r_reserved r) (r_log r).
Definition log_calls l r := mkReceiver (_inbound_kv r) (_aborted_kv_requests r) (reads r) (r_reserved r) (r_log r ++ l).
Definition reserved t r := mkReceiver (_inbound_kv r) (_aborted_kv_requests r) (reads r) (r_reserved r ++ [t]) (r_log r).

Definition aborts (ids : gset string) : list (string * settled) := map (λ t, (t, Aborted)) (elements ids).

Section receiver.
(** What is kept when the set of aborted requests overflows: [list(set)[:excess]] goes,
    in the set's own order. *)
Context (keep : gset string → gset string).

Definition mark_aborted (request_id : string) (ids : gset string) : gset string :=
  let ids := {[request_id]} ∪ ids in if bool_decide (10000 < Z.of_nat (size ids))%Z then ids ∩ keep ids else ids.

(** [p] is what [prepare_checks] says; the result is the success of the ready message. *)
Definition prepare_kv_receive (t request_id : string) (p : preparation) (r : receiver) : res (receiver * bool) :=
  match _inbound_kv r !! t with
  | Some _ => Raise (RuntimeError "duplicate inbound KV transfer")
  | None =>
      match p with
      | PrepareRejected => Ok (r, false)
      | PrepareUnreserved => Ok (log_calls [(t, AbortedNothing)] r, false)
      | PrepareInvalid _ _ => Ok (log_calls [(t, Aborted)] (reserved t r), false)
      | PrepareReserved _ => Ok (set_inbound (<[t := mkInbound request_id false false]>) (reserved t r), true)
      end
  end.

(** [_run_rank_control] on a prepare message. *)
Definition prepare_received (t request_id : string) (p : preparation) (r : receiver) : res (receiver * bool) :=
  if bool_decide (request_id ∈ _aborted_kv_requests r) then Ok (r, false) else prepare_kv_receive t request_id p r.

(** [cleanup], the receiver's part: the loop visits each transfer of the request once; a
    copy under way is told, the others are aborted. *)
Definition cleanup_drops (request_id : string) (x : string * InboundKVTransfer) : Prop :=
  in_request x.2 = request_id ∧ in_copy_started x.2 = false.
Definition tell (request_id : string) (st : InboundKVTransfer) : InboundKVTransfer :=
  if bool_decide (in_request st = request_id) then mkInbound (in_request st) (in_copy_started st) true else st.
#[local] Instance cleanup_drops_dec request_id x : Decision (cleanup_drops request_id x).
Proof. unfold cleanup_drops. apply _. Defined.

Definition receiver_cleanup (request_id : string) (r : receiver) : receiver :=
  let r := set_aborted (mark_aborted request_id) r in
  let dropped := filter (cleanup_drops request_id) (_inbound_kv r) in
  log_calls (aborts (dom dropped)) (set_inbound (λ m, tell request_id <$> (m ∖ dropped)) r).

(** The end of a read: [copied] when the copy completed and a [commit] returns.  The state
    a read holds is the entry, which only [close] removes before the read ends, and only
    after it was cancelled. *)
Definition read_end (t request_id : string) (copied : bool) (r : receiver) : receiver :=
  let abort_error := match _inbound_kv r !! t with Some st => in_abort_error st | None => false end in
  if copied && negb abort_error
  then set_read t (request_id, RAcking true) (set_inbound (delete t) (log_calls [(t, Committed)] r))
  else set_read t (request_id, RAcking false) (receiver_cleanup request_id (set_inbound (delete t) (log_calls [(t, Aborted)] r))).

(** [_receive_rank_kv] up to the copy. *)
Definition read_start (t request_id : string) (r : receiver) : receiver :=
  if bool_decide (request_id ∈ _aborted_kv_requests r) then set_read t (request_id, RAcking false) r
  else match _inbound_kv r !! t with
       | None => set_read t (request_id, RAcking false) (receiver_cleanup request_id r)
       | Some st => set_read t (request_id, RReading) (set_inbound (<[t := mkInbound (in_request st) true (in_abort_error st)]>) r)
       end.

(** A task that [close] cancels: a read aborts, and no acknowledgement is sent. *)
Definition cancel_read (t : string) (x : string * read_pc) (r : receiver) : receiver :=
  match x.2 with
  | RReading => set_read t (x.1, RDone) (set_inbound (delete t) (log_calls [(t, Aborted)] r))
  | _ => set_read t (x.1, RDone) r
  end.

(** The rest of [close], once the cancelled tasks are gathered. *)
Definition receiver_close (r : receiver) : receiver :=
  set_aborted (λ _, ∅) (set_inbound (λ _, ∅) (log_calls (aborts (dom (_inbound_kv r))) r)).
End receiver.

(** ** The two engines and the network *)
(** [y_leased] records the calls that were given a lease. *)
Record sys := mkSys {
  y_snd : sender;
  y_rcv : receiver;
  y_prepare : gmap string string;
  y_ready : gmap string bool;
  y_data : gmap string string;
  y_ack : gmap string bool;
  y_closing : bool;
  y_leased : gset string;
}.

Definition sys_init : sys := mkSys sender_init receiver_init ∅ ∅ ∅ ∅ false ∅.

Definition with_snd f y := mkSys (f (y_snd y)) (y_rcv y) (y_prepare y) (y_ready y) (y_data y) (y_ack y) (y_closing y) (y_leased y).
Definition with_rcv f y := mkSys (y_snd y) (f (y_rcv y)) (y_prepare y) (y_ready y) (y_data y) (y_ack y) (y_closing y) (y_leased y).
Definition with_prepare f y := mkSys (y_snd y) (y_rcv y) (f (y_prepare y)) (y_ready y) (y_data y) (y_ack y) (y_closing y) (y_leased y).
Definition with_ready f y := mkSys (y_snd y) (y_rcv y) (y_prepare y) (f (y_ready y)) (y_data y) (y_ack y) (y_closing y) (y_leased y).
Definition with_data f y := mkSys (y_snd y) (y_rcv y) (y_prepare y) (y_ready y) (f (y_data y)) (y_ack y) (y_closing y) (y_leased y).
Definition with_ack f y := mkSys (y_snd y) (y_rcv y) (y_prepare y) (y_ready y) (y_data y) (f (y_ack y)) (y_closing y) (y_leased y).
Definition with_closing y := mkSys (y_snd y) (y_rcv y) (y_prepare y) (y_ready y) (y_data y) (y_ack y) true (y_leased y).
Definition with_leased (lease : bool) t y := mkSys (y_snd y) (y_rcv y) (y_prepare y) (y_ready y) (y_data y) (y_ack y) (y_closing y)
  (if lease then {[t]} ∪ y_leased y else y_leased y).

Definition fresh (t : string) (y : sys) : Prop := sends (y_snd y) !! t = None ∧ t ∉ released (y_snd y) ∧ t ∉ y_leased y.

(** Where an exception can end a call that has not registered its transfer. *)
Definition early (pc : send_pc) : bool := match pc with SPreparing | SWaiting | SPutting => true | _ => false end.

Inductive kstep (keep : gset string → gset string) (y : sys) : sys → Prop :=
| k_begin t request_id lease ok : fresh t y →
    kstep keep y (with_leased lease t (with_snd (send_begin t request_id lease ok) y))
| k_prepare t s : sends (y_snd y) !! t = Some s → st_pc s = SPreparing →
    kstep keep y (with_prepare (<[t := st_request s]>) (with_snd (goto t SWaiting s) y))
| k_ready t s : sends (y_snd y) !! t = Some s → st_pc s = SWaiting → _kv_ready (y_snd y) !! t = Some (FutureReady true) →
    kstep keep y (with_snd (goto t SPutting s) y)
| k_raise t s : sends (y_snd y) !! t = Some s → early (st_pc s) = true →
    kstep keep y (with_snd (send_end t false s) y)
| k_register t s : sends (y_snd y) !! t = Some s → st_pc s = SPutting →
    kstep keep y (with_snd (send_register t s) y)
| k_publish t s : sends (y_snd y) !! t = Some s → st_pc s = SPublishing →
    kstep keep y (with_data (<[t := st_request s]>) (with_snd (goto t SSent s) y))
| k_published t s : sends (y_snd y) !! t = Some s → st_pc s = SSent →
    kstep keep y (with_snd (send_published t s) y)
| k_unpublished t s : sends (y_snd y) !! t = Some s → st_pc s = SPublishing ∨ st_pc s = SSent →
    kstep keep y (with_snd (send_unpublished t s) y)
| k_return t s : sends (y_snd y) !! t = Some s → st_pc s = SWatching → t ∈ acked (y_snd y) →
    kstep keep y (with_snd (send_end t true s) y)
| k_watch_raise t s : sends (y_snd y) !! t = Some s → st_pc s = SWatching →
    kstep keep y (with_snd (send_end t false s) y)
| k_acked t p : _pending (y_snd y) !! t = Some p → p_task p = Some WWaiting → p_ack p = AckDone →
    kstep keep y (with_snd (watch_acked t p) y)
| k_completed t p : _pending (y_snd y) !! t = Some p → p_task p = Some WCompleting →
    kstep keep y (with_snd (watch_completed t p) y)
| k_exception t p : _pending (y_snd y) !! t = Some p → p_task p = Some WWaiting ∨ p_task p = Some WCompleting →
    kstep keep y (with_snd (watch_exception t p) y)
| k_failed t p : _pending (y_snd y) !! t = Some p → p_task p = Some WFailing →
    kstep keep y (with_snd (watch_finally t p) y)
| k_cancelled t p : _pending (y_snd y) !! t = Some p → is_Some (p_task p) →
    kstep keep y (with_snd (watch_cancelled t p) y)
| k_snd_cleanup request_id : kstep keep y (with_snd (sender_cleanup request_id) y)
| k_snd_close : kstep keep y (with_snd sender_close y)
| k_recv_prepare t request_id p r' ok : y_prepare y !! t = Some request_id → y_closing y = false →
    prepare_received t request_id p (y_rcv y) = Ok (r', ok) →
    kstep keep y (with_ready (<[t := ok]>) (with_prepare (delete t) (with_rcv (λ _, r') y)))
| k_recv_ready t ok : y_ready y !! t = Some ok →
    kstep keep y (with_ready (delete t) (with_snd (ready_received t ok) y))
| k_recv_data t request_id : y_data y !! t = Some request_id → y_closing y = false →
    kstep keep y (with_data (delete t) (with_rcv (set_read t (request_id, RStart)) y))
| k_recv_ack t ok : y_ack y !! t = Some ok →
    kstep keep y (with_ack (delete t) (with_snd (ack_transfer t ok) y))
| k_lose t : kstep keep y (with_prepare (delete t) (with_ready (delete t) y))
| k_lose_data t : kstep keep y (with_data (delete t) y)
| k_lose_ack t : kstep keep y (with_ack (delete t) y)
| k_start t request_id : reads (y_rcv y) !! t = Some (request_id, RStart) →
    kstep keep y (with_rcv (read_start keep t request_id) y)
| k_end t request_id copied : reads (y_rcv y) !! t = Some (request_id, RReading) →
    kstep keep y (with_rcv (read_end keep t request_id copied) y)
| k_send_ack t request_id ok : reads (y_rcv y) !! t = Some (request_id, RAcking ok) →
    kstep keep y (with_ack (<[t := ok]>) (with_rcv (set_read t (request_id, RDone)) y))
| k_ack_fails t request_id ok : reads (y_rcv y) !! t = Some (request_id, RAcking ok) →
    kstep keep y (with_rcv (set_read t (request_id, RDone)) y)
| k_rcv_cleanup request_id : kstep keep y (with_rcv (receiver_cleanup keep request_id) y)
| k_close_begin : kstep keep y (with_closing y)
| k_cancel_read t x : y_closing y = true → reads (y_rcv y) !! t = Some x →
    kstep keep y (with_rcv (cancel_read t x) y)
| k_close_end : y_closing y = true → (∀ t x, reads (y_rcv y) !! t = Some x → x.2 = RDone) →
    kstep keep y (with_rcv receiver_close y).

(** ** What holds of one transfer *)
Definition done_read (R : option (string * read_pc)) : Prop := match R with Some (_, RDone) => True | _ => False end.

(** Nothing of the transfer has reached the receiver's copy. *)
Definition unexposed (D : option string) (R : option (string * read_pc)) (A : option bool) : Prop := D = None ∧ R = None ∧ A = None.
(** The receiver is done with the transfer. *)
Definition over (D : option string) (R : option (string * read_pc)) (A : option bool) : Prop := D = None ∧ done_read R ∧ A = None.

Record ok (S : option send_task) (P : option PendingTransfer) (D : option string) (R : option (string * read_pc)) (A : option bool)
    (rel ret ack com leased : bool) : Prop := mkOk {
  ok_none : S = None → unexposed D R A ∧ P = None ∧ ret = false ∧ ack = false;
  ok_early s : S = Some s → early (st_pc s) = true → unexposed D R A ∧ P = None ∧ rel = false ∧ ret = false ∧ ack = false;
  ok_publishing s : S = Some s → st_pc s = SPublishing → unexposed D R A ∧ rel = false ∧ ack = false;
  ok_late s : S = Some s → early (st_pc s) = false → st_lease s = false;
  ok_pending p : P = Some p → rel = false ∧ ret = false ∧ ack = false ∧ p_retain_pending_on_failure p = true ∧
    (p_receiver_terminal p = true → over D R A) ∧ (p_ack p = AckDone → p_receiver_terminal p = true ∧ com = true) ∧
    (p_task p = Some WFailing → p_receiver_terminal p = true) ∧ (p_task p = Some WCompleting → p_ack p = AckDone) ∧
    (p_task p = None → ∃ s, S = Some s ∧ (st_pc s = SPublishing ∨ st_pc s = SSent));
  ok_data : is_Some D → R = None ∧ A = None;
  ok_acks : is_Some A → done_read R;
  ok_released : rel = true → P = None ∧ ret = false ∧ (over D R A ∨ unexposed D R A ∧ match S with Some s => ∃ b, st_pc s = SDone b | None => True end);
  ok_retained : ret = true → P = None;
  ok_acked : ack = true → over D R A;
  ok_committed : (A = Some true → com = true) ∧ (∀ req, R = Some (req, RAcking true) → com = true) ∧ (ack = true → com = true) ∧
    (∀ s, S = Some s → st_pc s = SDone true → com = true);
  ok_leased : leased = true → rel = true ∨ ret = true ∨ (∃ s, S = Some s ∧ st_lease s = true) ∨ (∃ p, P = Some p ∧ p_lease p = true);
}.

Definition in_list (t : string) (l : list string) : bool := bool_decide (t ∈ l).
Definition committed (t : string) (l : list (string * settled)) : bool := bool_decide ((t, Committed) ∈ l).
Definition tracked (y : sys) (t : string) : Prop :=
  ok (sends (y_snd y) !! t) (_pending (y_snd y) !! t) (y_data y !! t) (reads (y_rcv y) !! t) (y_ack y !! t)
    (in_list t (released (y_snd y))) (in_list t (_retained_pending_kv_transfers (y_snd y))) (in_list t (acked (y_snd y)))
    (committed t (r_log (y_rcv y))) (bool_decide (t ∈ y_leased y)).

Lemma bool_decide_app {A} `{EqDecision A} (x : A) l k :
  bool_decide (x ∈ l ++ k) = bool_decide (x ∈ l) || bool_decide (x ∈ k).
Proof. rewrite <- bool_decide_or. apply bool_decide_ext, elem_of_app. Qed.

Lemma in_list_app t l k : in_list t (l ++ k) = in_list t l || in_list t k.
Proof. apply bool_decide_app. Qed.
Lemma in_list_one t t' : in_list t [t'] = bool_decide (t = t').
Proof. apply bool_decide_ext, list_elem_of_singleton. Qed.
Lemma in_list_if t t' (b : bool) : in_list t (if b then [t'] else []) = b && bool_decide (t = t').
Proof. destruct b; [apply in_list_one|done]. Qed.
Lemma committed_app t l k : committed t (l ++ k) = committed t l || committed t k.
Proof. apply bool_decide_app. Qed.
Lemma committed_one t t' c : committed t [(t', c)] = bool_decide (t = t') && bool_decide (c = Committed).
Proof. rewrite <- bool_decide_and. apply bool_decide_ext. rewrite list_elem_of_singleton. naive_solver. Qed.
Lemma committed_aborts t X : committed t (aborts X) = false.
Proof. apply bool_decide_false. unfold aborts. intros (? & [=] & _)%list_elem_of_fmap. Qed.

Create Rewrite HintDb kv.
#[local] Hint Rewrite in_list_app in_list_one in_list_if committed_app committed_one committed_aborts
  orb_false_r andb_false_r andb_true_r orb_true_r andb_false_l andb_true_l : kv.

(** A step on transfer [t0] seen from transfer [t]. *)
Ltac seen_from t0 t :=
  destruct (decide (t = t0)) as [->|?]; autorewrite with kv;
  [rewrite ?lookup_insert_eq, ?lookup_delete_eq, ?lookup_alter_eq; rewrite ?(bool_decide_true (t0 = t0)) by done|
   rewrite ?(bool_decide_false (t = t0)) by done; rewrite ?lookup_insert_ne, ?lookup_delete_ne, ?lookup_alter_ne by done];
  autorewrite with kv.

Lemma tracked_init t : tracked sys_init t.
Proof. split; try done. by intros [? [=]]. Qed.

Arguments ok_none {_ _ _ _ _ _ _ _ _ _}.
Arguments ok_early {_ _ _ _ _ _ _ _ _ _}.
Arguments ok_publishing {_ _ _ _ _ _ _ _ _ _}.
Arguments ok_late {_ _ _ _ _ _ _ _ _ _}.
Arguments ok_pending {_ _ _ _ _ _ _ _ _ _}.
Arguments ok_data {_ _ _ _ _ _ _ _ _ _}.
Arguments ok_acks {_ _ _ _ _ _ _ _ _ _}.
Arguments ok_released {_ _ _ _ _ _ _ _ _ _}.
Arguments ok_retained {_ _ _ _ _ _ _ _ _ _}.
Arguments ok_acked {_ _ _ _ _ _ _ _ _ _}.
Arguments ok_committed {_ _ _ _ _ _ _ _ _ _}.
Arguments ok_leased {_ _ _ _ _ _ _ _ _ _}.

(** ** How one transfer moves *)
Lemma over_exposed D R A : over D R A → unexposed D R A → False.
Proof. by intros (_ & HR & _) (_ & -> & _). Qed.

Lemma ok_none_intro rel com L : (L = true → rel = true) → ok None None None None None rel false false com L.
Proof. intros HL. split; try done; [by intros _; split_and!; [..|right]|auto]. Qed.

Lemma ok_early_intro s com L : early (st_pc s) = true → (L = true → st_lease s = true) →
  ok (Some s) None None None None false false false com L.
Proof.
  intros He HL. split; try done.
  - intros s' [= <-]. by rewrite He.
  - split_and!; try done. intros s' [= <-] Hpc. by rewrite Hpc in He.
  - intros HLt. do 2 right. left. eauto.
Qed.

Lemma ok_early_inv s P D R A rel ret ack com L : ok (Some s) P D R A rel ret ack com L → early (st_pc s) = true →
  P = None ∧ D = None ∧ R = None ∧ A = None ∧ rel = false ∧ ret = false ∧ ack = false ∧ (L = true → st_lease s = true).
Proof.
  intros H He. destruct (ok_early H s eq_refl He) as ((-> & -> & ->) & -> & -> & -> & ->). split_and!; try done.
  intros HL. destruct (ok_leased H HL) as [?|[?|[(? & [= <-] & ?)|(? & [=] & ?)]]]; done.
Qed.

Lemma ok_raised s rel com L : st_lease s = false → st_pc s = SDone false → (L = true → rel = true) →
  ok (Some s) None None None None rel false false com L.
Proof.
  intros Hl Hpc HL. split; try done; rewrite ?Hpc.
  - intros s' [= <-]. by rewrite Hpc.
  - intros s' [= <-]. by rewrite Hpc.
  - by intros s' [= <-].
  - intros _. split_and!; try done. right. split; [done|]. by exists false.
  - split_and!; try done. intros s' [= <-]. by rewrite Hpc.
  - intros HLt. left. auto.
Qed.

Lemma ok_register s com L req : early (st_pc s) = true → (L = true → st_lease s = true) →
  ok (Some (mkSend req false SPublishing)) (Some (mkPending AckPending None (st_lease s) true false)) None None None false false false com L.
Proof.
  intros He HL. split; try done.
  - by intros s' [= <-].
  - by intros p [= <-].
  - intros p [= <-]. split_and!; try done. eauto.
  - split_and!; try done. by intros s' [= <-].
  - intros HLt. do 3 right. eauto.
Qed.

(** The call moves on after the registration. *)
Lemma ok_goto s s' P D R A rel ret ack com L : ok (Some s) P D R A rel ret ack com L →
  early (st_pc s) = false → (∀ b, st_pc s ≠ SDone b) → early (st_pc s') = false → st_pc s' ≠ SPublishing → st_lease s' = false →
  (st_pc s' = SDone true → ack = true) → (∀ p, P = Some p → p_task p = None → st_pc s' = SSent) →
  ok (Some s') P D R A rel ret ack com L.
Proof.
  intros H He Hnd He' Hnp Hl Hack Htask. split; try apply H; try done.
  - intros ? [= <-]. congruence.
  - intros ? [= <-]. done.
  - by intros ? [= <-].
  - intros p Hp. destruct (ok_pending H p Hp) as (? & ? & ? & ? & ? & ? & ? & ? & ?). split_and!; try done. eauto.
  - intros Hr. destruct (ok_released H Hr) as (? & ? & [?|[? (b & Hb)]]); [auto|]. by destruct (Hnd b).
  - destruct (ok_committed H) as (? & ? & ? & _). split_and!; try done. intros ? [= <-] ?. auto.
  - intros HL. destruct (ok_leased H HL) as [?|[?|[(? & [= <-] & ?)|?]]]; auto.
    pose proof (ok_late H s eq_refl He). congruence.
Qed.

Lemma ok_publish s P D R A rel ret ack com L req : ok (Some s) P D R A rel ret ack com L → st_pc s = SPublishing →
  ok (Some (mkSend req (st_lease s) SSent)) P (Some req) R A rel ret ack com L.
Proof.
  intros H Hpc. destruct (ok_publishing H s eq_refl Hpc) as ((-> & -> & ->) & -> & ->).
  assert (Hl : st_lease s = false) by (apply (ok_late H s eq_refl); by rewrite Hpc). split; try done.
  - by intros ? [= <-].
  - by intros ? [= <-].
  - by intros ? [= <-].
  - intros p Hp. destruct (ok_pending H p Hp) as (? & ? & ? & ? & Ht & ? & ? & ? & ?). split_and!; try done; [|eauto].
    intros Hterm. by destruct (Ht Hterm) as (_ & [] & _).
  - apply H.
  - split_and!; try done. by intros ? [= <-].
  - intros HL. destruct (ok_leased H HL) as [?|[?|[(? & [= <-] & ?)|?]]]; auto. congruence.
Qed.

(** The pending entry changes. *)
Lemma ok_update p p' S D R A rel ret ack com L : ok S (Some p) D R A rel ret ack com L →
  p_lease p' = p_lease p → p_retain_pending_on_failure p' = p_retain_pending_on_failure p →
  (p_receiver_terminal p' = true → p_receiver_terminal p = true ∨ over D R A) →
  (p_ack p' = AckDone → p_receiver_terminal p' = true ∧ com = true) →
  (p_task p' = Some WFailing → p_receiver_terminal p' = true) → (p_task p' = Some WCompleting → p_ack p' = AckDone) →
  (p_task p' = None → p_task p = None) → ok S (Some p') D R A rel ret ack com L.
Proof.
  intros H Hl Hr Ht Ha Hf Hc Hn. destruct (ok_pending H p eq_refl) as (-> & -> & -> & ? & Ht' & ? & ? & ? & ?). split; try done.
  - intros HS. by destruct (ok_none H HS) as (_ & [=] & _).
  - intros s HS He. by destruct (ok_early H s HS He) as (_ & [=] & _).
  - apply H.
  - apply H.
  - intros q [= <-]. split_and!; try done; [congruence| |auto].
    intros Hq. destruct (Ht Hq) as [?|?]; auto.
  - apply H.
  - apply H.
  - apply H.
  - intros HL. destruct (ok_leased H HL) as [?|[?|[?|(? & [= <-] & ?)]]]; auto. do 3 right. exists p'. split; congruence.
Qed.

(** The pending entry goes: kept for ever, or released once the receiver is done. *)
Lemma ok_retain p S D R A rel ret ack com L : ok S (Some p) D R A rel ret ack com L →
  ok S None D R A rel true ack com L.
Proof.
  intros H. destruct (ok_pending H p eq_refl) as (-> & -> & -> & ?). split; try done; try apply H.
  - intros HS. by destruct (ok_none H HS) as (_ & [=] & _).
  - intros s HS He. by destruct (ok_early H s HS He) as (_ & [=] & _).
  - intros HL. auto.
Qed.

Lemma ok_drop p S D R A rel ret ack ack' com L : ok S (Some p) D R A rel ret ack com L → over D R A →
  (ack' = true → com = true) → ok S None D R A (rel || p_lease p) ret ack' com L.
Proof.
  intros H Ho Hack. destruct (ok_pending H p eq_refl) as (-> & -> & -> & ?). split; try done; try apply H.
  - intros HS. by destruct (ok_none H HS) as (_ & [=] & _).
  - intros s HS He. by destruct (ok_early H s HS He) as (_ & [=] & _).
  - intros s HS Hpc. by destruct (over_exposed D R A Ho (proj1 (ok_publishing H s HS Hpc))).
  - intros _. auto.
  - destruct (ok_committed H) as (? & ? & _ & ?). done.
  - intros HL. simpl. destruct (ok_leased H HL) as [?|[?|[(s & HS & Hs)|(? & [= <-] & ?)]]]; auto.
    do 2 right. left. exists s. auto.
Qed.

(** The receiver and the network move. *)
Definition net_ok (D : option string) (R : option (string * read_pc)) (A : option bool) (com : bool) : Prop :=
  (is_Some D → R = None ∧ A = None) ∧ (is_Some A → done_read R) ∧ (A = Some true → com = true) ∧
  ∀ req, R = Some (req, RAcking true) → com = true.

Lemma ok_net S P D R A D' R' A' rel ret ack com com' L : ok S P D R A rel ret ack com L →
  (unexposed D R A → unexposed D' R' A') → (over D R A → over D' R' A') → (com = true → com' = true) →
  net_ok D' R' A' com' → ok S P D' R' A' rel ret ack com' L.
Proof.
  intros H Hu Ho Hc (Hd & Ha & Hac & Hrc). split; try done; try apply H.
  - intros HS. destruct (ok_none H HS) as (? & ? & ? & ?). auto.
  - intros s HS He. destruct (ok_early H s HS He) as (? & ?). auto.
  - intros s HS Hpc. destruct (ok_publishing H s HS Hpc) as (? & ?). auto.
  - intros p Hp. destruct (ok_pending H p Hp) as (? & ? & ? & ? & ? & Hack & ? & ? & ?). split_and!; auto.
    intros Hp'. destruct (Hack Hp'). auto.
  - intros Hr. destruct (ok_released H Hr) as (? & ? & [?|[? ?]]); split_and!; auto.
  - intros Hack. apply Ho, H, Hack.
  - destruct (ok_committed H) as (_ & _ & ? & ?). split_and!; eauto.
Qed.

Lemma ok_net_ok {S P D R A rel ret ack com L} : ok S P D R A rel ret ack com L → net_ok D R A com.
Proof. intros H. destruct (ok_committed H) as (? & ? & _). split_and!; try done; apply H. Qed.

Lemma leased_with (lease : bool) t t0 (X : gset string) :
  bool_decide (t ∈ (if lease then {[t0]} ∪ X else X)) = lease && bool_decide (t = t0) || bool_decide (t ∈ X).
Proof.
  destruct lease; [|done]. simpl. rewrite <- bool_decide_or. apply bool_decide_ext.
  by rewrite elem_of_union, elem_of_singleton.
Qed.

Lemma fail_one_pending S p D R A rel ret ack com L : ok S (Some p) D R A rel ret ack com L →
  ok S (Some (fail_one p)) D R A rel ret ack com L ∧ p_task (fail_one p) ≠ None.
Proof.
  intros H. destruct (ok_pending H p eq_refl) as (_ & _ & _ & _ & _ & Hd & Hf & Hc & _).
  destruct p as [a w l r te]; simpl in *. split; [|by destruct a, w].
  eapply ok_update; [exact H|..]; destruct a, w; simpl; auto; try done; intros [=]; subst; by specialize (Hc eq_refl).
Qed.

Lemma fail_pending_ok S P D R A rel ret ack com L : ok S P D R A rel ret ack com L →
  ok S (fail_one <$> P) D R A rel ret ack com L ∧ ∀ p, fail_one <$> P = Some p → p_task p ≠ None.
Proof.
  destruct P as [p|]; simpl; [|done]. intros [? ?]%fail_one_pending. split; [done|]. by intros ? [= <-].
Qed.

Section steps.
Context (keep : gset string → gset string).

(** The receiver's steps, on the entry of the transfer and its log. *)
Lemma receiver_reads_cleanup req r : reads (receiver_cleanup keep req r) = reads r.
Proof. done. Qed.
Lemma receiver_committed_cleanup t req r : committed t (r_log (receiver_cleanup keep req r)) = committed t (r_log r).
Proof. unfold receiver_cleanup. simpl. by autorewrite with kv. Qed.

Lemma prepare_received_view t t0 req p r r' okp : prepare_received t0 req p r = Ok (r', okp) →
  reads r' = reads r ∧ committed t (r_log r') = committed t (r_log r).
Proof.
  unfold prepare_received, prepare_kv_receive. intros H. break_match; autorewrite with kv; done.
Qed.

Lemma tracked_begin y t0 req lease b t : tracked y t → fresh t0 y →
  tracked (with_leased lease t0 (with_snd (send_begin t0 req lease b) y)) t.
Proof.
  intros H (Hs & Hr & Hl). unfold tracked in *. simpl. rewrite leased_with.
  unfold send_begin. destruct (_ || _); simpl.
  - seen_from t0 t; [|exact H]. rewrite Hs in *. destruct (ok_none H eq_refl) as ((-> & -> & ->) & -> & -> & ->).
    apply ok_none_intro. rewrite (bool_decide_false (t0 ∈ y_leased y)) by done. rewrite orb_false_r. intros ->. apply orb_true_r.
  - seen_from t0 t; [|exact H]. rewrite Hs in *. destruct (ok_none H eq_refl) as ((-> & -> & ->) & -> & -> & ->).
    unfold in_list. rewrite (bool_decide_false (t0 ∈ released _)) by done.
    apply ok_early_intro; [done|]. simpl. rewrite (bool_decide_false (t0 ∈ y_leased y)) by done. by rewrite orb_false_r.
Qed.

Lemma tracked_send_end y t0 s b t : (∀ t, tracked y t) → sends (y_snd y) !! t0 = Some s →
  early (st_pc s) = true ∧ b = false ∨
  (st_pc s = SWatching ∨ st_pc s = SSent ∨ st_pc s = SPublishing) ∧ (b = true → t0 ∈ acked (y_snd y)) ∧
    (∀ p, _pending (y_snd y) !! t0 = Some p → p_task p ≠ None) →
  tracked (with_snd (send_end t0 b s) y) t.
Proof.
  intros Hall Hk Hcase. pose proof (Hall t) as H. unfold tracked in *. unfold send_end, send_finally. simpl.
  seen_from t0 t; [|exact H]. rewrite Hk in H. destruct Hcase as [[He ->]|(Hpc & Hb & Hw)].
  - destruct (ok_early_inv _ _ _ _ _ _ _ _ _ _ H He) as (-> & -> & -> & -> & -> & -> & -> & HL).
    by apply ok_raised.
  - rewrite (ok_late H s eq_refl) by (by destruct Hpc as [->|[->| ->]]). rewrite orb_false_r.
    eapply ok_goto; [exact H|..]; simpl; try done.
    + by destruct Hpc as [->|[->| ->]].
    + by destruct Hpc as [->|[->| ->]].
    + intros [= ->]. by apply bool_decide_true, Hb.
    + intros p Hp Hn. by destruct (Hw p Hp).
Qed.
End steps.

(** ** Every step keeps every transfer tracked *)
Lemma with_snd_ext f g y : f (y_snd y) = g (y_snd y) → with_snd f y = with_snd g y.
Proof. unfold with_snd. by intros ->. Qed.

Section sender_steps.
Context (y : sys) (Hall : ∀ t, tracked y t).

(** A step that changes the pending entry of [t0] only. *)
Lemma tracked_update t0 p p' t : _pending (y_snd y) !! t0 = Some p →
  (∀ S D R A rel ret ack com L, ok S (Some p) D R A rel ret ack com L → ok S (Some p') D R A rel ret ack com L) →
  tracked (with_snd (set_pending (<[t0 := p']>)) y) t.
Proof.
  intros Hk Hp. pose proof (Hall t) as H. unfold tracked in *. simpl. seen_from t0 t; [|exact H].
  rewrite Hk in H. by apply Hp.
Qed.

Lemma tracked_retain t0 p t : _pending (y_snd y) !! t0 = Some p → tracked (with_snd (_retain_pending_kv_transfer t0) y) t.
Proof.
  intros Hk. pose proof (Hall t) as H. unfold tracked in *. simpl. seen_from t0 t; [|exact H].
  rewrite Hk in H. by eapply ok_retain.
Qed.

Lemma tracked_finally t0 p t : _pending (y_snd y) !! t0 = Some p →
  (∀ S D R A rel ret ack com L, ok S (Some p) D R A rel ret ack com L → over D R A) →
  tracked (with_snd (watch_finally t0 p) y) t.
Proof.
  intros Hk Ho. pose proof (Hall t) as H. unfold tracked in *. simpl. seen_from t0 t; [|exact H].
  rewrite Hk in H. eapply ok_drop; [exact H|by eapply Ho|]. apply (ok_committed H).
Qed.

Lemma tracked_completed t0 p t : _pending (y_snd y) !! t0 = Some p → p_task p = Some WCompleting →
  tracked (with_snd (watch_completed t0 p) y) t.
Proof.
  intros Hk Ht. pose proof (Hall t) as H. unfold tracked in *. simpl. seen_from t0 t; [|exact H].
  rewrite Hk in H. destruct (ok_pending H p eq_refl) as (_ & _ & _ & _ & Hov & Hd & _ & Hc & _).
  destruct (Hd (Hc Ht)) as [Hterm Hcom]. eapply ok_drop; [exact H|auto|done].
Qed.

Lemma tracked_exception t0 p t : _pending (y_snd y) !! t0 = Some p →
  p_task p = Some WWaiting ∨ p_task p = Some WCompleting → tracked (with_snd (watch_exception t0 p) y) t.
Proof.
  intros Hk Ht. unfold watch_exception. destruct (must_retain p) eqn:Hm; [by eapply tracked_retain|].
  apply (tracked_update t0 p); [done|]. intros S D R A rel ret ack com L H.
  destruct (ok_pending H p eq_refl) as (_ & _ & _ & Hr & Hov & Hd & _ & _ & _).
  unfold must_retain in Hm. rewrite Hr in Hm. simpl in Hm. apply negb_false_iff in Hm.
  eapply ok_update; [exact H|..]; simpl; auto; done.
Qed.

Lemma tracked_cancelled t0 p t : _pending (y_snd y) !! t0 = Some p → tracked (with_snd (watch_cancelled t0 p) y) t.
Proof.
  intros Hk. unfold watch_cancelled. destruct (must_retain p) eqn:Hm; [by eapply tracked_retain|].
  apply tracked_finally; [done|]. intros S D R A rel ret ack com L H.
  destruct (ok_pending H p eq_refl) as (_ & _ & _ & Hr & Hov & _).
  unfold must_retain in Hm. rewrite Hr in Hm. simpl in Hm. apply negb_false_iff in Hm. auto.
Qed.

(** [_fail_pending] and its loops. *)
Lemma tracked_fail (hit : string → bool) f t :
  tracked (with_snd (λ e, set_pending (map_imap (λ t p, Some (if hit t then fail_one p else p))) (set_ready f e)) y) t.
Proof.
  pose proof (Hall t) as H. unfold tracked in *. simpl. rewrite map_lookup_imap.
  destruct (_pending (y_snd y) !! t) as [p|]; simpl; [|exact H].
  destruct (hit t); [|exact H]. by apply fail_one_pending.
Qed.

Lemma tracked_fail_pending t0 t : tracked (with_snd (_fail_pending t0) y) t.
Proof.
  pose proof (Hall t) as H. unfold tracked in *. simpl. destruct (decide (t = t0)) as [->|Hne].
  - rewrite lookup_alter_eq. by apply fail_pending_ok.
  - by rewrite lookup_alter_ne by done.
Qed.

Lemma tracked_close t : tracked (with_snd sender_close y) t.
Proof.
  pose proof (Hall t) as H. unfold tracked in *. simpl. rewrite lookup_fmap. by apply fail_pending_ok.
Qed.

Lemma tracked_register t0 s t : sends (y_snd y) !! t0 = Some s → st_pc s = SPutting → tracked (with_snd (send_register t0 s) y) t.
Proof.
  intros Hk Hpc. pose proof (ok_early_inv _ _ _ _ _ _ _ _ _ _ ltac:(pose proof (Hall t0) as H0; unfold tracked in H0; rewrite Hk in H0; exact H0)
    ltac:(by rewrite Hpc)) as (HP & HD & HR & HA & Hrel & Hret & Hack & HL).
  unfold send_register, _register_pending. pose proof (Hall t) as H. unfold tracked in *. simpl. rewrite HP. simpl.
  seen_from t0 t; [|exact H]. rewrite HD, HR, HA, Hrel, Hret, Hack. apply ok_register; [by rewrite Hpc|done].
Qed.

Lemma tracked_goto t0 s pc t : sends (y_snd y) !! t0 = Some s → early (st_pc s) = true → early pc = true →
  tracked (with_snd (goto t0 pc s) y) t.
Proof.
  intros Hk He He'. pose proof (Hall t) as H. unfold tracked in *. simpl. seen_from t0 t; [|exact H]. rewrite Hk in H.
  destruct (ok_early_inv _ _ _ _ _ _ _ _ _ _ H He) as (-> & -> & -> & -> & -> & -> & -> & HL). by apply ok_early_intro.
Qed.

Lemma tracked_published t0 s t : sends (y_snd y) !! t0 = Some s → st_pc s = SSent → tracked (with_snd (send_published t0 s) y) t.
Proof.
  intros Hk Hpc.
  assert (Hend : (∀ p, _pending (y_snd y) !! t0 = Some p → p_task p ≠ None) → tracked (with_snd (send_end t0 false s) y) t).
  { intros Hp. eapply tracked_send_end; eauto. right. split_and!; [auto|done|done]. }
  destruct (_pending (y_snd y) !! t0) as [p|] eqn:HP.
  2: { rewrite (with_snd_ext _ (send_end t0 false s)); [by apply Hend|]. unfold send_published, _arm_pending. by rewrite HP. }
  destruct (p_task p) as [w|] eqn:Hw.
  { rewrite (with_snd_ext _ (send_end t0 false s)); [apply Hend; intros ? [= <-]; by rewrite Hw|].
    unfold send_published, _arm_pending. by rewrite HP, Hw. }
  rewrite (with_snd_ext _ (λ e, goto t0 SWatching s (set_pending (<[t0 := set_task (Some WWaiting) p]>) e)))
    by (unfold send_published, _arm_pending; by rewrite HP, Hw).
  pose proof (Hall t) as H. unfold tracked in *. simpl. seen_from t0 t; [|exact H].
  rewrite Hk, HP in H. pose proof (ok_late H s eq_refl ltac:(by rewrite Hpc)) as Hl.
  destruct (ok_pending H p eq_refl) as (_ & _ & _ & _ & _ & Hd & _).
  eapply ok_goto; [eapply (ok_update _ (set_task (Some WWaiting) p)); [exact H|..]; simpl; auto; done|..]; rewrite ?Hpc; simpl; try done.
  by intros p' [= <-].
Qed.
End sender_steps.

Lemma tracked_unpublished y t0 s t : (∀ t, tracked y t) → sends (y_snd y) !! t0 = Some s →
  st_pc s = SPublishing ∨ st_pc s = SSent → tracked (with_snd (send_unpublished t0 s) y) t.
Proof.
  intros Hall Hk Hpc. unfold send_unpublished.
  assert (Hf : ∀ t, tracked (with_snd (_fail_pending t0) y) t) by (intros; by apply tracked_fail_pending).
  apply (tracked_send_end (with_snd (_fail_pending t0) y) t0 s false t Hf Hk). right.
  split; [tauto|]. split; [done|]. intros p. simpl. rewrite lookup_alter_eq.
  pose proof (Hall t0) as H. unfold tracked in H. by apply (fail_pending_ok _ _ _ _ _ _ _ _ _ _ H).
Qed.

Section receiver_steps.
Context (keep : gset string → gset string) (y : sys) (Hall : ∀ t, tracked y t).

(** A step of the read of [t0]: the read was under way and is again, or ends. *)
Lemma tracked_read t0 req pc pc' r' t : reads (y_rcv y) !! t0 = Some (req, pc) → pc ≠ RDone →
  reads r' = <[t0 := (req, pc')]> (reads (y_rcv y)) →
  (∀ t, committed t (r_log r') = committed t (r_log (y_rcv y)) || bool_decide (t = t0) && bool_decide (pc' = RAcking true)) →
  (pc' = RAcking true → pc = RAcking true ∨ pc = RReading) →
  tracked (with_rcv (λ _, r') y) t.
Proof.
  intros Hk Hpc Hr Hc Hcase. pose proof (Hall t) as H. unfold tracked in *. simpl. rewrite Hr, Hc.
  seen_from t0 t; [|exact H]. rewrite Hk in H.
  destruct (ok_net_ok H) as (Hd & Ha & Hac & Hrc). eapply ok_net; [exact H|..].
  - by intros (_ & [=] & _).
  - intros (_ & Hdone & _). by destruct pc.
  - intros ->. done.
  - split_and!.
    + intros HD. by destruct (Hd HD).
    + intros HA. specialize (Ha HA). by destruct pc.
    + intros HA. by rewrite (Hac HA).
    + intros ? [= _ ->]. rewrite bool_decide_true by done. apply orb_true_r.
Qed.

(** A step of the receiver that starts or ends no read and commits nothing. *)
Lemma tracked_rcv r' t : reads r' = reads (y_rcv y) → (∀ t, committed t (r_log r') = committed t (r_log (y_rcv y))) →
  tracked (with_rcv (λ _, r') y) t.
Proof. intros Hr Hc. pose proof (Hall t) as H. unfold tracked in *. simpl. by rewrite Hr, Hc. Qed.

Lemma tracked_start t0 req t : reads (y_rcv y) !! t0 = Some (req, RStart) → tracked (with_rcv (read_start keep t0 req) y) t.
Proof.
  intros Hk. change (tracked (with_rcv (λ _, read_start keep t0 req (y_rcv y)) y) t). unfold read_start.
  destruct (bool_decide (req ∈ _)); [|destruct (_inbound_kv _ !! t0)].
  - apply (tracked_read t0 req RStart (RAcking false)); [done..| |done]. intros t'. simpl. by rewrite andb_false_r, orb_false_r.
  - apply (tracked_read t0 req RStart RReading); [done..| |done]. intros t'. simpl. by rewrite andb_false_r, orb_false_r.
  - apply (tracked_read t0 req RStart (RAcking false)); [done..| |done]. intros t'. simpl.
    rewrite andb_false_r, orb_false_r. apply (receiver_committed_cleanup keep).
Qed.

Lemma tracked_end t0 req copied t : reads (y_rcv y) !! t0 = Some (req, RReading) → tracked (with_rcv (read_end keep t0 req copied) y) t.
Proof.
  intros Hk. change (tracked (with_rcv (λ _, read_end keep t0 req copied (y_rcv y)) y) t). unfold read_end. simpl.
  destruct (_ && _).
  - apply (tracked_read t0 req RReading (RAcking true)); [done..| |auto]. intros t'. simpl. by autorewrite with kv.
  - apply (tracked_read t0 req RReading (RAcking false)); [done..| |done]. intros t'. simpl. by autorewrite with kv.
Qed.

Lemma tracked_cancel t0 x t : reads (y_rcv y) !! t0 = Some x → tracked (with_rcv (cancel_read t0 x) y) t.
Proof.
  intros Hk. change (tracked (with_rcv (λ _, cancel_read t0 x (y_rcv y)) y) t). destruct x as [req pc].
  destruct (decide (pc = RDone)) as [->|Hpc].
  - apply tracked_rcv; [|done]. simpl. by apply insert_id.
  - unfold cancel_read. simpl. eapply (tracked_read t0 req pc RDone); [exact Hk|done|by destruct pc| |done].
    intros t'. destruct pc; simpl; autorewrite with kv; done.
Qed.

Lemma tracked_ack_sent t0 req b t : reads (y_rcv y) !! t0 = Some (req, RAcking b) →
  tracked (with_ack (<[t0 := b]>) (with_rcv (set_read t0 (req, RDone)) y)) t.
Proof.
  intros Hk. pose proof (Hall t) as H. unfold tracked in *. simpl. seen_from t0 t; [|exact H]. rewrite Hk in H.
  destruct (ok_net_ok H) as (Hd & Ha & Hac & Hrc). eapply ok_net; [exact H|..]; try done.
  - by intros (_ & [=] & _).
  - by intros (_ & [] & _).
  - split_and!; try done.
    + intros HD. by destruct (Hd HD).
    + intros [= ->]. by apply (Hrc req).
Qed.

Lemma tracked_data_received t0 req t : y_data y !! t0 = Some req →
  tracked (with_data (delete t0) (with_rcv (set_read t0 (req, RStart)) y)) t.
Proof.
  intros Hk. pose proof (Hall t) as H. unfold tracked in *. simpl. seen_from t0 t; [|exact H]. rewrite Hk in H.
  destruct (ok_net_ok H) as (Hd & Ha & Hac & Hrc). destruct (Hd ltac:(eauto)) as [HR HA]. rewrite HR in H. rewrite HA in H |- *. eapply ok_net; [exact H|..]; try done.
  - by intros ([=] & _).
  - by intros ([=] & _).
Qed.

Lemma tracked_lose_data t0 t : tracked (with_data (delete t0) y) t.
Proof.
  pose proof (Hall t) as H. unfold tracked in *. simpl. seen_from t0 t; [|exact H].
  destruct (ok_net_ok H) as (Hd & Ha & Hac & Hrc). eapply ok_net; [exact H|..]; try done.
  - by intros (_ & ? & ?).
  - by intros (_ & ? & ?).
Qed.

Lemma tracked_lose_ack t0 t : tracked (with_ack (delete t0) y) t.
Proof.
  pose proof (Hall t) as H. unfold tracked in *. simpl. seen_from t0 t; [|exact H].
  destruct (ok_net_ok H) as (Hd & Ha & Hac & Hrc). eapply ok_net; [exact H|..]; try done.
  - by intros (? & ? & _).
  - by intros (? & ? & _).
  - split_and!; try done. intros HD. by destruct (Hd HD).
Qed.

Lemma tracked_ack_received t0 b t : y_ack y !! t0 = Some b →
  tracked (with_ack (delete t0) (with_snd (ack_transfer t0 b) y)) t.
Proof.
  intros Hk. pose proof (Hall t) as H. pose proof (tracked_lose_ack t0 t) as H'. unfold tracked in *. simpl in *.
  destruct (decide (t = t0)) as [->|Hne]; [|by rewrite lookup_alter_ne by done].
  rewrite lookup_alter_eq. destruct (_pending (y_snd y) !! t0) as [p|] eqn:HP; simpl; [|exact H'].
  rewrite Hk in H. rewrite lookup_delete_eq in *.
  destruct (ok_net_ok H) as (Hd & Ha & Hac & Hrc). specialize (Ha ltac:(eauto)).
  assert (HD : y_data y !! t0 = None) by (destruct (y_data y !! t0); [by destruct (Hd ltac:(eauto))|done]).
  destruct (ok_pending H p eq_refl) as (_ & _ & _ & _ & _ & Hpd & _ & Hpc & _).
  destruct p as [a w l r te]; simpl in *.
  eapply ok_update; [exact H'|..]; destruct a; simpl; auto; try done.
  all: try (intros _; right; done).
  all: destruct b; simpl; auto; try done.
  all: try (intros _; split; [done|by apply Hac]).
  all: try (intros _; split; [done|by apply Hpd]).
  all: intros Hw; specialize (Hpc Hw); done.
Qed.
End receiver_steps.

Section runs.
Context (keep : gset string → gset string).

Lemma no_watch_left y t s : tracked y t → sends (y_snd y) !! t = Some s → st_pc s = SWatching →
  ∀ p, _pending (y_snd y) !! t = Some p → p_task p ≠ None.
Proof.
  intros H Hk Hpc p Hp Hn. unfold tracked in H. rewrite Hk, Hp in H.
  destruct (ok_pending H p eq_refl) as (_ & _ & _ & _ & _ & _ & _ & _ & Hnone).
  destruct (Hnone Hn) as (s' & [= <-] & [Hs|Hs]); congruence.
Qed.

Lemma tracked_step y y' t : (∀ t, tracked y t) → kstep keep y y' → tracked y' t.
Proof.
  intros Hall Hs. pose proof (Hall t) as H. destruct Hs.
  - by apply tracked_begin.
  - apply (tracked_goto _ Hall t0 s SWaiting t); [done|by rewrite H1|done].
  - apply (tracked_goto _ Hall t0 s SPutting t); [done|by rewrite H1|done].
  - apply tracked_send_end; auto.
  - by apply tracked_register.
  - unfold tracked in *. simpl. seen_from t0 t; [|exact H]. rewrite H0 in H. by eapply ok_publish.
  - by apply tracked_published.
  - by apply tracked_unpublished.
  - apply tracked_send_end; auto. right. split_and!; auto. by eapply no_watch_left.
  - apply tracked_send_end; auto. right. split_and!; [auto|done|by eapply no_watch_left].
  - apply (tracked_update _ Hall t0 p); [done|]. intros S D R A rel ret ack com L Hok.
    destruct (ok_pending Hok p eq_refl) as (_ & _ & _ & _ & _ & Hd & _).
    eapply ok_update; [exact Hok|..]; simpl; auto; try done. all: intros _; by apply Hd.
  - by apply tracked_completed.
  - by apply tracked_exception.
  - apply tracked_finally; [done..|]. intros S D R A rel ret ack com L Hok.
    destruct (ok_pending Hok p eq_refl) as (_ & _ & _ & _ & Hov & _ & Hf & _). auto.
  - by apply tracked_cancelled.
  - by apply tracked_fail.
  - by apply tracked_close.
  - destruct (prepare_received_view t _ _ _ _ _ _ H2) as [Hr Hc]. unfold tracked in *. simpl. by rewrite Hr, Hc.
  - exact H.
  - by apply tracked_data_received.
  - by apply tracked_ack_received.
  - exact H.
  - by apply tracked_lose_data.
  - by apply tracked_lose_ack.
  - by apply tracked_start.
  - by apply tracked_end.
  - by eapply tracked_ack_sent.
  - apply (tracked_cancel _ Hall t0 (request_id, RAcking ok0) t H0).
  - apply tracked_rcv; [done..|]. intros t'. apply (receiver_committed_cleanup keep).
  - exact H.
  - by apply tracked_cancel.
  - apply tracked_rcv; [done..|]. intros t'. simpl. by autorewrite with kv.
Qed.

Lemma kv_running_ind (I : sys → Prop) y : I sys_init → (∀ x z, I x → kstep keep x z → I z) →
  rtc (kstep keep) sys_init y → I y.
Proof. intros H0 Hs Hr. refine (rtc_ind_r (λ y, I y) _ _ _ _ Hr); eauto. Qed.

Lemma reachable_tracked y t : rtc (kstep keep) sys_init y → tracked y t.
Proof. intros Hr. revert t. apply (kv_running_ind (λ y, ∀ t, tracked y t)); [apply tracked_init| |done]. intros x z Hx Hs t. by eapply tracked_step. Qed.
End runs.

(** ** The lease *)
Definition released_once (e e' : sender) : Prop :=
  released e' = released e ∨ ∃ t, t ∉ released e ∧ released e' = released e ++ [t].

Lemma release_if_once lease t e e' : (lease = true → t ∉ released e) → released e' = released e →
  released_once e (release_if lease t e').
Proof.
  intros Hn He. unfold released_once. simpl. rewrite He. destruct lease; [right; eauto|left; by rewrite app_nil_r].
Qed.

Lemma send_end_once y t0 b s e : tracked y t0 → sends (y_snd y) !! t0 = Some s → released e = released (y_snd y) →
  released_once (y_snd y) (send_end t0 b s e).
Proof.
  intros H Hk He. apply release_if_once; [|done]. intros Hl. unfold tracked in H. rewrite Hk in H.
  destruct (early (st_pc s)) eqn:Hp; [|by rewrite (ok_late H s eq_refl Hp) in Hl].
  destruct (ok_early H s eq_refl Hp) as (_ & _ & Hr & _). by apply bool_decide_eq_false in Hr.
Qed.

Lemma watch_finally_once y t0 p : tracked y t0 → _pending (y_snd y) !! t0 = Some p →
  released_once (y_snd y) (watch_finally t0 p (y_snd y)).
Proof.
  intros H Hk. apply release_if_once; [|done]. intros _. unfold tracked in H. rewrite Hk in H.
  destruct (ok_pending H p eq_refl) as (Hr & _). by apply bool_decide_eq_false in Hr.
Qed.

Lemma released_step keep y y' : (∀ t, tracked y t) → kstep keep y y' → released_once (y_snd y) (y_snd y').
Proof.
  intros Hall Hs. destruct Hs; try (by left); try pose proof (Hall t) as H'.
  - unfold send_begin. simpl. destruct (_ || _); [|by left]. apply release_if_once; [|done]. intros _. by destruct H as (_ & ? & _).
  - by apply send_end_once.
  - simpl. unfold send_register. destruct (_register_pending t (st_lease s) true (y_snd y)) as [e|] eqn:He; [left|by apply send_end_once].
    unfold _register_pending in He. destruct (_pending (y_snd y) !! t); [done|]. by injection He as <-.
  - simpl. unfold send_published. destruct (_arm_pending t (y_snd y)) as [e|] eqn:He; [left|by apply send_end_once].
    unfold _arm_pending in He. break_match; done.
  - by apply send_end_once.
  - by apply send_end_once.
  - by apply send_end_once.
  - by apply (watch_finally_once y t p).
  - unfold watch_exception. simpl. destruct (must_retain p); by left.
  - by apply (watch_finally_once y t p).
  - unfold watch_cancelled. simpl. destruct (must_retain p); [by left|by apply watch_finally_once].
Qed.

Lemma reachable_released keep y : rtc (kstep keep) sys_init y → NoDup (released (y_snd y)).
Proof.
  intros Hr. apply (kv_running_ind keep (λ y, (∀ t, tracked y t) ∧ NoDup (released (y_snd y))) y); [| |done].
  - split; [apply tracked_init|constructor].
  - intros x z [Hx Hn] Hs. split; [intros t; by eapply tracked_step|].
    destruct (released_step keep x z Hx Hs) as [->|(t & Ht & ->)]; [done|]. apply NoDup_app. split_and!; [done| |apply NoDup_singleton].
    intros t' Ht' ->%list_elem_of_singleton. done.
Qed.

(** C8. Source pages outlive the read: over every interleaving of sends, watches, reads,
    failures, timeouts, cancellations, cleanups and closes, with messages delayed, reordered
    and lost, a lease is released at most once, and once it is, no read of its transfer is
    running, waiting to start or on its way, on the receiver. *)
Theorem lease_outlives_the_read keep y t : rtc (kstep keep) sys_init y →
  NoDup (released (y_snd y)) ∧
  (t ∈ released (y_snd y) → y_data y !! t = None ∧ ∀ req pc, reads (y_rcv y) !! t = Some (req, pc) → pc = RDone).
Proof.
  intros Hr. split; [by eapply reachable_released|]. intros Ht.
  pose proof (reachable_tracked keep y t Hr) as H. unfold tracked in H.
  destruct (ok_released H) as (_ & _ & [(? & Hd & _)|[(? & -> & _) _]]); [by apply bool_decide_true|..]; split; try done.
  intros req pc Hpc. rewrite Hpc in Hd. by destruct pc.
Qed.

(** No lease is lost: one that was given is released, or kept on the list of transfers
    pinned after a failure, or the call still holds it before it registers the transfer, or
    the pending entry holds it, and that entry has a watch, running until an
    acknowledgement, a failure or its timeout, as soon as the call has ended. *)
Theorem lease_never_lost keep y t : rtc (kstep keep) sys_init y → t ∈ y_leased y →
  t ∈ released (y_snd y) ∨
  (t ∈ _retained_pending_kv_transfers (y_snd y) ∧ t ∉ released (y_snd y)) ∨
  (∃ s, sends (y_snd y) !! t = Some s ∧ st_lease s = true ∧ early (st_pc s) = true) ∨
  (∃ p, _pending (y_snd y) !! t = Some p ∧ p_lease p = true ∧
    ((∀ s, sends (y_snd y) !! t = Some s → ∃ b, st_pc s = SDone b) → is_Some (p_task p))).
Proof.
  intros Hr Ht. pose proof (reachable_tracked keep y t Hr) as H. unfold tracked in H.
  destruct (ok_leased H) as [Hl|[Hl|[(s & Hs & Hl)|(p & Hp & Hl)]]]; [by apply bool_decide_true|..].
  - left. by apply bool_decide_eq_true in Hl.
  - right. left. pose proof (λ Hrel, proj1 (proj2 (ok_released H Hrel))) as Hx. rewrite Hl in Hx.
    split; [by apply bool_decide_eq_true in Hl|]. intros Hrel. by specialize (Hx (bool_decide_true _ Hrel)).
  - do 2 right. left. exists s. split_and!; [done..|]. destruct (early (st_pc s)) eqn:He; [done|].
    by rewrite (ok_late H s Hs He) in Hl.
  - do 3 right. exists p. split_and!; [done..|]. intros Hdone. destruct (p_task p) eqn:Hw; [eauto|].
    destruct (ok_pending H p Hp) as (_ & _ & _ & _ & _ & _ & _ & _ & Hn). destruct (Hn Hw) as (s & Hs & Hpc).
    destruct (Hdone s Hs) as [b Hb]. rewrite Hb in Hpc. by destruct Hpc.
Qed.

(** A call of [send_kv_pages] that returns was committed by the receiver, which holds
    the pages from then on. *)
Theorem returned_send_was_committed keep y t s : rtc (kstep keep) sys_init y →
  sends (y_snd y) !! t = Some s → st_pc s = SDone true → (t, Committed) ∈ r_log (y_rcv y).
Proof.
  intros Hr Hs Hpc. pose proof (reachable_tracked keep y t Hr) as H. unfold tracked in H.
  destruct (ok_committed H) as (_ & _ & _ & Hc). specialize (Hc s Hs Hpc). by apply bool_decide_eq_true in Hc.
Qed.

(** ** The reservations *)
Definition settled_ids : list (string * settled) → list string :=
  omap (λ x, match x.2 with AbortedNothing => None | _ => Some x.1 end).

Lemma settled_aborts X : settled_ids (aborts X) = elements X.
Proof. unfold settled_ids, aborts. induction (elements X) as [|t l IH]; simpl; [done|by f_equal]. Qed.

Lemma elements_split (D X : gset string) : D ⊆ X → elements X ≡ₚ elements D ++ elements (X ∖ D).
Proof. intros H. rewrite <- elements_disj_union by set_solver. by rewrite <- union_difference_L. Qed.

(** Every reservation is inbound or was settled, once. *)
Definition accounted (r : receiver) : Prop := r_reserved r ≡ₚ settled_ids (r_log r) ++ elements (dom (_inbound_kv r)).

(** Settling the transfers [D] and dropping them. *)
Lemma account_settle r r' l D : accounted r → D ⊆ dom (_inbound_kv r) →
  r_reserved r' = r_reserved r → r_log r' = r_log r ++ l → settled_ids l ≡ₚ elements D →
  dom (_inbound_kv r') = dom (_inbound_kv r) ∖ D → accounted r'.
Proof.
  unfold accounted. intros H HD -> -> Hl ->. rewrite H, (elements_split D) by done.
  unfold settled_ids in *. rewrite omap_app, Hl. by rewrite <- app_assoc.
Qed.

Lemma account_cleanup keep req r : accounted r → accounted (receiver_cleanup keep req r).
Proof.
  intros H. eapply (account_settle r _ _ (dom (filter (cleanup_drops req) (_inbound_kv r)))); [done|apply dom_filter_subseteq|done..| |].
  - by rewrite settled_aborts.
  - unfold receiver_cleanup. simpl. by rewrite dom_fmap_L, dom_difference_L.
Qed.

Lemma account_one r r' t c : accounted r → c ≠ AbortedNothing → is_Some (_inbound_kv r !! t) → r_reserved r' = r_reserved r →
  r_log r' = r_log r ++ [(t, c)] → _inbound_kv r' = delete t (_inbound_kv r) → accounted r'.
Proof.
  intros H Hc Ht Hr Hl Hi. apply (account_settle r r' [(t, c)] {[t]}); [done| |done..| |].
  - by apply elem_of_dom in Ht; set_solver.
  - rewrite elements_singleton. by destruct c.
  - by rewrite Hi, dom_delete_L.
Qed.

(** A copy has started exactly for the reads that are reading. *)
Definition copies_read (r : receiver) : Prop := ∀ t,
  (∃ st, _inbound_kv r !! t = Some st ∧ in_copy_started st = true) ↔ (∃ req, reads r !! t = Some (req, RReading)).

Definition receiver_ok (r : receiver) : Prop := accounted r ∧ copies_read r.

Lemma inbound_cleanup keep req r t : _inbound_kv (receiver_cleanup keep req r) !! t =
  st ← _inbound_kv r !! t; if bool_decide (in_request st = req) then if in_copy_started st then Some (tell req st) else None else Some st.
Proof.
  unfold receiver_cleanup. simpl. rewrite lookup_fmap, lookup_difference.
  destruct (_inbound_kv r !! t) as [st|] eqn:Hi; simpl.
  - destruct (filter _ _ !! t) as [st'|] eqn:Hf.
    + apply map_lookup_filter_Some in Hf as [[= <-]%(eq_trans (eq_sym Hi)) [Hq Hs]]. simpl in *. by rewrite bool_decide_true, Hs by done.
    + rewrite map_lookup_filter_None in Hf. destruct Hf as [?|Hf]; [congruence|]. specialize (Hf st Hi). unfold cleanup_drops in Hf. simpl in *.
      unfold tell. case_bool_decide as Hq; [|done]. destruct (in_copy_started st) eqn:Hs; [done|]. by destruct Hf.
  - by destruct (filter _ _ !! t).
Qed.

Lemma cleanup_started keep req r t :
  (∃ st, _inbound_kv (receiver_cleanup keep req r) !! t = Some st ∧ in_copy_started st = true) ↔
  (∃ st, _inbound_kv r !! t = Some st ∧ in_copy_started st = true).
Proof.
  rewrite inbound_cleanup. destruct (_inbound_kv r !! t) as [st|]; simpl; [|done].
  unfold tell. case_bool_decide; [|done]. destruct (in_copy_started st) eqn:Hs; split; intros (? & [= <-] & ?); try congruence; eauto.
Qed.

Lemma receiver_ok_cleanup keep req r : receiver_ok r → receiver_ok (receiver_cleanup keep req r).
Proof. intros [Ha Hc]. split; [by apply account_cleanup|]. intros t. by rewrite cleanup_started. Qed.

(** The end of the read of [t], which takes its entry. *)
Lemma receiver_ok_ended r t req c pc : receiver_ok r → c ≠ AbortedNothing → reads r !! t = Some (req, RReading) → pc ≠ RReading →
  receiver_ok (set_read t (req, pc) (set_inbound (delete t) (log_calls [(t, c)] r))).
Proof.
  intros [Ha Hc] Hcn Ht Hpc. split.
  - destruct (proj2 (Hc t)) as (st & Hi & _); [eauto|]. by eapply (account_one r _ t c).
  - intros t'. simpl. destruct (decide (t' = t)) as [->|Hne].
    + rewrite lookup_delete_eq, lookup_insert_eq. split; [by intros (? & [=] & _)|intros (? & [= _ ->])]. done.
    + rewrite lookup_delete_ne, lookup_insert_ne by done. apply Hc.
Qed.

(** A read that moves between other places than the copy. *)
Lemma receiver_ok_moved r t x : receiver_ok r → (∀ req, reads r !! t ≠ Some (req, RReading)) → x.2 ≠ RReading → receiver_ok (set_read t x r).
Proof.
  intros [Ha Hc] Hn Hx. split; [exact Ha|]. intros t'. simpl. etrans; [apply Hc|]. destruct (decide (t' = t)) as [->|Hne].
  - rewrite lookup_insert_eq. split; [by intros (req & ?%Hn)|]. intros (req & [= ->]). done.
  - by rewrite lookup_insert_ne by done.
Qed.

Section receiver_runs.
Context (keep : gset string → gset string).

Lemma receiver_ok_prepare t req p r r' okp : receiver_ok r → prepare_received t req p r = Ok (r', okp) → receiver_ok r'.
Proof.
  intros [Ha Hc] Hp. unfold prepare_received in Hp. destruct (bool_decide _); [by injection Hp as <- _|].
  unfold prepare_kv_receive in Hp. destruct (_inbound_kv r !! t) eqn:Hi; [done|]. unfold accounted in *.
  destruct p; injection Hp as <- _; unfold receiver_ok, accounted; simpl; split; try done.
  - unfold settled_ids in *. rewrite omap_app, Ha. simpl. by rewrite app_nil_r.
  - unfold settled_ids in *. rewrite omap_app, Ha. simpl. rewrite <- !app_assoc. apply Permutation_app_head, Permutation_app_comm.
  - rewrite dom_insert_L, elements_union_singleton by (by apply not_elem_of_dom). rewrite Ha, <- app_assoc.
    apply Permutation_app_head. by rewrite <- Permutation_cons_append.
  - intros t'. simpl. destruct (decide (t' = t)) as [->|Hne].
    + rewrite lookup_insert_eq. split; [by intros (? & [= <-] & ?)|intros Hr; destruct (proj2 (Hc t) Hr) as (? & ? & _); congruence].
    + rewrite lookup_insert_ne by done. apply Hc.
Qed.

Lemma receiver_ok_start t req r : receiver_ok r → reads r !! t = Some (req, RStart) → receiver_ok (read_start keep t req r).
Proof.
  intros H Ht. assert (Hn : ∀ req, reads r !! t ≠ Some (req, RReading)) by (intros req'; rewrite Ht; done).
  unfold read_start. destruct (bool_decide _); [by apply receiver_ok_moved|].
  destruct (_inbound_kv r !! t) as [st|] eqn:Hi; [|apply receiver_ok_moved; [by apply receiver_ok_cleanup|done..]].
  destruct H as [Ha Hc]. split.
  - unfold accounted in *. simpl. rewrite Ha, dom_insert_lookup_L; eauto.
  - intros t'. simpl. destruct (decide (t' = t)) as [->|Hne].
    + rewrite !lookup_insert_eq. split; [eauto|eauto].
    + rewrite !lookup_insert_ne by done. apply Hc.
Qed.

Lemma receiver_ok_end t req copied r : receiver_ok r → reads r !! t = Some (req, RReading) → receiver_ok (read_end keep t req copied r).
Proof.
  intros H Ht. unfold read_end. simpl. destruct (_ && _); [by apply receiver_ok_ended|].
  apply (receiver_ok_cleanup keep req (set_read t (req, RAcking false) (set_inbound (delete t) (log_calls [(t, Aborted)] r)))).
  by apply receiver_ok_ended.
Qed.

Lemma receiver_ok_cancel t x r : receiver_ok r → reads r !! t = Some x → receiver_ok (cancel_read t x r).
Proof.
  intros H Ht. destruct x as [req pc]. unfold cancel_read. simpl.
  destruct pc; try (apply receiver_ok_moved; [done| |done]; intros req'; rewrite Ht; done). by apply receiver_ok_ended.
Qed.

Lemma receiver_ok_close r : receiver_ok r → (∀ t x, reads r !! t = Some x → x.2 = RDone) → receiver_ok (receiver_close r).
Proof.
  intros [Ha Hc] Hdone. split.
  - eapply (account_settle r _ _ (dom (_inbound_kv r))); [done|done|done|done|by rewrite settled_aborts|]. simpl. set_solver.
  - intros t. simpl. split; [by intros (? & [=] & _)|]. by intros (req & ?%Hdone).
Qed.

Lemma receiver_step y y' : (∀ t, tracked y t) → receiver_ok (y_rcv y) → kstep keep y y' → receiver_ok (y_rcv y').
Proof.
  intros Hall H Hs. destruct Hs; try exact H.
  - by eapply receiver_ok_prepare.
  - pose proof (Hall t) as Ht. unfold tracked in Ht. destruct (ok_data Ht) as [Hn _]; [eauto|].
    apply receiver_ok_moved; [done| |done]. intros req. by rewrite Hn.
  - by apply receiver_ok_start.
  - by apply receiver_ok_end.
  - apply receiver_ok_moved; [done| |done]. intros req. by rewrite H0.
  - apply receiver_ok_moved; [done| |done]. intros req. by rewrite H0.
  - by apply receiver_ok_cleanup.
  - by apply receiver_ok_cancel.
  - by apply receiver_ok_close.
Qed.
End receiver_runs.

(** ** One reservation for a transfer *)
Definition unasked (S : option send_task) : Prop := match S with Some s => st_pc s = SPreparing | None => True end.

(** A prepare message is in flight only before the reservation, and only after the call
    sent it. *)
Definition prepared_once (y : sys) (t : string) : Prop :=
  (is_Some (y_prepare y !! t) → t ∉ r_reserved (y_rcv y)) ∧
  (unasked (sends (y_snd y) !! t) → y_prepare y !! t = None ∧ t ∉ r_reserved (y_rcv y)).

Lemma prepared_snd y f t : prepared_once y t →
  (unasked (sends (f (y_snd y)) !! t) → unasked (sends (y_snd y) !! t)) → prepared_once (with_snd f y) t.
Proof. intros [H1 H2] Hu. split; [exact H1|auto]. Qed.

Lemma unasked_set t0 req l pc (m : gmap string send_task) t : pc ≠ SPreparing →
  unasked (<[t0 := mkSend req l pc]> m !! t) → unasked (m !! t).
Proof.
  intros Hpc. destruct (decide (t = t0)) as [->|Hne]; [by rewrite lookup_insert_eq|by rewrite lookup_insert_ne by done].
Qed.

Lemma sends_register y t0 s t : unasked (sends (send_register t0 s (y_snd y)) !! t) → unasked (sends (y_snd y) !! t).
Proof. unfold send_register, _register_pending. break_match; by apply unasked_set. Qed.
Lemma sends_published y t0 s t : unasked (sends (send_published t0 s (y_snd y)) !! t) → unasked (sends (y_snd y) !! t).
Proof. unfold send_published, _arm_pending. break_match; by apply unasked_set. Qed.
Lemma sends_exception y t0 p : sends (watch_exception t0 p (y_snd y)) = sends (y_snd y).
Proof. unfold watch_exception. by destruct (must_retain p). Qed.
Lemma sends_cancelled y t0 p : sends (watch_cancelled t0 p (y_snd y)) = sends (y_snd y).
Proof. unfold watch_cancelled. by destruct (must_retain p). Qed.

Section once.
Context (keep : gset string → gset string).

Lemma reserved_prepare t req p r r' okp : prepare_received t req p r = Ok (r', okp) →
  r_reserved r' = r_reserved r ∨ r_reserved r' = r_reserved r ++ [t].
Proof. unfold prepare_received, prepare_kv_receive. intros H. break_match; auto. Qed.

Lemma reserved_start t req r : r_reserved (read_start keep t req r) = r_reserved r.
Proof. unfold read_start. by break_match. Qed.
Lemma reserved_end t req b r : r_reserved (read_end keep t req b r) = r_reserved r.
Proof. unfold read_end. simpl. by destruct (_ && _). Qed.
Lemma reserved_cancel t x r : r_reserved (cancel_read t x r) = r_reserved r.
Proof. unfold cancel_read. by destruct x.2. Qed.

Lemma prepared_step y y' t : prepared_once y t → kstep keep y y' → prepared_once y' t.
Proof.
  intros H Hs. destruct Hs; try exact H.
  - destruct H0 as (Hs & _). apply (prepared_snd y); [done|]. unfold send_begin. destruct (_ || _); [done|]. simpl.
    destruct (decide (t = t0)) as [->|Hne]; [by rewrite Hs|by rewrite lookup_insert_ne by done].
  - destruct H as [H2 H3]. unfold prepared_once. simpl. destruct (decide (t = t0)) as [->|Hne].
    + rewrite H0 in H3. destruct (H3 H1) as [_ Hr]. rewrite !lookup_insert_eq. done.
    + rewrite !lookup_insert_ne by done. done.
  - apply prepared_snd; [done|]. by apply unasked_set.
  - apply prepared_snd; [done|]. by apply unasked_set.
  - apply prepared_snd; [done|]. apply sends_register.
  - apply (prepared_snd y (goto t0 SSent s)); [done|]. by apply unasked_set.
  - apply prepared_snd; [done|]. apply sends_published.
  - apply prepared_snd; [done|]. by apply unasked_set.
  - apply prepared_snd; [done|]. by apply unasked_set.
  - apply prepared_snd; [done|]. by apply unasked_set.
  - apply prepared_snd; [done|]. by rewrite sends_exception.
  - apply prepared_snd; [done|]. by rewrite sends_cancelled.
  - destruct H as [H3 H4]. unfold prepared_once. simpl.
    destruct (reserved_prepare _ _ _ _ _ _ H2) as [-> | ->]; destruct (decide (t = t0)) as [->|Hne];
      rewrite ?lookup_delete_eq, ?lookup_delete_ne by done; try done.
    + split; [by intros [? [=]]|]. intros Hu. by destruct (H4 Hu).
    + split; [by intros [? [=]]|]. intros Hu. destruct (H4 Hu). congruence.
    + rewrite not_elem_of_app, list_elem_of_singleton. tauto.
  - destruct H as [H1 H2]. unfold prepared_once. simpl. destruct (decide (t = t0)) as [->|Hne];
      rewrite ?lookup_delete_eq, ?lookup_delete_ne by done; [|done]. split; [by intros [? [=]]|]. intros Hu. by destruct (H2 Hu).
  - unfold prepared_once. simpl. by rewrite reserved_start.
  - unfold prepared_once. simpl. by rewrite reserved_end.
  - unfold prepared_once. simpl. by rewrite reserved_cancel.
Qed.

Definition settling (y : sys) : Prop := (∀ t, tracked y t ∧ prepared_once y t) ∧ receiver_ok (y_rcv y) ∧ NoDup (r_reserved (y_rcv y)).

Lemma settling_init : settling sys_init.
Proof.
  split; [|split; [split; [unfold accounted; simpl; by rewrite dom_empty_L, elements_empty|]|constructor]].
  - intros t. split; [apply tracked_init|]. split; [by intros [? [=]]|]. intros _. split; [done|by intros ?%elem_of_nil].
  - intros t. simpl. split; [by intros (? & [=] & _)|by intros (? & [=])].
Qed.

Lemma settling_step y y' : settling y → kstep keep y y' → settling y'.
Proof.
  intros (Ht & Hr & Hn) Hs. split; [|split].
  - intros t. split; [eapply tracked_step; [|done]; apply Ht|eapply prepared_step; [apply Ht|done]].
  - eapply receiver_step; [|done..]. apply Ht.
  - destruct Hs; try exact Hn; simpl; rewrite ?reserved_start, ?reserved_end, ?reserved_cancel; try exact Hn.
    destruct (reserved_prepare _ _ _ _ _ _ H1) as [-> | ->]; [done|]. apply NoDup_app. split_and!; [done| |apply NoDup_singleton].
    intros t' Ht' ->%list_elem_of_singleton. destruct (Ht t) as [_ [Hp _]]. apply Hp in Ht'; eauto.
Qed.

Lemma reachable_settling y : rtc (kstep keep) sys_init y → settling y.
Proof. apply kv_running_ind; [apply settling_init|apply settling_step]. Qed.
End once.

(** C9. Destination pages are settled exactly once: at most one reservation is made for a
    transfer, and over every interleaving each is either inbound or was committed or
    aborted, once; the entries whose copy started are those of the running reads, so a
    cleanup of the request leaves no other, and after the end of [close] none is left. *)
Theorem reservations_settled_once keep y : rtc (kstep keep) sys_init y →
  NoDup (r_reserved (y_rcv y)) ∧
  r_reserved (y_rcv y) ≡ₚ settled_ids (r_log (y_rcv y)) ++ elements (dom (_inbound_kv (y_rcv y))) ∧
  (∀ t st request_id, _inbound_kv (receiver_cleanup keep request_id (y_rcv y)) !! t = Some st → in_request st = request_id →
     in_abort_error st = true ∧ ∃ req, reads (y_rcv y) !! t = Some (req, RReading)) ∧
  (_inbound_kv (y_rcv y) = ∅ → r_reserved (y_rcv y) ≡ₚ settled_ids (r_log (y_rcv y))).
Proof.
  intros Hr. destruct (reachable_settling keep y Hr) as (_ & [Ha Hc] & Hn). split_and!; [done|done| |].
  - intros t st req Hi Hq. rewrite inbound_cleanup in Hi. destruct (_inbound_kv (y_rcv y) !! t) as [st'|] eqn:Hst; [|done]. simpl in Hi.
    destruct (bool_decide (in_request st' = req)) eqn:Hb; [|injection Hi as ->; by rewrite bool_decide_eq_false in Hb].
    destruct (in_copy_started st') eqn:Hs; [|done]. injection Hi as <-. split.
    + unfold tell. by rewrite Hb.
    + apply Hc. eauto.
  - intros Hi. unfold accounted in Ha. by rewrite Hi, dom_empty_L, elements_empty, app_nil_r in Ha.
Qed.

(** What a transfer hit by a cleanup stays. *)
Definition cleaned (r : receiver) (t : string) : Prop :=
  t ∈ r_reserved r ∧ committed t (r_log r) = false ∧ ∀ st, _inbound_kv r !! t = Some st → in_abort_error st = true.

Section cleaned.
Context (keep : gset string → gset string).

Lemma cleaned_cleanup r t req : cleaned r t → cleaned (receiver_cleanup keep req r) t.
Proof.
  intros (Hr & Hc & Hi). split_and!; [done| |].
  - by rewrite (receiver_committed_cleanup keep).
  - intros st. rewrite inbound_cleanup. destruct (_inbound_kv r !! t) as [st'|] eqn:Hst; [|done]. simpl.
    unfold tell. break_match; try done; intros [= <-]; auto.
Qed.

Lemma cleaned_step y y' t : settling y → cleaned (y_rcv y) t → kstep keep y y' → cleaned (y_rcv y') t.
Proof.
  intros (Ht & [_ Hcr] & _) (Hr & Hc & Hi) Hs. destruct Hs; simpl; try done.
  - (* a prepare message is for another transfer *)
    assert (Hne : t ≠ t0).
    { intros ->. destruct (Ht t0) as [_ [Hp _]]. apply Hp in Hr; eauto. }
    unfold prepare_received, prepare_kv_receive in H1.
    break_match; unfold cleaned in *; simpl; autorewrite with kv; rewrite ?bool_decide_false, ?elem_of_app, ?lookup_insert_ne by done; simpl;
      rewrite ?orb_false_r; auto.
  - unfold read_start. break_match; try done; [|by apply cleaned_cleanup].
    unfold cleaned in *. simpl. split_and!; try done. intros st. destruct (decide (t = t0)) as [->|Hne].
    + rewrite lookup_insert_eq. intros [= <-]. simpl. auto.
    + rewrite lookup_insert_ne by done. apply Hi.
  - unfold read_end. simpl. destruct (_ && _) eqn:Hb.
    + destruct (proj2 (Hcr t0)) as (st & Hst & _); [eauto|].
      assert (Hne : t ≠ t0).
      { intros ->. rewrite Hst, (Hi st Hst) in Hb. by rewrite andb_false_r in Hb. }
      unfold cleaned. simpl. autorewrite with kv. rewrite (bool_decide_false (t = t0)), lookup_delete_ne by done.
      rewrite Hc. done.
    + apply (cleaned_cleanup (set_read t0 (request_id, RAcking false) (set_inbound (delete t0) (log_calls [(t0, Aborted)] (y_rcv y))))).
      unfold cleaned. simpl. autorewrite with kv. split_and!; try done. intros st [_ ?]%lookup_delete_Some. auto.
  - by apply cleaned_cleanup.
  - unfold cancel_read. destruct x.2; try done. unfold cleaned. simpl. autorewrite with kv.
    split_and!; try done. intros st [_ ?]%lookup_delete_Some. auto.
  - unfold cleaned. simpl. autorewrite with kv. done.
Qed.
End cleaned.

(** C10. A cleanup is final for the receiver: once [cleanup] of a request has run while one of
    its transfers is inbound, whether its copy has started or not, the transfer is never
    committed, and its call never returns, in any continuation. *)
Theorem cleaned_up_transfer_never_commits keep y z t st : rtc (kstep keep) sys_init y →
  _inbound_kv (y_rcv y) !! t = Some st → (t, Committed) ∉ r_log (y_rcv y) →
  rtc (kstep keep) (with_rcv (receiver_cleanup keep (in_request st)) y) z →
  (t, Committed) ∉ r_log (y_rcv z) ∧ ∀ s, sends (y_snd z) !! t = Some s → st_pc s ≠ SDone true.
Proof.
  intros Hr Hi Hc Hz. assert (Hstep : kstep keep y (with_rcv (receiver_cleanup keep (in_request st)) y)) by constructor.
  assert (Hr' : rtc (kstep keep) sys_init (with_rcv (receiver_cleanup keep (in_request st)) y)) by (etrans; [exact Hr|by apply rtc_once]).
  pose proof (reachable_settling keep y Hr) as (_ & [Ha _] & _). unfold accounted in Ha.
  assert (Hcl : cleaned (y_rcv (with_rcv (receiver_cleanup keep (in_request st)) y)) t).
  { unfold cleaned, with_rcv. cbn [y_rcv]. split_and!.
    - rewrite Ha. apply elem_of_app. right. apply elem_of_elements, elem_of_dom. eauto.
    - rewrite (receiver_committed_cleanup keep). by apply bool_decide_false.
    - intros st'. rewrite inbound_cleanup, Hi. simpl. rewrite bool_decide_true by done.
      destruct (in_copy_started st); [|done]. intros [= <-]. unfold tell. by rewrite bool_decide_true. }
  assert (Hfin : cleaned (y_rcv z) t).
  { revert Hcl. generalize (reachable_settling keep _ Hr'). clear -Hz. induction Hz as [x|x u z Hxu Huz IH]; [done|].
    intros Hset Hcl. apply IH; [by eapply settling_step|by eapply cleaned_step]. }
  destruct Hfin as (_ & Hfc & _). apply bool_decide_eq_false in Hfc. split; [done|]. intros s Hs Hpc. apply Hfc.
  assert (Htz : tracked z t) by (apply (reachable_tracked keep); by etrans).
  unfold tracked in Htz. destruct (ok_committed Htz) as (_ & _ & _ & Hx). specialize (Hx s Hs Hpc). by apply bool_decide_eq_true in Hx.
Qed.

(** A second call for a transfer in flight fails, and takes the first call's future with it:
    the ready message is then ignored, and the first call can only time out. *)
Lemma duplicate_send_drops_ready t req lease ok b e f : _kv_ready e !! t = Some f →
  _kv_ready (send_begin t req lease ok e) !! t = None ∧
  _kv_ready (ready_received t b (send_begin t req lease ok e)) = _kv_ready (send_begin t req lease ok e).
Proof.
  intros Hf. assert (H : _kv_ready (send_begin t req lease ok e) !! t = None).
  { unfold send_begin. rewrite (bool_decide_true (is_Some (_kv_ready e !! t))) by eauto. rewrite orb_true_r. simpl. apply lookup_delete_eq. }
  split; [done|]. apply map_eq. intros t'. simpl. destruct (decide (t' = t)) as [->|Hne]; [|by rewrite lookup_alter_ne].
  by rewrite lookup_alter_eq, H.
Qed.

(** ** A transfer that completes *)
Lemma kstep_to keep y z z' : kstep keep y z → z = z' → kstep keep y z'.
Proof. by intros ? <-. Qed.
Ltac k_step c := eapply rtc_l; [eapply kstep_to; [c; vm_compute; try reflexivity|vm_compute; reflexivity]|].

Definition demo_dest : KVPageDestination := mkDestination "dst" [2; 1]%Z.

Lemma fresh_init t : fresh t sys_init.
Proof. split_and!; [done|by intros ?%elem_of_nil|set_solver]. Qed.

(** Up to the reservation. *)
Lemma demo_reserved : ∃ y, rtc (kstep id) sys_init y ∧
  _inbound_kv (y_rcv y) !! "t" = Some (mkInbound "r" false false) ∧ r_log (y_rcv y) = [] ∧ "t" ∈ y_leased y.
Proof.
  eexists. split.
  - k_step ltac:(apply (k_begin _ _ "t" "r" true true (fresh_init "t"))).
    k_step ltac:(eapply (k_prepare _ _ "t")).
    k_step ltac:(eapply (k_recv_prepare _ _ "t" "r" (PrepareReserved demo_dest))). apply rtc_refl.
  - split_and!; [reflexivity..|]. apply (bool_decide_eq_true_1 _). vm_compute. reflexivity.
Qed.

(** Up to the return of the call. *)
Lemma demo_transferred : ∃ y s, rtc (kstep id) sys_init y ∧ released (y_snd y) = ["t"] ∧ sends (y_snd y) !! "t" = Some s ∧
  st_pc s = SDone true ∧ r_reserved (y_rcv y) = ["t"] ∧ _inbound_kv (y_rcv y) = ∅ ∧ "t" ∈ y_leased y.
Proof.
  do 2 eexists. split.
  - k_step ltac:(apply (k_begin _ _ "t" "r" true true (fresh_init "t"))). k_step ltac:(eapply (k_prepare _ _ "t")).
    k_step ltac:(eapply (k_recv_prepare _ _ "t" "r" (PrepareReserved demo_dest))).
    k_step ltac:(eapply (k_recv_ready _ _ "t")). k_step ltac:(eapply (k_ready _ _ "t")). k_step ltac:(eapply (k_register _ _ "t")).
    k_step ltac:(eapply (k_publish _ _ "t")). k_step ltac:(eapply (k_published _ _ "t")).
    k_step ltac:(eapply (k_recv_data _ _ "t")). k_step ltac:(eapply (k_start _ _ "t")). k_step ltac:(eapply (k_end _ _ "t" _ true)).
    k_step ltac:(eapply (k_send_ack _ _ "t")). k_step ltac:(eapply (k_recv_ack _ _ "t")).
    k_step ltac:(eapply (k_acked _ _ "t")). k_step ltac:(eapply (k_completed _ _ "t")).
    k_step ltac:(eapply (k_return _ _ "t"); [| |left]). apply rtc_refl.
  - split_and!; [reflexivity..|]. apply (bool_decide_eq_true_1 _). vm_compute. reflexivity.
Qed.

Lemma lease_outlives_the_read_witness : ∃ y, rtc (kstep id) sys_init y ∧ y_data y !! "t" = None ∧
  ∀ req pc, reads (y_rcv y) !! "t" = Some (req, pc) → pc = RDone.
Proof.
  destruct demo_transferred as (y & s & Hr & Hrel & _). exists y. split; [exact Hr|].
  apply (lease_outlives_the_read id y "t" Hr). rewrite Hrel. left.
Defined.

Lemma lease_never_lost_witness : ∃ y, rtc (kstep id) sys_init y ∧
  ("t" ∈ released (y_snd y) ∨
   ("t" ∈ _retained_pending_kv_transfers (y_snd y) ∧ "t" ∉ released (y_snd y)) ∨
   (∃ s, sends (y_snd y) !! "t" = Some s ∧ st_lease s = true ∧ early (st_pc s) = true) ∨
   (∃ p, _pending (y_snd y) !! "t" = Some p ∧ p_lease p = true ∧
     ((∀ s, sends (y_snd y) !! "t" = Some s → ∃ b, st_pc s = SDone b) → is_Some (p_task p)))).
Proof.
  destruct demo_transferred as (y & s & Hr & _ & _ & _ & _ & _ & Hl). exists y. split; [exact Hr|].
  exact (lease_never_lost id y "t" Hr Hl).
Defined.

Lemma returned_send_was_committed_witness : ∃ y, rtc (kstep id) sys_init y ∧ ("t", Committed) ∈ r_log (y_rcv y).
Proof.
  destruct demo_transferred as (y & s & Hr & _ & Hs & Hpc & _). exists y. split; [exact Hr|].
  exact (returned_send_was_committed id y "t" s Hr Hs Hpc).
Defined.

Lemma reservations_settled_once_witness : ∃ y, rtc (kstep id) sys_init y ∧ ["t"] ≡ₚ settled_ids (r_log (y_rcv y)).
Proof.
  destruct demo_transferred as (y & s & Hr & _ & _ & _ & Hres & Hi & _). exists y. split; [exact Hr|].
  rewrite <- Hres. by apply (reservations_settled_once id y Hr).
Defined.

Lemma cleaned_up_transfer_never_commits_witness : ∃ y, rtc (kstep id) sys_init y ∧
  ∀ z, rtc (kstep id) (with_rcv (receiver_cleanup id "r") y) z → ("t", Committed) ∉ r_log (y_rcv z) ∧
    ∀ s, sends (y_snd z) !! "t" = Some s → st_pc s ≠ SDone true.
Proof.
  destruct demo_reserved as (y & Hr & Hi & Hlog & _). exists y. split; [exact Hr|]. intros z Hz.
  apply (cleaned_up_transfer_never_commits id y z "t" (mkInbound "r" false false) Hr Hi); [|exact Hz].
  rewrite Hlog. by intros ?%elem_of_nil.
Defined.
