(* ===== verification/StreamingScheduler.v ===== *)
(** * The scheduler of streaming stages

    Models [StreamingSimpleScheduler]
    ([src/sglang_omni/scheduling/streaming_simple_scheduler.py]).  A subclass is its hooks
    over a state of its own.  The loop runs in one thread; other threads put messages and
    abort.  A step is what the loop does between two places where another thread can
    come in: a queue operation, a check of the abort marks, a section under the state
    lock up to the checks inside it.  Waiting for a batch to fill is the time between two
    steps. *)
From S2P Require Import Prelude SimpleScheduler.

Section streaming.
Context {D I R W O : Type}.
Abbreviation message := (@IncomingMessage D).

(** What a subclass provides; [as_item] is [isinstance(_, StreamItem)]. *)
Record hooks := mkHooks {
  as_item : D → option I;
  is_streaming_payload : D → res bool;
  validate_non_streaming_payload : D → res unit;
  on_streaming_new_request : string → D → W → W * res unit;
  on_stream_chunk : string → I → W → W * res (list O);
  on_stream_done : string → W → W * res (list O);
  clear_stream_state : string → W → W;
}.

(** The class attributes and the constructor's arguments, normalised. *)
Record config := mkConfig {
  c_fn : option (D → res R);
  c_batch_fn : option (list D → res (list R));
  c_max_batch_size : nat;
  c_request_cost_fn : option (D → res Z);
  c_max_batch_cost : option Z;
  c_can_batch_stream_chunks : bool;
  c_stream_chunk_batch_max : option nat;
  c_stream_chunk_batch_distinct_requests : bool;
}.

Definition make_config (fn : option (D → res R)) (batch_fn : option (list D → res (list R))) (max_batch_size : Z)
    (request_cost_fn : option (D → res Z)) (max_batch_cost : option Z) (can_batch : bool) (chunk_max : option nat) (distinct : bool) : config :=
  mkConfig fn batch_fn (Z.to_nat (Z.max max_batch_size 1)) request_cost_fn ((λ c, Z.max c 0) <$> max_batch_cost) can_batch chunk_max distinct.

(** What is put on the outbox for a request. *)
Inductive emitted := EResult (r : R) | EError (e : exn) | EOut (o : O).

(** Whose code called a streaming handler, and what it goes on with. *)
Inductive caller :=
| FromLoop (m : message)
| FromNews (first : message) (rest plain : list message)
| FromChunks (rest : list (string * I)).

(** Where the loop stands. *)
Inductive pc :=
| PIdle
| PTaken (m : message)
| PCollect (first : message) (batch : list message) (batch_cost : Z)
| PChunks (batch : list message) (seen : gset string)
| PClassify (first : message) (rest streaming plain : list message)
| PNews (first : message) (rest plain : list message)
| PNew (first m : message) (rest plain : list message)
| PNewLocked (first m : message) (rest plain : list message)
| PDone (request_id : string) (k : caller)
| PEmit (request_id : string) (outs : list O) (last : bool) (k : caller)
| PHandleChunks (rest : list message) (items : list (string * I))
| PItems (rest : list (string * I))
| PPlain (batch : list message)
| PSingle (rest : list message)
| PComputed (m : message) (r : res R) (rest : list message)
| PResults (rest : list (message * emitted))
| PRaise (m : message) (e : exn).

(** The scheduler's attributes, and histories, oldest first: what arrived, what the loop
    took to handle and what it dropped, the requests a stream was opened for, those whose
    done message was handled, those whose stream was closed, those that were aborted (by
    a call or by an error), and those handled as non-streaming. *)
Record state := mkState {
  inbox : list message;
  _pending_messages : list message;
  _pending_done : gset string;
  _stream_payloads : gmap string D;
  _aborted_request_ids : gset string;
  _completed_non_streaming_request_ids : gset string;
  hook_state : W;
  outbox : list (string * emitted);
  at_pc : pc;
  aborting : gset string;
  arrived : list message;
  handled : list message;
  dropped : list message;
  opened : gset string;
  doned : gset string;
  closed : gset string;
  aborts : gset string;
  plained : gset string;
}.

Definition state_init (w : W) : state := mkState [] [] ∅ ∅ ∅ ∅ w [] PIdle ∅ [] [] [] ∅ ∅ ∅ ∅ ∅.

Definition set_queues i p s := mkState i p (_pending_done s) (_stream_payloads s) (_aborted_request_ids s) (_completed_non_streaming_request_ids s) (hook_state s) (outbox s) (at_pc s) (aborting s) (arrived s) (handled s) (dropped s) (opened s) (doned s) (closed s) (aborts s) (plained s).
Definition set_done f s := mkState (inbox s) (_pending_messages s) (f (_pending_done s)) (_stream_payloads s) (_aborted_request_ids s) (_completed_non_streaming_request_ids s) (hook_state s) (outbox s) (at_pc s) (aborting s) (arrived s) (handled s) (dropped s) (opened s) (doned s) (closed s) (aborts s) (plained s).
Definition set_payloads f s := mkState (inbox s) (_pending_messages s) (_pending_done s) (f (_stream_payloads s)) (_aborted_request_ids s) (_completed_non_streaming_request_ids s) (hook_state s) (outbox s) (at_pc s) (aborting s) (arrived s) (handled s) (dropped s) (opened s) (doned s) (closed s) (aborts s) (plained s).
Definition set_aborted f s := mkState (inbox s) (_pending_messages s) (_pending_done s) (_stream_payloads s) (f (_aborted_request_ids s)) (_completed_non_streaming_request_ids s) (hook_state s) (outbox s) (at_pc s) (aborting s) (arrived s) (handled s) (dropped s) (opened s) (doned s) (closed s) (aborts s) (plained s).
Definition set_completed f s := mkState (inbox s) (_pending_messages s) (_pending_done s) (_stream_payloads s) (_aborted_request_ids s) (f (_completed_non_streaming_request_ids s)) (hook_state s) (outbox s) (at_pc s) (aborting s) (arrived s) (handled s) (dropped s) (opened s) (doned s) (closed s) (aborts s) (plained s).
Definition set_hook w s := mkState (inbox s) (_pending_messages s) (_pending_done s) (_stream_payloads s) (_aborted_request_ids s) (_completed_non_streaming_request_ids s) w (outbox s) (at_pc s) (aborting s) (arrived s) (handled s) (dropped s) (opened s) (doned s) (closed s) (aborts s) (plained s).
Definition put_out r x s := mkState (inbox s) (_pending_messages s) (_pending_done s) (_stream_payloads s) (_aborted_request_ids s) (_completed_non_streaming_request_ids s) (hook_state s) (outbox s ++ [(r, x)]) (at_pc s) (aborting s) (arrived s) (handled s) (dropped s) (opened s) (doned s) (closed s) (aborts s) (plained s).
Definition goto p s := mkState (inbox s) (_pending_messages s) (_pending_done s) (_stream_payloads s) (_aborted_request_ids s) (_completed_non_streaming_request_ids s) (hook_state s) (outbox s) p (aborting s) (arrived s) (handled s) (dropped s) (opened s) (doned s) (closed s) (aborts s) (plained s).
Definition set_aborting f s := mkState (inbox s) (_pending_messages s) (_pending_done s) (_stream_payloads s) (_aborted_request_ids s) (_completed_non_streaming_request_ids s) (hook_state s) (outbox s) (at_pc s) (f (aborting s)) (arrived s) (handled s) (dropped s) (opened s) (doned s) (closed s) (aborts s) (plained s).
Definition take m s := mkState (inbox s) (_pending_messages s) (_pending_done s) (_stream_payloads s) (_aborted_request_ids s) (_completed_non_streaming_request_ids s) (hook_state s) (outbox s) (at_pc s) (aborting s) (arrived s) (handled s ++ [m]) (dropped s) (opened s) (doned s) (closed s) (aborts s) (plained s).
Definition drop m s := mkState (inbox s) (_pending_messages s) (_pending_done s) (_stream_payloads s) (_aborted_request_ids s) (_completed_non_streaming_request_ids s) (hook_state s) (outbox s) (at_pc s) (aborting s) (arrived s) (handled s) (dropped s ++ [m]) (opened s) (doned s) (closed s) (aborts s) (plained s).
(** A note in the histories [opened], [doned], [closed], [aborts] and [plained]. *)
Definition note o d c a p s := mkState (inbox s) (_pending_messages s) (_pending_done s) (_stream_payloads s) (_aborted_request_ids s) (_completed_non_streaming_request_ids s) (hook_state s) (outbox s) (at_pc s) (aborting s) (arrived s) (handled s) (dropped s) (o ∪ opened s) (d ∪ doned s) (c ∪ closed s) (a ∪ aborts s) (p ∪ plained s).

Context (h : hooks) (cfg : config) (keep : gset string → gset string).

Definition is_aborted (r : string) (s : state) : bool := bool_decide (r ∈ _aborted_request_ids s).

(** ** Aborts and clean-up *)
(** The two bounded sets: past the limit, [keep] says what stays. *)
Definition bounded_add (r : string) (ids : gset string) : gset string :=
  let ids := {[r]} ∪ ids in if bool_decide (10000 < Z.of_nat (size ids))%Z then ids ∩ keep ids else ids.
Definition _record_aborted_request_id (r : string) (s : state) : state := note ∅ ∅ ∅ {[r]} ∅ (set_aborted (bounded_add r) s).
Definition _record_completed_non_streaming_request_id (r : string) : state → state := set_completed (bounded_add r).

Definition _clear_request_state (r : string) (keep_aborted : bool) (s : state) : state :=
  let s := set_done (λ X, X ∖ {[r]}) (set_payloads (delete r) s) in
  let s := set_hook (clear_stream_state h r (hook_state s)) s in
  if keep_aborted then s else set_aborted (λ X, X ∖ {[r]}) s.

(** [abort] called by the loop itself. *)
Definition abort (r : string) (s : state) : state := _clear_request_state r true (_record_aborted_request_id r s).

(** ** Collecting *)
Definition is_new (m : message) : bool := bool_decide (im_type m = NewRequest).

Definition _message_cost (m : message) : res Z :=
  match c_request_cost_fn cfg with
  | None => Ok 0%Z
  | Some cost => if is_new m then c ← cost (im_data m); mret (Z.max c 0) else Ok 0%Z
  end.

Definition _next_message (s : state) : option state :=
  match _pending_messages s with
  | m :: l => Some (goto (PTaken m) (set_queues (inbox s) l s))
  | [] => match inbox s with m :: l => Some (goto (PTaken m) (set_queues l [] s)) | [] => None end
  end.

(** [_collect_new_request_batch] up to its loop. *)
Definition collect_start (m : message) : pc :=
  if match c_batch_fn cfg with Some _ => bool_decide (c_max_batch_size cfg ≤ 1) | None => true end then PClassify m [m] [] []
  else match is_streaming_payload h (im_data m) with
       | Raise e => PRaise m e
       | Ok true => PClassify m [m] [] []
       | Ok false => match _message_cost m with Ok c => PCollect m [m] c | Raise e => PRaise m e end
       end.

(** The error of one message, which leaves the batch. *)
Definition fail_message (m : message) (e : exn) (s : state) : state :=
  abort (im_request_id m) (put_out (im_request_id m) (EError e) s).

(** One iteration of its loop. *)
Definition _collect_new_request_batch (first : message) (batch : list message) (batch_cost : Z) (s : state) : state :=
  if bool_decide (c_max_batch_size cfg ≤ length batch) then goto (PClassify first batch [] []) s
  else match inbox s with
  | [] => goto (PClassify first batch [] []) s
  | m :: l =>
      let s := set_queues l (_pending_messages s) s in
      if is_aborted (im_request_id m) s then drop m s
      else if negb (is_new m) then
        let s' := set_queues l (_pending_messages s ++ [m]) s in
        if bool_decide (im_type m = StreamDone) && bool_decide (_stream_payloads s !! im_request_id m = None) then s'
        else goto (PClassify first batch [] []) s'
      else match is_streaming_payload h (im_data m) with
      | Raise e => drop m (fail_message m e s)
      | Ok true => goto (PClassify first batch [] []) (set_queues l (_pending_messages s ++ [m]) s)
      | Ok false =>
          match c_max_batch_cost cfg with
          | None => goto (PCollect first (batch ++ [m]) batch_cost) (take m s)
          | Some limit =>
              match _message_cost m with
              | Raise e => drop m (fail_message m e s)
              | Ok cost =>
                  if bool_decide (limit < batch_cost + cost)%Z
                  then goto (PClassify first batch [] []) (set_queues l (m :: _pending_messages s) s)
                  else goto (PCollect first (batch ++ [m]) (batch_cost + cost)) (take m s)
              end
          end
      end
  end.

(** One iteration of [_collect_stream_chunk_batch]. *)
Definition chunk_cap : nat := match c_stream_chunk_batch_max cfg with Some (S n) => S n | _ => Nat.max (c_max_batch_size cfg) 1 end.

Definition _collect_stream_chunk_batch (batch : list message) (seen : gset string) (s : state) : state :=
  if bool_decide (chunk_cap ≤ length batch) then goto (PHandleChunks batch []) s
  else match inbox s with
  | [] => goto (PHandleChunks batch []) s
  | m :: l =>
      let push_back := goto (PHandleChunks batch []) (set_queues l (m :: _pending_messages s) s) in
      if negb (bool_decide (im_type m = StreamChunk)) then push_back
      else if is_aborted (im_request_id m) s then drop m (set_queues l (_pending_messages s) s)
      else if c_stream_chunk_batch_distinct_requests cfg && bool_decide (im_request_id m ∈ seen) then push_back
      else goto (PChunks (batch ++ [m]) ({[im_request_id m]} ∪ seen)) (take m (set_queues l (_pending_messages s) s))
  end.

(** ** Streaming *)
Definition next (k : caller) : pc :=
  match k with FromLoop _ => PIdle | FromNews first rest plain => PNews first rest plain | FromChunks rest => PItems rest end.

(** An exception of a handler: the batch of chunks goes on, the loop ends its turn. *)
Definition raised (r : string) (e : exn) (k : caller) (s : state) : state :=
  match k with
  | FromLoop m => goto (PRaise m e) s
  | FromNews first _ _ => goto (PRaise first e) s
  | FromChunks rest => goto (PItems rest) (abort r (put_out r (EError e) s))
  end.

(** [_handle_stream_chunk], up to the emission. *)
Definition _handle_stream_chunk (r : string) (item : I) (k : caller) (s : state) : state :=
  let (w, outs) := on_stream_chunk h r item (hook_state s) in
  match outs with Ok outs => goto (PEmit r outs false k) (set_hook w s) | Raise e => raised r e k (set_hook w s) end.

(** [_handle_stream_done], up to the emission. *)
Definition _handle_stream_done (r : string) (k : caller) (s : state) : state :=
  match _stream_payloads s !! r with
  | None =>
      if bool_decide (r ∈ _completed_non_streaming_request_ids s) then goto (next k) s
      else goto (next k) (set_done (λ X, {[r]} ∪ X) s)
  | Some _ =>
      let (w, outs) := on_stream_done h r (hook_state s) in
      match outs with Ok outs => goto (PEmit r outs true k) (set_hook w s) | Raise e => raised r e k (set_hook w s) end
  end.

(** The loops over the outputs, and what follows the last one. *)
Definition emit (r : string) (outs : list O) (last : bool) (k : caller) (s : state) : state :=
  match outs with
  | o :: outs => goto (PEmit r outs last k) (if is_aborted r s then s else put_out r (EOut o) s)
  | [] => goto (next k)
      (if last && negb (is_aborted r s) then note ∅ ∅ {[r]} ∅ ∅ (_clear_request_state r false s) else s)
  end.

(** [_handle_streaming_new_request] under the state lock. *)
Definition _handle_streaming_new_request (first m : message) (rest plain : list message) (s : state) : state :=
  let r := im_request_id m in
  let s := note {[r]} ∅ ∅ ∅ ∅ (set_payloads (<[r := im_data m]>) (set_completed (λ X, X ∖ {[r]}) s)) in
  let (w, res) := on_streaming_new_request h r (im_data m) (hook_state s) in
  let s := set_hook w s in
  match res with
  | Raise e => raised r e (FromNews first rest plain) s
  | Ok _ => if bool_decide (r ∈ _pending_done s)
            then goto (PDone r (FromNews first rest plain)) (set_done (λ X, X ∖ {[r]}) s)
            else goto (PNews first rest plain) s
  end.

(** ** Non-streaming *)
Definition _run_compute (d : D) : res R :=
  match c_fn cfg with None => Raise (RuntimeError "does not support non-streaming compute") | Some f => f d end.

(** The answer of one request, unless it is aborted. *)
Definition answer (m : message) (x : emitted) (s : state) : state :=
  if is_aborted (im_request_id m) s then s
  else _record_completed_non_streaming_request_id (im_request_id m) (put_out (im_request_id m) x s).

(** The validation of one request of the batch. *)
Definition validate_one (acc : list message * state) (m : message) : list message * state :=
  match validate_non_streaming_payload h (im_data m) with
  | Ok _ => (acc.1 ++ [m], acc.2)
  | Raise e => (acc.1, _record_completed_non_streaming_request_id (im_request_id m) (put_out (im_request_id m) (EError e) acc.2))
  end.

(** [_run_non_streaming_batch], up to the computation and with it when it is one call. *)
Definition _run_non_streaming_batch (batch : list message) (s : state) : state :=
  let active := filter (λ m, negb (is_aborted (im_request_id m) s)) batch in
  let s := set_done (λ X, X ∖ list_to_set (map im_request_id active)) s in
  let '(valid, s) := fold_left validate_one active ([], s) in
  match c_batch_fn cfg with
  | Some f =>
      if bool_decide (length valid ≤ 1) then goto (PSingle valid) s
      else goto (PResults match f (map im_data valid) with
                          | Raise e => map (λ m, (m, EError e)) valid
                          | Ok results =>
                              if bool_decide (length results = length valid) then zip valid (map EResult results)
                              else map (λ m, (m, EError (ValueError "batch_compute_fn returned a wrong number of results"))) valid
                          end) s
  | None => goto (PSingle valid) s
  end.

Definition answer_of (r : res R) : emitted := match r with Ok x => EResult x | Raise e => EError e end.

(** ** The loop *)
(** [_handle_message]. *)
Definition _handle_message (m : message) (s : state) : state :=
  match im_type m with
  | NewRequest => goto (collect_start m) s
  | StreamChunk =>
      if c_can_batch_stream_chunks cfg then goto (PChunks [m] {[im_request_id m]}) s
      else match as_item h (im_data m) with
           | None => goto (PRaise m (TypeError "expected StreamItem")) s
           | Some item => _handle_stream_chunk (im_request_id m) item (FromLoop m) s
           end
  | StreamDone => goto (PDone (im_request_id m) (FromLoop m)) s
  end.

Definition tick (s : state) : option state :=
  match at_pc s with
  | PIdle => _next_message s
  | PTaken m =>
      Some (if is_aborted (im_request_id m) s then goto PIdle (drop m s) else _handle_message m (take m s))
  | PCollect first batch cost => Some (_collect_new_request_batch first batch cost s)
  | PChunks batch seen => Some (_collect_stream_chunk_batch batch seen s)
  | PClassify first [] streaming plain => Some (goto (PNews first streaming plain) s)
  | PClassify first (m :: rest) streaming plain => Some
      match is_streaming_payload h (im_data m) with
      | Raise e => goto (PClassify first rest streaming plain) (fail_message m e s)
      | Ok true => goto (PClassify first rest (streaming ++ [m]) plain) s
      | Ok false => goto (PClassify first rest streaming (plain ++ [m])) s
      end
  | PNews first [] [] => Some (goto PIdle s)
  | PNews first [] plain => Some (goto (PPlain plain) (note ∅ ∅ ∅ ∅ (list_to_set (map im_request_id plain)) s))
  | PNews first (m :: rest) plain =>
      Some (if is_aborted (im_request_id m) s then goto (PNews first rest plain) s else goto (PNew first m rest plain) s)
  | PNew first m rest plain => Some (goto (PNewLocked first m rest plain) (set_aborted (λ X, X ∖ {[im_request_id m]}) s))
  | PNewLocked first m rest plain => Some (_handle_streaming_new_request first m rest plain s)
  | PDone r k => Some (_handle_stream_done r k (note ∅ {[r]} ∅ ∅ ∅ s))
  | PEmit r outs last k => Some (emit r outs last k s)
  | PHandleChunks [] items => Some (goto (PItems (filter (λ x, negb (is_aborted x.1 s)) items)) s)
  | PHandleChunks (m :: rest) items => Some
      (if is_aborted (im_request_id m) s then goto (PHandleChunks rest items) s
       else match as_item h (im_data m) with
            | None => goto (PHandleChunks rest items) (fail_message m (TypeError "expected StreamItem") s)
            | Some item => goto (PHandleChunks rest (items ++ [(im_request_id m, item)])) s
            end)
  | PItems [] => Some (goto PIdle s)
  | PItems ((r, item) :: rest) => Some (if is_aborted r s then goto (PItems rest) s else _handle_stream_chunk r item (FromChunks rest) s)
  | PPlain batch => Some (_run_non_streaming_batch batch s)
  | PSingle [] => Some (goto PIdle s)
  | PSingle (m :: rest) =>
      Some (if is_aborted (im_request_id m) s then goto (PSingle rest) s else goto (PComputed m (_run_compute (im_data m)) rest) s)
  | PComputed m r rest => Some (goto (PSingle rest) (answer m (answer_of r) s))
  | PResults [] => Some (goto PIdle s)
  | PResults ((m, x) :: rest) => Some (goto (PResults rest) (answer m x s))
  | PRaise m e => Some (goto PIdle (fail_message m e s))
  end.

(** The loop holds the state lock. *)
Definition locked (p : pc) : bool :=
  match p with PEmit _ _ _ _ | PDone _ (FromNews _ _ _) => true | _ => false end.

(** What other threads do: [abort] marks, then clears once it has the state lock. *)
Definition put (m : message) (s : state) : state :=
  mkState (inbox s ++ [m]) (_pending_messages s) (_pending_done s) (_stream_payloads s) (_aborted_request_ids s) (_completed_non_streaming_request_ids s) (hook_state s) (outbox s) (at_pc s) (aborting s) (arrived s ++ [m]) (handled s) (dropped s) (opened s) (doned s) (closed s) (aborts s) (plained s).

Inductive step (s : state) : state → Prop :=
| s_tick s' : tick s = Some s' → step s s'
| s_put m : step s (put m s)
| s_abort r : step s (set_aborting (λ X, {[r]} ∪ X) (_record_aborted_request_id r s))
| s_clear r : r ∈ aborting s → locked (at_pc s) = false →
    step s (set_aborting (λ X, X ∖ {[r]}) (_clear_request_state r true s)).

(** ** Order *)
(** A request the batches of non-streaming requests may take. *)
Definition plain (m : message) : Prop := im_type m = NewRequest ∧ is_streaming_payload h (im_data m) ≠ Ok true.
#[local] Instance plain_dec m : Decision (plain m).
Proof. unfold plain. destruct (is_streaming_payload h (im_data m)) as [[]|]; [right; naive_solver|..]; destruct (im_type m); (left; split; [done|done]) || right; naive_solver. Defined.
Definition done_message (m : message) : Prop := im_type m = StreamDone.
#[local] Instance done_message_dec m : Decision (done_message m).
Proof. unfold done_message. apply _. Defined.

Definition no_dones : list message → list message := filter (λ m, ¬ done_message m).
Definition no_plains : list message → list message := filter (λ m, ¬ plain m).

Definition taken (p : pc) : list message := match p with PTaken m => [m] | _ => [] end.

(** The messages not dropped, in the order the loop takes them. *)
Definition in_order (s : state) : list message := handled s ++ taken (at_pc s) ++ _pending_messages s ++ inbox s.

(** The messages put back: deferred dones before at most one message, or a request over
    the cost limit before deferred dones. *)
Definition put_back (l : list message) : Prop :=
  (∃ ds x, l = ds ++ x ∧ Forall done_message ds ∧ length x ≤ 1) ∨ (∃ m ds, l = m :: ds ∧ plain m ∧ Forall done_message ds).

Definition queues_ok (p : pc) (l : list message) : Prop :=
  match p with
  | PTaken m => (done_message m ∧ put_back l) ∨ (plain m ∧ Forall done_message l) ∨ l = []
  | PCollect _ _ _ => Forall done_message l
  | PChunks _ _ => l = []
  | _ => put_back l
  end.

Record order_inv (s : state) : Prop := {
  oi_dones : no_dones (in_order s) `sublist_of` no_dones (arrived s);
  oi_plains : no_plains (in_order s) `sublist_of` no_plains (arrived s);
  oi_all : arrived s ≡ₚ dropped s ++ in_order s;
  oi_aborts : _aborted_request_ids s ⊆ aborts s;
  oi_dropped : Forall (λ m, im_request_id m ∈ aborts s) (dropped s);
  oi_queues : queues_ok (at_pc s) (_pending_messages s);
}.

Lemma filter_sublist {A} (P : A → Prop) `{∀ x, Decision (P x)} (l k : list A) :
  l `sublist_of` k → filter P l `sublist_of` filter P k.
Proof.
  induction 1 as [|x l k Hs IH|x l k Hs IH]; [done|..]; rewrite ?filter_cons; case_decide; try by constructor. all: exact IH.
Qed.

(** A step that leaves the queues alone. *)
Lemma order_same s s' : order_inv s → in_order s' = in_order s → arrived s' = arrived s → dropped s' = dropped s →
  aborts s ⊆ aborts s' → _aborted_request_ids s' ⊆ aborts s' → queues_ok (at_pc s') (_pending_messages s') → order_inv s'.
Proof.
  intros [H1 H2 H3 H4 H5 H6] Hi Ha Hd Hs Hab Hq. split; rewrite ?Hi, ?Ha, ?Hd; try done.
  eapply Forall_impl; [exact H5|]. set_solver.
Qed.

(** A step that moves a message over messages it need not be ordered with. *)
Lemma order_moved s s' : order_inv s → no_dones (in_order s') = no_dones (in_order s) → no_plains (in_order s') = no_plains (in_order s) →
  in_order s' ≡ₚ in_order s → arrived s' = arrived s → dropped s' = dropped s → aborts s' = aborts s →
  _aborted_request_ids s' = _aborted_request_ids s → queues_ok (at_pc s') (_pending_messages s') → order_inv s'.
Proof.
  intros [H1 H2 H3 H4 H5 H6] Hd Hp Hi Ha Hdr Hab Habd Hq. split; rewrite ?Ha, ?Hdr, ?Hab, ?Habd, ?Hd, ?Hp; try done. by rewrite Hi.
Qed.

(** A step that drops the message [m] of a request that is aborted. *)
Lemma order_drop m l k s s' : order_inv s → in_order s = l ++ m :: k → in_order s' = l ++ k → arrived s' = arrived s →
  dropped s' = dropped s ++ [m] → aborts s ⊆ aborts s' → _aborted_request_ids s' ⊆ aborts s' → im_request_id m ∈ aborts s' →
  queues_ok (at_pc s') (_pending_messages s') → order_inv s'.
Proof.
  intros [H1 H2 H3 H4 H5 H6] Hi Hi' Ha Hd Hs Hab Hm Hq.
  assert (Hsub : l ++ k `sublist_of` l ++ m :: k) by (apply sublist_app; [done|by apply sublist_cons]).
  split; rewrite ?Hi', ?Ha, ?Hd; rewrite ?Hi in *; try done.
  - etrans; [|exact H1]. by apply filter_sublist.
  - etrans; [|exact H2]. by apply filter_sublist.
  - rewrite H3, <- app_assoc. simpl. apply Permutation_app_head. by rewrite Permutation_middle.
  - apply Forall_app. split; [|by repeat constructor]. eapply Forall_impl; [exact H5|]. set_solver.
Qed.

Lemma no_dones_app l k : no_dones (l ++ k) = no_dones l ++ no_dones k.
Proof. apply filter_app. Qed.
Lemma no_plains_app l k : no_plains (l ++ k) = no_plains l ++ no_plains k.
Proof. apply filter_app. Qed.
Lemma no_dones_dones l : Forall done_message l → no_dones l = [].
Proof. induction 1 as [|m l Hm _ IH]; [done|]. unfold no_dones in *. by rewrite filter_cons_False by naive_solver. Qed.
Lemma no_plains_one m : plain m → no_plains [m] = [].
Proof. intros Hm. unfold no_plains. by rewrite filter_cons_False by naive_solver. Qed.

Lemma put_back_dones l : Forall done_message l → put_back l.
Proof. intros Hl. left. exists l, []. split; [by rewrite app_nil_r|]. split; [done|simpl; lia]. Qed.
Lemma put_back_snoc l m : Forall done_message l → put_back (l ++ [m]).
Proof. intros Hl. left. by exists l, [m]. Qed.
Lemma put_back_cons m l : plain m → Forall done_message l → put_back (m :: l).
Proof. intros Hm Hl. right. by exists m, l. Qed.
Lemma put_back_one m : put_back [m].
Proof. apply (put_back_snoc [] m). constructor. Qed.

Lemma put_back_pop m l : put_back (m :: l) → (done_message m ∧ put_back l) ∨ (plain m ∧ Forall done_message l) ∨ l = [].
Proof.
  intros [(ds & x & Heq & Hds & Hx)|(m' & ds & [= <- <-] & Hp & Hds)]; [|auto].
  destruct ds as [|d ds]; simpl in Heq.
  - destruct x as [|y [|z x]]; simpl in *; [done| |lia]. injection Heq as <- <-. auto.
  - injection Heq as <- ->. left. inversion Hds; subst. split; [done|]. left. by exists ds, x.
Qed.

Lemma queues_taken m l : queues_ok (PTaken m) l → put_back l.
Proof. intros [[_ ?]|[[_ ?]| ->]]; [done|by apply put_back_dones|apply put_back_dones; constructor]. Qed.

(** Only the queue and the loop's place change. *)
Lemma goto_order p s : order_inv s → taken p = taken (at_pc s) → queues_ok p (_pending_messages s) → order_inv (goto p s).
Proof. intros H Ht Hq. apply (order_same s); [done|..]; try done. - unfold in_order. simpl. by rewrite Ht. - apply H. Qed.

Lemma idle_queues p l : put_back l → match p with PTaken _ | PCollect _ _ _ | PChunks _ _ => False | _ => True end → queues_ok p l.
Proof. by destruct p. Qed.

Lemma order_next s s' : order_inv s → at_pc s = PIdle → _next_message s = Some s' → order_inv s'.
Proof.
  intros H Hpc Hn. unfold _next_message in Hn. pose proof (oi_queues _ H) as Hq. rewrite Hpc in Hq. simpl in Hq.
  destruct (_pending_messages s) as [|m l] eqn:Hp; [destruct (inbox s) as [|m l] eqn:Hi; [done|]|]; injection Hn as <-.
  - apply (order_same s); [done|..]; try done; [|apply H|by right; right]. unfold in_order. simpl. by rewrite Hpc, Hp, Hi.
  - apply (order_same s); [done|..]; try done; [|apply H|by apply put_back_pop]. unfold in_order. simpl. by rewrite Hpc, Hp.
Qed.

(** The deferred dones are passed over by a request of the batch. *)
Lemma order_pass s s' m l : order_inv s → Forall done_message (_pending_messages s) → plain m → inbox s = m :: l → taken (at_pc s) = [] →
  in_order s' = handled s ++ [m] ++ _pending_messages s ++ l → arrived s' = arrived s → dropped s' = dropped s → aborts s' = aborts s →
  _aborted_request_ids s' = _aborted_request_ids s → queues_ok (at_pc s') (_pending_messages s') → order_inv s'.
Proof.
  intros H Hds Hm Hi Ht Hi' Ha Hd Hab Habd Hq. apply (order_moved s); try done; rewrite Hi'; unfold in_order; rewrite Ht, Hi, app_nil_l.
  - rewrite !no_dones_app. rewrite (no_dones_dones _ Hds). f_equal. symmetry. apply (no_dones_app [m] l).
  - rewrite !no_plains_app. rewrite (no_plains_one _ Hm), app_nil_l. do 2 f_equal. symmetry. etrans; [apply (no_plains_app [m] l)|by rewrite (no_plains_one _ Hm)].
  - rewrite !(assoc_L app). rewrite <- !(assoc_L app). f_equiv. simpl. by rewrite Permutation_middle.
Qed.

Lemma abort_aborted r s : _aborted_request_ids (abort r s) ⊆ {[r]} ∪ _aborted_request_ids s.
Proof. unfold abort, _record_aborted_request_id, bounded_add. simpl. case_bool_decide; set_solver. Qed.

(** A handler does not touch the queues. *)
Definition handling (p : pc) : Prop := match p with PTaken _ | PCollect _ _ _ | PChunks _ _ => False | _ => True end.
Definition marks_ok (s s' : state) : Prop :=
  aborts s ⊆ aborts s' ∧ (_aborted_request_ids s ⊆ aborts s → _aborted_request_ids s' ⊆ aborts s').
Definition same_queues (s s' : state) : Prop :=
  inbox s' = inbox s ∧ _pending_messages s' = _pending_messages s ∧ arrived s' = arrived s ∧ handled s' = handled s ∧ dropped s' = dropped s.
Definition neutral (s s' : state) : Prop := same_queues s s' ∧ marks_ok s s' ∧ handling (at_pc s').

Lemma order_neutral s s' : order_inv s → neutral s s' → taken (at_pc s) = [] → put_back (_pending_messages s) → order_inv s'.
Proof.
  intros H ((Hi & Hp & Ha & Hh & Hd) & (Hm & Hm') & Hpc) Ht Hq. apply (order_same s); try done.
  - unfold in_order. rewrite Hi, Hp, Hh, Ht. by destruct (at_pc s').
  - apply Hm', H.
  - apply idle_queues; [by rewrite Hp|]. by destruct (at_pc s').
Qed.

Lemma marks_refl s s' : aborts s' = aborts s → _aborted_request_ids s' = _aborted_request_ids s → marks_ok s s'.
Proof. intros Ha Hb. unfold marks_ok. rewrite Ha, Hb. done. Qed.

Lemma neutral_same s s' : same_queues s s' → aborts s' = aborts s → _aborted_request_ids s' = _aborted_request_ids s →
  handling (at_pc s') → neutral s s'.
Proof. intros Hq Ha Hb Hp. split; [done|]. split; [by apply marks_refl|done]. Qed.

Lemma neutral_goto p s s' : same_queues s s' → aborts s' = aborts s → _aborted_request_ids s' = _aborted_request_ids s →
  handling p → neutral s (goto p s').
Proof. intros Hq Ha Hb Hp. by apply neutral_same. Qed.
Lemma handling_next k : handling (next k).
Proof. by destruct k. Qed.

Ltac stay := apply neutral_goto; [by split_and!|done|done|first [done|apply handling_next|idtac]].

Lemma marks_abort r s : marks_ok s (abort r s).
Proof.
  split; [simpl; set_solver|]. intros H. pose proof (abort_aborted r s). simpl in *. set_solver.
Qed.

Lemma neutral_fail m e p s : handling p → neutral s (goto p (fail_message m e s)).
Proof. intros Hp. split; [by split_and!|]. split; [apply (marks_abort _ (put_out _ _ s))|done]. Qed.

Lemma neutral_raised r e k s s' : same_queues s s' → marks_ok s s' → neutral s (raised r e k s').
Proof.
  intros Hq Hm. unfold raised. destruct k; [by split..|]. split; [done|]. split; [|done].
  destruct Hm as [Hm1 Hm2]. destruct (marks_abort r (put_out r (EError e) s')) as [Ha1 Ha2]. split; [by etrans|auto].
Qed.

Lemma neutral_chunk r item k s : neutral s (_handle_stream_chunk r item k s).
Proof.
  unfold _handle_stream_chunk. destruct (on_stream_chunk _ _ _ _) as [w [outs|e]]; [stay|].
  apply neutral_raised; [by split_and!|by apply marks_refl].
Qed.

Lemma neutral_done r k s : neutral s (_handle_stream_done r k (note ∅ {[r]} ∅ ∅ ∅ s)).
Proof.
  assert (Hm : ∀ p s', same_queues s s' → aborts s' = ∅ ∪ aborts s → _aborted_request_ids s' = _aborted_request_ids s → handling p → neutral s (goto p s')).
  { intros p s' Hq Ha Hb Hp. split; [done|]. split; [|done]. unfold marks_ok. simpl. rewrite Ha, Hb. set_solver. }
  unfold _handle_stream_done. simpl. destruct (_stream_payloads s !! r); [|case_bool_decide].
  - destruct (on_stream_done _ _ _) as [w [outs|e]]; [apply Hm; [by split_and!|done..]|].
    apply neutral_raised; [by split_and!|]. split; simpl; set_solver.
  - apply Hm; [by split_and!|done|done|apply handling_next].
  - apply Hm; [by split_and!|done|done|apply handling_next].
Qed.

Lemma neutral_emit r outs last k s : neutral s (emit r outs last k s).
Proof.
  unfold emit. destruct outs as [|o outs]; simpl.
  - destruct (_ && _); [|stay]. split; [by split_and!|]. split; [|apply handling_next]. split; simpl; set_solver.
  - destruct (is_aborted r s); stay.
Qed.

Lemma neutral_new first m rest l s : neutral s (_handle_streaming_new_request first m rest l s).
Proof.
  unfold _handle_streaming_new_request. destruct (on_streaming_new_request _ _ _ _) as [w [|e]]; [case_bool_decide|].
  all: split; [by split_and!|]; split; [|done]; split; simpl; set_solver.
Qed.

Lemma validate_queues l acc : same_queues acc.2 (fold_left validate_one l acc).2 ∧
  aborts (fold_left validate_one l acc).2 = aborts acc.2 ∧ _aborted_request_ids (fold_left validate_one l acc).2 = _aborted_request_ids acc.2.
Proof.
  revert acc. induction l as [|m l IH]; intros acc; simpl; [by split_and!|].
  unfold same_queues in *. destruct (IH (validate_one acc m)) as ((-> & -> & -> & -> & ->) & -> & ->).
  unfold validate_one. by destruct (validate_non_streaming_payload _ _).
Qed.

Lemma neutral_plain batch s : neutral s (_run_non_streaming_batch batch s).
Proof.
  unfold _run_non_streaming_batch. set (active := filter _ batch).
  pose proof (validate_queues active ([], set_done (λ X, X ∖ list_to_set (map im_request_id active)) s)) as (Hq & Ha & Hb).
  destruct (fold_left _ _ _) as [valid s']. simpl in *. destruct Hq as (? & ? & ? & ? & ?).
  destruct (c_batch_fn cfg); [case_bool_decide|]; apply neutral_goto; [by split_and!|done..].
Qed.

Lemma neutral_answer m x p s : handling p → neutral s (goto p (answer m x s)).
Proof. intros Hp. unfold answer. destruct (is_aborted _ s); stay; done. Qed.

(** The steps of the loop while it handles something. *)
Lemma tick_neutral s s' : tick s = Some s' → handling (at_pc s) → at_pc s ≠ PIdle → neutral s s'.
Proof.
  intros Ht Hh Hi. unfold tick in Ht. destruct (at_pc s) eqn:Hpc; try done.
  - destruct rest as [|m rest]; injection Ht as <-; [stay|].
    destruct (is_streaming_payload _ _) as [[]|]; [stay..|by apply neutral_fail].
  - destruct rest as [|m rest]; [destruct plain0|]; injection Ht as <-; [stay| |].
    + split; [by split_and!|]. split; [|done]. split; simpl; set_solver.
    + destruct (is_aborted _ s); stay.
  - injection Ht as <-. split; [by split_and!|]. split; [|done]. split; simpl; set_solver.
  - injection Ht as <-. apply neutral_new.
  - injection Ht as <-. apply neutral_done.
  - injection Ht as <-. apply neutral_emit.
  - destruct rest as [|m rest]; injection Ht as <-; [stay|].
    destruct (is_aborted _ s); [stay|]. destruct (as_item _ _); [stay|by apply neutral_fail].
  - destruct rest as [|[r item] rest]; injection Ht as <-; [stay|].
    destruct (is_aborted _ s); [stay|apply neutral_chunk].
  - injection Ht as <-. apply neutral_plain.
  - destruct rest as [|m rest]; injection Ht as <-; [stay|]. destruct (is_aborted _ s); stay.
  - injection Ht as <-. by apply neutral_answer.
  - destruct rest as [|[m x] rest]; injection Ht as <-; [stay|by apply neutral_answer].
  - injection Ht as <-. by apply neutral_fail.
Qed.

(** The loop takes a message off its queue for good. *)
Lemma order_take s m : order_inv s → at_pc s = PTaken m → order_inv (goto PIdle (take m s)).
Proof.
  intros H Hpc. pose proof (oi_queues _ H) as Hq. rewrite Hpc in Hq. apply queues_taken in Hq.
  apply (order_same s); try done; [|apply H]. unfold in_order. simpl. rewrite Hpc. by rewrite <- app_assoc.
Qed.

Lemma order_drop_taken s m : order_inv s → at_pc s = PTaken m → is_aborted (im_request_id m) s = true → order_inv (goto PIdle (drop m s)).
Proof.
  intros H Hpc Ha. pose proof (oi_queues _ H) as Hq. rewrite Hpc in Hq. apply queues_taken in Hq.
  apply bool_decide_eq_true in Ha. pose proof (oi_aborts _ H) as Hab.
  apply (order_drop m (handled s) (_pending_messages s ++ inbox s) s); try done; [|by apply Hab].
  unfold in_order. by rewrite Hpc.
Qed.

(** What [_handle_message] leaves: a batch to collect, or a handler. *)
Lemma order_handle s m : order_inv s → at_pc s = PTaken m → order_inv (_handle_message m (take m s)).
Proof.
  intros H Hpc. pose proof (order_take s m H Hpc) as H1. pose proof (oi_queues _ H) as Hq. rewrite Hpc in Hq.
  assert (Hpb : put_back (_pending_messages s)) by by eapply queues_taken.
  assert (Hgo : ∀ p, queues_ok p (_pending_messages s) → taken p = [] → order_inv (goto p (take m s))).
  { intros p Hp Ht. by apply (goto_order p (goto PIdle (take m s))). }
  unfold _handle_message. destruct (im_type m) eqn:Hty.
  - unfold collect_start. case_match; [by apply Hgo|]. destruct (is_streaming_payload h (im_data m)) as [[]|] eqn:Hst; [by apply Hgo| |by apply Hgo].
    destruct (_message_cost m); [|by apply Hgo]. apply Hgo; [|done]. simpl.
    destruct Hq as [[Hd _]|[[_ ?]| ->]]; [unfold done_message in Hd; congruence|done|constructor].
  - destruct (c_can_batch_stream_chunks cfg).
    + apply Hgo; [|done]. destruct Hq as [[Hd _]|[[[Hn _] _]| ->]]; [unfold done_message in Hd; congruence|congruence|done].
    + destruct (as_item h (im_data m)) as [item|]; [|by apply Hgo].
      apply (order_neutral (goto PIdle (take m s))); [done|exact (neutral_chunk (im_request_id m) item (FromLoop m) (take m s))|done..].
  - by apply Hgo.
Qed.

Lemma order_collect s first batch cost : order_inv s → at_pc s = PCollect first batch cost →
  order_inv (_collect_new_request_batch first batch cost s).
Proof.
  intros H Hpc. pose proof (oi_queues _ H) as Hds. rewrite Hpc in Hds. simpl in Hds. pose proof (oi_aborts _ H) as Hab.
  assert (Hpb : put_back (_pending_messages s)) by by apply put_back_dones.
  assert (Ht : taken (at_pc s) = []) by by rewrite Hpc.
  unfold _collect_new_request_batch. case_bool_decide as Hlen; [by apply goto_order|].
  destruct (inbox s) as [|m l] eqn:Hi; [by apply goto_order|].
  assert (Hio : in_order s = (handled s ++ _pending_messages s) ++ m :: l) by (unfold in_order; by rewrite Ht, Hi, <- app_assoc).
  assert (Hdrop : ∀ s', s' = s ∨ (∃ e, s' = fail_message m e s) → im_request_id m ∈ aborts s' →
    order_inv (drop m (set_queues l (_pending_messages s) s'))).
  { intros s' Hs' Hm. apply (order_drop m (handled s ++ _pending_messages s) l s); try done.
    all: destruct Hs' as [->|[e ->]]; simpl; rewrite ?Hpc; try done; try (unfold in_order; simpl; rewrite ?Hpc; by rewrite <- app_assoc).
    all: try (pose proof (abort_aborted (im_request_id m) s); simpl in *; set_solver). }
  assert (Hpush : ∀ p, queues_ok p (_pending_messages s ++ [m]) → taken p = [] →
    order_inv (goto p (set_queues l (_pending_messages s ++ [m]) s))).
  { intros p Hp Htp. apply (order_same s); try done. rewrite Hio. unfold in_order. simpl. rewrite Htp. simpl. by rewrite <- !app_assoc. }
  simpl. destruct (is_aborted _ _) eqn:Habm; [apply Hdrop; [by left|by apply Hab, (bool_decide_eq_true_1 _)]|].
  destruct (is_new m) eqn:Hnew; simpl.
  - apply bool_decide_eq_true in Hnew. destruct (is_streaming_payload h (im_data m)) as [[]|e] eqn:Hst.
    + apply Hpush; [by apply put_back_snoc|done].
    + assert (Hp : plain m) by (split; [done|by rewrite Hst]).
      assert (Htake : ∀ c, order_inv (goto (PCollect first (batch ++ [m]) c) (take m (set_queues l (_pending_messages s) s)))).
      { intros c. apply (order_pass s _ m l); try done. unfold in_order. simpl. by rewrite <- app_assoc. }
      destruct (c_max_batch_cost cfg) as [limit|]; [|by apply Htake].
      destruct (_message_cost m) as [mc|e]; [|apply (Hdrop (fail_message m e s)); [eauto|simpl; set_solver]].
      case_bool_decide; [|by apply Htake]. apply (order_pass s _ m l); try done. simpl. by apply put_back_cons.
    + apply (Hdrop (fail_message m e s)); [eauto|simpl; set_solver].
  - case_match eqn:Hd; [|apply Hpush; [by apply put_back_snoc|done]].
    apply andb_true_iff in Hd as [Hd _]. apply bool_decide_eq_true in Hd.
    assert (Heq : set_queues l (_pending_messages s ++ [m]) s = goto (PCollect first batch cost) (set_queues l (_pending_messages s ++ [m]) s)).
    { unfold set_queues, goto. simpl. by rewrite Hpc. }
    change (order_inv (set_queues l (_pending_messages s ++ [m]) s)). rewrite Heq. apply Hpush; [|done]. simpl. apply Forall_app. split; [done|by repeat constructor].
Qed.

Lemma order_chunks s batch seen : order_inv s → at_pc s = PChunks batch seen → order_inv (_collect_stream_chunk_batch batch seen s).
Proof.
  intros H Hpc. pose proof (oi_queues _ H) as Hds. rewrite Hpc in Hds. simpl in Hds. pose proof (oi_aborts _ H) as Hab.
  assert (Ht : taken (at_pc s) = []) by by rewrite Hpc.
  assert (Hpb : put_back (_pending_messages s)) by (rewrite Hds; by apply put_back_dones).
  unfold _collect_stream_chunk_batch. case_bool_decide; [by apply goto_order|].
  destruct (inbox s) as [|m l] eqn:Hi; [by apply goto_order|].
  assert (Hio : in_order s = handled s ++ m :: l) by (unfold in_order; by rewrite Ht, Hi, Hds).
  assert (Hback : order_inv (goto (PHandleChunks batch []) (set_queues l (m :: _pending_messages s) s))).
  { apply (order_same s); try done; [|rewrite Hds; apply put_back_one]. rewrite Hio. unfold in_order. simpl. by rewrite Hds. }
  case_match; [done|]. destruct (is_aborted _ _) eqn:Habm; [|case_match; [done|]].
  - apply (order_drop m (handled s) l s); try done; [| |simpl; by rewrite Hpc].
    + unfold in_order. simpl. by rewrite Hpc, Hds.
    + simpl. by apply Hab, (bool_decide_eq_true_1 _).
  - apply (order_same s); try done. rewrite Hio. unfold in_order. simpl. by rewrite Hds, <- app_assoc.
Qed.

Lemma order_tick s s' : order_inv s → tick s = Some s' → order_inv s'.
Proof.
  intros H Ht. destruct (at_pc s) eqn:Hpc.
  1: { eapply order_next; [done..|]. unfold tick in Ht. by rewrite Hpc in Ht. }
  1: { unfold tick in Ht. rewrite Hpc in Ht. injection Ht as <-. destruct (is_aborted _ s) eqn:Ha; [by apply order_drop_taken|by apply order_handle]. }
  1: { unfold tick in Ht. rewrite Hpc in Ht. injection Ht as <-. by apply order_collect. }
  1: { unfold tick in Ht. rewrite Hpc in Ht. injection Ht as <-. by apply order_chunks. }
  all: pose proof (oi_queues _ H) as Hq; rewrite Hpc in Hq; eapply order_neutral; [done|apply tick_neutral; rewrite ?Hpc; done|by rewrite Hpc|done].
Qed.

Lemma order_step s s' : order_inv s → step s s' → order_inv s'.
Proof.
  intros H Hs. destruct Hs as [s' Ht|m|r|r Hr Hl].
  - by eapply order_tick.
  - destruct H as [H1 H2 H3 H4 H5 H6]. assert (Hi : in_order (put m s) = in_order s ++ [m]) by (unfold in_order; simpl; by rewrite <- !app_assoc).
    split; rewrite ?Hi; simpl; try done; rewrite ?no_dones_app, ?no_plains_app; try (by apply sublist_app); try (by apply filter_sublist).
    by rewrite H3, <- app_assoc.
  - apply (order_same s); try done; [set_solver| |apply H]. pose proof (abort_aborted r s) as Ha. pose proof (oi_aborts _ H). simpl in *. set_solver.
  - apply (order_same s); try done; apply H.
Qed.

Lemma reachable_ind (P : state → Prop) w s : P (state_init w) → (∀ x z, P x → step x z → P z) → rtc step (state_init w) s → P s.
Proof. intros H0 Hs Hr. refine (rtc_ind_r P _ _ _ _ Hr); eauto. Qed.

Lemma order_init w : order_inv (state_init w).
Proof. split; try done. by apply put_back_dones. Qed.


(** ** The life of a stream *)
Definition streams (m : message) : Prop := is_streaming_payload h (im_data m) = Ok true.

Definition caller_ok (r : string) (k : caller) : Prop :=
  match k with
  | FromLoop m => r = im_request_id m
  | FromNews first rest _ => r = im_request_id first ∧ Forall (.= first) rest
  | FromChunks _ => True
  end.

Definition within (X : gset string) (l : list message) : Prop := Forall (λ m, im_request_id m ∈ X) l.

(** A batch holds a streaming request only when it is that request. *)
Definition life_pc (p : pc) (plained : gset string) : Prop :=
  match p with
  | PCollect first batch _ => Forall (λ m, streams m → m = first) batch
  | PClassify first rest streaming _ => Forall (λ m, streams m → m = first) rest ∧ Forall (.= first) streaming
  | PNews first rest _ => Forall (.= first) rest
  | PNew first m rest _ | PNewLocked first m rest _ => m = first ∧ Forall (.= first) rest
  | PDone r k => caller_ok r k ∧ match k with FromChunks _ => False | _ => True end
  | PEmit r _ _ k => caller_ok r k
  | PPlain batch => within plained batch
  | PSingle rest => within plained rest
  | PComputed m _ rest => within plained (m :: rest)
  | PResults rest => within plained rest.*1
  | _ => True
  end.

(** The loop is about to close the stream of the request, or to abort it. *)
Definition finishing (p : pc) (r : string) : Prop :=
  match p with PDone r' _ | PEmit r' _ true _ => r = r' | PRaise m _ => r = im_request_id m | _ => False end.
Definition raising (p : pc) (r : string) : Prop := match p with PRaise m _ => r = im_request_id m | _ => False end.

Record life_inv (s : state) : Prop := {
  lf_aborted : _aborted_request_ids s ⊆ aborts s;
  lf_aborting : aborting s ⊆ aborts s;
  lf_completed : _completed_non_streaming_request_ids s ⊆ plained s;
  lf_latched r : r ∈ _pending_done s → _stream_payloads s !! r = None ∨ raising (at_pc s) r;
  lf_doned r : r ∈ doned s → r ∈ aborts s ∨ r ∈ plained s ∨ r ∈ closed s ∨ r ∈ _pending_done s ∨ finishing (at_pc s) r;
  lf_opened r : r ∈ opened s → r ∈ aborts s ∨ r ∈ closed s ∨ is_Some (_stream_payloads s !! r);
  lf_pc : life_pc (at_pc s) (plained s);
}.

Lemma union_id (X : gset string) r : r ∈ ∅ ∪ X → r ∈ X.
Proof. set_solver. Qed.

Definition same_life (s s' : state) : Prop :=
  _pending_done s' = _pending_done s ∧ _stream_payloads s' = _stream_payloads s ∧ _aborted_request_ids s' = _aborted_request_ids s ∧
  _completed_non_streaming_request_ids s' = _completed_non_streaming_request_ids s ∧ aborting s' = aborting s ∧ opened s' = opened s ∧
  doned s' = doned s ∧ closed s' = closed s ∧ aborts s' = aborts s ∧ plained s' = plained s.

(** Only the queues, the hook state and the loop's place change. *)
Lemma life_resolved s s' : life_inv s → same_life s s' →
  (∀ r, finishing (at_pc s) r → finishing (at_pc s') r ∨ r ∈ aborts s ∨ r ∈ plained s) →
  (∀ r, raising (at_pc s) r → raising (at_pc s') r) → life_pc (at_pc s') (plained s) → life_inv s'.
Proof.
  intros [H1 H2 H3 H4 H5 H6 H7] (E1 & E2 & E3 & E4 & E5 & E6 & E7 & E8 & E9 & E10) Hf Hr Hp.
  split; rewrite ?E1, ?E2, ?E3, ?E4, ?E5, ?E6, ?E7, ?E8, ?E9, ?E10; try done; intros r Hin.
  - destruct (H4 r Hin); auto.
  - destruct (H5 r Hin) as [?|[?|[?|[?|Hx]]]]; auto 6. destruct (Hf r Hx) as [?|[?|?]]; auto 6.
Qed.

Lemma life_same s s' : life_inv s → same_life s s' → (∀ r, finishing (at_pc s) r → finishing (at_pc s') r) →
  (∀ r, raising (at_pc s) r → raising (at_pc s') r) → life_pc (at_pc s') (plained s) → life_inv s'.
Proof. intros H Hs Hf Hr Hp. apply (life_resolved s); auto. Qed.

(** An error of request [r], which is aborted. *)
Lemma life_abort r x s s' : life_inv s → same_life (abort r (put_out r x s)) s' → (∀ r', finishing (at_pc s) r' → r' = r ∨ finishing (at_pc s') r') →
  (∀ r', raising (at_pc s) r' → r' = r ∨ raising (at_pc s') r') → life_pc (at_pc s') (plained s) → life_inv s'.
Proof.
  intros [H1 H2 H3 H4 H5 H6 H7] Hs Hf Hra Hp.
  assert (Hab : ∀ r', r' ∈ {[r]} ∪ aborts s ↔ r' = r ∨ r' ∈ aborts s) by set_solver.
  destruct Hs as (E1 & E2 & E3 & E4 & E5 & E6 & E7 & E8 & E9 & E10).
  split; rewrite ?E1, ?E2, ?E3, ?E4, ?E5, ?E6, ?E7, ?E8, ?E9, ?E10; simpl; [| | |intros r'..|by rewrite union_empty_l_L].
  - pose proof (abort_aborted r s) as Ha. simpl in Ha. clear -H1 Ha. set_solver.
  - clear -H2. set_solver.
  - clear -H3. set_solver.
  - intros [Hin Hne]%elem_of_difference. assert (r' ≠ r) by (intros ->; by apply Hne, elem_of_singleton). rewrite lookup_delete_ne by done.
    destruct (H4 r' Hin) as [?|Hx]; [auto|]. destruct (Hra r' Hx); [done|auto].
  - intros Hin%union_id. rewrite !union_empty_l_L, Hab, elem_of_difference, elem_of_singleton. destruct (decide (r' = r)) as [->|Hne]; [auto|].
    destruct (H5 r' Hin) as [?|[?|[?|[?|Hx]]]]; [auto|..|destruct (Hf r' Hx); [done|auto 6]]; rewrite ?elem_of_union; auto 6.
  - intros Hin%union_id. rewrite !union_empty_l_L, Hab. destruct (decide (r' = r)) as [->|Hne]; [auto|]. rewrite lookup_delete_ne by done.
    destruct (H6 r' Hin) as [?|[?|?]]; rewrite ?elem_of_union; auto 6.
Qed.

Ltac same := by split_and!.
Ltac quiet Hpc := rewrite Hpc; simpl; done.

Lemma life_raised s s' r e k : life_inv s → same_life s s' → caller_ok r k → (∀ r', finishing (at_pc s) r' → r' = r) →
  (∀ r', ¬ raising (at_pc s) r') → life_inv (raised r e k s').
Proof.
  intros H Hs Hk Hf Hr. destruct k as [m|first rest pl|rest]; simpl in *.
  - apply (life_same s); [done|exact Hs| |by intros r' ?%Hr|done]. intros r' Hr'. simpl. rewrite <- Hk. by apply Hf.
  - destruct Hk as [-> Hk]. apply (life_same s); [done|exact Hs| |by intros r' ?%Hr|done]. intros r' Hr'. by apply Hf.
  - destruct Hs as (E1 & E2 & E3 & E4 & E5 & E6 & E7 & E8 & E9 & E10).
    apply (life_abort r (EError e) s); try done; [|by intros r' ?%Hf; left|by intros r' ?%Hr].
    unfold abort, _clear_request_state, _record_aborted_request_id, bounded_add, same_life. simpl.
    by rewrite E1, E2, E3, E4, E5, E6, E7, E8, E9, E10.
Qed.

Lemma life_chunk r item k s : life_inv s → caller_ok r k → (∀ r', ¬ finishing (at_pc s) r') → (∀ r', ¬ raising (at_pc s) r') →
  life_inv (_handle_stream_chunk r item k s).
Proof.
  intros H Hk Hf Hr. unfold _handle_stream_chunk. destruct (on_stream_chunk _ _ _ _) as [w [outs|e]].
  - apply (life_same s); [done|same|by intros r' ?%Hf|by intros r' ?%Hr|done].
  - apply (life_raised s); [done|same|done|by intros r' ?%Hf|done].
Qed.

Lemma life_collect s first batch cost : life_inv s → at_pc s = PCollect first batch cost → life_inv (_collect_new_request_batch first batch cost s).
Proof.
  intros H Hpc. pose proof (lf_pc _ H) as Hb. rewrite Hpc in Hb. simpl in Hb.
  assert (Hgo : ∀ p s', same_life s s' → life_pc p (plained s) → life_inv (goto p s')).
  { intros p s' Hs Hp. apply (life_same s); [done|exact Hs|by rewrite Hpc|by rewrite Hpc|done]. }
  assert (Hq : ∀ i q, life_inv (set_queues i q s)).
  { intros i q. apply (life_same s); [done|same|simpl; by rewrite Hpc..]. }
  assert (Hfail : ∀ m e i q, life_inv (drop m (fail_message m e (set_queues i q s)))).
  { intros m e i q. apply (life_abort (im_request_id m) (EError e) s); [done|same|simpl; by rewrite Hpc..]. }
  unfold _collect_new_request_batch. case_bool_decide; [by apply Hgo|]. destruct (inbox s) as [|m l]; [by apply Hgo|].
  simpl. destruct (is_aborted _ _); [apply (life_same s); [done|same|simpl; by rewrite Hpc..]|].
  destruct (is_new m); simpl; [|destruct (_ && _); [apply Hq|apply Hgo; [same|done]]].
  destruct (is_streaming_payload h (im_data m)) as [[]|e] eqn:Hst; [apply Hgo; [same|done]| |apply Hfail].
  assert (Hadd : Forall (λ m, streams m → m = first) (batch ++ [m])).
  { apply Forall_app. split; [done|]. repeat constructor. unfold streams. by rewrite Hst. }
  destruct (c_max_batch_cost cfg) as [limit|]; [|apply Hgo; [same|done]].
  destruct (_message_cost m); [|apply Hfail]. case_bool_decide; (apply Hgo; [same|done]).
Qed.

Lemma life_chunks s batch seen : life_inv s → at_pc s = PChunks batch seen → life_inv (_collect_stream_chunk_batch batch seen s).
Proof.
  intros H Hpc. unfold _collect_stream_chunk_batch.
  repeat case_match; (apply (life_same s); [done|same|by rewrite Hpc|by rewrite Hpc|by simpl; rewrite ?Hpc]).
Qed.

Lemma life_message s m : life_inv s → at_pc s = PTaken m → life_inv (_handle_message m (take m s)).
Proof.
  intros H Hpc.
  assert (Hgo : ∀ p, life_pc p (plained s) → life_inv (goto p (take m s))).
  { intros p Hp. apply (life_same s); [done|same|by rewrite Hpc|by rewrite Hpc|done]. }
  unfold _handle_message. destruct (im_type m).
  - apply Hgo. unfold collect_start. repeat case_match; try done; simpl; try (split; [|done]); repeat constructor; done.
  - destruct (c_can_batch_stream_chunks cfg); [by apply Hgo|]. destruct (as_item h (im_data m)); [|by apply Hgo].
    apply life_chunk; [|done|intros r'; simpl; rewrite Hpc; by intros []|intros r'; simpl; rewrite Hpc; by intros []].
    apply (life_same s); [done|same|simpl; by rewrite Hpc|simpl; by rewrite Hpc|simpl; by rewrite Hpc].
  - by apply Hgo.
Qed.

(** The done of a stream: ignored, latched, or the stream is about to be closed. *)
Lemma life_done r k s : life_inv s → at_pc s = PDone r k → life_inv (_handle_stream_done r k (note ∅ {[r]} ∅ ∅ ∅ s)).
Proof.
  intros H Hpc. pose proof (lf_pc _ H) as Hk. rewrite Hpc in Hk. destruct Hk as [Hk Hnc].
  assert (H0 : life_inv (note ∅ {[r]} ∅ ∅ ∅ s)).
  { destruct H as [H1 H2 H3 H4 H5 H6 H7]. split; simpl; rewrite ?union_empty_l_L; try done.
    intros r' [->%elem_of_singleton|Hin]%elem_of_union; [rewrite Hpc; simpl; auto 6|auto]. }
  set (s1 := note ∅ {[r]} ∅ ∅ ∅ s) in *. assert (Hpc1 : at_pc s1 = PDone r k) by done. clearbody s1. clear H Hpc.
  assert (Hnext : life_pc (next k) (plained s1)) by (by destruct k as [| |]; [|destruct Hk|]).
  assert (Hnr : ∀ r', ¬ raising (at_pc s1) r') by (rewrite Hpc1; by intros r' []).
  unfold _handle_stream_done. destruct (_stream_payloads s1 !! r) as [d|] eqn:Hp.
  - destruct (on_stream_done _ _ _) as [w [outs|e]].
    + apply (life_same s1); [done|same|by rewrite Hpc1|by intros r' ?%Hnr|done].
    + apply (life_raised s1); [done|same|done|by rewrite Hpc1|done].
  - case_bool_decide as Hc.
    + apply (life_resolved s1); [done|same| |by intros r' ?%Hnr|done]. rewrite Hpc1. intros r' ->. right. right. by apply (lf_completed _ H0).
    + destruct H0 as [H1 H2 H3 H4 H5 H6 H7]. split; simpl; try done.
      * intros r' [->%elem_of_singleton|Hin]%elem_of_union; [by left|]. left. destruct (H4 r' Hin) as [?|Hx]; [done|by destruct (Hnr r')].
      * intros r' Hin. destruct (H5 r' Hin) as [?|[?|[?|[?|Hx]]]]; auto 6; rewrite ?elem_of_union; auto 6.
        rewrite Hpc1 in Hx. simpl in Hx. subst r'. do 3 right. left. left. by apply elem_of_singleton.
Qed.

(** The last output of a stream closes it, unless the request was aborted meanwhile. *)
Lemma life_emit r outs last k s : life_inv s → at_pc s = PEmit r outs last k → life_inv (emit r outs last k s).
Proof.
  intros H Hpc. pose proof (lf_pc _ H) as Hk. rewrite Hpc in Hk. simpl in Hk.
  assert (Hnr : ∀ r', ¬ raising (at_pc s) r') by (rewrite Hpc; by intros r' []).
  assert (Hnext : life_pc (next k) (plained s)) by (by destruct k as [| |]; [|destruct Hk|]).
  unfold emit. destruct outs as [|o outs].
  - destruct last; simpl.
    + destruct (is_aborted r s) eqn:Ha; simpl.
      * apply (life_resolved s); [done|same| |by intros r' ?%Hnr|done]. rewrite Hpc. intros r' ->. right. left.
        apply (lf_aborted _ H). by apply (bool_decide_eq_true_1 _).
      * destruct H as [H1 H2 H3 H4 H5 H6 H7]. split; simpl; rewrite ?union_empty_l_L; try done.
        -- clear -H1. set_solver.
        -- intros r' [Hin Hne]%elem_of_difference. left. rewrite lookup_delete_ne by (intros ->; by apply Hne, elem_of_singleton).
           destruct (H4 r' Hin) as [?|Hx]; [done|by destruct (Hnr r')].
        -- intros r' Hin. rewrite elem_of_union, elem_of_singleton, elem_of_difference, elem_of_singleton.
           destruct (decide (r' = r)) as [->|Hne]; [auto 6|]. destruct (H5 r' Hin) as [?|[?|[?|[?|Hx]]]]; auto 6.
           rewrite Hpc in Hx. by destruct Hne.
        -- intros r' Hin. rewrite elem_of_union, elem_of_singleton. destruct (decide (r' = r)) as [->|Hne]; [auto|].
           rewrite lookup_delete_ne by done. destruct (H6 r' Hin) as [?|[?|?]]; auto.
    + apply (life_same s); [done|same|by rewrite Hpc|by intros r' ?%Hnr|done].
  - destruct (is_aborted r s); (apply (life_same s); [done|same|by rewrite Hpc|by intros r' ?%Hnr|done]).
Qed.

Lemma life_new first m rest pl s : life_inv s → at_pc s = PNewLocked first m rest pl → life_inv (_handle_streaming_new_request first m rest pl s).
Proof.
  intros H Hpc. pose proof (lf_pc _ H) as Hm. rewrite Hpc in Hm. destruct Hm as [-> Hrest].
  unfold _handle_streaming_new_request. destruct (on_streaming_new_request _ _ _ _) as [w res].
  set (r := im_request_id first). destruct H as [H1 H2 H3 H4 H5 H6 H7].
  assert (H5' : ∀ r', r' ∈ doned s → r' ∈ aborts s ∨ r' ∈ plained s ∨ r' ∈ closed s ∨ r' ∈ _pending_done s).
  { intros r' Hin. destruct (H5 r' Hin) as [?|[?|[?|[?|Hx]]]]; auto. by rewrite Hpc in Hx. }
  assert (H4' : ∀ r', r' ∈ _pending_done s → _stream_payloads s !! r' = None).
  { intros r' Hin. destruct (H4 r' Hin) as [?|Hx]; [done|]. by rewrite Hpc in Hx. }
  assert (H6' : ∀ r', r' ∈ {[r]} ∪ opened s → r' ∈ aborts s ∨ r' ∈ closed s ∨ is_Some (<[r := im_data first]> (_stream_payloads s) !! r')).
  { intros r' Hin. destruct (decide (r' = r)) as [->|Hne]; [rewrite lookup_insert_eq; eauto|]. rewrite lookup_insert_ne by done. apply H6. set_solver. }
  assert (H3' : _completed_non_streaming_request_ids s ∖ {[r]} ⊆ plained s) by (clear -H3; set_solver).
  destruct res as [|e]; [case_bool_decide as Hl|]; (split; simpl; rewrite ?union_empty_l_L; try done).
  - intros r' [Hin Hne]%elem_of_difference. left. rewrite lookup_insert_ne by (intros ->; by apply Hne, elem_of_singleton). auto.
  - intros r' Hin. rewrite elem_of_difference, elem_of_singleton. destruct (decide (r' = r)) as [->|Hne]; [auto 6|].
    destruct (H5' r' Hin) as [?|[?|[?|?]]]; auto 6.
  - intros r' Hin. left. rewrite lookup_insert_ne by (intros ->; by apply Hl). auto.
  - intros r' Hin. destruct (H5' r' Hin) as [?|[?|[?|?]]]; auto 6.
  - intros r' Hin. destruct (decide (r' = r)) as [->|Hne]; [auto|]. left. rewrite lookup_insert_ne by done. auto.
  - intros r' Hin. destruct (H5' r' Hin) as [?|[?|[?|?]]]; auto 6.
Qed.

Lemma bounded_add_sub r X : bounded_add r X ⊆ {[r]} ∪ X.
Proof. unfold bounded_add. case_bool_decide; set_solver. Qed.

(** A request handled as non-streaming is answered. *)
Lemma life_answer m x p s : life_inv s → im_request_id m ∈ plained s → (∀ r, ¬ finishing (at_pc s) r) → life_pc p (plained s) →
  life_inv (goto p (answer m x s)).
Proof.
  intros H Hm Hf Hp. assert (Hnr : ∀ r', ¬ raising (at_pc s) r') by (intros r' Hr; apply (Hf r'); by destruct (at_pc s)).
  unfold answer. destruct (is_aborted _ s); [by apply (life_same s); [done|same|intros r' ?%Hf|intros r' ?%Hnr|]|].
  destruct H as [H1 H2 H3 H4 H5 H6 H7]. split; simpl; try done.
  - pose proof (bounded_add_sub (im_request_id m) (_completed_non_streaming_request_ids s)) as Hb. clear -H3 Hm Hb. set_solver.
  - intros r' Hin. destruct (H4 r' Hin) as [?|?%Hnr]; [by left|done].
  - intros r' Hin. destruct (H5 r' Hin) as [?|[?|[?|[?|?%Hf]]]]; auto 6; done.
Qed.

Lemma validate_life l acc : life_inv acc.2 → within (plained acc.2) l → (∀ r, ¬ finishing (at_pc acc.2) r) → within (plained acc.2) acc.1 →
  life_inv (fold_left validate_one l acc).2 ∧ within (plained (fold_left validate_one l acc).2) (fold_left validate_one l acc).1 ∧
  at_pc (fold_left validate_one l acc).2 = at_pc acc.2 ∧ plained (fold_left validate_one l acc).2 = plained acc.2.
Proof.
  revert acc. induction l as [|m l IH]; intros acc H Hl Hf Ha; simpl; [done|]. inversion Hl as [|? ? Hm Hl']; subst.
  assert (Hnr : ∀ r', ¬ raising (at_pc acc.2) r') by (intros r' Hr; apply (Hf r'); by destruct (at_pc acc.2)).
  assert (Hv : life_inv (validate_one acc m).2 ∧ plained (validate_one acc m).2 = plained acc.2 ∧ at_pc (validate_one acc m).2 = at_pc acc.2 ∧
    within (plained acc.2) (validate_one acc m).1).
  { unfold validate_one. destruct (validate_non_streaming_payload _ _); simpl.
    - split_and!; [done..|]. apply Forall_app. split; [done|by repeat constructor].
    - split_and!; try done. destruct H as [H1 H2 H3 H4 H5 H6 H7]. split; simpl; try done.
      pose proof (bounded_add_sub (im_request_id m) (_completed_non_streaming_request_ids acc.2)) as Hb. clear -H3 Hm Hb. set_solver. }
  destruct Hv as (Hv & Hp & Hpc & Hw). destruct (IH (validate_one acc m)) as (I1 & I2 & I3 & I4); try (rewrite ?Hp, ?Hpc; done).
  split_and!; [done..|by rewrite I3|by rewrite I4].
Qed.

Lemma life_plain batch s : life_inv s → at_pc s = PPlain batch → life_inv (_run_non_streaming_batch batch s).
Proof.
  intros H Hpc. pose proof (lf_pc _ H) as Hb. rewrite Hpc in Hb. simpl in Hb. unfold _run_non_streaming_batch.
  set (active := filter _ batch). set (s1 := set_done (λ X, X ∖ list_to_set (map im_request_id active)) s).
  assert (Hact : within (plained s) active).
  { apply Forall_forall. intros m [_ Hm]%list_elem_of_filter. unfold within in Hb. rewrite Forall_forall in Hb. auto. }
  assert (H1 : life_inv s1).
  { destruct H as [H1 H2 H3 H4 H5 H6 H7]. split; simpl; try done.
    - intros r' [Hin _]%elem_of_difference. auto.
    - intros r' Hin. destruct (decide (r' ∈ (list_to_set (map im_request_id active) : gset string))) as [Hr|Hr].
      + right. left. apply elem_of_list_to_set, list_elem_of_fmap in Hr as (m & -> & Hm). unfold within in Hact. rewrite Forall_forall in Hact. auto.
      + rewrite elem_of_difference. destruct (H5 r' Hin) as [?|[?|[?|[?|?]]]]; auto 6. }
  assert (Hf : ∀ r', ¬ finishing (at_pc s) r') by (rewrite Hpc; by intros r' []).
  destruct (validate_life active ([], s1) H1) as (I1 & I2 & I3 & I4); try done; [by constructor|].
  destruct (fold_left validate_one active ([], s1)) as [valid s2]. simpl in I1, I2, I3, I4.
  assert (Hgo : ∀ p, life_pc p (plained s2) → life_inv (goto p s2)).
  { intros p Hp. apply (life_same s2); [done|same|rewrite I3; by intros r' ?%Hf|rewrite I3, Hpc; by intros r' []|done]. }
  destruct (c_batch_fn cfg) as [f|]; [|by apply Hgo]. case_bool_decide; [by apply Hgo|]. apply Hgo. simpl.
  unfold within in *. destruct (f _) as [results|]; [case_bool_decide as Hl|].
  - rewrite fst_zip; [done|]. rewrite length_map. lia.
  - rewrite <- list_fmap_compose. by rewrite list_fmap_id.
  - rewrite <- list_fmap_compose. by rewrite list_fmap_id.
Qed.

Lemma life_tick s s' : life_inv s → tick s = Some s' → life_inv s'.
Proof.
  intros H Ht. pose proof (lf_pc _ H) as Hp. unfold tick in Ht. destruct (at_pc s) eqn:Hpc; simpl in Hp.
  - unfold _next_message in Ht. destruct (_pending_messages s) as [|m l]; [destruct (inbox s) as [|m l]; [done|]|]; injection Ht as <-;
      (apply (life_same s); [done|same|by rewrite Hpc..|done]).
  - injection Ht as <-. destruct (is_aborted _ s); [|by apply life_message]. apply (life_same s); [done|same|by rewrite Hpc..|done].
  - injection Ht as <-. by apply life_collect.
  - injection Ht as <-. by apply life_chunks.
  - destruct Hp as [Hr Hs]. destruct rest as [|m rest]; injection Ht as <-; [apply (life_same s); [done|same|by rewrite Hpc..|done]|].
    inversion Hr as [|? ? Hm Hr']; subst. destruct (is_streaming_payload h (im_data m)) as [[]|e] eqn:Hst.
    + apply (life_same s); [done|same|by rewrite Hpc..|]. split; [done|]. apply Forall_app. split; [done|]. repeat constructor. by apply Hm.
    + apply (life_same s); [done|same|by rewrite Hpc..|done].
    + apply (life_abort (im_request_id m) (EError e) s); [done|same|by rewrite Hpc..|done].
  - destruct rest as [|m rest]; [destruct plain0 as [|m pl]|]; injection Ht as <-.
    + apply (life_same s); [done|same|by rewrite Hpc..|done].
    + destruct H as [H1 H2 H3 H4 H5 H6 H7]. split; simpl; rewrite ?union_empty_l_L; try done.
      * clear -H3. set_solver.
      * intros r' Hin. destruct (H4 r' Hin) as [?|Hx]; [by left|]. by rewrite Hpc in Hx.
      * intros r' Hin. destruct (H5 r' Hin) as [?|[?|[?|[?|Hx]]]]; rewrite ?elem_of_union; auto 6. by rewrite Hpc in Hx.
      * change (within (list_to_set (map im_request_id (m :: pl)) ∪ plained s) (m :: pl)). apply Forall_forall. intros m' Hm'.
        apply elem_of_union_l, elem_of_list_to_set, list_elem_of_fmap. eauto.
    + inversion Hp; subst. destruct (is_aborted _ s); (apply (life_same s); [done|same|by rewrite Hpc..|done]).
  - injection Ht as <-. destruct H as [H1 H2 H3 H4 H5 H6 H7]. split; simpl; try done.
    + clear -H1. set_solver.
    + intros r' Hin. destruct (H4 r' Hin) as [?|Hx]; [by left|]. by rewrite Hpc in Hx.
    + intros r' Hin. destruct (H5 r' Hin) as [?|[?|[?|[?|Hx]]]]; auto 6. by rewrite Hpc in Hx.
  - injection Ht as <-. by apply life_new.
  - injection Ht as <-. by apply life_done.
  - injection Ht as <-. by apply life_emit.
  - destruct rest as [|m rest]; injection Ht as <-; [apply (life_same s); [done|same|by rewrite Hpc..|done]|].
    destruct (is_aborted _ s); [|destruct (as_item _ _)]; try (apply (life_same s); [done|same|by rewrite Hpc..|done]).
    apply (life_abort (im_request_id m) (EError (TypeError "expected StreamItem")) s); [done|same|by rewrite Hpc..|done].
  - destruct rest as [|[r item] rest]; injection Ht as <-; [apply (life_same s); [done|same|by rewrite Hpc..|done]|].
    destruct (is_aborted _ s); [apply (life_same s); [done|same|by rewrite Hpc..|done]|].
    apply life_chunk; [done|done|rewrite Hpc; by intros r' []..].
  - injection Ht as <-. by apply life_plain.
  - destruct rest as [|m rest]; injection Ht as <-; [apply (life_same s); [done|same|by rewrite Hpc..|done]|].
    inversion Hp; subst. destruct (is_aborted _ s); (apply (life_same s); [done|same|by rewrite Hpc..|done]).
  - injection Ht as <-. inversion Hp; subst. apply life_answer; [done|done|rewrite Hpc; by intros r' []|done].
  - destruct rest as [|[m x] rest]; injection Ht as <-; [apply (life_same s); [done|same|by rewrite Hpc..|done]|].
    inversion Hp; subst. apply life_answer; [done|done|rewrite Hpc; by intros r' []|done].
  - injection Ht as <-. apply (life_abort (im_request_id m) (EError e) s); [done|same|rewrite Hpc; auto..|done].
Qed.

Lemma life_step s s' : life_inv s → step s s' → life_inv s'.
Proof.
  intros H Hs. destruct Hs as [s' Ht|m|r|r Hr Hl].
  - by eapply life_tick.
  - by apply (life_same s); [done|same|..|apply (lf_pc _ H)].
  - destruct H as [H1 H2 H3 H4 H5 H6 H7]. split; simpl; rewrite ?union_empty_l_L; try done.
    + pose proof (bounded_add_sub r (_aborted_request_ids s)) as Hb. clear -H1 Hb. set_solver.
    + clear -H2. set_solver.
    + intros r' Hin. destruct (H5 r' Hin) as [?|[?|[?|[?|?]]]]; rewrite ?elem_of_union; auto 6.
    + intros r' Hin. destruct (H6 r' Hin) as [?|[?|?]]; rewrite ?elem_of_union; auto 6.
  - assert (Hra : r ∈ aborts s) by by apply (lf_aborting _ H).
    destruct H as [H1 H2 H3 H4 H5 H6 H7]. split; simpl; try done.
    + clear -H2. set_solver.
    + intros r' [Hin Hne]%elem_of_difference. rewrite lookup_delete_ne by (intros ->; by apply Hne, elem_of_singleton). auto.
    + intros r' Hin. destruct (decide (r' = r)) as [->|Hne]; [auto|]. rewrite elem_of_difference, elem_of_singleton.
      destruct (H5 r' Hin) as [?|[?|[?|[?|?]]]]; auto 6.
    + intros r' Hin. destruct (decide (r' = r)) as [->|Hne]; [auto|]. rewrite lookup_delete_ne by done. auto.
Qed.

Lemma life_init w : life_inv (state_init w).
Proof. split; try done; set_solver. Qed.

End streaming.

(** ** Runs of a stage that passes chunks through *)
Definition demo_hooks : @hooks bool unit unit string := {|
  as_item := λ _, Some tt;
  is_streaming_payload := λ d, Ok d;
  validate_non_streaming_payload := λ _, Ok tt;
  on_streaming_new_request := λ _ _ w, (w, Ok tt);
  on_stream_chunk := λ _ _ w, (w, Ok ["chunk"]);
  on_stream_done := λ _ w, (w, Ok ["last"]);
  clear_stream_state := λ _ w, w;
|}.
Definition demo_config : @config bool Z := make_config (Some (λ _, Ok 7%Z)) None 1 None None false None false.
Abbreviation demo_state := (@state bool unit Z unit string).
Abbreviation demo_step := (@step bool unit Z unit string demo_hooks demo_config id).

Lemma demo_tick (s s' : demo_state) : tick demo_hooks demo_config id s = Some s' → demo_step s s'.
Proof. apply s_tick. Qed.
Lemma demo_to (y z z' : demo_state) : demo_step y z → z = z' → demo_step y z'.
Proof. by intros ? <-. Qed.
Ltac st_tick := eapply rtc_l; [apply demo_tick; vm_compute; reflexivity|].
Ltac st_step c := eapply rtc_l; [eapply demo_to; [c|vm_compute; reflexivity]|].

(** A done message before its payload. *)
Lemma demo_early_done : ∃ s : demo_state, rtc demo_step (state_init tt) s ∧ at_pc s = PIdle ∧ "r" ∈ opened s ∧ "r" ∈ doned s ∧
  "r" ∉ aborts s ∧ "r" ∉ plained s ∧ outbox s = [("r", EOut "last")] ∧ length (handled s) = 2.
Proof.
  eexists. split.
  - st_step ltac:(apply (s_put _ _ _ _ (mkIncoming "r" StreamDone false))).
    st_step ltac:(apply (s_put _ _ _ _ (mkIncoming "r" NewRequest true))).
    do 14 st_tick. apply rtc_refl.
  - split_and!; try reflexivity; try (apply (bool_decide_eq_true_1 _); vm_compute; reflexivity);
      apply (bool_decide_eq_false_1 _); vm_compute; reflexivity.
Qed.



(** An abort can be lost: when it comes between the loop's check and the opening of the
    stream, [_handle_streaming_new_request] discards its mark; [abort] has returned, and the
    stream is opened all the same and emits. *)
Theorem abort_at_opening_is_lost : ∃ s : demo_state, rtc demo_step (state_init tt) s ∧
  "r" ∈ aborts s ∧ aborting s = ∅ ∧ arrived s = [mkIncoming "r" NewRequest true; mkIncoming "r" StreamChunk true] ∧
  _aborted_request_ids s = ∅ ∧ _stream_payloads s !! "r" = Some true ∧ outbox s = [("r", EOut "chunk")].
Proof.
  eexists. split.
  - st_step ltac:(apply (s_put _ _ _ _ (mkIncoming "r" NewRequest true))). do 5 st_tick.
    st_step ltac:(apply (s_abort _ _ _ _ "r")).
    st_step ltac:(apply (s_clear _ _ _ _ "r"); [apply (bool_decide_eq_true_1 _); vm_compute; reflexivity|reflexivity]).
    do 3 st_tick. st_step ltac:(apply (s_put _ _ _ _ (mkIncoming "r" StreamChunk true))).
    do 4 st_tick. apply rtc_refl.
  - split_and!; vm_compute; reflexivity.
Qed.
