(* ===== verification/AudioBuffer.v ===== *)
(** * The audio buffer of a realtime session

    Models [RealtimeAudioBuffer] ([src/sglang_omni/serve/realtime/audio_buffer.py]) with
    what it uses of Python's [base64] and [wave]: bytes are [Byte.byte], text is
    [String.string], one character per byte of its encoding. *)
From S2P Require Import Prelude.
From Stdlib Require Import NArith.
From Stdlib Require Import Strings.Byte Strings.Ascii.

#[export] Instance byte_eq_decision : EqDecision byte := Byte.byte_eq_dec.

(** ** Base64 *)
Definition byte_of (n : N) : byte := default x00 (Byte.of_N n).

Definition b64_char (n : N) : ascii :=
  ascii_of_N (if n <? 26 then n + 65 else if n <? 52 then n + 71 else if n <? 62 then n - 4 else if n =? 62 then 43 else 47)%N.
Definition b64_index (c : ascii) : option N :=
  let n := N_of_ascii c in
  if ((65 <=? n) && (n <=? 90))%N then Some (n - 65)%N
  else if ((97 <=? n) && (n <=? 122))%N then Some (n - 71)%N
  else if ((48 <=? n) && (n <=? 57))%N then Some (n + 4)%N
  else if (n =? 43)%N then Some 62%N else if (n =? 47)%N then Some 63%N else None.

Definition sextets (a b c : byte) : N * N * N * N :=
  let a := Byte.to_N a in let b := Byte.to_N b in let c := Byte.to_N c in
  (N.shiftr a 2, N.lor (N.shiftl (N.land a 3) 4) (N.shiftr b 4), N.lor (N.shiftl (N.land b 15) 2) (N.shiftr c 6), N.land c 63).

(** [base64.b64encode]. *)
Fixpoint b64encode (l : list byte) : list ascii :=
  match l with
  | [] => []
  | [a] => let '(p, q, _, _) := sextets a x00 x00 in [b64_char p; b64_char q; "="; "="]%char
  | [a; b] => let '(p, q, r, _) := sextets a b x00 in [b64_char p; b64_char q; b64_char r; "="]%char
  | a :: b :: c :: l => let '(p, q, r, s) := sextets a b c in b64_char p :: b64_char q :: b64_char r :: b64_char s :: b64encode l
  end.

(** The loop of [binascii.a2b_base64] in its lenient mode: characters outside the alphabet
    are skipped, and the padding that completes a quad ends the input. *)
Fixpoint a2b_base64 (l : list ascii) (quad_pos : nat) (leftchar : N) (pads : nat) : res (list byte) :=
  match l with
  | [] => if bool_decide (quad_pos = 0) then Ok [] else Raise (ValueError "Incorrect padding")
  | c :: l =>
      if bool_decide (c = "="%char) then
        if bool_decide (2 ≤ quad_pos) then
          if bool_decide (4 ≤ quad_pos + S pads) then Ok [] else a2b_base64 l quad_pos leftchar (S pads)
        else a2b_base64 l quad_pos leftchar pads
      else match b64_index c with
      | None => a2b_base64 l quad_pos leftchar pads
      | Some n =>
          match quad_pos with
          | 0 => a2b_base64 l 1 n 0
          | 1 => cons (byte_of (N.lor (N.shiftl leftchar 2) (N.shiftr n 4))) <$> a2b_base64 l 2 (N.land n 15) 0
          | 2 => cons (byte_of (N.lor (N.shiftl leftchar 4) (N.shiftr n 2))) <$> a2b_base64 l 3 (N.land n 3) 0
          | _ => cons (byte_of (N.lor (N.shiftl leftchar 6) n)) <$> a2b_base64 l 0 0 0
          end
      end
  end.

(** [base64.b64decode(_, validate=False)] of text. *)
Definition b64decode (s : string) : res (list byte) :=
  let l := String.list_ascii_of_string s in
  if forallb (λ c, N_of_ascii c <? 128)%N l then a2b_base64 l 0 0 0
  else Raise (ValueError "string argument should contain only ASCII characters").

(** ** The [wave] file of a chunk *)
Fixpoint little_endian (n : nat) (z : Z) : list byte :=
  match n with O => [] | S n => byte_of (Z.to_N (z mod 256)) :: little_endian n (z / 256) end.
Definition ascii_bytes (s : string) : list byte := byte_of_ascii <$> String.list_ascii_of_string s.

(** The header [wave] leaves after [writeframes], for two-byte samples. *)
Definition wave_header (channels framerate datalength : Z) : list byte :=
  ascii_bytes "RIFF" ++ little_endian 4 (36 + datalength) ++ ascii_bytes "WAVE" ++ ascii_bytes "fmt " ++ little_endian 4 16 ++
  little_endian 2 1 ++ little_endian 2 channels ++ little_endian 4 framerate ++ little_endian 4 (channels * framerate * 2) ++
  little_endian 2 (channels * 2) ++ little_endian 2 16 ++ ascii_bytes "data" ++ little_endian 4 datalength.

(** ** The buffer *)
Definition DEFAULT_MAX_BUFFER_BYTES : Z := 60 * 16000 * 2.

Record RealtimeAudioBuffer := mkBuffer { source_sr : Z; channels : Z; max_bytes : Z; buf : list byte }.
Definition set_buf (l : list byte) (b : RealtimeAudioBuffer) : RealtimeAudioBuffer := mkBuffer (source_sr b) (channels b) (max_bytes b) l.
Definition buffer_init (source_sr : Z) : RealtimeAudioBuffer := mkBuffer source_sr 1 DEFAULT_MAX_BUFFER_BYTES [].

Definition num_bytes (b : RealtimeAudioBuffer) : Z := Z.of_nat (length (buf b)).
Definition num_samples (b : RealtimeAudioBuffer) : Z := num_bytes b / (2 * channels b).
Definition is_empty (b : RealtimeAudioBuffer) : bool := bool_decide (num_samples b = 0)%Z.

(** The buffer and the number of bytes appended. *)
Definition extend (chunk : list byte) (b : RealtimeAudioBuffer) : res (RealtimeAudioBuffer * Z) :=
  if bool_decide (max_bytes b < num_bytes b + Z.of_nat (length chunk))%Z then Raise (BufferOverflow (max_bytes b))
  else Ok (set_buf (buf b ++ chunk) b, Z.of_nat (length chunk)).
Definition append_b64 (audio_b64 : string) (b : RealtimeAudioBuffer) : res (RealtimeAudioBuffer * Z) :=
  chunk ← b64decode audio_b64; extend chunk b.

Definition clear (b : RealtimeAudioBuffer) : RealtimeAudioBuffer := set_buf [] b.
Definition drop_prefix (n : Z) (b : RealtimeAudioBuffer) : RealtimeAudioBuffer :=
  if bool_decide (n ≤ 0)%Z then b else if bool_decide (num_bytes b ≤ n)%Z then clear b else set_buf (drop (Z.to_nat n) (buf b)) b.

(** [self.buf[start:end]] for indices that are not negative. *)
Definition slice {A} (start_byte end_byte : Z) (l : list A) : list A :=
  take (Z.to_nat (end_byte - start_byte)) (drop (Z.to_nat start_byte) l).

Definition to_sliced_wav_data_uri (start_byte end_byte : Z) (b : RealtimeAudioBuffer) : string :=
  let chunk := slice start_byte end_byte (buf b) in
  ("data:audio/wav;base64," +:+ String.string_of_list_ascii (b64encode (wave_header (channels b) (source_sr b) (Z.of_nat (length chunk)) ++ chunk)))%string.

Definition tail (n : Z) (b : RealtimeAudioBuffer) : res (list byte) :=
  _ ← raise_if (negb (bool_decide (0 ≤ n)%Z && bool_decide (n ≤ num_bytes b)%Z)) (AssertionError "Invalid tail length");
  mret (drop (Z.to_nat (num_bytes b - n)) (buf b)).

(** ** Decoding what was encoded *)
Definition all_bytes : list byte := byte_of ∘ N.of_nat <$> seq 0 256.

Lemma all_bytes_spec b : b ∈ all_bytes.
Proof.
  apply list_elem_of_fmap. exists (N.to_nat (Byte.to_N b)). rewrite elem_of_seq. unfold compose.
  pose proof (Byte.to_N_bounded b). rewrite N2Nat.id. unfold byte_of. rewrite Byte.of_to_N. split; [done|lia].
Qed.

(** A decidable fact of all pairs of bytes holds when it is computed to. *)
Lemma two_bytes (f : byte → byte → bool) : forallb (λ a, forallb (f a) all_bytes) all_bytes = true → ∀ a b, f a b = true.
Proof.
  rewrite forallb_forall. intros H a b. specialize (H a). rewrite forallb_forall in H.
  apply H; apply list_elem_of_In, all_bytes_spec.
Qed.

Lemma b64_index_char n : (n < 64)%N → b64_index (b64_char n) = Some n ∧ b64_char n ≠ "="%char ∧ (N_of_ascii (b64_char n) < 128)%N.
Proof.
  intros Hn. assert (H : forallb (λ n, let c := b64_char n in bool_decide (b64_index c = Some n) && negb (bool_decide (c = "="%char)) && (N_of_ascii c <? 128)%N)
    (N.of_nat <$> seq 0 64) = true) by (vm_compute; reflexivity).
  rewrite forallb_forall in H. specialize (H n ltac:(apply list_elem_of_In, list_elem_of_fmap; exists (N.to_nat n); rewrite elem_of_seq; lia)).
  simpl in H. destruct (bool_decide (b64_index _ = _)) eqn:H1; [|done]. destruct (bool_decide (b64_char n = _)) eqn:H2; [done|]. simpl in H.
  apply bool_decide_eq_true in H1. apply bool_decide_eq_false in H2. apply N.ltb_lt in H. done.
Qed.

(** The sextets of three bytes are sextets, and the shifts of the decoder undo those of
    the encoder. *)
Lemma sextets_pq a b c : let '(p, q, _, _) := sextets a b c in
  (p < 64 ∧ q < 64)%N ∧ byte_of (N.lor (N.shiftl p 2) (N.shiftr q 4)) = a ∧ N.land q 15 = N.shiftr (Byte.to_N b) 4.
Proof.
  pose (f := λ x y, let '(p, q, _, _) := sextets x y x00 in
    (p <? 64)%N && (q <? 64)%N && bool_decide (byte_of (N.lor (N.shiftl p 2) (N.shiftr q 4)) = x) && (N.land q 15 =? N.shiftr (Byte.to_N y) 4)%N).
  assert (H : f a b = true) by (apply two_bytes; vm_compute; reflexivity).
  unfold f, sextets in H. rewrite !andb_true_iff, !N.ltb_lt, N.eqb_eq, bool_decide_eq_true in H. unfold sextets. naive_solver.
Qed.

Lemma sextets_rs a b c : let '(_, _, r, s) := sextets a b c in
  (r < 64 ∧ s < 64)%N ∧ byte_of (N.lor (N.shiftl (N.shiftr (Byte.to_N b) 4) 4) (N.shiftr r 2)) = b ∧ byte_of (N.lor (N.shiftl (N.land r 3) 6) s) = c.
Proof.
  pose (f := λ y z, let '(_, _, r, s) := sextets x00 y z in
    (r <? 64)%N && (s <? 64)%N && bool_decide (byte_of (N.lor (N.shiftl (N.shiftr (Byte.to_N y) 4) 4) (N.shiftr r 2)) = y) &&
    bool_decide (byte_of (N.lor (N.shiftl (N.land r 3) 6) s) = z)).
  assert (H : f b c = true) by (apply two_bytes; vm_compute; reflexivity).
  unfold f, sextets in H. rewrite !andb_true_iff, !N.ltb_lt, !bool_decide_eq_true in H. unfold sextets. naive_solver.
Qed.

Lemma a2b_char n l q left pads : (n < 64)%N → a2b_base64 (b64_char n :: l) q left pads =
  match q with
  | 0 => a2b_base64 l 1 n 0
  | 1 => cons (byte_of (N.lor (N.shiftl left 2) (N.shiftr n 4))) <$> a2b_base64 l 2 (N.land n 15) 0
  | 2 => cons (byte_of (N.lor (N.shiftl left 4) (N.shiftr n 2))) <$> a2b_base64 l 3 (N.land n 3) 0
  | _ => cons (byte_of (N.lor (N.shiftl left 6) n)) <$> a2b_base64 l 0 0 0
  end.
Proof. intros Hn. destruct (b64_index_char n Hn) as (Hi & Hp & _). simpl. rewrite bool_decide_false by done. by rewrite Hi. Qed.

(** Induction by groups of three. *)
Lemma triples_ind {A} (P : list A → Prop) : P [] → (∀ a, P [a]) → (∀ a b, P [a; b]) → (∀ a b c l, P l → P (a :: b :: c :: l)) → ∀ l, P l.
Proof.
  intros H0 H1 H2 H3 l. enough (P l ∧ (∀ a, P (a :: l)) ∧ ∀ a b, P (a :: b :: l)) by naive_solver.
  induction l as [|x l (IH0 & IH1 & IH2)]; naive_solver.
Qed.

Lemma b64encode_decode l : a2b_base64 (b64encode l) 0 0 0 = Ok l.
Proof.
  induction l as [|a|a b|a b c l IH] using triples_ind; [done|..].
  - pose proof (sextets_pq a x00 x00) as H. destruct (sextets a x00 x00) as [[[p q] r] s] eqn:E. destruct H as ((Hp & Hq) & H1 & _).
    cbn [b64encode]. rewrite E, !a2b_char by done. simpl. by rewrite H1.
  - pose proof (sextets_pq a b x00) as H. pose proof (sextets_rs a b x00) as H'. destruct (sextets a b x00) as [[[p q] r] s] eqn:E.
    destruct H as ((Hp & Hq) & H1 & Hb). destruct H' as ((Hr & _) & H2 & _).
    cbn [b64encode]. rewrite E, !a2b_char by done. simpl. by rewrite H1, Hb, H2.
  - pose proof (sextets_pq a b c) as H. pose proof (sextets_rs a b c) as H'. destruct (sextets a b c) as [[[p q] r] s] eqn:E.
    destruct H as ((Hp & Hq) & H1 & Hb). destruct H' as ((Hr & Hs) & H2 & H3).
    cbn [b64encode]. rewrite E, !a2b_char by done. rewrite IH. simpl. by rewrite H1, Hb, H2, H3.
Qed.

Lemma b64encode_ascii l : forallb (λ c, N_of_ascii c <? 128)%N (b64encode l) = true.
Proof.
  assert (Hc : ∀ n, (n < 64)%N → (N_of_ascii (b64_char n) <? 128)%N = true) by (intros n Hn; apply N.ltb_lt, b64_index_char, Hn).
  induction l as [|a|a b|a b c l IH] using triples_ind; [done|..]; cbn [b64encode].
  - pose proof (sextets_pq a x00 x00) as H. destruct (sextets a x00 x00) as [[[p q] r] s]. cbn [forallb]. by rewrite !Hc by apply H.
  - pose proof (sextets_pq a b x00) as H. pose proof (sextets_rs a b x00) as H'. destruct (sextets a b x00) as [[[p q] r] s].
    cbn [forallb]. by rewrite (Hc p), (Hc q), (Hc r) by (apply H || apply H').
  - pose proof (sextets_pq a b c) as H. pose proof (sextets_rs a b c) as H'. destruct (sextets a b c) as [[[p q] r] s].
    cbn [forallb]. by rewrite (Hc p), (Hc q), (Hc r), (Hc s), IH by (apply H || apply H').
Qed.

(** The text of bytes, as a client or [to_sliced_wav_data_uri] writes it. *)
Definition b64text (l : list byte) : string := String.string_of_list_ascii (b64encode l).

Lemma b64_roundtrip l : b64decode (b64text l) = Ok l.
Proof. unfold b64decode, b64text. by rewrite String.list_ascii_of_string_of_list_ascii, b64encode_ascii, b64encode_decode. Qed.

(** Audio survives its encodings: a chunk that a client encodes is appended byte for byte
    when it fits and is what [tail] hands to the VAD, and a committed slice comes back
    whole from its data URI, behind the header of a [wave] file. *)
Theorem audio_roundtrip chunk b : (num_bytes b + Z.of_nat (length chunk) ≤ max_bytes b)%Z →
  append_b64 (b64text chunk) b = Ok (set_buf (buf b ++ chunk) b, Z.of_nat (length chunk)) ∧
  tail (Z.of_nat (length chunk)) (set_buf (buf b ++ chunk) b) = Ok chunk ∧
  ∀ start_byte end_byte, ∃ text, to_sliced_wav_data_uri start_byte end_byte b = ("data:audio/wav;base64," +:+ text)%string ∧
    ∃ header, length header = 44 ∧ b64decode text = Ok (header ++ slice start_byte end_byte (buf b)).
Proof.
  intros Hfit. split; [|split].
  - unfold append_b64, extend. rewrite b64_roundtrip. simpl. by rewrite bool_decide_false by lia.
  - unfold tail, num_bytes. simpl. rewrite length_app, !bool_decide_true by lia. simpl. rewrite drop_app_ge by lia.
    by replace (_ - _) with 0 by lia.
  - intros a e. eexists. split; [reflexivity|]. eexists (wave_header _ _ _). split; [done|]. apply b64_roundtrip.
Qed.

Lemma audio_roundtrip_witness : let b := buffer_init 16000 in
  append_b64 "AQIDBA==" b = Ok (set_buf [x01; x02; x03; x04] b, 4%Z) ∧ b64decode "A-QID BA==" = Ok [x01; x02; x03; x04].
Proof. intros b. split; [|reflexivity]. exact (proj1 (audio_roundtrip [x01; x02; x03; x04] b ltac:(vm_compute; discriminate))). Defined.
