(* ===== verification/RealtimeAudio.v ===== *)
(** * The audio side of a realtime session

    Models [StreamingVAD] ([src/sglang_omni/serve/realtime/vad.py]) and the handlers of
    [RealtimeSession] ([src/sglang_omni/serve/realtime/session.py]) that buffer the client's
    audio, follow the speech in it and commit utterances.  The receive loop runs them one
    after another and nothing else touches their state, except the queue, which they
    only append to.  The model behind the VAD (third-party) is a parameter: a function of its
    state and a frame to a new state and a probability; turning a frame's
    integers into floats is part of it. *)
From S2P Require Import Prelude AudioBuffer.
From Stdlib Require Import NArith Strings.Byte.

Section realtime.
Context {W F : Type} (vad_model : W → list Z → W * F) (reset_states : W → W) (fge : F → F → bool).
Context (new_id : nat → string).

(** ** Voice activity *)
Definition VAD_FRAME_SAMPLES : Z := 512.
Definition VAD_SAMPLE_RATE : Z := 16000.

Record VADConfig := mkVADConfig { threshold : F; prefix_padding_ms : Z; silence_duration_ms : Z }.
Definition default_config (threshold : F) : VADConfig := mkVADConfig threshold 300 500.

Inductive VADEvent := SPEECH_STARTED | SPEECH_STOPPED.
Record Emit := mkEmit { event_type : VADEvent; sample_offset : Z }.

Record StreamingVAD := mkVAD {
  config : VADConfig;
  model : W;
  leftover_pcm : list byte;
  samples_consumed : Z;
  is_speech : bool;
  silence_run_samples : Z;
  last_speech_offset : Z;
}.
Definition vad_init (config : VADConfig) (w : W) : StreamingVAD := mkVAD config w [] 0 false 0 0.
Definition set_leftover l v := mkVAD (config v) (model v) l (samples_consumed v) (is_speech v) (silence_run_samples v) (last_speech_offset v).

Definition frame_bytes : nat := Z.to_nat (VAD_FRAME_SAMPLES * 2).

(** [np.frombuffer(_, dtype="<i2")]. *)
Definition int16 (lo hi : byte) : Z :=
  let n := Z.of_N (Byte.to_N lo + 256 * Byte.to_N hi) in if bool_decide (n < 32768)%Z then n else (n - 65536)%Z.
Fixpoint frame_samples (l : list byte) : list Z :=
  match l with a :: b :: l => int16 a b :: frame_samples l | _ => [] end.

Definition infer (frame : list byte) (w : W) : W * F := vad_model w (frame_samples frame).

(** One iteration of the loop of [process]. *)
Definition process_frame (v : StreamingVAD) : StreamingVAD * list Emit :=
  let (w, prob) := infer (take frame_bytes (leftover_pcm v)) (model v) in
  let leftover := drop frame_bytes (leftover_pcm v) in
  let consumed := (samples_consumed v + VAD_FRAME_SAMPLES)%Z in
  if fge prob (threshold (config v)) then
    if is_speech v then (mkVAD (config v) w leftover consumed true 0 consumed, [])
    else
      let pad := (prefix_padding_ms (config v) * VAD_SAMPLE_RATE / 1000)%Z in
      (mkVAD (config v) w leftover consumed true 0 consumed, [mkEmit SPEECH_STARTED (Z.max 0 (consumed - VAD_FRAME_SAMPLES - pad))])
  else
    let silence := (silence_run_samples v + VAD_FRAME_SAMPLES)%Z in
    if is_speech v && bool_decide (silence_duration_ms (config v) * VAD_SAMPLE_RATE / 1000 ≤ silence)%Z
    then (mkVAD (config v) w leftover consumed false silence (last_speech_offset v), [mkEmit SPEECH_STOPPED (last_speech_offset v)])
    else (mkVAD (config v) w leftover consumed (is_speech v) silence (last_speech_offset v), []).

Fixpoint process_loop (fuel : nat) (v : StreamingVAD) : StreamingVAD * list Emit :=
  match fuel with
  | O => (v, [])
  | S fuel =>
      if bool_decide (frame_bytes ≤ length (leftover_pcm v))
      then let (v, emits) := process_frame v in let (v, rest) := process_loop fuel v in (v, emits ++ rest)
      else (v, [])
  end.

Definition process (pcm : list byte) (v : StreamingVAD) : StreamingVAD * list Emit :=
  match pcm with
  | [] => (v, [])
  | _ => let v := set_leftover (leftover_pcm v ++ pcm) v in process_loop (length (leftover_pcm v)) v
  end.

Definition reset (v : StreamingVAD) : StreamingVAD := mkVAD (config v) (reset_states (model v)) [] 0 false 0 0.

Definition offsets_to_ms (samples : Z) : Z := samples * 1000 / VAD_SAMPLE_RATE.

(** ** The session's audio *)
Inductive event :=
| SpeechStarted (audio_start_ms : Z) (item_id : string)
| SpeechStopped (audio_end_ms : Z) (item_id : string)
| Committed (item_id : string)
| Cleared.

(** [drawn] counts the identities drawn, [sent] is what went to the client and
    [response_queue] everything put on the queue. *)
Record session := mkSession {
  audio_buffer : RealtimeAudioBuffer;
  vad : StreamingVAD;
  vad_origin_samples : Z;
  buffer_origin_samples : Z;
  utterance_start_byte : option Z;
  utterance_item_id : option string;
  speech_idle : bool;
  response_queue : list (string * string);
  sent : list event;
  drawn : nat;
}.
Definition session_init (half : F) (w : W) : session := mkSession (buffer_init 16000) (vad_init (default_config half) w) 0 0 None None true [] [] 0.

Definition set_audio b s := mkSession b (vad s) (vad_origin_samples s) (buffer_origin_samples s) (utterance_start_byte s) (utterance_item_id s) (speech_idle s) (response_queue s) (sent s) (drawn s).
Definition set_vad v s := mkSession (audio_buffer s) v (vad_origin_samples s) (buffer_origin_samples s) (utterance_start_byte s) (utterance_item_id s) (speech_idle s) (response_queue s) (sent s) (drawn s).
Definition set_origins v b s := mkSession (audio_buffer s) (vad s) v b (utterance_start_byte s) (utterance_item_id s) (speech_idle s) (response_queue s) (sent s) (drawn s).
Definition set_utterance b i s := mkSession (audio_buffer s) (vad s) (vad_origin_samples s) (buffer_origin_samples s) b i (speech_idle s) (response_queue s) (sent s) (drawn s).
Definition set_idle x s := mkSession (audio_buffer s) (vad s) (vad_origin_samples s) (buffer_origin_samples s) (utterance_start_byte s) (utterance_item_id s) x (response_queue s) (sent s) (drawn s).
Definition enqueue x s := mkSession (audio_buffer s) (vad s) (vad_origin_samples s) (buffer_origin_samples s) (utterance_start_byte s) (utterance_item_id s) (speech_idle s) (response_queue s ++ [x]) (sent s) (drawn s).
Definition send e s := mkSession (audio_buffer s) (vad s) (vad_origin_samples s) (buffer_origin_samples s) (utterance_start_byte s) (utterance_item_id s) (speech_idle s) (response_queue s) (sent s ++ [e]) (drawn s).
Definition draw s := mkSession (audio_buffer s) (vad s) (vad_origin_samples s) (buffer_origin_samples s) (utterance_start_byte s) (utterance_item_id s) (speech_idle s) (response_queue s) (sent s) (S (drawn s)).

Definition absolute_sample (sample_offset : Z) (s : session) : Z := vad_origin_samples s + sample_offset.
Definition sample_offset_to_buffer_byte (sample_offset : Z) (s : session) : Z :=
  Z.max 0 ((absolute_sample sample_offset s - buffer_origin_samples s) * 2).

(** [self.utterance_item_id or new_id("item")]. *)
Definition item_id_or_new (s : session) : string * session :=
  match utterance_item_id s with Some i => (i, s) | None => (new_id (drawn s), draw s) end.

Definition consume_committed_prefix (end_byte : Z) (s : session) : session :=
  let s := set_audio (drop_prefix end_byte (audio_buffer s)) s in
  set_utterance None None (set_origins (vad_origin_samples s) (buffer_origin_samples s + end_byte / 2) s).

Definition auto_commit_utterance (end_sample_offset : Z) (s : session) : session :=
  if is_empty (audio_buffer s) then s else
  let start_byte := default 0%Z (utterance_start_byte s) in
  let end_byte := Z.min (sample_offset_to_buffer_byte end_sample_offset s) (num_bytes (audio_buffer s)) in
  if bool_decide (end_byte ≤ start_byte)%Z then s else
  let payload := to_sliced_wav_data_uri start_byte end_byte (audio_buffer s) in
  let (item_id, s) := item_id_or_new s in
  enqueue (item_id, payload) (send (Committed item_id) (consume_committed_prefix end_byte s)).

(** [handle_vad_emit], without the cancellation of a running response. *)
Definition handle_vad_emit (s : session) (emit : Emit) : session :=
  let timestamp_ms := offsets_to_ms (absolute_sample (sample_offset emit) s) in
  match event_type emit with
  | SPEECH_STARTED =>
      let s := set_idle false s in
      let vad_byte := sample_offset_to_buffer_byte (sample_offset emit) s in
      let item_id := new_id (drawn s) in
      send (SpeechStarted timestamp_ms item_id)
        (set_utterance (Some (Z.min vad_byte (num_bytes (audio_buffer s)))) (Some item_id) (draw s))
  | SPEECH_STOPPED =>
      let (item_id, s) := item_id_or_new s in
      set_idle true (auto_commit_utterance (sample_offset emit) (send (SpeechStopped timestamp_ms item_id) s))
  end.

Definition handle_audio_append (audio : string) (s : session) : res session :=
  '(b, decoded_len) ← append_b64 audio (audio_buffer s);
  new_bytes ← tail decoded_len b;
  let (v, emits) := process new_bytes (vad s) in
  mret (foldl handle_vad_emit (set_vad v (set_audio b s)) emits).

Definition drop_buffer_and_reset_vad (s : session) : session :=
  let origin := (buffer_origin_samples s + num_samples (audio_buffer s))%Z in
  set_vad (reset (vad s)) (set_utterance None None (set_audio (clear (audio_buffer s)) (set_origins origin origin s))).

Definition handle_audio_clear (s : session) : session := send Cleared (set_idle true (drop_buffer_and_reset_vad s)).

(** Appends of the chunks, as a client encodes them. *)
Definition appends (chunks : list (list byte)) (s : session) : res session :=
  foldl (λ s chunk, s ← s; handle_audio_append (b64text chunk) s) (Ok s) chunks.

(** ** The VAD does not depend on how the audio is cut *)
Lemma frame_bytes_val : Z.of_nat frame_bytes = 1024%Z.
Proof. done. Qed.
#[local] Opaque frame_bytes.

Lemma process_frame_leftover v : leftover_pcm (process_frame v).1 = drop frame_bytes (leftover_pcm v).
Proof. unfold process_frame. destruct (infer _ _) as [w p]. repeat case_match; done. Qed.

(** More audio behind a frame does not matter to it. *)
Lemma process_frame_extended v l : frame_bytes ≤ length (leftover_pcm v) →
  process_frame (set_leftover (leftover_pcm v ++ l) v) = (set_leftover (leftover_pcm (process_frame v).1 ++ l) (process_frame v).1, (process_frame v).2).
Proof.
  intros Hl. unfold process_frame. simpl. rewrite take_app_le, drop_app_le by lia.
  destruct (infer _ _) as [w p]. repeat case_match; done.
Qed.

(** Fuel for the bytes left over is enough, and any more gives the same. *)
Lemma process_loop_fuel n m v : length (leftover_pcm v) ≤ n → length (leftover_pcm v) ≤ m → process_loop n v = process_loop m v.
Proof.
  pose proof frame_bytes_val. revert m v. induction n as [|n IH]; intros [|m] v Hn Hm; simpl; try done; try (rewrite bool_decide_false by lia; done).
  case_bool_decide as Hf; [|done]. pose proof (process_frame_leftover v) as Hl. destruct (process_frame v) as [v' es]. simpl in Hl.
  rewrite (IH m v'); [done| |]; rewrite Hl, length_drop; lia.
Qed.

(** The loop with the fuel [process] gives it. *)
Definition frames_loop (v : StreamingVAD) : StreamingVAD * list Emit := process_loop (length (leftover_pcm v)) v.

Lemma frames_loop_eq v : frames_loop v =
  if bool_decide (frame_bytes ≤ length (leftover_pcm v))
  then let (v1, e1) := process_frame v in let (v2, e2) := frames_loop v1 in (v2, e1 ++ e2) else (v, []).
Proof.
  pose proof frame_bytes_val. unfold frames_loop. rewrite (process_loop_fuel _ (S (length (leftover_pcm v)))) by lia. simpl.
  case_bool_decide; [|done]. pose proof (process_frame_leftover v) as Hl. destruct (process_frame v) as [v1 e1]. simpl in Hl.
  by rewrite (process_loop_fuel _ (length (leftover_pcm v1))) by (rewrite ?Hl, ?length_drop; lia).
Qed.

(** Induction along the frames. *)
Lemma frames_ind (P : StreamingVAD → Prop) :
  (∀ v, length (leftover_pcm v) < frame_bytes → P v) → (∀ v, frame_bytes ≤ length (leftover_pcm v) → P (process_frame v).1 → P v) → ∀ v, P v.
Proof.
  pose proof frame_bytes_val. intros H0 H1 v. remember (length (leftover_pcm v)) as n eqn:Hn. revert v Hn.
  induction (lt_wf n) as [n _ IH]. intros v ->. destruct (decide (frame_bytes ≤ length (leftover_pcm v))) as [Hf|Hf]; [|apply H0; lia].
  apply H1; [done|]. eapply IH; [|done]. rewrite process_frame_leftover, length_drop. lia.
Qed.

Lemma frames_loop_app l v : frames_loop (set_leftover (leftover_pcm v ++ l) v) =
  let '(v1, e1) := frames_loop v in let '(v2, e2) := frames_loop (set_leftover (leftover_pcm v1 ++ l) v1) in (v2, e1 ++ e2).
Proof.
  induction v as [v Hv|v Hv IH] using frames_ind; rewrite (frames_loop_eq v).
  - rewrite bool_decide_false by lia. by destruct (frames_loop _).
  - rewrite (frames_loop_eq (set_leftover _ _)), !bool_decide_true by (simpl; rewrite ?length_app; lia).
    rewrite process_frame_extended by done. destruct (process_frame v) as [v1 e1]. simpl in IH |- *. rewrite IH.
    destruct (frames_loop v1) as [v2 e2]. clear. destruct (frames_loop _) as [v3 e3]. by rewrite (assoc_L app).
Qed.

Lemma frames_loop_rest v : length (leftover_pcm (frames_loop v).1) < frame_bytes.
Proof.
  induction v as [v Hv|v Hv IH] using frames_ind; rewrite frames_loop_eq; [by rewrite bool_decide_false by lia|].
  rewrite bool_decide_true by done. destruct (process_frame v) as [v1 e1]. simpl in IH. by destruct (frames_loop v1).
Qed.

Lemma process_loop_eq pcm v : length (leftover_pcm v) < frame_bytes → process pcm v = frames_loop (set_leftover (leftover_pcm v ++ pcm) v).
Proof.
  intros Hv. destruct pcm as [|b pcm]; [|done]. rewrite frames_loop_eq. simpl. rewrite app_nil_r, bool_decide_false by lia. by destruct v.
Qed.

(** C29. What the VAD reports does not depend on how the client cuts its audio: a chunk
    processed in two parts, cut anywhere, leaves the same state and gives the same
    events as the whole, and what [process] leaves over is always less than a frame. *)
Theorem vad_ignores_chunking pcm1 pcm2 v : length (leftover_pcm v) < frame_bytes →
  process (pcm1 ++ pcm2) v = (let '(v1, e1) := process pcm1 v in let '(v2, e2) := process pcm2 v1 in (v2, e1 ++ e2)) ∧
  length (leftover_pcm (process pcm1 v).1) < frame_bytes.
Proof.
  intros Hv. rewrite !process_loop_eq by done. pose proof (frames_loop_rest (set_leftover (leftover_pcm v ++ pcm1) v)) as Hr. split; [|done].
  rewrite (assoc_L app). etrans; [exact (frames_loop_app pcm2 (set_leftover (leftover_pcm v ++ pcm1) v))|].
  destruct (frames_loop _) as [v1 e1]. simpl in Hr. by rewrite process_loop_eq.
Qed.

(** ** Utterances *)
Section utterances.
Context (half : F).

(** Frame [k] of the audio [fed], the model's state before it and its verdict. *)
Definition frame (fed : list byte) (k : nat) : list byte := take frame_bytes (drop (Z.to_nat (1024 * Z.of_nat k)) fed).
Fixpoint model_at (w : W) (fed : list byte) (k : nat) : W :=
  match k with O => w | S k => (infer (frame fed k) (model_at w fed k)).1 end.
Definition heard (w : W) (fed : list byte) (k : nat) : bool := fge (infer (frame fed k) (model_at w fed k)).2 half.

(** The frames an utterance goes from and to, and its item. *)
Record utterance := mkUtterance { u_item : string; u_first : nat; u_last : nat }.

(** Sample offsets: where an utterance is reported to start, and where it ends. *)
Definition reported (first : nat) : Z := Z.max 0 (512 * Z.of_nat first - 4800).
Definition end_of (u : utterance) : Z := 512 * (Z.of_nat (u_last u) + 1).
Definition last_end (us : list utterance) : Z := default 0%Z (end_of <$> last us).

(** The utterances in the first [k] frames, and the one that goes on: they go from a speech
    frame to a speech frame with sixteen silent ones (half a second) behind it, in order,
    and no speech is outside. *)
Record segmentation (h : nat → bool) (k : nat) (us : list utterance) (op : option (string * nat)) : Prop := {
  sg_bounds : ∀ u, u ∈ us → h (u_first u) = true ∧ h (u_last u) = true ∧ u_first u ≤ u_last u ∧ u_last u + 16 < k ∧
    ∀ j, u_last u < j ≤ u_last u + 16 → h j = false;
  sg_order : StronglySorted (λ u v, u_last u + 16 < u_first v) us;
  sg_open : ∀ i f, op = Some (i, f) → h f = true ∧ f < k ∧ ∀ u, u ∈ us → u_last u + 16 < f;
  sg_cover : ∀ j, j < k → h j = true → (∃ u, u ∈ us ∧ u_first u ≤ j ≤ u_last u) ∨ ∃ i f, op = Some (i, f) ∧ f ≤ j;
}.

(** What the client is told, with the session's origin [o], and what is queued. *)
Definition announced (o : Z) (us : list utterance) (op : option (string * nat)) : list event :=
  (us ≫= λ u, [SpeechStarted (offsets_to_ms (o + reported (u_first u))) (u_item u); SpeechStopped (offsets_to_ms (o + end_of u)) (u_item u); Committed (u_item u)]) ++
  match op with Some (i, f) => [SpeechStarted (offsets_to_ms (o + reported f)) i] | None => [] end.
Definition pcm_uri (pcm : list byte) : string :=
  ("data:audio/wav;base64," +:+ b64text (wave_header 1 16000 (Z.of_nat (length pcm)) ++ pcm))%string.
#[local] Opaque pcm_uri.
Fixpoint commits (fed : list byte) (prev : Z) (us : list utterance) : list (string * string) :=
  match us with
  | [] => []
  | u :: us => (u_item u, pcm_uri (slice (2 * Z.max prev (reported (u_first u))) (2 * end_of u) fed)) :: commits fed (end_of u) us
  end.

Lemma segmentation_ext h h' k us op : (∀ j, j < k → h j = h' j) → segmentation h k us op → segmentation h' k us op.
Proof.
  intros Heq [H1 H2 H3 H4]. split.
  - intros u Hu. destruct (H1 u Hu) as (Ha & Hb & Hc & Hd & He). rewrite <- !Heq by lia. split; [done|]. split; [done|]. split; [done|].
    split; [done|]. intros j Hj. rewrite <- Heq by lia. by apply He.
  - done.
  - intros i f Hop. destruct (H3 i f Hop) as (Ha & Hb & Hc). by rewrite <- Heq by lia.
  - intros j Hj Hh. rewrite <- Heq in Hh by lia. by apply H4.
Qed.

Lemma frame_app fed c k : (1024 * (Z.of_nat k + 1) ≤ Z.of_nat (length fed))%Z → frame (fed ++ c) k = frame fed k.
Proof. pose proof frame_bytes_val. intros Hk. unfold frame. rewrite drop_app_le, take_app_le by (rewrite ?length_drop; lia). done. Qed.
Lemma model_at_app w fed c k : (1024 * Z.of_nat k ≤ Z.of_nat (length fed))%Z → model_at w (fed ++ c) k = model_at w fed k.
Proof. induction k as [|k IH]; intros Hk; simpl; [done|]. by rewrite IH, frame_app by lia. Qed.
Lemma heard_app w fed c k : (1024 * (Z.of_nat k + 1) ≤ Z.of_nat (length fed))%Z → heard w (fed ++ c) k = heard w fed k.
Proof. intros Hk. unfold heard. by rewrite frame_app, model_at_app by lia. Qed.

Lemma bytes_slice_app {A} a b (l k : list A) : (0 ≤ a)%Z → (b ≤ Z.of_nat (length l))%Z → slice a b (l ++ k) = slice a b l.
Proof.
  intros Ha Hb. unfold slice. destruct (decide (a ≤ b)%Z) as [Hab|Hab]; [|by rewrite !(Z2Nat.nonpos (b - a)) by lia].
  rewrite drop_app_le, take_app_le by (rewrite ?length_drop; lia). done.
Qed.
Lemma slice_drop {A} n a b (l : list A) : (0 ≤ n)%Z → (0 ≤ a)%Z → slice a b (drop (Z.to_nat n) l) = slice (n + a) (n + b) l.
Proof. intros Hn Ha. unfold slice. rewrite drop_drop. f_equal; [lia|]. f_equal. lia. Qed.

Lemma last_end_snoc us u : last_end (us ++ [u]) = end_of u.
Proof. unfold last_end. by rewrite last_snoc. Qed.
Lemma last_end_in us : (us = [] ∧ last_end us = 0)%Z ∨ ∃ u, u ∈ us ∧ last_end us = end_of u.
Proof.
  unfold last_end. destruct (last us) as [u|] eqn:E; [right; exists u; split; [|done]|left; split; [|done]].
  - apply last_Some in E as [l' ->]. set_solver.
  - by apply last_None.
Qed.
Lemma commits_snoc fed prev us u : commits fed prev (us ++ [u]) = commits fed prev us ++
  [(u_item u, pcm_uri (slice (2 * Z.max (default prev (end_of <$> last us)) (reported (u_first u))) (2 * end_of u) fed))].
Proof.
  revert prev. induction us as [|v us IH]; intros prev; [reflexivity|]. cbn [commits app]. rewrite IH. cbn [app].
  assert (Hl : default prev (end_of <$> last (v :: us)) = default (end_of v) (end_of <$> last us)) by (rewrite last_cons; by destruct (last us)).
  by rewrite Hl.
Qed.
Lemma commits_app fed c prev us : (0 ≤ prev)%Z → (∀ u, u ∈ us → 2 * end_of u ≤ Z.of_nat (length fed))%Z → commits (fed ++ c) prev us = commits fed prev us.
Proof.
  revert prev. induction us as [|u us IH]; intros prev Hp Hu; [done|]. simpl.
  rewrite bytes_slice_app, IH; [done|unfold end_of; lia|set_solver|lia|set_solver].
Qed.

(** ** The invariant of the frames *)
Record audio_inv (s0 : session) (fed : list byte) (k : nat) (us : list utterance) (op : option (string * nat)) (s : session) : Prop := {
  ai_config : config (vad s) = default_config half;
  ai_model : model (vad s) = model_at (model (vad s0)) fed k;
  ai_fed : (1024 * Z.of_nat k ≤ Z.of_nat (length fed))%Z;
  ai_leftover : leftover_pcm (vad s) = drop (Z.to_nat (1024 * Z.of_nat k)) fed;
  ai_consumed : samples_consumed (vad s) = (512 * Z.of_nat k)%Z;
  ai_speech : is_speech (vad s) = bool_decide (is_Some op);
  ai_last : ∀ i f, op = Some (i, f) → ∃ l, f ≤ l < k ∧ heard (model (vad s0)) fed l = true ∧ last_speech_offset (vad s) = (512 * (Z.of_nat l + 1))%Z ∧
    silence_run_samples (vad s) = (512 * (Z.of_nat k - 1 - Z.of_nat l))%Z ∧ ∀ j, l < j < k → heard (model (vad s0)) fed j = false;
  ai_buffer : audio_buffer s = set_buf (drop (Z.to_nat (2 * last_end us)) fed) (buffer_init 16000);
  ai_origins : vad_origin_samples s = vad_origin_samples s0 ∧ buffer_origin_samples s = (vad_origin_samples s0 + last_end us)%Z;
  ai_start : utterance_start_byte s = (λ x, 2 * (Z.max (last_end us) (reported x.2) - last_end us))%Z <$> op;
  ai_item : utterance_item_id s = fst <$> op;
  ai_seg : segmentation (heard (model (vad s0)) fed) k us op;
  ai_sent : sent s = sent s0 ++ announced (vad_origin_samples s0) us op;
  ai_queue : response_queue s = response_queue s0 ++ commits fed 0 us;
  ai_idle : speech_idle s = negb (bool_decide (is_Some op));
}.

(** Nothing heard yet, as at the start of a session and after its buffer is cleared. *)
Record fresh (s : session) : Prop := {
  fr_buffer : audio_buffer s = buffer_init 16000;
  fr_vad : vad s = vad_init (default_config half) (model (vad s));
  fr_origins : buffer_origin_samples s = vad_origin_samples s;
  fr_utterance : utterance_start_byte s = None ∧ utterance_item_id s = None;
  fr_idle : speech_idle s = true;
}.

Lemma fresh_inv s : fresh s → audio_inv s [] 0 [] None s.
Proof.
  intros [H1 H2 H3 [H4 H5] H6]. assert (Hz : last_end [] = 0%Z) by reflexivity. constructor.
  - by rewrite H2.
  - reflexivity.
  - simpl. lia.
  - by rewrite H2, drop_nil.
  - by rewrite H2.
  - by rewrite H2.
  - intros i f Hop. discriminate Hop.
  - by rewrite H1, drop_nil.
  - rewrite H3, Hz. split; [done|lia].
  - by rewrite H4.
  - by rewrite H5.
  - split; [set_solver|constructor|intros i f Hop; discriminate Hop|lia].
  - symmetry. apply app_nil_r.
  - symmetry. apply app_nil_r.
  - by rewrite H6.
Qed.

(** More audio arrives. *)
Definition fed_more (c : list byte) (s : session) : session :=
  set_vad (set_leftover (leftover_pcm (vad s) ++ c) (vad s)) (set_audio (set_buf (buf (audio_buffer s) ++ c) (audio_buffer s)) s).

Lemma ends_within s0 fed k us op s u : audio_inv s0 fed k us op s → u ∈ us → (0 < end_of u ∧ 2 * end_of u ≤ 1024 * Z.of_nat k)%Z.
Proof. intros H Hu. destruct (sg_bounds _ _ _ _ (ai_seg _ _ _ _ _ _ H) u Hu) as (_ & _ & _ & Hk & _). unfold end_of. lia. Qed.
Lemma last_end_within s0 fed k us op s : audio_inv s0 fed k us op s → (0 ≤ last_end us ∧ 2 * last_end us ≤ 1024 * Z.of_nat k)%Z.
Proof.
  intros H. destruct (last_end_in us) as [[_ ->]|(u & Hu & ->)]; [lia|]. pose proof (ends_within _ _ _ _ _ _ u H Hu). lia.
Qed.

Lemma inv_fed_more s0 fed k us op s c : audio_inv s0 fed k us op s → audio_inv s0 (fed ++ c) k us op (fed_more c s).
Proof.
  intros H. pose proof (last_end_within _ _ _ _ _ _ H) as Hl. pose proof (λ u, ends_within _ _ _ _ _ _ u H) as He.
  destruct H as [H1 H2 H3 H4 H5 H6 H7 H8 H9 H10 H11 H12 H13 H14 H15]. split; simpl; try done.
  - by rewrite model_at_app by lia.
  - rewrite length_app. lia.
  - rewrite H4, drop_app_le by lia. done.
  - intros i f Hop. destruct (H7 i f Hop) as (l & Ha & Hb & Hc & Hd & Hj). exists l. rewrite heard_app by lia. split_and!; try done; try lia.
    intros j Hjk. rewrite heard_app by lia. by apply Hj.
  - rewrite H8. unfold set_buf. simpl. by rewrite drop_app_le by lia.
  - eapply segmentation_ext; [|exact H12]. intros j Hj. by rewrite heard_app by lia.
  - rewrite commits_app; [done|lia|]. intros u Hu. specialize (He u Hu). lia.
Qed.

(** ** One frame *)
Lemma seg_silent h k us : segmentation h k us None → h k = false → segmentation h (S k) us None.
Proof.
  intros [H1 H2 H3 H4] Hk. split; [|done|done|].
  - intros u Hu. destruct (H1 u Hu) as (Ha & Hb & Hc & Hd & He). split_and!; try done. lia.
  - intros j Hj Hh. apply H4; [|done]. destruct (decide (j = k)) as [->|]; [congruence|lia].
Qed.
Lemma seg_goes_on h k us x : segmentation h k us (Some x) → segmentation h (S k) us (Some x).
Proof.
  intros [H1 H2 H3 H4]. destruct x as [i f]. destruct (H3 i f eq_refl) as (Hf & Hfk & Hu). split; [|done|..].
  - intros u Hin. destruct (H1 u Hin) as (Ha & Hb & Hc & Hd & He). split_and!; try done. lia.
  - intros ? ? [= <- <-]. split_and!; try done. lia.
  - intros j Hj Hh. destruct (decide (j = k)) as [->|]; [right; exists i, f; split; [done|lia]|]. apply H4; [lia|done].
Qed.
Lemma seg_start h k us i : segmentation h k us None → h k = true → segmentation h (S k) us (Some (i, k)).
Proof.
  intros [H1 H2 H3 H4] Hk. split; [|done|..].
  - intros u Hin. destruct (H1 u Hin) as (Ha & Hb & Hc & Hd & He). split_and!; try done. lia.
  - intros ? ? [= <- <-]. split_and!; [done|lia|]. intros u Hin. apply H1, Hin.
  - intros j Hj Hh. destruct (decide (j = k)) as [->|]; [right; exists i, k; split; [done|lia]|].
    destruct (H4 j ltac:(lia) Hh) as [?|(? & ? & ? & _)]; [by left|done].
Qed.
Lemma seg_stop h k us i f l : segmentation h k us (Some (i, f)) → f ≤ l < k → h l = true → (∀ j, l < j ≤ k → h j = false) → l + 16 ≤ k →
  segmentation h (S k) (us ++ [mkUtterance i f l]) None.
Proof.
  intros [H1 H2 H3 H4] Hl Hhl Hs Hlk. destruct (H3 i f eq_refl) as (Hf & Hfk & Hu). split; [| |done|].
  - intros u [Hin| ->%list_elem_of_singleton]%elem_of_app.
    + destruct (H1 u Hin) as (Ha & Hb & Hc & Hd & He). split_and!; try done. lia.
    + simpl. split_and!; try done; try lia. intros j Hj. apply Hs. lia.
  - apply StronglySorted_app_2; [|done|by repeat constructor]. intros u v Hin ->%list_elem_of_singleton. simpl. by apply Hu.
  - intros j Hj Hh. left. destruct (decide (l < j)) as [Hlj|Hlj]; [by rewrite Hs in Hh by lia|].
    destruct (H4 j ltac:(lia) Hh) as [(u & Hin & Hj')|(? & ? & [= <- <-] & Hj')].
    + exists u. split; [set_solver|done].
    + exists (mkUtterance i f l). split; [set_solver|simpl; lia].
Qed.

Definition frame_step (s : session) : session :=
  let (v, es) := process_frame (vad s) in foldl handle_vad_emit (set_vad v s) es.

(** What a frame does to the VAD. *)
Definition vad_after (s0 : session) (fed : list byte) (k : nat) (speech : bool) (silence last : Z) : StreamingVAD :=
  mkVAD (default_config half) (model_at (model (vad s0)) fed (S k)) (drop (Z.to_nat (1024 * Z.of_nat (S k))) fed) (512 * Z.of_nat (S k)) speech silence last.

Lemma process_frame_inv s0 fed k us op s : audio_inv s0 fed k us op s → process_frame (vad s) =
  if heard (model (vad s0)) fed k then
    (vad_after s0 fed k true 0 (512 * (Z.of_nat k + 1)), match op with Some _ => [] | None => [mkEmit SPEECH_STARTED (reported k)] end)
  else let silence := (silence_run_samples (vad s) + 512)%Z in
    if bool_decide (is_Some op) && bool_decide (8000 ≤ silence)%Z
    then (vad_after s0 fed k false silence (last_speech_offset (vad s)), [mkEmit SPEECH_STOPPED (last_speech_offset (vad s))])
    else (vad_after s0 fed k (bool_decide (is_Some op)) silence (last_speech_offset (vad s)), []).
Proof.
  pose proof frame_bytes_val as Hfb. intros H. destruct H as [H1 H2 H3 H4 H5 H6 _ _ _ _ _ _ _ _ _].
  unfold process_frame, heard, vad_after. cbn [model_at]. fold (frame fed k).
  rewrite H1, H2, H4, H5, H6, drop_drop. change (take frame_bytes (drop (Z.to_nat (1024 * Z.of_nat k)) fed)) with (frame fed k).
  destruct (infer (frame fed k) (model_at (model (vad s0)) fed k)) as [w p]. cbn [fst snd threshold default_config silence_duration_ms prefix_padding_ms].
  replace (Z.to_nat (1024 * Z.of_nat k) + frame_bytes) with (Z.to_nat (1024 * Z.of_nat (S k))) by lia.
  unfold VAD_FRAME_SAMPLES, VAD_SAMPLE_RATE. replace (512 * Z.of_nat k + 512)%Z with (512 * Z.of_nat (S k))%Z by lia.
  change (500 * 16000 / 1000)%Z with 8000%Z. change (300 * 16000 / 1000)%Z with 4800%Z.
  destruct (fge p half); [|done]. replace (512 * (Z.of_nat k + 1))%Z with (512 * Z.of_nat (S k))%Z by lia.
  destruct op as [x|]; [done|]. simpl bool_decide. cbv iota. repeat f_equal. unfold reported. lia.
Qed.

(** Speech that goes on, or silence. *)
Lemma frame_quiet s0 fed k us op s l : audio_inv s0 fed k us op s → (1024 * Z.of_nat (S k) ≤ Z.of_nat (length fed))%Z →
  segmentation (heard (model (vad s0)) fed) (S k) us op → ∀ silence,
  (∀ i f, op = Some (i, f) → f ≤ l < S k ∧ heard (model (vad s0)) fed l = true ∧ silence = (512 * (Z.of_nat k - Z.of_nat l))%Z ∧
    ∀ j, l < j < S k → heard (model (vad s0)) fed j = false) → ∀ last,
  (∀ i f, op = Some (i, f) → last = 512 * (Z.of_nat l + 1))%Z →
  audio_inv s0 fed (S k) us op (set_vad (vad_after s0 fed k (bool_decide (is_Some op)) silence last) s).
Proof.
  intros H Hk Hseg silence Hl last Hlast. destruct H as [H1 H2 H3 H4 H5 H6 H7 H8 H9 H10 H11 H12 H13 H14 H15]. constructor; try done.
  intros i f Hop. destruct (Hl i f Hop) as (Ha & Hb & -> & Hd). exists l. simpl. rewrite (Hlast i f Hop). split_and!; try done; lia.
Qed.

(** An utterance starts: the client is told where, and the audio from there, or from the
    end of the last utterance if that is later, will be its own. *)
Lemma frame_start s0 fed k us s : audio_inv s0 fed k us None s → (1024 * Z.of_nat (S k) ≤ Z.of_nat (length fed))%Z →
  heard (model (vad s0)) fed k = true →
  audio_inv s0 fed (S k) us (Some (new_id (drawn s), k))
    (handle_vad_emit (set_vad (vad_after s0 fed k true 0 (512 * (Z.of_nat k + 1))) s) (mkEmit SPEECH_STARTED (reported k))).
Proof.
  intros H Hk Hh. pose proof (last_end_within _ _ _ _ _ _ H) as Hle. pose proof (seg_start _ _ _ (new_id (drawn s)) (ai_seg _ _ _ _ _ _ H) Hh) as Hseg.
  destruct H as [H1 H2 H3 H4 H5 H6 H7 H8 [H9 H9'] H10 H11 H12 H13 H14 H15]. unfold handle_vad_emit. cbn [event_type sample_offset]. constructor; try done.
  - intros i f [= <- <-]. exists k. simpl. split_and!; try done; try lia.
  - simpl. f_equal. unfold sample_offset_to_buffer_byte, absolute_sample, num_bytes. simpl. rewrite H8, H9, H9'. simpl. rewrite length_drop. unfold reported. lia.
  - simpl. rewrite H13, <- (assoc_L app). f_equal. unfold announced. rewrite app_nil_r. f_equal. unfold absolute_sample. simpl. by rewrite H9.
Qed.

(** The branch of [auto_commit_utterance] that commits. *)
Lemma auto_commit_commits e a b i s : utterance_start_byte s = Some a → utterance_item_id s = Some i → channels (audio_buffer s) = 1%Z →
  sample_offset_to_buffer_byte e s = b → (0 ≤ a ∧ a < b ∧ 2 ≤ b ∧ b ≤ num_bytes (audio_buffer s))%Z →
  auto_commit_utterance e s = enqueue (i, to_sliced_wav_data_uri a b (audio_buffer s)) (send (Committed i) (consume_committed_prefix b s)).
Proof.
  intros Ha Hi Hc Hb Hab. unfold auto_commit_utterance. rewrite Ha, Hb. cbn [default from_option id].
  assert (He : is_empty (audio_buffer s) = false).
  { unfold is_empty, num_samples. rewrite Hc. apply bool_decide_eq_false. pose proof (Z.div_le_lower_bound (num_bytes (audio_buffer s)) (2 * 1) 1 ltac:(lia) ltac:(lia)). lia. }
  rewrite He, (Z.min_l b) by lia. rewrite bool_decide_false by lia. unfold item_id_or_new. by rewrite Hi.
Qed.

(** An utterance ends: its audio is committed and leaves the buffer. *)
Lemma frame_stop s0 fed k us i f s l silence : audio_inv s0 fed k us (Some (i, f)) s → (1024 * Z.of_nat (S k) ≤ Z.of_nat (length fed))%Z →
  f ≤ l < k → heard (model (vad s0)) fed l = true → (∀ j, l < j ≤ k → heard (model (vad s0)) fed j = false) → l + 16 ≤ k →
  audio_inv s0 fed (S k) (us ++ [mkUtterance i f l]) None
    (handle_vad_emit (set_vad (vad_after s0 fed k false silence (512 * (Z.of_nat l + 1))) s) (mkEmit SPEECH_STOPPED (512 * (Z.of_nat l + 1)))).
Proof.
  intros H Hk Hl Hh Hs Hlk. pose proof (last_end_within _ _ _ _ _ _ H) as Hle. pose proof (seg_stop _ _ _ _ _ _ (ai_seg _ _ _ _ _ _ H) Hl Hh Hs Hlk) as Hseg.
  assert (Hfu : (last_end us ≤ 512 * Z.of_nat f)%Z).
  { destruct (last_end_in us) as [[_ ->]|(u & Hu & ->)]; [lia|]. pose proof (sg_open _ _ _ _ (ai_seg _ _ _ _ _ _ H) i f eq_refl) as (_ & _ & Hx).
    specialize (Hx u Hu). unfold end_of. lia. }
  destruct H as [H1 H2 H3 H4 H5 H6 H7 H8 [H9 H9'] H10 H11 H12 H13 H14 H15].
  assert (Hnb : num_bytes (audio_buffer s) = (Z.of_nat (length fed) - 2 * last_end us)%Z) by (rewrite H8; unfold num_bytes; simpl; rewrite length_drop; lia).
  set (a := (2 * (Z.max (last_end us) (reported f) - last_end us))%Z). set (e := (512 * (Z.of_nat l + 1))%Z).
  set (b := (2 * (e - last_end us))%Z).
  assert (Hab : (0 ≤ a ∧ a < b ∧ 2 ≤ b ∧ b ≤ num_bytes (audio_buffer s))%Z) by (rewrite Hnb; unfold a, b, e, reported; lia).
  assert (Hbuf : drop_prefix b (audio_buffer s) = set_buf (drop (Z.to_nat (2 * e)) fed) (buffer_init 16000)).
  { unfold drop_prefix. rewrite bool_decide_false by lia. rewrite H8 in *. unfold set_buf, num_bytes in *. simpl in *.
    case_bool_decide as Hfull; [unfold clear, set_buf; simpl|].
    - by rewrite (drop_ge fed) by (unfold b, e in *; rewrite length_drop in *; lia).
    - rewrite drop_drop. do 2 f_equal. unfold b, e in *. lia. }
  set (s1 := send (SpeechStopped (offsets_to_ms (vad_origin_samples s0 + e)) i) (set_vad (vad_after s0 fed k false silence e) s)).
  assert (Hc : auto_commit_utterance e s1 = enqueue (i, to_sliced_wav_data_uri a b (audio_buffer s1)) (send (Committed i) (consume_committed_prefix b s1))).
  { apply auto_commit_commits; try done; [unfold s1; simpl; by rewrite H8|]. unfold s1, sample_offset_to_buffer_byte, absolute_sample. simpl. rewrite H9, H9'. unfold b, e. lia. }
  assert (Hh' : handle_vad_emit (set_vad (vad_after s0 fed k false silence e) s) (mkEmit SPEECH_STOPPED e) = set_idle true (auto_commit_utterance e s1)).
  { unfold handle_vad_emit, item_id_or_new, s1, absolute_sample. simpl. by rewrite H11, H9. }
  rewrite Hh', Hc. clear Hh' Hc. constructor; try done.
  - unfold s1. simpl. rewrite last_end_snoc. exact Hbuf.
  - unfold s1. simpl. rewrite last_end_snoc, H9, H9'. split; [done|]. unfold end_of, b, e. simpl. rewrite Z.mul_comm, Z.div_mul by lia. lia.
  - unfold s1. simpl. rewrite H13, <- !(assoc_L app). f_equal. unfold announced. rewrite bind_app. simpl. by rewrite app_nil_r, <- !(assoc_L app).
  - unfold s1. simpl. rewrite H14, commits_snoc, <- (assoc_L app). do 2 f_equal. unfold to_sliced_wav_data_uri. rewrite H8. simpl.
    assert (Hsl : slice a b (drop (Z.to_nat (2 * last_end us)) fed) = slice (2 * Z.max (last_end us) (reported f)) (2 * e) fed).
    { rewrite slice_drop by lia. f_equal; unfold a, b, e; lia. }
    rewrite Hsl. done.
Qed.

Lemma frame_step_inv s0 fed k us op s : audio_inv s0 fed k us op s → (1024 * Z.of_nat (S k) ≤ Z.of_nat (length fed))%Z →
  ∃ us' op', audio_inv s0 fed (S k) us' op' (frame_step s).
Proof.
  intros H Hk. pose proof (ai_seg _ _ _ _ _ _ H) as Hseg. pose proof (ai_last _ _ _ _ _ _ H) as Hlast.
  unfold frame_step. rewrite (process_frame_inv _ _ _ _ _ _ H). destruct (heard _ _ k) eqn:Hh.
  - destruct op as [[i f]|]; [|eexists _, _; by apply frame_start].
    exists us, (Some (i, f)). refine (frame_quiet s0 fed k us (Some (i, f)) s k H Hk (seg_goes_on _ _ _ _ Hseg) 0 _ _ _).
    + intros ? ? [= <- <-]. destruct (sg_open _ _ _ _ Hseg i f eq_refl) as (_ & Hf & _). split_and!; try done; lia.
    + intros ? ? _. done.
  - cbv zeta. destruct op as [[i f]|].
    + destruct (Hlast i f eq_refl) as (l & Hl & Hhl & Hlo & Hsil & Hq).
      assert (Hs : ∀ j, l < j ≤ k → heard (model (vad s0)) fed j = false).
      { intros j Hj. destruct (decide (j = k)) as [->|]; [done|]. apply Hq. lia. }
      simpl bool_decide at 1. destruct (bool_decide (8000 ≤ _)%Z) eqn:Hlong; simpl andb; cbv iota.
      * apply bool_decide_eq_true in Hlong. rewrite Hlo. eexists _, _. cbn [foldl]. eapply frame_stop; try done. lia.
      * exists us, (Some (i, f)). refine (frame_quiet s0 fed k us (Some (i, f)) s l H Hk (seg_goes_on _ _ _ _ Hseg) _ _ _ _).
        -- intros ? ? [= <- <-]. split_and!; try done; try lia. intros j Hj. apply Hs. lia.
        -- intros ? ? [= <- <-]. done.
    + exists us, None. refine (frame_quiet s0 fed k us None s k H Hk (seg_silent _ _ _ Hseg Hh) _ _ _ _); done.
Qed.

(** Handling what the VAD reports does not touch the VAD. *)
Lemma auto_commit_vad v e s : auto_commit_utterance e (set_vad v s) = set_vad v (auto_commit_utterance e s).
Proof.
  unfold auto_commit_utterance, item_id_or_new, sample_offset_to_buffer_byte, absolute_sample. cbn.
  destruct (is_empty _); [done|]. case_bool_decide; [done|]. by destruct (utterance_item_id s).
Qed.
Lemma handle_vad_emit_vad v s e : handle_vad_emit (set_vad v s) e = set_vad v (handle_vad_emit s e).
Proof.
  unfold handle_vad_emit, item_id_or_new. destruct (event_type e); [done|]. cbn [utterance_item_id set_vad].
  destruct (utterance_item_id s).
  - change (send ?x (set_vad v s)) with (set_vad v (send x s)). by rewrite auto_commit_vad.
  - change (send ?x (draw (set_vad v s))) with (set_vad v (send x (draw s))). by rewrite auto_commit_vad.
Qed.
Lemma foldl_handle_vad v es s : foldl handle_vad_emit (set_vad v s) es = set_vad v (foldl handle_vad_emit s es).
Proof. revert s. induction es as [|e es IH]; intros s; [done|]. simpl. by rewrite handle_vad_emit_vad, IH. Qed.
Lemma vad_foldl_handle es s : vad (foldl handle_vad_emit s es) = vad s.
Proof.
  assert (Hs : set_vad (vad s) s = s) by (by destruct s). rewrite <- Hs at 1. by rewrite foldl_handle_vad.
Qed.

(** All the frames there are: handling their reports together is handling them one by one. *)
Lemma frames_inv s0 fed v : ∀ k us op s, vad s = v → audio_inv s0 fed k us op s → ∃ k' us' op',
  audio_inv s0 fed k' us' op' (foldl handle_vad_emit (set_vad (frames_loop v).1 s) (frames_loop v).2) ∧ (Z.of_nat (length fed) < 1024 * Z.of_nat (S k'))%Z.
Proof.
  pose proof frame_bytes_val as Hfb.
  induction v as [v Hv|v Hv IH] using frames_ind; intros k us op s <- H; rewrite frames_loop_eq.
  - rewrite bool_decide_false by lia. exists k, us, op. assert (Hs : set_vad (vad s) s = s) by (by destruct s). simpl. rewrite Hs. split; [done|].
    rewrite (ai_leftover _ _ _ _ _ _ H), length_drop in Hv. lia.
  - rewrite bool_decide_true by done. destruct (frame_step_inv _ _ _ _ _ _ H) as (us1 & op1 & H1).
    { rewrite (ai_leftover _ _ _ _ _ _ H), length_drop in Hv. lia. }
    unfold frame_step in H1. destruct (process_frame (vad s)) as [v1 e1]. cbn [fst] in IH.
    destruct (IH _ _ _ (foldl handle_vad_emit (set_vad v1 s) e1) ltac:(by rewrite vad_foldl_handle) H1) as (k2 & us2 & op2 & H2 & Hk2).
    destruct (frames_loop v1) as [v2 e2]. cbn [fst snd] in *. exists k2, us2, op2. split; [|done].
    rewrite foldl_app. by rewrite !foldl_handle_vad in *.
Qed.

Lemma tail_extended c b n : n = Z.of_nat (length c) → tail n (set_buf (buf b ++ c) b) = Ok c.
Proof.
  intros ->. unfold tail, num_bytes. simpl. rewrite length_app, !bool_decide_true by lia. simpl.
  rewrite drop_app_ge by lia. replace (_ - _) with 0 by lia. done.
Qed.

Lemma append_eq c s : length (leftover_pcm (vad s)) < frame_bytes → handle_audio_append (b64text c) s =
  if bool_decide (max_bytes (audio_buffer s) < num_bytes (audio_buffer s) + Z.of_nat (length c))%Z then Raise (BufferOverflow (max_bytes (audio_buffer s)))
  else let s := fed_more c s in Ok (foldl handle_vad_emit (set_vad (frames_loop (vad s)).1 s) (frames_loop (vad s)).2).
Proof.
  intros Hl. unfold handle_audio_append, append_b64, extend. rewrite b64_roundtrip. simpl. case_bool_decide; [done|]. simpl.
  rewrite tail_extended by done. simpl. rewrite process_loop_eq by done. unfold fed_more. simpl. by destruct (frames_loop _).
Qed.

Definition ended (s0 : session) (fed : list byte) (s : session) : Prop :=
  ∃ k us op, audio_inv s0 fed k us op s ∧ (Z.of_nat (length fed) < 1024 * Z.of_nat (S k))%Z.

Lemma append_inv s0 fed c s s' : ended s0 fed s → handle_audio_append (b64text c) s = Ok s' → ended s0 (fed ++ c) s'.
Proof.
  pose proof frame_bytes_val as Hfb. intros (k & us & op & H & Hk). rewrite append_eq by (rewrite (ai_leftover _ _ _ _ _ _ H), length_drop; lia).
  case_bool_decide; [done|]. intros [= <-]. destruct (frames_inv s0 (fed ++ c) (vad (fed_more c s)) k us op (fed_more c s)) as (k' & us' & op' & H' & Hk').
  - done.
  - by apply inv_fed_more.
  - by exists k', us', op'.
Qed.

Lemma appends_inv chunks s0 s : fresh s0 → appends chunks s0 = Ok s → ended s0 (concat chunks) s.
Proof.
  intros Hf. revert s. induction chunks as [|c chunks IH] using rev_ind; intros s.
  - intros [= <-]. exists 0, [], None. split; [by apply fresh_inv|simpl; lia].
  - unfold appends in *. rewrite foldl_app, concat_app. simpl. rewrite app_nil_r.
    destruct (foldl _ (Ok s0) chunks) as [s1|e]; [|done]. simpl. apply append_inv. by apply IH.
Qed.

(** C28. No speech is lost and none is sent twice: feed a fresh session any audio, cut in any
    way, and the verdicts of the model on its frames determine utterances, each from a frame
    of speech to a frame of speech that half a second of silence follows, in order, that
    together with the one still open contain every frame of speech.  The client is told
    where each starts and ends and of its commit, and what is queued for
    a response is exactly their audio: from three tenths of a second before the first
    frame, but not before the end of the last utterance, to the end of the last frame.
    Responses wait exactly while an utterance is open. *)
Theorem speech_committed_once s0 chunks s : fresh s0 → appends chunks s0 = Ok s →
  let fed := concat chunks in ∃ k us op,
  (1024 * Z.of_nat k ≤ Z.of_nat (length fed) < 1024 * Z.of_nat (S k))%Z ∧
  segmentation (heard (model (vad s0)) fed) k us op ∧
  sent s = sent s0 ++ announced (vad_origin_samples s0) us op ∧
  response_queue s = response_queue s0 ++ commits fed 0 us ∧
  speech_idle s = negb (bool_decide (is_Some op)).
Proof.
  intros Hf Hs. destruct (appends_inv _ _ _ Hf Hs) as (k & us & op & H & Hk). exists k, us, op. pose proof (ai_fed _ _ _ _ _ _ H). split; [lia|].
  split; [apply H|]. split; [apply H|]. split; apply H.
Qed.

(** C30. Silence fills the buffer: only commits take audio out of it, so a client that sends a
    minute of audio in which nothing is heard gets a [BufferOverflow], which ends the
    session. *)
Theorem silence_overflows s0 chunks c s : fresh s0 → appends chunks s0 = Ok s →
  (∀ j, (1024 * Z.of_nat (S j) ≤ Z.of_nat (length (concat chunks)))%Z → heard (model (vad s0)) (concat chunks) j = false) →
  (1920000 < Z.of_nat (length (concat chunks)) + Z.of_nat (length c))%Z →
  handle_audio_append (b64text c) s = Raise (BufferOverflow 1920000).
Proof.
  pose proof frame_bytes_val as Hfb. intros Hf Hs Hq Hlong. destruct (appends_inv _ _ _ Hf Hs) as (k & us & op & H & Hk). pose proof (ai_fed _ _ _ _ _ _ H) as Hle.
  assert (Hus : us = []).
  { destruct us as [|u us]; [done|]. destruct (sg_bounds _ _ _ _ (ai_seg _ _ _ _ _ _ H) u ltac:(set_solver)) as (Hu & _ & Hlt & Huk & _).
    rewrite Hq in Hu; [done|]. lia. }
  rewrite append_eq by (rewrite (ai_leftover _ _ _ _ _ _ H), length_drop; lia).
  rewrite (ai_buffer _ _ _ _ _ _ H), Hus. unfold num_bytes. simpl. unfold last_end. simpl. rewrite drop_0.
  rewrite bool_decide_true; [done|]. unfold DEFAULT_MAX_BUFFER_BYTES. lia.
Qed.

(** The starting points of the two. *)
Lemma init_fresh w : fresh (session_init half w).
Proof. done. Qed.
Lemma cleared_fresh s0 chunks s : fresh s0 → appends chunks s0 = Ok s → fresh (handle_audio_clear s).
Proof.
  intros Hf Hs. destruct (appends_inv _ _ _ Hf Hs) as (k & us & op & H & _). split; try done.
  - simpl. by rewrite (ai_buffer _ _ _ _ _ _ H).
  - simpl. unfold reset. by rewrite (ai_config _ _ _ _ _ _ H).
Qed.
End utterances.
End realtime.

(** ** A model that hears positive samples *)
Definition demo_model (w : unit) (samples : list Z) : unit * Z := (w, default 0%Z (head samples)).
Definition demo_bytes (b : byte) (frames : Z) : list byte := replicate (Z.to_nat (1024 * frames)) b.
Definition demo_id (n : nat) : string := ("item_" +:+ pretty n)%string.
Abbreviation demo_appends := (appends demo_model Z.geb demo_id).

(** Two utterances, cut across frames, and a third that goes on. *)
Definition demo_chunks : list (list byte) :=
  [demo_bytes x00 2 ++ [x01]; drop 1 (demo_bytes x01 1) ++ demo_bytes x00 17; demo_bytes x01 1 ++ demo_bytes x00 16 ++ demo_bytes x01 1].

Definition result_ok {A} (r : res A) : bool := match r with Ok _ => true | Raise _ => false end.
Lemma result_ok_inv {A} (r : res A) : result_ok r = true → ∃ a, r = Ok a.
Proof. destruct r; [eauto|done]. Qed.

Lemma speech_committed_once_witness : ∃ s k us op, demo_appends demo_chunks (session_init 1%Z tt) = Ok s ∧
  segmentation (heard demo_model Z.geb 1%Z tt (concat demo_chunks)) k us op ∧ response_queue s = commits (concat demo_chunks) 0 us.
Proof.
  destruct (result_ok_inv (demo_appends demo_chunks (session_init 1%Z tt))) as [s Hs]; [vm_compute; reflexivity|].
  destruct (speech_committed_once demo_model Z.geb demo_id 1%Z (session_init 1%Z tt) demo_chunks s (init_fresh _ _) Hs) as (k & us & op & _ & Hseg & _ & Hq & _).
  exists s, k, us, op. split; [exact Hs|]. split; [exact Hseg|exact Hq].
Defined.

(** What is queued for them: one frame of speech behind the two before it, and one behind
    three tenths of a second of padding, with their headers, in base64. *)
Lemma demo_queue : (λ s, (λ x, (x.1, Z.of_nat (String.length x.2))) <$> response_queue s) <$> demo_appends demo_chunks (session_init 1%Z tt) =
  Ok [("item_0", 22 + (44 + 3 * 1024) / 3 * 4 + 4); ("item_1", 22 + (44 + 2 * 512 + 2 * 4800) / 3 * 4)]%Z.
Proof. vm_compute. reflexivity. Qed.

Lemma concat_one {A} (l : list A) : concat [l] = l.
Proof. apply app_nil_r. Qed.

Lemma silence_overflows_witness : ∃ s, demo_appends [demo_bytes x00 2] (session_init 1%Z tt) = Ok s ∧
  handle_audio_append demo_model Z.geb demo_id (b64text (demo_bytes x00 1875)) s = Raise (BufferOverflow 1920000).
Proof.
  destruct (result_ok_inv (demo_appends [demo_bytes x00 2] (session_init 1%Z tt))) as [s Hs]; [vm_compute; reflexivity|].
  exists s. split; [exact Hs|]. apply (silence_overflows demo_model Z.geb demo_id 1%Z (session_init 1%Z tt) [demo_bytes x00 2] _ s (init_fresh _ _) Hs).
  - rewrite concat_one. unfold demo_bytes at 1. rewrite length_replicate. intros j Hj.
    assert (j = 0 ∨ j = 1) as [-> | ->] by lia; vm_compute; reflexivity.
  - rewrite concat_one. unfold demo_bytes. rewrite !length_replicate. lia.
Defined.

Lemma vad_ignores_chunking_witness : let v := vad_init (default_config 1%Z) tt in
  ∃ v', process demo_model Z.geb (demo_bytes x01 1 ++ demo_bytes x00 20) v = (v', [mkEmit SPEECH_STARTED 0; mkEmit SPEECH_STOPPED 512]).
Proof.
  intros v. rewrite (proj1 (vad_ignores_chunking demo_model Z.geb (demo_bytes x01 1) (demo_bytes x00 20) v ltac:(vm_compute; lia))).
  eexists. vm_compute. reflexivity.
Defined.
