(* ===== verification/RealtimeSession.v ===== *)
(** * The responses of a realtime session

    Models [RealtimeSession] ([src/sglang_omni/serve/realtime/session.py]) from the queue of
    committed utterances on: the drainer, the turn, the response with its terminal
    events, the transcription, cancellation, truncation and teardown; what fills
    the queue is [RealtimeAudio].  The tasks are asyncio tasks of one loop: a step is what one of
    them does between two awaits.  The lock [response_state_lock] is never held across an
    await, so its sections are parts of steps.  [cancel] marks a task, and the task gets the
    [CancelledError] when it next runs.  A send that started may have reached the
    client when it is cancelled, or not; a send that raises leaves the socket disconnected, as
    Starlette has it.  The engine (streams and aborts) and the client are inputs.  The
    identities drawn from [uuid4] are numbers: response [n], its request and its item
    belong to the [n]th turn.  Audio payloads and usage are opaque. *)
From S2P Require Import Prelude.

Section session.
Context {P U : Type}.

Inductive item := User (k : nat) | Assistant (n : nat).
#[export] Instance item_eq_dec : EqDecision item.
Proof. solve_decision. Defined.

Record ConversationItem := mkItem { ci_role_user : bool; ci_text : string; ci_id : item }.

(** A chunk of a completion stream: a text that is absent is empty. *)
Inductive modality := MText | MAudio | MOther.
Record chunk := mkChunk { c_modality : modality; c_text : string; c_audio_b64 : string; c_finish_reason : option string; c_usage : option U }.
Definition is_text (c : chunk) : bool := match c_modality c with MText => true | _ => false end.
Definition is_audio (c : chunk) : bool := match c_modality c with MAudio => true | _ => false end.

Inductive status := Completed | Cancelled | Failed.
#[export] Instance status_eq_dec : EqDecision status.
Proof. solve_decision. Defined.

(** What is sent to the client; [Other] stands for the events of the audio and of the
    transcription. *)
Inductive event :=
| Created (n : nat)
| TextDelta (n : nat) (delta : string)
| AudioDelta (n : nat) (delta : string)
| TextDone (n : nat) (text : string)
| AudioDone (n : nat)
| ResponseDone (n : nat) (st : status) (reason text : string) (audio : bool) (usage : option U)
| Truncated (i : item)
| SendError (code : string)
| Other (type : string).

(** ** The locals of [run_response] and its terminal task *)
Record locals := mkLocals {
  l_id : nat;
  wants_audio : bool;
  text_acc : list string;
  finish_reason : string;
  usage : option U;
  saw_audio : bool;
  text_done : bool;
  audio_done : bool;
  response_done : bool;
  retain_for_history : bool;
}.
Definition locals_init (n : nat) (audio : bool) : locals := mkLocals n audio [] "stop" None false false false false false.
Definition set_text t l := mkLocals (l_id l) (wants_audio l) t (finish_reason l) (usage l) (saw_audio l) (text_done l) (audio_done l) (response_done l) (retain_for_history l).
Definition set_finish f u l := mkLocals (l_id l) (wants_audio l) (text_acc l) f u (saw_audio l) (text_done l) (audio_done l) (response_done l) (retain_for_history l).
Definition set_saw l := mkLocals (l_id l) (wants_audio l) (text_acc l) (finish_reason l) (usage l) true (text_done l) (audio_done l) (response_done l) (retain_for_history l).
Definition set_dones t a d l := mkLocals (l_id l) (wants_audio l) (text_acc l) (finish_reason l) (usage l) (saw_audio l) (t || text_done l) (a || audio_done l) (d || response_done l) (retain_for_history l).
Definition set_retain r l := mkLocals (l_id l) (wants_audio l) (text_acc l) (finish_reason l) (usage l) (saw_audio l) (text_done l) (audio_done l) (response_done l) r.
Definition response_text (l : locals) : string := String.concat "" (text_acc l).

(** The arguments of [emit_terminals], and the send its task is at. *)
Record terminals := mkTerminals { t_text : string; t_include_audio : bool; t_status : status; t_reason : string; t_error : option string }.
Inductive tstage := SText | SAudio | SError | SDone.
Inductive terminal_task := TmNone | TmCreated (t : terminals) | TmSending (t : terminals) (g : tstage) | TmOk | TmFailed.

(** What follows a send of the stream loop, where [emit_terminals_safely] was called from, and
    where the response task is. *)
Inductive after := ACreated | AText (c : chunk) | AAudio (c : chunk) | ATextDone | AAudioDone.
Inductive ctx := InBody (text : string) (retain : bool) | InCancelHandler | InExcHandler.
Inductive outcome := OOk (text : string) | OCancelled | OFailed.
Inductive rpc :=
| RNone
| RStart
| RSending (e : event) (k : after)
| RNext
| RShield (x : ctx)
| RAwait (x : ctx)
| REnded (o : outcome).

Record response := mkResponse { at_rpc : rpc; r_cancel : bool; locs : locals; terminal : terminal_task }.

(** ** The session *)
Record control := mkControl {
  active_response_request_id : option nat;
  active_response_has_audio : bool;
  response_cancel_reason : option string;
  cancelled_response : option (nat * string);
  finalized_response_request_id : option nat;
  response_start_pending : bool;
  pending_response_cancel_reason : option string;
}.
Definition control_init : control := mkControl None false None None None false None.

Record history := mkHistory {
  pending_assistant_item_ids : gset nat;
  truncated_assistant_item_ids : gset nat;
  cancelled_assistant_item_ids : list nat;
  conversation : list ConversationItem;
}.
Definition history_init : history := mkHistory ∅ ∅ [] [].

(** The turn: [out] is [response_output], with the number of the turn's response. *)
Inductive turn :=
| TNone
| TStart (i : nat)
| TAwait (i : nat)
| TAbort (i : nat) (out : option string) (a : nat)
| TNextChunk (i : nat) (out : option string) (acc : list string)
| TSendDelta (i : nat) (out : option string) (acc : list string) (fin : bool)
| TSendCompleted (i : nat) (out : option string) (acc : list string)
| TEnded.

Inductive drainer := DNone | DGet | DWait (x : nat * P) | DWoken (x : nat * P) | DTurn | DDone.

(** The receive loop: at a receive, in a send of a handler, or in the teardown. *)
Inductive handler := HDone | HInterrupt | HCommit (u : option (nat * P)) | HEnqueue (x : nat * P).
Inductive loop := LRun | LSending (e : event) (k : handler) | LTurn (a : option nat) | LAborts (a : option nat) | LDrainer | LClosed.

(** [abort_tasks] are the abort tasks that run, [cancels] the cancellations that were
    accepted, with their reasons, [put] everything that was queued, [turns] the items
    of the turns begun, and [truncations] the assistant items truncated. *)
Record session := mkSession {
  closed : bool;
  connected : bool;
  audio_modality : bool;
  interrupt_response : bool;
  turn_cancel_requested : bool;
  active_response_abort_task : option nat;
  abort_tasks : gset nat;
  speech_idle : bool;
  queue : list (nat * P);
  ctl : control;
  hist : history;
  resp : response;
  at_turn : turn;
  t_cancel : bool;
  at_drainer : drainer;
  at_loop : loop;
  sent : list event;
  cancels : gmap nat string;
  put : list nat;
  turns : list nat;
  truncations : gset nat;
}.
Definition session_init : session :=
  mkSession false true false true false None ∅ true [] control_init history_init (mkResponse RNone false (locals_init 0 false) TmNone) TNone false DNone LRun [] ∅ [] [] ∅.

Definition set_ctl f s := mkSession (closed s) (connected s) (audio_modality s) (interrupt_response s) (turn_cancel_requested s) (active_response_abort_task s) (abort_tasks s) (speech_idle s) (queue s) (f (ctl s)) (hist s) (resp s) (at_turn s) (t_cancel s) (at_drainer s) (at_loop s) (sent s) (cancels s) (put s) (turns s) (truncations s).
Definition set_hist f s := mkSession (closed s) (connected s) (audio_modality s) (interrupt_response s) (turn_cancel_requested s) (active_response_abort_task s) (abort_tasks s) (speech_idle s) (queue s) (ctl s) (f (hist s)) (resp s) (at_turn s) (t_cancel s) (at_drainer s) (at_loop s) (sent s) (cancels s) (put s) (turns s) (truncations s).
Definition set_resp r s := mkSession (closed s) (connected s) (audio_modality s) (interrupt_response s) (turn_cancel_requested s) (active_response_abort_task s) (abort_tasks s) (speech_idle s) (queue s) (ctl s) (hist s) r (at_turn s) (t_cancel s) (at_drainer s) (at_loop s) (sent s) (cancels s) (put s) (turns s) (truncations s).
Definition set_turn t s := mkSession (closed s) (connected s) (audio_modality s) (interrupt_response s) (turn_cancel_requested s) (active_response_abort_task s) (abort_tasks s) (speech_idle s) (queue s) (ctl s) (hist s) (resp s) t (t_cancel s) (at_drainer s) (at_loop s) (sent s) (cancels s) (put s) (turns s) (truncations s).
Definition set_t_cancel b s := mkSession (closed s) (connected s) (audio_modality s) (interrupt_response s) (turn_cancel_requested s) (active_response_abort_task s) (abort_tasks s) (speech_idle s) (queue s) (ctl s) (hist s) (resp s) (at_turn s) b (at_drainer s) (at_loop s) (sent s) (cancels s) (put s) (turns s) (truncations s).
Definition set_drainer d s := mkSession (closed s) (connected s) (audio_modality s) (interrupt_response s) (turn_cancel_requested s) (active_response_abort_task s) (abort_tasks s) (speech_idle s) (queue s) (ctl s) (hist s) (resp s) (at_turn s) (t_cancel s) d (at_loop s) (sent s) (cancels s) (put s) (turns s) (truncations s).
Definition set_loop l s := mkSession (closed s) (connected s) (audio_modality s) (interrupt_response s) (turn_cancel_requested s) (active_response_abort_task s) (abort_tasks s) (speech_idle s) (queue s) (ctl s) (hist s) (resp s) (at_turn s) (t_cancel s) (at_drainer s) l (sent s) (cancels s) (put s) (turns s) (truncations s).
Definition set_idle b d s := mkSession (closed s) (connected s) (audio_modality s) (interrupt_response s) (turn_cancel_requested s) (active_response_abort_task s) (abort_tasks s) b (queue s) (ctl s) (hist s) (resp s) (at_turn s) (t_cancel s) d (at_loop s) (sent s) (cancels s) (put s) (turns s) (truncations s).
Definition set_queue q d s := mkSession (closed s) (connected s) (audio_modality s) (interrupt_response s) (turn_cancel_requested s) (active_response_abort_task s) (abort_tasks s) (speech_idle s) q (ctl s) (hist s) (resp s) (at_turn s) (t_cancel s) d (at_loop s) (sent s) (cancels s) (put s) (turns s) (truncations s).
Definition set_put q p d s := mkSession (closed s) (connected s) (audio_modality s) (interrupt_response s) (turn_cancel_requested s) (active_response_abort_task s) (abort_tasks s) (speech_idle s) q (ctl s) (hist s) (resp s) (at_turn s) (t_cancel s) d (at_loop s) (sent s) (cancels s) p (turns s) (truncations s).
Definition emit e s := mkSession (closed s) (connected s) (audio_modality s) (interrupt_response s) (turn_cancel_requested s) (active_response_abort_task s) (abort_tasks s) (speech_idle s) (queue s) (ctl s) (hist s) (resp s) (at_turn s) (t_cancel s) (at_drainer s) (at_loop s) (sent s ++ [e]) (cancels s) (put s) (turns s) (truncations s).
Definition disconnect  s := mkSession (closed s) false (audio_modality s) (interrupt_response s) (turn_cancel_requested s) (active_response_abort_task s) (abort_tasks s) (speech_idle s) (queue s) (ctl s) (hist s) (resp s) (at_turn s) (t_cancel s) (at_drainer s) (at_loop s) (sent s) (cancels s) (put s) (turns s) (truncations s).
Definition set_closed  s := mkSession true (connected s) (audio_modality s) (interrupt_response s) true (active_response_abort_task s) (abort_tasks s) (speech_idle s) (queue s) (ctl s) (hist s) (resp s) (at_turn s) (t_cancel s) (at_drainer s) (at_loop s) (sent s) (cancels s) (put s) (turns s) (truncations s).
Definition set_turn_cancel b s := mkSession (closed s) (connected s) (audio_modality s) (interrupt_response s) b (active_response_abort_task s) (abort_tasks s) (speech_idle s) (queue s) (ctl s) (hist s) (resp s) (at_turn s) (t_cancel s) (at_drainer s) (at_loop s) (sent s) (cancels s) (put s) (turns s) (truncations s).
Definition set_modality a i s := mkSession (closed s) (connected s) a i (turn_cancel_requested s) (active_response_abort_task s) (abort_tasks s) (speech_idle s) (queue s) (ctl s) (hist s) (resp s) (at_turn s) (t_cancel s) (at_drainer s) (at_loop s) (sent s) (cancels s) (put s) (turns s) (truncations s).
Definition set_aborts a t s := mkSession (closed s) (connected s) (audio_modality s) (interrupt_response s) (turn_cancel_requested s) a t (speech_idle s) (queue s) (ctl s) (hist s) (resp s) (at_turn s) (t_cancel s) (at_drainer s) (at_loop s) (sent s) (cancels s) (put s) (turns s) (truncations s).
Definition note_cancel n r s := mkSession (closed s) (connected s) (audio_modality s) (interrupt_response s) (turn_cancel_requested s) (active_response_abort_task s) (abort_tasks s) (speech_idle s) (queue s) (ctl s) (hist s) (resp s) (at_turn s) (t_cancel s) (at_drainer s) (at_loop s) (sent s) (<[n := r]> (cancels s)) (put s) (turns s) (truncations s).
Definition begin_turn i s := mkSession (closed s) (connected s) (audio_modality s) (interrupt_response s) (turn_cancel_requested s) (active_response_abort_task s) (abort_tasks s) (speech_idle s) (queue s) (ctl s) (hist s) (resp s) (at_turn s) (t_cancel s) (at_drainer s) (at_loop s) (sent s) (cancels s) (put s) (turns s ++ [i]) (truncations s).
Definition note_truncation n s := mkSession (closed s) (connected s) (audio_modality s) (interrupt_response s) (turn_cancel_requested s) (active_response_abort_task s) (abort_tasks s) (speech_idle s) (queue s) (ctl s) (hist s) (resp s) (at_turn s) (t_cancel s) (at_drainer s) (at_loop s) (sent s) (cancels s) (put s) (turns s) ({[n]} ∪ truncations s).

(** Updates of the response and of its parts. *)
Definition goto p s := set_resp (mkResponse p (r_cancel (resp s)) (locs (resp s)) (terminal (resp s))) s.
Definition set_r_cancel b s := set_resp (mkResponse (at_rpc (resp s)) b (locs (resp s)) (terminal (resp s))) s.
Definition set_locs (f : locals → locals) s := set_resp (mkResponse (at_rpc (resp s)) (r_cancel (resp s)) (f (locs (resp s))) (terminal (resp s))) s.
Definition set_terminal t s := set_resp (mkResponse (at_rpc (resp s)) (r_cancel (resp s)) (locs (resp s)) t) s.
Definition the_id (s : session) : nat := l_id (locs (resp s)).

Definition set_active a h c := mkControl a h (response_cancel_reason c) (cancelled_response c) (finalized_response_request_id c) (response_start_pending c) (pending_response_cancel_reason c).
Definition set_cancel_reason r c := mkControl (active_response_request_id c) (active_response_has_audio c) r (cancelled_response c) (finalized_response_request_id c) (response_start_pending c) (pending_response_cancel_reason c).
Definition set_cancelled x c := mkControl (active_response_request_id c) (active_response_has_audio c) (response_cancel_reason c) x (finalized_response_request_id c) (response_start_pending c) (pending_response_cancel_reason c).
Definition set_finalized x c := mkControl (active_response_request_id c) (active_response_has_audio c) (response_cancel_reason c) (cancelled_response c) x (response_start_pending c) (pending_response_cancel_reason c).
Definition set_pending b r c := mkControl (active_response_request_id c) (active_response_has_audio c) (response_cancel_reason c) (cancelled_response c) (finalized_response_request_id c) b r.

Definition set_pending_items f h := mkHistory (f (pending_assistant_item_ids h)) (f (truncated_assistant_item_ids h)) (cancelled_assistant_item_ids h) (conversation h).
Definition set_truncated f h := mkHistory (pending_assistant_item_ids h) (f (truncated_assistant_item_ids h)) (cancelled_assistant_item_ids h) (conversation h).
Definition set_cancelled_items f h := mkHistory (pending_assistant_item_ids h) (truncated_assistant_item_ids h) (f (cancelled_assistant_item_ids h)) (conversation h).
Definition set_conversation f h := mkHistory (pending_assistant_item_ids h) (truncated_assistant_item_ids h) (cancelled_assistant_item_ids h) (f (conversation h)).

(** [send] goes through only then. *)
Definition live (s : session) : bool := negb (closed s) && connected s.

(** ** The terminal task: [emit_terminals] *)
Definition _remember_cancelled_assistant_item (n : nat) (l : list nat) : list nat :=
  let l := if bool_decide (n ∈ l) then l else l ++ [n] in if bool_decide (64 < length l) then tail l else l.

Definition terminal_finish (t : terminals) (s : session) : session :=
  let s := if wants_audio (locs (resp s)) && bool_decide (t_status t = Cancelled)
           then set_hist (set_cancelled_items (_remember_cancelled_assistant_item (the_id s))) s else s in
  set_terminal TmOk (set_locs (set_dones false false true) s).

(** From the send of a stage on: wait for it, or go on when nothing is sent. *)
Definition emit_done (t : terminals) (s : session) : session := if live s then set_terminal (TmSending t SDone) s else terminal_finish t s.
Definition emit_error (t : terminals) (s : session) : session :=
  match t_error t with
  | Some _ => if live s then set_terminal (TmSending t SError) s else emit_done t s
  | None => emit_done t s
  end.
Definition emit_audio_done (t : terminals) (s : session) : session :=
  let l := locs (resp s) in
  if t_include_audio t && saw_audio l && negb (audio_done l)
  then if live s then set_terminal (TmSending t SAudio) s else emit_error t (set_locs (set_dones false true false) s)
  else emit_error t s.
Definition emit_text_done (t : terminals) (s : session) : session :=
  if negb (text_done (locs (resp s)))
  then if live s then set_terminal (TmSending t SText) s else emit_audio_done t (set_locs (set_dones true false false) s)
  else emit_audio_done t s.
Definition emit_terminals (t : terminals) (s : session) : session :=
  if response_done (locs (resp s)) then set_terminal TmOk s else emit_text_done t s.

Definition stage_event (t : terminals) (g : tstage) (s : session) : event :=
  let n := the_id s in
  match g with
  | SText => TextDone n (t_text t)
  | SAudio => AudioDone n
  | SError => SendError (default "" (t_error t))
  | SDone => ResponseDone n (t_status t) (t_reason t) (t_text t) (t_include_audio t) (usage (locs (resp s)))
  end.

(** After the send of a stage. *)
Definition stage_sent (t : terminals) (g : tstage) (s : session) : session :=
  match g with
  | SText => emit_audio_done t (set_locs (set_dones true false false) s)
  | SAudio => emit_error t (set_locs (set_dones false true false) s)
  | SError => emit_done t s
  | SDone => terminal_finish t s
  end.

Inductive io := Go | SendRaises.
Definition terminal_tick (i : io) (s : session) : option session :=
  match terminal (resp s), i with
  | TmCreated t, Go => Some (emit_terminals t s)
  | TmSending t g, Go => Some (stage_sent t g (emit (stage_event t g s) s))
  | TmSending _ _, SendRaises => Some (set_terminal TmFailed (disconnect s))
  | _, _ => None
  end.

(** ** The response task: [run_response] *)
Definition claim_terminal (s : session) : session := set_ctl (set_finalized (Some (the_id s))) s.
Definition is_cancelled (s : session) : bool :=
  match cancelled_response (ctl s) with Some (n, _) => bool_decide (n = the_id s) | None => false end.
Definition cancel_reason (s : session) : string := match cancelled_response (ctl s) with Some (_, r) => r | None => "client_cancelled" end.

Definition emit_terminals_safely (t : terminals) (x : ctx) (s : session) : session := goto (RShield x) (set_terminal (TmCreated t) s).

(** The [finally] block, its section under the lock first, and the end of the task. *)
Definition clear_control (n : nat) (c : control) : control :=
  let c := if bool_decide (active_response_request_id c = Some n) then set_active None false c else c in
  let c := if bool_decide (fst <$> cancelled_response c = Some n) then set_cancelled None c else c in
  if bool_decide (finalized_response_request_id c = Some n) then set_finalized None c else c.
Definition run_response_finally (o : outcome) (s : session) : session :=
  let n := the_id s in
  let s := if wants_audio (locs (resp s)) && negb (retain_for_history (locs (resp s)))
           then set_hist (set_pending_items (λ X, X ∖ {[n]})) s else s in
  goto (REnded o) (set_terminal TmNone (set_ctl (clear_control n) s)).

(** [except asyncio.CancelledError] and [except Exception]. *)
Definition on_cancelled (s : session) : session :=
  let l := locs (resp s) in
  if response_done l then run_response_finally OCancelled s
  else emit_terminals_safely (mkTerminals (response_text l) (wants_audio l && saw_audio l) Cancelled (cancel_reason s) None) InCancelHandler (claim_terminal s).
Definition on_exception (s : session) : session :=
  let l := locs (resp s) in let cancelled := is_cancelled s in
  if response_done l then run_response_finally (OOk "") (claim_terminal s)
  else emit_terminals_safely (mkTerminals (response_text l) (wants_audio l && saw_audio l) (if cancelled then Cancelled else Failed)
         (if cancelled then cancel_reason s else "error") (if cancelled then None else Some "response_generation_failed")) InExcHandler (claim_terminal s).

(** The end of the stream. *)
Definition end_of_stream (s : session) : session :=
  let l := locs (resp s) in let text := response_text l in let cancelled := is_cancelled s in
  let s := claim_terminal s in
  if cancelled then emit_terminals_safely (mkTerminals text (wants_audio l && saw_audio l) Cancelled (cancel_reason s) None) (InBody "" false) s
  else if wants_audio l && negb (saw_audio l)
  then emit_terminals_safely (mkTerminals text false Failed "audio_output_missing" (Some "audio_output_missing")) (InBody "" false) s
  else emit_terminals_safely (mkTerminals text (wants_audio l) Completed (finish_reason l) None) (InBody text (wants_audio l)) s.

(** [await self.send(e)], and what follows it. *)
Definition send (e : event) (k : after) (go_on : session → session) (s : session) : session :=
  if live s then goto (RSending e k) s else go_on s.

Definition text_finished (s : session) : session := goto RNext (set_locs (set_dones true false false) s).
Definition audio_finished (s : session) : session := goto RNext (set_locs (set_dones false true false) s).

(** The body of the stream loop, from its last part to the whole. *)
Definition chunk_finish (c : chunk) (s : session) : session :=
  let finished := bool_decide (is_Some (c_finish_reason c)) in
  let s := if finished then set_locs (λ l, set_finish (if is_text c then default "" (c_finish_reason c) else finish_reason l)
             (match c_usage c with Some u => Some u | None => usage l end) l) s else s in
  let l := locs (resp s) in
  if is_text c && finished && negb (text_done l) then send (TextDone (l_id l) (response_text l)) ATextDone text_finished s
  else if wants_audio l && is_audio c && finished && saw_audio l && negb (audio_done l) then send (AudioDone (l_id l)) AAudioDone audio_finished s
  else goto RNext s.
Definition chunk_audio (c : chunk) (s : session) : session :=
  if wants_audio (locs (resp s)) && is_audio c && negb (bool_decide (c_audio_b64 c = "")) then
    send (AudioDelta (the_id s) (c_audio_b64 c)) (AAudio c) (chunk_finish c) (set_locs set_saw s)
  else chunk_finish c s.
Definition on_chunk (c : chunk) (s : session) : session :=
  let l := locs (resp s) in
  if is_cancelled s then goto RNext s
  else if negb (bool_decide (c_text c = "")) && (is_text c || bool_decide (text_acc l = [])) then
    send (TextDelta (l_id l) (c_text c)) (AText c) (chunk_audio c) (set_locs (λ l, set_text (text_acc l ++ [c_text c]) l) s)
  else chunk_audio c s.

(** The section that opens the response to cancellation, and the stream. *)
Definition after_created (s : session) : session :=
  let n := the_id s in let reason := pending_response_cancel_reason (ctl s) in
  let s := set_ctl (set_pending false None) s in
  match reason with
  | Some r =>
      let s := claim_terminal (note_cancel n r (set_ctl (set_cancelled (Some (n, r))) s)) in
      emit_terminals_safely (mkTerminals "" false Cancelled r None) (InBody "" false) s
  | None => goto RNext s
  end.

Definition start_response (s : session) : session :=
  let n := the_id s in let audio := audio_modality s in
  let s := set_ctl (set_active (Some n) audio) (set_locs (λ _, locals_init n audio) s) in
  let s := if audio then set_hist (λ h, mkHistory ({[n]} ∪ pending_assistant_item_ids h) (truncated_assistant_item_ids h) (cancelled_assistant_item_ids h) (conversation h)) s else s in
  send (Created n) ACreated after_created s.

Definition after_send (k : after) : session → session :=
  match k with
  | ACreated => after_created
  | AText c => chunk_audio c
  | AAudio c => chunk_finish c
  | ATextDone => text_finished
  | AAudioDone => audio_finished
  end.

(** The end of [emit_terminals_safely] in its context: it returns, it was cancelled, or the
    terminal task raised. *)
Definition safely_returned (x : ctx) (s : session) : session :=
  match x with
  | InBody text retain => run_response_finally (OOk text) (set_locs (set_retain retain) s)
  | InCancelHandler => run_response_finally OCancelled s
  | InExcHandler => run_response_finally (OOk "") s
  end.
Definition safely_cancelled (x : ctx) (s : session) : session :=
  match x with InBody _ _ => on_cancelled s | _ => run_response_finally OCancelled s end.
Definition safely_raised (x : ctx) (s : session) : session :=
  match x with InBody _ _ => on_exception s | _ => run_response_finally OFailed s end.

(** What the response task meets when it runs; [delivered]: the send it was cancelled in
    had gone through. *)
Inductive rin := RGo | RRaises | RChunk (c : chunk) | REndOfStream | RCancelled (delivered : bool).

Definition response_tick (i : rin) (s : session) : option session :=
  match at_rpc (resp s), r_cancel (resp s), i with
  | RStart, true, RCancelled _ => Some (goto (REnded OCancelled) (set_r_cancel false s))
  | RStart, false, RGo => Some (start_response s)
  | RSending e k, false, RGo => Some (after_send k (emit e s))
  | RSending e k, false, RRaises => Some (on_exception (disconnect s))
  | RSending e k, true, RCancelled d => Some (on_cancelled (set_r_cancel false (if d then emit e s else s)))
  | RNext, false, RChunk c => Some (on_chunk c s)
  | RNext, false, REndOfStream => Some (end_of_stream s)
  | RNext, false, RRaises => Some (on_exception s)
  | RNext, true, RCancelled _ => Some (on_cancelled (set_r_cancel false s))
  | RShield x, false, RGo =>
      match terminal (resp s) with TmOk => Some (safely_returned x s) | TmFailed => Some (safely_raised x s) | _ => None end
  | RShield x, true, RCancelled _ => Some (goto (RAwait x) (set_r_cancel false s))
  | RAwait x, false, RGo =>
      match terminal (resp s) with TmOk => Some (safely_cancelled x s) | TmFailed => Some (safely_raised x s) | _ => None end
  | RAwait x, true, RCancelled _ => Some (safely_cancelled x (set_terminal TmNone (set_r_cancel false s)))
  | _, _, _ => None
  end.

(** ** Cancelling *)
Definition running (p : rpc) : bool := match p with RNone | REnded _ => false | _ => true end.
(** [active_response_task], while the turn awaits it. *)
Definition cancel_response_task (s : session) : session := if running (at_rpc (resp s)) then set_r_cancel true s else s.

Definition cancel_active_response (reason : string) (s : session) : session :=
  if response_start_pending (ctl s) then
    match pending_response_cancel_reason (ctl s) with None => set_ctl (set_pending true (Some reason)) s | Some _ => s end
  else match active_response_request_id (ctl s) with
  | None => s
  | Some n =>
      if bool_decide (finalized_response_request_id (ctl s) = Some n) || bool_decide (fst <$> cancelled_response (ctl s) = Some n) then s
      else
        let s := note_cancel n reason (set_ctl (λ c, set_cancel_reason (Some reason) (set_cancelled (Some (n, reason)) c)) s) in
        set_aborts (Some n) ({[n]} ∪ abort_tasks s) (cancel_response_task s)
  end.

(** An abort task ends; its callback clears the attribute if it is still its own. *)
Definition abort_ended (n : nat) (s : session) : session :=
  set_aborts (if bool_decide (active_response_abort_task s = Some n) then None else active_response_abort_task s) (abort_tasks s ∖ {[n]}) s.

(** [task.cancel()] on the turn: when it awaits the response task, that one is cancelled. *)
Definition cancel_turn (s : session) : session :=
  match at_turn s with
  | TNone | TEnded => s
  | TAwait _ => if running (at_rpc (resp s)) then set_r_cancel true s else set_t_cancel true s
  | _ => set_t_cancel true s
  end.

(** ** The turn: [run_turn] and [run_transcription] *)
Definition turn_ends (s : session) : session := set_t_cancel false (set_turn TEnded s).

(** The second [finally] of [run_turn]. *)
Definition turn_finally (out : option string) (s : session) : session :=
  turn_ends match out with Some _ => set_hist (set_pending_items (λ X, X ∖ {[the_id s]})) s | None => s end.

(** What the turn adds to the conversation. *)
Definition turn_items (i n : nat) (transcript : string) (out : option string) (truncated : gset nat) : list ConversationItem :=
  (if bool_decide (transcript = "") then [] else [mkItem true transcript (User i)]) ++
  match out with
  | Some text => if negb (bool_decide (text = "")) && negb (bool_decide (n ∈ truncated)) then [mkItem false text (Assistant n)] else []
  | None => []
  end.

Definition turn_returns (i : nat) (out : option string) (acc : list string) (s : session) : session :=
  turn_finally out (set_hist (set_conversation (λ l, l ++ turn_items i (the_id s) (String.concat "" acc) out (truncated_assistant_item_ids (hist s)))) s).
Definition transcription_completed (i : nat) (out : option string) (acc : list string) (s : session) : session :=
  if live s then set_turn (TSendCompleted i out acc) s else turn_returns i out acc s.
Definition after_transcript_chunk (i : nat) (out : option string) (acc : list string) (fin : bool) (s : session) : session :=
  if fin then transcription_completed i out acc s else set_turn (TNextChunk i out acc) s.
Definition on_transcript_chunk (i : nat) (out : option string) (acc : list string) (c : chunk) (s : session) : session :=
  let fin := bool_decide (is_Some (c_finish_reason c)) in
  if is_text c && negb (bool_decide (c_text c = "")) then
    let acc := acc ++ [c_text c] in
    if live s then set_turn (TSendDelta i out acc fin) s else after_transcript_chunk i out acc fin s
  else after_transcript_chunk i out acc fin s.

(** The response task has ended. *)
Definition response_ended (i : nat) (out : option string) (s : session) : session :=
  let s := goto RNone (set_ctl (set_cancel_reason None) s) in
  match active_response_abort_task s with Some a => set_turn (TAbort i out a) s | None => set_turn (TNextChunk i out []) s end.
Definition turn_dies (s : session) : session := turn_ends (goto RNone (set_ctl (set_cancel_reason None) s)).
Definition on_response_cancelled (i : nat) (s : session) : session :=
  if bool_decide (response_cancel_reason (ctl s) = None) || turn_cancel_requested s then turn_dies s else response_ended i None s.

Definition begin_response (i : nat) (s : session) : session :=
  let n := length (turns s) in
  set_turn (TAwait i) (set_resp (mkResponse RStart false (locals_init n false) TmNone) (begin_turn i (set_turn_cancel false s))).

Inductive tin := TGo | TRaises | TChunk (c : chunk) | TEndOfStream | TCancelled (delivered : bool).
Definition transcript_delta : event := Other "conversation.item.input_audio_transcription.delta".
Definition transcript_completed : event := Other "conversation.item.input_audio_transcription.completed".

Definition turn_tick (i : tin) (s : session) : option session :=
  match at_turn s, t_cancel s, i with
  | TStart _, true, TCancelled _ => Some (turn_ends s)
  | TStart k, false, TGo => Some (begin_response k s)
  | TAwait k, c, TGo =>
      match at_rpc (resp s) with
      | REnded o => Some
          (if c then on_response_cancelled k (set_t_cancel false s)
           else match o with OOk text => response_ended k (Some text) s | OCancelled => on_response_cancelled k s | OFailed => turn_dies s end)
      | _ => None
      end
  | TAbort _ _ _, true, TCancelled _ => Some (turn_ends s)
  | TAbort k out a, false, TGo => if bool_decide (a ∈ abort_tasks s) then None else Some (set_turn (TNextChunk k out []) s)
  | TNextChunk k out acc, false, TChunk c => Some (on_transcript_chunk k out acc c s)
  | TNextChunk k out acc, false, TEndOfStream => Some (transcription_completed k out acc s)
  | TNextChunk k out acc, false, TRaises | TNextChunk k out acc, true, TCancelled _ => Some (turn_finally out s)
  | TSendDelta k out acc fin, false, TGo => Some (after_transcript_chunk k out acc fin (emit transcript_delta s))
  | TSendDelta k out acc fin, false, TRaises => Some (turn_finally out (disconnect s))
  | TSendDelta k out acc fin, true, TCancelled d => Some (turn_finally out (if d then emit transcript_delta s else s))
  | TSendCompleted k out acc, false, TGo => Some (turn_returns k out acc (emit transcript_completed s))
  | TSendCompleted k out acc, false, TRaises => Some (turn_finally out (disconnect s))
  | TSendCompleted k out acc, true, TCancelled d => Some (turn_finally out (if d then emit transcript_completed s else s))
  | _, _, _ => None
  end.

(** ** The drainer: [drain_queue] *)
Definition drain_next (s : session) : session := set_drainer (if closed s then DDone else DGet) s.
Definition drain_tick (s : session) : option session :=
  match at_drainer s with
  | DGet => match queue s with
            | x :: q => Some (set_queue q (if speech_idle s then DWoken x else DWait x) s)
            | [] => None
            end
  | DWoken x => Some
      (if closed s then set_drainer DDone s
       else set_drainer DTurn (set_turn (TStart x.1) (set_ctl (set_pending true (pending_response_cancel_reason (ctl s))) s)))
  | DTurn => match at_turn s with
             | TEnded => Some (drain_next (set_turn TNone (set_ctl (set_pending false None) s)))
             | _ => None
             end
  | _ => None
  end.
(** [speech_idle.set()] wakes the drainer. *)
Definition idle_set (s : session) : session := set_idle true (match at_drainer s with DWait x => DWoken x | d => d end) s.

(** ** The receive loop *)
Inductive client_event :=
| ResponseCancel
| ConversationItemTruncate (i : item) (content_index : Z)
| SessionUpdate (audio interrupt accepted : bool)
| InputAudioBufferClear
| SpeechStarted
| SpeechStopped (u : option (nat * P))
| Disconnect.

Definition teardown (s : session) : session :=
  set_loop (LTurn (active_response_abort_task s)) (cancel_turn (set_closed s)).

Definition handler_done (s : session) : session := set_loop LRun s.
Definition loop_send (e : event) (k : handler) (go_on : session → session) (s : session) : session :=
  if live s then set_loop (LSending e k) s else go_on s.

(** [handle_vad_emit] around its sends; what is committed is the audio side's. *)
Definition enqueue (x : nat * P) (s : session) : session :=
  handler_done (idle_set (set_put (queue s ++ [x]) (put s ++ [x.1]) (match at_drainer s with DNone | DDone => if closed s then DDone else DGet | d => d end) s)).
Definition commit (u : option (nat * P)) (s : session) : session :=
  match u with
  | None => handler_done (idle_set s)
  | Some x => loop_send (Other "input_audio_buffer.committed") (HEnqueue x) (enqueue x) s
  end.
Definition interrupt (s : session) : session :=
  let has_audio := active_response_has_audio (ctl s) || (response_start_pending (ctl s) && audio_modality s) in
  handler_done (if has_audio && interrupt_response s then cancel_active_response "turn_detected" s else s).
Definition after_loop_send (k : handler) : session → session :=
  match k with HDone => handler_done | HInterrupt => interrupt | HCommit u => commit u | HEnqueue x => enqueue x end.
(** A send of a handler raised. *)
Definition loop_send_raised (k : handler) (s : session) : session :=
  let s := disconnect s in teardown (match k with HEnqueue _ => idle_set s | _ => s end).

(** The item leaves the history, now or when its turn ends. *)
Fixpoint delete_first (f : ConversationItem → bool) (l : list ConversationItem) : option (list ConversationItem) :=
  match l with [] => None | x :: l => if f x then Some l else cons x <$> delete_first f l end.
Definition handle_conversation_item_truncate (i : item) (content_index : Z) (s : session) : session :=
  let reject code := loop_send (SendError code) HDone handler_done s in
  let accept := loop_send (Truncated i) HDone handler_done in
  if negb (bool_decide (content_index = 0%Z)) then reject "invalid_content_index"
  else match i with
  | User _ => reject "item_not_found"
  | Assistant n =>
      if bool_decide (n ∈ pending_assistant_item_ids (hist s)) then accept (note_truncation n (set_hist (set_truncated (λ X, {[n]} ∪ X)) s))
      else if bool_decide (n ∈ cancelled_assistant_item_ids (hist s)) then accept (note_truncation n s)
      else match delete_first (λ x, bool_decide (ci_id x = i) && negb (ci_role_user x)) (conversation (hist s)) with
           | None => reject "item_not_found"
           | Some l => accept (note_truncation n (set_hist (set_conversation (λ _, l)) s))
           end
  end.

Definition dispatch (e : client_event) (s : session) : session :=
  match e with
  | ResponseCancel => cancel_active_response "client_cancelled" s
  | ConversationItemTruncate i content_index => handle_conversation_item_truncate i content_index s
  | SessionUpdate audio interrupt accepted =>
      if accepted then loop_send (Other "session.updated") HDone handler_done (set_modality audio interrupt s)
      else loop_send (SendError "invalid_request_error") HDone handler_done s
  | InputAudioBufferClear => loop_send (Other "input_audio_buffer.cleared") HDone handler_done (idle_set s)
  | SpeechStarted => loop_send (Other "input_audio_buffer.speech_started") HInterrupt interrupt (set_idle false (at_drainer s) s)
  | SpeechStopped u => loop_send (Other "input_audio_buffer.speech_stopped") (HCommit u) (commit u) s
  | Disconnect => teardown s
  end.

(** The drainer is cancelled at its await, once the turn has ended. *)
Definition drainer_cancelled (s : session) : session :=
  set_drainer DDone match at_drainer s with DTurn => set_turn TNone (set_ctl (set_pending false None) s) | _ => s end.

Inductive lin := LEvent (e : client_event) | LGo | LSendRaises.
Definition loop_tick (i : lin) (s : session) : option session :=
  match at_loop s, i with
  | LRun, LEvent e => Some (dispatch e s)
  | LSending e k, LGo => Some (after_loop_send k (emit e s))
  | LSending e k, LSendRaises => Some (loop_send_raised k s)
  | LTurn a, LGo => match at_turn s with TNone | TEnded => Some (set_loop (LAborts a) s) | _ => None end
  | LAborts a, LGo =>
      if match a with Some n => bool_decide (n ∈ abort_tasks s) | None => false end then None
      else Some (match at_drainer s with
                 | DNone | DDone => set_loop LClosed s
                 | _ => set_loop LDrainer (drainer_cancelled s)
                 end)
  | LDrainer, LGo => Some (set_loop LClosed s)
  | _, _ => None
  end.

(** ** The session *)
Inductive step (s : session) : session → Prop :=
| s_response i s' : response_tick i s = Some s' → step s s'
| s_terminal i s' : terminal_tick i s = Some s' → step s s'
| s_turn i s' : turn_tick i s = Some s' → step s s'
| s_drain s' : drain_tick s = Some s' → step s s'
| s_loop i s' : loop_tick i s = Some s' → step s s'
| s_abort n : n ∈ abort_tasks s → step s (abort_ended n s)
| s_disconnect : step s (disconnect s).

(** ** Runs *)
Inductive action := ARun (i : rin) | ATerminal (i : io) | ATurn (i : tin) | ADrain | ALoop (i : lin) | AAbortEnds (n : nat) | ADisconnect.
Definition act (s : session) (a : action) : option session :=
  match a with
  | ARun i => response_tick i s
  | ATerminal i => terminal_tick i s
  | ATurn i => turn_tick i s
  | ADrain => drain_tick s
  | ALoop i => loop_tick i s
  | AAbortEnds n => if bool_decide (n ∈ abort_tasks s) then Some (abort_ended n s) else None
  | ADisconnect => Some (disconnect s)
  end.
Definition run (l : list action) (s : session) : option session := foldl (λ o a, s ← o; act s a) (Some s) l.
End session.
