(* ===== verification/RealtimeTasks.v ===== *)
(** * The tasks of a realtime session: their invariant

    Where the response, its terminal task, the turn, the drainer and the receive loop of
    [RealtimeSession] can stand together, and what is recorded of cancellations at each
    place; every step keeps it ([inv_step]). *)
From S2P Require Import Prelude RealtimeSession.

Section proofs.
Context {P U : Type}.
#[local] Notation session := (RealtimeSession.session (P := P) (U := U)).
#[local] Notation session_init := (RealtimeSession.session_init (P := P) (U := U)).
#[local] Notation event := (RealtimeSession.event (U := U)).
#[local] Notation locals := (RealtimeSession.locals (U := U)).
#[local] Notation after := (RealtimeSession.after (U := U)).
#[local] Notation rpc := (RealtimeSession.rpc (U := U)).
#[local] Notation chunk := (RealtimeSession.chunk (U := U)).
#[local] Notation rin := (RealtimeSession.rin (U := U)).
#[local] Notation tin := (RealtimeSession.tin (U := U)).
#[local] Notation handler := (RealtimeSession.handler (P := P)).
#[local] Notation lin := (RealtimeSession.lin (P := P)).
#[local] Notation drainer := (RealtimeSession.drainer (P := P)).
#[local] Notation loop := (RealtimeSession.loop (P := P) (U := U)).
Implicit Types s z : session.

(** ** Where the response stands *)
(** The cancellation that is on record is that of the running response. *)
Definition cancel_ok (s : session) : Prop :=
  match cancelled_response (ctl s) with
  | Some (m, r) => m = the_id s ∧ cancels s !! the_id s = Some r
  | None => cancels s !! the_id s = None
  end.
Definition idle_ok (s : session) : Prop :=
  active_response_request_id (ctl s) = None ∧ cancelled_response (ctl s) = None ∧ finalized_response_request_id (ctl s) = None ∧ terminal (resp s) = TmNone.

(** Between [response.created] and the terminal events. *)
Record stream_ok (s : session) : Prop := {
  so_active : active_response_request_id (ctl s) = Some (the_id s);
  so_finalized : finalized_response_request_id (ctl s) = None;
  so_terminal : terminal (resp s) = TmNone;
  so_pending : response_start_pending (ctl s) = false;
  so_done : response_done (locs (resp s)) = false;
  so_cancel : cancel_ok s;
  so_marked : is_cancelled s = true → r_cancel (resp s) = true;
  so_flag : r_cancel (resp s) = true → closed s = true ∨ is_cancelled s = true;
}.

(** The event of a send belongs to what follows it. *)
Definition event_ok (e : event) (k : after) (l : locals) : Prop :=
  match k with
  | ACreated => e = Created (l_id l) ∧ text_done l = false ∧ audio_done l = false
  | AText _ => ∃ d, e = TextDelta (l_id l) d
  | AAudio _ => ∃ d, e = AudioDelta (l_id l) d
  | ATextDone => ∃ t, e = TextDone (l_id l) t ∧ text_done l = false
  | AAudioDone => e = AudioDone (l_id l) ∧ audio_done l = false
  end.
Record created_ok (s : session) : Prop := {
  co_active : active_response_request_id (ctl s) = Some (the_id s);
  co_finalized : finalized_response_request_id (ctl s) = None;
  co_cancelled : cancelled_response (ctl s) = None;
  co_terminal : terminal (resp s) = TmNone;
  co_pending : response_start_pending (ctl s) = true;
  co_done : response_done (locs (resp s)) = false;
  co_cancels : cancels s !! the_id s = None;
  co_flag : r_cancel (resp s) = true → closed s = true;
}.

(** The arguments of the terminal events: a response that was cancelled is reported so, with
    its reason, and only then, except in a session that is closed. *)
Record terminals_ok (x : ctx) (t : terminals) (s : session) : Prop := {
  to_other : t_status t ≠ Cancelled → cancels s !! the_id s = None;
  to_audio : t_include_audio t = true → saw_audio (locs (resp s)) = true;
  to_completed : ∀ text retain, x = InBody text retain → text ≠ "" ∨ retain = true → t_status t = Completed;
}.
Definition stage_ok (t : terminals) (g : tstage) (l : locals) : Prop :=
  match g with
  | SText => text_done l = false
  | SAudio => text_done l = true ∧ audio_done l = false
  | SError => text_done l = true ∧ (t_include_audio t = true → audio_done l = true)
  | SDone => text_done l = true ∧ (t_include_audio t = true → audio_done l = true)
  end.
Definition terminal_ok (x : ctx) (s : session) : Prop :=
  match terminal (resp s) with
  | TmNone => False
  | TmCreated t => response_done (locs (resp s)) = false ∧ terminals_ok x t s ∧
      (t_status t = Cancelled → closed s = true ∨ cancels s !! the_id s = Some (t_reason t))
  | TmSending t g => response_done (locs (resp s)) = false ∧ terminals_ok x t s ∧
      (t_status t = Cancelled → cancels s !! the_id s = Some (t_reason t)) ∧ stage_ok t g (locs (resp s))
  | TmOk => response_done (locs (resp s)) = true
  | TmFailed => response_done (locs (resp s)) = false ∧ connected s = false
  end.
Record closing_ok (x : ctx) (s : session) : Prop := {
  cl_active : active_response_request_id (ctl s) = Some (the_id s);
  cl_finalized : finalized_response_request_id (ctl s) = Some (the_id s);
  cl_cancel : cancel_ok s;
  cl_terminal : terminal_ok x s;
  cl_body : ∀ text retain, x = InBody text retain → text ≠ "" ∨ retain = true → cancels s !! the_id s = None;
}.

Definition phase_ok (s : session) : Prop :=
  match at_rpc (resp s) with
  | RNone | REnded _ => idle_ok s
  | RStart => idle_ok s ∧ cancels s !! the_id s = None ∧ response_start_pending (ctl s) = true ∧ (r_cancel (resp s) = true → closed s = true)
  | RSending e ACreated => created_ok s ∧ event_ok e ACreated (locs (resp s))
  | RSending e k => stream_ok s ∧ event_ok e k (locs (resp s))
  | RNext => stream_ok s
  | RShield x => closing_ok x s ∧ (r_cancel (resp s) = true → closed s = true)
  | RAwait x => closing_ok x s ∧ closed s = true ∧ r_cancel (resp s) = false
  end.

(** [stream_ok] and [closing_ok] depend on a few parts of the session only. *)
Definition same_engine (s s' : session) : Prop :=
  ctl s' = ctl s ∧ cancels s' = cancels s ∧ closed s' = closed s ∧ the_id s' = the_id s ∧ terminal (resp s') = terminal (resp s) ∧
  r_cancel (resp s') = r_cancel (resp s) ∧ response_done (locs (resp s')) = response_done (locs (resp s)).
Lemma stream_same s s' : stream_ok s → same_engine s s' → stream_ok s'.
Proof.
  intros [] (H1 & H2 & H3 & H4 & H5 & H6 & H7). unfold cancel_ok, is_cancelled in *.
  split; unfold cancel_ok, is_cancelled in *; rewrite ?H1, ?H2, ?H3, ?H4, ?H5, ?H6, ?H7; assumption.
Qed.

Lemma send_ok e k go_on s : k ≠ ACreated → stream_ok s → event_ok e k (locs (resp s)) → (stream_ok s → phase_ok (go_on s)) → phase_ok (send e k go_on s).
Proof.
  intros Hk Hs He Hg. unfold send. destruct (live s); [|by apply Hg]. unfold phase_ok. simpl.
  destruct k; [done|..]; (split; [eapply stream_same; [exact Hs|by repeat split]|exact He]).
Qed.

Lemma next_ok s : stream_ok s → phase_ok (goto RNext s).
Proof. intros Hs. unfold phase_ok. simpl. eapply stream_same; [exact Hs|by repeat split]. Qed.

Lemma chunk_finish_ok c s : stream_ok s → phase_ok (chunk_finish c s).
Proof.
  intros Hs. unfold chunk_finish. set (s1 := if bool_decide _ then _ else s).
  assert (Hs1 : stream_ok s1) by (unfold s1; case_bool_decide; [eapply stream_same; [exact Hs|by repeat split]|done]). clearbody s1.
  destruct (is_text c && _ && _) eqn:E1; [|destruct (wants_audio _ && _ && _ && _ && _) eqn:E2; [|by apply next_ok]].
  - apply send_ok; [done|done|..].
    + simpl. eexists. split; [done|]. by destruct (text_done _); [rewrite andb_false_r in E1|].
    + intros _. apply next_ok. eapply stream_same; [exact Hs1|by repeat split].
  - apply send_ok; [done|done|..].
    + simpl. split; [done|]. by destruct (audio_done _); [rewrite andb_false_r in E2|].
    + intros _. apply next_ok. eapply stream_same; [exact Hs1|by repeat split].
Qed.
Lemma chunk_audio_ok c s : stream_ok s → phase_ok (chunk_audio c s).
Proof.
  intros Hs. unfold chunk_audio. destruct (_ && _ && _); [|by apply chunk_finish_ok].
  apply send_ok; [done|eapply stream_same; [exact Hs|by repeat split]|by eexists|apply chunk_finish_ok].
Qed.
Lemma on_chunk_ok c s : stream_ok s → phase_ok (on_chunk c s).
Proof.
  intros Hs. unfold on_chunk. destruct (is_cancelled s); [by apply next_ok|]. destruct (_ && _); [|by apply chunk_audio_ok].
  apply send_ok; [done|eapply stream_same; [exact Hs|by repeat split]|by eexists|apply chunk_audio_ok].
Qed.

(** *** Into the terminal events, and out of the response *)
Record handler_ok (s : session) : Prop := {
  ho_active : active_response_request_id (ctl s) = Some (the_id s);
  ho_finalized : finalized_response_request_id (ctl s) = None ∨ finalized_response_request_id (ctl s) = Some (the_id s);
  ho_cancel : cancel_ok s;
}.

Lemma clear_control_ok n c : active_response_request_id c = Some n → (finalized_response_request_id c = None ∨ finalized_response_request_id c = Some n) →
  (∀ m r, cancelled_response c = Some (m, r) → m = n) → ∃ h, clear_control n c =
    mkControl None h (response_cancel_reason c) None None (response_start_pending c) (pending_response_cancel_reason c).
Proof.
  destruct c as [a h r x f b p]. simpl. intros -> Hf Hx. unfold clear_control. simpl. rewrite (bool_decide_true (Some n = Some n)) by done. simpl.
  destruct x as [[m y]|]; simpl.
  - rewrite (Hx m y eq_refl), (bool_decide_true (Some n = Some n)) by done. simpl. destruct Hf as [-> | ->]; simpl; rewrite ?(bool_decide_true (Some n = Some n)) by done; by eexists.
  - destruct Hf as [-> | ->]; simpl; rewrite ?(bool_decide_true (Some n = Some n)) by done; by eexists.
Qed.
Lemma handler_clear s : handler_ok s → ∃ h, clear_control (the_id s) (ctl s) =
    mkControl None h (response_cancel_reason (ctl s)) None None (response_start_pending (ctl s)) (pending_response_cancel_reason (ctl s)).
Proof.
  intros [Ha Hf Hc]. apply clear_control_ok; [done|done|]. intros m r E. unfold cancel_ok in Hc. rewrite E in Hc. apply Hc.
Qed.

(** The [finally] block on the parts of the session it does not change. *)
Definition finally_hist (s : session) : history :=
  if wants_audio (locs (resp s)) && negb (retain_for_history (locs (resp s))) then set_pending_items (λ X, X ∖ {[the_id s]}) (hist s) else hist s.
Lemma finally_eq o s : run_response_finally o s = goto (REnded o) (set_terminal TmNone (set_ctl (clear_control (the_id s)) (set_hist (λ _, finally_hist s) s))).
Proof. unfold run_response_finally, finally_hist. destruct (_ && _); [done|]. by destruct s. Qed.

Lemma finally_ok o s : handler_ok s → phase_ok (run_response_finally o s).
Proof. intros Hh. rewrite finally_eq. unfold phase_ok, idle_ok. simpl. destruct (handler_clear s Hh) as [h ->]. done. Qed.

Definition same_record (s s' : session) : Prop := ctl s' = ctl s ∧ cancels s' = cancels s ∧ the_id s' = the_id s.
Lemma handler_same s s' : handler_ok s → same_record s s' → handler_ok s'.
Proof.
  intros [] (H1 & H2 & H4). unfold cancel_ok in *. split; unfold cancel_ok in *; rewrite ?H1, ?H2, ?H4; assumption.
Qed.
Lemma stream_handler s : stream_ok s → handler_ok s.
Proof. intros []. split; auto. Qed.
Lemma created_handler s : created_ok s → handler_ok s.
Proof. intros []. split; auto. unfold cancel_ok. by rewrite co_cancelled0. Qed.
Lemma closing_handler x s : closing_ok x s → handler_ok s.
Proof. intros []. split; auto. Qed.

(** The terminal events are started. *)
Lemma terminals_started t x s : handler_ok s → response_done (locs (resp s)) = false → r_cancel (resp s) = false ∨ closed s = true →
  terminals_ok x t s → (t_status t = Cancelled → closed s = true ∨ cancels s !! the_id s = Some (t_reason t)) →
  (∀ text retain, x = InBody text retain → text ≠ "" ∨ retain = true → cancels s !! the_id s = None) →
  phase_ok (emit_terminals_safely t x (claim_terminal s)).
Proof.
  intros [Ha Hf Hc] Hd Hr Ht Hst Hb. unfold phase_ok. simpl. split; [|destruct Hr as [-> |?]; done]. split; try done.
  unfold terminal_ok. simpl. split; [done|]. split; [|done]. destruct Ht as [T1 T2 T3]. split; assumption.
Qed.

Lemma is_cancelled_iff s : cancel_ok s → is_cancelled s = bool_decide (is_Some (cancels s !! the_id s)).
Proof.
  unfold cancel_ok, is_cancelled. destruct (cancelled_response (ctl s)) as [[m r]|].
  - intros [-> ->]. by rewrite bool_decide_true.
  - intros ->. done.
Qed.
Lemma cancel_reason_ok s : cancel_ok s → is_cancelled s = true → cancels s !! the_id s = Some (cancel_reason s).
Proof. unfold cancel_ok, is_cancelled, cancel_reason. destruct (cancelled_response (ctl s)) as [[m r]|]; [|done]. by intros [-> ->]. Qed.
Lemma not_cancelled s : cancel_ok s → is_cancelled s = false → cancels s !! the_id s = None.
Proof. intros Hc. rewrite (is_cancelled_iff s Hc). intros H. apply bool_decide_eq_false in H. by apply eq_None_not_Some. Qed.


Lemma on_cancelled_ok s : handler_ok s → r_cancel (resp s) = false → (response_done (locs (resp s)) = false → closed s = true ∨ is_cancelled s = true) → phase_ok (on_cancelled s).
Proof.
  intros Hh Hr Hw. unfold on_cancelled. destruct (response_done _) eqn:Hd; [by apply finally_ok|].
  apply terminals_started; [done|done|by left|..].
  - split; simpl; [done| |done]. by intros [_ ?]%andb_true_iff.
  - intros _. simpl. destruct (Hw eq_refl) as [?|Hi]; [by left|]. right. apply cancel_reason_ok; [apply Hh|done].
  - done.
Qed.
Lemma on_exception_ok s : handler_ok s → r_cancel (resp s) = false → phase_ok (on_exception s).
Proof.
  intros Hh Hr. pose proof (ho_cancel _ Hh) as Hc. unfold on_exception. destruct (response_done _) eqn:Hd.
  { apply finally_ok. destruct Hh. split; [done|by right|done]. }
  apply terminals_started; [done|done|by left|..].
  - split; simpl; [|by intros [_ ?]%andb_true_iff|done]. destruct (is_cancelled s) eqn:E; [done|]. intros _. by apply not_cancelled.
  - simpl. destruct (is_cancelled s) eqn:E; [|done]. intros _. right. by apply cancel_reason_ok.
  - done.
Qed.
Lemma end_of_stream_ok s : stream_ok s → r_cancel (resp s) = false → phase_ok (end_of_stream s).
Proof.
  intros Hs Hr. pose proof (stream_handler _ Hs) as Hh. pose proof (so_cancel _ Hs) as Hc. pose proof (so_done _ Hs) as Hd.
  unfold end_of_stream. destruct (is_cancelled s) eqn:E; [|destruct (_ && negb _) eqn:Ea].
  - rewrite (so_marked _ Hs E) in Hr. done.
  - apply terminals_started; [done|done|by left|..].
    + split; simpl; [|done|]. { intros _. by apply not_cancelled. } by intros ? ? [= <- <-] [?|?].
    + done.
    + intros ? ? _ _. by apply not_cancelled.
  - apply terminals_started; [done|done|by left|..].
    + split; simpl; [intros _; by apply not_cancelled| |done]. intros Hw. rewrite Hw in Ea. by destruct (saw_audio _).
    + done.
    + intros ? ? _ _. by apply not_cancelled.
Qed.

Lemma after_created_ok s : created_ok s → r_cancel (resp s) = false → phase_ok (after_created s).
Proof.
  intros [Ha Hf Hc Ht Hp Hd Hn Hfl] Hr. unfold after_created. destruct (pending_response_cancel_reason (ctl s)) as [r|].
  - apply terminals_started; [|done|by left|..].
    + split; [done|by left|]. unfold cancel_ok. simpl. by rewrite lookup_insert_eq.
    + split; simpl; [done|done|]. by intros ? ? [= <- <-] [?|?].
    + intros _. right. simpl. by rewrite lookup_insert_eq.
    + by intros ? ? [= <- <-] [?|?].
  - apply next_ok. split; simpl; try done; unfold cancel_ok, is_cancelled; simpl; rewrite ?Hc; try done. rewrite Hr. done.
Qed.

Lemma start_response_ok s : idle_ok s → cancels s !! the_id s = None → response_start_pending (ctl s) = true → r_cancel (resp s) = false → phase_ok (start_response s).
Proof.
  intros (H1 & H2 & H3 & H4) Hn Hp Hr. unfold start_response. cbv zeta.
  set (s1 := set_ctl (set_active (Some (the_id s)) (audio_modality s)) (set_locs (λ _, locals_init (the_id s) (audio_modality s)) s)).
  set (s2 := if audio_modality s then _ else s1).
  assert (Hc : created_ok s2) by (unfold s2; destruct (audio_modality s); split; try done; simpl; by rewrite Hr).
  assert (Hl : locs (resp s2) = locals_init (the_id s) (audio_modality s)) by (unfold s2; by destruct (audio_modality s)).
  assert (Hr2 : r_cancel (resp s2) = false) by (unfold s2; by destruct (audio_modality s)).
  clearbody s2. unfold send. destruct (live s2); [|by apply after_created_ok]. unfold phase_ok. simpl. rewrite Hl. split; [|done].
  destruct Hc. unfold the_id in *. by split.
Qed.

(** [closing_ok] depends on these parts of the session. *)
Definition same_marks (c c' : control) : Prop :=
  active_response_request_id c' = active_response_request_id c ∧ finalized_response_request_id c' = finalized_response_request_id c ∧ cancelled_response c' = cancelled_response c.
Lemma closing_marks x s s' : closing_ok x s → same_marks (ctl s) (ctl s') → cancels s' = cancels s → (closed s = true → closed s' = true) →
  (connected s = false → connected s' = false) → locs (resp s') = locs (resp s) → terminal (resp s') = terminal (resp s) → closing_ok x s'.
Proof.
  intros [H1 H2 H3 H4 H5] (M1 & M2 & M3) E2 E3 E4 E5 E6. assert (E7 : the_id s' = the_id s) by (unfold the_id; by rewrite E5).
  assert (Ht : ∀ t, terminals_ok x t s → terminals_ok x t s') by (intros t [T1 T2 T3]; split; rewrite ?E2, ?E7, ?E5; assumption).
  unfold cancel_ok in H3. split; unfold cancel_ok; rewrite ?M1, ?M2, ?M3, ?E2, ?E7; try assumption.
  unfold terminal_ok in *. rewrite E5, E6, E2, E7. destruct (terminal (resp s)); try done.
  - destruct H4 as (? & ? & Hc). split; [done|]. split; [by apply Ht|]. intros Hs. destruct (Hc Hs); [left; by apply E3|by right].
  - destruct H4 as (? & ? & Hc). split; [done|]. split; [by apply Ht|done].
  - destruct H4. split; [done|by apply E4].
Qed.
Lemma closing_same x s s' : closing_ok x s → ctl s' = ctl s → cancels s' = cancels s → (closed s = true → closed s' = true) →
  (connected s = false → connected s' = false) → locs (resp s') = locs (resp s) → terminal (resp s') = terminal (resp s) → closing_ok x s'.
Proof. intros H E. apply closing_marks; [done|]. by rewrite E. Qed.

(** *** The terminal task *)
Definition closing_frame (s s' : session) : Prop :=
  ctl s' = ctl s ∧ cancels s' = cancels s ∧ closed s' = closed s ∧ the_id s' = the_id s ∧ at_rpc (resp s') = at_rpc (resp s) ∧ r_cancel (resp s') = r_cancel (resp s).
Lemma closing_step x s s' : closing_ok x s → closing_frame s s' → terminal_ok x s' → closing_ok x s'.
Proof.
  intros [H1 H2 H3 H4 H5] (E1 & E2 & E3 & E4 & E5 & E6) Ht. unfold cancel_ok in *. split; unfold cancel_ok in *; rewrite ?E1, ?E2, ?E4; assumption.
Qed.
Record emitting_ok (x : ctx) (t : terminals) (s : session) : Prop := {
  eo_active : active_response_request_id (ctl s) = Some (the_id s);
  eo_finalized : finalized_response_request_id (ctl s) = Some (the_id s);
  eo_cancel : cancel_ok s;
  eo_done : response_done (locs (resp s)) = false;
  eo_terminals : terminals_ok x t s;
  eo_cancelled : t_status t = Cancelled → live s = true → cancels s !! the_id s = Some (t_reason t);
  eo_body : ∀ text retain, x = InBody text retain → text ≠ "" ∨ retain = true → cancels s !! the_id s = None;
}.

Lemma emitting_same x t s s' : emitting_ok x t s → closing_frame s s' → live s' = live s → response_done (locs (resp s')) = response_done (locs (resp s)) →
  saw_audio (locs (resp s')) = saw_audio (locs (resp s)) → emitting_ok x t s'.
Proof.
  intros [H1 H2 H3 H4 [T1 T2 T3] H6 H7] (E1 & E2 & E3 & E4 & E5 & E6) El Ed Es. unfold cancel_ok in *.
  split; [..|split|idtac|idtac]; unfold cancel_ok in *; rewrite ?E1, ?E2, ?E4, ?El, ?Ed, ?Es; assumption.
Qed.

(** A send of the terminal task starts. *)
Lemma terminal_sends x t g s : emitting_ok x t s → live s = true → stage_ok t g (locs (resp s)) → closing_ok x (set_terminal (TmSending t g) s).
Proof.
  intros [H1 H2 H3 H4 [T1 T2 T3] H6 H7] Hl Hg. split; try done. unfold terminal_ok. simpl. split; [done|]. split; [by split|]. split; [|done]. intros Hs. by apply H6.
Qed.
Lemma terminal_finish_ok x t s : emitting_ok x t s → closing_ok x (terminal_finish t s).
Proof. intros [H1 H2 H3 H4 H5 H6 H7]. unfold terminal_finish. destruct (_ && _); split; done. Qed.

Lemma emit_done_ok x t s : emitting_ok x t s → stage_ok t SDone (locs (resp s)) → closing_ok x (emit_done t s).
Proof. intros H Hg. unfold emit_done. destruct (live s) eqn:Hl; [by apply terminal_sends|by apply terminal_finish_ok]. Qed.
Lemma emit_error_ok x t s : emitting_ok x t s → stage_ok t SError (locs (resp s)) → closing_ok x (emit_error t s).
Proof.
  intros H Hg. unfold emit_error. destruct (t_error t); [|by apply emit_done_ok]. destruct (live s) eqn:Hl; [by apply terminal_sends|by apply emit_done_ok].
Qed.
Lemma emit_audio_done_ok x t s : emitting_ok x t s → text_done (locs (resp s)) = true → closing_ok x (emit_audio_done t s).
Proof.
  intros H Hg. pose proof (to_audio _ _ _ (eo_terminals _ _ _ H)) as Ha. unfold emit_audio_done. destruct (t_include_audio t) eqn:Ei.
  - rewrite Ha by done. simpl. destruct (audio_done (locs (resp s))) eqn:Ed; simpl; [by apply emit_error_ok|].
    destruct (live s) eqn:Hl; [by apply terminal_sends|]. apply emit_error_ok; [|done].
    eapply emitting_same; [exact H|..]; done.
  - simpl. apply emit_error_ok; [done|]. split; [done|]. by rewrite Ei.
Qed.
Lemma emit_text_done_ok x t s : emitting_ok x t s → closing_ok x (emit_text_done t s).
Proof.
  intros H. unfold emit_text_done. destruct (text_done (locs (resp s))) eqn:Ed; simpl; [by apply emit_audio_done_ok|].
  destruct (live s) eqn:Hl; [by apply terminal_sends|]. apply emit_audio_done_ok; [|done]. eapply emitting_same; [exact H|..]; done.
Qed.

Lemma live_open s : live s = true → closed s = false ∧ connected s = true.
Proof. unfold live. by destruct (closed s), (connected s). Qed.

(** All a terminal task changes: its own state, the marks of the terminal events and the
    items remembered as cancelled. *)
Definition change (tm : terminal_task) (t a d : bool) (items : list nat) (s : session) : session :=
  set_terminal tm (set_locs (set_dones t a d) (set_hist (set_cancelled_items (λ _, items)) s)).
Definition items_of (s : session) : list nat := cancelled_assistant_item_ids (hist s).

Lemma change_terminal tm s : set_terminal tm s = change tm false false false (items_of s) s.
Proof. by destruct s as [? ? ? ? ? ? ? ? ? ? [] [? ? []] ? ? ? ? ? ? ? ? ?]. Qed.
Lemma change_locs tm t a d t' a' d' items s : change tm t a d items (set_locs (set_dones t' a' d') s) = change tm (t || t') (a || a') (d || d') items s.
Proof. destruct s as [? ? ? ? ? ? ? ? ? ? [] [? ? []] ? ? ? ? ? ? ? ? ?]. unfold change, set_dones, set_terminal, set_locs, set_resp. simpl. by rewrite <- !orb_assoc. Qed.

Definition changed (t0 : terminals) (s s' : session) : Prop := ∃ tm t a d items, s' = change tm t a d items s ∧
  (items = items_of s ∨ (wants_audio (locs (resp s)) = true ∧ t_status t0 = Cancelled) ∧ items = _remember_cancelled_assistant_item (the_id s) (items_of s)).
Lemma changed_terminal t0 tm s : changed t0 s (set_terminal tm s).
Proof. exists tm, false, false, false, (items_of s). split; [apply change_terminal|by left]. Qed.
Lemma changed_locs t0 t a d s s' : changed t0 (set_locs (set_dones t a d) s) s' → changed t0 s s'.
Proof. intros (tm & t' & a' & d' & items & -> & Hi). eexists tm, _, _, _, items. split; [apply change_locs|exact Hi]. Qed.

Lemma terminal_finish_changed t s : changed t s (terminal_finish t s).
Proof.
  unfold terminal_finish. destruct (_ && _) eqn:E.
  - apply andb_true_iff in E as [E Et%bool_decide_eq_true]. exists TmOk, false, false, true, (_remember_cancelled_assistant_item (the_id s) (items_of s)). split; [done|by right].
  - exists TmOk, false, false, true, (items_of s). split; [|by left]. by destruct s as [? ? ? ? ? ? ? ? ? ? [] [? ? []] ? ? ? ? ? ? ? ? ?].
Qed.
Lemma emit_done_changed t s : changed t s (emit_done t s).
Proof. unfold emit_done. destruct (live s); [apply changed_terminal|apply terminal_finish_changed]. Qed.
Lemma emit_error_changed t s : changed t s (emit_error t s).
Proof. unfold emit_error. destruct (t_error t), (live s); apply changed_terminal || apply emit_done_changed. Qed.
Lemma emit_audio_done_changed t s : changed t s (emit_audio_done t s).
Proof.
  unfold emit_audio_done. destruct (_ && _), (live s); apply changed_terminal || apply emit_error_changed || (eapply changed_locs, emit_error_changed).
Qed.
Lemma emit_terminals_changed t s : changed t s (emit_terminals t s).
Proof.
  unfold emit_terminals, emit_text_done. destruct (response_done _); [apply changed_terminal|].
  destruct (negb _), (live s); apply changed_terminal || apply emit_audio_done_changed || (eapply changed_locs, emit_audio_done_changed).
Qed.
Lemma stage_sent_changed t g s : changed t s (stage_sent t g s).
Proof.
  destruct g; simpl; [eapply changed_locs, emit_audio_done_changed|eapply changed_locs, emit_error_changed|apply emit_done_changed|apply terminal_finish_changed].
Qed.

(** A step of the terminal task, with its event sent or the socket gone. *)
Lemma terminal_tick_changed i s s' : terminal_tick i s = Some s' →
  (∃ t, terminal (resp s) = TmCreated t ∧ changed t s s') ∨ (∃ t g, terminal (resp s) = TmSending t g ∧ changed t (emit (stage_event t g s) s) s') ∨ s' = set_terminal TmFailed (disconnect s).
Proof.
  unfold terminal_tick. destruct (terminal (resp s)) as [|t|t g| |] eqn:Et, i; intros [= <-]; [left; exists t; split; [done|apply emit_terminals_changed]| |by right; right].
  right. left. exists t, g. split; [done|apply stage_sent_changed].
Qed.

Lemma changed_frame t0 s s' : changed t0 s s' → closing_frame s s' ∧ closed s' = closed s.
Proof. by intros (tm & t & a & d & items & -> & _). Qed.

Lemma terminal_tick_closing x i s s' : closing_ok x s → terminal_tick i s = Some s' → closing_ok x s'.
Proof.
  intros [H1 H2 H3 H4 H5] Hs. unfold terminal_tick in Hs. unfold terminal_ok in H4.
  destruct (terminal (resp s)) as [|t|t g| |] eqn:Et, i; try done; injection Hs as <-.
  - destruct H4 as (Hr & Ht & Hc). unfold emit_terminals. rewrite Hr.
    apply emit_text_done_ok. split; try done. intros Hcs [Hl _]%live_open. destruct (Hc Hcs); [congruence|done].
  - destruct H4 as (Hr & Ht & Hc & Hg). set (s1 := emit _ s).
    assert (Hem : emitting_ok x t s1) by (destruct Ht as [T1 T2 T3]; split; [exact H1|exact H2|exact H3|exact Hr|split; [exact T1|exact T2|exact T3]|intros Hx _; exact (Hc Hx)|exact H5]).
    destruct g; simpl in *.
    + apply emit_audio_done_ok; [|done]. eapply emitting_same; [exact Hem|..]; done.
    + apply emit_error_ok; [eapply emitting_same; [exact Hem|..]; done|]. destruct Hg as [Hg _]. simpl. by rewrite Hg.
    + apply emit_done_ok; [done|exact Hg].
    + by apply terminal_finish_ok.
  - destruct H4 as (Hr & Ht & Hc & Hg). split; try done.
Qed.

(** *** Every step *)
Lemma safely_returned_ok x s : closing_ok x s → phase_ok (safely_returned x s).
Proof.
  intros Hc%closing_handler. destruct x; simpl; apply finally_ok; try exact Hc. eapply handler_same; [exact Hc|by repeat split].
Qed.
Lemma safely_cancelled_ok x s : closing_ok x s → r_cancel (resp s) = false → closed s = true → phase_ok (safely_cancelled x s).
Proof.
  intros Hc%closing_handler Hr Hcl. destruct x; simpl; [|by apply finally_ok..]. apply on_cancelled_ok; [done|done|by left].
Qed.
Lemma safely_raised_ok x s : closing_ok x s → r_cancel (resp s) = false → phase_ok (safely_raised x s).
Proof. intros Hc%closing_handler Hr. destruct x; simpl; [by apply on_exception_ok|by apply finally_ok..]. Qed.

(** The two phases of a send. *)
#[local] Instance after_created_dec (k : after) : Decision (k = ACreated).
Proof. destruct k; (by left) || by right. Defined.
Lemma sending_ok s e k : at_rpc (resp s) = RSending e k → phase_ok s →
  event_ok e k (locs (resp s)) ∧ if decide (k = ACreated) then created_ok s else stream_ok s.
Proof. intros E H. unfold phase_ok in H. rewrite E in H. destruct k; simpl; destruct H; done. Qed.
Lemma sending_handler s s' e k : at_rpc (resp s) = RSending e k → phase_ok s → same_record s s' → handler_ok s'.
Proof.
  intros E [_ H]%(sending_ok _ _ _ E) Hs. case_decide; eapply handler_same; [by apply created_handler|done|by apply stream_handler|done].
Qed.

Lemma response_phase i s s' : phase_ok s → response_tick i s = Some s' → phase_ok s'.
Proof.
  intros H Hs. unfold response_tick in Hs. destruct (at_rpc (resp s)) as [| |e k| |x|x|o] eqn:E; [done|..|done];
    destruct (r_cancel (resp s)) eqn:Er, i as [| |c| |d]; try done.
  - injection Hs as <-. unfold phase_ok in *. rewrite E in H. apply H.
  - injection Hs as <-. unfold phase_ok in H. rewrite E in H. destruct H as (H1 & H2 & H3 & _). by apply start_response_ok.
  - injection Hs as <-. pose proof (sending_ok _ _ _ E H) as [_ Hk].
    apply on_cancelled_ok; [eapply (sending_handler _ _ _ _ E H); by destruct d|by destruct d|].
    intros _. case_decide; [left; pose proof (co_flag _ Hk Er); by destruct d|]. destruct (so_flag _ Hk Er) as [?|Hi]; [left; by destruct d|right; by destruct d].
  - injection Hs as <-. pose proof (sending_ok _ _ _ E H) as [_ Hk]. destruct k; simpl in *.
    + apply after_created_ok; [|done]. destruct Hk. by split.
    + apply chunk_audio_ok. eapply stream_same; [exact Hk|by repeat split].
    + apply chunk_finish_ok. eapply stream_same; [exact Hk|by repeat split].
    + apply next_ok. eapply stream_same; [exact Hk|by repeat split].
    + apply next_ok. eapply stream_same; [exact Hk|by repeat split].
  - injection Hs as <-. apply on_exception_ok; [|done]. by apply (sending_handler _ _ _ _ E H).
  - injection Hs as <-. unfold phase_ok in H. rewrite E in H. apply on_cancelled_ok; [|done|].
    + eapply handler_same; [by apply stream_handler|]. by repeat split.
    + intros _. by destruct (so_flag _ H Er) as [?|Hi]; [left|right].
  - unfold phase_ok in H. rewrite E in H. injection Hs as <-. apply on_exception_ok; [by apply stream_handler|done].
  - unfold phase_ok in H. rewrite E in H. injection Hs as <-. by apply on_chunk_ok.
  - unfold phase_ok in H. rewrite E in H. injection Hs as <-. by apply end_of_stream_ok.
  - unfold phase_ok in H. rewrite E in H. injection Hs as <-. destruct H as [H Hf]. unfold phase_ok. simpl. split; [|by split; [apply Hf|]].
    by eapply closing_same.
  - unfold phase_ok in H. rewrite E in H. destruct H as [H Hf]. destruct (terminal (resp s)) eqn:Et; try done; injection Hs as <-; [by apply safely_returned_ok|by apply safely_raised_ok].
  - unfold phase_ok in H. rewrite E in H. destruct H as (H & Hf & Hr). congruence.
  - unfold phase_ok in H. rewrite E in H. destruct H as (H & Hf & Hr). destruct (terminal (resp s)) eqn:Et; try done; injection Hs as <-; [by apply safely_cancelled_ok|by apply safely_raised_ok].
Qed.

(** *** What a response leaves alone *)
Definition outer (s : session) := (closed s, (audio_modality s, interrupt_response s, turn_cancel_requested s), (active_response_abort_task s, abort_tasks s),
  (speech_idle s, queue s, put s, turns s), (at_turn s, t_cancel s, at_drainer s, at_loop s), truncations s, conversation (hist s), the_id s).

(** The response goes on: it stays a response, does not start again, and at most its own
    cancellation is noted. *)
Record evolves (s s' : session) : Prop := {
  ev_outer : outer s' = outer s;
  ev_rpc : at_rpc (resp s) ≠ RNone → at_rpc (resp s') ≠ RNone;
  ev_pending : response_start_pending (ctl s') = true → response_start_pending (ctl s) = true;
  ev_reason : response_cancel_reason (ctl s') = response_cancel_reason (ctl s);
  ev_why : is_Some (pending_response_cancel_reason (ctl s')) → pending_response_cancel_reason (ctl s') = pending_response_cancel_reason (ctl s) ∧
    response_start_pending (ctl s') = response_start_pending (ctl s);
  ev_cancels : ∀ m, is_Some (cancels s' !! m) → is_Some (cancels s !! m) ∨ m = the_id s;
  ev_keeps : ∀ m, m ≠ the_id s → cancels s' !! m = cancels s !! m;
  ev_grows : ∀ m, is_Some (cancels s !! m) → is_Some (cancels s' !! m);
  ev_connected : connected s = false → connected s' = false;
}.
Lemma outer_id s s' : outer s' = outer s → the_id s' = the_id s.
Proof. intros H. exact (f_equal snd H). Qed.

Lemma ev_refl s : evolves s s.
Proof. split; auto. Qed.
Lemma ev_goto s z p : evolves s z → p ≠ RNone → evolves s (goto p z).
Proof. intros [] Hp. by split. Qed.
Lemma ev_locs s z f : evolves s z → (∀ l, l_id (f l) = l_id l) → evolves s (set_locs f z).
Proof. intros [H ?] Hf. split; try done. rewrite <- H. unfold outer, the_id. simpl. by rewrite Hf. Qed.
Lemma ev_terminal s z t : evolves s z → evolves s (set_terminal t z).
Proof. intros []. by split. Qed.
Lemma ev_r_cancel s z b : evolves s z → evolves s (set_r_cancel b z).
Proof. intros []. by split. Qed.
Lemma ev_emit s z e : evolves s z → evolves s (emit e z).
Proof. intros []. by split. Qed.
Lemma ev_disconnect s z : evolves s z → evolves s (disconnect z).
Proof. intros []. by split. Qed.
Lemma ev_hist s z f : evolves s z → (∀ h, conversation (f h) = conversation h) → evolves s (set_hist f z).
Proof. intros [H ?] Hf. split; try done. rewrite <- H. unfold outer. simpl. by rewrite Hf. Qed.
Lemma ev_ctl s z f : evolves s z → (∀ c, response_start_pending (f c) = response_start_pending c ∧ response_cancel_reason (f c) = response_cancel_reason c ∧
  pending_response_cancel_reason (f c) = pending_response_cancel_reason c) → evolves s (set_ctl f z).
Proof. intros [] Hf. destruct (Hf (ctl z)) as (E1 & E2 & E3). split; simpl; rewrite ?E1, ?E2, ?E3; done. Qed.
Lemma ev_opened s z : evolves s z → evolves s (set_ctl (set_pending false None) z).
Proof. intros []. split; simpl; try done. Qed.
Lemma ev_note s z r : evolves s z → evolves s (note_cancel (the_id z) r z).
Proof.
  intros H. pose proof (outer_id _ _ (ev_outer _ _ H)) as Hid. destruct H as [H1 H2 H3 H4 H5 H6 H7 H8 H9]. split; try done.
  - intros m. simpl. rewrite Hid. destruct (decide (m = the_id s)) as [->|Hm]; [by right|]. rewrite lookup_insert_ne by done. apply H6.
  - intros m Hm. simpl. rewrite lookup_insert_ne by congruence. by apply H7.
  - intros m Hm. simpl. rewrite lookup_insert_is_Some'. right. by apply H8.
Qed.

Create HintDb evolve.
#[local] Hint Resolve ev_refl ev_goto ev_locs ev_terminal ev_r_cancel ev_emit ev_disconnect ev_hist ev_ctl ev_opened : evolve.
#[local] Hint Extern 1 (_ ≠ RNone) => discriminate : evolve.
#[local] Hint Extern 2 (∀ l, l_id _ = _) => by intros [] : evolve.
#[local] Hint Extern 2 (∀ h, conversation _ = _) => by intros [] : evolve.
Ltac evolve := repeat case_match; eauto 12 with evolve.

Lemma ev_claim s z : evolves s z → evolves s (claim_terminal z).
Proof. intros H. unfold claim_terminal. apply ev_ctl; [done|]. by intros []. Qed.
#[local] Hint Resolve ev_claim : evolve.
Lemma ev_safely s z t x : evolves s z → evolves s (emit_terminals_safely t x z).
Proof. intros H. unfold emit_terminals_safely. evolve. Qed.
#[local] Hint Resolve ev_safely : evolve.
Lemma clear_control_keeps n c : response_start_pending (clear_control n c) = response_start_pending c ∧ response_cancel_reason (clear_control n c) = response_cancel_reason c ∧
  pending_response_cancel_reason (clear_control n c) = pending_response_cancel_reason c.
Proof. destruct c. unfold clear_control. simpl. by repeat (case_bool_decide; simpl). Qed.
Lemma ev_finally s z o : evolves s z → evolves s (run_response_finally o z).
Proof.
  intros H. unfold run_response_finally. apply ev_goto; [|done]. apply ev_terminal, ev_ctl; [|apply clear_control_keeps].
  destruct (_ && _); [|done]. by apply ev_hist.
Qed.
#[local] Hint Resolve ev_finally : evolve.
Lemma ev_on_cancelled s z : evolves s z → evolves s (on_cancelled z).
Proof. intros H. unfold on_cancelled. destruct (response_done _); eauto with evolve. Qed.
Lemma ev_on_exception s z : evolves s z → evolves s (on_exception z).
Proof. intros H. unfold on_exception. destruct (response_done _); eauto with evolve. Qed.
Lemma ev_end_of_stream s z : evolves s z → evolves s (end_of_stream z).
Proof. intros H. unfold end_of_stream. destruct (is_cancelled z), (_ && _); eauto with evolve. Qed.
#[local] Hint Resolve ev_on_cancelled ev_on_exception ev_end_of_stream : evolve.
Lemma ev_send s z e k go_on : evolves s z → (∀ y, evolves s y → evolves s (go_on y)) → evolves s (send e k go_on z).
Proof. intros H Hg. unfold send. destruct (live z); eauto with evolve. Qed.
Lemma ev_finished s z : evolves s z → evolves s (text_finished z) ∧ evolves s (audio_finished z).
Proof. intros H. unfold text_finished, audio_finished. split; eauto with evolve. Qed.
Lemma ev_chunk_finish c s z : evolves s z → evolves s (chunk_finish c z).
Proof.
  intros H. unfold chunk_finish. set (z1 := if bool_decide _ then _ else z). assert (H1 : evolves s z1) by (unfold z1; case_bool_decide; eauto with evolve).
  clearbody z1. destruct (_ && _ && _); [|destruct (_ && _ && _)]; try (apply ev_send; [done|]; intros y Hy; by apply ev_finished). eauto with evolve.
Qed.
Lemma ev_chunk_audio c s z : evolves s z → evolves s (chunk_audio c z).
Proof.
  intros H. unfold chunk_audio. destruct (_ && _ && _); [|by apply ev_chunk_finish]. apply ev_send; [|apply ev_chunk_finish]. eauto with evolve.
Qed.
Lemma ev_on_chunk c s z : evolves s z → evolves s (on_chunk c z).
Proof.
  intros H. unfold on_chunk. destruct (is_cancelled z); [eauto with evolve|]. destruct (_ && _); [|by apply ev_chunk_audio].
  apply ev_send; [|apply ev_chunk_audio]. eauto with evolve.
Qed.
Lemma ev_after_created s z : evolves s z → evolves s (after_created z).
Proof.
  intros H. unfold after_created. destruct (pending_response_cancel_reason (ctl z)); [|eauto with evolve]. apply ev_safely, ev_claim.
  set (y := set_ctl _ (set_ctl _ z)). assert (Hy : evolves s y) by (apply ev_ctl; [eauto with evolve|by intros []]). exact (ev_note s y s0 Hy).
Qed.
#[local] Hint Resolve ev_chunk_finish ev_chunk_audio ev_on_chunk ev_after_created : evolve.
Lemma ev_start_response s z : evolves s z → evolves s (start_response z).
Proof.
  intros H. unfold start_response. apply ev_send; [|apply ev_after_created].
  assert (H1 : evolves s (set_ctl (set_active (Some (the_id z)) (audio_modality z)) (set_locs (λ _, locals_init (the_id z) (audio_modality z)) z))).
  { apply ev_ctl; [|by intros []]. destruct H as [E ?]. split; try done. }
  destruct (audio_modality z); [|done]. by apply ev_hist.
Qed.
Lemma ev_after_send k s z : evolves s z → evolves s (after_send k z).
Proof. intros H. destruct k; simpl; eauto with evolve; by apply ev_finished. Qed.
Lemma ev_safely_ends x s z : evolves s z → evolves s (safely_returned x z) ∧ evolves s (safely_cancelled x z) ∧ evolves s (safely_raised x z).
Proof. intros H. destruct x; simpl; eauto 10 with evolve. Qed.

Lemma response_evolves i s s' : response_tick i s = Some s' → evolves s s' ∧ at_rpc (resp s) ≠ RNone.
Proof.
  unfold response_tick. intros Hs. split; [|intros E; by rewrite E in Hs].
  destruct (at_rpc (resp s)) as [| |e k| |x|x|o] eqn:E, (r_cancel (resp s)), i as [| |c| |d]; try done;
    try match type of Hs with context [match terminal (resp s) with _ => _ end] => destruct (terminal (resp s)); try done end; injection Hs as <-; eauto with evolve.
  - apply ev_start_response, ev_refl.
  - apply ev_on_cancelled, ev_r_cancel. destruct d; eauto with evolve.
  - apply ev_after_send. eauto with evolve.
  - by apply ev_safely_ends, ev_refl.
  - by apply ev_safely_ends, ev_refl.
  - by apply ev_safely_ends, ev_terminal, ev_r_cancel, ev_refl.
  - by apply ev_safely_ends, ev_refl.
  - by apply ev_safely_ends, ev_refl.
Qed.

(** ** The invariant of the tasks *)
Definition in_turn_body (t : turn) : Prop := match t with TNone | TStart _ | TEnded => False | _ => True end.
Definition loop_closed (l : loop) : bool := match l with LRun | LSending _ _ => false | _ => true end.

Definition past_turn (l : loop) : bool := match l with LAborts _ | LDrainer | LClosed => true | _ => false end.

Record inv (s : session) : Prop := {
  in_phase : phase_ok s;
  in_cancels : ∀ m, is_Some (cancels s !! m) → m < length (turns s);
  in_id : in_turn_body (at_turn s) → S (the_id s) = length (turns s);
  in_await : at_rpc (resp s) ≠ RNone ↔ ∃ i, at_turn s = TAwait i;
  in_turn : at_turn s ≠ TNone ↔ at_drainer s = DTurn;
  in_pending : response_start_pending (ctl s) = true → at_drainer s = DTurn;
  in_start : ∀ i, at_turn s = TStart i → response_start_pending (ctl s) = true;
  in_why : is_Some (pending_response_cancel_reason (ctl s)) → response_start_pending (ctl s) = true;
  in_reason : is_Some (response_cancel_reason (ctl s)) → ∃ i, at_turn s = TAwait i;
  in_closed : closed s = loop_closed (at_loop s);
  in_t_cancel : t_cancel s = true → closed s = true;
  in_ended : past_turn (at_loop s) = true → at_turn s = TNone ∨ at_turn s = TEnded;
}.

Lemma inv_init : inv session_init.
Proof. split; simpl; try done; try naive_solver. intros m [? [=]]. Qed.

(** A step inside the response. *)
Lemma outer_eqs s s' : outer s' = outer s → closed s' = closed s ∧ turns s' = turns s ∧ at_turn s' = at_turn s ∧ t_cancel s' = t_cancel s ∧
  at_drainer s' = at_drainer s ∧ at_loop s' = at_loop s ∧ put s' = put s ∧ queue s' = queue s ∧ conversation (hist s') = conversation (hist s) ∧ truncations s' = truncations s.
Proof. intros H. unfold outer in H. injection H. intros. repeat split; assumption. Qed.

Lemma inv_evolves s s' : inv s → evolves s s' → at_rpc (resp s) ≠ RNone → phase_ok s' → inv s'.
Proof.
  intros [H1 H2 H3 H4 H5 H6 H7 H8 H9 H10 H11 H12] He Hp Hph. pose proof (ev_outer _ _ He) as Ho. pose proof (outer_id _ _ Ho) as Hid.
  destruct (outer_eqs _ _ Ho) as (E1 & E2 & E3 & E4 & E5 & E6 & _). destruct He as [_ F1 F2 F3 F4 F5 _ _ _].
  pose proof (proj1 H4 Hp) as [i Hi]. split; rewrite ?E1, ?E2, ?E3, ?E4, ?E5, ?E6, ?Hid; try assumption; try done.
  - intros m Hm. destruct (F5 m Hm) as [Hm'| ->]; [by apply H2|]. rewrite Hi in H3. specialize (H3 I). lia.
  - split; [intros _; by exists i|intros _; by apply F1].
  - intros Hs. by apply H6, F2.
  - intros j Hj. congruence.
  - intros Hs. destruct (F4 Hs) as [Ew ->]. apply H8. by rewrite <- Ew.
  - by rewrite F3.
Qed.

Lemma inv_response i s s' : inv s → response_tick i s = Some s' → inv s'.
Proof.
  intros H Hs. destruct (response_evolves _ _ _ Hs) as [He Hp]. apply (inv_evolves s); try done. eapply response_phase; [apply H|exact Hs].
Qed.

Lemma changed_evolves t0 s s' : changed t0 s s' → evolves s s'.
Proof. intros (tm & t & a & d & items & -> & _). unfold change. apply ev_terminal, ev_locs; [|by intros []]. apply ev_hist; [apply ev_refl|by intros []]. Qed.
Lemma terminal_evolves i s s' : terminal_tick i s = Some s' → evolves s s' ∧ terminal (resp s) ≠ TmNone.
Proof.
  intros Hs. split; [|intros E; unfold terminal_tick in Hs; by rewrite E in Hs].
  destruct (terminal_tick_changed _ _ _ Hs) as [(t & _ & Hc)|[(t & g & _ & Hc)| ->]].
  - by apply (changed_evolves t).
  - destruct (changed_evolves _ _ _ Hc). by split.
  - apply ev_terminal, ev_disconnect, ev_refl.
Qed.
Lemma terminal_closing s : phase_ok s → terminal (resp s) ≠ TmNone → ∃ x, closing_ok x s ∧
  (at_rpc (resp s) = RShield x ∧ (r_cancel (resp s) = true → closed s = true) ∨ at_rpc (resp s) = RAwait x ∧ closed s = true ∧ r_cancel (resp s) = false).
Proof.
  unfold phase_ok, idle_ok. intros H Ht. destruct (at_rpc (resp s)) as [| |e k| |x|x|o] eqn:E; try (exfalso; apply Ht, H).
  - exfalso. destruct k; destruct H as [H _]; apply Ht, H.
  - exists x. destruct H. split; [done|left]. done.
  - exists x. destruct H. split; [done|right]. done.
Qed.

Lemma terminal_tick_rpc i s s' : terminal_tick i s = Some s' → at_rpc (resp s') = at_rpc (resp s) ∧ r_cancel (resp s') = r_cancel (resp s) ∧ ctl s' = ctl s ∧ cancels s' = cancels s ∧ closed s' = closed s.
Proof.
  intros Hs. destruct (terminal_tick_changed _ _ _ Hs) as [(? & _ & ? & ? & ? & ? & ? & -> & _)|[(t & g & _ & (? & ? & ? & ? & ? & -> & _))| ->]]; done.
Qed.
Lemma inv_terminal i s s' : inv s → terminal_tick i s = Some s' → inv s'.
Proof.
  intros H Hs. destruct (terminal_evolves _ _ _ Hs) as [He Ht]. destruct (terminal_closing _ (in_phase _ H) Ht) as (x & Hc & Hp).
  pose proof (terminal_tick_closing _ _ _ _ Hc Hs) as Hc'. destruct (terminal_tick_rpc _ _ _ Hs) as (E1 & E2 & _ & _ & E5).
  apply (inv_evolves s); [done|done| |]; [by destruct Hp as [[-> _]|[-> _]]|].
  unfold phase_ok. rewrite E1, E2, E5. destruct Hp as [(-> & Hf)|(-> & Hf)]; by split.
Qed.

(** *** The turn *)
(** The turn alone changes, and no response runs. *)
Lemma inv_turn_only s s' : inv s → resp s' = resp s → ctl s' = ctl s → cancels s' = cancels s → closed s' = closed s → turns s' = turns s →
  at_drainer s' = at_drainer s → at_loop s' = at_loop s → (connected s = false → connected s' = false) →
  in_turn_body (at_turn s) → (∀ i, at_turn s ≠ TAwait i) → in_turn_body (at_turn s') ∨ at_turn s' = TEnded → (∀ i, at_turn s' ≠ TAwait i) → (t_cancel s' = true → closed s = true) → inv s'.
Proof.
  intros [H1 H2 H3 H4 H5 H6 H7 H8 H9 H10 H11 H12] E1 E2 E3 E4 E5 E6 E7 Hco Hb Hna Hb' Hna' Ht.
  assert (Hr : at_rpc (resp s) = RNone) by (destruct (at_rpc (resp s)) eqn:E; [done|..]; exfalso; destruct (proj1 H4 ltac:(done)) as [i Hi]; by apply (Hna i)).
  assert (Eid : the_id s' = the_id s) by (unfold the_id; by rewrite E1).
  split; rewrite ?E1, ?E2, ?E3, ?E4, ?E5, ?E6, ?E7, ?Eid; try assumption.
  - unfold phase_ok, idle_ok in *. rewrite E1, E2, Hr in *. done.
  - intros _. by apply H3.
  - split; [intros Hx; by rewrite Hr in Hx|intros [i Hi]; by destruct (Hna' i)].
  - split; [intros _; apply H5; intros E; by rewrite E in Hb|intros _ E; rewrite E in Hb'; by destruct Hb'].
  - intros i Hi. rewrite Hi in Hb'. by destruct Hb'.
  - intros Hs. destruct (H9 Hs) as [i Hi]. by destruct (Hna i).
  - intros Hp. destruct (H12 Hp) as [E|E]; by rewrite E in Hb.
Qed.

(** [phase_ok] depends on these parts of the session. *)
Lemma phase_same s s' : phase_ok s → resp s' = resp s → ctl s' = ctl s → cancels s' = cancels s → (closed s = true → closed s' = true) →
  (connected s = false → connected s' = false) → phase_ok s'.
Proof.
  intros H E1 E2 E3 E4 E5. assert (Eid : the_id s' = the_id s) by (unfold the_id; by rewrite E1).
  assert (Hs : stream_ok s → stream_ok s').
  { intros [S1 S2 S3 S4 S5 S6 S7 S8]. unfold cancel_ok, is_cancelled in *.
    split; unfold cancel_ok, is_cancelled; rewrite ?E1, ?E2, ?E3, ?Eid; try assumption. intros Hr. destruct (S8 Hr); [left; by apply E4|by right]. }
  unfold phase_ok in *. rewrite E1. destruct (at_rpc (resp s)) as [| |e k| |x|x|o]; unfold idle_ok in *; rewrite ?E1, ?E2, ?E3, ?Eid.
  - done.
  - destruct H as (Hi & ? & ? & Hc). split; [exact Hi|]. split; [done|]. split; [done|]. intros Hr. by apply E4, Hc.
  - destruct k; destruct H as [H He]; (split; [|done]); try by apply Hs. destruct H as [C1 C2 C3 C4 C5 C6 C7 C8].
    split; rewrite ?E1, ?E2, ?E3, ?Eid; try assumption. intros Hr. by apply E4, C8.
  - by apply Hs.
  - destruct H as [H Hc]. split; [eapply closing_same; try done; by rewrite E1|]. intros Hr. by apply E4, Hc.
  - destruct H as (H & Hc & Hr). split; [eapply closing_same; try done; by rewrite E1|]. split; [by apply E4|done].
  - done.
Qed.

Record turn_moves (s s' : session) : Prop := {
  tm_resp : resp s' = resp s; tm_ctl : ctl s' = ctl s; tm_cancels : cancels s' = cancels s; tm_closed : closed s' = closed s;
  tm_turns : turns s' = turns s; tm_drainer : at_drainer s' = at_drainer s; tm_loop : at_loop s' = at_loop s;
  tm_connected : connected s = false → connected s' = false;
  tm_body : (in_turn_body (at_turn s') ∧ t_cancel s' = t_cancel s ∧ ∀ i, at_turn s' ≠ TAwait i) ∨ at_turn s' = TEnded ∧ t_cancel s' = false;
}.
Lemma inv_turn_moves s s' : inv s → turn_moves s s' → in_turn_body (at_turn s) → (∀ i, at_turn s ≠ TAwait i) → inv s'.
Proof.
  intros H [] Hb Hn. apply (inv_turn_only s); try done; [naive_solver|naive_solver congruence|].
  intros Ht. apply (in_t_cancel _ H). destruct tm_body0 as [(_ & <- & _)|[_ ?]]; [done|congruence].
Qed.

Definition turn_base (s z : session) : Prop :=
  resp z = resp s ∧ ctl z = ctl s ∧ cancels z = cancels s ∧ closed z = closed s ∧ turns z = turns s ∧ at_drainer z = at_drainer s ∧ at_loop z = at_loop s ∧
  (connected s = false → connected z = false) ∧ t_cancel z = t_cancel s.
Lemma turn_finally_moves s z out : turn_base s z → turn_moves s (turn_finally out z).
Proof. intros (?&?&?&?&?&?&?&?&?). unfold turn_finally. destruct out; (split; try done; by right). Qed.
Lemma turn_returns_moves s z i out acc : turn_base s z → turn_moves s (turn_returns i out acc z).
Proof. intros H. by apply turn_finally_moves. Qed.
Lemma set_turn_moves s z t : turn_base s z → in_turn_body t → (∀ i, t ≠ TAwait i) → turn_moves s (set_turn t z).
Proof. intros (?&?&?&?&?&?&?&?&?) Hb Hn. split; try done. left. by split_and!. Qed.
Lemma completed_moves s z i out acc : turn_base s z → turn_moves s (transcription_completed i out acc z).
Proof. intros H. unfold transcription_completed. destruct (live z); [by apply set_turn_moves|by apply turn_returns_moves]. Qed.
Lemma after_chunk_moves s z i out acc fin : turn_base s z → turn_moves s (after_transcript_chunk i out acc fin z).
Proof. intros H. unfold after_transcript_chunk. destruct fin; [by apply completed_moves|by apply set_turn_moves]. Qed.
Lemma transcript_chunk_moves s z i out acc c : turn_base s z → turn_moves s (on_transcript_chunk i out acc c z).
Proof.
  intros H. unfold on_transcript_chunk. destruct (_ && _), (live z); try by apply after_chunk_moves. by apply set_turn_moves.
Qed.

Lemma idle_phase s : inv s → (∀ i, at_turn s ≠ TAwait i) → at_rpc (resp s) = RNone.
Proof. intros H Hn. destruct (at_rpc (resp s)) eqn:E; [done|..]; exfalso; destruct (proj1 (in_await _ H) ltac:(by rewrite E)) as [i Hi]; by apply (Hn i). Qed.

(** The turn ends without anything else. *)
Lemma inv_turn_ends s : inv s → (∀ i, at_turn s ≠ TAwait i) → at_turn s ≠ TNone → inv (turn_ends s).
Proof.
  intros H Hn Ht. pose proof (idle_phase _ H Hn) as Hr. destruct H as [H1 H2 H3 H4 H5 H6 H7 H8 H9 H10 H11 H12]. split; simpl; try done.
  - by eapply phase_same.
  - split; [by rewrite Hr|by intros [i [=]]].
  - split; [|done]. intros _. by apply H5.
  - intros Hx. destruct (H9 Hx) as [i Hi]. by destruct (Hn i).
  - intros _. by right.
Qed.

(** The turn takes the outcome of its response. *)
Lemma inv_response_over s s' i o : inv s → at_turn s = TAwait i → at_rpc (resp s) = REnded o →
  resp s' = mkResponse RNone (r_cancel (resp s)) (locs (resp s)) (terminal (resp s)) → ctl s' = set_cancel_reason None (ctl s) →
  cancels s' = cancels s → closed s' = closed s → turns s' = turns s → at_drainer s' = at_drainer s → at_loop s' = at_loop s →
  in_turn_body (at_turn s') ∨ at_turn s' = TEnded → (∀ i, at_turn s' ≠ TAwait i) → (t_cancel s' = true → closed s = true) → inv s'.
Proof.
  intros [H1 H2 H3 H4 H5 H6 H7 H8 H9 H10 H11 H12] Ht Ho E1 E2 E3 E4 E5 E6 E7 Hb Hna Htc.
  assert (Eid : the_id s' = the_id s) by (unfold the_id; by rewrite E1).
  split; rewrite ?E2, ?E3, ?E4, ?E5, ?E6, ?E7, ?Eid; try assumption.
  - unfold phase_ok, idle_ok in *. rewrite Ho in H1. rewrite E1, E2. done.
  - intros _. apply H3. by rewrite Ht.
  - rewrite E1. split; [done|]. intros [j Hj]. by destruct (Hna j).
  - split; [intros _; apply H5; by rewrite Ht|intros _ E; rewrite E in Hb; by destruct Hb].
  - intros j Hj. rewrite Hj in Hb. by destruct Hb.
  - by intros [? [=]].
  - intros Hp. destruct (H12 Hp) as [E|E]; congruence.
Qed.

Lemma inv_response_ended s i o out : inv s → at_turn s = TAwait i → at_rpc (resp s) = REnded o → inv (response_ended i out s).
Proof.
  intros H Ht Ho. unfold response_ended. simpl. destruct (active_response_abort_task s); (apply (inv_response_over s _ i o); try done; [by left|apply H]).
Qed.
Lemma inv_turn_dies s i o : inv s → at_turn s = TAwait i → at_rpc (resp s) = REnded o → inv (turn_dies s).
Proof. intros H Ht Ho. apply (inv_response_over s _ i o); try done. by right. Qed.
Lemma inv_on_response_cancelled s i o : inv s → at_turn s = TAwait i → at_rpc (resp s) = REnded o → inv (on_response_cancelled i s).
Proof. intros H Ht Ho. unfold on_response_cancelled. destruct (_ || _); [by eapply inv_turn_dies|by eapply inv_response_ended]. Qed.

Lemma inv_begin_turn s i : inv s → at_turn s = TStart i → t_cancel s = false → inv (begin_response i s).
Proof.
  intros H Ht Htc. assert (Hr : at_rpc (resp s) = RNone) by (apply idle_phase; [done|by rewrite Ht]).
  destruct H as [H1 H2 H3 H4 H5 H6 H7 H8 H9 H10 H11 H12]. unfold phase_ok, idle_ok in H1. rewrite Hr in H1.
  split; simpl; try done.
  - unfold phase_ok, idle_ok. simpl. split; [by destruct H1 as (? & ? & ? & _)|]. split; [|split; [by apply (H7 i)|done]].
    unfold the_id. simpl. apply eq_None_not_Some. intros Hs. specialize (H2 _ Hs). lia.
  - intros m Hm. specialize (H2 m Hm). rewrite length_app. simpl. lia.
  - intros _. unfold the_id. simpl. rewrite length_app. simpl. lia.
  - split; [by exists i|done].
  - split; [|done]. intros _. apply H5. by rewrite Ht.
  - intros Hs. by exists i.
  - intros Hp. destruct (H12 Hp) as [E|E]; congruence.
Qed.

Lemma inv_turn_tick i s s' : inv s → turn_tick i s = Some s' → inv s'.
Proof.
  intros H Hs. unfold turn_tick in Hs. pose proof (in_turn _ H) as Hdt.
  destruct (at_turn s) as [|k|k|k out a|k out acc|k out acc fin|k out acc|] eqn:Et; [done|..|done].
  - destruct (t_cancel s) eqn:Ec, i; try done; injection Hs as <-; [apply inv_turn_ends; [done|by rewrite Et|by rewrite Et]|by apply inv_begin_turn].
  - destruct i; try done. destruct (at_rpc (resp s)) as [| | | | | |o] eqn:Er; try done. injection Hs as <-. destruct (t_cancel s) eqn:Ec.
    + eapply inv_on_response_cancelled; [|exact Et|exact Er]. destruct H as [H1 H2 H3 H4 H5 H6 H7 H8 H9 H10 H11 H12]. split; try done. by eapply phase_same.
    + destruct o; [by eapply inv_response_ended|by eapply inv_on_response_cancelled|by eapply inv_turn_dies].
  - destruct (t_cancel s) eqn:Ec, i; try done.
    + injection Hs as <-. apply inv_turn_ends; [done|by rewrite Et..].
    + destruct (bool_decide _); [done|]. injection Hs as <-. eapply inv_turn_moves; [exact H| |by rewrite Et..]. by apply set_turn_moves.
  - destruct (t_cancel s) eqn:Ec, i; try done; injection Hs as <-; (eapply inv_turn_moves; [exact H| |by rewrite Et..]);
      try by apply turn_finally_moves. + by apply transcript_chunk_moves. + by apply completed_moves.
  - destruct (t_cancel s) eqn:Ec, i as [| | | |d]; try done; injection Hs as <-; (eapply inv_turn_moves; [exact H| |by rewrite Et..]).
    + apply turn_finally_moves. by destruct d.
    + by apply after_chunk_moves.
    + by apply turn_finally_moves.
  - destruct (t_cancel s) eqn:Ec, i as [| | | |d]; try done; injection Hs as <-; (eapply inv_turn_moves; [exact H| |by rewrite Et..]).
    + apply turn_finally_moves. by destruct d.
    + by apply turn_returns_moves.
    + by apply turn_finally_moves.
Qed.

(** *** The drainer *)
Lemma no_turn s : inv s → at_drainer s ≠ DTurn → at_turn s = TNone.
Proof. intros H Hd. destruct (in_turn _ H) as [H1 _]. destruct (at_turn s); [done|..]; by destruct (Hd (H1 ltac:(done))). Qed.
Lemma inv_drain s s' : inv s → drain_tick s = Some s' → inv s'.
Proof.
  intros H Hs. pose proof (in_turn _ H) as Hdt. unfold drain_tick in Hs. destruct (at_drainer s) as [| |x|x| |] eqn:Ed; try done.
  - assert (Ht : at_turn s = TNone) by (apply no_turn; [done|by rewrite Ed]).
    destruct (queue s) as [|x q]; [done|]. injection Hs as <-. destruct H as [H1 H2 H3 H4 H5 H6 H7 H8 H9 H10 H11 H12].
    split; simpl; try done; try (by eapply phase_same).
    + rewrite Ht. split; [done|]. by destruct (speech_idle s).
    + intros Hp. specialize (H6 Hp). congruence.
  - assert (Ht : at_turn s = TNone) by (apply no_turn; [done|by rewrite Ed]).
    destruct (closed s) eqn:Ec; injection Hs as <-; destruct H as [H1 H2 H3 H4 H5 H6 H7 H8 H9 H10 H11 H12].
    + split; simpl; try done; try (by eapply phase_same). intros Hp. specialize (H6 Hp). congruence.
    + assert (Hr : at_rpc (resp s) = RNone).
      { destruct (at_rpc (resp s)) eqn:E; [done|..]; exfalso; destruct (proj1 H4 ltac:(done)); congruence. }
      split; simpl; try done.
      all: try (rewrite Hr; split; [done|by intros [? [=]]]); try (intros Hx; destruct (H9 Hx); congruence); try by rewrite Ec.
      2: { intros Hp. exfalso. rewrite H10 in Ec. by destruct (at_loop s). }
      unfold phase_ok, idle_ok in *. simpl. rewrite Hr in *. done.
  - destruct (at_turn s) eqn:Et; try done. injection Hs as <-. destruct H as [H1 H2 H3 H4 H5 H6 H7 H8 H9 H10 H11 H12].
    assert (Hr : at_rpc (resp s) = RNone).
    { destruct (at_rpc (resp s)) eqn:E; [done|..]; exfalso; destruct (proj1 H4 ltac:(done)); congruence. }
    split; simpl; try done.
    all: try (rewrite Hr; split; [done|by intros [? [=]]]); try (intros Hx; destruct (H9 Hx); congruence); try (split; [done|by destruct (closed s)]); try (by intros [? [=]]); try (intros _; by left).
    unfold phase_ok, idle_ok in *. simpl. rewrite Hr in *. done.
Qed.

(** *** Cancelling *)
Lemma cancel_phase reason s : phase_ok s → phase_ok (cancel_active_response reason s).
Proof.
  intros H. unfold cancel_active_response. destruct (response_start_pending (ctl s)) eqn:Hp.
  { destruct (pending_response_cancel_reason (ctl s)); [done|]. unfold phase_ok in *. simpl. destruct (at_rpc (resp s)) as [| |e k| |x|x|o]; try done.
    - destruct H as (Hi & ? & _ & ?). split; [exact Hi|]. by split_and!.
    - destruct k; destruct H as [H He]; try (rewrite (so_pending _ H) in Hp; done). split; [|done]. destruct H. by split.
    - rewrite (so_pending _ H) in Hp. done.
    - destruct H as [H Hc]. split; [|done]. by eapply closing_marks.
    - destruct H as [H Hc]. split; [|done]. by eapply closing_marks. }
  destruct (active_response_request_id (ctl s)) as [n|] eqn:Ha; [|done]. destruct (_ || _) eqn:Hb; [done|].
  apply orb_false_iff in Hb as [Hf%bool_decide_eq_false Hc%bool_decide_eq_false].
  set (s1 := note_cancel n reason _). set (s2 := set_aborts _ _ _).
  assert (Hst : stream_ok s → running (at_rpc (resp s)) = true → stream_ok s2).
  { intros [S1 S2 S3 S4 S5 S6 S7 S8] Hr. rewrite S1 in Ha. injection Ha as <-.
    unfold s2, cancel_response_task, s1. simpl. rewrite Hr. split; simpl; try done.
    - unfold cancel_ok. simpl. by rewrite lookup_insert_eq.
    - intros _. right. unfold is_cancelled. simpl. by apply bool_decide_eq_true. }
  assert (Hl : locs (resp s2) = locs (resp s) ∧ at_rpc (resp s2) = at_rpc (resp s)) by (unfold s2, cancel_response_task; simpl; by destruct (running _)).
  destruct Hl as [Hl Hrp]. unfold phase_ok in *. rewrite Hrp. destruct (at_rpc (resp s)) as [| |e k| |x|x|o] eqn:E.
  - destruct H as (H & _). congruence.
  - destruct H as ((H & _) & _). congruence.
  - destruct k; destruct H as [H He]; [rewrite (co_pending _ H) in Hp; done|..]; (split; [by apply Hst|by rewrite Hl]).
  - by apply Hst.
  - destruct H as [H _]. rewrite (cl_finalized _ _ H), <- (cl_active _ _ H) in Hf. congruence.
  - destruct H as [H _]. rewrite (cl_finalized _ _ H), <- (cl_active _ _ H) in Hf. congruence.
  - destruct H as (H & _). congruence.
Qed.

Lemma active_rpc s : phase_ok s → active_response_request_id (ctl s) ≠ None → at_rpc (resp s) ≠ RNone ∧ active_response_request_id (ctl s) = Some (the_id s).
Proof.
  unfold phase_ok, idle_ok. intros H Ha. destruct (at_rpc (resp s)) as [| |e k| |x|x|o] eqn:E;
    [by destruct H as [H _]|by destruct H as [[H _] _]|split; [done|]..|by destruct H as [H _]].
  - destruct k; destruct H as [[] _]; done.
  - by destruct H.
  - by destruct H as [[] _].
  - by destruct H as [[] _].
Qed.

Definition marked (n : nat) (reason : string) (s : session) : session :=
  set_aborts (Some n) ({[n]} ∪ abort_tasks s) (set_r_cancel true
    (note_cancel n reason (set_ctl (λ c, set_cancel_reason (Some reason) (set_cancelled (Some (n, reason)) c)) s))).

Lemma finalized_closing s : phase_ok s → response_start_pending (ctl s) = false → active_response_request_id (ctl s) ≠ None →
  finalized_response_request_id (ctl s) ≠ active_response_request_id (ctl s) → stream_ok s ∧ running (at_rpc (resp s)) = true.
Proof.
  unfold phase_ok, idle_ok. intros H Hp Ha Hf. destruct (at_rpc (resp s)) as [| |e k| |x|x|o] eqn:E;
    [by destruct H as [H _]|by destruct H as [[H _] _]|..|by destruct H as [H _]].
  - destruct k; destruct H as [H _]; [by rewrite (co_pending _ H) in Hp|done..].
  - done.
  - destruct H as [[] _]. congruence.
  - destruct H as [[] _]. congruence.
Qed.

(** What a cancellation does: nothing, a request kept until the response is open to it,
    or the mark of the running response, with its task cancelled and its engine
    request aborted. *)
Lemma cancel_cases reason s : phase_ok s →
  cancel_active_response reason s = s ∨
  (response_start_pending (ctl s) = true ∧ cancel_active_response reason s = set_ctl (set_pending true (Some reason)) s) ∨
  (stream_ok s ∧ running (at_rpc (resp s)) = true ∧ cancelled_response (ctl s) = None ∧ cancel_active_response reason s = marked (the_id s) reason s).
Proof.
  intros H. unfold cancel_active_response. destruct (response_start_pending (ctl s)) eqn:Hp.
  { destruct (pending_response_cancel_reason (ctl s)); [by left|by right; left]. }
  destruct (active_response_request_id (ctl s)) as [n|] eqn:Ha; [|by left]. destruct (_ || _) eqn:Hb; [by left|].
  apply orb_false_iff in Hb as [Hf%bool_decide_eq_false Hc%bool_decide_eq_false].
  destruct (finalized_closing s H Hp) as [Hst Hr]; [by rewrite Ha|by rewrite Ha|].
  rewrite (so_active _ Hst) in Ha. injection Ha as <-. right. right. split; [done|]. split; [done|].
  split; [|unfold cancel_response_task; simpl; by rewrite Hr].
  pose proof (so_cancel _ Hst) as Hco. unfold cancel_ok in Hco. destruct (cancelled_response (ctl s)) as [[m r]|]; [|done]. destruct Hco as [-> _]. done.
Qed.

Lemma inv_cancel reason s : inv s → inv (cancel_active_response reason s).
Proof.
  intros H. pose proof (cancel_phase reason _ (in_phase _ H)) as Hph. destruct (cancel_cases reason s (in_phase _ H)) as [E|[(Hp & E)|(Hst & Hr & Hn & E)]].
  - by rewrite E.
  - rewrite E in *. destruct H as [H1 H2 H3 H4 H5 H6 H7 H8 H9 H10 H11 H12]. split; simpl; try done. intros _. by apply H6.
  - rewrite E in *. destruct H as [H1 H2 H3 H4 H5 H6 H7 H8 H9 H10 H11 H12].
    assert (Ha : ∃ i, at_turn s = TAwait i) by (apply H4; by destruct (at_rpc (resp s))). split; simpl; try done.
    intros m Hm. destruct Ha as [i Hi]. rewrite Hi in H3. specialize (H3 I).
    destruct (decide (m = the_id s)) as [->|Hne]; [lia|]. rewrite lookup_insert_ne in Hm by done. by apply H2.
Qed.

(** *** The receive loop *)
Lemma inv_set_loop l s : inv s → closed s = loop_closed l → (past_turn l = true → at_turn s = TNone ∨ at_turn s = TEnded) → inv (set_loop l s).
Proof. intros [H1 H2 H3 H4 H5 H6 H7 H8 H9 H10 H11 H12] Hl Hp. split; try done. by eapply phase_same. Qed.
Lemma inv_sent_event e s : inv s → inv (emit e s).
Proof. intros [H1 H2 H3 H4 H5 H6 H7 H8 H9 H10 H11 H12]. split; try done. by eapply phase_same. Qed.
Lemma inv_disconnect s : inv s → inv (disconnect s).
Proof. intros [H1 H2 H3 H4 H5 H6 H7 H8 H9 H10 H11 H12]. split; try done. by eapply phase_same. Qed.
Lemma inv_set_hist f s : inv s → inv (set_hist f s).
Proof. intros [H1 H2 H3 H4 H5 H6 H7 H8 H9 H10 H11 H12]. split; try done. by eapply phase_same. Qed.
Lemma inv_note_truncation n s : inv s → inv (note_truncation n s).
Proof. intros [H1 H2 H3 H4 H5 H6 H7 H8 H9 H10 H11 H12]. split; try done. by eapply phase_same. Qed.
Lemma inv_modality a i s : inv s → inv (set_modality a i s).
Proof. intros [H1 H2 H3 H4 H5 H6 H7 H8 H9 H10 H11 H12]. split; try done. by eapply phase_same. Qed.
Lemma inv_aborts a t s : inv s → inv (set_aborts a t s).
Proof. intros [H1 H2 H3 H4 H5 H6 H7 H8 H9 H10 H11 H12]. split; try done. by eapply phase_same. Qed.
Lemma inv_queue b q p d s : inv s → (d = DTurn ↔ at_drainer s = DTurn) → inv (set_idle b d s) ∧ inv (set_put q p d s).
Proof.
  intros [H1 H2 H3 H4 H5 H6 H7 H8 H9 H10 H11 H12] Hd.
  split; (split; simpl; try done; [by eapply phase_same|by rewrite Hd|intros Hp; by apply Hd, H6]).
Qed.
Lemma inv_idle_set s : inv s → inv (idle_set s).
Proof. intros H. apply (inv_queue true [] []); [done|]. by destruct (at_drainer s). Qed.
Lemma inv_loop_send e k g s : inv s → closed s = false → (∀ z, inv z → closed z = false → inv (g z)) → inv (loop_send e k g s).
Proof. intros H Hc Hg. unfold loop_send. destruct (live s); [by apply inv_set_loop|by apply Hg]. Qed.
Lemma inv_handler_done s : inv s → closed s = false → inv (handler_done s).
Proof. intros H Hc. by apply inv_set_loop. Qed.
Lemma closed_cancel reason s : closed (cancel_active_response reason s) = closed s.
Proof.
  unfold cancel_active_response. destruct (response_start_pending _); [by destruct (pending_response_cancel_reason _)|].
  destruct (active_response_request_id _); [|done]. destruct (_ || _); [done|]. unfold cancel_response_task. simpl. by destruct (running _).
Qed.
Lemma inv_enqueue x s : inv s → closed s = false → inv (enqueue x s).
Proof.
  intros H Hc. unfold enqueue. apply inv_handler_done; [|done]. apply inv_idle_set, (inv_queue true (queue s ++ [x]) (put s ++ [x.1])); [done|]. by destruct (at_drainer s) eqn:E; rewrite ?Hc.
Qed.
Lemma inv_commit u s : inv s → closed s = false → inv (commit u s).
Proof.
  intros H Hc. destruct u as [x|]; simpl; [|by apply inv_handler_done; [apply inv_idle_set|]]. apply inv_loop_send; [done|done|]. intros z. apply inv_enqueue.
Qed.
Lemma inv_interrupt s : inv s → closed s = false → inv (interrupt s).
Proof.
  intros H Hc. unfold interrupt. destruct (_ && _); apply inv_handler_done; [by apply inv_cancel|by rewrite closed_cancel|done|done].
Qed.

(** The teardown cancels the turn, or the response it awaits. *)
Lemma inv_teardown s : inv s → closed s = false → inv (teardown s).
Proof.
  intros [H1 H2 H3 H4 H5 H6 H7 H8 H9 H10 H11 H12] Hc. unfold teardown, cancel_turn. simpl.
  assert (Hp : ∀ z, resp z = resp s → ctl z = ctl s → cancels z = cancels s → connected z = connected s → phase_ok z)
    by (intros z E1 E2 E3 E4; eapply phase_same; [exact H1|done..|by rewrite Hc|by rewrite E4]).
  destruct (at_turn s) eqn:Et; try (solve [split; simpl; rewrite ?Et; try done; by apply Hp]).
  destruct (running (at_rpc (resp s))) eqn:Er; [|split; simpl; rewrite ?Et; try done; by apply Hp].
  split; simpl; rewrite ?Et; try done. unfold phase_ok in *. simpl in *. destruct (at_rpc (resp s)) as [| |e k| |x|x|o]; try done.
  - destruct H1 as (? & ? & ? & _). done.
  - destruct k; destruct H1 as [Hx He]; (split; [|done]); destruct Hx; split; try done; intros _; by left.
  - destruct H1. split; try done. intros _. by left.
  - destruct H1 as [Hx _]. split; [|done]. by eapply closing_marks.
  - destruct H1 as (_ & Hx & _). congruence.
Qed.

Lemma inv_truncate i c s : inv s → closed s = false → inv (handle_conversation_item_truncate i c s).
Proof.
  intros H Hc. assert (Hs : ∀ e z, inv z → closed z = false → inv (loop_send e HDone handler_done z)) by (intros e z Hz Hcz; apply inv_loop_send; [done..|apply inv_handler_done]).
  unfold handle_conversation_item_truncate. destruct (negb _); [by apply Hs|]. destruct i as [k|n]; [by apply Hs|].
  destruct (bool_decide (n ∈ pending_assistant_item_ids _)); [apply Hs; [by apply inv_note_truncation, inv_set_hist|done]|].
  destruct (bool_decide (n ∈ cancelled_assistant_item_ids _)); [apply Hs; [by apply inv_note_truncation|done]|].
  destruct (delete_first _ _); [apply Hs; [by apply inv_note_truncation, inv_set_hist|done]|by apply Hs].
Qed.

Lemma inv_dispatch e s : inv s → closed s = false → inv (dispatch e s).
Proof.
  intros H Hc. assert (Hd : ∀ e z, inv z → closed z = false → inv (loop_send e HDone handler_done z)) by (intros f z Hz Hcz; apply inv_loop_send; [done..|apply inv_handler_done]).
  destruct e as [|i c|a b acc| | |u|]; simpl.
  - by apply inv_cancel.
  - by apply inv_truncate.
  - destruct acc; apply Hd; try done. by apply inv_modality.
  - apply Hd; [by apply inv_idle_set|done].
  - apply inv_loop_send; [|done|intros z; apply inv_interrupt]. by apply (inv_queue false [] []).
  - apply inv_loop_send; [done|done|]. intros z. apply inv_commit.
  - by apply inv_teardown.
Qed.

Lemma inv_drainer_cancelled s : inv s → at_turn s = TNone ∨ at_turn s = TEnded → inv (drainer_cancelled s).
Proof.
  intros H Ht. assert (Hr : at_rpc (resp s) = RNone) by (apply idle_phase; [done|]; intros i Hi; destruct Ht; congruence).
  assert (Hn : at_drainer s ≠ DTurn → at_turn s = TNone) by (by apply no_turn).
  destruct H as [H1 H2 H3 H4 H5 H6 H7 H8 H9 H10 H11 H12]. unfold phase_ok in H1. rewrite Hr in H1. unfold drainer_cancelled.
  assert (Hx : is_Some (response_cancel_reason (ctl s)) → False) by (intros Hx; destruct (H9 Hx) as [i Hi]; destruct Ht; congruence).
  assert (Hp : at_drainer s ≠ DTurn → response_start_pending (ctl s) = false) by (intros Hd; destruct (response_start_pending (ctl s)); [by destruct (Hd (H6 eq_refl))|done]).
  assert (Hq : ∀ z, resp z = resp s → active_response_request_id (ctl z) = active_response_request_id (ctl s) → cancelled_response (ctl z) = cancelled_response (ctl s) →
    finalized_response_request_id (ctl z) = finalized_response_request_id (ctl s) → phase_ok z).
  { intros z E1 E2 E3 E4. unfold phase_ok, idle_ok in *. by rewrite E1, E2, E3, E4, Hr. }
  assert (Ed : at_drainer s = DTurn ∨ at_drainer s ≠ DTurn) by (destruct (at_drainer s); auto). destruct Ed as [Ed|Ed].
  - rewrite Ed. split; simpl; try done; try (by apply Hq); try (intros Hs; by destruct Hx); try (intros _; by left). rewrite Hr. split; [done|by intros [? [=]]].
  - assert (E : match at_drainer s with DTurn => set_turn TNone (set_ctl (set_pending false None) s) | _ => s end = s) by (by destruct (at_drainer s)).
    rewrite E. split; simpl; try done; try (by apply Hq); try (by rewrite (Hn Ed)); by rewrite (Hp Ed).
Qed.
Lemma inv_loop i s s' : inv s → loop_tick i s = Some s' → inv s'.
Proof.
  intros H Hs. pose proof (in_closed _ H) as Hc. unfold loop_tick in Hs. destruct (at_loop s) as [|e k|a|a| |] eqn:El, i as [ev| |]; try done.
  - injection Hs as <-. by apply inv_dispatch.
  - injection Hs as <-. pose proof (inv_sent_event e _ H) as He. destruct k as [| |u|x]; simpl; [by apply inv_handler_done|by apply inv_interrupt|by apply inv_commit|by apply inv_enqueue].
  - injection Hs as <-. unfold loop_send_raised. pose proof (inv_disconnect _ H) as He. destruct k; apply inv_teardown; try done. by apply inv_idle_set.
  - destruct (at_turn s) eqn:Et; try done; injection Hs as <-; (apply inv_set_loop; [done|done|]); intros _; [by left|by right].
  - destruct (match a with Some n => _ | None => false end); [done|]. injection Hs as <-.
    pose proof (in_ended _ H) as He. rewrite El in He. specialize (He eq_refl).
    assert (Hd : inv (set_loop LDrainer (drainer_cancelled s))) by (apply inv_set_loop; [by apply inv_drainer_cancelled|unfold drainer_cancelled; by destruct (at_drainer s)|intros _; unfold drainer_cancelled; destruct (at_drainer s); simpl; auto]).
    destruct (at_drainer s) eqn:Ed; try exact Hd; by apply inv_set_loop.
  - injection Hs as <-. apply inv_set_loop; [done|done|]. intros _. apply (in_ended _ H). by rewrite El.
Qed.

Lemma inv_step s s' : inv s → step s s' → inv s'.
Proof.
  intros H Hs. destruct Hs as [i s' Hs|i s' Hs|i s' Hs|s' Hs|i s' Hs|n Hn|].
  - by eapply inv_response.
  - by eapply inv_terminal.
  - by eapply inv_turn_tick.
  - by eapply inv_drain.
  - by eapply inv_loop.
  - by apply inv_aborts.
  - by apply inv_disconnect.
Qed.
End proofs.
