(* ===== verification/RealtimeProps.v ===== *)
(** * The responses of a realtime session: what holds in every interleaving

    On top of [RealtimeTasks]: the protocol of response events on the wire, the agreement of
    cancellations with the reported status, the history, and the progress of turns. *)
From S2P Require Import Prelude RealtimeSession RealtimeTasks.

Section proofs.
Context {P U : Type}.
#[local] Notation session := (RealtimeSession.session (P := P) (U := U)).
#[local] Notation session_init := (RealtimeSession.session_init (P := P) (U := U)).
#[local] Notation event := (RealtimeSession.event (U := U)).
#[local] Notation locals := (RealtimeSession.locals (U := U)).
#[local] Notation after := (RealtimeSession.after (U := U)).
#[local] Notation rpc := (RealtimeSession.rpc (U := U)).
#[local] Notation chunk := (RealtimeSession.chunk (U := U)).
#[local] Notation rin := (RealtimeSession.rin (U := U)).
#[local] Notation tin := (RealtimeSession.tin (U := U)).
#[local] Notation handler := (RealtimeSession.handler (P := P)).
#[local] Notation lin := (RealtimeSession.lin (P := P)).
#[local] Notation drainer := (RealtimeSession.drainer (P := P)).
#[local] Notation loop := (RealtimeSession.loop (P := P) (U := U)).
Implicit Types s z : session.

(** ** What the client sees of responses *)
(** A response on the wire: none, or response [n] with its text and its audio finished or
    not. *)
Inductive wire := WIdle | WOpen (n : nat) (text audio : bool).

Definition accepts (cs : gmap nat string) (e : event) (w : wire) : option wire :=
  match e, w with
  | Created n, WIdle => Some (WOpen n false false)
  | Created _, _ => None
  | TextDelta n _, WOpen m _ _ | AudioDelta n _, WOpen m _ _ => if bool_decide (n = m) then Some w else None
  | TextDone n _, WOpen m t a => if bool_decide (n = m) && (negb t || bool_decide (is_Some (cs !! n))) then Some (WOpen m true a) else None
  | AudioDone n, WOpen m t a => if bool_decide (n = m) && (negb a || bool_decide (is_Some (cs !! n))) then Some (WOpen m t true) else None
  | ResponseDone n _ _ _ audio _, WOpen m t a => if bool_decide (n = m) && t && (negb audio || a) then Some WIdle else None
  | (TextDelta _ _ | AudioDelta _ _ | TextDone _ _ | AudioDone _ | ResponseDone _ _ _ _ _ _), WIdle => None
  | (Truncated _ | SendError _ | Other _), _ => Some w
  end.
Definition protocol (cs : gmap nat string) (l : list event) : option wire := foldl (λ w e, w ← w; accepts cs e w) (Some WIdle) l.

Definition opened (w : wire) (l : locals) (cs : gmap nat string) : Prop :=
  if response_done l then w = WIdle
  else ∃ t a, w = WOpen (l_id l) t a ∧ (text_done l = true → t = true) ∧ (audio_done l = true → a = true) ∧
    (t = true → text_done l = true ∨ is_Some (cs !! l_id l)) ∧ (a = true → audio_done l = true ∨ is_Some (cs !! l_id l)).
Definition matches (w : wire) (s : session) : Prop :=
  match at_rpc (resp s) with
  | RNone | RStart | REnded _ | RSending _ ACreated => w = WIdle
  | _ => opened w (locs (resp s)) (cancels s)
  end.
Definition sending (s : session) : Prop := (∃ e k, at_rpc (resp s) = RSending e k) ∨ ∃ t g, terminal (resp s) = TmSending t g.
Definition wire_ok (w : wire) (s : session) : Prop := live s = true ∨ sending s → matches w s.
Definition wire_inv (s : session) : Prop := ∃ w, protocol (cancels s) (sent s) = Some w ∧ wire_ok w s.

Lemma accepts_mono cs cs' e w w' : (∀ m, is_Some (cs !! m) → is_Some (cs' !! m)) → accepts cs e w = Some w' → accepts cs' e w = Some w'.
Proof.
  intros Hm. destruct e, w; simpl; try done.
  - destruct (bool_decide (n = n0)); [|done]. destruct text0; [|done]. simpl. case_bool_decide as H; [|done]. by rewrite bool_decide_true by auto.
  - destruct (bool_decide (n = n0)); [|done]. destruct audio; [|done]. simpl. case_bool_decide as H; [|done]. by rewrite bool_decide_true by auto.
Qed.
Lemma protocol_snoc cs l e : protocol cs (l ++ [e]) = w ← protocol cs l; accepts cs e w.
Proof. unfold protocol. by rewrite foldl_app. Qed.
Lemma protocol_mono cs cs' l w : (∀ m, is_Some (cs !! m) → is_Some (cs' !! m)) → protocol cs l = Some w → protocol cs' l = Some w.
Proof.
  intros Hm. revert w. induction l as [|e l IH] using rev_ind; intros w; [done|]. rewrite !protocol_snoc.
  intros (w1 & H1 & H2)%bind_Some. rewrite (IH w1 H1). simpl. by eapply accepts_mono.
Qed.

(** While the response runs, whatever its place. *)
Definition mid (w : wire) (s : session) : Prop := live s = true → opened w (locs (resp s)) (cancels s).

Lemma live_not_sending w s : ¬ sending s → (live s = true → matches w s) → wire_ok w s.
Proof. intros Hn Hm [?|?]; [by apply Hm|done]. Qed.

Lemma wire_send w e k go_on s : k ≠ ACreated → mid w s → (mid w s → wire_ok w (go_on s)) → wire_ok w (send e k go_on s).
Proof.
  intros Hk Hm Hg. unfold send. destruct (live s) eqn:Hl; [|by apply Hg]. intros _. unfold matches. simpl. specialize (Hm Hl). by destruct k.
Qed.
Lemma not_sending s : terminal (resp s) = TmNone → (∀ e k, at_rpc (resp s) ≠ RSending e k) → ¬ sending s.
Proof. intros Ht Hr [(e & k & E)|(t & g & E)]; [by destruct (Hr e k)|congruence]. Qed.
Lemma wire_next w s : terminal (resp s) = TmNone → mid w s → wire_ok w (goto RNext s).
Proof. intros Ht Hm. apply live_not_sending; [by apply not_sending|]. intros Hl. by apply Hm. Qed.
Lemma opened_same w l l' cs : opened w l cs → l_id l' = l_id l → response_done l' = response_done l → text_done l' = text_done l → audio_done l' = audio_done l → opened w l' cs.
Proof. unfold opened. intros H E1 E2 E3 E4. by rewrite E1, E2, E3, E4. Qed.
Lemma mid_locs w s f : mid w s → (∀ l, l_id (f l) = l_id l ∧ response_done (f l) = response_done l ∧ text_done (f l) = text_done l ∧ audio_done (f l) = audio_done l) → mid w (set_locs f s).
Proof. intros Hm Hf Hl. destruct (Hf (locs (resp s))) as (? & ? & ? & ?). simpl. eapply opened_same; [by apply Hm|done..]. Qed.

Lemma wire_chunk_finish w c s : terminal (resp s) = TmNone → mid w s → wire_ok w (chunk_finish c s).
Proof.
  intros Ht Hm. unfold chunk_finish. set (s1 := if bool_decide _ then _ else s).
  assert (H1 : terminal (resp s1) = TmNone ∧ mid w s1) by (unfold s1; case_bool_decide; [split; [done|]; by apply mid_locs|done]).
  clearbody s1. destruct H1 as [Ht1 Hm1].
  assert (Hx : ∀ e k t a, k ≠ ACreated → wire_ok w (send e k (λ z, goto RNext (set_locs (set_dones t a false) z)) s1)).
  { intros e k t a Hk. unfold send. destruct (live s1) eqn:Hl.
    - intros _. unfold matches. simpl. specialize (Hm1 Hl). by destruct k.
    - apply live_not_sending; [by apply not_sending|]. intros Hl'. unfold live in *. simpl in *. congruence. }
  destruct (_ && _ && _); [by apply Hx|]. destruct (_ && _ && _); [by apply Hx|by apply wire_next].
Qed.
Lemma wire_chunk_audio w c s : terminal (resp s) = TmNone → mid w s → wire_ok w (chunk_audio c s).
Proof.
  intros Ht Hm. unfold chunk_audio. destruct (_ && _ && _); [|by apply wire_chunk_finish].
  apply wire_send; [done|by apply mid_locs|by apply wire_chunk_finish].
Qed.
Lemma wire_on_chunk w c s : terminal (resp s) = TmNone → mid w s → wire_ok w (on_chunk c s).
Proof.
  intros Ht Hm. unfold on_chunk. destruct (is_cancelled s); [by apply wire_next|]. destruct (_ && _); [|by apply wire_chunk_audio].
  apply wire_send; [done|by apply mid_locs|by apply wire_chunk_audio].
Qed.

Lemma wire_safely w t x s : mid w s → wire_ok w (emit_terminals_safely t x s).
Proof. intros Hm. apply live_not_sending; [intros [(?&?&[=])|(?&?&[=])]|]. intros Hl. by apply Hm. Qed.
Lemma wire_finally w o s : mid w s → (live s = true → response_done (locs (resp s)) = true) → wire_ok w (run_response_finally o s).
Proof.
  intros Hm Hd. rewrite finally_eq. apply live_not_sending; [intros [(?&?&[=])|(?&?&[=])]|]. intros Hl. unfold matches. simpl.
  change (live s = true) in Hl. specialize (Hm Hl). unfold opened in Hm. by rewrite Hd in Hm.
Qed.
Lemma wire_on_cancelled w s : mid w s → wire_ok w (on_cancelled s).
Proof. intros Hm. unfold on_cancelled. destruct (response_done _) eqn:E; [by apply wire_finally|by apply wire_safely]. Qed.
Lemma wire_on_exception w s : mid w s → wire_ok w (on_exception s).
Proof. intros Hm. unfold on_exception. destruct (response_done _) eqn:E; [by apply wire_finally|by apply wire_safely]. Qed.
Lemma wire_end_of_stream w s : mid w s → wire_ok w (end_of_stream s).
Proof. intros Hm. unfold end_of_stream. destruct (is_cancelled s); [by apply wire_safely|]. destruct (_ && negb _); by apply wire_safely. Qed.

(** After a send that went through, in the phases of the response. *)
Lemma wire_after_created w s : terminal (resp s) = TmNone → (live s = true → ∃ a, w = WOpen (the_id s) false a ∧ a = false) →
  response_done (locs (resp s)) = false → text_done (locs (resp s)) = false → audio_done (locs (resp s)) = false → wire_ok w (after_created s).
Proof.
  intros Ht Hw Hd Htd Had.
  assert (Ho : live s = true → ∀ cs, opened w (locs (resp s)) cs).
  { intros Hl cs. destruct (Hw Hl) as (a & -> & ->). unfold opened. rewrite Hd, Htd, Had. exists false, false. by split_and!. }
  unfold after_created. destruct (pending_response_cancel_reason (ctl s)).
  - apply wire_safely. intros Hl. by apply Ho.
  - apply wire_next; [done|]. intros Hl. by apply Ho.
Qed.
Lemma wire_start_response w s : idle_ok s → (live s = true → w = WIdle) → wire_ok w (start_response s).
Proof.
  intros (_ & _ & _ & Ht) Hw. unfold start_response. cbv zeta. set (s1 := set_ctl (set_active (Some (the_id s)) (audio_modality s)) (set_locs _ s)).
  set (s2 := if audio_modality s then _ else s1).
  assert (H2 : terminal (resp s2) = TmNone ∧ live s2 = live s ∧ locs (resp s2) = locals_init (the_id s) (audio_modality s)) by (unfold s2; by destruct (audio_modality s)).
  clearbody s2. destruct H2 as (Ht2 & Hl2 & E). unfold send. destruct (live s2) eqn:Hl.
  - intros _. unfold matches. simpl. apply Hw. congruence.
  - apply wire_after_created; rewrite ?E; try done. by rewrite Hl.
Qed.

(** A send of the stream loop is accepted, and the state goes on from there. *)
Lemma wire_sent w e k s : matches w s → at_rpc (resp s) = RSending e k → event_ok e k (locs (resp s)) → (k ≠ ACreated → response_done (locs (resp s)) = false) →
  ∃ w', accepts (cancels s) e w = Some w' ∧
    match k with
    | ACreated => w' = WOpen (the_id s) false false
    | AText _ | AAudio _ => opened w' (locs (resp s)) (cancels s)
    | ATextDone => opened w' (set_dones true false false (locs (resp s))) (cancels s) ∧ (is_Some (cancels s !! the_id s) → opened w' (locs (resp s)) (cancels s))
    | AAudioDone => opened w' (set_dones false true false (locs (resp s))) (cancels s) ∧ (is_Some (cancels s !! the_id s) → opened w' (locs (resp s)) (cancels s))
    end.
Proof.
  unfold matches. intros Hm E He Hd. rewrite E in Hm. destruct k; simpl in He.
  - destruct He as [-> _]. rewrite Hm. by eexists.
  - destruct He as [d ->]. pose proof Hm as Ho. unfold opened in Hm. rewrite Hd in Hm by done. destruct Hm as (t & a & -> & _). exists (WOpen (l_id (locs (resp s))) t a). simpl. by rewrite bool_decide_true.
  - destruct He as [d ->]. pose proof Hm as Ho. unfold opened in Hm. rewrite Hd in Hm by done. destruct Hm as (t & a & -> & _). exists (WOpen (l_id (locs (resp s))) t a). simpl. by rewrite bool_decide_true.
  - destruct He as (d & -> & Htd). unfold opened in Hm. rewrite Hd in Hm by done. destruct Hm as (t & a & -> & H1 & H2 & H3 & H4).
    exists (WOpen (l_id (locs (resp s))) true a). split.
    + simpl. rewrite bool_decide_true by done. simpl. destruct t; [|done]. simpl. destruct (H3 eq_refl); [congruence|]. by rewrite bool_decide_true.
    + unfold opened. simpl. rewrite Hd by done. split; [|intros Hs]; exists true, a; split_and!; try done; auto.
  - destruct He as (-> & Had). unfold opened in Hm. rewrite Hd in Hm by done. destruct Hm as (t & a & -> & H1 & H2 & H3 & H4).
    exists (WOpen (l_id (locs (resp s))) t true). split.
    + simpl. rewrite bool_decide_true by done. simpl. destruct a; [|done]. simpl. destruct (H4 eq_refl); [congruence|]. by rewrite bool_decide_true.
    + unfold opened. simpl. rewrite Hd by done. split; [|intros Hs]; exists t, true; split_and!; try done; auto.
Qed.

Lemma closed_live s : closed s = true → live s = false.
Proof. unfold live. by intros ->. Qed.

Lemma sending_done s e k : at_rpc (resp s) = RSending e k → phase_ok s → response_done (locs (resp s)) = false ∧ terminal (resp s) = TmNone.
Proof. intros E [_ H]%(sending_ok _ _ _ E). case_decide; destruct H; done. Qed.

(** These send nothing themselves. *)
Lemma sent_finally o s : sent (run_response_finally o s) = sent s.
Proof. by rewrite finally_eq. Qed.
Lemma sent_on_cancelled s : sent (on_cancelled s) = sent s.
Proof. unfold on_cancelled. destruct (response_done _); [apply sent_finally|done]. Qed.
Lemma sent_on_exception s : sent (on_exception s) = sent s.
Proof. unfold on_exception. destruct (response_done _); [by rewrite sent_finally|done]. Qed.
Lemma sent_end_of_stream s : sent (end_of_stream s) = sent s.
Proof. unfold end_of_stream. destruct (is_cancelled s); [done|]. by destruct (_ && negb _). Qed.
Lemma sent_send e k go_on s : (∀ z, sent z = sent s → sent (go_on z) = sent s) → sent (send e k go_on s) = sent s.
Proof. intros Hg. unfold send. destruct (live s); [done|by apply Hg]. Qed.
Lemma sent_chunk_finish c s : sent (chunk_finish c s) = sent s.
Proof.
  unfold chunk_finish. set (s1 := if bool_decide _ then _ else s). assert (E : sent s1 = sent s) by (unfold s1; by case_bool_decide). clearbody s1. rewrite <- E.
  destruct (_ && _ && _); [apply sent_send; intros z Hz; exact Hz|]. destruct (_ && _ && _); [apply sent_send; intros z Hz; exact Hz|done].
Qed.
Lemma sent_chunk_audio c s : sent (chunk_audio c s) = sent s.
Proof.
  unfold chunk_audio. destruct (_ && _ && _); [|apply sent_chunk_finish]. rewrite sent_send; [done|]. intros z Hz. rewrite sent_chunk_finish. exact Hz.
Qed.
Lemma sent_on_chunk c s : sent (on_chunk c s) = sent s.
Proof.
  unfold on_chunk. destruct (is_cancelled s); [done|]. destruct (_ && _); [|apply sent_chunk_audio]. rewrite sent_send; [done|]. intros z Hz. rewrite sent_chunk_audio. exact Hz.
Qed.
Lemma sent_after_created s : sent (after_created s) = sent s.
Proof. unfold after_created. by destruct (pending_response_cancel_reason (ctl s)). Qed.
Lemma sent_start_response s : sent (start_response s) = sent s.
Proof.
  unfold start_response. rewrite sent_send; [by destruct (audio_modality s)|]. intros z Hz. rewrite sent_after_created. exact Hz.
Qed.
Lemma sent_after_send k s : sent (after_send k s) = sent s.
Proof. destruct k; simpl; [apply sent_after_created|apply sent_chunk_audio|apply sent_chunk_finish|done|done]. Qed.

Lemma sent_safely x s : sent (safely_returned x s) = sent s ∧ sent (safely_cancelled x s) = sent s ∧ sent (safely_raised x s) = sent s.
Proof. destruct x; cbn [safely_returned safely_cancelled safely_raised]; rewrite ?sent_finally, ?sent_on_cancelled, ?sent_on_exception; done. Qed.

(** A step of the response appends at most the event it was sending. *)
Lemma wire_quiet s s' w : evolves s s' → sent s' = sent s → protocol (cancels s) (sent s) = Some w → wire_ok w s' → wire_inv s'.
Proof. intros He Hs Hw Hok. exists w. split; [|done]. rewrite Hs. eapply protocol_mono; [apply (ev_grows _ _ He)|done]. Qed.
Lemma wire_spoken s s' e w w' : evolves s s' → sent s' = sent s ++ [e] → protocol (cancels s) (sent s) = Some w → accepts (cancels s) e w = Some w' → wire_ok w' s' → wire_inv s'.
Proof.
  intros He Hs Hw Ha Hok. exists w'. split; [|done]. rewrite Hs. eapply protocol_mono; [apply (ev_grows _ _ He)|]. rewrite protocol_snoc, Hw. done.
Qed.

Lemma matches_mid w s : wire_ok w s → (match at_rpc (resp s) with RNext | RShield _ | RAwait _ => True | _ => False end) → mid w s.
Proof. intros Hok Hr Hl. specialize (Hok (or_introl Hl)). unfold matches in Hok. by destruct (at_rpc (resp s)). Qed.

Lemma wire_safely_ends w x s : mid w s → (live s = true → response_done (locs (resp s)) = true) →
  wire_ok w (safely_returned x s) ∧ wire_ok w (safely_cancelled x s) ∧ wire_ok w (safely_raised x s).
Proof.
  intros Hm Hd. destruct x; cbn [safely_returned safely_cancelled safely_raised]; (split; [|split]);
    first [by apply wire_finally|by apply wire_on_cancelled|by apply wire_on_exception|apply wire_finally; [by apply mid_locs|done]].
Qed.

Lemma wire_response i s s' : inv s → wire_inv s → response_tick i s = Some s' → wire_inv s'.
Proof.
  intros H (w & Hw & Hok) Hs. destruct (response_evolves _ _ _ Hs) as [He _]. pose proof (in_phase _ H) as Hph.
  unfold response_tick in Hs. destruct (at_rpc (resp s)) as [| |e k| |x|x|o] eqn:E; [done|..|done];
    destruct (r_cancel (resp s)) eqn:Er, i as [| |c| |d]; try done;
    try match type of Hs with context [match terminal (resp s) with _ => _ end] => destruct (terminal (resp s)) eqn:Et; try done end; injection Hs as <-.
  - (* cancelled before it began *)
    apply (wire_quiet s _ w); try done. unfold phase_ok in Hph. rewrite E in Hph. destruct Hph as ((_ & _ & _ & Ht) & _).
    apply live_not_sending; [intros [(?&?&[=])|(?&?&Hx)]; simpl in Hx; congruence|]. intros Hl. specialize (Hok (or_introl Hl)). unfold matches in *. by rewrite E in Hok.
  - apply (wire_quiet s _ w); try done; [exact (sent_start_response _)|]. unfold phase_ok in Hph. rewrite E in Hph. apply wire_start_response; [apply Hph|].
    intros Hl. specialize (Hok (or_introl Hl)). unfold matches in Hok. by rewrite E in Hok.
  - (* cancelled in a send *)
    destruct (sending_done _ _ _ E Hph) as [Hd Ht]. pose proof (sending_ok _ _ _ E Hph) as [Hev Hk].
    assert (Hm : matches w s) by (apply Hok; right; left; by exists e, k).
    destruct (wire_sent w e k s Hm E Hev (λ _, Hd)) as (w' & Ha & Hpost).
    assert (Hc : live s = true → k ≠ ACreated ∧ is_Some (cancels s !! the_id s)).
    { intros [Hcl _]%live_open. case_decide as Hk'; [pose proof (co_flag _ Hk Er); congruence|]. split; [done|].
      destruct (so_flag _ Hk Er) as [?|Hi]; [congruence|]. rewrite (is_cancelled_iff _ (so_cancel _ Hk)) in Hi. by apply bool_decide_eq_true in Hi. }
    destruct d.
    + apply (wire_spoken s _ e w w'); try done; [exact (sent_on_cancelled _)|]. apply wire_on_cancelled. intros Hl. change (live s = true) in Hl.
      destruct (Hc Hl) as [Hk' Hi]. destruct k; [done|exact Hpost|exact Hpost|by apply Hpost|by apply Hpost].
    + apply (wire_quiet s _ w); try done; [exact (sent_on_cancelled _)|]. apply wire_on_cancelled. intros Hl. change (live s = true) in Hl.
      destruct (Hc Hl) as [Hk' _]. unfold matches in Hm. rewrite E in Hm. by destruct k.
  - (* a send went through *)
    destruct (sending_done _ _ _ E Hph) as [Hd Ht]. pose proof (sending_ok _ _ _ E Hph) as [Hev Hk].
    assert (Hm : matches w s) by (apply Hok; right; left; by exists e, k).
    destruct (wire_sent w e k s Hm E Hev (λ _, Hd)) as (w' & Ha & Hpost).
    apply (wire_spoken s _ e w w'); try done; [exact (sent_after_send _ _)|]. destruct k; simpl in *.
    + destruct Hev as (_ & Htd & Had). apply wire_after_created; try done. intros _. exists false. by subst.
    + apply wire_chunk_audio; [done|]. intros _. exact Hpost.
    + apply wire_chunk_finish; [done|]. intros _. exact Hpost.
    + apply wire_next; [done|]. intros _. apply Hpost.
    + apply wire_next; [done|]. intros _. apply Hpost.
  - apply (wire_quiet s _ w); try done; [exact (sent_on_exception _)|]. apply wire_on_exception. intros [_ Hl]%live_open. done.
  - apply (wire_quiet s _ w); try done; [exact (sent_on_cancelled _)|]. apply wire_on_cancelled. apply (matches_mid _ _ Hok). by rewrite E.
  - apply (wire_quiet s _ w); try done; [exact (sent_on_exception _)|]. apply wire_on_exception, matches_mid; [done|by rewrite E].
  - unfold phase_ok in Hph. rewrite E in Hph. apply (wire_quiet s _ w); try done; [exact (sent_on_chunk _ _)|]. apply wire_on_chunk; [apply Hph|]. apply matches_mid; [done|by rewrite E].
  - apply (wire_quiet s _ w); try done; [exact (sent_end_of_stream _)|]. apply wire_end_of_stream, matches_mid; [done|by rewrite E].
  - (* the shield is cancelled *)
    apply (wire_quiet s _ w); try done. intros [Hl|[(?&?&[=])|Ht]].
    + apply (matches_mid _ _ Hok); [by rewrite E|done].
    + unfold matches. simpl. specialize (Hok (or_intror (or_intror Ht))). unfold matches in Hok. by rewrite E in Hok.
  - apply (wire_quiet s _ w); try done; [apply sent_safely|]. unfold phase_ok in Hph. rewrite E in Hph. destruct Hph as [[_ _ _ Hto _] _]. unfold terminal_ok in Hto. rewrite Et in Hto.
    apply wire_safely_ends; [apply matches_mid; [done|by rewrite E]|done].
  - apply (wire_quiet s _ w); try done; [apply sent_safely|]. unfold phase_ok in Hph. rewrite E in Hph. destruct Hph as [[_ _ _ Hto _] _]. unfold terminal_ok in Hto. rewrite Et in Hto.
    apply wire_safely_ends; [apply matches_mid; [done|by rewrite E]|]. intros [_ Hl]%live_open. destruct Hto. congruence.
  - unfold phase_ok in Hph. rewrite E in Hph. destruct Hph as (_ & _ & Hr). congruence.
  - apply (wire_quiet s _ w); try done; [apply sent_safely|]. unfold phase_ok in Hph. rewrite E in Hph. destruct Hph as ([_ _ _ Hto _] & _). unfold terminal_ok in Hto. rewrite Et in Hto.
    apply wire_safely_ends; [apply matches_mid; [done|by rewrite E]|done].
  - apply (wire_quiet s _ w); try done; [apply sent_safely|]. unfold phase_ok in Hph. rewrite E in Hph. destruct Hph as ([_ _ _ Hto _] & _). unfold terminal_ok in Hto. rewrite Et in Hto.
    apply wire_safely_ends; [apply matches_mid; [done|by rewrite E]|]. intros [_ Hl]%live_open. destruct Hto. congruence.
Qed.

(** *** The terminal task on the wire *)
(** While it runs, the place of the response on the wire is what its marks say. *)
Definition tied (w : wire) (s : session) : Prop := opened w (locs (resp s)) (cancels s).
Definition closing_rpc (p : rpc) : Prop := match p with RShield _ | RAwait _ => True | _ => False end.
Lemma closing_not_sending s : closing_rpc (at_rpc (resp s)) → (∀ t g, terminal (resp s) ≠ TmSending t g) → ¬ sending s.
Proof. intros Hr Ht [(e & k & E)|(t & g & E)]; [by rewrite E in Hr|by apply (Ht t g)]. Qed.
Lemma closing_matches w s : closing_rpc (at_rpc (resp s)) → matches w s = tied w s.
Proof. unfold matches. by destruct (at_rpc (resp s)). Qed.

Lemma wire_terminal_sends w t g s : closing_rpc (at_rpc (resp s)) → mid w s → live s = true → wire_ok w (set_terminal (TmSending t g) s).
Proof. intros Hr Hm Hl _. rewrite closing_matches by done. by apply Hm. Qed.
Lemma wire_terminal_finish w t s : closing_rpc (at_rpc (resp s)) → (live s = true → w = WIdle) → wire_ok w (terminal_finish t s).
Proof.
  intros Hr Hw. unfold terminal_finish. set (s1 := if _ && _ then _ else s).
  assert (H1 : at_rpc (resp s1) = at_rpc (resp s) ∧ live s1 = live s ∧ locs (resp s1) = locs (resp s)) by (unfold s1; by destruct (_ && _)).
  clearbody s1. destruct H1 as (E1 & E2 & E3). apply live_not_sending; [apply closing_not_sending; simpl; [by rewrite E1|done]|].
  intros Hl. rewrite closing_matches by (simpl; by rewrite E1). unfold tied, opened. simpl. apply Hw. by rewrite <- E2.
Qed.
Lemma wire_emit_done w t s : closing_rpc (at_rpc (resp s)) → mid w s → wire_ok w (emit_done t s).
Proof.
  intros Hr Hm. unfold emit_done. destruct (live s) eqn:Hl; [by apply wire_terminal_sends|]. apply wire_terminal_finish; [done|]. by rewrite Hl.
Qed.
Lemma wire_emit_error w t s : closing_rpc (at_rpc (resp s)) → mid w s → wire_ok w (emit_error t s).
Proof.
  intros Hr Hm. unfold emit_error. destruct (t_error t); [|by apply wire_emit_done]. destruct (live s) eqn:Hl; [by apply wire_terminal_sends|by apply wire_emit_done].
Qed.
Lemma mid_dead w s : live s = false → mid w s.
Proof. intros Hl Hl'. congruence. Qed.
Lemma wire_emit_audio_done w t s : closing_rpc (at_rpc (resp s)) → mid w s → wire_ok w (emit_audio_done t s).
Proof.
  intros Hr Hm. unfold emit_audio_done. destruct (_ && _); [|by apply wire_emit_error].
  destruct (live s) eqn:Hl; [by apply wire_terminal_sends|]. apply wire_emit_error; [done|by apply mid_dead].
Qed.
Lemma wire_emit_terminals w t s : closing_rpc (at_rpc (resp s)) → mid w s → wire_ok w (emit_terminals t s).
Proof.
  intros Hr Hm. unfold emit_terminals, emit_text_done. destruct (response_done _).
  { apply live_not_sending; [by apply closing_not_sending|]. intros Hl. rewrite closing_matches by done. by apply Hm. }
  destruct (negb _); [|by apply wire_emit_audio_done]. destruct (live s) eqn:Hl; [by apply wire_terminal_sends|].
  apply wire_emit_audio_done; [done|by apply mid_dead].
Qed.

(** The event of a stage is accepted, and the marks follow. *)
Lemma wire_stage w t g s : tied w s → response_done (locs (resp s)) = false → stage_ok t g (locs (resp s)) →
  ∃ w', accepts (cancels s) (stage_event t g s) w = Some w' ∧
    match g with
    | SText => opened w' (set_dones true false false (locs (resp s))) (cancels s)
    | SAudio => opened w' (set_dones false true false (locs (resp s))) (cancels s)
    | SError => opened w' (locs (resp s)) (cancels s)
    | SDone => w' = WIdle
    end.
Proof.
  unfold tied, opened, the_id. intros Hm Hd Hg. rewrite Hd in Hm. destruct Hm as (t1 & a1 & -> & H1 & H2 & H3 & H4). destruct g; simpl in *.
  - exists (WOpen (l_id (locs (resp s))) true a1). rewrite bool_decide_true by done. split.
    + simpl. destruct t1; [|done]. simpl. destruct (H3 eq_refl); [congruence|]. by rewrite bool_decide_true.
    + rewrite Hd. exists true, a1. split_and!; try done; auto.
  - destruct Hg as [Ht Ha]. exists (WOpen (l_id (locs (resp s))) t1 true). rewrite bool_decide_true by done. split.
    + simpl. destruct a1; [|done]. simpl. destruct (H4 eq_refl); [congruence|]. by rewrite bool_decide_true.
    + rewrite Hd. exists t1, true. split_and!; try done; auto.
  - eexists. split; [done|]. rewrite Hd. by exists t1, a1.
  - destruct Hg as [Ht Ha]. exists WIdle. rewrite bool_decide_true, (H1 Ht) by done. simpl. split; [|done].
    destruct (t_include_audio t); [|done]. by rewrite (H2 (Ha eq_refl)).
Qed.

Lemma wire_terminal i s s' : inv s → wire_inv s → terminal_tick i s = Some s' → wire_inv s'.
Proof.
  intros H (w & Hw & Hok) Hs. destruct (terminal_evolves _ _ _ Hs) as [He Ht]. destruct (terminal_closing _ (in_phase _ H) Ht) as (x & [_ _ _ Hto _] & Hp).
  assert (Hr : closing_rpc (at_rpc (resp s))) by (by destruct Hp as [[-> _]|[-> _]]).
  assert (Hmid : mid w s) by (intros Hl; specialize (Hok (or_introl Hl)); by rewrite closing_matches in Hok).
  unfold terminal_tick in Hs. unfold terminal_ok in Hto. destruct (terminal (resp s)) as [|t|t g| |] eqn:Et, i; try done; injection Hs as <-.
  - apply (wire_quiet s _ w); try done; [|by apply wire_emit_terminals].
    destruct (emit_terminals_changed t s) as (? & ? & ? & ? & ? & -> & _). done.
  - destruct Hto as (Hd & _ & _ & Hg). assert (Hti : tied w s) by (rewrite <- closing_matches by done; apply Hok; right; right; by exists t, g).
    destruct (wire_stage w t g s Hti Hd Hg) as (w' & Ha & Hpost). apply (wire_spoken s _ (stage_event t g s) w w'); try done.
    + destruct (stage_sent_changed t g (emit (stage_event t g s) s)) as (? & ? & ? & ? & ? & -> & _). done.
    + destruct g; cbn [stage_sent].
      * apply wire_emit_audio_done; [done|]. intros _. exact Hpost.
      * apply wire_emit_error; [done|]. intros _. exact Hpost.
      * apply wire_emit_done; [done|]. intros _. exact Hpost.
      * apply wire_terminal_finish; [done|]. intros _. exact Hpost.
  - apply (wire_quiet s _ w); try done. apply live_not_sending; [by apply closing_not_sending|]. intros [_ Hx]%live_open. done.
Qed.

(** *** Everything else on the wire *)
Definition neutral (e : event) : Prop := match e with Truncated _ | SendError _ | Other _ => True | _ => False end.
Lemma wire_neutral s s' l : wire_inv s → sent s' = sent s ++ l → Forall neutral l → (∀ m, is_Some (cancels s !! m) → is_Some (cancels s' !! m)) →
  (live s' = true → live s = true) → at_rpc (resp s') = at_rpc (resp s) ∨ (∃ o, at_rpc (resp s) = REnded o) ∧ at_rpc (resp s') = RNone ∨ at_rpc (resp s) = RNone ∧ at_rpc (resp s') = RStart →
  (at_rpc (resp s') = at_rpc (resp s) → locs (resp s') = locs (resp s)) → ((∃ t g, terminal (resp s') = TmSending t g) → terminal (resp s') = terminal (resp s)) → wire_inv s'.
Proof.
  intros (w & Hw & Hok) Hs Hl Hc Hli Hr Hlo Hte. exists w. split.
  - rewrite Hs. clear Hs. apply (protocol_mono _ _ _ _ Hc). induction l as [|e l IH] using rev_ind; [by rewrite app_nil_r|].
    apply Forall_app in Hl as [Hl He]. apply Forall_inv in He. rewrite (assoc_L app), protocol_snoc, (IH Hl). destruct e; try (exfalso; exact He); by destruct w.
  - intros Hx. unfold matches. destruct Hr as [Hr|[[[o Ho] Hr]|[Ho Hr]]].
    + assert (Hm : matches w s).
      { apply Hok. destruct Hx as [Hx|[(e & k & Hx)|(t & g & Hx)]]; [left; by apply Hli|right; left; exists e, k; congruence|right; right].
        exists t, g. rewrite <- Hte; [done|by exists t, g]. }
      unfold matches in Hm. rewrite Hr, (Hlo Hr). destruct (at_rpc (resp s)) as [| |e k| |x|x|o] eqn:E; try done; [destruct k; [done|..]|..];
        (unfold opened in *; destruct (response_done _); [done|]; destruct Hm as (t & a & ? & ? & ? & H3 & H4); exists t, a; split_and!; try done;
         [intros Ht; destruct (H3 Ht); [by left|right; by apply Hc]|intros Ht; destruct (H4 Ht); [by left|right; by apply Hc]]).
    + rewrite Hr. destruct Hx as [Hx|[(e & k & Hx)|Hx]]; [|congruence|].
      * specialize (Hok (or_introl (Hli Hx))). unfold matches in Hok. by rewrite Ho in Hok.
      * assert (Hm : matches w s) by (apply Hok; right; right; rewrite <- (Hte Hx); done). unfold matches in Hm. by rewrite Ho in Hm.
    + rewrite Hr. destruct Hx as [Hx|[(e & k & Hx)|Hx]]; [|congruence|].
      * specialize (Hok (or_introl (Hli Hx))). unfold matches in Hok. by rewrite Ho in Hok.
      * assert (Hm : matches w s) by (apply Hok; right; right; rewrite <- (Hte Hx); done). unfold matches in Hm. by rewrite Ho in Hm.
Qed.

Lemma sent_turn_finally out s : sent (turn_finally out s) = sent s.
Proof. by destruct out. Qed.
Lemma sent_completed i out acc s : sent (transcription_completed i out acc s) = sent s.
Proof. unfold transcription_completed, turn_returns. destruct (live s); [done|]. by rewrite sent_turn_finally. Qed.
Lemma sent_after_chunk i out acc fin s : sent (after_transcript_chunk i out acc fin s) = sent s.
Proof. unfold after_transcript_chunk. destruct fin; [apply sent_completed|done]. Qed.
Lemma sent_transcript_chunk i out acc c s : sent (on_transcript_chunk i out acc c s) = sent s.
Proof. unfold on_transcript_chunk. destruct (_ && _), (live s); apply sent_after_chunk || done. Qed.

Lemma wire_turn_moves s s' l : wire_inv s → turn_moves s s' → sent s' = sent s ++ l → Forall neutral l → wire_inv s'.
Proof.
  intros H [E1 E2 E3 E4 E5 E6 E7 E8 E9] Hs Hl. eapply wire_neutral; [exact H|exact Hs|exact Hl|by rewrite E3| |by left; rewrite E1|by rewrite E1|by rewrite E1].
  intros [Hc Hco]%live_open. unfold live. rewrite <- E4, Hc. simpl. destruct (connected s); [done|]. by rewrite E8 in Hco.
Qed.
(** The response's part is only put down or taken up. *)
Lemma wire_same_sent s s' : wire_inv s → sent s' = sent s → cancels s' = cancels s → (live s' = true → live s = true) → resp s' = resp s → wire_inv s'.
Proof.
  intros H Hs Hc Hl Hr. eapply (wire_neutral s s' []); [exact H|by rewrite Hs, app_nil_r|done|by rewrite Hc|done|by left; rewrite Hr|by rewrite Hr|by rewrite Hr].
Qed.

Lemma wire_turn i s s' : inv s → wire_inv s → turn_tick i s = Some s' → wire_inv s'.
Proof.
  intros Hi H Hs. unfold turn_tick in Hs.
  assert (Hq : ∀ z l, turn_moves s z → sent z = sent s ++ l → Forall neutral l → wire_inv z) by (intros z l; by apply wire_turn_moves).
  assert (Hq0 : ∀ z, turn_moves s z → sent z = sent s → wire_inv z) by (intros z Hz Ez; apply (Hq z []); [done|by rewrite app_nil_r|done]).
  assert (Hover : ∀ o z, at_rpc (resp s) = REnded o → sent z = sent s → cancels z = cancels s → live z = live s → at_rpc (resp z) = RNone → terminal (resp z) = terminal (resp s) → wire_inv z).
  { intros o z Ho Ez Ec El Er Et. eapply (wire_neutral s z []); [exact H|by rewrite Ez, app_nil_r|done|by rewrite Ec|by rewrite El|right; left; by split; [exists o|]|congruence|done]. }
  destruct (at_turn s) as [|k|k|k out a|k out acc|k out acc fin|k out acc|] eqn:Et; [done|..|done].
  - destruct (t_cancel s) eqn:Ec, i; try done; injection Hs as <-; [by apply (wire_same_sent s)|].
    assert (Hr : at_rpc (resp s) = RNone) by (apply idle_phase; [done|by rewrite Et]).
    eapply (wire_neutral s _ []); [exact H|by rewrite app_nil_r|done|done|done|by right; right|simpl; congruence|by intros (?&?&[=])].
  - destruct i; try done. destruct (at_rpc (resp s)) as [| | | | | |o] eqn:Er; try done. injection Hs as <-.
    assert (Hd : ∀ z, resp z = resp s → sent z = sent s → cancels z = cancels s → live z = live s → wire_inv (turn_dies z))
      by (intros z E1 E2 E3 E4; eapply Hover; try done; by rewrite <- E1).
    assert (He : ∀ z out, resp z = resp s → sent z = sent s → cancels z = cancels s → live z = live s → wire_inv (response_ended k out z)).
    { intros z out E1 E2 E3 E4. unfold response_ended. simpl. destruct (active_response_abort_task z); (eapply Hover; try done; by rewrite <- E1). }
    destruct (t_cancel s), o; unfold on_response_cancelled; try (destruct (_ || _)); by (apply Hd || apply He).
  - destruct (t_cancel s) eqn:Ec, i; try done.
    + injection Hs as <-. by apply (wire_same_sent s).
    + destruct (bool_decide _); [done|]. injection Hs as <-. by apply (wire_same_sent s).
  - destruct (t_cancel s) eqn:Ec, i; try done; injection Hs as <-; apply Hq0;
      try (by apply turn_finally_moves); try apply sent_turn_finally; try (by apply transcript_chunk_moves); try apply sent_transcript_chunk; try (by apply completed_moves); apply sent_completed.
  - destruct (t_cancel s) eqn:Ec, i as [| | | |d]; try done; injection Hs as <-.
    + destruct d; [apply (Hq _ [transcript_delta])|apply Hq0]; try (by apply turn_finally_moves); try exact (sent_turn_finally _ _). by repeat constructor.
    + apply (Hq _ [transcript_delta]); [by apply after_chunk_moves|exact (sent_after_chunk _ _ _ _ _)|by repeat constructor].
    + apply Hq0; [by apply turn_finally_moves|exact (sent_turn_finally _ _)].
  - destruct (t_cancel s) eqn:Ec, i as [| | | |d]; try done; injection Hs as <-.
    + destruct d; [apply (Hq _ [transcript_completed])|apply Hq0]; try (by apply turn_finally_moves); try exact (sent_turn_finally _ _). by repeat constructor.
    + apply (Hq _ [transcript_completed]); [by apply turn_returns_moves|exact (sent_turn_finally _ _)|by repeat constructor].
    + apply Hq0; [by apply turn_finally_moves|exact (sent_turn_finally _ _)].
Qed.

Lemma wire_drain s s' : wire_inv s → drain_tick s = Some s' → wire_inv s'.
Proof.
  intros H Hs. unfold drain_tick in Hs. destruct (at_drainer s) as [| |x|x| |]; try done.
  - destruct (queue s); [done|]. injection Hs as <-. by apply (wire_same_sent s).
  - destruct (closed s) eqn:Ec; injection Hs as <-; by apply (wire_same_sent s).
  - destruct (at_turn s); try done. injection Hs as <-. unfold drain_next. by apply (wire_same_sent s).
Qed.

(** The receive loop adds no event of a response, and may mark one. *)
Record aside (s s' : session) : Prop := {
  as_sent : ∃ l, sent s' = sent s ++ l ∧ Forall neutral l;
  as_cancels : ∀ m, is_Some (cancels s !! m) → is_Some (cancels s' !! m);
  as_live : live s' = true → live s = true;
  as_rpc : at_rpc (resp s') = at_rpc (resp s) ∧ locs (resp s') = locs (resp s) ∧ terminal (resp s') = terminal (resp s);
}.
Lemma wire_aside s s' : wire_inv s → aside s s' → wire_inv s'.
Proof. intros H [(l & E & Hl) Hc Hli (E1 & E2 & E3)]. eapply wire_neutral; [exact H|exact E|exact Hl|exact Hc|exact Hli|by left|done|done]. Qed.
Lemma aside_refl s : aside s s.
Proof. split; try done. exists []. by rewrite app_nil_r. Qed.
Lemma aside_trans s1 s2 s3 : aside s1 s2 → aside s2 s3 → aside s1 s3.
Proof.
  intros [(l & E & Hl) Hc Hli (E1 & E2 & E3)] [(l' & E' & Hl') Hc' Hli' (E1' & E2' & E3')]. split; [|auto|auto|].
  - exists (l ++ l'). rewrite E', E, (assoc_L app). split; [done|]. by apply Forall_app.
  - by rewrite E1', E2', E3'.
Qed.
(** Setters that touch none of it. *)
Lemma aside_same s z s' : aside s z → sent s' = sent z → cancels s' = cancels z → closed s' = closed z → connected s' = connected z →
  at_rpc (resp s') = at_rpc (resp z) ∧ locs (resp s') = locs (resp z) ∧ terminal (resp s') = terminal (resp z) → aside s s'.
Proof.
  intros H E1 E2 E3 E4 E5. eapply aside_trans; [exact H|]. split; [exists []; by rewrite app_nil_r|by rewrite E2|unfold live; by rewrite E3, E4|done].
Qed.
Lemma aside_emit s z e : aside s z → neutral e → aside s (emit e z).
Proof. intros H He. eapply aside_trans; [exact H|]. split; try done. exists [e]. split; [done|by constructor]. Qed.
Lemma aside_dead s z s' : aside s z → sent s' = sent z → cancels s' = cancels z → live s' = false →
  at_rpc (resp s') = at_rpc (resp z) ∧ locs (resp s') = locs (resp z) ∧ terminal (resp s') = terminal (resp z) → aside s s'.
Proof. intros H E1 E2 E3 E5. eapply aside_trans; [exact H|]. split; [exists []; by rewrite app_nil_r|by rewrite E2|by rewrite E3|done]. Qed.

Lemma aside_cancel s z reason : aside s z → aside s (cancel_active_response reason z).
Proof.
  intros H. unfold cancel_active_response. destruct (response_start_pending _); [destruct (pending_response_cancel_reason _); [done|by eapply aside_same]|].
  destruct (active_response_request_id _) as [n|]; [|done]. destruct (_ || _); [done|]. eapply aside_trans; [exact H|].
  unfold cancel_response_task. simpl. split.
  - exists []. rewrite app_nil_r. by destruct (running _).
  - intros m Hm. enough (is_Some (<[n:=reason]> (cancels z) !! m)) by (by destruct (running _)). rewrite lookup_insert_is_Some'. by right.
  - unfold live. simpl. by destruct (running _).
  - simpl. by destruct (running _).
Qed.
Lemma aside_loop_send s z e k g : aside s z → (∀ y, aside s y → aside s (g y)) → aside s (loop_send e k g z).
Proof. intros H Hg. unfold loop_send. destruct (live z); [by eapply aside_same|by apply Hg]. Qed.
Lemma aside_handler_done s z : aside s z → aside s (handler_done z).
Proof. intros H. by eapply aside_same. Qed.
Lemma aside_enqueue s z x : aside s z → aside s (enqueue x z).
Proof. intros H. by eapply aside_same. Qed.
Lemma aside_commit s z u : aside s z → aside s (commit u z).
Proof. intros H. destruct u; simpl; [|by eapply aside_same]. apply aside_loop_send; [done|]. intros y. apply aside_enqueue. Qed.
Lemma aside_interrupt s z : aside s z → aside s (interrupt z).
Proof. intros H. unfold interrupt. destruct (_ && _); apply aside_handler_done; [by apply aside_cancel|done]. Qed.
Lemma aside_teardown s z : aside s z → aside s (teardown z).
Proof.
  intros H. unfold teardown. set (y := set_closed z).
  assert (E : sent (cancel_turn y) = sent z ∧ cancels (cancel_turn y) = cancels z ∧ live (cancel_turn y) = false ∧
    at_rpc (resp (cancel_turn y)) = at_rpc (resp z) ∧ locs (resp (cancel_turn y)) = locs (resp z) ∧ terminal (resp (cancel_turn y)) = terminal (resp z)).
  { unfold cancel_turn. destruct (at_turn y); try done. by destruct (running _). }
  destruct E as (E1 & E2 & E3 & E4). by eapply aside_dead.
Qed.
Lemma aside_truncate s z i c : aside s z → aside s (handle_conversation_item_truncate i c z).
Proof.
  intros H. assert (Hs : ∀ e y, aside s y → aside s (loop_send e HDone handler_done y)) by (intros e y Hy; apply aside_loop_send; [done|apply aside_handler_done]).
  unfold handle_conversation_item_truncate. destruct (negb _); [by apply Hs|]. destruct i as [k|n]; [by apply Hs|].
  destruct (bool_decide (n ∈ pending_assistant_item_ids _)); [apply Hs; by eapply aside_same|].
  destruct (bool_decide (n ∈ cancelled_assistant_item_ids _)); [apply Hs; by eapply aside_same|].
  destruct (delete_first _ _); apply Hs; [by eapply aside_same|done].
Qed.

(** What the turn leaves alone. *)
Definition turn_outer (s : session) := (closed s, audio_modality s, (active_response_abort_task s, abort_tasks s), (speech_idle s, queue s, put s), (at_drainer s, at_loop s), truncations s, cancels s).
Lemma turn_keeps i s s' : turn_tick i s = Some s' → turn_outer s' = turn_outer s ∧ (live s' = true → live s = true).
Proof.
  assert (Hf : ∀ out z, turn_outer (turn_finally out z) = turn_outer z ∧ live (turn_finally out z) = live z) by (by intros []).
  assert (Hc : ∀ k out acc z, turn_outer (transcription_completed k out acc z) = turn_outer z ∧ live (transcription_completed k out acc z) = live z)
    by (intros k out acc z; unfold transcription_completed; destruct (live z) eqn:El; [by rewrite <- El|]; unfold turn_returns; destruct (Hf out (set_hist (set_conversation
         (λ l, l ++ turn_items k (the_id z) (String.concat "" acc) out (truncated_assistant_item_ids (hist z)))) z)) as [-> ->]; by rewrite <- El).
  assert (Ha : ∀ k out acc fin z, turn_outer (after_transcript_chunk k out acc fin z) = turn_outer z ∧ live (after_transcript_chunk k out acc fin z) = live z)
    by (intros k out acc fin z; unfold after_transcript_chunk; destruct fin; [apply Hc|done]).
  assert (Ht : ∀ k out acc c z, turn_outer (on_transcript_chunk k out acc c z) = turn_outer z ∧ live (on_transcript_chunk k out acc c z) = live z)
    by (intros k out acc c z; unfold on_transcript_chunk; destruct (_ && _), (live z) eqn:El; rewrite <- ?El; first [apply Ha|done]).
  assert (Hd : ∀ z, turn_outer (turn_dies z) = turn_outer z ∧ live (turn_dies z) = live z) by done.
  assert (He : ∀ k out z, turn_outer (response_ended k out z) = turn_outer z ∧ live (response_ended k out z) = live z)
    by (intros k out z; unfold response_ended; simpl; by destruct (active_response_abort_task z)).
  assert (Ho : ∀ k z, turn_outer (on_response_cancelled k z) = turn_outer z ∧ live (on_response_cancelled k z) = live z)
    by (intros k z; unfold on_response_cancelled; destruct (_ || _); first [apply Hd|apply He]).
  assert (Hlift : ∀ z y, turn_outer z = turn_outer y ∧ live z = live y → turn_outer y = turn_outer s → (live y = true → live s = true) → turn_outer z = turn_outer s ∧ (live z = true → live s = true))
    by (intros z y [-> ->]; done).
  assert (Hdis : live (disconnect s) = true → live s = true) by (by intros [_ ?]%live_open).
  unfold turn_tick. intros Hs. destruct (at_turn s) as [|k|k|k out a|k out acc|k out acc fin|k out acc|]; [done|..|done].
  - destruct (t_cancel s), i; try done; by injection Hs as <-.
  - destruct i; try done. destruct (at_rpc (resp s)); try done. injection Hs as <-.
    destruct (t_cancel s); [eapply Hlift; [apply Ho|done|done]|].
    destruct o; [eapply Hlift; [apply He|done|done]|eapply Hlift; [apply Ho|done|done]|eapply Hlift; [apply Hd|done|done]].
  - destruct (t_cancel s), i; try done; [by injection Hs as <-|]. destruct (bool_decide _); [done|by injection Hs as <-].
  - destruct (t_cancel s), i; try done; injection Hs as <-; (eapply Hlift; [first [apply Hf|apply Ht|apply Hc]|done|done]).
  - destruct (t_cancel s), i as [| | | |[]]; try done; injection Hs as <-; (eapply Hlift; [first [apply Hf|apply Ha]|done|done]).
  - destruct (t_cancel s), i as [| | | |[]]; try done; injection Hs as <-; (eapply Hlift; [apply Hf|done|done]).
Qed.
Lemma turn_outer_eqs s s' : turn_outer s' = turn_outer s → closed s' = closed s ∧ queue s' = queue s ∧ put s' = put s ∧ at_drainer s' = at_drainer s ∧ at_loop s' = at_loop s ∧
  truncations s' = truncations s ∧ cancels s' = cancels s.
Proof. unfold turn_outer. intros H. injection H. intros. repeat split; assumption. Qed.

(** The receive loop sends no event of a response. *)
Definition loop_ok (s : session) : Prop := match at_loop s with LSending e _ => neutral e | _ => True end.
Lemma loop_ok_send e k g z : neutral e → (∀ y, loop_ok (g y)) → loop_ok (loop_send e k g z).
Proof. intros He Hg. unfold loop_send. destruct (live z); [exact He|apply Hg]. Qed.
Lemma loop_ok_truncate i c z : loop_ok (handle_conversation_item_truncate i c z).
Proof.
  assert (Hd : ∀ e y, neutral e → loop_ok (loop_send e HDone handler_done y)) by (intros e y He; by apply loop_ok_send).
  unfold handle_conversation_item_truncate. repeat case_match; by apply Hd.
Qed.
Lemma loop_cancel reason z : at_loop (cancel_active_response reason z) = at_loop z.
Proof.
  unfold cancel_active_response. destruct (response_start_pending _); [by destruct (pending_response_cancel_reason _)|].
  destruct (active_response_request_id _); [|done]. destruct (_ || _); [done|]. unfold cancel_response_task. simpl. by destruct (running _).
Qed.
Lemma loop_ok_tick i s s' : loop_tick i s = Some s' → loop_ok s'.
Proof.
  assert (Hi : ∀ z, loop_ok (interrupt z)) by (intros z; unfold interrupt; by destruct (_ && _)).
  assert (Hc : ∀ u z, loop_ok (commit u z)) by (intros [x|] z; [by apply loop_ok_send|done]).
  unfold loop_tick. destruct (at_loop s) as [|e k|a|a| |] eqn:El, i as [ev| |]; intros Hs; try done; try (by injection Hs as <-).
  - injection Hs as <-. destruct ev as [|j c|a b acc| | |u|]; simpl; try (by apply loop_ok_send).
    + unfold loop_ok. by rewrite loop_cancel, El.
    + apply loop_ok_truncate.
    + destruct acc; by apply loop_ok_send.
    + done.
  - injection Hs as <-. destruct k; simpl; [done|apply Hi|apply Hc|done].
  - destruct (at_turn s); try done; by injection Hs as <-.
  - destruct (match a with Some n => _ | None => false end); [done|]. injection Hs as <-. destruct (at_drainer s); done.
Qed.
Lemma loop_ok_step s s' : inv s → loop_ok s → step s s' → loop_ok s'.
Proof.
  intros Hi H Hs. destruct Hs as [i s' Hs|i s' Hs|i s' Hs|s' Hs|i s' Hs|n Hn|]; try done.
  - destruct (response_evolves _ _ _ Hs) as [He _]. destruct (outer_eqs _ _ (ev_outer _ _ He)) as (_ & _ & _ & _ & _ & E & _). unfold loop_ok. by rewrite E.
  - destruct (terminal_evolves _ _ _ Hs) as [He _]. destruct (outer_eqs _ _ (ev_outer _ _ He)) as (_ & _ & _ & _ & _ & E & _). unfold loop_ok. by rewrite E.
  - destruct (turn_keeps _ _ _ Hs) as [(_ & _ & _ & _ & E & _)%turn_outer_eqs _]. unfold loop_ok. by rewrite E.
  - unfold drain_tick in Hs. destruct (at_drainer s); try done; [destruct (queue s)|destruct (closed s)|destruct (at_turn s)]; try done; by injection Hs as <-.
  - by eapply loop_ok_tick.
Qed.

Lemma loop_aside i s s' : loop_ok s → loop_tick i s = Some s' → aside s s'.
Proof.
  intros Hl Hs. unfold loop_tick in Hs. unfold loop_ok in Hl. pose proof (aside_refl s) as Hr.
  destruct (at_loop s) as [|e k|a|a| |] eqn:El, i as [ev| |]; try done; try (injection Hs as <-; by eapply aside_same).
  - injection Hs as <-. destruct ev as [|j c|a b acc| | |u|]; simpl.
    + by apply aside_cancel.
    + by apply aside_truncate.
    + destruct acc; (apply aside_loop_send; [|intros y; apply aside_handler_done]); [by eapply aside_same|done].
    + apply aside_loop_send; [by eapply aside_same|intros y; apply aside_handler_done].
    + apply aside_loop_send; [by eapply aside_same|intros y; apply aside_interrupt].
    + apply aside_loop_send; [done|intros y; apply aside_commit].
    + by apply aside_teardown.
  - injection Hs as <-. pose proof (aside_emit _ _ e Hr Hl) as He.
    destruct k; simpl; [by apply aside_handler_done|by apply aside_interrupt|by apply aside_commit|by apply aside_enqueue].
  - injection Hs as <-. unfold loop_send_raised. apply aside_teardown.
    assert (Hd : aside s (disconnect s)) by (eapply aside_dead; try done; unfold live; simpl; by rewrite andb_false_r). destruct k; try done. by eapply aside_same.
  - destruct (at_turn s); try done; injection Hs as <-; by eapply aside_same.
  - destruct (match a with Some n => _ | None => false end); [done|]. injection Hs as <-.
    unfold drainer_cancelled. destruct (at_drainer s); by eapply aside_same.
Qed.

Lemma wire_loop i s s' : loop_ok s → wire_inv s → loop_tick i s = Some s' → wire_inv s'.
Proof. intros Hl H Hs. apply (wire_aside _ _ H). by eapply loop_aside. Qed.

Lemma wire_step s s' : inv s → loop_ok s → wire_inv s → step s s' → wire_inv s'.
Proof.
  intros Hi Hl H Hs. destruct Hs as [i s' Hs|i s' Hs|i s' Hs|s' Hs|i s' Hs|n Hn|].
  - by eapply wire_response.
  - by eapply wire_terminal.
  - by eapply wire_turn.
  - by eapply wire_drain.
  - by eapply wire_loop.
  - by apply (wire_same_sent s).
  - apply (wire_aside _ _ H). apply (aside_dead s s); try done; [apply aside_refl|]. unfold live. simpl. by rewrite andb_false_r.
Qed.

(** ** The status of a response *)
Definition early (p : rpc) : bool := match p with RStart | RSending _ _ | RNext => true | _ => false end.
Definition status_ok (cs : gmap nat string) (n : nat) (st : status) (reason : string) : Prop :=
  (st = Cancelled → cs !! n = Some reason) ∧ (st ≠ Cancelled → cs !! n = None).
Definition done_event (e : event) : Prop := match e with ResponseDone _ _ _ _ _ _ => True | _ => False end.
Definition status_inv (s : session) : Prop := ∀ n st reason text audio u, ResponseDone n st reason text audio u ∈ sent s →
  status_ok (cancels s) n st reason ∧ n < length (turns s) ∧ (early (at_rpc (resp s)) = true → n ≠ the_id s).

(** Cancellations are noted for the running response alone, before its terminal events. *)
Definition notes_ok (s s' : session) : Prop :=
  (∀ m, m ≠ the_id s → cancels s' !! m = cancels s !! m) ∧ (early (at_rpc (resp s)) = false → cancels s' = cancels s).

Lemma status_keep s s' : status_inv s → (∀ e, done_event e → e ∈ sent s' → e ∈ sent s) → notes_ok s s' → length (turns s) ≤ length (turns s') →
  (early (at_rpc (resp s')) = true → early (at_rpc (resp s)) = true ∧ the_id s' = the_id s ∨ length (turns s) ≤ the_id s') → status_inv s'.
Proof.
  intros H Hs [Hm Hn] Ht He n st reason text audio u Hin. destruct (H n st reason text audio u) as (H1 & H2 & H3); [by apply Hs|].
  split; [|split; [lia|]].
  - destruct (early (at_rpc (resp s))) eqn:E; [|by rewrite Hn]. unfold status_ok. rewrite Hm by (by apply H3). done.
  - intros Hx. destruct (He Hx) as [[Hy ->]|Hy]; [by apply H3|lia].
Qed.

Lemma not_done_snoc s s' e : sent s' = sent s ++ [e] → ¬ done_event e → ∀ x, done_event x → x ∈ sent s' → x ∈ sent s.
Proof. intros -> He x Hx [?|Hi]%elem_of_app; [done|]. by apply list_elem_of_singleton in Hi as ->. Qed.
Lemma same_sent s s' : sent s' = sent s → ∀ x : event, done_event x → x ∈ sent s' → x ∈ sent s.
Proof. by intros ->. Qed.
Lemma neutral_sent s s' l : sent s' = sent s ++ l → Forall neutral l → ∀ x, done_event x → x ∈ sent s' → x ∈ sent s.
Proof. intros -> Hl x Hx [?|Hi]%elem_of_app; [done|]. rewrite Forall_forall in Hl. specialize (Hl x Hi). by destruct x. Qed.

Lemma closing_outcome x s : (∀ o, early (at_rpc (resp (run_response_finally o s))) = false ∧ cancels (run_response_finally o s) = cancels s) ∧
  (early (at_rpc (resp (on_cancelled s))) = false ∧ cancels (on_cancelled s) = cancels s) ∧ (early (at_rpc (resp (on_exception s))) = false ∧ cancels (on_exception s) = cancels s) ∧
  (early (at_rpc (resp (safely_returned x s))) = false ∧ cancels (safely_returned x s) = cancels s) ∧
  (early (at_rpc (resp (safely_cancelled x s))) = false ∧ cancels (safely_cancelled x s) = cancels s) ∧
  (early (at_rpc (resp (safely_raised x s))) = false ∧ cancels (safely_raised x s) = cancels s).
Proof.
  assert (Hf : ∀ o z, early (at_rpc (resp (run_response_finally o z))) = false ∧ cancels (run_response_finally o z) = cancels z) by (intros o z; by rewrite finally_eq).
  assert (Hc : ∀ z, early (at_rpc (resp (on_cancelled z))) = false ∧ cancels (on_cancelled z) = cancels z) by (intros z; unfold on_cancelled; destruct (response_done _); [apply Hf|done]).
  assert (He : ∀ z, early (at_rpc (resp (on_exception z))) = false ∧ cancels (on_exception z) = cancels z).
  { intros z. unfold on_exception. destruct (response_done _); [|done]. destruct (Hf (OOk "") (claim_terminal z)) as [-> ->]. done. }
  split_and!; try apply Hc; try apply He; try (intros o; apply Hf); destruct x; cbn [safely_returned safely_cancelled safely_raised]; try apply Hc; try apply He; try apply Hf.
  all: exact (proj1 (Hf (OOk text) (set_locs (set_retain retain) s))) || exact (proj2 (Hf (OOk text) (set_locs (set_retain retain) s))).
Qed.

Lemma event_not_done e k l : event_ok e k l → ¬ done_event e.
Proof. destruct k; simpl; [intros [-> _]|intros [? ->]|intros [? ->]|intros (? & -> & _)|intros [-> _]]; by intros []. Qed.

Lemma response_sent i s s' : response_tick i s = Some s' → sent s' = sent s ∨ ∃ e k, at_rpc (resp s) = RSending e k ∧ sent s' = sent s ++ [e].
Proof.
  intros Hs. unfold response_tick in Hs. destruct (at_rpc (resp s)) as [| |e k| |x|x|o] eqn:E; try done;
    destruct (r_cancel (resp s)), i as [| |c| |d]; try done;
    try match type of Hs with context [match terminal (resp s) with _ => _ end] => destruct (terminal (resp s)); try done end; injection Hs as <-.
  - by left.
  - left. apply sent_start_response.
  - destruct d; [right; exists e, k; split; [done|]; exact (sent_on_cancelled _)|left; exact (sent_on_cancelled _)].
  - right. exists e, k. split; [done|]. exact (sent_after_send _ _).
  - left. exact (sent_on_exception _).
  - left. exact (sent_on_cancelled _).
  - left. apply sent_on_exception.
  - left. apply sent_on_chunk.
  - left. apply sent_end_of_stream.
  - by left.
  - left. apply sent_safely.
  - left. apply sent_safely.
  - left. exact (proj1 (proj2 (sent_safely _ _))).
  - left. apply sent_safely.
  - left. apply sent_safely.
Qed.

Lemma status_response i s s' : inv s → status_inv s → response_tick i s = Some s' → status_inv s'.
Proof.
  intros Hi H Hs. destruct (response_evolves _ _ _ Hs) as [He Hr]. pose proof (outer_id _ _ (ev_outer _ _ He)) as Hid.
  destruct (outer_eqs _ _ (ev_outer _ _ He)) as (_ & Et & _).
  assert (Hclosing : early (at_rpc (resp s)) = false → early (at_rpc (resp s')) = false ∧ cancels s' = cancels s).
  { intros Hx. unfold response_tick in Hs. destruct (at_rpc (resp s)) as [| |e k| |x|x|o] eqn:E; try done;
      destruct (r_cancel (resp s)), i as [| |c| |d]; try done;
      try match type of Hs with context [match terminal (resp s) with _ => _ end] => destruct (terminal (resp s)); try done end; injection Hs as <-;
      first [done|apply (closing_outcome x s)|exact (proj1 (proj2 (proj2 (proj2 (proj2 (closing_outcome x (set_terminal TmNone (set_r_cancel false s))))))))]. }
  apply (status_keep s); [done| |split|by rewrite Et|].
  - destruct (response_sent _ _ _ Hs) as [E|(e & k & E & Es)]; [by apply same_sent|]. eapply not_done_snoc; [exact Es|].
    destruct (sending_ok _ _ _ E (in_phase _ Hi)) as [Hev _]. by eapply event_not_done.
  - apply (ev_keeps _ _ He).
  - intros Hx. by apply Hclosing.
  - intros Hx. left. split; [|done]. destruct (early (at_rpc (resp s))) eqn:E; [done|]. destruct (Hclosing eq_refl) as [Hy _]. congruence.
Qed.

Lemma status_terminal i s s' : inv s → status_inv s → terminal_tick i s = Some s' → status_inv s'.
Proof.
  intros Hi H Hs. destruct (terminal_evolves _ _ _ Hs) as [He Ht]. destruct (terminal_closing _ (in_phase _ Hi) Ht) as (x & [_ _ _ Hto _] & Hp).
  assert (Hr : early (at_rpc (resp s)) = false) by (by destruct Hp as [[-> _]|[-> _]]).
  assert (Hid : S (the_id s) = length (turns s)).
  { apply (in_id _ Hi). destruct (proj1 (in_await _ Hi)) as [k ->]; [by destruct Hp as [[-> _]|[-> _]]|done]. }
  destruct (terminal_tick_rpc _ _ _ Hs) as (E1 & _ & _ & E4 & _). destruct (outer_eqs _ _ (ev_outer _ _ He)) as (_ & Et & _).
  assert (Hkeep : ∀ e, (∀ y, done_event y → y ∈ sent s' → y ∈ sent s ∨ y = e) →
    (∀ n st reason text audio u, e = ResponseDone n st reason text audio u → status_ok (cancels s) n st reason ∧ n = the_id s) → status_inv s').
  { intros e Hin Hok n st reason text audio u Hn. rewrite E1, E4, Et, Hr. destruct (Hin (ResponseDone n st reason text audio u) I Hn) as [Hold| <-].
    - destruct (H _ _ _ _ _ _ Hold) as (H1 & H2 & _). by split_and!.
    - destruct (Hok _ _ _ _ _ _ eq_refl) as [H1 ->]. split_and!; [done|lia|done]. }
  destruct (terminal_tick_changed _ _ _ Hs) as [(? & _ & ? & ? & ? & ? & ? & -> & _)|[(t & g & Eg & (? & ? & ? & ? & ? & -> & _))| ->]].
  - apply (Hkeep (Other "")); [by left|done].
  - unfold terminal_ok in Hto. rewrite Eg in Hto. destruct Hto as (_ & [T1 T2 T3] & Hc & _). apply (Hkeep (stage_event t g s)).
    + intros y _ Hy. simpl in Hy. apply elem_of_app in Hy as [?|Hy]; [by left|right; by apply list_elem_of_singleton in Hy].
    + intros n st reason text audio u. destruct g; simpl; intros [=]. subst. by split.
  - apply (Hkeep (Other "")); [by left|done].
Qed.

Lemma status_aside s s' : status_inv s → aside s s' → notes_ok s s' → turns s' = turns s → status_inv s'.
Proof.
  intros H [(l & E & Hl) _ _ (E1 & E2 & E3)] Hn Et. apply (status_keep s); [done|by eapply neutral_sent|done|by rewrite Et|].
  rewrite E1. unfold the_id. rewrite E2. by left.
Qed.

(** The turn keeps the response, puts it down or begins it. *)
Lemma turn_resp i s s' : turn_tick i s = Some s' → (resp s' = resp s ∧ turns s' = turns s) ∨
  (at_rpc (resp s') = RNone ∧ locs (resp s') = locs (resp s) ∧ turns s' = turns s) ∨ ∃ k, at_turn s = TStart k ∧ s' = begin_response k s.
Proof.
  intros Hs. assert (Hm : turn_moves s s' → resp s' = resp s ∧ turns s' = turns s) by (by intros []).
  assert (Hq : turn_base s s) by done. assert (Hqe : ∀ e, turn_base s (emit e s)) by done. assert (Hqd : turn_base s (disconnect s)) by done.
  unfold turn_tick in Hs. destruct (at_turn s) as [|k|k|k out a|k out acc|k out acc fin|k out acc|] eqn:Et; [done|..|done].
  - destruct (t_cancel s), i; try done; injection Hs as <-; [by left|right; right; by exists k].
  - destruct i; try done. destruct (at_rpc (resp s)); try done. injection Hs as <-. right. left.
    unfold on_response_cancelled, response_ended. destruct (t_cancel s), o; simpl; repeat case_match; done.
  - destruct (t_cancel s), i; try done; [|destruct (bool_decide _); [done|]]; injection Hs as <-; by left.
  - left. apply Hm. destruct (t_cancel s), i; try done; injection Hs as <-; first [by apply turn_finally_moves|by apply transcript_chunk_moves|by apply completed_moves].
  - left. apply Hm. destruct (t_cancel s), i as [| | | |[]]; try done; injection Hs as <-; first [by apply turn_finally_moves|by apply after_chunk_moves].
  - left. apply Hm. destruct (t_cancel s), i as [| | | |[]]; try done; injection Hs as <-; first [by apply turn_finally_moves|by apply turn_returns_moves].
Qed.

Lemma status_turn i s s' : inv s → status_inv s → turn_tick i s = Some s' → status_inv s'.
Proof.
  intros Hi H Hs. destruct (turn_keeps _ _ _ Hs) as [(_ & _ & _ & _ & _ & _ & Ec)%turn_outer_eqs _].
  assert (Hx : sent s' = sent s ∨ (∃ e, neutral e ∧ sent s' = sent s ++ [e])).
  { unfold turn_tick in Hs. destruct (at_turn s) as [|k|k|k out a|k out acc|k out acc fin|k out acc|]; [done|..|done].
    - destruct (t_cancel s), i; try done; injection Hs as <-; by left.
    - destruct i; try done. destruct (at_rpc (resp s)); try done. injection Hs as <-. left.
      unfold on_response_cancelled, response_ended. destruct (t_cancel s), o; simpl; repeat case_match; done.
    - destruct (t_cancel s), i; try done; [|destruct (bool_decide _); [done|]]; injection Hs as <-; by left.
    - destruct (t_cancel s), i; try done; injection Hs as <-; left; first [apply sent_turn_finally|apply sent_transcript_chunk|apply sent_completed].
    - destruct (t_cancel s), i as [| | | |[]]; try done; injection Hs as <-; try (left; exact (sent_turn_finally _ _)); right; exists transcript_delta; (split; [done|]);
        first [exact (sent_turn_finally _ _)|exact (sent_after_chunk _ _ _ _ _)].
    - destruct (t_cancel s), i as [| | | |[]]; try done; injection Hs as <-; try (left; exact (sent_turn_finally _ _)); right; exists transcript_completed; (split; [done|]);
        exact (sent_turn_finally _ _). }
  destruct (turn_resp _ _ _ Hs) as [(Er & Et)|[(Er & El & Et)|(k & Hk & ->)]].
  - apply (status_keep s); [done| |by split; [intros; by rewrite Ec|]|by rewrite Et|rewrite Er; unfold the_id; rewrite Er; by left].
    destruct Hx as [E|(e & He & E)]; [by apply same_sent|]. eapply neutral_sent; [exact E|by repeat constructor].
  - apply (status_keep s); [done| |by split; [intros; by rewrite Ec|]|by rewrite Et|by rewrite Er].
    destruct Hx as [E|(e & He & E)]; [by apply same_sent|]. eapply neutral_sent; [exact E|by repeat constructor].
  - apply (status_keep s); [done|by apply same_sent|done|simpl; rewrite length_app; lia|]. intros _. right. done.
Qed.

(** Cancelling notes the running response, or nothing. *)
Lemma stream_early s : phase_ok s → stream_ok s → running (at_rpc (resp s)) = true → early (at_rpc (resp s)) = true.
Proof.
  unfold phase_ok. intros H Hst Hr. destruct (at_rpc (resp s)) as [| |e k| |x|x|o]; try done.
  - destruct H as [Hc _]. pose proof (cl_finalized _ _ Hc) as E. by rewrite (so_finalized _ Hst) in E.
  - destruct H as [Hc _]. pose proof (cl_finalized _ _ Hc) as E. by rewrite (so_finalized _ Hst) in E.
Qed.
Lemma notes_refl s s' : cancels s' = cancels s → notes_ok s s'.
Proof. intros E. split; [intros; by rewrite E|done]. Qed.
Lemma notes_cancel reason s : phase_ok s → notes_ok s (cancel_active_response reason s).
Proof.
  intros H. destruct (cancel_cases reason s H) as [E|[(_ & E)|(Hst & Hr & _ & E)]]; rewrite E; [by apply notes_refl|by apply notes_refl|].
  split; [intros m Hm; simpl; by rewrite lookup_insert_ne|]. by rewrite (stream_early s).
Qed.
Lemma notes_loop i s s' : inv s → loop_tick i s = Some s' → notes_ok s s'.
Proof.
  intros Hi Hs. assert (Hsend : ∀ e k g z, cancels z = cancels s → notes_ok s (g z) → notes_ok s (loop_send e k g z)) by (intros e k g z Ez Hg; unfold loop_send; destruct (live z); [by apply notes_refl|done]).
  assert (Hint : ∀ z, inv z → cancels z = cancels s → the_id z = the_id s → at_rpc (resp z) = at_rpc (resp s) → notes_ok s (interrupt z)).
  { intros z Hz Ec Eid Er. unfold interrupt. destruct (_ && _); [|by apply notes_refl]. destruct (notes_cancel "turn_detected" z (in_phase _ Hz)) as [H1 H2].
    unfold notes_ok. simpl. rewrite <- Ec, <- Eid, <- Er. by split. }
  assert (Hcom : ∀ u z, cancels z = cancels s → notes_ok s (commit u z)) by (intros [x|] z Ez; simpl; [apply Hsend; [done|by apply notes_refl]|by apply notes_refl]).
  assert (Htd : ∀ z, cancels z = cancels s → notes_ok s (teardown z)).
  { intros z Ez. apply notes_refl. unfold teardown, cancel_turn. simpl. destruct (at_turn z); try done. by destruct (running _). }
  unfold loop_tick in Hs. destruct (at_loop s) as [|e k|a|a| |] eqn:El, i as [ev| |]; try done; try (injection Hs as <-; by apply notes_refl).
  - injection Hs as <-. destruct ev as [|j c|a b acc| | |u|]; simpl.
    + by apply notes_cancel, (in_phase _ Hi).
    + unfold handle_conversation_item_truncate. repeat case_match; apply Hsend; try done; by apply notes_refl.
    + destruct acc; apply Hsend; try done; by apply notes_refl.
    + apply Hsend; [done|by apply notes_refl].
    + apply Hsend; [done|]. apply Hint; [|done..]. by apply (inv_queue false [] []).
    + apply Hsend; [done|by apply Hcom].
    + by apply Htd.
  - injection Hs as <-. destruct k; simpl; [by apply notes_refl|apply Hint; [by apply inv_sent_event|done..]|by apply Hcom|by apply notes_refl].
  - injection Hs as <-. unfold loop_send_raised. apply Htd. by destruct k.
  - destruct (at_turn s); try done; injection Hs as <-; by apply notes_refl.
  - destruct (match a with Some n => _ | None => false end); [done|]. injection Hs as <-. apply notes_refl. unfold drainer_cancelled. by destruct (at_drainer s).
Qed.

Lemma turns_teardown s : turns (teardown s) = turns s.
Proof. unfold teardown, cancel_turn. simpl. destruct (at_turn s); try done. by destruct (running _). Qed.
Lemma turns_cancel reason s : turns (cancel_active_response reason s) = turns s.
Proof.
  unfold cancel_active_response. destruct (response_start_pending _); [by destruct (pending_response_cancel_reason _)|].
  destruct (active_response_request_id _); [|done]. destruct (_ || _); [done|]. unfold cancel_response_task. simpl. by destruct (running _).
Qed.
Lemma turns_loop i s s' : loop_tick i s = Some s' → turns s' = turns s.
Proof.
  intros Hs. assert (Hsend : ∀ e k g z, turns z = turns s → (∀ y, turns y = turns s → turns (g y) = turns s) → turns (loop_send e k g z) = turns s)
    by (intros e k g z Ez Hg; unfold loop_send; destruct (live z); [done|by apply Hg]).
  assert (Hint : ∀ z, turns z = turns s → turns (interrupt z) = turns s) by (intros z Ez; unfold interrupt; destruct (_ && _); simpl; by rewrite ?turns_cancel).
  assert (Hcom : ∀ u z, turns z = turns s → turns (commit u z) = turns s) by (intros [x|] z Ez; simpl; [by apply Hsend|done]).
  unfold loop_tick in Hs. destruct (at_loop s) as [|e k|a|a| |] eqn:El, i as [ev| |]; try done; try (by injection Hs as <-).
  - injection Hs as <-. destruct ev as [|j c|a b acc| | |u|]; simpl.
    + by apply turns_cancel.
    + unfold handle_conversation_item_truncate. repeat case_match; by apply Hsend.
    + destruct acc; by apply Hsend.
    + by apply Hsend.
    + by apply Hsend.
    + by apply Hsend, Hcom.
    + exact (turns_teardown s).
  - injection Hs as <-. destruct k as [| |u|x]; [done|by apply (Hint (emit e s))|by apply (Hcom u (emit e s))|done].
  - injection Hs as <-. unfold loop_send_raised. cbv zeta. rewrite turns_teardown. by destruct k.
  - destruct (at_turn s); try done; by injection Hs as <-.
  - destruct (match a with Some n => _ | None => false end); [done|]. injection Hs as <-. unfold drainer_cancelled. by destruct (at_drainer s).
Qed.

Lemma status_drain s s' : status_inv s → drain_tick s = Some s' → status_inv s'.
Proof.
  intros H Hs. assert (E : sent s' = sent s ∧ cancels s' = cancels s ∧ turns s' = turns s ∧ resp s' = resp s).
  { unfold drain_tick in Hs. destruct (at_drainer s); try done; [destruct (queue s)|destruct (closed s)|destruct (at_turn s)]; try done; by injection Hs as <-. }
  destruct E as (E1 & E2 & E3 & E4). apply (status_keep s); [done|by apply same_sent|by apply notes_refl|by rewrite E3|]. unfold the_id. rewrite E4. by left.
Qed.
Lemma status_step s s' : inv s → loop_ok s → status_inv s → step s s' → status_inv s'.
Proof.
  intros Hi Hl H Hs. destruct Hs as [i s' Hs|i s' Hs|i s' Hs|s' Hs|i s' Hs|n Hn|].
  - by eapply status_response.
  - by eapply status_terminal.
  - by eapply status_turn.
  - by eapply status_drain.
  - apply (status_aside s); [done|by eapply loop_aside|by eapply notes_loop|by eapply turns_loop].
  - apply (status_keep s); [done|done|done|done|by left].
  - apply (status_keep s); [done|done|done|done|by left].
Qed.

(** ** The history *)
(** What a step of the response does to what its turn will report. *)
Definition fits (x : ctx) (l : locals) : Prop := match x with InBody text retain => text ≠ "" → retain = wants_audio l | _ => True end.
Definition kept (l l' : locals) : Prop := wants_audio l' = wants_audio l ∧ retain_for_history l' = retain_for_history l.
Definition weak (x : ctx) : Prop := match x with InBody text _ => text = "" | _ => True end.
Definition closes (s : session) (x : ctx) (l : locals) : Prop := weak x ∨ fits x l ∧ early (at_rpc (resp s)) = true.
Record calm (s s' : session) : Prop := {
  ca_hist : hist s' = hist s;
  ca_sent : ∀ e, done_event e → e ∈ sent s' → e ∈ sent s;
  ca_kept : kept (locs (resp s)) (locs (resp s'));
  ca_rpc : match at_rpc (resp s') with RSending _ _ | RNext => early (at_rpc (resp s)) = true | RShield x | RAwait x => closes s x (locs (resp s')) ∨ at_rpc (resp s) = RShield x | _ => False end;
}.
Definition over (o : outcome) (s s' : session) : Prop :=
  ∃ z, s' = run_response_finally o z ∧ hist z = hist s ∧ (∀ e, done_event e → e ∈ sent z → e ∈ sent s) ∧ the_id z = the_id s ∧ wants_audio (locs (resp z)) = wants_audio (locs (resp s)) ∧
    match o with
    | OOk text => text = "" ∧ retain_for_history (locs (resp z)) = retain_for_history (locs (resp s)) ∨
        ∃ r, at_rpc (resp s) = RShield (InBody text r) ∧ retain_for_history (locs (resp z)) = r
    | _ => retain_for_history (locs (resp z)) = retain_for_history (locs (resp s))
    end.
Lemma closes_fits s x l : closes s x l → fits x l.
Proof. intros [H|[H _]]; [|done]. destruct x; [by intros ?|done..]. Qed.

(** Chains of updates from [s]. *)
Record same_story (s z : session) : Prop := {
  ss_hist : hist z = hist s;
  ss_sent : ∀ e, done_event e → e ∈ sent z → e ∈ sent s;
  ss_kept : kept (locs (resp s)) (locs (resp z));
}.
Lemma story_refl s : same_story s s.
Proof. by split. Qed.
Lemma story_goto s z p : same_story s z → at_rpc (resp (goto p z)) = p → match p with RSending _ _ | RNext => early (at_rpc (resp s)) = true | RShield x | RAwait x => closes s x (locs (resp z)) ∨ at_rpc (resp s) = RShield x | _ => False end → calm s (goto p z).
Proof. by intros [H1 H2 H3] _ Hp. Qed.
Lemma calm_next s z : same_story s z → early (at_rpc (resp s)) = true → calm s (goto RNext z).
Proof. intros. by apply story_goto. Qed.
Lemma calm_safely s z t x : same_story s z → closes s x (locs (resp z)) → calm s (emit_terminals_safely t x z).
Proof. intros [H1 H2 H3] Hx. split; [done..|]. by left. Qed.
Lemma story_locs s z f : same_story s z → (∀ l, kept l (f l)) → same_story s (set_locs f z).
Proof. intros [H1 H2 [H3 H4]] Hf. split; [done..|]. destruct (Hf (locs (resp z))) as [F1 F2]. split; simpl; congruence. Qed.
Lemma calm_send s z e k go_on : same_story s z → early (at_rpc (resp s)) = true → (same_story s z → calm s (go_on z)) → calm s (send e k go_on z).
Proof. intros H He Hg. unfold send. destruct (live z); [by apply story_goto|by apply Hg]. Qed.

Lemma calm_chunk_finish c s z : early (at_rpc (resp s)) = true → same_story s z → calm s (chunk_finish c z).
Proof.
  intros He H. unfold chunk_finish. set (z1 := if bool_decide _ then _ else z).
  assert (H1 : same_story s z1) by (unfold z1; case_bool_decide; [by apply story_locs|done]). clearbody z1.
  destruct (_ && _ && _); [apply calm_send; [done..|]; intros; apply calm_next; [by apply story_locs|done]|].
  destruct (_ && _ && _); [apply calm_send; [done..|]; intros; apply calm_next; [by apply story_locs|done]|by apply calm_next].
Qed.
Lemma calm_chunk_audio c s z : early (at_rpc (resp s)) = true → same_story s z → calm s (chunk_audio c z).
Proof.
  intros He H. unfold chunk_audio. destruct (_ && _ && _); [|by apply calm_chunk_finish]. apply calm_send; [by apply story_locs|done|by apply calm_chunk_finish].
Qed.
Lemma calm_on_chunk c s z : early (at_rpc (resp s)) = true → same_story s z → calm s (on_chunk c z).
Proof.
  intros He H. unfold on_chunk. destruct (is_cancelled z); [by apply calm_next|]. destruct (_ && _); [|by apply calm_chunk_audio].
  apply calm_send; [by apply story_locs|done|by apply calm_chunk_audio].
Qed.
Lemma calm_after_created s z : early (at_rpc (resp s)) = true → same_story s z → calm s (after_created z).
Proof.
  intros He [H1 H2 H3]. unfold after_created. destruct (pending_response_cancel_reason (ctl z)); [apply calm_safely; [by split|by left]|by apply calm_next].
Qed.
Lemma calm_end_of_stream s z : early (at_rpc (resp s)) = true → same_story s z → calm s (end_of_stream z).
Proof.
  intros He [H1 H2 H3]. unfold end_of_stream. destruct (is_cancelled z); [apply calm_safely; [by split|by left]|].
  destruct (_ && negb _); apply calm_safely; [by split|by left|by split|by right].
Qed.
Lemma over_intro o s z : same_story s z → the_id z = the_id s → match o with OOk text => text = "" | _ => True end → over o s (run_response_finally o z).
Proof. intros [H1 H2 [H3 H4]] Hid Ho. exists z. split_and!; try done. destruct o; [left; by split|done|done]. Qed.
Lemma story_on_cancelled s z : same_story s z → the_id z = the_id s → calm s (on_cancelled z) ∨ over OCancelled s (on_cancelled z).
Proof.
  intros H Hid. unfold on_cancelled. destruct (response_done _); [right; by apply over_intro|left]. destruct H as [H1 H2 H3]. apply calm_safely; [by split|by left].
Qed.
Lemma story_on_exception s z : same_story s z → the_id z = the_id s → calm s (on_exception z) ∨ over (OOk "") s (on_exception z).
Proof.
  intros H Hid. unfold on_exception. destruct H as [H1 H2 H3]. destruct (response_done _); [right; by apply over_intro|left]. apply calm_safely; [by split|by left].
Qed.

(** What starting does to the history. *)
Definition start_hist (s : session) : history :=
  if audio_modality s then mkHistory ({[the_id s]} ∪ pending_assistant_item_ids (hist s)) (truncated_assistant_item_ids (hist s)) (cancelled_assistant_item_ids (hist s)) (conversation (hist s)) else hist s.
Definition started (s s' : session) : Prop :=
  hist s' = start_hist s ∧ sent s' = sent s ∧ wants_audio (locs (resp s')) = audio_modality s ∧ retain_for_history (locs (resp s')) = false ∧
  match at_rpc (resp s') with RSending _ _ | RNext => True | RShield x => weak x | _ => False end.
Lemma start_response_started s : started s (start_response s).
Proof.
  unfold started, start_response, start_hist, send, after_created. cbv zeta. destruct (audio_modality s) eqn:Ea; destruct (live _); try done; simpl.
  all: destruct (pending_response_cancel_reason (ctl s)); split_and!; done.
Qed.

Lemma response_story i s s' : inv s → response_tick i s = Some s' →
  (at_rpc (resp s) = RStart ∧ (started s s' ∨ s' = goto (REnded OCancelled) (set_r_cancel false s))) ∨ (running (at_rpc (resp s)) = true ∧ (calm s s' ∨ ∃ o, over o s s')).
Proof.
  intros Hi Hs. destruct (at_rpc (resp s)) as [| |e k| |x|x|o] eqn:E; unfold response_tick in Hs; rewrite E in Hs; try done.
  - left. split; [done|]. destruct (r_cancel (resp s)), i; try done; injection Hs as <-; [by right|left; apply start_response_started].
  - right. split; [done|]. assert (Hst : same_story s (emit e s)).
    { destruct (sending_ok _ _ _ E (in_phase _ Hi)) as [Hev _]. apply event_not_done in Hev. split; [done| |done]. by apply (not_done_snoc s (emit e s) e). }
    assert (He : early (at_rpc (resp s)) = true) by (by rewrite E). pose proof (story_refl s) as Hr.
    destruct (r_cancel (resp s)), i as [| |c| |d]; try done; injection Hs as <-.
    + assert (Hd : same_story s (set_r_cancel false (if d then emit e s else s))) by (destruct Hst; by destruct d).
      destruct (story_on_cancelled s _ Hd) as [?|?]; [by destruct d|by left|right; by eexists].
    + left. destruct k; cbn [after_send]; [by apply calm_after_created|by apply calm_chunk_audio|by apply calm_chunk_finish|..]; (apply calm_next; [by apply story_locs|done]).
    + destruct (story_on_exception s (disconnect s)) as [?|?]; [by destruct Hr|done|by left|by right; eexists].
  - right. split; [done|]. assert (He : early (at_rpc (resp s)) = true) by (by rewrite E). pose proof (story_refl s) as Hr.
    destruct (r_cancel (resp s)), i as [| |c| |d]; try done; injection Hs as <-.
    + destruct (story_on_cancelled s (set_r_cancel false s)) as [?|?]; [by destruct Hr|done|by left|by right; eexists].
    + destruct (story_on_exception s s) as [?|?]; [by destruct Hr|done|by left|by right; eexists].
    + left. by apply calm_on_chunk.
    + left. by apply calm_end_of_stream.
  - right. split; [done|]. pose proof (story_refl s) as Hr. pose proof (in_phase _ Hi) as Hp. unfold phase_ok in Hp. rewrite E in Hp.
    destruct (r_cancel (resp s)), i as [| |c| |d]; try done.
    + injection Hs as <-. left. split; simpl; [done..|by right].
    + destruct (terminal (resp s)); try done; injection Hs as <-.
      * destruct x; cbn [safely_returned]; right; [|exists OCancelled; by apply over_intro|exists (OOk ""); by apply over_intro].
        exists (OOk text). exists (set_locs (set_retain retain) s). split_and!; try done. right. by exists retain.
      * destruct x; cbn [safely_raised]; [|right; exists OFailed; by apply over_intro|right; exists OFailed; by apply over_intro].
        destruct (story_on_exception s s) as [?|?]; [by destruct Hr|done|by left|by right; eexists].
  - right. split; [done|]. pose proof (story_refl s) as Hr.
    destruct (r_cancel (resp s)), i as [| |c| |d]; try done.
    + injection Hs as <-. destruct x; cbn [safely_cancelled]; [|right; exists OCancelled; by apply over_intro|right; exists OCancelled; by apply over_intro].
      destruct (story_on_cancelled s (set_terminal TmNone (set_r_cancel false s))) as [?|?]; [by destruct Hr|done|by left|by right; eexists].
    + destruct (terminal (resp s)); try done; injection Hs as <-.
      * destruct x; cbn [safely_cancelled]; [|right; exists OCancelled; by apply over_intro|right; exists OCancelled; by apply over_intro].
        destruct (story_on_cancelled s s) as [?|?]; [by destruct Hr|done|by left|by right; eexists].
      * destruct x; cbn [safely_raised]; [|right; exists OFailed; by apply over_intro|right; exists OFailed; by apply over_intro].
        destruct (story_on_exception s s) as [?|?]; [by destruct Hr|done|by left|by right; eexists].
Qed.

(** The items of the turns begun, in their order. *)
Definition dialogue (ts : list nat) : list item := concat (imap (λ n i, [User i; Assistant n]) ts).
Definition said (s : session) : list item := ci_id <$> conversation (hist s).
Definition assistant (i : item) : option nat := match i with Assistant n => Some n | User _ => None end.

Lemma dialogue_snoc ts i : dialogue (ts ++ [i]) = dialogue ts ++ [User i; Assistant (length ts)].
Proof. unfold dialogue. rewrite imap_app, concat_app. simpl. by rewrite Nat.add_0_r. Qed.
Lemma dialogue_assistants ts : omap assistant (dialogue ts) = seq 0 (length ts).
Proof. induction ts as [|i ts IH] using rev_ind; [done|]. rewrite dialogue_snoc, omap_app, IH, length_app, Nat.add_1_r, seq_S. done. Qed.
Lemma omap_sublist {A B} (f : A → option B) l k : l `sublist_of` k → omap f l `sublist_of` omap f k.
Proof. induction 1 as [|x l k _ IH|x l k _ IH]; simpl; [done|..]; destruct (f x); [by apply sublist_skip|done|by apply sublist_cons|done]. Qed.
Lemma sublist_dialogue_nodup l ts : l `sublist_of` dialogue ts → NoDup (omap assistant l).
Proof. intros H%(omap_sublist assistant). rewrite dialogue_assistants in H. eapply sublist_NoDup; [apply NoDup_seq|exact H]. Qed.
Lemma sublist_dialogue_bound l ts n : l `sublist_of` dialogue ts → Assistant n ∈ l → n < length ts.
Proof.
  intros H Hn. assert (Hx : n ∈ omap assistant l) by (apply list_elem_of_omap; by exists (Assistant n)).
  apply (omap_sublist assistant) in H. rewrite dialogue_assistants in H. eapply elem_of_sublist in Hx; [|exact H]. apply elem_of_seq in Hx. lia.
Qed.
Lemma dialogue_take n ts : dialogue (take n ts) `sublist_of` dialogue ts.
Proof. rewrite <- (take_drop n ts) at 2. generalize (drop n ts), (take n ts). intros k l. unfold dialogue. rewrite imap_app, concat_app. by apply sublist_inserts_r. Qed.

(** Deleting the first item of an assistant deletes its only one. *)
Lemma delete_first_spec f l l' : delete_first f l = Some l' → ∃ k x j, l = k ++ x :: j ∧ l' = k ++ j ∧ f x = true.
Proof.
  revert l'. induction l as [|y l IH]; intros l'; simpl; [done|]. destruct (f y) eqn:Ef; intros H.
  - injection H as <-. by exists [], y, l.
  - apply fmap_Some in H as (l1 & H & ->). destruct (IH _ H) as (k & x & j & -> & -> & Hx). by exists (y :: k), x, j.
Qed.
Lemma deleted_once n l l' : delete_first (λ x, bool_decide (ci_id x = Assistant n) && negb (ci_role_user x)) l = Some l' → NoDup (omap assistant (ci_id <$> l)) →
  (ci_id <$> l') `sublist_of` (ci_id <$> l) ∧ Assistant n ∉ ci_id <$> l' ∧ Assistant n ∈ ci_id <$> l.
Proof.
  intros (k & x & j & -> & -> & [Hx%bool_decide_eq_true _]%andb_true_iff)%delete_first_spec Hd. rewrite !fmap_app, fmap_cons in *. rewrite Hx in *. split_and!.
  - apply sublist_app; [done|by apply sublist_cons].
  - intros Hin. rewrite omap_app in Hd. simpl in Hd. apply NoDup_app in Hd as (_ & Hk & Hj). apply NoDup_cons in Hj as [Hj _].
    apply elem_of_app in Hin as [Hin|Hin].
    + apply (Hk n); [apply list_elem_of_omap; by exists (Assistant n)|by constructor].
    + apply Hj, list_elem_of_omap. by exists (Assistant n).
  - apply elem_of_app. right. by constructor.
Qed.

(** *** What a turn may still report, and what may still be truncated *)
Definition turn_out (t : turn) : option string := match t with TAbort _ o _ | TNextChunk _ o _ | TSendDelta _ o _ _ | TSendCompleted _ o _ => o | _ => None end.
Definition turn_key (t : turn) : option nat := match t with TAwait k | TAbort k _ _ | TNextChunk k _ _ | TSendDelta k _ _ _ | TSendCompleted k _ _ => Some k | _ => None end.
Definition candidate (s : session) : Prop :=
  match at_rpc (resp s) with
  | RStart | RSending _ _ | RNext => True
  | RShield (InBody text _) | RAwait (InBody text _) | REnded (OOk text) => text ≠ ""
  | RNone => ∃ text, turn_out (at_turn s) = Some text ∧ text ≠ ""
  | _ => False
  end.
Definition holder (s : session) : Prop :=
  match at_rpc (resp s) with
  | RSending _ _ | RNext | RShield _ | RAwait _ | REnded (OOk _) => True
  | RNone => is_Some (turn_out (at_turn s))
  | _ => False
  end.
Definition told (s : session) : list nat := match turn_key (at_turn s) with Some _ => take (the_id s) (turns s) | None => turns s end.

Record past (s : session) : Prop := {
  pa_kept : candidate s → the_id s ∈ truncations s → the_id s ∈ truncated_assistant_item_ids (hist s);
  pa_gone : ∀ n, n ∈ truncations s → n < length (turns s) ∧ Assistant n ∉ said s;
  pa_cancelled : ∀ n, n ∈ cancelled_assistant_item_ids (hist s) → n < length (turns s) ∧ Assistant n ∉ said s ∧ (candidate s → n ≠ the_id s);
  pa_done : ∀ n st reason text audio u, ResponseDone n st reason text audio u ∈ sent s → st ≠ Completed → n < length (turns s) ∧ Assistant n ∉ said s ∧ (candidate s → n ≠ the_id s);
  pa_pending : closed s = false → ∀ n, n ∈ pending_assistant_item_ids (hist s) → n = the_id s ∧ holder s ∧ wants_audio (locs (resp s)) = true;
  pa_retain : running (at_rpc (resp s)) = true → retain_for_history (locs (resp s)) = false;
  pa_fits : ∀ x, at_rpc (resp s) = RShield x → fits x (locs (resp s));
  pa_order : said s `sublist_of` dialogue (told s);
  pa_last : ∀ k, turn_key (at_turn s) = Some k → last (turns s) = Some k;
}.
Lemma past_init : past session_init.
Proof. split; simpl; try done; set_solver. Qed.

(** The session's history as it was, or with less to report. *)
Lemma past_keep s s' : past s → hist s' = hist s → truncations s' = truncations s → turns s' = turns s → (∀ e, done_event e → e ∈ sent s' → e ∈ sent s) →
  kept (locs (resp s)) (locs (resp s')) → the_id s' = the_id s → (candidate s' → candidate s) → (closed s' = false → closed s = false) → (closed s' = false → wants_audio (locs (resp s)) = true → holder s → holder s') →
  (running (at_rpc (resp s')) = true → running (at_rpc (resp s)) = true) → (∀ x, at_rpc (resp s') = RShield x → fits x (locs (resp s')) ∨ at_rpc (resp s) = RShield x) →
  (turn_key (at_turn s') = turn_key (at_turn s) ∨ turn_key (at_turn s') = None) → past s'.
Proof.
  intros [H1 H2 H3 H4 H5 H6 H7 H8 H9] Eh Et Eu Es [Ew Er] Ei Hc Hcl Hh Hr Hf Hk. unfold said in *.
  split; unfold said; rewrite ?Eh, ?Et, ?Eu, ?Ei, ?Ew, ?Er.
  - auto.
  - done.
  - intros n Hn. destruct (H3 n Hn) as (? & ? & ?). auto.
  - intros n st reason text audio u Hn Hst. destruct (H4 n st reason text audio u) as (? & ? & ?); [by apply Es|done|]. auto.
  - intros Hx n Hn. destruct (H5 (Hcl Hx) n Hn) as (? & ? & ?). auto.
  - auto.
  - intros x Hx. destruct (Hf x Hx) as [?|Hy]; [done|]. specialize (H7 x Hy). unfold fits in *. by rewrite Ew.
  - unfold told in *. rewrite Eu, Ei. destruct Hk as [-> | ->]; [done|]. destruct (turn_key (at_turn s)); [|done]. etrans; [exact H8|apply dialogue_take].
  - intros k Hx. destruct Hk as [E|E]; rewrite E in Hx; [auto|done].
Qed.

(** A candidate is the response of the turn that runs. *)
Lemma rpc_body s : inv s → at_rpc (resp s) ≠ RNone → is_Some (turn_key (at_turn s)).
Proof. intros Hi Hr. destruct (proj1 (in_await _ Hi) Hr) as [k ->]. by eexists. Qed.
Lemma key_body t : is_Some (turn_key t) → in_turn_body t.
Proof. destruct t; simpl; try done; by intros []. Qed.
Lemma out_key t : is_Some (turn_out t) → is_Some (turn_key t).
Proof. destruct t; simpl; try done; by intros []. Qed.
Lemma candidate_body s : inv s → candidate s → is_Some (turn_key (at_turn s)).
Proof.
  intros Hi Hc. unfold candidate in Hc. destruct (at_rpc (resp s)) eqn:E; try (apply rpc_body; [done|congruence]). destruct Hc as (text & E' & _). apply out_key. by rewrite E'.
Qed.
Lemma holder_body s : inv s → holder s → is_Some (turn_key (at_turn s)).
Proof. intros Hi Hh. unfold holder in Hh. destruct (at_rpc (resp s)) eqn:E; try (apply rpc_body; [done|congruence]). by apply out_key. Qed.
Lemma told_fresh s : inv s → past s → is_Some (turn_key (at_turn s)) → Assistant (the_id s) ∉ said s.
Proof.
  intros Hi Hp [k Hk] Hin. pose proof (pa_order _ Hp) as Ho. unfold told in Ho. rewrite Hk in Ho. apply (sublist_dialogue_bound _ _ _ Ho) in Hin.
  rewrite length_take in Hin. lia.
Qed.
Lemma said_bound s n : past s → Assistant n ∈ said s → n < length (turns s).
Proof.
  intros Hp Hin. apply (sublist_dialogue_bound _ (turns s)) in Hin; [done|]. etrans; [exact (pa_order _ Hp)|]. unfold told. destruct (turn_key _); [apply dialogue_take|done].
Qed.

Lemma early_candidate s : early (at_rpc (resp s)) = true → candidate s.
Proof. unfold candidate. by destruct (at_rpc (resp s)). Qed.

Lemma past_over o s s' : inv s → past s → running (at_rpc (resp s)) = true → evolves s s' → over o s s' → past s'.
Proof.
  intros Hi Hp Hr He (z & E & Eh & Es & Hid & Ew & Ho). pose proof (pa_retain _ Hp Hr) as Hret.
  destruct (outer_eqs _ _ (ev_outer _ _ He)) as (Ec & Eu & Et & _ & _ & _ & _ & _ & Eco & Etr). pose proof (outer_id _ _ (ev_outer _ _ He)) as Hid'.
  rewrite finally_eq in E.
  assert (F : at_rpc (resp s') = REnded o ∧ hist s' = finally_hist z ∧ sent s' = sent z ∧ kept (locs (resp z)) (locs (resp s'))) by (by rewrite E).
  destruct F as (Er & Eh' & Es' & [Ew' Ere']). unfold finally_hist in Eh'. rewrite Eh, Hid, Ew in Eh'. clear E.
  assert (Hout : candidate s' → ∃ text, o = OOk text ∧ text ≠ "" ∧ candidate s ∧ retain_for_history (locs (resp z)) = wants_audio (locs (resp s))).
  { unfold candidate. rewrite Er. destruct o as [text| |]; try done. intros Hne. exists text. destruct Ho as [[-> _]|(r & Ex & ->)]; [done|]. split_and!; try done; [by rewrite Ex|].
    exact (pa_fits _ Hp _ Ex Hne). }
  destruct Hp as [H1 H2 H3 H4 H5 H6 H7 H8 H9]. unfold said, told in *. split; unfold said, told; rewrite ?Eco, ?Eu, ?Et, ?Etr, ?Hid'.
  - intros Hc Hn. destruct (Hout Hc) as (text & _ & _ & Hc' & Hre). rewrite Eh', Hre, andb_negb_r. by apply H1.
  - done.
  - intros n Hn. assert (Hn' : n ∈ cancelled_assistant_item_ids (hist s)) by (rewrite Eh' in Hn; by destruct (_ && _)). destruct (H3 n Hn') as (? & ? & Hc).
    split_and!; try done. intros Hx. destruct (Hout Hx) as (? & _ & _ & ? & _). auto.
  - intros n st reason text audio u Hn Hst. rewrite Es' in Hn. destruct (H4 n st reason text audio u) as (? & ? & Hc); [by apply Es|done|].
    split_and!; try done. intros Hx. destruct (Hout Hx) as (? & _ & _ & ? & _). auto.
  - intros Hx n Hn. rewrite Ec in Hx. specialize (H5 Hx n). rewrite Eh' in Hn. destruct (wants_audio (locs (resp s))) eqn:Ea; simpl in Hn.
    + destruct (retain_for_history (locs (resp z))) eqn:Erz; simpl in Hn; [|destruct (H5 ltac:(set_solver)) as (-> & _); set_solver].
      destruct (H5 Hn) as (? & _). split_and!; [done| |by rewrite Ew', Ew]. unfold holder. rewrite Er. destruct o; [done|congruence..].
    + by destruct (H5 Hn) as (_ & _ & ?).
  - by rewrite Er.
  - by rewrite Er.
  - done.
  - done.
Qed.

Lemma past_response i s s' : inv s → past s → response_tick i s = Some s' → past s'.
Proof.
  intros Hi Hp Hs. destruct (response_evolves _ _ _ Hs) as [He Hr]. pose proof (outer_id _ _ (ev_outer _ _ He)) as Hid.
  destruct (outer_eqs _ _ (ev_outer _ _ He)) as (Ec & Eu & Et & _ & _ & _ & _ & _ & Eco & Etr).
  assert (Hcl : closed s' = false → closed s = false) by (by rewrite Ec).
  destruct (response_story _ _ _ Hi Hs) as [[E [Hst| ->]]|[Hrun [Hca|[o Ho]]]].
  - destruct Hst as (Eh & Es & Ew & Ere & Hrpc). destruct Hp as [H1 H2 H3 H4 H5 H6 H7 H8 H9].
    assert (Hc : candidate s) by (unfold candidate; by rewrite E).
    assert (Eh' : truncated_assistant_item_ids (hist s') = truncated_assistant_item_ids (hist s) ∧ cancelled_assistant_item_ids (hist s') = cancelled_assistant_item_ids (hist s) ∧
      ∀ n, n ∈ pending_assistant_item_ids (hist s') → n ∈ pending_assistant_item_ids (hist s) ∨ n = the_id s ∧ audio_modality s = true).
    { rewrite Eh. unfold start_hist. destruct (audio_modality s); simpl; split_and!; try done; set_solver. }
    destruct Eh' as (F1 & F2 & F3). unfold said, told in *. split; unfold said, told; rewrite ?F1, ?F2, ?Eco, ?Eu, ?Et, ?Etr, ?Hid, ?Es, ?Ere; auto.
    + intros n Hn. destruct (H3 n Hn) as (? & ? & ?). auto.
    + intros n st reason text audio u Hn Hx. destruct (H4 n st reason text audio u Hn Hx) as (? & ? & ?). auto.
    + intros Hx n Hn. destruct (F3 n Hn) as [Hn'|[-> Ha]].
      * destruct (H5 (Hcl Hx) n Hn') as (_ & Hh & _). unfold holder in Hh. by rewrite E in Hh.
      * split_and!; [done| |by rewrite Ew]. unfold holder. by destruct (at_rpc (resp s')).
    + intros x Hx. rewrite Hx in Hrpc. by apply (closes_fits s); left.
  - apply (past_keep s); try done; simpl; [intros _ _; unfold holder; by rewrite E|by left].
  - destruct Hca as [Eh Es Ek Hrpc]. apply (past_keep s); try done; rewrite ?Et; [| | |by left].
    + intros Hc. unfold candidate in Hc. destruct (at_rpc (resp s')) as [| |e k| |x|x|o]; try done; try (by apply early_candidate).
      * destruct Hrpc as [[Hw|[_ ?]]|E]; [by destruct x|by apply early_candidate|unfold candidate; by rewrite E].
      * destruct Hrpc as [[Hw|[_ ?]]|E]; [by destruct x|by apply early_candidate|unfold candidate; by rewrite E].
    + intros _ _ _. unfold holder. by destruct (at_rpc (resp s')).
    + intros x Hx. rewrite Hx in Hrpc. destruct Hrpc; [left; by eapply closes_fits|by right].
  - by eapply past_over.
Qed.

(** The terminal events: a response is remembered as cancelled, or reported to have failed,
    only when its text is not for the history. *)
Lemma remembered n m l : n ∈ _remember_cancelled_assistant_item m l → n = m ∨ n ∈ l.
Proof.
  unfold _remember_cancelled_assistant_item. set (k := if bool_decide (m ∈ l) then l else l ++ [m]).
  assert (Hk : n ∈ k → n = m ∨ n ∈ l) by (unfold k; case_bool_decide; [by right|]; intros [?|?%list_elem_of_singleton]%elem_of_app; auto).
  clearbody k. case_bool_decide; [|done]. destruct k; simpl; [done|]. intros ?. apply Hk. by constructor.
Qed.

Lemma closing_candidate x t s : terminals_ok x t s → at_rpc (resp s) = RShield x ∨ at_rpc (resp s) = RAwait x → t_status t ≠ Completed → ¬ candidate s.
Proof.
  intros [_ _ Hto] Hr Hst Hc. unfold candidate in Hc. destruct x as [text retain| |]; [|destruct Hr as [E|E]; by rewrite E in Hc..].
  apply Hst, (Hto text retain); [done|]. left. destruct Hr as [E|E]; by rewrite E in Hc.
Qed.

Lemma past_terminal i s s' : inv s → past s → terminal_tick i s = Some s' → past s'.
Proof.
  intros Hi Hp Hs. destruct (terminal_evolves _ _ _ Hs) as [He Ht]. destruct (terminal_closing _ (in_phase _ Hi) Ht) as (x & [_ _ _ Hto _] & Hx).
  assert (Hx' : at_rpc (resp s) = RShield x ∨ at_rpc (resp s) = RAwait x) by (destruct Hx as [[? _]|[? _]]; auto).
  assert (Hkey : is_Some (turn_key (at_turn s))) by (apply rpc_body; [done|destruct Hx' as [E|E]; by rewrite E]).
  assert (Hid : the_id s < length (turns s)) by (pose proof (in_id _ Hi (key_body _ Hkey)); lia).
  pose proof (told_fresh _ Hi Hp Hkey) as Hfresh.
  assert (Hmain : ∀ t, (t_status t ≠ Completed → ¬ candidate s) → ∀ z, changed t s z ∨ (∃ g, changed t (emit (stage_event t g s) s) z) → past z).
  { intros t Hcand z Hz.
    assert (F : ∃ tm a b c items, ((∃ g, z = change tm a b c items (emit (stage_event t g s) s)) ∨ z = change tm a b c items s) ∧
      ∀ n, n ∈ items → n ∈ items_of s ∨ n = the_id s ∧ t_status t = Cancelled).
    { destruct Hz as [(tm & a & b & c & items & -> & Hit)|(g & tm & a & b & c & items & -> & Hit)]; exists tm, a, b, c, items; (split; [eauto|]);
        intros n Hn; (destruct Hit as [-> |[[_ Hst] ->]]; [by left|]); destruct (remembered _ _ _ Hn) as [->|?]; [by right|by left|by right|by left]. }
    destruct F as (tm & a & b & c & items & Hz' & Hit). clear Hz.
    assert (F : (∀ e, done_event e → e ∈ sent z → e ∈ sent s ∨ ∃ reason text au u, e = ResponseDone (the_id s) (t_status t) reason text au u) ∧
      pending_assistant_item_ids (hist z) = pending_assistant_item_ids (hist s) ∧ truncated_assistant_item_ids (hist z) = truncated_assistant_item_ids (hist s) ∧
      cancelled_assistant_item_ids (hist z) = items ∧ said z = said s ∧ candidate z = candidate s ∧ holder z = holder s ∧ told z = told s ∧ turns z = turns s ∧ truncations z = truncations s ∧
      closed z = closed s ∧ the_id z = the_id s ∧ kept (locs (resp s)) (locs (resp z)) ∧ at_rpc (resp z) = at_rpc (resp s) ∧ at_turn z = at_turn s).
    { destruct Hz' as [[g ->]| ->]; (split; [|by split_and!]); [|by left]. intros e Hd [?|Hin%list_elem_of_singleton]%elem_of_app; [by left|right]. subst e. destruct g; try done. by repeat eexists. }
    destruct F as (Fs & F1 & F2 & F3 & F4 & F5 & F6 & F7 & F8 & F9 & F10 & F11 & [F12 F13] & F14 & F15). clear Hz'.
    destruct Hp as [H1 H2 H3 H4 H5 H6 H7 H8 H9]. split; rewrite ?F1, ?F2, ?F3, ?F4, ?F5, ?F6, ?F7, ?F8, ?F9, ?F10, ?F11, ?F12, ?F13, ?F14, ?F15; try done.
    - intros n Hn. destruct (Hit n Hn) as [Hn'|[-> Hst]]; [by apply H3|]. split_and!; [done|done|]. intros Hc. exfalso. apply (Hcand ltac:(congruence) Hc).
    - intros n st reason text au u Hn Hst. destruct (Fs (ResponseDone n st reason text au u) I Hn) as [Hn'|(? & ? & ? & ? & [= -> -> -> -> -> ->])]; [by eapply H4|].
      split_and!; [done|done|]. intros Hc. exfalso. apply (Hcand Hst Hc).
    - intros y Hy. specialize (H7 y Hy). unfold fits in *. by rewrite F12. }
  unfold terminal_ok in Hto. destruct (terminal_tick_changed _ _ _ Hs) as [(t & Et & Hc)|[(t & g & Et & Hc)| ->]].
  - rewrite Et in Hto. destruct Hto as (_ & Hto & _). apply (Hmain t); [|by left]. intros Hst. by eapply closing_candidate.
  - rewrite Et in Hto. destruct Hto as (_ & Hto & _). apply (Hmain t); [|right; by exists g]. intros Hst. by eapply closing_candidate.
  - apply (past_keep s); try done; [intros y Hy; by right|by left].
Qed.

(** The turn, around its sends. *)
Definition base (s z : session) : Prop :=
  hist z = hist s ∧ (∀ e, done_event e → e ∈ sent z → e ∈ sent s) ∧ (turns z = turns s ∧ truncations z = truncations s) ∧ resp z = resp s ∧ at_turn z = at_turn s ∧ closed z = closed s.
Lemma base_refl s : base s s.
Proof. by split_and!. Qed.
Lemma base_emit s e : neutral e → base s (emit e s).
Proof. intros He. split_and!; try done. apply (neutral_sent s _ [e]); [done|by constructor]. Qed.
Lemma base_disconnect s : base s (disconnect s).
Proof. by split_and!. Qed.
Lemma past_base s z : past s → base s z → past z.
Proof.
  intros Hp (E1 & E2 & [E3 E4] & E5 & E6 & E7). unfold holder, candidate.
  apply (past_keep s); try done; unfold candidate, holder, the_id; rewrite ?E5, ?E6, ?E7; try done; try (by left); by right.
Qed.

(** Where the turn is past its response. *)
Record reporting (s : session) (k : nat) (out : option string) : Prop := {
  re_past : past s;
  re_rpc : at_rpc (resp s) = RNone;
  re_key : turn_key (at_turn s) = Some k;
  re_out : turn_out (at_turn s) = out;
  re_id : S (the_id s) = length (turns s);
}.
Lemma past_moves s t k out : reporting s k out → turn_key t = Some k → turn_out t = out → past (set_turn t s).
Proof.
  intros [Hp Hr Hk Ho Hid] Ek Eo. apply (past_keep s); try done; unfold candidate, holder; simpl; rewrite ?Hr, ?Eo, ?Ho, ?Ek, ?Hk; try done; by left.
Qed.

(** The end of the turn, with [items] added to the conversation. *)
Definition closing_hist (out : option string) (items : list ConversationItem) (n : nat) (h : history) : history :=
  let h := set_conversation (λ l, l ++ items) h in match out with Some _ => set_pending_items (λ X, X ∖ {[n]}) h | None => h end.
Lemma past_ends s k out items : reporting s k out → (ci_id <$> items) `sublist_of` [User k; Assistant (the_id s)] →
  (Assistant (the_id s) ∈ ci_id <$> items → candidate s ∧ the_id s ∉ truncations s) → past (turn_ends (set_hist (closing_hist out items (the_id s)) s)).
Proof.
  intros [Hp Hr Hk Ho Hid] Hsub Hnew. set (s' := turn_ends _).
  assert (Hcand : ¬ candidate s') by (unfold candidate; simpl; rewrite Hr; by intros (? & ? & _)).
  assert (Hsaid : said s' = said s ++ (ci_id <$> items)) by (unfold said, s', closing_hist; destruct out; simpl; by rewrite fmap_app).
  assert (Hin : ∀ n, Assistant n ∈ said s' → Assistant n ∈ said s ∨ n = the_id s ∧ candidate s ∧ the_id s ∉ truncations s).
  { intros n. rewrite Hsaid. intros [?|Hn]%elem_of_app; [by left|right]. assert (Hx : Assistant n ∈ [User k; Assistant (the_id s)]) by (by eapply elem_of_sublist).
    assert (n = the_id s) as -> by (repeat (apply elem_of_cons in Hx as [Hx|Hx]; [congruence|]); by apply not_elem_of_nil in Hx). by split; [|apply Hnew]. }
  assert (Hcanc : cancelled_assistant_item_ids (hist s') = cancelled_assistant_item_ids (hist s)) by (by destruct out).
  assert (Hpend : closed s = false → pending_assistant_item_ids (hist s') = ∅).
  { intros Hx. apply set_eq. intros n. split; [|by intros ?%not_elem_of_empty]. intros Hn.
    destruct (pa_pending _ Hp Hx n) as (-> & Hh & _); [destruct out; simpl in Hn; set_solver|]. unfold holder in Hh. rewrite Hr, Ho in Hh. destruct Hh as [y ->]. simpl in Hn. set_solver. }
  pose proof (pa_order _ Hp) as Hord. unfold told in Hord. rewrite Hk in Hord.
  assert (Hturns : turns s = take (the_id s) (turns s) ++ [k]).
  { pose proof (pa_last _ Hp _ Hk) as Hl. apply last_Some in Hl as [ts E]. rewrite E in Hid. rewrite length_app in Hid. simpl in Hid. rewrite E. by rewrite take_app_length' by lia. }
  destruct Hp as [H1 H2 H3 H4 H5 H6 H7 H8 H9]. split; try done.
  - intros n Hn. destruct (H2 n Hn) as [? Hx]. split; [done|]. intros [?|(-> & _ & ?)]%Hin; [done|]. apply (H2 (the_id s) Hn). done.
  - rewrite Hcanc. intros n Hn. destruct (H3 n Hn) as (? & Hx & Hc). split_and!; [done| |done]. intros [?|(-> & ? & _)]%Hin; [done|]. by apply Hc.
  - intros n st reason text au u Hn Hst. destruct (H4 _ _ _ _ _ _ Hn Hst) as (? & Hx & Hc). split_and!; [done| |done]. intros [?|(-> & ? & _)]%Hin; [done|]. by apply Hc.
  - intros Hx n. rewrite Hpend by done. by intros ?%not_elem_of_empty.
  - rewrite Hsaid. change (told s') with (turns s). rewrite Hturns, dialogue_snoc, length_take. replace (the_id s `min` length (turns s)) with (the_id s) by lia. by apply sublist_app.
Qed.
Lemma past_finally s k out : reporting s k out → past (turn_finally out s).
Proof.
  intros Hre. assert (E : turn_finally out s = turn_ends (set_hist (closing_hist out [] (the_id s)) s)).
  { unfold turn_finally, closing_hist, set_hist. f_equal. destruct s as [? ? ? ? ? ? ? ? ? ? [] ? ? ? ? ? ? ? ? ? ?], out; unfold set_conversation, set_pending_items; simpl; by rewrite app_nil_r. }
  rewrite E. apply (past_ends _ k); [done|apply sublist_nil_l|]. simpl. by intros ?%not_elem_of_nil.
Qed.
Lemma past_returns s k out acc : reporting s k out → past (turn_returns k out acc s).
Proof.
  intros Hre. set (items := turn_items k (the_id s) (String.concat "" acc) out (truncated_assistant_item_ids (hist s))).
  assert (E : turn_returns k out acc s = turn_ends (set_hist (closing_hist out items (the_id s)) s)) by (unfold turn_returns, turn_finally; by destruct out).
  rewrite E. apply (past_ends _ k); [done|..]; unfold items, turn_items.
  - case_bool_decide; (destruct out as [text|]; [destruct (_ && _)|]); simpl; repeat constructor.
  - intros Hin. rewrite fmap_app in Hin. apply elem_of_app in Hin as [Hin|Hin].
    { case_bool_decide; simpl in Hin; [by apply not_elem_of_nil in Hin|by apply list_elem_of_singleton in Hin]. }
    destruct out as [text|]; [|by apply not_elem_of_nil in Hin]. destruct (_ && _) eqn:Eb; [|by apply not_elem_of_nil in Hin].
    apply andb_true_iff in Eb as [E1%negb_true_iff%bool_decide_eq_false E2%negb_true_iff%bool_decide_eq_false].
    assert (Hc : candidate s) by (unfold candidate; rewrite (re_rpc _ _ _ Hre); exists text; split; [apply (re_out _ _ _ Hre)|done]).
    split; [done|]. intros Ht. by apply E2, (pa_kept _ (re_past _ _ _ Hre)).
Qed.

Lemma reporting_of s k out : inv s → past s → at_rpc (resp s) = RNone → turn_key (at_turn s) = Some k → turn_out (at_turn s) = out → reporting s k out.
Proof. intros Hi Hp Hr Hk Ho. split; try done. apply (in_id _ Hi), key_body. by exists k. Qed.
Lemma reporting_base s z k out : reporting s k out → base s z → reporting z k out.
Proof.
  intros [Hp Hr Hk Ho Hid] Hb. pose proof (past_base _ _ Hp Hb) as Hz. destruct Hb as (_ & _ & [E3 _] & E5 & E6 & _). split; [done|..]; unfold the_id; by rewrite ?E3, ?E5, ?E6.
Qed.
Lemma past_completed s k out acc : reporting s k out → past (transcription_completed k out acc s).
Proof. intros H. unfold transcription_completed. destruct (live s); [by eapply past_moves|by apply past_returns]. Qed.
Lemma past_after_chunk s k out acc fin : reporting s k out → past (after_transcript_chunk k out acc fin s).
Proof. intros H. unfold after_transcript_chunk. destruct fin; [by apply past_completed|by eapply past_moves]. Qed.
Lemma past_transcript_chunk s k out acc c : reporting s k out → past (on_transcript_chunk k out acc c s).
Proof.
  intros H. unfold on_transcript_chunk. destruct (_ && _); [|by apply past_after_chunk]. destruct (live s); [by eapply past_moves|by apply past_after_chunk].
Qed.

(** The turn's response has ended, and the turn goes on, or dies. *)
Lemma past_response_ended s k o out : past s → at_turn s = TAwait k → at_rpc (resp s) = REnded o →
  (o = OOk (default "" out) ∧ is_Some out ∨ out = None ∧ (closed s = true ∨ ∀ text, o ≠ OOk text)) → past (response_ended k out s).
Proof.
  intros Hp Ht Hr Ho. set (s' := response_ended k out s).
  assert (F : hist s' = hist s ∧ truncations s' = truncations s ∧ turns s' = turns s ∧ sent s' = sent s ∧ locs (resp s') = locs (resp s) ∧ closed s' = closed s ∧
    at_rpc (resp s') = RNone ∧ turn_key (at_turn s') = Some k ∧ turn_out (at_turn s') = out).
  { unfold s', response_ended. simpl. by destruct (active_response_abort_task s). }
  destruct F as (E1 & E2 & E3 & E4 & E5 & E6 & E7 & E8 & E9).
  apply (past_keep s); try done; unfold candidate, holder, the_id; rewrite ?E4, ?E5, ?E6, ?E7, ?E8, ?E9, ?Hr, ?Ht; try done.
  - intros (text & -> & Hx). destruct Ho as [[-> _]|[? _]]; done.
  - intros Hc _ Hh. destruct Ho as [[_ ?]|[-> [?|Ho]]]; [done|congruence|]. by destruct o; [edestruct Ho| |].
  - by left.
Qed.
Lemma past_turn_dies s k o : past s → at_turn s = TAwait k → at_rpc (resp s) = REnded o → (closed s = true ∨ ∀ text, o ≠ OOk text) → past (turn_dies s).
Proof.
  intros Hp Ht Hr Ho. apply (past_keep s); try done; unfold candidate, holder; simpl; rewrite ?Hr; try done; [by intros (? & ? & _)| |by right].
  intros Hc _ Hh. destruct Ho as [?|Ho]; [congruence|]. by destruct o; [edestruct Ho| |].
Qed.
Lemma past_on_cancelled s k o : past s → at_turn s = TAwait k → at_rpc (resp s) = REnded o → (closed s = true ∨ ∀ text, o ≠ OOk text) → past (on_response_cancelled k s).
Proof.
  intros Hp Ht Hr Ho. unfold on_response_cancelled. destruct (_ || _); [by eapply past_turn_dies|]. eapply past_response_ended; [done..|]. by right.
Qed.

Lemma past_begin s k : inv s → past s → at_turn s = TStart k → past (begin_response k s).
Proof.
  intros Hi Hp Ht. set (s' := begin_response k s). assert (Hr : at_rpc (resp s) = RNone) by (apply idle_phase; [done|by rewrite Ht]).
  destruct Hp as [H1 H2 H3 H4 H5 H6 H7 H8 H9]. assert (Hlen : length (turns s') = S (length (turns s))) by (simpl; rewrite length_app; simpl; lia).
  assert (Hid : the_id s' = length (turns s)) by done. unfold said in *. split; rewrite ?Hlen, ?Hid; try done.
  - intros _ Hn. destruct (H2 _ Hn). lia.
  - intros n Hn. destruct (H2 _ Hn). split; [lia|done].
  - intros n Hn. destruct (H3 _ Hn) as (? & ? & _). split_and!; [lia|done|lia].
  - intros n st reason text au u Hn Hst. destruct (H4 _ _ _ _ _ _ Hn Hst) as (? & ? & _). split_and!; [lia|done|lia].
  - intros Hc n Hn. destruct (H5 Hc n Hn) as (_ & Hh & _). unfold holder in Hh. rewrite Hr, Ht in Hh. by destruct Hh.
  - unfold told in *. rewrite Ht in H8. change (said s `sublist_of` dialogue (take (length (turns s)) (turns s ++ [k]))). by rewrite take_app_length.
  - intros j. simpl. intros [= <-]. by rewrite last_snoc.
Qed.

Lemma past_turn_tick i s s' : inv s → past s → turn_tick i s = Some s' → past s'.
Proof.
  intros Hi Hp Hs. assert (Hrep : ∀ k out, turn_key (at_turn s) = Some k → turn_out (at_turn s) = out → (∀ j, at_turn s ≠ TAwait j) → reporting s k out).
  { intros k out Hk Ho Hn. apply reporting_of; try done. by apply idle_phase. }
  pose proof (base_disconnect s) as Hd. assert (He1 : base s (emit transcript_delta s)) by (by apply base_emit). assert (He2 : base s (emit transcript_completed s)) by (by apply base_emit).
  unfold turn_tick in Hs. destruct (at_turn s) as [|k|k|k out a|k out acc|k out acc fin|k out acc|] eqn:Et; [done|..|done].
  - destruct (t_cancel s) eqn:Ec, i; try done; injection Hs as <-; [|by apply past_begin].
    assert (Hr : at_rpc (resp s) = RNone) by (apply idle_phase; [done|by rewrite Et]).
    apply (past_keep s); try done; unfold candidate, holder; simpl; rewrite ?Hr, ?Et; try done; by right.
  - destruct i; try done. destruct (at_rpc (resp s)) as [| | | | | |o] eqn:Er; try done. injection Hs as <-. destruct (t_cancel s) eqn:Ec.
    + pose proof (in_t_cancel _ Hi Ec) as Hcl. apply (past_on_cancelled (set_t_cancel false s) k o); try done; [|by left].
      apply (past_keep s); try done; [by right|by left].
    + destruct o as [text| |]; [eapply past_response_ended; [done..|]; by left|eapply past_on_cancelled; [done..|]; by right|eapply past_turn_dies; [done..|]; by right].
  - specialize (Hrep k out eq_refl eq_refl ltac:(done)). destruct (t_cancel s) eqn:Ec, i; try done; [|destruct (bool_decide _); [done|]]; injection Hs as <-; [|by eapply past_moves].
    pose proof (in_t_cancel _ Hi Ec) as Hcl. apply (past_keep s); try done; unfold candidate, holder; simpl; rewrite ?(re_rpc _ _ _ Hrep); try (by intros (? & ? & _)); try (by right). congruence.
  - specialize (Hrep k out eq_refl eq_refl ltac:(done)). destruct (t_cancel s), i; try done; injection Hs as <-; first [by eapply past_finally|by apply past_transcript_chunk|by apply past_completed].
  - specialize (Hrep k out eq_refl eq_refl ltac:(done)). destruct (t_cancel s), i as [| | | |[]]; try done; injection Hs as <-;
      first [by eapply past_finally|eapply past_finally; by eapply reporting_base|apply past_after_chunk; by eapply reporting_base].
  - specialize (Hrep k out eq_refl eq_refl ltac:(done)). destruct (t_cancel s), i as [| | | |[]]; try done; injection Hs as <-;
      first [by eapply past_finally|eapply past_finally; by eapply reporting_base|apply past_returns; by eapply reporting_base].
Qed.

(** The drainer and the receive loop: only a truncation touches the history. *)
Lemma past_drain s s' : inv s → past s → drain_tick s = Some s' → past s'.
Proof.
  intros Hi Hp Hs. unfold drain_tick in Hs. destruct (at_drainer s) as [| |x|x| |] eqn:Ed; try done.
  - destruct (queue s); [done|]. injection Hs as <-. apply (past_keep s); try done; [by right|by left].
  - destruct (closed s) eqn:Ec; injection Hs as <-; [apply (past_keep s); try done; [by right|by left]|].
    assert (Et : at_turn s = TNone) by (apply no_turn; [done|by rewrite Ed]). assert (Hr : at_rpc (resp s) = RNone) by (apply idle_phase; [done|by rewrite Et]).
    apply (past_keep s); try done; unfold candidate, holder; simpl; rewrite ?Hr, ?Et; try done; by right.
  - destruct (at_turn s) eqn:Et; try done. injection Hs as <-. assert (Hr : at_rpc (resp s) = RNone) by (apply idle_phase; [done|by rewrite Et]).
    apply (past_keep s); try done; unfold candidate, holder; simpl; rewrite ?Hr, ?Et; try done; by right.
Qed.

Definition stage (s : session) := (hist s, truncations s, at_turn s).
Lemma stage_eqs s s' : stage s' = stage s → hist s' = hist s ∧ truncations s' = truncations s ∧ at_turn s' = at_turn s.
Proof. unfold stage. intros H. injection H. intros. repeat split; assumption. Qed.
Lemma past_stage s s' : past s → aside s s' → turns s' = turns s → stage s' = stage s → (closed s' = false → closed s = false) → past s'.
Proof.
  intros Hp [(l & El & Hl) _ _ (E1 & E2 & E3)] Et (F1 & F2 & F3)%stage_eqs Hc. apply (past_keep s); try done; unfold candidate, holder, kept, the_id; rewrite ?E1, ?E2, ?F3; try done.
  - by apply (neutral_sent s s' l).
  - by right.
  - by left.
Qed.

Lemma stage_cancel reason s : stage (cancel_active_response reason s) = stage s ∧ closed (cancel_active_response reason s) = closed s.
Proof.
  split; [|apply closed_cancel]. unfold cancel_active_response. destruct (response_start_pending _); [by destruct (pending_response_cancel_reason _)|].
  destruct (active_response_request_id _); [|done]. destruct (_ || _); [done|]. unfold cancel_response_task. simpl. by destruct (running _).
Qed.
Lemma stage_teardown s : stage (teardown s) = stage s.
Proof. unfold teardown, cancel_turn, stage. simpl. destruct (at_turn s) eqn:E; simpl; rewrite ?E; try done. destruct (running _); simpl; by rewrite E. Qed.
Lemma stage_loop_send e k g s : (stage (g s) = stage s) → stage (loop_send e k g s) = stage s.
Proof. intros Hg. unfold loop_send. by destruct (live s). Qed.
Lemma stage_interrupt s : stage (interrupt s) = stage s.
Proof. unfold interrupt. destruct (_ && _); [|done]. exact (proj1 (stage_cancel "turn_detected" s)). Qed.
Lemma stage_commit u s : stage (commit u s) = stage s.
Proof. destruct u; [by apply stage_loop_send|done]. Qed.

Definition truncates (i : lin) (s : session) : bool := match at_loop s, i with LRun, LEvent (ConversationItemTruncate _ _) => true | _, _ => false end.
Lemma loop_stage i s s' : truncates i s = false → past_turn (at_loop s) = false → loop_tick i s = Some s' → stage s' = stage s.
Proof.
  intros Htr Hpt Hs. unfold loop_tick, truncates in *. destruct (at_loop s) as [|e k|a|a| |] eqn:El, i as [ev| |]; try done.
  - injection Hs as <-. destruct ev as [|j c|a b acc| | |u|]; cbn [dispatch]; try done.
    + apply stage_cancel.
    + destruct acc; unfold loop_send; by destruct (live _).
    + unfold loop_send. by destruct (live _).
    + unfold loop_send. destruct (live _); [done|]. apply (stage_interrupt (set_idle false (at_drainer s) s)).
    + apply stage_loop_send, stage_commit.
    + apply stage_teardown.
  - injection Hs as <-. destruct k; cbn [after_loop_send]; [done|apply (stage_interrupt (emit e s))|apply (stage_commit u (emit e s))|done].
  - injection Hs as <-. unfold loop_send_raised. cbv zeta. destruct k; apply (stage_teardown (disconnect s)) || apply (stage_teardown (idle_set (disconnect s))).
  - destruct (at_turn s) eqn:Et; try done; by injection Hs as <-.
Qed.
Lemma loop_closing i s s' : inv s → loop_tick i s = Some s' → closed s' = false → closed s = false.
Proof.
  intros Hi Hs Hc. destruct (closed s) eqn:E; [|done]. exfalso. rewrite (in_closed _ Hi) in E. unfold loop_tick in Hs.
  destruct (at_loop s) as [|e k|a|a| |] eqn:El, i as [ev| |]; try done; pose proof (in_closed _ Hi) as Hx; rewrite El in Hx.
  - destruct (at_turn s); try done; injection Hs as <-; simpl in *; congruence.
  - destruct (match a with Some n => _ | None => false end); [done|]. injection Hs as <-. unfold drainer_cancelled in Hc. destruct (at_drainer s); simpl in *; congruence.
  - injection Hs as <-. simpl in *. congruence.
Qed.

(** A truncated item is in the history no more, and will not come back. *)
Record truncation (n : nat) (s z : session) : Prop := {
  tr_same : truncations z = {[n]} ∪ truncations s ∧ turns z = turns s ∧ resp z = resp s ∧ at_turn z = at_turn s ∧ sent z = sent s ∧ closed z = closed s;
  tr_hist : pending_assistant_item_ids (hist z) = pending_assistant_item_ids (hist s) ∧ cancelled_assistant_item_ids (hist z) = cancelled_assistant_item_ids (hist s) ∧
    truncated_assistant_item_ids (hist s) ⊆ truncated_assistant_item_ids (hist z);
  tr_said : said z `sublist_of` said s;
  tr_gone : n < length (turns s) ∧ Assistant n ∉ said z;
  tr_kept : candidate s → n = the_id s → n ∈ truncated_assistant_item_ids (hist z);
}.
Lemma past_truncation n s z : past s → truncation n s z → past z.
Proof.
  intros [H1 H2 H3 H4 H5 H6 H7 H8 H9] [(E1 & E2 & E3 & E4 & E5 & E6) (F1 & F2 & F3) Hsub [Hn Hg] Hk].
  assert (Ecand : candidate z = candidate s) by (unfold candidate; by rewrite E3, E4). assert (Eh : holder z = holder s) by (unfold holder; by rewrite E3, E4).
  assert (Eid : the_id z = the_id s) by (unfold the_id; by rewrite E3). assert (Hni : ∀ x, x ∉ said s → x ∉ said z) by (intros x Hx Hin; apply Hx; by eapply elem_of_sublist).
  split; rewrite ?E1, ?E2, ?E3, ?E4, ?E5, ?E6, ?F1, ?F2, ?Ecand, ?Eh, ?Eid; try done.
  - intros Hc [Hx%elem_of_singleton|Hx]%elem_of_union; [by rewrite Hx; apply Hk|]. by apply F3, H1.
  - intros m [->%elem_of_singleton|Hx]%elem_of_union; [done|]. destruct (H2 m Hx). auto.
  - intros m Hm. destruct (H3 m Hm) as (? & ? & ?). auto.
  - intros m st reason text au u Hm Hst. destruct (H4 _ _ _ _ _ _ Hm Hst) as (? & ? & ?). auto.
  - etrans; [exact Hsub|]. unfold told in *. by rewrite E2, E4, Eid.
Qed.

Lemma truncate_done i c s : inv s → past s → closed s = false →
  ∃ e z, handle_conversation_item_truncate i c s = loop_send e HDone handler_done z ∧ neutral e ∧ (z = s ∨ ∃ n, truncation n s z).
Proof.
  intros Hi Hp Hc. unfold handle_conversation_item_truncate. destruct (negb _); [eexists _, s; split_and!; [done|done|by left]|]. destruct i as [k|n]; [eexists _, s; split_and!; [done|done|by left]|].
  destruct (bool_decide_reflect (n ∈ pending_assistant_item_ids (hist s))) as [Hn|_].
  { eexists _, _. split_and!; [done|done|right]. exists n. destruct (pa_pending _ Hp Hc n Hn) as (-> & Hh & _). pose proof (holder_body _ Hi Hh) as Hk.
    split; simpl; [done|split_and!; [done|done|set_solver]|done| |set_solver]. split; [pose proof (in_id _ Hi (key_body _ Hk)); lia|exact (told_fresh s Hi Hp Hk)]. }
  destruct (bool_decide_reflect (n ∈ cancelled_assistant_item_ids (hist s))) as [Hn|_].
  { eexists _, _. split_and!; [done|done|right]. exists n. destruct (pa_cancelled _ Hp n Hn) as (? & ? & Hx). split; simpl; [done|done|done|done|]. intros ? ->. by destruct Hx. }
  destruct (delete_first _ _) as [l|] eqn:El; [|eexists _, s; split_and!; [done|done|by left]].
  assert (Hd : NoDup (omap assistant (said s))) by (eapply sublist_dialogue_nodup, (pa_order _ Hp)).
  destruct (deleted_once _ _ _ El Hd) as (H1 & H2 & H3). eexists _, _. split_and!; [done|done|right]. exists n. split; simpl; [done|done|done|split; [by apply said_bound|done]|].
  intros Hcand ->. exfalso. by apply (told_fresh s Hi Hp (candidate_body _ Hi Hcand)).
Qed.

Lemma past_loop i s s' : inv s → loop_ok s → past s → loop_tick i s = Some s' → past s'.
Proof.
  intros Hi Hl Hp Hs. pose proof (loop_aside _ _ _ Hl Hs) as Ha. pose proof (turns_loop _ _ _ Hs) as Et. pose proof (loop_closing _ _ _ Hi Hs) as Hc.
  destruct (past_turn (at_loop s)) eqn:Ept.
  - pose proof (in_ended _ Hi Ept) as Hend. assert (Hr : at_rpc (resp s) = RNone) by (apply idle_phase; [done|intros j Hj; rewrite Hj in Hend; by destruct Hend]).
    destruct Ha as [(l & El & Hn) _ _ (E1 & E2 & E3)]. assert (Hh : hist s' = hist s ∧ truncations s' = truncations s ∧ (at_turn s' = at_turn s ∨ at_turn s' = TNone)).
    { unfold loop_tick in Hs. destruct (at_loop s) as [|e k|a|a| |], i as [ev| |]; try done; [|injection Hs as <-; split_and!; [done|done|by left]].
      destruct (match a with Some n => _ | None => false end); [done|]. injection Hs as <-. unfold drainer_cancelled. destruct (at_drainer s); split_and!; try done; by (left + right). }
    destruct Hh as (F1 & F2 & F3). apply (past_keep s); try done; unfold candidate, holder, kept, the_id; rewrite ?E1, ?E2, ?Hr; try done.
    + by apply (neutral_sent s s' l).
    + destruct F3 as [-> | ->]; [done|]. by intros (? & ? & _).
    + intros _ _. destruct Hend as [-> | ->]; by intros [].
    + destruct F3 as [-> | ->]; [by left|by right].
  - destruct (truncates i s) eqn:Etr; [|eapply past_stage; [exact Hp|exact Ha|exact Et|by eapply loop_stage|exact Hc]].
    unfold truncates in Etr. unfold loop_tick in Hs. destruct (at_loop s) as [|e k|a|a| |] eqn:El; try done. destruct i as [ev| |]; try done. injection Hs as <-.
    destruct ev as [|i c|a b acc| | |u|]; try done. cbn [dispatch]. pose proof (in_closed _ Hi) as Hcl. rewrite El in Hcl.
    destruct (truncate_done i c s Hi Hp Hcl) as (e & z & -> & He & Hz). assert (Hpz : past z) by (destruct Hz as [->|[n Hn]]; [done|by eapply past_truncation]).
    unfold loop_send. destruct (live z); (apply (past_keep z); try done; [by right|by left]).
Qed.

Lemma past_step s s' : inv s → loop_ok s → past s → step s s' → past s'.
Proof.
  intros Hi Hl H Hs. destruct Hs as [i s' Hs|i s' Hs|i s' Hs|s' Hs|i s' Hs|n Hn|].
  - by eapply past_response.
  - by eapply past_terminal.
  - by eapply past_turn_tick.
  - by eapply past_drain.
  - by eapply past_loop.
  - apply (past_keep s); try done; [by right|by left].
  - apply (past_keep s); try done; [by right|by left].
Qed.

(** ** Every interleaving *)
Definition reachable (s : session) : Prop := rtc step session_init s.
Record engine (s : session) : Prop := {
  en_inv : inv s;
  en_loop : loop_ok s;
  en_wire : wire_inv s;
  en_status : status_inv s;
  en_past : past s;
}.
Lemma session_reachable_engine s : reachable s → engine s.
Proof.
  intros H. refine (rtc_ind_r engine session_init _ _ s H); clear s H.
  - split; [apply inv_init|done| | |apply past_init].
    + exists WIdle. by split.
    + by intros n st reason text audio u ?%not_elem_of_nil.
  - intros s s' _ Hs [H1 H2 H3 H4 H5]. split; [by eapply inv_step|by eapply loop_ok_step|by eapply wire_step|by eapply status_step|by eapply past_step].
Qed.

(** C2. What the client sees of responses, in every interleaving of the tasks, engine faults and
    cancellations: responses come one at a time, each from [response.created] to
    [response.done] with its deltas between, its text finished before it is done and its audio
    too when it is reported, and each finished once unless the response was cancelled; and
    while the connection lives no response is left open when no response task runs. *)
Theorem responses_follow_protocol s : reachable s →
  ∃ w, protocol (cancels s) (sent s) = Some w ∧ (live s = true → (∀ i, at_turn s ≠ TAwait i) → w = WIdle).
Proof.
  intros [Hi _ (w & Hw & Hok) _ _]%session_reachable_engine. exists w. split; [done|]. intros Hl Ht.
  specialize (Hok (or_introl Hl)). unfold matches in Hok. by rewrite (idle_phase s Hi Ht) in Hok.
Qed.

(** C3. Cancellation and completion never disagree: a response is reported cancelled exactly when
    a cancellation of it was accepted, with the reason of that cancellation, whatever
    raced with it. *)
Theorem cancellation_decides_status s n st reason text audio u : reachable s → ResponseDone n st reason text audio u ∈ sent s →
  (st = Cancelled ↔ is_Some (cancels s !! n)) ∧ (st = Cancelled → cancels s !! n = Some reason).
Proof.
  intros [_ _ _ Hst _]%session_reachable_engine Hin. destruct (Hst _ _ _ _ _ _ Hin) as ([H1 H2] & _). split; [|done]. split; [intros ->; by rewrite H1|].
  intros Hx. destruct (decide (st = Cancelled)) as [|Hne]; [done|]. rewrite H2 in Hx by done. by destruct Hx.
Qed.

(** C4. The history a session keeps: the items of the conversation are those of the turns, in the
    order of the turns and none twice; an assistant item the client truncated, at whatever
    moment, is not among them, and neither is one whose response was reported cancelled or
    failed. *)
Theorem history_keeps_only_what_was_said s : reachable s →
  said s `sublist_of` dialogue (turns s) ∧ NoDup (omap assistant (said s)) ∧ (∀ n, n ∈ truncations s → Assistant n ∉ said s) ∧
  (∀ n st reason text audio u, ResponseDone n st reason text audio u ∈ sent s → st ≠ Completed → Assistant n ∉ said s).
Proof.
  intros [_ _ _ _ Hp]%session_reachable_engine. pose proof (pa_order _ Hp) as Ho. split_and!.
  - etrans; [exact Ho|]. unfold told. destruct (turn_key _); [apply dialogue_take|done].
  - by eapply sublist_dialogue_nodup.
  - intros n Hn. by destruct (pa_gone _ Hp n Hn).
  - intros n st reason text audio u Hn Hst. by destruct (pa_done _ Hp _ _ _ _ _ _ Hn Hst) as (_ & ? & _).
Qed.

(** A shielded wait has something to wait for. *)
Lemma terminal_waits x s : closing_ok x s → (terminal (resp s) = TmOk ∨ terminal (resp s) = TmFailed) ∨ ∃ i, is_Some (terminal_tick i s).
Proof.
  intros [_ _ _ H _]. unfold terminal_ok, terminal_tick in *. destruct (terminal (resp s)); [done|right; exists Go; by eexists|right; exists Go; by eexists|by left; left|by left; right].
Qed.

(** C27. A turn never gets stuck: while the drainer waits for a turn, one of the tasks of the turn
    (the turn, its response, the terminal task, an abort it waits for) or the drainer itself can
    take a step, whatever was cancelled; and between the turns of an open session nothing is
    left of a response: no active, cancelled or finalized response, no reason, no pending item. *)
Theorem turns_make_progress s : reachable s →
  (at_turn s ≠ TNone → (∃ i, is_Some (response_tick i s)) ∨ (∃ i, is_Some (terminal_tick i s)) ∨ (∃ i, is_Some (turn_tick i s)) ∨ is_Some (drain_tick s) ∨
    ∃ i out n, at_turn s = TAbort i out n ∧ n ∈ abort_tasks s) ∧
  (at_turn s = TNone → closed s = false →
    active_response_request_id (ctl s) = None ∧ cancelled_response (ctl s) = None ∧ finalized_response_request_id (ctl s) = None ∧ response_cancel_reason (ctl s) = None ∧
    response_start_pending (ctl s) = false ∧ pending_response_cancel_reason (ctl s) = None ∧ pending_assistant_item_ids (hist s) = ∅).
Proof.
  intros [Hi _ _ _ Hp]%session_reachable_engine. split.
  - intros Hn. pose proof (proj1 (in_turn _ Hi) Hn) as Hd. destruct (at_turn s) as [|k|k|k out a|k out acc|k out acc fin|k out acc|] eqn:Et; [done|..].
    4-6: right; right; left; unfold turn_tick; rewrite Et; destruct (t_cancel s); [by exists (TCancelled false); eexists|]; first [by exists TEndOfStream; eexists|by exists TGo; eexists].
    + right; right; left. unfold turn_tick. rewrite Et. destruct (t_cancel s); [by exists (TCancelled false); eexists|by exists TGo; eexists].
    + pose proof (in_phase _ Hi) as Hph. destruct (at_rpc (resp s)) as [| |e k'| |x|x|o] eqn:Er.
      * exfalso. by apply (proj2 (in_await _ Hi)); [exists k|].
      * left. unfold response_tick. rewrite Er. destruct (r_cancel _); [by exists (RCancelled false); eexists|by exists RGo; eexists].
      * left. unfold response_tick. rewrite Er. destruct (r_cancel _); [by exists (RCancelled false); eexists|by exists RGo; eexists].
      * left. unfold response_tick. rewrite Er. destruct (r_cancel _); [by exists (RCancelled false); eexists|by exists REndOfStream; eexists].
      * unfold phase_ok in Hph. rewrite Er in Hph. destruct Hph as [Hcl _]. destruct (terminal_waits x s Hcl) as [Ht|Ht]; [|by right; left].
        left. unfold response_tick. rewrite Er. destruct (r_cancel _); [by exists (RCancelled false); eexists|]. exists RGo. destruct Ht as [-> | ->]; by eexists.
      * unfold phase_ok in Hph. rewrite Er in Hph. destruct Hph as (Hcl & _ & Hrc). destruct (terminal_waits x s Hcl) as [Ht|Ht]; [|by right; left].
        left. unfold response_tick. rewrite Er, Hrc. exists RGo. destruct Ht as [-> | ->]; by eexists.
      * right; right; left. exists TGo. unfold turn_tick. rewrite Et, Er. by eexists.
    + destruct (decide (a ∈ abort_tasks s)) as [Ha|Ha]; [by right; right; right; right; eauto|]. right; right; left. unfold turn_tick. rewrite Et.
      destruct (t_cancel s); [by exists (TCancelled false); eexists|]. exists TGo. rewrite bool_decide_false by done. by eexists.
    + right; right; right; left. unfold drain_tick. rewrite Hd, Et. by eexists.
  - intros Ht Hc. assert (Hr : at_rpc (resp s) = RNone) by (apply idle_phase; [done|by rewrite Ht]). pose proof (in_phase _ Hi) as Hph. unfold phase_ok in Hph. rewrite Hr in Hph.
    destruct Hph as (H1 & H2 & H3 & _). assert (Hsp : response_start_pending (ctl s) = false).
    { destruct (response_start_pending _) eqn:E; [|done]. apply (in_pending _ Hi), (in_turn _ Hi) in E. done. }
    split_and!; try done.
    + apply eq_None_not_Some. intros Hx. destruct (in_reason _ Hi Hx) as [i Hx']. congruence.
    + apply eq_None_not_Some. intros Hx. apply (in_why _ Hi) in Hx. congruence.
    + apply set_eq. intros n. split; [|by intros ?%not_elem_of_empty]. intros Hn. destruct (pa_pending _ Hp Hc n Hn) as (_ & Hh & _). unfold holder in Hh. rewrite Hr, Ht in Hh. by destruct Hh.
Qed.
Lemma act_step a s s' : act s a = Some s' → step s s'.
Proof.
  destruct a; simpl; intros H.
  - by eapply s_response.
  - by eapply s_terminal.
  - by eapply s_turn.
  - by apply s_drain.
  - by eapply s_loop.
  - case_bool_decide; [|done]. injection H as <-. by apply s_abort.
  - injection H as <-. apply s_disconnect.
Qed.
Lemma run_reachable l s : run l session_init = Some s → reachable s.
Proof.
  revert s. induction l as [|a l IH] using rev_ind; intros s; unfold run, reachable; simpl; [intros [= <-]; apply rtc_refl|].
  rewrite foldl_app. simpl. intros (z & Hz & Ha)%bind_Some. eapply rtc_r; [by apply IH|by apply (act_step a)].
Qed.
End proofs.

(** *** A session with audio: the client truncates the answer of the first turn while it streams,
    and cancels that of the second. *)
Definition text_chunk (t : string) (f : option string) : chunk (U := unit) := mkChunk MText t "" f None.
Definition audio_chunk (f : option string) : chunk (U := unit) := mkChunk MAudio "" "UklG" f None.
Definition demo_open : list (action (P := string) (U := unit)) := [ALoop (LEvent (SessionUpdate true true true)); ALoop LGo].
Definition demo_utterance (k : nat) : list (action (P := string) (U := unit)) :=
  [ALoop (LEvent SpeechStarted); ALoop LGo; ALoop (LEvent (SpeechStopped (Some (k, "pcm")))); ALoop LGo; ALoop LGo; ADrain; ADrain; ATurn TGo; ARun RGo; ARun RGo].
Definition demo_transcript : list (action (P := string) (U := unit)) :=
  [ATurn TGo; ATurn (TChunk (text_chunk "a question" None)); ATurn TGo; ATurn TEndOfStream; ATurn TGo; ADrain].
Definition demo_truncated : list (action (P := string) (U := unit)) :=
  [ARun (RChunk (text_chunk "an answer" (Some "stop"))); ARun RGo; ARun RGo; ARun (RChunk (audio_chunk (Some "stop"))); ALoop (LEvent (ConversationItemTruncate (Assistant 0) 0)); ALoop LGo;
   ARun RGo; ARun RGo; ARun REndOfStream; ATerminal Go; ATerminal Go; ARun RGo].
Definition demo_cancelled : list (action (P := string) (U := unit)) :=
  [ARun (RChunk (text_chunk "another" None)); ALoop (LEvent ResponseCancel); ARun (RCancelled true); ATerminal Go; ATerminal Go; ATerminal Go; ARun RGo; AAbortEnds 1].
Definition demo_run : list (action (P := string) (U := unit)) := demo_open ++ demo_utterance 7 ++ demo_truncated ++ demo_transcript ++ demo_utterance 8 ++ demo_cancelled ++ demo_transcript.
Definition demo_state : session (P := string) (U := unit) := default session_init (run demo_run session_init).
Lemma demo_runs : run demo_run session_init = Some demo_state.
Proof. vm_compute. reflexivity. Qed.

Lemma responses_follow_protocol_witness : ∃ w, protocol (cancels demo_state) (sent demo_state) = Some w ∧ (live demo_state = true → (∀ i, at_turn demo_state ≠ TAwait i) → w = WIdle).
Proof. apply (responses_follow_protocol demo_state). exact (run_reachable demo_run _ demo_runs). Defined.
Lemma cancellation_decides_status_witness : ResponseDone 1 Cancelled "client_cancelled" "another" false None ∈ sent demo_state ∧
  (Cancelled = Cancelled ↔ is_Some (cancels demo_state !! 1)) ∧ (Cancelled = Cancelled → cancels demo_state !! 1 = Some "client_cancelled").
Proof.
  assert (H : ResponseDone 1 Cancelled "client_cancelled" "another" false None ∈ sent demo_state) by (apply list_elem_of_lookup; exists 19; vm_compute; reflexivity).
  split; [exact H|]. apply (cancellation_decides_status demo_state 1 Cancelled "client_cancelled" "another" false None); [exact (run_reachable demo_run _ demo_runs)|exact H].
Defined.
Lemma history_keeps_only_what_was_said_witness : (0 ∈ truncations demo_state ∧ said demo_state = [User 7; User 8]) ∧
  said demo_state `sublist_of` dialogue (turns demo_state) ∧ NoDup (omap assistant (said demo_state)) ∧ (∀ n, n ∈ truncations demo_state → Assistant n ∉ said demo_state) ∧
  (∀ n st reason text audio u, ResponseDone n st reason text audio u ∈ sent demo_state → st ≠ Completed → Assistant n ∉ said demo_state).
Proof.
  split; [split; [vm_compute; reflexivity|vm_compute; reflexivity]|].
  apply (history_keeps_only_what_was_said demo_state). exact (run_reachable demo_run _ demo_runs).
Defined.
Lemma turns_make_progress_witness : at_turn demo_state = TNone ∧ pending_assistant_item_ids (hist demo_state) = ∅.
Proof.
  assert (H : at_turn demo_state = TNone) by (vm_compute; reflexivity). split; [exact H|].
  apply (turns_make_progress demo_state); [exact (run_reachable demo_run _ demo_runs)|exact H|vm_compute; reflexivity].
Defined.

(** A cancellation that comes while the stream loop awaits the send of [response.text.done], after
    it was delivered, makes the terminal events send it again. *)
Definition demo_repeated : list (action (P := string) (U := unit)) :=
  demo_open ++ demo_utterance 7 ++ [ARun (RChunk (text_chunk "an answer" (Some "stop"))); ARun RGo; ALoop (LEvent ResponseCancel); ARun (RCancelled true); ATerminal Go; ATerminal Go].
Lemma text_done_repeated : ∃ s, run demo_repeated session_init = Some s ∧ omap (λ e, match e with TextDone n text => Some (n, text) | _ => None end) (sent s) = [(0, "an answer"); (0, "an answer")].
Proof. eexists. split; vm_compute; reflexivity. Qed.
